(* ===== verification/_CoqProject ===== *)
-Q . S2P
Prelude.v
Bits.v
Utf8.v
Search.v
Sort.v
Segments.v
PdqSort.v
StableSort.v
JsonScanner.v
JsonGrammar.v
Utf16.v
Varint.v
Base64.v
Base64Correct.v
Base64Safe.v
IsPrint.v
Quote.v
QuoteCorrect.v
QuoteSafe.v
LinkedList.v
LinkedListCorrect.v
LinkedListSpec.v
Buffer.v
BufferCorrect.v
BufferSpec.v
Heap.v
BigWords.v
BigWordsCorrect.v
BigNat.v
BigNatCorrect.v
BigMul.v
BigMulCorrect.v
BigDivide.v
BigDiv.v
BigDivRec.v
BigSpec.v
BigBits.v
BigNatFuns.v
BigInt.v
BigIntCorrect.v
BigIntSpec.v
BigGcd.v
BigGcdCorrect.v
BigExp.v
BigExpCorrect.v
BigExpModes.v
BigExpSpec.v
RWMutex.v
RWMutexCorrect.v
RWMutexSpec.v
Path.v
PathCorrect.v
PathSpec.v
Lzw.v
LzwBits.v
LzwDict.v
LzwReader.v
LzwDecode.v
LzwWriter.v
LzwEncode.v
LzwSpec.v
Bufio.v
BufioReader.v
BufioLine.v
BufioWriter.v
BufioSpec.v
Scanner.v
ScannerCorrect.v
ScannerSplits.v
ScannerSpec.v
Flate.v
FlateTables.v
FlateBits.v
FlateDict.v
FlateRef.v
FlateTrees.v
FlateBlocks.v
LzwBufio.v
FlateSpec.v
