(* ===== verification/Prelude.v ===== *)
(** * Verification of parts of the Go standard library

    The repository is a copy of the Go standard library.  This development
    translates a number of its packages that carry algorithms of their own
    into Rocq functions and proves what makes them correct.

    ** Conventions

    A Go function that can panic or loop is a function into [res] (below): [Ok]
    a normal return, [Panic] a run-time panic (an index out of range, an
    explicit panic, a nil pointer followed), [NoFuel] the fuel of a loop used
    up.  Theorems are stated with [m ⇓ Q]: the run returns normally, without a
    panic and within the fuel the definition itself gives its loops, and its
    result satisfies [Q].  So every such theorem is one of total correctness,
    and the fuel is no hypothesis: each loop gets a number of rounds computed
    from its input (a length plus one, or a constant where the code's own bound
    is one), and [loop_returns] asks for a measure below it.  Integers are [Z];
    where the Go type has a width and the code can reach its bounds, the
    wrap-around is written out ([u8] to [u64], [i32], [i64]).  Bytes are [Z]
    with [byte_ok]; slices and strings are lists with checked indexing ([idx],
    [upd], [slice]).  Pointers (container/list) are addresses of a store.

    ** Files

    - Prelude.v: this vocabulary and the lemmas and tactics the files share.
    - Bits.v (src/math/bits): every function, the word size of uint an
      argument.  Theorems: exactness of Add64, Sub64, Mul64; Div64 and Rem64
      against division of the 128-bit number, panics included; Len,
      LeadingZeros and TrailingZeros by bits; OnesCount64; Reverse, RotateLeft.
    - Utf8.v (src/unicode/utf8): every function, with the word-at-a-time loop
      of Valid.  Specification: the encoding of Unicode scalar values and the
      table of well-formed sequences.  Theorems: decoding inverts encoding,
      accepts well-formed sequences only; Valid, RuneCount, DecodeLastRune,
      FullRune against that specification; the string variants agree; writing
      into a short buffer panics before it changes anything.
    - Utf16.v (src/unicode/utf16): every function; Decode after Encode, and
      Encode against the standard's description.
    - Search.v (src/sort/search.go, BinarySearchFunc of src/slices/sort.go):
      the bisection loop over a predicate; the index returned is the boundary.
    - Sort.v (src/slices/zsortanyfunc.go, src/slices/sort.go): pdqsort with its
      pivot choice, pattern breaking, partial insertion sort and heapsort
      fallback, and the stable SymMerge sort.  Segments.v holds ordered
      segments and permutations confined to one; PdqSort.v proves that SortFunc
      sorts any slice for any strict weak ordering; StableSort.v that
      SortStableFunc also keeps equal elements in order.
    - JsonScanner.v (src/encoding/json/scanner.go): the scanner as a state
      machine with its parse-state stack and nesting limit.  JsonGrammar.v: the
      grammar of RFC 8259 as inductive predicates; Valid accepts exactly the
      texts of the grammar nested at most 10000 deep.  Also: the offset of the
      error reported, and that an error is final.
    - Varint.v (src/encoding/binary/varint.go): round trips, classification of
      every buffer, and the reader-based forms against the buffer ones, for any
      io.ByteReader (class [ByteReader]).
    - Base64.v, Base64Correct.v, Base64Safe.v (src/encoding/base64/base64.go):
      encodings and their tables, Encode, Decode with both fast paths.  The
      stores of internal/byteorder, which is outside the sources, are the class
      [BigEndianStore] with the laws [BigEndianLaws]; [plain_store] is an
      instance.  Theorems: the text Encode writes, the round trip, and that
      Decode stays inside its destination on any input.
    - IsPrint.v (src/strconv/isprint.go and IsPrint, IsGraphic of quote.go), with
      the tables; Quote.v (src/strconv/quote.go), QuoteCorrect.v, QuoteSafe.v:
      unquoting undoes quoting for any byte string and any rune; Unquote returns
      on any input; raw strings.
    - LinkedList.v (src/container/list): every method over a store of elements
      and lists.  LinkedListCorrect.v: a list as a ring of links, the change
      each method makes to it and the lists it leaves alone.  LinkedListSpec.v:
      abstract lists with a step relation, and the simulation.
    - Buffer.v (src/bytes/buffer.go): every method of Buffer, over a slice with
      its backing array, length and capacity; bytealg.IndexByte, the capacity
      that append chooses, readers and writers are arguments with laws.
      BufferCorrect.v: the state by its unread bytes.  BufferSpec.v: a buffer
      refines a queue of bytes; ReadFrom and WriteTo against any reader and
      writer; the unread operations, with two examples where the code and its
      comments differ.
    - Heap.v (src/container/heap): every function over the class [Interface]
      with the laws [InterfaceLaws]; each operation keeps the heap and the
      elements, and popping drains it in order.
    - math/big: BigWords.v (arith.go: vectors of words, over the class
      [Platform] of the two word sizes), BigNat.v (nat.go: numbers without
      leading zeros), BigMul.v (natmul.go and the signed additions of int.go:
      Karatsuba's multiplication and the squarings), BigDivide.v (natdiv.go:
      division by a word, long and recursive division); the correctness of
      each in BigWordsCorrect.v, BigNatCorrect.v, BigMulCorrect.v, BigDiv.v
      (words and long division) and BigDivRec.v (recursive division).
      BigSpec.v: exact results for operands of every length, with nothing
      assumed of reused or scratch storage but its length.  The recursions of
      mul and of divRecursiveStep are given as much fuel as the operands have
      words: each call is on strictly fewer.
      BigBits.v and BigNatFuns.v: the bitwise operations and the other
      functions of nat.go.  BigInt.v (int.go: the methods of Int),
      BigIntCorrect.v, and BigIntSpec.v: a program over the methods computes
      the integers, with its panics.  BigGcd.v and BigExp.v: Lehmer's
      greatest common divisors, modular inverses, Montgomery multiplication
      and the exponentiations; BigGcdCorrect.v, BigExpCorrect.v (Montgomery
      multiplication, congruences, square and multiply, windows of the
      exponent), BigExpModes.v (the exponentiations by modulus) and
      BigExpSpec.v (Exp, GCD and ModInverse, with the operands for which they
      differ from their comments).  The Lehmer loop has one round of fuel per
      bit of the operands, which each round halves; the loops over single
      words have twice the word size.
    - RWMutex.v (src/sync/rwmutex.go): every method, as steps of goroutines
      interleaved at each atomic operation, over the class [Runtime] of the
      mutex and the semaphores.  RWMutexCorrect.v: the invariant of the shared
      state.  RWMutexSpec.v: mutual exclusion, no reader overtakes a waiting
      writer, no state is stuck while a lock is wanted, and the refinement of
      an abstract lock.
    - Path.v (src/path/path.go): every function; PathCorrect.v, PathSpec.v:
      Clean is the fold of the elements over a stack of names, its result is
      in normal form, Join and the parts of a path.
    - compress/lzw: Lzw.v (reader.go and writer.go, every function, over the
      classes [ByteReader] and [writer]).  LzwBits.v: streams of codes as bits.
      LzwDict.v: the specification, a decoder as steps over the bits and the
      greedy encoder, and that one undoes the other.  LzwReader.v and
      LzwDecode.v: the tables of the Reader and each round of its loop against
      the decoder.  LzwWriter.v: the hash table with linear probing is a map,
      and the codes the Writer sends; LzwEncode.v: the Writer against the encoder.  LzwSpec.v:
      any writes and reads, for every destination and source, with two
      examples where the code and its comments differ.  The loop of decode
      takes as fuel one round per bit of the source: each round reads at least
      three.
    - bufio: Bufio.v (src/bufio/bufio.go, every method of Reader and Writer,
      over the classes [ioReader] and [ioWriter]; bytes.IndexByte is the class
      [Bytealg]).  BufioReader.v: the class [Source] of readers that keep the
      contract of io.Reader, the queue of a Reader, fill and the
      reading methods; BufioLine.v: the delimited ones.  BufioWriter.v: the
      class [Sink], what a Writer has accepted, WriteTo and ReadFrom.  BufioSpec.v: any calls of a Reader
      are those of a stream with one step back, any calls of a Writer those of
      a log, with an example where UnreadByte repeats a byte.  fill has the
      fuel of its own bound of empty reads; the loops over buffers have that
      of the buffer or of the data, of which each round takes a byte or ends.
      Scanner.v (src/bufio/scan.go, every method and split function).
      ScannerCorrect.v: the class [SplitLaws] of split functions that decide on
      a part of the data as on all of it, and each round of Scan.
      ScannerSplits.v: the four functions keep it, and cut the data into its
      bytes, runes, lines and words.  ScannerSpec.v: the loop over the tokens,
      up to the limit on their length.  Each round of Scan reads, so it has the
      fuel of the bytes that are left.
    - compress/flate, the decompressor: Flate.v (src/compress/flate/inflate.go
      and dict_decoder.go, every function, with io.ReadFull, over the classes
      [ioReader] and [byteReader]).  FlateTables.v: canonical codes, and that
      the tables init builds find the code that starts the bits, for codes of
      any lengths.  FlateBits.v: the bits ahead as a list; huffSym takes the
      code at its start and fetches no byte it does not need.  FlateDict.v: the
      window holds the end of the history, and its copies are those of the
      format, overlapping or wrapped.  FlateRef.v: the format of RFC 1951, an
      executable machine of steps over the bits, without tables or a window.
      FlateTrees.v: the trees of a dynamic block.  FlateBlocks.v: the relation
      between the states of the decompressor and of the machine, and each step
      of the former as steps of the latter.  FlateSpec.v: any reads, over any
      source with ReadByte or through a bufio.Reader; the output, io.EOF, and
      that no byte is taken beyond the stream; no panic and no false io.EOF on
      any input.  The steps have 13 rounds of fuel per bit of the source: each
      round of a block reads a bit or finishes a copy, and io.ReadFull has a
      hundred rounds per byte, the bound of the reads without data.
    - LzwBufio.v: the Readers and Writers of bufio keep the classes that
      compress/lzw asks for, and the round trip over any io.Writer and
      io.Reader through the buffers that its constructors add.

    ** Not modelled

    The cmp.Ordered variants of the sorts, which are generated copies of the
    ones modelled; the streaming encoder and decoder of base64; the pool of
    scanners and the text of errors of encoding/json; the packages that are
    mostly input and output, system calls, reflection, cryptography in
    assembly, protocols or generated tables (net, os, crypto, reflect, simd,
    unicode tables, time zones and so on), and internal packages, which are not
    part of the sources.

    ** This file

    Results, loops, machine integers, bytes and slices. *)
From Stdlib Require Import Ascii String ZArith Lia Permutation.
From stdpp Require Import base numbers list.

#[global] Open Scope Z_scope.
#[global] Open Scope list_scope.

(** ** Results *)

Inductive res (A : Type) : Type :=
| Ok (a : A)
| Panic
| NoFuel.
Arguments Ok {A} a.
Arguments Panic {A}.
Arguments NoFuel {A}.

Definition rbind {A B} (m : res A) (k : A -> res B) : res B :=
  match m with
  | Ok a => k a
  | Panic => Panic
  | NoFuel => NoFuel
  end.

Declare Scope res_scope.
Delimit Scope res_scope with res.
Notation "'let!' x := m 'in' k" := (rbind m (fun x => k))
  (at level 10, x binder, m at level 100, k at level 200,
   format "'[v' 'let!'  x  :=  m  'in' '/' k ']'") : res_scope.
Notation "'let!' ' p := m 'in' k" := (rbind m (fun x => match x with p => k end))
  (at level 10, p strict pattern, m at level 100, k at level 200,
   format "'[v' 'let!'  ' p  :=  m  'in' '/' k ']'") : res_scope.
#[global] Open Scope res_scope.

Definition returns {A} (m : res A) (Q : A -> Prop) : Prop :=
  match m with
  | Ok a => Q a
  | Panic | NoFuel => False
  end.
Notation "m ⇓ Q" := (returns m Q) (at level 70, no associativity) : res_scope.

Lemma returns_bind {A B} (m : res A) (k : A -> res B) (Q : B -> Prop) :
  m ⇓ (fun a => k a ⇓ Q) -> rbind m k ⇓ Q.
Proof. by destruct m. Qed.

Lemma returns_mono {A} (m : res A) (P Q : A -> Prop) :
  m ⇓ P -> (forall a, P a -> Q a) -> m ⇓ Q.
Proof. destruct m; simpl; auto. Qed.

Lemma returns_bind_mono {A B} (m : res A) (k : A -> res B) (P : A -> Prop) (Q : B -> Prop) :
  m ⇓ P -> (forall a, P a -> k a ⇓ Q) -> rbind m k ⇓ Q.
Proof. destruct m; simpl; auto. Qed.

Lemma returns_Ok {A} (a : A) (Q : A -> Prop) : Q a -> Ok a ⇓ Q.
Proof. done. Qed.

Lemma returns_inv {A} (m : res A) (Q : A -> Prop) :
  m ⇓ Q -> exists a, m = Ok a /\ Q a.
Proof. destruct m; simpl; [eauto | done | done]. Qed.

Lemma returns_conj {A} (m : res A) (P Q : A -> Prop) :
  m ⇓ P -> m ⇓ Q -> m ⇓ (fun a => P a /\ Q a).
Proof. destruct m; simpl; auto. Qed.

(** ** Loops

    [loop fuel body s] runs [body] on the loop state until it leaves the loop
    with [inr].  [loop_returns] is its total-correctness rule: an invariant
    and a measure below the fuel. *)

Fixpoint loop {S R} (fuel : nat) (body : S -> res (S + R)) (s : S) : res R :=
  match fuel with
  | O => NoFuel
  | S n =>
      let! r := body s in
      match r with
      | inl s' => loop n body s'
      | inr x => Ok x
      end
  end.

Lemma loop_inl {S R} (body : S -> res (S + R)) n s s' :
  body s = Ok (inl s') -> loop (Datatypes.S n) body s = loop n body s'.
Proof. intros H. simpl. by rewrite H. Qed.

Lemma loop_inr {S R} (body : S -> res (S + R)) n s x :
  body s = Ok (inr x) -> loop (Datatypes.S n) body s = Ok x.
Proof. intros H. simpl. by rewrite H. Qed.

Lemma loop_returns {S R} (I : S -> Prop) (mu : S -> Z) (Q : R -> Prop)
    (body : S -> res (S + R)) :
  (forall s, I s ->
     body s ⇓ (fun r => match r with
                        | inl s' => I s' /\ 0 <= mu s' < mu s
                        | inr x => Q x
                        end)) ->
  forall fuel s, I s -> mu s < Z.of_nat fuel -> 0 <= mu s -> loop fuel body s ⇓ Q.
Proof.
  intros Hb fuel. induction fuel as [|n IH]; intros s Hs Hf H0; [lia|]. simpl.
  eapply returns_bind_mono; [by apply Hb|]. intros [s'|x]; [|done].
  intros [Hs' Hmu]. apply IH; [done| lia | lia].
Qed.

(** ** Machine integers *)

Definition u8 (x : Z) : Z := x mod 2 ^ 8.
Definition u16 (x : Z) : Z := x mod 2 ^ 16.
Definition u32 (x : Z) : Z := x mod 2 ^ 32.
Definition u64 (x : Z) : Z := x mod 2 ^ 64.
Definition signed (w x : Z) : Z := (x + 2 ^ (w - 1)) mod 2 ^ w - 2 ^ (w - 1).
Definition i32 (x : Z) : Z := signed 32 x.
Definition i64 (x : Z) : Z := signed 64 x.

Lemma u8_range x : 0 <= u8 x < 256.
Proof. unfold u8. apply Z.mod_pos_bound. lia. Qed.
Lemma u16_range x : 0 <= u16 x < 2 ^ 16.
Proof. unfold u16. apply Z.mod_pos_bound. lia. Qed.
Lemma u32_range x : 0 <= u32 x < 2 ^ 32.
Proof. unfold u32. apply Z.mod_pos_bound. lia. Qed.
Lemma u64_range x : 0 <= u64 x < 2 ^ 64.
Proof. unfold u64. apply Z.mod_pos_bound. lia. Qed.
Lemma u8_id x : 0 <= x < 256 -> u8 x = x.
Proof. intros. unfold u8. apply Z.mod_small. lia. Qed.
Lemma u16_id x : 0 <= x < 2 ^ 16 -> u16 x = x.
Proof. intros. unfold u16. apply Z.mod_small. lia. Qed.
Lemma u32_id x : 0 <= x < 2 ^ 32 -> u32 x = x.
Proof. intros. unfold u32. apply Z.mod_small. lia. Qed.
Lemma u64_id x : 0 <= x < 2 ^ 64 -> u64 x = x.
Proof. intros. unfold u64. apply Z.mod_small. lia. Qed.
Lemma i32_id x : - 2 ^ 31 <= x < 2 ^ 31 -> i32 x = x.
Proof. intros. unfold i32, signed. rewrite Z.mod_small; lia. Qed.
Lemma i64_id x : - 2 ^ 63 <= x < 2 ^ 63 -> i64 x = x.
Proof. intros. unfold i64, signed. rewrite Z.mod_small; lia. Qed.

(** ** Bit operations as arithmetic *)

Lemma land_ones' x n k : 0 <= n -> k = 2 ^ n - 1 -> Z.land x k = x mod 2 ^ n.
Proof.
  intros Hn ->. replace (2 ^ n - 1) with (Z.ones n) by (rewrite Z.ones_equiv; lia).
  by apply Z.land_ones.
Qed.

Lemma shiftr_div x n : 0 <= n -> Z.shiftr x n = x / 2 ^ n.
Proof. apply Z.shiftr_div_pow2. Qed.

Lemma shiftl_mul x n : 0 <= n -> Z.shiftl x n = x * 2 ^ n.
Proof. apply Z.shiftl_mul_pow2. Qed.

(** Two numbers whose bits do not overlap: [hi] is a multiple of [2^n] and
    [lo] is below it. *)
Lemma lor_disjoint hi lo n :
  0 <= n -> hi mod 2 ^ n = 0 -> 0 <= lo < 2 ^ n -> Z.lor hi lo = hi + lo.
Proof.
  intros Hn Hhi Hlo. rewrite Z.add_nocarry_lxor, Z.lxor_lor; [done| |];
    apply Z.bits_inj'; intros k Hk; rewrite Z.land_spec, Z.bits_0.
  all: destruct (decide (k < n)).
  all: try by rewrite <- (Z.mod_pow2_bits_low hi n k), Hhi, Z.bits_0 by lia.
  all: rewrite <- (Z.mod_small lo (2 ^ n)), Z.mod_pow2_bits_high by lia;
    by rewrite andb_false_r.
Qed.

Lemma lor_disjoint_mul hi lo n :
  0 <= n -> 0 <= lo < 2 ^ n -> Z.lor (hi * 2 ^ n) lo = hi * 2 ^ n + lo.
Proof. intros. apply (lor_disjoint _ _ n); [done| |done]. apply Z.mod_mul. lia. Qed.

(** Splitting a range of integers into its members, for statements checked
    member by member. *)
Fixpoint zrange (lo : Z) (n : nat) : list Z :=
  match n with
  | O => []
  | S n => lo :: zrange (lo + 1) n
  end.

Lemma zrange_In lo n x : lo <= x < lo + Z.of_nat n -> In x (zrange lo n).
Proof.
  revert lo. induction n as [|n IH]; intros lo H; [lia|]. simpl.
  destruct (decide (x = lo)); [by left|]. right. apply IH. lia.
Qed.

Lemma zrange_forallb (P : Z -> bool) lo n :
  forallb P (zrange lo n) = true -> forall x, lo <= x < lo + Z.of_nat n -> P x = true.
Proof. intros H x Hx. rewrite forallb_forall in H. by apply H, zrange_In. Qed.

(** ** Bytes and text *)

Definition byte_ok (b : Z) : Prop := 0 <= b < 256.
Definition bytes_ok (p : list Z) : Prop := Forall byte_ok p.

#[global] Instance byte_ok_dec b : Decision (byte_ok b).
Proof. unfold byte_ok. apply _. Defined.
#[global] Instance bytes_ok_dec p : Decision (bytes_ok p).
Proof. unfold bytes_ok. apply _. Defined.

(** Character constants: ['x'] of the source is [ch "x"]. *)
Definition ch (a : ascii) : Z := Z.of_N (N_of_ascii a).
Definition str (s : string) : list Z := map ch (list_ascii_of_string s).

Lemma ch_ok a : byte_ok (ch a).
Proof. unfold byte_ok, ch. pose proof (N_ascii_bounded a). lia. Qed.

Lemma str_ok s : bytes_ok (str s).
Proof.
  unfold str, bytes_ok. apply Forall_map, Forall_true. intros. apply ch_ok.
Qed.

(** ** Slices

    A slice is the list of its elements.  [idx] and [upd] are [s[i]] and
    [s[i] = x]; [slice s i j] is [s[i:j]].  Out of range they panic, as Go
    does. *)

Definition len {A} (l : list A) : Z := Z.of_nat (length l).

Definition idx {A} (l : list A) (i : Z) : res A :=
  if 0 <=? i then
    match l !! Z.to_nat i with
    | Some x => Ok x
    | None => Panic
    end
  else Panic.

Definition upd {A} (l : list A) (i : Z) (x : A) : res (list A) :=
  if (0 <=? i) && (i <? len l) then Ok (<[Z.to_nat i := x]> l) else Panic.

Definition slice {A} (l : list A) (i j : Z) : res (list A) :=
  if (0 <=? i) && (i <=? j) && (j <=? len l)
  then Ok (take (Z.to_nat (j - i)) (drop (Z.to_nat i) l)) else Panic.

(** [s[i:]] *)
Definition slice_from {A} (l : list A) (i : Z) : res (list A) := slice l i (len l).

(** [s[i], s[j] = s[j], s[i]] *)
Definition swap {A} (l : list A) (i j : Z) : res (list A) :=
  let! x := idx l i in
  let! y := idx l j in
  let! l := upd l i y in
  upd l j x.

Lemma len_nonneg {A} (l : list A) : 0 <= len l.
Proof. unfold len. lia. Qed.
Lemma len_replicate {A} n (x : A) : len (replicate n x) = Z.of_nat n.
Proof. unfold len. by rewrite length_replicate. Qed.

Lemma len_app {A} (l k : list A) : len (l ++ k) = len l + len k.
Proof. unfold len. rewrite length_app. lia. Qed.

Lemma len_cons {A} (x : A) l : len (x :: l) = 1 + len l.
Proof. unfold len. simpl length. lia. Qed.

Lemma len_nil {A} : len (@nil A) = 0.
Proof. done. Qed.

Lemma len_zero_inv {A} (l : list A) : len l = 0 -> l = [].
Proof. destruct l; [done|]. rewrite len_cons. pose proof (len_nonneg l). lia. Qed.

Lemma idx_returns {A} (l : list A) i (Q : A -> Prop) :
  0 <= i < len l -> (forall x, l !! Z.to_nat i = Some x -> Q x) -> idx l i ⇓ Q.
Proof.
  unfold len, idx. intros Hi HQ. rewrite (proj2 (Z.leb_le 0 i)) by lia.
  destruct (lookup_lt_is_Some_2 l (Z.to_nat i)) as [x Hx]; [lia|].
  rewrite Hx. simpl. by apply HQ.
Qed.

Lemma idx_Ok {A} (l : list A) i x :
  0 <= i -> l !! Z.to_nat i = Some x -> idx l i = Ok x.
Proof. intros Hi Hx. unfold idx. by rewrite (proj2 (Z.leb_le 0 i)), Hx by lia. Qed.

Lemma idx_inv {A} (l : list A) i x :
  idx l i = Ok x -> 0 <= i < len l /\ l !! Z.to_nat i = Some x.
Proof.
  unfold idx. destruct (Z.leb_spec 0 i); [|done].
  destruct (l !! Z.to_nat i) eqn:E; [|done]. intros [= ->].
  split; [|done]. apply lookup_lt_Some in E. unfold len. lia.
Qed.

Lemma upd_Ok {A} (l : list A) i x :
  0 <= i < len l -> upd l i x = Ok (<[Z.to_nat i := x]> l).
Proof.
  intros Hi. unfold upd.
  rewrite (proj2 (Z.leb_le 0 i)), (proj2 (Z.ltb_lt i (len l))) by lia. done.
Qed.

Lemma len_insert {A} (l : list A) i x : len (<[i := x]> l) = len l.
Proof. unfold len. by rewrite length_insert. Qed.

Lemma slice_Ok {A} (l : list A) i j :
  0 <= i <= j -> j <= len l ->
  slice l i j = Ok (take (Z.to_nat (j - i)) (drop (Z.to_nat i) l)).
Proof.
  intros Hi Hj. unfold slice. rewrite !(proj2 (Z.leb_le _ _)) by lia. done.
Qed.

Lemma slice_from_Ok {A} (l : list A) i :
  0 <= i <= len l -> slice_from l i = Ok (drop (Z.to_nat i) l).
Proof.
  intros Hi. unfold slice_from. rewrite slice_Ok by lia. f_equal.
  apply take_ge. rewrite length_drop. unfold len in *. lia.
Qed.

Lemma slice_split {A} (d : list A) n :
  0 <= n <= len d -> exists d1 d2, d = d1 ++ d2 /\ len d1 = n.
Proof.
  intros Hn. exists (take (Z.to_nat n) d), (drop (Z.to_nat n) d). rewrite take_drop. split; [done|].
  unfold len in *. rewrite length_take. lia.
Qed.

(** Reading and writing at the boundary of a concatenation. *)
Lemma idx_app {A} (d : list A) x r i : i = len d -> idx (d ++ x :: r) i = Ok x.
Proof.
  intros ->. apply idx_Ok; [apply len_nonneg|]. unfold len. rewrite Nat2Z.id.
  by apply list_lookup_middle.
Qed.

Lemma upd_app {A} (d : list A) x y r i : i = len d -> upd (d ++ x :: r) i y = Ok (d ++ y :: r).
Proof.
  intros ->. rewrite upd_Ok by (rewrite len_app, len_cons; pose proof (len_nonneg d);
    pose proof (len_nonneg r); lia).
  f_equal. unfold len. rewrite Nat2Z.id. by rewrite insert_app_r_alt, Nat.sub_diag by lia.
Qed.

Lemma upd_end {A} (d : list A) y : upd d (len d) y = Panic.
Proof. unfold upd. rewrite Z.ltb_irrefl. by rewrite andb_false_r. Qed.

(** The exchange of two elements, and its effect. *)
Definition exchange {A} (l : list A) (i j : nat) : list A :=
  match l !! i, l !! j with
  | Some x, Some y => <[j := x]> (<[i := y]> l)
  | _, _ => l
  end.

Lemma exchange_length {A} (l : list A) i j : length (exchange l i j) = length l.
Proof.
  unfold exchange. destruct (l !! i); [|done]. destruct (l !! j); [|done].
  by rewrite !length_insert.
Qed.

Lemma swap_Ok {A} (l : list A) i j :
  0 <= i < len l -> 0 <= j < len l ->
  swap l i j = Ok (exchange l (Z.to_nat i) (Z.to_nat j)).
Proof.
  intros Hi Hj. unfold swap.
  destruct (lookup_lt_is_Some_2 l (Z.to_nat i)) as [x Hx]; [unfold len in *; lia|].
  destruct (lookup_lt_is_Some_2 l (Z.to_nat j)) as [y Hy]; [unfold len in *; lia|].
  rewrite (idx_Ok l i x), (idx_Ok l j y) by (done || lia). simpl.
  rewrite upd_Ok by done. simpl. rewrite upd_Ok by (by rewrite len_insert).
  unfold exchange. by rewrite Hx, Hy.
Qed.

Lemma exchange_lookup {A} (l : list A) i j k :
  (i < length l)%nat -> (j < length l)%nat ->
  exchange l i j !! k =
    if decide (k = j) then l !! i else if decide (k = i) then l !! j else l !! k.
Proof.
  intros Hi Hj. unfold exchange.
  destruct (lookup_lt_is_Some_2 l i) as [x Hx]; [done|].
  destruct (lookup_lt_is_Some_2 l j) as [y Hy]; [done|].
  rewrite Hx, Hy. case_decide as E1; subst.
  - by rewrite list_lookup_insert_eq by (by rewrite length_insert).
  - rewrite list_lookup_insert_ne by done. case_decide as E2; subst.
    + by rewrite list_lookup_insert_eq.
    + by rewrite list_lookup_insert_ne.
Qed.

Lemma exchange_Permutation {A} (l : list A) i j : Permutation (exchange l i j) l.
Proof.
  unfold exchange. destruct (l !! i) as [x|] eqn:Hx; [|done].
  destruct (l !! j) as [y|] eqn:Hy; [|done].
  destruct (decide (i = j)) as [->|Hne].
  - rewrite Hx in Hy. simplify_eq. by rewrite (list_insert_id l), list_insert_id.
  - apply (Permutation_inj). split; [by rewrite !length_insert|].
    exists (fun k => if decide (k = i) then j else if decide (k = j) then i else k).
    split.
    + intros a b. repeat case_decide; congruence.
    + intros k. repeat case_decide; subst.
      * by rewrite list_lookup_insert_ne, list_lookup_insert_eq
          by (done || by eapply lookup_lt_Some).
      * rewrite list_lookup_insert_eq by (rewrite length_insert; by eapply lookup_lt_Some).
        done.
      * by rewrite !list_lookup_insert_ne.
Qed.

(** ** Automation *)

Create HintDb gostd.
#[export] Hint Resolve len_nonneg u8_range u16_range u32_range u64_range ch_ok str_ok
  exchange_Permutation : gostd.

Create Rewrite HintDb gostd_len.
#[export] Hint Rewrite @len_app @len_cons @len_insert @length_app
  @length_insert @exchange_length : gostd_len.

(** Case analysis on the boolean comparison a branch of the code tests. *)
Ltac zcase :=
  match goal with
  | |- context [?x =? ?y] => destruct (Z.eqb_spec x y)
  | |- context [?x <? ?y] => destruct (Z.ltb_spec x y)
  | |- context [?x <=? ?y] => destruct (Z.leb_spec x y)
  | |- context [?x >? ?y] => destruct (Z.gtb_spec x y)
  | |- context [?x >=? ?y] => destruct (Z.geb_spec x y)
  end.
Ltac zcases := repeat (zcase; simpl; try lia).

(** Linear arithmetic with division and remainder by constants. *)
Ltac zdm := Z.div_mod_to_equations; lia.

(** Arithmetic about lengths: simplifies [len] of explicit lists and adds that
    the remaining lengths are not negative. *)
Ltac len_simpl :=
  autorewrite with gostd_len in *;
  repeat match goal with
    | |- context [len (@nil ?A)] => change (len (@nil A)) with 0
    | H : context [len (@nil ?A)] |- _ => change (len (@nil A)) with 0 in H
    end.
Ltac len_facts :=
  repeat match goal with
    | |- context [len ?l] =>
        lazymatch goal with
        | _ : 0 <= len l |- _ => fail
        | _ => pose proof (len_nonneg l)
        end
    | _ : context [len ?l] |- _ =>
        lazymatch goal with
        | _ : 0 <= len l |- _ => fail
        | _ => pose proof (len_nonneg l)
        end
    end.
Ltac len_lia := len_simpl; len_facts; lia.
