(* ===== verification/Bits.v ===== *)
(** * Package math/bits

    Unsigned integers of width [w] are [Z] in [0, 2^w); additions, products
    and left shifts wrap around with [u8] ... [u64].  [LeadingZeros64],
    [TrailingZeros64], [Len64], [Reverse64], [ReverseBytes64], [RotateLeft64],
    [Add64], [Sub64], [Mul64], [Div64] and [Rem64] and their narrower variants
    of src/math/bits/bits.go, over the tables of bits_tables.go.  The [uint]
    variants take the word size as an argument. *)
From Stdlib Require Import ZArith Lia.
From stdpp Require Import base numbers list.
From S2P Require Import Prelude.

(** ** Tables *)

Definition ntz8tab : list Z :=
  [8; 0; 1; 0; 2; 0; 1; 0; 3; 0; 1; 0; 2; 0; 1; 0;
   4; 0; 1; 0; 2; 0; 1; 0; 3; 0; 1; 0; 2; 0; 1; 0;
   5; 0; 1; 0; 2; 0; 1; 0; 3; 0; 1; 0; 2; 0; 1; 0;
   4; 0; 1; 0; 2; 0; 1; 0; 3; 0; 1; 0; 2; 0; 1; 0;
   6; 0; 1; 0; 2; 0; 1; 0; 3; 0; 1; 0; 2; 0; 1; 0;
   4; 0; 1; 0; 2; 0; 1; 0; 3; 0; 1; 0; 2; 0; 1; 0;
   5; 0; 1; 0; 2; 0; 1; 0; 3; 0; 1; 0; 2; 0; 1; 0;
   4; 0; 1; 0; 2; 0; 1; 0; 3; 0; 1; 0; 2; 0; 1; 0;
   7; 0; 1; 0; 2; 0; 1; 0; 3; 0; 1; 0; 2; 0; 1; 0;
   4; 0; 1; 0; 2; 0; 1; 0; 3; 0; 1; 0; 2; 0; 1; 0;
   5; 0; 1; 0; 2; 0; 1; 0; 3; 0; 1; 0; 2; 0; 1; 0;
   4; 0; 1; 0; 2; 0; 1; 0; 3; 0; 1; 0; 2; 0; 1; 0;
   6; 0; 1; 0; 2; 0; 1; 0; 3; 0; 1; 0; 2; 0; 1; 0;
   4; 0; 1; 0; 2; 0; 1; 0; 3; 0; 1; 0; 2; 0; 1; 0;
   5; 0; 1; 0; 2; 0; 1; 0; 3; 0; 1; 0; 2; 0; 1; 0;
   4; 0; 1; 0; 2; 0; 1; 0; 3; 0; 1; 0; 2; 0; 1; 0].

Definition pop8tab : list Z :=
  [0; 1; 1; 2; 1; 2; 2; 3; 1; 2; 2; 3; 2; 3; 3; 4;
   1; 2; 2; 3; 2; 3; 3; 4; 2; 3; 3; 4; 3; 4; 4; 5;
   1; 2; 2; 3; 2; 3; 3; 4; 2; 3; 3; 4; 3; 4; 4; 5;
   2; 3; 3; 4; 3; 4; 4; 5; 3; 4; 4; 5; 4; 5; 5; 6;
   1; 2; 2; 3; 2; 3; 3; 4; 2; 3; 3; 4; 3; 4; 4; 5;
   2; 3; 3; 4; 3; 4; 4; 5; 3; 4; 4; 5; 4; 5; 5; 6;
   2; 3; 3; 4; 3; 4; 4; 5; 3; 4; 4; 5; 4; 5; 5; 6;
   3; 4; 4; 5; 4; 5; 5; 6; 4; 5; 5; 6; 5; 6; 6; 7;
   1; 2; 2; 3; 2; 3; 3; 4; 2; 3; 3; 4; 3; 4; 4; 5;
   2; 3; 3; 4; 3; 4; 4; 5; 3; 4; 4; 5; 4; 5; 5; 6;
   2; 3; 3; 4; 3; 4; 4; 5; 3; 4; 4; 5; 4; 5; 5; 6;
   3; 4; 4; 5; 4; 5; 5; 6; 4; 5; 5; 6; 5; 6; 6; 7;
   2; 3; 3; 4; 3; 4; 4; 5; 3; 4; 4; 5; 4; 5; 5; 6;
   3; 4; 4; 5; 4; 5; 5; 6; 4; 5; 5; 6; 5; 6; 6; 7;
   3; 4; 4; 5; 4; 5; 5; 6; 4; 5; 5; 6; 5; 6; 6; 7;
   4; 5; 5; 6; 5; 6; 6; 7; 5; 6; 6; 7; 6; 7; 7; 8].

Definition rev8tab : list Z :=
  [0; 128; 64; 192; 32; 160; 96; 224; 16; 144; 80; 208; 48; 176; 112; 240;
   8; 136; 72; 200; 40; 168; 104; 232; 24; 152; 88; 216; 56; 184; 120; 248;
   4; 132; 68; 196; 36; 164; 100; 228; 20; 148; 84; 212; 52; 180; 116; 244;
   12; 140; 76; 204; 44; 172; 108; 236; 28; 156; 92; 220; 60; 188; 124; 252;
   2; 130; 66; 194; 34; 162; 98; 226; 18; 146; 82; 210; 50; 178; 114; 242;
   10; 138; 74; 202; 42; 170; 106; 234; 26; 154; 90; 218; 58; 186; 122; 250;
   6; 134; 70; 198; 38; 166; 102; 230; 22; 150; 86; 214; 54; 182; 118; 246;
   14; 142; 78; 206; 46; 174; 110; 238; 30; 158; 94; 222; 62; 190; 126; 254;
   1; 129; 65; 193; 33; 161; 97; 225; 17; 145; 81; 209; 49; 177; 113; 241;
   9; 137; 73; 201; 41; 169; 105; 233; 25; 153; 89; 217; 57; 185; 121; 249;
   5; 133; 69; 197; 37; 165; 101; 229; 21; 149; 85; 213; 53; 181; 117; 245;
   13; 141; 77; 205; 45; 173; 109; 237; 29; 157; 93; 221; 61; 189; 125; 253;
   3; 131; 67; 195; 35; 163; 99; 227; 19; 147; 83; 211; 51; 179; 115; 243;
   11; 139; 75; 203; 43; 171; 107; 235; 27; 155; 91; 219; 59; 187; 123; 251;
   7; 135; 71; 199; 39; 167; 103; 231; 23; 151; 87; 215; 55; 183; 119; 247;
   15; 143; 79; 207; 47; 175; 111; 239; 31; 159; 95; 223; 63; 191; 127; 255].

Definition len8tab : list Z :=
  [0; 1; 2; 2; 3; 3; 3; 3; 4; 4; 4; 4; 4; 4; 4; 4;
   5; 5; 5; 5; 5; 5; 5; 5; 5; 5; 5; 5; 5; 5; 5; 5;
   6; 6; 6; 6; 6; 6; 6; 6; 6; 6; 6; 6; 6; 6; 6; 6;
   6; 6; 6; 6; 6; 6; 6; 6; 6; 6; 6; 6; 6; 6; 6; 6;
   7; 7; 7; 7; 7; 7; 7; 7; 7; 7; 7; 7; 7; 7; 7; 7;
   7; 7; 7; 7; 7; 7; 7; 7; 7; 7; 7; 7; 7; 7; 7; 7;
   7; 7; 7; 7; 7; 7; 7; 7; 7; 7; 7; 7; 7; 7; 7; 7;
   7; 7; 7; 7; 7; 7; 7; 7; 7; 7; 7; 7; 7; 7; 7; 7;
   8; 8; 8; 8; 8; 8; 8; 8; 8; 8; 8; 8; 8; 8; 8; 8;
   8; 8; 8; 8; 8; 8; 8; 8; 8; 8; 8; 8; 8; 8; 8; 8;
   8; 8; 8; 8; 8; 8; 8; 8; 8; 8; 8; 8; 8; 8; 8; 8;
   8; 8; 8; 8; 8; 8; 8; 8; 8; 8; 8; 8; 8; 8; 8; 8;
   8; 8; 8; 8; 8; 8; 8; 8; 8; 8; 8; 8; 8; 8; 8; 8;
   8; 8; 8; 8; 8; 8; 8; 8; 8; 8; 8; 8; 8; 8; 8; 8;
   8; 8; 8; 8; 8; 8; 8; 8; 8; 8; 8; 8; 8; 8; 8; 8;
   8; 8; 8; 8; 8; 8; 8; 8; 8; 8; 8; 8; 8; 8; 8; 8].

Definition deBruijn32tab : list Z :=
  [0; 1; 28; 2; 29; 14; 24; 3; 30; 22; 20; 15; 25; 17; 4; 8;
   31; 27; 13; 23; 21; 19; 16; 7; 26; 12; 18; 6; 11; 5; 10; 9].

Definition deBruijn64tab : list Z :=
  [0; 1; 56; 2; 57; 49; 28; 3; 61; 58; 42; 50; 38; 29; 17; 4;
   62; 47; 59; 36; 45; 43; 51; 22; 53; 39; 33; 30; 24; 18; 12; 5;
   63; 55; 48; 27; 60; 41; 37; 16; 46; 35; 44; 21; 52; 32; 23; 11;
   54; 26; 40; 15; 34; 20; 31; 10; 25; 14; 19; 9; 13; 8; 7; 6].

Definition deBruijn32 : Z := 0x077CB531.
Definition deBruijn64 : Z := 0x03f79d71b4ca8b09.
Definition m0 : Z := 0x5555555555555555.
Definition m1 : Z := 0x3333333333333333.
Definition m2 : Z := 0x0f0f0f0f0f0f0f0f.
Definition m3 : Z := 0x00ff00ff00ff00ff.
Definition m4 : Z := 0x0000ffff0000ffff.

(** ** Length, leading and trailing zeros *)

Definition Len8 (x : Z) : res Z := idx len8tab x.

Definition Len16 (x : Z) : res Z :=
  let '(x, n) := if x >=? Z.shiftl 1 8 then (Z.shiftr x 8, 8) else (x, 0) in
  let! t := idx len8tab (u8 x) in
  Ok (n + t).

Definition Len32 (x : Z) : res Z :=
  let '(x, n) := if x >=? Z.shiftl 1 16 then (Z.shiftr x 16, 16) else (x, 0) in
  let '(x, n) := if x >=? Z.shiftl 1 8 then (Z.shiftr x 8, n + 8) else (x, n) in
  let! t := idx len8tab (u8 x) in
  Ok (n + t).

Definition Len64 (x : Z) : res Z :=
  let '(x, n) := if x >=? Z.shiftl 1 32 then (Z.shiftr x 32, 32) else (x, 0) in
  let '(x, n) := if x >=? Z.shiftl 1 16 then (Z.shiftr x 16, n + 16) else (x, n) in
  let '(x, n) := if x >=? Z.shiftl 1 8 then (Z.shiftr x 8, n + 8) else (x, n) in
  let! t := idx len8tab (u8 x) in
  Ok (n + t).

(** [UintSize] is 32 or 64. *)
Definition Len (UintSize x : Z) : res Z :=
  if UintSize =? 32 then Len32 (u32 x) else Len64 (u64 x).

Definition LeadingZeros (UintSize x : Z) : res Z := let! n := Len UintSize x in Ok (UintSize - n).
Definition LeadingZeros8 (x : Z) : res Z := let! n := Len8 x in Ok (8 - n).
Definition LeadingZeros16 (x : Z) : res Z := let! n := Len16 x in Ok (16 - n).
Definition LeadingZeros32 (x : Z) : res Z := let! n := Len32 x in Ok (32 - n).
Definition LeadingZeros64 (x : Z) : res Z := let! n := Len64 x in Ok (64 - n).

Definition TrailingZeros8 (x : Z) : res Z := idx ntz8tab x.

Definition TrailingZeros16 (x : Z) : res Z :=
  if x =? 0 then Ok 16
  else idx deBruijn32tab
         (Z.shiftr (u32 (u32 (Z.land x (u16 (- x))) * deBruijn32)) (32 - 5)).

Definition TrailingZeros32 (x : Z) : res Z :=
  if x =? 0 then Ok 32
  else idx deBruijn32tab (Z.shiftr (u32 (Z.land x (u32 (- x)) * deBruijn32)) (32 - 5)).

Definition TrailingZeros64 (x : Z) : res Z :=
  if x =? 0 then Ok 64
  else idx deBruijn64tab (Z.shiftr (u64 (Z.land x (u64 (- x)) * deBruijn64)) (64 - 6)).

Definition TrailingZeros (UintSize x : Z) : res Z :=
  if UintSize =? 32 then TrailingZeros32 (u32 x) else TrailingZeros64 (u64 x).

(** ** Rotation and reversal *)

Definition RotateLeft8 (x k : Z) : Z :=
  let n := 8 in
  let s := Z.land (u64 k) (n - 1) in
  Z.lor (u8 (Z.shiftl x s)) (Z.shiftr x (n - s)).

Definition RotateLeft16 (x k : Z) : Z :=
  let n := 16 in
  let s := Z.land (u64 k) (n - 1) in
  Z.lor (u16 (Z.shiftl x s)) (Z.shiftr x (n - s)).

Definition RotateLeft32 (x k : Z) : Z :=
  let n := 32 in
  let s := Z.land (u64 k) (n - 1) in
  Z.lor (u32 (Z.shiftl x s)) (Z.shiftr x (n - s)).

Definition RotateLeft64 (x k : Z) : Z :=
  let n := 64 in
  let s := Z.land (u64 k) (n - 1) in
  Z.lor (u64 (Z.shiftl x s)) (Z.shiftr x (n - s)).

Definition RotateLeft (UintSize x k : Z) : Z :=
  if UintSize =? 32 then RotateLeft32 (u32 x) k else RotateLeft64 (u64 x) k.

Definition ReverseBytes16 (x : Z) : Z := Z.lor (Z.shiftr x 8) (u16 (Z.shiftl x 8)).

Definition ReverseBytes32 (x : Z) : Z :=
  let m := Z.shiftl 1 32 - 1 in
  let x := Z.lor (Z.land (Z.shiftr x 8) (Z.land m3 m))
             (u32 (Z.shiftl (Z.land x (Z.land m3 m)) 8)) in
  Z.lor (Z.shiftr x 16) (u32 (Z.shiftl x 16)).

Definition ReverseBytes64 (x : Z) : Z :=
  let m := Z.shiftl 1 64 - 1 in
  let x := Z.lor (Z.land (Z.shiftr x 8) (Z.land m3 m))
             (u64 (Z.shiftl (Z.land x (Z.land m3 m)) 8)) in
  let x := Z.lor (Z.land (Z.shiftr x 16) (Z.land m4 m))
             (u64 (Z.shiftl (Z.land x (Z.land m4 m)) 16)) in
  Z.lor (Z.shiftr x 32) (u64 (Z.shiftl x 32)).

Definition ReverseBytes (UintSize x : Z) : Z :=
  if UintSize =? 32 then ReverseBytes32 (u32 x) else ReverseBytes64 (u64 x).

Definition Reverse8 (x : Z) : res Z := idx rev8tab x.

Definition Reverse16 (x : Z) : res Z :=
  let! a := idx rev8tab (Z.shiftr x 8) in
  let! b := idx rev8tab (Z.land x 0xff) in
  Ok (Z.lor a (u16 (Z.shiftl b 8))).

Definition Reverse32 (x : Z) : Z :=
  let m := Z.shiftl 1 32 - 1 in
  let x := Z.lor (Z.land (Z.shiftr x 1) (Z.land m0 m))
             (u32 (Z.shiftl (Z.land x (Z.land m0 m)) 1)) in
  let x := Z.lor (Z.land (Z.shiftr x 2) (Z.land m1 m))
             (u32 (Z.shiftl (Z.land x (Z.land m1 m)) 2)) in
  let x := Z.lor (Z.land (Z.shiftr x 4) (Z.land m2 m))
             (u32 (Z.shiftl (Z.land x (Z.land m2 m)) 4)) in
  ReverseBytes32 x.

Definition Reverse64 (x : Z) : Z :=
  let m := Z.shiftl 1 64 - 1 in
  let x := Z.lor (Z.land (Z.shiftr x 1) (Z.land m0 m))
             (u64 (Z.shiftl (Z.land x (Z.land m0 m)) 1)) in
  let x := Z.lor (Z.land (Z.shiftr x 2) (Z.land m1 m))
             (u64 (Z.shiftl (Z.land x (Z.land m1 m)) 2)) in
  let x := Z.lor (Z.land (Z.shiftr x 4) (Z.land m2 m))
             (u64 (Z.shiftl (Z.land x (Z.land m2 m)) 4)) in
  ReverseBytes64 x.

Definition Reverse (UintSize x : Z) : Z :=
  if UintSize =? 32 then Reverse32 (u32 x) else Reverse64 (u64 x).

(** ** Counting ones *)

Definition OnesCount8 (x : Z) : res Z := idx pop8tab x.

Definition OnesCount16 (x : Z) : res Z :=
  let! a := idx pop8tab (Z.shiftr x 8) in
  let! b := idx pop8tab (Z.land x 0xff) in
  Ok (u8 (a + b)).

Definition OnesCount32 (x : Z) : res Z :=
  let! a := idx pop8tab (Z.shiftr x 24) in
  let! b := idx pop8tab (Z.land (Z.shiftr x 16) 0xff) in
  let! c := idx pop8tab (Z.land (Z.shiftr x 8) 0xff) in
  let! d := idx pop8tab (Z.land x 0xff) in
  Ok (u8 (a + b + c + d)).

Definition OnesCount64 (x : Z) : Z :=
  let m := Z.shiftl 1 64 - 1 in
  let x := u64 (Z.land (Z.shiftr x 1) (Z.land m0 m) + Z.land x (Z.land m0 m)) in
  let x := u64 (Z.land (Z.shiftr x 2) (Z.land m1 m) + Z.land x (Z.land m1 m)) in
  let x := Z.land (u64 (Z.shiftr x 4 + x)) (Z.land m2 m) in
  let x := u64 (x + Z.shiftr x 8) in
  let x := u64 (x + Z.shiftr x 16) in
  let x := u64 (x + Z.shiftr x 32) in
  Z.land (i64 x) (Z.shiftl 1 7 - 1).

Definition OnesCount (UintSize x : Z) : res Z :=
  if UintSize =? 32 then OnesCount32 (u32 x) else Ok (OnesCount64 (u64 x)).

(** ** Full-width arithmetic *)

Definition Add32 (x y carry : Z) : Z * Z :=
  let sum64 := u64 (x + y + carry) in
  (u32 sum64, u32 (Z.shiftr sum64 32)).

Definition Add64 (x y carry : Z) : Z * Z :=
  let sum := u64 (x + y + carry) in
  let carryOut := Z.shiftr (Z.lor (Z.land x y) (Z.land (Z.lor x y) (Z.lnot sum))) 63 in
  (sum, carryOut).

Definition Sub32 (x y borrow : Z) : Z * Z :=
  let diff := u32 (x - y - borrow) in
  let borrowOut :=
    Z.shiftr (Z.lor (Z.land (u32 (Z.lnot x)) y) (Z.land (u32 (Z.lnot (Z.lxor x y))) diff)) 31 in
  (diff, borrowOut).

Definition Sub64 (x y borrow : Z) : Z * Z :=
  let diff := u64 (x - y - borrow) in
  let borrowOut :=
    Z.shiftr (Z.lor (Z.land (u64 (Z.lnot x)) y) (Z.land (u64 (Z.lnot (Z.lxor x y))) diff)) 63 in
  (diff, borrowOut).

Definition Mul32 (x y : Z) : Z * Z :=
  let tmp := u64 (x * y) in
  (u32 (Z.shiftr tmp 32), u32 tmp).

Definition mask32 : Z := Z.shiftl 1 32 - 1.
Definition two32 : Z := Z.shiftl 1 32.

Definition Mul64 (x y : Z) : Z * Z :=
  let x0 := Z.land x mask32 in
  let x1 := Z.shiftr x 32 in
  let y0 := Z.land y mask32 in
  let y1 := Z.shiftr y 32 in
  let w0 := u64 (x0 * y0) in
  let t := u64 (u64 (x1 * y0) + Z.shiftr w0 32) in
  let w1 := Z.land t mask32 in
  let w2 := Z.shiftr t 32 in
  let w1 := u64 (w1 + u64 (x0 * y1)) in
  let hi := u64 (u64 (u64 (x1 * y1) + w2) + Z.shiftr w1 32) in
  let lo := u64 (x * y) in
  (hi, lo).

(** Division by zero panics in Go. *)
Definition Div32 (hi lo y : Z) : res (Z * Z) :=
  if negb (y =? 0) && (y <=? hi) then Panic else
  let z := Z.lor (u64 (Z.shiftl hi 32)) lo in
  if y =? 0 then Panic else Ok (u32 (z / y), u32 (z mod y)).

(** The correction loop of [Div64]: [q] is at most two too large, so it is
    left within three rounds. *)
Definition correctQuotient (q rhat yn1 yn0 un : Z) : res Z :=
  loop 4
    (fun '(q, rhat) =>
       if (q >=? two32) || (u64 (q * yn0) >? u64 (u64 (two32 * rhat) + un)) then
         let q := u64 (q - 1) in
         let rhat := u64 (rhat + yn1) in
         if rhat >=? two32 then Ok (inr q) else Ok (inl (q, rhat))
       else Ok (inr q)) (q, rhat).

Definition Div64 (hi lo y : Z) : res (Z * Z) :=
  if y =? 0 then Panic else
  if y <=? hi then Panic else
  if hi =? 0 then Ok (lo / y, lo mod y) else
  let! s := LeadingZeros64 y in
  let y := u64 (Z.shiftl y s) in
  let yn1 := Z.shiftr y 32 in
  let yn0 := Z.land y mask32 in
  let un32 := Z.lor (u64 (Z.shiftl hi s)) (Z.shiftr lo (64 - s)) in
  let un10 := u64 (Z.shiftl lo s) in
  let un1 := Z.shiftr un10 32 in
  let un0 := Z.land un10 mask32 in
  if yn1 =? 0 then Panic else
  let q1 := un32 / yn1 in
  let rhat := u64 (un32 - u64 (q1 * yn1)) in
  let! q1 := correctQuotient q1 rhat yn1 yn0 un1 in
  let un21 := u64 (u64 (u64 (un32 * two32) + un1) - u64 (q1 * y)) in
  let q0 := un21 / yn1 in
  let rhat := u64 (un21 - u64 (q0 * yn1)) in
  let! q0 := correctQuotient q0 rhat yn1 yn0 un0 in
  Ok (u64 (u64 (q1 * two32) + q0),
      Z.shiftr (u64 (u64 (u64 (un21 * two32) + un0) - u64 (q0 * y))) s).

Definition Rem32 (hi lo y : Z) : res Z :=
  if y =? 0 then Panic else Ok (u32 (Z.lor (u64 (Z.shiftl hi 32)) lo mod y)).

Definition Rem64 (hi lo y : Z) : res Z :=
  if y =? 0 then Panic else
  let! '(_, rem) := Div64 (hi mod y) lo y in
  Ok rem.

Definition Add (UintSize x y carry : Z) : Z * Z :=
  if UintSize =? 32 then Add32 (u32 x) (u32 y) (u32 carry)
  else Add64 (u64 x) (u64 y) (u64 carry).

Definition Sub (UintSize x y borrow : Z) : Z * Z :=
  if UintSize =? 32 then Sub32 (u32 x) (u32 y) (u32 borrow)
  else Sub64 (u64 x) (u64 y) (u64 borrow).

Definition Mul (UintSize x y : Z) : Z * Z :=
  if UintSize =? 32 then Mul32 (u32 x) (u32 y) else Mul64 (u64 x) (u64 y).

Definition Div (UintSize hi lo y : Z) : res (Z * Z) :=
  if UintSize =? 32 then Div32 (u32 hi) (u32 lo) (u32 y) else Div64 (u64 hi) (u64 lo) (u64 y).

Definition Rem (UintSize hi lo y : Z) : res Z :=
  if UintSize =? 32 then Rem32 (u32 hi) (u32 lo) (u32 y) else Rem64 (u64 hi) (u64 lo) (u64 y).

(** Quick evaluations: a full-width product and its division. *)
Example mul_div_example :
  Mul64 (2 ^ 64 - 1) (2 ^ 63 + 12345) = (9223372036854788152, 9223372036854763463) /\
  Div64 9223372036854788152 9223372036854763463 (2 ^ 64 - 1) = Ok (2 ^ 63 + 12345, 0).
Proof. split; vm_compute; reflexivity. Qed.

(** ** Reference definitions *)

(** The number of bits needed to write [x]. *)
Definition bitlen (x : Z) : Z := if x =? 0 then 0 else Z.log2 x + 1.

(** [k] is the number of zero bits below the lowest one bit of [x]. *)
Definition is_ntz (x k : Z) : Prop :=
  0 <= k /\ Z.testbit x k = true /\ forall j, 0 <= j < k -> Z.testbit x j = false.

(** The number of one bits among the low [n] bits of [x]. *)
Fixpoint popcount (n : nat) (x : Z) : Z :=
  match n with
  | O => 0
  | S n => x mod 2 + popcount n (x / 2)
  end.

(** A number by its digits in base [2^w], lowest first, with operations on
    digit lists: the sums of neighbours, of all shifted neighbours, and the
    digits of even index. *)
Fixpoint val (w : Z) (ds : list Z) : Z :=
  match ds with
  | [] => 0
  | d :: ds => d + 2 ^ w * val w ds
  end.

Fixpoint pairs (ds : list Z) : list Z :=
  match ds with
  | d :: e :: ds => d + e :: pairs ds
  | _ => []
  end.

Fixpoint evens (ds : list Z) : list Z :=
  match ds with
  | d :: _ :: ds => d :: evens ds
  | _ => []
  end.

Fixpoint digits2 (n : nat) (x : Z) : list Z :=
  match n with
  | O => []
  | S n => x mod 2 :: digits2 n (x / 2)
  end.

Fixpoint padd (a b : list Z) : list Z :=
  match a, b with
  | x :: a, y :: b => x + y :: padd a b
  | a, [] => a
  | [], b => b
  end.

Definition dsum (ds : list Z) : Z := foldr Z.add 0 ds.

(** ** Length *)

Lemma table_lookup (tab : list Z) (f : Z -> Z) :
  forallb (fun b => match idx tab b with Ok x => x =? f b | _ => false end) (zrange 0 256) = true ->
  forall b, byte_ok b -> idx tab b = Ok (f b).
Proof.
  intros H b Hb. unfold byte_ok in Hb.
  pose proof (zrange_forallb _ _ _ H b ltac:(lia)) as Hx. cbv beta in Hx.
  destruct (idx tab b); [|discriminate..]. by apply Z.eqb_eq in Hx as ->.
Qed.

Lemma len8tab_bitlen b : byte_ok b -> idx len8tab b = Ok (bitlen b).
Proof. apply table_lookup. vm_compute. reflexivity. Qed.

Lemma bitlen_shiftr x k : 0 <= k -> 2 ^ k <= x -> bitlen x = k + bitlen (Z.shiftr x k).
Proof.
  intros Hk Hx. assert (0 < 2 ^ k) by lia. unfold bitlen.
  assert (0 < Z.shiftr x k).
  { rewrite shiftr_div by done. apply Z.div_str_pos. lia. }
  rewrite !(proj2 (Z.eqb_neq _ 0)) by lia.
  rewrite Z.log2_shiftr by lia.
  assert (k <= Z.log2 x) by (apply Z.log2_le_pow2; lia). lia.
Qed.

Lemma shiftr_lt x a b : 0 <= a -> 0 <= b -> 0 <= x < 2 ^ (a + b) -> 0 <= Z.shiftr x a < 2 ^ b.
Proof.
  intros Ha Hb Hx. rewrite shiftr_div by done. rewrite Z.pow_add_r in Hx by done.
  split; [apply Z.div_pos; lia|]. apply Z.div_lt_upper_bound; lia.
Qed.

(** One halving step: the top half decides whether to shift. *)
Lemma len_step k x n x' n' :
  0 <= k -> 0 <= x < 2 ^ (k + k) ->
  (if x >=? Z.shiftl 1 k then (Z.shiftr x k, n + k) else (x, n)) = (x', n') ->
  0 <= x' < 2 ^ k /\ n + bitlen x = n' + bitlen x'.
Proof.
  intros Hk Hx E. rewrite Z.shiftl_1_l in E.
  destruct (Z.geb_spec x (2 ^ k)); injection E as <- <-; [|lia].
  split; [by apply shiftr_lt|]. rewrite (bitlen_shiftr x k) by lia. lia.
Qed.

Lemma len_step0 k x x' n' :
  0 <= k -> 0 <= x < 2 ^ (k + k) ->
  (if x >=? Z.shiftl 1 k then (Z.shiftr x k, k) else (x, 0)) = (x', n') ->
  0 <= x' < 2 ^ k /\ bitlen x = n' + bitlen x'.
Proof. intros Hk Hx E. apply (len_step k x 0) in E; [lia|done|done]. Qed.

Lemma len_last x n : 0 <= x < 2 ^ 8 ->
  (let! t := idx len8tab (u8 x) in Ok (n + t)) = Ok (n + bitlen x).
Proof. intros Hx. rewrite u8_id by lia. by rewrite len8tab_bitlen by (unfold byte_ok; lia). Qed.

Lemma Len16_bitlen x : 0 <= x < 2 ^ 16 -> Len16 x = Ok (bitlen x).
Proof.
  intros Hx. unfold Len16.
  destruct (if x >=? _ then _ else _) as [x' n'] eqn:E.
  apply len_step0 in E as [H1 E]; [|lia..]. rewrite len_last by lia. f_equal. lia.
Qed.

Lemma Len32_bitlen x : 0 <= x < 2 ^ 32 -> Len32 x = Ok (bitlen x).
Proof.
  intros Hx. unfold Len32.
  destruct (if x >=? _ then _ else _) as [x1 n1] eqn:E1.
  apply len_step0 in E1 as [H1 E1]; [|lia..].
  destruct (if x1 >=? _ then _ else _) as [x2 n2] eqn:E2.
  apply len_step in E2 as [H2 E2]; [|lia..]. rewrite len_last by lia. f_equal. lia.
Qed.

Lemma Len64_bitlen x : 0 <= x < 2 ^ 64 -> Len64 x = Ok (bitlen x).
Proof.
  intros Hx. unfold Len64.
  destruct (if x >=? _ then _ else _) as [x1 n1] eqn:E1.
  apply len_step0 in E1 as [H1 E1]; [|lia..].
  destruct (if x1 >=? _ then _ else _) as [x2 n2] eqn:E2.
  apply len_step in E2 as [H2 E2]; [|lia..].
  destruct (if x2 >=? _ then _ else _) as [x3 n3] eqn:E3.
  apply len_step in E3 as [H3 E3]; [|lia..]. rewrite len_last by lia. f_equal. lia.
Qed.

Lemma bitlen_bounds x : 0 < x -> 2 ^ (bitlen x - 1) <= x < 2 ^ bitlen x.
Proof.
  intros Hx. unfold bitlen. rewrite (proj2 (Z.eqb_neq x 0)) by lia.
  pose proof (Z.log2_spec x Hx). replace (Z.log2 x + 1 - 1) with (Z.log2 x) by lia.
  by rewrite <- Z.add_1_r in *.
Qed.

Lemma bitlen_le x k : 0 <= k -> 0 <= x < 2 ^ k -> 0 <= bitlen x <= k.
Proof.
  intros Hk Hx. unfold bitlen. destruct (Z.eqb_spec x 0); [lia|].
  pose proof (Z.log2_nonneg x). assert (Z.log2 x < k) by (apply Z.log2_lt_pow2; lia). lia.
Qed.

(** ** Trailing zeros *)

Lemma testbit_split a b k i :
  0 <= k -> 0 <= b < 2 ^ k -> 0 <= i ->
  Z.testbit (a * 2 ^ k + b) i = if i <? k then Z.testbit b i else Z.testbit a (i - k).
Proof.
  intros Hk Hb Hi. destruct (Z.ltb_spec i k).
  - rewrite <- (Z.mod_pow2_bits_low (a * 2 ^ k + b) k i) by lia.
    rewrite Z.add_comm, Z.mod_add, Z.mod_small by lia. done.
  - replace a with ((a * 2 ^ k + b) / 2 ^ k) at 2.
    + rewrite Z.div_pow2_bits by lia. f_equal. lia.
    + rewrite Z.add_comm, Z.div_add, Z.div_small by lia. lia.
Qed.

Lemma odd_part x : 0 < x -> exists k q, 0 <= k /\ 0 <= q /\ x = (2 * q + 1) * 2 ^ k.
Proof.
  intros Hx. destruct x as [|p|p]; [lia| |lia]. clear Hx.
  induction p as [p IH|p IH|].
  - exists 0, (Z.pos p). lia.
  - destruct IH as (k & q & Hk & Hq & E). exists (k + 1), q.
    rewrite Z.pow_add_r by lia. lia.
  - exists 0, 0. lia.
Qed.

Lemma isolate_low w k q :
  0 <= w -> 0 <= k -> 0 <= q -> (2 * q + 1) * 2 ^ k < 2 ^ w ->
  Z.land ((2 * q + 1) * 2 ^ k) ((- ((2 * q + 1) * 2 ^ k)) mod 2 ^ w) = 2 ^ k.
Proof.
  intros Hw Hk Hq Hlt. assert (0 < 2 ^ k) by lia.
  assert (k < w) by (apply (Z.pow_lt_mono_r_iff 2); nia).
  apply Z.bits_inj'. intros i Hi. rewrite Z.land_spec, Z.pow2_bits_eqb by lia.
  rewrite <- (Z.add_0_r ((2 * q + 1) * 2 ^ k)) at 1.
  rewrite testbit_split by lia.
  destruct (Z.ltb_spec i k).
  { rewrite Z.bits_0. symmetry. apply Z.eqb_neq. lia. }
  destruct (Z.lt_ge_cases i w).
  2:{ rewrite Z.mod_pow2_bits_high by lia. rewrite andb_false_r. symmetry. apply Z.eqb_neq. lia. }
  rewrite Z.mod_pow2_bits_low by lia.
  replace (- ((2 * q + 1) * 2 ^ k)) with (Z.lnot ((2 * q) * 2 ^ k + (2 ^ k - 1)))
    by (unfold Z.lnot; lia).
  rewrite Z.lnot_spec, testbit_split by lia.
  rewrite (proj2 (Z.ltb_ge i k)) by lia.
  destruct (Z.eqb_spec k i) as [->|].
  - rewrite Z.sub_diag, Z.testbit_odd_0, Z.testbit_even_0. done.
  - replace (i - k) with (Z.succ (i - k - 1)) by lia.
    rewrite Z.testbit_odd_succ, Z.testbit_even_succ by lia. by destruct (Z.testbit q _).
Qed.

Lemma is_ntz_odd k q : 0 <= k -> 0 <= q -> is_ntz ((2 * q + 1) * 2 ^ k) k.
Proof.
  intros Hk Hq. assert (0 < 2 ^ k) by lia. split; [done|].
  rewrite <- (Z.add_0_r ((2 * q + 1) * 2 ^ k)).
  split; [|intros j Hj]; rewrite testbit_split by lia.
  - by rewrite Z.ltb_irrefl, Z.sub_diag, Z.testbit_odd_0.
  - by rewrite (proj2 (Z.ltb_lt j k)), Z.bits_0 by lia.
Qed.

(** The de Bruijn tables, checked for each power of two. *)
Lemma deBruijn64_ok k : 0 <= k < 64 ->
  idx deBruijn64tab (Z.shiftr (u64 (2 ^ k * deBruijn64)) (64 - 6)) = Ok k.
Proof.
  intros Hk. assert (H : forallb (fun k => match idx deBruijn64tab (Z.shiftr (u64 (2 ^ k * deBruijn64)) (64 - 6)) with Ok x => x =? k | _ => false end) (zrange 0 64) = true)
    by (vm_compute; reflexivity).
  pose proof (zrange_forallb _ _ _ H k ltac:(lia)) as Hx. cbv beta in Hx.
  destruct (idx _ _); [|discriminate..]. by apply Z.eqb_eq in Hx as ->.
Qed.

Lemma deBruijn32_ok k : 0 <= k < 32 ->
  idx deBruijn32tab (Z.shiftr (u32 (2 ^ k * deBruijn32)) (32 - 5)) = Ok k.
Proof.
  intros Hk. assert (H : forallb (fun k => match idx deBruijn32tab (Z.shiftr (u32 (2 ^ k * deBruijn32)) (32 - 5)) with Ok x => x =? k | _ => false end) (zrange 0 32) = true)
    by (vm_compute; reflexivity).
  pose proof (zrange_forallb _ _ _ H k ltac:(lia)) as Hx. cbv beta in Hx.
  destruct (idx _ _); [|discriminate..]. by apply Z.eqb_eq in Hx as ->.
Qed.

Lemma isolate_lt w k q : 0 <= k -> 0 <= q -> (2 * q + 1) * 2 ^ k < 2 ^ w -> k < w.
Proof.
  intros Hk Hq H. destruct (Z.lt_ge_cases k w) as [|Hge]; [done|].
  assert (2 ^ w <= 2 ^ k) by (apply Z.pow_le_mono_r; lia). nia.
Qed.

(** ** Rotation and reversal, bit by bit *)

Lemma testbit_u w x i : 0 <= w -> 0 <= i < w -> Z.testbit (x mod 2 ^ w) i = Z.testbit x i.
Proof. intros. apply Z.mod_pow2_bits_low. lia. Qed.

Lemma testbit_high x w i : 0 <= x < 2 ^ w -> 0 <= w <= i -> Z.testbit x i = false.
Proof. intros Hx Hi. rewrite <- (Z.mod_small x (2 ^ w)) by done. apply Z.mod_pow2_bits_high. lia. Qed.

(** A rotation by [s] of a [w]-bit word. *)
Lemma rotate_bits w x s i :
  0 <= x < 2 ^ w -> 0 <= s < w -> 0 <= i < w ->
  Z.testbit (Z.lor (Z.shiftl x s mod 2 ^ w) (Z.shiftr x (w - s))) i
  = Z.testbit x ((i - s) mod w).
Proof.
  intros Hx Hs Hi. rewrite Z.lor_spec, testbit_u, Z.shiftl_spec, Z.shiftr_spec by lia.
  destruct (Z.lt_ge_cases i s).
  - rewrite Z.testbit_neg_r by lia. rewrite <- (Z.mod_add (i - s) 1 w), Z.mod_small by lia.
    cbn [orb]. f_equal. lia.
  - rewrite (testbit_high x w (i + (w - s))) by lia.
    by rewrite Z.mod_small, orb_false_r by lia.
Qed.

Lemma rotate_amount w k : 0 < w <= 64 -> (exists j, 0 <= j /\ w = 2 ^ j) ->
  Z.land (u64 k) (w - 1) = k mod w.
Proof.
  intros Hw (j & Hj & ->). rewrite (land_ones' _ j) by lia. unfold u64.
  assert (j <= 6) by (apply (Z.pow_le_mono_r_iff 2); lia).
  apply Z.mod_mod_divide.
  exists (2 ^ (64 - j)). rewrite <- Z.pow_add_r by lia. f_equal. lia.
Qed.

(** The bits of one exchange stage of [Reverse64] and [ReverseBytes64], read
    off position by position. *)
Lemma forall_bits (n : nat) (P : Z -> Prop) :
  Forall P (zrange 0 n) -> forall i, 0 <= i < Z.of_nat n -> P i.
Proof. intros H i Hi. rewrite List.Forall_forall in H. apply H, zrange_In. lia. Qed.

Definition stage64 (s mask x : Z) : Z :=
  Z.lor (Z.land (Z.shiftr x s) mask) (u64 (Z.shiftl (Z.land x mask) s)).

Lemma stage64_bits s mask x i :
  0 <= s -> 0 <= i < 64 ->
  Z.testbit (stage64 s mask x) i
  = (Z.testbit x (i + s) && Z.testbit mask i)
    || (Z.testbit x (i - s) && Z.testbit mask (i - s)).
Proof.
  intros Hs Hi. unfold stage64, u64.
  rewrite Z.lor_spec, testbit_u, Z.land_spec, Z.shiftr_spec, Z.shiftl_spec, Z.land_spec by lia.
  done.
Qed.

(** The masks select, at distance [s], exactly the partner of each bit. *)
Definition stage_ok (s mask : Z) : bool :=
  forallb (fun i => Bool.eqb (Z.testbit mask i) (Z.lxor i s =? i + s) &&
                    Bool.eqb (Z.testbit mask (i - s)) (Z.lxor i s =? i - s) &&
                    ((Z.lxor i s =? i + s) || (Z.lxor i s =? i - s)))
    (zrange 0 64).

Lemma stage64_xor s mask x i :
  0 < s -> stage_ok s mask = true -> 0 <= i < 64 ->
  Z.testbit (stage64 s mask x) i = Z.testbit x (Z.lxor i s).
Proof.
  intros Hs Hok Hi. rewrite stage64_bits by lia.
  pose proof (zrange_forallb _ _ _ Hok i ltac:(lia)) as H. cbv beta in H.
  apply andb_true_iff in H as [[H1 H2]%andb_true_iff H3].
  apply Bool.eqb_prop in H1, H2. rewrite H1, H2.
  destruct (Z.eqb_spec (Z.lxor i s) (i + s)) as [E|E];
    destruct (Z.eqb_spec (Z.lxor i s) (i - s)) as [E'|E']; try done; try lia.
  - by rewrite E, andb_true_r, andb_false_r, orb_false_r.
  - by rewrite E', andb_true_r, andb_false_r.
Qed.

(** The last stage of [ReverseBytes64] has no masks. *)
Lemma swap32_bits x i :
  0 <= x < 2 ^ 64 -> 0 <= i < 64 ->
  Z.testbit (Z.lor (Z.shiftr x 32) (u64 (Z.shiftl x 32))) i = Z.testbit x (Z.lxor i 32).
Proof.
  intros Hx Hi. unfold u64. rewrite Z.lor_spec, testbit_u, Z.shiftr_spec, Z.shiftl_spec by lia.
  assert (H : forallb (fun i => Z.lxor i 32 =? (if i <? 32 then i + 32 else i - 32)) (zrange 0 64) = true)
    by (vm_compute; reflexivity).
  pose proof (zrange_forallb _ _ _ H i ltac:(lia)) as E. cbv beta in E. apply Z.eqb_eq in E.
  rewrite E. destruct (Z.ltb_spec i 32).
  - by rewrite (Z.testbit_neg_r x (i - 32)), orb_false_r by lia.
  - by rewrite (testbit_high x 64 (i + 32)) by lia.
Qed.

Lemma bounded_by_bits w x :
  0 <= w -> 0 <= x -> (forall i, w <= i -> Z.testbit x i = false) -> x < 2 ^ w.
Proof.
  intros Hw Hx H. replace x with (x mod 2 ^ w); [apply Z.mod_pos_bound; lia|].
  apply Z.bits_inj'. intros i Hi. destruct (Z.lt_ge_cases i w).
  - by apply Z.mod_pow2_bits_low.
  - rewrite Z.mod_pow2_bits_high by lia. by rewrite H.
Qed.

Lemma stage64_range s mask x :
  0 <= s -> 0 <= mask < 2 ^ 64 -> 0 <= x < 2 ^ 64 -> 0 <= stage64 s mask x < 2 ^ 64.
Proof.
  intros Hs Hm Hx. unfold stage64.
  assert (0 <= Z.lor (Z.land (Z.shiftr x s) mask) (u64 (Z.shiftl (Z.land x mask) s))).
  { apply Z.lor_nonneg. split; [apply Z.land_nonneg; lia|].
    pose proof (u64_range (Z.shiftl (Z.land x mask) s)). lia. }
  split; [done|]. apply bounded_by_bits; [lia|done|].
  intros i Hi. rewrite Z.lor_spec, Z.land_spec.
  rewrite (testbit_high mask 64), (testbit_high (u64 _) 64) by (auto using u64_range || lia).
  by rewrite andb_false_r.
Qed.

Lemma ReverseBytes64_stages x :
  ReverseBytes64 x =
  Z.lor (Z.shiftr (stage64 16 m4 (stage64 8 m3 x)) 32)
    (u64 (Z.shiftl (stage64 16 m4 (stage64 8 m3 x)) 32)).
Proof. reflexivity. Qed.

Lemma Reverse64_stages x :
  Reverse64 x = ReverseBytes64 (stage64 4 m2 (stage64 2 m1 (stage64 1 m0 x))).
Proof. reflexivity. Qed.

Lemma lxor_range i s : 0 <= i < 64 -> 0 <= s < 64 -> 0 <= Z.lxor i s < 64.
Proof.
  intros Hi Hs. assert (0 <= Z.lxor i s) by (apply Z.lxor_nonneg; lia).
  split; [done|]. apply (bounded_by_bits 6); [lia|done|].
  intros j Hj. rewrite Z.lxor_spec, (testbit_high i 6), (testbit_high s 6) by lia. done.
Qed.

Lemma ReverseBytes64_bits x i :
  0 <= x < 2 ^ 64 -> 0 <= i < 64 ->
  Z.testbit (ReverseBytes64 x) i = Z.testbit x (Z.lxor (Z.lxor (Z.lxor i 32) 16) 8).
Proof.
  intros Hx Hi. rewrite ReverseBytes64_stages.
  assert (H1 : 0 <= stage64 8 m3 x < 2 ^ 64) by (apply stage64_range; unfold m3; lia).
  rewrite swap32_bits by (try apply stage64_range; unfold m4; lia).
  rewrite !stage64_xor; try done; repeat apply lxor_range; lia.
Qed.

Lemma lxor_all_bits (s : Z) (f : Z -> Z) :
  forallb (fun i => Z.lxor i s =? f i) (zrange 0 64) = true ->
  forall i, 0 <= i < 64 -> Z.lxor i s = f i.
Proof.
  intros H i Hi. pose proof (zrange_forallb _ _ _ H i ltac:(lia)) as E. by apply Z.eqb_eq in E.
Qed.

(** ** Full-width arithmetic *)

Lemma u64_sub_l a b : u64 (u64 a - b) = u64 (a - b).
Proof. unfold u64. by rewrite Zminus_mod_idemp_l. Qed.
Lemma u64_sub_r a b : u64 (a - u64 b) = u64 (a - b).
Proof. unfold u64. by rewrite Zminus_mod_idemp_r. Qed.
Lemma u64_add_l a b : u64 (u64 a + b) = u64 (a + b).
Proof. unfold u64. by rewrite Zplus_mod_idemp_l. Qed.
Lemma u64_add_r a b : u64 (a + u64 b) = u64 (a + b).
Proof. unfold u64. by rewrite Zplus_mod_idemp_r. Qed.

(** The top bit of a [w]-bit word as 0 or 1. *)
Lemma top_bit k x : 0 <= k -> 0 <= x < 2 ^ (k + 1) ->
  Z.shiftr x k = Z.b2z (2 ^ k <=? x).
Proof.
  intros Hk Hx. rewrite shiftr_div by done. rewrite Z.pow_add_r in Hx by lia.
  destruct (Z.leb_spec (2 ^ k) x); cbn [Z.b2z].
  - symmetry. apply (Z.div_unique x (2 ^ k) 1 (x - 2 ^ k)); lia.
  - apply Z.div_small. lia.
Qed.

Lemma shiftr_lnot x k : 0 <= k -> Z.shiftr (Z.lnot x) k = Z.lnot (Z.shiftr x k).
Proof.
  intros Hk. apply Z.bits_inj'. intros i Hi.
  by rewrite Z.shiftr_spec, !Z.lnot_spec, Z.shiftr_spec by lia.
Qed.

(** Evaluates a bit expression over constants. *)
Ltac eval_bits :=
  cbn [Z.b2z Bool.eqb];
  repeat match goal with
    | |- context [Z.lor ?a ?b] =>
        let v := eval vm_compute in (Z.lor a b) in change (Z.lor a b) with v
    end.

Lemma Add64_spec x y c :
  0 <= x < 2 ^ 64 -> 0 <= y < 2 ^ 64 -> 0 <= c <= 1 ->
  let '(sum, carry) := Add64 x y c in
  sum + 2 ^ 64 * carry = x + y + c /\ 0 <= sum < 2 ^ 64 /\ 0 <= carry <= 1.
Proof.
  intros Hx Hy Hc. unfold Add64. pose proof (u64_range (x + y + c)) as Hs.
  rewrite Z.shiftr_lor, !Z.shiftr_land, Z.shiftr_lor, shiftr_lnot by lia.
  rewrite !(top_bit 63) by (change (63 + 1) with 64; lia).
  unfold u64 in *. 
  assert (E : x + y + c = 2 ^ 64 * ((x + y + c) / 2 ^ 64) + (x + y + c) mod 2 ^ 64)
    by (apply Z.div_mod; lia).
  assert (0 <= (x + y + c) / 2 ^ 64 <= 1) by zdm.
  set (s := (x + y + c) mod 2 ^ 64) in *. set (q := (x + y + c) / 2 ^ 64) in *.
  destruct (Z.leb_spec (2 ^ 63) x), (Z.leb_spec (2 ^ 63) y), (Z.leb_spec (2 ^ 63) s);
    eval_bits; lia.
Qed.

Lemma lnot_mod w x : 0 <= x < 2 ^ w -> Z.lnot x mod 2 ^ w = 2 ^ w - 1 - x.
Proof.
  intros Hx. unfold Z.lnot. symmetry. apply (Z.mod_unique _ _ (-1)); lia.
Qed.

Lemma lxor_lt w x y : 0 <= w -> 0 <= x < 2 ^ w -> 0 <= y < 2 ^ w -> 0 <= Z.lxor x y < 2 ^ w.
Proof.
  intros Hw Hx Hy. assert (0 <= Z.lxor x y) by (apply Z.lxor_nonneg; lia).
  split; [done|]. apply bounded_by_bits; [done|done|]. intros i Hi.
  by rewrite Z.lxor_spec, (testbit_high x w), (testbit_high y w) by lia.
Qed.

Lemma top_bit_lxor k x y : 0 <= k -> 0 <= x < 2 ^ (k + 1) -> 0 <= y < 2 ^ (k + 1) ->
  Z.shiftr (Z.lnot (Z.lxor x y) mod 2 ^ (k + 1)) k
  = Z.b2z (Bool.eqb (2 ^ k <=? x) (2 ^ k <=? y)).
Proof.
  intros Hk Hx Hy. pose proof (lxor_lt (k + 1) x y ltac:(lia) Hx Hy) as Hl.
  rewrite lnot_mod by done. rewrite top_bit by lia. f_equal.
  assert (E : Z.shiftr (Z.lxor x y) k = Z.lxor (Z.b2z (2 ^ k <=? x)) (Z.b2z (2 ^ k <=? y))).
  { by rewrite Z.shiftr_lxor, !top_bit by done. }
  rewrite top_bit in E by done. rewrite Z.pow_add_r in * by lia.
  destruct (Z.leb_spec (2 ^ k) x), (Z.leb_spec (2 ^ k) y),
    (Z.leb_spec (2 ^ k) (Z.lxor x y)); cbn in E; try discriminate E;
    cbn [Bool.eqb]; [apply Z.leb_le|apply Z.leb_gt|apply Z.leb_gt|apply Z.leb_le]; lia.
Qed.

(** The borrow formula shared by [Sub32] and [Sub64], at width [k + 1]. *)
Lemma borrow_formula k x y b :
  0 <= k -> 0 <= x < 2 ^ (k + 1) -> 0 <= y < 2 ^ (k + 1) -> 0 <= b <= 1 ->
  let diff := (x - y - b) mod 2 ^ (k + 1) in
  let borrow := Z.shiftr (Z.lor (Z.land (Z.lnot x mod 2 ^ (k + 1)) y)
                  (Z.land (Z.lnot (Z.lxor x y) mod 2 ^ (k + 1)) diff)) k in
  diff - 2 ^ (k + 1) * borrow = x - y - b /\ 0 <= diff < 2 ^ (k + 1) /\ 0 <= borrow <= 1.
Proof.
  intros Hk Hx Hy Hb diff borrow.
  assert (Hd : 0 <= diff < 2 ^ (k + 1)) by (apply Z.mod_pos_bound; lia).
  assert (E : x - y - b = 2 ^ (k + 1) * ((x - y - b) / 2 ^ (k + 1)) + diff)
    by (apply Z.div_mod; lia).
  unfold borrow. rewrite Z.shiftr_lor, !Z.shiftr_land, top_bit_lxor by done.
  rewrite lnot_mod by done. rewrite !top_bit by lia.
  set (q := (x - y - b) / 2 ^ (k + 1)) in *. rewrite Z.pow_add_r in * by lia.
  change (2 ^ 1) with 2 in *.
  assert (-1 <= q <= 0) by nia.
  assert (q = 0 \/ q = -1) as [-> | ->] by lia;
  destruct (Z.leb_spec (2 ^ k) x), (Z.leb_spec (2 ^ k) y), (Z.leb_spec (2 ^ k) diff),
    (Z.leb_spec (2 ^ k) (2 ^ k * 2 - 1 - x)); eval_bits; lia.
Qed.

Lemma mul_bound x y a b : 0 <= x < a -> 0 <= y < b -> 0 <= x * y <= (a - 1) * (b - 1).
Proof. intros. nia. Qed.

Lemma Mul64_spec x y :
  0 <= x < 2 ^ 64 -> 0 <= y < 2 ^ 64 ->
  let '(hi, lo) := Mul64 x y in
  hi * 2 ^ 64 + lo = x * y /\ 0 <= hi < 2 ^ 64 /\ 0 <= lo < 2 ^ 64.
Proof.
  intros Hx Hy. unfold Mul64. change mask32 with (2 ^ 32 - 1).
  rewrite !(land_ones' _ 32 (2 ^ 32 - 1)), !shiftr_div by lia.
  assert (Ex := Z.div_mod x (2 ^ 32) ltac:(lia)). assert (Ey := Z.div_mod y (2 ^ 32) ltac:(lia)).
  assert (Hx0 : 0 <= x mod 2 ^ 32 < 2 ^ 32) by (apply Z.mod_pos_bound; lia).
  assert (Hy0 : 0 <= y mod 2 ^ 32 < 2 ^ 32) by (apply Z.mod_pos_bound; lia).
  assert (Hx1 : 0 <= x / 2 ^ 32 < 2 ^ 32) by zdm.
  assert (Hy1 : 0 <= y / 2 ^ 32 < 2 ^ 32) by zdm.
  set (x1 := x / 2 ^ 32) in *. set (x0 := x mod 2 ^ 32) in *.
  set (y1 := y / 2 ^ 32) in *. set (y0 := y mod 2 ^ 32) in *.
  assert (Exy : x * y = 2 ^ 64 * (x1 * y1) + 2 ^ 32 * (x1 * y0) + 2 ^ 32 * (x0 * y1) + x0 * y0)
    by (rewrite Ex, Ey; change (2 ^ 64) with (2 ^ 32 * 2 ^ 32); ring).
  pose proof (mul_bound x0 y0 _ _ Hx0 Hy0). pose proof (mul_bound x1 y0 _ _ Hx1 Hy0).
  pose proof (mul_bound x0 y1 _ _ Hx0 Hy1). pose proof (mul_bound x1 y1 _ _ Hx1 Hy1).
  rewrite Exy. clearbody x0 x1 y0 y1. clear x y Hx Hy Ex Ey Exy.
  generalize dependent (x0 * y0). generalize dependent (x1 * y0).
  generalize dependent (x0 * y1). generalize dependent (x1 * y1).
  intros p11 B11 p01 B01 p10 B10 p00 B00.
  rewrite (u64_id p00), (u64_id p10), (u64_id p01), (u64_id p11) by lia.
  assert (Hw : 0 <= p00 / 2 ^ 32 < 2 ^ 32) by zdm.
  rewrite (u64_id (p10 + p00 / 2 ^ 32)) by lia.
  set (t := p10 + p00 / 2 ^ 32) in *.
  assert (Ht0 : 0 <= t mod 2 ^ 32 < 2 ^ 32) by (apply Z.mod_pos_bound; lia).
  assert (Ht1 : 0 <= t / 2 ^ 32 < 2 ^ 32) by zdm.
  rewrite (u64_id (t mod 2 ^ 32 + p01)) by lia.
  rewrite u64_add_l.
  split; [|split; apply u64_range]. unfold u64, t. zdm.
Qed.

(** *** Division of a two-word number

    One quotient digit (Knuth's algorithm D): with the divisor normalised,
    the estimate [un / yn1] is at most two too large and the loop corrects
    it. *)
Section Digit.
Context (y yn1 yn0 un u1 : Z).
Context (Hy : y = yn1 * 2 ^ 32 + yn0) (Hn1 : 2 ^ 31 <= yn1 < 2 ^ 32) (Hn0 : 0 <= yn0 < 2 ^ 32)
  (Hun : 0 <= un < y) (Hu1 : 0 <= u1 < 2 ^ 32).

(** The exact quotient of the three-digit number by the divisor. *)
Definition digit : Z := (un * 2 ^ 32 + u1) / y.

Lemma digit_bounds : 0 <= digit < 2 ^ 32.
Proof using All.
  unfold digit. split; [apply Z.div_pos; lia|]. apply Z.div_lt_upper_bound; nia.
Qed.

Lemma digit_unique q : q * y <= un * 2 ^ 32 + u1 -> digit <= q -> q = digit.
Proof using Hn0 Hn1 Hun Hu1 Hy.
  intros Hq Hge. unfold digit in *.
  assert (q <= (un * 2 ^ 32 + u1) / y) by (apply Z.div_le_lower_bound; nia). lia.
Qed.

Lemma digit_lt q : un * 2 ^ 32 + u1 < q * y -> digit <= q - 1.
Proof using Hn0 Hn1 Hun Hu1 Hy.
  intros Hq. unfold digit.
  assert ((un * 2 ^ 32 + u1) / y < q) by (apply Z.div_lt_upper_bound; nia). lia.
Qed.

Lemma correctQuotient_digit :
  correctQuotient (un / yn1) (un mod yn1) yn1 yn0 u1 ⇓ (fun q => q = digit).
Proof using All.
  unfold correctQuotient. change two32 with (2 ^ 32).
  apply (loop_returns
    (fun '(q, r) => q * yn1 + r = un /\ 0 <= r < 2 ^ 32 /\ digit <= q <= 2 ^ 32 + 1)
    (fun '(q, r) => 2 - r / 2 ^ 31)).
  2:{ assert (E := Z.div_mod un yn1 ltac:(lia)).
      assert (0 <= un mod yn1 < yn1) by (apply Z.mod_pos_bound; lia).
      split; [lia|]. split; [lia|]. split.
      - destruct (Z.le_gt_cases digit (un / yn1)) as [|Hgt]; [done|].
        assert (digit * y <= un * 2 ^ 32 + u1)
          by (rewrite Z.mul_comm; apply Z.mul_div_le; nia).
        set (q := un / yn1) in *.
        assert (0 <= q) by (apply Z.div_pos; lia).
        assert ((q + 1) * y <= digit * y) by (apply Z.mul_le_mono_nonneg_r; lia).
        assert ((q + 1) * y = ((q + 1) * yn1) * 2 ^ 32 + (q + 1) * yn0) by (rewrite Hy; ring).
        assert (0 <= (q + 1) * yn0) by (apply Z.mul_nonneg_nonneg; lia).
        assert (un + 1 <= (q + 1) * yn1) by lia. lia.
      - assert (un / yn1 < 2 ^ 32 + 2); [|lia]. apply Z.div_lt_upper_bound; nia. }
  2,3: pose proof (Z.mod_pos_bound un yn1 ltac:(lia)); generalize dependent (un mod yn1);
    intros r Hr; zdm.
  pose proof digit_bounds as Hd.
  intros [q r] (E & Hr & Hq).
  assert (Hq0 : 0 <= q) by lia.
  destruct (Z.geb_spec q (2 ^ 32)) as [Hbig|Hsmall]; cbn [orb].
  - rewrite (u64_id (q - 1)), (u64_id (r + yn1)) by lia.
    destruct (Z.geb_spec (r + yn1) (2 ^ 32)); cbn.
    + apply digit_unique; nia.
    + split; [|zdm]. split; [lia|]. lia.
  - rewrite (u64_id (q * yn0)) by nia. rewrite (u64_id (2 ^ 32 * r)) by lia.
    rewrite (u64_id (2 ^ 32 * r + u1)) by lia.
    destruct (Z.gtb_spec (q * yn0) (2 ^ 32 * r + u1)) as [Htest|Htest].
    + assert (digit <= q - 1) by (apply digit_lt; nia).
      rewrite (u64_id (q - 1)), (u64_id (r + yn1)) by lia.
      destruct (Z.geb_spec (r + yn1) (2 ^ 32)); cbn.
      * apply digit_unique; nia.
      * split; [|zdm]. split; [lia|]. lia.
    + cbn. apply digit_unique; nia.
Qed.
End Digit.

(** The normalised operands: shifting both by the leading zeros [s] of the
    divisor. *)
Lemma normalise hi lo y s :
  0 <= s < 64 -> 0 <= lo < 2 ^ 64 -> 0 <= hi < y -> y * 2 ^ s < 2 ^ 64 ->
  let un32 := Z.lor (u64 (Z.shiftl hi s)) (Z.shiftr lo (64 - s)) in
  let un10 := u64 (Z.shiftl lo s) in
  un32 * 2 ^ 64 + un10 = (hi * 2 ^ 64 + lo) * 2 ^ s /\
  0 <= un32 < y * 2 ^ s /\ 0 <= un10 < 2 ^ 64.
Proof.
  intros Hs Hlo Hhi Hy. cbv zeta. rewrite !shiftl_mul, shiftr_div by lia.
  assert (0 < 2 ^ s) by lia.
  assert (E64 : 2 ^ 64 = 2 ^ (64 - s) * 2 ^ s) by (rewrite <- Z.pow_add_r by lia; f_equal; lia).
  assert (0 < 2 ^ (64 - s)) by lia.
  rewrite (u64_id (hi * 2 ^ s)) by nia.
  assert (Hl : 0 <= lo / 2 ^ (64 - s) < 2 ^ s).
  { split; [apply Z.div_pos; lia|]. apply Z.div_lt_upper_bound; lia. }
  rewrite (lor_disjoint_mul hi _ s) by lia.
  assert (Elo := Z.div_mod lo (2 ^ (64 - s)) ltac:(lia)).
  assert (Hm := Z.mod_pos_bound lo (2 ^ (64 - s)) ltac:(lia)).
  assert (E : u64 (lo * 2 ^ s) = lo mod 2 ^ (64 - s) * 2 ^ s).
  { unfold u64. symmetry. apply (Z.mod_unique _ _ (lo / 2 ^ (64 - s))).
    - left. rewrite E64. nia.
    - rewrite E64. rewrite Elo at 1. ring. }
  split; [|split; [nia|rewrite E, E64; nia]].
  rewrite E. rewrite Elo at 3. rewrite E64. ring.
Qed.

(** Two digits in sequence divide the normalised number. *)
Lemma two_digits N y q1 q0 r1 r0 :
  0 < y -> N / 2 ^ 32 = q1 * y + r1 -> 0 <= r1 < y ->
  r1 * 2 ^ 32 + N mod 2 ^ 32 = q0 * y + r0 -> 0 <= r0 < y ->
  N = (q1 * 2 ^ 32 + q0) * y + r0.
Proof. intros Hy E1 H1 E2 H2. assert (E := Z.div_mod N (2 ^ 32) ltac:(lia)). lia. Qed.

Lemma digit_rem y un u1 :
  0 < y -> un * 2 ^ 32 + u1 = digit y un u1 * y + (un * 2 ^ 32 + u1) mod y /\
  0 <= (un * 2 ^ 32 + u1) mod y < y.
Proof.
  intros Hy. split; [|apply Z.mod_pos_bound; lia].
  unfold digit. rewrite (Z.mul_comm _ y). apply Z.div_mod. lia.
Qed.

Lemma un21_eq y un u1 :
  0 < y < 2 ^ 64 ->
  u64 (u64 (u64 (un * two32) + u1) - u64 (digit y un u1 * y)) = (un * 2 ^ 32 + u1) mod y.
Proof.
  intros Hy. change two32 with (2 ^ 32). rewrite u64_add_l, u64_sub_l, u64_sub_r.
  destruct (digit_rem y un u1) as [E Hr]; [lia|].
  replace (un * 2 ^ 32 + u1 - digit y un u1 * y) with ((un * 2 ^ 32 + u1) mod y) by lia.
  apply u64_id. lia.
Qed.

Lemma rhat_eq un yn1 : 0 <= un < 2 ^ 64 -> 0 < yn1 < 2 ^ 32 -> u64 (un - u64 (un / yn1 * yn1)) = un mod yn1.
Proof.
  intros Hu Hn. rewrite u64_sub_r.
  assert (E := Z.div_mod un yn1 ltac:(lia)). assert (H := Z.mod_pos_bound un yn1 ltac:(lia)).
  replace (un - un / yn1 * yn1) with (un mod yn1) by lia. apply u64_id. lia.
Qed.

(** The quotient and remainder of a long division are unique. *)
Lemma shifted_division N y s q r :
  0 <= s -> 0 < y -> N * 2 ^ s = q * (y * 2 ^ s) + r -> 0 <= r < y * 2 ^ s ->
  N = q * y + Z.shiftr r s /\ 0 <= Z.shiftr r s < y.
Proof.
  intros Hs Hy E Hr. rewrite shiftr_div by done. assert (0 < 2 ^ s) by lia.
  assert (Er : r = (N - q * y) * 2 ^ s) by lia.
  rewrite Er, Z.div_mul by lia. nia.
Qed.

Lemma LeadingZeros64_norm y : 0 < y < 2 ^ 64 ->
  exists s, LeadingZeros64 y = Ok s /\ 0 <= s < 64 /\ 2 ^ 63 <= y * 2 ^ s < 2 ^ 64.
Proof.
  intros Hy. unfold LeadingZeros64. rewrite Len64_bitlen by lia. cbn [rbind].
  exists (64 - bitlen y). split; [done|].
  destruct (bitlen_bounds y) as [Hlo Hhi]; [lia|].
  pose proof (bitlen_le y 64) as Hl.
  assert (1 <= bitlen y).
  { unfold bitlen in *. rewrite (proj2 (Z.eqb_neq y 0)) in * by lia. pose proof (Z.log2_nonneg y). lia. }
  split; [lia|]. assert (0 < 2 ^ (64 - bitlen y)) by lia.
  replace (2 ^ 63) with (2 ^ (bitlen y - 1) * 2 ^ (64 - bitlen y))
    by (rewrite <- Z.pow_add_r by lia; f_equal; lia).
  replace (2 ^ 64) with (2 ^ bitlen y * 2 ^ (64 - bitlen y))
    by (rewrite <- Z.pow_add_r by lia; f_equal; lia).
  nia.
Qed.

Lemma Div64_spec hi lo y :
  0 <= hi < 2 ^ 64 -> 0 <= lo < 2 ^ 64 -> 0 <= y < 2 ^ 64 -> hi < y ->
  Div64 hi lo y ⇓ (fun '(quo, rem) =>
    hi * 2 ^ 64 + lo = quo * y + rem /\ 0 <= rem < y /\ 0 <= quo < 2 ^ 64).
Proof.
  intros Hhi Hlo Hy Hlt. unfold Div64.
  rewrite (proj2 (Z.eqb_neq y 0)), (proj2 (Z.leb_gt y hi)) by lia.
  destruct (Z.eqb_spec hi 0) as [->|Hnz].
  { cbn. assert (E := Z.div_mod lo y ltac:(lia)). assert (H := Z.mod_pos_bound lo y ltac:(lia)).
    split; [lia|]. split; [lia|]. split; [apply Z.div_pos; lia|].
    apply Z.div_lt_upper_bound; nia. }
  destruct (LeadingZeros64_norm y) as (s & -> & Hs & Hn); [lia|]. cbn [rbind].
  rewrite (shiftl_mul y s), (u64_id (y * 2 ^ s)) by lia.
  destruct (normalise hi lo y s) as (EN & Hun & H10); [lia..|].
  set (un32 := Z.lor _ _) in *. set (un10 := u64 (Z.shiftl lo s)) in *.
  change mask32 with (2 ^ 32 - 1).
  rewrite !(land_ones' _ 32 (2 ^ 32 - 1)), !(shiftr_div _ 32) by lia.
  set (Y := y * 2 ^ s) in *.
  assert (HY : Y = Y / 2 ^ 32 * 2 ^ 32 + Y mod 2 ^ 32) by (rewrite Z.mul_comm; apply Z.div_mod; lia).
  assert (Hy0 : 0 <= Y mod 2 ^ 32 < 2 ^ 32) by (apply Z.mod_pos_bound; lia).
  assert (Hy1 : 2 ^ 31 <= Y / 2 ^ 32 < 2 ^ 32) by zdm.
  assert (Hu1 : 0 <= un10 / 2 ^ 32 < 2 ^ 32) by zdm.
  assert (Hu0 : 0 <= un10 mod 2 ^ 32 < 2 ^ 32) by (apply Z.mod_pos_bound; lia).
  rewrite (proj2 (Z.eqb_neq (Y / 2 ^ 32) 0)) by lia.
  rewrite rhat_eq by lia.
  eapply returns_bind_mono; [by apply (correctQuotient_digit Y)|]. intros q1 ->.
  rewrite un21_eq by lia.
  destruct (digit_rem Y un32 (un10 / 2 ^ 32)) as [E1 Hr1]; [lia|].
  set (r1 := (un32 * 2 ^ 32 + un10 / 2 ^ 32) mod Y) in *.
  rewrite rhat_eq by lia.
  eapply returns_bind_mono; [by apply (correctQuotient_digit Y)|]. intros q0 ->.
  rewrite un21_eq by lia.
  destruct (digit_rem Y r1 (un10 mod 2 ^ 32)) as [E0 Hr0]; [lia|].
  pose proof (digit_bounds Y (Y / 2 ^ 32) (Y mod 2 ^ 32) un32 (un10 / 2 ^ 32) HY Hy1 Hy0 Hun Hu1) as Hd1.
  pose proof (digit_bounds Y (Y / 2 ^ 32) (Y mod 2 ^ 32) r1 (un10 mod 2 ^ 32) HY Hy1 Hy0 Hr1 Hu0) as Hd0.
  change two32 with (2 ^ 32). rewrite u64_add_l, u64_id by lia. cbn [returns].
  destruct (shifted_division (hi * 2 ^ 64 + lo) y s
              (digit Y un32 (un10 / 2 ^ 32) * 2 ^ 32 + digit Y r1 (un10 mod 2 ^ 32))
              ((r1 * 2 ^ 32 + un10 mod 2 ^ 32) mod Y)) as [Eq Hrem]; [lia|lia| |done|].
  - rewrite <- EN. assert (Eu := Z.div_mod un10 (2 ^ 32) ltac:(lia)).
    change (2 ^ 64) with (2 ^ 32 * 2 ^ 32). fold Y. lia.
  - split; [done|]. split; [done|lia].
Qed.

(** *** Counting ones by digits *)

Definition digits_ok (B : Z) (ds : list Z) : Prop := Forall (fun d => 0 <= d < B) ds.

Lemma val_bound w ds : 0 <= w -> digits_ok (2 ^ w) ds -> 0 <= val w ds < 2 ^ (w * len ds).
Proof.
  intros Hw. induction 1 as [|d ds Hd _ IH]; cbn [val].
  { change (len (@nil Z)) with 0. rewrite Z.mul_0_r. lia. }
  rewrite len_cons, Z.mul_add_distr_l, Z.mul_1_r, Z.pow_add_r by len_lia. nia.
Qed.

Lemma land_low w a b m M :
  0 <= w -> 0 <= a < 2 ^ w -> 0 <= m < 2 ^ w ->
  Z.land (a + 2 ^ w * b) (m + 2 ^ w * M) = Z.land a m + 2 ^ w * Z.land b M.
Proof.
  intros Hw Ha Hm. assert (0 <= Z.land a m) by (apply Z.land_nonneg; lia).
  assert (Z.land a m < 2 ^ w).
  { apply bounded_by_bits; [done|done|]. intros i Hi.
    by rewrite Z.land_spec, (testbit_high a w) by lia. }
  rewrite !(Z.add_comm _ (2 ^ w * _)), !(Z.mul_comm (2 ^ w)).
  apply Z.bits_inj'. intros i Hi. rewrite Z.land_spec, !testbit_split by lia.
  destruct (i <? w); by rewrite Z.land_spec.
Qed.

Lemma shiftr_val w d ds : 0 <= w -> 0 <= d < 2 ^ w -> Z.shiftr (val w (d :: ds)) w = val w ds.
Proof.
  intros Hw Hd. rewrite shiftr_div by done. cbn [val].
  rewrite Z.mul_comm, Z.div_add, Z.div_small by lia. lia.
Qed.

(** Masking with the low half of every double digit keeps the even digits. *)
Lemma land_evens w ds (n : nat) :
  0 <= w -> digits_ok (2 ^ w) ds -> length ds = (2 * n)%nat ->
  Z.land (val w ds) (val (2 * w) (repeat (2 ^ w - 1) n)) = val (2 * w) (evens ds).
Proof.
  intros Hw. revert ds. induction n as [|n IH]; intros ds Hds Hl.
  { destruct ds; [by rewrite Z.land_0_l|simpl in Hl; lia]. }
  destruct ds as [|d [|e ds]]; simpl in Hl; [lia|lia|].
  apply Forall_cons_1 in Hds as [Hd [He Hds]%Forall_cons_1].
  cbn [val repeat evens]. rewrite <- (IH ds) by (done || lia).
  assert (E2 : 2 ^ (2 * w) = 2 ^ w * 2 ^ w) by (rewrite <- Z.pow_add_r by lia; f_equal; lia).
  replace (d + 2 ^ w * (e + 2 ^ w * val w ds)) with ((d + 2 ^ w * e) + 2 ^ (2 * w) * val w ds)
    by (rewrite E2; ring).
  rewrite land_low by (rewrite ?E2; nia). f_equal.
  replace (2 ^ w - 1) with ((2 ^ w - 1) + 2 ^ w * 0) by lia.
  rewrite land_low by lia. rewrite Z.land_0_r, (land_ones' d w), Z.mod_small by lia. lia.
Qed.

Lemma evens_ok B ds : digits_ok B ds -> digits_ok B (evens ds).
Proof.
  revert ds. fix IH 1. intros [|d [|e ds]] H; [constructor|constructor|].
  apply Forall_cons_1 in H as [Hd [He H]%Forall_cons_1]. constructor; [done|by apply IH].
Qed.

(** One summing stage: neighbouring digits are added into double digits. *)
Lemma pairs_stage w ds (n : nat) :
  0 <= w -> digits_ok (2 ^ w) ds -> length ds = (2 * n)%nat ->
  Z.land (Z.shiftr (val w ds) w) (val (2 * w) (repeat (2 ^ w - 1) n))
  + Z.land (val w ds) (val (2 * w) (repeat (2 ^ w - 1) n))
  = val (2 * w) (pairs ds).
Proof.
  intros Hw Hds Hl. destruct ds as [|d ds].
  { destruct n; [|simpl in Hl; lia]. cbn [val repeat pairs]. by rewrite !Z.land_0_r. }
  pose proof Hds as Hds'. apply Forall_cons_1 in Hds' as [Hd Hds'].
  rewrite shiftr_val by done. rewrite (land_evens w (d :: ds)) by done.
  replace (val w ds) with (val w (ds ++ [0])).
  2:{ clear. induction ds as [|e ds IH]; cbn [app val]; [ring|]. by rewrite IH. }
  rewrite land_evens; [|done| |rewrite length_app; simpl in *; lia].
  2:{ apply Forall_app. split; [done|]. repeat constructor; lia. }
  assert (Hlen : exists m, length (d :: ds) = (2 * m)%nat) by eauto. clear Hl Hd Hds Hds'.
  revert d ds Hlen. fix IH 2. intros d [|e [|d' ds]] [m Hm].
  - simpl in Hm. lia.
  - cbn. ring.
  - change (pairs (d :: e :: d' :: ds)) with (d + e :: pairs (d' :: ds)).
    change (evens (d :: e :: d' :: ds)) with (d :: evens (d' :: ds)).
    change (evens ((e :: d' :: ds) ++ [0])) with (e :: evens (ds ++ [0])).
    cbn [val]. rewrite <- (IH d' ds) by (exists (m - 1)%nat; simpl in *; lia). ring.
Qed.

Lemma pairs_ok B ds : digits_ok B ds -> digits_ok (2 * B - 1) (pairs ds).
Proof.
  revert ds. fix IH 1. intros [|d [|e ds]] H; [constructor|constructor|].
  apply Forall_cons_1 in H as [Hd [He H]%Forall_cons_1].
  cbn. constructor; [lia|by apply IH].
Qed.

Lemma pairs_dsum ds : (exists n, length ds = (2 * n)%nat) -> dsum (pairs ds) = dsum ds.
Proof.
  revert ds. fix IH 1. intros [|d [|e ds]] [n Hn]; [done|simpl in Hn; lia|].
  cbn. change (foldr Z.add 0 ?l) with (dsum l). rewrite IH; [lia|].
  exists (n - 1)%nat. simpl in Hn. lia.
Qed.

Lemma digits_mono B B' ds : B <= B' -> digits_ok B ds -> digits_ok B' ds.
Proof. intros HB H. eapply Forall_impl; [exact H|]. cbv beta. lia. Qed.

Lemma digits2_val n x : 0 <= x < 2 ^ Z.of_nat n -> val 1 (digits2 n x) = x.
Proof.
  revert x. induction n as [|n IH]; intros x Hx; [cbn in *; lia|].
  rewrite Nat2Z.inj_succ, Z.pow_succ_r in Hx by lia.
  cbn [digits2 val]. rewrite IH by zdm. change (2 ^ 1) with 2. zdm.
Qed.

Lemma digits2_ok n x : digits_ok 2 (digits2 n x).
Proof. revert x. induction n as [|n IH]; intros x; constructor; [zdm|apply IH]. Qed.

Lemma digits2_length n x : length (digits2 n x) = n.
Proof. revert x. induction n as [|n IH]; intros x; [done|]. cbn. by rewrite IH. Qed.

Lemma digits2_dsum n x : dsum (digits2 n x) = popcount n x.
Proof. revert x. induction n as [|n IH]; intros x; [done|]. cbn. by rewrite <- IH. Qed.

Lemma val_padd w a b : val w (padd a b) = val w a + val w b.
Proof.
  revert b. induction a as [|x a IH]; intros [|y b]; cbn [padd val]; try ring.
  rewrite IH. ring.
Qed.

Lemma shiftr_val_n w (k : nat) ds :
  0 <= w -> digits_ok (2 ^ w) ds -> Z.shiftr (val w ds) (w * Z.of_nat k) = val w (drop k ds).
Proof.
  intros Hw. revert ds. induction k as [|k IH]; intros ds Hds.
  { by rewrite Z.mul_0_r, Z.shiftr_0_r. }
  replace (w * Z.of_nat (S k)) with (w + w * Z.of_nat k) by lia.
  rewrite <- Z.shiftr_shiftr by lia. destruct ds as [|d ds].
  - cbn [val drop]. by rewrite !Z.shiftr_0_l.
  - apply Forall_cons_1 in Hds as [Hd Hds]. rewrite shiftr_val by done. cbn [drop]. by apply IH.
Qed.

(** [x + x>>(w*k)] adds to every digit the one [k] places higher. *)
Lemma shift_add w (k : nat) ds B n :
  0 <= w -> digits_ok B ds -> 2 * B <= 2 ^ w + 1 -> 0 <= B -> length ds = n -> w * Z.of_nat n <= 64 ->
  u64 (val w ds + Z.shiftr (val w ds) (w * Z.of_nat k)) = val w (padd ds (drop k ds)) /\
  digits_ok (2 * B - 1) (padd ds (drop k ds)) /\ length (padd ds (drop k ds)) = n.
Proof.
  intros Hw Hds HB HB0 Hn H64.
  assert (Hok : forall a b, digits_ok B a -> digits_ok B b -> digits_ok (2 * B - 1) (padd a b)).
  { clear. induction a as [|x a IH]; intros [|y b] Ha Hb; cbn [padd]; [constructor| | |].
    - eapply digits_mono; [|done]. apply Forall_cons_1 in Hb as [? _]. lia.
    - eapply digits_mono; [|done]. apply Forall_cons_1 in Ha as [? _]. lia.
    - apply Forall_cons_1 in Ha as [Hx Ha], Hb as [Hy Hb]. constructor; [lia|by apply IH]. }
  assert (Hlen : forall a b : list Z, (length b <= length a)%nat -> length (padd a b) = length a).
  { clear. induction a as [|x a IH]; intros [|y b] Hl; simpl in *; try done; try lia.
    rewrite IH; lia. }
  assert (Hds' : digits_ok (2 ^ w) ds).
  { destruct ds; [constructor|]. eapply digits_mono; [|done].
    apply Forall_cons_1 in Hds as [? _]. lia. }
  rewrite shiftr_val_n by done. rewrite <- val_padd.
  assert (Hres : digits_ok (2 * B - 1) (padd ds (drop k ds)))
    by (apply Hok; [done|by apply Forall_drop]).
  assert (Hl : length (padd ds (drop k ds)) = n) by (rewrite Hlen; [done|rewrite length_drop; lia]).
  split; [|done]. apply u64_id.
  pose proof (val_bound w (padd ds (drop k ds)) Hw) as Hv.
  rewrite (ltac:(unfold len; by rewrite Hl) : len (padd ds (drop k ds)) = Z.of_nat n) in Hv.
  assert (2 ^ (w * Z.of_nat n) <= 2 ^ 64) by (apply Z.pow_le_mono_r; lia).
  assert (digits_ok (2 ^ w) (padd ds (drop k ds))) by (by eapply digits_mono; [|exact Hres]; lia).
  specialize (Hv ltac:(done)). lia.
Qed.

Lemma pairs_length ds n : length ds = (2 * n)%nat -> length (pairs ds) = n.
Proof.
  revert ds n. fix IH 1. intros [|d [|e ds]] n H; [simpl in *; lia|simpl in H; lia|].
  destruct n as [|n]; [simpl in H; lia|]. cbn. f_equal. apply IH. simpl in H. lia.
Qed.

Lemma u64_val w ds :
  0 <= w -> digits_ok (2 ^ w) ds -> w * len ds <= 64 -> u64 (val w ds) = val w ds.
Proof.
  intros Hw Hds Hl. apply u64_id. pose proof (val_bound w ds Hw Hds).
  assert (2 ^ (w * len ds) <= 2 ^ 64) by (apply Z.pow_le_mono_r; lia). lia.
Qed.

Lemma low_digit d r : 0 <= d < 65 -> Z.land (i64 (d + 2 ^ 8 * r)) 127 = d.
Proof.
  intros Hd. rewrite (land_ones' _ 7) by done. unfold i64, signed.
  change (64 - 1) with 63. zdm.
Qed.

(** The masked and unmasked sums from 4-bit digits on. *)
Lemma final_stages ds :
  digits_ok 5 ds -> length ds = 16%nat ->
  let x := Z.land (u64 (Z.shiftr (val 4 ds) 4 + val 4 ds)) (val 8 (repeat 15 8)) in
  let x := u64 (x + Z.shiftr x 8) in
  let x := u64 (x + Z.shiftr x 16) in
  let x := u64 (x + Z.shiftr x 32) in
  Z.land (i64 x) 127 = dsum ds.
Proof.
  intros Hds Hl. cbv zeta. rewrite (Z.add_comm (Z.shiftr _ _)).
  destruct (shift_add 4 1 ds 5 16) as (E1 & D1 & L1); [done|done|lia|lia|done|lia|].
  change (4 * Z.of_nat 1) with 4 in E1. rewrite E1.
  change (val 8 (repeat 15 8)) with (val (2 * 4) (repeat (2 ^ 4 - 1) 8)).
  rewrite !(land_evens 4 _ 8) by (first [done|lia|eapply digits_mono; [|exact D1]; lia]).
  set (es := evens _). assert (D2 : digits_ok 9 es) by (by apply evens_ok).
  assert (L2 : length es = 8%nat).
  { unfold es. do 17 (destruct ds as [|? ds]; [discriminate Hl || done|]). discriminate Hl. }
  change (2 * 4) with 8.
  destruct (shift_add 8 1 es 9 8) as (E3 & D3 & L3); [done|done|lia|lia|done|lia|].
  change (8 * Z.of_nat 1) with 8 in E3. rewrite E3.
  set (fs := padd es (drop 1 es)) in *.
  destruct (shift_add 8 2 fs 17 8) as (E4 & D4 & L4); [done|done|lia|lia|done|lia|].
  change (8 * Z.of_nat 2) with 16 in E4. rewrite E4.
  set (gs := padd fs (drop 2 fs)) in *.
  destruct (shift_add 8 4 gs 33 8) as (E5 & D5 & L5); [done|done|lia|lia|done|lia|].
  change (8 * Z.of_nat 4) with 32 in E5. rewrite E5.
  unfold gs, fs, es in *. clear -Hl D5.
  do 16 (destruct ds as [|? ds]; [discriminate Hl|]). destruct ds; [|discriminate Hl].
  cbn [padd drop evens] in D5 |- *. apply Forall_cons_1 in D5 as [H0 _].
  cbn [val]. unfold dsum. cbn [foldr]. rewrite low_digit by lia. lia.
Qed.

Lemma OnesCount64_popcount x : 0 <= x < 2 ^ 64 -> OnesCount64 x = popcount 64 x.
Proof.
  intros Hx. rewrite <- digits2_dsum.
  rewrite <- (digits2_val 64 x Hx) at 1.
  pose proof (digits2_ok 64 x) as Hok. pose proof (digits2_length 64 x) as Hl.
  revert Hok Hl. generalize (digits2 64 x). intros ds Hok Hl. clear Hx x. unfold OnesCount64.
  change (Z.land m0 _) with (val (2 * 1) (repeat (2 ^ 1 - 1) 32)).
  change (Z.land m1 _) with (val (2 * 2) (repeat (2 ^ 2 - 1) 16)).
  change (Z.land m2 _) with (val 8 (repeat 15 8)).
  rewrite pairs_stage by (done || lia).
  assert (P1 := pairs_ok 2 ds Hok). assert (L1 := pairs_length ds 32 Hl).
  rewrite (u64_val (2 * 1) (pairs ds)); [|lia|by apply (digits_mono 3)|unfold len; rewrite L1; lia].
  change (val (2 * 1)) with (val 2).
  rewrite (pairs_stage 2 (pairs ds) 16); [|lia|by apply (digits_mono 3)|done].
  assert (P2 := pairs_ok 3 (pairs ds) P1). assert (L2 := pairs_length (pairs ds) 16 L1).
  rewrite (u64_val (2 * 2) (pairs (pairs ds)));
    [|lia|by apply (digits_mono 5)|unfold len; rewrite L2; lia].
  change (val (2 * 2)) with (val 4).
  etransitivity; [exact (final_stages (pairs (pairs ds)) P2 L2)|].
  rewrite !pairs_dsum; [done|by exists 32%nat|by exists 16%nat].
Qed.

(** ** Theorems *)

(** The length functions never index outside their table and return the
    number of bits of their argument (0 for 0, one more than its base-2
    logarithm otherwise), at every width; [LeadingZeros64] is 64 minus it. *)
Theorem Len_correct x :
  (0 <= x < 2 ^ 8 -> Len8 x = Ok (bitlen x)) /\
  (0 <= x < 2 ^ 16 -> Len16 x = Ok (bitlen x)) /\
  (0 <= x < 2 ^ 32 -> Len32 x = Ok (bitlen x)) /\
  (0 <= x < 2 ^ 64 -> Len64 x = Ok (bitlen x) /\ LeadingZeros64 x = Ok (64 - bitlen x)) /\
  (0 < x -> 2 ^ (bitlen x - 1) <= x < 2 ^ bitlen x).
Proof.
  split; [|split; [|split; [|split]]].
  - intros Hx. by apply len8tab_bitlen.
  - apply Len16_bitlen.
  - apply Len32_bitlen.
  - intros Hx. unfold LeadingZeros64. by rewrite Len64_bitlen.
  - apply bitlen_bounds.
Qed.

Lemma Len_correct_witness :
  Len64 (2 ^ 40 + 5) = Ok 41 /\ LeadingZeros64 (2 ^ 40 + 5) = Ok 23.
Proof. apply (Len_correct (2 ^ 40 + 5)). lia. Defined.

Lemma TrailingZeros32_ntz x : 0 < x < 2 ^ 32 -> TrailingZeros32 x ⇓ is_ntz x.
Proof.
  intros Hx. destruct (odd_part x) as (k & q & Hk & Hq & ->); [lia|].
  unfold TrailingZeros32. rewrite (proj2 (Z.eqb_neq _ 0)) by lia. unfold u32 at 2.
  rewrite isolate_low by lia. pose proof (isolate_lt 32 k q Hk Hq ltac:(lia)).
  rewrite deBruijn32_ok by lia. by apply is_ntz_odd.
Qed.

Lemma TrailingZeros64_ntz x : 0 < x < 2 ^ 64 -> TrailingZeros64 x ⇓ is_ntz x.
Proof.
  intros Hx. destruct (odd_part x) as (k & q & Hk & Hq & ->); [lia|].
  unfold TrailingZeros64. rewrite (proj2 (Z.eqb_neq _ 0)) by lia. unfold u64 at 2.
  rewrite isolate_low by lia. pose proof (isolate_lt 64 k q Hk Hq ltac:(lia)).
  rewrite deBruijn64_ok by lia. by apply is_ntz_odd.
Qed.

(** [TrailingZeros16], [TrailingZeros32] and [TrailingZeros64] return the
    index of the lowest one bit of a non-zero word (the width for zero): the
    de Bruijn look-ups hit the right table entry for every word. *)
Theorem TrailingZeros_correct x :
  (0 < x < 2 ^ 16 -> TrailingZeros16 x ⇓ is_ntz x) /\
  (0 < x < 2 ^ 32 -> TrailingZeros32 x ⇓ is_ntz x) /\
  (0 < x < 2 ^ 64 -> TrailingZeros64 x ⇓ is_ntz x) /\
  TrailingZeros16 0 = Ok 16 /\ TrailingZeros32 0 = Ok 32 /\ TrailingZeros64 0 = Ok 64.
Proof.
  split; [|split; [|split; [|done]]]; intros Hx;
    destruct (odd_part x) as (k & q & Hk & Hq & ->); try lia.
  - unfold TrailingZeros16, u16. rewrite (proj2 (Z.eqb_neq _ 0)) by lia.
    rewrite isolate_low by lia. pose proof (isolate_lt 16 k q Hk Hq ltac:(lia)).
    rewrite (u32_id (2 ^ k)) by (split; [lia|apply Z.pow_lt_mono_r; lia]).
    rewrite deBruijn32_ok by lia. by apply is_ntz_odd.
  - by apply TrailingZeros32_ntz.
  - by apply TrailingZeros64_ntz.
Qed.

Lemma TrailingZeros_correct_witness :
  TrailingZeros64 (2 ^ 63 + 2 ^ 17) = Ok 17 /\ TrailingZeros64 (2 ^ 63 + 2 ^ 17) ⇓ is_ntz (2 ^ 63 + 2 ^ 17).
Proof.
  split; [vm_compute; reflexivity|]. apply (TrailingZeros_correct (2 ^ 63 + 2 ^ 17)). lia.
Defined.

(** [OnesCount64], the parallel bit sum, is the number of one bits of its
    64-bit argument. *)
Theorem OnesCount64_correct x : 0 <= x < 2 ^ 64 -> OnesCount64 x = popcount 64 x.
Proof. apply OnesCount64_popcount. Qed.

Lemma OnesCount64_correct_witness : OnesCount64 (2 ^ 64 - 1) = 64.
Proof. rewrite OnesCount64_correct; [vm_compute; reflexivity|lia]. Defined.

(** Bit [i] of [Reverse64 x] is bit [63 - i] of [x]; bit [i] of
    [ReverseBytes64 x] is the same bit of the mirrored byte; bit [i] of
    [RotateLeft64 x k] is bit [i - k] modulo 64, for negative [k] too. *)
Theorem Reverse_Rotate_correct x k i :
  0 <= x < 2 ^ 64 -> 0 <= i < 64 ->
  Z.testbit (Reverse64 x) i = Z.testbit x (63 - i) /\
  Z.testbit (ReverseBytes64 x) i = Z.testbit x (8 * (7 - i / 8) + i mod 8) /\
  Z.testbit (RotateLeft64 x k) i = Z.testbit x ((i - k) mod 64).
Proof.
  intros Hx Hi.
  assert (E56 : Z.lxor i 56 = 8 * (7 - i / 8) + i mod 8).
  { apply (lxor_all_bits 56 (fun i => 8 * (7 - i / 8) + i mod 8)); [vm_compute; reflexivity|done]. }
  split; [|split].
  - rewrite Reverse64_stages.
    assert (H1 : 0 <= stage64 1 m0 x < 2 ^ 64) by (apply stage64_range; unfold m0; lia).
    assert (H2 : 0 <= stage64 2 m1 (stage64 1 m0 x) < 2 ^ 64) by (apply stage64_range; unfold m1; lia).
    rewrite ReverseBytes64_bits by (try apply stage64_range; unfold m2; lia).
    rewrite !stage64_xor; try (done || (repeat apply lxor_range; lia)).
    f_equal. rewrite !Z.lxor_assoc. change (Z.lxor _ (Z.lxor _ _)) with (Z.lxor i 63).
    apply (lxor_all_bits 63 (fun i => 63 - i)); [vm_compute; reflexivity|done].
  - rewrite ReverseBytes64_bits by done. rewrite !Z.lxor_assoc.
    change (Z.lxor i _) with (Z.lxor i 56). by rewrite E56.
  - unfold RotateLeft64, u64 at 1. rewrite rotate_amount by (lia || by exists 6).
    assert (0 <= k mod 64 < 64) by (apply Z.mod_pos_bound; lia).
    rewrite rotate_bits by lia. f_equal. by rewrite Zminus_mod_idemp_r.
Qed.

Lemma Reverse_Rotate_correct_witness :
  Z.testbit (Reverse64 1) 63 = true /\ Z.testbit (RotateLeft64 1 (-1)) 63 = true.
Proof.
  split.
  - rewrite (proj1 (Reverse_Rotate_correct 1 0 63 ltac:(lia) ltac:(lia))). reflexivity.
  - rewrite (proj2 (proj2 (Reverse_Rotate_correct 1 (-1) 63 ltac:(lia) ltac:(lia)))). reflexivity.
Defined.

(** Addition and subtraction with carry and the full product are exact:
    [Add64] and [Sub64] return the low word and the carry or borrow (0 or 1)
    of the exact result, [Sub32] the same at 32 bits, and [Mul64] the two
    words of the exact product. *)
Theorem Add_Sub_Mul_exact x y c :
  0 <= x < 2 ^ 64 -> 0 <= y < 2 ^ 64 -> 0 <= c <= 1 ->
  (let '(sum, carry) := Add64 x y c in
   sum + 2 ^ 64 * carry = x + y + c /\ 0 <= sum < 2 ^ 64 /\ 0 <= carry <= 1) /\
  (let '(diff, borrow) := Sub64 x y c in
   diff - 2 ^ 64 * borrow = x - y - c /\ 0 <= diff < 2 ^ 64 /\ 0 <= borrow <= 1) /\
  (x < 2 ^ 32 -> y < 2 ^ 32 ->
   let '(diff, borrow) := Sub32 x y c in
   diff - 2 ^ 32 * borrow = x - y - c /\ 0 <= diff < 2 ^ 32 /\ 0 <= borrow <= 1) /\
  (let '(hi, lo) := Mul64 x y in
   hi * 2 ^ 64 + lo = x * y /\ 0 <= hi < 2 ^ 64 /\ 0 <= lo < 2 ^ 64).
Proof.
  intros Hx Hy Hc. split; [by apply Add64_spec|]. split; [|split].
  - by apply (borrow_formula 63 x y c).
  - intros Hx' Hy'. apply (borrow_formula 31 x y c); change (31 + 1) with 32; lia.
  - by apply Mul64_spec.
Qed.

Lemma Add_Sub_Mul_exact_witness :
  Add64 (2 ^ 64 - 1) (2 ^ 63) 1 = (2 ^ 63, 1) /\
  (let '(hi, lo) := Mul64 (2 ^ 64 - 1) (2 ^ 63) in
   hi * 2 ^ 64 + lo = (2 ^ 64 - 1) * 2 ^ 63 /\ 0 <= hi < 2 ^ 64 /\ 0 <= lo < 2 ^ 64).
Proof.
  split; [vm_compute; reflexivity|].
  apply (Add_Sub_Mul_exact (2 ^ 64 - 1) (2 ^ 63) 1); lia.
Defined.

(** C37: [Div64] panics exactly for a zero divisor or a quotient that does not
    fit (divisor not above the high word); otherwise its loops end and it
    returns the exact quotient and remainder of the 128-bit dividend. *)
Theorem Div64_correct hi lo y :
  0 <= hi < 2 ^ 64 -> 0 <= lo < 2 ^ 64 -> 0 <= y < 2 ^ 64 ->
  if (y =? 0) || (y <=? hi) then Div64 hi lo y = Panic
  else Div64 hi lo y ⇓ (fun '(quo, rem) =>
    hi * 2 ^ 64 + lo = quo * y + rem /\ 0 <= rem < y /\ 0 <= quo < 2 ^ 64).
Proof.
  intros Hhi Hlo Hy. destruct (Z.eqb_spec y 0) as [->|]; [done|]. cbn [orb].
  destruct (Z.leb_spec y hi).
  - unfold Div64. rewrite (proj2 (Z.eqb_neq y 0)) by lia.
    by rewrite (proj2 (Z.leb_le y hi)) by lia.
  - apply Div64_spec; lia.
Qed.

Lemma Div64_correct_witness :
  Div64 1 0 (2 ^ 63 + 1) ⇓ (fun '(quo, rem) =>
    1 * 2 ^ 64 + 0 = quo * (2 ^ 63 + 1) + rem /\ 0 <= rem < 2 ^ 63 + 1 /\ 0 <= quo < 2 ^ 64).
Proof. exact (Div64_correct 1 0 (2 ^ 63 + 1) ltac:(lia) ltac:(lia) ltac:(lia)). Defined.

(** [Rem64] is the remainder of the 128-bit dividend for every non-zero
    divisor, also when the quotient overflows. *)
Theorem Rem64_correct hi lo y :
  0 <= hi < 2 ^ 64 -> 0 <= lo < 2 ^ 64 -> 0 < y < 2 ^ 64 ->
  Rem64 hi lo y = Ok ((hi * 2 ^ 64 + lo) mod y).
Proof.
  intros Hhi Hlo Hy. unfold Rem64. rewrite (proj2 (Z.eqb_neq y 0)) by lia.
  assert (Hm := Z.mod_pos_bound hi y ltac:(lia)).
  destruct (returns_inv _ _ (Div64_spec (hi mod y) lo y ltac:(lia) Hlo ltac:(lia) ltac:(lia)))
    as ([quo rem] & -> & E & Hr & _). cbn. f_equal.
  rewrite <- (Z.add_mod_idemp_l (hi * 2 ^ 64)), <- (Z.mul_mod_idemp_l hi),
    (Z.add_mod_idemp_l (hi mod y * 2 ^ 64)) by lia.
  apply (Z.mod_unique _ _ quo); lia.
Qed.

Lemma Rem64_correct_witness : Rem64 (2 ^ 63) 12345 10 = Ok ((2 ^ 63 * 2 ^ 64 + 12345) mod 10).
Proof. apply Rem64_correct; lia. Defined.
