(* ===== verification/Utf8.v ===== *)
(** * Package unicode/utf8

    Runes are [Z] (an [int32] value), byte slices and strings are lists of
    bytes.  Every function of src/unicode/utf8/utf8.go is translated with its
    index expressions checked ([idx] panics out of range).  The reference is
    [utf8_encode], the encoding table of the Unicode standard written with
    division and remainder, and the set [scalar] of the code points it is
    defined on.  The [word] fast path of [Valid] is kept; the pointer size is
    an argument, 4 or 8. *)
From Stdlib Require Import Ascii String ZArith Lia.
From stdpp Require Import base numbers list.
From S2P Require Import Prelude.

(** ** Constants and tables *)

Definition RuneError : Z := 0xFFFD.
Definition RuneSelf : Z := 0x80.
Definition MaxRune : Z := 0x10FFFF.
Definition UTFMax : Z := 4.
Definition surrogateMin : Z := 0xD800.
Definition surrogateMax : Z := 0xDFFF.

Definition tx : Z := 0x80.
Definition t2 : Z := 0xC0.
Definition t3 : Z := 0xE0.
Definition t4 : Z := 0xF0.
Definition maskx : Z := 0x3F.
Definition mask2 : Z := 0x1F.
Definition mask3 : Z := 0x0F.
Definition mask4 : Z := 0x07.
Definition rune1Max : Z := Z.shiftl 1 7 - 1.
Definition rune2Max : Z := Z.shiftl 1 11 - 1.
Definition rune3Max : Z := Z.shiftl 1 16 - 1.
Definition locb : Z := 0x80.
Definition hicb : Z := 0xBF.

Definition xx : Z := 0xF1.
Definition as_ : Z := 0xF0.
Definition s1 : Z := 0x02.
Definition s2 : Z := 0x13.
Definition s3 : Z := 0x03.
Definition s4 : Z := 0x23.
Definition s5 : Z := 0x34.
Definition s6 : Z := 0x04.
Definition s7 : Z := 0x44.

Definition runeErrorByte0 : Z := Z.lor t3 (Z.shiftr RuneError 12).
Definition runeErrorByte1 : Z := Z.lor tx (Z.land (Z.shiftr RuneError 6) maskx).
Definition runeErrorByte2 : Z := Z.lor tx (Z.land RuneError maskx).

Definition first : list Z :=
  repeat as_ 128 ++ repeat xx 64 ++
  [xx; xx; s1; s1; s1; s1; s1; s1; s1; s1; s1; s1; s1; s1; s1; s1;
   s1; s1; s1; s1; s1; s1; s1; s1; s1; s1; s1; s1; s1; s1; s1; s1;
   s2; s3; s3; s3; s3; s3; s3; s3; s3; s3; s3; s3; s3; s4; s3; s3;
   s5; s6; s6; s6; s7; xx; xx; xx; xx; xx; xx; xx; xx; xx; xx; xx].

Record acceptRange := { lo : Z; hi : Z }.

Definition acceptRanges : list acceptRange :=
  [ {| lo := locb; hi := hicb |};
    {| lo := 0xA0; hi := hicb |};
    {| lo := locb; hi := 0x9F |};
    {| lo := 0x90; hi := hicb |};
    {| lo := locb; hi := 0x8F |} ] ++ repeat {| lo := 0; hi := 0 |} 11.

(** ** Decoding *)

(** [b < r.lo || r.hi < b] *)
Definition outside (r : acceptRange) (b : Z) : bool := (b <? lo r) || (hi r <? b).
(** [b < locb || hicb < b] *)
Definition not_cont (b : Z) : bool := (b <? locb) || (hicb <? b).

Definition FullRune (p : list Z) : res bool :=
  let n := len p in
  if n =? 0 then Ok false else
  let! p0 := idx p 0 in
  let! x := idx first p0 in
  if n >=? Z.land x 7 then Ok true else
  let! accept := idx acceptRanges (Z.shiftr x 4) in
  let! c1 := if n >? 1 then (let! b := idx p 1 in Ok (outside accept b)) else Ok false in
  if c1 then Ok true else
  let! c2 := if n >? 2 then (let! b := idx p 2 in Ok (not_cont b)) else Ok false in
  if c2 then Ok true else Ok false.

Definition FullRuneInString (s : list Z) : res bool :=
  let n := len s in
  if n =? 0 then Ok false else
  let! c0 := idx s 0 in
  let! x := idx first c0 in
  if n >=? Z.land x 7 then Ok true else
  let! accept := idx acceptRanges (Z.shiftr x 4) in
  let! c1 := if n >? 1 then (let! b := idx s 1 in Ok (outside accept b)) else Ok false in
  if c1 then Ok true else
  let! c2 := if n >? 2 then (let! b := idx s 2 in Ok (not_cont b)) else Ok false in
  if c2 then Ok true else Ok false.

Definition decodeRuneSlow (p : list Z) : res (Z * Z) :=
  let n := len p in
  if n <? 1 then Ok (RuneError, 0) else
  let! p0 := idx p 0 in
  let! x := idx first p0 in
  if x >=? as_ then
    let mask := Z.shiftr (i32 (Z.shiftl x 31)) 31 in
    let! q0 := idx p 0 in
    Ok (Z.lor (Z.land q0 (Z.lnot mask)) (Z.land RuneError mask), 1)
  else
  let sz := Z.land x 7 in
  let! accept := idx acceptRanges (Z.shiftr x 4) in
  if n <? sz then Ok (RuneError, 1) else
  let! b1 := idx p 1 in
  if outside accept b1 then Ok (RuneError, 1) else
  if sz <=? 2 then
    Ok (Z.lor (Z.shiftl (Z.land p0 mask2) 6) (Z.land b1 maskx), 2)
  else
  let! b2 := idx p 2 in
  if not_cont b2 then Ok (RuneError, 1) else
  if sz <=? 3 then
    Ok (Z.lor (Z.lor (Z.shiftl (Z.land p0 mask3) 12) (Z.shiftl (Z.land b1 maskx) 6))
          (Z.land b2 maskx), 3)
  else
  let! b3 := idx p 3 in
  if not_cont b3 then Ok (RuneError, 1) else
  Ok (Z.lor (Z.lor (Z.lor (Z.shiftl (Z.land p0 mask4) 18) (Z.shiftl (Z.land b1 maskx) 12))
          (Z.shiftl (Z.land b2 maskx) 6)) (Z.land b3 maskx), 4).

(** The loop of the fast path looks at the first byte only. *)
Definition DecodeRune (p : list Z) : res (Z * Z) :=
  match p with
  | b :: _ => if b <? RuneSelf then Ok (b, 1) else decodeRuneSlow p
  | [] => decodeRuneSlow p
  end.

Definition decodeRuneInStringSlow (s : list Z) : res (Z * Z) :=
  let n := len s in
  if n <? 1 then Ok (RuneError, 0) else
  let! c0 := idx s 0 in
  let! x := idx first c0 in
  if x >=? as_ then
    let mask := Z.shiftr (i32 (Z.shiftl x 31)) 31 in
    let! q0 := idx s 0 in
    Ok (Z.lor (Z.land q0 (Z.lnot mask)) (Z.land RuneError mask), 1)
  else
  let sz := Z.land x 7 in
  let! accept := idx acceptRanges (Z.shiftr x 4) in
  if n <? sz then Ok (RuneError, 1) else
  let! c1 := idx s 1 in
  if outside accept c1 then Ok (RuneError, 1) else
  if sz <=? 2 then
    Ok (Z.lor (Z.shiftl (Z.land c0 mask2) 6) (Z.land c1 maskx), 2)
  else
  let! c2 := idx s 2 in
  if not_cont c2 then Ok (RuneError, 1) else
  if sz <=? 3 then
    Ok (Z.lor (Z.lor (Z.shiftl (Z.land c0 mask3) 12) (Z.shiftl (Z.land c1 maskx) 6))
          (Z.land c2 maskx), 3)
  else
  let! c3 := idx s 3 in
  if not_cont c3 then Ok (RuneError, 1) else
  Ok (Z.lor (Z.lor (Z.lor (Z.shiftl (Z.land c0 mask4) 18) (Z.shiftl (Z.land c1 maskx) 12))
          (Z.shiftl (Z.land c2 maskx) 6)) (Z.land c3 maskx), 4).

Definition DecodeRuneInString (s : list Z) : res (Z * Z) :=
  let! ascii := if len s =? 0 then Ok false
                else (let! c := idx s 0 in Ok (c <? RuneSelf)) in
  if ascii then (let! c := idx s 0 in Ok (c, 1)) else decodeRuneInStringSlow s.

Definition RuneStart (b : Z) : bool := negb (Z.land b 0xC0 =? 0x80).

(** The loop [for start--; start >= lim; start--] from [end - 2]. *)
Definition scanBack (p : list Z) (start lim : Z) : res Z :=
  loop (S (Z.to_nat (start - lim + 1)))
    (fun start =>
       if start >=? lim then
         let! b := idx p start in
         if RuneStart b then Ok (inr start) else Ok (inl (start - 1))
       else Ok (inr start)) start.

Definition DecodeLastRune (p : list Z) : res (Z * Z) :=
  let end_ := len p in
  if end_ =? 0 then Ok (RuneError, 0) else
  let start := end_ - 1 in
  let! r := idx p start in
  if r <? RuneSelf then Ok (r, 1) else
  let lim := Z.max (end_ - UTFMax) 0 in
  let! start := scanBack p (start - 1) lim in
  let start := if start <? 0 then 0 else start in
  let! q := slice p start end_ in
  let! '(r, size) := DecodeRune q in
  if negb (start + size =? end_) then Ok (RuneError, 1) else Ok (r, size).

Definition DecodeLastRuneInString (s : list Z) : res (Z * Z) :=
  let end_ := len s in
  if end_ =? 0 then Ok (RuneError, 0) else
  let start := end_ - 1 in
  let! r := idx s start in
  if r <? RuneSelf then Ok (r, 1) else
  let lim := Z.max (end_ - UTFMax) 0 in
  let! start := scanBack s (start - 1) lim in
  let start := if start <? 0 then 0 else start in
  let! q := slice s start end_ in
  let! '(r, size) := DecodeRuneInString q in
  if negb (start + size =? end_) then Ok (RuneError, 1) else Ok (r, size).

(** ** Encoding *)

Definition RuneLen (r : Z) : Z :=
  if r <? 0 then -1
  else if r <=? rune1Max then 1
  else if r <=? rune2Max then 2
  else if (surrogateMin <=? r) && (r <=? surrogateMax) then -1
  else if r <=? rune3Max then 3
  else if r <=? MaxRune then 4
  else -1.

Definition encodeRuneNonASCII (p : list Z) (r : Z) : res (list Z * Z) :=
  let i := u32 r in
  if i <=? rune2Max then
    let! _ := idx p 1 in
    let! p := upd p 0 (Z.lor t2 (u8 (Z.shiftr r 6))) in
    let! p := upd p 1 (Z.lor tx (Z.land (u8 r) maskx)) in
    Ok (p, 2)
  else if (i <? surrogateMin) || ((surrogateMax <? i) && (i <=? rune3Max)) then
    let! _ := idx p 2 in
    let! p := upd p 0 (Z.lor t3 (u8 (Z.shiftr r 12))) in
    let! p := upd p 1 (Z.lor tx (Z.land (u8 (Z.shiftr r 6)) maskx)) in
    let! p := upd p 2 (Z.lor tx (Z.land (u8 r) maskx)) in
    Ok (p, 3)
  else if (i >? rune3Max) && (i <=? MaxRune) then
    let! _ := idx p 3 in
    let! p := upd p 0 (Z.lor t4 (u8 (Z.shiftr r 18))) in
    let! p := upd p 1 (Z.lor tx (Z.land (u8 (Z.shiftr r 12)) maskx)) in
    let! p := upd p 2 (Z.lor tx (Z.land (u8 (Z.shiftr r 6)) maskx)) in
    let! p := upd p 3 (Z.lor tx (Z.land (u8 r) maskx)) in
    Ok (p, 4)
  else
    let! _ := idx p 2 in
    let! p := upd p 0 runeErrorByte0 in
    let! p := upd p 1 runeErrorByte1 in
    let! p := upd p 2 runeErrorByte2 in
    Ok (p, 3).

Definition EncodeRune (p : list Z) (r : Z) : res (list Z * Z) :=
  if u32 r <=? rune1Max then
    let! p := upd p 0 (u8 r) in Ok (p, 1)
  else encodeRuneNonASCII p r.

Definition appendRuneNonASCII (p : list Z) (r : Z) : list Z :=
  let i := u32 r in
  if i <=? rune2Max then
    p ++ [Z.lor t2 (u8 (Z.shiftr r 6)); Z.lor tx (Z.land (u8 r) maskx)]
  else if (i <? surrogateMin) || ((surrogateMax <? i) && (i <=? rune3Max)) then
    p ++ [Z.lor t3 (u8 (Z.shiftr r 12)); Z.lor tx (Z.land (u8 (Z.shiftr r 6)) maskx);
          Z.lor tx (Z.land (u8 r) maskx)]
  else if (i >? rune3Max) && (i <=? MaxRune) then
    p ++ [Z.lor t4 (u8 (Z.shiftr r 18)); Z.lor tx (Z.land (u8 (Z.shiftr r 12)) maskx);
          Z.lor tx (Z.land (u8 (Z.shiftr r 6)) maskx); Z.lor tx (Z.land (u8 r) maskx)]
  else
    p ++ [runeErrorByte0; runeErrorByte1; runeErrorByte2].

Definition AppendRune (p : list Z) (r : Z) : list Z :=
  if u32 r <=? rune1Max then p ++ [u8 r] else appendRuneNonASCII p r.

(** ** Counting and validation *)

(** [for range s] decodes [s] rune by rune; an ill-formed sequence advances by
    one byte. *)
Definition RuneCountInString (s : list Z) : res Z :=
  loop (S (length s))
    (fun '(s, n) =>
       if len s =? 0 then Ok (inr n)
       else
         let! '(_, size) := DecodeRuneInString s in
         let! s' := slice_from s size in
         Ok (inl (s', n + 1)))
    (s, 0).

Definition RuneCount (p : list Z) : res Z :=
  let np := len p in
  loop (S (length p))
    (fun n =>
       if n <? np then
         let! c := idx p n in
         if c >=? RuneSelf then
           let! q := slice_from p n in
           let! m := RuneCountInString q in
           Ok (inr (n + m))
         else Ok (inl (n + 1))
       else Ok (inr n)) 0.

Section Fast.
Context (ptrSize : Z).

Definition hiBits : Z := Z.shiftr 0x8080808080808080 (64 - 8 * ptrSize).

Definition word (s : list Z) : res Z :=
  if ptrSize =? 4 then
    let! b0 := idx s 0 in let! b1 := idx s 1 in
    let! b2 := idx s 2 in let! b3 := idx s 3 in
    Ok (Z.lor (Z.lor (Z.lor b0 (Z.shiftl b1 8)) (Z.shiftl b2 16)) (Z.shiftl b3 24))
  else
    let! b0 := idx s 0 in let! b1 := idx s 1 in
    let! b2 := idx s 2 in let! b3 := idx s 3 in
    let! b4 := idx s 4 in let! b5 := idx s 5 in
    let! b6 := idx s 6 in let! b7 := idx s 7 in
    Ok (Z.lor (Z.lor (Z.lor (Z.lor (Z.lor (Z.lor (Z.lor b0 (Z.shiftl b1 8))
         (Z.shiftl b2 16)) (Z.shiftl b3 24)) (Z.shiftl b4 32)) (Z.shiftl b5 40))
         (Z.shiftl b6 48)) (Z.shiftl b7 56)).

(** [word(p[k*ptrSize:])] *)
Definition word_at (p : list Z) (k : Z) : res Z :=
  let! q := slice_from p (k * ptrSize) in word q.

(** The three nested skips over ASCII-only words. *)
Definition skipASCII (p : list Z) : res (list Z) :=
  if negb (len p >? ptrSize) then Ok p else
  let! w := word p in
  if negb (Z.land w hiBits =? 0) then Ok p else
  let! p := slice_from p ptrSize in
  if negb (len p >? 2 * ptrSize) then Ok p else
  let! w0 := word p in
  let! w1 := word_at p 1 in
  if negb (Z.land (Z.lor w0 w1) hiBits =? 0) then Ok p else
  let! p := slice_from p (2 * ptrSize) in
  loop (S (length p))
    (fun p =>
       if negb (len p >? 4 * ptrSize) then Ok (inr p) else
       let! w0 := word p in
       let! w1 := word_at p 1 in
       let! w2 := word_at p 2 in
       let! w3 := word_at p 3 in
       if negb (Z.land (Z.lor (Z.lor w0 w1) (Z.lor w2 w3)) hiBits =? 0)
       then Ok (inr p)
       else
         let! p' := slice_from p (4 * ptrSize) in Ok (inl p')) p.

(** [len(p) < k || p[1] outside accept || p[2], ... not continuation bytes];
    the conjuncts are evaluated from left to right. *)
Definition badTail (p : list Z) (k : Z) (accept : acceptRange) : res bool :=
  if len p <? k then Ok true else
  let! b1 := idx p 1 in
  if outside accept b1 then Ok true else
  if k =? 2 then Ok false else
  let! b2 := idx p 2 in
  if not_cont b2 then Ok true else
  if k =? 3 then Ok false else
  let! b3 := idx p 3 in
  Ok (not_cont b3).

Definition Valid (p : list Z) : res bool :=
  loop (S (length p))
    (fun p =>
       if negb (len p >? 0) then Ok (inr true) else
       let! p0 := idx p 0 in
       if p0 <? RuneSelf then
         let! p := slice_from p 1 in
         let! p := skipASCII p in
         Ok (inl p)
       else
         let! x := idx first p0 in
         let size := Z.land x 7 in
         let! accept := idx acceptRanges (Z.shiftr x 4) in
         if (size =? 2) || (size =? 3) || (size =? 4) then
           let! bad := badTail p size accept in
           if bad then Ok (inr false) else
           let! p := slice_from p size in Ok (inl p)
         else Ok (inr false)) p.

Definition ValidString (s : list Z) : res bool :=
  loop (S (length s))
    (fun s =>
       if negb (len s >? 0) then Ok (inr true) else
       let! c0 := idx s 0 in
       if c0 <? RuneSelf then
         let! s := slice_from s 1 in
         let! s := skipASCII s in
         Ok (inl s)
       else
         let! x := idx first c0 in
         let size := Z.land x 7 in
         let! accept := idx acceptRanges (Z.shiftr x 4) in
         if (size =? 2) || (size =? 3) || (size =? 4) then
           let! bad := badTail s size accept in
           if bad then Ok (inr false) else
           let! s := slice_from s size in Ok (inl s)
         else Ok (inr false)) s.
End Fast.

Definition ValidRune (r : Z) : bool :=
  if (0 <=? r) && (r <? surrogateMin) then true
  else if (surrogateMax <? r) && (r <=? MaxRune) then true
  else false.

(** ** Reference definitions *)

(** The Unicode scalar values: the code points UTF-8 encodes. *)
Definition scalar (r : Z) : Prop := 0 <= r < 0xD800 \/ 0xDFFF < r <= 0x10FFFF.

Definition utf8_encode (r : Z) : list Z :=
  if r <? 0x80 then [r]
  else if r <? 0x800 then [0xC0 + r / 64; 0x80 + r mod 64]
  else if r <? 0x10000 then [0xE0 + r / 4096; 0x80 + r / 64 mod 64; 0x80 + r mod 64]
  else [0xF0 + r / 262144; 0x80 + r / 4096 mod 64; 0x80 + r / 64 mod 64; 0x80 + r mod 64].

Definition utf8_string (rs : list Z) : list Z := concat (map utf8_encode rs).

Definition between (a b x : Z) : bool := (a <=? x) && (x <=? b).

(** The decoder as a table of the well-formed byte sequences (Unicode table
    3-7); every other sequence is an error of width 1. *)
Definition decode_ref (p : list Z) : Z * Z :=
  let bad := (RuneError, 1) in
  match p with
  | [] => (RuneError, 0)
  | b0 :: t =>
      if b0 <? 0x80 then (b0, 1)
      else if between 0xC2 0xDF b0 then
        match t with
        | b1 :: _ =>
            if between 0x80 0xBF b1 then ((b0 - 0xC0) * 64 + (b1 - 0x80), 2) else bad
        | _ => bad
        end
      else if between 0xE0 0xEF b0 then
        match t with
        | b1 :: b2 :: _ =>
            if between (if b0 =? 0xE0 then 0xA0 else 0x80)
                 (if b0 =? 0xED then 0x9F else 0xBF) b1 && between 0x80 0xBF b2
            then ((b0 - 0xE0) * 4096 + (b1 - 0x80) * 64 + (b2 - 0x80), 3) else bad
        | _ => bad
        end
      else if between 0xF0 0xF4 b0 then
        match t with
        | b1 :: b2 :: b3 :: _ =>
            if between (if b0 =? 0xF0 then 0x90 else 0x80)
                 (if b0 =? 0xF4 then 0x8F else 0xBF) b1
               && between 0x80 0xBF b2 && between 0x80 0xBF b3
            then ((b0 - 0xF0) * 262144 + (b1 - 0x80) * 4096 + (b2 - 0x80) * 64
                  + (b3 - 0x80), 4) else bad
        | _ => bad
        end
      else bad
  end.

Definition first_class (b : Z) : Z :=
  if b <? 0x80 then as_ else if b <? 0xC2 then xx else if b <? 0xE0 then s1
  else if b =? 0xE0 then s2 else if b =? 0xED then s4 else if b <? 0xF0 then s3
  else if b =? 0xF0 then s5 else if b <? 0xF4 then s6 else if b =? 0xF4 then s7 else xx.

(** ** Decoding agrees with the table *)

Lemma first_idx b : byte_ok b -> idx first b = Ok (first_class b).
Proof.
  intros Hb.
  assert (H : forallb (fun b => match idx first b with
                                | Ok x => x =? first_class b
                                | _ => false end) (zrange 0 256) = true)
    by (vm_compute; reflexivity).
  pose proof (zrange_forallb _ _ _ H b) as Hx. cbv beta in Hx.
  unfold byte_ok in Hb. specialize (Hx ltac:(lia)).
  destruct (idx first b); [|discriminate..]. by apply Z.eqb_eq in Hx as ->.
Qed.

(** The six-bit payload of a continuation byte, and the payloads of the
    leading bytes. *)
Lemma cont_payload b : 0x80 <= b <= 0xBF -> Z.land b maskx = b - 0x80.
Proof. intros. rewrite (land_ones' _ 6) by done. zdm. Qed.
Lemma lead2_payload b : 0xC0 <= b <= 0xDF -> Z.land b mask2 = b - 0xC0.
Proof. intros. rewrite (land_ones' _ 5) by done. zdm. Qed.
Lemma lead3_payload b : 0xE0 <= b <= 0xEF -> Z.land b mask3 = b - 0xE0.
Proof. intros. rewrite (land_ones' _ 4) by done. zdm. Qed.
Lemma lead4_payload b : 0xF0 <= b <= 0xF7 -> Z.land b mask4 = b - 0xF0.
Proof. intros. rewrite (land_ones' _ 3) by done. zdm. Qed.

Lemma pack2 x y : 0 <= y < 64 -> Z.lor (Z.shiftl x 6) y = x * 64 + y.
Proof. intros. rewrite shiftl_mul by lia. by rewrite (lor_disjoint_mul x y 6) by lia. Qed.

Lemma pack3 x y z :
  0 <= y < 64 -> 0 <= z < 64 ->
  Z.lor (Z.lor (Z.shiftl x 12) (Z.shiftl y 6)) z = x * 4096 + y * 64 + z.
Proof.
  intros. change 12 with (6 + 6).
  rewrite <- Z.shiftl_shiftl, <- Z.shiftl_lor, !pack2 by lia. lia.
Qed.

Lemma pack4 w x y z :
  0 <= x < 64 -> 0 <= y < 64 -> 0 <= z < 64 ->
  Z.lor (Z.lor (Z.lor (Z.shiftl w 18) (Z.shiftl x 12)) (Z.shiftl y 6)) z
  = w * 262144 + x * 4096 + y * 64 + z.
Proof.
  intros. change 18 with (12 + 6). change 12 with (6 + 6) at 2.
  rewrite <- !Z.shiftl_shiftl, <- !Z.shiftl_lor by lia.
  rewrite pack2 by lia. change (6 + 6) with 12. rewrite pack3 by lia. lia.
Qed.

Ltac payload :=
  rewrite ?lead2_payload, ?lead3_payload, ?lead4_payload, ?cont_payload by lia;
  rewrite ?pack4, ?pack3, ?pack2 by lia.

(** One step through the boolean tests of the decoder. *)
Ltac range_case :=
  unfold between, outside, not_cont, locb, hicb in *; simpl lo; simpl hi;
  repeat (zcase; simpl; try lia; try done).

Ltac short_list :=
  repeat match goal with
    | |- context [idx (?a :: ?l) 0] => change (idx (a :: l) 0) with (Ok a)
    | |- context [idx (?a :: ?b :: ?l) 1] => change (idx (a :: b :: l) 1) with (Ok b)
    | |- context [idx (?a :: ?b :: ?c :: ?l) 2] =>
        change (idx (a :: b :: c :: l) 2) with (Ok c)
    | |- context [idx (?a :: ?b :: ?c :: ?d :: ?l) 3] =>
        change (idx (a :: b :: c :: d :: l) 3) with (Ok d)
    end; cbn [rbind].

(** The leading bytes by the shape of the sequence they start. *)
Inductive lead_view (b : Z) : Z -> Prop :=
| lead_ascii : 0 <= b < 0x80 -> lead_view b as_
| lead_bad : 0x80 <= b < 0xC2 \/ 0xF4 < b < 256 -> lead_view b xx
| lead_2 : 0xC2 <= b <= 0xDF -> lead_view b s1
| lead_3E0 : b = 0xE0 -> lead_view b s2
| lead_3 : 0xE1 <= b <= 0xEC \/ 0xEE <= b <= 0xEF -> lead_view b s3
| lead_3ED : b = 0xED -> lead_view b s4
| lead_4F0 : b = 0xF0 -> lead_view b s5
| lead_4 : 0xF1 <= b <= 0xF3 -> lead_view b s6
| lead_4F4 : b = 0xF4 -> lead_view b s7.

Lemma lead_viewP b : byte_ok b -> lead_view b (first_class b).
Proof.
  unfold byte_ok, first_class. intros Hb.
  repeat zcase;
    first [ apply lead_ascii; lia | apply lead_bad; lia | apply lead_2; lia
          | apply lead_3E0; lia | apply lead_3; lia | apply lead_3ED; lia
          | apply lead_4F0; lia | apply lead_4; lia | apply lead_4F4; lia | lia ].
Qed.

Lemma between_true a b x : between a b x = true -> a <= x <= b.
Proof. unfold between. rewrite andb_true_iff, !Z.leb_le. lia. Qed.

Lemma between_intro a b x : a <= x <= b -> between a b x = true.
Proof. unfold between. rewrite andb_true_iff, !Z.leb_le. lia. Qed.

Lemma between_false a b x : x < a \/ b < x -> between a b x = false.
Proof. unfold between. rewrite andb_false_iff, !Z.leb_gt. lia. Qed.

Lemma outside_between r b : outside r b = negb (between (lo r) (hi r) b).
Proof. unfold outside, between. by rewrite negb_andb, !Z.leb_antisym, !negb_involutive. Qed.

Lemma not_cont_between b : not_cont b = negb (between 0x80 0xBF b).
Proof. unfold not_cont, between. by rewrite negb_andb, !Z.leb_antisym, !negb_involutive. Qed.

(** Evaluates the table look-ups of a known class of leading byte. *)
Ltac eval_class :=
  repeat match goal with
    | |- context [?c >=? as_] =>
        let v := eval vm_compute in (c >=? as_) in change (c >=? as_) with v
    | |- context [Z.land ?c 7] =>
        let v := eval vm_compute in (Z.land c 7) in change (Z.land c 7) with v
    | |- context [idx acceptRanges ?i] =>
        let v := eval vm_compute in (idx acceptRanges i) in
        change (idx acceptRanges i) with v
    end;
  cbv beta iota zeta; cbn [rbind];
  repeat match goal with
    | |- context [?a <=? ?b] =>
        match b with 2 => idtac | 3 => idtac end;
        let v := eval vm_compute in (a <=? b) in change (a <=? b) with v; cbv iota
    end.

(** Decides the range tests on a leading byte of known range. *)
Ltac lead_ranges b :=
  repeat match goal with
    | |- context [between ?x ?y b] =>
        first [ rewrite (between_intro x y b) by lia | rewrite (between_false x y b) by lia ]
    | |- context [b =? ?x] =>
        first [ rewrite (proj2 (Z.eqb_eq b x)) by lia | rewrite (proj2 (Z.eqb_neq b x)) by lia ]
    end; cbv iota.

(** Decides a test on the length of an explicit prefix. *)
Ltac len_tests :=
  repeat match goal with
    | |- context [len (?a :: ?l) <? ?k] =>
        first [ rewrite (proj2 (Z.ltb_lt (len (a :: l)) k))
                  by (rewrite ?len_cons, ?len_nil; lia)
              | rewrite (proj2 (Z.ltb_ge (len (a :: l)) k))
                  by (rewrite ?len_cons;
                      match goal with
                      | |- context [len ?t] => pose proof (len_nonneg t); lia
                      | _ => lia
                      end) ]
    end; cbv iota.

(** Splits on the remaining range tests. *)
Ltac split_between :=
  repeat match goal with
    | |- context [between ?x ?y ?b] =>
        let E := fresh "E" in
        destruct (between x y b) eqn:E; cbn [negb andb]; cbv iota; [|reflexivity];
        apply between_true in E
    end.

Ltac decode_tail :=
  eval_class;
  match goal with
  | |- context [len (?b0 :: ?t)] => lead_ranges b0;
      destruct t as [|?b1 [|?b2 [|?b3 t]]]; len_tests; try reflexivity;
      short_list; rewrite ?outside_between, ?not_cont_between; cbn [lo hi];
      split_between
  end;
  payload; try reflexivity.

Lemma DecodeRune_ref p : bytes_ok p -> DecodeRune p = Ok (decode_ref p).
Proof.
  destruct p as [|b0 t]; [done|]. intros Hp.
  apply Forall_cons_1 in Hp as [Hb Ht]. unfold DecodeRune, decode_ref, RuneSelf.
  destruct (Z.ltb_spec b0 0x80) as [|Hge]; [done|].
  unfold decodeRuneSlow. len_tests.
  short_list. rewrite first_idx by done. cbn [rbind].
  destruct (lead_viewP b0 Hb) as [|H|H|H|H|H|H|H|H]; [lia|..].
  - eval_class. lead_ranges b0. f_equal. f_equal. 
    change (Z.shiftr (i32 (Z.shiftl xx 31)) 31) with (-1). 
    by rewrite Z.land_0_r, Z.land_m1_r.
  - decode_tail.
  - decode_tail.
  - decode_tail.
  - decode_tail.
  - decode_tail.
  - decode_tail.
  - decode_tail.
Qed.

Lemma DecodeRuneInString_eq s : DecodeRuneInString s = DecodeRune s.
Proof.
  destruct s as [|b t]; [done|]. unfold DecodeRuneInString.
  assert (E : (len (b :: t) =? 0) = false).
  { apply Z.eqb_neq. rewrite len_cons. pose proof (len_nonneg t). lia. }
  rewrite E. short_list. unfold DecodeRune. by destruct (b <? RuneSelf).
Qed.

(** ** The encoder agrees with the table *)

Lemma utf8_encode_nonempty r : 1 <= len (utf8_encode r) <= 4.
Proof. unfold utf8_encode. repeat zcase; rewrite ?len_cons, len_nil; lia. Qed.

Lemma utf8_encode_ok r : scalar r -> bytes_ok (utf8_encode r).
Proof.
  unfold scalar, utf8_encode, bytes_ok, byte_ok. intros H.
  repeat zcase; repeat constructor; zdm.
Qed.

Lemma trail_byte x : Z.lor tx (Z.land (u8 x) maskx) = 0x80 + x mod 64.
Proof.
  rewrite (land_ones' _ 6) by done.
  assert (u8 x mod 2 ^ 6 = x mod 64) as -> by (unfold u8; zdm).
  rewrite (lor_disjoint tx _ 6); [done|done|done|zdm].
Qed.

Lemma lead_byte t n x :
  0 <= n -> t mod 2 ^ n = 0 -> 0 <= x < 2 ^ n -> x < 256 -> Z.lor t (u8 x) = t + x.
Proof. intros. rewrite u8_id by lia. by rewrite (lor_disjoint t x n). Qed.

Ltac const_unfold :=
  unfold rune1Max, rune2Max, rune3Max, surrogateMin, surrogateMax, MaxRune in *;
  change (Z.shiftl 1 7 - 1) with 127 in *; change (Z.shiftl 1 11 - 1) with 2047 in *;
  change (Z.shiftl 1 16 - 1) with 65535 in *.

(** What the encoder writes for a rune: its encoding, or that of [RuneError]
    outside the scalar values. *)
Definition encoded (r : Z) : list Z :=
  if ValidRune r then utf8_encode r else utf8_encode RuneError.

Lemma ValidRune_scalar r : ValidRune r = true <-> scalar r.
Proof.
  unfold ValidRune, scalar. const_unfold.
  repeat zcase; simpl; split; intros; (done || lia).
Qed.

Lemma u32_rune r : - 2 ^ 31 <= r < 2 ^ 31 ->
  u32 r = (if 0 <=? r then r else r + 2 ^ 32).
Proof. intros. unfold u32. zcase; zdm. Qed.

Lemma appendRuneNonASCII_spec p r :
  - 2 ^ 31 <= r < 2 ^ 31 -> (r < 0 \/ 127 < r) ->
  appendRuneNonASCII p r = p ++ encoded r.
Proof.
  intros Hr H. unfold appendRuneNonASCII, encoded, ValidRune, utf8_encode, RuneError.
  rewrite u32_rune by done. const_unfold.
  destruct (Z.leb_spec 0 r); repeat (zcase; cbn [andb orb]; try lia);
    rewrite ?trail_byte, ?shiftr_div by lia; try reflexivity;
    first [ rewrite (lead_byte t2 6) by (reflexivity || zdm); reflexivity
          | rewrite (lead_byte t3 4) by (reflexivity || zdm); reflexivity
          | rewrite (lead_byte t4 3) by (reflexivity || zdm); reflexivity ].
Qed.

Lemma AppendRune_spec p r :
  - 2 ^ 31 <= r < 2 ^ 31 -> AppendRune p r = p ++ encoded r.
Proof.
  intros Hr. unfold AppendRune. rewrite u32_rune by done.
  destruct (Z.leb_spec 0 r); [|rewrite (proj2 (Z.leb_gt _ _))
    by (const_unfold; lia); apply appendRuneNonASCII_spec; lia].
  const_unfold. destruct (Z.leb_spec r 127).
  - rewrite u8_id by lia. unfold encoded.
    rewrite (proj2 (ValidRune_scalar r)) by (unfold scalar; lia).
    unfold utf8_encode. by rewrite (proj2 (Z.ltb_lt r 128)) by lia.
  - apply appendRuneNonASCII_spec; lia.
Qed.

(** ** Decoding and encoding are inverse *)

Lemma decode_ref_encode r rest :
  scalar r -> decode_ref (utf8_encode r ++ rest) = (r, len (utf8_encode r)).
Proof.
  unfold scalar, utf8_encode. intros H.
  destruct (Z.ltb_spec r 0x80); [|destruct (Z.ltb_spec r 0x800);
    [|destruct (Z.ltb_spec r 0x10000)]]; cbn [app decode_ref]; rewrite ?len_cons, len_nil.
  - by rewrite (proj2 (Z.ltb_lt r 0x80)) by lia.
  - rewrite (proj2 (Z.ltb_ge _ 0x80)) by zdm.
    rewrite !between_intro by zdm. f_equal; zdm.
  - rewrite (proj2 (Z.ltb_ge _ 0x80)), (between_false 0xC2), (between_intro 0xE0) by zdm.
    rewrite !between_intro by (repeat zcase; zdm). cbn [andb]. f_equal; zdm.
  - rewrite (proj2 (Z.ltb_ge _ 0x80)), (between_false 0xC2), (between_false 0xE0),
      (between_intro 0xF0) by zdm.
    rewrite !between_intro by (repeat zcase; zdm). cbn [andb]. f_equal; zdm.
Qed.

(** The prefix [p] starts with a well-formed sequence for [r] of width [n]. *)
Definition starts_with_rune (p : list Z) (r n : Z) : Prop :=
  scalar r /\ n = len (utf8_encode r) /\ exists rest, p = utf8_encode r ++ rest.

Lemma encode_2 b0 b1 :
  0xC2 <= b0 <= 0xDF -> 0x80 <= b1 <= 0xBF ->
  utf8_encode ((b0 - 0xC0) * 64 + (b1 - 0x80)) = [b0; b1].
Proof.
  intros. unfold utf8_encode. zcases. f_equal; [zdm|]. f_equal. zdm.
Qed.

Lemma encode_3 b0 b1 b2 :
  0xE0 <= b0 <= 0xEF -> 0x80 <= b1 <= 0xBF -> (b0 = 0xE0 -> 0xA0 <= b1) ->
  0x80 <= b2 <= 0xBF ->
  utf8_encode ((b0 - 0xE0) * 4096 + (b1 - 0x80) * 64 + (b2 - 0x80)) = [b0; b1; b2].
Proof.
  intros H0 H1 H1' H2. unfold utf8_encode. zcases;
    (f_equal; [zdm|]; f_equal; [zdm|]; f_equal; zdm).
Qed.

Lemma encode_4 b0 b1 b2 b3 :
  0xF0 <= b0 <= 0xF4 -> 0x80 <= b1 <= 0xBF -> (b0 = 0xF0 -> 0x90 <= b1) ->
  0x80 <= b2 <= 0xBF -> 0x80 <= b3 <= 0xBF ->
  utf8_encode ((b0 - 0xF0) * 262144 + (b1 - 0x80) * 4096 + (b2 - 0x80) * 64 + (b3 - 0x80))
  = [b0; b1; b2; b3].
Proof.
  intros H0 H1 H1' H2 H3. unfold utf8_encode. zcases;
    (f_equal; [zdm|]; f_equal; [zdm|]; f_equal; [zdm|]; f_equal; zdm).
Qed.

Lemma decode_ref_sound p :
  bytes_ok p -> p <> [] ->
  starts_with_rune p (fst (decode_ref p)) (snd (decode_ref p)) \/
  decode_ref p = (RuneError, 1).
Proof.
  intros Hp Hne. destruct p as [|b0 t]; [done|]. clear Hne.
  apply Forall_cons_1 in Hp as [Hb _]. unfold byte_ok in Hb. cbn [decode_ref].
  destruct (Z.ltb_spec b0 0x80).
  { left. assert (E : utf8_encode b0 = [b0]).
    { unfold utf8_encode. by rewrite (proj2 (Z.ltb_lt _ _)) by lia. }
    split; [left; simpl; lia|]. cbn [fst snd]. rewrite E. split; [done|]. by exists t. }
  destruct (between 0xC2 0xDF b0) eqn:R2; [|destruct (between 0xE0 0xEF b0) eqn:R3;
    [|destruct (between 0xF0 0xF4 b0) eqn:R4; [|by right]]].
  - destruct t as [|b1 t]; [by right|].
    destruct (between 0x80 0xBF b1) eqn:E1; [left|by right].
    apply between_true in R2, E1. unfold starts_with_rune. cbn [fst snd].
    rewrite encode_2 by lia. split; [unfold scalar; lia|]. split; [done|]. by exists t.
  - destruct t as [|b1 [|b2 t]]; [by right..|].
    destruct (between _ _ b1 && between _ _ b2) eqn:E; [left|by right].
    apply andb_true_iff in E as [E1 E2]. apply between_true in R3, E1, E2.
    revert E1. destruct (Z.eqb_spec b0 0xE0), (Z.eqb_spec b0 0xED); intros E1;
      unfold starts_with_rune; cbn [fst snd]; rewrite encode_3 by lia;
      (split; [unfold scalar; lia|split; [done|by exists t]]).
  - destruct t as [|b1 [|b2 [|b3 t]]]; [by right..|].
    destruct (_ && between _ _ b3) eqn:E; [left|by right].
    apply andb_true_iff in E as [E E3]. apply andb_true_iff in E as [E1 E2].
    apply between_true in R4, E1, E2, E3.
    revert E1. destruct (Z.eqb_spec b0 0xF0), (Z.eqb_spec b0 0xF4); intros E1;
      unfold starts_with_rune; cbn [fst snd]; rewrite encode_4 by lia;
      (split; [unfold scalar; lia|split; [done|by exists t]]).
Qed.

Lemma RuneLen_encode r : scalar r -> RuneLen r = len (utf8_encode r).
Proof.
  unfold scalar, RuneLen, utf8_encode. const_unfold. intros H.
  repeat (zcase; cbn [andb]; try lia); done.
Qed.

Lemma encoded_scalar r : exists r', scalar r' /\ encoded r = utf8_encode r' /\
  r' = (if ValidRune r then r else RuneError).
Proof.
  unfold encoded. destruct (ValidRune r) eqn:E.
  - exists r. by apply ValidRune_scalar in E.
  - exists RuneError. split; [unfold scalar, RuneError; lia|done].
Qed.

(** ** Writing into a buffer *)

Lemma bind_idx_ok {A B} (p : list A) i (m : res B) :
  0 <= i < len p -> (let! _ := idx p i in m) = m.
Proof.
  intros Hi. destruct (returns_inv (idx p i) (fun _ => True)) as (x & -> & _); [|done].
  apply idx_returns; auto.
Qed.

Lemma idx_short {A} (p : list A) i : len p <= i -> idx p i = Panic.
Proof.
  intros Hi. unfold idx. destruct (0 <=? i) eqn:E; [|done].
  apply Z.leb_le in E. by rewrite lookup_ge_None_2 by (unfold len in *; lia).
Qed.

Ltac store :=
  rewrite bind_idx_ok by len_lia;
  repeat (rewrite upd_Ok by len_lia; cbn [rbind]).

Lemma EncodeRune_append p r :
  - 2 ^ 31 <= r < 2 ^ 31 ->
  EncodeRune p r =
    let q := AppendRune [] r in
    if len q <=? len p then Ok (q ++ drop (length q) p, len q) else Panic.
Proof.
  intros Hr. unfold EncodeRune, AppendRune. destruct (u32 r <=? rune1Max).
  { destruct p as [|x p]; [done|].
    rewrite upd_Ok by (rewrite len_cons; pose proof (len_nonneg p); lia).
    cbn. rewrite (proj2 (Z.leb_le _ _)); [done|].
    rewrite !len_cons, len_nil. pose proof (len_nonneg p). lia. }
  unfold encodeRuneNonASCII, appendRuneNonASCII. cbn [app].
  cbv zeta; set (c2 := _ <=? rune2Max); set (c3 := _ || _); set (c4 := _ && _);
    destruct c2, c3, c4; cbn zeta;
    zcase; try (rewrite idx_short by len_lia; reflexivity).
  all: destruct p as [|x0 [|x1 [|x2 [|x3 p]]]]; try (exfalso; len_lia).
  all: store; reflexivity.
Qed.

(** ** Validity *)

Definition wf (p : list Z) : Prop := exists rs, Forall scalar rs /\ p = utf8_string rs.

Lemma wf_nil : wf [].
Proof. by exists []. Qed.

Lemma wf_cons r rest : scalar r -> (wf (utf8_encode r ++ rest) <-> wf rest).
Proof.
  intros Hr. split.
  - intros ([|r' rs] & Hrs & E).
    + destruct (utf8_encode r) eqn:Er; [|done].
      pose proof (utf8_encode_nonempty r). rewrite Er, len_nil in *. lia.
    + apply Forall_cons_1 in Hrs as [Hr' Hrs]. exists rs. split; [done|].
      unfold utf8_string in E. cbn [map concat] in E.
      pose proof (decode_ref_encode r rest Hr) as D1. rewrite E in D1.
      rewrite decode_ref_encode in D1 by done. injection D1 as ->.
      by apply app_inv_head in E.
  - intros (rs & Hrs & ->). exists (r :: rs). split; [by constructor|done].
Qed.

Lemma wf_starts p : wf p -> p <> [] ->
  decode_ref p <> (RuneError, 1) /\
  starts_with_rune p (fst (decode_ref p)) (snd (decode_ref p)).
Proof.
  intros ([|r rs] & Hrs & ->) Hne; [done|].
  apply Forall_cons_1 in Hrs as [Hr Hrs]. unfold utf8_string. cbn [map concat].
  rewrite decode_ref_encode by done. split.
  - intros [= -> E]. discriminate E.
  - split; [done|]. split; [done|]. eauto.
Qed.

Lemma wf_ascii a rest : Forall (fun b => 0 <= b < 128) a -> (wf (a ++ rest) <-> wf rest).
Proof.
  induction 1 as [|b a Hb Ha IH]; [done|]. rewrite <- IH.
  replace ((b :: a) ++ rest) with (utf8_encode b ++ (a ++ rest)).
  - apply wf_cons. unfold scalar. lia.
  - unfold utf8_encode. by rewrite (proj2 (Z.ltb_lt b 128)) by lia.
Qed.

Lemma wf_bad p : decode_ref p = (RuneError, 1) -> p <> [] -> ~ wf p.
Proof. intros E Hne Hwf. by apply wf_starts in Hwf as [? _]. Qed.

Lemma byte_hi_clear b : byte_ok b -> Z.testbit b 7 = false -> 0 <= b < 128.
Proof.
  unfold byte_ok. intros Hb Ht. rewrite Z.testbit_false in Ht by lia. zdm.
Qed.

Lemma land_zero_bit w m k : Z.land w m = 0 -> Z.testbit m k = true -> Z.testbit w k = false.
Proof.
  intros H Hm. pose proof (Z.land_spec w m k) as E. rewrite H, Z.bits_0, Hm in E.
  by rewrite andb_true_r in E.
Qed.

Lemma orb_false_split a b : a || b = false -> a = false /\ b = false.
Proof. apply orb_false_iff. Qed.

Lemma land_lor_zero a b m : Z.land (Z.lor a b) m = 0 -> Z.land a m = 0 /\ Z.land b m = 0.
Proof. rewrite Z.land_lor_distr_l. apply Z.lor_eq_0_iff. Qed.

(** *** The word-at-a-time skip *)

Definition ascii_bytes (a : list Z) : Prop := Forall (fun b => 0 <= b < 128) a.

(** Reads the [i]-th byte's top bit off a word whose top bits are clear. *)
Ltac top_bit H k :=
  let E := fresh "E" in
  pose proof (land_zero_bit _ _ k H eq_refl) as E;
  rewrite !Z.lor_spec, !Z.shiftl_spec in E by lia;
  repeat match goal with
    | E : _ || _ = false |- _ => apply orb_false_split in E as [E ?]
    end;
  match goal with
  | E : Z.testbit ?b ?j = false |- 0 <= ?b < 128 =>
      apply byte_hi_clear; [done|exact E]
  end.

Lemma word_ascii ptrSize p :
  ptrSize = 4 \/ ptrSize = 8 -> bytes_ok p -> ptrSize <= len p ->
  word ptrSize p ⇓ (fun w =>
    Z.land w (hiBits ptrSize) = 0 -> ascii_bytes (take (Z.to_nat ptrSize) p)).
Proof.
  intros Hs Hp Hl.
  destruct p as [|b0 [|b1 [|b2 [|b3 p]]]]; try (exfalso; len_lia).
  unfold bytes_ok in Hp. rewrite !List.Forall_cons_iff in Hp. destruct Hp as (?&?&?&?&Hp).
  destruct Hs as [->| ->].
  - cbn. intros Hw. change (hiBits 4) with 0x80808080 in Hw.
    unfold ascii_bytes. cbn. repeat apply List.Forall_cons; [..|apply List.Forall_nil].
    + top_bit Hw 7.
    + top_bit Hw 15.
    + top_bit Hw 23.
    + top_bit Hw 31.
  - destruct p as [|b4 [|b5 [|b6 [|b7 p]]]]; try (exfalso; len_lia).
    rewrite !List.Forall_cons_iff in Hp. destruct Hp as (?&?&?&?&Hp).
    cbn. intros Hw. change (hiBits 8) with 0x8080808080808080 in Hw.
    unfold ascii_bytes. cbn. repeat apply List.Forall_cons; [..|apply List.Forall_nil].
    + top_bit Hw 7.
    + top_bit Hw 15.
    + top_bit Hw 23.
    + top_bit Hw 31.
    + top_bit Hw 39.
    + top_bit Hw 47.
    + top_bit Hw 55.
    + top_bit Hw 63.
Qed.

(** [p'] is what is left of [p] after some ASCII bytes. *)
Definition skips (p p' : list Z) : Prop := exists a, ascii_bytes a /\ p = a ++ p'.

Lemma skips_refl p : skips p p.
Proof. exists []. split; [constructor|done]. Qed.

Lemma skips_trans p q r : skips p q -> skips q r -> skips p r.
Proof.
  intros (a & Ha & ->) (b & Hb & ->). exists (a ++ b).
  split; [by apply Forall_app|]. by rewrite app_assoc.
Qed.

Lemma skips_bytes p q : skips p q -> bytes_ok p -> bytes_ok q /\ len q <= len p.
Proof.
  intros (a & _ & ->) H. apply Forall_app in H as [_ H]. split; [done|].
  rewrite len_app. pose proof (len_nonneg a). lia.
Qed.

Lemma skips_wf p q : skips p q -> (wf p <-> wf q).
Proof. intros (a & Ha & ->). by apply wf_ascii. Qed.

Lemma skips_drop p n : ascii_bytes (take n p) -> skips p (drop n p).
Proof. intros H. exists (take n p). split; [done|]. by rewrite take_drop. Qed.

(** Looking at the [k] words at the start of [p]: their top bits tell that
    the bytes are ASCII. *)
Section SkipASCII.
Context (ptrSize : Z) (Hsize : ptrSize = 4 \/ ptrSize = 8).

Lemma word_at_ascii p k :
  bytes_ok p -> 0 <= k -> (k + 1) * ptrSize <= len p ->
  word_at ptrSize p k ⇓ (fun w => Z.land w (hiBits ptrSize) = 0 ->
    ascii_bytes (take (Z.to_nat ptrSize) (drop (Z.to_nat (k * ptrSize)) p))).
Proof.
  intros Hp Hk Hl. unfold word_at. rewrite slice_from_Ok by nia. cbn [rbind].
  apply word_ascii; [done| |].
  - by apply Forall_drop.
  - unfold len in *. rewrite length_drop. nia.
Qed.

Lemma ascii_take_extend p i j :
  0 <= i -> 0 <= j -> ascii_bytes (take (Z.to_nat i) p) ->
  ascii_bytes (take (Z.to_nat j) (drop (Z.to_nat i) p)) ->
  ascii_bytes (take (Z.to_nat (i + j)) p).
Proof.
  intros Hi Hj H1 H2. rewrite Z2Nat.inj_add by done.
  rewrite <- (take_drop (Z.to_nat i) p) at 1.
  rewrite take_app, take_take. apply Forall_app. split.
  - by rewrite Nat.min_r by lia.
  - rewrite length_take. destruct (decide (Z.to_nat i <= length p)%nat).
    + rewrite Nat.min_l by lia.
      by replace (Z.to_nat i + Z.to_nat j - Z.to_nat i)%nat with (Z.to_nat j) by lia.
    + rewrite drop_ge by lia. rewrite take_nil. constructor.
Qed.

Lemma skipASCII_loop p :
  bytes_ok p ->
  loop (S (length p))
    (fun p =>
       if negb (len p >? 4 * ptrSize) then Ok (inr p) else
       let! w0 := word ptrSize p in
       let! w1 := word_at ptrSize p 1 in
       let! w2 := word_at ptrSize p 2 in
       let! w3 := word_at ptrSize p 3 in
       if negb (Z.land (Z.lor (Z.lor w0 w1) (Z.lor w2 w3)) (hiBits ptrSize) =? 0)
       then Ok (inr p)
       else
         let! p' := slice_from p (4 * ptrSize) in Ok (inl p')) p
  ⇓ skips p.
Proof using Hsize.
  intros Hp.
  apply (loop_returns (fun q => bytes_ok q /\ skips p q) len);
    [|split; [done|apply skips_refl]|unfold len; lia|apply len_nonneg].
  intros q [Hq Hs]. destruct (Z.gtb_spec (len q) (4 * ptrSize)); cbn [negb]; [|done].
  eapply returns_bind_mono; [apply word_ascii; [done|done|lia]|]. intros w0 H0.
  eapply returns_bind_mono; [apply word_at_ascii; [done|lia|lia]|]. intros w1 H1.
  eapply returns_bind_mono; [apply word_at_ascii; [done|lia|lia]|]. intros w2 H2.
  eapply returns_bind_mono; [apply word_at_ascii; [done|lia|lia]|]. intros w3 H3.
  destruct (Z.eqb_spec (Z.land (Z.lor (Z.lor w0 w1) (Z.lor w2 w3)) (hiBits ptrSize)) 0)
    as [E|]; cbn [negb]; [|done].
  apply land_lor_zero in E as [[E0 E1]%land_lor_zero [E2 E3]%land_lor_zero].
  rewrite slice_from_Ok by lia. cbn.
  assert (Hsk : skips q (drop (Z.to_nat (4 * ptrSize)) q)).
  { apply skips_drop. replace (4 * ptrSize) with (ptrSize + ptrSize + ptrSize + ptrSize) by lia.
    repeat apply ascii_take_extend; try lia; auto.
    - replace ptrSize with (1 * ptrSize) at 2 by lia. auto.
    - replace (ptrSize + ptrSize) with (2 * ptrSize) by lia. auto.
    - replace (ptrSize + ptrSize + ptrSize) with (3 * ptrSize) by lia. auto. }
  destruct (skips_bytes _ _ Hsk Hq) as [Hb _]. split; [split; [done|by eapply skips_trans]|].
  unfold len in *. rewrite length_drop. lia.
Qed.

Lemma skipASCII_skips p : bytes_ok p -> skipASCII ptrSize p ⇓ skips p.
Proof using Hsize.
  intros Hp. unfold skipASCII.
  destruct (Z.gtb_spec (len p) ptrSize); cbn [negb]; [|apply skips_refl].
  eapply returns_bind_mono; [apply word_ascii; [done|done|lia]|]. intros w H0.
  destruct (Z.eqb_spec (Z.land w (hiBits ptrSize)) 0) as [E|]; cbn [negb]; [|apply skips_refl].
  rewrite slice_from_Ok by lia. cbn [rbind].
  assert (S1 : skips p (drop (Z.to_nat ptrSize) p)) by auto using skips_drop.
  destruct (skips_bytes _ _ S1 Hp) as [Hp1 _].
  set (p1 := drop (Z.to_nat ptrSize) p) in *.
  destruct (Z.gtb_spec (len p1) (2 * ptrSize)); cbn [negb]; [|done].
  eapply returns_bind_mono; [apply word_ascii; [done|done|lia]|]. intros w0 Hw0.
  eapply returns_bind_mono; [apply word_at_ascii; [done|lia|lia]|]. intros w1 Hw1.
  destruct (Z.eqb_spec (Z.land (Z.lor w0 w1) (hiBits ptrSize)) 0) as [E1|];
    cbn [negb]; [|done].
  apply land_lor_zero in E1 as [E1 E2]. rewrite slice_from_Ok by lia. cbn [rbind].
  assert (S2 : skips p1 (drop (Z.to_nat (2 * ptrSize)) p1)).
  { apply skips_drop. replace (2 * ptrSize) with (ptrSize + ptrSize) by lia.
    apply ascii_take_extend; try lia; auto.
    replace ptrSize with (1 * ptrSize) at 2 by lia. auto. }
  destruct (skips_bytes _ _ S2 Hp1) as [Hp2 _].
  eapply returns_mono; [by apply skipASCII_loop|]. eauto using skips_trans.
Qed.
End SkipASCII.

(** *** The tail test of [Valid] against the decoding table *)

Lemma badTail_ref b0 t :
  byte_ok b0 -> 0x80 <= b0 -> first_class b0 <> xx ->
  exists accept, idx acceptRanges (Z.shiftr (first_class b0) 4) = Ok accept /\
  badTail (b0 :: t) (Z.land (first_class b0) 7) accept
  = Ok (snd (decode_ref (b0 :: t)) =? 1) /\
  (snd (decode_ref (b0 :: t)) <> 1 ->
   snd (decode_ref (b0 :: t)) = Z.land (first_class b0) 7) /\
  2 <= Z.land (first_class b0) 7 <= 4.
Proof.
  intros Hb Hge Hx. unfold badTail, decode_ref.
  rewrite (proj2 (Z.ltb_ge b0 0x80)) by lia.
  destruct (lead_viewP b0 Hb) as [|H|H|H|H|H|H|H|H]; [lia|done|..];
    (eexists; split; [reflexivity|]); lead_ranges b0; eval_class;
    destruct t as [|b1 [|b2 [|b3 t]]]; len_tests; short_list;
    rewrite ?outside_between, ?not_cont_between; cbn [lo hi Z.eqb Pos.eqb];
    unfold locb, hicb; repeat match goal with
      | |- context [between ?x ?y ?b] => destruct (between x y b)
      end; cbn; repeat split; (done || lia).
Qed.

Lemma utf8_encode_1 r : scalar r -> len (utf8_encode r) = 1 -> utf8_encode r = [r] /\ r < 128.
Proof.
  intros _. unfold utf8_encode. repeat zcase; intros E; try (exfalso; len_lia). done.
Qed.

(** Bytes [0x80] and above whose decoding has width 1 are ill-formed. *)
Lemma width1_bad b0 t :
  byte_ok b0 -> 0x80 <= b0 -> Forall byte_ok t -> snd (decode_ref (b0 :: t)) = 1 ->
  decode_ref (b0 :: t) = (RuneError, 1).
Proof.
  intros Hb Hge Ht E. pose proof (decode_ref_sound (b0 :: t)) as D.
  destruct (decode_ref (b0 :: t)) as [r n]. cbn [fst snd] in *. subst n.
  destruct D as [(Hs & Hn & rest & Hp)|]; [by constructor|done| |done].
  symmetry in Hn. apply utf8_encode_1 in Hn as [Hr Hlt]; [|done].
  rewrite Hr in Hp. injection Hp as Hp _. lia.
Qed.

Lemma class_xx_bad b0 t :
  byte_ok b0 -> 0x80 <= b0 -> first_class b0 = xx -> decode_ref (b0 :: t) = (RuneError, 1).
Proof.
  intros Hb Hge E. pose proof (lead_viewP b0 Hb) as V. rewrite E in V. unfold decode_ref.
  rewrite (proj2 (Z.ltb_ge b0 0x80)) by lia.
  inversion V. by rewrite !between_false by lia.
Qed.

Lemma drop_len_app {A} (a b : list A) : drop (Z.to_nat (len a)) (a ++ b) = b.
Proof. unfold len. by rewrite Nat2Z.id, drop_app_length. Qed.

(** The loop of [Valid] and [ValidString], which are the same code over the
    same bytes. *)
Lemma Valid_wf ptrSize p :
  ptrSize = 4 \/ ptrSize = 8 -> bytes_ok p ->
  Valid ptrSize p ⇓ (fun b => b = true <-> wf p).
Proof.
  intros Hsize Hp. unfold Valid.
  apply (loop_returns (fun q => bytes_ok q /\ (wf p <-> wf q)) len);
    [|done|unfold len; lia|apply len_nonneg].
  intros q [Hq Hwf]. destruct q as [|b0 t].
  { simpl. rewrite Hwf. split; auto using wf_nil. }
  destruct (Z.gtb_spec (len (b0 :: t)) 0); [|exfalso; len_lia]. cbn [negb].
  short_list. pose proof Hq as Hq'. apply Forall_cons_1 in Hq' as [Hb Ht].
  destruct (Z.ltb_spec b0 RuneSelf) as [Hlt|Hge]; unfold RuneSelf in *.
  - rewrite slice_from_Ok by len_lia. cbn [rbind]. change (drop (Z.to_nat 1) (b0 :: t)) with t.
    eapply returns_bind_mono; [by apply skipASCII_skips|]. intros q' Hs. cbn.
    destruct (skips_bytes _ _ Hs Ht) as [Hb' Hl].
    split; [|len_lia]. split; [done|]. rewrite Hwf, <- (skips_wf _ _ Hs).
    unfold byte_ok in Hb. apply (wf_ascii [b0]). repeat constructor; lia.
  - rewrite first_idx by done. cbn [rbind]. destruct (decide (first_class b0 = xx)) as [E|E].
    + rewrite E. eval_class. cbn [Z.eqb Pos.eqb orb returns]. rewrite Hwf. split; [done|]. intros H'. exfalso. revert H'.
      apply wf_bad; [by apply class_xx_bad|done].
    + destruct (badTail_ref b0 t Hb Hge E) as (acc & -> & E2 & E3 & E4). cbn [rbind].
      replace ((Z.land (first_class b0) 7 =? 2) || (Z.land (first_class b0) 7 =? 3)
               || (Z.land (first_class b0) 7 =? 4)) with true by (symmetry; repeat zcase; simpl; lia).
      rewrite E2. cbn [rbind].
      destruct (Z.eqb_spec (snd (decode_ref (b0 :: t))) 1) as [E5|E5].
      * simpl. rewrite Hwf. split; [done|]. intros H'. exfalso. revert H'.
        apply wf_bad; [by apply width1_bad|done].
      * destruct (decode_ref_sound (b0 :: t)) as [(Hs & Hn & rest & Hr)|Hbad];
          [done|done| |by rewrite Hbad in E5].
        rewrite (E3 E5) in Hn. clear E2 E3 E5. revert Hn Hs Hr.
        generalize (fst (decode_ref (b0 :: t))). intros r -> Hs Hr.
        pose proof (utf8_encode_nonempty r). rewrite Hr in Hq, Hwf |- *.
        rewrite slice_from_Ok by len_lia. cbn [rbind returns]. rewrite drop_len_app.
        unfold bytes_ok in Hq. apply Forall_app in Hq as [_ Hq].
        split; [|len_lia]. split; [done|]. rewrite Hwf. by apply wf_cons.
Qed.

Lemma ValidString_eq ptrSize s : ValidString ptrSize s = Valid ptrSize s.
Proof. reflexivity. Qed.

(** ** Counting *)

(** The division of a byte sequence that decoding makes: a well-formed
    sequence is one segment, a byte where none starts is a segment of its
    own. *)
Inductive splits : list Z -> list (list Z) -> Prop :=
| splits_nil : splits [] []
| splits_rune r rest segs :
    scalar r -> splits rest segs -> splits (utf8_encode r ++ rest) (utf8_encode r :: segs)
| splits_byte b t segs :
    (forall r rest, scalar r -> b :: t <> utf8_encode r ++ rest) ->
    splits t segs -> splits (b :: t) ([b] :: segs).

Lemma bad_no_rune p r rest :
  decode_ref p = (RuneError, 1) -> scalar r -> p <> utf8_encode r ++ rest.
Proof. intros H Hr ->. rewrite decode_ref_encode in H by done. injection H as -> E. discriminate E. Qed.

Lemma splits_exists p : bytes_ok p -> exists segs, splits p segs.
Proof.
  remember (length p) as n eqn:E. revert p E. induction (lt_wf n) as [n _ IH].
  intros p E Hp. destruct p as [|b t]; [eexists; constructor|].
  destruct (decode_ref_sound (b :: t) Hp ltac:(done)) as [(Hs & _ & rest & Hr)|Hbad].
  - revert Hs Hr. generalize (fst (decode_ref (b :: t))). intros r Hs Hr.
    rewrite Hr in *. unfold bytes_ok in Hp. apply Forall_app in Hp as [_ Hp].
    destruct (IH (length rest)) with rest as [segs Hsegs]; [|done|done|].
    { rewrite E, length_app. pose proof (utf8_encode_nonempty r). unfold len in *. lia. }
    eexists. by apply splits_rune.
  - apply Forall_cons_1 in Hp as [_ Hp].
    destruct (IH (length t)) with t as [segs Hsegs]; [simpl in E; lia|done|done|].
    eexists. apply splits_byte; [|done]. intros. by apply bad_no_rune.
Qed.

(** One decoding step removes the first segment. *)
Lemma splits_step b t segs :
  bytes_ok (b :: t) -> splits (b :: t) segs ->
  exists seg segs', segs = seg :: segs' /\ snd (decode_ref (b :: t)) = len seg /\
    1 <= len seg <= len (b :: t) /\ splits (drop (length seg) (b :: t)) segs'.
Proof.
  intros Hp H. inversion H as [|r rest segs' Hr Hs E|b' t' segs' Hno Hs]; subst.
  - eexists _, _. split; [done|]. rewrite decode_ref_encode by done.
    pose proof (utf8_encode_nonempty r). rewrite drop_app_length.
    split; [done|]. split; [len_lia|done].
  - eexists _, _. split; [done|]. split; [|split; [len_lia|done]].
    destruct (decode_ref_sound (b :: t) Hp ltac:(done)) as [(Hr & _ & rest & E)| ->];
      [|done]. exfalso. by eapply Hno.
Qed.

Lemma RuneCountInString_splits s segs :
  bytes_ok s -> splits s segs -> RuneCountInString s ⇓ (fun n => n = len segs).
Proof.
  intros Hs Hsp. unfold RuneCountInString.
  apply (loop_returns (fun '(q, n) => bytes_ok q /\
           exists segs', splits q segs' /\ n + len segs' = len segs)
           (fun '(q, _) => len q)); [|split; eauto|unfold len; lia|apply len_nonneg].
  clear s Hs Hsp. intros [q n] [Hq (segs' & Hsp & Hn)]. destruct q as [|b t].
  { inversion Hsp as [E|r ? ? Hr|]; subst; [simpl; change (len []) with 0 in Hn; lia|].
    pose proof (utf8_encode_nonempty r).
    destruct (utf8_encode r); [len_lia|done]. }
  rewrite (proj2 (Z.eqb_neq _ 0)) by len_lia.
  rewrite DecodeRuneInString_eq, DecodeRune_ref by done.
  destruct (splits_step _ _ _ Hq Hsp) as (seg & segs'' & -> & Hd & Hl & Hsp'). cbn [rbind].
  destruct (decode_ref (b :: t)) as [r size]. cbn [snd] in Hd. subst size.
  rewrite slice_from_Ok by lia. cbn [rbind returns].
  assert (Z.to_nat (len seg) = length seg) as -> by (unfold len; lia).
  split; [split|].
  - by apply Forall_drop.
  - exists segs''. split; [done|]. rewrite len_cons in Hn. lia.
  - unfold len in *. rewrite length_drop. lia.
Qed.

Lemma splits_ascii b t segs :
  0 <= b < 128 -> splits (b :: t) segs -> exists segs', segs = [b] :: segs' /\ splits t segs'.
Proof.
  intros Hb H. assert (E : utf8_encode b = [b]).
  { unfold utf8_encode. by rewrite (proj2 (Z.ltb_lt b 0x80)) by lia. }
  inversion H as [|r rest segs' Hr Hs E'|b' t' segs' Hno Hs]; subst.
  - pose proof (decode_ref_encode r rest Hr) as D1.
    pose proof (decode_ref_encode b t ltac:(unfold scalar; lia)) as D2.
    rewrite E in D2. cbn [app] in D2. rewrite E' in D1. rewrite D2 in D1.
    injection D1 as ->. rewrite E in *. injection E' as ->. eauto.
  - eauto.
Qed.

Lemma RuneCount_splits p segs :
  bytes_ok p -> splits p segs -> RuneCount p ⇓ (fun n => n = len segs).
Proof.
  intros Hp Hsp. unfold RuneCount.
  apply (loop_returns (fun n => 0 <= n <= len p /\
           exists segs', splits (drop (Z.to_nat n) p) segs' /\ n + len segs' = len segs)
           (fun n => len p - n)); [|split; [len_lia|by exists segs]|unfold len; lia|len_lia].
  intros n [Hn (segs' & Hs & Hl)].
  destruct (Z.ltb_spec n (len p)) as [Hlt|Hge].
  - apply returns_bind. apply idx_returns; [lia|]. intros c Hc.
    assert (Hok : byte_ok c) by (by eapply Forall_lookup_1).
    rewrite (drop_S _ c) in Hs by done.
    destruct (Z.geb_spec c RuneSelf) as [Hc2|Hc2]; unfold RuneSelf in Hc2.
    + rewrite slice_from_Ok by lia. cbn [rbind]. rewrite (drop_S _ c) by done.
      eapply returns_bind_mono.
      { apply RuneCountInString_splits; [|done].
        rewrite <- drop_S by done. by apply Forall_drop. }
      intros m ->. cbn. lia.
    + unfold byte_ok in Hok. apply splits_ascii in Hs as (segs'' & -> & Hs); [|lia].
      cbn. split; [|lia]. split; [lia|]. exists segs''.
      replace (Z.to_nat (n + 1)) with (S (Z.to_nat n)) by lia.
      split; [done|]. rewrite len_cons in Hl. lia.
  - cbn. rewrite drop_ge in Hs by (unfold len in *; lia).
    inversion Hs as [E|r ? ? Hr|]; subst; [change (len []) with 0 in Hl; lia|].
    pose proof (utf8_encode_nonempty r). destruct (utf8_encode r); [len_lia|done].
Qed.

Lemma splits_utf8_string rs : Forall scalar rs -> splits (utf8_string rs) (map utf8_encode rs).
Proof.
  induction 1 as [|r rs Hr _ IH]; [constructor|].
  unfold utf8_string. cbn [map concat]. by apply splits_rune.
Qed.

Lemma utf8_string_ok rs : Forall scalar rs -> bytes_ok (utf8_string rs).
Proof.
  induction 1 as [|r rs Hr _ IH]; [constructor|].
  unfold utf8_string, bytes_ok. cbn [map concat].
  apply Forall_app. split; [by apply utf8_encode_ok|done].
Qed.

(** ** Decoding from the end *)

Lemma RuneStart_between b : byte_ok b -> RuneStart b = negb (between 0x80 0xBF b).
Proof.
  intros Hb. assert (H : forallb (fun b => Bool.eqb (RuneStart b) (negb (between 0x80 0xBF b)))
                           (zrange 0 256) = true) by (vm_compute; reflexivity).
  unfold byte_ok in Hb. pose proof (zrange_forallb _ _ _ H b ltac:(lia)) as Hx.
  by apply Bool.eqb_prop in Hx.
Qed.

(** The leading byte of an encoding is the only one that can start a rune. *)
Lemma utf8_encode_shape r : scalar r ->
  exists b0 t, utf8_encode r = b0 :: t /\ RuneStart b0 = true /\
    Forall (fun b => RuneStart b = false) t.
Proof.
  intros Hr. pose proof (utf8_encode_ok r Hr) as Hok.
  destruct (utf8_encode r) as [|b0 t] eqn:E; [pose proof (utf8_encode_nonempty r); rewrite E in *; len_lia|].
  exists b0, t. split; [done|]. apply Forall_cons_1 in Hok as [Hb Ht].
  rewrite RuneStart_between by done. unfold utf8_encode in E. unfold scalar in Hr.
  revert E. repeat zcase; intros [= <- <-];
    (split; [rewrite between_false by zdm; done|]);
    repeat (apply Forall_cons_1 in Ht as [? Ht]; constructor;
            [rewrite RuneStart_between, between_intro by (done || zdm); done|]);
    constructor.
Qed.

(** [start] is the place the backward scan stops at. *)
Lemma scanBack_spec p s0 lim :
  0 <= lim -> lim - 1 <= s0 < len p ->
  scanBack p s0 lim ⇓ (fun start => lim - 1 <= start <= s0 /\
    (forall i b, start < i <= s0 -> p !! Z.to_nat i = Some b -> RuneStart b = false) /\
    (lim <= start -> exists b, p !! Z.to_nat start = Some b /\ RuneStart b = true)).
Proof.
  intros Hlim Hs. unfold scanBack.
  apply (loop_returns (fun start => lim - 1 <= start <= s0 /\
    (forall i b, start < i <= s0 -> p !! Z.to_nat i = Some b -> RuneStart b = false))
    (fun start => start - lim + 1)); [|split; [lia|intros; lia]|lia|lia].
  intros start [H1 H2]. destruct (Z.geb_spec start lim) as [Hge|Hlt].
  - apply returns_bind, idx_returns; [lia|]. intros b Hb.
    destruct (RuneStart b) eqn:E; cbn; [eauto 6|].
    split; [|lia]. split; [lia|]. intros i b' Hi Hb'.
    destruct (decide (i = start)) as [->|]; [congruence|]. apply (H2 i); [lia|done].
  - cbn. split; [done|]. split; [done|lia].
Qed.

(** Past the ASCII fast path: the scan, the slice and the decoding. *)
Lemma DecodeLastRune_slow p b :
  bytes_ok p -> last p = Some b -> 128 <= b ->
  exists start, 0 <= start < len p /\
    DecodeLastRune p = Ok (let '(r, size) := decode_ref (drop (Z.to_nat start) p) in
                           if start + size =? len p then (r, size) else (RuneError, 1)) /\
    (forall q r, scalar r -> p = q ++ utf8_encode r -> start = len q).
Proof.
  intros Hp Hlast Hge.
  assert (Hb : p !! Z.to_nat (len p - 1) = Some b).
  { rewrite last_lookup in Hlast. rewrite <- Hlast. f_equal. unfold len. lia. }
  assert (0 < len p) by (apply lookup_lt_Some in Hb; unfold len in *; lia).
  unfold DecodeLastRune. rewrite (proj2 (Z.eqb_neq _ 0)) by lia.
  rewrite (idx_Ok p _ b) by (done || lia). cbn [rbind].
  rewrite (proj2 (Z.ltb_ge b RuneSelf)) by (unfold RuneSelf; lia).
  destruct (returns_inv _ _ (scanBack_spec p (len p - 1 - 1) (Z.max (len p - UTFMax) 0)
    ltac:(lia) ltac:(unfold UTFMax; lia))) as (s & -> & Hs1 & Hs2 & Hs3). cbn [rbind].
  set (start := if s <? 0 then 0 else s).
  assert (Hst : 0 <= start < len p) by (unfold start; zcase; lia).
  exists start. split; [done|]. split.
  - rewrite slice_Ok by lia. cbn [rbind].
    rewrite take_ge by (rewrite length_drop; unfold len in *; lia).
    rewrite DecodeRune_ref by (by apply Forall_drop). cbn [rbind].
    destruct (decode_ref _) as [r size]. by destruct (start + size =? len p).
  - intros q r Hr Epq. destruct (utf8_encode_shape r Hr) as (b0 & t & E & Hb0 & Ht).
    pose proof (utf8_encode_nonempty r) as Hl. rewrite E in Epq, Hl.
    assert (Hlp : len p = len q + 1 + len t) by (rewrite Epq; len_lia).
    assert (Hcont : forall i c, len q < i < len p -> p !! Z.to_nat i = Some c -> RuneStart c = false).
    { intros i c Hi Hc. rewrite Epq in Hc. unfold len in *.
      rewrite lookup_app_r in Hc by lia.
      replace (Z.to_nat i - length q)%nat with (S (Z.to_nat i - length q - 1)) in Hc by lia.
      cbn in Hc. by eapply Forall_lookup_1 in Ht. }
    assert (Hlead : p !! Z.to_nat (len q) = Some b0).
    { rewrite Epq. unfold len. by rewrite Nat2Z.id, list_lookup_middle. }
    destruct (decide (len t = 0)) as [Ht0|Ht0].
    { exfalso. apply len_zero_inv in Ht0 as ->. rewrite Epq, last_snoc in Hlast.
      injection Hlast as ->. destruct (utf8_encode_1 r Hr) as [E1 H1]; [by rewrite E|].
      rewrite E in E1. injection E1 as ->. lia. }
    unfold UTFMax in *. len_simpl. len_facts.
    destruct (Z.lt_trichotomy s (len q)) as [Hlt|[Heq|Hgt]].
    + rewrite (Hs2 (len q) b0) in Hb0 by (done || lia). done.
    + unfold start. rewrite (proj2 (Z.ltb_ge s 0)) by lia. done.
    + destruct Hs3 as (c & Hc & Hc2); [lia|]. rewrite (Hcont s c) in Hc2 by (done || lia). done.
Qed.

Lemma decode_width_pos p : p <> [] -> bytes_ok p -> 1 <= snd (decode_ref p).
Proof.
  intros Hne Hp. destruct (decode_ref_sound p Hp Hne) as [(_ & E & _)| ->]; [|done].
  rewrite E. apply utf8_encode_nonempty.
Qed.

Lemma DecodeLastRune_ascii p b :
  bytes_ok p -> last p = Some b -> b < 128 -> DecodeLastRune p = Ok (b, 1).
Proof.
  intros Hp Hlast Hlt. rewrite last_lookup in Hlast.
  pose proof (lookup_lt_Some _ _ _ Hlast) as Hl.
  unfold DecodeLastRune. rewrite (proj2 (Z.eqb_neq _ 0)) by (unfold len; lia).
  rewrite (idx_Ok p _ b); [|unfold len; lia|].
  - cbn [rbind]. by rewrite (proj2 (Z.ltb_lt b RuneSelf)) by (unfold RuneSelf; lia).
  - rewrite <- Hlast. f_equal. unfold len. lia.
Qed.

Lemma last_byte_ok p b : bytes_ok p -> last p = Some b -> byte_ok b.
Proof. intros Hp H. rewrite last_lookup in H. by eapply Forall_lookup_1. Qed.

Lemma utf8_encode_last_ascii q r b :
  scalar r -> last (q ++ utf8_encode r) = Some b -> b < 128 -> utf8_encode r = [b] /\ r = b.
Proof.
  intros Hr Hl Hb. unfold scalar in Hr. revert Hl. unfold utf8_encode. repeat zcase.
  - rewrite last_snoc. by intros [= ->].
  - rewrite last_app_cons. intros [= <-]. exfalso. zdm.
  - rewrite last_app_cons. intros [= <-]. exfalso. zdm.
  - rewrite last_app_cons. intros [= <-]. exfalso. zdm.
Qed.

Lemma DecodeLastRune_encode q r :
  bytes_ok q -> scalar r ->
  DecodeLastRune (q ++ utf8_encode r) = Ok (r, len (utf8_encode r)).
Proof.
  intros Hq Hr. pose proof (utf8_encode_nonempty r) as Hl.
  assert (Hp : bytes_ok (q ++ utf8_encode r)) 
    by (apply Forall_app; split; [done|by apply utf8_encode_ok]).
  destruct (last (q ++ utf8_encode r)) as [b|] eqn:Hlast.
  2:{ apply last_None in Hlast. apply app_eq_nil in Hlast as [_ E]. rewrite E in Hl. len_lia. }
  destruct (decide (b < 128)).
  - rewrite (DecodeLastRune_ascii _ b) by done.
    destruct (utf8_encode_last_ascii q r b Hr Hlast) as [-> ->]; done.
  - destruct (DecodeLastRune_slow _ b Hp Hlast ltac:(lia)) as (start & _ & -> & Hst).
    rewrite (Hst q r Hr eq_refl). rewrite drop_len_app.
    rewrite <- (app_nil_r (utf8_encode r)) at 1. rewrite decode_ref_encode by done.
    by rewrite (proj2 (Z.eqb_eq _ _)) by len_lia.
Qed.

(** *** [FullRune] against the table *)

Definition full_ref (p : list Z) : bool :=
  match p with
  | [] => false
  | b0 :: t =>
      if between 0xC2 0xDF b0 then match t with [] => false | _ => true end
      else if between 0xE0 0xEF b0 then
        match t with
        | [] => false
        | [b1] => negb (between (if b0 =? 0xE0 then 0xA0 else 0x80)
                          (if b0 =? 0xED then 0x9F else 0xBF) b1)
        | _ => true
        end
      else if between 0xF0 0xF4 b0 then
        match t with
        | [] => false
        | [b1] => negb (between (if b0 =? 0xF0 then 0x90 else 0x80)
                          (if b0 =? 0xF4 then 0x8F else 0xBF) b1)
        | [b1; b2] => negb (between (if b0 =? 0xF0 then 0x90 else 0x80)
                              (if b0 =? 0xF4 then 0x8F else 0xBF) b1
                            && between 0x80 0xBF b2)
        | _ => true
        end
      else true
  end.

Ltac full_tail t :=
  (destruct t as [|b1 [|b2 [|b3 t]]];
   first [ done
         | by rewrite (proj2 (Z.leb_le _ _)) by len_lia
         | short_list; cbn; rewrite outside_between, ?not_cont_between; cbn [lo hi];
           (destruct (between _ _ b1), (between 128 191 b2) || destruct (between _ _ b1)); done ]).

Lemma FullRune_ref p : bytes_ok p -> FullRune p = Ok (full_ref p).
Proof.
  destruct p as [|b0 t]; [done|]. intros Hp. apply Forall_cons_1 in Hp as [Hb _].
  unfold FullRune, full_ref. rewrite (proj2 (Z.eqb_neq _ 0)) by len_lia. short_list.
  rewrite first_idx by done. cbn [rbind]. rewrite Z.geb_leb, !Z.gtb_ltb.
  destruct (lead_viewP b0 Hb) as [H|H|H|H|H|H|H|H|H]; lead_ranges b0; eval_class;
    full_tail t.
Qed.

(** Every table entry is the encoding of a scalar value. *)
Lemma table_2 b0 b1 : 0xC2 <= b0 <= 0xDF -> 0x80 <= b1 <= 0xBF ->
  exists r, scalar r /\ utf8_encode r = [b0; b1].
Proof. intros. eexists. rewrite (encode_2 b0 b1) by lia. split; [unfold scalar; lia|done]. Qed.

Lemma table_3 b0 b1 b2 :
  0xE0 <= b0 <= 0xEF -> 0x80 <= b1 <= 0xBF -> (b0 = 0xE0 -> 0xA0 <= b1) ->
  (b0 = 0xED -> b1 <= 0x9F) -> 0x80 <= b2 <= 0xBF ->
  exists r, scalar r /\ utf8_encode r = [b0; b1; b2].
Proof. intros. eexists. rewrite (encode_3 b0 b1 b2) by lia. split; [unfold scalar; lia|done]. Qed.

Lemma table_4 b0 b1 b2 b3 :
  0xF0 <= b0 <= 0xF4 -> 0x80 <= b1 <= 0xBF -> (b0 = 0xF0 -> 0x90 <= b1) ->
  (b0 = 0xF4 -> b1 <= 0x8F) -> 0x80 <= b2 <= 0xBF -> 0x80 <= b3 <= 0xBF ->
  exists r, scalar r /\ utf8_encode r = [b0; b1; b2; b3].
Proof. intros. eexists. rewrite (encode_4 b0 b1 b2 b3) by lia. split; [unfold scalar; lia|done]. Qed.

Ltac completes Hr E :=
  eexists _, _; split; [exact Hr|]; split; [|exact E]; discriminate.

(** A byte sequence is not full exactly when it can still become a rune. *)
Lemma full_ref_completes p :
  full_ref p = false -> exists r s, scalar r /\ s <> [] /\ utf8_encode r = p ++ s.
Proof.
  destruct p as [|b0 t].
  { intros _. exists 0, [0]. split; [unfold scalar; lia|done]. }
  unfold full_ref. destruct (between 0xC2 0xDF b0) eqn:R2;
    [|destruct (between 0xE0 0xEF b0) eqn:R3; [|destruct (between 0xF0 0xF4 b0) eqn:R4; [|done]]].
  - apply between_true in R2. destruct t; [|done]. intros _.
    destruct (table_2 b0 0x80) as (r & Hr & E); [lia..|]. completes Hr E.
  - apply between_true in R3. destruct t as [|b1 [|]]; [| |done].
    + intros _. destruct (table_3 b0 (if b0 =? 0xE0 then 0xA0 else 0x80) 0x80) as (r & Hr & E);
        [repeat zcase; lia..|]. completes Hr E.
    + intros H%negb_false_iff%between_true. revert H.
      destruct (Z.eqb_spec b0 0xE0), (Z.eqb_spec b0 0xED); intros H; try lia;
        (destruct (table_3 b0 b1 0x80) as (r & Hr & E); [lia..|]; completes Hr E).
  - apply between_true in R4. destruct t as [|b1 [|b2 [|]]]; [| | |done].
    + intros _. destruct (table_4 b0 (if b0 =? 0xF0 then 0x90 else 0x80) 0x80 0x80)
        as (r & Hr & E); [repeat zcase; lia..|]. completes Hr E.
    + intros H%negb_false_iff%between_true. revert H.
      destruct (Z.eqb_spec b0 0xF0), (Z.eqb_spec b0 0xF4); intros H; try lia;
        (destruct (table_4 b0 b1 0x80 0x80) as (r & Hr & E); [lia..|]; completes Hr E).
    + intros [H H2]%negb_false_iff%andb_true_iff. apply between_true in H, H2. revert H.
      destruct (Z.eqb_spec b0 0xF0), (Z.eqb_spec b0 0xF4); intros H; try lia;
        (destruct (table_4 b0 b1 b2 0x80) as (r & Hr & E); [lia..|]; completes Hr E).
Qed.

Lemma full_ref_prefix p :
  full_ref p = false <-> exists r s, scalar r /\ s <> [] /\ utf8_encode r = p ++ s.
Proof.
  split; [apply full_ref_completes|].
  intros (r & s & Hr & Hs & E). unfold scalar in Hr. unfold utf8_encode in E.
    revert E. repeat zcase;
      destruct p as [|b0 [|b1 [|b2 [|b3 p]]]]; cbn [app]; intros E; simplify_eq; try done;
      unfold full_ref;
      repeat match goal with
        | |- context [between ?x ?y ?b] =>
            first [ rewrite (between_intro x y b) by (repeat zcase; zdm)
                  | rewrite (between_false x y b) by (repeat zcase; zdm) ]
        end; try done.
  exfalso. by destruct p.
Qed.

(** ** Theorems *)

(** C32: Encoding then decoding gives the rune back: for every 32-bit rune, at
    the front of any further bytes, [DecodeRune] returns the rune that
    [AppendRune] wrote ([RuneError] for a rune outside the Unicode scalar
    values) and the number of bytes it wrote, which is [RuneLen] for a valid
    rune. *)
Theorem DecodeRune_AppendRune r rest :
  - 2 ^ 31 <= r < 2 ^ 31 -> bytes_ok rest ->
  DecodeRune (AppendRune [] r ++ rest)
  = Ok (if ValidRune r then r else RuneError, len (AppendRune [] r)) /\
  (ValidRune r = true -> RuneLen r = len (AppendRune [] r)).
Proof.
  intros Hr Hrest. rewrite AppendRune_spec by done. cbn [app].
  destruct (encoded_scalar r) as (r' & Hs & -> & ->). split.
  - rewrite DecodeRune_ref; [by rewrite decode_ref_encode|].
    apply Forall_app. split; [by apply utf8_encode_ok|done].
  - intros Hv. rewrite Hv in *. by apply RuneLen_encode.
Qed.

Lemma DecodeRune_AppendRune_witness :
  DecodeRune (AppendRune [] 0x20AC ++ [0x41]) = Ok (0x20AC, 3) /\
  DecodeRune (AppendRune [] (-1) ++ [0x41]) = Ok (RuneError, 3).
Proof.
  split.
  - apply (DecodeRune_AppendRune 0x20AC [0x41]); [lia|].
    repeat constructor; unfold byte_ok; lia.
  - apply (DecodeRune_AppendRune (-1) [0x41]); [lia|].
    repeat constructor; unfold byte_ok; lia.
Defined.

(** C33: [DecodeRune] never panics, and it is sound and complete for the
    encoding table: on empty input it returns [(RuneError, 0)]; otherwise
    either the input starts with the encoding of the scalar value it returns,
    with its width, or it returns [(RuneError, 1)] and the input starts with
    no encoding at all. *)
Theorem DecodeRune_sound p :
  bytes_ok p ->
  DecodeRune p ⇓ (fun '(r, n) =>
    (p = [] /\ r = RuneError /\ n = 0) \/
    starts_with_rune p r n \/
    (p <> [] /\ r = RuneError /\ n = 1 /\
     forall r' rest, scalar r' -> p <> utf8_encode r' ++ rest)).
Proof.
  intros Hp. rewrite DecodeRune_ref by done. cbn [returns].
  pose proof (decode_ref_sound p Hp) as D. destruct (decode_ref p) as [r n] eqn:E.
  destruct (decide (p = [])) as [->|Hne]; [left; by injection E as <- <-|right].
  destruct (D Hne) as [H|H]; [by left|right].
  injection H as -> ->. split; [done|]. split; [done|]. split; [done|].
  intros. by apply bad_no_rune.
Qed.

Lemma DecodeRune_sound_witness :
  bytes_ok [0xED; 0xA0; 0x80] /\ DecodeRune [0xED; 0xA0; 0x80] ⇓ (fun '(r, n) =>
    ([0xED; 0xA0; 0x80] = [] /\ r = RuneError /\ n = 0) \/
    starts_with_rune [0xED; 0xA0; 0x80] r n \/
    ([0xED; 0xA0; 0x80] <> [] /\ r = RuneError /\ n = 1 /\
     forall r' rest, scalar r' -> [0xED; 0xA0; 0x80] <> utf8_encode r' ++ rest)).
Proof.
  assert (H : bytes_ok [0xED; 0xA0; 0x80]) by (repeat constructor; unfold byte_ok; lia).
  split; [exact H|]. exact (DecodeRune_sound _ H).
Defined.

(** [Valid], fast path included, on a machine with 4- or 8-byte words,
    terminates without a panic and accepts exactly the concatenations of
    encodings of Unicode scalar values. *)
Theorem Valid_correct ptrSize p :
  ptrSize = 4 \/ ptrSize = 8 -> bytes_ok p ->
  Valid ptrSize p ⇓ (fun b => b = true <->
    exists rs, Forall scalar rs /\ p = utf8_string rs).
Proof. apply Valid_wf. Qed.

Lemma Valid_correct_witness :
  Valid 8 (str "abcdefghijklmnopqrstuvwxyz abcdefghijklmnopqrstuvwxyz" ++ [0xC3; 0xA9])
  ⇓ (fun b => b = true <-> exists rs, Forall scalar rs /\
       str "abcdefghijklmnopqrstuvwxyz abcdefghijklmnopqrstuvwxyz" ++ [0xC3; 0xA9]
       = utf8_string rs).
Proof.
  apply (Valid_correct 8); [by right|]. apply Forall_app. split; [apply str_ok|].
  repeat constructor; unfold byte_ok; lia.
Defined.

(** [RuneCount] terminates without a panic on any bytes and counts the
    segments decoding divides them into (an ill-formed byte is one segment);
    on a well-formed string that is the number of its runes. *)
Theorem RuneCount_correct p :
  bytes_ok p ->
  RuneCount p ⇓ (fun n => exists segs, splits p segs /\ n = len segs) /\
  (forall rs, Forall scalar rs -> p = utf8_string rs -> RuneCount p = Ok (len rs)).
Proof.
  intros Hp. split.
  - destruct (splits_exists p Hp) as [segs Hs].
    eapply returns_mono; [by apply RuneCount_splits|]. eauto.
  - intros rs Hrs ->. pose proof (splits_utf8_string rs Hrs) as Hs.
    destruct (returns_inv _ _ (RuneCount_splits _ _ Hp Hs)) as (n & -> & ->).
    f_equal. unfold len. by rewrite length_map.
Qed.

Lemma RuneCount_correct_witness :
  RuneCount [0x61; 0xC3; 0xA9; 0xFF; 0xE2; 0x82; 0xAC] = Ok 4 /\
  RuneCount [0x61; 0xC3; 0xA9; 0xFF; 0xE2; 0x82; 0xAC] ⇓
    (fun n => exists segs, splits [0x61; 0xC3; 0xA9; 0xFF; 0xE2; 0x82; 0xAC] segs /\ n = len segs).
Proof.
  split; [vm_compute; reflexivity|].
  apply RuneCount_correct. repeat constructor; unfold byte_ok; lia.
Defined.

(** [DecodeLastRune] never panics: it returns the scalar value whose
    encoding ends the input, with its width, whenever there is one, and
    [(RuneError, 1)] otherwise ([(RuneError, 0)] on empty input). *)
Theorem DecodeLastRune_correct p :
  bytes_ok p ->
  DecodeLastRune p ⇓ (fun '(r, n) =>
    (p = [] /\ r = RuneError /\ n = 0) \/
    (scalar r /\ n = len (utf8_encode r) /\ exists q, p = q ++ utf8_encode r) \/
    (p <> [] /\ r = RuneError /\ n = 1 /\
     forall q r', scalar r' -> p <> q ++ utf8_encode r')).
Proof.
  intros Hp. destruct (last p) as [b|] eqn:Hlast; [|apply last_None in Hlast as ->; by left].
  assert (Hno : DecodeLastRune p = Ok (RuneError, 1) ->
                forall q r', scalar r' -> p <> q ++ utf8_encode r').
  { intros E q r' Hr' ->. unfold bytes_ok in Hp. apply Forall_app in Hp as [Hq _].
    rewrite DecodeLastRune_encode in E by done. injection E as -> E. discriminate E. }
  assert (Hne : p <> []) by (by intros ->).
  pose proof (last_byte_ok p b Hp Hlast) as Hb. unfold byte_ok in Hb.
  destruct (decide (b < 128)) as [Hlt|Hge].
  - rewrite (DecodeLastRune_ascii p b) by done. cbn. right. left.
    assert (E : utf8_encode b = [b])
      by (unfold utf8_encode; by rewrite (proj2 (Z.ltb_lt b 0x80)) by lia).
    rewrite E. split; [unfold scalar; lia|]. split; [done|]. by apply last_Some in Hlast.
  - destruct (DecodeLastRune_slow p b Hp Hlast ltac:(lia)) as (start & Hst & E & _).
    set (q := drop (Z.to_nat start) p) in *.
    assert (Hq : bytes_ok q) by (by apply Forall_drop).
    assert (Hqne : q <> []) by (intros Hq0; apply (f_equal length) in Hq0;
      unfold q in Hq0; rewrite length_drop in Hq0; unfold len in Hst; simpl in Hq0; lia).
    pose proof (decode_ref_sound q Hq Hqne) as D. rewrite E.
    destruct (decode_ref q) as [r w]. cbn [fst snd] in D.
    destruct (Z.eqb_spec (start + w) (len p)) as [Hend|Hend]; [|cbn; auto 10].
    destruct D as [(Hs & Hn & rest & Hrest)|[= -> ->]]; [|cbn; auto 10].
    cbn. right. left. split; [done|]. split; [done|]. exists (take (Z.to_nat start) p).
    assert (Hr0 : rest = []).
    { apply len_zero_inv. assert (len p = start + len q)
        by (unfold q, len in *; rewrite length_drop; lia).
      rewrite Hrest, len_app in *. lia. }
    rewrite Hr0, app_nil_r in Hrest. rewrite <- Hrest. unfold q. by rewrite take_drop.
Qed.

Lemma DecodeLastRune_correct_witness :
  DecodeLastRune [0x61; 0xE2; 0x82; 0xAC] = Ok (0x20AC, 3) /\
  DecodeLastRune [0x61; 0xE2; 0x82; 0xAC] ⇓ (fun '(r, n) =>
    ([0x61; 0xE2; 0x82; 0xAC] = [] /\ r = RuneError /\ n = 0) \/
    (scalar r /\ n = len (utf8_encode r) /\
     exists q, [0x61; 0xE2; 0x82; 0xAC] = q ++ utf8_encode r) \/
    ([0x61; 0xE2; 0x82; 0xAC] <> [] /\ r = RuneError /\ n = 1 /\
     forall q r', scalar r' -> [0x61; 0xE2; 0x82; 0xAC] <> q ++ utf8_encode r')).
Proof.
  split; [vm_compute; reflexivity|].
  apply DecodeLastRune_correct. repeat constructor; unfold byte_ok; lia.
Defined.

(** [FullRune] never panics, and it answers false exactly for the proper
    prefixes of encodings: the byte sequences that more input can still turn
    into a well-formed rune. *)
Theorem FullRune_correct p :
  bytes_ok p ->
  FullRune p ⇓ (fun b => b = false <->
    exists r s, scalar r /\ s <> [] /\ utf8_encode r = p ++ s).
Proof. intros Hp. rewrite FullRune_ref by done. apply full_ref_prefix. Qed.

Lemma FullRune_correct_witness :
  FullRune [0xF0; 0x9F] ⇓ (fun b => b = false <->
    exists r s, scalar r /\ s <> [] /\ utf8_encode r = [0xF0; 0x9F] ++ s).
Proof. apply FullRune_correct. repeat constructor; unfold byte_ok; lia. Defined.

(** The string variants compute what the byte-slice functions compute. *)
Theorem string_variants_agree ptrSize s :
  bytes_ok s ->
  FullRuneInString s = FullRune s /\
  DecodeRuneInString s = DecodeRune s /\
  DecodeLastRuneInString s = DecodeLastRune s /\
  RuneCountInString s = RuneCount s /\
  ValidString ptrSize s = Valid ptrSize s.
Proof.
  intros Hs. split; [done|]. split; [apply DecodeRuneInString_eq|].
  split; [|split; [|done]].
  - unfold DecodeLastRuneInString, DecodeLastRune.
    destruct (len s =? 0); [done|]. destruct (idx s _); [|done..]. cbn [rbind].
    destruct (_ <? RuneSelf); [done|]. destruct (scanBack _ _ _); [|done..]. cbn [rbind].
    destruct (slice _ _ _); [|done..]. cbn [rbind]. by rewrite DecodeRuneInString_eq.
  - destruct (splits_exists s Hs) as [segs Hsp].
    destruct (returns_inv _ _ (RuneCount_splits _ _ Hs Hsp)) as (n & -> & ->).
    by destruct (returns_inv _ _ (RuneCountInString_splits _ _ Hs Hsp)) as (n & -> & ->).
Qed.

Lemma string_variants_agree_witness :
  DecodeLastRuneInString [0x61; 0xC3; 0xA9] = DecodeLastRune [0x61; 0xC3; 0xA9] /\
  RuneCountInString [0x61; 0xC3; 0xA9] = RuneCount [0x61; 0xC3; 0xA9].
Proof.
  split; apply (string_variants_agree 8 [0x61; 0xC3; 0xA9]);
    repeat constructor; unfold byte_ok; lia.
Defined.

(** [EncodeRune] writes exactly the bytes [AppendRune] appends at the front
    of the buffer, leaves the rest of it unchanged and returns their number; a
    buffer too short for them makes it panic, whatever the rune. *)
Theorem EncodeRune_correct p r :
  - 2 ^ 31 <= r < 2 ^ 31 ->
  EncodeRune p r =
    (if len (AppendRune [] r) <=? len p
     then Ok (AppendRune [] r ++ drop (length (AppendRune [] r)) p, len (AppendRune [] r))
     else Panic).
Proof. apply EncodeRune_append. Qed.

Lemma EncodeRune_correct_witness :
  EncodeRune [0; 0] 0x20AC = Panic /\ EncodeRune [0; 0; 0; 7] 0x20AC = Ok ([0xE2; 0x82; 0xAC; 7], 3).
Proof.
  split; rewrite EncodeRune_correct by lia; reflexivity.
Defined.
