(* ===== verification/Search.v ===== *)
(** * Binary search: sort.Search, sort.Find, slices.BinarySearchFunc

    The loop [for i < j { h := int(uint(i+j) >> 1); ... }] of
    src/sort/search.go and src/slices/sort.go.  [midpoint] keeps the
    conversions: the sum wraps to 64 bits as the source's does.  Predicates
    are functions into [res], so that a predicate that indexes a slice can
    panic; the theorems show they are called on in-range arguments only. *)
From Stdlib Require Import ZArith Lia.
From stdpp Require Import base numbers list.
From S2P Require Import Prelude.

(** [int(uint(i+j) >> 1)] *)
Definition midpoint (i j : Z) : Z := i64 (Z.shiftr (u64 (i + j)) 1).

(** The loop shared by all the searches: [right h] tells to continue above
    [h]. *)
Definition bisect (right : Z -> res bool) (i j : Z) : res Z :=
  loop (S (Z.to_nat (j - i)))
    (fun '(i, j) =>
       if i <? j then
         let h := midpoint i j in
         let! r := right h in
         if r then Ok (inl (h + 1, j)) else Ok (inl (i, h))
       else Ok (inr i))
    (i, j).

(** sort.Search *)
Definition Search (n : Z) (f : Z -> res bool) : res Z :=
  bisect (fun h => let! b := f h in Ok (negb b)) 0 n.

(** sort.Find *)
Definition Find (n : Z) (cmp : Z -> res Z) : res (Z * bool) :=
  let! i := bisect (fun h => let! c := cmp h in Ok (c >? 0)) 0 n in
  let! found := if i <? n then (let! c := cmp i in Ok (c =? 0)) else Ok false in
  Ok (i, found).

(** sort.SearchInts *)
Definition SearchInts (a : list Z) (x : Z) : res Z :=
  Search (len a) (fun i => let! y := idx a i in Ok (y >=? x)).

(** slices.BinarySearchFunc *)
Definition BinarySearchFunc {E T} (x : list E) (target : T) (cmp : E -> T -> Z) : res (Z * bool) :=
  let n := len x in
  let! i := bisect (fun h => let! y := idx x h in Ok (cmp y target <? 0)) 0 n in
  let! found := if i <? n then (let! y := idx x i in Ok (cmp y target =? 0)) else Ok false in
  Ok (i, found).

Lemma midpoint_spec i j : 0 <= i < j -> j < 2 ^ 63 -> i <= midpoint i j < j.
Proof.
  intros Hi Hj. unfold midpoint. rewrite u64_id by lia. rewrite shiftr_div by lia.
  rewrite i64_id by zdm. zdm.
Qed.

(** Where [right] is true on a prefix of the range only, the search stops at
    the end of that prefix.  [P] is the value [right] takes. *)
Lemma bisect_spec right (P : Z -> bool) i0 j0 :
  0 <= i0 <= j0 -> j0 < 2 ^ 63 ->
  (forall h, i0 <= h < j0 -> right h = Ok (P h)) ->
  (forall h k, i0 <= h < k -> k < j0 -> P k = true -> P h = true) ->
  bisect right i0 j0 ⇓ (fun i => i0 <= i <= j0 /\
    (forall h, i0 <= h < i -> P h = true) /\ (forall h, i <= h < j0 -> P h = false)).
Proof.
  intros Hij Hmax Hright Hmono. unfold bisect.
  apply (loop_returns (fun '(i, j) => i0 <= i <= j /\ j <= j0 /\
    (forall h, i0 <= h < i -> P h = true) /\ (forall h, j <= h < j0 -> P h = false))
    (fun '(i, j) => j - i)); [|repeat split; lia|lia|lia].
  intros [i j] (H1 & H2 & H3 & H4).
  destruct (Z.ltb_spec i j) as [Hlt|Hge].
  - pose proof (midpoint_spec i j ltac:(lia) ltac:(lia)) as Hm. rewrite Hright by lia. cbn [rbind].
    destruct (P (midpoint i j)) eqn:E; cbn.
    + split; [|lia]. split; [lia|]. split; [done|]. split; [|done].
      intros h Hh. destruct (decide (h = midpoint i j)) as [->|]; [done|].
      apply (Hmono h (midpoint i j)); [lia|lia|done].
    + split; [|lia]. split; [lia|]. split; [lia|]. split; [done|].
      intros h Hh. destruct (P h) eqn:Eh; [|done].
      destruct (decide (h = midpoint i j)) as [->|]; [congruence|].
      rewrite (Hmono (midpoint i j) h) in E by (done || lia). done.
  - cbn. split; [lia|]. split; [done|]. intros h Hh. apply H4. lia.
Qed.

(** ** Theorems *)

(** [sort.Search] calls its predicate inside [0, n) only and, when the
    predicate is false on a prefix and true after it, returns the first index
    at which it is true ([n] if there is none). *)
Theorem Search_correct n f (P : Z -> bool) :
  0 <= n < 2 ^ 63 ->
  (forall h, 0 <= h < n -> f h = Ok (P h)) ->
  (forall h k, 0 <= h < k -> k < n -> P h = true -> P k = true) ->
  Search n f ⇓ (fun i => 0 <= i <= n /\
    (forall h, 0 <= h < i -> P h = false) /\ (forall h, i <= h < n -> P h = true)).
Proof.
  intros Hn Hf Hmono. unfold Search.
  eapply returns_mono; [apply (bisect_spec _ (fun h => negb (P h))); [lia|lia| |]|].
  - intros h Hh. by rewrite Hf.
  - intros h k Hh Hk. destruct (P h) eqn:E; [|done]. by rewrite (Hmono h k).
  - cbv beta. intros i (H1 & H2 & H3). split; [done|]. split.
    + intros h Hh. by apply negb_true_iff, H2.
    + intros h Hh. by apply negb_false_iff, H3.
Qed.

Lemma Search_correct_witness :
  Search 10 (fun h => Ok (h >=? 7)) ⇓ (fun i => 0 <= i <= 10 /\
    (forall h, 0 <= h < i -> (h >=? 7) = false) /\ (forall h, i <= h < 10 -> (h >=? 7) = true)).
Proof.
  apply (Search_correct 10 (fun h => Ok (h >=? 7)) (fun h => h >=? 7)); [lia|done|].
  intros h k Hh Hk. rewrite !Z.geb_le. lia.
Defined.

(** [slices.BinarySearchFunc] on a slice ordered towards the target (first
    the elements that precede it, then those that match, then those that
    follow) never indexes out of range; it returns the earliest position not
    before the target and whether the element there matches, that is, whether
    any element of the slice does. *)
Theorem BinarySearchFunc_correct {E T} (x : list E) (target : T) (cmp : E -> T -> Z) :
  len x < 2 ^ 63 ->
  (forall i j a b, (i < j)%nat -> x !! i = Some a -> x !! j = Some b ->
     (cmp b target < 0 -> cmp a target < 0) /\ (cmp b target <= 0 -> cmp a target <= 0)) ->
  BinarySearchFunc x target cmp ⇓ (fun '(i, found) => 0 <= i <= len x /\
    (forall h a, 0 <= h < i -> x !! Z.to_nat h = Some a -> cmp a target < 0) /\
    (forall h a, i <= h < len x -> x !! Z.to_nat h = Some a -> 0 <= cmp a target) /\
    (found = true <-> exists a, a ∈ x /\ cmp a target = 0)).
Proof.
  intros Hlen Hord. unfold BinarySearchFunc.
  set (P := fun h => match x !! Z.to_nat h with Some y => cmp y target <? 0 | None => false end).
  assert (Hidx : forall h, 0 <= h < len x -> exists y, x !! Z.to_nat h = Some y).
  { intros h Hh. apply lookup_lt_is_Some_2. unfold len in Hh. lia. }
  eapply returns_bind_mono.
  { apply (bisect_spec _ P); [pose proof (len_nonneg x); lia|done| |].
    - intros h Hh. destruct (Hidx h Hh) as [y Hy]. rewrite (idx_Ok x h y) by (done || lia).
      unfold P. by rewrite Hy.
    - intros h k Hh Hk. unfold P. destruct (Hidx h) as [a Ha]; [lia|].
      destruct (Hidx k) as [b Hb]; [lia|]. rewrite Ha, Hb, !Z.ltb_lt.
      apply (Hord (Z.to_nat h) (Z.to_nat k)); [lia|done|done]. }
  intros i (Hi & Hlo & Hhi).
  assert (Hlo' : forall h a, 0 <= h < i -> x !! Z.to_nat h = Some a -> cmp a target < 0).
  { intros h a Hh Ha. specialize (Hlo h Hh). unfold P in Hlo. rewrite Ha in Hlo. by apply Z.ltb_lt. }
  assert (Hhi' : forall h a, i <= h < len x -> x !! Z.to_nat h = Some a -> 0 <= cmp a target).
  { intros h a Hh Ha. specialize (Hhi h Hh). unfold P in Hhi. rewrite Ha in Hhi. by apply Z.ltb_ge. }
  destruct (Z.ltb_spec i (len x)) as [Hlt|Hge].
  - destruct (Hidx i) as [y Hy]; [lia|]. rewrite (idx_Ok x i y) by (done || lia). cbn.
    split; [done|]. split; [done|]. split; [done|]. rewrite Z.eqb_eq. split.
    + intros E0. exists y. split; [|done]. by eapply list_elem_of_lookup_2.
    + intros (a & [k Hk]%list_elem_of_lookup & Ea).
      assert (i <= Z.of_nat k).
      { destruct (Z.lt_ge_cases (Z.of_nat k) i); [|done].
        pose proof (Hlo' (Z.of_nat k) a ltac:(lia) ltac:(by rewrite Nat2Z.id)). lia. }
      destruct (decide (Z.to_nat i = k)) as [<-|].
      * rewrite Hy in Hk. congruence.
      * pose proof (Hhi' i y ltac:(lia) Hy).
        destruct (Hord (Z.to_nat i) k y a) as [_ H2]; [lia|done|done|]. lia.
  - cbn. split; [done|]. split; [done|]. split; [done|]. split; [done|].
    intros (a & [k Hk]%list_elem_of_lookup & Ea). exfalso.
    pose proof (lookup_lt_Some _ _ _ Hk). unfold len in *.
    pose proof (Hlo' (Z.of_nat k) a ltac:(lia) ltac:(by rewrite Nat2Z.id)). lia.
Qed.

Lemma BinarySearchFunc_correct_witness :
  BinarySearchFunc [1; 3; 3; 7] 3 Z.sub ⇓ (fun '(i, found) => 0 <= i <= len [1; 3; 3; 7] /\
    (forall h a, 0 <= h < i -> [1; 3; 3; 7] !! Z.to_nat h = Some a -> a - 3 < 0) /\
    (forall h a, i <= h < len [1; 3; 3; 7] -> [1; 3; 3; 7] !! Z.to_nat h = Some a -> 0 <= a - 3) /\
    (found = true <-> exists a, a ∈ [1; 3; 3; 7] /\ a - 3 = 0)).
Proof.
  apply (BinarySearchFunc_correct [1; 3; 3; 7] 3 Z.sub); [vm_compute; reflexivity|].
  intros i j a b Hij Ha Hb.
  do 4 (destruct i as [|i]; [injection Ha as <-; do 4 (destruct j as [|j]; [injection Hb as <-; lia|]); discriminate Hb|]).
  discriminate Ha.
Defined.
