(* ===== verification/Sort.v ===== *)
(** * Package slices: pattern-defeating quicksort and the stable sort (model)

    The functions of src/slices/zsortanyfunc.go over a comparison function,
    and the entry points of src/slices/sort.go.  The slice that the source
    mutates in place is threaded through; every access is checked, so a
    wrong index is a [Panic] of the model.  Index arithmetic that can leave
    the [int] range for very long slices (doubling, sums of two indices)
    wraps with [i64], the rest stays below the slice length.  Each loop has
    as fuel the number of indices it can still visit. *)
From Stdlib Require Import ZArith Lia.
From stdpp Require Import base numbers list.
From S2P Require Import Prelude Bits Search.

Inductive sortedHint := unknownHint | increasingHint | decreasingHint.

(** xorshift.Next: the new state is the value returned. *)
Definition xorshift_Next (r : Z) : Z :=
  let r := Z.lxor r (u64 (Z.shiftl r 13)) in
  let r := Z.lxor r (Z.shiftr r 7) in
  Z.lxor r (u64 (Z.shiftl r 17)).

Definition nextPowerOfTwo (length : Z) : res Z :=
  let! n := Len 64 (u64 length) in
  Ok (u64 (Z.shiftl 1 n)).

Section Sorting.
Context {E : Type} (cmp : E -> E -> Z).

(** [cmp(data[i], data[j]) < 0] *)
Definition lessAt (data : list E) (i j : Z) : res bool :=
  let! x := idx data i in
  let! y := idx data j in
  Ok (cmp x y <? 0).

(** ** Insertion sort *)

Definition insertInner (data : list E) (a i : Z) : res (list E) :=
  loop (S (Z.to_nat (i - a)))
    (fun '(data, j) =>
       let! c := if j >? a then lessAt data j (j - 1) else Ok false in
       if c then
         let! data := swap data j (j - 1) in
         Ok (inl (data, j - 1))
       else Ok (inr data)) (data, i).

Definition insertionSortCmpFunc (data : list E) (a b : Z) : res (list E) :=
  loop (S (Z.to_nat (b - a)))
    (fun '(data, i) =>
       if i <? b then
         let! data := insertInner data a i in
         Ok (inl (data, i + 1))
       else Ok (inr data)) (data, a + 1).

(** ** Heapsort *)

Definition siftDownCmpFunc (data : list E) (lo hi first : Z) : res (list E) :=
  loop (S (Z.to_nat hi))
    (fun '(data, root) =>
       let child := i64 (2 * root + 1) in
       if child >=? hi then Ok (inr data) else
       let! c := if child + 1 <? hi
                 then lessAt data (first + child) (first + child + 1) else Ok false in
       let child := if c then child + 1 else child in
       let! less := lessAt data (first + root) (first + child) in
       if negb less then Ok (inr data) else
       let! data := swap data (first + root) (first + child) in
       Ok (inl (data, child))) (data, lo).

Definition heapSortCmpFunc (data : list E) (a b : Z) : res (list E) :=
  let first := a in
  let lo := 0 in
  let hi := b - a in
  let! data :=
    loop (S (S (Z.to_nat hi)))
      (fun '(data, i) =>
         if i >=? 0 then
           let! data := siftDownCmpFunc data i hi first in
           Ok (inl (data, i - 1))
         else Ok (inr data)) (data, Z.quot (hi - 1) 2) in
  loop (S (Z.to_nat hi))
    (fun '(data, i) =>
       if i >=? 0 then
         let! data := swap data first (first + i) in
         let! data := siftDownCmpFunc data lo i first in
         Ok (inl (data, i - 1))
       else Ok (inr data)) (data, hi - 1).

(** ** Partitioning *)

(** [for i <= j && cmp(data[i], data[a]) < 0 { i++ }] *)
Definition scanUp (data : list E) (a i j : Z) : res Z :=
  loop (S (Z.to_nat (j - i + 1)))
    (fun i =>
       let! c := if i <=? j then lessAt data i a else Ok false in
       if c then Ok (inl (i + 1)) else Ok (inr i)) i.

(** [for i <= j && !(cmp(data[j], data[a]) < 0) { j-- }] *)
Definition scanDown (data : list E) (a i j : Z) : res Z :=
  loop (S (Z.to_nat (j - i + 1)))
    (fun j =>
       let! c := if i <=? j then (let! l := lessAt data j a in Ok (negb l)) else Ok false in
       if c then Ok (inl (j - 1)) else Ok (inr j)) j.

Definition partitionCmpFunc (data : list E) (a b pivot : Z) : res (list E * Z * bool) :=
  let! data := swap data a pivot in
  let! i := scanUp data a (a + 1) (b - 1) in
  let! j := scanDown data a i (b - 1) in
  if i >? j then
    let! data := swap data j a in
    Ok (data, j, true)
  else
  let! data := swap data i j in
  let! '(data, j) :=
    loop (S (Z.to_nat (b - a)))
      (fun '(data, i, j) =>
         let! i := scanUp data a i j in
         let! j := scanDown data a i j in
         if i >? j then Ok (inr (data, j)) else
         let! data := swap data i j in
         Ok (inl (data, i + 1, j - 1))) (data, i + 1, j - 1) in
  let! data := swap data j a in
  Ok (data, j, false).

(** [for i <= j && !(cmp(data[a], data[i]) < 0) { i++ }] *)
Definition scanUpEq (data : list E) (a i j : Z) : res Z :=
  loop (S (Z.to_nat (j - i + 1)))
    (fun i =>
       let! c := if i <=? j then (let! l := lessAt data a i in Ok (negb l)) else Ok false in
       if c then Ok (inl (i + 1)) else Ok (inr i)) i.

(** [for i <= j && cmp(data[a], data[j]) < 0 { j-- }] *)
Definition scanDownEq (data : list E) (a i j : Z) : res Z :=
  loop (S (Z.to_nat (j - i + 1)))
    (fun j =>
       let! c := if i <=? j then lessAt data a j else Ok false in
       if c then Ok (inl (j - 1)) else Ok (inr j)) j.

Definition partitionEqualCmpFunc (data : list E) (a b pivot : Z) : res (list E * Z) :=
  let! data := swap data a pivot in
  loop (S (Z.to_nat (b - a)))
    (fun '(data, i, j) =>
       let! i := scanUpEq data a i j in
       let! j := scanDownEq data a i j in
       if i >? j then Ok (inr (data, i)) else
       let! data := swap data i j in
       Ok (inl (data, i + 1, j - 1))) (data, a + 1, b - 1).

(** ** Partial insertion sort *)

(** [for i < b && !(cmp(data[i], data[i-1]) < 0) { i++ }] *)
Definition skipSorted (data : list E) (i b : Z) : res Z :=
  loop (S (Z.to_nat (b - i)))
    (fun i =>
       let! c := if i <? b then (let! l := lessAt data i (i - 1) in Ok (negb l)) else Ok false in
       if c then Ok (inl (i + 1)) else Ok (inr i)) i.

(** [for j := i - 1; j >= 1; j--], leaving the loop at the first pair in order *)
Definition shiftLeft (data : list E) (i : Z) : res (list E) :=
  loop (S (Z.to_nat i))
    (fun '(data, j) =>
       if j >=? 1 then
         let! less := lessAt data j (j - 1) in
         if negb less then Ok (inr data) else
         let! data := swap data j (j - 1) in
         Ok (inl (data, j - 1))
       else Ok (inr data)) (data, i - 1).

(** [for j := i + 1; j < b; j++], leaving the loop at the first pair in order *)
Definition shiftRight (data : list E) (i b : Z) : res (list E) :=
  loop (S (Z.to_nat (b - i)))
    (fun '(data, j) =>
       if j <? b then
         let! less := lessAt data j (j - 1) in
         if negb less then Ok (inr data) else
         let! data := swap data j (j - 1) in
         Ok (inl (data, j + 1))
       else Ok (inr data)) (data, i + 1).

Definition maxSteps : Z := 5.
Definition shortestShifting : Z := 50.

Definition partialInsertionSortCmpFunc (data : list E) (a b : Z) : res (list E * bool) :=
  loop (S (Z.to_nat maxSteps))
    (fun '(data, i, j) =>
       if negb (j <? maxSteps) then Ok (inr (data, false)) else
       let! i := skipSorted data i b in
       if i =? b then Ok (inr (data, true)) else
       if b - a <? shortestShifting then Ok (inr (data, false)) else
       let! data := swap data i (i - 1) in
       let! data := if i - a >=? 2 then shiftLeft data i else Ok data in
       let! data := if b - i >=? 2 then shiftRight data i b else Ok data in
       Ok (inl (data, i, j + 1))) (data, a + 1, 0).

(** ** Pivot selection and pattern breaking *)

Definition breakPatternsCmpFunc (data : list E) (a b : Z) : res (list E) :=
  let length := b - a in
  if length >=? 8 then
    let! modulus := nextPowerOfTwo length in
    loop 4
      (fun '(data, random, idx) =>
         if idx <=? a + Z.quot length 4 * 2 + 1 then
           let random := xorshift_Next random in
           let other := i64 (Z.land random (u64 (modulus - 1))) in
           let other := if other >=? length then other - length else other in
           let! data := swap data idx (a + other) in
           Ok (inl (data, random, idx + 1))
         else Ok (inr data)) (data, u64 length, a + Z.quot length 4 * 2 - 1)
  else Ok data.

(** The counter of swaps is returned beside the indices. *)
Definition order2CmpFunc (data : list E) (a b swaps : Z) : res (Z * Z * Z) :=
  let! c := lessAt data b a in
  if c then Ok (b, a, swaps + 1) else Ok (a, b, swaps).

Definition medianCmpFunc (data : list E) (a b c swaps : Z) : res (Z * Z) :=
  let! '(a, b, swaps) := order2CmpFunc data a b swaps in
  let! '(b, c, swaps) := order2CmpFunc data b c swaps in
  let! '(a, b, swaps) := order2CmpFunc data a b swaps in
  Ok (b, swaps).

Definition medianAdjacentCmpFunc (data : list E) (a swaps : Z) : res (Z * Z) :=
  medianCmpFunc data (a - 1) a (a + 1) swaps.

Definition shortestNinther : Z := 50.
Definition maxSwaps : Z := 4 * 3.

Definition choosePivotCmpFunc (data : list E) (a b : Z) : res (Z * sortedHint) :=
  let l := b - a in
  let swaps := 0 in
  let i := a + Z.quot l 4 * 1 in
  let j := a + Z.quot l 4 * 2 in
  let k := a + Z.quot l 4 * 3 in
  let! '(j, swaps) :=
    if l >=? 8 then
      let! '(i, j, k, swaps) :=
        if l >=? shortestNinther then
          let! '(i, swaps) := medianAdjacentCmpFunc data i swaps in
          let! '(j, swaps) := medianAdjacentCmpFunc data j swaps in
          let! '(k, swaps) := medianAdjacentCmpFunc data k swaps in
          Ok (i, j, k, swaps)
        else Ok (i, j, k, swaps) in
      medianCmpFunc data i j k swaps
    else Ok (j, swaps) in
  if swaps =? 0 then Ok (j, increasingHint)
  else if swaps =? maxSwaps then Ok (j, decreasingHint)
  else Ok (j, unknownHint).

Definition reverseRangeCmpFunc (data : list E) (a b : Z) : res (list E) :=
  loop (S (Z.to_nat (b - a)))
    (fun '(data, i, j) =>
       if i <? j then
         let! data := swap data i j in
         Ok (inl (data, i + 1, j - 1))
       else Ok (inr data)) (data, a, b - 1).

(** ** The quicksort loop

    One iteration either returns, continues with [a] moved past the elements
    equal to the pivot, or sorts the shorter side by a call and continues
    with the longer one. *)

Definition maxInsertion : Z := 12.

Definition is_hint (h : sortedHint) (k : sortedHint) : bool :=
  match h, k with
  | unknownHint, unknownHint | increasingHint, increasingHint
  | decreasingHint, decreasingHint => true
  | _, _ => false
  end.

Fixpoint pdqsortLoop (fuel : nat) (data : list E) (a b limit : Z)
    (wasBalanced wasPartitioned : bool) : res (list E) :=
  match fuel with
  | O => NoFuel
  | S fuel =>
    let length := b - a in
    if length <=? maxInsertion then insertionSortCmpFunc data a b else
    if limit =? 0 then heapSortCmpFunc data a b else
    let! '(data, limit) :=
      if negb wasBalanced then
        let! data := breakPatternsCmpFunc data a b in Ok (data, limit - 1)
      else Ok (data, limit) in
    let! '(pivot, hint) := choosePivotCmpFunc data a b in
    let! '(data, pivot, hint) :=
      if is_hint hint decreasingHint then
        let! data := reverseRangeCmpFunc data a b in
        Ok (data, (b - 1) - (pivot - a), increasingHint)
      else Ok (data, pivot, hint) in
    let! '(data, done) :=
      if wasBalanced && wasPartitioned && is_hint hint increasingHint
      then partialInsertionSortCmpFunc data a b else Ok (data, false) in
    if (done : bool) then Ok data else
    let! equal :=
      if a >? 0 then (let! l := lessAt data (a - 1) pivot in Ok (negb l)) else Ok false in
    if (equal : bool) then
      let! '(data, mid) := partitionEqualCmpFunc data a b pivot in
      pdqsortLoop fuel data mid b limit wasBalanced wasPartitioned
    else
    let! '(data, mid, alreadyPartitioned) := partitionCmpFunc data a b pivot in
    let wasPartitioned := alreadyPartitioned in
    let leftLen := mid - a in
    let rightLen := b - mid in
    let balanceThreshold := Z.quot length 8 in
    if leftLen <? rightLen then
      let wasBalanced := leftLen >=? balanceThreshold in
      let! data := pdqsortLoop fuel data a mid limit true true in
      pdqsortLoop fuel data (mid + 1) b limit wasBalanced wasPartitioned
    else
      let wasBalanced := rightLen >=? balanceThreshold in
      let! data := pdqsortLoop fuel data (mid + 1) b limit true true in
      pdqsortLoop fuel data a mid limit wasBalanced wasPartitioned
  end.

Definition pdqsortCmpFunc (data : list E) (a b limit : Z) : res (list E) :=
  pdqsortLoop (S (Z.to_nat (b - a))) data a b limit true true.

(** ** The stable sort *)

Definition swapRangeCmpFunc (data : list E) (a b n : Z) : res (list E) :=
  loop (S (Z.to_nat n))
    (fun '(data, i) =>
       if i <? n then
         let! data := swap data (a + i) (b + i) in
         Ok (inl (data, i + 1))
       else Ok (inr data)) (data, 0).

Definition rotateCmpFunc (data : list E) (a m b : Z) : res (list E) :=
  let! '(data, i) :=
    loop (S (Z.to_nat (b - a)))
      (fun '(data, i, j) =>
         if negb (i =? j) then
           if i >? j then
             let! data := swapRangeCmpFunc data (m - i) m j in
             Ok (inl (data, i - j, j))
           else
             let! data := swapRangeCmpFunc data (m - i) (m + j - i) i in
             Ok (inl (data, i, j - i))
         else Ok (inr (data, i))) (data, m - a, b - m) in
  swapRangeCmpFunc data (m - i) m i.

(** [for k := a; k < i-1; k++ { swap k, k+1 }] *)
Definition bubbleUp (data : list E) (a i : Z) : res (list E) :=
  loop (S (Z.to_nat (i - a)))
    (fun '(data, k) =>
       if k <? i - 1 then
         let! data := swap data k (k + 1) in
         Ok (inl (data, k + 1))
       else Ok (inr data)) (data, a).

(** [for k := m; k > i; k-- { swap k, k-1 }] *)
Definition bubbleDown (data : list E) (m i : Z) : res (list E) :=
  loop (S (Z.to_nat (m - i)))
    (fun '(data, k) =>
       if k >? i then
         let! data := swap data k (k - 1) in
         Ok (inl (data, k - 1))
       else Ok (inr data)) (data, m).

Fixpoint symMerge (fuel : nat) (data : list E) (a m b : Z) : res (list E) :=
  match fuel with
  | O => NoFuel
  | S fuel =>
    if m - a =? 1 then
      let! i := bisect (fun h => lessAt data h a) m b in
      bubbleUp data a i
    else if b - m =? 1 then
      let! i := bisect (fun h => let! l := lessAt data m h in Ok (negb l)) a m in
      bubbleDown data m i
    else
    let mid := midpoint a b in
    let n := i64 (mid + m) in
    let '(start, r) := if m >? mid then (n - b, mid) else (a, m) in
    let p := n - 1 in
    let! start := bisect (fun c => let! l := lessAt data (p - c) c in Ok (negb l)) start r in
    let end_ := n - start in
    let! data := if (start <? m) && (m <? end_) then rotateCmpFunc data start m end_ else Ok data in
    let! data := if (a <? start) && (start <? mid)
                 then symMerge fuel data a start mid else Ok data in
    if (mid <? end_) && (end_ <? b) then symMerge fuel data mid end_ b else Ok data
  end.

Definition symMergeCmpFunc (data : list E) (a m b : Z) : res (list E) :=
  symMerge (S (Z.to_nat (b - a))) data a m b.

(** [for b <= n { insertionSort(data, a, b); a = b; b += blockSize }] *)
Definition sortBlocks (data : list E) (n blockSize : Z) : res (list E * Z) :=
  loop (S (Z.to_nat n))
    (fun '(data, a, b) =>
       if b <=? n then
         let! data := insertionSortCmpFunc data a b in
         Ok (inl (data, b, i64 (b + blockSize)))
       else Ok (inr (data, a))) (data, 0, blockSize).

(** One pass of merges of neighbouring blocks. *)
Definition mergeBlocks (data : list E) (n blockSize : Z) : res (list E) :=
  let! '(data, a) :=
    loop (S (Z.to_nat n))
      (fun '(data, a, b) =>
         if b <=? n then
           let! data := symMergeCmpFunc data a (a + blockSize) b in
           Ok (inl (data, b, i64 (b + 2 * blockSize)))
         else Ok (inr (data, a))) (data, 0, i64 (2 * blockSize)) in
  let m := i64 (a + blockSize) in
  if m <? n then symMergeCmpFunc data a m n else Ok data.

Definition stableCmpFunc (data : list E) (n : Z) : res (list E) :=
  let blockSize := 20 in
  let! '(data, a) := sortBlocks data n blockSize in
  let! data := insertionSortCmpFunc data a n in
  loop (S (Z.to_nat n))
    (fun '(data, blockSize) =>
       if blockSize <? n then
         let! data := mergeBlocks data n blockSize in
         Ok (inl (data, i64 (blockSize * 2)))
       else Ok (inr data)) (data, blockSize).

(** ** Entry points *)

Definition SortFunc (x : list E) : res (list E) :=
  let n := len x in
  let! limit := Len 64 (u64 n) in
  pdqsortCmpFunc x 0 n limit.

Definition SortStableFunc (x : list E) : res (list E) := stableCmpFunc x (len x).

Definition IsSortedFunc (x : list E) : res bool :=
  loop (S (length x))
    (fun i =>
       if i >? 0 then
         let! l := lessAt x i (i - 1) in
         if l then Ok (inr false) else Ok (inl (i - 1))
       else Ok (inr true)) (len x - 1).

Definition MinFunc (x : list E) : res E :=
  if len x <? 1 then Panic else
  let! m := idx x 0 in
  loop (S (length x))
    (fun '(m, i) =>
       if i <? len x then
         let! y := idx x i in
         Ok (inl (if cmp y m <? 0 then y else m, i + 1))
       else Ok (inr m)) (m, 1).

Definition MaxFunc (x : list E) : res E :=
  if len x <? 1 then Panic else
  let! m := idx x 0 in
  loop (S (length x))
    (fun '(m, i) =>
       if i <? len x then
         let! y := idx x i in
         Ok (inl (if cmp y m >? 0 then y else m, i + 1))
       else Ok (inr m)) (m, 1).
End Sorting.

Example sort_examples :
  SortFunc Z.sub [5; 2; 9; 1; 5; 6; 14; 13; 12; 11; 10; 20; 19; 18; 17; 16; 15; 3]
  = Ok [1; 2; 3; 5; 5; 6; 9; 10; 11; 12; 13; 14; 15; 16; 17; 18; 19; 20] /\
  SortStableFunc (fun x y => x / 10 - y / 10)
    [55; 21; 99; 12; 54; 67; 14; 13; 92; 11; 10; 20; 29; 28; 17; 16; 15; 30; 53; 51; 5; 8; 52; 1]
  = Ok [5; 8; 1; 12; 14; 13; 11; 10; 17; 16; 15; 21; 20; 29; 28; 30; 55; 54; 53; 51; 52; 67; 99; 92].
Proof. split; vm_compute; reflexivity. Qed.
