(* ===== verification/Segments.v ===== *)
(** * Orders on the positions of a slice

    What the proofs about package slices share: strict weak orders given by a
    comparison function, the order they induce on the positions of a slice,
    the effect of an exchange on it, and [shuffle], the reordering of a
    segment by exchanges that all the sorting routines perform. *)
From Stdlib Require Import ZArith Lia Permutation.
From stdpp Require Import base numbers list.
From S2P Require Import Prelude Bits Search Sort.

(** "cmp must implement a strict weak ordering", the contract of SortFunc. *)
Class StrictWeak {E : Type} (cmp : E -> E -> Z) : Prop := {
  sw_irrefl x : (cmp x x <? 0) = false;
  sw_trans x y z : (cmp x y <? 0) = true -> (cmp y z <? 0) = true -> (cmp x z <? 0) = true;
  sw_ntrans x y z : (cmp x y <? 0) = false -> (cmp y z <? 0) = false -> (cmp x z <? 0) = false;
}.

#[export] Instance sub_StrictWeak : StrictWeak Z.sub.
Proof. split; intros *; rewrite ?Z.ltb_lt, ?Z.ltb_ge; lia. Qed.

(** Comparing by a key. *)
#[export] Instance key_StrictWeak {E K} (f : E -> K) (cmp : K -> K -> Z) :
  StrictWeak cmp -> StrictWeak (fun x y => cmp (f x) (f y)).
Proof. intros []. split; intros *; eauto. Qed.

(** [data[i]], without the panic. *)
Definition at_ {E} (d : list E) (i : Z) : option E := d !! Z.to_nat i.
Definition xchg {E} (d : list E) (i j : Z) : list E := exchange d (Z.to_nat i) (Z.to_nat j).
Definition transpose (i j k : Z) : Z := if k =? j then i else if k =? i then j else k.

Lemma at_in {E} (d : list E) i : 0 <= i < len d -> exists x, at_ d i = Some x.
Proof. intros. apply lookup_lt_is_Some_2. unfold len in *. lia. Qed.

Lemma at_xchg {E} (d : list E) i j k :
  0 <= i < len d -> 0 <= j < len d -> 0 <= k -> at_ (xchg d i j) k = at_ d (transpose i j k).
Proof.
  unfold at_, xchg, transpose, len. intros. rewrite exchange_lookup by lia.
  destruct (Z.eqb_spec k j); [by rewrite decide_True by lia|]. rewrite decide_False by lia.
  destruct (Z.eqb_spec k i); [by rewrite decide_True by lia|]. by rewrite decide_False by lia.
Qed.

Lemma len_xchg {E} (d : list E) i j : len (xchg d i j) = len d.
Proof. unfold len, xchg. by rewrite exchange_length. Qed.

Lemma transpose_in i j k (a b : Z) :
  a <= i < b -> a <= j < b -> a <= k < b -> a <= transpose i j k < b.
Proof. unfold transpose. zcases. Qed.

Lemma swap_returns {E} (d : list E) i j (Q : list E -> Prop) :
  0 <= i < len d -> 0 <= j < len d -> Q (xchg d i j) -> swap d i j ⇓ Q.
Proof. intros. by rewrite swap_Ok. Qed.

(** ** Shuffles of a segment *)

Inductive shuffle {E} (a b : Z) : list E -> list E -> Prop :=
| shuffle_refl d : shuffle a b d d
| shuffle_step d i j d' :
    a <= i < b -> a <= j < b -> 0 <= i < len d -> 0 <= j < len d ->
    shuffle a b (xchg d i j) d' -> shuffle a b d d'.

(** All the elements of the segment exist and satisfy [P]. *)
Definition allseg {E} (P : E -> Prop) (a b : Z) (d : list E) : Prop :=
  forall k, a <= k < b -> exists x, at_ d k = Some x /\ P x.

Section Shuffle.
Context {E : Type}.
Implicit Types d : list E.

Lemma shuffle_trans a b d1 d2 d3 : shuffle a b d1 d2 -> shuffle a b d2 d3 -> shuffle a b d1 d3.
Proof. induction 1 as [|d i j d']; [done|]. intros. apply (shuffle_step _ _ _ i j); auto. Qed.

Lemma shuffle_widen a b a' b' d d' : a' <= a -> b <= b' -> shuffle a b d d' -> shuffle a' b' d d'.
Proof.
  intros Ha Hb. induction 1 as [|d i j d']; [constructor|].
  apply (shuffle_step _ _ _ i j); auto; lia.
Qed.

Lemma shuffle_snoc a b d d' i j :
  shuffle a b d d' -> a <= i < b -> a <= j < b -> 0 <= i < len d' -> 0 <= j < len d' ->
  shuffle a b d (xchg d' i j).
Proof.
  intros H ? ? ? ?. eapply shuffle_trans; [done|].
  apply (shuffle_step _ _ _ i j); auto. constructor.
Qed.

Lemma shuffle_len a b d d' : shuffle a b d d' -> len d' = len d.
Proof. induction 1 as [|????????? IH]; [done|]. by rewrite IH, len_xchg. Qed.

Lemma shuffle_Permutation a b d d' : shuffle a b d d' -> Permutation d' d.
Proof. induction 1 as [|????????? IH]; [done|]. rewrite IH. apply exchange_Permutation. Qed.

Lemma shuffle_outside a b d d' k :
  0 <= k -> ~ a <= k < b -> shuffle a b d d' -> at_ d' k = at_ d k.
Proof.
  intros Hk0 Hk. induction 1 as [|d i j d' Hi Hj Hi' Hj' Hs IH]; [done|]. rewrite IH, at_xchg by lia.
  unfold transpose. zcases. done.
Qed.

Lemma shuffle_all (P : E -> Prop) a b d d' :
  0 <= a -> shuffle a b d d' -> allseg P a b d -> allseg P a b d'.
Proof.
  intros Ha. induction 1 as [|d i j d' Hi Hj Hi' Hj' Hs IH]; [done|]. intros HP. apply IH. intros k Hk.
  destruct (HP (transpose i j k)) as (x & Hx & Px); [by apply transpose_in|].
  exists x. rewrite at_xchg by lia. done.
Qed.

(** A property of a segment that contains, or avoids, the shuffled one. *)
Lemma shuffle_all_in (P : E -> Prop) a b a' b' d d' :
  0 <= a' <= a -> b <= b' -> shuffle a b d d' -> allseg P a' b' d -> allseg P a' b' d'.
Proof. intros ? ? H. apply shuffle_all; [lia|]. eapply shuffle_widen; [| |done]; lia. Qed.

Lemma shuffle_all_out (P : E -> Prop) a b a' b' d d' :
  0 <= a' -> b' <= a \/ b <= a' -> shuffle a b d d' -> allseg P a' b' d -> allseg P a' b' d'.
Proof.
  intros ? ? H HP k Hk. rewrite (shuffle_outside a b d d') by (done || lia). by apply HP.
Qed.

Lemma allseg_mono (P Q : E -> Prop) a b a' b' d :
  a <= a' -> b' <= b -> (forall x, P x -> Q x) -> allseg P a b d -> allseg Q a' b' d.
Proof. intros ? ? HPQ H k Hk. destruct (H k) as (x & Hx & Px); [lia|]. eauto. Qed.
End Shuffle.

#[export] Hint Resolve shuffle_refl shuffle_trans shuffle_snoc : gostd.
#[export] Hint Rewrite @len_xchg : gostd_len.

(** ** The order on positions *)

Section Order.
Context {E : Type} (cmp : E -> E -> Z) `{SW : !StrictWeak cmp}.
Implicit Types d : list E.

Definition less (x y : E) : bool := cmp x y <? 0.
Definition le (x y : E) : Prop := less y x = false.
Definition lt (x y : E) : Prop := less x y = true.

Lemma le_refl x : le x x.
Proof. apply sw_irrefl. Qed.
Lemma le_trans x y z : le x y -> le y z -> le x z.
Proof. unfold le, less. intros H1 H2. exact (sw_ntrans _ _ _ H2 H1). Qed.
Lemma lt_trans x y z : lt x y -> lt y z -> lt x z.
Proof. unfold lt, less. apply sw_trans. Qed.
Lemma lt_le x y : lt x y -> le x y.
Proof.
  unfold lt, le, less. intros H. destruct (cmp y x <? 0) eqn:E1; [|done].
  pose proof (sw_trans _ _ _ H E1). by rewrite sw_irrefl in H0.
Qed.
Lemma not_lt_le x y : less x y = false -> le y x.
Proof. done. Qed.
Lemma lt_le_trans x y z : lt x y -> le y z -> lt x z.
Proof.
  unfold lt, le, less. intros H1 H2. destruct (cmp x z <? 0) eqn:E1; [done|].
  by rewrite (sw_ntrans _ _ _ E1 H2) in H1.
Qed.
Lemma le_lt_trans x y z : le x y -> lt y z -> lt x z.
Proof.
  unfold lt, le, less. intros H1 H2. destruct (cmp x z <? 0) eqn:E1; [done|].
  by rewrite (sw_ntrans _ _ _ H1 E1) in H2.
Qed.

(** [leA d p q]: both positions exist and hold elements in order. *)
Definition leA d (p q : Z) : Prop :=
  exists x y, at_ d p = Some x /\ at_ d q = Some y /\ le x y.
Definition sorted (a b : Z) d : Prop := forall p q, a <= p <= q -> q < b -> leA d p q.

Lemma leA_refl d p : 0 <= p < len d -> leA d p p.
Proof. intros [x Hx]%at_in. exists x, x. auto using le_refl. Qed.

Lemma leA_trans d p q r : leA d p q -> leA d q r -> leA d p r.
Proof.
  intros (x & y & Hx & Hy & H1) (y' & z & Hy' & Hz & H2). simplify_eq.
  exists x, z. eauto using le_trans.
Qed.

Lemma leA_xchg d i j p q :
  0 <= i < len d -> 0 <= j < len d -> 0 <= p -> 0 <= q ->
  leA d (transpose i j p) (transpose i j q) -> leA (xchg d i j) p q.
Proof. intros Hi Hj Hp Hq. unfold leA. by rewrite !at_xchg. Qed.

Lemma leA_at d d' p q : at_ d' p = at_ d p -> at_ d' q = at_ d q -> leA d p q -> leA d' p q.
Proof. unfold leA. by intros -> ->. Qed.

(** A comparison made by the code, with what each outcome tells. *)
Lemma lessAt_spec d i j (Q : bool -> Prop) :
  0 <= i < len d -> 0 <= j < len d ->
  (leA d i j -> Q true) -> (leA d j i -> Q false) -> lessAt cmp d i j ⇓ Q.
Proof.
  intros Hi Hj HT HF. destruct (at_in d i) as [x Hx]; [done|]. destruct (at_in d j) as [y Hy]; [done|].
  unfold lessAt. rewrite (idx_Ok d i x), (idx_Ok d j y) by (done || lia). cbn [rbind returns].
  destruct (cmp x y <? 0) eqn:C.
  - apply HT. exists x, y. split; [done|]. split; [done|]. by apply lt_le.
  - apply HF. by exists y, x.
Qed.

(** The same, on the elements compared. *)
Lemma lessAt_elem d i j x y (Q : bool -> Prop) :
  0 <= i -> 0 <= j -> at_ d i = Some x -> at_ d j = Some y -> Q (less x y) ->
  lessAt cmp d i j ⇓ Q.
Proof.
  intros Hi Hj Hx Hy HQ. unfold lessAt. by rewrite (idx_Ok d i x), (idx_Ok d j y).
Qed.

Lemma sorted_sub a b a' b' d : a <= a' -> b' <= b -> sorted a b d -> sorted a' b' d.
Proof. intros ? ? H p q ? ?. apply H; lia. Qed.

Lemma sorted_short a b d : 0 <= a -> b <= len d -> b <= a + 1 -> sorted a b d.
Proof. intros ? ? ? p q ? ?. replace q with p by lia. apply leA_refl. lia. Qed.

Lemma sorted_outside a b a' b' d d' :
  0 <= a' -> b' <= a \/ b <= a' -> shuffle a b d d' -> sorted a' b' d -> sorted a' b' d'.
Proof.
  intros ? ? Hs H p q ? ?. apply (leA_at d); [| |by apply H];
    by apply (shuffle_outside a b); [lia|lia|].
Qed.

(** Sorted neighbours suffice. *)
Lemma sorted_neighbours a b d :
  0 <= a -> b <= len d -> (forall q, a < q < b -> leA d (q - 1) q) -> sorted a b d.
Proof.
  intros Ha Hb H p q Hp Hq. replace q with (p + Z.of_nat (Z.to_nat (q - p))) in * by lia.
  revert Hq. induction (Z.to_nat (q - p)) as [|n IH]; intros Hq.
  - rewrite Z.add_0_r. apply leA_refl. lia.
  - eapply leA_trans; [apply IH; lia|]. replace (p + Z.of_nat n) with (p + Z.of_nat (S n) - 1) by lia.
    apply H. lia.
Qed.

(** Two sorted segments around a position that separates them. *)
Lemma sorted_join a m b d p :
  at_ d m = Some p -> a <= m < b -> 0 <= a -> b <= len d ->
  sorted a m d -> sorted (m + 1) b d ->
  allseg (fun x => le x p) a m d -> allseg (fun x => le p x) (m + 1) b d -> sorted a b d.
Proof.
  intros Hp Hm Ha Hb Hl Hr Pl Pr. apply sorted_neighbours; [done|done|]. intros q Hq.
  destruct (Z.lt_ge_cases q m); [apply Hl; lia|].
  destruct (decide (q = m)) as [->|].
  { destruct (Pl (m - 1)) as (x & Hx & ?); [lia|]. exists x, p. auto. }
  destruct (decide (q = m + 1)) as [->|].
  { destruct (Pr (m + 1)) as (x & Hx & ?); [lia|]. exists p, x.
    replace (m + 1 - 1) with m by lia. auto. }
  apply Hr; lia.
Qed.
End Order.

#[export] Hint Resolve le_refl le_trans lt_le leA_refl : gostd.

(** Settles [leA] after an exchange by computing the transposition on each
    arrangement of the positions. *)
Ltac leA_xchg_tac :=
  apply leA_xchg; [first [lia|zdm] ..|]; unfold transpose;
  repeat (match goal with |- context [?x =? ?y] => destruct (Z.eqb_spec x y) end;
          try lia).
