(* ===== verification/PdqSort.v ===== *)
(** * Package slices: correctness of the pattern-defeating quicksort

    Every routine of src/slices/zsortanyfunc.go that the unstable sort uses
    stays inside its segment, only exchanges elements of it, and establishes
    the order its caller relies on.  [pdqsort] keeps the invariant that the
    element before the segment is not greater than any element of it, which
    is what makes the equal-elements partition, and the leftward shifting of
    the partial insertion sort, safe. *)
From Stdlib Require Import ZArith Lia Permutation.
From stdpp Require Import base numbers list.
From S2P Require Import Prelude Bits Search Sort Segments.

Section Pdq.
Context {E : Type} (cmp : E -> E -> Z) `{SW : !StrictWeak cmp}.
Implicit Types d : list E.

Local Abbreviation leA := (leA cmp).
Local Abbreviation sorted := (sorted cmp).

(** ** Insertion sort *)

Lemma insertInner_spec d a i :
  0 <= a <= i -> i < len d -> sorted a i d ->
  insertInner cmp d a i ⇓ (fun d' => shuffle a (i + 1) d d' /\ sorted a (i + 1) d').
Proof.
  intros Ha Hi Hs. unfold insertInner.
  apply (loop_returns (fun '(d', j) => shuffle a (i + 1) d d' /\ a <= j <= i /\
      forall p q, a <= p <= q -> q <= i -> q <> j \/ p = q -> leA d' p q)
    (fun '(d', j) => j - a)); [|repeat split|lia|lia].
  - intros [d' j] (Hsh & Hj & Hle). pose proof (shuffle_len _ _ _ _ Hsh) as Hl.
    assert (Hdone : leA d' (j - 1) j \/ j = a -> sorted a (i + 1) d').
    { intros Hc. apply sorted_neighbours; [done|lia|lia|]. intros q Hq.
      destruct (decide (q = j)) as [->|]; [destruct Hc; [done|lia]|]. apply Hle; lia. }
    apply returns_bind. destruct (Z.gtb_spec j a) as [Hgt|].
    + apply (lessAt_spec cmp); [lia|lia| |].
      * intros Hlt. cbn. apply returns_bind, swap_returns; [lia|lia|]. split; [|lia].
        split; [apply shuffle_snoc; auto; lia|]. split; [lia|]. intros p q Hp Hq Hne.
        leA_xchg_tac; try done; apply Hle; lia.
      * intros Hge. cbn. auto.
    + cbn. split; [done|]. apply Hdone. lia.
  - constructor.
  - lia.
  - lia.
  - intros p q Hp Hq [Hne| ->]; [apply Hs; lia|apply leA_refl; [done|lia]].
Qed.

Lemma insertionSort_spec d a b :
  0 <= a -> a <= b <= len d ->
  insertionSortCmpFunc cmp d a b ⇓ (fun d' => shuffle a b d d' /\ sorted a b d').
Proof.
  intros Ha Hb. unfold insertionSortCmpFunc.
  destruct (decide (b = a)) as [->|].
  { rewrite Z.sub_diag. simpl. zcase; [lia|]. cbn. split; [constructor|]. intros ?; lia. }
  apply (loop_returns (fun '(d', i) => shuffle a b d d' /\ a < i <= b /\ sorted a i d')
    (fun '(d', i) => b - i)); [| |lia|lia].
  - intros [d' i] (Hsh & Hi & Hs). pose proof (shuffle_len _ _ _ _ Hsh) as Hl.
    destruct (Z.ltb_spec i b).
    + eapply returns_bind_mono; [apply insertInner_spec; [lia|lia|done]|].
      intros d2 [Hsh2 Hs2]. split; [|lia]. split; [|split; [lia|done]].
      eapply shuffle_trans; [done|]. eapply shuffle_widen; [| |done]; lia.
    + cbn. split; [done|]. by replace b with i by lia.
  - split; [constructor|]. split; [lia|]. apply sorted_short; [done|lia|lia|lia].
Qed.

(** ** Heapsort *)

(** The children of every node from [lo] on, within the first [hi] elements of
    the segment at [first], are not above it.  [heap_but] lets one node be
    out of order with its children. *)
Definition parent (c : Z) : Z := (c - 1) / 2.
Definition heap_but (root lo hi first : Z) d : Prop :=
  (forall c, 0 < c < hi -> lo <= parent c -> parent c <> root ->
     leA d (first + c) (first + parent c)) /\
  (forall c, 0 < c < hi -> parent c = root -> lo <= parent root -> 0 < root ->
     leA d (first + c) (first + parent root)).
Definition heap (lo hi first : Z) d : Prop :=
  forall c, 0 < c < hi -> lo <= parent c -> leA d (first + c) (first + parent c).

Lemma heap_but_done root lo hi first d :
  heap_but root lo hi first d ->
  (forall c, 0 < c < hi -> parent c = root -> leA d (first + c) (first + root)) ->
  heap lo hi first d.
Proof.
  intros [H1 _] Hc c Hc1 Hlo. destruct (decide (parent c = root)) as [<-|]; [by apply Hc|auto].
Qed.

(** The exchange of a node with its largest child moves the disorder down. *)
Lemma heap_but_down root child lo hi first d :
  0 <= lo <= root -> 0 <= first -> first + hi <= len d -> 0 < child < hi -> parent child = root ->
  (forall c, 0 < c < hi -> parent c = root -> leA d (first + c) (first + child)) ->
  leA d (first + root) (first + child) ->
  heap_but root lo hi first d ->
  heap_but child lo hi first (xchg d (first + root) (first + child)).
Proof.
  unfold heap_but, parent. intros Hlo Hf Hhi Hc Hp Hmax Hle [H1 H2]. split.
  - intros c Hc1 Hlo1 Hne. destruct (decide (c = child)) as [->|]; [|destruct (decide (c = root)) as [->|]].
    + rewrite Hp. leA_xchg_tac; try done; zdm.
    + leA_xchg_tac; try zdm. apply H2; [done|zdm|zdm|zdm].
    + destruct (decide ((c - 1) / 2 = root)) as [Er|].
      * rewrite Er. leA_xchg_tac; try zdm. by apply Hmax.
      * leA_xchg_tac; try zdm. apply H1; zdm.
  - intros c Hc1 Hpc _ _. rewrite Hp. assert (child < c) by zdm. leA_xchg_tac; try zdm.
    rewrite <- Hpc. apply H1; zdm.
Qed.

Lemma siftDown_spec d lo hi first :
  0 <= lo -> 0 <= first -> lo <= hi -> first + hi <= len d -> hi < 2 ^ 62 -> heap (lo + 1) hi first d ->
  siftDownCmpFunc cmp d lo hi first ⇓ (fun d' =>
    shuffle first (first + hi) d d' /\ heap lo hi first d').
Proof.
  intros Hlo Hf Hlh Hhi Hmax Hh. unfold siftDownCmpFunc.
  apply (loop_returns (fun '(d', root) => shuffle first (first + hi) d d' /\ lo <= root <= hi /\
      heap_but root lo hi first d') (fun '(d', root) => hi - root)); [| |lia|lia].
  - intros [d' root] (Hsh & Hr & Hb). pose proof (shuffle_len _ _ _ _ Hsh) as Hl.
    rewrite i64_id by lia. destruct (Z.geb_spec (2 * root + 1) hi) as [Hge|Hlt].
    { cbn. split; [done|]. eapply heap_but_done; [done|]. unfold parent. intros; zdm. }
    set (pick := fun c : bool => if c then 2 * root + 1 + 1 else 2 * root + 1).
    apply (returns_bind_mono _ _ (fun c => pick c < hi /\ forall k, 0 < k < hi -> parent k = root ->
      leA d' (first + k) (first + pick c))).
    { assert (forall k, 0 < k < hi -> parent k = root -> k = 2 * root + 1 \/ k = 2 * root + 2)
        as Hk by (unfold parent; intros; zdm).
      destruct (Z.ltb_spec (2 * root + 1 + 1) hi).
      - apply (lessAt_spec cmp); [lia|lia| |]; intros Hle; (split; [cbn; lia|]); intros k Hk1 Hk2;
          destruct (Hk k Hk1 Hk2) as [-> | ->]; unfold pick; rewrite ?Z.add_assoc in *;
          replace (first + 2 * root + 2) with (first + 2 * root + 1 + 1) in * by lia;
          (done || (apply leA_refl; [done|lia])).
      - cbn. split; [lia|]. intros k Hk1 Hk2. destruct (Hk k Hk1 Hk2) as [-> | ->]; [|lia].
        apply leA_refl; [done|lia]. }
    intros c [Hc Hbest]. fold (pick c). set (child := pick c) in *.
    assert (Hpc : 0 < child /\ parent child = root) by (unfold child, pick, parent; destruct c; zdm).
    apply returns_bind, (lessAt_spec cmp); [lia|lia| |]; intros Hle; cbn.
    + apply returns_bind, swap_returns; [lia|lia|].
      split; [|unfold child, pick; destruct c; lia].
      split; [apply shuffle_snoc; auto; lia|]. split; [unfold child, pick; destruct c; lia|].
      apply heap_but_down; auto; lia.
    + split; [done|]. eapply heap_but_done; [done|]. intros k Hk1 Hk2.
      eapply leA_trans; [done| by apply Hbest | done].
  - split; [constructor|]. split; [lia|]. split; unfold parent in *; intros.
    + apply Hh; unfold parent; lia.
    + zdm.
Qed.

Lemma heap_root hi first d k :
  0 <= first -> first + hi <= len d -> heap 0 hi first d -> 0 <= k < hi ->
  leA d (first + k) first.
Proof.
  intros Hf Hhi Hh [Hk0 Hk]. revert k Hk0 Hk. refine (Zlt_0_ind (fun k => k < hi -> _) _).
  intros k IH Hk0 Hk.
  destruct (decide (k = 0)) as [->|]; [rewrite Z.add_0_r; apply leA_refl; [done|lia]|].
  eapply leA_trans; [done|apply Hh; [lia|unfold parent; zdm]|].
  apply IH; unfold parent; zdm.
Qed.

(** Positions from [b] on are above everything before them; they stay so when
    the front is shuffled. *)
Definition settled (a b c : Z) d : Prop := forall p q, a <= p <= q -> b <= q < c -> leA d p q.

Lemma shuffle_settled a b c d d' :
  0 <= a -> settled a b c d -> shuffle a b d d' -> settled a b c d'.
Proof.
  intros Ha H Hsh p q Hp Hq. destruct (Z.lt_ge_cases p b).
  2: { apply (leA_at cmp d); [| |apply H; lia]; apply (shuffle_outside a b); (done || lia). }
  destruct (H p q) as (_ & y & _ & Hy & _); [done|done|].
  assert (Hall : allseg (fun x => le cmp x y) a b d).
  { intros k Hk. destruct (H k q) as (x & y' & Hx & Hy' & ?); [lia|done|].
    simplify_eq. eauto. }
  apply (shuffle_all _ _ _ _ d' Ha Hsh) in Hall as Hall'. destruct (Hall' p) as (x & Hx & ?); [lia|].
  exists x, y. by rewrite (shuffle_outside a b d d' q) by (done || lia).
Qed.

Lemma heapify_spec d hi first :
  0 <= hi -> 0 <= first -> first + hi <= len d -> hi < 2 ^ 62 ->
  loop (S (S (Z.to_nat hi)))
    (fun '(data, i) =>
       if i >=? 0 then
         let! data := siftDownCmpFunc cmp data i hi first in
         Ok (inl (data, i - 1))
       else Ok (inr data)) (d, Z.quot (hi - 1) 2)
  ⇓ (fun d' => shuffle first (first + hi) d d' /\ heap 0 hi first d').
Proof.
  intros Hhi Hf Hl Hmax.
  assert (Hq : hi - 1 <= 2 * Z.quot (hi - 1) 2 + 1 /\ 0 <= Z.quot (hi - 1) 2 <= hi).
  { destruct (decide (hi = 0)) as [->|]; [change (Z.quot (0 - 1) 2) with 0; lia|].
    rewrite Z.quot_div_nonneg by lia. zdm. }
  apply (loop_returns (fun '(d', i) => shuffle first (first + hi) d d' /\ -1 <= i <= hi /\
    heap (i + 1) hi first d') (fun '(d', i) => i + 1)); [| |lia|lia].
  - intros [d' i] (Hsh & Hi & Hh). pose proof (shuffle_len _ _ _ _ Hsh) as Hl'.
    destruct (Z.geb_spec i 0).
    + eapply returns_bind_mono; [apply siftDown_spec; (done || lia)|].
      intros d2 [Hsh2 Hh2]. split; [|lia]. split; [eauto with gostd|]. split; [lia|].
      by replace (i - 1 + 1) with i by lia.
    + cbn. split; [done|]. by replace 0 with (i + 1) by lia.
  - split; [constructor|]. split; [lia|]. intros c Hc. unfold parent. zdm.
Qed.

Lemma heapSort_spec d a b :
  0 <= a -> a <= b <= len d -> b - a < 2 ^ 62 ->
  heapSortCmpFunc cmp d a b ⇓ (fun d' => shuffle a b d d' /\ sorted a b d').
Proof.
  intros Ha Hb Hmax. unfold heapSortCmpFunc.
  set (hi := b - a) in *. eapply returns_bind_mono; [apply heapify_spec; lia|].
  intros d1 [Hsh1 Hh1]. pose proof (shuffle_len _ _ _ _ Hsh1) as Hl1.
  apply (loop_returns (fun '(d', i) => shuffle a (a + hi) d d' /\ -1 <= i < hi /\ heap 0 (i + 1) a d' /\
      settled a (a + (i + 1)) (a + hi) d') (fun '(d', i) => i + 1)); [| |lia|lia].
  - intros [d' i] (Hsh & Hi & Hh & Hset). pose proof (shuffle_len _ _ _ _ Hsh) as Hl'.
    destruct (Z.geb_spec i 0) as [Hge|Hlt].
    + apply returns_bind, swap_returns; [lia|lia|].
      assert (Hh' : heap (0 + 1) i a (xchg d' a (a + i))).
      { intros c Hc Hp. unfold parent in *. leA_xchg_tac; try zdm. apply Hh; unfold parent; zdm. }
      assert (Hset' : settled a (a + i) (a + hi) (xchg d' a (a + i))).
      { intros p q Hp Hq. destruct (decide (q = a + i)) as [->|].
        - leA_xchg_tac; [apply leA_refl; [done|lia]|apply (heap_root (i + 1)); (done || lia)|].
          replace p with (a + (p - a)) by lia. apply (heap_root (i + 1)); (done || lia).
        - leA_xchg_tac; apply Hset; lia. }
      eapply returns_bind_mono; [apply siftDown_spec; len_simpl; (done || lia)|].
      intros d2 [Hsh2 Hh2]. split; [|lia]. replace (i - 1 + 1) with i by lia.
      split; [|split; [lia|split; [done|]]].
      * eapply shuffle_trans; [apply (shuffle_snoc _ _ _ d' a (a + i)); (done || lia)|].
        eapply shuffle_widen; [| |done]; lia.
      * by apply (shuffle_settled _ _ _ _ _ Ha Hset').
    + cbn. replace b with (a + hi) by lia. split; [done|]. intros p q Hp Hq. apply Hset; lia.
  - split; [done|]. split; [lia|]. replace (hi - 1 + 1) with hi by lia.
    split; [done|]. intros p q Hp Hq. lia.
Qed.

(** ** Partitioning

    Both partitions move the elements on which a test [L] is true to the left
    and the others to the right, with two scans that meet. *)

Lemma scan_up_spec (X : Z -> res bool) (P : Z -> bool) i j :
  i <= j + 1 -> (forall k, i <= k <= j -> X k = Ok (P k)) ->
  loop (S (Z.to_nat (j - i + 1)))
    (fun i => let! c := if i <=? j then X i else Ok false in
              if c then Ok (inl (i + 1)) else Ok (inr i)) i
  ⇓ (fun i' => i <= i' <= j + 1 /\ (forall k, i <= k < i' -> P k = true) /\
               (i' <= j -> P i' = false)).
Proof.
  intros Hij HX. apply (loop_returns (fun i' => i <= i' <= j + 1 /\ forall k, i <= k < i' -> P k = true)
    (fun i' => j + 1 - i')); [|split; [lia|intros; lia]|lia|lia].
  intros i' [Hi' HP]. zcase; [rewrite HX by lia; cbn; destruct (P i') eqn:Ei; cbn|cbn].
  - split; [|lia]. split; [lia|]. intros k Hk. destruct (decide (k = i')) as [->|]; [done|apply HP; lia].
  - auto.
  - split; [done|]. split; [done|]. lia.
Qed.

Lemma scan_down_spec (X : Z -> res bool) (P : Z -> bool) i j :
  i <= j + 1 -> (forall k, i <= k <= j -> X k = Ok (P k)) ->
  loop (S (Z.to_nat (j - i + 1)))
    (fun j => let! c := if i <=? j then X j else Ok false in
              if c then Ok (inl (j - 1)) else Ok (inr j)) j
  ⇓ (fun j' => i <= j' + 1 <= j + 1 /\ (forall k, j' < k <= j -> P k = true) /\
               (i <= j' -> P j' = false)).
Proof.
  intros Hij HX. apply (loop_returns (fun j' => i <= j' + 1 <= j + 1 /\ forall k, j' < k <= j -> P k = true)
    (fun j' => j' + 1 - i)); [|split; [lia|intros; lia]|lia|lia].
  intros j' [Hi' HP]. zcase; [rewrite HX by lia; cbn; destruct (P j') eqn:Ei; cbn|cbn].
  - split; [|lia]. split; [lia|]. intros k Hk. destruct (decide (k = j')) as [->|]; [done|apply HP; lia].
  - auto.
  - split; [done|]. split; [done|]. lia.
Qed.

Definition parted (L : E -> bool) (a i j b : Z) d : Prop :=
  allseg (fun x => L x = true) a i d /\ allseg (fun x => L x = false) (j + 1) b d.

Lemma parted_swap L a i j b d :
  0 <= a <= i -> i < j < b -> b <= len d -> parted L a i j b d ->
  (exists x, at_ d i = Some x /\ L x = false) -> (exists x, at_ d j = Some x /\ L x = true) ->
  parted L a (i + 1) (j - 1) b (xchg d i j).
Proof.
  intros Ha Hij Hb [Hl Hr] Hi Hj. split; intros k Hk; rewrite at_xchg by lia; unfold transpose.
  - zcases; [done|]. apply Hl. lia.
  - zcases; [done|]. apply Hr. lia.
Qed.

(** What the two scans establish. *)
Definition scanned (L : E -> bool) (a i j b i' j' : Z) d : Prop :=
  i <= i' /\ i' <= j' + 1 /\ j' <= j /\ parted L a i' j' b d /\
  (i' <= j' -> (exists x, at_ d i' = Some x /\ L x = false) /\
               (exists x, at_ d j' = Some x /\ L x = true)).

Definition scans (L : E -> bool) (a b : Z) (up down : list E -> Z -> Z -> res Z) d : Prop :=
  forall i j, a <= i <= j + 1 -> j < b -> parted L a i j b d ->
  up d i j ⇓ (fun i' => down d i' j ⇓ (fun j' => scanned L a i j b i' j' d)).

(** The loop of both partitions. *)
Lemma part_loop_spec {R} L a b up down (out : list E * Z * Z -> R) d i j :
  0 <= a -> b <= len d -> a <= i <= j + 1 -> j < b -> parted L a i j b d ->
  (forall d', shuffle a b d d' -> scans L a b up down d') ->
  loop (S (Z.to_nat (b - a + 1)))
    (fun '(data, i, j) =>
       let! i := up data i j in
       let! j := down data i j in
       if i >? j then Ok (inr (out (data, i, j))) else
       let! data := swap data i j in
       Ok (inl (data, i + 1, j - 1))) (d, i, j)
  ⇓ (fun r => exists d' j', r = out (d', j' + 1, j') /\ shuffle a b d d' /\
       i <= j' + 1 /\ j' <= j /\ parted L a (j' + 1) j' b d').
Proof.
  intros Ha Hb Hij Hj HP Hscan.
  apply (loop_returns (fun '(d', i', j') => shuffle a b d d' /\ i <= i' <= j' + 1 /\ j' <= j /\
    parted L a i' j' b d') (fun '(d', i', j') => j' + 1 - i')); [| |lia|lia].
  - intros [[d' i'] j'] (Hsh & Hi' & Hj' & HP'). pose proof (shuffle_len _ _ _ _ Hsh) as Hl.
    eapply returns_bind_mono; [apply (Hscan d' Hsh i' j'); (done || lia)|].
    intros i2 H2. eapply returns_bind_mono; [exact H2|]. intros j2 (H3 & H4 & H5 & HP2 & Hin).
    destruct (Z.gtb_spec i2 j2).
    + cbn. exists d', j2. replace i2 with (j2 + 1) in * by lia. repeat split; (done || lia || apply HP2).
    + destruct Hin as [Hx Hy]; [lia|].
      assert (i2 <> j2) by (intros ->; destruct Hx as (x & ? & ?), Hy as (y & ? & ?); congruence).
      apply returns_bind, swap_returns; [lia|lia|].
      split; [|lia]. split; [apply shuffle_snoc; (done || lia)|]. split; [lia|]. split; [lia|].
      apply parted_swap; (done || lia).
  - repeat split; (done || lia || apply HP || constructor).
Qed.

(** The scans of a test that is computed on in-range positions. *)
Lemma scans_intro L a b (X Y : list E -> Z -> res bool) d :
  0 <= a -> b <= len d ->
  (forall k x, a <= k < b -> at_ d k = Some x -> X d k = Ok (L x) /\ Y d k = Ok (negb (L x))) ->
  scans L a b
    (fun d i j => loop (S (Z.to_nat (j - i + 1)))
       (fun i => let! c := if i <=? j then X d i else Ok false in
                 if c then Ok (inl (i + 1)) else Ok (inr i)) i)
    (fun d i j => loop (S (Z.to_nat (j - i + 1)))
       (fun j => let! c := if i <=? j then Y d j else Ok false in
                 if c then Ok (inl (j - 1)) else Ok (inr j)) j) d.
Proof.
  intros Ha Hb HXY i j Hij Hj [Hl Hr].
  set (P := fun k => match at_ d k with Some x => L x | None => false end).
  assert (Hat : forall k, a <= k < b -> exists x, at_ d k = Some x /\ P k = L x).
  { intros k Hk. destruct (at_in d k) as [x Hx]; [lia|]. exists x. unfold P. by rewrite Hx. }
  eapply returns_mono; [apply (scan_up_spec _ P); [lia|]|].
  { intros k Hk. destruct (Hat k) as (x & Hx & ->); [lia|]. apply HXY; [lia|done]. }
  intros i' (H1 & H2 & H3). eapply returns_mono; [apply (scan_down_spec _ (fun k => negb (P k))); [lia|]|].
  { intros k Hk. destruct (Hat k) as (x & Hx & ->); [lia|]. apply HXY; [lia|done]. }
  intros j' (H4 & H5 & H6). split; [lia|]. split; [lia|]. split; [lia|].
  split; [split|].
  - intros k Hk. destruct (Z.lt_ge_cases k i); [apply Hl; lia|].
    destruct (Hat k) as (x & Hx & Ex); [lia|]. exists x. rewrite <- Ex. auto with lia.
  - intros k Hk. destruct (Z.lt_ge_cases j k); [apply Hr; lia|].
    destruct (Hat k) as (x & Hx & Ex); [lia|]. exists x. rewrite <- Ex.
    split; [done|]. apply negb_true_iff, H5. lia.
  - intros Hle. split.
    + destruct (Hat i') as (x & Hx & Ex); [lia|]. exists x. rewrite <- Ex. auto with lia.
    + destruct (Hat j') as (x & Hx & Ex); [lia|]. exists x. rewrite <- Ex.
      split; [done|]. apply negb_false_iff, H6. lia.
Qed.

Lemma scans_partition d a b p :
  0 <= a -> b <= len d -> at_ d a = Some p ->
  forall d', shuffle (a + 1) b d d' ->
  scans (fun x => less cmp x p) (a + 1) b
    (fun d i j => scanUp cmp d a i j) (fun d i j => scanDown cmp d a i j) d'.
Proof.
  intros Ha Hb Hp d' Hsh. pose proof (shuffle_len _ _ _ _ Hsh) as Hl.
  rewrite <- (shuffle_outside (a + 1) b _ _ a ltac:(lia) ltac:(lia) Hsh) in Hp.
  apply (scans_intro _ _ _ (fun d k => lessAt cmp d k a)
    (fun d k => let! l := lessAt cmp d k a in Ok (negb l))); [lia|lia|].
  intros k x Hk Hx. unfold lessAt.
  by rewrite (idx_Ok d' k x), (idx_Ok d' a p) by (done || lia).
Qed.

(** The pivot put between the two sides. *)
Lemma partition_finish d d' a b p j :
  0 <= a -> b <= len d -> at_ d a = Some p -> shuffle (a + 1) b d d' -> a <= j < b ->
  parted (fun x => less cmp x p) (a + 1) (j + 1) j b d' ->
  shuffle a b d (xchg d' j a) /\ at_ (xchg d' j a) j = Some p /\
  allseg (fun x => lt cmp x p) a j (xchg d' j a) /\
  allseg (fun x => le cmp p x) (j + 1) b (xchg d' j a).
Proof.
  intros Ha Hb Hp Hsh Hj [Hlo Hhi]. pose proof (shuffle_len _ _ _ _ Hsh) as Hl.
  rewrite <- (shuffle_outside (a + 1) b _ _ a ltac:(lia) ltac:(lia) Hsh) in Hp.
  split; [|split; [|split]].
  - apply shuffle_snoc; [|lia..]. eapply shuffle_widen; [| |done]; lia.
  - rewrite at_xchg by lia. unfold transpose. zcases; congruence.
  - intros k Hk. rewrite at_xchg by lia. unfold transpose. zcases; apply Hlo; lia.
  - intros k Hk. rewrite at_xchg by lia. unfold transpose. zcases; apply Hhi; lia.
Qed.

Lemma partition_spec d a b pivot p :
  0 <= a -> b <= len d -> a <= pivot < b -> at_ d pivot = Some p ->
  partitionCmpFunc cmp d a b pivot ⇓ (fun '(d', mid, _) =>
    shuffle a b d d' /\ a <= mid < b /\ at_ d' mid = Some p /\
    allseg (fun x => lt cmp x p) a mid d' /\ allseg (fun x => le cmp p x) (mid + 1) b d').
Proof.
  intros Ha Hb Hpv Hp. unfold partitionCmpFunc.
  apply returns_bind, swap_returns; [lia|lia|]. set (d1 := xchg d a pivot).
  assert (Hl1 : len d1 = len d) by apply len_xchg.
  assert (Hp1 : at_ d1 a = Some p).
  { unfold d1. rewrite at_xchg by lia. unfold transpose. zcases; congruence. }
  assert (Hsh1 : forall d', shuffle a b d1 d' -> shuffle a b d d').
  { intros d'. intros; apply (shuffle_step _ _ _ a pivot); [lia..|done]. }
  assert (Hfin : forall d' j (bal : bool), shuffle (a + 1) b d1 d' -> a <= j < b ->
    parted (fun x => less cmp x p) (a + 1) (j + 1) j b d' ->
    (let! data := swap d' j a in Ok (data, j, bal)) ⇓ (fun '(d', mid, _) =>
      shuffle a b d d' /\ a <= mid < b /\ at_ d' mid = Some p /\
      allseg (fun x => lt cmp x p) a mid d' /\ allseg (fun x => le cmp p x) (mid + 1) b d')).
  { intros d' j bal Hsh Hj HP. pose proof (shuffle_len _ _ _ _ Hsh).
    apply returns_bind, swap_returns; [lia|lia|].
    destruct (partition_finish d1 d' a b p j) as (?&?&?&?); [lia|lia|done..|].
    split; [auto|]. auto. }
  assert (Hscan := scans_partition d1 a b p Ha ltac:(lia) Hp1).
  eapply returns_bind_mono.
  { apply (Hscan d1 ltac:(constructor) (a + 1) (b - 1)); [lia|lia|]. split; intros ?; lia. }
  intros i H1. eapply returns_bind_mono; [exact H1|]. intros j (H2 & H3 & H4 & HP & Hin).
  destruct (Z.gtb_spec i j).
  { apply Hfin; [constructor|lia|]. by replace (j + 1) with i by lia. }
  destruct Hin as [Hx Hy]; [lia|].
  assert (i <> j) by (intros ->; destruct Hx as (x & ? & ?), Hy as (y & ? & ?); congruence).
  apply returns_bind, swap_returns; [lia|lia|].
  assert (Hshx : forall d', shuffle (a + 1) b (xchg d1 i j) d' -> shuffle (a + 1) b d1 d').
  { intros d' ?. apply (shuffle_step _ _ _ i j); [lia..|done]. }
  replace (b - a) with (b - (a + 1) + 1) by lia.
  eapply returns_bind_mono.
  { apply (part_loop_spec (fun x => less cmp x p) (a + 1) b (fun d i j => scanUp cmp d a i j)
      (fun d i j => scanDown cmp d a i j) (fun '(d, i, j) => (d, j))); [lia|len_simpl; lia|lia|lia| |].
    - apply parted_swap; (done || lia).
    - intros d' Hd'. by apply Hscan, Hshx. }
  intros [d2 j2] (d3 & j3 & [= -> ->] & Hsh3 & H5 & H6 & HP3).
  apply Hfin; [auto|lia|done].
Qed.

(** Elements equal to a pivot that is a minimum of the segment move to its
    front. *)
Lemma partitionEqual_spec d a b pivot p :
  0 <= a -> b <= len d -> a <= pivot < b -> at_ d pivot = Some p ->
  partitionEqualCmpFunc cmp d a b pivot ⇓ (fun '(d', mid) =>
    shuffle a b d d' /\ a < mid <= b /\
    allseg (fun x => le cmp x p) a mid d' /\ allseg (fun x => lt cmp p x) mid b d').
Proof.
  intros Ha Hb Hpv Hp. unfold partitionEqualCmpFunc.
  apply returns_bind, swap_returns; [lia|lia|]. set (d1 := xchg d a pivot).
  assert (Hl1 : len d1 = len d) by apply len_xchg.
  assert (Hp1 : at_ d1 a = Some p).
  { unfold d1. rewrite at_xchg by lia. unfold transpose. zcases; congruence. }
  replace (b - a) with (b - (a + 1) + 1) by lia.
  eapply returns_mono.
  { apply (part_loop_spec (fun x => negb (less cmp p x)) (a + 1) b (fun d i j => scanUpEq cmp d a i j)
      (fun d i j => scanDownEq cmp d a i j) (fun '(d, i, j) => (d, i))); [lia|lia|lia|lia| |].
    - split; intros ?; lia.
    - intros d' Hsh. pose proof (shuffle_len _ _ _ _ Hsh) as Hl.
      rewrite <- (shuffle_outside (a + 1) b _ _ a ltac:(lia) ltac:(lia) Hsh) in Hp1.
      apply (scans_intro _ _ _ (fun d k => let! l := lessAt cmp d a k in Ok (negb l))
        (fun d k => lessAt cmp d a k)); [lia|lia|].
      intros k x Hk Hx. unfold lessAt. rewrite (idx_Ok d' k x), (idx_Ok d' a p) by (done || lia).
      cbn. by rewrite negb_involutive. }
  intros [d2 i2] (d3 & j3 & [= -> ->] & Hsh3 & H5 & H6 & [Hlo Hhi]).
  pose proof (shuffle_outside (a + 1) b _ _ a ltac:(lia) ltac:(lia) Hsh3) as Ha3.
  split; [|split; [lia|split]].
  - apply (shuffle_step _ _ _ a pivot); [lia..|]. eapply shuffle_widen; [| |done]; lia.
  - intros k Hk. destruct (decide (k = a)) as [->|].
    + exists p. split; [congruence|]. by apply le_refl.
    + destruct (Hlo k) as (x & Hx & HL); [lia|]. exists x. split; [done|]. by apply negb_true_iff.
  - eapply allseg_mono; [reflexivity|reflexivity| |exact Hhi]. intros x. by rewrite negb_false_iff.
Qed.

(** ** Partial insertion sort *)

(** The invariant of the quicksort: the element before the segment is not
    greater than any element of the segment. *)
Definition guarded (a b : Z) d : Prop :=
  0 < a -> exists m, at_ d (a - 1) = Some m /\ allseg (fun x => le cmp m x) a b d.

Lemma guarded_shuffle a b a' b' d d' :
  0 <= a <= a' -> b' <= b -> shuffle a' b' d d' -> guarded a b d -> guarded a b d'.
Proof.
  intros Ha Hb Hsh Hg H0. destruct (Hg H0) as (m & Hm & Hall). exists m. split.
  - rewrite (shuffle_outside a' b' d d'); (done || lia).
  - apply (shuffle_all_in _ a' b' _ _ d); (done || lia).
Qed.

Lemma skipSorted_spec d a i b :
  0 <= a < i -> i <= b <= len d -> sorted a i d ->
  skipSorted cmp d i b ⇓ (fun i' => i <= i' <= b /\ sorted a i' d /\
    (i' < b -> leA d i' (i' - 1))).
Proof.
  intros Ha Hb Hs. unfold skipSorted.
  apply (loop_returns (fun i' => i <= i' <= b /\ sorted a i' d) (fun i' => b - i'));
    [|split; [lia|done]|lia|lia].
  intros i' [Hi' Hs']. apply returns_bind. zcase.
  - apply returns_bind, (lessAt_spec cmp); [lia|lia| |]; intros Hle; cbn.
    + split; [lia|]. auto.
    + split; [|lia]. split; [lia|]. apply sorted_neighbours; [done|lia|lia|]. intros q Hq.
      destruct (decide (q = i')) as [->|]; [done|]. apply Hs'; lia.
  - cbn. split; [lia|]. split; [done|]. lia.
Qed.

Lemma shiftLeft_spec d a b i :
  0 <= a < i -> i <= b <= len d -> guarded a b d -> sorted a (i - 1) d ->
  shiftLeft cmp d i ⇓ (fun d' => shuffle a i d d' /\ sorted a i d').
Proof.
  intros Ha Hi Hg Hs. unfold shiftLeft.
  apply (loop_returns (fun '(d', j) => shuffle a i d d' /\ a <= j < i /\
      forall p q, a <= p <= q -> q < i -> q <> j \/ p = q -> leA d' p q)
    (fun '(d', j) => j)); [| |lia|lia].
  - intros [d' j] (Hsh & Hj & Hle). pose proof (shuffle_len _ _ _ _ Hsh) as Hl.
    assert (Hdone : leA d' (j - 1) j \/ j = a -> sorted a i d').
    { intros Hc. apply sorted_neighbours; [done|lia|lia|]. intros q Hq.
      destruct (decide (q = j)) as [->|]; [destruct Hc; [done|lia]|]. apply Hle; lia. }
    destruct (Z.geb_spec j 1); [|cbn; split; [done|apply Hdone; lia]].
    destruct (decide (j = a)) as [->|].
    + destruct (guarded_shuffle a b a i d d') as (m & Hm & Hall); [lia|lia|done|done|lia|].
      destruct (Hall a) as (x & Hx & Hmx); [lia|]. apply returns_bind.
      apply (lessAt_elem _ _ _ _ x m); [lia|lia|done|done|]. rewrite Hmx. cbn. auto.
    + apply returns_bind, (lessAt_spec cmp); [lia|lia| |]; intros Hlt; cbn; [|auto].
      apply returns_bind, swap_returns; [lia|lia|]. split; [|lia].
      split; [apply shuffle_snoc; auto; lia|]. split; [lia|]. intros p q Hp Hq Hne.
      leA_xchg_tac; try done; apply Hle; lia.
  - split; [constructor|]. split; [lia|].
    intros p q Hp Hq [Hne| ->]; [apply Hs; lia|apply leA_refl; [done|lia]].
Qed.

Lemma shiftRight_spec d i b :
  0 <= i < b -> b <= len d ->
  shiftRight cmp d i b ⇓ (fun d' => shuffle i b d d').
Proof.
  intros Hi Hb. unfold shiftRight.
  apply (loop_returns (fun '(d', j) => shuffle i b d d' /\ i < j <= b) (fun '(d', j) => b - j));
    [|split; [constructor|lia]|lia|lia].
  intros [d' j] (Hsh & Hj). pose proof (shuffle_len _ _ _ _ Hsh) as Hl. zcase; [|done].
  apply returns_bind, (lessAt_spec cmp); [lia|lia| |]; intros Hlt; cbn; [|done].
  apply returns_bind, swap_returns; [lia|lia|]. split; [|lia].
  split; [apply shuffle_snoc; auto; lia|lia].
Qed.

(** One round: the out-of-order pair at [i] is exchanged and both elements are
    moved to their places. *)
Lemma partialInsertion_round d a b i :
  0 <= a < i -> i < b <= len d -> guarded a b d -> sorted a i d ->
  (let! d := swap d i (i - 1) in
   let! d := if i - a >=? 2 then shiftLeft cmp d i else Ok d in
   if b - i >=? 2 then shiftRight cmp d i b else Ok d)
  ⇓ (fun d' => shuffle a b d d' /\ sorted a i d').
Proof.
  intros Ha Hi Hg Hs. apply returns_bind, swap_returns; [lia|lia|]. set (d1 := xchg d i (i - 1)).
  assert (Hl1 : len d1 = len d) by apply len_xchg.
  assert (Hsh1 : shuffle a b d d1) by (apply shuffle_snoc; [constructor|lia..]).
  assert (Hs1 : sorted a (i - 1) d1).
  { intros p q Hp Hq. leA_xchg_tac. apply Hs; lia. }
  apply (returns_bind_mono _ _ (fun d' => shuffle a i d1 d' /\ sorted a i d')).
  { zcase; [|cbn; split; [constructor|apply sorted_short; [done|lia..]]].
    apply (shiftLeft_spec d1 a b); (lia || done || idtac). apply (guarded_shuffle a b a b d); (done || lia). }
  intros d2 [Hsh2 Hs2]. pose proof (shuffle_len _ _ _ _ Hsh2) as Hl2.
  assert (Hsh12 : shuffle a b d d2).
  { eapply shuffle_trans; [done|]. eapply shuffle_widen; [| |done]; lia. }
  zcase; [|done]. eapply returns_mono; [apply shiftRight_spec; lia|]. intros d3 Hsh3. split.
  - eapply shuffle_trans; [done|]. eapply shuffle_widen; [| |done]; lia.
  - eapply sorted_outside; [..|exact Hs2]; [lia| |done]. lia.
Qed.

Lemma partialInsertionSort_spec d a b :
  0 <= a < b -> b <= len d -> guarded a b d ->
  partialInsertionSortCmpFunc cmp d a b ⇓ (fun '(d', done) =>
    shuffle a b d d' /\ (done = true -> sorted a b d')).
Proof.
  intros Ha Hb Hg. unfold partialInsertionSortCmpFunc.
  apply (loop_returns (fun '(d', i, j) => shuffle a b d d' /\ a < i <= b /\ sorted a i d' /\ 0 <= j <= maxSteps)
    (fun '(d', i, j) => maxSteps - j)); [| |unfold maxSteps; lia|unfold maxSteps; lia].
  - intros [[d' i] j] (Hsh & Hi & Hs & Hj). pose proof (shuffle_len _ _ _ _ Hsh) as Hl.
    destruct (Z.ltb_spec j maxSteps); cbn [negb]; [|done].
    eapply returns_bind_mono; [apply skipSorted_spec; [| |done]; lia|]. intros i' (Hi' & Hs' & _).
    destruct (Z.eqb_spec i' b) as [->|]; [done|]. destruct (Z.ltb_spec (b - a) shortestShifting); [done|].
    assert (Hround := partialInsertion_round d' a b i' ltac:(lia) ltac:(lia)
      ltac:(apply (guarded_shuffle a b a b d); (done || lia)) Hs').
    destruct (swap d' i' (i' - 1)) as [d1| |]; [|done|done]. cbn [rbind] in *.
    destruct (if i' - a >=? 2 then shiftLeft cmp d1 i' else Ok d1) as [d2| |]; [|done|done].
    cbn [rbind] in *. eapply returns_bind_mono; [exact Hround|]. intros d3 [Hsh3 Hs3].
    split; [|lia]. split; [by eapply shuffle_trans|]. split; [lia|]. split; [done|lia].
  - split; [constructor|]. split; [lia|]. split; [apply sorted_short; [done|lia..]|unfold maxSteps; lia].
Qed.

(** ** Pivot selection and pattern breaking *)

Lemma order2_spec d a b s lo hi :
  0 <= lo -> hi <= len d -> lo <= a < hi -> lo <= b < hi ->
  order2CmpFunc cmp d a b s ⇓ (fun '(a', b', _) => lo <= a' < hi /\ lo <= b' < hi).
Proof.
  intros. unfold order2CmpFunc. apply returns_bind, (lessAt_spec cmp); [lia|lia| |]; cbn; lia.
Qed.

Lemma median_spec d a b c s lo hi :
  0 <= lo -> hi <= len d -> lo <= a < hi -> lo <= b < hi -> lo <= c < hi ->
  medianCmpFunc cmp d a b c s ⇓ (fun '(m, _) => lo <= m < hi).
Proof.
  intros Hlo Hhi Ha Hb Hc. unfold medianCmpFunc.
  eapply returns_bind_mono; [by apply (order2_spec _ _ _ _ lo hi)|]. intros [[a1 b1] s1] [Ha1 Hb1].
  eapply returns_bind_mono; [by apply (order2_spec _ _ _ _ lo hi)|]. intros [[b2 c2] s2] [Hb2 Hc2].
  eapply returns_bind_mono; [by apply (order2_spec _ _ _ _ lo hi)|]. intros [[a3 b3] s3] [Ha3 Hb3].
  exact Hb3.
Qed.

Lemma choosePivot_spec d a b :
  0 <= a < b -> b <= len d ->
  choosePivotCmpFunc cmp d a b ⇓ (fun '(pivot, _) => a <= pivot < b).
Proof.
  intros Ha Hb. unfold choosePivotCmpFunc, medianAdjacentCmpFunc. rewrite Z.quot_div_nonneg by lia.
  set (l := (b - a) / 4). assert (Hl : 4 * l <= b - a < 4 * l + 4) by (unfold l; zdm).
  apply (returns_bind_mono _ _ (fun '(j, _) => a <= j < b)).
  2: { intros [j s] Hj. repeat case_match; cbn; lia. }
  destruct (Z.geb_spec (b - a) 8); [|cbn; lia].
  apply (returns_bind_mono _ _ (fun '(i, j, k, _) => a <= i < b /\ a <= j < b /\ a <= k < b)).
  2: { intros [[[i j] k] s] (? & ? & ?). by apply median_spec; [lia|..]. }
  unfold shortestNinther. destruct (Z.geb_spec (b - a) 50); [|cbn; lia].
  eapply returns_bind_mono; [apply (median_spec _ _ _ _ _ a b); lia|]. intros [i s1] Hi.
  eapply returns_bind_mono; [apply (median_spec _ _ _ _ _ a b); lia|]. intros [j s2] Hj.
  eapply returns_bind_mono; [apply (median_spec _ _ _ _ _ a b); lia|]. intros [k s3] Hk.
  cbn. auto.
Qed.

Lemma reverseRange_spec d a b :
  0 <= a <= b -> b <= len d -> reverseRangeCmpFunc d a b ⇓ (fun d' => shuffle a b d d').
Proof.
  intros Ha Hb. unfold reverseRangeCmpFunc.
  apply (loop_returns (fun '(d', i, j) => shuffle a b d d' /\ a <= i <= j + 2 /\ j < b)
    (fun '(d', i, j) => Z.max 0 (j - i + 1))); [|split; [constructor|lia]|lia|lia].
  intros [[d' i] j] (Hsh & Hi & Hj). pose proof (shuffle_len _ _ _ _ Hsh) as Hl. zcase; [|done].
  apply returns_bind, swap_returns; [lia|lia|]. split; [|lia].
  split; [apply shuffle_snoc; auto; lia|lia].
Qed.

Lemma nextPowerOfTwo_spec n :
  0 < n < 2 ^ 62 -> nextPowerOfTwo n ⇓ (fun m => exists k, 0 <= k <= 62 /\ m = 2 ^ k /\ n < m <= 2 * n).
Proof.
  intros Hn. unfold nextPowerOfTwo, Len. cbn [Z.eqb Pos.eqb]. rewrite !(u64_id n) by lia.
  rewrite Len64_bitlen by lia. cbn [rbind returns]. destruct (bitlen_bounds n) as [H1 H2]; [lia|].
  destruct (bitlen_le n 62) as [H3 H4]; [lia|lia|]. exists (bitlen n).
  rewrite shiftl_mul, Z.mul_1_l by done. pose proof (Z.pow_le_mono_r 2 (bitlen n) 62).
  rewrite u64_id by lia. split; [lia|]. split; [done|].
  destruct (decide (bitlen n = 0)) as [E0|]; [rewrite E0 in H2; lia|].
  replace (bitlen n) with (1 + (bitlen n - 1)) at 2 by lia. rewrite Z.pow_add_r by lia. lia.
Qed.

Lemma breakPatterns_spec d a b :
  0 <= a <= b -> b <= len d -> b - a < 2 ^ 62 ->
  breakPatternsCmpFunc d a b ⇓ (fun d' => shuffle a b d d').
Proof.
  intros Ha Hb Hmax. unfold breakPatternsCmpFunc. set (n := b - a) in *.
  destruct (Z.geb_spec n 8); [|constructor].
  eapply returns_bind_mono; [apply nextPowerOfTwo_spec; lia|]. intros m (k & Hk & -> & Hm).
  rewrite Z.quot_div_nonneg by lia. set (c := a + n / 4 * 2).
  assert (Hc : a < c - 1 /\ c + 1 < b) by (unfold c; zdm).
  apply (loop_returns (fun '(d', _, i) => shuffle a b d d' /\ c - 1 <= i <= c + 2)
    (fun '(_, _, i) => c + 2 - i)); [|split; [constructor|lia]|lia|lia].
  intros [[d' r] i] (Hsh & Hi). pose proof (shuffle_len _ _ _ _ Hsh) as Hl. zcase; [|done].
  rewrite u64_id by lia. rewrite (land_ones' _ k) by lia.
  pose proof (Z.mod_pos_bound (xorshift_Next r) (2 ^ k)) as Hr.
  rewrite i64_id by lia. set (o := if _ >=? n then _ else _).
  assert (Ho : 0 <= o < n) by (unfold o; zcase; lia).
  apply returns_bind, swap_returns; [lia|lia|]. split; [|lia].
  split; [apply shuffle_snoc; auto; lia|lia].
Qed.

(** ** The quicksort *)

(** A routine that sorts the segment of a slice of length [n]. *)
Definition sorts (f : list E -> res (list E)) (a b n : Z) : Prop :=
  forall d, len d = n -> guarded a b d -> f d ⇓ (fun d' => shuffle a b d d' /\ sorted a b d').

Lemma sides_left_right f g a mid b d p :
  0 <= a <= mid -> mid < b -> b <= len d -> sorts f a mid (len d) -> sorts g (mid + 1) b (len d) ->
  guarded a b d -> at_ d mid = Some p ->
  allseg (fun x => lt cmp x p) a mid d -> allseg (fun x => le cmp p x) (mid + 1) b d ->
  (let! d := f d in g d) ⇓ (fun d' => shuffle a b d d' /\ sorted a b d') /\
  (let! d := g d in f d) ⇓ (fun d' => shuffle a b d d' /\ sorted a b d').
Proof.
  intros Ha Hm Hb Hf Hg Hgd Hp Hlo Hhi.
  assert (Hgl : forall d', shuffle (mid + 1) b d d' -> guarded a mid d').
  { intros d' Hsh H0. destruct (guarded_shuffle a b (mid + 1) b _ _ ltac:(lia) ltac:(lia) Hsh Hgd H0)
      as (m & Hm' & Hall). exists m. split; [done|]. eapply allseg_mono; [| | |exact Hall]; (lia || auto). }
  assert (Hgr : forall d', shuffle a mid d d' -> guarded (mid + 1) b d').
  { intros d' Hsh _. exists p. replace (mid + 1 - 1) with mid by lia.
    rewrite (shuffle_outside a mid d d') by (done || lia). split; [done|].
    apply (shuffle_all_out _ a mid _ _ d); (done || lia). }
  assert (Hjoin : forall d', shuffle a b d d' -> at_ d' mid = Some p ->
    allseg (fun x => lt cmp x p) a mid d' -> allseg (fun x => le cmp p x) (mid + 1) b d' ->
    sorted a mid d' -> sorted (mid + 1) b d' -> shuffle a b d d' /\ sorted a b d').
  { intros d' Hsh Hp' Hl' Hr' Hs1 Hs2. split; [done|]. pose proof (shuffle_len _ _ _ _ Hsh).
    apply (sorted_join cmp a mid b d' p); (done || lia || idtac).
    eapply allseg_mono; [| | |exact Hl']; [lia|lia|]. intros x. by apply lt_le. }
  split.
  - eapply returns_bind_mono; [apply Hf; [done|apply Hgl; constructor]|]. intros d1 [Hsh1 Hs1].
    pose proof (shuffle_len _ _ _ _ Hsh1).
    eapply returns_mono; [apply Hg; [done|by apply Hgr]|]. intros d2 [Hsh2 Hs2]. apply Hjoin.
    + eapply shuffle_trans; (eapply shuffle_widen; [| |done]; lia).
    + rewrite (shuffle_outside (mid + 1) b d1 d2), (shuffle_outside a mid d d1); (done || lia).
    + apply (shuffle_all_out _ (mid + 1) b _ _ d1); [lia|lia|done|].
      apply (shuffle_all_in _ a mid _ _ d); (done || lia).
    + apply (shuffle_all_in _ (mid + 1) b _ _ d1); [lia|lia|done|].
      apply (shuffle_all_out _ a mid _ _ d); (done || lia).
    + apply (sorted_outside cmp (mid + 1) b _ _ d1); (done || lia).
    + done.
  - eapply returns_bind_mono; [apply Hg; [done|apply Hgr; constructor]|]. intros d1 [Hsh1 Hs1].
    pose proof (shuffle_len _ _ _ _ Hsh1).
    eapply returns_mono; [apply Hf; [done|by apply Hgl]|]. intros d2 [Hsh2 Hs2]. apply Hjoin.
    + eapply shuffle_trans; (eapply shuffle_widen; [| |done]; lia).
    + rewrite (shuffle_outside a mid d1 d2), (shuffle_outside (mid + 1) b d d1); (done || lia).
    + apply (shuffle_all_in _ a mid _ _ d1); [lia|lia|done|].
      apply (shuffle_all_out _ (mid + 1) b _ _ d); (done || lia).
    + apply (shuffle_all_out _ a mid _ _ d1); [lia|lia|done|].
      apply (shuffle_all_in _ (mid + 1) b _ _ d); (done || lia).
    + done.
    + apply (sorted_outside cmp a mid _ _ d1); (done || lia).
Qed.

(** The run of elements equal to the element before the segment. *)
Lemma equal_prefix f a mid b d p m :
  0 < a < mid -> mid <= b -> b <= len d -> sorts f mid b (len d) ->
  allseg (fun x => le cmp m x) a b d -> le cmp p m ->
  allseg (fun x => le cmp x p) a mid d -> allseg (fun x => lt cmp p x) mid b d ->
  f d ⇓ (fun d' => shuffle a b d d' /\ sorted a b d').
Proof.
  intros Ha Hm Hb Hf Hmin Hpm Hlo Hhi. eapply returns_mono; [apply Hf; [done|]|].
  { intros _. destruct (Hlo (mid - 1)) as (x & Hx & Hxp); [lia|]. exists x. split; [done|].
    eapply allseg_mono; [| | |exact Hhi]; [lia|lia|]. intros y Hy.
    apply lt_le; [done|]. by eapply le_lt_trans. }
  intros d' [Hsh Hs]. split; [eapply shuffle_widen; [| |done]; lia|].
  pose proof (shuffle_all _ mid b d d' ltac:(lia) Hsh Hhi) as Hhi'. intros i j Hi Hj.
  destruct (Z.lt_ge_cases i mid); [|apply Hs; lia].
  destruct (Hlo i) as (x & Hx & Hxp); [lia|]. exists x.
  rewrite (shuffle_outside mid b d d') by (done || lia).
  destruct (Z.lt_ge_cases j mid).
  - destruct (Hmin j) as (y & Hy & Hmy); [lia|]. exists y.
    rewrite (shuffle_outside mid b d d') by (done || lia). split; [done|]. split; [done|].
    eauto using le_trans.
  - destruct (Hhi' j) as (y & Hy & Hpy); [lia|]. exists y. split; [done|]. split; [done|].
    eapply le_trans; [done|exact Hxp|by apply lt_le].
Qed.

(** The steps of an iteration that come before the partition: they choose a
    pivot in the segment and only shuffle it. *)
Lemma pdq_prepare d a b limit (wasBalanced : bool) :
  0 <= a < b -> b <= len d -> b - a < 2 ^ 62 ->
  (let! '(data, limit) :=
      if negb wasBalanced then
        let! data := breakPatternsCmpFunc d a b in Ok (data, limit - 1)
      else Ok (d, limit) in
    let! '(pivot, hint) := choosePivotCmpFunc cmp data a b in
    if is_hint hint decreasingHint then
      let! data := reverseRangeCmpFunc data a b in
      Ok (data, limit, (b - 1) - (pivot - a), increasingHint)
    else Ok (data, limit, pivot, hint))
  ⇓ (fun '(d', _, pivot, _) => shuffle a b d d' /\ a <= pivot < b).
Proof.
  intros Ha Hb Hmax. apply (returns_bind_mono _ _ (fun '(d', _) => shuffle a b d d')).
  { destruct wasBalanced; cbn [negb]; [constructor|].
    eapply returns_bind_mono; [apply breakPatterns_spec; lia|]. done. }
  intros [d1 l1] Hsh1. pose proof (shuffle_len _ _ _ _ Hsh1).
  eapply returns_bind_mono; [apply choosePivot_spec; lia|]. intros [pivot hint] Hpv.
  destruct (is_hint hint decreasingHint); [|done].
  eapply returns_bind_mono; [apply reverseRange_spec; lia|]. intros d2 Hsh2. cbn.
  split; [by eapply shuffle_trans|lia].
Qed.

Lemma after_shuffle (m : res (list E)) (Q : list E -> Prop) a b d d1 :
  shuffle a b d d1 -> m ⇓ (fun d' => shuffle a b d1 d' /\ Q d') ->
  m ⇓ (fun d' => shuffle a b d d' /\ Q d').
Proof. intros H Hm. eapply returns_mono; [exact Hm|]. intros d' [? ?]. eauto with gostd. Qed.

(** The rest of the iteration, with [rec] for the recursive calls. *)
Lemma pdq_split (rec : list E -> Z -> Z -> Z -> bool -> bool -> res (list E))
    d a b limit wasBalanced wasPartitioned pivot :
  0 <= a <= pivot -> pivot < b -> b <= len d -> guarded a b d ->
  (forall a' b' limit wb wp, a <= a' <= b' -> b' <= b -> b' - a' < b - a ->
     sorts (fun d => rec d a' b' limit wb wp) a' b' (len d)) ->
  (let! equal :=
      if a >? 0 then (let! l := lessAt cmp d (a - 1) pivot in Ok (negb l)) else Ok false in
    if (equal : bool) then
      let! '(data, mid) := partitionEqualCmpFunc cmp d a b pivot in
      rec data mid b limit wasBalanced wasPartitioned
    else
    let! '(data, mid, alreadyPartitioned) := partitionCmpFunc cmp d a b pivot in
    if mid - a <? b - mid then
      let! data := rec data a mid limit true true in
      rec data (mid + 1) b limit (mid - a >=? Z.quot (b - a) 8) alreadyPartitioned
    else
      let! data := rec data (mid + 1) b limit true true in
      rec data a mid limit (b - mid >=? Z.quot (b - a) 8) alreadyPartitioned)
  ⇓ (fun d' => shuffle a b d d' /\ sorted a b d').
Proof.
  intros Ha Hpv Hb Hg Hrec. destruct (at_in d pivot) as [p Hp]; [lia|].
  apply (returns_bind_mono _ _ (fun equal : bool => equal = true -> 0 < a /\
    exists m, le cmp p m /\ allseg (fun x => le cmp m x) a b d)).
  { destruct (Z.gtb_spec a 0) as [H0|]; [|done]. destruct (Hg ltac:(lia)) as (m & Hm & Hall).
    apply returns_bind, (lessAt_elem _ _ _ _ m p); [lia|lia|done|done|]. cbn.
    rewrite negb_true_iff. intros Hmp. split; [lia|]. by exists m. }
  intros [|] Heq.
  - destruct Heq as (H0 & m & Hpm & Hmin); [done|].
    eapply returns_bind_mono; [apply (partitionEqual_spec d a b pivot p); (done || lia)|].
    intros [d1 mid] (Hsh & Hmid & Hlo & Hhi). pose proof (shuffle_len _ _ _ _ Hsh) as Hl.
    apply (after_shuffle _ _ _ _ _ _ Hsh).
    apply (equal_prefix (fun d => rec d mid b limit wasBalanced wasPartitioned)
      a mid b d1 p m); (done || lia || idtac).
    + rewrite Hl. apply Hrec; lia.
    + by apply (shuffle_all _ _ _ d); [lia|..].
  - clear Heq. eapply returns_bind_mono; [apply (partition_spec d a b pivot p); (done || lia)|].
    intros [[d1 mid] bal] (Hsh & Hmid & Hat & Hlo & Hhi). pose proof (shuffle_len _ _ _ _ Hsh) as Hl.
    assert (Hg1 : guarded a b d1) by (apply (guarded_shuffle a b a b d); (done || lia)).
    apply (after_shuffle _ _ _ _ _ _ Hsh). destruct (Z.ltb_spec (mid - a) (b - mid)).
    + apply (sides_left_right (fun d => rec d a mid limit true true)
        (fun d => rec d (mid + 1) b limit (mid - a >=? Z.quot (b - a) 8) bal) a mid b d1 p);
        rewrite ?Hl; (done || lia || (apply Hrec; lia)).
    + apply (sides_left_right (fun d => rec d a mid limit (b - mid >=? Z.quot (b - a) 8) bal)
        (fun d => rec d (mid + 1) b limit true true) a mid b d1 p);
        rewrite ?Hl; (done || lia || (apply Hrec; lia)).
Qed.

Lemma pdqsortLoop_spec fuel : forall d a b limit wasBalanced wasPartitioned,
  0 <= a <= b -> b <= len d -> len d < 2 ^ 62 -> b - a < Z.of_nat fuel -> guarded a b d ->
  pdqsortLoop cmp fuel d a b limit wasBalanced wasPartitioned
  ⇓ (fun d' => shuffle a b d d' /\ sorted a b d').
Proof.
  induction fuel as [|fuel IH]; intros d a b limit wb wp Ha Hb Hmax Hf Hg; [lia|].
  cbn [pdqsortLoop]. unfold maxInsertion.
  destruct (Z.leb_spec (b - a) 12); [apply insertionSort_spec; lia|].
  destruct (limit =? 0); [apply heapSort_spec; lia|].
  pose proof (pdq_prepare d a b limit wb ltac:(lia) Hb ltac:(lia)) as Hprep.
  destruct (if negb wb then _ else Ok (d, limit)) as [[d1 l1]| |]; [|done|done].
  cbn [rbind] in *. destruct (choosePivotCmpFunc cmp d1 a b) as [[pivot hint]| |]; [|done|done].
  cbn [rbind] in *.
  apply (returns_bind_mono _ _ (fun '(d', pivot, _) => shuffle a b d d' /\ a <= pivot < b)).
  { destruct (is_hint hint decreasingHint); [|done].
    by destruct (reverseRangeCmpFunc d1 a b). }
  clear d1 pivot hint Hprep. intros [[d1 pivot] hint] [Hsh1 Hpv].
  apply (returns_bind_mono _ _ (fun '(d', done) => shuffle a b d d' /\ (done = true -> sorted a b d'))).
  { pose proof (shuffle_len _ _ _ _ Hsh1). destruct (_ && _); [|done].
    eapply returns_mono; [apply partialInsertionSort_spec; [lia|lia|]|].
    - apply (guarded_shuffle a b a b d); (done || lia).
    - intros [d2 done] [Hsh2 Hs2]. split; [by eapply shuffle_trans|done]. }
  intros [d2 done] [Hsh2 Hs2]. destruct done; [by split; [|apply Hs2]|]. clear Hs2.
  pose proof (shuffle_len _ _ _ _ Hsh2) as Hl2.
  apply (after_shuffle _ _ _ _ _ _ Hsh2).
  apply (pdq_split (pdqsortLoop cmp fuel)); [lia|lia|lia| |].
  - apply (guarded_shuffle a b a b d); (done || lia).
  - intros a' b' limit' wb' wp' ? ? ? d' Hd' Hg'. apply IH; (done || lia).
Qed.

Lemma SortFunc_shuffle x :
  len x < 2 ^ 62 -> SortFunc cmp x ⇓ (fun y => shuffle 0 (len x) x y /\ sorted 0 (len x) y).
Proof.
  intros Hx. unfold SortFunc, Len. cbn [Z.eqb Pos.eqb]. pose proof (len_nonneg x).
  rewrite !(u64_id (len x)), Len64_bitlen by lia. cbn [rbind].
  apply pdqsortLoop_spec; (lia || idtac). intros ?; lia.
Qed.

(** ** Sorted lists *)

(** Ascending: no element is greater than a later one. *)
Definition ascending (l : list E) : Prop :=
  forall i j x y, (i <= j)%nat -> l !! i = Some x -> l !! j = Some y -> less cmp y x = false.

Lemma sorted_ascending x : sorted 0 (len x) x -> ascending x.
Proof.
  intros H i j u v Hij Hi Hj.
  destruct (H (Z.of_nat i) (Z.of_nat j)) as (u' & v' & Hu & Hv & Hle).
  { lia. } { apply lookup_lt_Some in Hj. unfold len. lia. }
  unfold at_ in *. rewrite Nat2Z.id in *. congruence.
Qed.

Lemma ascending_sorted x : ascending x -> sorted 0 (len x) x.
Proof.
  intros H p q Hp Hq. destruct (at_in x p) as [u Hu]; [lia|]. destruct (at_in x q) as [v Hv]; [lia|].
  exists u, v. split; [done|]. split; [done|]. apply (H (Z.to_nat p) (Z.to_nat q)); (done || lia).
Qed.
End Pdq.

(** ** Theorems *)

(** C1: [slices.SortFunc] (pattern-defeating quicksort with insertion sort for
    short segments and heapsort as the fallback) terminates on every slice,
    never indexes out of range, and returns a permutation of its input in
    ascending order, for every comparison that is a strict weak ordering. *)
Theorem SortFunc_correct {E} (cmp : E -> E -> Z) (SW : StrictWeak cmp) x :
  len x < 2 ^ 62 -> SortFunc cmp x ⇓ (fun y => Permutation y x /\ ascending cmp y).
Proof.
  intros Hx. eapply returns_mono; [by apply SortFunc_shuffle|]. intros y [Hsh Hs]. split.
  - by eapply shuffle_Permutation.
  - apply sorted_ascending. by rewrite (shuffle_len _ _ _ _ Hsh).
Qed.

Lemma SortFunc_correct_witness :
  SortFunc Z.sub [9; 1; 8; 2; 7; 3; 6; 4; 5; 19; 11; 18; 12; 17; 13; 16]
  ⇓ (fun y => Permutation y [9; 1; 8; 2; 7; 3; 6; 4; 5; 19; 11; 18; 12; 17; 13; 16] /\
              ascending Z.sub y).
Proof. apply (SortFunc_correct Z.sub sub_StrictWeak). vm_compute. reflexivity. Defined.

(** the heapsort that pdqsort falls back to sorts its segment by exchanges
    inside the segment only: the result is a permutation, every position
    outside [a, b) keeps its element, and the positions of [a, b) are in
    order. *)
Theorem heapSortCmpFunc_correct {E} (cmp : E -> E -> Z) (SW : StrictWeak cmp) d a b :
  0 <= a -> a <= b <= len d -> b - a < 2 ^ 62 ->
  heapSortCmpFunc cmp d a b ⇓ (fun d' => Permutation d' d /\
    (forall k, 0 <= k -> ~ a <= k < b -> at_ d' k = at_ d k) /\ sorted cmp a b d').
Proof.
  intros Ha Hb Hm. eapply returns_mono; [by apply heapSort_spec|]. intros d' [Hsh Hs].
  split; [by eapply shuffle_Permutation|]. split; [|done].
  intros k Hk Hout. by apply (shuffle_outside a b).
Qed.

Lemma heapSortCmpFunc_correct_witness :
  heapSortCmpFunc Z.sub [9; 8; 7; 6; 5; 4] 1 5 ⇓ (fun d' => Permutation d' [9; 8; 7; 6; 5; 4] /\
    (forall k, 0 <= k -> ~ 1 <= k < 5 -> at_ d' k = at_ [9; 8; 7; 6; 5; 4] k) /\
    sorted Z.sub 1 5 d').
Proof.
  apply (heapSortCmpFunc_correct Z.sub sub_StrictWeak [9; 8; 7; 6; 5; 4] 1 5); [lia|vm_compute; split; discriminate|lia].
Defined.

(** [slices.IsSortedFunc] returns normally on every slice and answers true
    exactly on the ascending ones. *)
Theorem IsSortedFunc_correct {E} (cmp : E -> E -> Z) (SW : StrictWeak cmp) x :
  IsSortedFunc cmp x ⇓ (fun b => b = true <-> ascending cmp x).
Proof.
  unfold IsSortedFunc. pose proof (len_nonneg x).
  apply (loop_returns (fun i => -1 <= i < len x /\ forall q, i < q < len x -> 0 < q -> leA cmp x (q - 1) q)
    (fun i => i + 1)); [|split; [lia|intros; lia]|unfold len; lia|lia].
  intros i [Hi Hs]. destruct (Z.gtb_spec i 0) as [Hgt|].
  - destruct (at_in x i) as [u Hu]; [lia|]. destruct (at_in x (i - 1)) as [v Hv]; [lia|].
    apply returns_bind, (lessAt_elem _ _ _ _ u v); [lia|lia|done|done|].
    destruct (less cmp u v) eqn:Huv; cbn.
    + split; [done|]. intros Hasc. rewrite (Hasc (Z.to_nat (i - 1)) (Z.to_nat i) v u) in Huv by (done || lia).
      done.
    + split; [|lia]. split; [lia|]. intros q Hq Hq0. destruct (decide (q = i)) as [->|]; [|apply Hs; lia].
      by exists v, u.
  - cbn. split; [intros _|done]. apply sorted_ascending, sorted_neighbours; [done|lia|lia|].
    intros q Hq. apply Hs; lia.
Qed.

Lemma IsSortedFunc_correct_witness :
  IsSortedFunc Z.sub [1; 2; 2; 5] ⇓ (fun b => b = true <-> ascending Z.sub [1; 2; 2; 5]).
Proof. apply (IsSortedFunc_correct Z.sub sub_StrictWeak). Defined.

(** The loop of MinFunc and MaxFunc: the first element that no element beats. *)
Lemma best_loop_spec {E} (beats : E -> E -> bool) (x : list E) m0 :
  (forall u v w, beats u v = true -> beats v w = true -> beats u w = true) ->
  (forall u v w, beats u v = false -> beats v w = false -> beats u w = false) ->
  (forall u, beats u u = false) -> x !! 0%nat = Some m0 ->
  loop (S (length x))
    (fun '(m, i) =>
       if i <? len x then
         let! y := idx x i in
         Ok (inl (if beats y m then y else m, i + 1))
       else Ok (inr m)) (m0, 1)
  ⇓ (fun m => exists k, x !! k = Some m /\
      (forall j y, x !! j = Some y -> beats y m = false) /\
      (forall j y, (j < k)%nat -> x !! j = Some y -> beats m y = true)).
Proof.
  intros Htr Hnt Hirr H0. pose proof (lookup_lt_Some _ _ _ H0) as Hl0.
  apply (loop_returns (fun '(m, i) => 1 <= i <= len x /\ exists k, x !! k = Some m /\ Z.of_nat k < i /\
      (forall j y, Z.of_nat j < i -> x !! j = Some y -> beats y m = false) /\
      (forall j y, (j < k)%nat -> x !! j = Some y -> beats m y = true))
    (fun '(m, i) => len x - i)); unfold len; [| |lia|lia].
  - intros [m i] (Hi & k & Hk & Hki & Hmin & Hfst). destruct (Z.ltb_spec i (Z.of_nat (length x))).
    + apply returns_bind, idx_returns; [unfold len; lia|]. intros y Hy. cbn. split; [|lia].
      split; [lia|]. destruct (beats y m) eqn:By.
      * assert (Hall : forall j z, Z.of_nat j < i -> x !! j = Some z -> beats y z = true).
        { intros j z Hj Hz. destruct (beats y z) eqn:Byz; [done|].
          by rewrite (Hnt _ _ _ Byz (Hmin j z Hj Hz)) in By. }
        exists (Z.to_nat i). split; [done|]. split; [lia|]. split; [|intros j z Hj; apply Hall; lia].
        intros j z Hj Hz. destruct (decide (Z.of_nat j = i)) as [Ej|].
        -- replace (Z.to_nat i) with j in Hy by lia. simplify_eq. apply Hirr.
        -- destruct (beats z y) eqn:Bzy; [|done]. assert (Byz := Hall j z ltac:(lia) Hz).
           by rewrite <- (Htr _ _ _ Bzy Byz), Hirr.
      * exists k. split; [done|]. split; [lia|]. split; [|done]. intros j z Hj Hz.
        destruct (decide (Z.of_nat j = i)) as [Ej|]; [|apply (Hmin j); [lia|done]].
        replace (Z.to_nat i) with j in Hy by lia. congruence.
    + cbn. exists k. split; [done|]. split; [|done]. intros j y Hy. apply (Hmin j); [|done].
      apply lookup_lt_Some in Hy. lia.
  - split; [lia|]. exists 0%nat. split; [done|]. split; [lia|]. split; [|lia].
    intros j y Hj Hy. replace j with 0%nat in Hy by lia. simplify_eq. apply Hirr.
Qed.

(** [slices.MinFunc] and [slices.MaxFunc] panic on the empty slice only;
    otherwise they return the first element of the slice that no other
    element precedes (follows, for the maximum). *)
Theorem MinFunc_MaxFunc_correct {E} (cmp : E -> E -> Z) (SW : StrictWeak cmp) x :
  (forall u v, 0 < cmp u v <-> cmp v u < 0) ->
  if decide (x = []) then MinFunc cmp x = Panic /\ MaxFunc cmp x = Panic else
  MinFunc cmp x ⇓ (fun m => exists k, x !! k = Some m /\
    (forall j y, x !! j = Some y -> 0 <= cmp y m) /\
    (forall j y, (j < k)%nat -> x !! j = Some y -> cmp m y < 0)) /\
  MaxFunc cmp x ⇓ (fun m => exists k, x !! k = Some m /\
    (forall j y, x !! j = Some y -> cmp y m <= 0) /\
    (forall j y, (j < k)%nat -> x !! j = Some y -> 0 < cmp m y)).
Proof.
  intros Hsym. destruct (decide (x = [])) as [->|Hne]; [done|].
  destruct x as [|m0 x]; [done|]. unfold MinFunc, MaxFunc.
  destruct (Z.ltb_spec (len (m0 :: x)) 1); [len_lia|]. cbn [idx Z.leb rbind lookup list_lookup Z.to_nat].
  assert (Hgt : forall u v, (cmp u v >? 0) = (cmp v u <? 0)).
  { intros u v. pose proof (Hsym u v). zcases; lia. }
  split; (eapply returns_mono; [apply best_loop_spec|]; [| | |reflexivity|]); cbn beta.
  all: try (intros u v w; rewrite ?Hgt; eauto using sw_trans, sw_ntrans; fail).
  all: try (intros u; rewrite ?Hgt; apply sw_irrefl; fail).
  - intros m (k & Hk & Hall & Hfst). exists k. split; [done|]. split.
    + intros j y Hy. apply Z.ltb_ge. eauto.
    + intros j y Hj Hy. apply Z.ltb_lt. eauto.
  - intros m (k & Hk & Hall & Hfst). exists k. split; [done|]. split.
    + intros j y Hy. specialize (Hall j y Hy). rewrite Z.gtb_ltb in Hall. by apply Z.ltb_ge.
    + intros j y Hj Hy. specialize (Hfst j y Hj Hy). rewrite Z.gtb_ltb in Hfst. by apply Z.ltb_lt.
Qed.

Lemma MinFunc_MaxFunc_correct_witness :
  MinFunc Z.sub [3; 1; 2; 1] ⇓ (fun m => exists k, [3; 1; 2; 1] !! k = Some m /\
    (forall j y, [3; 1; 2; 1] !! j = Some y -> 0 <= y - m) /\
    (forall j y, (j < k)%nat -> [3; 1; 2; 1] !! j = Some y -> m - y < 0)).
Proof.
  apply (MinFunc_MaxFunc_correct Z.sub sub_StrictWeak [3; 1; 2; 1]). intros u v. lia.
Defined.
