(* ===== verification/StableSort.v ===== *)
(** * Package slices: correctness of the stable sort

    The insertion sorts, in-place rotations and SymMerge of
    src/slices/zsortanyfunc.go.  Rotations are described on lists (two
    adjacent blocks change places); a rotation keeps equal elements in order
    when every element of the right block is smaller than every element of
    the left one, which is what the binary searches of SymMerge establish. *)
From Stdlib Require Import ZArith Lia Permutation.
From stdpp Require Import base numbers list sets sorting.
From S2P Require Import Prelude Bits Search Sort Segments PdqSort.

(** ** Rotations on lists *)

Section Rotate.
Context {E : Type}.
Implicit Types A B C P Q R u v x y d : list E.

Lemma swap_app P Q R s t i j :
  i = len P -> j = len P + 1 + len Q ->
  swap (P ++ s :: Q ++ t :: R) i j = Ok (P ++ t :: Q ++ s :: R).
Proof.
  intros -> ->. rewrite swap_Ok by len_lia. unfold exchange, len. f_equal.
  replace (Z.to_nat (Z.of_nat (length P))) with (length P) by lia.
  replace (Z.to_nat (Z.of_nat (length P) + 1 + Z.of_nat (length Q)))
    with (length P + S (length Q))%nat by lia.
  rewrite list_lookup_middle by done. rewrite lookup_app_r by lia.
  replace (length P + S (length Q) - length P)%nat with (S (length Q)) by lia.
  change ((s :: Q ++ t :: R) !! S (length Q)) with ((Q ++ t :: R) !! length Q).
  rewrite list_lookup_middle by done.
  rewrite (insert_app_r_alt P _ (length P)), Nat.sub_diag by lia. rewrite insert_app_r. f_equal.
  change (<[S (length Q) := s]> (<[0%nat := t]> (s :: Q ++ t :: R)))
    with (t :: <[length Q := s]> (Q ++ t :: R)). f_equal.
  by rewrite insert_app_r_alt, Nat.sub_diag by lia.
Qed.

Lemma swap_comm_app P Q R s t i j :
  i = len P -> j = len P + 1 + len Q ->
  swap (P ++ s :: Q ++ t :: R) j i = Ok (P ++ t :: Q ++ s :: R).
Proof.
  intros Hi Hj. rewrite <- (swap_app P Q R s t i j Hi Hj).
  rewrite !swap_Ok by len_lia. f_equal. apply list_eq. intros k.
  rewrite !exchange_lookup by (len_simpl; cbn [length]; len_simpl; cbn [length]; unfold len in *; lia).
  repeat case_decide; congruence.
Qed.

Lemma swapRange_spec A x B y C a b n :
  a = len A -> b = len A + len x + len B -> n = len x -> n = len y ->
  swapRangeCmpFunc (A ++ x ++ B ++ y ++ C) a b n ⇓ (fun d => d = A ++ y ++ B ++ x ++ C).
Proof.
  intros -> -> -> Hn. unfold swapRangeCmpFunc.
  apply (loop_returns (fun '(d, i) => exists x1 x2 y1 y2, x = x1 ++ x2 /\ y = y1 ++ y2 /\
      len x1 = i /\ len y1 = i /\ d = A ++ y1 ++ x2 ++ B ++ x1 ++ y2 ++ C)
    (fun '(d, i) => Z.max 0 (len x - i))).
  - intros [d i] (x1 & x2 & y1 & y2 & -> & -> & <- & Hy & ->). destruct (Z.ltb_spec (len x1) (len (x1 ++ x2))).
    + destruct x2 as [|s x2]; [len_lia|]. destruct y2 as [|t y2]; [len_lia|].
      apply returns_bind.
      assert (Es : A ++ y1 ++ (s :: x2) ++ B ++ x1 ++ (t :: y2) ++ C
                 = (A ++ y1) ++ s :: (x2 ++ B ++ x1) ++ t :: (y2 ++ C)) by (by rewrite <- !app_assoc).
      rewrite Es, swap_app by len_lia. cbn. split; [|len_lia].
      exists (x1 ++ [s]), x2, (y1 ++ [t]), y2. rewrite <- !app_assoc. repeat split; (done || len_lia).
    + cbn. assert (len x2 = 0) as ->%len_zero_inv by len_lia.
      assert (len y2 = 0) as ->%len_zero_inv by len_lia. by rewrite !app_nil_r.
  - exists [], x, [], y. done.
  - len_lia.
  - lia.
Qed.

Lemma rotate_spec A u v C a m b :
  a = len A -> m = len A + len u -> b = len A + len u + len v -> u <> [] -> v <> [] ->
  rotateCmpFunc (A ++ u ++ v ++ C) a m b ⇓ (fun d => d = A ++ v ++ u ++ C).
Proof.
  intros -> -> -> Hu Hv. unfold rotateCmpFunc. set (m := len A + len u).
  assert (Hpos : forall w : list E, w <> [] -> 0 < len w) by (intros [|? w] ?; [done|len_lia]).
  apply (returns_bind_mono _ _ (fun '(d, i) => exists A' x y C', d = A' ++ x ++ y ++ C' /\
    A ++ v ++ u ++ C = A' ++ y ++ x ++ C' /\ i = len x /\ len x = len y /\ len A' = m - i)).
  - apply (loop_returns (fun '(d, i, j) => exists A' x y C', d = A' ++ x ++ y ++ C' /\
      A ++ v ++ u ++ C = A' ++ y ++ x ++ C' /\ i = len x /\ j = len y /\ len A' = m - i /\ 0 < i /\ 0 < j)
      (fun '(d, i, j) => Z.max 0 (i + j - 1))).
    + intros [[d i] j] (A' & x & y & C' & -> & HT & -> & -> & Hm & Hi & Hj).
      destruct (Z.eqb_spec (len x) (len y)); cbn [negb].
      { exists A', x, y, C'. auto. }
      destruct (Z.gtb_spec (len x) (len y)) as [Hgt|Hle].
      * destruct (slice_split x (len y)) as (x1 & x2 & -> & Hx1); [lia|].
        eapply returns_bind_mono.
        { rewrite <- app_assoc. apply (swapRange_spec A' x1 x2 y C'); len_lia. }
        intros d ->. split; [|len_lia]. exists (A' ++ y), x2, x1, C'.
        rewrite HT, <- !app_assoc. repeat split; (done || len_lia).
      * destruct (slice_split y (len y - len x)) as (y1 & y2 & -> & Hy1); [lia|].
        eapply returns_bind_mono.
        { rewrite <- app_assoc. apply (swapRange_spec A' x y1 y2 C'); len_lia. }
        intros d ->. split; [|len_lia]. exists A', y2, y1, (x ++ C').
        rewrite HT, <- !app_assoc. repeat split; (done || len_lia).
    + exists A, u, v, C. pose proof (Hpos u Hu). pose proof (Hpos v Hv). repeat split; len_lia.
    + pose proof (Hpos u Hu). pose proof (Hpos v Hv). len_lia.
    + lia.
  - intros [d i] (A' & x & y & C' & -> & HT & -> & Hxy & HA). rewrite HT.
    apply (swapRange_spec A' x [] y C'); len_lia.
Qed.

Lemma bubbleUp_spec A s v C a i :
  a = len A -> i = len A + 1 + len v ->
  bubbleUp (A ++ s :: v ++ C) a i ⇓ (fun d => d = A ++ v ++ s :: C).
Proof.
  intros -> ->. unfold bubbleUp.
  apply (loop_returns (fun '(d, k) => exists v1 v2, v = v1 ++ v2 /\ k = len A + len v1 /\
      d = A ++ v1 ++ s :: v2 ++ C) (fun '(d, k) => Z.max 0 (len A + len v - k))).
  - intros [d k] (v1 & v2 & -> & -> & ->). destruct v2 as [|t v2].
    + zcase; [len_lia|]. cbn. by rewrite app_nil_r.
    + zcase; [|len_lia]. apply returns_bind. rewrite app_assoc.
      change (s :: (t :: v2) ++ C) with (s :: [] ++ t :: v2 ++ C).
      rewrite (swap_app (A ++ v1)) by len_lia. cbn. split; [|len_lia].
      exists (v1 ++ [t]), v2. rewrite <- !app_assoc. repeat split; (done || len_lia).
  - exists [], v. repeat split. len_lia.
  - len_lia.
  - lia.
Qed.

Lemma bubbleDown_spec A u t C m i :
  i = len A -> m = len A + len u ->
  bubbleDown (A ++ u ++ t :: C) m i ⇓ (fun d => d = A ++ t :: u ++ C).
Proof.
  intros -> ->. unfold bubbleDown.
  apply (loop_returns (fun '(d, k) => exists u1 u2, u = u1 ++ u2 /\ k = len A + len u1 /\
      d = A ++ u1 ++ t :: u2 ++ C) (fun '(d, k) => Z.max 0 (k - len A))).
  - intros [d k] (u1 & u2 & -> & -> & ->). induction u1 as [|s u1 _] using rev_ind.
    + zcase; [len_lia|]. cbn. done.
    + zcase; [|len_lia]. apply returns_bind.
      assert (Es : A ++ (u1 ++ [s]) ++ t :: u2 ++ C = (A ++ u1) ++ s :: [] ++ t :: (u2 ++ C))
        by (by rewrite <- !app_assoc).
      rewrite Es. rewrite swap_comm_app by len_lia. cbn. split; [|len_lia].
      exists u1, (s :: u2). rewrite <- !app_assoc. repeat split; (done || len_lia).
  - exists u, []. rewrite app_nil_r. repeat split.
  - len_lia.
  - lia.
Qed.
End Rotate.

Section Stable.
Context {E : Type} (cmp : E -> E -> Z) `{SW : !StrictWeak cmp}.
Implicit Types A C u v l w d : list E.

Local Abbreviation le := (le cmp).
Local Abbreviation lt := (lt cmp).
Local Abbreviation SS := (StronglySorted (Segments.le cmp)).

(** ** Stability *)

(** Equivalent elements: neither precedes the other. *)
Definition equivb (x y : E) : bool := negb (less cmp x y) && negb (less cmp y x).

(** [w] has the elements of [l], and the elements of each equivalence class in
    the same order. *)
Definition stab l w : Prop :=
  Permutation w l /\ forall x, List.filter (equivb x) w = List.filter (equivb x) l.

Lemma stab_refl l : stab l l.
Proof. done. Qed.

Lemma stab_trans l1 l2 l3 : stab l1 l2 -> stab l2 l3 -> stab l1 l3.
Proof. intros [P1 F1] [P2 F2]. split; [by rewrite P2|]. intros x. by rewrite F2. Qed.

Lemma stab_app l1 l2 w1 w2 : stab l1 w1 -> stab l2 w2 -> stab (l1 ++ l2) (w1 ++ w2).
Proof.
  intros [P1 F1] [P2 F2]. split; [by rewrite P1, P2|]. intros x. by rewrite !List.filter_app, F1, F2.
Qed.

Lemma stab_len l w : stab l w -> len w = len l.
Proof. intros [P _]. unfold len. by rewrite P. Qed.

Lemma filter_none (f : E -> bool) l : (forall x, x ∈ l -> f x = false) -> List.filter f l = [].
Proof.
  induction l as [|y l IH]; intros H; [done|]. simpl. rewrite H by set_solver. apply IH. set_solver.
Qed.

(** A block of smaller elements may pass a block of greater ones. *)
Lemma stab_rotate u v : (forall s t, s ∈ u -> t ∈ v -> lt t s) -> stab (u ++ v) (v ++ u).
Proof.
  intros H. split; [apply Permutation_app_comm|]. intros x. rewrite !List.filter_app.
  destruct (List.filter (equivb x) u) as [|s fu] eqn:Eu; [by rewrite app_nil_r|].
  assert (Hs : s ∈ u /\ equivb x s = true).
  { assert (Hin : In s (List.filter (equivb x) u)) by (rewrite Eu; by left).
    apply filter_In in Hin. by rewrite list_elem_of_In. }
  destruct Hs as [Hs Ex]. unfold equivb in Ex. apply andb_true_iff in Ex as [E1 E2].
  rewrite (filter_none _ v), app_nil_r; [done|]. intros t Ht.
  unfold equivb. destruct (less cmp x t) eqn:Ext; [done|]. destruct (less cmp t x) eqn:Etx; [done|].
  pose proof (H s t Hs Ht) as Hlt. apply negb_true_iff in E1. 
  assert (lt x s) by (eapply le_lt_trans; [done| |exact Hlt]; exact Etx).
  unfold Segments.lt in *. congruence.
Qed.

Lemma stab_rotate_in A u v C :
  (forall s t, s ∈ u -> t ∈ v -> lt t s) -> stab (A ++ u ++ v ++ C) (A ++ v ++ u ++ C).
Proof.
  intros H. apply stab_app; [apply stab_refl|]. rewrite !app_assoc.
  apply stab_app; [by apply stab_rotate|apply stab_refl].
Qed.

(** ** Sorted blocks and sorted segments *)

Lemma SS_lookup l :
  SS l <-> forall i j x y, (i < j)%nat -> l !! i = Some x -> l !! j = Some y -> le x y.
Proof.
  induction l as [|z l IH].
  - split; [done|constructor].
  - rewrite StronglySorted_cons, IH, Forall_lookup. split.
    + intros [Hz Hl] [|i] [|j] x y Hij Hx Hy; try lia; simplify_eq/=; eauto with lia.
      apply (Hl i j); (done || lia).
    + intros H. split.
      * intros i x Hx. by apply (H 0%nat (S i)); [lia|..].
      * intros i j x y Hij Hx Hy. by apply (H (S i) (S j)); [lia|..].
Qed.

Lemma at_block A w C k :
  len A <= k < len A + len w -> at_ (A ++ w ++ C) k = w !! Z.to_nat (k - len A).
Proof.
  intros Hk. unfold at_, len in *. rewrite lookup_app_r by lia. rewrite lookup_app_l by lia. f_equal. lia.
Qed.

Lemma SS_sorted A w C a b :
  a = len A -> b = len A + len w -> SS w -> sorted cmp a b (A ++ w ++ C).
Proof.
  intros -> -> Hw p q Hp Hq. unfold leA. rewrite !at_block by lia.
  destruct (lookup_lt_is_Some_2 w (Z.to_nat (p - len A))) as [x Hx]; [unfold len in *; lia|].
  destruct (lookup_lt_is_Some_2 w (Z.to_nat (q - len A))) as [y Hy]; [unfold len in *; lia|].
  exists x, y. split; [done|]. split; [done|]. destruct (decide (p = q)) as [->|].
  - simplify_eq. by apply le_refl.
  - eapply SS_lookup; [exact Hw| |exact Hx|exact Hy]. lia.
Qed.

Lemma sorted_SS A w C a b :
  a = len A -> b = len A + len w -> sorted cmp a b (A ++ w ++ C) -> SS w.
Proof.
  intros -> -> Hs. apply SS_lookup. intros i j x y Hij Hx Hy.
  pose proof (lookup_lt_Some _ _ _ Hy) as Hj.
  destruct (Hs (len A + Z.of_nat i) (len A + Z.of_nat j)) as (x' & y' & Hx' & Hy' & Hle);
    [lia|unfold len; lia|].
  rewrite at_block in Hx', Hy' by (unfold len; lia).
  replace (Z.to_nat (len A + Z.of_nat i - len A)) with i in Hx' by lia.
  replace (Z.to_nat (len A + Z.of_nat j - len A)) with j in Hy' by lia. by simplify_eq.
Qed.

(** ** The binary searches of SymMerge *)

(** A search by a test of the elements of one sorted block. *)
Lemma bisect_block A w C right (test : E -> bool) i j :
  i = len A -> j = len A + len w -> len (A ++ w ++ C) < 2 ^ 62 -> SS w ->
  (forall h x, 0 <= h -> at_ (A ++ w ++ C) h = Some x -> right h = Ok (test x)) ->
  (forall x y, le x y -> test y = true -> test x = true) ->
  bisect right i j ⇓ (fun i => exists w1 w2, w = w1 ++ w2 /\ i = len A + len w1 /\
    (forall x, x ∈ w1 -> test x = true) /\ (forall x, x ∈ w2 -> test x = false)).
Proof.
  intros -> -> Hmax Hw Hright Hmono. set (d := A ++ w ++ C) in *.
  set (P := fun h => match at_ d h with Some x => test x | None => false end).
  assert (Hat : forall h, len A <= h < len A + len w -> exists x, at_ d h = Some x).
  { intros h Hh. apply at_in. unfold d. len_lia. }
  eapply returns_mono; [apply (bisect_spec _ P)|].
  - len_lia.
  - unfold d in Hmax. len_lia.
  - intros h Hh. destruct (Hat h Hh) as [x Hx]. unfold P. rewrite Hx. apply Hright; [len_lia|done].
  - intros h k Hh Hk. destruct (SS_sorted A w C _ _ eq_refl eq_refl Hw h k) as (x & y & Hx & Hy & Hle); [lia|lia|].
    unfold P, d. rewrite Hx, Hy. eauto.
  - intros i (Hi & Hlo & Hhi). destruct (slice_split w (i - len A)) as (w1 & w2 & -> & Hw1); [lia|].
    exists w1, w2. split; [done|]. split; [lia|]. split; intros x [k Hk]%list_elem_of_lookup;
      pose proof (lookup_lt_Some _ _ _ Hk).
    + specialize (Hlo (len A + Z.of_nat k) ltac:(unfold len in *; lia)). unfold P, d in Hlo.
      rewrite <- app_assoc, at_block in Hlo by (unfold len; lia).
      by replace (Z.to_nat (len A + Z.of_nat k - len A)) with k in Hlo by lia; rewrite Hk in Hlo.
    + specialize (Hhi (i + Z.of_nat k) ltac:(len_simpl; unfold len in *; lia)). unfold P, d in Hhi.
      rewrite <- app_assoc, (app_assoc A w1), at_block in Hhi by (len_simpl; unfold len in *; lia).
      replace (Z.to_nat (i + Z.of_nat k - len (A ++ w1))) with k in Hhi by len_lia. by rewrite Hk in Hhi.
Qed.

Lemma midpoint_eq a b : 0 <= a -> 0 <= b -> a + b < 2 ^ 63 -> midpoint a b = (a + b) / 2.
Proof.
  intros. unfold midpoint. rewrite u64_id, shiftr_div, i64_id; [done|zdm|lia|lia].
Qed.

(** The search for the place to split both blocks: the elements of [u] from
    [start] on are all greater than the elements of [v] before [end], and the
    other two pieces are in order too. *)
Lemma symSearch_spec d a m b :
  0 <= a < m -> m < b <= len d -> len d < 2 ^ 62 -> sorted cmp a m d -> sorted cmp m b d ->
  let mid := (a + b) / 2 in
  let n := mid + m in
  let '(start, r) := if m >? mid then (n - b, mid) else (a, m) in
  bisect (fun c => let! b := lessAt cmp d (n - 1 - c) c in Ok (negb b)) start r
  ⇓ (fun start => a <= start <= m /\ start <= mid /\ m <= n - start <= b /\
      (forall p q x y, start <= p < m -> m <= q < n - start ->
         at_ d p = Some x -> at_ d q = Some y -> lt y x) /\
      (forall p q x y, a <= p < start -> n - start <= q < b ->
         at_ d p = Some x -> at_ d q = Some y -> le x y)).
Proof.
  intros Ha Hb Hmax Hu Hv mid n. assert (Hmid : 2 * mid <= a + b < 2 * mid + 2) by (unfold mid; zdm).
  clearbody mid. destruct (if m >? mid then (n - b, mid) else (a, m)) as [s0 r] eqn:Es.
  assert (Hs0 : a <= s0 <= r /\ r <= m /\ r <= mid /\ n - 1 - s0 < b /\ (s0 = a \/ n - s0 = b) /\
                (r = m \/ r = mid)).
  { destruct (Z.gtb_spec m mid); injection Es as <- <-; unfold n; lia. }
  set (P := fun c => match at_ d (n - 1 - c), at_ d c with
                     | Some y, Some x => negb (less cmp y x) | _, _ => false end).
  assert (HP : forall c, s0 <= c < r -> exists x y, at_ d c = Some x /\ at_ d (n - 1 - c) = Some y /\
    P c = negb (less cmp y x)).
  { intros c Hc. destruct (at_in d c) as [x Hx]; [lia|]. destruct (at_in d (n - 1 - c)) as [y Hy]; [lia|].
    exists x, y. unfold P. by rewrite Hx, Hy. }
  eapply returns_mono; [apply (bisect_spec _ P); [lia|lia| |]|].
  - intros c Hc. destruct (HP c Hc) as (x & y & Hx & Hy & ->). unfold lessAt.
    by rewrite (idx_Ok d (n - 1 - c) y), (idx_Ok d c x) by (done || lia).
  - intros h k Hh Hk. destruct (HP h) as (x & y & Hx & Hy & ->); [lia|].
    destruct (HP k) as (x' & y' & Hx' & Hy' & ->); [lia|]. rewrite !negb_true_iff. intros Hle.
    destruct (Hu h k) as (? & ? & ? & ? & Hle1); [lia|lia|].
    destruct (Hv (n - 1 - k) (n - 1 - h)) as (? & ? & ? & ? & Hle2); [lia|lia|]. simplify_eq.
    apply (le_trans _ _ x'); [done|]. by apply (le_trans _ _ y').
  - intros s (Hs & Hlo & Hhi). split; [lia|]. split; [lia|]. split; [lia|]. split.
    + intros p q x y Hp Hq Hx Hy. destruct (HP s) as (x0 & y0 & Hx0 & Hy0 & EP); [lia|].
      rewrite Hhi in EP by lia. symmetry in EP. apply negb_false_iff in EP.
      destruct (Hu s p) as (? & ? & ? & ? & Hle1); [lia|lia|].
      destruct (Hv q (n - 1 - s)) as (? & ? & ? & ? & Hle2); [lia|lia|]. simplify_eq.
      eapply le_lt_trans; [done|exact Hle2|]. by eapply lt_le_trans.
    + intros p q x y Hp Hq Hx Hy. destruct (HP (s - 1)) as (x0 & y0 & Hx0 & Hy0 & EP); [lia|].
      rewrite Hlo in EP by lia. symmetry in EP. apply negb_true_iff in EP.
      destruct (Hu p (s - 1)) as (? & ? & ? & ? & Hle1); [lia|lia|].
      destruct (Hv (n - 1 - (s - 1)) q) as (? & ? & ? & ? & Hle2); [lia|lia|]. simplify_eq.
      apply (le_trans _ _ x0); [done|]. by apply (le_trans _ _ y0).
Qed.

(** ** SymMerge *)

(** [f] merges the two blocks at [a, m) and [m, b) of a slice. *)
Definition merges (f : list E -> res (list E)) A u v C : Prop :=
  f (A ++ u ++ v ++ C) ⇓ (fun d => exists w, d = A ++ w ++ C /\ stab (u ++ v) w /\ SS w).

Lemma stab_elem l w x : stab l w -> x ∈ w -> x ∈ l.
Proof. intros [P _]. by rewrite P. Qed.

Lemma symMerge_left A s v C a m b fuel :
  a = len A -> m = len A + 1 -> b = m + len v -> len (A ++ [s] ++ v ++ C) < 2 ^ 62 -> SS v ->
  merges (fun d => symMerge cmp (S fuel) d a m b) A [s] v C.
Proof.
  intros -> -> -> Hmax Hv. unfold merges. cbn [symMerge].
  destruct (Z.eqb_spec (len A + 1 - len A) 1); [|lia].
  assert (Es : A ++ [s] ++ v ++ C = (A ++ [s]) ++ v ++ C) by (by rewrite <- app_assoc).
  eapply returns_bind_mono.
  - apply (bisect_block (A ++ [s]) v C _ (fun x => less cmp x s)); [len_lia|len_lia|by rewrite <- Es|done| |].
    + intros h x Hh Hx. unfold lessAt. rewrite Es, (idx_Ok _ h x) by (done || lia).
      rewrite (idx_Ok _ (len A) s); [done|len_lia|]. rewrite <- Es. unfold len. rewrite Nat2Z.id.
      by apply list_lookup_middle.
    + intros x y Hxy Hy. by eapply le_lt_trans.
  - intros i (v1 & v2 & -> & -> & H1 & H2). 
    eapply returns_mono; [rewrite <- app_assoc; apply (bubbleUp_spec A s v1 (v2 ++ C)); len_lia|].
    intros d ->. exists (v1 ++ s :: v2). split; [by rewrite <- app_assoc|]. split.
    + change (s :: v2) with ([s] ++ v2). apply (stab_rotate_in [] [s] v1 v2).
      intros ? t ->%list_elem_of_singleton Ht. by apply H1.
    + apply StronglySorted_app in Hv as (Hc & Hv1 & Hv2).
      apply StronglySorted_app_2; [|done|].
      * intros x y Hx [->|Hy]%elem_of_cons; [|by apply Hc]. by apply lt_le, H1.
      * apply StronglySorted_cons. split; [|done]. apply Forall_forall. intros y Hy. by apply H2.
Qed.

Lemma symMerge_right A u t C a m b fuel :
  a = len A -> m = len A + len u -> b = m + 1 -> len u <> 1 -> len (A ++ u ++ [t] ++ C) < 2 ^ 62 -> SS u ->
  merges (fun d => symMerge cmp (S fuel) d a m b) A u [t] C.
Proof.
  intros -> -> -> Hne Hmax Hu. unfold merges. cbn [symMerge].
  destruct (Z.eqb_spec (len A + len u - len A) 1); [lia|].
  destruct (Z.eqb_spec (len A + len u + 1 - (len A + len u)) 1); [|lia].
  eapply returns_bind_mono.
  - apply (bisect_block A u ([t] ++ C) _ (fun x => negb (less cmp t x))); [done|done|done|done| |].
    + intros h x Hh Hx. unfold lessAt. rewrite (idx_Ok _ h x) by (done || lia).
      rewrite (idx_Ok _ (len A + len u) t); [done|len_lia|]. rewrite app_assoc.
      replace (Z.to_nat (len A + len u)) with (length (A ++ u)) by (rewrite length_app; unfold len; lia).
      by apply list_lookup_middle.
    + intros x y Hxy. rewrite !negb_true_iff. intros Hty. by eapply le_trans.
  - intros i (u1 & u2 & -> & -> & H1 & H2).
    assert (Hsm : forall s, s ∈ u2 -> lt t s) by (intros s Hs; apply negb_false_iff, H2, Hs).
    eapply returns_mono.
    { rewrite <- (app_assoc u1), (app_assoc A u1). apply bubbleDown_spec; len_lia. }
    intros d ->. exists (u1 ++ t :: u2). split; [by rewrite <- !app_assoc|]. split.
    + rewrite <- app_assoc. change (t :: u2) with ([t] ++ u2). rewrite <- (app_nil_r u2) at 2.
      rewrite <- (app_nil_r [t]) at 1. apply (stab_rotate_in u1 u2 [t] []).
      intros s ? Hs ->%list_elem_of_singleton. by apply Hsm.
    + apply StronglySorted_app in Hu as (Hc & Hu1 & Hu2).
      apply StronglySorted_app_2; [|done|].
      * intros x y Hx [->|Hy]%elem_of_cons; [|by apply Hc]. by apply negb_true_iff, H1.
      * apply StronglySorted_cons. split; [|done]. apply Forall_forall. intros y Hy. by apply lt_le, Hsm.
Qed.

(** A merge that is skipped when one of the blocks is empty. *)
Lemma merge_or_skip (c : bool) f A u v C d :
  SS u -> SS v -> d = A ++ u ++ v ++ C -> (c = true -> merges f A u v C) ->
  (c = false -> u = [] \/ v = []) ->
  (if c then f d else Ok d) ⇓ (fun d => exists w, d = A ++ w ++ C /\ stab (u ++ v) w /\ SS w).
Proof.
  intros Hu Hv -> Hm Hs. destruct c; [by apply Hm|]. cbn. exists (u ++ v).
  split; [by rewrite <- app_assoc|]. split; [apply stab_refl|].
  destruct Hs as [-> | ->]; [done| |]; rewrite ?app_nil_r; done.
Qed.

(** The pieces the search of SymMerge leaves, as lists. *)
Lemma symSearch_lists A u1 u2 v1 v2 C start m end_ :
  start = len A + len u1 -> m = start + len u2 -> end_ = m + len v1 ->
  let d := A ++ (u1 ++ u2) ++ (v1 ++ v2) ++ C in
  (forall p q x y, start <= p < m -> m <= q < end_ ->
     at_ d p = Some x -> at_ d q = Some y -> lt y x) ->
  (forall p q x y, len A <= p < start -> end_ <= q < end_ + len v2 ->
     at_ d p = Some x -> at_ d q = Some y -> le x y) ->
  (forall s t, s ∈ u2 -> t ∈ v1 -> lt t s) /\ (forall x y, x ∈ u1 -> y ∈ v2 -> le x y).
Proof.
  intros -> -> -> d H1 H2.
  assert (Hat : forall P w R k x, d = P ++ w ++ R -> w !! k = Some x -> at_ d (len P + Z.of_nat k) = Some x).
  { intros P w R k x -> Hk. pose proof (lookup_lt_Some _ _ _ Hk).
    rewrite at_block by (unfold len; lia). by replace (Z.to_nat (len P + Z.of_nat k - len P)) with k by lia. }
  assert (Hlen : forall (w : list E) k x, w !! k = Some x -> Z.of_nat k < len w).
  { intros w k x Hk. apply lookup_lt_Some in Hk. unfold len. lia. }
  split; intros x y [i Hi]%list_elem_of_lookup [j Hj]%list_elem_of_lookup;
    pose proof (Hlen _ _ _ Hi); pose proof (Hlen _ _ _ Hj).
  - apply (H1 (len (A ++ u1) + Z.of_nat i) (len (A ++ u1 ++ u2) + Z.of_nat j)); [len_lia|len_lia| |].
    + apply (Hat _ u2 ((v1 ++ v2) ++ C)); [|done]. unfold d. by rewrite <- !app_assoc.
    + apply (Hat _ v1 (v2 ++ C)); [|done]. unfold d. by rewrite <- !app_assoc.
  - apply (H2 (len A + Z.of_nat i) (len (A ++ u1 ++ u2 ++ v1) + Z.of_nat j)); [len_lia|len_lia| |].
    + apply (Hat _ u1 (u2 ++ (v1 ++ v2) ++ C)); [|done]. unfold d. by rewrite <- !app_assoc.
    + apply (Hat _ v2 C); [|done]. unfold d. by rewrite <- !app_assoc.
Qed.

(** The two halves, merged one after the other. *)
Lemma symMerge_halves (c1 c2 : bool) f g A u1 u2 v1 v2 C :
  SS (u1 ++ u2) -> SS (v1 ++ v2) ->
  (forall s t, s ∈ u2 -> t ∈ v1 -> lt t s) -> (forall x y, x ∈ u1 -> y ∈ v2 -> le x y) ->
  (c1 = true -> merges f A u1 v1 (u2 ++ v2 ++ C)) -> (c1 = false -> u1 = [] \/ v1 = []) ->
  (c2 = true -> forall A', len A' = len A + len u1 + len v1 -> merges g A' u2 v2 C) ->
  (c2 = false -> u2 = [] \/ v2 = []) ->
  (let! d := if c1 then f (A ++ u1 ++ v1 ++ u2 ++ v2 ++ C) else Ok (A ++ u1 ++ v1 ++ u2 ++ v2 ++ C) in
   if c2 then g d else Ok d)
  ⇓ (fun d => exists w, d = A ++ w ++ C /\ stab ((u1 ++ u2) ++ v1 ++ v2) w /\ SS w).
Proof.
  intros Hu Hv Hlt Hle Hf Hf' Hg Hg'.
  apply StronglySorted_app in Hu as (Huu & Hu1 & Hu2), Hv as (Hvv & Hv1 & Hv2).
  eapply returns_bind_mono; [by apply (merge_or_skip c1 f A u1 v1 (u2 ++ v2 ++ C))|].
  intros d (w1 & -> & St1 & S1). pose proof (stab_len _ _ St1) as L1.
  eapply returns_mono; [apply (merge_or_skip c2 g (A ++ w1) u2 v2 C); [done|done| | |done]|].
  - by rewrite <- app_assoc.
  - intros Hc. apply Hg; [done|]. len_lia.
  - intros d (w2 & -> & St2 & S2). exists (w1 ++ w2). split; [by rewrite <- !app_assoc|]. split.
    + eapply stab_trans; [|by apply stab_app].
      rewrite <- !app_assoc. by apply stab_rotate_in.
    + apply StronglySorted_app_2; [|done|done]. intros x y Hx Hy.
      apply (stab_elem _ _ _ St1), elem_of_app in Hx. apply (stab_elem _ _ _ St2), elem_of_app in Hy.
      destruct Hx, Hy; eauto using lt_le.
Qed.

Lemma len_pos w : w <> [] -> 0 < len w.
Proof. destruct w; [done|]. intros _. len_lia. Qed.

Lemma symMerge_spec fuel : forall A u v C a m b,
  a = len A -> m = len A + len u -> b = len A + len u + len v -> u <> [] -> v <> [] ->
  len (A ++ u ++ v ++ C) < 2 ^ 62 -> b - a < Z.of_nat fuel -> SS u -> SS v ->
  merges (fun d => symMerge cmp fuel d a m b) A u v C.
Proof.
  induction fuel as [|fuel IH]; intros A u v C a m b -> -> -> Hu Hv Hmax Hf Su Sv.
  { pose proof (len_pos u Hu). len_lia. }
  apply len_pos in Hu as Lu, Hv as Lv.
  destruct (decide (len u = 1)) as [E1|N1].
  { destruct u as [|s [|? u]]; [done| |len_lia]. by apply symMerge_left; try len_lia. }
  destruct (decide (len v = 1)) as [E2|N2].
  { destruct v as [|t [|? v]]; [done| |len_lia]. by apply symMerge_right; try len_lia. }
  unfold merges. cbn [symMerge]. destruct (Z.eqb_spec (len A + len u - len A) 1); [lia|].
  destruct (Z.eqb_spec (len A + len u + len v - (len A + len u)) 1); [lia|].
  pose proof (len_nonneg A). assert (len A + len u + len v < 2 ^ 62) by len_lia.
  rewrite midpoint_eq, i64_id by (zdm || lia).
  pose proof (symSearch_spec (A ++ u ++ v ++ C) (len A) (len A + len u) (len A + len u + len v)
    ltac:(lia) ltac:(len_lia) Hmax) as Hsearch. cbv zeta in Hsearch.
  set (a := len A) in *. set (m := a + len u) in *. set (b := m + len v) in *.
  set (mid := (a + b) / 2) in *. assert (Hmid : 2 * mid <= a + b < 2 * mid + 2) by (unfold mid; zdm).
  destruct (if m >? mid then (mid + m - b, mid) else (a, m)) as [s0 r].
  eapply returns_bind_mono.
  { apply Hsearch; [by apply SS_sorted|].
    rewrite app_assoc. apply SS_sorted; [len_lia|len_lia|done]. }
  clear s0 r Hsearch. intros start (Hs1 & Hs2 & Hs3 & Hlt & Hle).
  destruct (slice_split u (start - a)) as (u1 & u2 & -> & Lu1); [lia|].
  destruct (slice_split v (mid - start)) as (v1 & v2 & -> & Lv1); [lia|].
  assert (Em : m = a + (len u1 + len u2)) by (unfold m; len_lia).
  assert (Eb : b = m + (len v1 + len v2)) by (unfold b; len_lia).
  assert (Ea : a = len A) by done. clearbody mid m b. clearbody a.
  destruct (symSearch_lists A u1 u2 v1 v2 C start m (mid + m - start)) as [Hlt' Hle'];
    [lia|lia|lia|done| |].
  { intros p q x y Hp Hq. apply Hle; lia. }
  assert (Hnil : forall w : list E, len w <= 0 -> w = []).
  { intros w Hw. apply len_zero_inv. pose proof (len_nonneg w). lia. }
  apply (returns_bind_mono _ _ (fun d => d = A ++ u1 ++ v1 ++ u2 ++ v2 ++ C)).
  { rewrite <- !app_assoc. destruct (_ && _) eqn:Ec.
    - apply andb_true_iff in Ec as [Ec1%Z.ltb_lt Ec2%Z.ltb_lt].
      rewrite (app_assoc A u1).
      eapply returns_mono; [apply (rotate_spec (A ++ u1) u2 v1 (v2 ++ C)); [len_lia..| |]; intros ->; len_lia|].
      intros d ->. by rewrite <- !app_assoc.
    - cbn. apply andb_false_iff in Ec as [Ec%Z.ltb_ge|Ec%Z.ltb_ge].
      + rewrite (Hnil u2) by lia. done.
      + rewrite (Hnil v1) by lia. done. }
  intros d ->. apply (symMerge_halves _ _ (fun d => symMerge cmp fuel d a start mid)
    (fun d => symMerge cmp fuel d mid (mid + m - start) b)); try done.
  - intros [Ec1%Z.ltb_lt Ec2%Z.ltb_lt]%andb_true_iff. apply StronglySorted_app in Su as (_ & Su1 & _), Sv as (_ & Sv1 & _).
    apply IH; [lia|lia|lia|intros ->; len_lia|intros ->; len_lia|len_lia|lia|done|done].
  - intros [Ec%Z.ltb_ge|Ec%Z.ltb_ge]%andb_false_iff; [left|right]; apply Hnil; lia.
  - intros [Ec1%Z.ltb_lt Ec2%Z.ltb_lt]%andb_true_iff A' HA'.
    apply StronglySorted_app in Su as (_ & _ & Su2), Sv as (_ & _ & Sv2).
    apply IH; [lia|lia|lia|intros ->; len_lia|intros ->; len_lia|len_lia|lia|done|done].
  - intros [Ec%Z.ltb_ge|Ec%Z.ltb_ge]%andb_false_iff; [left|right]; apply Hnil; lia.
Qed.

(** [d'] is [d] with the segment put in order, stably. *)
Definition stable_sorts (a b : Z) d d' : Prop :=
  stab d d' /\ (forall k, 0 <= k -> ~ a <= k < b -> at_ d' k = at_ d k) /\ sorted cmp a b d'.

Lemma symMergeCmpFunc_spec d a m b :
  0 <= a < m -> m < b <= len d -> len d < 2 ^ 62 -> sorted cmp a m d -> sorted cmp m b d ->
  symMergeCmpFunc cmp d a m b ⇓ stable_sorts a b d.
Proof.
  intros Ha Hb Hmax Sl Sr. unfold symMergeCmpFunc.
  destruct (slice_split d a) as (A & d1 & -> & LA); [lia|]. rewrite len_app in *.
  destruct (slice_split d1 (m - a)) as (u & d2 & -> & Lu); [lia|]. rewrite len_app in *.
  destruct (slice_split d2 (b - m)) as (v & C & -> & Lv); [lia|]. rewrite len_app in *.
  eapply returns_mono; [apply (symMerge_spec _ A u v C)|].
  - lia.
  - lia.
  - lia.
  - intros ->. len_lia.
  - intros ->. len_lia.
  - len_lia.
  - lia.
  - apply (sorted_SS A u (v ++ C) a m); (done || lia).
  - apply (sorted_SS (A ++ u) v C m b); [len_lia|len_lia|by rewrite <- app_assoc].
  - intros d (w & -> & St & Sw). pose proof (stab_len _ _ St) as Lw. rewrite len_app in Lw. split; [|split].
    + apply stab_app; [apply stab_refl|]. rewrite app_assoc. by apply stab_app; [|apply stab_refl].
    + intros k Hk Hout. unfold at_, len in *. destruct (Z.lt_ge_cases k a).
      * by rewrite !lookup_app_l by lia.
      * rewrite !(lookup_app_r A), (app_assoc u v C), !lookup_app_r by (rewrite ?length_app; lia).
        f_equal. rewrite length_app. lia.
    + apply SS_sorted; (done || lia).
Qed.

(** ** Insertion sort is stable *)

Lemma swap_adjacent_stab d j s t :
  0 < j -> at_ d (j - 1) = Some s -> at_ d j = Some t -> lt t s -> stab d (xchg d j (j - 1)).
Proof.
  intros Hj Hs Ht Hlt.
  assert (Hd : exists P R, d = P ++ [s] ++ [t] ++ R /\ len P = j - 1).
  { exists (take (Z.to_nat (j - 1)) d), (drop (S (Z.to_nat j)) d). unfold at_ in *.
    pose proof (lookup_lt_Some _ _ _ Hs). split.
    - rewrite <- (take_drop_middle d _ s Hs) at 1. f_equal. cbn [app]. f_equal.
      replace (S (Z.to_nat (j - 1))) with (Z.to_nat j) by lia. by rewrite (drop_S d t).
    - unfold len. rewrite length_take. lia. }
  destruct Hd as (P & R & -> & LP).
  assert (Ex : swap (P ++ [s] ++ [t] ++ R) j (j - 1) = Ok (P ++ [t] ++ [s] ++ R))
    by (apply (swap_comm_app P [] R); len_lia).
  rewrite swap_Ok in Ex by len_lia. injection Ex as Ex.
  replace (xchg (P ++ [s] ++ [t] ++ R) j (j - 1)) with (P ++ [t] ++ [s] ++ R) by (symmetry; exact Ex).
  apply stab_rotate_in. by intros ? ? ->%list_elem_of_singleton ->%list_elem_of_singleton.
Qed.

Lemma insertInner_stab d a i :
  0 <= a <= i -> i < len d -> insertInner cmp d a i ⇓ (fun d' => stab d d').
Proof.
  intros Ha Hi. unfold insertInner.
  apply (loop_returns (fun '(d', j) => stab d d' /\ a <= j <= i) (fun '(d', j) => j - a));
    [|split; [apply stab_refl|lia]|lia|lia].
  intros [d' j] [St Hj]. pose proof (stab_len _ _ St) as Hl. apply returns_bind.
  destruct (Z.gtb_spec j a); [|done].
  destruct (at_in d' j) as [t Ht]; [lia|]. destruct (at_in d' (j - 1)) as [s Hs]; [lia|].
  apply (lessAt_elem _ _ _ _ t s); [lia|lia|done|done|].
  destruct (less cmp t s) eqn:Hlt; [|done]. apply returns_bind, swap_returns; [lia|lia|].
  split; [|lia]. split; [|lia]. eapply stab_trans; [done|]. apply (swap_adjacent_stab _ _ s t); (done || lia).
Qed.

Lemma insertionSort_stable d a b :
  0 <= a -> a <= b <= len d -> insertionSortCmpFunc cmp d a b ⇓ stable_sorts a b d.
Proof.
  intros Ha Hb.
  assert (Hst : insertionSortCmpFunc cmp d a b ⇓ (fun d' => stab d d')).
  { unfold insertionSortCmpFunc. destruct (decide (b = a)) as [->|].
    { rewrite Z.sub_diag. simpl. zcase; [lia|]. apply stab_refl. }
    apply (loop_returns (fun '(d', i) => stab d d' /\ a < i <= b) (fun '(d', i) => b - i));
      [|split; [apply stab_refl|lia]|lia|lia].
    intros [d' i] [St Hi]. pose proof (stab_len _ _ St) as Hl. zcase; [|done].
    eapply returns_bind_mono; [apply insertInner_stab; lia|]. intros d2 St2.
    split; [|lia]. split; [by eapply stab_trans|lia]. }
  pose proof (insertionSort_spec cmp d a b Ha Hb) as Hs.
  eapply returns_mono; [apply (returns_conj _ _ _ Hst Hs)|]. intros d' (St & Hsh & Hsrt).
  split; [done|]. split; [|done]. intros k Hk Hout. by apply (shuffle_outside a b).
Qed.

(** ** Blocks *)

(** Every block of [bs] elements is sorted, within [lo, hi). *)
Definition blocks (bs lo hi : Z) d : Prop :=
  forall p q, lo <= p <= q -> q < hi -> p / bs = q / bs -> leA cmp d p q.

Lemma div_block k bs p : 0 < bs -> k * bs <= p < k * bs + bs -> p / bs = k.
Proof. intros Hbs Hp. symmetry. apply (Z.div_unique_pos p bs k (p - k * bs)); lia. Qed.

Lemma blocks_sorted bs lo hi d k (w : Z) :
  0 < bs -> blocks bs lo hi d -> lo <= k * bs -> k * bs + w <= hi -> w <= bs ->
  sorted cmp (k * bs) (k * bs + w) d.
Proof.
  intros Hbs H Hlo Hhi Hw p q Hp Hq. apply H; [lia|lia|].
  by rewrite (div_block k bs p), (div_block k bs q) by lia.
Qed.

Lemma blocks_extend bs d k b :
  0 < bs -> 0 <= k -> blocks bs 0 (k * bs) d -> k * bs <= b <= k * bs + bs -> sorted cmp (k * bs) b d ->
  blocks bs 0 b d.
Proof.
  intros Hbs Hk H Hb Hs p q Hp Hq E0. destruct (Z.lt_ge_cases q (k * bs)); [by apply H|].
  destruct (Z.lt_ge_cases p (k * bs)); [|apply Hs; lia].
  rewrite (div_block k bs q) in E0 by lia. pose proof (Z.div_lt_upper_bound p bs k). lia.
Qed.

Lemma blocks_outside bs lo hi a b d d' :
  0 <= lo -> hi <= a \/ b <= lo -> stable_sorts a b d d' -> blocks bs lo hi d -> blocks bs lo hi d'.
Proof.
  intros Hlo Hout (_ & Hat & _) H p q Hp Hq Eq. apply (leA_at cmp d); [apply Hat; lia..|by apply H].
Qed.

Lemma stable_sorts_trans a b d d1 d2 : stab d d1 -> stable_sorts a b d1 d2 -> stab d d2.
Proof. intros H1 [H2 _]. by eapply stab_trans. Qed.

Lemma sortBlocks_spec d n bs :
  0 < bs < 2 ^ 62 -> n <= len d -> 0 <= n < 2 ^ 62 ->
  sortBlocks cmp d n bs ⇓ (fun '(d', a) => stab d d' /\ blocks bs 0 a d' /\
    exists k, 0 <= k /\ a = k * bs /\ a <= n < a + bs).
Proof.
  intros Hbs Hn Hmax. unfold sortBlocks.
  apply (loop_returns (fun '(d', a, b) => stab d d' /\ blocks bs 0 a d' /\
      exists k, 0 <= k /\ a = k * bs /\ a <= n /\ b = a + bs) (fun '(d', a, b) => n - a)).
  - intros [[d' a] b] (St & Hbl & k & Hk & -> & Ha & ->). pose proof (stab_len _ _ St) as Hl.
    destruct (Z.leb_spec (k * bs + bs) n).
    + eapply returns_bind_mono; [apply insertionSort_stable; lia|]. intros d2 H2.
      rewrite i64_id by lia. split; [|lia]. split; [by eapply stable_sorts_trans|].
      replace (k * bs + bs) with ((k + 1) * bs) by lia. split.
      * apply (blocks_extend bs d2 k); [lia|lia| |lia|].
        -- eapply blocks_outside; [lia| |exact H2|done]. lia.
        -- destruct H2 as (_ & _ & Hs). by replace ((k + 1) * bs) with (k * bs + bs) by lia.
      * exists (k + 1). lia.
    + cbn. split; [done|]. split; [done|]. exists k. lia.
  - split; [apply stab_refl|]. split; [intros ?; lia|]. exists 0. lia.
  - lia.
  - lia.
Qed.

Lemma mergeBlocks_spec d n bs :
  0 < bs < n -> n <= len d -> len d < 2 ^ 62 -> blocks bs 0 n d ->
  mergeBlocks cmp d n bs ⇓ (fun d' => stab d d' /\ blocks (2 * bs) 0 n d').
Proof.
  intros Hbs Hn Hmax Hbl. unfold mergeBlocks.
  apply (returns_bind_mono _ _ (fun '(d', a) => stab d d' /\ blocks (2 * bs) 0 a d' /\ blocks bs a n d' /\
    exists k, 0 <= k /\ a = k * (2 * bs) /\ a <= n < a + 2 * bs)).
  { rewrite i64_id by lia.
    apply (loop_returns (fun '(d', a, b) => stab d d' /\ blocks (2 * bs) 0 a d' /\ blocks bs a n d' /\
      exists k, 0 <= k /\ a = k * (2 * bs) /\ a <= n /\ b = a + 2 * bs) (fun '(d', a, b) => n - a)).
    - intros [[d' a] b] (St & Hbl2 & Hbl1 & k & Hk & -> & Ha & ->). pose proof (stab_len _ _ St) as Hl.
      destruct (Z.leb_spec (k * (2 * bs) + 2 * bs) n); [|cbn; eauto 10 with lia].
      eapply returns_bind_mono; [apply symMergeCmpFunc_spec; [lia|lia|lia| |]|].
      + replace (k * (2 * bs)) with ((2 * k) * bs) by lia.
        apply (blocks_sorted bs (k * (2 * bs)) n); (done || lia).
      + replace (k * (2 * bs) + bs) with ((2 * k + 1) * bs) by lia.
        replace (k * (2 * bs) + 2 * bs) with ((2 * k + 1) * bs + bs) by lia.
        apply (blocks_sorted bs (k * (2 * bs)) n); (done || lia).
      + intros d2 H2. rewrite i64_id by lia. split; [|lia].
        split; [by eapply stable_sorts_trans|]. split; [|split; [|exists (k + 1); lia]].
        * apply (blocks_extend (2 * bs) d2 k); [lia|lia| |lia|apply H2].
          eapply blocks_outside; [lia| |exact H2|done]. lia.
        * eapply blocks_outside; [lia| |exact H2|]; [lia|]. intros p q Hp Hq. apply Hbl1; lia.
    - split; [apply stab_refl|]. split; [intros ?; lia|]. split; [done|]. exists 0. lia.
    - lia.
    - lia. }
  intros [d' a] (St & Hbl2 & Hbl1 & k & Hk & -> & Ha). pose proof (stab_len _ _ St) as Hl.
  rewrite i64_id by lia. destruct (Z.ltb_spec (k * (2 * bs) + bs) n).
  - eapply returns_mono; [apply symMergeCmpFunc_spec; [lia|lia|lia| |]|].
    + replace (k * (2 * bs)) with ((2 * k) * bs) by lia.
      apply (blocks_sorted bs (k * (2 * bs)) n); (done || lia).
    + replace (k * (2 * bs) + bs) with ((2 * k + 1) * bs) by lia.
      replace n with ((2 * k + 1) * bs + (n - (2 * k + 1) * bs)) by lia.
      apply (blocks_sorted bs (k * (2 * bs)) n); (done || lia).
    + intros d2 H2. split; [by eapply stable_sorts_trans|].
      apply (blocks_extend (2 * bs) d2 k); [lia|lia| |lia|apply H2].
      eapply blocks_outside; [lia| |exact H2|done]. lia.
  - cbn. split; [done|]. apply (blocks_extend (2 * bs) d' k); [lia|lia|done|lia|].
    replace (k * (2 * bs)) with ((2 * k) * bs) by lia.
    replace n with ((2 * k) * bs + (n - (2 * k) * bs)) by lia.
    apply (blocks_sorted bs (k * (2 * bs)) n); (done || lia).
Qed.

Lemma stableCmpFunc_spec d n :
  n = len d -> n < 2 ^ 62 ->
  stableCmpFunc cmp d n ⇓ (fun d' => stab d d' /\ sorted cmp 0 n d').
Proof.
  intros -> Hmax. pose proof (len_nonneg d). unfold stableCmpFunc.
  eapply returns_bind_mono; [apply sortBlocks_spec; lia|].
  intros [d1 a] (St1 & Hb1 & k & Hk & -> & Ha). pose proof (stab_len _ _ St1) as L1.
  eapply returns_bind_mono; [apply insertionSort_stable; lia|]. intros d2 H2.
  assert (St2 : stab d d2) by (by eapply stable_sorts_trans).
  apply (loop_returns (fun '(d', bs) => stab d d' /\ 20 <= bs < 2 ^ 63 /\ blocks bs 0 (len d) d')
    (fun '(d', bs) => Z.max 0 (len d - bs))).
  - intros [d' bs] (St & Hbs & Hbl). pose proof (stab_len _ _ St) as Hl.
    destruct (Z.ltb_spec bs (len d)).
    + eapply returns_bind_mono; [apply mergeBlocks_spec; (done || lia)|]. intros d3 [St3 Hb3].
      rewrite i64_id by lia. split; [|lia]. split; [by eapply stab_trans|]. split; [lia|].
      by replace (bs * 2) with (2 * bs) by lia.
    + cbn. split; [done|]. intros p q Hp Hq. apply Hbl; [lia|lia|]. by rewrite !Z.div_small by lia.
  - split; [done|]. split; [lia|]. apply (blocks_extend 20 d2 k); [lia|lia| |lia|apply H2].
    eapply blocks_outside; [lia| |exact H2|done]. lia.
  - lia.
  - lia.
Qed.
End Stable.

(** ** Theorems *)

(** C2: [slices.SortStableFunc] (insertion-sorted blocks merged by SymMerge)
    terminates on every slice without indexing out of range; it returns a
    permutation of its input in ascending order in which the elements
    equivalent to any given one appear in their original order. *)
Theorem SortStableFunc_correct {E} (cmp : E -> E -> Z) (SW : StrictWeak cmp) x :
  len x < 2 ^ 62 ->
  SortStableFunc cmp x ⇓ (fun y => Permutation y x /\ ascending cmp y /\
    forall e, List.filter (equivb cmp e) y = List.filter (equivb cmp e) x).
Proof.
  intros Hx. eapply returns_mono; [by apply stableCmpFunc_spec|]. intros y [[Hp Hf] Hs].
  split; [done|]. split; [|done]. apply sorted_ascending.
  unfold len in *. by rewrite (Permutation_length Hp).
Qed.

Lemma SortStableFunc_correct_witness :
  SortStableFunc (fun x y => x / 10 - y / 10) [35; 12; 31; 11; 19]
  ⇓ (fun y => Permutation y [35; 12; 31; 11; 19] /\ ascending (fun x y => x / 10 - y / 10) y /\
    forall e, List.filter (equivb (fun x y => x / 10 - y / 10) e) y
            = List.filter (equivb (fun x y => x / 10 - y / 10) e) [35; 12; 31; 11; 19]).
Proof.
  apply (SortStableFunc_correct (fun x y => x / 10 - y / 10)
    (key_StrictWeak (fun x => x / 10) Z.sub sub_StrictWeak)). vm_compute. reflexivity.
Defined.

(** the in-place rotation of SymMerge exchanges two adjacent blocks of any
    lengths and touches nothing else. *)
Theorem rotateCmpFunc_correct {E} (A u v C : list E) :
  u <> [] -> v <> [] ->
  rotateCmpFunc (A ++ u ++ v ++ C) (len A) (len A + len u) (len A + len u + len v)
  ⇓ (fun d => d = A ++ v ++ u ++ C).
Proof. intros Hu Hv. by apply rotate_spec. Qed.

Lemma rotateCmpFunc_correct_witness :
  rotateCmpFunc ([9] ++ [1; 2; 3] ++ [4; 5] ++ [8]) 1 4 6 ⇓ (fun d => d = [9] ++ [4; 5] ++ [1; 2; 3] ++ [8]).
Proof. apply (rotateCmpFunc_correct [9] [1; 2; 3] [4; 5] [8]); discriminate. Defined.
