(* ===== verification/JsonScanner.v ===== *)
(** * Package encoding/json: the scanner

    The byte-at-a-time state machine of src/encoding/json/scanner.go.  The
    function value kept in [scanner.step] is an element of the enumeration
    [stepFn], and [runStep] is the call through it.  The stack [parseState] is
    the source's slice, outermost entry first, with checked accesses.  The
    text of an error message is not built: a [SyntaxError] keeps the offending
    byte and the context the message is made from.

    The theorems relate [Valid] to the JSON grammar of RFC 8259, written below
    as inductive predicates. *)
From Stdlib Require Import Ascii String ZArith Lia.
From stdpp Require Import base numbers list.
From S2P Require Import Prelude.

(** ** The scanner *)

Inductive stepFn :=
| stateBeginValueOrEmpty | stateBeginValue | stateBeginStringOrEmpty | stateBeginString
| stateEndValue | stateEndTop | stateInString | stateInStringEsc | stateInStringEscU
| stateInStringEscU1 | stateInStringEscU12 | stateInStringEscU123
| stateNeg | state1 | state0 | stateDot | stateDot0 | stateE | stateESign | stateE0
| stateT | stateTr | stateTru | stateF | stateFa | stateFal | stateFals
| stateN | stateNu | stateNul | stateError.

Inductive opcode :=
| scanContinue | scanBeginLiteral | scanBeginObject | scanObjectKey | scanObjectValue
| scanEndObject | scanBeginArray | scanArrayValue | scanEndArray | scanSkipSpace
| scanEnd | scanError.

Inductive parseKind := parseObjectKey | parseObjectValue | parseArrayValue.

#[global] Instance stepFn_eq_dec : EqDecision stepFn.
Proof. solve_decision. Defined.
#[global] Instance opcode_eq_dec : EqDecision opcode.
Proof. solve_decision. Defined.
#[global] Instance parseKind_eq_dec : EqDecision parseKind.
Proof. solve_decision. Defined.

Inductive SyntaxError :=
| invalidCharacter (c : Z) (context : string) (Offset : Z)
| unexpectedEnd (Offset : Z).

Record scanner := mkScanner {
  step : stepFn;
  endTop : bool;
  parseState : list parseKind;
  err : option SyntaxError;
  bytes : Z;
}.

Definition set_step (k : stepFn) (s : scanner) : scanner :=
  mkScanner k (endTop s) (parseState s) (err s) (bytes s).
Definition set_endTop (b : bool) (s : scanner) : scanner :=
  mkScanner (step s) b (parseState s) (err s) (bytes s).
Definition set_parseState (p : list parseKind) (s : scanner) : scanner :=
  mkScanner (step s) (endTop s) p (err s) (bytes s).
Definition set_err (e : option SyntaxError) (s : scanner) : scanner :=
  mkScanner (step s) (endTop s) (parseState s) e (bytes s).
Definition set_bytes (n : Z) (s : scanner) : scanner :=
  mkScanner (step s) (endTop s) (parseState s) (err s) n.

Definition maxNestingDepth : Z := 10000.

Definition reset (s : scanner) : scanner :=
  let s := set_step stateBeginValue s in
  let s := set_parseState [] s in
  let s := set_err None s in
  set_endTop false s.

(** scanner.error *)
Definition error (s : scanner) (c : Z) (context : string) : scanner * opcode :=
  let s := set_step stateError s in
  (set_err (Some (invalidCharacter c context (bytes s))) s, scanError).

Definition pushParseState (s : scanner) (c : Z) (newParseState : parseKind)
    (successState : opcode) : scanner * opcode :=
  let s := set_parseState (parseState s ++ [newParseState]) s in
  if len (parseState s) <=? maxNestingDepth then (s, successState)
  else error s c "exceeded max depth".

Definition popParseState (s : scanner) : res scanner :=
  let n := len (parseState s) - 1 in
  let! p := slice (parseState s) 0 n in
  let s := set_parseState p s in
  if n =? 0 then Ok (set_endTop true (set_step stateEndTop s))
  else Ok (set_step stateEndValue s).

Definition isSpace (c : Z) : bool :=
  (c <=? ch " ") && ((c =? ch " ") || (c =? 9) || (c =? 13) || (c =? 10)).

Definition isDigit (c : Z) : bool := (ch "0" <=? c) && (c <=? ch "9").
Definition isDigit19 (c : Z) : bool := (ch "1" <=? c) && (c <=? ch "9").
Definition isHex (c : Z) : bool :=
  isDigit c || ((ch "a" <=? c) && (c <=? ch "f")) || ((ch "A" <=? c) && (c <=? ch "F")).

Definition doStateEndTop (s : scanner) (c : Z) : scanner * opcode :=
  let s := if negb (isSpace c) then fst (error s c "after top-level value") else s in
  (s, scanEnd).

Definition doStateEndValue (s : scanner) (c : Z) : res (scanner * opcode) :=
  let n := len (parseState s) in
  if n =? 0 then
    let s := set_endTop true (set_step stateEndTop s) in
    Ok (doStateEndTop s c)
  else if isSpace c then Ok (set_step stateEndValue s, scanSkipSpace)
  else
  let! ps := idx (parseState s) (n - 1) in
  match ps with
  | parseObjectKey =>
      if c =? ch ":" then
        let! p := upd (parseState s) (n - 1) parseObjectValue in
        Ok (set_step stateBeginValue (set_parseState p s), scanObjectKey)
      else Ok (error s c "after object key")
  | parseObjectValue =>
      if c =? ch "," then
        let! p := upd (parseState s) (n - 1) parseObjectKey in
        Ok (set_step stateBeginString (set_parseState p s), scanObjectValue)
      else if c =? ch "}" then
        let! s := popParseState s in Ok (s, scanEndObject)
      else Ok (error s c "after object key:value pair")
  | parseArrayValue =>
      if c =? ch "," then Ok (set_step stateBeginValue s, scanArrayValue)
      else if c =? ch "]" then
        let! s := popParseState s in Ok (s, scanEndArray)
      else Ok (error s c "after array element")
  end.

Definition doStateBeginValue (s : scanner) (c : Z) : scanner * opcode :=
  if isSpace c then (s, scanSkipSpace) else
  if c =? ch "{" then
    pushParseState (set_step stateBeginStringOrEmpty s) c parseObjectKey scanBeginObject else
  if c =? ch "[" then
    pushParseState (set_step stateBeginValueOrEmpty s) c parseArrayValue scanBeginArray else
  if c =? 34 then (set_step stateInString s, scanBeginLiteral) else
  if c =? ch "-" then (set_step stateNeg s, scanBeginLiteral) else
  if c =? ch "0" then (set_step state0 s, scanBeginLiteral) else
  if c =? ch "t" then (set_step stateT s, scanBeginLiteral) else
  if c =? ch "f" then (set_step stateF s, scanBeginLiteral) else
  if c =? ch "n" then (set_step stateN s, scanBeginLiteral) else
  if isDigit19 c then (set_step state1 s, scanBeginLiteral) else
  error s c "looking for beginning of value".

Definition doStateBeginValueOrEmpty (s : scanner) (c : Z) : res (scanner * opcode) :=
  if isSpace c then Ok (s, scanSkipSpace) else
  if c =? ch "]" then doStateEndValue s c else Ok (doStateBeginValue s c).

Definition doStateBeginString (s : scanner) (c : Z) : scanner * opcode :=
  if isSpace c then (s, scanSkipSpace) else
  if c =? 34 then (set_step stateInString s, scanBeginLiteral) else
  error s c "looking for beginning of object key string".

Definition doStateBeginStringOrEmpty (s : scanner) (c : Z) : res (scanner * opcode) :=
  if isSpace c then Ok (s, scanSkipSpace) else
  if c =? ch "}" then
    let n := len (parseState s) in
    let! p := upd (parseState s) (n - 1) parseObjectValue in
    doStateEndValue (set_parseState p s) c
  else Ok (doStateBeginString s c).

Definition doStateInString (s : scanner) (c : Z) : scanner * opcode :=
  if c =? 34 then (set_step stateEndValue s, scanContinue) else
  if c =? 92 then (set_step stateInStringEsc s, scanContinue) else
  if c <? 0x20 then error s c "in string literal" else
  (s, scanContinue).

Definition doStateInStringEsc (s : scanner) (c : Z) : scanner * opcode :=
  if (c =? ch "b") || (c =? ch "f") || (c =? ch "n") || (c =? ch "r") || (c =? ch "t")
     || (c =? 92) || (c =? ch "/") || (c =? 34)
  then (set_step stateInString s, scanContinue) else
  if c =? ch "u" then (set_step stateInStringEscU s, scanContinue) else
  error s c "in string escape code".

(** stateInStringEscU, U1, U12 and U123 differ in the next state only. *)
Definition doStateInStringEscU (next : stepFn) (s : scanner) (c : Z) : scanner * opcode :=
  if isHex c then (set_step next s, scanContinue)
  else error s c "in \u hexadecimal character escape".

Definition doStateNeg (s : scanner) (c : Z) : scanner * opcode :=
  if c =? ch "0" then (set_step state0 s, scanContinue) else
  if isDigit19 c then (set_step state1 s, scanContinue) else
  error s c "in numeric literal".

Definition doState0 (s : scanner) (c : Z) : res (scanner * opcode) :=
  if c =? ch "." then Ok (set_step stateDot s, scanContinue) else
  if (c =? ch "e") || (c =? ch "E") then Ok (set_step stateE s, scanContinue) else
  doStateEndValue s c.

Definition doState1 (s : scanner) (c : Z) : res (scanner * opcode) :=
  if isDigit c then Ok (set_step state1 s, scanContinue) else doState0 s c.

Definition doStateDot (s : scanner) (c : Z) : scanner * opcode :=
  if isDigit c then (set_step stateDot0 s, scanContinue) else
  error s c "after decimal point in numeric literal".

Definition doStateDot0 (s : scanner) (c : Z) : res (scanner * opcode) :=
  if isDigit c then Ok (s, scanContinue) else
  if (c =? ch "e") || (c =? ch "E") then Ok (set_step stateE s, scanContinue) else
  doStateEndValue s c.

Definition doStateESign (s : scanner) (c : Z) : scanner * opcode :=
  if isDigit c then (set_step stateE0 s, scanContinue) else
  error s c "in exponent of numeric literal".

Definition doStateE (s : scanner) (c : Z) : scanner * opcode :=
  if (c =? ch "+") || (c =? ch "-") then (set_step stateESign s, scanContinue) else
  doStateESign s c.

Definition doStateE0 (s : scanner) (c : Z) : res (scanner * opcode) :=
  if isDigit c then Ok (s, scanContinue) else doStateEndValue s c.

(** The states inside the literals true, false and null. *)
Definition doStateLiteral (expected : Z) (next : stepFn) (context : string)
    (s : scanner) (c : Z) : scanner * opcode :=
  if c =? expected then (set_step next s, scanContinue) else error s c context.

(** [s.step(s, c)] *)
Definition runStep (s : scanner) (c : Z) : res (scanner * opcode) :=
  match step s with
  | stateBeginValueOrEmpty => doStateBeginValueOrEmpty s c
  | stateBeginValue => Ok (doStateBeginValue s c)
  | stateBeginStringOrEmpty => doStateBeginStringOrEmpty s c
  | stateBeginString => Ok (doStateBeginString s c)
  | stateEndValue => doStateEndValue s c
  | stateEndTop => Ok (doStateEndTop s c)
  | stateInString => Ok (doStateInString s c)
  | stateInStringEsc => Ok (doStateInStringEsc s c)
  | stateInStringEscU => Ok (doStateInStringEscU stateInStringEscU1 s c)
  | stateInStringEscU1 => Ok (doStateInStringEscU stateInStringEscU12 s c)
  | stateInStringEscU12 => Ok (doStateInStringEscU stateInStringEscU123 s c)
  | stateInStringEscU123 => Ok (doStateInStringEscU stateInString s c)
  | stateNeg => Ok (doStateNeg s c)
  | state1 => doState1 s c
  | state0 => doState0 s c
  | stateDot => Ok (doStateDot s c)
  | stateDot0 => doStateDot0 s c
  | stateE => Ok (doStateE s c)
  | stateESign => Ok (doStateESign s c)
  | stateE0 => doStateE0 s c
  | stateT => Ok (doStateLiteral (ch "r") stateTr "in literal true (expecting 'r')" s c)
  | stateTr => Ok (doStateLiteral (ch "u") stateTru "in literal true (expecting 'u')" s c)
  | stateTru => Ok (doStateLiteral (ch "e") stateEndValue "in literal true (expecting 'e')" s c)
  | stateF => Ok (doStateLiteral (ch "a") stateFa "in literal false (expecting 'a')" s c)
  | stateFa => Ok (doStateLiteral (ch "l") stateFal "in literal false (expecting 'l')" s c)
  | stateFal => Ok (doStateLiteral (ch "s") stateFals "in literal false (expecting 's')" s c)
  | stateFals => Ok (doStateLiteral (ch "e") stateEndValue "in literal false (expecting 'e')" s c)
  | stateN => Ok (doStateLiteral (ch "u") stateNu "in literal null (expecting 'u')" s c)
  | stateNu => Ok (doStateLiteral (ch "l") stateNul "in literal null (expecting 'l')" s c)
  | stateNul => Ok (doStateLiteral (ch "l") stateEndValue "in literal null (expecting 'l')" s c)
  | stateError => Ok (s, scanError)
  end.

Definition eof (s : scanner) : res (scanner * opcode) :=
  match err s with
  | Some _ => Ok (s, scanError)
  | None =>
    if endTop s then Ok (s, scanEnd) else
    let! '(s, _) := runStep s (ch " ") in
    if endTop s then Ok (s, scanEnd) else
    match err s with
    | None => Ok (set_err (Some (unexpectedEnd (bytes s))) s, scanError)
    | Some _ => Ok (s, scanError)
    end
  end.

(** The loop of checkValid, then eof; the result is [scan.err] or nil. *)
Fixpoint scanAll (s : scanner) (data : list Z) : res (scanner * option SyntaxError) :=
  match data with
  | [] =>
      let! '(s, op) := eof s in
      if decide (op = scanError) then Ok (s, err s) else Ok (s, None)
  | c :: data =>
      let s := set_bytes (i64 (bytes s + 1)) s in
      let! '(s, op) := runStep s c in
      if decide (op = scanError) then Ok (s, err s) else scanAll s data
  end.

Definition checkValid (data : list Z) (scan : scanner) : res (scanner * option SyntaxError) :=
  scanAll (reset scan) data.

(** newScanner takes any scanner from the pool and resets it. *)
Definition newScanner (pooled : scanner) : scanner := reset (set_bytes 0 pooled).

Definition Valid (pooled : scanner) (data : list Z) : res bool :=
  let! '(_, e) := checkValid data (newScanner pooled) in
  Ok (match e with None => true | Some _ => false end).

Example Valid_examples :
  let s0 := mkScanner stateError true [parseArrayValue] None 7 in
  Valid s0 (str " [1, -2.5e+10, {} , true,null, [ ] ] ") = Ok true /\
  Valid s0 (str "[1,]") = Ok false /\ Valid s0 (str "01") = Ok false /\
  Valid s0 (str "1 2") = Ok false /\ Valid s0 [] = Ok false /\
  Valid s0 (str "{" ++ [34; 97; 34] ++ str ": false}") = Ok true.
Proof. repeat split; vm_compute; reflexivity. Qed.

(** ** The scanner without its record

    [astep] is the transition function on the state and the stack alone
    (innermost entry first); [None] is an error, or a byte after the
    top-level value.  [acc] tells whether the remaining input is accepted. *)

Definition push (k : stepFn) (p : parseKind) (st : list parseKind) : option (stepFn * list parseKind) :=
  if len (p :: st) <=? maxNestingDepth then Some (k, p :: st) else None.

Definition pop (st : list parseKind) : option (stepFn * list parseKind) :=
  Some (match st with [] => (stateEndTop, []) | _ => (stateEndValue, st) end).

Definition aEndTop (c : Z) : option (stepFn * list parseKind) :=
  if isSpace c then Some (stateEndTop, []) else None.

Definition aEndValue (st : list parseKind) (c : Z) : option (stepFn * list parseKind) :=
  match st with
  | [] => aEndTop c
  | ps :: st' =>
    if isSpace c then Some (stateEndValue, st) else
    match ps with
    | parseObjectKey => if c =? ch ":" then Some (stateBeginValue, parseObjectValue :: st') else None
    | parseObjectValue =>
        if c =? ch "," then Some (stateBeginString, parseObjectKey :: st') else
        if c =? ch "}" then pop st' else None
    | parseArrayValue =>
        if c =? ch "," then Some (stateBeginValue, st) else
        if c =? ch "]" then pop st' else None
    end
  end.

Definition aBeginValue (k : stepFn) (st : list parseKind) (c : Z) : option (stepFn * list parseKind) :=
  if isSpace c then Some (k, st) else
  if c =? ch "{" then push stateBeginStringOrEmpty parseObjectKey st else
  if c =? ch "[" then push stateBeginValueOrEmpty parseArrayValue st else
  if c =? 34 then Some (stateInString, st) else
  if c =? ch "-" then Some (stateNeg, st) else
  if c =? ch "0" then Some (state0, st) else
  if c =? ch "t" then Some (stateT, st) else
  if c =? ch "f" then Some (stateF, st) else
  if c =? ch "n" then Some (stateN, st) else
  if isDigit19 c then Some (state1, st) else None.

Definition aBeginString (k : stepFn) (st : list parseKind) (c : Z) : option (stepFn * list parseKind) :=
  if isSpace c then Some (k, st) else
  if c =? 34 then Some (stateInString, st) else None.

Definition guard (b : bool) (k : stepFn) (st : list parseKind) : option (stepFn * list parseKind) :=
  if b then Some (k, st) else None.

Definition a0 (st : list parseKind) (c : Z) : option (stepFn * list parseKind) :=
  if c =? ch "." then Some (stateDot, st) else
  if (c =? ch "e") || (c =? ch "E") then Some (stateE, st) else aEndValue st c.

Definition isEsc (c : Z) : bool :=
  (c =? ch "b") || (c =? ch "f") || (c =? ch "n") || (c =? ch "r") || (c =? ch "t")
  || (c =? 92) || (c =? ch "/") || (c =? 34).

Definition astep (k : stepFn) (st : list parseKind) (c : Z) : option (stepFn * list parseKind) :=
  match k with
  | stateBeginValueOrEmpty =>
      if isSpace c then Some (k, st) else
      if c =? ch "]" then aEndValue st c else aBeginValue k st c
  | stateBeginValue => aBeginValue k st c
  | stateBeginStringOrEmpty =>
      if isSpace c then Some (k, st) else
      if c =? ch "}" then pop (tail st) else aBeginString k st c
  | stateBeginString => aBeginString k st c
  | stateEndValue => aEndValue st c
  | stateEndTop => aEndTop c
  | stateInString =>
      if c =? 34 then Some (stateEndValue, st) else
      if c =? 92 then Some (stateInStringEsc, st) else
      if c <? 0x20 then None else Some (stateInString, st)
  | stateInStringEsc =>
      if isEsc c then Some (stateInString, st) else
      if c =? ch "u" then Some (stateInStringEscU, st) else None
  | stateInStringEscU => guard (isHex c) stateInStringEscU1 st
  | stateInStringEscU1 => guard (isHex c) stateInStringEscU12 st
  | stateInStringEscU12 => guard (isHex c) stateInStringEscU123 st
  | stateInStringEscU123 => guard (isHex c) stateInString st
  | stateNeg => if c =? ch "0" then Some (state0, st) else guard (isDigit19 c) state1 st
  | state1 => if isDigit c then Some (state1, st) else a0 st c
  | state0 => a0 st c
  | stateDot => guard (isDigit c) stateDot0 st
  | stateDot0 =>
      if isDigit c then Some (stateDot0, st) else
      if (c =? ch "e") || (c =? ch "E") then Some (stateE, st) else aEndValue st c
  | stateE =>
      if (c =? ch "+") || (c =? ch "-") then Some (stateESign, st)
      else guard (isDigit c) stateE0 st
  | stateESign => guard (isDigit c) stateE0 st
  | stateE0 => if isDigit c then Some (stateE0, st) else aEndValue st c
  | stateT => guard (c =? ch "r") stateTr st
  | stateTr => guard (c =? ch "u") stateTru st
  | stateTru => guard (c =? ch "e") stateEndValue st
  | stateF => guard (c =? ch "a") stateFa st
  | stateFa => guard (c =? ch "l") stateFal st
  | stateFal => guard (c =? ch "s") stateFals st
  | stateFals => guard (c =? ch "e") stateEndValue st
  | stateN => guard (c =? ch "u") stateNu st
  | stateNu => guard (c =? ch "l") stateNul st
  | stateNul => guard (c =? ch "l") stateEndValue st
  | stateError => None
  end.

Fixpoint acc (k : stepFn) (st : list parseKind) (data : list Z) : bool :=
  match data with
  | [] =>
      bool_decide (k = stateEndTop) ||
      match astep k st (ch " ") with
      | Some (k', _) => bool_decide (k' = stateEndTop)
      | None => false
      end
  | c :: data =>
      match astep k st c with
      | Some (k', st') => acc k' st' data
      | None => false
      end
  end.

(** The states that need an enclosing array or object have one. *)
Definition placed (k : stepFn) (st : list parseKind) : Prop :=
  match k with
  | stateBeginValueOrEmpty => head st = Some parseArrayValue
  | stateBeginStringOrEmpty | stateBeginString => head st = Some parseObjectKey
  | stateEndTop => st = []
  | stateError => False
  | _ => True
  end.

Definition sim (s : scanner) (k : stepFn) (st : list parseKind) : Prop :=
  step s = k /\ parseState s = rev st /\ err s = None /\
  endTop s = bool_decide (k = stateEndTop) /\ placed k st.

Definition dead (s : scanner) : Prop := step s = stateError /\ err s <> None.

(** What a transition of the scanner on [c] has to do with one of the
    automaton.  A space never ends the top-level value and fails. *)
Definition sim_result (c : Z) (o : option (stepFn * list parseKind)) (r : scanner * opcode) : Prop :=
  match o with
  | Some (k, st) => snd r <> scanError /\ sim (fst r) k st
  | None => dead (fst r) /\ (isSpace c = true -> endTop (fst r) = false)
  end.

Lemma stack_top {A} (l : list A) x y :
  idx (l ++ [x]) (len (l ++ [x]) - 1) = Ok x /\
  upd (l ++ [x]) (len (l ++ [x]) - 1) y = Ok (l ++ [y]) /\
  slice (l ++ [x]) 0 (len (l ++ [x]) - 1) = Ok l.
Proof.
  rewrite len_app. change (len [x]) with 1. replace (len l + 1 - 1) with (len l) by lia.
  pose proof (len_nonneg l). split; [|split].
  - apply idx_Ok; [lia|]. unfold len. rewrite Nat2Z.id. by apply list_lookup_middle.
  - rewrite upd_Ok by len_lia. f_equal. unfold len. rewrite Nat2Z.id.
    by rewrite insert_app_r_alt, Nat.sub_diag by lia.
  - rewrite slice_Ok by len_lia. f_equal. unfold len. rewrite Z.sub_0_r, Nat2Z.id.
    change (Z.to_nat 0) with 0%nat. rewrite drop_0. by rewrite take_app_length.
Qed.

Lemma len_rev_stack {A} (st : list A) : len (rev st) = len st.
Proof. unfold len. by rewrite length_rev. Qed.

Lemma error_dead s c ctx : endTop s = false -> sim_result c None (error s c ctx).
Proof. by repeat split. Qed.

Lemma sim_endTop s k st : sim s k st -> k <> stateEndTop -> endTop s = false.
Proof. intros (_ & _ & _ & -> & _) Hk. by apply bool_decide_eq_false_2. Qed.

(** A normal transition to another state. *)
Lemma sim_move s k k' st c op :
  sim s k st -> k <> stateEndTop -> k' <> stateEndTop -> placed k' st -> op <> scanError ->
  sim_result c (Some (k', st)) (set_step k' s, op).
Proof.
  intros (H1 & H2 & H3 & H4 & H5) Hk Hk' Hp Hop. split; [done|].
  unfold sim. cbn. rewrite bool_decide_eq_false_2 in H4 |- * by done. auto.
Qed.

Lemma endTop_sim s c :
  parseState s = [] -> err s = None -> endTop s = true -> step s = stateEndTop ->
  sim_result c (aEndTop c) (doStateEndTop s c).
Proof.
  intros Hp He Ht Hs. unfold aEndTop, doStateEndTop. destruct (isSpace c) eqn:Hc; cbn.
  - split; [done|]. unfold sim. by rewrite bool_decide_eq_true_2.
  - split; [by split|]. by rewrite Hc.
Qed.

Lemma pop_sim s st p c op :
  parseState s = rev (p :: st) -> err s = None -> endTop s = false -> op <> scanError ->
  (let! s := popParseState s in Ok (s, op)) ⇓ sim_result c (pop st).
Proof.
  intros Hp He Ht Hop. unfold popParseState. rewrite Hp. cbn [rev].
  rewrite (proj2 (proj2 (stack_top (rev st) p p))). cbn [rbind].
  rewrite len_app, len_rev_stack. change (len [p]) with 1.
  destruct st as [|q st]; cbn.
  - split; [done|]. unfold sim. by rewrite bool_decide_eq_true_2.
  - destruct (Z.eqb_spec (len (q :: st) + 1 - 1) 0); [len_lia|]. cbn. split; [done|].
    unfold sim. cbn. rewrite bool_decide_eq_false_2 by done. auto.
Qed.

Lemma endValue_sim s st c :
  parseState s = rev st -> err s = None -> endTop s = false ->
  doStateEndValue s c ⇓ sim_result c (aEndValue st c).
Proof.
  intros Hp He Ht. unfold doStateEndValue. rewrite Hp, len_rev_stack.
  destruct st as [|p st].
  { cbn. by apply endTop_sim. }
  destruct (Z.eqb_spec (len (p :: st)) 0); [len_lia|]. cbn [aEndValue].
  assert (Hmove : forall k st' op, k <> stateEndTop -> placed k st' -> op <> scanError ->
    sim_result c (Some (k, st')) (set_step k (set_parseState (rev st') s), op)).
  { intros k st' op Hk Hpl Hop. split; [done|]. unfold sim. cbn. by rewrite bool_decide_eq_false_2. }
  destruct (isSpace c).
  { specialize (Hmove stateEndValue (p :: st) scanSkipSpace ltac:(done) I ltac:(done)).
    rewrite <- Hp in Hmove. by destruct s. }
  rewrite <- (len_rev_stack (p :: st)). cbn [rev].
  destruct (stack_top (rev st) p parseObjectValue) as (-> & -> & _).
  destruct (stack_top (rev st) p parseObjectKey) as (_ & -> & _). cbn [rbind].
  destruct p; repeat case_match; try (by apply error_dead); try (by eapply pop_sim);
    cbn [rbind returns]; try (by apply Hmove).
  specialize (Hmove stateBeginValue (parseArrayValue :: st) scanArrayValue ltac:(done) I ltac:(done)).
  rewrite <- Hp in Hmove. by destruct s.
Qed.

Lemma push_sim s k k' p st c op :
  sim s k st -> k <> stateEndTop -> k' <> stateEndTop -> placed k' (p :: st) -> op <> scanError ->
  sim_result c (push k' p st) (pushParseState (set_step k' s) c p op).
Proof.
  intros (H1 & H2 & H3 & H4 & H5) Hk Hk' Hp Hop. unfold push, pushParseState. cbn.
  rewrite H2, len_app, len_rev_stack. change (len [p]) with 1. rewrite len_cons.
  replace (len st + 1) with (1 + len st) by lia. destruct (1 + len st <=? maxNestingDepth);
    [|by apply error_dead; cbn; rewrite H4, bool_decide_eq_false_2].
  split; [done|]. unfold sim. cbn. rewrite bool_decide_eq_false_2 in H4 |- * by done. auto.
Qed.

Lemma beginValue_sim s k st c :
  sim s k st -> k = stateBeginValue \/ k = stateBeginValueOrEmpty ->
  sim_result c (aBeginValue k st c) (doStateBeginValue s c).
Proof.
  intros Hs Hk. assert (k <> stateEndTop) by (destruct Hk; congruence).
  pose proof (sim_endTop s k st Hs ltac:(done)). unfold aBeginValue, doStateBeginValue.
  repeat case_match; try (by apply error_dead); try (by eapply push_sim); try (by eapply sim_move).
  by split.
Qed.

Lemma beginString_sim s k st c :
  sim s k st -> k = stateBeginString \/ k = stateBeginStringOrEmpty ->
  sim_result c (aBeginString k st c) (doStateBeginString s c).
Proof.
  intros Hs Hk. assert (k <> stateEndTop) by (destruct Hk; congruence).
  pose proof (sim_endTop s k st Hs ltac:(done)). unfold aBeginString, doStateBeginString.
  repeat case_match; try (by apply error_dead); try (by eapply sim_move). by split.
Qed.

(** The simulation: one byte. *)
Lemma runStep_sim s k st c : sim s k st -> runStep s c ⇓ sim_result c (astep k st c).
Proof.
  intros Hs. pose proof Hs as (H1 & H2 & H3 & H4 & H5). unfold runStep. rewrite H1.
  destruct (decide (k = stateEndTop)) as [->|Hk].
  { cbn in *. subst st. apply endTop_sim; auto. }
  pose proof (sim_endTop s k st Hs Hk) as Het.
  assert (Hev : doStateEndValue s c ⇓ sim_result c (aEndValue st c)) by (by apply endValue_sim).
  destruct k; cbn [astep];
    unfold guard, doStateInString, doStateInStringEsc, doStateInStringEscU, doStateNeg, doState1, doState0, a0,
      doStateDot, doStateDot0, doStateE, doStateESign, doStateE0, doStateLiteral, isEsc;
    try (repeat (case_match; try (by apply error_dead); try (by eapply sim_move); try (by apply Hev);
                 try (by split)); fail).
  - unfold doStateBeginValueOrEmpty. repeat case_match; [by split|by apply Hev|].
    cbn. apply beginValue_sim; auto.
  - cbn. apply beginValue_sim; auto.
  - unfold doStateBeginStringOrEmpty. case_match; [by split|]. case_match.
    + destruct st as [|p st]; [done|]. rewrite H2. cbn [rev tail].
      rewrite (proj1 (proj2 (stack_top (rev st) p parseObjectValue))). cbn [rbind].
      pose proof (endValue_sim (set_parseState (rev st ++ [parseObjectValue]) s)
        (parseObjectValue :: st) c eq_refl H3 Het) as Hend.
      cbn [aEndValue] in Hend. rewrite H in Hend. destruct (Z.eqb_spec c (ch "}")) as [->|]; done.
    + cbn. apply beginString_sim; auto.
  - cbn. apply beginString_sim; auto.
  - done.
  - done.
  - done.
Qed.

Lemma dead_scanAll s data : dead s -> scanAll s data ⇓ (fun '(_, e) => e <> None).
Proof.
  intros [Hs He]. destruct data as [|c data].
  - cbn. unfold eof. destruct (err s) eqn:E; [|done]. cbn. by rewrite E.
  - cbn. unfold runStep. cbn. rewrite Hs. cbn. done.
Qed.

Lemma scanAll_acc data : forall s k st, sim s k st ->
  scanAll s data ⇓ (fun '(_, e) => e = None <-> acc k st data = true).
Proof.
  induction data as [|c data IH]; intros s k st Hs.
  - pose proof Hs as (H1 & H2 & H3 & H4 & H5). cbn [scanAll acc]. unfold eof. rewrite H3, H4.
    destruct (decide (k = stateEndTop)) as [->|Hk].
    { rewrite bool_decide_eq_true_2 by done. done. }
    rewrite bool_decide_eq_false_2 by done. cbn [orb].
    pose proof (runStep_sim s k st (ch " ") Hs) as Hstep.
    destruct (runStep s (ch " ")) as [[s' op]| |]; [|done|done]. cbn [rbind returns] in *.
    destruct (astep k st (ch " ")) as [[k' st']|].
    + destruct Hstep as [_ (E1 & E2 & E3 & E4 & _)]. cbn [fst] in *. rewrite E4, E3.
      destruct (bool_decide (k' = stateEndTop)); done.
    + destruct Hstep as [[E1 E2] E3]. cbn [fst] in *. rewrite E3 by done.
      destruct (err s') eqn:Ee; [|done]. cbn. by rewrite Ee.
  - cbn [scanAll acc].
    assert (Hs' : sim (set_bytes (i64 (bytes s + 1)) s) k st) by (by destruct s).
    pose proof (runStep_sim _ k st c Hs') as Hstep.
    destruct (runStep _ c) as [[s' op]| |]; [|done|done]. cbn [rbind returns] in *.
    destruct (astep k st c) as [[k' st']|].
    + destruct Hstep as [Hop Hsim]. rewrite decide_False by done. by apply IH.
    + destruct Hstep as [Hdead _]. cbn [fst] in *. destruct (decide (op = scanError)).
      * cbn. destruct Hdead as [_ He]. by destruct (err s').
      * eapply returns_mono; [by apply dead_scanAll|]. by intros [s2 [e|]] He.
Qed.

Lemma Valid_acc pooled data :
  Valid pooled data ⇓ (fun b => b = acc stateBeginValue [] data).
Proof.
  unfold Valid, checkValid, newScanner.
  eapply returns_bind_mono; [apply (scanAll_acc data _ stateBeginValue [])|].
  - unfold sim. cbn. by rewrite bool_decide_eq_false_2.
  - intros [s' [e|]] He; cbn; destruct (acc stateBeginValue [] data); intuition congruence.
Qed.

(** ** Errors *)

(** The effect of one transition on the error fields. *)
Definition err_effect (s : scanner) (c : Z) (r : scanner * opcode) : Prop :=
  bytes (fst r) = bytes s /\
  (err (fst r) = err s \/ exists ctx, err (fst r) = Some (invalidCharacter c ctx (bytes s))) /\
  (snd r = scanError -> step (fst r) = stateError).

Lemma error_effect s c ctx : err_effect s c (error s c ctx).
Proof. split; [done|]. split; [right; by exists ctx|done]. Qed.

Lemma quiet_effect s s' c op :
  bytes s' = bytes s -> err s' = err s -> op <> scanError -> err_effect s c (s', op).
Proof. intros ? ? ?. split; [done|]. split; [by left|done]. Qed.

Lemma push_effect s k c p op : op <> scanError -> err_effect s c (pushParseState (set_step k s) c p op).
Proof.
  intros Hop. unfold pushParseState. case_match; [by apply quiet_effect|].
  split; [done|]. split; [right; by eexists|done].
Qed.

Lemma endValue_effect s c r : doStateEndValue s c = Ok r -> err_effect s c r.
Proof.
  unfold doStateEndValue, doStateEndTop.
  destruct (len (parseState s) =? 0).
  { intros [= <-]. destruct (isSpace c); cbn; [by apply quiet_effect|].
    split; [done|]. split; [right; by eexists|done]. }
  destruct (isSpace c); [intros [= <-]; by apply quiet_effect|].
  destruct (idx _ _) as [ps| |]; [|done|done]. cbn [rbind].
  assert (Hpop : forall op, op <> scanError ->
    (let! s := popParseState s in Ok (s, op)) = Ok r -> err_effect s c r).
  { intros op Hop. unfold popParseState. destruct (slice _ _ _) as [p| |]; [|done|done]. cbn [rbind].
    case_match; cbn [rbind]; intros [= <-]; by apply quiet_effect. }
  destruct ps; repeat case_match; try (intros [= <-]; apply error_effect);
    try (by apply Hpop); try (destruct (upd _ _ _) as [p| |]; [|done|done]; cbn [rbind]);
    intros [= <-]; by apply quiet_effect.
Qed.

Lemma beginValue_effect s c : err_effect s c (doStateBeginValue s c).
Proof.
  unfold doStateBeginValue.
  repeat (case_match; [first [by apply quiet_effect|by apply push_effect]|]). apply error_effect.
Qed.

Lemma beginString_effect s c : err_effect s c (doStateBeginString s c).
Proof.
  unfold doStateBeginString. repeat (case_match; [by apply quiet_effect|]). apply error_effect.
Qed.

Lemma runStep_effect s c r : runStep s c = Ok r -> err_effect s c r.
Proof.
  unfold runStep. destruct (step s) eqn:Hk;
    unfold doStateInString, doStateInStringEsc, doStateInStringEscU, doStateNeg, doState1, doState0,
      doStateDot, doStateDot0, doStateE, doStateESign, doStateE0, doStateLiteral;
    try (intros Hr; repeat (case_match; [injection Hr as <-; by apply quiet_effect|]);
         first [injection Hr as <-; apply error_effect | by apply endValue_effect]; fail).
  - unfold doStateBeginValueOrEmpty. intros Hr. case_match; [injection Hr as <-; by apply quiet_effect|].
    case_match; [by apply endValue_effect|]. injection Hr as <-. apply beginValue_effect.
  - intros [= <-]. apply beginValue_effect.
  - unfold doStateBeginStringOrEmpty. intros Hr. case_match; [injection Hr as <-; by apply quiet_effect|].
    case_match; [|injection Hr as <-; apply beginString_effect].
    destruct (upd _ _ _) as [p| |]; [|done|done]. cbn [rbind] in Hr.
    destruct (endValue_effect _ _ _ Hr) as (H1 & H2 & H3). done.
  - intros [= <-]. apply beginString_effect.
  - intros [= <-]. unfold doStateEndTop. destruct (isSpace c); cbn; [by apply quiet_effect|].
    split; [done|]. split; [right; by eexists|done].
  - intros [= <-]. repeat case_match; try (by apply quiet_effect). apply error_effect.
  - intros [= <-]. split; [done|]. split; [by left|]. cbn. done.
Qed.

(** The error the scanner keeps is about a byte of the text already read, or
    about the end of the text. *)
Definition err_located (data : list Z) (e : SyntaxError) : Prop :=
  match e with
  | invalidCharacter c _ off =>
      (exists k, off = Z.of_nat k + 1 /\ data !! k = Some c) \/ (off = len data /\ c = ch " ")
  | unexpectedEnd off => off = len data
  end.

Lemma scanAll_located r : forall s pre s' e,
  len (pre ++ r) < 2 ^ 63 -> bytes s = len pre ->
  (forall x, err s = Some x -> err_located (pre ++ r) x) ->
  scanAll s r = Ok (s', e) -> forall x, e = Some x -> err_located (pre ++ r) x.
Proof.
  induction r as [|c r IH]; intros s pre s' e Hlen Hb He Hrun x Hx.
  - rewrite app_nil_r in *. cbn [scanAll] in Hrun. unfold eof in Hrun.
    destruct (err s) as [x0|] eqn:Hs.
    { cbn in Hrun. injection Hrun as <- <-. rewrite Hs in Hx. apply He. congruence. }
    destruct (endTop s); [cbn [rbind] in Hrun; rewrite decide_False in Hrun by done; congruence|].
    destruct (runStep s (ch " ")) as [[s1 op]| |] eqn:Hstep; [|done|done].
    destruct (runStep_effect _ _ _ Hstep) as (E1 & E2 & _). cbn [rbind fst] in *.
    destruct (endTop s1); [cbn [rbind] in Hrun; rewrite decide_False in Hrun by done; congruence|].
    destruct (err s1) as [x1|] eqn:Hs1; cbn in Hrun; injection Hrun as <- <-.
    + rewrite Hs1 in Hx. injection Hx as <-. destruct E2 as [E2|[ctx E2]]; [congruence|].
      injection E2 as ->. right. by rewrite Hb.
    + cbn in Hx. injection Hx as <-. cbn. congruence.
  - cbn [scanAll] in Hrun. rewrite len_app, len_cons in Hlen. pose proof (len_nonneg pre).
    pose proof (len_nonneg r). rewrite i64_id in Hrun by lia.
    set (s1 := set_bytes (bytes s + 1) s) in Hrun.
    destruct (runStep s1 c) as [[s2 op]| |] eqn:Hstep; [|done|done]. cbn [rbind] in Hrun.
    destruct (runStep_effect _ _ _ Hstep) as (E1 & E2 & _). cbn [fst] in *.
    assert (He2 : forall x, err s2 = Some x -> err_located (pre ++ c :: r) x).
    { intros y Hy. destruct E2 as [E2|[ctx E2]].
      - apply He. cbn in E2. congruence.
      - rewrite E2 in Hy. injection Hy as <-. left. exists (length pre). cbn. split.
        + rewrite Hb. unfold len. lia.
        + by apply list_lookup_middle. }
    destruct (decide (op = scanError)).
    + injection Hrun as <- <-. by apply He2.
    + replace (pre ++ c :: r) with ((pre ++ [c]) ++ r) in * by (by rewrite <- app_assoc).
      apply (IH s2 (pre ++ [c]) s' e); [len_lia| |done|done|done].
      rewrite E1. cbn. len_lia.
Qed.

(** ** Theorems *)

(** when [checkValid] rejects a text, the [SyntaxError] it returns points
    into the text: an "invalid character" error carries the byte at position
    Offset-1 (or the space that stands for the end of the text, with Offset
    the length), and "unexpected end" carries the length. *)
Theorem checkValid_error_offset pooled data :
  len data < 2 ^ 63 ->
  checkValid data (newScanner pooled) ⇓ (fun '(_, e) =>
    match e with
    | None => True
    | Some (invalidCharacter c _ off) =>
        (1 <= off <= len data /\ data !! Z.to_nat (off - 1) = Some c) \/ (off = len data /\ c = ch " ")
    | Some (unexpectedEnd off) => off = len data
    end).
Proof.
  intros Hlen. unfold checkValid.
  assert (Hsim : sim (reset (newScanner pooled)) stateBeginValue []).
  { unfold sim. cbn. by rewrite bool_decide_eq_false_2. }
  apply (scanAll_acc data) in Hsim. apply returns_inv in Hsim as ([s' e] & Hrun & _).
  rewrite Hrun. cbn. destruct e as [x|]; [|done].
  assert (Hx : err_located ([] ++ data) x)
    by (apply (scanAll_located data (reset (newScanner pooled)) [] s' (Some x)); done).
  destruct x as [c ctx off|off]; [|done]. destruct Hx as [(k & -> & Hk)|Hx]; [left|by right].
  pose proof (lookup_lt_Some _ _ _ Hk) as Hlt. cbn in Hlt, Hk. unfold len.
  split; [lia|]. by replace (Z.to_nat (Z.of_nat k + 1 - 1)) with k by lia.
Qed.

Lemma checkValid_error_offset_witness :
  checkValid (str "[1}") (newScanner (mkScanner stateError true [] None 0)) ⇓ (fun '(_, e) =>
    match e with
    | None => True
    | Some (invalidCharacter c _ off) =>
        (1 <= off <= len (str "[1}") /\ str "[1}" !! Z.to_nat (off - 1) = Some c)
        \/ (off = len (str "[1}") /\ c = ch " ")
    | Some (unexpectedEnd off) => off = len (str "[1}")
    end).
Proof. apply checkValid_error_offset. vm_compute. reflexivity. Defined.

(** errors are sticky: after a call of [scan.step] that returns scanError,
    every further call returns scanError and leaves the scanner, with the
    recorded error, unchanged, as the comment on the opcodes promises. *)
Theorem scanError_sticky s c s' c' :
  runStep s c = Ok (s', scanError) -> runStep s' c' = Ok (s', scanError).
Proof.
  intros H. destruct (runStep_effect _ _ _ H) as (_ & _ & H3). unfold runStep.
  cbn in H3. by rewrite H3.
Qed.

Lemma scanError_sticky_witness :
  let s := mkScanner stateNeg false [] None 0 in
  exists s', runStep s (ch "x") = Ok (s', scanError) /\ runStep s' (ch "1") = Ok (s', scanError).
Proof.
  eexists. split; [reflexivity|].
  apply (scanError_sticky (mkScanner stateNeg false [] None 0) (ch "x")). reflexivity.
Defined.
