(* ===== verification/Utf16.v ===== *)
(** * Package unicode/utf16

    Encoding and decoding of UTF-16 (src/unicode/utf16/utf16.go).  Runes are
    32-bit signed integers and code units 16-bit ones, both in [Z]. *)
From Stdlib Require Import ZArith Lia.
From stdpp Require Import base numbers list.
From S2P Require Import Prelude.

Definition replacementChar : Z := 0xFFFD.
Definition maxRune : Z := 0x10FFFF.
Definition surr1 : Z := 0xd800.
Definition surr2 : Z := 0xdc00.
Definition surr3 : Z := 0xe000.
Definition surrSelf : Z := 0x10000.

Definition IsSurrogate (r : Z) : bool := (surr1 <=? r) && (r <? surr3).

Definition DecodeRune (r1 r2 : Z) : Z :=
  if (surr1 <=? r1) && (r1 <? surr2) && (surr2 <=? r2) && (r2 <? surr3)
  then i32 (Z.lor (i32 (Z.shiftl (r1 - surr1) 10)) (r2 - surr2) + surrSelf)
  else replacementChar.

Definition EncodeRune (r : Z) : Z * Z :=
  if (r <? surrSelf) || (r >? maxRune) then (replacementChar, replacementChar) else
  let r := r - surrSelf in
  (surr1 + Z.land (Z.shiftr r 10) 0x3ff, surr2 + Z.land r 0x3ff).

Definition RuneLen (r : Z) : Z :=
  if (0 <=? r) && (r <? surr1) || (surr3 <=? r) && (r <? surrSelf) then 1
  else if (surrSelf <=? r) && (r <=? maxRune) then 2
  else -1.

(** The first loop of Encode: the length of the buffer. *)
Definition encodeCount (s : list Z) : Z :=
  foldl (fun n v => if v >=? surrSelf then n + 1 else n) (len s) s.

(** The second loop: fills the buffer [a] from position [n] on. *)
Fixpoint encodeFill (a : list Z) (n : Z) (s : list Z) : res (list Z * Z) :=
  match s with
  | [] => Ok (a, n)
  | v :: s =>
      if RuneLen v =? 1 then
        let! a := upd a n (u16 v) in encodeFill a (n + 1) s
      else if RuneLen v =? 2 then
        let '(r1, r2) := EncodeRune v in
        let! a := upd a n (u16 r1) in
        let! a := upd a (n + 1) (u16 r2) in
        encodeFill a (n + 2) s
      else
        let! a := upd a n (u16 replacementChar) in encodeFill a (n + 1) s
  end.

Definition Encode (s : list Z) : res (list Z) :=
  let a := replicate (Z.to_nat (encodeCount s)) 0 in
  let! '(a, n) := encodeFill a 0 s in
  slice a 0 n.

Definition AppendRune (a : list Z) (r : Z) : list Z :=
  if (0 <=? r) && (r <? surr1) || (surr3 <=? r) && (r <? surrSelf) then a ++ [u16 r]
  else if (surrSelf <=? r) && (r <=? maxRune) then
    let '(r1, r2) := EncodeRune r in a ++ [u16 r1; u16 r2]
  else a ++ [replacementChar].

(** The loop of decode. *)
Definition decode (s buf : list Z) : res (list Z) :=
  loop (S (length s))
    (fun '(i, buf) =>
       if i <? len s then
         let! r := idx s i in
         if (r <? surr1) || (surr3 <=? r) then Ok (inl (i + 1, buf ++ [r])) else
         let! low :=
           if (surr1 <=? r) && (r <? surr2) && (i + 1 <? len s) then
             let! r2 := idx s (i + 1) in
             if (surr2 <=? r2) && (r2 <? surr3) then Ok (Some r2) else Ok None
           else Ok None in
         match low with
         | Some r2 => Ok (inl (i + 2, buf ++ [DecodeRune r r2]))
         | None => Ok (inl (i + 1, buf ++ [replacementChar]))
         end
       else Ok (inr buf)) (0, buf).

Definition Decode (s : list Z) : res (list Z) := decode s [].

Example utf16_examples :
  Encode [0x61; 0x1F600; 0xD800; -5] = Ok [0x61; 0xD83D; 0xDE00; 0xFFFD; 0xFFFD] /\
  Decode [0x61; 0xD83D; 0xDE00; 0xD83D; 0x62; 0xDE00] = Ok [0x61; 0x1F600; 0xFFFD; 0x62; 0xFFFD].
Proof. split; vm_compute; reflexivity. Qed.

(** ** Specification *)

(** Unicode scalar values. *)
Definition scalar (r : Z) : Prop := 0 <= r < 0xD800 \/ 0xE000 <= r <= 0x10FFFF.
#[global] Instance scalar_dec r : Decision (scalar r).
Proof. unfold scalar. apply _. Defined.

Definition scrub (r : Z) : Z := if decide (scalar r) then r else replacementChar.

(** The code units of one rune (Unicode standard, table 3-5). *)
Definition units (r : Z) : list Z :=
  if decide (scalar r) then
    if decide (r < 0x10000) then [r]
    else [0xD800 + (r - 0x10000) / 2 ^ 10; 0xDC00 + (r - 0x10000) mod 2 ^ 10]
  else [replacementChar].

Lemma AppendRune_units a r : AppendRune a r = a ++ units r.
Proof.
  unfold AppendRune, units, EncodeRune, scalar, surr1, surr2, surr3, surrSelf, maxRune.
  destruct (decide _) as [Hs|Hs].
  - destruct (decide (r < 0x10000)); zcases; try (by rewrite u16_id by lia).
    rewrite shiftr_div, !(land_ones' _ 10) by lia. rewrite !u16_id by zdm.
    rewrite (Z.mod_small (_ / _)) by zdm. done.
  - zcases; done.
Qed.

Lemma RuneLen_units r : RuneLen r = if decide (scalar r) then len (units r) else -1.
Proof.
  unfold RuneLen, units, scalar, surr1, surr3, surrSelf, maxRune.
  destruct (decide _); [destruct (decide (r < 0x10000))|]; zcases; done.
Qed.

(** One step of the loop writes the units of a rune over the next places. *)
Lemma encodeFill_cons done_ rest v s n :
  n = len done_ -> len (units v) <= len rest ->
  encodeFill (done_ ++ rest) n (v :: s)
  = encodeFill (done_ ++ units v ++ drop (length (units v)) rest) (n + len (units v)) s.
Proof.
  intros -> Hlen. cbn [encodeFill].
  assert (Hupd : forall (d : list Z) x y r, upd (d ++ x :: r) (len d) y = Ok (d ++ y :: r)).
  { intros d x y r. rewrite upd_Ok by len_lia. f_equal. unfold len. rewrite Nat2Z.id.
    by rewrite insert_app_r_alt, Nat.sub_diag by lia. }
  pose proof (AppendRune_units [] v) as Hu. cbn [app] in Hu.
  unfold AppendRune in Hu. unfold RuneLen.
  destruct ((0 <=? v) && (v <? surr1) || (surr3 <=? v) && (v <? surrSelf)); cbn [Z.eqb Pos.eqb].
  - rewrite <- Hu in *. destruct rest as [|x rest]; [len_lia|]. by rewrite Hupd.
  - destruct ((surrSelf <=? v) && (v <=? maxRune)); cbn [Z.eqb Pos.eqb].
    + destruct (EncodeRune v) as [r1 r2]. cbn [app] in Hu. rewrite <- Hu in *.
      destruct rest as [|x [|y rest]]; [len_lia|len_lia|]. rewrite Hupd. cbn [rbind].
      replace (len done_ + 1) with (len (done_ ++ [u16 r1])) by len_lia.
      replace (done_ ++ u16 r1 :: y :: rest) with ((done_ ++ [u16 r1]) ++ y :: rest)
        by (by rewrite <- app_assoc).
      rewrite Hupd, <- app_assoc. done.
    + rewrite <- Hu in *. destruct rest as [|x rest]; [len_lia|]. by rewrite Hupd.
Qed.

Lemma encodeFill_spec s : forall done_ rest n,
  n = len done_ -> len (s ≫= units) <= len rest ->
  encodeFill (done_ ++ rest) n s ⇓ (fun '(a, n') =>
    exists rest', a = done_ ++ (s ≫= units) ++ rest' /\ n' = n + len (s ≫= units)).
Proof.
  induction s as [|v s IH]; intros done_ rest n Hn Hlen.
  - cbn. exists rest. split; [done|]. len_lia.
  - cbn [mbind list_bind] in *. rewrite len_app in Hlen.
    assert (0 <= len (s ≫= units)) by apply len_nonneg.
    rewrite encodeFill_cons by (done || lia). rewrite app_assoc.
    eapply returns_mono; [apply IH|].
    + len_lia.
    + unfold len in *. rewrite length_drop. lia.
    + intros [a n'] (rest' & -> & ->). exists rest'. rewrite <- !app_assoc. split; [done|len_lia].
Qed.

Lemma encodeCount_units s : len (s ≫= units) <= encodeCount s.
Proof.
  unfold encodeCount. assert (H : forall n, n + len (s ≫= units) <=
    foldl (fun n v => if v >=? surrSelf then n + 1 else n) (n + len s) s).
  { induction s as [|v s IH]; intros n; [by cbn; len_lia|]. cbn [mbind list_bind foldl].
    rewrite len_app, len_cons.
    specialize (IH (if v >=? surrSelf then n + 2 else n + 1)).
    assert (len (units v) <= if v >=? surrSelf then 2 else 1).
    { unfold units, surrSelf. zcase; repeat case_decide; len_lia. }
    destruct (v >=? surrSelf).
    - replace (n + (1 + len s) + 1) with (n + 2 + len s) by lia. unfold mbind in *. lia.
    - replace (n + (1 + len s)) with (n + 1 + len s) by lia. unfold mbind in *. lia. }
  apply (H 0).
Qed.

Lemma Encode_units s : Encode s = Ok (s ≫= units).
Proof.
  unfold Encode. pose proof (encodeCount_units s) as Hc. pose proof (len_nonneg (s ≫= units)).
  pose proof (encodeFill_spec s [] (replicate (Z.to_nat (encodeCount s)) 0) 0 eq_refl) as Hf.
  destruct (encodeFill _ 0 s) as [[a n]| |]; cbn in Hf;
    try (exfalso; apply Hf; unfold len at 2; rewrite length_replicate; lia).
  destruct Hf as (rest & -> & ->); [unfold len at 2; rewrite length_replicate; lia|]. cbn [rbind].
  rewrite slice_Ok by len_lia. f_equal. rewrite drop_0. unfold len.
  replace (Z.to_nat _) with (length (s ≫= units)) by lia. by rewrite take_app_length.
Qed.

(** ** Decoding as a function on lists *)

Fixpoint decodeL (fuel : nat) (s : list Z) : list Z :=
  match fuel, s with
  | O, _ | _, [] => []
  | S n, r :: s' =>
      if (r <? surr1) || (surr3 <=? r) then r :: decodeL n s' else
      match s' with
      | r2 :: s'' =>
          if (surr1 <=? r) && (r <? surr2) && ((surr2 <=? r2) && (r2 <? surr3))
          then DecodeRune r r2 :: decodeL n s''
          else replacementChar :: decodeL n s'
      | [] => [replacementChar]
      end
  end.

Lemma drop_idx (s : list Z) i :
  0 <= i < len s -> exists r, idx s i = Ok r /\ drop (Z.to_nat i) s = r :: drop (Z.to_nat (i + 1)) s.
Proof.
  intros Hi. unfold len in Hi. destruct (lookup_lt_is_Some_2 s (Z.to_nat i)) as [r Hr]; [lia|].
  exists r. split; [by apply idx_Ok; [lia|]|].
  replace (Z.to_nat (i + 1)) with (S (Z.to_nat i)) by lia. by apply drop_S.
Qed.

Lemma decode_decodeL s buf0 : decode s buf0 ⇓ (fun b => b = buf0 ++ decodeL (length s) s).
Proof.
  unfold decode. set (target := buf0 ++ decodeL (length s) s).
  apply (loop_returns (fun '(i, buf) => 0 <= i <= len s /\ exists n, len s - i <= Z.of_nat n /\
      buf ++ decodeL n (drop (Z.to_nat i) s) = target) (fun '(i, buf) => len s - i));
    unfold len; [| |lia|lia].
  2: { split; [lia|]. exists (length s). split; [lia|done]. }
  intros [i buf] (Hi & n & Hn & Ht).
  destruct (Z.ltb_spec i (Z.of_nat (length s))) as [Hlt|Hge].
  2: { cbn. rewrite drop_ge in Ht by lia. destruct n; cbn in Ht; by rewrite app_nil_r in Ht. }
  destruct n as [|n]; [lia|]. destruct (drop_idx s i) as (r & -> & Hd); [unfold len; lia|].
  rewrite Hd in Ht. cbn [rbind decodeL] in *.
  assert (Hone : forall x, buf ++ x :: decodeL n (drop (Z.to_nat (i + 1)) s) = target ->
    Ok (inl (i + 1, buf ++ [x])) ⇓ (fun r : Z * list Z + list Z => match r with
      | inl s' => (let '(i, buf) := s' in 0 <= i <= Z.of_nat (length s) /\ exists n,
          Z.of_nat (length s) - i <= Z.of_nat n /\ buf ++ decodeL n (drop (Z.to_nat i) s) = target) /\
          0 <= (let '(i, _) := s' in Z.of_nat (length s) - i) < Z.of_nat (length s) - i
      | inr b => b = target end)).
  { intros x Hx. cbn. split; [|lia]. split; [lia|]. exists n. split; [lia|]. by rewrite <- app_assoc. }
  destruct ((r <? surr1) || (surr3 <=? r)); [by apply Hone|].
  destruct (Z.ltb_spec (i + 1) (Z.of_nat (length s))) as [Hlt2|Hge2].
  - destruct (drop_idx s (i + 1)) as (r2 & Hr2 & Hd2); [unfold len; lia|].
    rewrite Hd2 in Ht. rewrite Hr2. destruct ((surr1 <=? r) && (r <? surr2)); cbn [andb rbind] in *.
    + destruct ((surr2 <=? r2) && (r2 <? surr3)); cbn [rbind].
      * cbn. split; [|lia]. split; [lia|]. exists n. split; [lia|].
        replace (i + 2) with (i + 1 + 1) by lia. by rewrite <- app_assoc.
      * apply Hone. by rewrite Hd2.
    + apply Hone. by rewrite Hd2.
  - rewrite drop_ge in Ht by lia. rewrite andb_false_r. cbn [rbind]. apply Hone.
    rewrite drop_ge by lia. destruct n; done.
Qed.

Lemma DecodeRune_exact hi lo :
  0xD800 <= hi < 0xDC00 -> 0xDC00 <= lo < 0xE000 ->
  DecodeRune hi lo = (hi - 0xD800) * 2 ^ 10 + (lo - 0xDC00) + 0x10000.
Proof.
  intros Hh Hl. unfold DecodeRune, surr1, surr2, surr3, surrSelf. zcases.
  rewrite shiftl_mul, (i32_id ((hi - 55296) * 2 ^ 10)), lor_disjoint_mul, i32_id by lia. done.
Qed.

Lemma decodeL_units r s n :
  (length (units r ++ s) <= n)%nat -> decodeL n (units r ++ s) = scrub r :: decodeL (pred n) s.
Proof.
  unfold units, scrub. intros Hn. destruct n as [|n].
  { repeat case_decide; cbn in Hn; lia. }
  destruct (decide (scalar r)) as [Hs|Hs]; [|done]. unfold scalar in Hs.
  destruct (decide (r < 0x10000)); cbn [app decodeL pred]; unfold surr1, surr2, surr3 in *.
  - zcases; done.
  - assert (0 <= (r - 0x10000) / 2 ^ 10 < 2 ^ 10) by zdm.
    assert (0 <= (r - 0x10000) mod 2 ^ 10 < 2 ^ 10) by zdm. zcases.
    rewrite DecodeRune_exact by lia. f_equal. zdm.
Qed.

Lemma decodeL_Encode s : forall n, (length (s ≫= units) <= n)%nat -> decodeL n (s ≫= units) = map scrub s.
Proof.
  induction s as [|r s IH]; intros n Hn; [by destruct n|]. cbn [mbind list_bind map] in *.
  rewrite decodeL_units by done. f_equal. apply IH. rewrite length_app in Hn.
  assert (1 <= length (units r))%nat by (unfold units; repeat case_decide; cbn; lia). unfold mbind in *. lia.
Qed.

(** ** Theorems *)

(** C40: decoding inverts encoding: [utf16.Encode] never indexes out of its
    buffer, and [utf16.Decode] of its result is the original rune sequence,
    with every value that is not a Unicode scalar value (a surrogate, or out
    of range) replaced by U+FFFD. *)
Theorem Decode_Encode s :
  (let! u := Encode s in Decode u) ⇓ (fun t => t = map scrub s).
Proof.
  rewrite Encode_units. cbn [rbind]. eapply returns_mono; [apply decode_decodeL|].
  intros t ->. cbn [app]. by apply decodeL_Encode.
Qed.

(** [utf16.Encode] produces the code units of the Unicode standard for each
    rune in turn, all of them 16 bits wide, [utf16.AppendRune] appends the same
    units, and [utf16.RuneLen] is their number. *)
Theorem Encode_standard s a r :
  Encode s = Ok (s ≫= units) /\ Forall (fun u => 0 <= u < 2 ^ 16) (s ≫= units) /\
  AppendRune a r = a ++ units r /\ RuneLen r = (if decide (scalar r) then len (units r) else -1).
Proof.
  split; [apply Encode_units|]. split; [|split; [apply AppendRune_units|apply RuneLen_units]].
  apply Forall_forall. intros u (r' & Hu & _)%list_elem_of_bind. revert Hu.
  unfold units, scalar. repeat case_decide; rewrite ?elem_of_cons, elem_of_nil; intros Hu;
    destruct_or?; try done; subst; unfold replacementChar; try lia; zdm.
Qed.
