(* ===== verification/Varint.v ===== *)
(** * Package encoding/binary: variable-length integers

    src/encoding/binary/varint.go.  The encoding loops shift a 64-bit value
    right by seven bits, so eleven rounds are more than they can take.  The
    reader of [ReadUvarint] is any [ByteReader]: a state and a read operation
    that returns a byte or an error. *)
From Stdlib Require Import ZArith Lia.
From stdpp Require Import base numbers list.
From S2P Require Import Prelude.

Definition MaxVarintLen16 : Z := 3.
Definition MaxVarintLen32 : Z := 5.
Definition MaxVarintLen64 : Z := 10.

Definition AppendUvarint (buf : list Z) (x : Z) : res (list Z) :=
  loop 11
    (fun '(buf, x) =>
       if x >=? 0x80 then Ok (inl (buf ++ [Z.lor (u8 x) 0x80], Z.shiftr x 7))
       else Ok (inr (buf ++ [u8 x]))) (buf, x).

Definition PutUvarint (buf : list Z) (x : Z) : res (list Z * Z) :=
  loop 11
    (fun '(buf, x, i) =>
       if x >=? 0x80 then
         let! buf := upd buf i (Z.lor (u8 x) 0x80) in
         Ok (inl (buf, Z.shiftr x 7, i + 1))
       else
         let! buf := upd buf i (u8 x) in
         Ok (inr (buf, i + 1))) (buf, x, 0).

(** The loop of Uvarint over the bytes that are left. *)
Fixpoint uvarintLoop (buf : list Z) (i x s : Z) : Z * Z :=
  match buf with
  | [] => (0, 0)
  | b :: buf =>
      if i =? MaxVarintLen64 then (0, - (i + 1)) else
      if b <? 0x80 then
        if (i =? MaxVarintLen64 - 1) && (b >? 1) then (0, - (i + 1))
        else (Z.lor x (u64 (Z.shiftl b s)), i + 1)
      else uvarintLoop buf (i + 1) (Z.lor x (u64 (Z.shiftl (Z.land b 0x7f) s))) (s + 7)
  end.

Definition Uvarint (buf : list Z) : Z * Z := uvarintLoop buf 0 0 0.

(** [uint64(x) << 1], complemented for negative [x] *)
Definition zigzag (x : Z) : Z :=
  let ux := u64 (Z.shiftl (u64 x) 1) in
  if x <? 0 then u64 (Z.lnot ux) else ux.

Definition AppendVarint (buf : list Z) (x : Z) : res (list Z) := AppendUvarint buf (zigzag x).
Definition PutVarint (buf : list Z) (x : Z) : res (list Z * Z) := PutUvarint buf (zigzag x).

(** [int64(ux >> 1)], complemented when the low bit is set *)
Definition unzigzag (ux : Z) : Z :=
  let x := i64 (Z.shiftr ux 1) in
  if negb (Z.land ux 1 =? 0) then Z.lnot x else x.

Definition Varint (buf : list Z) : Z * Z :=
  let '(ux, n) := Uvarint buf in (unzigzag ux, n).

(** io.ByteReader *)
Class ByteReader (S Err : Type) := {
  ReadByte : S -> S * (Z + Err);
  io_EOF : Err;
  io_ErrUnexpectedEOF : Err;
  errOverflow : Err;
  is_EOF : Err -> bool;
}.

Section Read.
Context {S Err : Type} `{!ByteReader S Err}.

Definition ReadUvarint (r : S) : res (S * Z * option Err) :=
  loop 11
    (fun '(r, i, x, s) =>
       if i <? MaxVarintLen64 then
         let '(r, v) := ReadByte r in
         match v with
         | inr err =>
             let err := if (i >? 0) && is_EOF err then io_ErrUnexpectedEOF else err in
             Ok (inr (r, x, Some err))
         | inl b =>
             if b <? 0x80 then
               if (i =? MaxVarintLen64 - 1) && (b >? 1) then Ok (inr (r, x, Some errOverflow))
               else Ok (inr (r, Z.lor x (u64 (Z.shiftl b s)), None))
             else Ok (inl (r, i + 1, Z.lor x (u64 (Z.shiftl (Z.land b 0x7f) s)), s + 7))
         end
       else Ok (inr (r, x, Some errOverflow))) (r, 0, 0, 0).

Definition ReadVarint (r : S) : res (S * Z * option Err) :=
  let! '(r, ux, err) := ReadUvarint r in
  Ok (r, unzigzag ux, err).
End Read.

(** ** Specification: base 128, least significant digit first *)

Fixpoint uvarint_bytes (n : nat) (x : Z) : list Z :=
  match n with
  | O => [x]
  | S n => if x <? 128 then [x] else (x mod 128 + 128) :: uvarint_bytes n (x / 128)
  end.

(** The encoding of a 64-bit value. *)
Definition encoding (x : Z) : list Z := uvarint_bytes 9 x.

(** The number that digits stand for. *)
Fixpoint value (l : list Z) : Z :=
  match l with
  | [] => 0
  | b :: l => b mod 128 + 128 * value l
  end.

Lemma lor_80 x : 0 <= x -> Z.lor (u8 x) 0x80 = x mod 128 + 128.
Proof.
  intros Hx. unfold u8. destruct (decide (x mod 2 ^ 8 < 128)) as [Hs|Hs].
  - rewrite Z.lor_comm, (lor_disjoint 0x80 (x mod 2 ^ 8) 7); [zdm|lia|done|zdm].
  - replace (x mod 2 ^ 8) with (Z.lor 128 (x mod 128)).
    + rewrite (Z.lor_comm 128), <- Z.lor_assoc, Z.lor_diag, Z.lor_comm.
      rewrite (lor_disjoint 0x80 (x mod 128) 7); [zdm|lia|done|zdm].
    + rewrite (lor_disjoint 128 (x mod 128) 7); [zdm|lia|done|zdm].
Qed.

Lemma div128_bound x n :
  0 <= x < 128 ^ (Z.of_nat (S n) + 1) -> 0 <= x / 128 < 128 ^ (Z.of_nat n + 1).
Proof.
  intros Hx. rewrite Nat2Z.inj_succ, <- Z.add_1_r, (Z.pow_add_r 128 (_ + 1)) in Hx by lia.
  split; [zdm|apply Z.div_lt_upper_bound; lia].
Qed.

Lemma append_loop_spec n : forall fuel buf x,
  (n < fuel)%nat -> 0 <= x < 128 ^ (Z.of_nat n + 1) ->
  loop fuel
    (fun '(buf, x) =>
       if x >=? 0x80 then Ok (inl (buf ++ [Z.lor (u8 x) 0x80], Z.shiftr x 7))
       else Ok (inr (buf ++ [u8 x]))) (buf, x) = Ok (buf ++ uvarint_bytes n x).
Proof.
  induction n as [|n IH]; intros [|fuel] buf x Hf Hx; try lia; cbn [loop uvarint_bytes].
  - destruct (Z.geb_spec x 128); [lia|]. cbn. by rewrite u8_id by lia.
  - destruct (Z.geb_spec x 128), (Z.ltb_spec x 128); try lia; cbn [rbind].
    + rewrite lor_80, shiftr_div by lia. change (2 ^ 7) with 128.
      rewrite IH by (lia || by apply div128_bound).
      by rewrite <- app_assoc.
    + by rewrite u8_id by lia.
Qed.

Lemma AppendUvarint_encoding buf x :
  0 <= x < 2 ^ 64 -> AppendUvarint buf x = Ok (buf ++ encoding x).
Proof. intros Hx. apply append_loop_spec; lia. Qed.

Lemma uvarint_bytes_ok n x :
  0 <= x < 128 ^ (Z.of_nat n + 1) ->
  bytes_ok (uvarint_bytes n x) /\ value (uvarint_bytes n x) = x /\
  1 <= len (uvarint_bytes n x) <= Z.of_nat n + 1.
Proof.
  revert x. induction n as [|n IH]; intros x Hx; cbn [uvarint_bytes].
  - split; [repeat constructor; unfold byte_ok; lia|]. cbn [value]. split; [zdm|len_lia].
  - destruct (Z.ltb_spec x 128).
    + split; [repeat constructor; unfold byte_ok; lia|]. cbn [value]. split; [zdm|len_lia].
    + destruct (IH (x / 128)) as (H1 & H2 & H3).
      { by apply div128_bound. }
      split; [constructor; [unfold byte_ok; zdm|done]|]. cbn [value]. rewrite H2. split; [zdm|len_lia].
Qed.

(** ** Decoding *)

Lemma or_digit x b s :
  0 <= s -> 0 <= x < 2 ^ s -> 0 <= b -> b * 2 ^ s < 2 ^ 64 ->
  Z.lor x (u64 (Z.shiftl b s)) = x + b * 2 ^ s.
Proof.
  intros Hs Hx Hb Hm. assert (0 < 2 ^ s) by lia. rewrite shiftl_mul, u64_id by nia.
  rewrite Z.lor_comm, lor_disjoint_mul by lia. lia.
Qed.

(** What the loop of Uvarint computes from byte [i] on, with [x] the value of
    the bytes already read. *)
Lemma uvarintLoop_encoding n : forall x rest i acc,
  0 <= i -> i + Z.of_nat n = 9 -> 0 <= acc < 2 ^ (7 * i) ->
  0 <= x < 128 ^ (Z.of_nat n + 1) -> acc + x * 2 ^ (7 * i) < 2 ^ 64 ->
  uvarintLoop (uvarint_bytes n x ++ rest) i acc (7 * i)
  = (acc + x * 2 ^ (7 * i), i + len (uvarint_bytes n x)).
Proof.
  induction n as [|n IH]; intros x rest i acc Hi Hin Hacc Hx Hmax.
  - replace i with 9 in * by lia. cbn [uvarint_bytes app uvarintLoop].
    change (Z.of_nat 0 + 1) with 1 in Hx. change (9 =? MaxVarintLen64) with false.
    change (9 =? MaxVarintLen64 - 1) with true. cbn [andb].
    destruct (Z.ltb_spec x 128); [|lia]. destruct (Z.gtb_spec x 1); [lia|].
    rewrite or_digit by lia. done.
  - cbn [uvarint_bytes]. assert (0 < 2 ^ (7 * i)) by lia.
    assert (Hne : (i =? MaxVarintLen64) = false) by (apply Z.eqb_neq; unfold MaxVarintLen64; lia).
    assert (Hne' : (i =? MaxVarintLen64 - 1) = false) by (apply Z.eqb_neq; unfold MaxVarintLen64; lia).
    destruct (Z.ltb_spec x 128) as [Hs|Hb].
    + cbn [app uvarintLoop]. rewrite Hne, Hne'. destruct (Z.ltb_spec x 128); [|lia]. cbn [andb].
      rewrite or_digit by nia. done.
    + cbn [app uvarintLoop]. rewrite Hne. destruct (Z.ltb_spec (x mod 128 + 128) 128); [zdm|].
      rewrite (land_ones' _ 7) by lia. change (2 ^ 7) with 128.
      replace ((x mod 128 + 128) mod 128) with (x mod 128) by zdm.
      assert (Hsplit : 2 ^ (7 * (i + 1)) = 128 * 2 ^ (7 * i)).
      { replace (7 * (i + 1)) with (7 + 7 * i) by lia. rewrite Z.pow_add_r by lia. done. }
      pose proof (Z.mod_pos_bound x 128 ltac:(lia)). pose proof (Z.div_mod x 128 ltac:(lia)).
      rewrite or_digit by nia. replace (7 * i + 7) with (7 * (i + 1)) by lia.
      rewrite IH; [rewrite Hsplit, len_cons; f_equal; nia|lia|lia|nia| |nia].
      by apply div128_bound.
Qed.

Lemma Uvarint_encoding x rest :
  0 <= x < 2 ^ 64 -> Uvarint (encoding x ++ rest) = (x, len (encoding x)).
Proof.
  intros Hx. unfold Uvarint, encoding.
  pose proof (uvarintLoop_encoding 9 x rest 0 0) as H. change (7 * 0) with 0 in H.
  rewrite H by lia. f_equal; lia.
Qed.

(** ** Signed values *)

Lemma zigzag_value x :
  - 2 ^ 63 <= x < 2 ^ 63 -> zigzag x = if decide (x < 0) then - 2 * x - 1 else 2 * x.
Proof.
  intros Hx. unfold zigzag. rewrite shiftl_mul by lia. change (2 ^ 1) with 2.
  destruct (Z.ltb_spec x 0); case_decide; try lia.
  - assert (E1 : u64 x = x + 2 ^ 64) by (unfold u64; symmetry; apply (Z.mod_unique_pos _ _ (-1)); lia).
    assert (E2 : u64 (u64 x * 2) = 2 * x + 2 ^ 64)
      by (rewrite E1; unfold u64; symmetry; apply (Z.mod_unique_pos _ _ 1); lia).
    rewrite E2. unfold u64, Z.lnot. symmetry. apply (Z.mod_unique_pos _ _ (-1)); lia.
  - rewrite !u64_id; rewrite ?u64_id; lia.
Qed.

Lemma zigzag_range x : - 2 ^ 63 <= x < 2 ^ 63 -> 0 <= zigzag x < 2 ^ 64.
Proof. intros Hx. rewrite zigzag_value by done. case_decide; lia. Qed.

Lemma unzigzag_zigzag x : - 2 ^ 63 <= x < 2 ^ 63 -> unzigzag (zigzag x) = x.
Proof.
  intros Hx. rewrite zigzag_value by done. unfold unzigzag.
  rewrite shiftr_div, (land_ones' _ 1) by lia. change (2 ^ 1) with 2. case_decide.
  - rewrite i64_id by zdm. destruct (Z.eqb_spec ((- 2 * x - 1) mod 2) 0); [zdm|].
    cbn [negb]. unfold Z.lnot. zdm.
  - rewrite i64_id by zdm. destruct (Z.eqb_spec ((2 * x) mod 2) 0); [|zdm]. cbn [negb]. zdm.
Qed.

(** ** Writing into a buffer *)

Lemma put_loop_spec n : forall fuel pre rest x,
  (n < fuel)%nat -> 0 <= x < 128 ^ (Z.of_nat n + 1) ->
  loop fuel
    (fun '(buf, x, i) =>
       if x >=? 0x80 then
         let! buf := upd buf i (Z.lor (u8 x) 0x80) in
         Ok (inl (buf, Z.shiftr x 7, i + 1))
       else
         let! buf := upd buf i (u8 x) in
         Ok (inr (buf, i + 1))) (pre ++ rest, x, len pre)
  = if len (uvarint_bytes n x) <=? len rest
    then Ok (pre ++ uvarint_bytes n x ++ drop (length (uvarint_bytes n x)) rest,
             len pre + len (uvarint_bytes n x))
    else Panic.
Proof.
  induction n as [|n IH]; intros [|fuel] pre rest x Hf Hx; try lia; cbn [loop uvarint_bytes].
  - destruct (Z.geb_spec x 128); [lia|]. rewrite u8_id by lia.
    destruct rest as [|y rest]; [by rewrite app_nil_r, upd_end|].
    rewrite upd_app by done. destruct (Z.leb_spec (len [x]) (len (y :: rest))); [done|len_lia].
  - destruct (Z.geb_spec x 128), (Z.ltb_spec x 128); try lia.
    + rewrite lor_80, shiftr_div by lia. change (2 ^ 7) with 128.
      destruct rest as [|y rest].
      { rewrite app_nil_r, upd_end. cbn [rbind].
        destruct (Z.leb_spec (len (x mod 128 + 128 :: uvarint_bytes n (x / 128))) (len (@nil Z))); [len_lia|done]. }
      rewrite upd_app by done. cbn [rbind].
      replace (pre ++ x mod 128 + 128 :: rest) with ((pre ++ [x mod 128 + 128]) ++ rest)
        by (by rewrite <- app_assoc).
      replace (len pre + 1) with (len (pre ++ [x mod 128 + 128])) by len_lia.
      rewrite IH by (lia || by apply div128_bound). rewrite !len_cons.
      destruct (Z.leb_spec (len (uvarint_bytes n (x / 128))) (len rest)),
        (Z.leb_spec (1 + len (uvarint_bytes n (x / 128))) (1 + len rest)); try lia; [|done].
      rewrite <- app_assoc. cbn [app length drop]. do 2 f_equal. len_lia.
    + rewrite u8_id by lia. destruct rest as [|y rest]; [by rewrite app_nil_r, upd_end|].
      rewrite upd_app by done. destruct (Z.leb_spec (len [x]) (len (y :: rest))); [done|len_lia].
Qed.

(** ** Arbitrary input *)

(** A continuation byte. *)
Definition more (b : Z) : Prop := 128 <= b.

Lemma uvarintLoop_spec buf : forall i acc,
  bytes_ok buf -> 0 <= i <= 10 -> 0 <= acc < 2 ^ (7 * i) ->
  let '(v, n) := uvarintLoop buf i acc (7 * i) in
  (exists ds b rest, buf = ds ++ b :: rest /\ Forall more ds /\ b < 128 /\
     n = i + len ds + 1 /\ n <= 10 /\ (n = 10 -> b <= 1) /\ v = acc + value (ds ++ [b]) * 2 ^ (7 * i)) \/
  (v = 0 /\ n = 0 /\ Forall more buf /\ i + len buf <= 10) \/
  (v = 0 /\ exists ds b rest, buf = ds ++ b :: rest /\ Forall more ds /\
     ((n = -10 /\ i + len ds = 9 /\ 1 < b < 128) \/ (n = -11 /\ i + len ds = 10))).
Proof.
  induction buf as [|b buf IH]; intros i acc Hok Hi Hacc; cbn [uvarintLoop].
  { right; left. repeat split; [constructor|len_lia]. }
  apply Forall_cons in Hok as [Hb Hok]. unfold byte_ok in Hb. unfold MaxVarintLen64 in *.
  assert (0 < 2 ^ (7 * i)) by lia.
  destruct (Z.eqb_spec i 10) as [->|].
  { right; right. split; [done|]. exists [], b, buf. repeat split; [constructor|]. right. done. }
  destruct (Z.ltb_spec b 128).
  - destruct (Z.eqb_spec i (10 - 1)) as [->|].
    + cbn [andb]. destruct (Z.gtb_spec b 1).
      * right; right. split; [done|]. exists [], b, buf. repeat split; [constructor|]. left. len_lia.
      * left. exists [], b, buf. rewrite or_digit by lia. cbn [app value].
        repeat split; try constructor; try len_lia. rewrite Z.mod_small; lia.
    + cbn [andb]. left. exists [], b, buf.
      rewrite or_digit; [|lia|lia|lia|].
      2: { assert (2 ^ (7 * i) <= 2 ^ 56) by (apply Z.pow_le_mono_r; lia). nia. }
      cbn [app value]. repeat split; try constructor; try len_lia. rewrite Z.mod_small; lia.
  - destruct (decide (i = 9)) as [->|].
    { destruct buf as [|b' buf]; cbn [uvarintLoop].
      - right; left. repeat split; [by repeat constructor|len_lia].
      - right; right. split; [done|]. exists [b], b', buf. repeat split; [by repeat constructor|].
        right. done. }
    rewrite (land_ones' _ 7) by lia. change (2 ^ 7) with 128.
    pose proof (Z.mod_pos_bound b 128 ltac:(lia)) as Hm.
    assert (Hsplit : 2 ^ (7 * (i + 1)) = 128 * 2 ^ (7 * i)).
    { replace (7 * (i + 1)) with (7 + 7 * i) by lia. rewrite Z.pow_add_r by lia. done. }
    assert (2 ^ (7 * i) <= 2 ^ 56) by (apply Z.pow_le_mono_r; lia).
    rewrite or_digit by nia. replace (7 * i + 7) with (7 * (i + 1)) by lia.
    specialize (IH (i + 1) (acc + b mod 128 * 2 ^ (7 * i)) Hok ltac:(lia) ltac:(nia)).
    destruct (uvarintLoop buf (i + 1) _ _) as [v m].
    destruct IH as [(ds & c & rest & -> & Hds & Hc & Hn & Hn10 & Hlast & ->)|
                    [(-> & -> & Hall & Hl)|(-> & ds & c & rest & -> & Hds & Hcase)]].
    + left. exists (b :: ds), c, rest. split; [done|]. split; [by constructor|]. split; [done|].
      split; [len_lia|]. split; [done|]. split; [done|]. cbn [app value]. rewrite Hsplit. ring.
    + right; left. repeat split; [by constructor|len_lia].
    + right; right. split; [done|]. exists (b :: ds), c, rest. split; [done|]. split; [by constructor|].
      rewrite len_cons. destruct Hcase as [(? & ? & ?)|[? ?]]; [left|right]; lia.
Qed.

(** ** Theorems *)

(** C39: [AppendUvarint] then [Uvarint] is the identity on 64-bit values: the
    bytes appended are at most ten, decode to the value whatever follows them,
    and the count returned is their number. *)
Theorem Uvarint_AppendUvarint buf x rest :
  0 <= x < 2 ^ 64 ->
  AppendUvarint buf x = Ok (buf ++ encoding x) /\ 1 <= len (encoding x) <= MaxVarintLen64 /\
  bytes_ok (encoding x) /\ Uvarint (encoding x ++ rest) = (x, len (encoding x)).
Proof.
  intros Hx. destruct (uvarint_bytes_ok 9 x) as (H1 & H2 & H3); [lia|].
  split; [by apply AppendUvarint_encoding|]. split; [exact H3|]. split; [done|].
  by apply Uvarint_encoding.
Qed.

Lemma Uvarint_AppendUvarint_witness :
  AppendUvarint [7] 300 = Ok ([7] ++ encoding 300) /\ 1 <= len (encoding 300) <= MaxVarintLen64 /\
  bytes_ok (encoding 300) /\ Uvarint (encoding 300 ++ [255]) = (300, len (encoding 300)).
Proof. apply (Uvarint_AppendUvarint [7] 300 [255]). lia. Defined.

(** [AppendVarint] then [Varint] is the identity on all 64-bit signed
    values (zig-zag encoding). *)
Theorem Varint_AppendVarint buf x rest :
  - 2 ^ 63 <= x < 2 ^ 63 ->
  exists e, AppendVarint buf x = Ok (buf ++ e) /\ len e <= MaxVarintLen64 /\
    Varint (e ++ rest) = (x, len e).
Proof.
  intros Hx. pose proof (zigzag_range x Hx) as Hz. exists (encoding (zigzag x)).
  split; [by apply AppendUvarint_encoding|].
  split; [destruct (uvarint_bytes_ok 9 (zigzag x)) as (_ & _ & ?); [lia|unfold encoding, MaxVarintLen64; lia]|].
  unfold Varint. rewrite Uvarint_encoding by done. by rewrite unzigzag_zigzag.
Qed.

Lemma Varint_AppendVarint_witness :
  exists e, AppendVarint [] (-150) = Ok ([] ++ e) /\ len e <= MaxVarintLen64 /\
    Varint (e ++ [1]) = (-150, len e).
Proof. apply (Varint_AppendVarint [] (-150) [1]). lia. Defined.

(** [PutUvarint] writes the bytes [AppendUvarint] would append over the
    start of its buffer, leaves the rest of the buffer alone and returns their
    number; it panics exactly when the buffer is shorter than the encoding. *)
Theorem PutUvarint_correct buf x :
  0 <= x < 2 ^ 64 ->
  PutUvarint buf x = (if len (encoding x) <=? len buf
                      then Ok (encoding x ++ drop (length (encoding x)) buf, len (encoding x))
                      else Panic).
Proof. intros Hx. apply (put_loop_spec 9 11 [] buf x); lia. Qed.

Lemma PutUvarint_correct_witness :
  PutUvarint [9; 9; 9] 300 = Ok ([172; 2; 9], 2).
Proof. apply (PutUvarint_correct [9; 9; 9] 300). lia. Defined.

(** [Uvarint] on arbitrary bytes: a positive count n means that the first n
    bytes (at most ten) are continuation bytes followed by one final byte, and
    the value is the base-128 number they spell, below 2^64; a count of 0
    means the input ends inside a number that could still fit; a negative
    count means overflow, detected at the tenth or eleventh byte. *)
Theorem Uvarint_classifies buf :
  bytes_ok buf ->
  let '(v, n) := Uvarint buf in
  (exists ds b rest, buf = ds ++ b :: rest /\ Forall more ds /\ b < 128 /\
     n = len ds + 1 /\ n <= 10 /\ v = value (ds ++ [b]) /\ 0 <= v < 2 ^ 64) \/
  (v = 0 /\ n = 0 /\ Forall more buf /\ len buf <= 10) \/
  (v = 0 /\ exists ds b rest, buf = ds ++ b :: rest /\ Forall more ds /\
     ((n = -10 /\ len ds = 9 /\ 1 < b < 128) \/ (n = -11 /\ len ds = 10))).
Proof.
  intros Hok. pose proof (uvarintLoop_spec buf 0 0 Hok ltac:(lia) ltac:(lia)) as H.
  unfold Uvarint. change (7 * 0) with 0 in H. destruct (uvarintLoop buf 0 0 0) as [v n].
  destruct H as [(ds & b & rest & -> & Hds & Hb & Hn & Hn10 & Hlast & ->)|[H|H]]; [left|auto..].
  replace (0 + value (ds ++ [b]) * 2 ^ 0) with (value (ds ++ [b])) by lia.
  exists ds, b, rest. do 6 (split; [done || lia|]).
  apply Forall_app in Hok as [Hok1 Hok2]. apply Forall_cons in Hok2 as [Hbok _]. unfold byte_ok in Hbok.
  assert (Hv : value (ds ++ [b]) = value ds + 128 ^ len ds * b).
  { clear -Hbok Hb. induction ds as [|d ds IH]; cbn [app value].
    - rewrite Z.mod_small by lia. change (len (@nil Z)) with 0. lia.
    - rewrite IH, len_cons, Z.pow_add_r by len_lia. change (128 ^ 1) with 128. ring. }
  assert (Hd : 0 <= value ds < 128 ^ len ds).
  { clear. induction ds as [|d ds IH]; cbn [value]; [by cbn|].
    rewrite len_cons, Z.pow_add_r by len_lia. change (128 ^ 1) with 128.
    pose proof (Z.mod_pos_bound d 128 ltac:(lia)). lia. }
  rewrite Hv. destruct (decide (len ds = 9)) as [E9|].
  - rewrite E9 in *. assert (b <= 1) by lia. lia.
  - assert (128 ^ len ds <= 128 ^ 8) by (apply Z.pow_le_mono_r; len_lia). nia.
Qed.

Lemma Uvarint_classifies_witness :
  let '(v, n) := Uvarint [128; 130] in
  (exists ds b rest, [128; 130] = ds ++ b :: rest /\ Forall more ds /\ b < 128 /\
     n = len ds + 1 /\ n <= 10 /\ v = value (ds ++ [b]) /\ 0 <= v < 2 ^ 64) \/
  (v = 0 /\ n = 0 /\ Forall more [128; 130] /\ len [128; 130] <= 10) \/
  (v = 0 /\ exists ds b rest, [128; 130] = ds ++ b :: rest /\ Forall more ds /\
     ((n = -10 /\ len ds = 9 /\ 1 < b < 128) \/ (n = -11 /\ len ds = 10))).
Proof. apply (Uvarint_classifies [128; 130]). repeat constructor; unfold byte_ok; lia. Defined.

(** ** Reading from a byte slice *)

Inductive readErr := EOF | ErrUnexpectedEOF | ErrOverflow.

#[global] Instance slice_reader : ByteReader (list Z) readErr := {
  ReadByte r := match r with [] => ([], inr EOF) | b :: r => (r, inl b) end;
  io_EOF := EOF;
  io_ErrUnexpectedEOF := ErrUnexpectedEOF;
  errOverflow := ErrOverflow;
  is_EOF e := match e with EOF => true | _ => false end;
}.

(** What ReadUvarint must return, from the result of Uvarint. *)
Definition read_agrees (buf : list Z) (i : Z) (vn : Z * Z) (out : list Z * Z * option readErr) : Prop :=
  let '(v, n) := vn in
  let '(r, x, e) := out in
  (0 < n -> e = None /\ x = v /\ r = drop (Z.to_nat (n - i)) buf) /\
  (n < 0 -> e = Some ErrOverflow) /\
  (n = 0 -> r = [] /\ e = Some (if i + len buf =? 10 then ErrOverflow
                                else if i + len buf =? 0 then EOF else ErrUnexpectedEOF)).

Lemma uvarintLoop_count buf : forall i x s v n,
  0 <= i -> uvarintLoop buf i x s = (v, n) -> 0 < n -> i < n.
Proof.
  induction buf as [|b buf IH]; intros i x s v n Hi; cbn [uvarintLoop]; [intros [= <- <-]; lia|].
  repeat case_match; try (intros [= <- <-]; lia). intros H' Hn. apply IH in H'; lia.
Qed.

Lemma read_loop_agrees buf : forall fuel i x s,
  0 <= i <= 10 -> 10 - i < Z.of_nat fuel ->
  loop fuel
    (fun '(r, i, x, s) =>
       if i <? MaxVarintLen64 then
         let '(r, v) := ReadByte r in
         match v with
         | inr err =>
             let err := if (i >? 0) && is_EOF err then io_ErrUnexpectedEOF else err in
             Ok (inr (r, x, Some err))
         | inl b =>
             if b <? 0x80 then
               if (i =? MaxVarintLen64 - 1) && (b >? 1) then Ok (inr (r, x, Some errOverflow))
               else Ok (inr (r, Z.lor x (u64 (Z.shiftl b s)), None))
             else Ok (inl (r, i + 1, Z.lor x (u64 (Z.shiftl (Z.land b 0x7f) s)), s + 7))
         end
       else Ok (inr (r, x, Some errOverflow))) (buf, i, x, s)
  ⇓ read_agrees buf i (uvarintLoop buf i x s).
Proof.
  induction buf as [|b buf IH]; intros [|fuel] i x s Hi Hf; try lia;
    cbn [loop uvarintLoop]; unfold MaxVarintLen64 in *.
  - destruct (Z.ltb_spec i 10); cbn [ReadByte slice_reader]; cbn -[Z.add]; change (len (@nil Z)) with 0.
    + split; [lia|]. split; [lia|]. intros _. split; [done|].
      destruct (Z.gtb_spec i 0), (Z.eqb_spec (i + 0) 10), (Z.eqb_spec (i + 0) 0); (done || lia).
    + split; [lia|]. split; [lia|]. intros _. split; [done|]. by destruct (Z.eqb_spec (i + 0) 10); [|lia].
  - destruct (Z.ltb_spec i 10); cbn [ReadByte slice_reader].
    + destruct (Z.eqb_spec i 10); [lia|]. destruct (Z.ltb_spec b 128).
      * destruct ((i =? 10 - 1) && (b >? 1)); cbn -[Z.add].
        -- split; [lia|]. split; [done|]. lia.
        -- split; [|lia]. intros _. replace (i + 1 - i) with 1 by lia. done.
      * cbn [rbind]. eapply returns_mono; [apply IH; lia|].
        destruct (uvarintLoop buf (i + 1) _ _) as [v m] eqn:Eu. intros [[r x'] e] (H1 & H2 & H3).
        split; [|split; [done|]].
        -- intros Hn. destruct (H1 Hn) as (-> & -> & ->). split; [done|]. split; [done|].
           apply uvarintLoop_count in Eu; [|lia|lia].
           by replace (Z.to_nat (m - i)) with (S (Z.to_nat (m - (i + 1)))) by lia.
        -- intros Hn. destruct (H3 Hn) as [-> ->]. split; [done|].
           by replace (i + len (b :: buf)) with (i + 1 + len buf) by len_lia.
    + cbn -[Z.add]. destruct (Z.eqb_spec i 10); [|lia]. split; [lia|]. split; [done|]. lia.
Qed.

(** [ReadUvarint] on a reader over a byte slice agrees with [Uvarint] on the
    slice: the same value, with exactly the counted bytes consumed; overflow
    where Uvarint reports overflow, and also on ten continuation bytes with
    nothing after them, which Uvarint takes for a short buffer; io.EOF only on
    the empty slice and io.ErrUnexpectedEOF on any other slice that ends
    early. *)
Theorem ReadUvarint_agrees (buf : list Z) :
  ReadUvarint buf ⇓ (fun '(r, x, e) =>
    let '(v, n) := Uvarint buf in
    (0 < n -> e = None /\ x = v /\ r = drop (Z.to_nat n) buf) /\
    (n < 0 -> e = Some ErrOverflow) /\
    (n = 0 -> e = Some (if len buf =? 10 then ErrOverflow
                        else if len buf =? 0 then EOF else ErrUnexpectedEOF))).
Proof.
  eapply returns_mono; [apply (read_loop_agrees buf 11 0 0 0); lia|].
  intros [[r x] e]. unfold Uvarint, read_agrees. destruct (uvarintLoop buf 0 0 0) as [v n].
  rewrite Z.sub_0_r, !Z.add_0_l. intros (H1 & H2 & H3). split; [done|]. split; [done|].
  intros Hn. by destruct (H3 Hn).
Qed.
