(* ===== verification/Base64.v ===== *)
(** * Package encoding/base64

    The encoder and decoder of src/encoding/base64/base64.go over byte slices,
    with both fast paths of Decode.  [dst[n:]] of the source is the slice
    [dst] with the offset [n], since it shares its elements.  The big-endian
    stores of the fast paths are those of internal/byteorder, which is outside
    the sources: they are the operations of the class [BigEndianStore], with
    their documented effect as its laws.  [strconv.IntSize] is 64. *)
From Stdlib Require Import Ascii String ZArith Lia.
From stdpp Require Import base numbers list.
From S2P Require Import Prelude.

Record Encoding := mkEncoding {
  encode : list Z;
  decodeMap : list Z;
  padChar : Z;
  strict : bool;
}.

Definition StdPadding : Z := ch "=".
Definition NoPadding : Z := -1.
Definition invalidIndex : Z := 0xff.
Definition decodeMapInitialize : list Z := replicate 256 invalidIndex.

(** The loop of NewEncoding: fills the decoding table. *)
Fixpoint fillMap (encoder : list Z) (i : Z) (m : list Z) : res (list Z) :=
  match encoder with
  | [] => Ok m
  | c :: encoder =>
      if (c =? 10) || (c =? 13) then Panic else
      let! d := idx m c in
      if negb (d =? invalidIndex) then Panic else
      let! m := upd m c (u8 i) in
      fillMap encoder (i + 1) m
  end.

Definition NewEncoding (encoder : list Z) : res Encoding :=
  if negb (len encoder =? 64) then Panic else
  let! m := fillMap encoder 0 decodeMapInitialize in
  Ok (mkEncoding encoder m StdPadding false).

Definition WithPadding (enc : Encoding) (padding : Z) : res Encoding :=
  if (padding <? NoPadding) || (padding =? 13) || (padding =? 10) || (padding >? 0xff) then Panic else
  let! taken := if negb (padding =? NoPadding)
                then (let! d := idx (decodeMap enc) (u8 padding) in Ok (negb (d =? invalidIndex)))
                else Ok false in
  if (taken : bool) then Panic else Ok (mkEncoding (encode enc) (decodeMap enc) padding (strict enc)).

Definition Strict (enc : Encoding) : Encoding :=
  mkEncoding (encode enc) (decodeMap enc) (padChar enc) true.

Definition StdAlphabet : list Z :=
  str "ABCDEFGHIJKLMNOPQRSTUVWXYZabcdefghijklmnopqrstuvwxyz0123456789+/".
Definition URLAlphabet : list Z :=
  str "ABCDEFGHIJKLMNOPQRSTUVWXYZabcdefghijklmnopqrstuvwxyz0123456789-_".
Definition StdEncoding : res Encoding := NewEncoding StdAlphabet.
Definition URLEncoding : res Encoding := NewEncoding URLAlphabet.
Definition RawStdEncoding : res Encoding := let! e := StdEncoding in WithPadding e NoPadding.
Definition RawURLEncoding : res Encoding := let! e := URLEncoding in WithPadding e NoPadding.

(** ** Encoding *)

(** [dst[i] = enc.encode[val>>sh&0x3F]] *)
Definition putSymbol (enc : Encoding) (dst : list Z) (i val sh : Z) : res (list Z) :=
  let! c := idx (encode enc) (Z.land (Z.shiftr val sh) 0x3F) in
  upd dst i c.

Definition Encode (enc : Encoding) (dst src : list Z) : res (list Z) :=
  if len src =? 0 then Ok dst else
  let n := len src / 3 * 3 in
  let! '(dst, di, si) :=
    loop (S (length src))
      (fun '(dst, di, si) =>
         if si <? n then
           let! b0 := idx src (si + 0) in
           let! b1 := idx src (si + 1) in
           let! b2 := idx src (si + 2) in
           let val := Z.lor (Z.lor (Z.shiftl b0 16) (Z.shiftl b1 8)) b2 in
           let! dst := putSymbol enc dst (di + 0) val 18 in
           let! dst := putSymbol enc dst (di + 1) val 12 in
           let! dst := putSymbol enc dst (di + 2) val 6 in
           let! dst := putSymbol enc dst (di + 3) val 0 in
           Ok (inl (dst, di + 4, si + 3))
         else Ok (inr (dst, di, si))) (dst, 0, 0) in
  let remain := len src - si in
  if remain =? 0 then Ok dst else
  let! b0 := idx src (si + 0) in
  let val := Z.shiftl b0 16 in
  let! val := if remain =? 2 then (let! b1 := idx src (si + 1) in Ok (Z.lor val (Z.shiftl b1 8)))
              else Ok val in
  let! dst := putSymbol enc dst (di + 0) val 18 in
  let! dst := putSymbol enc dst (di + 1) val 12 in
  if remain =? 2 then
    let! dst := putSymbol enc dst (di + 2) val 6 in
    if negb (padChar enc =? NoPadding) then upd dst (di + 3) (u8 (padChar enc)) else Ok dst
  else if remain =? 1 then
    if negb (padChar enc =? NoPadding) then
      let! dst := upd dst (di + 2) (u8 (padChar enc)) in
      upd dst (di + 3) (u8 (padChar enc))
    else Ok dst
  else Ok dst.

Definition EncodedLen (enc : Encoding) (n : Z) : Z :=
  if padChar enc =? NoPadding then n / 3 * 4 + (n mod 3 * 8 + 5) / 6 else (n + 2) / 3 * 4.

Definition EncodeToString (enc : Encoding) (src : list Z) : res (list Z) :=
  Encode enc (replicate (Z.to_nat (EncodedLen enc (len src))) 0) src.

(** ** Decoding *)

Definition decodedLen (n padChar : Z) : Z :=
  if padChar =? NoPadding then n / 4 * 3 + n mod 4 * 6 / 8 else n / 4 * 3.
Definition DecodedLen (enc : Encoding) (n : Z) : Z := decodedLen n (padChar enc).

(** CorruptInputError, with its offset *)
Inductive decodeErr := CorruptInputError (off : Z).

Definition isNewline (c : Z) : bool := (c =? 10) || (c =? 13).

(** [for si < len(src) && (src[si] == '\n' || src[si] == '\r') { si++ }] *)
Definition skipNewlines (src : list Z) (si : Z) : res Z :=
  loop (S (length src))
    (fun si =>
       let! c := if si <? len src then (let! b := idx src si in Ok (isNewline b)) else Ok false in
       if c then Ok (inl (si + 1)) else Ok (inr si)) si.

(** How the loop of decodeQuantum is left: by a return, or with the symbols
    read, their number, the position and a pending error. *)
Inductive quantum :=
| Returned (si : Z) (err : option decodeErr)
| Filled (dbuf : list Z) (dlen si : Z) (err : option decodeErr).

(** One round of the loop of decodeQuantum; the state is (dbuf, j, si). *)
Definition quantumBody (enc : Encoding) (src : list Z) (st : list Z * Z * Z)
    : res (list Z * Z * Z + quantum) :=
  let '(dbuf, j, si) := st in
  if negb (j <? 4) then Ok (inr (Filled dbuf 4 si None)) else
  if len src =? si then
    if j =? 0 then Ok (inr (Returned si None)) else
    if (j =? 1) || negb (padChar enc =? NoPadding)
    then Ok (inr (Returned si (Some (CorruptInputError (si - j))))) else
    Ok (inr (Filled dbuf j si None))
  else
  let! in_ := idx src si in
  let si := si + 1 in
  let! out := idx (decodeMap enc) in_ in
  if negb (out =? 0xff) then
    let! dbuf := upd dbuf j out in Ok (inl (dbuf, j + 1, si))
  else if isNewline in_ then Ok (inl (dbuf, j, si)) else
  if negb (in_ =? padChar enc) then
    Ok (inr (Returned si (Some (CorruptInputError (si - 1))))) else
  if (j =? 0) || (j =? 1) then Ok (inr (Returned si (Some (CorruptInputError (si - 1))))) else
  let! second :=
    if j =? 2 then
      let! si := skipNewlines src si in
      if si =? len src then Ok (inl (Returned si (Some (CorruptInputError (len src))))) else
      let! c := idx src si in
      if negb (c =? padChar enc) then Ok (inl (Returned si (Some (CorruptInputError (si - 1)))))
      else Ok (inr (si + 1))
    else Ok (inr si) in
  match second with
  | inl q => Ok (inr q)
  | inr si =>
      let! si := skipNewlines src si in
      Ok (inr (Filled dbuf j si (if si <? len src then Some (CorruptInputError si) else None)))
  end.

Definition fillQuantum (enc : Encoding) (src : list Z) (si : Z) : res quantum :=
  loop (S (S (length src))) (quantumBody enc src) ([0; 0; 0; 0], 0, si).

(** The result: [dst], the position in [src], the bytes written, the error. *)
Definition decodeQuantum (enc : Encoding) (dst : list Z) (o : Z) (src : list Z) (si : Z)
    : res (list Z * Z * Z * option decodeErr) :=
  let! q := fillQuantum enc src si in
  match q with
  | Returned si err => Ok (dst, si, 0, err)
  | Filled dbuf dlen si err =>
      let! d0 := idx dbuf 0 in
      let! d1 := idx dbuf 1 in
      let! d2 := idx dbuf 2 in
      let! d3 := idx dbuf 3 in
      let val := Z.lor (Z.lor (Z.lor (Z.shiftl d0 18) (Z.shiftl d1 12)) (Z.shiftl d2 6)) d3 in
      let b2 := u8 (Z.shiftr val 0) in
      let b1 := u8 (Z.shiftr val 8) in
      let b0 := u8 (Z.shiftr val 16) in
      let! '(dst, b2) :=
        if dlen =? 4 then (let! dst := upd dst (o + 2) b2 in Ok (dst, 0)) else Ok (dst, b2) in
      let! '(dst, b1, bad) :=
        if dlen >=? 3 then
          let! dst := upd dst (o + 1) b1 in
          if strict enc && negb (b2 =? 0) then Ok (dst, b1, true) else Ok (dst, 0, false)
        else Ok (dst, b1, false) in
      if (bad : bool) then Ok (dst, si, 0, Some (CorruptInputError (si - 1))) else
      let! dst := upd dst (o + 0) b0 in
      if strict enc && (negb (b1 =? 0) || negb (b2 =? 0))
      then Ok (dst, si, 0, Some (CorruptInputError (si - 2)))
      else Ok (dst, si, dlen - 1, err)
  end.

Definition assemble32 (n1 n2 n3 n4 : Z) : Z * bool :=
  if Z.lor (Z.lor (Z.lor n1 n2) n3) n4 =? 0xff then (0, false) else
  (Z.lor (Z.lor (Z.lor (u32 (Z.shiftl n1 26)) (u32 (Z.shiftl n2 20)))
                (u32 (Z.shiftl n3 14))) (u32 (Z.shiftl n4 8)), true).

Definition assemble64 (n1 n2 n3 n4 n5 n6 n7 n8 : Z) : Z * bool :=
  if Z.lor (Z.lor (Z.lor (Z.lor (Z.lor (Z.lor (Z.lor n1 n2) n3) n4) n5) n6) n7) n8 =? 0xff
  then (0, false) else
  (Z.lor (Z.lor (Z.lor (Z.lor (Z.lor (Z.lor (Z.lor
     (u64 (Z.shiftl n1 58)) (u64 (Z.shiftl n2 52))) (u64 (Z.shiftl n3 46)))
     (u64 (Z.shiftl n4 40))) (u64 (Z.shiftl n5 34))) (u64 (Z.shiftl n6 28)))
     (u64 (Z.shiftl n7 22))) (u64 (Z.shiftl n8 16)), true).

(** [enc.decodeMap[src[i]]] *)
Definition symbolAt (enc : Encoding) (src : list Z) (i : Z) : res Z :=
  let! c := idx src i in idx (decodeMap enc) c.

(** The bytes of a [k]-byte number, most significant first. *)
Fixpoint be_bytes (k : nat) (v : Z) : list Z :=
  match k with
  | O => []
  | S k => be_bytes k (v / 256) ++ [v mod 256]
  end.

(** internal/byteorder: [BEPutUint32(b[o:], v)] and [BEPutUint64(b[o:], v)] *)
Class BigEndianStore := {
  BEPutUint32 : list Z -> Z -> Z -> res (list Z);
  BEPutUint64 : list Z -> Z -> Z -> res (list Z);
}.

Class BigEndianLaws (B : BigEndianStore) : Prop := {
  BEPutUint32_stores b1 b2 b3 v : 0 <= v < 2 ^ 32 -> len b2 = 4 ->
    BEPutUint32 (b1 ++ b2 ++ b3) (len b1) v = Ok (b1 ++ be_bytes 4 v ++ b3);
  BEPutUint64_stores b1 b2 b3 v : 0 <= v < 2 ^ 64 -> len b2 = 8 ->
    BEPutUint64 (b1 ++ b2 ++ b3) (len b1) v = Ok (b1 ++ be_bytes 8 v ++ b3);
}.

Section Decode.
Context `{B : BigEndianStore}.

(** A call of decodeQuantum from the loops of Decode: continue, or return. *)
Definition quantumStep (enc : Encoding) (dst : list Z) (src : list Z) (si n : Z)
    : res (list Z * Z * Z + list Z * Z * option decodeErr) :=
  let! '(dst, si, ninc, err) := decodeQuantum enc dst n src si in
  let n := n + ninc in
  match err with
  | Some _ => Ok (inr (dst, n, err))
  | None => Ok (inl (dst, si, n))
  end.

(** The loops run until their guard fails ([inl]) or Decode returns ([inr]). *)
Definition decode64 (enc : Encoding) (dst src : list Z) (si n : Z)
    : res (list Z * Z * Z + list Z * Z * option decodeErr) :=
  loop (S (length src))
    (fun '(dst, si, n) =>
       if (len src - si >=? 8) && (len dst - n >=? 8) then
         let! s0 := symbolAt enc src (si + 0) in
         let! s1 := symbolAt enc src (si + 1) in
         let! s2 := symbolAt enc src (si + 2) in
         let! s3 := symbolAt enc src (si + 3) in
         let! s4 := symbolAt enc src (si + 4) in
         let! s5 := symbolAt enc src (si + 5) in
         let! s6 := symbolAt enc src (si + 6) in
         let! s7 := symbolAt enc src (si + 7) in
         let '(dn, ok) := assemble64 s0 s1 s2 s3 s4 s5 s6 s7 in
         if (ok : bool) then
           let! dst := BEPutUint64 dst n dn in
           Ok (inl (dst, si + 8, n + 6))
         else
           let! r := quantumStep enc dst src si n in
           match r with inl s => Ok (inl s) | inr r => Ok (inr (inr r)) end
       else Ok (inr (inl (dst, si, n)))) (dst, si, n).

Definition decode32 (enc : Encoding) (dst src : list Z) (si n : Z)
    : res (list Z * Z * Z + list Z * Z * option decodeErr) :=
  loop (S (length src))
    (fun '(dst, si, n) =>
       if (len src - si >=? 4) && (len dst - n >=? 4) then
         let! s0 := symbolAt enc src (si + 0) in
         let! s1 := symbolAt enc src (si + 1) in
         let! s2 := symbolAt enc src (si + 2) in
         let! s3 := symbolAt enc src (si + 3) in
         let '(dn, ok) := assemble32 s0 s1 s2 s3 in
         if (ok : bool) then
           let! dst := BEPutUint32 dst n dn in
           Ok (inl (dst, si + 4, n + 3))
         else
           let! r := quantumStep enc dst src si n in
           match r with inl s => Ok (inl s) | inr r => Ok (inr (inr r)) end
       else Ok (inr (inl (dst, si, n)))) (dst, si, n).

Definition decodeRest (enc : Encoding) (dst src : list Z) (si n : Z)
    : res (list Z * Z * option decodeErr) :=
  loop (S (length src))
    (fun '(dst, si, n) =>
       if si <? len src then quantumStep enc dst src si n
       else Ok (inr (dst, n, None))) (dst, si, n).

Definition Decode (enc : Encoding) (dst src : list Z) : res (list Z * Z * option decodeErr) :=
  if len src =? 0 then Ok (dst, 0, None) else
  let! r := decode64 enc dst src 0 0 in
  match r with
  | inr ret => Ok ret
  | inl (dst, si, n) =>
      let! r := decode32 enc dst src si n in
      match r with
      | inr ret => Ok ret
      | inl (dst, si, n) => decodeRest enc dst src si n
      end
  end.

Definition DecodeString (enc : Encoding) (s : list Z) : res (list Z * option decodeErr) :=
  let dbuf := replicate (Z.to_nat (DecodedLen enc (len s))) 0 in
  let! '(dbuf, n, err) := Decode enc dbuf s in
  let! out := slice dbuf 0 n in
  Ok (out, err).
End Decode.

(** The stores as written in that package, for evaluation. *)
Definition put_bytes (k : nat) (b : list Z) (o v : Z) : res (list Z) :=
  if (0 <=? o) && (o + Z.of_nat k <=? len b)
  then Ok (take (Z.to_nat o) b ++ be_bytes k v ++ drop (Z.to_nat o + k) b) else Panic.

#[global] Instance plain_store : BigEndianStore := {
  BEPutUint32 := put_bytes 4;
  BEPutUint64 := put_bytes 8;
}.

Example base64_examples :
  (let! e := StdEncoding in
   let! x := EncodeToString e (str "any carnal pleas") in
   let! '(y, err) := DecodeString e (str "YW55IGNhcm5h" ++ [13; 10] ++ str "bCBwbGVhcw==") in
   let! '(z, err') := DecodeString e (str "YW55*") in
   Ok (bool_decide (x = str "YW55IGNhcm5hbCBwbGVhcw==" /\ y = str "any carnal pleas" /\ z = str "any"),
       err, err')) = Ok (true, None, Some (CorruptInputError 4)).
Proof. vm_compute. reflexivity. Qed.
