(* ===== verification/Base64Correct.v ===== *)
(** * Package encoding/base64: correctness

    An encoding built by NewEncoding and WithPadding has consistent tables;
    Encode writes the RFC 4648 text of its input, Decode recovers the input,
    and Decode never writes outside a buffer of DecodedLen bytes. *)
From Stdlib Require Import Ascii String ZArith Lia.
From stdpp Require Import base numbers list.
From S2P Require Import Prelude Base64.

(** ** Well-formed encodings *)

Record tables_ok (enc : Encoding) : Prop := {
  encode_len : len (encode enc) = 64;
  decode_len : len (decodeMap enc) = 256;
  encode_decode : forall k c, encode enc !! k = Some c ->
    byte_ok c /\ decodeMap enc !! Z.to_nat c = Some (Z.of_nat k) /\ c <> 10 /\ c <> 13;
  decode_range : forall c d, decodeMap enc !! c = Some d -> d = 255 \/ 0 <= d < 64;
}.

Definition pad_ok (enc : Encoding) : Prop :=
  padChar enc = NoPadding \/
  (byte_ok (padChar enc) /\ padChar enc <> 10 /\ padChar enc <> 13 /\
   decodeMap enc !! Z.to_nat (padChar enc) = Some 255).

Lemma fillMap_ok rest : forall pre m,
  bytes_ok rest -> len (pre ++ rest) <= 64 -> len m = 256 ->
  (forall k c, pre !! k = Some c ->
     byte_ok c /\ m !! Z.to_nat c = Some (Z.of_nat k) /\ c <> 10 /\ c <> 13) ->
  (forall c d, m !! c = Some d -> d = 255 \/ 0 <= d < 64) ->
  forall m', fillMap rest (len pre) m = Ok m' ->
  len m' = 256 /\
  (forall k c, (pre ++ rest) !! k = Some c ->
     byte_ok c /\ m' !! Z.to_nat c = Some (Z.of_nat k) /\ c <> 10 /\ c <> 13) /\
  (forall c d, m' !! c = Some d -> d = 255 \/ 0 <= d < 64) /\
  (forall c, ~ (exists r, r ∈ rest /\ Z.to_nat r = c) -> m' !! c = m !! c).
Proof.
  induction rest as [|x rest IH]; intros pre m Hok Hlen Hm Hpre Hrange m' Hf.
  { injection Hf as <-. rewrite app_nil_r. auto. }
  cbn [fillMap] in Hf. apply Forall_cons in Hok as [Hx Hok].
  destruct ((x =? 10) || (x =? 13)) eqn:Hnl; [done|]. apply orb_false_iff in Hnl as [Hn1%Z.eqb_neq Hn2%Z.eqb_neq].
  destruct (idx m x) as [d| |] eqn:Hd; [|done|done]. cbn [rbind] in Hf.
  apply idx_inv in Hd as [Hxr Hd].
  destruct (Z.eqb_spec d invalidIndex) as [->|]; [|done]. cbn [negb] in Hf.
  rewrite upd_Ok in Hf by done. cbn [rbind] in Hf. rewrite len_app, len_cons in Hlen.
  pose proof (len_nonneg pre). pose proof (len_nonneg rest). rewrite u8_id in Hf by lia.
  replace (len pre + 1) with (len (pre ++ [x])) in Hf by len_lia.
  apply IH in Hf as (H1 & H2 & H3 & H4); [|done|len_lia|by rewrite len_insert| |].
  - rewrite <- app_assoc in H2. split; [done|]. split; [done|]. split; [done|].
    intros c Hc. rewrite H4 by (intros (r & Hr & <-); apply Hc; exists r; split; [by right|done]).
    rewrite list_lookup_insert_ne; [done|]. intros <-. apply Hc. exists x. split; [by left|done].
  - intros k c Hk. apply lookup_app_Some in Hk as [Hp|[Hge Hs]].
    + destruct (Hpre k c Hp) as (E1 & E2 & E3). split; [done|]. split; [|done].
      rewrite list_lookup_insert_ne; [done|]. intros E0. rewrite <- E0, Hd in E2.
      injection E2 as E2. unfold invalidIndex in E2. apply lookup_lt_Some in Hp. unfold len in *. lia.
    + apply list_lookup_singleton_Some in Hs as [E0 <-]. split; [done|]. split; [|done].
      rewrite list_lookup_insert_eq by (unfold len in *; lia). f_equal. unfold len. lia.
  - intros c d Hc. destruct (decide (c = Z.to_nat x)) as [->|].
    + rewrite list_lookup_insert_eq in Hc by (unfold len in *; lia). injection Hc as <-. right. lia.
    + rewrite list_lookup_insert_ne in Hc by done. by eapply Hrange.
Qed.

Lemma NewEncoding_ok alphabet enc :
  bytes_ok alphabet -> NewEncoding alphabet = Ok enc ->
  tables_ok enc /\ encode enc = alphabet /\ strict enc = false /\
  (ch "=" ∉ alphabet -> pad_ok enc).
Proof.
  intros Hok. unfold NewEncoding. destruct (Z.eqb_spec (len alphabet) 64) as [Hl|]; [|done]. cbn [negb].
  destruct (fillMap alphabet 0 decodeMapInitialize) as [m| |] eqn:Hf; [|done|done].
  cbn [rbind]. intros [= <-].
  apply (fillMap_ok alphabet [] decodeMapInitialize) in Hf as (H1 & H2 & H3 & H4); [|done|cbn; lia|done|done|].
  - cbn [app] in *. split; [by constructor|]. split; [done|]. split; [done|].
    {intros Hp. right. cbn. repeat split; try done. rewrite H4; [done|].
      intros (r & Hr & E0). apply Hp. replace (ch "=") with r; [done|].
      pose proof (proj1 (List.Forall_forall _ _) Hok r (proj1 (list_elem_of_In _ _) Hr)) as Hb.
      unfold byte_ok in Hb. change (Z.to_nat r = 61%nat) in E0.
      change (ch "=") with 61. lia. }
  - intros c d Hc. unfold decodeMapInitialize in Hc. apply lookup_replicate in Hc as [-> _]. by left.
Qed.

Lemma WithPadding_ok enc p enc' :
  tables_ok enc -> WithPadding enc p = Ok enc' ->
  tables_ok enc' /\ pad_ok enc' /\ encode enc' = encode enc /\ padChar enc' = p /\ strict enc' = strict enc.
Proof.
  intros Ht. unfold WithPadding, NoPadding.
  destruct (Z.ltb_spec p (-1)), (Z.eqb_spec p 13), (Z.eqb_spec p 10), (Z.gtb_spec p 0xff); try done.
  cbn [orb]. destruct (Z.eqb_spec p (-1)) as [->|]; cbn [negb rbind].
  - intros [= <-]. split; [by destruct Ht; constructor|]. split; [by left|done].
  - rewrite u8_id by lia. destruct (idx (decodeMap enc) p) as [d| |] eqn:Hd; [|done|done]. cbn [rbind].
    apply idx_inv in Hd as [Hr Hd]. destruct (Z.eqb_spec d invalidIndex) as [->|]; [|done]. cbn [negb].
    intros [= <-]. split; [by destruct Ht; constructor|]. split; [|done]. right. cbn. unfold byte_ok.
    repeat split; (done || lia).
Qed.

(** ** Symbols *)

Section Codec.
Context (enc : Encoding) (T : tables_ok enc) (P : pad_ok enc).

Definition sym (k : Z) : Z := default 0 (encode enc !! Z.to_nat k).

Lemma sym_spec k : 0 <= k < 64 ->
  idx (encode enc) k = Ok (sym k) /\ idx (decodeMap enc) (sym k) = Ok k /\
  byte_ok (sym k) /\ isNewline (sym k) = false.
Proof.
  intros Hk. pose proof (encode_len _ T) as Hl. unfold len in Hl.
  destruct (lookup_lt_is_Some_2 (encode enc) (Z.to_nat k)) as [c Hc]; [lia|].
  destruct (encode_decode _ T _ _ Hc) as (H1 & H2 & H3 & H4). unfold sym. rewrite Hc. cbn [default].
  rewrite (idx_Ok _ k c) by (done || lia). split; [done|]. unfold byte_ok in H1.
  rewrite (idx_Ok _ c k); [|lia|rewrite H2; f_equal; lia]. split; [done|]. split; [done|].
  unfold isNewline. by rewrite !(proj2 (Z.eqb_neq _ _)).
Qed.

Definition pads (k : nat) : list Z :=
  if padChar enc =? NoPadding then [] else replicate k (u8 (padChar enc)).

(** The symbols of a 24-bit group. *)
Definition sextet (v i : Z) : Z := v / 2 ^ i mod 64.

Lemma sextet_range v i : 0 <= sextet v i < 64.
Proof. apply Z.mod_pos_bound. lia. Qed.

(** RFC 4648: three bytes to four symbols, the last group padded. *)
Fixpoint text (src : list Z) : list Z :=
  match src with
  | [] => []
  | [b0] =>
      let v := b0 * 2 ^ 16 in [sym (sextet v 18); sym (sextet v 12)] ++ pads 2
  | [b0; b1] =>
      let v := b0 * 2 ^ 16 + b1 * 2 ^ 8 in
      [sym (sextet v 18); sym (sextet v 12); sym (sextet v 6)] ++ pads 1
  | b0 :: b1 :: b2 :: src =>
      let v := b0 * 2 ^ 16 + b1 * 2 ^ 8 + b2 in
      [sym (sextet v 18); sym (sextet v 12); sym (sextet v 6); sym (sextet v 0)] ++ text src
  end.

Lemma putSymbol_app out x r i v s :
  i = len out -> 0 <= s -> putSymbol enc (out ++ x :: r) i v s = Ok ((out ++ [sym (sextet v s)]) ++ r).
Proof.
  intros Hi Hs. unfold putSymbol. rewrite shiftr_div, (land_ones' _ 6) by lia.
  change (v / 2 ^ s mod 2 ^ 6) with (sextet v s).
  rewrite (proj1 (sym_spec _ (sextet_range v s))). cbn [rbind].
  rewrite upd_app by done. by rewrite <- app_assoc.
Qed.

(** Induction in steps of three bytes. *)
Lemma triples_ind (Q : list Z -> Prop) :
  Q [] -> (forall a, Q [a]) -> (forall a b, Q [a; b]) -> (forall a b c l, Q l -> Q (a :: b :: c :: l)) ->
  forall l, Q l.
Proof.
  intros H0 H1 H2 H3 l. enough (H : forall n l, (length l <= n)%nat -> Q l) by (by apply (H (length l))).
  clear l. induction n as [|n IH]; intros [|a [|b [|c l]]] Hn; auto; cbn in Hn; try lia.
  apply H3, IH. lia.
Qed.

Lemma len_text src : len (text src) = EncodedLen enc (len src).
Proof.
  induction src as [| | |a b c l IH] using triples_ind; unfold EncodedLen, pads in *.
  - by destruct (padChar enc =? NoPadding).
  - cbn [text]. unfold pads. destruct (padChar enc =? NoPadding); reflexivity.
  - cbn [text]. unfold pads. destruct (padChar enc =? NoPadding); reflexivity.
  - cbn [text]. rewrite len_app, IH, !len_cons. pose proof (len_nonneg l). change (len (@nil Z)) with 0.
    destruct (padChar enc =? NoPadding); zdm.
Qed.

Lemma or3_sum a b c :
  byte_ok a -> byte_ok b -> byte_ok c ->
  Z.lor (Z.lor (Z.shiftl a 16) (Z.shiftl b 8)) c = a * 2 ^ 16 + b * 2 ^ 8 + c /\
  Z.lor (Z.shiftl a 16) (Z.shiftl b 8) = a * 2 ^ 16 + b * 2 ^ 8.
Proof.
  unfold byte_ok. intros Ha Hb Hc. rewrite !shiftl_mul by lia.
  rewrite (lor_disjoint_mul a (b * 2 ^ 8) 16) by lia.
  rewrite (lor_disjoint (a * 2 ^ 16 + b * 2 ^ 8) c 8); [done|lia| |lia].
  replace (a * 2 ^ 16 + b * 2 ^ 8) with ((a * 2 ^ 8 + b) * 2 ^ 8) by ring. by apply Z.mod_mul.
Qed.

Lemma text_app_triples pre rest :
  (exists k, len pre = 3 * k) -> text (pre ++ rest) = text pre ++ text rest.
Proof.
  induction pre as [| | |a b c l IH] using triples_ind; intros [k Hk].
  - done.
  - len_lia.
  - len_lia.
  - cbn [text app]. do 4 f_equal. apply IH. exists (k - 1). len_lia.
Qed.

(** Four symbols written over the next four bytes of the buffer. *)
Lemma put4 out d0 d1 d2 d3 r v di :
  di = len out ->
  (let! d := putSymbol enc (out ++ d0 :: d1 :: d2 :: d3 :: r) (di + 0) v 18 in
   let! d := putSymbol enc d (di + 1) v 12 in
   let! d := putSymbol enc d (di + 2) v 6 in
   putSymbol enc d (di + 3) v 0)
  = Ok (out ++ [sym (sextet v 18); sym (sextet v 12); sym (sextet v 6); sym (sextet v 0)] ++ r).
Proof.
  intros ->. rewrite putSymbol_app by lia. cbn [rbind]. rewrite putSymbol_app by len_lia. cbn [rbind].
  rewrite putSymbol_app by len_lia. cbn [rbind]. rewrite putSymbol_app by len_lia.
  by rewrite <- !app_assoc.
Qed.

Lemma idx_app3 (pre : list Z) b0 b1 b2 rest si :
  si = len pre ->
  idx (pre ++ b0 :: b1 :: b2 :: rest) (si + 0) = Ok b0 /\
  idx (pre ++ b0 :: b1 :: b2 :: rest) (si + 1) = Ok b1 /\
  idx (pre ++ b0 :: b1 :: b2 :: rest) (si + 2) = Ok b2.
Proof.
  intros ->. split; [apply idx_app; lia|]. split.
  - replace (pre ++ b0 :: b1 :: b2 :: rest) with ((pre ++ [b0]) ++ b1 :: b2 :: rest)
      by (by rewrite <- app_assoc). apply idx_app. len_lia.
  - replace (pre ++ b0 :: b1 :: b2 :: rest) with ((pre ++ [b0; b1]) ++ b2 :: rest)
      by (by rewrite <- app_assoc). apply idx_app. len_lia.
Qed.

(** The state of the encoding loop. *)
Definition encoded_upto (dst src : list Z) (st : list Z * Z * Z) : Prop :=
  let '(d, di, si) := st in
  exists pre rest, src = pre ++ rest /\ len pre = si /\ (exists k, si = 3 * k) /\
    d = text pre ++ drop (length (text pre)) dst /\ di = len (text pre).

Lemma Encode_loop dst src n :
  bytes_ok src -> len (text src) <= len dst -> n = len src / 3 * 3 ->
  loop (S (length src))
    (fun '(dst, di, si) =>
       if si <? n then
         let! b0 := idx src (si + 0) in
         let! b1 := idx src (si + 1) in
         let! b2 := idx src (si + 2) in
         let val := Z.lor (Z.lor (Z.shiftl b0 16) (Z.shiftl b1 8)) b2 in
         let! dst := putSymbol enc dst (di + 0) val 18 in
         let! dst := putSymbol enc dst (di + 1) val 12 in
         let! dst := putSymbol enc dst (di + 2) val 6 in
         let! dst := putSymbol enc dst (di + 3) val 0 in
         Ok (inl (dst, di + 4, si + 3))
       else Ok (inr (dst, di, si))) (dst, 0, 0)
  ⇓ (fun '(d, di, si) => encoded_upto dst src (d, di, si) /\ n <= si).
Proof.
  intros Hok Hlen En. assert (exists q, n = 3 * q) as [q Hq] by (exists (len src / 3); lia).
  assert (Hn : 0 <= n <= len src /\ len src < n + 3) by (pose proof (len_nonneg src); rewrite En; zdm). clear En.
  apply (loop_returns (fun '(d, di, si) => encoded_upto dst src (d, di, si) /\ si <= n)
    (fun '(_, _, si) => len src - si)); [| |unfold len; lia|lia].
  2: { split; [|lia]. exists [], src. repeat split; try done. by exists 0. }
  intros [[d di] si] ((pre & rest & -> & Hp & [k Hk] & -> & ->) & Hsi).
  destruct (Z.ltb_spec si n) as [Hlt|Hge].
  2: { cbn. split; [|lia]. exists pre, rest. repeat split; try done. by exists k. }
  rewrite len_app in Hn. destruct rest as [|b0 [|b1 [|b2 rest]]]; [len_lia..|].
  apply Forall_app in Hok as [Hokp Hokr].
  apply Forall_cons in Hokr as [Hb0 Hokr]. apply Forall_cons in Hokr as [Hb1 Hokr].
  apply Forall_cons in Hokr as [Hb2 Hokr].
  destruct (idx_app3 pre b0 b1 b2 rest si ltac:(lia)) as (-> & -> & ->). cbn [rbind].
  rewrite (proj1 (or3_sum b0 b1 b2 Hb0 Hb1 Hb2)). set (v := b0 * 2 ^ 16 + b1 * 2 ^ 8 + b2).
  assert (Etext : text (pre ++ [b0; b1; b2])
    = text pre ++ [sym (sextet v 18); sym (sextet v 12); sym (sextet v 6); sym (sextet v 0)]).
  { rewrite text_app_triples by (exists k; lia). done. }
  rewrite text_app_triples in Hlen by (exists k; lia). cbn [text] in Hlen. rewrite !len_app in Hlen.
  change (len [_; _; _; _]) with 4 in Hlen.
  assert (Hd : 4 <= len (drop (length (text pre)) dst)).
  { pose proof (len_nonneg (text rest)). unfold len in *. rewrite length_drop. lia. }
  destruct (drop (length (text pre)) dst) as [|d0 [|d1 [|d2 [|d3 t]]]] eqn:Edrop; [len_lia..|].
  pose proof (put4 (text pre) d0 d1 d2 d3 t v (len (text pre)) eq_refl) as Hput.
  destruct (putSymbol enc _ (_ + 0) v 18) as [e1| |]; [|done|done]. cbn [rbind] in *.
  destruct (putSymbol enc e1 _ v 12) as [e2| |]; [|done|done]. cbn [rbind] in *.
  destruct (putSymbol enc e2 _ v 6) as [e3| |]; [|done|done]. cbn [rbind] in *.
  rewrite Hput. cbn [rbind returns]. split; [|len_lia]. split; [|lia].
  exists (pre ++ [b0; b1; b2]), rest. split; [by rewrite <- app_assoc|]. split; [len_lia|].
  split; [exists (k + 1); lia|]. rewrite Etext. split; [|len_lia].
  rewrite <- app_assoc. do 2 f_equal. rewrite length_app, <- drop_drop, Edrop. done.
Qed.

Lemma Encode_text dst src :
  bytes_ok src -> len (text src) <= len dst ->
  Encode enc dst src ⇓ (fun d => d = text src ++ drop (length (text src)) dst).
Proof.
  intros Hok Hlen. unfold Encode. destruct (Z.eqb_spec (len src) 0) as [->%len_zero_inv|Hne]; [done|].
  eapply returns_bind_mono; [by apply Encode_loop|].
  intros [[d di] si] ((pre & rest & -> & Hp & [k Hk] & -> & ->) & Hsi).
  rewrite text_app_triples in * by (exists k; lia). rewrite len_app in *.
  assert (Hrest : len rest < 3) by zdm.
  apply Forall_app in Hok as [_ Hok]. rewrite length_app, <- drop_drop.
  assert (Hd : len (text rest) <= len (drop (length (text pre)) dst)).
  { unfold len in *. rewrite length_drop. lia. }
  set (t := drop (length (text pre)) dst) in *. replace (len pre + len rest - si) with (len rest) by lia.
  destruct rest as [|b0 [|b1 [|? rest]]]; [| | |len_lia].
  - change (len (@nil Z) =? 0) with true. cbn [returns text length]. by rewrite app_nil_r, drop_0.
  - rewrite (idx_app pre) by lia. change (len [b0] =? 0) with false. change (len [b0] =? 2) with false.
    change (len [b0] =? 1) with true. cbn [rbind].
    apply Forall_cons in Hok as [Hb0 _]. rewrite shiftl_mul by lia. cbn [text] in Hd |- *.
    set (v := b0 * 2 ^ 16) in *. rewrite len_app in Hd. change (len [_; _]) with 2 in Hd.
    pose proof (len_nonneg (pads 2)). destruct t as [|d0 [|d1 t]]; [len_lia..|].
    rewrite putSymbol_app by lia. cbn [rbind]. rewrite putSymbol_app by len_lia. cbn [rbind].
    unfold pads in *. destruct (padChar enc =? NoPadding); cbn [negb replicate] in *.
    + cbn. by rewrite <- !app_assoc.
    + destruct t as [|d2 [|d3 t]]; [len_lia..|]. rewrite upd_app by len_lia. cbn [rbind].
      rewrite cons_middle, app_assoc. rewrite upd_app by len_lia. cbn. by rewrite <- !app_assoc.
  - replace (pre ++ [b0; b1]) with (pre ++ b0 :: [b1]) by done. rewrite (idx_app pre) by lia.
    change (len [b0; b1] =? 0) with false. change (len [b0; b1] =? 2) with true. cbn [rbind].
    replace (pre ++ [b0; b1]) with ((pre ++ [b0]) ++ [b1]) by (by rewrite <- app_assoc).
    rewrite (idx_app (pre ++ [b0])) by len_lia. cbn [rbind].
    apply Forall_cons in Hok as [Hb0 Hok]. apply Forall_cons in Hok as [Hb1 _].
    rewrite (proj2 (or3_sum b0 b1 b1 Hb0 Hb1 Hb1)). cbn [text] in Hd |- *.
    set (v := b0 * 2 ^ 16 + b1 * 2 ^ 8) in *. rewrite len_app in Hd. change (len [_; _; _]) with 3 in Hd.
    pose proof (len_nonneg (pads 1)). destruct t as [|d0 [|d1 [|d2 t]]]; [len_lia..|].
    rewrite putSymbol_app by lia. cbn [rbind]. rewrite putSymbol_app by len_lia. cbn [rbind].
    rewrite putSymbol_app by len_lia. cbn [rbind].
    unfold pads in *. destruct (padChar enc =? NoPadding); cbn [negb replicate] in *.
    + cbn. by rewrite <- !app_assoc.
    + destruct t as [|d3 t]; [len_lia|]. rewrite upd_app by len_lia. cbn. by rewrite <- !app_assoc.
Qed.

(** ** Decoding one quantum *)

Lemma sextets_sum v :
  0 <= v < 2 ^ 24 ->
  sextet v 18 * 2 ^ 18 + sextet v 12 * 2 ^ 12 + sextet v 6 * 2 ^ 6 + sextet v 0 = v.
Proof.
  intros Hv. unfold sextet. change (2 ^ 0) with 1. rewrite Z.div_1_r.
  pose proof (Z.div_mod v 64 ltac:(lia)) as E0.
  pose proof (Z.div_mod (v / 64) 64 ltac:(lia)) as E1. rewrite Z.div_div in E1 by lia.
  pose proof (Z.div_mod (v / 4096) 64 ltac:(lia)) as E2. rewrite Z.div_div in E2 by lia.
  change (2 ^ 6) with 64. change (2 ^ 12) with 4096. change (2 ^ 18) with 262144.
  change (64 * 64) with 4096 in E1. change (4096 * 64) with 262144 in E2.
  rewrite (Z.mod_small (v / 262144)) by zdm. lia.
Qed.

Lemma or4_sum a b c d :
  0 <= a < 64 -> 0 <= b < 64 -> 0 <= c < 64 -> 0 <= d < 64 ->
  Z.lor (Z.lor (Z.lor (Z.shiftl a 18) (Z.shiftl b 12)) (Z.shiftl c 6)) d
  = a * 2 ^ 18 + b * 2 ^ 12 + c * 2 ^ 6 + d.
Proof.
  intros Ha Hb Hc Hd. rewrite !shiftl_mul by lia. rewrite (lor_disjoint_mul a (b * 2 ^ 12) 18) by lia.
  rewrite (lor_disjoint (a * 2 ^ 18 + b * 2 ^ 12) (c * 2 ^ 6) 12); [|lia| |lia].
  2: { replace (a * 2 ^ 18 + b * 2 ^ 12) with ((a * 2 ^ 6 + b) * 2 ^ 12) by ring. by apply Z.mod_mul. }
  apply (lor_disjoint _ d 6); [lia| |lia].
  replace (a * 2 ^ 18 + b * 2 ^ 12 + c * 2 ^ 6) with ((a * 2 ^ 12 + b * 2 ^ 6 + c) * 2 ^ 6) by ring.
  by apply Z.mod_mul.
Qed.

Lemma body_symbol A R dbuf j si k :
  si = len A -> 0 <= j < 4 -> len dbuf = 4 -> 0 <= k < 64 ->
  quantumBody enc (A ++ sym k :: R) (dbuf, j, si)
  = Ok (inl (<[Z.to_nat j := k]> dbuf, j + 1, si + 1)).
Proof.
  intros Hsi Hj Hd Hk. unfold quantumBody. destruct (Z.ltb_spec j 4); [|lia]. cbn [negb].
  destruct (Z.eqb_spec (len (A ++ sym k :: R)) si); [len_lia|].
  rewrite idx_app by done. cbn [rbind]. destruct (sym_spec k Hk) as (_ & -> & _). cbn [rbind].
  destruct (Z.eqb_spec k 0xff); [lia|]. cbn [negb]. by rewrite upd_Ok by lia.
Qed.

(** Reads the symbols [ks] from position [si] on. *)
Lemma read_symbols ks : forall A R dbuf j si f,
  si = len A -> 0 <= j -> j + len ks <= 4 -> len dbuf = 4 -> Forall (fun k => 0 <= k < 64) ks ->
  loop (length ks + f) (quantumBody enc (A ++ map sym ks ++ R)) (dbuf, j, si)
  = loop f (quantumBody enc (A ++ map sym ks ++ R))
      (list_inserts (Z.to_nat j) ks dbuf, j + len ks, si + len ks).
Proof.
  induction ks as [|k ks IH]; intros A R dbuf j si f Hsi Hj Hl Hd Hks.
  { cbn. f_equal. f_equal; [f_equal|]; len_lia. }
  apply Forall_cons in Hks as [Hk Hks]. cbn [map app length Nat.add].
  rewrite len_cons in Hl. pose proof (len_nonneg ks).
  rewrite (loop_inl _ _ _ (<[Z.to_nat j := k]> dbuf, j + 1, si + 1)) by (apply body_symbol; (done || lia)).
  replace (A ++ sym k :: map sym ks ++ R) with ((A ++ [sym k]) ++ map sym ks ++ R) by (by rewrite <- app_assoc).
  rewrite IH by (done || len_lia). rewrite len_cons. f_equal. f_equal; [f_equal; [|lia]|lia].
  cbn [list_inserts]. replace (Z.to_nat (j + 1)) with (S (Z.to_nat j)) by lia.
  rewrite list_insert_inserts_lt; [done|lia].
Qed.

Lemma fuel_split n k : (k <= n)%nat -> exists f, n = (k + f)%nat.
Proof. intros H. exists (n - k)%nat. lia. Qed.

Lemma fillQuantum_full A R ks si :
  si = len A -> len ks = 4 -> Forall (fun k => 0 <= k < 64) ks ->
  fillQuantum enc (A ++ map sym ks ++ R) si = Ok (Filled ks 4 (si + 4) None).
Proof.
  intros Hsi Hl Hks. unfold fillQuantum.
  destruct (fuel_split (S (S (length (A ++ map sym ks ++ R)))) (length ks + 1)) as [f ->].
  { rewrite !length_app, length_map. lia. }
  rewrite <- Nat.add_assoc, read_symbols by (done || lia).
  rewrite (loop_inr _ f _ (Filled ks 4 (si + 4) None)); [done|].
  rewrite Hl. cbn [quantumBody Z.add]. destruct ks as [|a [|b [|c [|d [|e ks]]]]]; (len_lia || done).
Qed.

Lemma skipNewlines_end src : skipNewlines src (len src) = Ok (len src).
Proof. unfold skipNewlines. cbn [loop]. by rewrite Z.ltb_irrefl. Qed.

Lemma skipNewlines_stop A c R si :
  si = len A -> isNewline c = false -> skipNewlines (A ++ c :: R) si = Ok si.
Proof.
  intros Hsi Hc. unfold skipNewlines. cbn [loop].
  destruct (Z.ltb_spec si (len (A ++ c :: R))); [|len_lia]. rewrite idx_app by done. cbn. by rewrite Hc.
Qed.

Lemma pad_facts : padChar enc <> NoPadding ->
  u8 (padChar enc) = padChar enc /\ idx (decodeMap enc) (padChar enc) = Ok 255 /\
  isNewline (padChar enc) = false.
Proof.
  intros Hp. destruct P as [|(Hb & H1 & H2 & H3)]; [done|]. unfold byte_ok in Hb.
  split; [by apply u8_id|]. split; [by apply idx_Ok; [lia|]|].
  unfold isNewline. by rewrite !(proj2 (Z.eqb_neq _ _)).
Qed.

(** The end of a text: two or three symbols and the padding, if there is any. *)
Lemma body_tail A dbuf j si :
  si = len A -> j = 2 \/ j = 3 ->
  quantumBody enc (A ++ pads (Z.to_nat (4 - j))) (dbuf, j, si)
  = Ok (inr (Filled dbuf j (len (A ++ pads (Z.to_nat (4 - j)))) None)).
Proof.
  intros -> Hj. unfold quantumBody, pads. destruct (Z.ltb_spec j 4); [|lia]. cbn [negb].
  destruct (Z.eqb_spec (padChar enc) NoPadding) as [Hn|Hn].
  - rewrite app_nil_r, Z.eqb_refl. destruct (Z.eqb_spec j 0), (Z.eqb_spec j 1); try lia. done.
  - destruct (pad_facts Hn) as (-> & Hmap & Hnl). set (p := padChar enc) in *.
    destruct Hj as [-> | ->].
    + change (replicate (Z.to_nat (4 - 2)) p) with [p; p].
      destruct (Z.eqb_spec (len (A ++ [p; p])) (len A)); [len_lia|].
      rewrite idx_app by done. cbn [rbind]. rewrite Hmap. cbn [rbind]. rewrite Z.eqb_refl, Hnl, Z.eqb_refl.
      cbn [negb Z.eqb orb Pos.eqb].
      replace (A ++ [p; p]) with ((A ++ [p]) ++ [p]) by (by rewrite <- app_assoc).
      rewrite skipNewlines_stop by (done || len_lia). cbn [rbind].
      destruct (Z.eqb_spec (len A + 1) (len ((A ++ [p]) ++ [p]))); [len_lia|].
      rewrite idx_app by len_lia. cbn [rbind]. rewrite Z.eqb_refl. cbn [negb rbind].
      replace (len A + 1 + 1) with (len ((A ++ [p]) ++ [p])) by len_lia.
      rewrite skipNewlines_end. cbn [rbind]. by rewrite Z.ltb_irrefl.
    + change (replicate (Z.to_nat (4 - 3)) p) with [p].
      destruct (Z.eqb_spec (len (A ++ [p])) (len A)); [len_lia|].
      rewrite idx_app by done. cbn [rbind]. rewrite Hmap. cbn [rbind]. rewrite Z.eqb_refl, Hnl, Z.eqb_refl.
      cbn [negb Z.eqb orb Pos.eqb rbind].
      replace (len A + 1) with (len (A ++ [p])) by len_lia.
      rewrite skipNewlines_end. cbn [rbind]. by rewrite Z.ltb_irrefl.
Qed.

Lemma fillQuantum_tail A ks si :
  si = len A -> len ks = 2 \/ len ks = 3 -> Forall (fun k => 0 <= k < 64) ks ->
  let src := A ++ map sym ks ++ pads (Z.to_nat (4 - len ks)) in
  fillQuantum enc src si = Ok (Filled (list_inserts 0 ks [0; 0; 0; 0]) (len ks) (len src) None).
Proof.
  intros Hsi Hl Hks src. unfold fillQuantum.
  destruct (fuel_split (S (S (length src))) (length ks + 1)) as [f ->].
  { unfold src. rewrite !length_app, length_map. lia. }
  unfold src. rewrite <- Nat.add_assoc, read_symbols by (done || len_lia).
  rewrite Z.add_0_l. change (Z.to_nat 0) with 0%nat.
  rewrite (loop_inr _ f _ (Filled (list_inserts 0 ks [0; 0; 0; 0]) (len ks) (len src) None)); [done|].
  unfold src. rewrite app_assoc. apply body_tail; [|done]. rewrite len_app. unfold len. rewrite length_map.
  unfold len in *. lia.
Qed.

Lemma group_bytes b0 b1 b2 :
  byte_ok b0 -> byte_ok b1 -> byte_ok b2 ->
  let v := b0 * 2 ^ 16 + b1 * 2 ^ 8 + b2 in
  0 <= v < 2 ^ 24 /\ u8 (Z.shiftr v 16) = b0 /\ u8 (Z.shiftr v 8) = b1 /\ u8 (Z.shiftr v 0) = b2.
Proof.
  unfold byte_ok, u8. intros H0 H1 H2. cbv zeta. rewrite !shiftr_div by lia. change (2 ^ 0) with 1.
  split; [lia|]. repeat split; zdm.
Qed.

(** Consecutive writes. *)
Lemma upd_at2 (out : list Z) d0 d1 d2 t i x :
  i = len out + 2 -> upd (out ++ d0 :: d1 :: d2 :: t) i x = Ok (out ++ d0 :: d1 :: x :: t).
Proof.
  intros ->. replace (out ++ d0 :: d1 :: d2 :: t) with ((out ++ [d0; d1]) ++ d2 :: t) by (by rewrite <- app_assoc).
  rewrite upd_app by len_lia. by rewrite <- app_assoc.
Qed.

Lemma upd_at1 (out : list Z) d0 d1 t i x :
  i = len out + 1 -> upd (out ++ d0 :: d1 :: t) i x = Ok (out ++ d0 :: x :: t).
Proof.
  intros ->. replace (out ++ d0 :: d1 :: t) with ((out ++ [d0]) ++ d1 :: t) by (by rewrite <- app_assoc).
  rewrite upd_app by len_lia. by rewrite <- app_assoc.
Qed.

(** The symbols of the groups of one, two and three bytes. *)
Definition symbols (bs : list Z) : list Z :=
  match bs with
  | [b0] => let v := b0 * 2 ^ 16 in [sextet v 18; sextet v 12]
  | [b0; b1] => let v := b0 * 2 ^ 16 + b1 * 2 ^ 8 in [sextet v 18; sextet v 12; sextet v 6]
  | [b0; b1; b2] => let v := b0 * 2 ^ 16 + b1 * 2 ^ 8 + b2 in [sextet v 18; sextet v 12; sextet v 6; sextet v 0]
  | _ => []
  end.

Lemma symbols_ok bs : Forall (fun k => 0 <= k < 64) (symbols bs).
Proof.
  destruct bs as [|b0 [|b1 [|b2 [|? ?]]]]; cbn [symbols]; repeat constructor; apply sextet_range.
Qed.

Lemma idx4 (a b c d : Z) :
  idx [a; b; c; d] 0 = Ok a /\ idx [a; b; c; d] 1 = Ok b /\ idx [a; b; c; d] 2 = Ok c /\
  idx [a; b; c; d] 3 = Ok d.
Proof. done. Qed.

Ltac read4 :=
  match goal with |- context [idx [?a; ?b; ?c; ?d] 0] =>
    let H0 := fresh in let H1 := fresh in let H2 := fresh in let H3 := fresh in
    destruct (idx4 a b c d) as (H0 & H1 & H2 & H3); rewrite H0, H1, H2, H3; clear H0 H1 H2 H3 end;
  cbn [rbind].

Lemma decodeQuantum_full A R out d0 d1 d2 t b0 b1 b2 si :
  byte_ok b0 -> byte_ok b1 -> byte_ok b2 -> si = len A ->
  decodeQuantum enc (out ++ d0 :: d1 :: d2 :: t) (len out) (A ++ map sym (symbols [b0; b1; b2]) ++ R) si
  = Ok (out ++ b0 :: b1 :: b2 :: t, si + 4, 3, None).
Proof.
  intros H0 H1 H2 Hsi. unfold decodeQuantum.
  rewrite fillQuantum_full by (done || apply symbols_ok). cbn [rbind symbols].
  set (v := b0 * 2 ^ 16 + b1 * 2 ^ 8 + b2).
  destruct (group_bytes b0 b1 b2 H0 H1 H2) as (Hv & E0 & E1 & E2). fold v in Hv, E0, E1, E2.
  read4. rewrite or4_sum by apply sextet_range. rewrite sextets_sum by done. rewrite E0, E1, E2.
  cbn [Z.eqb Pos.eqb Z.geb Z.compare Pos.compare Pos.compare_cont].
  rewrite upd_at2 by done. cbn [rbind]. rewrite upd_at1 by done. cbn [rbind negb Z.eqb].
  rewrite andb_false_r. cbn [rbind]. rewrite upd_app by lia. cbn [rbind negb Z.eqb orb].
  by rewrite andb_false_r.
Qed.

Lemma decodeQuantum_tail A out bs ds t si :
  len bs = 1 \/ len bs = 2 -> bytes_ok bs -> si = len A -> len ds = len bs ->
  let src := A ++ map sym (symbols bs) ++ pads (Z.to_nat (3 - len bs)) in
  decodeQuantum enc (out ++ ds ++ t) (len out) src si = Ok (out ++ bs ++ t, len src, len bs, None).
Proof.
  intros Hl Hok Hsi Hds src. unfold decodeQuantum.
  assert (Hk : len (symbols bs) = len bs + 1)
    by (destruct bs as [|b0 [|b1 [|? ?]]]; try reflexivity; len_lia).
  unfold src. replace (3 - len bs) with (4 - len (symbols bs)) by lia.
  rewrite fillQuantum_tail by (apply symbols_ok || lia). rewrite Hk. cbn [rbind].
  replace (4 - (len bs + 1)) with (3 - len bs) by lia.
  set (total := len (A ++ map sym (symbols bs) ++ pads (Z.to_nat (3 - len bs)))). clearbody total. clear src.
  destruct bs as [|b0 [|b1 [|? ?]]]; [len_lia| | |len_lia]; apply Forall_cons in Hok as [H0 Hok].
  - destruct ds as [|d0 [|? ?]]; [len_lia| |len_lia]. cbn [symbols].
    destruct (group_bytes b0 0 0 H0 ltac:(by unfold byte_ok) ltac:(by unfold byte_ok)) as (Hv & E0 & E1 & E2).
    replace (b0 * 2 ^ 16 + 0 * 2 ^ 8 + 0) with (b0 * 2 ^ 16) in * by lia.
    pose proof (sextets_sum (b0 * 2 ^ 16) Hv) as Hsum. set (v := b0 * 2 ^ 16) in *.
    assert (Hz : sextet v 6 = 0 /\ sextet v 0 = 0).
    { unfold sextet, v. split; [|change (2 ^ 0) with 1; rewrite Z.div_1_r]; zdm. }
    change (list_inserts 0 [sextet v 18; sextet v 12] [0; 0; 0; 0]) with [sextet v 18; sextet v 12; 0; 0].
    read4. rewrite or4_sum by (apply sextet_range || lia).
    replace (sextet v 18 * 2 ^ 18 + sextet v 12 * 2 ^ 12 + 0 * 2 ^ 6 + 0) with v by lia.
    rewrite E0, E1, E2. change (len [b0] + 1) with 2.
    cbn [Z.eqb Pos.eqb Z.geb Z.compare Pos.compare Pos.compare_cont rbind app].
    rewrite upd_app by lia. cbn [rbind negb Z.eqb orb]. by rewrite andb_false_r.
  - apply Forall_cons in Hok as [H1 Hok]. destruct ds as [|d0 [|d1 [|? ?]]]; [len_lia|len_lia| |len_lia].
    cbn [symbols].
    destruct (group_bytes b0 b1 0 H0 H1 ltac:(by unfold byte_ok)) as (Hv & E0 & E1 & E2).
    rewrite Z.add_0_r in *. pose proof (sextets_sum (b0 * 2 ^ 16 + b1 * 2 ^ 8) Hv) as Hsum.
    set (v := b0 * 2 ^ 16 + b1 * 2 ^ 8) in *.
    assert (Hz : sextet v 0 = 0).
    { unfold sextet, v. change (2 ^ 0) with 1. rewrite Z.div_1_r. zdm. }
    change (list_inserts 0 [sextet v 18; sextet v 12; sextet v 6] [0; 0; 0; 0])
      with [sextet v 18; sextet v 12; sextet v 6; 0].
    read4. rewrite or4_sum by (apply sextet_range || lia).
    replace (sextet v 18 * 2 ^ 18 + sextet v 12 * 2 ^ 12 + sextet v 6 * 2 ^ 6 + 0) with v by lia.
    rewrite E0, E1, E2. change (len [b0; b1] + 1) with 3.
    cbn [Z.eqb Pos.eqb Z.geb Z.compare Pos.compare Pos.compare_cont rbind app].
    rewrite upd_at1 by lia. cbn [rbind negb Z.eqb]. rewrite andb_false_r. cbn [rbind].
    rewrite upd_app by lia. cbn [rbind negb Z.eqb orb]. by rewrite andb_false_r.
Qed.

(** ** Assembling symbols *)

Lemma lor_acc q n k m :
  0 <= k -> m = k + 6 -> 0 <= n < 64 -> Z.lor (q * 2 ^ m) (Z.shiftl n k) = (q * 64 + n) * 2 ^ k.
Proof.
  intros Hk -> Hn. rewrite shiftl_mul by done. rewrite Z.pow_add_r by lia.
  assert (0 < 2 ^ k) by lia.
  rewrite (lor_disjoint (q * (2 ^ k * 2 ^ 6)) (n * 2 ^ k) (k + 6)); [ring|lia| |].
  - rewrite Z.pow_add_r by lia. apply Z.mod_mul. nia.
  - rewrite Z.pow_add_r by lia. nia.
Qed.

Lemma lor_sextets a b : 0 <= a < 64 -> 0 <= b < 64 -> 0 <= Z.lor a b < 64.
Proof.
  intros Ha Hb. assert (E0 : Z.lor a b = Z.lor a b mod 2 ^ 6).
  { rewrite <- (Z.land_ones _ 6), Z.land_lor_distr_l, !Z.land_ones, !Z.mod_small by lia. done. }
  rewrite E0. apply Z.mod_pos_bound. lia.
Qed.

Lemma lor_invalid a : 0 <= a < 256 -> Z.lor a 255 = 255 /\ Z.lor 255 a = 255.
Proof.
  intros Ha. rewrite (Z.lor_comm 255 a).
  enough (H : Z.lor a 255 = 255) by done. apply Z.bits_inj'. intros i Hi. rewrite Z.lor_spec.
  change 255 with (Z.ones 8). rewrite Z.testbit_ones_nonneg by lia. destruct (Z.ltb_spec i 8).
  - apply orb_true_r.
  - rewrite orb_false_r, <- (Z.mod_small a (2 ^ 8)) by lia. by apply Z.mod_pow2_bits_high.
Qed.

Lemma lor_bytes a b : 0 <= a < 256 -> 0 <= b < 256 -> 0 <= Z.lor a b < 256.
Proof.
  intros Ha Hb. assert (E0 : Z.lor a b = Z.lor a b mod 2 ^ 8).
  { rewrite <- (Z.land_ones _ 8), Z.land_lor_distr_l, !Z.land_ones, !Z.mod_small by lia. done. }
  rewrite E0. apply Z.mod_pos_bound. lia.
Qed.

(** The number four sextets stand for. *)
Definition num4 (a b c d : Z) : Z := a * 2 ^ 18 + b * 2 ^ 12 + c * 2 ^ 6 + d.

Lemma u32_shift n k : 0 <= n < 64 -> 0 <= k <= 26 -> u32 (Z.shiftl n k) = Z.shiftl n k.
Proof.
  intros Hn Hk. rewrite shiftl_mul by lia. apply u32_id.
  pose proof (Z.pow_le_mono_r 2 k 26 ltac:(lia) ltac:(lia)). assert (0 < 2 ^ k) by lia. nia.
Qed.

Lemma u64_shift n k : 0 <= n < 64 -> 0 <= k <= 58 -> u64 (Z.shiftl n k) = Z.shiftl n k.
Proof.
  intros Hn Hk. rewrite shiftl_mul by lia. apply u64_id.
  pose proof (Z.pow_le_mono_r 2 k 58 ltac:(lia) ltac:(lia)). assert (0 < 2 ^ k) by lia. nia.
Qed.

Lemma assemble32_valid a b c d :
  0 <= a < 64 -> 0 <= b < 64 -> 0 <= c < 64 -> 0 <= d < 64 ->
  assemble32 a b c d = (num4 a b c d * 2 ^ 8, true).
Proof.
  intros Ha Hb Hc Hd. unfold assemble32.
  pose proof (lor_sextets _ _ (lor_sextets _ _ (lor_sextets _ _ Ha Hb) Hc) Hd) as Hl.
  destruct (Z.eqb_spec (Z.lor (Z.lor (Z.lor a b) c) d) 0xff); [lia|].
  rewrite !u32_shift by lia. f_equal. rewrite (shiftl_mul a 26) by lia.
  rewrite (lor_acc a b 20 26), (lor_acc _ c 14 20), (lor_acc _ d 8 14) by lia. unfold num4. ring.
Qed.

Lemma assemble64_valid a b c d a' b' c' d' :
  0 <= a < 64 -> 0 <= b < 64 -> 0 <= c < 64 -> 0 <= d < 64 ->
  0 <= a' < 64 -> 0 <= b' < 64 -> 0 <= c' < 64 -> 0 <= d' < 64 ->
  assemble64 a b c d a' b' c' d' = ((num4 a b c d * 2 ^ 24 + num4 a' b' c' d') * 2 ^ 16, true).
Proof.
  intros Ha Hb Hc Hd Ha' Hb' Hc' Hd'. unfold assemble64.
  pose proof (lor_sextets _ _ (lor_sextets _ _ (lor_sextets _ _ (lor_sextets _ _ (lor_sextets _ _
    (lor_sextets _ _ (lor_sextets _ _ Ha Hb) Hc) Hd) Ha') Hb') Hc') Hd') as Hl.
  case_match eqn:E0; [apply Z.eqb_eq in E0; lia|].
  rewrite !u64_shift by lia. f_equal. rewrite (shiftl_mul a 58) by lia.
  rewrite (lor_acc a b 52 58), (lor_acc _ c 46 52), (lor_acc _ d 40 46), (lor_acc _ a' 34 40),
    (lor_acc _ b' 28 34), (lor_acc _ c' 22 28), (lor_acc _ d' 16 22) by lia. unfold num4. ring.
Qed.

(** An invalid symbol makes the fast path give up. *)
Lemma assemble32_invalid a b c : 0 <= a < 256 -> 0 <= b < 256 -> 0 <= c < 256 ->
  assemble32 a b c 255 = (0, false).
Proof.
  intros Ha Hb Hc. unfold assemble32.
  by rewrite (proj1 (lor_invalid _ (lor_bytes _ _ (lor_bytes _ _ Ha Hb) Hc))).
Qed.

Lemma assemble64_invalid a b c d e f g :
  0 <= a < 256 -> 0 <= b < 256 -> 0 <= c < 256 -> 0 <= d < 256 -> 0 <= e < 256 ->
  0 <= f < 256 -> 0 <= g < 256 -> assemble64 a b c d e f g 255 = (0, false).
Proof.
  intros Ha Hb Hc Hd He Hf Hg. unfold assemble64.
  by rewrite (proj1 (lor_invalid _ (lor_bytes _ _ (lor_bytes _ _ (lor_bytes _ _ (lor_bytes _ _
    (lor_bytes _ _ (lor_bytes _ _ Ha Hb) Hc) Hd) He) Hf) Hg))).
Qed.

Lemma be_bytes_group b0 b1 b2 :
  byte_ok b0 -> byte_ok b1 -> byte_ok b2 ->
  be_bytes 4 ((b0 * 2 ^ 16 + b1 * 2 ^ 8 + b2) * 2 ^ 8) = [b0; b1; b2; 0].
Proof.
  unfold byte_ok. intros H0 H1 H2. cbn [be_bytes app].
  rewrite !Z.div_div by lia.
  repeat f_equal; zdm.
Qed.

Lemma be_bytes_group2 b0 b1 b2 b3 b4 b5 :
  byte_ok b0 -> byte_ok b1 -> byte_ok b2 -> byte_ok b3 -> byte_ok b4 -> byte_ok b5 ->
  be_bytes 8 (((b0 * 2 ^ 16 + b1 * 2 ^ 8 + b2) * 2 ^ 24 + (b3 * 2 ^ 16 + b4 * 2 ^ 8 + b5)) * 2 ^ 16)
  = [b0; b1; b2; b3; b4; b5; 0; 0].
Proof.
  unfold byte_ok. intros. cbn [be_bytes app]. rewrite !Z.div_div by lia.
  repeat f_equal; zdm.
Qed.

(** ** Reading the text of some bytes *)

Lemma idx_app_r (A l : list Z) i : 0 <= i -> idx (A ++ l) (len A + i) = idx l i.
Proof.
  intros Hi. unfold idx. pose proof (len_nonneg A).
  rewrite !(proj2 (Z.leb_le _ _)) by lia. unfold len. rewrite lookup_app_r by lia.
  by replace (Z.to_nat (Z.of_nat (length A) + i) - length A)%nat with (Z.to_nat i) by lia.
Qed.

(** The symbol values of the characters of [l], 255 for the padding. *)
Definition reads_as (l ds : list Z) : Prop :=
  length l = length ds /\ forall i c d, l !! i = Some c -> ds !! i = Some d -> idx (decodeMap enc) c = Ok d.

Lemma symbolAt_reads A l R ds i d si :
  reads_as l ds -> si = len A -> 0 <= i -> ds !! Z.to_nat i = Some d ->
  symbolAt enc (A ++ l ++ R) (si + i) = Ok d.
Proof.
  intros [Hl Hr] -> Hi Hd. unfold symbolAt. rewrite idx_app_r by done.
  pose proof (lookup_lt_Some _ _ _ Hd) as Hlt.
  destruct (lookup_lt_is_Some_2 l (Z.to_nat i)) as [c Hc]; [lia|].
  rewrite (idx_Ok _ i c) by (done || by rewrite lookup_app_l by lia). cbn [rbind]. by eapply Hr.
Qed.

Lemma reads_as_app l1 l2 d1 d2 : reads_as l1 d1 -> reads_as l2 d2 -> reads_as (l1 ++ l2) (d1 ++ d2).
Proof.
  intros [L1 R1] [L2 R2]. split; [by rewrite !length_app, L1, L2|]. intros i c d Hc Hd.
  destruct (decide (i < length l1)%nat).
  - rewrite lookup_app_l in Hc, Hd by lia. by eapply R1.
  - rewrite lookup_app_r in Hc, Hd by lia. rewrite <- L1 in Hd. by eapply R2.
Qed.

Lemma reads_as_symbols bs : reads_as (map sym (symbols bs)) (symbols bs).
Proof.
  split; [by rewrite length_map|]. intros i c d Hc Hd. change (map sym) with (fmap (M := list) sym) in Hc.
  rewrite list_lookup_fmap, Hd in Hc. injection Hc as <-.
  pose proof (proj1 (Forall_lookup _ _) (symbols_ok bs) _ _ Hd) as Hk. by apply sym_spec.
Qed.

Lemma reads_as_pads k : padChar enc <> NoPadding -> reads_as (pads k) (replicate k 255).
Proof.
  intros Hp. destruct (pad_facts Hp) as (E0 & Hmap & _). unfold pads.
  rewrite (proj2 (Z.eqb_neq _ _) Hp), E0. split; [by rewrite !length_replicate|].
  intros i c d [-> _]%lookup_replicate [-> _]%lookup_replicate. done.
Qed.

Lemma text_triple b0 b1 b2 r : text (b0 :: b1 :: b2 :: r) = map sym (symbols [b0; b1; b2]) ++ text r.
Proof. done. Qed.

Lemma text_short bs : len bs = 1 \/ len bs = 2 ->
  text bs = map sym (symbols bs) ++ pads (Z.to_nat (3 - len bs)).
Proof. intros Hl. destruct bs as [|b0 [|b1 [|? ?]]]; [len_lia|done|done|len_lia]. Qed.

Lemma len_text_triples done_ k : len done_ = 3 * k -> len (text done_) = 4 * k.
Proof.
  intros Hk. rewrite len_text, Hk. unfold EncodedLen.
  destruct (padChar enc =? NoPadding); zdm.
Qed.

(** ** The loops of Decode on an encoded text *)

Section RoundTrip.
Context `{L : !BigEndianLaws B} (orig : list Z) (Hok : bytes_ok orig) (cap : Z) (Hcap : len orig <= cap).

(** Whole groups are decoded, the rest is ahead. *)
Definition partway (st : list Z * Z * Z) : Prop :=
  let '(dst, si, n) := st in
  exists done_ rest t, orig = done_ ++ rest /\ (exists k, len done_ = 3 * k) /\ dst = done_ ++ t /\
    len dst = cap /\ n = len done_ /\ si = len (text done_).
Definition finished (st : list Z * Z * Z) : Prop :=
  let '(dst, si, n) := st in
  exists t, dst = orig ++ t /\ len dst = cap /\ n = len orig /\ si = len (text orig).

Lemma partway_next done_ b0 b1 b2 rest t :
  orig = done_ ++ b0 :: b1 :: b2 :: rest -> (exists k, len done_ = 3 * k) ->
  len (done_ ++ b0 :: b1 :: b2 :: t) = cap ->
  partway (done_ ++ b0 :: b1 :: b2 :: t, len (text done_) + 4, len done_ + 3).
Proof.
  intros Ho [k Hk] Hl. exists (done_ ++ [b0; b1; b2]), rest, t.
  split; [by rewrite Ho, <- app_assoc|]. split; [exists (k + 1); len_lia|].
  split; [by rewrite <- app_assoc|]. split; [done|]. split; [len_lia|].
  rewrite text_app_triples by (by exists k). rewrite len_app. done.
Qed.

Lemma partway_finished st : partway st -> (let '(_, si, _) := st in len (text orig) <= si) -> finished st.
Proof.
  destruct st as [[dst si] n]. intros (done_ & rest & t & Ho & [k Hk] & -> & Hl & -> & ->) Hsi.
  rewrite Ho, text_app_triples, len_app in Hsi by (by exists k).
  assert (rest = []) as ->.
  { destruct rest as [|b0 [|b1 [|b2 rest]]]; [done| | |].
    - cbn [text] in Hsi. pose proof (len_nonneg (pads 2)). len_lia.
    - cbn [text] in Hsi. pose proof (len_nonneg (pads 1)). len_lia.
    - rewrite text_triple, len_app in Hsi. change (len (map sym (symbols [b0; b1; b2]))) with 4 in Hsi.
      len_lia. }
  rewrite app_nil_r in Ho. subst. by exists t.
Qed.

(** Progress of a loop: a later state of the decoding. *)
Definition advances (si : Z) (st : list Z * Z * Z) : Prop :=
  (partway st \/ finished st) /\ (let '(_, si', _) := st in si < si' <= len (text orig)).

(** One call of decodeQuantum. *)
Lemma quantumStep_orig dst si n :
  partway (dst, si, n) -> si < len (text orig) ->
  quantumStep enc dst (text orig) si n ⇓ (fun r => match r with inl st => advances si st | inr _ => False end).
Proof.
  intros (done_ & rest & t & Ho & [k Hk] & -> & Hl & -> & ->) Hsi.
  assert (Ht : text orig = text done_ ++ text rest) by (rewrite Ho; apply text_app_triples; by exists k).
  assert (Hokr : bytes_ok rest) by (rewrite Ho in Hok; by apply Forall_app in Hok as [_ ?]).
  assert (Hcr : len rest <= len t) by (rewrite Ho in Hcap; len_lia).
  destruct (decide (len rest < 3)) as [Hshort|Hlong].
  - assert (Hr : len rest = 1 \/ len rest = 2).
    { destruct rest as [|b0 rest]; [rewrite Ht in Hsi; cbn [text] in Hsi; len_lia|len_lia]. }
    destruct (slice_split t (len rest)) as (ds & t' & -> & Hds); [len_lia|].
    unfold quantumStep. rewrite Ht, (text_short rest Hr).
    rewrite decodeQuantum_tail by done. cbn. rewrite <- (text_short rest Hr), <- Ht. split; [|lia].
    right. exists t'. rewrite Ho, <- app_assoc. split; [done|]. split; [len_lia|]. split; [len_lia|done].
  - destruct rest as [|b0 [|b1 [|b2 r]]]; [len_lia..|].
    apply Forall_cons in Hokr as [Hb0 Hokr]. apply Forall_cons in Hokr as [Hb1 Hokr].
    apply Forall_cons in Hokr as [Hb2 Hokr]. destruct t as [|d0 [|d1 [|d2 t]]]; [len_lia..|].
    unfold quantumStep. rewrite Ht, text_triple, decodeQuantum_full by done. cbn. split.
    + left. apply (partway_next done_ b0 b1 b2 r); [done|by exists k|len_lia].
    + rewrite Ht, text_triple, !len_app. change (len (map sym (symbols [b0; b1; b2]))) with 4. len_lia.
Qed.

Lemma not_finished dst si n : finished (dst, si, n) -> len (text orig) - si >= 1 -> False.
Proof. intros (t & _ & _ & _ & ->). lia. Qed.

Lemma num4_symbols b0 b1 b2 :
  byte_ok b0 -> byte_ok b1 -> byte_ok b2 ->
  exists s0 s1 s2 s3, symbols [b0; b1; b2] = [s0; s1; s2; s3] /\
    0 <= s0 < 64 /\ 0 <= s1 < 64 /\ 0 <= s2 < 64 /\ 0 <= s3 < 64 /\
    num4 s0 s1 s2 s3 = b0 * 2 ^ 16 + b1 * 2 ^ 8 + b2.
Proof.
  intros H0 H1 H2. destruct (group_bytes b0 b1 b2 H0 H1 H2) as (Hv & _).
  do 4 eexists. split; [reflexivity|]. do 4 (split; [apply sextet_range|]). by apply sextets_sum.
Qed.

(** The rest of a text that is long enough for a padded or whole group. *)
Lemma short_padded r m :
  len r = 1 \/ len r = 2 -> m <= len (text r) -> m >= 4 -> padChar enc <> NoPadding.
Proof.
  intros Hr Hm Hm4 Hp. rewrite len_text in Hm. unfold EncodedLen in Hm.
  rewrite Hp, Z.eqb_refl in Hm. destruct Hr as [Hr|Hr]; rewrite Hr in Hm; zdm.
Qed.

Lemma reads_as_short r :
  len r = 1 \/ len r = 2 -> padChar enc <> NoPadding ->
  exists x y z, reads_as (text r) [x; y; z; 255] /\ 0 <= x < 256 /\ 0 <= y < 256 /\ 0 <= z < 256.
Proof.
  intros Hr Hp. pose proof (reads_as_app _ _ _ _ (reads_as_symbols r)
    (reads_as_pads (Z.to_nat (3 - len r)) Hp)) as Hreads.
  rewrite <- text_short in Hreads by done. pose proof (symbols_ok r) as Hs.
  destruct r as [|a [|b [|? ?]]]; [len_lia| | |len_lia].
  - exists (sextet (a * 2 ^ 16) 18), (sextet (a * 2 ^ 16) 12), 255. split; [exact Hreads|].
    pose proof (sextet_range (a * 2 ^ 16) 18). pose proof (sextet_range (a * 2 ^ 16) 12). lia.
  - set (v := a * 2 ^ 16 + b * 2 ^ 8). exists (sextet v 18), (sextet v 12), (sextet v 6).
    split; [exact Hreads|]. pose proof (sextet_range v 18). pose proof (sextet_range v 12).
    pose proof (sextet_range v 6). lia.
Qed.

Lemma symbolAt8 A l R si d0 d1 d2 d3 d4 d5 d6 d7 :
  reads_as l [d0; d1; d2; d3; d4; d5; d6; d7] -> si = len A ->
  let src := A ++ l ++ R in
  symbolAt enc src (si + 0) = Ok d0 /\ symbolAt enc src (si + 1) = Ok d1 /\
  symbolAt enc src (si + 2) = Ok d2 /\ symbolAt enc src (si + 3) = Ok d3 /\
  symbolAt enc src (si + 4) = Ok d4 /\ symbolAt enc src (si + 5) = Ok d5 /\
  symbolAt enc src (si + 6) = Ok d6 /\ symbolAt enc src (si + 7) = Ok d7.
Proof. intros Hr Hsi src. repeat split; by eapply symbolAt_reads. Qed.

Lemma symbolAt4 A l R si d0 d1 d2 d3 :
  reads_as l [d0; d1; d2; d3] -> si = len A ->
  let src := A ++ l ++ R in
  symbolAt enc src (si + 0) = Ok d0 /\ symbolAt enc src (si + 1) = Ok d1 /\
  symbolAt enc src (si + 2) = Ok d2 /\ symbolAt enc src (si + 3) = Ok d3.
Proof. intros Hr Hsi src. repeat split; by eapply symbolAt_reads. Qed.

(** The eight-symbol step. *)
Lemma decode64_step dst si n :
  partway (dst, si, n) -> len (text orig) - si >= 8 -> len dst - n >= 8 ->
  (let! s0 := symbolAt enc (text orig) (si + 0) in
   let! s1 := symbolAt enc (text orig) (si + 1) in
   let! s2 := symbolAt enc (text orig) (si + 2) in
   let! s3 := symbolAt enc (text orig) (si + 3) in
   let! s4 := symbolAt enc (text orig) (si + 4) in
   let! s5 := symbolAt enc (text orig) (si + 5) in
   let! s6 := symbolAt enc (text orig) (si + 6) in
   let! s7 := symbolAt enc (text orig) (si + 7) in
   let '(dn, ok) := assemble64 s0 s1 s2 s3 s4 s5 s6 s7 in
   if (ok : bool) then
     let! dst := BEPutUint64 dst n dn in
     Ok (inl (dst, si + 8, n + 6))
   else
     let! r := quantumStep enc dst (text orig) si n in
     match r with inl s => Ok (inl s) | inr r => Ok (inr (inr r)) end)
  ⇓ (fun r : list Z * Z * Z + (list Z * Z * Z + list Z * Z * option decodeErr) =>
       match r with inl st => advances si st | inr _ => False end).
Proof.
  intros Hp Hs Hd. pose proof Hp as (done_ & rest & t & Ho & [k Hk] & -> & Hl & En & Esi).
  assert (Ht : text orig = text done_ ++ text rest) by (rewrite Ho; apply text_app_triples; by exists k).
  assert (Hokr : bytes_ok rest) by (rewrite Ho in Hok; by apply Forall_app in Hok as [_ ?]).
  assert (Hq := quantumStep_orig _ _ _ Hp ltac:(lia)).
  rewrite Ht, len_app in Hs. destruct rest as [|b0 [|b1 [|b2 rest]]].
  1: cbn [text] in Hs; len_lia.
  1: cbn [text] in Hs; unfold pads in Hs; destruct (_ =? _); cbn [replicate] in Hs; len_lia.
  1: cbn [text] in Hs; unfold pads in Hs; destruct (_ =? _); cbn [replicate] in Hs; len_lia.
  apply Forall_cons in Hokr as [Hb0 Hokr]. apply Forall_cons in Hokr as [Hb1 Hokr].
  apply Forall_cons in Hokr as [Hb2 Hokr].
  destruct (num4_symbols b0 b1 b2 Hb0 Hb1 Hb2) as (s0 & s1 & s2 & s3 & Es & R0 & R1 & R2 & R3 & Ev).
  pose proof (reads_as_symbols [b0; b1; b2]) as Hr1. rewrite Es in Hr1.
  rewrite text_triple, Es in Ht, Hs. rewrite len_app in Hs. change (len (map sym [s0; s1; s2; s3])) with 4 in Hs.
  destruct (decide (len rest < 3)) as [Hshort|Hlong].
  - assert (Hlr : len rest = 1 \/ len rest = 2) by (destruct rest; [cbn [text] in Hs; len_lia|len_lia]).
    assert (Hpad : padChar enc <> NoPadding) by (apply (short_padded rest 4); [done|lia|lia]).
    destruct (reads_as_short rest Hlr Hpad) as (x & y & z & Hr2 & ? & ? & ?).
    rewrite <- (app_nil_r (text rest)), (app_assoc _ (text rest)) in Ht.
    pose proof (symbolAt8 _ _ [] si _ _ _ _ _ _ _ _ (reads_as_app _ _ _ _ Hr1 Hr2) Esi) as Hsym.
    cbv zeta in Hsym. rewrite <- Ht in Hsym. destruct Hsym as (-> & -> & -> & -> & -> & -> & -> & ->).
    cbn [rbind]. rewrite assemble64_invalid by lia. eapply returns_bind_mono; [exact Hq|].
    by intros [st|?] Hst.
  - destruct rest as [|b3 [|b4 [|b5 rest]]]; [len_lia..|].
    apply Forall_cons in Hokr as [Hb3 Hokr]. apply Forall_cons in Hokr as [Hb4 Hokr].
    apply Forall_cons in Hokr as [Hb5 Hokr].
    destruct (num4_symbols b3 b4 b5 Hb3 Hb4 Hb5) as (s4 & s5 & s6 & s7 & Es' & R4 & R5 & R6 & R7 & Ev').
    pose proof (reads_as_symbols [b3; b4; b5]) as Hr2. rewrite Es' in Hr2.
    rewrite text_triple, Es', (app_assoc (map sym _)) in Ht.
    pose proof (symbolAt8 _ _ (text rest) si _ _ _ _ _ _ _ _ (reads_as_app _ _ _ _ Hr1 Hr2) Esi) as Hsym.
    cbv zeta in Hsym. rewrite <- Ht in Hsym. destruct Hsym as (-> & -> & -> & -> & -> & -> & -> & ->).
    cbn [rbind]. rewrite assemble64_valid by done. rewrite Ev, Ev'.
    destruct (slice_split t 8) as (t8 & t' & -> & Ht8); [len_lia|].
    rewrite En, BEPutUint64_stores, be_bytes_group2 by (done || unfold byte_ok in *; lia). cbn [rbind returns].
    assert (Hnext : partway (done_ ++ b0 :: b1 :: b2 :: [b3; b4; b5; 0; 0] ++ t', si + 4, len done_ + 3)).
    { rewrite Esi. apply (partway_next done_ b0 b1 b2 (b3 :: b4 :: b5 :: rest)); [done|by exists k|len_lia]. }
    split.
    + left. pose proof (partway_next (done_ ++ [b0; b1; b2]) b3 b4 b5 rest ([0; 0] ++ t')) as Hn2.
      assert (Etd : len (text (done_ ++ [b0; b1; b2])) = len (text done_) + 4)
        by (rewrite text_app_triples by (by exists k); by rewrite len_app).
      rewrite Etd, <- app_assoc in Hn2. cbn [app] in Hn2 |- *.
      replace (si + 8) with (len (text done_) + 4 + 4) by lia.
      replace (len done_ + 6) with (len (done_ ++ [b0; b1; b2]) + 3) by len_lia.
      rewrite <- app_assoc in Hn2. apply Hn2; [done|exists (k + 1); len_lia|len_lia].
    + rewrite Ht, !len_app, <- Esi. change (len (map sym [s0; s1; s2; s3])) with 4.
      change (len (map sym [s4; s5; s6; s7])) with 4. len_lia.
Qed.

(** The four-symbol step. *)
Lemma decode32_step dst si n :
  partway (dst, si, n) -> len (text orig) - si >= 4 -> len dst - n >= 4 ->
  (let! s0 := symbolAt enc (text orig) (si + 0) in
   let! s1 := symbolAt enc (text orig) (si + 1) in
   let! s2 := symbolAt enc (text orig) (si + 2) in
   let! s3 := symbolAt enc (text orig) (si + 3) in
   let '(dn, ok) := assemble32 s0 s1 s2 s3 in
   if (ok : bool) then
     let! dst := BEPutUint32 dst n dn in
     Ok (inl (dst, si + 4, n + 3))
   else
     let! r := quantumStep enc dst (text orig) si n in
     match r with inl s => Ok (inl s) | inr r => Ok (inr (inr r)) end)
  ⇓ (fun r : list Z * Z * Z + (list Z * Z * Z + list Z * Z * option decodeErr) =>
       match r with inl st => advances si st | inr _ => False end).
Proof.
  intros Hp Hs Hd. pose proof Hp as (done_ & rest & t & Ho & [k Hk] & -> & Hl & En & Esi).
  assert (Ht : text orig = text done_ ++ text rest) by (rewrite Ho; apply text_app_triples; by exists k).
  assert (Hokr : bytes_ok rest) by (rewrite Ho in Hok; by apply Forall_app in Hok as [_ ?]).
  assert (Hq := quantumStep_orig _ _ _ Hp ltac:(lia)).
  rewrite Ht, len_app in Hs. destruct (decide (len rest < 3)) as [Hshort|Hlong].
  - assert (Hlr : len rest = 1 \/ len rest = 2) by (destruct rest; [cbn [text] in Hs; len_lia|len_lia]).
    assert (Hpad : padChar enc <> NoPadding) by (apply (short_padded rest 4); [done|lia|lia]).
    destruct (reads_as_short rest Hlr Hpad) as (x & y & z & Hr2 & ? & ? & ?).
    rewrite <- (app_nil_r (text rest)) in Ht.
    pose proof (symbolAt4 _ _ [] si _ _ _ _ Hr2 Esi) as Hsym.
    cbv zeta in Hsym. rewrite <- Ht in Hsym. destruct Hsym as (-> & -> & -> & ->).
    cbn [rbind]. rewrite assemble32_invalid by lia. eapply returns_bind_mono; [exact Hq|].
    by intros [st|?] Hst.
  - destruct rest as [|b0 [|b1 [|b2 rest]]]; [len_lia..|].
    apply Forall_cons in Hokr as [Hb0 Hokr]. apply Forall_cons in Hokr as [Hb1 Hokr].
    apply Forall_cons in Hokr as [Hb2 Hokr].
    destruct (num4_symbols b0 b1 b2 Hb0 Hb1 Hb2) as (s0 & s1 & s2 & s3 & Es & R0 & R1 & R2 & R3 & Ev).
    pose proof (reads_as_symbols [b0; b1; b2]) as Hr1. rewrite Es in Hr1.
    rewrite text_triple, Es in Ht.
    pose proof (symbolAt4 _ _ (text rest) si _ _ _ _ Hr1 Esi) as Hsym.
    cbv zeta in Hsym. rewrite <- Ht in Hsym. destruct Hsym as (-> & -> & -> & ->).
    cbn [rbind]. rewrite assemble32_valid by done. rewrite Ev.
    destruct (slice_split t 4) as (t4 & t' & -> & Ht4); [len_lia|].
    rewrite En, BEPutUint32_stores, be_bytes_group by (done || unfold byte_ok in *; lia).
    cbn [rbind returns]. split.
    + left. rewrite Esi. apply (partway_next done_ b0 b1 b2 rest (0 :: t')); [done|by exists k|len_lia].
    + rewrite Ht, !len_app, <- Esi. change (len (map sym [s0; s1; s2; s3])) with 4. len_lia.
Qed.

Definition inv (st : list Z * Z * Z) : Prop :=
  (partway st \/ finished st) /\ (let '(_, si, _) := st in 0 <= si <= len (text orig)).

(** A loop with one of the steps above as its body. *)
Lemma steps_loop body st :
  inv st ->
  (forall dst si n, inv (dst, si, n) -> body (dst, si, n) ⇓
     (fun r : list Z * Z * Z + (list Z * Z * Z + list Z * Z * option decodeErr) =>
       match r with
       | inl st => advances si st
       | inr (inl st) => st = (dst, si, n)
       | inr (inr _) => False
       end)) ->
  loop (S (length (text orig))) body st ⇓ (fun r => match r with inl st => inv st | inr _ => False end).
Proof.
  intros Hst Hbody.
  apply (loop_returns inv (fun '(_, si, _) => len (text orig) - si)); [|done| |];
    [|destruct st as [[dst si] n]; destruct Hst as [_ Hst]; unfold len in *; lia..].
  intros [[dst si] n] Hs. eapply returns_mono; [by apply Hbody|].
  intros [[[dst' si'] n']|[st'|?]]; [|by intros ->|done].
  pose proof (proj2 Hs). intros [Hadv Hsi']. split; [split; [done|lia]|lia].
Qed.

Lemma partway_start dst : len dst = cap -> partway (dst, 0, 0).
Proof. intros Hd. exists [], orig, dst. repeat split; try done. by exists 0. Qed.

Lemma Decode_orig dst :
  len dst = cap ->
  Decode enc dst (text orig) ⇓ (fun '(d, n, err) => n = len orig /\ err = None /\
    exists t, d = orig ++ t /\ len d = cap).
Proof.
  intros Hd. unfold Decode. destruct (Z.eqb_spec (len (text orig)) 0) as [E0|_].
  { destruct (partway_finished (dst, 0, 0)) as (t & -> & Hl & <- & _); [by apply partway_start|lia|].
    cbn. split; [done|]. split; [done|]. by exists t. }
  assert (Hstart : inv (dst, 0, 0)).
  { split; [left; by apply partway_start|]. pose proof (len_nonneg (text orig)). lia. }
  eapply returns_bind_mono.
  { apply steps_loop; [exact Hstart|]. intros d si n [Hs Hsi].
    destruct ((len (text orig) - si >=? 8) && (len d - n >=? 8)) eqn:Eg; [|done].
    apply andb_true_iff in Eg as [Eg1%Z.geb_le Eg2%Z.geb_le].
    destruct Hs as [Hs|Hs]; [|exfalso; eapply not_finished; [done|lia]].
    eapply returns_mono; [apply decode64_step; [done|lia|lia]|]. by intros [?|?]. }
  intros [[[d1 si1] n1]|?]; [|done]. intros Hinv1. eapply returns_bind_mono.
  { apply steps_loop; [exact Hinv1|]. intros d si n [Hs Hsi].
    destruct ((len (text orig) - si >=? 4) && (len d - n >=? 4)) eqn:Eg; [|done].
    apply andb_true_iff in Eg as [Eg1%Z.geb_le Eg2%Z.geb_le].
    destruct Hs as [Hs|Hs]; [|exfalso; eapply not_finished; [done|lia]].
    eapply returns_mono; [apply decode32_step; [done|lia|lia]|]. by intros [?|?]. }
  intros [[[d2 si2] n2]|?]; [|done]. intros Hinv2. unfold decodeRest.
  apply (loop_returns inv (fun '(_, si, _) => len (text orig) - si)); [|done| |];
    [|destruct Hinv2 as [_ ?]; unfold len in *; lia..].
  intros [[d si] n] [Hs Hsi]. destruct (Z.ltb_spec si (len (text orig))) as [Hlt|Hge].
  - destruct Hs as [Hs|Hs]; [|exfalso; eapply not_finished; [done|lia]].
    eapply returns_mono; [by apply quantumStep_orig|].
    intros [[[d' si'] n']|?]; [|done]. intros [Hadv Hsi']. split; [split; [done|lia]|lia].
  - assert (Hf : finished (d, si, n)) by (destruct Hs; [by apply partway_finished|done]).
    destruct Hf as (t & -> & Hl & -> & _). cbn. split; [done|]. split; [done|]. by exists t.
Qed.
End RoundTrip.
End Codec.

(** ** The encodings a program can build *)

Inductive made : Encoding -> Prop :=
| made_new alphabet enc : bytes_ok alphabet -> NewEncoding alphabet = Ok enc -> made enc
| made_padding enc p enc' : made enc -> WithPadding enc p = Ok enc' -> made enc'
| made_strict enc : made enc -> made (Strict enc).

Lemma made_ok enc : made enc -> tables_ok enc /\ (padChar enc ∉ encode enc -> pad_ok enc).
Proof.
  induction 1 as [alphabet enc Hb Hn|enc p enc' _ [Ht _] Hw|enc _ [Ht Hp]].
  - destruct (NewEncoding_ok _ _ Hb Hn) as (Ht & He & _ & Hp). split; [done|]. rewrite He. intros Hc. apply Hp.
    revert Hc Hn. unfold NewEncoding. destruct (negb (len alphabet =? 64)); [done|].
    intros Hc. destruct (fillMap _ _ _); [|done|done]. cbn [rbind]. intros [= <-]. exact Hc.
  - destruct (WithPadding_ok _ _ _ Ht Hw) as (Ht' & Hp' & _). done.
  - split; [by destruct Ht; constructor|done].
Qed.

(** Room for the decoded bytes is reserved for any encoded text. *)
Lemma DecodedLen_EncodedLen enc n : 0 <= n -> n <= DecodedLen enc (EncodedLen enc n).
Proof.
  intros Hn. unfold DecodedLen, decodedLen, EncodedLen. destruct (padChar enc =? NoPadding); zdm.
Qed.

#[global] Instance plain_store_laws : BigEndianLaws plain_store.
Proof.
  assert (H : forall k (b1 b2 b3 : list Z) v, length b2 = k ->
    put_bytes k (b1 ++ b2 ++ b3) (len b1) v = Ok (b1 ++ be_bytes k v ++ b3)).
  { intros k b1 b2 b3 v Hk. unfold put_bytes, len. rewrite !length_app, Hk, Nat2Z.id.
    rewrite (proj2 (Z.leb_le _ _)), (proj2 (Z.leb_le _ _)) by lia. cbn [andb].
    rewrite take_app_length. do 3 f_equal.
    rewrite <- drop_drop, drop_app_length, <- Hk. apply drop_app_length. }
  split; intros b1 b2 b3 v _ Hl; apply H; unfold len in Hl; lia.
Qed.

(** Encode, with room for EncodedLen bytes in dst, writes the RFC 4648
    text of src at the start of dst (each three bytes as four symbols of the
    alphabet, the last group padded as the encoding says), exactly EncodedLen
    characters, and leaves the rest of dst as it was; it never panics. *)
Theorem Encode_correct enc dst src :
  made enc -> bytes_ok src -> EncodedLen enc (len src) <= len dst ->
  Encode enc dst src ⇓ (fun d => d = text enc src ++ drop (length (text enc src)) dst /\
    len (text enc src) = EncodedLen enc (len src)).
Proof.
  intros [T _]%made_ok Hok Hl. rewrite <- len_text in Hl.
  eapply returns_mono; [by apply Encode_text|]. intros d ->. split; [done|apply len_text].
Qed.

(** C38: DecodeString gives back the bytes EncodeToString encoded, without an
    error and with the fast paths of Decode on, for every encoding built with
    NewEncoding, WithPadding and Strict whose padding character is outside
    its alphabet. *)
Theorem DecodeString_EncodeToString `{L : !BigEndianLaws B} enc src :
  made enc -> padChar enc ∉ encode enc -> bytes_ok src ->
  (let! s := EncodeToString enc src in DecodeString enc s) = Ok (src, None).
Proof.
  intros [T Hp]%made_ok Hpad Hok. specialize (Hp Hpad). unfold EncodeToString.
  pose proof (len_nonneg src) as H0. pose proof (len_nonneg (text enc src)) as H1. rewrite len_text in H1.
  destruct (returns_inv _ _ (Encode_text enc T (replicate (Z.to_nat (EncodedLen enc (len src))) 0) src Hok
    ltac:(rewrite len_text, len_replicate; lia))) as (d & -> & ->). cbn [rbind].
  rewrite drop_ge, app_nil_r.
  2: { rewrite length_replicate. pose proof (len_text enc src) as E. unfold len in E at 1. lia. }
  unfold DecodeString. rewrite len_text. pose proof (DecodedLen_EncodedLen enc (len src) H0) as Hr.
  destruct (returns_inv _ _ (Decode_orig enc T Hp src Hok (DecodedLen enc (EncodedLen enc (len src))) Hr
    (replicate (Z.to_nat (DecodedLen enc (EncodedLen enc (len src)))) 0)
    ltac:(rewrite len_replicate; lia))) as ([[d n] err] & -> & -> & -> & t & -> & _). cbn [rbind].
  unfold slice. rewrite len_app. pose proof (len_nonneg t).
  rewrite !(proj2 (Z.leb_le _ _)) by lia. cbn. unfold len.
  by rewrite drop_0, Z.sub_0_r, Nat2Z.id, take_app_length.
Qed.

(** The value of the package variable StdEncoding. *)
Definition std : Encoding :=
  Eval vm_compute in match StdEncoding with Ok e => e | _ => mkEncoding [] [] 0 false end.
Lemma std_made : made std /\ padChar std ∉ encode std.
Proof.
  split; [apply (made_new StdAlphabet); [apply (bool_decide_unpack _); reflexivity|reflexivity]|].
  apply (bool_decide_unpack _). reflexivity.
Qed.

Lemma Encode_correct_witness :
  Encode std [0; 0; 0; 0; 7] [104; 105] ⇓ (fun d => d = text std [104; 105] ++ [7] /\ len (text std [104; 105]) = 4).
Proof.
  refine (Encode_correct std [0; 0; 0; 0; 7] [104; 105] (proj1 std_made) _ _); [|vm_compute; done].
  apply (bool_decide_unpack _). reflexivity.
Defined.

Lemma DecodeString_EncodeToString_witness :
  (let! s := EncodeToString (Strict std) (str "any carnal pleas") in DecodeString (Strict std) s)
  = Ok (str "any carnal pleas", None).
Proof.
  apply (DecodeString_EncodeToString (Strict std)); [by apply made_strict, std_made|apply std_made|].
  apply (bool_decide_unpack _). reflexivity.
Defined.
