(* ===== verification/Base64Safe.v ===== *)
(** * Package encoding/base64: decoding arbitrary input

    Decode on any bytes, well formed or not: it stays inside a destination of
    DecodedLen bytes, returns, and reports offsets inside the input. *)
From Stdlib Require Import Ascii String ZArith Lia.
From stdpp Require Import base numbers list.
From S2P Require Import Prelude Base64 Base64Correct.

Lemma lor_bound k a b : 0 <= k -> 0 <= a < 2 ^ k -> 0 <= b < 2 ^ k -> 0 <= Z.lor a b < 2 ^ k.
Proof.
  intros Hk Ha Hb. assert (E0 : Z.lor a b = Z.lor a b mod 2 ^ k).
  { rewrite <- Z.land_ones, Z.land_lor_distr_l, !Z.land_ones, !Z.mod_small by lia. done. }
  rewrite E0. apply Z.mod_pos_bound. lia.
Qed.

Lemma assemble64_range a b c d e f g h : 0 <= fst (assemble64 a b c d e f g h) < 2 ^ 64.
Proof.
  unfold assemble64. destruct (_ =? _); [done|]. cbn [fst].
  repeat apply lor_bound; try lia; apply u64_range.
Qed.

Lemma assemble32_range a b c d : 0 <= fst (assemble32 a b c d) < 2 ^ 32.
Proof.
  unfold assemble32. destruct (_ =? _); [done|]. cbn [fst].
  repeat apply lor_bound; try lia; apply u32_range.
Qed.

Lemma be_bytes_len k : forall v, len (be_bytes k v) = Z.of_nat k.
Proof. induction k as [|k IH]; intros v; [done|]. cbn [be_bytes]. rewrite len_app, IH. len_lia. Qed.

(** A destination with [k] bytes left at [n], cut at the store's window. *)
Lemma window {A} (d : list A) n k :
  0 <= n -> 0 <= k -> n + k <= len d ->
  exists d1 d2 d3, d = d1 ++ d2 ++ d3 /\ len d1 = n /\ len d2 = k.
Proof.
  intros Hn Hk Hl. destruct (slice_split d n) as (d1 & r & -> & H1); [lia|]. rewrite len_app in Hl.
  destruct (slice_split r k) as (d2 & d3 & -> & H2); [lia|]. by exists d1, d2, d3.
Qed.

Section Safe.
Context (enc : Encoding) (T : tables_ok enc) (src : list Z) (Hsrc : bytes_ok src).

Definition err_ok (err : option decodeErr) : Prop :=
  match err with None => True | Some (CorruptInputError off) => 0 <= off <= len src end.

Lemma decodeMap_returns c : byte_ok c -> idx (decodeMap enc) c ⇓ (fun _ => True).
Proof. intros Hc. apply idx_returns; [|done]. rewrite (decode_len _ T). exact Hc. Qed.

Lemma src_returns i : 0 <= i < len src -> idx src i ⇓ byte_ok.
Proof. intros Hi. apply idx_returns; [done|]. intros x Hx. by apply (proj1 (Forall_lookup _ _) Hsrc _ _ Hx). Qed.

Lemma symbolAt_returns i : 0 <= i < len src -> symbolAt enc src i ⇓ (fun _ => True).
Proof. intros Hi. eapply returns_bind_mono; [by apply src_returns|]. apply decodeMap_returns. Qed.

Lemma skipNewlines_returns si : 0 <= si <= len src -> skipNewlines src si ⇓ (fun s => si <= s <= len src).
Proof.
  intros Hsi. apply (loop_returns (fun s => si <= s <= len src) (fun s => len src - s)); [|lia|unfold len in *; lia..].
  intros s Hs. destruct (Z.ltb_spec s (len src)) as [Hlt|]; [|cbn; lia].
  eapply returns_bind_mono; [eapply returns_bind_mono; [apply src_returns; lia|]|].
  { intros c _. instantiate (1 := fun _ => True). done. }
  intros [|] _; cbn; lia.
Qed.

Section Quantum.
Context (si0 : Z) (Hsi0 : 0 <= si0 <= len src).

(** What the loop of decodeQuantum has read, [j] symbols and perhaps newlines. *)
Definition reading (st : list Z * Z * Z) : Prop :=
  let '(dbuf, j, si) := st in len dbuf = 4 /\ 0 <= j <= 4 /\ si0 + j <= si <= len src.

(** A quantum that is written consumed four characters, or is the unpadded end. *)
Definition quantum_ok (q : quantum) : Prop :=
  match q with
  | Returned si err => si0 <= si <= len src /\ err_ok err /\ (err = None -> si = len src)
  | Filled dbuf dlen si err =>
      len dbuf = 4 /\ si <= len src /\ err_ok err /\ 2 <= dlen <= 4 /\ si0 + 2 <= si /\
      (si0 + 4 <= si \/ padChar enc = NoPadding /\ si = len src /\ si0 + dlen <= si /\ dlen <= 3)
  end.

Lemma quantumBody_returns st :
  reading st -> quantumBody enc src st ⇓ (fun r => match r with
    | inl st' => reading st' /\ snd st' = snd st + 1
    | inr q => quantum_ok q
    end).
Proof.
  destruct st as [[dbuf j] si]. intros (Hd & Hj & Hsi). unfold quantumBody.
  destruct (Z.ltb_spec j 4); [|cbn; repeat split; try lia; left; lia]. cbn [negb].
  destruct (Z.eqb_spec (len src) si) as [He|Hne].
  { destruct (Z.eqb_spec j 0); [by cbn; repeat split; (lia || done)|].
    destruct (Z.eqb_spec j 1), (Z.eqb_spec (padChar enc) NoPadding); cbn; repeat split; try done; try lia. }
  eapply returns_bind_mono; [apply src_returns; lia|]. intros c Hc.
  eapply returns_bind_mono; [by apply decodeMap_returns|]. intros out _.
  destruct (out =? 255); cbn [negb].
  2: { rewrite upd_Ok by lia. cbn. rewrite len_insert. repeat split; lia. }
  destruct (isNewline c); [by cbn; repeat split; (lia || done)|].
  destruct (c =? padChar enc); [|by cbn; repeat split; (lia || done)]. cbn [negb].
  destruct (Z.eqb_spec j 0), (Z.eqb_spec j 1); try (by cbn; repeat split; (lia || done)). cbn [orb].
  eapply (returns_bind_mono _ _ (fun s => match s with
     | inl q => quantum_ok q | inr s => si0 + 4 <= s <= len src end)).
  { destruct (Z.eqb_spec j 2); [|cbn; lia].
    eapply returns_bind_mono; [apply skipNewlines_returns; lia|]. cbn beta. intros s Hs.
    destruct (Z.eqb_spec s (len src)); [by cbn; repeat split; (lia || done)|].
    eapply returns_bind_mono; [apply src_returns; lia|]. intros c' _.
    destruct (c' =? padChar enc); cbn; repeat split; try lia; done. }
  intros [q|s]; [done|]. intros Hs. eapply returns_bind_mono; [apply skipNewlines_returns; lia|].
  cbn beta. intros s' Hs'. cbn. destruct (Z.ltb_spec s' (len src)); cbn; repeat split; try lia.
Qed.

Lemma fillQuantum_returns : fillQuantum enc src si0 ⇓ quantum_ok.
Proof.
  apply (loop_returns reading (fun '(_, _, si) => len src - si)); [|by cbn; repeat split; (lia || done)|unfold len in *; lia..].
  intros [[dbuf j] si] Hst. eapply returns_mono; [by apply quantumBody_returns|].
  intros [[[dbuf' j'] si']|q]; [|done]. destruct Hst as (_ & _ & ?). cbn. intros [Hst' ->].
  split; [done|]. destruct Hst' as (_ & _ & ?). lia.
Qed.
End Quantum.

Section Room.
Context (cap : Z) (Hcap : DecodedLen enc (len src) <= cap).

(** Three bytes written for four characters read, or the input is used up. *)
Definition account (st : list Z * Z * Z) : Prop :=
  let '(dst, si, n) := st in
  0 <= si <= len src /\ len dst = cap /\ 0 <= n /\
  ((exists q, n <= 3 * q /\ 4 * q <= si) \/ (si = len src /\ n <= cap)).

Definition outcome (r : list Z * Z * option decodeErr) : Prop :=
  let '(dst, n, err) := r in len dst = cap /\ 0 <= n <= cap /\ err_ok err.

Lemma quantum_room q n si si' dlen :
  n <= 3 * q -> 4 * q <= si -> 2 <= dlen <= 4 -> si' <= len src ->
  si + 4 <= si' \/ padChar enc = NoPadding /\ si' = len src /\ si + dlen <= si' /\ dlen <= 3 ->
  n + (dlen - 1) <= cap.
Proof.
  intros Hn Hq Hd Hs [H|(Hp & -> & H & H')]; unfold DecodedLen, decodedLen in Hcap.
  - destruct (padChar enc =? NoPadding); zdm.
  - rewrite Hp in Hcap. cbn in Hcap. assert (dlen = 2 \/ dlen = 3) as [-> | ->] by lia; zdm.
Qed.

Lemma quantumStep_returns dst si n :
  account (dst, si, n) -> si < len src ->
  quantumStep enc dst src si n ⇓ (fun r => match r with
    | inl st => account st /\ si < snd (fst st)
    | inr out => outcome out
    end).
Proof.
  intros (Hsi & Hd & Hn & [(q & Hq & Hq')|?]) Hlt; [|lia].
  unfold quantumStep. eapply (returns_bind_mono _ _ (fun '(d, si', k, err) =>
    len d = cap /\ 0 <= k /\ n + k <= cap /\ err_ok err /\ (err = None ->
      si < si' <= len src /\ (si' = len src \/ k <= 3 /\ si + 4 <= si')))).
  2: { intros [[[d si'] k] [e|]] (H1 & H2 & H3 & H4 & H5); cbn; [repeat split; try done; lia|].
    destruct (H5 eq_refl) as [Hs Hk]. repeat split; try lia. destruct Hk as [->|[Hk Hk']]; [right; lia|].
    left. exists (q + 1). lia. }
  unfold decodeQuantum. eapply returns_bind_mono; [apply (fillQuantum_returns si); lia|].
  assert (n <= cap) by (unfold DecodedLen, decodedLen in Hcap; destruct (padChar enc =? NoPadding); zdm).
  intros [s err|dbuf dlen s err].
  { intros (H1 & H2 & H3). cbn. repeat split; try done; try lia; specialize (H3 H0); lia. }
  intros (Hl & Hs & He & Hdl & Hs2 & Hroom). pose proof (quantum_room _ _ _ _ _ Hq Hq' Hdl Hs Hroom) as Hr.
  do 4 (eapply (returns_bind_mono _ _ (fun _ => True)); [apply idx_returns; [lia|done]|intros ? _]).
  assert (Hw : forall (d : list Z) i x, len d = cap -> 0 <= i < dlen - 1 -> upd d (n + i) x ⇓ (fun d' => len d' = cap)).
  { intros d i x H1 H2. rewrite upd_Ok by lia. cbn. by rewrite len_insert. }
  eapply (returns_bind_mono _ _ (fun '(d, _) => len d = cap)).
  { destruct (Z.eqb_spec dlen 4); [|done]. eapply returns_bind_mono; [apply Hw; [done|lia]|]. by intros. }
  intros [d2 b2] Hd2. eapply (returns_bind_mono _ _ (fun '(d, _, _) => len d = cap)).
  { destruct (Z.geb_spec dlen 3); [|done]. eapply returns_bind_mono; [apply Hw; [done|lia]|].
    intros d Hd'. by destruct (strict enc && negb (b2 =? 0)). }
  intros [[d1 b1] bad] Hd1. destruct bad; [by cbn; repeat split; try lia; done|].
  eapply returns_bind_mono; [apply Hw; [exact Hd1|lia]|]. intros d0 Hd0.
  destruct (strict enc && _); cbn; repeat split; try done; try lia.
Qed.

(** The three loops of Decode under [account]. *)
Lemma account_loop body st :
  account st ->
  (forall dst si n, account (dst, si, n) -> body (dst, si, n) ⇓
     (fun r : list Z * Z * Z + (list Z * Z * Z + list Z * Z * option decodeErr) =>
       match r with
       | inl st => account st /\ si < snd (fst st)
       | inr (inl st) => account st
       | inr (inr out) => outcome out
       end)) ->
  loop (S (length src)) body st ⇓ (fun r => match r with inl st => account st | inr out => outcome out end).
Proof.
  intros Hst Hbody. apply (loop_returns account (fun '(_, si, _) => len src - si)); [|done| |];
    [|destruct st as [[dst si] n]; destruct Hst as [? _]; unfold len in *; lia..].
  intros [[dst si] n] Hs. eapply returns_mono; [by apply Hbody|].
  intros [[[dst' si'] n']|[st'|?]]; [|done|done]. intros [Ha Hlt].
  split; [done|]. destruct Ha as (? & _). cbn in Hlt. lia.
Qed.

Lemma account_step si (k : list Z * Z * Z -> Prop) (r : res (list Z * Z * Z + list Z * Z * option decodeErr)) :
  r ⇓ (fun r => match r with inl st => account st /\ si < snd (fst st) | inr out => outcome out end) ->
  (let! r := r in match r with inl s => Ok (inl s) | inr r => Ok (inr (inr r)) end) ⇓
     (fun r : list Z * Z * Z + (list Z * Z * Z + list Z * Z * option decodeErr) =>
       match r with
       | inl st => account st /\ si < snd (fst st)
       | inr (inl st) => k st
       | inr (inr out) => outcome out
       end).
Proof. destruct r as [[?|?]| |]; done. Qed.

Context `{L : !BigEndianLaws B}.

Lemma decode64_returns dst si n :
  account (dst, si, n) ->
  decode64 enc dst src si n ⇓ (fun r => match r with inl st => account st | inr out => outcome out end).
Proof.
  intros Hst. apply account_loop; [done|]. clear dst si n Hst. intros dst si n Hst.
  destruct (Z.geb_spec (len src - si) 8) as [H1|], (Z.geb_spec (len dst - n) 8) as [H2|]; try done. cbn [andb].
  pose proof Hst as (Hsi & Hd & Hn & Hq).
  do 8 (eapply returns_bind_mono; [apply symbolAt_returns; lia|intros ? _]).
  destruct (assemble64 _ _ _ _ _ _ _ _) as [dn ok] eqn:Ea.
  destruct ok; [|by apply account_step, quantumStep_returns; [|lia]].
  assert (Hdn : 0 <= dn < 2 ^ 64) by (rewrite <- (f_equal fst Ea : _ = dn); apply assemble64_range).
  destruct (window dst n 8) as (d1 & d2 & d3 & -> & <- & H8); [lia..|].
  rewrite BEPutUint64_stores by done. cbn [rbind returns snd fst].
  split; [|lia]. rewrite !len_app in *. repeat split; rewrite ?len_app, ?be_bytes_len; try lia.
  left. destruct Hq as [[q Hq]|]; [|lia]. exists (q + 2). lia.
Qed.

Lemma decode32_returns dst si n :
  account (dst, si, n) ->
  decode32 enc dst src si n ⇓ (fun r => match r with inl st => account st | inr out => outcome out end).
Proof.
  intros Hst. apply account_loop; [done|]. clear dst si n Hst. intros dst si n Hst.
  destruct (Z.geb_spec (len src - si) 4) as [H1|], (Z.geb_spec (len dst - n) 4) as [H2|]; try done. cbn [andb].
  pose proof Hst as (Hsi & Hd & Hn & Hq).
  do 4 (eapply returns_bind_mono; [apply symbolAt_returns; lia|intros ? _]).
  destruct (assemble32 _ _ _ _) as [dn ok] eqn:Ea.
  destruct ok; [|by apply account_step, quantumStep_returns; [|lia]].
  assert (Hdn : 0 <= dn < 2 ^ 32) by (rewrite <- (f_equal fst Ea : _ = dn); apply assemble32_range).
  destruct (window dst n 4) as (d1 & d2 & d3 & -> & <- & H8); [lia..|].
  rewrite BEPutUint32_stores by done. cbn [rbind returns snd fst].
  split; [|lia]. rewrite !len_app in *. repeat split; rewrite ?len_app, ?be_bytes_len; try lia.
  left. destruct Hq as [[q Hq]|]; [|lia]. exists (q + 1). lia.
Qed.

Lemma account_room dst si n : account (dst, si, n) -> outcome (dst, n, None).
Proof.
  intros (Hsi & Hd & Hn & Hq). split; [done|]. split; [|done]. destruct Hq as [(q & ? & ?)|]; [|lia].
  unfold DecodedLen, decodedLen in Hcap. destruct (padChar enc =? NoPadding); zdm.
Qed.

Lemma decodeRest_returns dst si n : account (dst, si, n) -> decodeRest enc dst src si n ⇓ outcome.
Proof.
  intros Hst. apply (loop_returns account (fun '(_, si, _) => len src - si)); [|done| |];
    [|destruct Hst as [? _]; unfold len in *; lia..].
  clear dst si n Hst. intros [[dst si] n] Hst. destruct (Z.ltb_spec si (len src)) as [Hlt|]; [|by eapply account_room].
  eapply returns_mono; [by apply quantumStep_returns|]. intros [[[dst' si'] n']|?]; [|done].
  intros [Ha Hlt']. split; [done|]. destruct Ha as (? & _). cbn in Hlt'. lia.
Qed.

Lemma Decode_returns dst : len dst = cap -> Decode enc dst src ⇓ outcome.
Proof.
  intros Hd. assert (Ha : account (dst, 0, 0)).
  { repeat split; try done; try apply len_nonneg. left. exists 0. lia. }
  unfold Decode. destruct (len src =? 0); [by eapply account_room|].
  eapply returns_bind_mono; [by apply decode64_returns|]. intros [[[d si] n]|?]; [|done]. intros Ha1.
  eapply returns_bind_mono; [by apply decode32_returns|]. intros [[[d' si'] n']|?]; [|done]. apply decodeRest_returns.
Qed.
End Room.
End Safe.

(** Decode is safe on any input: with DecodedLen(len(src)) bytes in dst,
    or more, it returns without a panic, keeps the length of dst, reports a
    count of decoded bytes that fits in it, and a CorruptInputError it returns
    has an offset inside src. *)
Theorem Decode_safe `{L : !BigEndianLaws B} enc dst src :
  made enc -> bytes_ok src -> DecodedLen enc (len src) <= len dst ->
  Decode enc dst src ⇓ (fun '(d, n, err) => len d = len dst /\ 0 <= n <= len dst /\
    match err with None => True | Some (CorruptInputError off) => 0 <= off <= len src end).
Proof. intros [T _]%made_ok Hok Hl. by apply (Decode_returns enc T src Hok (len dst) Hl). Qed.

Lemma Decode_safe_witness :
  Decode std [0; 0; 0; 0; 0; 0] (str "YW5*=Y=5") ⇓ (fun '(d, n, err) => len d = 6 /\ 0 <= n <= 6 /\
    match err with None => True | Some (CorruptInputError off) => 0 <= off <= 8 end).
Proof.
  apply (Decode_safe std [0; 0; 0; 0; 0; 0] (str "YW5*=Y=5")); [apply std_made| |vm_compute; done].
  apply (bool_decide_unpack _). reflexivity.
Defined.
