(* ===== verification/IsPrint.v ===== *)
(** * Package strconv: IsPrint and IsGraphic

    The printable characters of src/strconv/quote.go over the tables of
    src/strconv/isprint.go.  A table of ranges lists the two ends of each
    range in turn. *)
From Stdlib Require Import ZArith Lia.
From stdpp Require Import base numbers list sorting.
From S2P Require Import Prelude.

Definition isPrint16 : list Z := [
  0x20; 0x7e; 0xa1; 0x377; 0x37a; 0x37f; 0x384; 0x556; 0x559; 0x58a;
  0x58d; 0x5c7; 0x5d0; 0x5ea; 0x5ef; 0x5f4; 0x606; 0x70d; 0x710; 0x74a;
  0x74d; 0x7b1; 0x7c0; 0x7fa; 0x7fd; 0x82d; 0x830; 0x85b; 0x85e; 0x86a;
  0x870; 0x88f; 0x897; 0x98c; 0x98f; 0x990; 0x993; 0x9b2; 0x9b6; 0x9b9;
  0x9bc; 0x9c4; 0x9c7; 0x9c8; 0x9cb; 0x9ce; 0x9d7; 0x9d7; 0x9dc; 0x9e3;
  0x9e6; 0x9fe; 0xa01; 0xa0a; 0xa0f; 0xa10; 0xa13; 0xa39; 0xa3c; 0xa42;
  0xa47; 0xa48; 0xa4b; 0xa4d; 0xa51; 0xa51; 0xa59; 0xa5e; 0xa66; 0xa76;
  0xa81; 0xab9; 0xabc; 0xacd; 0xad0; 0xad0; 0xae0; 0xae3; 0xae6; 0xaf1;
  0xaf9; 0xb0c; 0xb0f; 0xb10; 0xb13; 0xb39; 0xb3c; 0xb44; 0xb47; 0xb48;
  0xb4b; 0xb4d; 0xb55; 0xb57; 0xb5c; 0xb63; 0xb66; 0xb77; 0xb82; 0xb8a;
  0xb8e; 0xb95; 0xb99; 0xb9f; 0xba3; 0xba4; 0xba8; 0xbaa; 0xbae; 0xbb9;
  0xbbe; 0xbc2; 0xbc6; 0xbcd; 0xbd0; 0xbd0; 0xbd7; 0xbd7; 0xbe6; 0xbfa;
  0xc00; 0xc39; 0xc3c; 0xc4d; 0xc55; 0xc5d; 0xc60; 0xc63; 0xc66; 0xc6f;
  0xc77; 0xcb9; 0xcbc; 0xccd; 0xcd5; 0xcd6; 0xcdc; 0xce3; 0xce6; 0xcf3;
  0xd00; 0xd4f; 0xd54; 0xd63; 0xd66; 0xd96; 0xd9a; 0xdbd; 0xdc0; 0xdc6;
  0xdca; 0xdca; 0xdcf; 0xddf; 0xde6; 0xdef; 0xdf2; 0xdf4; 0xe01; 0xe3a;
  0xe3f; 0xe5b; 0xe81; 0xebd; 0xec0; 0xed9; 0xedc; 0xedf; 0xf00; 0xf6c;
  0xf71; 0xfda; 0x1000; 0x10c7; 0x10cd; 0x10cd; 0x10d0; 0x124d; 0x1250; 0x125d;
  0x1260; 0x128d; 0x1290; 0x12b5; 0x12b8; 0x12c5; 0x12c8; 0x1315; 0x1318; 0x135a;
  0x135d; 0x137c; 0x1380; 0x1399; 0x13a0; 0x13f5; 0x13f8; 0x13fd; 0x1400; 0x169c;
  0x16a0; 0x16f8; 0x1700; 0x1715; 0x171f; 0x1736; 0x1740; 0x1753; 0x1760; 0x1773;
  0x1780; 0x17dd; 0x17e0; 0x17e9; 0x17f0; 0x17f9; 0x1800; 0x1819; 0x1820; 0x1878;
  0x1880; 0x18aa; 0x18b0; 0x18f5; 0x1900; 0x192b; 0x1930; 0x193b; 0x1940; 0x1940;
  0x1944; 0x196d; 0x1970; 0x1974; 0x1980; 0x19ab; 0x19b0; 0x19c9; 0x19d0; 0x19da;
  0x19de; 0x1a1b; 0x1a1e; 0x1a7c; 0x1a7f; 0x1a89; 0x1a90; 0x1a99; 0x1aa0; 0x1aad;
  0x1ab0; 0x1add; 0x1ae0; 0x1aeb; 0x1b00; 0x1bf3; 0x1bfc; 0x1c37; 0x1c3b; 0x1c49;
  0x1c4d; 0x1c8a; 0x1c90; 0x1cba; 0x1cbd; 0x1cc7; 0x1cd0; 0x1cfa; 0x1d00; 0x1f15;
  0x1f18; 0x1f1d; 0x1f20; 0x1f45; 0x1f48; 0x1f4d; 0x1f50; 0x1f7d; 0x1f80; 0x1fd3;
  0x1fd6; 0x1fef; 0x1ff2; 0x1ffe; 0x2010; 0x2027; 0x2030; 0x205e; 0x2070; 0x2071;
  0x2074; 0x209c; 0x20a0; 0x20c1; 0x20d0; 0x20f0; 0x2100; 0x218b; 0x2190; 0x2429;
  0x2440; 0x244a; 0x2460; 0x2b73; 0x2b76; 0x2cf3; 0x2cf9; 0x2d27; 0x2d2d; 0x2d2d;
  0x2d30; 0x2d67; 0x2d6f; 0x2d70; 0x2d7f; 0x2d96; 0x2da0; 0x2e5d; 0x2e80; 0x2ef3;
  0x2f00; 0x2fd5; 0x2ff0; 0x3096; 0x3099; 0x30ff; 0x3105; 0x31e5; 0x31ef; 0xa48c;
  0xa490; 0xa4c6; 0xa4d0; 0xa62b; 0xa640; 0xa6f7; 0xa700; 0xa7dc; 0xa7f1; 0xa82c;
  0xa830; 0xa839; 0xa840; 0xa877; 0xa880; 0xa8c5; 0xa8ce; 0xa8d9; 0xa8e0; 0xa953;
  0xa95f; 0xa97c; 0xa980; 0xa9d9; 0xa9de; 0xaa36; 0xaa40; 0xaa4d; 0xaa50; 0xaa59;
  0xaa5c; 0xaac2; 0xaadb; 0xaaf6; 0xab01; 0xab06; 0xab09; 0xab0e; 0xab11; 0xab16;
  0xab20; 0xab6b; 0xab70; 0xabed; 0xabf0; 0xabf9; 0xac00; 0xd7a3; 0xd7b0; 0xd7c6;
  0xd7cb; 0xd7fb; 0xf900; 0xfa6d; 0xfa70; 0xfad9; 0xfb00; 0xfb06; 0xfb13; 0xfb17;
  0xfb1d; 0xfdcf; 0xfdf0; 0xfe19; 0xfe20; 0xfe6b; 0xfe70; 0xfefc; 0xff01; 0xffbe;
  0xffc2; 0xffc7; 0xffca; 0xffcf; 0xffd2; 0xffd7; 0xffda; 0xffdc; 0xffe0; 0xffee;
  0xfffc; 0xfffd].

Definition isNotPrint16 : list Z := [
  0xad; 0x38b; 0x38d; 0x3a2; 0x530; 0x590; 0x61c; 0x6dd; 0x83f; 0x85f;
  0x8e2; 0x984; 0x9a9; 0x9b1; 0x9de; 0xa04; 0xa29; 0xa31; 0xa34; 0xa37;
  0xa3d; 0xa5d; 0xa84; 0xa8e; 0xa92; 0xaa9; 0xab1; 0xab4; 0xac6; 0xaca;
  0xb00; 0xb04; 0xb29; 0xb31; 0xb34; 0xb5e; 0xb84; 0xb91; 0xb9b; 0xb9d;
  0xbc9; 0xc0d; 0xc11; 0xc29; 0xc45; 0xc49; 0xc57; 0xc5b; 0xc8d; 0xc91;
  0xca9; 0xcb4; 0xcc5; 0xcc9; 0xcdf; 0xcf0; 0xd0d; 0xd11; 0xd45; 0xd49;
  0xd80; 0xd84; 0xdb2; 0xdbc; 0xdd5; 0xdd7; 0xe83; 0xe85; 0xe8b; 0xea4;
  0xea6; 0xec5; 0xec7; 0xecf; 0xf48; 0xf98; 0xfbd; 0xfcd; 0x10c6; 0x1249;
  0x1257; 0x1259; 0x1289; 0x12b1; 0x12bf; 0x12c1; 0x12d7; 0x1311; 0x1680; 0x176d;
  0x1771; 0x180e; 0x191f; 0x1a5f; 0x1b4d; 0x1f58; 0x1f5a; 0x1f5c; 0x1f5e; 0x1fb5;
  0x1fc5; 0x1fdc; 0x1ff5; 0x208f; 0x2d26; 0x2da7; 0x2daf; 0x2db7; 0x2dbf; 0x2dc7;
  0x2dcf; 0x2dd7; 0x2ddf; 0x2e9a; 0x3000; 0x3040; 0x3130; 0x318f; 0x321f; 0xa9ce;
  0xa9ff; 0xab27; 0xab2f; 0xfb37; 0xfb3d; 0xfb3f; 0xfb42; 0xfb45; 0xfe53; 0xfe67;
  0xfe75; 0xffe7].

Definition isPrint32 : list Z := [
  0x10000; 0x1004d; 0x10050; 0x1005d; 0x10080; 0x100fa; 0x10100; 0x10102; 0x10107; 0x10133;
  0x10137; 0x1019c; 0x101a0; 0x101a0; 0x101d0; 0x101fd; 0x10280; 0x1029c; 0x102a0; 0x102d0;
  0x102e0; 0x102fb; 0x10300; 0x10323; 0x1032d; 0x1034a; 0x10350; 0x1037a; 0x10380; 0x103c3;
  0x103c8; 0x103d5; 0x10400; 0x1049d; 0x104a0; 0x104a9; 0x104b0; 0x104d3; 0x104d8; 0x104fb;
  0x10500; 0x10527; 0x10530; 0x10563; 0x1056f; 0x105bc; 0x105c0; 0x105f3; 0x10600; 0x10736;
  0x10740; 0x10755; 0x10760; 0x10767; 0x10780; 0x107ba; 0x10800; 0x10805; 0x10808; 0x10838;
  0x1083c; 0x1083c; 0x1083f; 0x1089e; 0x108a7; 0x108af; 0x108e0; 0x108f5; 0x108fb; 0x1091b;
  0x1091f; 0x10939; 0x1093f; 0x10959; 0x10980; 0x109b7; 0x109bc; 0x109cf; 0x109d2; 0x10a06;
  0x10a0c; 0x10a35; 0x10a38; 0x10a3a; 0x10a3f; 0x10a48; 0x10a50; 0x10a58; 0x10a60; 0x10a9f;
  0x10ac0; 0x10ae6; 0x10aeb; 0x10af6; 0x10b00; 0x10b35; 0x10b39; 0x10b55; 0x10b58; 0x10b72;
  0x10b78; 0x10b91; 0x10b99; 0x10b9c; 0x10ba9; 0x10baf; 0x10c00; 0x10c48; 0x10c80; 0x10cb2;
  0x10cc0; 0x10cf2; 0x10cfa; 0x10d27; 0x10d30; 0x10d39; 0x10d40; 0x10d65; 0x10d69; 0x10d85;
  0x10d8e; 0x10d8f; 0x10e60; 0x10ead; 0x10eb0; 0x10eb1; 0x10ec2; 0x10ec7; 0x10ed0; 0x10ed8;
  0x10efa; 0x10f27; 0x10f30; 0x10f59; 0x10f70; 0x10f89; 0x10fb0; 0x10fcb; 0x10fe0; 0x10ff6;
  0x11000; 0x1104d; 0x11052; 0x11075; 0x1107f; 0x110c2; 0x110d0; 0x110e8; 0x110f0; 0x110f9;
  0x11100; 0x11147; 0x11150; 0x11176; 0x11180; 0x111f4; 0x11200; 0x11241; 0x11280; 0x112a9;
  0x112b0; 0x112ea; 0x112f0; 0x112f9; 0x11300; 0x1130c; 0x1130f; 0x11310; 0x11313; 0x11344;
  0x11347; 0x11348; 0x1134b; 0x1134d; 0x11350; 0x11350; 0x11357; 0x11357; 0x1135d; 0x11363;
  0x11366; 0x1136c; 0x11370; 0x11374; 0x11380; 0x1138b; 0x1138e; 0x113c2; 0x113c5; 0x113d8;
  0x113e1; 0x113e2; 0x11400; 0x11461; 0x11480; 0x114c7; 0x114d0; 0x114d9; 0x11580; 0x115b5;
  0x115b8; 0x115dd; 0x11600; 0x11644; 0x11650; 0x11659; 0x11660; 0x1166c; 0x11680; 0x116b9;
  0x116c0; 0x116c9; 0x116d0; 0x116e3; 0x11700; 0x1171a; 0x1171d; 0x1172b; 0x11730; 0x11746;
  0x11800; 0x1183b; 0x118a0; 0x118f2; 0x118ff; 0x11906; 0x11909; 0x11909; 0x1190c; 0x11938;
  0x1193b; 0x11946; 0x11950; 0x11959; 0x119a0; 0x119a7; 0x119aa; 0x119d7; 0x119da; 0x119e4;
  0x11a00; 0x11a47; 0x11a50; 0x11aa2; 0x11ab0; 0x11af8; 0x11b00; 0x11b09; 0x11b60; 0x11b67;
  0x11bc0; 0x11be1; 0x11bf0; 0x11bf9; 0x11c00; 0x11c45; 0x11c50; 0x11c6c; 0x11c70; 0x11c8f;
  0x11c92; 0x11cb6; 0x11d00; 0x11d36; 0x11d3a; 0x11d47; 0x11d50; 0x11d59; 0x11d60; 0x11d98;
  0x11da0; 0x11da9; 0x11db0; 0x11ddb; 0x11de0; 0x11de9; 0x11ee0; 0x11ef8; 0x11f00; 0x11f3a;
  0x11f3e; 0x11f5a; 0x11fb0; 0x11fb0; 0x11fc0; 0x11ff1; 0x11fff; 0x12399; 0x12400; 0x12474;
  0x12480; 0x12543; 0x12f90; 0x12ff2; 0x13000; 0x1342f; 0x13440; 0x13455; 0x13460; 0x143fa;
  0x14400; 0x14646; 0x16100; 0x16139; 0x16800; 0x16a38; 0x16a40; 0x16a69; 0x16a6e; 0x16ac9;
  0x16ad0; 0x16aed; 0x16af0; 0x16af5; 0x16b00; 0x16b45; 0x16b50; 0x16b77; 0x16b7d; 0x16b8f;
  0x16d40; 0x16d79; 0x16e40; 0x16e9a; 0x16ea0; 0x16eb8; 0x16ebb; 0x16ed3; 0x16f00; 0x16f4a;
  0x16f4f; 0x16f87; 0x16f8f; 0x16f9f; 0x16fe0; 0x16fe4; 0x16ff0; 0x16ff6; 0x17000; 0x18cd5;
  0x18cff; 0x18d1e; 0x18d80; 0x18df2; 0x1aff0; 0x1b122; 0x1b132; 0x1b132; 0x1b150; 0x1b152;
  0x1b155; 0x1b155; 0x1b164; 0x1b167; 0x1b170; 0x1b2fb; 0x1bc00; 0x1bc6a; 0x1bc70; 0x1bc7c;
  0x1bc80; 0x1bc88; 0x1bc90; 0x1bc99; 0x1bc9c; 0x1bc9f; 0x1cc00; 0x1ccfc; 0x1cd00; 0x1ceb3;
  0x1ceba; 0x1ced0; 0x1cee0; 0x1cef0; 0x1cf00; 0x1cf2d; 0x1cf30; 0x1cf46; 0x1cf50; 0x1cfc3;
  0x1d000; 0x1d0f5; 0x1d100; 0x1d126; 0x1d129; 0x1d172; 0x1d17b; 0x1d1ea; 0x1d200; 0x1d245;
  0x1d2c0; 0x1d2d3; 0x1d2e0; 0x1d2f3; 0x1d300; 0x1d356; 0x1d360; 0x1d378; 0x1d400; 0x1d49f;
  0x1d4a2; 0x1d4a2; 0x1d4a5; 0x1d4a6; 0x1d4a9; 0x1d50a; 0x1d50d; 0x1d546; 0x1d54a; 0x1d6a5;
  0x1d6a8; 0x1d7cb; 0x1d7ce; 0x1da8b; 0x1da9b; 0x1daaf; 0x1df00; 0x1df1e; 0x1df25; 0x1df2a;
  0x1e000; 0x1e018; 0x1e01b; 0x1e02a; 0x1e030; 0x1e06d; 0x1e08f; 0x1e08f; 0x1e100; 0x1e12c;
  0x1e130; 0x1e13d; 0x1e140; 0x1e149; 0x1e14e; 0x1e14f; 0x1e290; 0x1e2ae; 0x1e2c0; 0x1e2f9;
  0x1e2ff; 0x1e2ff; 0x1e4d0; 0x1e4f9; 0x1e5d0; 0x1e5fa; 0x1e5ff; 0x1e5ff; 0x1e6c0; 0x1e6f5;
  0x1e6fe; 0x1e6ff; 0x1e7e0; 0x1e8c4; 0x1e8c7; 0x1e8d6; 0x1e900; 0x1e94b; 0x1e950; 0x1e959;
  0x1e95e; 0x1e95f; 0x1ec71; 0x1ecb4; 0x1ed01; 0x1ed3d; 0x1ee00; 0x1ee24; 0x1ee27; 0x1ee3b;
  0x1ee42; 0x1ee42; 0x1ee47; 0x1ee54; 0x1ee57; 0x1ee64; 0x1ee67; 0x1ee9b; 0x1eea1; 0x1eebb;
  0x1eef0; 0x1eef1; 0x1f000; 0x1f02b; 0x1f030; 0x1f093; 0x1f0a0; 0x1f0ae; 0x1f0b1; 0x1f0f5;
  0x1f100; 0x1f1ad; 0x1f1e6; 0x1f202; 0x1f210; 0x1f23b; 0x1f240; 0x1f248; 0x1f250; 0x1f251;
  0x1f260; 0x1f265; 0x1f300; 0x1f6d8; 0x1f6dc; 0x1f6ec; 0x1f6f0; 0x1f6fc; 0x1f700; 0x1f7d9;
  0x1f7e0; 0x1f7eb; 0x1f7f0; 0x1f7f0; 0x1f800; 0x1f80b; 0x1f810; 0x1f847; 0x1f850; 0x1f859;
  0x1f860; 0x1f887; 0x1f890; 0x1f8ad; 0x1f8b0; 0x1f8bb; 0x1f8c0; 0x1f8c1; 0x1f8d0; 0x1f8d8;
  0x1f900; 0x1fa57; 0x1fa60; 0x1fa6d; 0x1fa70; 0x1fa7c; 0x1fa80; 0x1fa8a; 0x1fa8e; 0x1fac8;
  0x1facd; 0x1fadc; 0x1fadf; 0x1faea; 0x1faef; 0x1faf8; 0x1fb00; 0x1fbfa; 0x20000; 0x2a6df;
  0x2a700; 0x2b81d; 0x2b820; 0x2cead; 0x2ceb0; 0x2ebe0; 0x2ebf0; 0x2ee5d; 0x2f800; 0x2fa1d;
  0x30000; 0x3134a; 0x31350; 0x33479; 0xe0100; 0xe01ef].

Definition isNotPrint32 : list Z := [
  0xc; 0x27; 0x3b; 0x3e; 0x18f; 0x39e; 0x57b; 0x58b; 0x593; 0x596;
  0x5a2; 0x5b2; 0x5ba; 0x786; 0x7b1; 0x809; 0x836; 0x856; 0x8f3; 0xa04;
  0xa14; 0xa18; 0xe7f; 0xeaa; 0x10bd; 0x1135; 0x11e0; 0x1212; 0x1287; 0x1289;
  0x128e; 0x129e; 0x1304; 0x1329; 0x1331; 0x1334; 0x133a; 0x138a; 0x138f; 0x13b6;
  0x13c1; 0x13c6; 0x13cb; 0x13d6; 0x145c; 0x1914; 0x1917; 0x1936; 0x1c09; 0x1c37;
  0x1ca8; 0x1d07; 0x1d0a; 0x1d3b; 0x1d3e; 0x1d66; 0x1d69; 0x1d8f; 0x1d92; 0x1f11;
  0x246f; 0x6a5f; 0x6abf; 0x6b5a; 0x6b62; 0xaff4; 0xaffc; 0xafff; 0xd455; 0xd49d;
  0xd4ad; 0xd4ba; 0xd4bc; 0xd4c4; 0xd506; 0xd515; 0xd51d; 0xd53a; 0xd53f; 0xd545;
  0xd551; 0xdaa0; 0xe007; 0xe022; 0xe025; 0xe6df; 0xe7e7; 0xe7ec; 0xe7ef; 0xe7ff;
  0xee04; 0xee20; 0xee23; 0xee28; 0xee33; 0xee38; 0xee3a; 0xee48; 0xee4a; 0xee4c;
  0xee50; 0xee53; 0xee58; 0xee5a; 0xee5c; 0xee5e; 0xee60; 0xee63; 0xee6b; 0xee73;
  0xee78; 0xee7d; 0xee7f; 0xee8a; 0xeea4; 0xeeaa; 0xf0c0; 0xf0d0; 0xfac7; 0xfb93].

Definition isGraphic : list Z := [
  0xa0; 0x1680; 0x2000; 0x2001; 0x2002; 0x2003; 0x2004; 0x2005; 0x2006; 0x2007;
  0x2008; 0x2009; 0x200a; 0x202f; 0x205f; 0x3000].

(** The position of [v] in the sorted table [s], or where it would be. *)
Definition bsearch (s : list Z) (v : Z) : res (Z * bool) :=
  let n := len s in
  let! i :=
    loop (S (length s))
      (fun '(i, j) =>
         if i <? j then
           let h := i + Z.shiftr (j - i) 1 in
           let! x := idx s h in
           if x <? v then Ok (inl (h + 1, j)) else Ok (inl (i, h))
         else Ok (inr i)) (0, n) in
  let! found := if i <? n then (let! x := idx s i in Ok (x =? v)) else Ok false in
  Ok (i, found).

(** [i >= len(isPrint) || rr < isPrint[i&^1] || isPrint[i|1] < rr] *)
Definition outsideRange (isPrint : list Z) (i rr : Z) : res bool :=
  if i >=? len isPrint then Ok true else
  let! lo := idx isPrint (Z.ldiff i 1) in
  if rr <? lo then Ok true else
  let! hi := idx isPrint (Z.lor i 1) in
  Ok (hi <? rr).

Definition IsPrint (r : Z) : res bool :=
  if r <=? 0xFF then
    if (0x20 <=? r) && (r <=? 0x7E) then Ok true else
    if (0xA1 <=? r) && (r <=? 0xFF) then Ok (negb (r =? 0xAD)) else
    Ok false
  else if (0 <=? r) && (r <? Z.shiftl 1 16) then
    let rr := u16 r in
    let! '(i, _) := bsearch isPrint16 rr in
    let! out := outsideRange isPrint16 i rr in
    if (out : bool) then Ok false else
    let! '(_, found) := bsearch isNotPrint16 rr in
    Ok (negb found)
  else
    let rr := u32 r in
    let! '(i, _) := bsearch isPrint32 rr in
    let! out := outsideRange isPrint32 i rr in
    if (out : bool) then Ok false else
    if r >=? 0x20000 then Ok true else
    let r := r - 0x10000 in
    let! '(_, found) := bsearch isNotPrint32 (u16 r) in
    Ok (negb found).

Definition isInGraphicList (r : Z) : res bool :=
  if r >? 0xFFFF then Ok false else
  let! '(_, found) := bsearch isGraphic (u16 r) in
  Ok found.

Definition IsGraphic (r : Z) : res bool :=
  let! p := IsPrint r in
  if (p : bool) then Ok true else isInGraphicList r.

Example IsPrint_examples :
  (IsPrint 0x263a, IsPrint 0xa0, IsGraphic 0xa0, IsPrint 0x1F600, IsPrint 0x2FFFF)
  = (Ok true, Ok false, Ok true, Ok true, Ok false).
Proof. vm_compute. reflexivity. Qed.

(** ** Searching a sorted table *)

Fixpoint above (x : Z) (t : list Z) : bool :=
  match t with
  | [] => true
  | y :: t => (x <=? y) && above y t
  end.
(** The table is in order. *)
Definition increasing (t : list Z) : bool := above (-1) t.

Lemma above_lookup t : forall x k y, above x t = true -> t !! k = Some y -> x <= y.
Proof.
  induction t as [|z t IH]; intros x k y H Hk; [done|].
  cbn [above] in H. apply andb_true_iff in H as [H1%Z.leb_le H2].
  destruct k as [|k]; [by simplify_eq/=|]. specialize (IH z k y H2 Hk). lia.
Qed.

Lemma above_ordered t : forall b i j x y, above b t = true ->
  (i < j)%nat -> t !! i = Some x -> t !! j = Some y -> x <= y.
Proof.
  induction t as [|z t IH]; intros b i j x y H Hij Hi Hj; [done|].
  cbn [above] in H. apply andb_true_iff in H as [_ H].
  destruct j as [|j]; [lia|]. destruct i as [|i]; simplify_eq/=; [by eapply above_lookup|].
  eapply (IH z i j); [done|lia|done|done].
Qed.

(** The entries below [i] are smaller than [v], the others are not. *)
Definition splits_at (s : list Z) (v i : Z) : Prop :=
  0 <= i <= len s /\ forall k x, s !! k = Some x -> if Z.of_nat k <? i then x < v else v <= x.

Lemma bsearch_spec s v :
  increasing s = true ->
  bsearch s v ⇓ (fun '(i, found) => splits_at s v i /\ (found = true <-> v ∈ s)).
Proof.
  intros Hs. assert (Hord := above_ordered s (-1)). unfold bsearch.
  eapply (returns_bind_mono _ _ (splits_at s v)).
  { apply (loop_returns (fun '(i, j) => 0 <= i <= j /\ j <= len s /\ forall k x, s !! k = Some x ->
      (Z.of_nat k < i -> x < v) /\ (j <= Z.of_nat k -> v <= x)) (fun '(i, j) => j - i));
      [|repeat split; try (unfold len; lia); intros; apply lookup_lt_Some in H; unfold len in *; lia|unfold len; lia..].
    intros [i j] (Hi & Hj & Hk). destruct (Z.ltb_spec i j) as [Hlt|Hge].
    2: { cbn. split; [lia|]. intros k x Hx. destruct (Hk k x Hx). destruct (Z.ltb_spec (Z.of_nat k) i); auto with lia. }
    rewrite shiftr_div by lia. set (h := i + (j - i) / 2 ^ 1). assert (Hh : i <= h < j) by (unfold h; zdm).
    clearbody h. eapply returns_bind_mono; [apply idx_returns; [lia|]; intros y Hy; exact Hy|].
    cbn beta. intros y Hy. destruct (Z.ltb_spec y v) as [Hyv|Hyv]; cbn; (split; [|lia]);
      repeat split; try lia; intros k_lt; try (by eapply Hk).
    - destruct (decide (k = Z.to_nat h)) as [->|]; [rewrite Hy in H; by simplify_eq|].
      apply Z.le_lt_trans with y; [|done]. eapply (Hord k (Z.to_nat h)); [done|lia|done|done].
    - destruct (decide (k = Z.to_nat h)) as [->|]; [rewrite Hy in H; simplify_eq; lia|].
      assert (y <= x); [|lia]. eapply (Hord (Z.to_nat h) k); [done|lia|done|done]. }
  intros i [Hi Hk]. eapply (returns_bind_mono _ _ (fun b => b = true <-> v ∈ s)).
  { destruct (Z.ltb_spec i (len s)) as [Hlt|Hge].
    - eapply returns_bind_mono; [apply idx_returns; [lia|]; intros y Hy; exact Hy|]. cbn beta. intros y Hy. cbn.
      rewrite Z.eqb_eq. split; [intros ->; by eapply list_elem_of_lookup_2|].
      intros [k Hv]%list_elem_of_lookup_1. pose proof (Hk _ _ Hv) as H1. pose proof (Hk _ _ Hy) as H2.
      destruct (Z.ltb_spec (Z.of_nat k) i), (Z.ltb_spec (Z.of_nat (Z.to_nat i)) i); try lia.
      destruct (decide (k = Z.to_nat i)) as [->|]; [congruence|].
      assert (y <= v); [|lia]. eapply (Hord (Z.to_nat i) k); [done|lia|done|done].
    - cbn. split; [done|]. intros [k Hv]%list_elem_of_lookup_1. pose proof (Hk _ _ Hv) as H1.
      apply lookup_lt_Some in Hv. unfold len in *. destruct (Z.ltb_spec (Z.of_nat k) i); lia. }
  intros b Hb. cbn. done.
Qed.

(** [x] lies in one of the ranges a table lists. *)
Fixpoint inRanges (t : list Z) (x : Z) : bool :=
  match t with
  | lo :: hi :: t => ((lo <=? x) && (x <=? hi)) || inRanges t x
  | _ => false
  end.

Lemma inRanges_lookup x : forall n t, (length t <= n)%nat -> inRanges t x = true <->
  exists k lo hi, t !! (2 * k)%nat = Some lo /\ t !! S (2 * k) = Some hi /\ lo <= x <= hi.
Proof.
  induction n as [|n IH]; intros [|lo [|hi t]] Hl; cbn [inRanges length] in *; try lia;
    try (split; [done|]; intros (k & ? & ? & _ & H & _); by apply lookup_lt_Some in H; cbn in H; lia).
  rewrite orb_true_iff, IH by lia. split.
  - intros [[H1%Z.leb_le H2%Z.leb_le]%andb_true_iff|(k & l & h & H1 & H2 & H3)].
    + by exists 0%nat, lo, hi.
    + exists (S k), l, h. by replace (2 * S k)%nat with (S (S (2 * k))) by lia.
  - intros ([|k] & l & h & H1 & H2 & H3).
    + simplify_eq/=. left. apply andb_true_iff. rewrite !Z.leb_le. lia.
    + right. exists k, l, h. replace (2 * S k)%nat with (S (S (2 * k))) in H1, H2 by lia. done.
Qed.

(** A table of ranges: each ends at or after its start, before the next. *)
Fixpoint rangesAbove (b : Z) (t : list Z) : bool :=
  match t with
  | [] => true
  | lo :: hi :: t => (b <? lo) && (lo <=? hi) && rangesAbove hi t
  | _ => false
  end.
Definition ranges (t : list Z) : bool := rangesAbove (-1) t.

Lemma rangesAbove_spec n : forall b t, (length t <= n)%nat -> rangesAbove b t = true ->
  above b t = true /\ (exists m, length t = (2 * m)%nat) /\
  forall k x y, (b :: t) !! (2 * k)%nat = Some x -> t !! (2 * k)%nat = Some y -> x < y.
Proof.
  induction n as [|n IH]; intros b [|lo [|hi t]] Hl H; cbn [rangesAbove length] in *; try done; try lia;
    try (by split; [|split; [by exists 0%nat|]]).
  apply andb_true_iff in H as [[H1%Z.ltb_lt H2%Z.leb_le]%andb_true_iff H3].
  destruct (IH hi t ltac:(lia) H3) as (I1 & [m Hm] & I3). split; [|split].
  - cbn [above]. rewrite I1, !(proj2 (Z.leb_le _ _)) by lia. done.
  - exists (S m). lia.
  - intros [|k] x y Hx Hy; [by simplify_eq/=|].
    replace (2 * S k)%nat with (S (S (2 * k))) in Hx, Hy by lia. by eapply (I3 k).
Qed.

(** [i&^1] and [i|1] are the two positions of the range [i] falls in. *)
Lemma range_ends i : 0 <= i -> Z.ldiff i 1 = 2 * (i / 2) /\ Z.lor i 1 = 2 * (i / 2) + 1.
Proof.
  intros Hi. split.
  - change 1 with (Z.ones 1) at 1. rewrite Z.ldiff_ones_r, Z.shiftl_mul_pow2, Z.shiftr_div_pow2 by lia. zdm.
  - assert (H : Z.lor (i / 2 * 2 ^ 1) 1 = i / 2 * 2 ^ 1 + 1) by (apply lor_disjoint_mul; lia).
    transitivity (Z.lor (i / 2 * 2 ^ 1) 1); [|lia].
    assert (i = i / 2 * 2 ^ 1 \/ i = i / 2 * 2 ^ 1 + 1) as [E|E] by zdm; [congruence|].
    rewrite E at 1. by rewrite <- H, <- Z.lor_assoc.
Qed.

Lemma outsideRange_spec t i v :
  ranges t = true -> splits_at t v i ->
  outsideRange t i v = Ok (negb (inRanges t v)).
Proof.
  intros Hs [Hi Hk]. unfold outsideRange.
  destruct (rangesAbove_spec (length t) (-1) t (le_n _) Hs) as (Hup & [m Hm] & Hsep). pose proof (inRanges_lookup v (length t) t (le_n _)) as Hr.
  destruct (range_ends i) as [-> ->]; [lia|].
  assert (Hat : forall k lo hi, t !! (2 * k)%nat = Some lo -> t !! S (2 * k) = Some hi ->
    lo <= v <= hi -> i < len t /\ i / 2 = Z.of_nat k).
  { intros k lo hi H1 H2 Hv. pose proof (Hk _ _ H1) as K1. pose proof (Hk _ _ H2) as K2.
    pose proof (lookup_lt_Some _ _ _ H2). unfold len in *.
    destruct (Z.ltb_spec (Z.of_nat (S (2 * k))) i); [lia|]. split; [lia|].
    destruct (Z.ltb_spec (Z.of_nat (2 * k)) i); [zdm|].
    assert (lo = v) as -> by lia. destruct (decide (i < Z.of_nat (2 * k))); [|zdm]. exfalso.
    destruct k as [|k]; [lia|]. destruct (lookup_lt_is_Some_2 t (S (2 * k))) as [x Hx]; [lia|].
    pose proof (Hk _ _ Hx) as K3. destruct (Z.ltb_spec (Z.of_nat (S (2 * k))) i); [lia|].
    enough (x < v) by lia. apply (Hsep (S k)); [|done]. by replace (2 * S k)%nat with (S (S (2 * k))) by lia. }
  destruct (Z.geb_spec i (len t)) as [Hge|Hlt].
  { destruct (inRanges t v); [|done]. destruct (proj1 Hr eq_refl) as (k & lo & hi & H1 & H2 & Hv).
    destruct (Hat k lo hi H1 H2 Hv). lia. }
  set (k := Z.to_nat (i / 2)). assert (Hpos : Z.of_nat k = i / 2) by (unfold k; zdm).
  destruct (lookup_lt_is_Some_2 t (2 * k)) as [lo Hlo]; [unfold len in *; zdm|].
  destruct (lookup_lt_is_Some_2 t (S (2 * k))) as [hi Hhi]; [unfold len in *; zdm|].
  rewrite (idx_Ok t _ lo), (idx_Ok t _ hi); cycle 1.
  { zdm. } { by replace (Z.to_nat (2 * (i / 2) + 1)) with (S (2 * k)) by zdm. }
  { zdm. } { by replace (Z.to_nat (2 * (i / 2))) with (2 * k)%nat by zdm. }
  cbn [rbind]. destruct (inRanges t v).
  - destruct (proj1 Hr eq_refl) as (k' & lo' & hi' & H1 & H2 & Hv). destruct (Hat _ _ _ H1 H2 Hv).
    assert (k' = k) as -> by lia. simplify_eq. rewrite (proj2 (Z.ltb_ge v lo)), (proj2 (Z.ltb_ge hi v)) by lia. done.
  - destruct (Z.ltb_spec v lo); [done|]. destruct (Z.ltb_spec hi v); [done|].
    discriminate (proj2 Hr (ex_intro _ k (ex_intro _ lo (ex_intro _ hi (conj Hlo (conj Hhi (conj H H0))))))).
Qed.

(** ** What IsPrint computes *)

(** In a range of the table for its plane and not an exception to it. *)
Definition printable (r : Z) : bool :=
  if r <? 0x10000 then inRanges isPrint16 r && negb (bool_decide (r ∈ isNotPrint16))
  else inRanges isPrint32 r && ((r >=? 0x20000) || negb (bool_decide (r - 0x10000 ∈ isNotPrint32))).

Lemma tables_increasing :
  ranges isPrint16 = true /\ increasing isNotPrint16 = true /\ ranges isPrint32 = true /\
  increasing isNotPrint32 = true /\ increasing isGraphic = true.
Proof. repeat split; reflexivity. Qed.

Lemma bsearch_found s v : increasing s = true ->
  (let! '(_, found) := bsearch s v in Ok found) = Ok (bool_decide (v ∈ s)).
Proof.
  intros Hs. destruct (returns_inv _ _ (bsearch_spec s v Hs)) as ([i b] & -> & _ & Hb). cbn. f_equal.
  symmetry. destruct b; [apply bool_decide_eq_true_2; by apply Hb|].
  apply bool_decide_eq_false_2. rewrite <- Hb. done.
Qed.

(** One plane of IsPrint: the search in the ranges, then [rest]. *)
Lemma search_ranges t v (rest : res bool) : ranges t = true ->
  (let! '(i, _) := bsearch t v in
   let! out := outsideRange t i v in
   if (out : bool) then Ok false else rest) = if inRanges t v then rest else Ok false.
Proof.
  intros Hs. destruct (rangesAbove_spec (length t) (-1) t (le_n _) Hs) as (Hup & _).
  destruct (returns_inv _ _ (bsearch_spec t v Hup)) as ([i b] & -> & Hsp & _). cbn [rbind].
  rewrite outsideRange_spec by done. cbn [rbind]. by destruct (inRanges t v).
Qed.

Lemma bsearch_negb s v : increasing s = true ->
  (let! '(_, found) := bsearch s v in Ok (negb found)) = Ok (negb (bool_decide (v ∈ s))).
Proof.
  intros Hs. pose proof (bsearch_found s v Hs) as H. destruct (bsearch s v) as [[i b]| |]; try done.
  cbn in *. by injection H as ->.
Qed.

(** The Latin-1 shortcut agrees with the tables. *)
Lemma latin1 r : 0 <= r <= 0xFF -> IsPrint r = Ok (printable r).
Proof.
  intros Hr. assert (H : forallb (fun n => match IsPrint (Z.of_nat n) with
    | Ok b => Bool.eqb b (printable (Z.of_nat n)) | _ => false end) (seq 0 256) = true) by (vm_compute; done).
  rewrite forallb_forall in H. specialize (H (Z.to_nat r)). rewrite Z2Nat.id in H by lia.
  destruct (IsPrint r) as [b| |].
  - f_equal. apply Bool.eqb_prop, H, in_seq. lia.
  - discriminate H. apply in_seq. lia.
  - discriminate H. apply in_seq. lia.
Qed.

Lemma IsPrint_spec r :
  - 2 ^ 31 <= r < 2 ^ 31 -> IsPrint r = Ok ((0 <=? r) && printable r).
Proof.
  intros Hr. destruct tables_increasing as (H1 & H2 & H3 & H4 & _).
  destruct (Z.leb_spec 0 r) as [H0|H0]; cbn [andb].
  2: { unfold IsPrint. rewrite (proj2 (Z.leb_le r _)) by lia.
    rewrite (proj2 (Z.leb_gt 0x20 r)), (proj2 (Z.leb_gt 0xA1 r)) by lia. done. }
  destruct (Z.leb_spec r 0xFF) as [|Hff]; [apply latin1; lia|]. unfold IsPrint, printable.
  rewrite (proj2 (Z.leb_gt r _)), (proj2 (Z.leb_le 0 r)) by lia. change (Z.shiftl 1 16) with 0x10000.
  destruct (Z.ltb_spec r 0x10000); cbn [andb].
  - rewrite u16_id by lia. rewrite search_ranges by done. rewrite bsearch_negb by done.
    by destruct (inRanges isPrint16 r).
  - rewrite u32_id by lia. rewrite search_ranges by done. destruct (inRanges isPrint32 r); [|done].
    destruct (Z.geb_spec r 0x20000); [done|]. rewrite u16_id by lia. by apply bsearch_negb.
Qed.

(** IsPrint, with its Latin-1 shortcut and its binary searches, decides
    exactly whether a rune lies in a range the table of its plane lists and
    is not one of that table's exceptions; no other value of the type rune is
    printable, and no search reads outside its table. *)
Theorem IsPrint_correct r :
  - 2 ^ 31 <= r < 2 ^ 31 -> IsPrint r = Ok ((0 <=? r) && printable r).
Proof. apply IsPrint_spec. Qed.

Lemma IsPrint_correct_witness : IsPrint 0x1F600 = Ok ((0 <=? 0x1F600) && printable 0x1F600).
Proof. apply IsPrint_correct. lia. Defined.

Lemma isInGraphicList_spec r : 0 <= r -> isInGraphicList r = Ok (bool_decide (r ∈ isGraphic)).
Proof.
  intros Hr. destruct tables_increasing as (_ & _ & _ & _ & H). unfold isInGraphicList.
  destruct (Z.gtb_spec r 0xFFFF) as [Hgt|Hle]; [|rewrite u16_id by lia; by apply bsearch_found].
  rewrite bool_decide_eq_false_2; [done|].
  assert (Hb : Forall (fun x => x <= 0xFFFF) isGraphic) by (apply (bool_decide_unpack _); reflexivity).
  intros Hin. pose proof (proj1 (Forall_forall _ _) Hb r Hin). cbn in *. lia.
Qed.

(** IsGraphic looks a rune up by its low 16 bits, and negative runes pass the
    test above it: some of them, which are no code points, count as graphic. *)
Theorem IsGraphic_negative : IsGraphic (-65376) = Ok true /\ u16 (-65376) = 0xA0.
Proof. vm_compute. done. Qed.
