(* ===== verification/Quote.v ===== *)
(** * Package strconv: quoting and unquoting

    The functions of src/strconv/quote.go over byte strings.  They call
    unicode/utf8 (Utf8.v) and IsPrint (IsPrint.v).  A buffer is the list of
    its bytes: its capacity only decides when Go reallocates.  [ptrSize] is
    the word size utf8.ValidString reads with. *)
From Stdlib Require Import Ascii String ZArith Lia.
From stdpp Require Import base numbers list.
From S2P Require Import Prelude Utf8 IsPrint.

Inductive quoteErr := ErrSyntax.

Definition lowerhex : list Z := str "0123456789abcdef".

(** bytealg_bootstrap.go *)
Fixpoint indexFrom (s : list Z) (c i : Z) : Z :=
  match s with
  | [] => -1
  | x :: s => if x =? c then i else indexFrom s c (i + 1)
  end.
Definition index (s : list Z) (c : Z) : Z := indexFrom s c 0.

Definition contains (s : list Z) (c : Z) : bool := negb (index s c =? -1).

(** ** Quoting *)

(** [append(buf, lowerhex[i])] *)
Definition appendHex (buf : list Z) (i : Z) : res (list Z) :=
  let! d := idx lowerhex i in Ok (buf ++ [d]).

(** [for ; s >= 0; s -= 4 { buf = append(buf, lowerhex[r>>uint(s)&0xF]) }] *)
Definition appendNibbles (buf : list Z) (r s : Z) : res (list Z) :=
  loop 9
    (fun '(buf, s) =>
       if s >=? 0 then
         let! buf := appendHex buf (Z.land (Z.shiftr r s) 0xF) in Ok (inl (buf, s - 4))
       else Ok (inr buf)) (buf, s).

Definition appendEscapedRune (buf : list Z) (r quote : Z) (ASCIIonly graphicOnly : bool) : res (list Z) :=
  if (r =? quote) || (r =? ch "\") then Ok ((buf ++ [ch "\"]) ++ [u8 r]) else
  let! plain :=
    if ASCIIonly then
      if r <? RuneSelf then (let! p := IsPrint r in Ok (if (p : bool) then Some (buf ++ [u8 r]) else None))
      else Ok None
    else
      let! p := IsPrint r in
      let! p := if (p : bool) then Ok true else if graphicOnly then isInGraphicList r else Ok false in
      Ok (if (p : bool) then Some (AppendRune buf r) else None) in
  match plain with
  | Some buf => Ok buf
  | None =>
      if r =? 7 then Ok (buf ++ str "\a")
      else if r =? 8 then Ok (buf ++ str "\b")
      else if r =? 12 then Ok (buf ++ str "\f")
      else if r =? 10 then Ok (buf ++ str "\n")
      else if r =? 13 then Ok (buf ++ str "\r")
      else if r =? 9 then Ok (buf ++ str "\t")
      else if r =? 11 then Ok (buf ++ str "\v")
      else if (r <? ch " ") || (r =? 0x7f) then
        let! buf := appendHex (buf ++ str "\x") (Z.shiftr (u8 r) 4) in
        appendHex buf (Z.land (u8 r) 0xF)
      else if negb (ValidRune r) then appendNibbles (buf ++ str "\u") 0xFFFD 12
      else if r <? 0x10000 then appendNibbles (buf ++ str "\u") r 12
      else appendNibbles (buf ++ str "\U") r 28
  end.

(** One round of the loop of appendQuotedWith; the state is (buf, s). *)
Definition quoteStep (quote : Z) (ASCIIonly graphicOnly : bool) (st : list Z * list Z)
    : res (list Z * list Z + list Z) :=
  let '(buf, s) := st in
  if len s >? 0 then
    let! '(r, width) := DecodeRuneInString s in
    let! buf :=
      if (width =? 1) && (r =? RuneError) then
        let buf := buf ++ str "\x" in
        let! c := idx s 0 in
        let! buf := appendHex buf (Z.shiftr c 4) in
        appendHex buf (Z.land c 0xF)
      else appendEscapedRune buf r quote ASCIIonly graphicOnly in
    let! s := slice_from s width in
    Ok (inl (buf, s))
  else Ok (inr buf).

Definition appendQuotedWith (buf s : list Z) (quote : Z) (ASCIIonly graphicOnly : bool) : res (list Z) :=
  let buf := buf ++ [quote] in
  let! buf := loop (S (length s)) (quoteStep quote ASCIIonly graphicOnly) (buf, s) in
  Ok (buf ++ [quote]).

Definition appendQuotedRuneWith (buf : list Z) (r quote : Z) (ASCIIonly graphicOnly : bool) : res (list Z) :=
  let buf := buf ++ [quote] in
  let r := if negb (ValidRune r) then RuneError else r in
  let! buf := appendEscapedRune buf r quote ASCIIonly graphicOnly in
  Ok (buf ++ [quote]).

Definition quoteWith (s : list Z) (quote : Z) (ASCIIonly graphicOnly : bool) : res (list Z) :=
  appendQuotedWith [] s quote ASCIIonly graphicOnly.
Definition quoteRuneWith (r quote : Z) (ASCIIonly graphicOnly : bool) : res (list Z) :=
  appendQuotedRuneWith [] r quote ASCIIonly graphicOnly.

Definition dquote : Z := 34.
Definition squote : Z := 39.
Definition Quote (s : list Z) : res (list Z) := quoteWith s dquote false false.
Definition AppendQuote (dst s : list Z) : res (list Z) := appendQuotedWith dst s dquote false false.
Definition QuoteToASCII (s : list Z) : res (list Z) := quoteWith s dquote true false.
Definition AppendQuoteToASCII (dst s : list Z) : res (list Z) := appendQuotedWith dst s dquote true false.
Definition QuoteToGraphic (s : list Z) : res (list Z) := quoteWith s dquote false true.
Definition AppendQuoteToGraphic (dst s : list Z) : res (list Z) := appendQuotedWith dst s dquote false true.
Definition QuoteRune (r : Z) : res (list Z) := quoteRuneWith r squote false false.
Definition AppendQuoteRune (dst : list Z) (r : Z) : res (list Z) := appendQuotedRuneWith dst r squote false false.
Definition QuoteRuneToASCII (r : Z) : res (list Z) := quoteRuneWith r squote true false.
Definition AppendQuoteRuneToASCII (dst : list Z) (r : Z) : res (list Z) :=
  appendQuotedRuneWith dst r squote true false.
Definition QuoteRuneToGraphic (r : Z) : res (list Z) := quoteRuneWith r squote false true.
Definition AppendQuoteRuneToGraphic (dst : list Z) (r : Z) : res (list Z) :=
  appendQuotedRuneWith dst r squote false true.

Definition CanBackquote (s : list Z) : res bool :=
  loop (S (length s))
    (fun s =>
       if len s >? 0 then
         let! '(r, wid) := DecodeRuneInString s in
         let! s := slice_from s wid in
         if wid >? 1 then
           if r =? 0xFEFF then Ok (inr false) else Ok (inl s)
         else if r =? RuneError then Ok (inr false)
         else if ((r <? ch " ") && negb (r =? 9)) || (r =? ch "`") || (r =? 0x7F) then Ok (inr false)
         else Ok (inl s)
       else Ok (inr true)) s.

(** ** Unquoting *)

Definition unhex (b : Z) : Z * bool :=
  if (ch "0" <=? b) && (b <=? ch "9") then (b - ch "0", true)
  else if (ch "a" <=? b) && (b <=? ch "f") then (b - ch "a" + 10, true)
  else if (ch "A" <=? b) && (b <=? ch "F") then (b - ch "A" + 10, true)
  else (0, false).

(** The loop over [n] hexadecimal digits; [None] on a character that is none. *)
Definition hexValue (s : list Z) (n : Z) : res (option Z) :=
  loop (S (Z.to_nat n))
    (fun '(v, j) =>
       if j <? n then
         let! c := idx s j in
         let '(x, ok) := unhex c in
         if negb ok then Ok (inr None) else Ok (inl (Z.lor (i32 (Z.shiftl v 4)) x, j + 1))
       else Ok (inr (Some v))) (0, 0).

(** The two more octal digits after the first. *)
Definition octValue (s : list Z) (v : Z) : res (option Z) :=
  loop 3
    (fun '(v, j) =>
       if j <? 2 then
         let! c := idx s j in
         let x := c - ch "0" in
         if (x <? 0) || (x >? 7) then Ok (inr None) else Ok (inl (Z.lor (i32 (Z.shiftl v 3)) x, j + 1))
       else Ok (inr (Some v))) (v, 0).

(** The results of UnquoteChar: value, multibyte, tail and error. *)
Definition unquoted : Type := Z * bool * list Z * option quoteErr.
Definition charError : res unquoted := Ok (0, false, [], Some ErrSyntax).

(** After the backslash and the character [c]. *)
Definition unquoteEscape (c : Z) (s : list Z) (quote : Z) : res unquoted :=
  let simple v : res unquoted := Ok (v, false, s, None) in
  if c =? ch "a" then simple 7
  else if c =? ch "b" then simple 8
  else if c =? ch "f" then simple 12
  else if c =? ch "n" then simple 10
  else if c =? ch "r" then simple 13
  else if c =? ch "t" then simple 9
  else if c =? ch "v" then simple 11
  else if (c =? ch "x") || (c =? ch "u") || (c =? ch "U") then
    let n := if c =? ch "x" then 2 else if c =? ch "u" then 4 else 8 in
    if len s <? n then charError else
    let! v := hexValue s n in
    match v with
    | None => charError
    | Some v =>
        let! s := slice_from s n in
        if c =? ch "x" then Ok (v, false, s, None)
        else if negb (ValidRune v) then charError
        else Ok (v, true, s, None)
    end
  else if (ch "0" <=? c) && (c <=? ch "7") then
    if len s <? 2 then charError else
    let! v := octValue s (c - ch "0") in
    match v with
    | None => charError
    | Some v =>
        let! s := slice_from s 2 in
        if v >? 255 then charError else Ok (v, false, s, None)
    end
  else if c =? ch "\" then simple (ch "\")
  else if (c =? squote) || (c =? dquote) then
    if negb (c =? quote) then charError else simple c
  else charError.

Definition UnquoteChar (s : list Z) (quote : Z) : res unquoted :=
  if len s =? 0 then charError else
  let! c := idx s 0 in
  if (c =? quote) && ((quote =? squote) || (quote =? dquote)) then charError
  else if c >=? RuneSelf then
    let! '(r, size) := DecodeRuneInString s in
    let! tail := slice_from s size in
    Ok (r, true, tail, None)
  else if negb (c =? ch "\") then
    let! tail := slice_from s 1 in Ok (c, false, tail, None)
  else
  if len s <=? 1 then charError else
  let! c := idx s 1 in
  let! s := slice_from s 2 in
  unquoteEscape c s quote.

(** The characters of a raw string without its carriage returns. *)
Definition dropCR (in_ : list Z) (end_ : Z) : res (list Z) :=
  loop (S (length in_))
    (fun '(buf, i) =>
       if i <? end_ - 1 then
         let! c := idx in_ i in
         Ok (inl (if negb (c =? 13) then buf ++ [c] else buf, i + 1))
       else Ok (inr buf)) ([], 1).

(** The loop over the characters of a quoted string: the input that is left
    and the unescaped bytes, or [None] for a syntax error. *)
Definition unquoteStep (quote : Z) (unescape : bool) (st : list Z * list Z)
    : res (list Z * list Z + option (list Z * list Z)) :=
  let '(in_, buf) := st in
  let! more := if len in_ >? 0 then (let! c := idx in_ 0 in Ok (negb (c =? quote))) else Ok false in
  if (more : bool) then
    let! '(r, multibyte, rem, err) := UnquoteChar in_ quote in
    let! c := idx in_ 0 in
    if (c =? 10) || bool_decide (err <> None) then Ok (inr None) else
    let buf := if unescape then
                 if (r <? RuneSelf) || negb multibyte then buf ++ [u8 r] else AppendRune buf r
               else buf in
    if quote =? squote then Ok (inr (Some (rem, buf))) else Ok (inl (rem, buf))
  else Ok (inr (Some (in_, buf))).

Definition unquoteLoop (in_ : list Z) (quote : Z) (unescape : bool) : res (option (list Z * list Z)) :=
  loop (S (length in_)) (unquoteStep quote unescape) (in_, []).

Section Unquote.
Context (ptrSize : Z).

Definition unquote (in_ : list Z) (unescape : bool) : res (list Z * list Z * option quoteErr) :=
  if len in_ <? 2 then Ok ([], in_, Some ErrSyntax) else
  let! quote := idx in_ 0 in
  let! rest := slice_from in_ 1 in
  let end_ := index rest quote in
  if end_ <? 0 then Ok ([], in_, Some ErrSyntax) else
  let end_ := end_ + 2 in
  let! head := slice in_ 0 end_ in
  if quote =? ch "`" then
    let! out :=
      if negb unescape then Ok head
      else if negb (contains head 13) then slice in_ 1 (end_ - 1)
      else dropCR in_ end_ in
    let! rem := slice_from in_ end_ in
    Ok (out, rem, None)
  else if (quote =? dquote) || (quote =? squote) then
    let! valid :=
      if negb (contains head (ch "\")) && negb (contains head 10) then
        let! body := slice in_ 1 (end_ - 1) in
        if quote =? dquote then ValidString ptrSize body
        else
          let! '(r, n) := DecodeRuneInString body in
          Ok ((1 + n + 1 =? end_) && (negb (r =? RuneError) || negb (n =? 1)))
      else Ok false in
    if (valid : bool) then
      let! out := if unescape then slice head 1 (end_ - 1) else Ok head in
      let! rem := slice_from in_ end_ in
      Ok (out, rem, None)
    else
    let in0 := in_ in
    let! in_ := slice_from in_ 1 in
    let! r := unquoteLoop in_ quote unescape in
    match r with
    | None => Ok ([], in0, Some ErrSyntax)
    | Some (in_, buf) =>
        let! closed := if len in_ >? 0 then (let! c := idx in_ 0 in Ok (c =? quote)) else Ok false in
        if negb closed then Ok ([], in0, Some ErrSyntax) else
        let! in_ := slice_from in_ 1 in
        if unescape then Ok (buf, in_, None)
        else
          let! out := slice in0 0 (len in0 - len in_) in
          Ok (out, in_, None)
    end
  else Ok ([], in_, Some ErrSyntax).

Definition QuotedPrefix (s : list Z) : res (list Z * option quoteErr) :=
  let! '(out, _, err) := unquote s false in Ok (out, err).

Definition Unquote (s : list Z) : res (list Z * option quoteErr) :=
  let! '(out, rem, err) := unquote s true in
  if len rem >? 0 then Ok ([], Some ErrSyntax) else Ok (out, err).
End Unquote.

Example quote_examples :
  Quote [104; 10; 34; 255; 0xE2; 0x98; 0xBA] = Ok ([34] ++ str "h\n\" ++ [34] ++ str "\xff" ++ [0xE2; 0x98; 0xBA; 34])
  /\ QuoteToASCII [0xE2; 0x98; 0xBA; 0xF0; 0x9F; 0x98; 0x80] = Ok ([34] ++ str "\u263a\U0001f600" ++ [34])
  /\ Unquote 8 ([34] ++ str "\u263a\060\'" ++ [34]) = Ok ([], Some ErrSyntax)
  /\ Unquote 8 ([34] ++ str "\u263a\060'" ++ [34]) = Ok ([0xE2; 0x98; 0xBA; 48; 39], None)
  /\ QuoteRune 39 = Ok (str "'\''").
Proof. repeat split; vm_compute; reflexivity. Qed.
