(* ===== verification/QuoteCorrect.v ===== *)
(** * Package strconv: unquoting undoes quoting

    A quoted string is a sequence of chunks, each the escape of one rune or
    of one invalid byte.  [chunk] states what unquoting needs of one; the
    loops of appendQuotedWith and unquote are then related chunk by chunk. *)
From Stdlib Require Import Ascii String ZArith Lia.
From stdpp Require Import base numbers list.
From S2P Require Import Prelude Utf8 IsPrint Quote.

(** ** Hexadecimal digits *)

Definition hexDigit (k : Z) : Z := if k <? 10 then 48 + k else 87 + k.

Ltac sixteen k :=
  assert (k = 0 \/ k = 1 \/ k = 2 \/ k = 3 \/ k = 4 \/ k = 5 \/ k = 6 \/ k = 7 \/ k = 8 \/
    k = 9 \/ k = 10 \/ k = 11 \/ k = 12 \/ k = 13 \/ k = 14 \/ k = 15) by lia;
  repeat match goal with H : _ \/ _ |- _ => destruct H end; subst k.

Lemma lowerhex_idx k : 0 <= k < 16 -> idx lowerhex k = Ok (hexDigit k).
Proof. intros Hk. sixteen k; reflexivity. Qed.

Lemma unhex_hexDigit k : 0 <= k < 16 -> unhex (hexDigit k) = (k, true).
Proof. intros Hk. sixteen k; reflexivity. Qed.

Lemma hexDigit_plain k : 0 <= k < 16 -> 48 <= hexDigit k <= 57 \/ 97 <= hexDigit k <= 102.
Proof. intros. unfold hexDigit. zcase; lia. Qed.

(** The [n] low digits of [r]. *)
Fixpoint hexText (n : nat) (r : Z) : list Z :=
  match n with
  | O => []
  | S n => hexDigit (r / 16 ^ Z.of_nat n mod 16) :: hexText n r
  end.

Lemma hexText_length n r : length (hexText n r) = n.
Proof. induction n; cbn; congruence. Qed.

Lemma nibble r k : 0 <= k -> Z.land (Z.shiftr r (4 * k)) 0xF = r / 16 ^ k mod 16.
Proof.
  intros Hk. rewrite shiftr_div by lia. rewrite (land_ones' _ 4) by lia. by rewrite Z.pow_mul_r by lia.
Qed.

Lemma mod16 x : 0 <= x mod 16 < 16.
Proof. apply Z.mod_pos_bound. lia. Qed.

Lemma appendHex_Ok buf k : 0 <= k < 16 -> appendHex buf k = Ok (buf ++ [hexDigit k]).
Proof. intros Hk. unfold appendHex. by rewrite lowerhex_idx. Qed.

Lemma appendNibbles_text n : forall buf r, (n <= 8)%nat ->
  appendNibbles buf r (4 * (Z.of_nat n - 1)) = Ok (buf ++ hexText n r).
Proof.
  unfold appendNibbles. intros buf r Hn. assert (Hf : (n < 9)%nat) by lia. clear Hn.
  generalize dependent 9%nat. revert buf. induction n as [|n IH]; intros buf [|f] Hf; try lia; cbn [loop].
  - cbn. by rewrite app_nil_r.
  - destruct (Z.geb_spec (4 * (Z.of_nat (S n) - 1)) 0); [|lia].
    replace (4 * (Z.of_nat (S n) - 1)) with (4 * Z.of_nat n) by lia.
    rewrite nibble by lia. rewrite appendHex_Ok by apply mod16. cbn [rbind].
    replace (4 * Z.of_nat n - 4) with (4 * (Z.of_nat n - 1)) by lia.
    rewrite IH by lia. cbn [hexText]. by rewrite <- app_assoc.
Qed.

Lemma appendHex_byte buf b : byte_ok b ->
  (let! buf := appendHex buf (Z.shiftr b 4) in appendHex buf (Z.land b 0xF)) = Ok (buf ++ hexText 2 b).
Proof.
  unfold byte_ok. intros Hb. rewrite shiftr_div, (land_ones' _ 4) by lia.
  rewrite appendHex_Ok by zdm. cbn [rbind]. rewrite appendHex_Ok by apply mod16.
  cbn [hexText]. rewrite <- app_assoc. cbn [app]. do 2 f_equal.
  change (16 ^ Z.of_nat 1) with 16. change (16 ^ Z.of_nat 0) with 1. rewrite Z.div_1_r. f_equal.
  rewrite (Z.mod_small (b / 16) 16); [done|zdm].
Qed.

(** The loop of UnquoteChar reads [n] digits of [r] after the value [v]. *)
Lemma hexValue_digits n : forall pre r rest v f,
  0 <= r -> v * 16 ^ Z.of_nat n + r mod 16 ^ Z.of_nat n < 2 ^ 31 -> 0 <= v -> (n < f)%nat ->
  loop f (fun '(v, j) =>
    if j <? len pre + Z.of_nat n then
      let! c := idx (pre ++ hexText n r ++ rest) j in
      let '(x, ok) := unhex c in
      if negb ok then Ok (inr None) else Ok (inl (Z.lor (i32 (Z.shiftl v 4)) x, j + 1))
    else Ok (inr (Some v))) (v, len pre)
  = Ok (Some (v * 16 ^ Z.of_nat n + r mod 16 ^ Z.of_nat n)).
Proof.
  induction n as [|n IH]; intros pre r rest v [|f] Hr Hb Hv Hf; try lia.
  { cbn [loop]. destruct (Z.ltb_spec (len pre) (len pre + Z.of_nat 0)); [lia|].
    cbn. rewrite Z.mod_1_r. do 2 f_equal. lia. }
  cbn [loop]. destruct (Z.ltb_spec (len pre) (len pre + Z.of_nat (S n))); [|lia]. cbn [hexText app].
  rewrite idx_app by done. cbn [rbind]. rewrite unhex_hexDigit by apply mod16. cbn [negb rbind].
  set (d := r / 16 ^ Z.of_nat n mod 16). assert (Hd : 0 <= d < 16) by apply mod16.
  assert (Hpow : 16 ^ Z.of_nat (S n) = 16 * 16 ^ Z.of_nat n) by (rewrite Nat2Z.inj_succ, Z.pow_succ_r by lia; done).
  assert (0 < 16 ^ Z.of_nat n) by lia.
  assert (Hm : r mod 16 ^ Z.of_nat (S n) = d * 16 ^ Z.of_nat n + r mod 16 ^ Z.of_nat n).
  { rewrite Hpow, Z.mul_comm, Z.rem_mul_r by lia. fold d. lia. }
  pose proof (Z.mod_pos_bound r (16 ^ Z.of_nat n) ltac:(lia)).
  rewrite shiftl_mul, i32_id by (rewrite ?Hm in Hb; nia). rewrite (lor_disjoint_mul v d 4) by lia.
  replace (v * 2 ^ 4 + d) with (v * 16 + d) by lia.
  specialize (IH (pre ++ [hexDigit d]) r rest (v * 16 + d) f). rewrite len_app in IH.
  change (len [hexDigit d]) with 1 in IH. rewrite <- app_assoc in IH. cbn [app] in IH.
  replace (len pre + Z.of_nat (S n)) with (len pre + 1 + Z.of_nat n) by lia.
  rewrite IH by (try lia; rewrite Hm in Hb; nia). do 2 f_equal. rewrite Hm, Hpow. ring.
Qed.

Lemma hexValue_Ok n r rest :
  0 <= r < 16 ^ Z.of_nat n -> r < 2 ^ 31 ->
  hexValue (hexText n r ++ rest) (Z.of_nat n) = Ok (Some r).
Proof.
  intros Hr Hb. pose proof (hexValue_digits n [] r rest 0 (S (Z.to_nat (Z.of_nat n)))) as H.
  cbn [app] in H. change (len (@nil Z)) with 0 in H. rewrite !Z.add_0_l, Z.mod_small in H by lia.
  apply H; lia.
Qed.

(** ** Runes with a multi-byte encoding *)

Lemma utf8_encode_high r : scalar r -> 0x80 <= r -> Forall (fun b => 0x80 <= b < 256) (utf8_encode r).
Proof.
  unfold scalar, utf8_encode. intros Hr Hge. rewrite (proj2 (Z.ltb_ge _ _)) by lia.
  repeat zcase; repeat constructor; zdm.
Qed.

Lemma utf8_encode_low r : r < 0x80 -> utf8_encode r = [r].
Proof. intros Hr. unfold utf8_encode. by rewrite (proj2 (Z.ltb_lt _ _)) by lia. Qed.

Lemma decode_encode r rest : scalar r -> bytes_ok rest ->
  DecodeRuneInString (utf8_encode r ++ rest) = Ok (r, len (utf8_encode r)).
Proof.
  intros Hr Hb. rewrite DecodeRuneInString_eq, DecodeRune_ref by (by apply Forall_app_2; [apply utf8_encode_ok|]).
  by rewrite decode_ref_encode.
Qed.

Lemma slice_from_app {A} (a b : list A) n : n = len a -> slice_from (a ++ b) n = Ok b.
Proof. intros ->. rewrite slice_from_Ok by len_lia. by rewrite drop_len_app. Qed.

(** ** Chunks *)

(** The bytes the loop of unquote appends for a character. *)
Definition emit (v : Z) (multibyte : bool) : list Z :=
  if (v <? RuneSelf) || negb multibyte then [u8 v] else encoded v.

Lemma emit_append buf v mb : - 2 ^ 31 <= v < 2 ^ 31 ->
  (if (v <? RuneSelf) || negb mb then buf ++ [u8 v] else AppendRune buf v) = buf ++ emit v mb.
Proof. intros Hv. unfold emit. destruct (_ || _); [done|]. by apply AppendRune_spec. Qed.

Lemma emit_scalar r : scalar r -> emit r true = utf8_encode r.
Proof.
  intros Hr. unfold emit, RuneSelf. rewrite orb_false_r. destruct (Z.ltb_spec r 128).
  - rewrite u8_id by (unfold scalar in Hr; lia). by rewrite utf8_encode_low.
  - unfold encoded. by rewrite (proj2 (ValidRune_scalar r)).
Qed.

Section Chunks.
Context (quote : Z) (Hquote : quote = squote \/ quote = dquote).

(** [e] stands for the bytes [w] between two [quote]s: reading [e] gives [w],
    and [e] is [w] itself or starts with a backslash. *)
Record chunk (w e : list Z) : Prop := {
  chunk_bytes : bytes_ok e;
  chunk_reads : forall rest, bytes_ok rest -> exists v mb,
    UnquoteChar (e ++ rest) quote = Ok (v, mb, rest, None) /\ - 2 ^ 31 <= v < 2 ^ 31 /\ emit v mb = w;
  chunk_head : exists c t, e = c :: t /\ c <> quote /\ c <> 10 /\
    (c = 92 \/ e = w /\ quote ∉ e);
}.

Lemma chunk_raw r : scalar r -> r <> quote -> r <> 92 -> r <> 10 -> chunk (utf8_encode r) (utf8_encode r).
Proof.
  intros Hr Hq Hb Hn. pose proof (utf8_encode_ok r Hr) as Hok.
  destruct (decide (r < 0x80)) as [Hlt|Hge].
  - rewrite utf8_encode_low in * by done. split; [done| |].
    + intros rest Hrest. exists r, false. split; [|split; [unfold scalar in Hr; lia|]].
      * unfold UnquoteChar. cbn [app]. destruct (Z.eqb_spec (len (r :: rest)) 0); [len_lia|].
        cbn [idx]. rewrite (idx_Ok _ 0 r) by done. cbn [rbind]. rewrite (proj2 (Z.eqb_neq r quote)) by done. cbn [andb].
        unfold RuneSelf. destruct (Z.geb_spec r 128); [lia|]. change (ch "\") with 92.
        rewrite (proj2 (Z.eqb_neq r 92)) by done. cbn [negb].
        by rewrite (slice_from_app [r] rest).
      * unfold emit. rewrite orb_true_r. by rewrite u8_id by (unfold scalar in Hr; lia).
    + exists r, []. repeat split; try done. right. split; [done|]. by intros ?%list_elem_of_singleton.
  - pose proof (utf8_encode_high r Hr ltac:(lia)) as Hhi.
    destruct (utf8_encode r) as [|c t] eqn:E; [pose proof (utf8_encode_nonempty r); rewrite E in *; len_lia|].
    rewrite Forall_forall in Hhi. pose proof (Hhi c ltac:(left)) as Hc. unfold squote, dquote in Hquote. split; [done| |].
    + intros rest Hrest. exists r, true. split; [|split; [unfold scalar in Hr; lia|rewrite emit_scalar; done]].
      pose proof (decode_encode r rest Hr Hrest) as Hd. rewrite E in Hd. unfold UnquoteChar.
      destruct (Z.eqb_spec (len ((c :: t) ++ rest)) 0); [len_lia|].
      rewrite (idx_Ok _ 0 c) by done. cbn [rbind]. rewrite (proj2 (Z.eqb_neq c quote)) by lia. cbn [andb].
      unfold RuneSelf. destruct (Z.geb_spec c 128); [|lia]. rewrite Hd. cbn [rbind].
      by rewrite slice_from_app.
    + exists c, t. repeat split; try lia. right. split; [done|]. intros Hin. specialize (Hhi quote Hin). cbn in Hhi. lia.
Qed.

Lemma chunk_escape c t w :
  byte_ok c -> bytes_ok t ->
  (forall rest, bytes_ok rest -> exists v mb,
    unquoteEscape c (t ++ rest) quote = Ok (v, mb, rest, None) /\ - 2 ^ 31 <= v < 2 ^ 31 /\ emit v mb = w) ->
  chunk w (92 :: c :: t).
Proof.
  intros Hc Ht Hread. split.
  - constructor; [unfold byte_ok; lia|by constructor].
  - intros rest Hrest. destruct (Hread rest Hrest) as (v & mb & He & Hv). exists v, mb. split; [|done].
    rewrite <- He. unfold UnquoteChar. cbn [app]. destruct (Z.eqb_spec (len (92 :: c :: t ++ rest)) 0); [len_lia|].
    rewrite (idx_Ok _ 0 92) by done. cbn [rbind].
    rewrite (proj2 (Z.eqb_neq 92 quote)) by (unfold squote, dquote in Hquote; lia). cbn [andb].
    change (92 >=? RuneSelf) with false. change (negb (92 =? ch "\")) with false. cbn match.
    destruct (Z.leb_spec (len (92 :: c :: t ++ rest)) 1); [len_lia|].
    rewrite (idx_Ok _ 1 c) by done. cbn [rbind]. by rewrite (slice_from_app [92; c] (t ++ rest)).
  - exists 92, (c :: t). unfold squote, dquote in Hquote. repeat split; try lia; by left.
Qed.

(** The one-character escapes. *)
Lemma chunk_simple c v : byte_ok c -> 0 <= v < 128 ->
  (forall s, unquoteEscape c s quote = Ok (v, false, s, None)) -> chunk [v] [92; c].
Proof.
  intros Hc Hv He. apply chunk_escape; [done|constructor|]. intros rest _. exists v, false.
  split; [apply He|]. split; [lia|]. unfold emit. rewrite orb_true_r. by rewrite u8_id by lia.
Qed.

Lemma hexText_ok n r : bytes_ok (hexText n r).
Proof.
  induction n as [|n IH]; constructor; [|done]. pose proof (hexDigit_plain _ (mod16 (r / 16 ^ Z.of_nat n))).
  unfold byte_ok. lia.
Qed.

(** The letter of a hexadecimal escape, its number of digits, and whether it
    stands for a rune. *)
Definition hexEscape (c n : Z) (mb : bool) : Prop :=
  (c, n, mb) = (ch "x", 2, false) \/ (c, n, mb) = (ch "u", 4, true) \/ (c, n, mb) = (ch "U", 8, true).

Lemma unquoteEscape_hex c n mb t : hexEscape c n mb ->
  unquoteEscape c t quote =
    if len t <? n then charError else
    let! v := hexValue t n in
    match v with
    | None => charError
    | Some v =>
        let! s := slice_from t n in
        if negb mb then Ok (v, false, s, None)
        else if negb (ValidRune v) then charError else Ok (v, true, s, None)
    end.
Proof. by intros [[= -> -> ->]|[[= -> -> ->]|[= -> -> ->]]]. Qed.

Lemma chunk_hex c n r mb :
  hexEscape c (Z.of_nat n) mb -> (mb = true -> scalar r) ->
  0 <= r < 16 ^ Z.of_nat n -> r < 2 ^ 31 ->
  chunk (emit r mb) (92 :: c :: hexText n r).
Proof.
  intros Hc Hs Hr Hr'. apply chunk_escape; [|apply hexText_ok|].
  { destruct Hc as [[= -> _ _]|[[= -> _ _]|[= -> _ _]]]; apply ch_ok. }
  intros rest Hrest. exists r, mb. split; [|split; [lia|done]].
  pose proof (hexText_length n r) as Hl. rewrite (unquoteEscape_hex _ _ _ _ Hc).
  rewrite (proj2 (Z.ltb_ge _ _)).
  2: { rewrite len_app. unfold len at 1. rewrite Hl. pose proof (len_nonneg rest). lia. }
  rewrite hexValue_Ok by done. cbn [rbind].
  rewrite slice_from_app by (unfold len; by rewrite Hl). cbn [rbind].
  destruct mb; [|done]. cbn [negb]. by rewrite (proj2 (ValidRune_scalar r)) by auto.
Qed.

(** What may be left as it is: printable or graphic, so never a newline. *)
Lemma IsPrint_scalar r : scalar r -> exists p, IsPrint r = Ok p /\ (p = true -> r <> 10).
Proof.
  intros Hr. exists (printable r). split.
  - rewrite IsPrint_spec by (unfold scalar in Hr; lia).
    by rewrite (proj2 (Z.leb_le 0 r)) by (unfold scalar in Hr; lia).
  - intros Hp ->. by vm_compute in Hp.
Qed.

Lemma graphic_scalar r : scalar r -> exists p, isInGraphicList r = Ok p /\ (p = true -> r <> 10).
Proof.
  intros Hr. exists (bool_decide (r ∈ isGraphic)). split.
  - apply isInGraphicList_spec. unfold scalar in Hr. lia.
  - intros Hp ->. by vm_compute in Hp.
Qed.

Lemma plain_scalar (g : bool) r : scalar r -> exists p,
  (let! p := IsPrint r in if (p : bool) then Ok true else if g then isInGraphicList r else Ok false) = Ok p /\
  (p = true -> r <> 10).
Proof.
  intros Hr. destruct (IsPrint_scalar r Hr) as (p & -> & Hp). cbn [rbind].
  destruct p; [by exists true; auto|]. destruct g; [by apply graphic_scalar|by exists false].
Qed.

(** The last part of appendEscapedRune, where the rune is not left as it is. *)
Lemma escaped_control r : scalar r -> exists e, chunk (utf8_encode r) e /\ forall buf,
  (if r =? 7 then Ok (buf ++ str "\a")
   else if r =? 8 then Ok (buf ++ str "\b")
   else if r =? 12 then Ok (buf ++ str "\f")
   else if r =? 10 then Ok (buf ++ str "\n")
   else if r =? 13 then Ok (buf ++ str "\r")
   else if r =? 9 then Ok (buf ++ str "\t")
   else if r =? 11 then Ok (buf ++ str "\v")
   else if (r <? ch " ") || (r =? 0x7f) then
     let! buf := appendHex (buf ++ str "\x") (Z.shiftr (u8 r) 4) in
     appendHex buf (Z.land (u8 r) 0xF)
   else if negb (ValidRune r) then appendNibbles (buf ++ str "\u") 0xFFFD 12
   else if r <? 0x10000 then appendNibbles (buf ++ str "\u") r 12
   else appendNibbles (buf ++ str "\U") r 28) = Ok (buf ++ e).
Proof.
  intros Hr.
  repeat match goal with |- context [r =? ?k] => lazymatch k with 127 => fail | _ =>
    destruct (Z.eqb_spec r k) as [->|_];
      [eexists; split; [|intros; reflexivity]; by apply chunk_simple; [apply ch_ok| |]|] end end.
  rewrite (proj2 (ValidRune_scalar r)) by done. cbn [negb]. change (ch " ") with 32.
  destruct ((r <? 32) || (r =? 127)) eqn:Ec.
  - assert (Hlt : 0 <= r < 128) by (unfold scalar in Hr; revert Ec; repeat zcase; cbn; (done || lia)).
    exists (92 :: ch "x" :: hexText 2 r). split.
    + replace (utf8_encode r) with (emit r false).
      * apply (chunk_hex _ 2); [by left|done|cbn; lia|lia].
      * unfold emit. rewrite orb_true_r. rewrite u8_id by lia. by rewrite utf8_encode_low by lia.
    + intros buf. rewrite u8_id by lia. rewrite appendHex_byte by (unfold byte_ok; lia). by rewrite <- app_assoc.
  - destruct (Z.ltb_spec r 0x10000).
    + exists (92 :: ch "u" :: hexText 4 r). split.
      * rewrite <- emit_scalar by done. apply (chunk_hex _ 4); [by right; left|done|cbn|]; unfold scalar in Hr; lia.
      * intros buf. change 12 with (4 * (Z.of_nat 4 - 1)). rewrite appendNibbles_text by lia. by rewrite <- app_assoc.
    + exists (92 :: ch "U" :: hexText 8 r). split.
      * rewrite <- emit_scalar by done. apply (chunk_hex _ 8); [by right; right|done|cbn|]; unfold scalar in Hr; lia.
      * intros buf. change 28 with (4 * (Z.of_nat 8 - 1)). rewrite appendNibbles_text by lia. by rewrite <- app_assoc.
Qed.

Lemma appendEscapedRune_chunk r a g : scalar r ->
  exists e, chunk (utf8_encode r) e /\ forall buf, appendEscapedRune buf r quote a g = Ok (buf ++ e).
Proof.
  intros Hr. unfold appendEscapedRune. change (ch "\") with 92.
  destruct ((r =? quote) || (r =? 92)) eqn:Eq.
  { assert (Hrq : r = quote \/ r = 92) by (revert Eq; repeat zcase; done || auto).
    unfold squote, dquote in Hquote. exists [92; r]. rewrite utf8_encode_low by lia. split.
    - apply chunk_simple; [unfold byte_ok; lia|lia|]. intros s.
      destruct Hrq as [->| ->]; [|reflexivity]. by destruct Hquote as [-> | ->].
    - intros buf. rewrite u8_id by lia. by rewrite <- app_assoc. }
  assert (Hne : r <> quote /\ r <> 92) by (revert Eq; repeat zcase; done). destruct Hne as [Hq Hb].
  destruct (escaped_control r Hr) as (e & He & Hbuf). destruct a.
  - unfold RuneSelf. destruct (Z.ltb_spec r 128); [|by exists e].
    destruct (IsPrint_scalar r Hr) as ([|] & -> & Hp); [|by exists e].
    exists (utf8_encode r). split; [by apply chunk_raw; auto|]. intros buf. cbn.
    rewrite u8_id by (unfold scalar in Hr; lia). by rewrite utf8_encode_low by lia.
  - destruct (plain_scalar g r Hr) as (p & Hp & Hn). destruct (IsPrint r) as [p0| |]; try done.
    cbn [rbind] in *. rewrite Hp. cbn [rbind]. destruct p; [|by exists e].
    exists (utf8_encode r). split; [by apply chunk_raw; auto|]. intros buf.
    rewrite AppendRune_spec by (unfold scalar in Hr; lia). unfold encoded. by rewrite (proj2 (ValidRune_scalar r)).
Qed.
End Chunks.

(** ** Quoted strings *)

(** [b] is [s] written chunk by chunk. *)
Inductive escapes (quote : Z) : list Z -> list Z -> Prop :=
| escapes_nil : escapes quote [] []
| escapes_cons w e s b : chunk quote w e -> escapes quote s b -> escapes quote (w ++ s) (e ++ b).

Lemma escapes_one quote w e : chunk quote w e -> escapes quote w e.
Proof.
  intros H. rewrite <- (app_nil_r w), <- (app_nil_r e). apply escapes_cons; [done|constructor].
Qed.

Lemma escapes_ok quote s b : escapes quote s b -> bytes_ok b.
Proof. induction 1 as [|w e s b Hc _ IH]; [constructor|]. apply Forall_app_2; [apply Hc|done]. Qed.

(** A byte that does not start a rune. *)
Lemma chunk_invalid quote b : quote = squote \/ quote = dquote -> byte_ok b ->
  chunk quote [b] (92 :: ch "x" :: hexText 2 b).
Proof.
  unfold byte_ok. intros Hq Hb. replace [b] with (emit b false).
  - apply (chunk_hex quote Hq _ 2); [by left|done|cbn; lia|lia].
  - unfold emit. rewrite orb_true_r. by rewrite u8_id.
Qed.

Section QuoteLoop.
Context (quote : Z) (Hquote : quote = squote \/ quote = dquote) (a g : bool).

Lemma quote_chunk c t : bytes_ok (c :: t) ->
  exists w e s, c :: t = w ++ s /\ w <> [] /\ chunk quote w e /\ bytes_ok s /\ forall buf,
  quoteStep quote a g (buf, c :: t) = Ok (inl (buf ++ e, s)).
Proof.
  intros Hok. pose proof Hok as [Hc Ht]%Forall_cons_1. unfold quoteStep. rewrite DecodeRuneInString_eq, DecodeRune_ref by done.
  destruct (Z.gtb_spec (len (c :: t)) 0); [|len_lia].
  destruct (decode_ref_sound (c :: t) Hok) as [(Hr & Hn & s & Hs)|Hbad]; [done| |].
  - destruct (decode_ref (c :: t)) as [r n]. cbn [fst snd rbind] in *. subst n.
    destruct (appendEscapedRune_chunk quote Hquote r a g Hr) as (e & He & Hbuf).
    exists (utf8_encode r), e, s. split; [done|]. split.
    { intros E. pose proof (utf8_encode_nonempty r). rewrite E in *. len_lia. }
    split; [done|]. rewrite Hs in Hok. apply Forall_app in Hok as [_ Hok]. split; [done|]. intros buf.
    assert ((len (utf8_encode r) =? 1) && (r =? RuneError) = false) as ->.
    { destruct (Z.eqb_spec (len (utf8_encode r)) 1) as [E|]; [|done]. destruct (utf8_encode_1 r Hr E) as [_ Hlt].
      apply Z.eqb_neq. unfold RuneError. lia. }
    rewrite Hbuf. cbn [rbind]. rewrite Hs. by rewrite slice_from_app.
  - rewrite Hbad. cbn [rbind]. exists [c], (92 :: ch "x" :: hexText 2 c), t.
    split; [done|]. split; [done|]. split; [by apply chunk_invalid|]. split; [done|]. intros buf.
    cbn [Z.eqb Pos.eqb andb]. rewrite Z.eqb_refl. rewrite (idx_Ok _ 0 c) by done. cbn [rbind].
    rewrite appendHex_byte by done. cbn [rbind]. rewrite (slice_from_app [c] t) by done. cbn [rbind].
    by rewrite <- app_assoc.
Qed.

Lemma quote_loop n : forall s, (length s <= n)%nat -> bytes_ok s -> exists b, escapes quote s b /\
  forall buf f, (length s < f)%nat ->
  loop f (quoteStep quote a g) (buf, s) = Ok (buf ++ b).
Proof.
  induction n as [|n IH]; intros s Hl Hok.
  { destruct s; [|cbn in Hl; lia]. exists []. split; [constructor|]. intros buf [|f] Hf; [lia|]. cbn.
    by rewrite app_nil_r. }
  destruct s as [|c t].
  { exists []. split; [constructor|]. intros buf [|f] Hf; [lia|]. cbn. by rewrite app_nil_r. }
  destruct (quote_chunk c t Hok) as (w & e & s & E & Hw & He & Hs & Hstep).
  assert (Hlen : (length s < length (c :: t))%nat).
  { rewrite E, length_app. destruct w; [done|cbn; lia]. }
  destruct (IH s ltac:(lia) Hs) as (b & Hb & Hloop). exists (e ++ b). split; [rewrite E; by constructor|].
  intros buf [|f] Hf; [lia|]. cbn [loop]. rewrite Hstep. cbn [rbind]. rewrite Hloop by lia. by rewrite app_assoc.
Qed.

Lemma appendQuotedWith_escapes s : bytes_ok s -> exists b, escapes quote s b /\
  forall buf, appendQuotedWith buf s quote a g = Ok (buf ++ quote :: b ++ [quote]).
Proof.
  intros Hok. destruct (quote_loop (length s) s (le_n _) Hok) as (b & Hb & Hloop). exists b. split; [done|].
  intros buf. unfold appendQuotedWith. rewrite Hloop by lia. cbn [rbind]. by rewrite <- !app_assoc.
Qed.
End QuoteLoop.

(** ** Finding the closing quote *)

Lemma indexFrom_absent c l : forall m i, c ∉ l -> indexFrom (l ++ m) c i = indexFrom m c (i + len l).
Proof.
  induction l as [|x l IH]; intros m i Hc; cbn [app indexFrom].
  - f_equal. len_lia.
  - apply not_elem_of_cons in Hc as [Hx Hc]. rewrite (proj2 (Z.eqb_neq x c)) by done.
    rewrite IH by done. f_equal. len_lia.
Qed.

Lemma indexFrom_present c l : forall i, c ∈ l -> i <= indexFrom l c i < i + len l.
Proof.
  induction l as [|x l IH]; intros i Hc; [by apply elem_of_nil in Hc|]. cbn [indexFrom].
  destruct (Z.eqb_spec x c) as [|Hx]; [len_lia|]. apply elem_of_cons in Hc as [->|Hc]; [done|].
  specialize (IH (i + 1) Hc). len_lia.
Qed.

Lemma indexFrom_front c l m : forall i, c ∈ l -> indexFrom (l ++ m) c i = indexFrom l c i.
Proof.
  induction l as [|x l IH]; intros i Hc; [by apply elem_of_nil in Hc|]. cbn [app indexFrom].
  destruct (Z.eqb_spec x c) as [|Hx]; [done|]. apply elem_of_cons in Hc as [->|Hc]; [done|]. by apply IH.
Qed.

Lemma indexFrom_missing c l : forall i, c ∉ l -> indexFrom l c i = -1.
Proof.
  intros i Hc. pose proof (indexFrom_absent c l [] i Hc) as H. by rewrite app_nil_r in H.
Qed.

Lemma indexFrom_shift c l : forall i, c ∈ l -> indexFrom l c i = i + index l c.
Proof.
  enough (H : forall i j, c ∈ l -> indexFrom l c (i + j) = i + indexFrom l c j).
  { intros i Hc. rewrite <- (Z.add_0_r i) at 1. by apply H. }
  induction l as [|x l IH]; intros i j Hc; [by apply elem_of_nil in Hc|]. cbn [indexFrom].
  destruct (Z.eqb_spec x c) as [|Hx]; [done|]. apply elem_of_cons in Hc as [->|Hc]; [done|].
  rewrite <- IH by done. f_equal. lia.
Qed.

Lemma contains_spec l c : contains l c = true <-> c ∈ l.
Proof.
  unfold contains, index. destruct (decide (c ∈ l)) as [Hin|Hn].
  - pose proof (indexFrom_present c l 0 Hin). rewrite (proj2 (Z.eqb_neq _ _)) by lia. done.
  - rewrite indexFrom_missing by done. done.
Qed.

(** Before a backslash the quote found is the closing one, and what it closes
    is the string itself. *)
Lemma escapes_index quote s b rest : escapes quote s b -> quote <> 92 ->
  let k := index (b ++ quote :: rest) quote in
  0 <= k <= len b /\ (92 ∉ take (Z.to_nat (k + 1)) (b ++ quote :: rest) -> b = s /\ k = len b).
Proof.
  intros Hesc Hq. induction Hesc as [|w e s b Hc Hesc IH]; cbn zeta in *.
  { unfold index. cbn [app indexFrom]. rewrite Z.eqb_refl. done. }
  destruct IH as [Hk IH]. rewrite <- app_assoc.
  assert (Hin : quote ∈ b ++ quote :: rest) by (apply elem_of_app; right; left).
  destruct Hc as [_ _ (c & t & -> & Hcq & _ & Hplain)].
  destruct Hplain as [->|[Ee Hne]].
  - assert (Hidx : index ((92 :: t) ++ b ++ quote :: rest) quote = indexFrom (t ++ b ++ quote :: rest) quote 1).
    { unfold index. cbn [app indexFrom]. by rewrite (proj2 (Z.eqb_neq 92 quote)). }
    assert (Hin' : quote ∈ t ++ b ++ [quote]) by (rewrite !elem_of_app; right; right; left).
    pose proof (indexFrom_present quote (t ++ b ++ [quote]) 1 Hin') as Hp.
    assert (Hpre : indexFrom (t ++ b ++ quote :: rest) quote 1 = indexFrom (t ++ b ++ [quote]) quote 1).
    { rewrite <- (indexFrom_front quote _ rest 1 Hin'). by rewrite <- !app_assoc. }
    rewrite Hidx, Hpre. split; [len_lia|]. intros Hn. exfalso. apply Hn.
    replace (Z.to_nat _) with (S (Z.to_nat (indexFrom (t ++ b ++ [quote]) quote 1))) by lia. left.
  - assert (Hidx : index ((c :: t) ++ b ++ quote :: rest) quote = len (c :: t) + index (b ++ quote :: rest) quote).
    { unfold index at 1. rewrite indexFrom_absent by done. rewrite Z.add_0_l. by apply indexFrom_shift. }
    rewrite Hidx. split; [len_lia|]. intros Hn. destruct IH as [-> ->].
    { intros H92. apply Hn. rewrite take_app_ge by (unfold len; lia). apply elem_of_app. right.
      by replace (_ - _)%nat with (Z.to_nat (index (b ++ quote :: rest) quote + 1)) by (unfold len; lia). }
    split; [by rewrite Ee|len_lia].
Qed.

(** ** The loop of unquote *)

Lemma chunk_step quote w e rest buf unescape :
  chunk quote w e -> bytes_ok rest ->
  unquoteStep quote unescape (e ++ rest, buf)
  = let out := (rest, if unescape then buf ++ w else buf) in
    if quote =? squote then Ok (inr (Some out)) else Ok (inl out).
Proof.
  intros [_ Hr (c & t & E & Hcq & Hcn & _)] Hrest. unfold unquoteStep.
  destruct (Hr rest Hrest) as (v & mb & Hread & Hv & Hemit).
  destruct (Z.gtb_spec (len (e ++ rest)) 0); [|rewrite E in *; len_lia].
  assert (Hi : idx (e ++ rest) 0 = Ok c) by (by rewrite E; apply idx_Ok). rewrite Hi. cbn [rbind].
  rewrite (proj2 (Z.eqb_neq c quote)) by done. cbn [negb]. rewrite Hread. cbn [rbind].
  rewrite (proj2 (Z.eqb_neq c 10)) by done. rewrite bool_decide_eq_false_2 by (by intros ?). cbn [orb].
  destruct unescape; [|done]. rewrite emit_append by done. by rewrite Hemit.
Qed.

Lemma unquoteLoop_double s b rest unescape :
  escapes dquote s b -> bytes_ok rest ->
  unquoteLoop (b ++ dquote :: rest) dquote unescape = Ok (Some (dquote :: rest, if unescape then s else [])).
Proof.
  intros Hesc Hrest. unfold unquoteLoop.
  enough (H : forall f buf, (length b < f)%nat ->
    loop f (unquoteStep dquote unescape) (b ++ dquote :: rest, buf)
    = Ok (Some (dquote :: rest, if unescape then buf ++ s else buf))).
  { rewrite H; [by destruct unescape|]. rewrite length_app. lia. }
  induction Hesc as [|w e s b Hc Hesc IH]; intros [|f] buf Hf; try lia.
  - cbn [loop app]. unfold unquoteStep at 1. destruct (Z.gtb_spec (len (dquote :: rest)) 0); [|len_lia].
    rewrite (idx_Ok _ 0 dquote) by done. cbn [rbind]. rewrite Z.eqb_refl. cbn. rewrite app_nil_r. by destruct unescape.
  - cbn [loop]. rewrite <- app_assoc.
    assert (Hb : bytes_ok (b ++ dquote :: rest)).
    { apply Forall_app_2; [by eapply escapes_ok|]. constructor; [unfold byte_ok, dquote; lia|done]. }
    rewrite (chunk_step dquote w e (b ++ dquote :: rest) buf unescape Hc Hb). cbn zeta.
    change (dquote =? squote) with false. cbn [rbind].
    assert (0 < length e)%nat by (destruct Hc as [_ _ (c & t & -> & _)]; cbn; lia).
    rewrite IH by (rewrite length_app in Hf; lia). destruct unescape; [|done]. by rewrite app_assoc.
Qed.

Lemma unquoteLoop_single w e rest unescape :
  chunk squote w e -> bytes_ok rest ->
  unquoteLoop (e ++ squote :: rest) squote unescape = Ok (Some (squote :: rest, if unescape then w else [])).
Proof.
  intros Hc Hrest. unfold unquoteLoop. cbn [loop].
  assert (Hb : bytes_ok (squote :: rest)) by (constructor; [unfold byte_ok, squote; lia|done]).
  by rewrite (chunk_step squote w e (squote :: rest) [] unescape Hc Hb).
Qed.

(** ** unquote on a quoted string *)

Section Unquoted.
Context (ptrSize : Z) (Hsize : ptrSize = 4 \/ ptrSize = 8).

Lemma valid_returns quote body end_ : bytes_ok body ->
  exists v, (if quote =? dquote then ValidString ptrSize body
    else let! '(r, n) := DecodeRuneInString body in
         Ok ((1 + n + 1 =? end_) && (negb (r =? RuneError) || negb (n =? 1)))) = Ok v.
Proof.
  intros Hok. destruct (quote =? dquote).
  - rewrite ValidString_eq. destruct (returns_inv _ _ (Valid_wf ptrSize body Hsize Hok)) as (v & -> & _). by exists v.
  - rewrite DecodeRuneInString_eq, DecodeRune_ref by done. destruct (decode_ref body). cbn. eauto.
Qed.

(** The search for the closing quote, for any quoted string. *)
Lemma unquote_head (quote : Z) b rest k :
  0 <= k <= len b ->
  slice (quote :: b ++ quote :: rest) 0 (k + 2) = Ok (quote :: take (Z.to_nat (k + 1)) (b ++ quote :: rest)) /\
  slice (quote :: b ++ quote :: rest) 1 (k + 2 - 1) = Ok (take (Z.to_nat k) (b ++ quote :: rest)).
Proof.
  intros Hk. split; rewrite slice_Ok by len_lia.
  - f_equal. rewrite Z.sub_0_r. cbn [drop Z.to_nat]. replace (Z.to_nat (k + 2)) with (S (Z.to_nat (k + 1))) by lia. done.
  - f_equal. replace (k + 2 - 1 - 1) with k by lia. done.
Qed.

(** The fast path: the literal has no escape. *)
Lemma unquote_fast (quote : Z) b rest :
  slice (quote :: b ++ quote :: rest) 0 (len b + 2) = Ok (quote :: b ++ [quote]) /\
  slice (quote :: b ++ [quote]) 1 (len b + 2 - 1) = Ok b /\
  slice_from (quote :: b ++ quote :: rest) (len b + 2) = Ok rest.
Proof.
  pose proof (len_nonneg b). split; [|split].
  - destruct (unquote_head quote b rest (len b)) as [-> _]; [lia|]. do 2 f_equal.
    change (b ++ quote :: rest) with (b ++ [quote] ++ rest). rewrite app_assoc.
    apply take_app_length'. rewrite length_app. unfold len. cbn. lia.
  - destruct (unquote_head quote b [] (len b)) as [_ ->]; [lia|]. f_equal.
    apply take_app_length'. unfold len. lia.
  - change (quote :: b ++ quote :: rest) with ((quote :: b) ++ [quote] ++ rest). rewrite app_assoc.
    apply slice_from_app. len_lia.
Qed.

(** The end of unquote, after its loop. *)
Lemma unquote_slow quote s b rest (unescape : bool) :
  let in0 := quote :: b ++ quote :: rest in
  unquoteLoop (b ++ quote :: rest) quote unescape = Ok (Some (quote :: rest, if unescape then s else [])) ->
  (let! in_ := slice_from in0 1 in
   let! r := unquoteLoop in_ quote unescape in
   match r with
   | None => Ok ([], in0, Some ErrSyntax)
   | Some (in_, buf) =>
       let! closed := if len in_ >? 0 then (let! c := idx in_ 0 in Ok (c =? quote)) else Ok false in
       if negb closed then Ok ([], in0, Some ErrSyntax) else
       let! in_ := slice_from in_ 1 in
       if unescape then Ok (buf, in_, None)
       else
         let! out := slice in0 0 (len in0 - len in_) in
         Ok (out, in_, None)
   end) = Ok (if unescape then s else quote :: b ++ [quote], rest, None).
Proof.
  intros in0 Hloop. unfold in0 at 1. rewrite (slice_from_app [quote] (b ++ quote :: rest)) by done. cbn [rbind].
  rewrite Hloop. cbn [rbind]. destruct (Z.gtb_spec (len (quote :: rest)) 0); [|len_lia].
  rewrite (idx_Ok _ 0 quote) by done. cbn [rbind]. rewrite Z.eqb_refl. cbn [negb].
  rewrite (slice_from_app [quote] rest) by done. cbn [rbind]. destruct unescape; [done|].
  replace (len in0 - len rest) with (len b + 2) by (unfold in0; len_lia).
  unfold in0. by rewrite (proj1 (unquote_fast quote b rest)).
Qed.

Lemma unquote_quoted quote s b rest unescape :
  quote = squote \/ quote = dquote -> escapes quote s b -> bytes_ok rest ->
  unquoteLoop (b ++ quote :: rest) quote unescape = Ok (Some (quote :: rest, if unescape then s else [])) ->
  unquote ptrSize (quote :: b ++ quote :: rest) unescape
  = Ok (if unescape then s else quote :: b ++ [quote], rest, None).
Proof.
  intros Hq Hesc Hrest Hloop. unfold squote, dquote in Hq. pose proof (escapes_ok _ _ _ Hesc) as Hb.
  destruct (escapes_index quote s b rest Hesc ltac:(lia)) as [Hk Hplain]. revert Hk Hplain.
  pose proof (unquote_slow quote s b rest unescape Hloop) as Hslow. cbn zeta in Hslow. revert Hslow.
  destruct (unquote_fast quote b rest) as (F1 & F2 & F3). revert F1 F2 F3.
  generalize (slice_from_app [quote] (b ++ quote :: rest) 1 eq_refl). cbn [app].
  pose proof (unquote_head quote b rest). revert H.
  assert (Hlen : (len (quote :: b ++ quote :: rest) <? 2) = false) by (apply Z.ltb_ge; len_lia). revert Hlen.
  assert (Hi : idx (quote :: b ++ quote :: rest) 0 = Ok quote) by done. revert Hi.
  unfold unquote. set (all := quote :: b ++ quote :: rest). set (k := index (b ++ quote :: rest) quote).
  intros Hi -> Hhead H1 F1 F2 F3 Hslow Hk Hplain. destruct (Hhead k Hk) as [Hh Hbody].
  rewrite Hi. cbn [rbind]. rewrite H1 in *. cbn [rbind] in *. fold k. rewrite (proj2 (Z.ltb_ge k 0)) by lia.
  rewrite Hh. cbn [rbind]. change (ch "`") with 96. change (ch "\") with 92.
  rewrite (proj2 (Z.eqb_neq quote 96)) by lia.
  assert (Hqq : (quote =? dquote) || (quote =? squote) = true) by (by destruct Hq as [-> | ->]). rewrite Hqq.
  set (head := quote :: take _ _) in *. destruct (contains head 92) eqn:E92; [exact Hslow|].
  destruct (contains head 10); [exact Hslow|]. cbn [negb andb]. rewrite Hbody. cbn [rbind].
  assert (Hn : 92 ∉ head) by (rewrite <- contains_spec; by rewrite E92).
  destruct Hplain as [<- Hk']; [intros ?; apply Hn; by right|].
  destruct (valid_returns quote (take (Z.to_nat k) (b ++ quote :: rest)) (k + 2)) as [[|] ->];
    [apply Forall_take, Forall_app_2; [done|constructor; [unfold byte_ok; lia|done]]| |exact Hslow].
  cbn [rbind]. clearbody head. rewrite Hk' in *. rewrite F3. rewrite Hh in F1.
  assert (head = quote :: b ++ [quote]) as -> by congruence. destruct unescape; [by rewrite F2|done].
Qed.
End Unquoted.

(** ** The theorems *)

(** C28: Unquote undoes Quote, QuoteToASCII and QuoteToGraphic: for every byte
    string, valid UTF-8 or not, the quoted form unquotes without an error to
    exactly the same bytes. *)
Theorem Unquote_Quote ptrSize s :
  ptrSize = 4 \/ ptrSize = 8 -> bytes_ok s ->
  (let! q := Quote s in Unquote ptrSize q) = Ok (s, None) /\
  (let! q := QuoteToASCII s in Unquote ptrSize q) = Ok (s, None) /\
  (let! q := QuoteToGraphic s in Unquote ptrSize q) = Ok (s, None).
Proof.
  intros Hsize Hok.
  assert (H : forall a g, (let! q := quoteWith s dquote a g in Unquote ptrSize q) = Ok (s, None)); [|split; [apply H|split; apply H]].
  intros a g. destruct (appendQuotedWith_escapes dquote ltac:(by right) a g s Hok) as (b & Hb & Hq).
  unfold quoteWith, Unquote. rewrite Hq. cbn [app rbind].
  rewrite (unquote_quoted ptrSize Hsize dquote s b [] true); [done|by right|done|constructor|].
  apply (unquoteLoop_double s b [] true); [done|constructor].
Qed.

Lemma Unquote_Quote_witness :
  (let! q := Quote [104; 10; 34; 255; 226; 152; 186] in Unquote 8 q) = Ok ([104; 10; 34; 255; 226; 152; 186], None).
Proof.
  refine (proj1 (Unquote_Quote 8 [104; 10; 34; 255; 226; 152; 186] _ _)); [by right|]. apply (bool_decide_unpack _). reflexivity.
Defined.

(** Unquote undoes QuoteRune, QuoteRuneToASCII and QuoteRuneToGraphic: for
    every rune, the character literal unquotes to the UTF-8 encoding of the
    rune, or of U+FFFD for a value that is not a Unicode scalar. *)
Theorem Unquote_QuoteRune ptrSize r :
  ptrSize = 4 \/ ptrSize = 8 ->
  (let! q := QuoteRune r in Unquote ptrSize q) = Ok (encoded r, None) /\
  (let! q := QuoteRuneToASCII r in Unquote ptrSize q) = Ok (encoded r, None) /\
  (let! q := QuoteRuneToGraphic r in Unquote ptrSize q) = Ok (encoded r, None).
Proof.
  intros Hsize.
  assert (H : forall a g, (let! q := quoteRuneWith r squote a g in Unquote ptrSize q) = Ok (encoded r, None));
    [|split; [apply H|split; apply H]].
  intros a g. destruct (encoded_scalar r) as (r' & Hr & -> & E). unfold quoteRuneWith, appendQuotedRuneWith.
  replace (if negb (ValidRune r) then RuneError else r) with r' by (rewrite E; by destruct (ValidRune r)).
  destruct (appendEscapedRune_chunk squote ltac:(by left) r' a g Hr) as (e & He & Hbuf).
  rewrite Hbuf. cbn [app rbind]. unfold Unquote.
  rewrite (unquote_quoted ptrSize Hsize squote (utf8_encode r') e [] true); [done|by left|by apply escapes_one|constructor|].
  apply (unquoteLoop_single _ e [] true); [done|constructor].
Qed.

Lemma Unquote_QuoteRune_witness :
  (let! q := QuoteRuneToASCII 0x1F600 in Unquote 8 q) = Ok (encoded 0x1F600, None).
Proof. refine (proj1 (proj2 (Unquote_QuoteRune 8 0x1F600 _))). by right. Defined.

(** QuotedPrefix recognises a quoted string wherever it ends: on the output
    of Quote followed by any bytes it returns that output, quotes included. *)
Theorem QuotedPrefix_Quote ptrSize s rest :
  ptrSize = 4 \/ ptrSize = 8 -> bytes_ok s -> bytes_ok rest ->
  (let! q := Quote s in let! '(p, err) := QuotedPrefix ptrSize (q ++ rest) in
   Ok (bool_decide (p = q), err)) = Ok (true, None).
Proof.
  intros Hsize Hok Hrest. destruct (appendQuotedWith_escapes dquote ltac:(by right) false false s Hok) as (b & Hb & Hq).
  unfold Quote, quoteWith, QuotedPrefix. rewrite Hq. cbn [app rbind]. rewrite <- app_assoc. cbn [app].
  rewrite (unquote_quoted ptrSize Hsize dquote s b rest false); [|by right|done|done|by apply (unquoteLoop_double s b rest false)].
  cbn [rbind]. by rewrite bool_decide_eq_true_2.
Qed.

Lemma QuotedPrefix_Quote_witness :
  (let! q := Quote (str "a\b") in let! '(p, err) := QuotedPrefix 8 (q ++ str " rest") in
   Ok (bool_decide (p = q), err)) = Ok (true, None).
Proof. refine (QuotedPrefix_Quote 8 (str "a\b") (str " rest") _ _ _); [by right|apply str_ok|apply str_ok]. Defined.
