(* ===== verification/QuoteSafe.v ===== *)
(** * Package strconv: unquoting arbitrary input

    unquote on any bytes returns without a panic; what it accepts is a prefix
    of its input.  CanBackquote is what Unquote needs of a raw string. *)
From Stdlib Require Import Ascii String ZArith Lia.
From stdpp Require Import base numbers list.
From S2P Require Import Prelude Utf8 IsPrint Quote QuoteCorrect.

(** [t] is a proper suffix of [s]. *)
Definition shorter (t s : list Z) : Prop := exists p, p <> [] /\ s = p ++ t.

Lemma slice_from_shorter s n : 0 < n <= len s -> slice_from s n ⇓ (fun t => shorter t s).
Proof.
  intros Hn. rewrite slice_from_Ok by lia. cbn. exists (take (Z.to_nat n) s). rewrite take_drop. split; [|done].
  intros H%(f_equal length). rewrite length_take in H. unfold len in Hn. cbn in H. lia.
Qed.

Lemma shorter_trans a b c : shorter a b -> shorter b c -> shorter a c.
Proof.
  intros (p & Hp & ->) (q & Hq & ->). exists (q ++ p). split; [by destruct q|by rewrite app_assoc].
Qed.

Lemma idx_total {A} (l : list A) i : 0 <= i < len l -> idx l i ⇓ (fun _ => True).
Proof. intros Hi. by apply idx_returns. Qed.

(** What a call of UnquoteChar on [s] gives: an error, or less input. *)
Definition charOutcome (s : list Z) (r : unquoted) : Prop :=
  let '(_, _, tail, err) := r in err = None -> shorter tail s.

Lemma hexValue_returns s n : 0 <= n <= len s -> hexValue s n ⇓ (fun _ => True).
Proof.
  intros Hn. apply (loop_returns (fun '(_, j) => 0 <= j <= n) (fun '(_, j) => n - j)); [|lia..].
  intros [v j] Hj. destruct (Z.ltb_spec j n); [|done].
  eapply returns_bind_mono; [apply idx_total; lia|].
  intros c _. destruct (unhex c) as [x [|]]; cbn; lia.
Qed.

Lemma octValue_returns s v : 2 <= len s -> octValue s v ⇓ (fun _ => True).
Proof.
  intros Hn. apply (loop_returns (fun '(_, j) => 0 <= j <= 2) (fun '(_, j) => 2 - j)); [|lia..].
  intros [v' j] Hj. destruct (Z.ltb_spec j 2); [|done].
  eapply returns_bind_mono; [apply idx_total; lia|].
  intros c _. cbn zeta. destruct (_ || _); cbn; lia.
Qed.

(** [t] is what follows the backslash and [c]. *)
Lemma unquoteEscape_returns c t quote s :
  shorter t s -> unquoteEscape c t quote ⇓ charOutcome s.
Proof.
  intros Hts. assert (Herr : charError ⇓ charOutcome s) by done.
  assert (Hcut : forall n mb v, 0 < n <= len t -> (let! t' := slice_from t n in Ok (v, mb, t', None)) ⇓ charOutcome s).
  { intros n mb v Hn. eapply returns_bind_mono; [by apply slice_from_shorter|]. intros t' Ht' _. exact (shorter_trans _ _ _ Ht' Hts). }
  unfold unquoteEscape. cbv zeta.
  repeat match goal with |- (if ?c =? ?k then Ok _ else _) ⇓ _ => destruct (c =? k); [by intros _|] end.
  destruct ((c =? ch "x") || (c =? ch "u") || (c =? ch "U")).
  { set (n := if c =? ch "x" then 2 else _).
    assert (Hn : 0 < n <= 8) by (unfold n; destruct (c =? ch "x"), (c =? ch "u"); lia). clearbody n.
    destruct (Z.ltb_spec (len t) n); [done|]. eapply returns_bind_mono; [apply hexValue_returns; lia|].
    intros [v|] _; [|done]. pose proof (Hcut n) as H'.
    destruct (c =? ch "x"); [apply H'; lia|]. destruct (ValidRune v); [apply H'; lia|].
    eapply returns_bind_mono; [apply slice_from_shorter; lia|]. by intros. }
  destruct (_ && _).
  { destruct (Z.ltb_spec (len t) 2); [done|]. eapply returns_bind_mono; [by apply octValue_returns|].
    intros [v|] _; [|done]. destruct (v >? 255); [|apply Hcut; lia].
    eapply returns_bind_mono; [apply slice_from_shorter; lia|]. by intros. }
  destruct (c =? ch "\"); [by intros _|]. destruct (_ || _); [|done]. destruct (c =? quote); [by intros _|done].
Qed.

Lemma decode_width p : bytes_ok p -> p <> [] ->
  exists r n, DecodeRuneInString p = Ok (r, n) /\ 0 < n <= len p.
Proof.
  intros Hok Hne. rewrite DecodeRuneInString_eq, DecodeRune_ref by done.
  destruct (decode_ref_sound p Hok Hne) as [(Hr & Hn & rest & Hs)|Hbad].
  - destruct (decode_ref p) as [r n]. cbn [fst snd] in *. exists r, n. split; [done|].
    pose proof (utf8_encode_nonempty r). rewrite Hs, Hn. len_lia.
  - rewrite Hbad. eexists _, _. split; [done|]. destruct p; [done|]. len_lia.
Qed.

Lemma UnquoteChar_returns s quote : bytes_ok s -> UnquoteChar s quote ⇓ charOutcome s.
Proof.
  intros Hok. unfold UnquoteChar. destruct (Z.eqb_spec (len s) 0) as [|Hne]; [done|]. pose proof (len_nonneg s).
  eapply returns_bind_mono; [apply idx_total; lia|]. intros c _.
  destruct (_ && _); [done|]. destruct (c >=? RuneSelf).
  { destruct (decode_width s Hok) as (r & n & -> & Hn); [by intros ->|]. cbn [rbind].
    eapply returns_bind_mono; [by apply slice_from_shorter|]. by intros t Ht _. }
  destruct (c =? ch "\"); cbn [negb].
  2: { eapply returns_bind_mono; [apply slice_from_shorter; lia|]. by intros t Ht _. }
  destruct (Z.leb_spec (len s) 1); [done|].
  eapply returns_bind_mono; [apply idx_total; lia|]. intros c' _.
  eapply returns_bind_mono; [apply slice_from_shorter; lia|]. intros t Ht. by apply unquoteEscape_returns.
Qed.

Lemma shorter_ok t s : shorter t s -> bytes_ok s -> bytes_ok t /\ len t < len s.
Proof.
  intros (p & Hp & ->) Hok. split; [by apply Forall_app in Hok as [_ ?]|].
  destruct p; [done|]. len_lia.
Qed.

Definition suffix_of (t s : list Z) : Prop := exists p, s = p ++ t.

Lemma shorter_suffix t s r : shorter t s -> suffix_of s r -> suffix_of t r.
Proof. intros (p & _ & ->) (q & ->). exists (q ++ p). by rewrite app_assoc. Qed.

Lemma unquoteLoop_returns s quote u : bytes_ok s ->
  unquoteLoop s quote u ⇓ (fun r => match r with Some (t, _) => suffix_of t s | None => True end).
Proof.
  intros Hok. apply (loop_returns (fun '(t, _) => bytes_ok t /\ suffix_of t s) (fun '(t, _) => len t));
    [|by split; [|exists []]|unfold len; lia|apply len_nonneg].
  intros [t buf] [Ht Hsuf]. unfold unquoteStep.
  eapply (returns_bind_mono _ _ (fun b => b = true -> 0 < len t)).
  { destruct (Z.gtb_spec (len t) 0); [|done].
    eapply returns_bind_mono; [apply idx_total; lia|]. cbn; intros; lia. }
  intros [|] Hpos; [|done]. specialize (Hpos eq_refl).
  eapply returns_bind_mono; [by apply UnquoteChar_returns|]. intros [[[r mb] rem] err] Hout.
  eapply returns_bind_mono; [apply idx_total; lia|]. intros c _.
  destruct err as [e|]; [rewrite bool_decide_eq_true_2 by done; by rewrite orb_true_r|].
  rewrite bool_decide_eq_false_2, orb_false_r by (by intros ?). destruct (c =? 10); [done|].
  pose proof (Hout eq_refl) as Hsh. destruct (quote =? squote).
  - cbn. by eapply shorter_suffix.
  - destruct (shorter_ok _ _ Hsh Ht). cbn. split; [split; [done|by eapply shorter_suffix]|]. pose proof (len_nonneg rem). lia.
Qed.

Lemma index_bound l c : index l c < len l.
Proof.
  unfold index. destruct (decide (c ∈ l)) as [Hin|Hn].
  - pose proof (indexFrom_present c l 0 Hin). lia.
  - rewrite indexFrom_missing by done. pose proof (len_nonneg l). lia.
Qed.

Lemma dropCR_returns s n : 1 <= n <= len s -> dropCR s n ⇓ (fun _ => True).
Proof.
  intros Hn. apply (loop_returns (fun '(_, i) => 1 <= i <= n) (fun '(_, i) => n - i)); [|lia|unfold len in *; lia|lia].
  intros [buf i] Hi. destruct (Z.ltb_spec i (n - 1)); [|done].
  eapply returns_bind_mono; [apply idx_total; lia|]. intros c _. cbn. lia.
Qed.

(** A literal that ends at [n], and the input after it. *)
Lemma cut_at (s : list Z) n : 0 <= n <= len s -> exists a b,
  s = a ++ b /\ len a = n /\ slice s 0 n = Ok a /\ slice_from s n = Ok b.
Proof.
  intros Hn. destruct (slice_split s n Hn) as (a & b & -> & Ha). exists a, b. split; [done|]. split; [done|].
  split; [|by apply slice_from_app]. rewrite slice_Ok by lia. f_equal. rewrite Z.sub_0_r. cbn [drop Z.to_nat].
  apply take_app_length'. unfold len in Ha. lia.
Qed.

Section Safe.
Context (ptrSize : Z) (Hsize : ptrSize = 4 \/ ptrSize = 8).

(** An error leaves the input as it was; a success splits it. *)
Definition unquote_ok (s : list Z) (u : bool) (r : list Z * list Z * option quoteErr) : Prop :=
  let '(out, rem, err) := r in
  match err with
  | Some _ => out = [] /\ rem = s
  | None => suffix_of rem s /\ (u = false -> s = out ++ rem)
  end.

(** The slow path, after its loop. *)
Lemma slow_returns s quote (u : bool) : bytes_ok s -> 1 <= len s ->
  (let! in_ := slice_from s 1 in
   let! r := unquoteLoop in_ quote u in
   match r with
   | None => Ok ([], s, Some ErrSyntax)
   | Some (in_, buf) =>
       let! closed := if len in_ >? 0 then (let! c := idx in_ 0 in Ok (c =? quote)) else Ok false in
       if negb closed then Ok ([], s, Some ErrSyntax) else
       let! in_ := slice_from in_ 1 in
       if u then Ok (buf, in_, None)
       else
         let! out := slice s 0 (len s - len in_) in
         Ok (out, in_, None)
   end) ⇓ unquote_ok s u.
Proof.
  intros Hok Hl. destruct (cut_at s 1) as (a & t & -> & Ha & _ & ->); [lia|]. cbn [rbind].
  apply Forall_app in Hok as [_ Ht]. eapply returns_bind_mono; [by apply unquoteLoop_returns|].
  intros [[r buf]|]; [|done]. intros (p & ->).
  eapply (returns_bind_mono _ _ (fun b => b = true -> 0 < len r)).
  { destruct (Z.gtb_spec (len r) 0); [|done]. eapply returns_bind_mono; [apply idx_total; lia|]. cbn; intros; lia. }
  intros [|] Hpos; [|done]. specialize (Hpos eq_refl). cbn [negb].
  destruct (cut_at r 1) as (q & r' & -> & Hq & _ & ->); [lia|]. cbn [rbind]. destruct u.
  { cbn. split; [|done]. exists (a ++ p ++ q). by rewrite <- !app_assoc. }
  rewrite (app_assoc p q r'), (app_assoc a (p ++ q) r'). set (h := a ++ p ++ q).
  replace (len (h ++ r') - len r') with (len h) by len_lia.
  destruct (cut_at (h ++ r') (len h)) as (h' & r'' & E & Hh & -> & _); [len_lia|]. cbn [rbind returns]. unfold unquote_ok.
  split; [by exists h|]. intros _. apply app_inj_1 in E as [-> ->]; [done|]. unfold len in Hh. lia.
Qed.

Lemma unquote_returns s u : bytes_ok s -> unquote ptrSize s u ⇓ unquote_ok s u.
Proof.
  intros Hok. unfold unquote. destruct (Z.ltb_spec (len s) 2); [done|].
  eapply returns_bind_mono; [apply idx_total; lia|]. intros quote _.
  destruct (cut_at s 1) as (a & t & Hs & Ha & _ & Hcut); [lia|]. rewrite Hcut. cbn [rbind].
  pose proof (index_bound t quote) as Hk. set (k := index t quote) in *. clearbody k.
  destruct (Z.ltb_spec k 0); [done|]. assert (Hls : len s = 1 + len t) by (rewrite Hs, len_app; lia).
  pose proof (slow_returns s quote u Hok ltac:(lia)) as Hslow. rewrite Hcut in Hslow. cbn [rbind] in Hslow.
  destruct (cut_at s (k + 2)) as (h & rem & Hs2 & Hh & H1 & H2); [lia|]. rewrite H1, H2. cbn [rbind].
  assert (Hbody : slice s 1 (k + 2 - 1) ⇓ bytes_ok).
  { rewrite slice_Ok by lia. apply Forall_take, Forall_drop, Hok. }
  destruct (quote =? ch "`").
  { eapply (returns_bind_mono _ _ (fun out => u = false -> out = h)).
    - destruct u; cbn [negb]; [|done]. destruct (contains h 13); cbn [negb].
      + eapply returns_mono; [apply dropCR_returns; lia|]. done.
      + by eapply returns_mono.
    - intros out Hout. cbn. split; [by exists h|]. intros ->%Hout. done. }
  destruct (_ || _); [|done].
  eapply (returns_bind_mono _ _ (fun _ => True)).
  { destruct (_ && _); [|done]. eapply returns_bind_mono; [exact Hbody|]. intros body Hb.
    by destruct (valid_returns ptrSize Hsize quote body (k + 2) Hb) as [v ->]. }
  intros [|] _; [|exact Hslow].
  eapply (returns_bind_mono _ _ (fun out => u = false -> out = h)).
  { destruct u; [|done]. rewrite slice_Ok by lia. done. }
  intros out Hout. cbn. split; [by exists h|]. intros ->%Hout. done.
Qed.
End Safe.

(** Unquote and QuotedPrefix return on any bytes, without a panic.  With an
    error the string they return is empty, and without one QuotedPrefix
    returns a prefix of its argument. *)
Theorem Unquote_safe ptrSize s :
  ptrSize = 4 \/ ptrSize = 8 -> bytes_ok s ->
  Unquote ptrSize s ⇓ (fun '(out, err) => err <> None -> out = []) /\
  QuotedPrefix ptrSize s ⇓ (fun '(out, err) =>
    match err with Some _ => out = [] | None => exists rest, s = out ++ rest end).
Proof.
  intros Hsize Hok. split.
  - eapply returns_bind_mono; [by apply unquote_returns|]. intros [[out rem] err] Hu.
    destruct (len rem >? 0); cbn; [done|]. intros He. destruct err; [by destruct Hu|done].
  - eapply returns_bind_mono; [by apply unquote_returns|]. intros [[out rem] err] Hu. cbn in *.
    destruct err; [by destruct Hu|]. exists rem. by apply Hu.
Qed.

Lemma Unquote_safe_witness :
  Unquote 8 (str "'\u12'") ⇓ (fun '(out, err) => err <> None -> out = []).
Proof. refine (proj1 (Unquote_safe 8 (str "'\u12'") _ _)); [by right|apply str_ok]. Defined.

(** ** Raw strings *)

Lemma CanBackquote_spec s : bytes_ok s -> CanBackquote s ⇓ (fun b => b = true -> (96 ∉ s) /\ (13 ∉ s)).
Proof.
  intros Hok. apply (loop_returns (fun t => bytes_ok t /\ ((96 ∉ t) /\ (13 ∉ t) -> (96 ∉ s) /\ (13 ∉ s))) len);
    [|done|unfold len; lia|apply len_nonneg].
  intros t [Ht Hs]. destruct (Z.gtb_spec (len t) 0) as [Hpos|].
  2: { cbn. intros _. apply Hs. assert (t = []) as -> by (apply len_zero_inv; pose proof (len_nonneg t); lia).
    split; apply not_elem_of_nil. }
  assert (Hne : t <> []) by (intros ->; done).
  rewrite DecodeRuneInString_eq, DecodeRune_ref by done.
  destruct (decode_ref_sound t Ht Hne) as [(Hr & Hn & rest & Hrest)|Hbad].
  2: { rewrite Hbad. cbn [rbind]. rewrite slice_from_Ok by lia. done. }
  destruct (decode_ref t) as [r n]. cbn [fst snd rbind] in *. subst n.
  rewrite Hrest, slice_from_app by done. cbn [rbind]. pose proof (utf8_encode_nonempty r).
  rewrite Hrest in Ht, Hs. pose proof Ht as [_ Hrok]%Forall_app.
  assert (Hgo : r <> 96 -> r <> 13 -> returns (Ok (inl rest) : res (list Z + bool)) (fun r0 => match r0 with
    | inl s' => (bytes_ok s' /\ ((96 ∉ s') /\ (13 ∉ s') -> (96 ∉ s) /\ (13 ∉ s))) /\ 0 <= len s' < len (utf8_encode r ++ rest)
    | inr x => x = true -> (96 ∉ s) /\ (13 ∉ s) end)).
  { intros H96 H13. cbn. split; [|len_lia]. split; [done|]. intros [H1 H2]. apply Hs. rewrite !elem_of_app.
    assert (Hno : forall c, c < 0x80 -> r <> c -> c ∉ utf8_encode r).
    { intros c Hc Hrc. destruct (decide (r < 0x80)).
      - rewrite utf8_encode_low by done. by intros ->%list_elem_of_singleton.
      - intros Hin. pose proof (utf8_encode_high r Hr ltac:(lia)) as Hhi. rewrite Forall_forall in Hhi.
        specialize (Hhi c Hin). cbn in Hhi. lia. }
    pose proof (Hno 96 ltac:(lia) H96). pose proof (Hno 13 ltac:(lia) H13). split; intros [|]; done. }
  destruct (Z.gtb_spec (len (utf8_encode r)) 1) as [Hw|Hw].
  - destruct (r =? 0xFEFF); [done|]. assert (~ r < 0x80) by (intros Hlt; rewrite utf8_encode_low in Hw by done; done).
    apply Hgo; lia.
  - destruct (r =? RuneError); [done|]. change (ch " ") with 32. change (ch "`") with 96.
    repeat zcase; cbn [andb orb negb]; try done; apply Hgo; lia.
Qed.

(** CanBackquote returns on any bytes, and a string it accepts can be
    written between backquotes: Unquote of that raw literal is the string. *)
Theorem CanBackquote_Unquote ptrSize s :
  bytes_ok s ->
  CanBackquote s ⇓ (fun b => b = true -> Unquote ptrSize ([96] ++ s ++ [96]) = Ok (s, None)).
Proof.
  intros Hok. eapply returns_mono; [by apply CanBackquote_spec|]. intros b Hb Ht. destruct (Hb Ht) as [H96 H13].
  unfold Unquote, unquote. cbn [app]. pose proof (len_nonneg s).
  destruct (unquote_fast 96 s []) as (F1 & F2 & F3).
  destruct (Z.ltb_spec (len (96 :: s ++ [96])) 2); [len_lia|]. rewrite (idx_Ok _ 0 96) by done. cbn [rbind].
  rewrite (slice_from_app [96] (s ++ [96])) by done. cbn [rbind].
  assert (index (s ++ [96]) 96 = len s) as ->.
  { unfold index. rewrite indexFrom_absent by done. cbn [indexFrom]. by rewrite Z.eqb_refl. }
  destruct (Z.ltb_spec (len s) 0); [lia|]. rewrite F1, F2, F3. cbn [rbind]. change (96 =? ch "`") with true. cbn match.
  cbn [negb]. assert (contains (96 :: s ++ [96]) 13 = false) as ->; [|done].
  apply not_true_is_false. rewrite contains_spec, elem_of_cons, elem_of_app, list_elem_of_singleton. intros [|[|]]; done.
Qed.

Lemma CanBackquote_Unquote_witness :
  CanBackquote (str "a\b") ⇓ (fun b => b = true -> Unquote 8 ([96] ++ str "a\b" ++ [96]) = Ok (str "a\b", None)).
Proof. refine (CanBackquote_Unquote 8 (str "a\b") _). apply str_ok. Defined.
