(* ===== verification/LinkedList.v ===== *)
(** * Package container/list: the doubly linked list

    The code of src/container/list/list.go over a store of Element and List
    objects.  A List holds its sentinel [root] inline, so a pointer to an
    Element is either an element of its own ([inr]) or the root of a list
    ([inl]).  Following a nil pointer panics.  Values have the type [any],
    whose nil is [None]. *)
From Stdlib Require Import ZArith Lia.
From stdpp Require Import base numbers list gmap.
From S2P Require Import Prelude.

Definition lptr : Type := positive.
Definition eptr : Type := positive + positive.
Definition root (l : lptr) : eptr := inl l.
Definition node (x : positive) : eptr := inr x.

Section Model.
Context {V : Type}.

Record Element := mkElement {
  next : option eptr;
  prev : option eptr;
  list_ : option lptr;
  Value : option V;
}.

(** The elements, the len fields of the lists, and the next free address. *)
Record store := mkStore {
  elems : gmap eptr Element;
  lens : gmap lptr Z;
  free : positive;
}.

(** Code that reads and writes the store. *)
Definition M (A : Type) : Type := store -> res (A * store).
Definition ret {A} (a : A) : M A := fun st => Ok (a, st).
Definition bind {A B} (m : M A) (k : A -> M B) : M B :=
  fun st => let! '(a, st) := m st in k a st.
Definition nilDeref {A} : M A := fun _ => Panic.

Notation "x <- m ; k" := (bind m (fun x => k)) (at level 100, m at next level, right associativity).
Notation "m ;; k" := (bind m (fun _ => k)) (at level 100, right associativity).

(** [*p] *)
Definition load (p : option eptr) : M Element := fun st =>
  match p with
  | None => Panic
  | Some p => match elems st !! p with Some e => Ok (e, st) | None => Panic end
  end.
Definition update (p : option eptr) (f : Element -> Element) : M unit := fun st =>
  match p with
  | None => Panic
  | Some p =>
      match elems st !! p with
      | Some e => Ok (tt, mkStore (<[p := f e]> (elems st)) (lens st) (free st))
      | None => Panic
      end
  end.
Definition set_next (p : option eptr) (q : option eptr) : M unit :=
  update p (fun e => mkElement q (prev e) (list_ e) (Value e)).
Definition set_prev (p : option eptr) (q : option eptr) : M unit :=
  update p (fun e => mkElement (next e) q (list_ e) (Value e)).
Definition set_list (p : option eptr) (l : option lptr) : M unit :=
  update p (fun e => mkElement (next e) (prev e) l (Value e)).
Definition get_len (l : lptr) : M Z := fun st =>
  match lens st !! l with Some n => Ok (n, st) | None => Panic end.
Definition set_len (l : lptr) (n : Z) : M unit := fun st =>
  match lens st !! l with
  | Some _ => Ok (tt, mkStore (elems st) (<[l := n]> (lens st)) (free st))
  | None => Panic
  end.
(** [&Element{Value: v}] *)
Definition alloc (v : option V) : M eptr := fun st =>
  let p := node (free st) in
  Ok (p, mkStore (<[p := mkElement None None None v]> (elems st)) (lens st) (Pos.succ (free st))).

(** ** Elements *)

Definition Next (e : eptr) : M (option eptr) :=
  x <- load (Some e);
  match list_ x with
  | Some l => if decide (next x = Some (root l)) then ret None else ret (next x)
  | None => ret None
  end.

Definition Prev (e : eptr) : M (option eptr) :=
  x <- load (Some e);
  match list_ x with
  | Some l => if decide (prev x = Some (root l)) then ret None else ret (prev x)
  | None => ret None
  end.

(** ** Lists *)

Definition Init (l : lptr) : M unit :=
  set_next (Some (root l)) (Some (root l));;
  set_prev (Some (root l)) (Some (root l));;
  set_len l 0.

(** [new(List)]: a zero List at a new address. *)
Definition newList : M lptr := fun st =>
  let l := free st in
  Ok (l, mkStore (<[root l := mkElement None None None None]> (elems st)) (<[l := 0]> (lens st)) (Pos.succ (free st))).
Definition New : M lptr := l <- newList; Init l;; ret l.

Definition Len (l : lptr) : M Z := get_len l.

Definition Front (l : lptr) : M (option eptr) :=
  n <- get_len l;
  if n =? 0 then ret None else r <- load (Some (root l)); ret (next r).

Definition Back (l : lptr) : M (option eptr) :=
  n <- get_len l;
  if n =? 0 then ret None else r <- load (Some (root l)); ret (prev r).

Definition lazyInit (l : lptr) : M unit :=
  r <- load (Some (root l));
  match next r with None => Init l | Some _ => ret tt end.

(** [e.prev = at; e.next = at.next; e.prev.next = e; e.next.prev = e] *)
Definition link (e at_ : option eptr) : M unit :=
  set_prev e at_;;
  a <- load at_;
  set_next e (next a);;
  x <- load e;
  set_next (prev x) e;;
  x <- load e;
  set_prev (next x) e.

Definition insert (l : lptr) (e at_ : option eptr) : M (option eptr) :=
  link e at_;;
  set_list e (Some l);;
  n <- get_len l;
  set_len l (n + 1);;
  ret e.

Definition insertValue (l : lptr) (v : option V) (at_ : option eptr) : M (option eptr) :=
  e <- alloc v; insert l (Some e) at_.

(** [e.prev.next = e.next; e.next.prev = e.prev] *)
Definition unlink (e : option eptr) : M unit :=
  x <- load e;
  set_next (prev x) (next x);;
  x <- load e;
  set_prev (next x) (prev x).

Definition remove (l : lptr) (e : option eptr) : M unit :=
  unlink e;;
  set_next e None;;
  set_prev e None;;
  set_list e None;;
  n <- get_len l;
  set_len l (n - 1).

Definition move (l : lptr) (e at_ : option eptr) : M unit :=
  if decide (e = at_) then ret tt else
  unlink e;;
  link e at_.

Definition Remove (l : lptr) (e : eptr) : M (option V) :=
  x <- load (Some e);
  (if decide (list_ x = Some l) then remove l (Some e) else ret tt);;
  x <- load (Some e);
  ret (Value x).

Definition PushFront (l : lptr) (v : option V) : M (option eptr) :=
  lazyInit l;; insertValue l v (Some (root l)).

Definition PushBack (l : lptr) (v : option V) : M (option eptr) :=
  lazyInit l;;
  r <- load (Some (root l));
  insertValue l v (prev r).

Definition InsertBefore (l : lptr) (v : option V) (mark : eptr) : M (option eptr) :=
  m <- load (Some mark);
  if decide (list_ m <> Some l) then ret None else insertValue l v (prev m).

Definition InsertAfter (l : lptr) (v : option V) (mark : eptr) : M (option eptr) :=
  m <- load (Some mark);
  if decide (list_ m <> Some l) then ret None else insertValue l v (Some mark).

Definition MoveToFront (l : lptr) (e : eptr) : M unit :=
  x <- load (Some e);
  if decide (list_ x <> Some l) then ret tt else
  r <- load (Some (root l));
  if decide (next r = Some e) then ret tt else move l (Some e) (Some (root l)).

Definition MoveToBack (l : lptr) (e : eptr) : M unit :=
  x <- load (Some e);
  if decide (list_ x <> Some l) then ret tt else
  r <- load (Some (root l));
  if decide (prev r = Some e) then ret tt else move l (Some e) (prev r).

Definition MoveBefore (l : lptr) (e mark : eptr) : M unit :=
  x <- load (Some e);
  if decide (list_ x <> Some l) then ret tt else
  if decide (e = mark) then ret tt else
  m <- load (Some mark);
  if decide (list_ m <> Some l) then ret tt else move l (Some e) (prev m).

Definition MoveAfter (l : lptr) (e mark : eptr) : M unit :=
  x <- load (Some e);
  if decide (list_ x <> Some l) then ret tt else
  if decide (e = mark) then ret tt else
  m <- load (Some mark);
  if decide (list_ m <> Some l) then ret tt else move l (Some e) (Some mark).

(** [for i, e := other.Len(), other.Front(); i > 0; i, e = i-1, e.Next()] with
    the body an insertion after the root's predecessor. *)
Fixpoint pushBackCopies (l : lptr) (i : nat) (e : option eptr) : M unit :=
  match i with
  | O => ret tt
  | S i =>
      x <- load e;
      r <- load (Some (root l));
      insertValue l (Value x) (prev r);;
      e' <- match e with Some e => Next e | None => nilDeref end;
      pushBackCopies l i e'
  end.

Definition PushBackList (l other : lptr) : M unit :=
  lazyInit l;;
  i <- Len other;
  e <- Front other;
  pushBackCopies l (Z.to_nat i) e.

Fixpoint pushFrontCopies (l : lptr) (i : nat) (e : option eptr) : M unit :=
  match i with
  | O => ret tt
  | S i =>
      x <- load e;
      insertValue l (Value x) (Some (root l));;
      e' <- match e with Some e => Prev e | None => nilDeref end;
      pushFrontCopies l i e'
  end.

Definition PushFrontList (l other : lptr) : M unit :=
  lazyInit l;;
  i <- Len other;
  e <- Back other;
  pushFrontCopies l (Z.to_nat i) e.
End Model.
Arguments Element : clear implicits.
Arguments store : clear implicits.
Arguments M : clear implicits.
