(* ===== verification/LinkedListCorrect.v ===== *)
(** * Package container/list: the list as a sequence

    [rep st l es] says that the objects of the store make list [l] the
    sequence of elements [es]: a ring of next and prev pointers through the
    root, or the zero List.  Each operation is shown to change the sequence as
    its documentation says, and to leave every other list alone. *)
From Stdlib Require Import ZArith Lia.
From stdpp Require Import base numbers list gmap.
From S2P Require Import Prelude LinkedList.

Section Correct.
Context {V : Type}.
Implicit Types (st : store V) (l : lptr) (e p q : eptr) (es : list eptr).

Definition alive st p : Prop := is_Some (elems st !! p).
Definition nexts st p : option eptr := elems st !! p ≫= next.
Definition prevs st p : option eptr := elems st !! p ≫= prev.
Definition lists st p : option lptr := elems st !! p ≫= list_.
Definition value st p : option V := elems st !! p ≫= Value.

(** ** Reading and writing the store *)

Lemma bind_returns {A B} (m : M V A) (k : A -> M V B) st (Q : B * store V -> Prop) :
  m st ⇓ (fun '(a, st') => k a st' ⇓ Q) -> bind m k st ⇓ Q.
Proof. intros H. eapply returns_bind_mono; [exact H|]. by intros [a st']. Qed.

Lemma load_returns st p (Q : Element V * store V -> Prop) :
  alive st p ->
  (forall x, next x = nexts st p -> prev x = prevs st p -> list_ x = lists st p -> Value x = value st p -> Q (x, st)) ->
  load (Some p) st ⇓ Q.
Proof.
  intros [x Hx] HQ. unfold load. rewrite Hx. apply HQ; unfold nexts, prevs, lists, value; by rewrite Hx.
Qed.

(** How a write changes what can be read. *)
Record writes st st' (N P : eptr -> option eptr) (L : eptr -> option lptr) : Prop := {
  w_next : forall x, nexts st' x = N x;
  w_prev : forall x, prevs st' x = P x;
  w_list : forall x, lists st' x = L x;
  w_value : forall x, value st' x = value st x;
  w_alive : forall x, alive st' x <-> alive st x;
  w_lens : lens st' = lens st;
  w_free : free st' = free st;
}.

Definition put {T} (p : eptr) (v : T) (f : eptr -> T) : eptr -> T := fun x => if decide (x = p) then v else f x.

Lemma put_eq {T} p (v : T) f : put p v f p = v.
Proof. unfold put. by case_decide. Qed.
Lemma put_ne {T} p (v : T) f x : x <> p -> put p v f x = f x.
Proof. intros H. unfold put. by case_decide. Qed.

Lemma update_returns st p f (Q : unit * store V -> Prop) :
  alive st p ->
  (forall x st', elems st !! p = Some x ->
    (forall y, elems st' !! y = if decide (y = p) then Some (f x) else elems st !! y) ->
    lens st' = lens st -> free st' = free st -> Q (tt, st')) ->
  update (Some p) f st ⇓ Q.
Proof.
  intros [x Hx] HQ. unfold update. rewrite Hx. eapply (HQ x); try done. intros y. cbn.
  case_decide; subst; [apply lookup_insert_eq|by apply lookup_insert_ne].
Qed.

(** The rule shared by the writes of one field. *)
Ltac write_field :=
  let Hx := fresh in let Hlk := fresh in
  intros Ha HQ; apply update_returns; [done|]; intros x st' Hx Hlk Hl Hf; apply HQ;
  split; try done; unfold nexts, prevs, lists, value, alive, put; intros y; rewrite ?Hlk;
  case_decide; subst; rewrite ?Hx; done.

Lemma set_next_returns st p (o : option eptr) (Q : unit * store V -> Prop) :
  alive st p -> (forall st', writes st st' (put p o (nexts st)) (prevs st) (lists st) -> Q (tt, st')) ->
  set_next (Some p) o st ⇓ Q.
Proof. write_field. Qed.

Lemma set_prev_returns st p (o : option eptr) (Q : unit * store V -> Prop) :
  alive st p -> (forall st', writes st st' (nexts st) (put p o (prevs st)) (lists st) -> Q (tt, st')) ->
  set_prev (Some p) o st ⇓ Q.
Proof. write_field. Qed.

Lemma set_list_returns st p (o : option lptr) (Q : unit * store V -> Prop) :
  alive st p -> (forall st', writes st st' (nexts st) (prevs st) (put p o (lists st)) -> Q (tt, st')) ->
  set_list (Some p) o st ⇓ Q.
Proof. write_field. Qed.

Lemma writes_refl st : writes st st (nexts st) (prevs st) (lists st).
Proof. by split. Qed.

(** Two writes in turn, the second described from the first's result. *)
Lemma writes_trans st1 st2 st3 N1 P1 L1 N2 P2 L2 N3 P3 L3 :
  writes st1 st2 N1 P1 L1 -> writes st2 st3 N2 P2 L2 ->
  ((forall x, nexts st2 x = N1 x) -> (forall x, prevs st2 x = P1 x) -> (forall x, lists st2 x = L1 x) ->
   forall x, N2 x = N3 x /\ P2 x = P3 x /\ L2 x = L3 x) ->
  writes st1 st3 N3 P3 L3.
Proof.
  intros [n1 p1 l1 v1 a1 e1 f1] [n2 p2 l2 v2 a2 e2 f2] H. specialize (H n1 p1 l1).
  split; try congruence.
  - intros x. rewrite n2. by destruct (H x) as (? & _).
  - intros x. rewrite p2. by destruct (H x) as (_ & ? & _).
  - intros x. rewrite l2. by destruct (H x) as (_ & _ & ?).
  - intros x. by rewrite a2.
Qed.

Ltac chase W :=
  let Hn := fresh in let Hp := fresh in let Hl := fresh in
  eapply writes_trans; [exact W|eassumption|]; intros Hn Hp Hl ?; unfold put in *;
  rewrite ?Hn, ?Hp, ?Hl; repeat case_decide; subst; done.

Lemma unlink_returns st e p q (Q : unit * store V -> Prop) :
  alive st e -> alive st p -> alive st q -> prevs st e = Some p -> nexts st e = Some q -> p <> e -> q <> e ->
  (forall st', writes st st' (put p (Some q) (nexts st)) (put q (Some p) (prevs st)) (lists st) -> Q (tt, st')) ->
  unlink (Some e) st ⇓ Q.
Proof.
  intros He Hp Hq Ep Eq Hpe Hqe HQ. unfold unlink. apply bind_returns, load_returns; [done|].
  intros x Hxn Hxp _ _. rewrite Hxn, Hxp, Ep, Eq. apply bind_returns, set_next_returns; [done|].
  intros st1 W1. apply bind_returns, load_returns; [by apply (w_alive _ _ _ _ _ W1)|].
  intros x' Hxn' Hxp' _ _. rewrite (w_next _ _ _ _ _ W1), put_ne, Eq in Hxn' by done.
  rewrite (w_prev _ _ _ _ _ W1), Ep in Hxp'. rewrite Hxn', Hxp'.
  apply set_prev_returns; [by apply (w_alive _ _ _ _ _ W1)|]. intros st2 W2. apply HQ. chase W1.
Qed.

Lemma link_returns st e p q (Q : unit * store V -> Prop) :
  alive st e -> alive st p -> alive st q -> nexts st p = Some q -> p <> e -> q <> e ->
  (forall st', writes st st' (put p (Some e) (put e (Some q) (nexts st)))
                             (put q (Some e) (put e (Some p) (prevs st))) (lists st) -> Q (tt, st')) ->
  link (Some e) (Some p) st ⇓ Q.
Proof.
  intros He Hp Hq Eq Hpe Hqe HQ. unfold link. apply bind_returns, set_prev_returns; [done|].
  intros st1 W1. apply bind_returns, load_returns; [by apply (w_alive _ _ _ _ _ W1)|].
  intros a Ha _ _ _. rewrite (w_next _ _ _ _ _ W1), Eq in Ha. rewrite Ha.
  apply bind_returns, set_next_returns; [by apply (w_alive _ _ _ _ _ W1)|]. intros st2 W2.
  assert (W : writes st st2 (put e (Some q) (nexts st)) (put e (Some p) (prevs st)) (lists st)) by chase W1.
  clear W1 W2. apply bind_returns, load_returns; [by apply (w_alive _ _ _ _ _ W)|].
  intros x _ Hx _ _. rewrite (w_prev _ _ _ _ _ W), put_eq in Hx. rewrite Hx.
  apply bind_returns, set_next_returns; [by apply (w_alive _ _ _ _ _ W)|]. intros st3 W3.
  assert (W' : writes st st3 (put p (Some e) (put e (Some q) (nexts st))) (put e (Some p) (prevs st)) (lists st)) by chase W.
  clear W W3. apply bind_returns, load_returns; [by apply (w_alive _ _ _ _ _ W')|].
  intros x' Hx' _ _ _. rewrite (w_next _ _ _ _ _ W'), put_ne, put_eq in Hx' by done. rewrite Hx'.
  apply set_prev_returns; [by apply (w_alive _ _ _ _ _ W')|]. intros st4 W4. apply HQ. chase W'.
Qed.

(** ** Lists as sequences *)

Definition adj st p q : Prop := nexts st p = Some q /\ prevs st q = Some p.

(** The ring through the root. *)
Definition ring st l es : Prop := Forall2 (adj st) (root l :: es) (es ++ [root l]).

Record rep st l es : Prop := {
  rep_len : lens st !! l = Some (len es);
  rep_nodup : NoDup es;
  rep_inr : forall e, e ∈ es -> exists x, e = node x;
  rep_alive : forall e, e ∈ root l :: es -> alive st e;
  rep_member : forall e, lists st e = Some l <-> e ∈ es;
  rep_rootlist : lists st (root l) = None;
  rep_links : es = [] /\ nexts st (root l) = None \/ ring st l es;
}.

(** New objects have addresses no object has, and the list field of an
    element points to a list. *)
Definition store_ok st : Prop :=
  (forall x, (free st <= x)%positive -> ~ alive st (node x) /\ ~ alive st (root x)) /\
  (forall e l, lists st e = Some l -> alive st (root l)).

Lemma rep_root st l es : rep st l es -> root l ∉ es.
Proof. intros R Hin. by destruct (rep_inr _ _ _ R _ Hin) as [x ?]. Qed.

(** A link of the ring, between the part before it and the part after it. *)
Lemma ring_split st l a b : ring st l (a ++ b) -> exists s p q t,
  root l :: a = s ++ [p] /\ b ++ [root l] = q :: t /\ length s = length a /\
  Forall2 (adj st) s a /\ adj st p q /\ Forall2 (adj st) b t.
Proof.
  intros R. unfold ring in R. destruct (exists_last (l := root l :: a)) as (s & p & Hs); [done|].
  destruct (b ++ [root l]) as [|q t] eqn:Hq; [by destruct b|]. exists s, p, q, t.
  assert (Hl : length s = length a) by (apply (f_equal length) in Hs; rewrite length_app in Hs; cbn in Hs; lia).
  rewrite <- app_assoc, Hq in R. change (root l :: a ++ b) with ((root l :: a) ++ b) in R. rewrite Hs, <- app_assoc in R.
  apply Forall2_app_inv in R as [R1 R2]; [|done]. cbn in R2. apply Forall2_cons in R2 as [R2 R3]. done.
Qed.

Lemma ring_join st l a b s p q t :
  root l :: a = s ++ [p] -> b ++ [root l] = q :: t ->
  Forall2 (adj st) s a -> adj st p q -> Forall2 (adj st) b t -> ring st l (a ++ b).
Proof.
  intros Hs Hq H1 H2 H3. unfold ring. rewrite <- app_assoc, Hq.
  change (root l :: a ++ b) with ((root l :: a) ++ b). rewrite Hs, <- app_assoc.
  apply Forall2_app; [done|]. by constructor.
Qed.

(** Links that no write touched are still there. *)
Lemma adj_frame st st' (s t : list eptr) :
  (forall x, x ∈ s -> nexts st' x = nexts st x) -> (forall x, x ∈ t -> prevs st' x = prevs st x) ->
  Forall2 (adj st) s t -> Forall2 (adj st') s t.
Proof.
  intros Hs Ht H. induction H as [|x y s t [H1 H2] _ IH]; constructor.
  - split; [rewrite Hs by left; done|rewrite Ht by left; done].
  - apply IH; intros; [apply Hs|apply Ht]; by right.
Qed.

(** The places a link of the ring separates. *)
Lemma split_disjoint l a b s p q t :
  NoDup (a ++ b) -> root l ∉ a ++ b -> root l :: a = s ++ [p] -> b ++ [root l] = q :: t ->
  (forall x, x ∈ s -> x <> p) /\ (forall x, x ∈ a -> x <> q) /\ (forall x, x ∈ b -> x <> p) /\ (forall x, x ∈ t -> x <> q)
  /\ p ∈ root l :: a /\ q ∈ root l :: b.
Proof.
  intros Hnd Hr Hs Hq. apply NoDup_app in Hnd as (Ha & Hab & Hb). rewrite elem_of_app in Hr.
  assert (Hp : p ∈ root l :: a) by (rewrite Hs; apply elem_of_app; right; left).
  assert (Hq' : q ∈ root l :: b).
  { assert (q ∈ b ++ [root l]) as H by (rewrite Hq; left). apply elem_of_app in H as [H|H%list_elem_of_singleton];
      [by right|subst; left]. }
  assert (N1 : NoDup (s ++ [p])) by (rewrite <- Hs; constructor; tauto).
  assert (N2 : NoDup (q :: t)).
  { rewrite <- Hq. apply NoDup_app. split; [done|]. split; [|apply NoDup_singleton].
    intros x Hx ->%list_elem_of_singleton. tauto. }
  apply NoDup_app in N1 as (_ & N1 & _). apply NoDup_cons in N2 as [N2 _].
  repeat split; try done.
  - intros x Hx ->. apply (N1 p Hx). left.
  - intros x Hx ->. apply elem_of_cons in Hq' as [->|Hb']; [tauto|]. by apply (Hab q).
  - intros x Hx ->. apply elem_of_cons in Hp as [->|Ha']; [tauto|]. by apply (Hab p).
  - by intros x Hx ->.
Qed.

Lemma ring_insert st st' l a b e s p q t :
  ring st l (a ++ b) -> NoDup (a ++ b) -> root l ∉ a ++ b -> e ∉ root l :: a ++ b ->
  root l :: a = s ++ [p] -> b ++ [root l] = q :: t ->
  (forall x, nexts st' x = put p (Some e) (put e (Some q) (nexts st)) x) ->
  (forall x, prevs st' x = put q (Some e) (put e (Some p) (prevs st)) x) ->
  ring st' l (a ++ e :: b).
Proof.
  intros R Hnd Hr He Hs Hq Hn Hp. destruct (ring_split _ _ _ _ R) as (s' & p' & q' & t' & Hs' & Hq' & _ & R1 & R2 & R3).
  rewrite Hs in Hs'. apply app_inj_tail in Hs' as [<- <-]. rewrite Hq in Hq'. injection Hq' as <- <-.
  destruct (split_disjoint l a b s p q t Hnd Hr Hs Hq) as (D1 & D2 & D3 & D4 & Dp & Dq).
  assert (Eout : forall x, x ∈ root l :: a \/ x ∈ b ++ [root l] -> x <> e).
  { intros x Hx ->. apply He. rewrite !elem_of_cons, !elem_of_app, ?list_elem_of_singleton in *. tauto. }
  assert (Hs_in : forall x, x ∈ s -> x ∈ root l :: a) by (intros; rewrite Hs; apply elem_of_app; by left).
  assert (Ht_in : forall x, x ∈ t -> x ∈ b ++ [root l]) by (intros; rewrite Hq; by right).
  apply (ring_join st' l a (e :: b) s p e (q :: t)); [done|by rewrite <- Hq| | |].
  - eapply adj_frame; [| |exact R1]; intros x Hx.
    + rewrite Hn, !put_ne; [done| |]; auto.
    + rewrite Hp, !put_ne; [done| |]; [apply Eout; left; by right|auto].
  - split; [by rewrite Hn, put_eq|]. rewrite Hp, put_ne, put_eq; [done|].
    intros <-. apply (Eout e); [|done]. right. rewrite Hq. left.
  - constructor.
    + split; [rewrite Hn, put_ne, put_eq|by rewrite Hp, put_eq]; [done|]. intros <-. apply (Eout e); [by left|done].
    + eapply adj_frame; [| |exact R3]; intros x Hx.
      * rewrite Hn, !put_ne; [done| |]; [apply Eout; right; apply elem_of_app; by left|auto].
      * rewrite Hp, !put_ne; [done| |]; auto.
Qed.

Lemma ring_remove st st' l a b e s p q t :
  ring st l (a ++ e :: b) -> NoDup (a ++ b) -> root l ∉ a ++ b -> e ∉ root l :: a ++ b ->
  root l :: a = s ++ [p] -> b ++ [root l] = q :: t ->
  (forall x, x <> e -> nexts st' x = put p (Some q) (nexts st) x) ->
  (forall x, x <> e -> prevs st' x = put q (Some p) (prevs st) x) ->
  ring st' l (a ++ b).
Proof.
  intros R Hnd Hr He Hs Hq Hn Hp. destruct (ring_split _ _ _ _ R) as (s' & p' & q' & t' & Hs' & Hq' & _ & R1 & R2 & R3).
  rewrite Hs in Hs'. apply app_inj_tail in Hs' as [<- <-]. cbn in Hq'. rewrite Hq in Hq'. injection Hq' as <- <-.
  apply Forall2_cons in R3 as [R4 R3].
  destruct (split_disjoint l a b s p q t Hnd Hr Hs Hq) as (D1 & D2 & D3 & D4 & Dp & Dq).
  assert (Eout : forall x, x ∈ root l :: a \/ x ∈ b ++ [root l] -> x <> e).
  { intros x Hx ->. apply He. rewrite !elem_of_cons, !elem_of_app, ?list_elem_of_singleton in *. tauto. }
  assert (Hs_in : forall x, x ∈ s -> x ∈ root l :: a) by (intros; rewrite Hs; apply elem_of_app; by left).
  assert (Ht_in : forall x, x ∈ t -> x ∈ b ++ [root l]) by (intros; rewrite Hq; by right).
  apply (ring_join st' l a b s p q t); [done|done| | |].
  - eapply adj_frame; [| |exact R1]; intros x Hx; rewrite ?Hn, ?Hp, ?put_ne; auto.
    apply Eout. left. by right.
  - split; [rewrite Hn, put_eq; auto|rewrite Hp, put_eq; auto]. apply Eout. right. rewrite Hq. left.
  - eapply adj_frame; [| |exact R3]; intros x Hx; rewrite ?Hn, ?Hp, ?put_ne; auto.
    apply Eout. right. apply elem_of_app. by left.
Qed.

(** The neighbours of an element of the ring. *)
Lemma ring_neighbours st l a b e s p q t :
  ring st l (a ++ e :: b) -> root l :: a = s ++ [p] -> b ++ [root l] = q :: t ->
  prevs st e = Some p /\ nexts st e = Some q /\ nexts st p = Some e /\ prevs st q = Some e.
Proof.
  intros R Hs Hq. destruct (ring_split _ _ _ _ R) as (s' & p' & q' & t' & Hs' & Hq' & _ & _ & [R1 R2] & R3).
  rewrite Hs in Hs'. apply app_inj_tail in Hs' as [<- <-]. cbn in Hq'. rewrite Hq in Hq'. injection Hq' as <- <-.
  by apply Forall2_cons in R3 as [[R4 R5] _].
Qed.

(** The ends of the two parts of a list. *)
Lemma ends l (a b : list eptr) : exists s p q t, root l :: a = s ++ [p] /\ b ++ [root l] = q :: t.
Proof.
  destruct (exists_last (l := root l :: a)) as (s & p & Hs); [done|].
  destruct (b ++ [root l]) as [|q t] eqn:Hq; [by destruct b|]. by exists s, p, q, t.
Qed.

(** ** What an operation leaves alone *)

Definition others st st' l : Prop := forall l' es, l' <> l -> rep st l' es -> rep st' l' es.
Definition keeps st st' : Prop := forall x, alive st x -> alive st' x /\ value st' x = value st x.

Lemma others_intro st st' l (X : list eptr) :
  (forall x, x ∉ X -> nexts st' x = nexts st x /\ prevs st' x = prevs st x /\ lists st' x = lists st x) ->
  (forall x, alive st x -> alive st' x) ->
  (forall l', l' <> l -> lens st' !! l' = lens st !! l') ->
  (forall x, x ∈ X -> (lists st' x = Some l \/ lists st' x = None) /\ (lists st x = Some l \/ lists st x = None) /\
    forall l', l' <> l -> x <> root l') ->
  others st st' l.
Proof.
  intros Hsame Hal Hlen HX l' es Hl R.
  assert (Hout : forall x, x ∈ root l' :: es -> x ∉ X).
  { intros x Hx HxX. destruct (HX x HxX) as (_ & H & Hroot). apply elem_of_cons in Hx as [->|Hx]; [by eapply Hroot|].
    apply (rep_member _ _ _ R) in Hx. destruct H; congruence. }
  split.
  - rewrite Hlen by done. apply R.
  - apply R.
  - apply R.
  - intros x Hx. by apply Hal, R.
  - intros x. rewrite <- (rep_member _ _ _ R). destruct (decide (x ∈ X)) as [Hx|Hx].
    + destruct (HX x Hx) as ([E|E] & [E'|E'] & _); rewrite E, E'; split; congruence.
    + by destruct (Hsame x Hx) as (_ & _ & ->).
  - destruct (Hsame (root l')) as (_ & _ & ->); [apply Hout; left|apply R].
  - destruct (rep_links _ _ _ R) as [[-> Hn]|Hr]; [left|right].
    + split; [done|]. destruct (Hsame (root l')) as (-> & _); [|done]. apply Hout. left.
    + eapply adj_frame; [| |exact Hr]; intros x Hx; apply Hsame, Hout; [done|].
      apply elem_of_app in Hx as [Hx|Hx%list_elem_of_singleton]; [by right|subst; left].
Qed.

Lemma get_len_returns st l n (Q : Z * store V -> Prop) :
  lens st !! l = Some n -> Q (n, st) -> get_len l st ⇓ Q.
Proof. intros Hn HQ. unfold get_len. by rewrite Hn. Qed.

Lemma set_len_returns st l n m (Q : unit * store V -> Prop) :
  lens st !! l = Some n ->
  (forall st', elems st' = elems st -> lens st' = <[l := m]> (lens st) -> free st' = free st -> Q (tt, st')) ->
  set_len l m st ⇓ Q.
Proof. intros Hn HQ. unfold set_len. rewrite Hn. by apply HQ. Qed.

Lemma read_elems st st' : elems st' = elems st ->
  nexts st' = nexts st /\ prevs st' = prevs st /\ lists st' = lists st /\ value st' = value st /\
  (forall x, alive st' x <-> alive st x).
Proof. intros E. unfold nexts, prevs, lists, value, alive. by rewrite E. Qed.

(** A new element: nothing points to it, and it points to nothing. *)
Record allocated st st' e (v : option V) : Prop := {
  al_fresh : ~ alive st e;
  al_next : forall x, nexts st' x = nexts st x;
  al_prev : forall x, prevs st' x = prevs st x;
  al_list : forall x, lists st' x = lists st x;
  al_value : forall x, value st' x = put e v (value st) x;
  al_alive : forall x, alive st' x <-> alive st x \/ x = e;
  al_lens : lens st' = lens st;
  al_free : free st' = Pos.succ (free st);
}.

Lemma alloc_returns st v (Q : eptr * store V -> Prop) :
  store_ok st -> (forall st', allocated st st' (node (free st)) v -> Q (node (free st), st')) ->
  alloc v st ⇓ Q.
Proof.
  intros [Hok _] HQ. destruct (Hok (free st)) as [Hfree%eq_None_not_Some _]; [reflexivity|]. set (e := node (free st)) in *.
  unfold alloc. cbn. apply HQ.
  assert (Hlk : forall x, <[e := mkElement None None None v]> (elems st) !! x =
    if decide (x = e) then Some (mkElement None None None v) else elems st !! x).
  { intros x. case_decide; subst; [apply lookup_insert_eq|by apply lookup_insert_ne]. }
  split; try done; unfold nexts, prevs, lists, value, alive, put; cbn.
  - rewrite Hfree. by intros [].
  - intros x. rewrite Hlk. case_decide; subst; [by rewrite Hfree|done].
  - intros x. rewrite Hlk. case_decide; subst; [by rewrite Hfree|done].
  - intros x. rewrite Hlk. case_decide; subst; [by rewrite Hfree|done].
  - intros x. rewrite Hlk. by case_decide.
  - intros x. rewrite Hlk. case_decide; [by split; auto|]. split; [by left|]. by intros [?|?].
Qed.

(** What every operation on [l] that ends in the sequence [es] guarantees. *)
Record effect st st' l es : Prop := {
  eff_rep : rep st' l es;
  eff_others : others st st' l;
  eff_keeps : keeps st st';
  eff_ok : store_ok st';
  eff_alive : forall x, alive st' x -> alive st x \/ x = root l \/ x ∈ es;
}.

Lemma store_ok_step st st' l :
  store_ok st -> (free st <= free st')%positive -> alive st (root l) ->
  (forall x, alive st' x -> alive st x \/ x = node (free st) /\ (free st < free st')%positive) ->
  (forall x, alive st x -> alive st' x) ->
  (forall x l', lists st' x = Some l' -> lists st x = Some l' \/ l' = l) -> store_ok st'.
Proof.
  intros [Hok Hl] Hf Hroot Ha Hmono Hlist. split.
  - intros x Hx. destruct (Hok x ltac:(lia)) as [H1 H2]. split; intros [?|[E ?]]%Ha; try done.
    unfold node in E. injection E as ->. lia.
  - intros e l' [?%Hl| ->]%Hlist; auto.
Qed.

(** The store after a new element [e] is linked between [p] and [q]. *)
Record inserted st st' l e (v : option V) p q (n : Z) : Prop := {
  in_fresh : ~ alive st e;
  in_node : e = node (free st);
  in_next : forall x, nexts st' x = put p (Some e) (put e (Some q) (nexts st)) x;
  in_prev : forall x, prevs st' x = put q (Some e) (put e (Some p) (prevs st)) x;
  in_list : forall x, lists st' x = put e (Some l) (lists st) x;
  in_value : forall x, value st' x = put e v (value st) x;
  in_alive : forall x, alive st' x <-> alive st x \/ x = e;
  in_lens : lens st' = <[l := n + 1]> (lens st);
  in_free : free st' = Pos.succ (free st);
}.

Lemma insertValue_writes st l v p q n (Q : option eptr * store V -> Prop) :
  store_ok st -> alive st p -> alive st q -> nexts st p = Some q -> lens st !! l = Some n ->
  (forall st' e, inserted st st' l e v p q n -> Q (Some e, st')) ->
  insertValue l v (Some p) st ⇓ Q.
Proof.
  intros Hok Hp Hq Hpq Hn HQ. unfold insertValue. apply bind_returns, alloc_returns; [done|].
  intros st0 A. pose proof (al_fresh _ _ _ _ A) as Hfresh. unfold insert.
  set (e := node (free st)) in *. pose proof (al_alive _ _ _ _ A) as HA0.
  apply bind_returns. eapply (link_returns st0 e p q); try (apply HA0; auto; fail).
  { by rewrite (al_next _ _ _ _ A). } { by intros ->. } { by intros ->. }
  intros st1 W1. apply bind_returns, set_list_returns; [apply (w_alive _ _ _ _ _ W1), HA0; auto|].
  intros st2 W2. assert (Hl2 : lens st2 !! l = Some n).
  { by rewrite (w_lens _ _ _ _ _ W2), (w_lens _ _ _ _ _ W1), (al_lens _ _ _ _ A). }
  apply bind_returns, (get_len_returns _ _ _ _ Hl2), bind_returns. eapply set_len_returns; [exact Hl2|].
  intros st3 E3 L3 F3. destruct (read_elems _ _ E3) as (N3 & P3 & Li3 & V3 & A3). apply HQ. split; try done.
  - intros x. rewrite N3, (w_next _ _ _ _ _ W2), (w_next _ _ _ _ _ W1). unfold put. by rewrite (al_next _ _ _ _ A).
  - intros x. rewrite P3, (w_prev _ _ _ _ _ W2), (w_prev _ _ _ _ _ W1). unfold put. by rewrite (al_prev _ _ _ _ A).
  - intros x. rewrite Li3, (w_list _ _ _ _ _ W2). unfold put. by rewrite (w_list _ _ _ _ _ W1), (al_list _ _ _ _ A).
  - intros x. by rewrite V3, (w_value _ _ _ _ _ W2), (w_value _ _ _ _ _ W1), (al_value _ _ _ _ A).
  - intros x. by rewrite A3, (w_alive _ _ _ _ _ W2), (w_alive _ _ _ _ _ W1), HA0.
  - by rewrite L3, (w_lens _ _ _ _ _ W2), (w_lens _ _ _ _ _ W1), (al_lens _ _ _ _ A).
  - by rewrite F3, (w_free _ _ _ _ _ W2), (w_free _ _ _ _ _ W1), (al_free _ _ _ _ A).
Qed.

Lemma not_alive st x : ~ alive st x -> lists st x = None /\ nexts st x = None.
Proof. intros H. apply eq_None_not_Some in H. unfold lists, nexts. by rewrite H. Qed.

Lemma inserted_effect st st' l e v a b s p q t :
  store_ok st -> rep st l (a ++ b) -> ring st l (a ++ b) ->
  root l :: a = s ++ [p] -> b ++ [root l] = q :: t ->
  inserted st st' l e v p q (len (a ++ b)) ->
  effect st st' l (a ++ e :: b) /\ ring st' l (a ++ e :: b).
Proof.
  intros Hok R Hring Hs Hq [Hfr He HN HP HL HV HA HLen HF].
  pose proof (rep_root _ _ _ R) as Hroot. pose proof (rep_nodup _ _ _ R) as Hnd.
  destruct (split_disjoint l a b s p q t Hnd Hroot Hs Hq) as (_ & _ & _ & _ & Dp & Dq).
  assert (Hout : e ∉ root l :: a ++ b) by (by intros H%(rep_alive _ _ _ R)).
  assert (Hr : ring st' l (a ++ e :: b)) by (by eapply ring_insert).
  assert (Hperm : forall x, x ∈ a ++ e :: b <-> x = e \/ x ∈ a ++ b)
    by (intros x; rewrite !elem_of_app, elem_of_cons; tauto).
  split; [|done]. split.
  - split; [|..|by right].
    + rewrite HLen, lookup_insert_eq. f_equal. len_lia.
    + rewrite <- Permutation_middle. constructor; [|done]. intros ?. apply Hout. by right.
    + intros x [->|Hx]%Hperm; [by eexists|by apply R].
    + intros x [->|[->|Hx]%Hperm]%elem_of_cons; apply HA; [left; apply R; left|by right|left; apply R; by right].
    + intros x. rewrite HL, Hperm, <- (rep_member _ _ _ R). unfold put. case_decide; [by split; auto|].
      split; [by right|]. by intros [?|?].
    + rewrite HL, put_ne; [apply R|]. by rewrite He.
  - apply (others_intro _ _ _ (e :: root l :: a ++ b)).
    + intros x Hx. rewrite HN, HP, HL. rewrite !not_elem_of_cons in Hx. unfold put.
      repeat case_decide; subst; try done; exfalso; rewrite elem_of_cons, ?elem_of_app in *; tauto.
    + intros x Hx. apply HA. by left.
    + intros l' Hl'. rewrite HLen. by rewrite lookup_insert_ne.
    + intros x Hx. rewrite HL. unfold put. case_decide as D.
      { subst x. split; [by left|]. split; [right; by apply not_alive|]. intros l' _. by rewrite He. }
      apply elem_of_cons in Hx as [?|[->|Hx]%elem_of_cons]; [done| |].
      * rewrite (rep_rootlist _ _ _ R). split; [by right|]. split; [by right|].
        intros l' Hl' E. unfold root in E. congruence.
      * split; [left; by apply R|]. split; [left; by apply R|].
        intros l' _ ->. by destruct (rep_inr _ _ _ R _ Hx).
  - intros x Hx. split; [apply HA; by left|]. rewrite HV, put_ne; [done|]. by intros ->.
  - eapply (store_ok_step st st' l); [exact Hok|lia|apply R; left| | |].
    + intros x [?| ->]%HA; [by left|]. right. split; [done|lia].
    + intros x Hx. apply HA. by left.
    + intros x l'. rewrite HL. unfold put. case_decide; [|by left]. intros [= ->]. by right.
  - intros x [?| ->]%HA; [by left|]. right. right. apply Hperm. by left.
Qed.

(** An element of the list, and the sequence around it. *)
Lemma rep_split st l a b e :
  rep st l (a ++ e :: b) ->
  NoDup (a ++ b) /\ (root l ∉ a ++ b) /\ (e ∉ root l :: a ++ b) /\ alive st e /\ lists st e = Some l /\
  (forall x, x ∈ root l :: a ++ b -> alive st x) /\ ring st l (a ++ e :: b).
Proof.
  intros R. pose proof (rep_nodup _ _ _ R) as Hnd. rewrite <- Permutation_middle in Hnd.
  apply NoDup_cons in Hnd as [He Hnd]. pose proof (rep_root _ _ _ R) as Hr.
  assert (Hin : e ∈ a ++ e :: b) by (apply elem_of_app; right; left).
  assert (Hmono : forall x, x ∈ a ++ b -> x ∈ a ++ e :: b) by (intros x; rewrite !elem_of_app, elem_of_cons; tauto).
  split; [done|]. split; [by intros ?%Hmono|]. split.
  { intros [->|?]%elem_of_cons; [done|]. done. }
  split; [apply R; by right|]. split; [by apply R|]. split.
  - intros x [->|?%Hmono]%elem_of_cons; apply R; [left|by right].
  - destruct (rep_links _ _ _ R) as [[H _]|]; [by destruct a|done].
Qed.

(** Links between the elements a list has are all that changed. *)
Lemma effect_relinked st st' l es es' :
  store_ok st -> rep st l es -> Permutation es' es -> ring st' l es' ->
  (forall x, x ∉ root l :: es -> nexts st' x = nexts st x /\ prevs st' x = prevs st x) ->
  (forall x, lists st' x = lists st x) -> (forall x, value st' x = value st x) ->
  (forall x, alive st' x <-> alive st x) -> lens st' = lens st -> free st' = free st ->
  effect st st' l es'.
Proof.
  intros Hok R Hp Hr Hout HL HV HA Hlen HF.
  assert (Hin : forall x, x ∈ es' <-> x ∈ es) by (intros x; by rewrite Hp). split.
  - split; [|..|by right].
    + rewrite Hlen. rewrite (rep_len _ _ _ R). unfold len. by rewrite Hp.
    + rewrite Hp. apply R.
    + intros x Hx%Hin. by apply R.
    + intros x Hx. apply HA, R. rewrite elem_of_cons, Hin in Hx. by apply elem_of_cons.
    + intros x. rewrite HL, Hin. apply R.
    + rewrite HL. apply R.
  - apply (others_intro _ _ _ (root l :: es)).
    + intros x Hx. rewrite HL. destruct (Hout x Hx). done.
    + intros x. by rewrite HA.
    + intros l' _. by rewrite Hlen.
    + intros x [->|Hx]%elem_of_cons; rewrite HL.
      * rewrite (rep_rootlist _ _ _ R). split; [by right|]. split; [by right|]. intros l' Hl' E. unfold root in E. congruence.
      * rewrite (proj2 (rep_member _ _ _ R x)) by done. split; [by left|]. split; [by left|].
        intros l' _ ->. by destruct (rep_inr _ _ _ R _ Hx).
  - intros x Hx. by rewrite HA, HV.
  - eapply (store_ok_step st st' l); [exact Hok|by rewrite HF|apply R; left| | |].
    + intros x ?%HA. by left.
    + intros x. by rewrite HA.
    + intros x l'. rewrite HL. by left.
  - intros x ?%HA. by left.
Qed.

Lemma effect_refl st l es : store_ok st -> rep st l es -> effect st st l es.
Proof. intros Hok R. split; [done|by intros ? ? _|by intros ?|done|by left]. Qed.

(** The store after [e] is taken out between [p] and [q]. *)
Lemma removed_effect st st' l a b e s p q t :
  store_ok st -> rep st l (a ++ e :: b) ->
  root l :: a = s ++ [p] -> b ++ [root l] = q :: t ->
  (forall x, nexts st' x = put e None (put p (Some q) (nexts st)) x) ->
  (forall x, prevs st' x = put e None (put q (Some p) (prevs st)) x) ->
  (forall x, lists st' x = put e None (lists st) x) -> (forall x, value st' x = value st x) ->
  (forall x, alive st' x <-> alive st x) ->
  lens st' = <[l := len (a ++ e :: b) - 1]> (lens st) -> free st' = free st ->
  effect st st' l (a ++ b).
Proof.
  intros Hok R Hs Hq HN HP HL HV HA HLen HF.
  destruct (rep_split _ _ _ _ _ R) as (Hnd & Hroot & Hout & He & Hle & Hal & Hring).
  destruct (split_disjoint l a b s p q t Hnd Hroot Hs Hq) as (_ & _ & _ & _ & Dp & Dq).
  assert (Hr : ring st' l (a ++ b)).
  { eapply ring_remove; try done; intros x Hx; rewrite ?HN, ?HP; by apply put_ne. }
  assert (Hperm : forall x, x ∈ a ++ e :: b <-> x = e \/ x ∈ a ++ b)
    by (intros x; rewrite !elem_of_app, elem_of_cons; tauto).
  split.
  - split; [|done|..|by right].
    + rewrite HLen, lookup_insert_eq. f_equal. len_lia.
    + intros x Hx. apply R. apply Hperm. by right.
    + intros x Hx. by apply HA, Hal.
    + intros x. rewrite HL. unfold put. case_decide as D; [subst|].
      * split; [done|]. intros ?. destruct Hout. by right.
      * rewrite (rep_member _ _ _ R), Hperm. split; [by intros [?|?]|by right].
    + rewrite HL, put_ne; [apply R|]. intros <-. apply Hout. left.
  - apply (others_intro _ _ _ (e :: root l :: a ++ b)).
    + intros x Hx. rewrite HN, HP, HL. rewrite !not_elem_of_cons in Hx. unfold put.
      repeat case_decide; subst; try done; exfalso; rewrite elem_of_cons, ?elem_of_app in *; tauto.
    + intros x. by rewrite HA.
    + intros l' Hl'. rewrite HLen. by rewrite lookup_insert_ne.
    + intros x Hx. rewrite HL. unfold put. case_decide as D.
      { subst x. split; [by right|]. split; [by left|]. intros l' _ ->. destruct (rep_inr _ _ _ R (root l')); [|done].
        apply Hperm. by left. }
      apply elem_of_cons in Hx as [?|[->|Hx]%elem_of_cons]; [done| |].
      * rewrite (rep_rootlist _ _ _ R). split; [by right|]. split; [by right|]. intros l' Hl' E. unfold root in E. congruence.
      * rewrite (proj2 (rep_member _ _ _ R x)) by (apply Hperm; by right). split; [by left|]. split; [by left|].
        intros l' _ ->. destruct (rep_inr _ _ _ R (root l')); [|done]. apply Hperm. by right.
  - intros x Hx. by rewrite HA, HV.
  - eapply (store_ok_step st st' l); [exact Hok|by rewrite HF|apply R; left| | |].
    + intros x ?%HA. by left.
    + intros x. by rewrite HA.
    + intros x l'. rewrite HL. unfold put. case_decide; [done|by left].
  - intros x ?%HA. by left.
Qed.

(** ** The operations *)

Lemma remove_returns st l a b e (Q : unit * store V -> Prop) :
  store_ok st -> rep st l (a ++ e :: b) ->
  (forall st', effect st st' l (a ++ b) -> value st' e = value st e -> lists st' e = None -> Q (tt, st')) ->
  remove l (Some e) st ⇓ Q.
Proof.
  intros Hok R HQ. destruct (rep_split _ _ _ _ _ R) as (Hnd & Hroot & Hout & He & Hle & Hal & Hring).
  destruct (ends l a b) as (s & p & q & t & Hs & Hq).
  destruct (ring_neighbours _ _ _ _ _ _ _ _ _ Hring Hs Hq) as (Ep & Eq & _).
  destruct (split_disjoint l a b s p q t Hnd Hroot Hs Hq) as (_ & _ & _ & _ & Dp & Dq).
  assert (Hp_in : p ∈ root l :: a ++ b) by (rewrite elem_of_cons, elem_of_app in *; tauto).
  assert (Hq_in : q ∈ root l :: a ++ b) by (rewrite elem_of_cons, elem_of_app in *; tauto).
  unfold remove. apply bind_returns. eapply (unlink_returns st e p q); auto; [by intros ->|by intros ->|].
  intros st1 W1. apply bind_returns, set_next_returns; [by apply (w_alive _ _ _ _ _ W1)|].
  intros st2 W2. assert (W12 : writes st st2 (put e None (put p (Some q) (nexts st))) (put q (Some p) (prevs st)) (lists st)) by chase W1.
  apply bind_returns, set_prev_returns; [by apply (w_alive _ _ _ _ _ W12)|]. intros st3 W3.
  assert (W13 : writes st st3 (put e None (put p (Some q) (nexts st))) (put e None (put q (Some p) (prevs st))) (lists st)) by chase W12.
  apply bind_returns, set_list_returns; [by apply (w_alive _ _ _ _ _ W13)|]. intros st4 W4.
  assert (W : writes st st4 (put e None (put p (Some q) (nexts st))) (put e None (put q (Some p) (prevs st))) (put e None (lists st))) by chase W13.
  clear W1 W2 W12 W3 W13 W4. destruct W as [HN HP HL HV HA HLen HF].
  assert (Hl4 : lens st4 !! l = Some (len (a ++ e :: b))) by (rewrite HLen; apply R).
  apply bind_returns, (get_len_returns _ _ _ _ Hl4). eapply set_len_returns; [exact Hl4|].
  intros st5 E5 L5 F5. destruct (read_elems _ _ E5) as (N5 & P5 & Li5 & V5 & A5).
  apply HQ; [|by rewrite V5, HV|by rewrite Li5, HL, put_eq].
  eapply removed_effect; try done; try (intros x; rewrite ?N5, ?P5, ?Li5, ?V5, ?A5; auto).
  - by rewrite L5, HLen.
  - by rewrite F5.
Qed.

Lemma move_returns st l a b c d e s2 p2 (Q : unit * store V -> Prop) :
  store_ok st -> rep st l (a ++ e :: b) -> a ++ b = c ++ d -> root l :: c = s2 ++ [p2] ->
  (forall st', effect st st' l (c ++ e :: d) -> Q (tt, st')) ->
  move l (Some e) (Some p2) st ⇓ Q.
Proof.
  intros Hok R Hcd Hs2 HQ. destruct (rep_split _ _ _ _ _ R) as (Hnd & Hroot & Hout & He & Hle & Hal & Hring).
  destruct (ends l a b) as (s & p & q & t & Hs & Hq).
  destruct (ring_neighbours _ _ _ _ _ _ _ _ _ Hring Hs Hq) as (Ep & Eq & _).
  destruct (split_disjoint l a b s p q t Hnd Hroot Hs Hq) as (_ & _ & _ & _ & Dp & Dq).
  assert (Hin : forall x y, x ∈ root l :: y -> (forall z, z ∈ y -> z ∈ a ++ b) -> x ∈ root l :: a ++ b).
  { intros x y Hx Hy. apply elem_of_cons in Hx as [->|Hx]; [left|right; by apply Hy]. }
  assert (Hp_in : p ∈ root l :: a ++ b) by (apply (Hin _ _ Dp); intros; apply elem_of_app; by left).
  assert (Hq_in : q ∈ root l :: a ++ b) by (apply (Hin _ _ Dq); intros; apply elem_of_app; by right).
  destruct (ends l c d) as (s' & p' & q2 & t2 & Hs' & Hq2). rewrite Hs2 in Hs'. apply app_inj_tail in Hs' as [<- <-].
  pose proof Hnd as Hnd2. pose proof Hroot as Hroot2. pose proof Hout as Hout2. rewrite Hcd in Hnd2, Hroot2, Hout2.
  destruct (split_disjoint l c d s2 p2 q2 t2 Hnd2 Hroot2 Hs2 Hq2) as (_ & _ & _ & _ & Dp2 & Dq2).
  assert (Hp2_in : p2 ∈ root l :: a ++ b) by (apply (Hin _ _ Dp2); rewrite Hcd; intros; apply elem_of_app; by left).
  assert (Hq2_in : q2 ∈ root l :: a ++ b) by (apply (Hin _ _ Dq2); rewrite Hcd; intros; apply elem_of_app; by right).
  unfold move. case_decide as D; [injection D as <-; done|].
  apply bind_returns. eapply (unlink_returns st e p q); auto; [by intros ->|by intros ->|]. intros st1 W1.
  assert (Hr1 : ring st1 l (c ++ d)).
  { rewrite <- Hcd. eapply ring_remove; try done; intros x _; [apply (w_next _ _ _ _ _ W1)|apply (w_prev _ _ _ _ _ W1)]. }
  assert (Hpq2 : nexts st1 p2 = Some q2).
  { destruct (ring_split _ _ _ _ Hr1) as (s3 & p3 & q3 & t3 & Hs3 & Hq3 & _ & _ & [R3 _] & _).
    rewrite Hs2 in Hs3. apply app_inj_tail in Hs3 as [<- <-]. rewrite Hq2 in Hq3. by injection Hq3 as <- <-. }
  eapply (link_returns st1 e p2 q2); try done; try (by apply (w_alive _ _ _ _ _ W1); auto); try (by intros ->).
  intros st2 W2. apply HQ.
  assert (Hr2 : ring st2 l (c ++ e :: d)).
  { eapply (ring_insert st1 st2); try done; [apply (w_next _ _ _ _ _ W2)|apply (w_prev _ _ _ _ _ W2)]. }
  eapply effect_relinked; [done|exact R| |exact Hr2|..].
  - by rewrite <- !Permutation_middle, Hcd.
  - intros x Hx. assert (Hx' : x <> e /\ x ∉ root l :: a ++ b).
    { rewrite !elem_of_cons, !elem_of_app, !elem_of_cons in *. tauto. }
    destruct Hx' as [Hxe Hx']. assert (forall y, y ∈ root l :: a ++ b -> x <> y) as Hne by (by intros y Hy ->).
    rewrite (w_next _ _ _ _ _ W2), (w_prev _ _ _ _ _ W2), !put_ne by auto.
    by rewrite (w_next _ _ _ _ _ W1), (w_prev _ _ _ _ _ W1), !put_ne by auto.
  - intros x. by rewrite (w_list _ _ _ _ _ W2), (w_list _ _ _ _ _ W1).
  - intros x. by rewrite (w_value _ _ _ _ _ W2), (w_value _ _ _ _ _ W1).
  - intros x. by rewrite (w_alive _ _ _ _ _ W2), (w_alive _ _ _ _ _ W1).
  - by rewrite (w_lens _ _ _ _ _ W2), (w_lens _ _ _ _ _ W1).
  - by rewrite (w_free _ _ _ _ _ W2), (w_free _ _ _ _ _ W1).
Qed.

(** Init on a list without elements. *)
Lemma Init_returns st l (Q : unit * store V -> Prop) :
  store_ok st -> rep st l [] -> (forall st', effect st st' l [] -> ring st' l [] ->
    (forall x, alive st' x <-> alive st x) -> Q (tt, st')) ->
  Init l st ⇓ Q.
Proof.
  intros Hok R HQ. assert (Ha : alive st (root l)) by (apply R; left).
  unfold Init. apply bind_returns, set_next_returns; [done|]. intros st1 W1.
  apply bind_returns, set_prev_returns; [by apply (w_alive _ _ _ _ _ W1)|]. intros st2 W2.
  assert (W : writes st st2 (put (root l) (Some (root l)) (nexts st)) (put (root l) (Some (root l)) (prevs st)) (lists st)) by chase W1.
  clear W1 W2. destruct W as [HN HP HL HV HA HLen HF]. assert (Hl : lens st2 !! l = Some 0) by (rewrite HLen; apply R).
  eapply set_len_returns; [exact Hl|]. intros st3 E3 L3 F3. destruct (read_elems _ _ E3) as (N3 & P3 & Li3 & V3 & A3).
  assert (Hring : ring st3 l []).
  { constructor; [|constructor]. split; [by rewrite N3, HN, put_eq|by rewrite P3, HP, put_eq]. }
  apply HQ; [|done|intros y; by rewrite A3, HA].
  eapply effect_relinked; [done|exact R|done|done|..]; try (intros y; rewrite ?Li3, ?V3, ?A3; auto).
  - intros Hy. rewrite N3, P3, HN, HP, !put_ne; [done|..]; intros ->; apply Hy; left.
  - rewrite L3, HLen. apply insert_id, R.
  - by rewrite F3.
Qed.

(** A zero List becomes an empty ring; any other list is left as it is. *)
Lemma lazyInit_returns st l es (Q : unit * store V -> Prop) :
  store_ok st -> rep st l es -> (forall st', effect st st' l es -> ring st' l es ->
    (forall x, alive st' x <-> alive st x) -> Q (tt, st')) ->
  lazyInit l st ⇓ Q.
Proof.
  intros Hok R HQ. unfold lazyInit.
  apply bind_returns, load_returns; [apply R; left|]. intros x -> _ _ _.
  destruct (rep_links _ _ _ R) as [[-> ->]|Hr]; [by apply Init_returns|].
  destruct (ring_split st l [] es Hr) as ([|? ?] & p & q & t & Hs & _ & Hl & _ & [Hn _] & _); [|done].
  injection Hs as <-. rewrite Hn. by apply HQ; [apply effect_refl| |].
Qed.

Lemma effect_trans st1 st2 st3 l es es' :
  effect st1 st2 l es -> effect st2 st3 l es' -> (forall x, x ∈ es -> x ∈ es') -> effect st1 st3 l es'.
Proof.
  intros [_ O1 K1 _ A1] [R2 O2 K2 S2 A2] Hsub. split; [done| | |done|].
  - intros l' es2 Hl R. by apply O2, O1.
  - intros x Hx. destruct (K1 x Hx) as [Ha Hv]. destruct (K2 x Ha) as [Ha' Hv']. split; [done|congruence].
  - intros x [[?|[?|?]]%A1|?]%A2; auto.
Qed.

(** One effect after another that only adds elements. *)
Ltac and_then E2 := eapply effect_trans; [eassumption|exact E2|]; intros ?; rewrite ?elem_of_app, ?elem_of_cons, ?elem_of_app, ?elem_of_cons, ?elem_of_nil; tauto.

(** A new List is empty, and no list there is. *)
Lemma newList_returns st (Q : lptr * store V -> Prop) :
  store_ok st ->
  (forall st', let l := free st in ~ alive st (root l) -> effect st st' l [] -> Q (l, st')) -> newList st ⇓ Q.
Proof.
  intros Hok HQ. destruct Hok as [Hfr Hli]. destruct (Hfr (free st)) as [Hn Hr]; [reflexivity|].
  unfold newList. cbn [returns]. apply HQ; [done|]. set (l := free st) in *. set (z := mkElement None None None None).
  set (st' := mkStore _ _ _).
  assert (Hlk : forall x, elems st' !! x = if decide (x = root l) then Some z else elems st !! x).
  { intros x. cbn. case_decide; subst; [apply lookup_insert_eq|by apply lookup_insert_ne]. }
  assert (Hnone : elems st !! root l = None) by (by apply eq_None_not_Some).
  assert (Hsame : forall x, nexts st' x = nexts st x /\ prevs st' x = prevs st x /\ lists st' x = lists st x /\ value st' x = value st x).
  { intros x. unfold nexts, prevs, lists, value. rewrite Hlk. case_decide; subst; [by rewrite Hnone|done]. }
  assert (Ha : forall x, alive st' x <-> alive st x \/ x = root l).
  { intros x. unfold alive. rewrite Hlk. case_decide; [by split; auto|]. split; [by left|]. by intros [?|?]. }
  split.
  - split; cbn.
    + apply lookup_insert_eq.
    + constructor.
    + by intros e ?%elem_of_nil.
    + intros e ->%list_elem_of_singleton. apply Ha. by right.
    + intros e. destruct (Hsame e) as (_ & _ & -> & _). split; [by intros ?%Hli|by intros ?%elem_of_nil].
    + destruct (Hsame (root l)) as (_ & _ & -> & _). by apply not_alive.
    + left. split; [done|]. destruct (Hsame (root l)) as (-> & _). by apply not_alive.
  - apply (others_intro _ _ _ [root l]).
    + intros x _. by destruct (Hsame x) as (-> & -> & -> & _).
    + intros x Hx. apply Ha. by left.
    + intros l' Hl'. cbn. by rewrite lookup_insert_ne.
    + intros x ->%list_elem_of_singleton. destruct (Hsame (root l)) as (_ & _ & -> & _).
      destruct (not_alive _ _ Hr) as [-> _]. split; [by right|]. split; [by right|]. intros l' Hl' E. unfold root in E. congruence.
  - intros x Hx. split; [apply Ha; by left|apply Hsame].
  - split; cbn.
    + intros x Hx. destruct (Hfr x ltac:(unfold l in *; lia)) as [H1 H2].
      rewrite !Ha. split; intros [?|E]; try done. unfold root in E. injection E as ->. unfold l in Hx. lia.
    + intros e l'. destruct (Hsame e) as (_ & _ & -> & _). intros ?%Hli. apply Ha. by left.
  - intros x [?|?]%Ha; auto.
Qed.

Lemma New_returns st : store_ok st ->
  New st ⇓ (fun '(l, st') => ~ alive st (root l) /\ effect st st' l [] /\ ring st' l []).
Proof.
  intros Hok. unfold New. apply bind_returns, newList_returns; [done|]. intros st1 l Hr E1.
  apply bind_returns, Init_returns; [apply E1|apply E1|]. intros st2 E2 Hring _.
  cbn. split; [done|]. split; [and_then E2|done].
Qed.

(** A new element [e] with value [v] makes the list [f e]. *)
Definition grown st l (v : option V) (f : eptr -> list eptr) (r : option eptr * store V) : Prop :=
  let '(o, st') := r in
  exists e, o = Some e /\ ~ alive st e /\ effect st st' l (f e) /\ value st' e = v.

Lemma insertValue_returns st l v a b s p (Q : option eptr * store V -> Prop) :
  store_ok st -> rep st l (a ++ b) -> ring st l (a ++ b) -> root l :: a = s ++ [p] ->
  (forall st' e, ~ alive st e -> effect st st' l (a ++ e :: b) -> ring st' l (a ++ e :: b) -> value st' e = v -> Q (Some e, st')) ->
  insertValue l v (Some p) st ⇓ Q.
Proof.
  intros Hok R Hring Hs HQ. destruct (ring_split _ _ _ _ Hring) as (s' & p' & q & t & Hs' & Hq & _ & _ & [Hpq _] & _).
  rewrite Hs in Hs'. apply app_inj_tail in Hs' as [<- <-].
  destruct (split_disjoint l a b s p q t (rep_nodup _ _ _ R) (rep_root _ _ _ R) Hs Hq) as (_ & _ & _ & _ & Dp & Dq).
  eapply insertValue_writes; [done| | |exact Hpq|apply R|].
  { apply R. rewrite elem_of_cons, elem_of_app in *. tauto. } { apply R. rewrite elem_of_cons, elem_of_app in *. tauto. }
  intros st' e I. destruct (inserted_effect st st' l e v a b s p q t Hok R Hring Hs Hq I) as [E Hr].
  apply HQ; [apply I|done|done|]. by rewrite (in_value _ _ _ _ _ _ _ _ I), put_eq.
Qed.

(** The last element of the ring is before the root. *)
Lemma ring_back st l es s p : ring st l es -> root l :: es = s ++ [p] -> prevs st (root l) = Some p.
Proof.
  intros R Hs. rewrite <- (app_nil_r es) in R.
  destruct (ring_split _ _ _ _ R) as (s' & p' & q & t & Hs' & Hq & _ & _ & [_ Hp] & _).
  rewrite Hs in Hs'. apply app_inj_tail in Hs' as [<- <-]. by injection Hq as <- <-.
Qed.

Lemma PushFront_returns st l v es : store_ok st -> rep st l es ->
  PushFront l v st ⇓ grown st l v (fun e => e :: es).
Proof.
  intros Hok R. unfold PushFront. apply bind_returns. eapply lazyInit_returns; [done|exact R|].
  intros st1 E1 Hr1 A1. eapply (insertValue_returns st1 l v [] es []); [apply E1|apply E1|done|done|].
  intros st2 e Hf E2 _ Hv. exists e. split; [done|]. split; [by rewrite <- A1|]. split; [and_then E2|done].
Qed.

Lemma PushBack_returns st l v es : store_ok st -> rep st l es ->
  PushBack l v st ⇓ grown st l v (fun e => es ++ [e]).
Proof.
  intros Hok R. unfold PushBack. apply bind_returns. eapply lazyInit_returns; [done|exact R|].
  intros st1 E1 Hr1 A1. pose proof (eff_rep _ _ _ _ E1) as R1.
  apply bind_returns, load_returns; [apply R1; left|]. intros r _ -> _ _.
  destruct (ends l es []) as (s & p & _ & _ & Hs & _). rewrite (ring_back _ _ _ _ _ Hr1 Hs).
  eapply (insertValue_returns st1 l v es [] s); [apply E1|by rewrite app_nil_r|by rewrite app_nil_r|done|].
  intros st2 e Hf E2 _ Hv. exists e. split; [done|]. split; [by rewrite <- A1|]. split; [and_then E2|done].
Qed.

Lemma InsertAfter_returns st l v a m b : store_ok st -> rep st l (a ++ m :: b) ->
  InsertAfter l v m st ⇓ grown st l v (fun e => a ++ m :: e :: b).
Proof.
  intros Hok R. destruct (rep_split _ _ _ _ _ R) as (_ & _ & _ & Ha & Hl & _ & Hring).
  unfold InsertAfter. apply bind_returns, load_returns; [done|]. intros x _ _ -> _. rewrite Hl.
  rewrite decide_False by (intros H; by apply H).
  assert (E : a ++ m :: b = (a ++ [m]) ++ b) by (by rewrite <- app_assoc). rewrite E in R, Hring.
  eapply (insertValue_returns st l v (a ++ [m]) b (root l :: a)); try done.
  intros st2 e Hf E2 _ Hv. exists e. rewrite <- app_assoc in E2. done.
Qed.

Lemma InsertBefore_returns st l v a m b : store_ok st -> rep st l (a ++ m :: b) ->
  InsertBefore l v m st ⇓ grown st l v (fun e => a ++ e :: m :: b).
Proof.
  intros Hok R. destruct (rep_split _ _ _ _ _ R) as (_ & _ & _ & Ha & Hl & _ & Hring).
  unfold InsertBefore. apply bind_returns, load_returns; [done|]. intros x _ -> -> _. rewrite Hl.
  rewrite decide_False by (intros H; by apply H).
  destruct (ends l a b) as (s & p & q & t & Hs & Hq).
  destruct (ring_neighbours _ _ _ _ _ _ _ _ _ Hring Hs Hq) as (-> & _).
  eapply (insertValue_returns st l v a (m :: b) s); try done. intros st2 e Hf E2 _ Hv. by exists e.
Qed.

(** A mark, or an element, that is not in the list. *)
Lemma foreign st l es e : rep st l es -> alive st e -> e ∉ es -> lists st e <> Some l.
Proof. intros R _ He Hl. by apply He, R. Qed.

Lemma Remove_returns st l a e b : store_ok st -> rep st l (a ++ e :: b) ->
  Remove l e st ⇓ (fun '(v, st') => v = value st e /\ effect st st' l (a ++ b)).
Proof.
  intros Hok R. destruct (rep_split _ _ _ _ _ R) as (_ & _ & _ & Ha & Hl & _ & _).
  unfold Remove. apply bind_returns, load_returns; [done|]. intros x _ _ -> _. rewrite Hl.
  rewrite decide_True by done. apply bind_returns. eapply remove_returns; [done|exact R|].
  intros st' E Hv _. apply bind_returns, load_returns; [apply (eff_keeps _ _ _ _ E e Ha)|]. intros y _ _ _ ->. by split.
Qed.

Lemma MoveAfter_returns st l a b c d e m : store_ok st -> rep st l (a ++ e :: b) -> a ++ b = c ++ m :: d ->
  MoveAfter l e m st ⇓ (fun '(_, st') => effect st st' l (c ++ m :: e :: d)).
Proof.
  intros Hok R Hcd. destruct (rep_split _ _ _ _ _ R) as (_ & _ & Hout & Ha & Hl & Hal & _).
  assert (Hm : m ∈ a ++ b) by (rewrite Hcd; apply elem_of_app; right; left).
  unfold MoveAfter. apply bind_returns, load_returns; [done|]. intros x _ _ -> _. rewrite Hl.
  rewrite decide_False by (intros H; by apply H). rewrite decide_False by (intros ->; apply Hout; by right).
  apply bind_returns, load_returns; [apply Hal; by right|]. intros y _ _ -> _.
  rewrite (proj2 (rep_member _ _ _ R m)) by (rewrite elem_of_app, elem_of_cons in *; tauto).
  rewrite decide_False by (intros H; by apply H).
  eapply (move_returns st l a b (c ++ [m]) d e (root l :: c)); [done|done|by rewrite <- app_assoc|done|].
  intros st' E. by rewrite <- app_assoc in E.
Qed.

(** The element before [m] in [a ++ e :: b], where [m] is after [c] once [e]
    is taken out: [e] itself, or the last element of [c]. *)
Lemma before_mark st l a b c d e m : rep st l (a ++ e :: b) -> a ++ b = c ++ m :: d ->
  (prevs st m = Some e /\ a ++ e :: b = c ++ e :: m :: d) \/
  exists s p, root l :: c = s ++ [p] /\ prevs st m = Some p.
Proof.
  intros R Hcd. destruct (rep_split _ _ _ _ _ R) as (_ & _ & _ & _ & _ & _ & Hring).
  assert (Hprev : forall a' b', a ++ e :: b = a' ++ m :: b' -> forall s p, root l :: a' = s ++ [p] -> prevs st m = Some p).
  { intros a' b' E s p Hs. rewrite E in Hring. destruct (ends l a' b') as (s' & p' & q & t & Hs' & Hq).
    rewrite Hs in Hs'. apply app_inj_tail in Hs' as [<- <-]. by apply (ring_neighbours _ _ _ _ _ _ _ _ _ Hring Hs Hq). }
  assert (Hnext : b = m :: d -> a = c -> prevs st m = Some e /\ a ++ e :: b = c ++ e :: m :: d).
  { intros -> ->. split; [|done]. apply (Hprev (c ++ [e]) d) with (s := root l :: c); [by rewrite <- app_assoc|done]. }
  apply app_eq_inv in Hcd as [(k & -> & Hk)|(k & -> & ->)].
  - destruct k as [|m' k]; cbn in Hk.
    + left. apply Hnext; [done|by rewrite app_nil_r].
    + injection Hk as <- ->. right. destruct (ends l c []) as (s & p & _ & _ & Hs & _). exists s, p. split; [done|].
      apply (Hprev c (k ++ e :: b)) with (s := s); [by rewrite <- app_assoc|done].
  - destruct k as [|x k _] using rev_ind.
    + left. apply Hnext; [done|by rewrite app_nil_r].
    + right. exists (root l :: a ++ k), x. split; [by cbn; rewrite <- app_assoc|].
      apply (Hprev (a ++ e :: k ++ [x]) d) with (s := root l :: a ++ e :: k); [|by cbn; rewrite <- app_assoc].
      rewrite <- (app_assoc a). done.
Qed.

Lemma MoveBefore_returns st l a b c d e m : store_ok st -> rep st l (a ++ e :: b) -> a ++ b = c ++ m :: d ->
  MoveBefore l e m st ⇓ (fun '(_, st') => effect st st' l (c ++ e :: m :: d)).
Proof.
  intros Hok R Hcd. destruct (rep_split _ _ _ _ _ R) as (_ & _ & Hout & Ha & Hl & Hal & _).
  assert (Hm : m ∈ a ++ b) by (rewrite Hcd; apply elem_of_app; right; left).
  unfold MoveBefore. apply bind_returns, load_returns; [done|]. intros x _ _ -> _. rewrite Hl.
  rewrite decide_False by (intros H; by apply H). rewrite decide_False by (intros ->; apply Hout; by right).
  apply bind_returns, load_returns; [apply Hal; by right|]. intros y _ -> -> _.
  rewrite (proj2 (rep_member _ _ _ R m)) by (rewrite elem_of_app, elem_of_cons in *; tauto).
  rewrite decide_False by (intros H; by apply H).
  destruct (before_mark _ _ _ _ _ _ _ _ R Hcd) as [[-> E]|(s & p & Hs & ->)].
  - unfold move. rewrite decide_True by done. rewrite <- E. by apply effect_refl.
  - eapply (move_returns st l a b c (m :: d) e s); try done.
Qed.

Lemma ring_front st l es : ring st l es -> nexts st (root l) = head (es ++ [root l]).
Proof.
  intros R. destruct (ring_split st l [] es R) as ([|? ?] & p & q & t & Hs & Hq & Hl & _ & [Hn _] & _); [|done].
  injection Hs as <-. by rewrite Hq.
Qed.

Lemma MoveToFront_returns st l a e b : store_ok st -> rep st l (a ++ e :: b) ->
  MoveToFront l e st ⇓ (fun '(_, st') => effect st st' l (e :: a ++ b)).
Proof.
  intros Hok R. destruct (rep_split _ _ _ _ _ R) as (Hnd & _ & Hout & Ha & Hl & Hal & Hring).
  unfold MoveToFront. apply bind_returns, load_returns; [done|]. intros x _ _ -> _. rewrite Hl.
  rewrite decide_False by (intros H; by apply H). apply bind_returns, load_returns; [apply R; left|]. intros r -> _ _ _.
  rewrite (ring_front _ _ _ Hring). case_decide as D.
  - destruct a as [|x' a]; [by apply effect_refl|]. cbn in D. injection D as ->. destruct Hout. right. left.
  - by eapply (move_returns st l a b [] (a ++ b) e []).
Qed.

Lemma MoveToBack_returns st l a e b : store_ok st -> rep st l (a ++ e :: b) ->
  MoveToBack l e st ⇓ (fun '(_, st') => effect st st' l (a ++ b ++ [e])).
Proof.
  intros Hok R. destruct (rep_split _ _ _ _ _ R) as (Hnd & _ & Hout & Ha & Hl & Hal & Hring).
  unfold MoveToBack. apply bind_returns, load_returns; [done|]. intros x _ _ -> _. rewrite Hl.
  rewrite decide_False by (intros H; by apply H). apply bind_returns, load_returns; [apply R; left|]. intros r _ -> _ _.
  destruct b as [|p b _] using rev_ind.
  - rewrite (ring_back _ _ _ (root l :: a) e Hring) by done. rewrite decide_True by done. by apply effect_refl.
  - rewrite (ring_back _ _ _ (root l :: a ++ e :: b) p Hring) by (cbn; by rewrite <- app_assoc).
    rewrite decide_False.
    2: { intros [= ->]. apply Hout. right. rewrite !elem_of_app. right. right. left. }
    eapply (move_returns st l a (b ++ [p]) (a ++ b ++ [p]) [] e (root l :: a ++ b)); try done.
    + by rewrite app_nil_r.
    + cbn. by rewrite <- app_assoc.
    + intros st' E. by rewrite <- (app_assoc a) in E.
Qed.

(** ** Walking along a list *)

Lemma root_inj l l' : root l = root l' -> l = l'.
Proof. unfold root. congruence. Qed.

Lemma Next_returns st l a e b : rep st l (a ++ e :: b) -> Next e st = Ok (head b, st).
Proof.
  intros R. destruct (rep_split _ _ _ _ _ R) as (_ & Hr & _ & [x Hx] & Hl & _ & Hring).
  destruct (ends l a b) as (s & p & q & t & Hs & Hq).
  destruct (ring_neighbours _ _ _ _ _ _ _ _ _ Hring Hs Hq) as (_ & Hn & _).
  unfold Next, bind, load. rewrite Hx. unfold lists, nexts in *. rewrite Hx in *. cbn in *. rewrite Hl, Hn.
  destruct b as [|y b]; injection Hq as <- _; case_decide as D; try done.
  injection D as ->. destruct Hr. apply elem_of_app. right. left.
Qed.

Lemma Prev_returns st l a e b : rep st l (a ++ e :: b) -> Prev e st = Ok (last a, st).
Proof.
  intros R. destruct (rep_split _ _ _ _ _ R) as (_ & Hr & _ & [x Hx] & Hl & _ & Hring).
  destruct (ends l a b) as (s & p & q & t & Hs & Hq).
  destruct (ring_neighbours _ _ _ _ _ _ _ _ _ Hring Hs Hq) as (Hp & _).
  unfold Prev, bind, load. rewrite Hx. unfold lists, prevs in *. rewrite Hx in *. cbn in *. rewrite Hl, Hp.
  destruct a as [|y a _] using rev_ind.
  - change [root l] with ([] ++ [root l]) in Hs. apply app_inj_tail in Hs as [_ <-]. by case_decide.
  - change (root l :: a ++ [y]) with ((root l :: a) ++ [y]) in Hs. apply app_inj_tail in Hs as [_ <-]. rewrite last_snoc.
    case_decide as D; [|done]. injection D as ->. destruct Hr. rewrite !elem_of_app. left. right. left.
Qed.

Lemma Front_returns st l es : rep st l es -> Front l st = Ok (head es, st).
Proof.
  intros R. unfold Front, bind, get_len. rewrite (rep_len _ _ _ R). cbn [rbind].
  destruct es as [|e es]; [done|]. destruct (Z.eqb_spec (len (e :: es)) 0); [len_lia|].
  destruct (rep_alive _ _ _ R (root l)) as [r Hr]; [left|]. unfold load. rewrite Hr. cbn.
  destruct (rep_links _ _ _ R) as [[? _]|Hring]; [done|]. pose proof (ring_front _ _ _ Hring) as Hn.
  unfold nexts in Hn. rewrite Hr in Hn. cbn in Hn. by rewrite Hn.
Qed.

Lemma Back_returns st l es : rep st l es -> Back l st = Ok (last es, st).
Proof.
  intros R. unfold Back, bind, get_len. rewrite (rep_len _ _ _ R). cbn [rbind].
  destruct es as [|e es _] using rev_ind; [done|]. destruct (Z.eqb_spec (len (es ++ [e])) 0); [len_lia|].
  destruct (rep_alive _ _ _ R (root l)) as [r Hr]; [left|]. unfold load. rewrite Hr. cbn.
  destruct (rep_links _ _ _ R) as [[? _]|Hring]; [by destruct es|].
  pose proof (ring_back _ _ _ (root l :: es) e Hring eq_refl) as Hn.
  unfold prevs in Hn. rewrite Hr in Hn. cbn in Hn. by rewrite Hn, last_snoc.
Qed.

(** ** Copying a list, onto itself too *)

(** The new elements [news] hold, in order, what [olds] held. *)
Definition copies st st' (olds news : list eptr) : Prop :=
  value st' <$> news = value st <$> olds /\ Forall (fun n => ~ alive st n) news.

Lemma values_kept st st' es : keeps st st' -> (forall e, e ∈ es -> alive st e) -> value st' <$> es = value st <$> es.
Proof.
  intros K Ha. apply list_fmap_ext. intros i x Hx%list_elem_of_lookup_2. by apply K, Ha.
Qed.

Lemma copies_later st st1 st' olds news :
  keeps st st1 -> (forall o, o ∈ olds -> alive st o) -> copies st1 st' olds news -> copies st st' olds news.
Proof.
  intros K Ha [Hv Hn]. split; [by rewrite Hv, (values_kept st st1)|].
  eapply Forall_impl; [exact Hn|]. intros n H H'. by apply H, K.
Qed.

Lemma pushBackCopies_returns rest : forall st l other pre extra cur o,
  store_ok st -> rep st other (pre ++ rest ++ extra) -> rep st l cur -> ring st l cur ->
  (other = l -> cur = pre ++ rest ++ extra) -> (rest <> [] -> o = head rest) ->
  pushBackCopies l (length rest) o st ⇓ (fun '(_, st') =>
    exists news, effect st st' l (cur ++ news) /\ copies st st' rest news).
Proof.
  induction rest as [|x rest IH]; intros st l other pre extra cur o Hok Ro R Hr Hsame Ho.
  { exists []. rewrite app_nil_r. split; [by apply effect_refl|]. done. }
  rewrite (Ho ltac:(done)). cbn [length pushBackCopies head].
  assert (Hin : forall y, y ∈ x :: rest -> alive st y).
  { intros y Hy. apply Ro. right. rewrite !elem_of_app. auto. }
  apply bind_returns, load_returns; [apply Hin; left|]. intros ex _ _ _ ->.
  apply bind_returns, load_returns; [apply R; left|]. intros r _ -> _ _.
  destruct (ends l cur []) as (s & p & _ & _ & Hs & _). rewrite (ring_back _ _ _ _ _ Hr Hs).
  apply bind_returns. eapply (insertValue_returns st l _ cur [] s); rewrite ?app_nil_r; try done.
  intros st1 e1 Hf E1 Hr1 Hv1. set (extra' := if decide (other = l) then extra ++ [e1] else extra).
  assert (Ro1 : rep st1 other (pre ++ x :: rest ++ extra')).
  { unfold extra'. case_decide as D; [|by apply (eff_others _ _ _ _ E1)].
    subst other. pose proof (eff_rep _ _ _ _ E1) as R1. rewrite (Hsame eq_refl), <- !app_assoc in R1. done. }
  apply bind_returns. rewrite (Next_returns _ _ _ _ _ Ro1). cbn [returns].
  assert (R1' : pre ++ x :: rest ++ extra' = (pre ++ [x]) ++ rest ++ extra') by (by rewrite <- app_assoc).
  rewrite R1' in Ro1. eapply returns_mono; [eapply (IH st1 l other (pre ++ [x]) extra' (cur ++ [e1])); try done|].
  - apply E1.
  - apply E1.
  - intros Heq. rewrite <- R1'. unfold extra'. rewrite decide_True by done. rewrite (Hsame Heq), <- !app_assoc. done.
  - intros Hne. by destruct rest.
  - intros [_ st'] (news & E2 & Hc). exists (e1 :: news). rewrite <- app_assoc in E2. split; [and_then E2|].
    assert (K1 := eff_keeps _ _ _ _ E1). destruct (copies_later st st1 st' rest news K1) as [Hv Hn]; [|done|].
    { intros y Hy. apply Hin. by right. }
    split; [|by constructor]. cbn. rewrite Hv. f_equal. rewrite <- Hv1. apply E2.
    apply E1. right. apply elem_of_app. right. left.
Qed.

Lemma pushFrontCopies_returns rest : forall st l other extra post cur o,
  store_ok st -> rep st other (extra ++ rest ++ post) -> rep st l cur -> ring st l cur ->
  (other = l -> cur = extra ++ rest ++ post) -> (rest <> [] -> o = last rest) ->
  pushFrontCopies l (length rest) o st ⇓ (fun '(_, st') =>
    exists news, effect st st' l (news ++ cur) /\ copies st st' rest news).
Proof.
  induction rest as [|x rest IH] using rev_ind; intros st l other extra post cur o Hok Ro R Hr Hsame Ho.
  { exists []. split; [by apply effect_refl|]. done. }
  rewrite (Ho ltac:(by destruct rest)), last_snoc, length_app, Nat.add_comm. cbn [length Nat.add pushFrontCopies].
  assert (Hin : forall y, y ∈ rest ++ [x] -> alive st y).
  { intros y Hy. apply Ro. right. rewrite !(elem_of_app extra), !(elem_of_app _ post). auto. }
  apply bind_returns, load_returns; [apply Hin, elem_of_app; right; left|]. intros ex _ _ _ ->.
  apply bind_returns. eapply (insertValue_returns st l _ [] cur []); try done.
  intros st1 e1 Hf E1 Hr1 Hv1. set (extra' := if decide (other = l) then e1 :: extra else extra).
  assert (Ro1 : rep st1 other ((extra' ++ rest) ++ x :: post)).
  { unfold extra'. rewrite <- !app_assoc in *. case_decide as D; [|by apply (eff_others _ _ _ _ E1)].
    subst other. pose proof (eff_rep _ _ _ _ E1) as R1. rewrite (Hsame eq_refl) in R1. done. }
  apply bind_returns. rewrite (Prev_returns _ _ _ _ _ Ro1). cbn [returns].
  rewrite <- app_assoc in Ro1.
  eapply returns_mono; [eapply (IH st1 l other extra' (x :: post) (e1 :: cur)); try done|].
  - apply E1.
  - apply E1.
  - intros Heq. unfold extra'. rewrite decide_True by done. rewrite (Hsame Heq), <- !app_assoc. done.
  - intros Hne. destruct rest as [|y rest _] using rev_ind; [done|]. by rewrite app_assoc, !last_snoc.
  - intros [_ st'] (news & E2 & Hc). exists (news ++ [e1]). rewrite <- app_assoc. split; [and_then E2|].
    assert (K1 := eff_keeps _ _ _ _ E1). destruct (copies_later st st1 st' rest news K1) as [Hv Hn]; [|done|].
    { intros y Hy. apply Hin, elem_of_app. by left. }
    split; [|by apply Forall_app_2; [|constructor]]. rewrite !fmap_app, Hv. f_equal. cbn. f_equal.
    rewrite <- Hv1. apply E2. apply E1. right. left.
Qed.

(** The lists [l] and [other], which may be the same. *)
Lemma PushBackList_returns st l other es os :
  store_ok st -> rep st l es -> rep st other os -> (other = l -> os = es) ->
  PushBackList l other st ⇓ (fun '(_, st') =>
    exists news, effect st st' l (es ++ news) /\ copies st st' os news).
Proof.
  intros Hok R Ro Hsame. unfold PushBackList. apply bind_returns. eapply lazyInit_returns; [done|exact R|].
  intros st1 E1 Hr1 A1.
  assert (Ro1 : rep st1 other ([] ++ os ++ [])).
  { rewrite app_nil_r. destruct (decide (other = l)) as [->|]; [rewrite Hsame by done; apply E1|].
    by apply (eff_others _ _ _ _ E1). }
  cbn [app] in Ro1. apply bind_returns, (get_len_returns _ _ _ _ (rep_len _ _ _ Ro1)), bind_returns.
  rewrite (Front_returns _ _ _ Ro1). cbn [returns]. rewrite app_nil_r in *. unfold len. rewrite Nat2Z.id.
  eapply returns_mono; [eapply (pushBackCopies_returns os st1 l other [] [] es); rewrite ?app_nil_r; try done; [apply E1|apply E1|]|].
  - intros Heq. by rewrite Hsame.
  - intros [_ st'] (news & E2 & Hc). exists news. split; [and_then E2|].
    eapply copies_later; [apply E1| |done]. intros o Ho. apply Ro. by right.
Qed.

Lemma PushFrontList_returns st l other es os :
  store_ok st -> rep st l es -> rep st other os -> (other = l -> os = es) ->
  PushFrontList l other st ⇓ (fun '(_, st') =>
    exists news, effect st st' l (news ++ es) /\ copies st st' os news).
Proof.
  intros Hok R Ro Hsame. unfold PushFrontList. apply bind_returns. eapply lazyInit_returns; [done|exact R|].
  intros st1 E1 Hr1 A1.
  assert (Ro1 : rep st1 other os).
  { destruct (decide (other = l)) as [->|]; [rewrite Hsame by done; apply E1|]. by apply (eff_others _ _ _ _ E1). }
  apply bind_returns, (get_len_returns _ _ _ _ (rep_len _ _ _ Ro1)), bind_returns.
  rewrite (Back_returns _ _ _ Ro1). cbn [returns]. unfold len. rewrite Nat2Z.id.
  eapply returns_mono; [eapply (pushFrontCopies_returns os st1 l other [] [] es); rewrite ?app_nil_r; try done; [apply E1|apply E1|]|].
  - intros Heq. by rewrite Hsame.
  - intros [_ st'] (news & E2 & Hc). exists news. split; [and_then E2|].
    eapply copies_later; [apply E1| |done]. intros o Ho. apply Ro. by right.
Qed.
End Correct.
