(* ===== verification/LinkedListSpec.v ===== *)
(** * Package container/list: the abstract lists it implements

    A client of the package sees lists as finite sequences of elements, each
    element with a value: the state [lists].  [astep] is what each method does
    to it, as the documentation says; [run] calls the method of the model.
    The store implements the abstract state step by step. *)
From Stdlib Require Import ZArith Lia.
From stdpp Require Import base numbers list gmap.
From S2P Require Import Prelude LinkedList LinkedListCorrect.

Section Spec.
Context {V : Type}.

Inductive call :=
| CNew
| CPushFront (l : lptr) (v : option V)
| CPushBack (l : lptr) (v : option V)
| CInsertBefore (l : lptr) (v : option V) (mark : eptr)
| CInsertAfter (l : lptr) (v : option V) (mark : eptr)
| CRemove (l : lptr) (e : eptr)
| CMoveToFront (l : lptr) (e : eptr)
| CMoveToBack (l : lptr) (e : eptr)
| CMoveBefore (l : lptr) (e mark : eptr)
| CMoveAfter (l : lptr) (e mark : eptr)
| CPushBackList (l other : lptr)
| CPushFrontList (l other : lptr).

(** The effect of a call on the store, its result dropped. *)
Definition runM {A} (m : M V A) (st : store V) : res (store V) := let! '(_, st) := m st in Ok st.

Definition run (c : call) : store V -> res (store V) :=
  match c with
  | CNew => runM New
  | CPushFront l v => runM (PushFront l v)
  | CPushBack l v => runM (PushBack l v)
  | CInsertBefore l v m => runM (InsertBefore l v m)
  | CInsertAfter l v m => runM (InsertAfter l v m)
  | CRemove l e => runM (Remove l e)
  | CMoveToFront l e => runM (MoveToFront l e)
  | CMoveToBack l e => runM (MoveToBack l e)
  | CMoveBefore l e m => runM (MoveBefore l e m)
  | CMoveAfter l e m => runM (MoveAfter l e m)
  | CPushBackList l o => runM (PushBackList l o)
  | CPushFrontList l o => runM (PushFrontList l o)
  end.

(** The sequence of each list and the value of each element. *)
Record alists := mkAlists {
  seqs : gmap lptr (list eptr);
  vals : gmap eptr (option V);
}.

Definition with_seq (a : alists) (l : lptr) (es : list eptr) : alists := mkAlists (<[l := es]> (seqs a)) (vals a).

(** New elements [es] with the values [vs]. *)
Definition with_vals (a : alists) (es : list eptr) (vs : list (option V)) : alists :=
  mkAlists (seqs a) (list_to_map (zip es vs) ∪ vals a).

Definition fresh_in (a : alists) (es : list eptr) : Prop := Forall (fun e => vals a !! e = None) es.

(** How the sequence of [l] changes, with [news] the elements a call adds. *)
Inductive seq_step (a : alists) : call -> lptr -> list eptr -> list eptr -> list eptr -> list (option V) -> Prop :=
| s_push_front l v es e : seq_step a (CPushFront l v) l es (e :: es) [e] [v]
| s_push_back l v es e : seq_step a (CPushBack l v) l es (es ++ [e]) [e] [v]
| s_insert_before l v m x y e : seq_step a (CInsertBefore l v m) l (x ++ m :: y) (x ++ e :: m :: y) [e] [v]
| s_insert_after l v m x y e : seq_step a (CInsertAfter l v m) l (x ++ m :: y) (x ++ m :: e :: y) [e] [v]
| s_remove l e x y : seq_step a (CRemove l e) l (x ++ e :: y) (x ++ y) [] []
| s_move_front l e x y : seq_step a (CMoveToFront l e) l (x ++ e :: y) (e :: x ++ y) [] []
| s_move_back l e x y : seq_step a (CMoveToBack l e) l (x ++ e :: y) (x ++ y ++ [e]) [] []
| s_move_before l e m x y x' y' : x ++ y = x' ++ m :: y' ->
    seq_step a (CMoveBefore l e m) l (x ++ e :: y) (x' ++ e :: m :: y') [] []
| s_move_after l e m x y x' y' : x ++ y = x' ++ m :: y' ->
    seq_step a (CMoveAfter l e m) l (x ++ e :: y) (x' ++ m :: e :: y') [] []
| s_back_list l o es os news : seqs a !! o = Some os ->
    seq_step a (CPushBackList l o) l es (es ++ news) news ((fun e => default None (vals a !! e)) <$> os)
| s_front_list l o es os news : seqs a !! o = Some os ->
    seq_step a (CPushFrontList l o) l es (news ++ es) news ((fun e => default None (vals a !! e)) <$> os).

(** The calls that leave everything as it is: an element or a mark of another
    list, or an element moved next to itself. *)
Definition no_effect (a : alists) (c : call) : Prop :=
  exists l es, seqs a !! l = Some es /\
  match c with
  | CInsertBefore l' _ m | CInsertAfter l' _ m => l' = l /\ m ∉ es
  | CRemove l' e | CMoveToFront l' e | CMoveToBack l' e => l' = l /\ e ∉ es
  | CMoveBefore l' e m | CMoveAfter l' e m => l' = l /\ (e ∉ es \/ m ∉ es \/ e = m)
  | _ => False
  end.

Inductive astep (a : alists) (c : call) : alists -> Prop :=
| a_new l : c = CNew -> seqs a !! l = None -> astep a c (with_seq a l [])
| a_change l es es' news vs :
    seq_step a c l es es' news vs -> seqs a !! l = Some es -> fresh_in a news -> length news = length vs ->
    astep a c (with_seq (with_vals a news vs) l es')
| a_none : no_effect a c -> astep a c a.

(** The pointers of a call are to lists and elements that exist. *)
Definition valid (a : alists) (c : call) : Prop :=
  match c with
  | CNew => True
  | CPushFront l _ | CPushBack l _ => is_Some (seqs a !! l)
  | CInsertBefore l _ e | CInsertAfter l _ e | CRemove l e | CMoveToFront l e | CMoveToBack l e =>
      is_Some (seqs a !! l) /\ is_Some (vals a !! e)
  | CMoveBefore l e m | CMoveAfter l e m => is_Some (seqs a !! l) /\ is_Some (vals a !! e) /\ is_Some (vals a !! m)
  | CPushBackList l o | CPushFrontList l o => is_Some (seqs a !! l) /\ is_Some (seqs a !! o)
  end.

(** ** The simulation *)

Record implements (st : store V) (a : alists) : Prop := {
  im_ok : store_ok st;
  im_seqs : forall l es, seqs a !! l = Some es -> rep st l es;
  im_lists : forall l, alive st (root l) -> is_Some (seqs a !! l);
  im_vals : forall e v, vals a !! e = Some v -> alive st e /\ value st e = v;
  im_nodes : forall e, alive st e -> is_Some (vals a !! e) \/ exists l, e = root l;
  im_disjoint : forall l, vals a !! root l = None;
}.

Lemma with_vals_nil a : with_vals a [] [] = a.
Proof. destruct a. unfold with_vals. cbn. by rewrite (left_id_L ∅ (∪)). Qed.

Lemma new_vals (st' : store V) news e v :
  (list_to_map (zip news (value st' <$> news)) : gmap eptr (option V)) !! e = Some v -> e ∈ news /\ value st' e = v.
Proof.
  intros H%elem_of_list_to_map_2. induction news as [|n news IH]; cbn in H; [by apply elem_of_nil in H|].
  apply elem_of_cons in H as [[= -> ->]|H]; [split; [left|done]|]. destruct (IH H) as [? ?]. split; [by right|done].
Qed.

Lemma new_vals_some (f : eptr -> option V) news e : e ∈ news ->
  is_Some ((list_to_map (zip news (f <$> news)) : gmap eptr (option V)) !! e).
Proof.
  intros He. destruct (_ !! e) eqn:E; [done|]. apply not_elem_of_list_to_map_2 in E. exfalso. apply E.
  rewrite fst_zip; [done|]. by rewrite length_fmap.
Qed.

Lemma implements_effect st st' a l es' news :
  implements st a -> effect st st' l es' ->
  Forall (fun n => ~ alive st n) news -> (forall n, n ∈ news -> n ∈ es') ->
  (forall x, x ∈ es' -> alive st x \/ x ∈ news) ->
  implements st' (with_seq (with_vals a news (value st' <$> news)) l es') /\ fresh_in a news.
Proof.
  intros I E Hnew Hin Hsub. pose proof (eff_rep _ _ _ _ E) as R.
  assert (Hroot : forall l', root l' ∉ news).
  { intros l' H%Hin. by destruct (rep_inr _ _ _ R _ H). }
  split.
  2: { apply Forall_forall. intros n Hn. destruct (vals a !! n) eqn:Ev; [|done].
    rewrite Forall_forall in Hnew. exfalso. apply (Hnew n Hn). by apply (im_vals _ _ I _ _ Ev). }
  split.
  - apply E.
  - intros l' es. cbn. destruct (decide (l' = l)) as [->|Hl].
    + rewrite lookup_insert_eq. by intros [= <-].
    + rewrite lookup_insert_ne by done. intros H%(im_seqs _ _ I). by apply (eff_others _ _ _ _ E).
  - intros l' Ha. cbn. destruct (decide (l' = l)) as [->|Hl]; [rewrite lookup_insert_eq; eauto|].
    rewrite lookup_insert_ne by done. apply (eff_alive _ _ _ _ E) in Ha as [?|[Hr|H]].
    + by apply (im_lists _ _ I).
    + by apply root_inj in Hr.
    + by destruct (rep_inr _ _ _ R _ H).
  - intros e v. cbn. rewrite lookup_union_Some_raw. intros [[H Hv]%new_vals|[_ H%(im_vals _ _ I)]].
    + split; [|done]. apply R. right. by apply Hin.
    + destruct H as [Ha <-]. by apply (eff_keeps _ _ _ _ E).
  - intros e Ha. cbn. rewrite lookup_union_is_Some.
    assert (Hcase : alive st e \/ e = root l \/ e ∈ news).
    { apply (eff_alive _ _ _ _ E) in Ha as [?|[?|[?|?]%Hsub]]; auto. }
    destruct Hcase as [H|[H|H]]; [|by right; exists l|left; left; by apply new_vals_some].
    destruct (im_nodes _ _ I _ H); [left; by right|by right].
  - intros l'. cbn. apply lookup_union_None. split; [|apply (im_disjoint _ _ I)].
    destruct (_ !! root l') eqn:Ev; [|done]. apply new_vals in Ev as [H _]. by apply Hroot in H.
Qed.

Lemma runM_returns {A} (m : M V A) st (Q : store V -> Prop) :
  m st ⇓ (fun '(_, st') => Q st') -> runM m st ⇓ Q.
Proof. intros H. eapply returns_bind_mono; [exact H|]. by intros [x st']. Qed.

(** A call that changes the sequence of one list. *)
Lemma sim_change st st' a c l es es' news :
  implements st a -> seqs a !! l = Some es -> effect st st' l es' ->
  Forall (fun n => ~ alive st n) news -> seq_step a c l es es' news (value st' <$> news) ->
  (forall n, n ∈ news -> n ∈ es') -> (forall x, x ∈ es' -> x ∈ es \/ x ∈ news) ->
  exists a', astep a c a' /\ implements st' a'.
Proof.
  intros I Hl E Hnew Hstep Hin Hsub. destruct (implements_effect st st' a l es' news I E Hnew Hin) as [I' Hf].
  { intros x [Hx|Hx]%Hsub; [left|by right]. apply (im_seqs _ _ I _ _ Hl). by right. }
  eexists. split; [|exact I']. eapply a_change; [exact Hstep|done|done|by rewrite length_fmap].
Qed.

(** The calls that add one element. *)
Lemma sim_grown st a c l es v f (m : M V (option eptr)) :
  implements st a -> seqs a !! l = Some es -> m st ⇓ grown st l v f ->
  (forall e, seq_step a c l es (f e) [e] [v]) -> (forall e, e ∈ f e) -> (forall e x, x ∈ f e -> x ∈ es \/ x = e) ->
  runM m st ⇓ (fun st' => exists a', astep a c a' /\ implements st' a').
Proof.
  intros I Hl Hm Hstep Hin Hsub. apply runM_returns. eapply returns_mono; [exact Hm|].
  intros [o st'] (e & -> & Hf & E & Hv). eapply (sim_change st st' a c l es (f e) [e]); try done.
  - by repeat constructor.
  - cbn. rewrite Hv. apply Hstep.
  - by intros n ->%list_elem_of_singleton.
  - intros x [?| ->]%Hsub; [by left|right; left].
Qed.

(** The calls that add none. *)
Lemma sim_same {A} st a c l es es' (m : M V A) :
  implements st a -> seqs a !! l = Some es -> m st ⇓ (fun '(_, st') => effect st st' l es') ->
  seq_step a c l es es' [] [] -> (forall x, x ∈ es' -> x ∈ es) ->
  runM m st ⇓ (fun st' => exists a', astep a c a' /\ implements st' a').
Proof.
  intros I Hl Hm Hstep Hsub. apply runM_returns. eapply returns_mono; [exact Hm|]. intros [o st'] E.
  eapply (sim_change st st' a c l es es' []); try done; [by intros ? ?%elem_of_nil|]. intros x ?%Hsub. by left.
Qed.

Lemma sim_none {A} st a c (m : M V A) :
  implements st a -> no_effect a c -> m st ⇓ (fun '(_, st') => st' = st) ->
  runM m st ⇓ (fun st' => exists a', astep a c a' /\ implements st' a').
Proof.
  intros I Hn Hm. apply runM_returns. eapply returns_mono; [exact Hm|]. intros [o st'] ->.
  exists a. split; [by apply a_none|done].
Qed.

(** An element of the abstract state is in the list, or not in it and then its
    list field is another one. *)
Lemma element_cases st a l es e :
  implements st a -> seqs a !! l = Some es -> is_Some (vals a !! e) ->
  alive st e /\ ((exists x y, es = x ++ e :: y) \/ ((e ∉ es) /\ lists st e <> Some l)).
Proof.
  intros I Hl [v Hv]. pose proof (im_seqs _ _ I _ _ Hl) as R. destruct (im_vals _ _ I _ _ Hv) as [Ha _].
  split; [done|]. destruct (decide (e ∈ es)) as [Hin|Hn].
  - left. by apply list_elem_of_split in Hin.
  - right. split; [done|]. by eapply foreign.
Qed.

Ltac elem_tac := intros; rewrite ?elem_of_app, ?elem_of_cons, ?elem_of_app, ?elem_of_cons, ?elem_of_nil in *; tauto.
(** The first test of a method, on an element that is not the list's. *)
Ltac not_mine Ha := apply bind_returns, load_returns; [exact Ha|]; intros ? _ _ -> _; rewrite decide_True by done; done.

Lemma sim_inserts st a c :
  implements st a -> valid a c ->
  match c with CPushFront _ _ | CPushBack _ _ | CInsertBefore _ _ _ | CInsertAfter _ _ _ => True | _ => False end ->
  run c st ⇓ (fun st' => exists a', astep a c a' /\ implements st' a').
Proof.
  intros I Hv Hc. pose proof (im_ok _ _ I) as Hok. destruct c as [|l v|l v|l v m|l v m| | | | | | |]; try done; cbn [run].
  - destruct Hv as [es Hl]. eapply (sim_grown st a _ l es v (fun e => e :: es)); try done;
      [apply PushFront_returns; [done|by apply (im_seqs _ _ I)]|constructor|elem_tac|elem_tac].
  - destruct Hv as [es Hl]. eapply (sim_grown st a _ l es v (fun e => es ++ [e])); try done;
      [apply PushBack_returns; [done|by apply (im_seqs _ _ I)]|constructor|elem_tac|elem_tac].
  - destruct Hv as [[es Hl] Hm]. destruct (element_cases st a l es m I Hl Hm) as [Ha [(x & y & ->)|[Hn Hf]]].
    + eapply (sim_grown st a _ l _ v (fun e => x ++ e :: m :: y)); try done;
        [apply InsertBefore_returns; [done|by apply (im_seqs _ _ I)]|constructor|elem_tac|elem_tac].
    + apply sim_none; [done|by exists l, es|]. unfold InsertBefore. not_mine Ha.
  - destruct Hv as [[es Hl] Hm]. destruct (element_cases st a l es m I Hl Hm) as [Ha [(x & y & ->)|[Hn Hf]]].
    + eapply (sim_grown st a _ l _ v (fun e => x ++ m :: e :: y)); try done;
        [apply InsertAfter_returns; [done|by apply (im_seqs _ _ I)]|constructor|elem_tac|elem_tac].
    + apply sim_none; [done|by exists l, es|]. unfold InsertAfter. not_mine Ha.
Qed.

Lemma sim_removes st a c :
  implements st a -> valid a c ->
  match c with CRemove _ _ | CMoveToFront _ _ | CMoveToBack _ _ => True | _ => False end ->
  run c st ⇓ (fun st' => exists a', astep a c a' /\ implements st' a').
Proof.
  intros I Hv Hc. pose proof (im_ok _ _ I) as Hok. destruct c as [| | | | |l e|l e|l e| | | |]; try done; cbn [run];
    destruct Hv as [[es Hl] Hm]; destruct (element_cases st a l es e I Hl Hm) as [Ha [(x & y & ->)|[Hn Hf]]].
  - eapply (sim_same st a _ l _ (x ++ y)); try done; [|constructor|elem_tac].
    eapply returns_mono; [apply (Remove_returns st l x e y); [done|by apply (im_seqs _ _ I)]|]. by intros [v st'] [_ E].
  - apply sim_none; [done|by exists l, es|]. unfold Remove. apply bind_returns, load_returns; [done|]. intros ? _ _ -> _.
    rewrite decide_False by done. apply bind_returns. cbn. apply bind_returns, load_returns; [done|]. done.
  - eapply (sim_same st a _ l _ (e :: x ++ y)); try done; [|constructor|elem_tac].
    apply MoveToFront_returns; [done|by apply (im_seqs _ _ I)].
  - apply sim_none; [done|by exists l, es|]. unfold MoveToFront. not_mine Ha.
  - eapply (sim_same st a _ l _ (x ++ y ++ [e])); try done; [|constructor|elem_tac].
    apply MoveToBack_returns; [done|by apply (im_seqs _ _ I)].
  - apply sim_none; [done|by exists l, es|]. unfold MoveToBack. not_mine Ha.
Qed.

(** An element and a mark in the same list, and what is around the mark. *)
Lemma mark_split x e y m : (m : eptr) <> e -> m ∈ x ++ e :: y -> exists x' y', x ++ y = x' ++ m :: y'.
Proof.
  intros Hne Hin. assert (H : m ∈ x ++ y).
  { rewrite elem_of_app in *. rewrite elem_of_cons in Hin. tauto. }
  by apply list_elem_of_split in H.
Qed.

Lemma sim_moves st a c :
  implements st a -> valid a c ->
  match c with CMoveBefore _ _ _ | CMoveAfter _ _ _ => True | _ => False end ->
  run c st ⇓ (fun st' => exists a', astep a c a' /\ implements st' a').
Proof.
  intros I Hv Hc. pose proof (im_ok _ _ I) as Hok. destruct c as [| | | | | | | |l e m|l e m| |]; try done; cbn [run];
    destruct Hv as ([es Hl] & He & Hm); pose proof (im_seqs _ _ I _ _ Hl) as R;
    destruct (element_cases st a l es m I Hl Hm) as [Ham Hmark];
    destruct (element_cases st a l es e I Hl He) as [Hae [(x & y & ->)|[Hn Hf]]].
  - assert (Hle : lists st e = Some l) by (apply R, elem_of_app; right; left).
    destruct (decide (e = m)) as [<-|Hne].
    { apply sim_none; [done|eexists l, _; split; [done|]; cbn; auto|]. unfold MoveBefore. apply bind_returns, load_returns; [done|].
      intros ? _ _ -> _. rewrite Hle, decide_False by (intros H; by apply H). by rewrite decide_True. }
    destruct Hmark as [(x' & y' & E)|[Hnm Hfm]].
    + destruct (mark_split x e y m) as (c & d & Hcd); [done|rewrite E; apply elem_of_app; right; left|].
      eapply (sim_same st a _ l _ (c ++ e :: m :: d)); try done; [by apply (MoveBefore_returns st l x y)|by constructor|].
      intros z Hz. assert (z = e \/ z ∈ x ++ y) as Hz' by (rewrite Hcd; elem_tac). elem_tac.
    + apply sim_none; [done|eexists l, _; split; [done|]; cbn; auto|]. unfold MoveBefore. apply bind_returns, load_returns; [done|].
      intros ? _ _ -> _. rewrite Hle, decide_False by (intros H; by apply H). rewrite decide_False by done. not_mine Ham.
  - apply sim_none; [done|eexists l, _; split; [done|]; cbn; auto|]. unfold MoveBefore. not_mine Hae.
  - assert (Hle : lists st e = Some l) by (apply R, elem_of_app; right; left).
    destruct (decide (e = m)) as [<-|Hne].
    { apply sim_none; [done|eexists l, _; split; [done|]; cbn; auto|]. unfold MoveAfter. apply bind_returns, load_returns; [done|].
      intros ? _ _ -> _. rewrite Hle, decide_False by (intros H; by apply H). by rewrite decide_True. }
    destruct Hmark as [(x' & y' & E)|[Hnm Hfm]].
    + destruct (mark_split x e y m) as (c & d & Hcd); [done|rewrite E; apply elem_of_app; right; left|].
      eapply (sim_same st a _ l _ (c ++ m :: e :: d)); try done; [by apply (MoveAfter_returns st l x y)|by constructor|].
      intros z Hz. assert (z = e \/ z ∈ x ++ y) as Hz' by (rewrite Hcd; elem_tac). elem_tac.
    + apply sim_none; [done|eexists l, _; split; [done|]; cbn; auto|]. unfold MoveAfter. apply bind_returns, load_returns; [done|].
      intros ? _ _ -> _. rewrite Hle, decide_False by (intros H; by apply H). rewrite decide_False by done. not_mine Ham.
  - apply sim_none; [done|eexists l, _; split; [done|]; cbn; auto|]. unfold MoveAfter. not_mine Hae.
Qed.

(** The values the abstract state gives to the elements of a list. *)
Lemma list_values st a l es : implements st a -> seqs a !! l = Some es ->
  value st <$> es = (fun e => default None (vals a !! e)) <$> es.
Proof.
  intros I Hl. pose proof (im_seqs _ _ I _ _ Hl) as R. apply list_fmap_ext. intros i e He%list_elem_of_lookup_2.
  destruct (im_nodes _ _ I e) as [[v Hv]|[l' ->]]; [apply R; by right| |by destruct (rep_inr _ _ _ R _ He)].
  rewrite Hv. cbn. by apply (im_vals _ _ I).
Qed.

Lemma sim_lists st a c :
  implements st a -> valid a c ->
  match c with CNew | CPushBackList _ _ | CPushFrontList _ _ => True | _ => False end ->
  run c st ⇓ (fun st' => exists a', astep a c a' /\ implements st' a').
Proof.
  intros I Hv Hc. pose proof (im_ok _ _ I) as Hok. destruct c as [| | | | | | | | | |l o|l o]; try done; cbn [run].
  { apply runM_returns. eapply returns_mono; [by apply New_returns|]. intros [l st'] (Hf & E & _).
    destruct (implements_effect st st' a l [] [] I E) as [I' _]; [done|by intros ? ?|by intros ? ?%elem_of_nil|].
    eexists. split; [|exact I']. cbn. rewrite with_vals_nil. apply a_new; [done|].
    destruct (seqs a !! l) eqn:Es; [|done]. exfalso. apply Hf. apply (im_seqs _ _ I _ _ Es). left. }
  all: destruct Hv as [[es Hl] [os Ho]].
  all: pose proof (im_seqs _ _ I _ _ Hl) as R; pose proof (im_seqs _ _ I _ _ Ho) as Ro.
  all: assert (Hsame : o = l -> os = es) by (intros ->; congruence).
  - apply runM_returns. eapply returns_mono; [by apply (PushBackList_returns st l o es os)|].
    intros [u st'] (news & E & Hv & Hn). eapply (sim_change st st' a _ l es (es ++ news) news); try done.
    + rewrite Hv, (list_values st a o os I Ho). by constructor.
    + elem_tac.
    + elem_tac.
  - apply runM_returns. eapply returns_mono; [by apply (PushFrontList_returns st l o es os)|].
    intros [u st'] (news & E & Hv & Hn). eapply (sim_change st st' a _ l es (news ++ es) news); try done.
    + rewrite Hv, (list_values st a o os I Ho). by constructor.
    + elem_tac.
    + elem_tac.
Qed.

(** C22: The package implements abstract lists: where the store implements an
    abstract state, any method called with existing lists and elements returns
    without following a nil pointer, and the store it leaves implements a state
    the documented effect of the method leads to (New, the pushes and inserts,
    Remove, the moves, and the list copies, with a list copied onto itself
    included; an element or mark of another list changes nothing). *)
Theorem List_refines st a c :
  implements st a -> valid a c ->
  run c st ⇓ (fun st' => exists a', astep a c a' /\ implements st' a').
Proof.
  intros I Hv. destruct c; first [by apply sim_inserts|by apply sim_removes|by apply sim_moves|by apply sim_lists].
Qed.

(** Walking a list with Front and Next, or with Back and Prev, meets exactly
    the elements of its sequence, in order and in reverse order, and ends with
    nil; Len is the length of the sequence. *)
Theorem List_walks st a l es :
  implements st a -> seqs a !! l = Some es ->
  Len l st = Ok (len es, st) /\ Front l st = Ok (head es, st) /\ Back l st = Ok (last es, st) /\
  forall x e y, es = x ++ e :: y -> Next e st = Ok (head y, st) /\ Prev e st = Ok (last x, st).
Proof.
  intros I Hl. pose proof (im_seqs _ _ I _ _ Hl) as R. split; [unfold Len, get_len; by rewrite (rep_len _ _ _ R)|].
  split; [by apply Front_returns|]. split; [by apply Back_returns|]. intros x e y ->.
  split; [by eapply Next_returns|by eapply Prev_returns].
Qed.

(** ** Concrete stores *)

Definition noObjects : store V := mkStore ∅ ∅ 1.

Lemma noObjects_ok : store_ok noObjects.
Proof.
  split; [|by intros e l; unfold lists; cbn; rewrite lookup_empty].
  intros x _. by split; intros [y Hy]; cbn in Hy; rewrite lookup_empty in Hy.
Qed.

Lemma noObjects_implements : implements noObjects (mkAlists ∅ ∅).
Proof.
  split; cbn; try done; [apply noObjects_ok|intros l [y Hy]|intros e [y Hy]]; cbn in Hy; by rewrite lookup_empty in Hy.
Qed.

(** A new list with one element. *)
Definition oneElement (v : option V) : res (store V) :=
  let! st := run CNew noObjects in run (CPushBack 1%positive v) st.

Lemma oneElement_implements v st : oneElement v = Ok st ->
  implements st (mkAlists {[ 1%positive := [node 2] ]} {[ node 2 := v ]}).
Proof.
  intros Hst. pose proof (New_returns _ noObjects_ok) as H1.
  destruct (New noObjects) as [[l st1]| |] eqn:E1; try done. assert (l = 1%positive) as -> by (vm_compute in E1; congruence).
  destruct H1 as (_ & Ef1 & _).
  destruct (implements_effect _ _ _ _ _ [] noObjects_implements Ef1) as [I1 _]; [done|by intros ? ?|by intros ? ?%elem_of_nil|].
  cbn in I1. rewrite with_vals_nil in I1.
  pose proof (PushBack_returns st1 1%positive v [] (eff_ok _ _ _ _ Ef1) (eff_rep _ _ _ _ Ef1)) as H2.
  destruct (PushBack 1%positive v st1) as [[o st2]| |] eqn:E2; try done.
  assert (Hrun : oneElement v = Ok st2) by (unfold oneElement; cbn [run]; unfold runM; rewrite E1; cbn [rbind]; by rewrite E2).
  assert (st2 = st) as -> by congruence. destruct H2 as (e & -> & Hf & Ef2 & Hv).
  assert (He : e = node 2) by (vm_compute in E1; injection E1 as <-; vm_compute in E2; unfold node; congruence). subst e.
  destruct (implements_effect _ _ _ _ _ [node 2] I1 Ef2) as [I2 _]; [by repeat constructor|elem_tac|elem_tac|].
  cbn in I2. rewrite Hv in I2. unfold with_seq, with_vals in I2. cbn in I2. by rewrite insert_insert_eq, (right_id_L ∅ (∪)) in I2.
Qed.
End Spec.
Arguments alists : clear implicits.
Arguments call : clear implicits.

(** Remove after Init: an element of the list before Init still names it in its
    list field, so it is taken for an element of the list, whose length
    becomes negative. *)
Theorem Init_then_Remove :
  (bind New (fun l => bind (PushBack l (Some 7)) (fun e => bind (Init l) (fun _ =>
   bind (Remove l (default (root l) e)) (fun _ => Len l)))) (noObjects (V := Z)))
  ⇓ (fun '(n, _) => n = -1).
Proof. vm_compute. reflexivity. Qed.

Definition demo : store Z := Eval vm_compute in match oneElement (Some 7) with Ok st => st | _ => noObjects end.
Lemma demo_implements : implements demo (mkAlists {[ 1%positive := [node 2] ]} {[ node 2 := Some 7 ]}).
Proof. apply (oneElement_implements (Some 7)). vm_compute. reflexivity. Qed.

Lemma List_refines_witness :
  run (CPushBackList 1%positive 1%positive) demo ⇓ (fun st' => exists a',
    astep (mkAlists {[ 1%positive := [node 2] ]} {[ node 2 := Some 7 ]}) (CPushBackList 1%positive 1%positive) a' /\ implements st' a').
Proof.
  apply (List_refines demo (mkAlists {[ 1%positive := [node 2] ]} {[ node 2 := Some 7 ]})); [exact demo_implements|].
  split; by exists [node 2].
Defined.

Lemma List_walks_witness :
  Len 1%positive demo = Ok (1, demo) /\ Next (node 2) demo = Ok (None, demo).
Proof.
  pose proof (List_walks demo (mkAlists {[ 1%positive := [node 2] ]} {[ node 2 := Some 7 ]}) 1%positive [node 2]
    demo_implements eq_refl) as (H1 & _ & _ & H2). split; [exact H1|]. exact (proj1 (H2 [] (node 2) [] eq_refl)).
Defined.
