(* ===== verification/Buffer.v ===== *)
(** * Package bytes: Buffer

    The Buffer of src/bytes/buffer.go.  A slice is its backing array from its
    first element to its capacity, its length and whether it is nil.  Two
    functions are outside the sources and are the operations of the class
    [Runtime]: bytealg.IndexByte, and the capacity append gives a new slice. *)
From Stdlib Require Import ZArith Lia.
From stdpp Require Import base numbers list.
From S2P Require Import Prelude Utf8.

(** ** Slices with a capacity *)

Record gslice := mkSlice { arr : list Z; slen : Z; isnil : bool }.

Definition cap (s : gslice) : Z := len (arr s).
Definition elements (s : gslice) : list Z := take (Z.to_nat (slen s)) (arr s).

(** [s[:n]] *)
Definition reslice (s : gslice) (n : Z) : res gslice :=
  if (0 <=? n) && (n <=? cap s) then Ok (mkSlice (arr s) n (isnil s)) else Panic.

(** [copy(s[m:], p)]: the slice and the number of elements copied. *)
Definition copyAt (s : gslice) (m : Z) (p : list Z) : res (gslice * Z) :=
  if (0 <=? m) && (m <=? slen s) then
    let n := Z.min (slen s - m) (len p) in
    Ok (mkSlice (take (Z.to_nat m) (arr s) ++ take (Z.to_nat n) p ++ drop (Z.to_nat (m + n)) (arr s))
                (slen s) (isnil s), n)
  else Panic.

(** [make([]byte, n, c)] *)
Definition makeSlice (n c : Z) : gslice := mkSlice (replicate (Z.to_nat c) 0) n false.

Inductive ioErr := EOF | ErrShortWrite | OtherErr (code : Z).

(** io.Reader and io.Writer: objects with a state.  [rd_read r p] is the new
    contents of [p], the count and the error; [wr_write w p] the count and the
    error. *)
Class Reader (S : Type) := rd_read : S -> list Z -> S * list Z * Z * option ioErr.
Class Writer (S : Type) := wr_write : S -> list Z -> S * Z * option ioErr.

Class Runtime := {
  IndexByte : list Z -> Z -> Z;
  appendCap : Z -> Z;
}.

(** [append([]byte(nil), make([]byte, c)...)] has room for [c] elements and is
    rounded up to a size class, which wastes less than a half, or to a page;
    the index of a byte is its first position, or -1. *)
Class RuntimeLaws (R : Runtime) : Prop := {
  appendCap_room c : 0 <= c -> c <= appendCap c;
  appendCap_waste c : 0 <= c -> appendCap c <= 2 * c + 8192;
  IndexByte_found l c i : IndexByte l c = i -> 0 <= i -> i < len l /\ l !! Z.to_nat i = Some c /\ c ∉ take (Z.to_nat i) l;
  IndexByte_absent l c : IndexByte l c < 0 <-> c ∉ l;
}.

(** ** The buffer *)

(** readOp: the last read operation, or the size of the last rune read. *)
Definition opRead : Z := -1.
Definition opInvalid : Z := 0.
Definition opReadRune1 : Z := 1.

Record Buffer := mkBuffer { buf : gslice; off : Z; lastRead : Z }.

Definition smallBufferSize : Z := 64.
Definition maxInt : Z := 2 ^ 63 - 1.
Definition MinRead : Z := 512.

Section Model.
Context `{R : Runtime}.

Definition set_buf (b : Buffer) (s : gslice) : Buffer := mkBuffer s (off b) (lastRead b).
Definition set_off (b : Buffer) (o : Z) : Buffer := mkBuffer (buf b) o (lastRead b).
Definition set_last (b : Buffer) (r : Z) : Buffer := mkBuffer (buf b) (off b) r.

(** [b.buf[b.off:]] *)
Definition unread (b : Buffer) : res (list Z) := slice (elements (buf b)) (off b) (slen (buf b)).

Definition Bytes (b : Buffer) : res (list Z) := unread b.
Definition String_ (b : Buffer) : res (list Z) := unread b.
Definition empty (b : Buffer) : bool := slen (buf b) <=? off b.
Definition Len (b : Buffer) : Z := slen (buf b) - off b.
Definition Cap (b : Buffer) : Z := cap (buf b).
Definition Available (b : Buffer) : Z := cap (buf b) - slen (buf b).

Definition Peek (b : Buffer) (n : Z) : res (list Z * option ioErr) :=
  if Len b <? n then (let! d := unread b in Ok (d, Some EOF))
  else (let! d := slice (elements (buf b)) (off b) (off b + n) in Ok (d, None)).

Definition Reset (b : Buffer) : res Buffer :=
  let! s := reslice (buf b) 0 in Ok (mkBuffer s 0 opInvalid).

Definition Truncate (b : Buffer) (n : Z) : res Buffer :=
  if n =? 0 then Reset b else
  let b := set_last b opInvalid in
  if (n <? 0) || (n >? Len b) then Panic else
  let! s := reslice (buf b) (off b + n) in Ok (set_buf b s).

Definition tryGrowByReslice (b : Buffer) (n : Z) : res (Buffer * Z * bool) :=
  let l := slen (buf b) in
  if n <=? cap (buf b) - l then
    let! s := reslice (buf b) (l + n) in Ok (set_buf b s, l, true)
  else Ok (b, 0, false).

(** growSlice: [b] is the elements from [o] on, of a slice of capacity [c]. *)
Definition growSlice (b : list Z) (c n : Z) : gslice :=
  let c := if len b + n <? 2 * c then 2 * c else len b + n in
  mkSlice (b ++ replicate (Z.to_nat (appendCap c) - length b) 0) (len b) false.

Definition grow (b : Buffer) (n : Z) : res (Buffer * Z) :=
  let m := Len b in
  let! b := if (m =? 0) && negb (off b =? 0) then Reset b else Ok b in
  let! '(b, i, ok) := tryGrowByReslice b n in
  if (ok : bool) then Ok (b, i) else
  if isnil (buf b) && (n <=? smallBufferSize) then Ok (set_buf b (makeSlice n smallBufferSize), 0) else
  let c := cap (buf b) in
  let! s :=
    if n <=? c / 2 - m then
      let! d := unread b in
      let! '(s, _) := copyAt (buf b) 0 d in Ok s
    else if c >? maxInt - c - n then Panic
    else let! d := unread b in Ok (growSlice d (c - off b) (off b + n)) in
  let! s := reslice s (m + n) in
  Ok (mkBuffer s 0 (lastRead b), m).

Definition Grow (b : Buffer) (n : Z) : res Buffer :=
  if n <? 0 then Panic else
  let! '(b, m) := grow b n in
  let! s := reslice (buf b) m in Ok (set_buf b s).

(** [m, ok := b.tryGrowByReslice(n); if !ok { m = b.grow(n) }] *)
Definition makeRoom (b : Buffer) (n : Z) : res (Buffer * Z) :=
  let! '(b, m, ok) := tryGrowByReslice b n in
  if (ok : bool) then Ok (b, m) else grow b n.

Definition Write (b : Buffer) (p : list Z) : res (Buffer * Z) :=
  let b := set_last b opInvalid in
  let! '(b, m) := makeRoom b (len p) in
  let! '(s, n) := copyAt (buf b) m p in
  Ok (set_buf b s, n).

Definition WriteString (b : Buffer) (s : list Z) : res (Buffer * Z) :=
  let b := set_last b opInvalid in
  let! '(b, m) := makeRoom b (len s) in
  let! '(s, n) := copyAt (buf b) m s in
  Ok (set_buf b s, n).

Definition WriteByte (b : Buffer) (c : Z) : res Buffer :=
  let b := set_last b opInvalid in
  let! '(b, m) := makeRoom b 1 in
  if (0 <=? m) && (m <? slen (buf b)) then
    let! a := upd (arr (buf b)) m c in
    Ok (set_buf b (mkSlice a (slen (buf b)) (isnil (buf b))))
  else Panic.

(** [utf8.AppendRune(s, r)]: in place where there is room. *)
Definition appendRuneTo (s : gslice) (r : Z) : gslice :=
  let out := AppendRune (elements s) r in
  if len out <=? cap s then mkSlice (out ++ drop (length out) (arr s)) (len out) (isnil s)
  else mkSlice (out ++ replicate (Z.to_nat (appendCap (len out)) - length out) 0) (len out) false.

Definition WriteRune (b : Buffer) (r : Z) : res (Buffer * Z) :=
  if u32 r <? RuneSelf then
    let! b := WriteByte b (u8 r) in Ok (b, 1)
  else
  let b := set_last b opInvalid in
  let! '(b, m) := makeRoom b UTFMax in
  let! s := reslice (buf b) m in
  let s := appendRuneTo s r in
  Ok (set_buf b s, slen s - m).

(** The result holds the new contents of [p]. *)
Definition Read (b : Buffer) (p : list Z) : res (Buffer * list Z * Z * option ioErr) :=
  let b := set_last b opInvalid in
  if empty b then
    let! b := Reset b in
    Ok (b, p, 0, if len p =? 0 then None else Some EOF)
  else
  let! d := unread b in
  let n := Z.min (len p) (len d) in
  let p := take (Z.to_nat n) d ++ drop (Z.to_nat n) p in
  let b := set_off b (off b + n) in
  let b := if n >? 0 then set_last b opRead else b in
  Ok (b, p, n, None).

Definition Next (b : Buffer) (n : Z) : res (Buffer * list Z) :=
  let b := set_last b opInvalid in
  let m := Len b in
  let n := if n >? m then m else n in
  let! data := slice (elements (buf b)) (off b) (off b + n) in
  let b := set_off b (off b + n) in
  let b := if n >? 0 then set_last b opRead else b in
  Ok (b, data).

Definition ReadByte (b : Buffer) : res (Buffer * Z * option ioErr) :=
  if empty b then (let! b := Reset b in Ok (b, 0, Some EOF)) else
  let! c := idx (elements (buf b)) (off b) in
  Ok (mkBuffer (buf b) (off b + 1) opRead, c, None).

Definition ReadRune (b : Buffer) : res (Buffer * Z * Z * option ioErr) :=
  if empty b then (let! b := Reset b in Ok (b, 0, 0, Some EOF)) else
  let! c := idx (elements (buf b)) (off b) in
  if c <? RuneSelf then Ok (mkBuffer (buf b) (off b + 1) opReadRune1, c, 1, None) else
  let! d := unread b in
  let! '(r, n) := DecodeRune d in
  Ok (mkBuffer (buf b) (off b + n) n, r, n, None).

(** [false]: the error of an invalid call. *)
Definition UnreadRune (b : Buffer) : Buffer * bool :=
  if lastRead b <=? opInvalid then (b, false) else
  let o := if off b >=? lastRead b then off b - lastRead b else off b in
  (mkBuffer (buf b) o opInvalid, true).

Definition UnreadByte (b : Buffer) : Buffer * bool :=
  if lastRead b =? opInvalid then (b, false) else
  (mkBuffer (buf b) (if off b >? 0 then off b - 1 else off b) opInvalid, true).

Definition readSlice (b : Buffer) (delim : Z) : res (Buffer * list Z * option ioErr) :=
  let! d := unread b in
  let i := IndexByte d delim in
  let end_ := if i <? 0 then slen (buf b) else off b + i + 1 in
  let! line := slice (elements (buf b)) (off b) end_ in
  Ok (mkBuffer (buf b) end_ opRead, line, if i <? 0 then Some EOF else None).

Definition ReadBytes (b : Buffer) (delim : Z) : res (Buffer * list Z * option ioErr) := readSlice b delim.
Definition ReadString (b : Buffer) (delim : Z) : res (Buffer * list Z * option ioErr) := readSlice b delim.

(** [b.buf[len(b.buf):]] *)
Definition AvailableBuffer (b : Buffer) : gslice :=
  mkSlice (drop (Z.to_nat (slen (buf b))) (arr (buf b))) 0 (isnil (buf b)).

Definition NewBuffer (s : gslice) : Buffer := mkBuffer s 0 opInvalid.
Definition NewBufferString (s : list Z) : Buffer := mkBuffer (mkSlice s (len s) false) 0 opInvalid.

(** ** Transfers to and from streams *)

Definition readFromStep {S : Type} `{Reader S} (st : Buffer * S * Z)
    : res (Buffer * S * Z + Buffer * S * Z * option ioErr) :=
  let '(b, r, n) := st in
  let! '(b, i) := grow b MinRead in
  let! s := reslice (buf b) i in
  let '(r, p, m, e) := rd_read r (drop (Z.to_nat i) (arr s)) in
  let s := mkSlice (take (Z.to_nat i) (arr s) ++ p) i (isnil s) in
  if m <? 0 then Panic else
  let! s := reslice s (i + m) in
  let b := set_buf b s in
  let n := i64 (n + m) in
  match e with
  | Some EOF => Ok (inr (b, r, n, None))
  | Some e => Ok (inr (b, r, n, Some e))
  | None => Ok (inl (b, r, n))
  end.

Definition ReadFrom {S : Type} `{Reader S} (fuel : nat) (b : Buffer) (r : S) : res (Buffer * S * Z * option ioErr) :=
  loop fuel readFromStep (set_last b opInvalid, r, 0).

Definition WriteTo {S : Type} `{Writer S} (b : Buffer) (w : S) : res (Buffer * S * Z * option ioErr) :=
  let b := set_last b opInvalid in
  let nBytes := Len b in
  if nBytes >? 0 then
    let! d := unread b in
    let '(w, m, e) := wr_write w d in
    if m >? nBytes then Panic else
    let b := set_off b (off b + m) in
    let n := i64 m in
    match e with
    | Some e => Ok (b, w, n, Some e)
    | None =>
        if negb (m =? nBytes) then Ok (b, w, n, Some ErrShortWrite)
        else (let! b := Reset b in Ok (b, w, n, None))
    end
  else let! b := Reset b in Ok (b, w, 0, None).
End Model.
