(* ===== verification/BufferCorrect.v ===== *)
(** * Package bytes: Buffer is a queue of bytes

    The proofs about Buffer.v.  A buffer in normal form, [canon], has the
    backing array [pre ++ q ++ post]: the bytes already read, the unread bytes
    and the free space.  The lemmas follow the operations on normal forms; the
    theorems compare runs of the buffer with runs of a queue. *)
From Stdlib Require Import ZArith Lia.
From stdpp Require Import base numbers list.
From S2P Require Import Prelude Utf8 Buffer.

(** ** The invariant and the unread bytes *)

Definition inv (b : Buffer) : Prop :=
  0 <= off b <= slen (buf b) /\ slen (buf b) <= cap (buf b) /\
  (isnil (buf b) = true -> cap (buf b) = 0).

Definition contents (b : Buffer) : list Z := drop (Z.to_nat (off b)) (elements (buf b)).

Definition canon (pre q post : list Z) (z : bool) (r : Z) : Buffer :=
  mkBuffer (mkSlice (pre ++ q ++ post) (len pre + len q) z) (len pre) r.

(** A nil slice has no room. *)
Definition nil_ok (z : bool) (l : list Z) : Prop := z = true -> l = [].

Lemma nil_ok_len z l l' : len l = len l' -> nil_ok z l -> nil_ok z l'.
Proof. intros E H Ez. apply len_zero_inv. by rewrite <- E, (H Ez). Qed.

Lemma take_len {A} (l k : list A) : take (Z.to_nat (len l)) (l ++ k) = l.
Proof. unfold len. by rewrite Nat2Z.id, take_app_length. Qed.
Lemma drop_len {A} (l k : list A) : drop (Z.to_nat (len l)) (l ++ k) = k.
Proof. unfold len. by rewrite Nat2Z.id, drop_app_length. Qed.
Lemma len_take {A} (l : list A) n : 0 <= n <= len l -> len (take (Z.to_nat n) l) = n.
Proof. unfold len. rewrite length_take. lia. Qed.
Lemma len_drop {A} (l : list A) n : 0 <= n <= len l -> len (drop (Z.to_nat n) l) = len l - n.
Proof. unfold len. rewrite length_drop. lia. Qed.

Lemma elements_canon pre q post z r : elements (buf (canon pre q post z r)) = pre ++ q.
Proof.
  unfold elements, canon. cbn [buf arr slen]. rewrite <- len_app, app_assoc. apply take_len.
Qed.

Lemma contents_canon pre q post z r : contents (canon pre q post z r) = q.
Proof. unfold contents. rewrite elements_canon. apply drop_len. Qed.

Lemma canon_inv pre q post z r : nil_ok z (pre ++ q ++ post) -> inv (canon pre q post z r).
Proof.
  intros Hz. unfold inv, canon, cap. cbn [buf off arr slen isnil].
  split; [len_lia|]. split; [len_lia|]. intros H. by rewrite (Hz H).
Qed.

(** Every buffer that meets the invariant is a normal form. *)
Lemma inv_canon b :
  inv b -> exists pre post, b = canon pre (contents b) post (isnil (buf b)) (lastRead b) /\
                            nil_ok (isnil (buf b)) (pre ++ contents b ++ post).
Proof.
  intros (Ho & Hs & Hz). destruct b as [[a n z] o r]. unfold cap in *. cbn [buf off slen arr isnil] in *.
  assert (E : a = take (Z.to_nat o) a ++ contents (mkBuffer (mkSlice a n z) o r) ++ drop (Z.to_nat n) a).
  { unfold contents, elements. cbn [buf off slen arr]. rewrite skipn_firstn_comm.
    rewrite <- (take_drop (Z.to_nat o) a) at 1. f_equal.
    rewrite <- (take_drop (Z.to_nat n - Z.to_nat o) (drop (Z.to_nat o) a)) at 1. f_equal.
    rewrite drop_drop. f_equal. lia. }
  exists (take (Z.to_nat o) a), (drop (Z.to_nat n) a). rewrite <- E. split.
  - unfold canon. rewrite <- E.
    assert (len (take (Z.to_nat o) a) = o) as -> by (apply len_take; lia).
    assert (len (contents (mkBuffer (mkSlice a n z) o r)) = n - o) as ->.
    { unfold contents, elements. cbn [buf off slen arr].
      rewrite len_drop by (rewrite len_take; lia). rewrite len_take; lia. }
    cbn [isnil lastRead buf]. repeat f_equal; lia.
  - intros H. by apply len_zero_inv, Hz.
Qed.

(** ** Slices of a normal form *)

Lemma unread_canon pre q post z r : unread (canon pre q post z r) = Ok q.
Proof.
  unfold unread. rewrite elements_canon. unfold canon. cbn [buf off slen].
  rewrite <- len_app. rewrite slice_Ok by len_lia. rewrite drop_len. f_equal.
  apply take_ge. rewrite len_app. unfold len. lia.
Qed.

Lemma empty_canon pre q post z r : empty (canon pre q post z r) = (len q =? 0).
Proof. unfold empty, canon. cbn [buf off slen]. repeat zcase; (done || len_lia). Qed.

Lemma Len_canon pre q post z r : Len (canon pre q post z r) = len q.
Proof. unfold Len, canon. cbn [buf off slen]. lia. Qed.

Lemma Reset_canon pre q post z r :
  Reset (canon pre q post z r) = Ok (canon [] [] (pre ++ q ++ post) z opInvalid).
Proof.
  unfold Reset, reslice, canon, cap. cbn [buf arr isnil].
  rewrite (proj2 (Z.leb_le 0 (len (pre ++ q ++ post)))) by len_lia. done.
Qed.

(** A prefix of the unread bytes, as [b.buf[b.off : b.off+n]]. *)
Lemma prefix_canon pre q post z r n :
  0 <= n <= len q ->
  slice (elements (buf (canon pre q post z r))) (len pre) (len pre + n) = Ok (take (Z.to_nat n) q).
Proof.
  intros Hn. rewrite elements_canon, slice_Ok by len_lia. rewrite drop_len. do 3 f_equal. lia.
Qed.

(** Reading [n] bytes moves them to the part already read. *)
Lemma advance_canon pre q post z r n r' :
  0 <= n <= len q ->
  mkBuffer (buf (canon pre q post z r)) (len pre + n) r' =
  canon (pre ++ take (Z.to_nat n) q) (drop (Z.to_nat n) q) post z r'.
Proof.
  intros Hn. unfold canon. cbn [buf]. f_equal.
  - f_equal.
    + rewrite <- app_assoc. f_equal. by rewrite app_assoc, take_drop.
    + rewrite len_app, len_take, len_drop by lia. lia.
  - rewrite len_app, len_take by lia. lia.
Qed.

(** Reslicing within the capacity moves the boundary of the unread bytes. *)
Lemma reslice_canon pre q post z r n :
  0 <= n <= len q + len post ->
  reslice (buf (canon pre q post z r)) (len pre + n) =
  Ok (buf (canon pre (take (Z.to_nat n) (q ++ post)) (drop (Z.to_nat n) (q ++ post)) z r)).
Proof.
  intros Hn. unfold reslice, canon, cap. cbn [buf arr isnil].
  rewrite !(proj2 (Z.leb_le _ _)) by len_lia. cbn [andb]. rewrite take_drop.
  rewrite len_take by len_lia. done.
Qed.

(** Overwriting the end of the unread bytes. *)
Lemma copyAt_canon pre q junk post z r p :
  len p = len junk ->
  copyAt (buf (canon pre (q ++ junk) post z r)) (len pre + len q) p =
  Ok (buf (canon pre (q ++ p) post z r), len p).
Proof.
  intros Hp. unfold copyAt, canon. cbn [buf arr slen isnil].
  rewrite !(proj2 (Z.leb_le _ _)) by len_lia. cbn [andb].
  replace (Z.min (len pre + len (q ++ junk) - (len pre + len q)) (len p)) with (len p) by len_lia.
  do 2 f_equal. f_equal; [|len_lia].
  rewrite (take_ge p) by (unfold len; lia).
  replace (pre ++ (q ++ junk) ++ post) with ((pre ++ q) ++ junk ++ post) by (by rewrite <- !app_assoc).
  rewrite <- len_app, take_len. rewrite Hp, <- len_app, (app_assoc (pre ++ q) junk), drop_len.
  by rewrite <- !app_assoc.
Qed.

Lemma set_buf_canon pre q post z r pre' q' post' z' r' :
  len pre = len pre' ->
  set_buf (canon pre q post z r) (buf (canon pre' q' post' z' r')) = canon pre' q' post' z' r.
Proof. intros E. unfold set_buf, canon. cbn [buf off lastRead]. by rewrite E. Qed.

Lemma set_last_canon pre q post z r r' : set_last (canon pre q post z r) r' = canon pre q post z r'.
Proof. done. Qed.

Lemma cap_canon pre q post z r : cap (buf (canon pre q post z r)) = len pre + len q + len post.
Proof. unfold cap, canon. cbn [buf arr]. len_lia. Qed.

(** ** Making room *)

Section Correct.
Context `{R : Runtime} `{L : !RuntimeLaws R}.

(** The capacity a buffer of capacity [c] may have once [n] bytes follow [m]
    unread ones. *)
Definition capBound (c m n : Z) : Z := Z.max c (8 * (m + n) + 8192).

(** The buffer [out] holds [q] and [n] more bytes, from the index [snd out]. *)
Definition grown (c : Z) (q : list Z) (n r : Z) (out : Buffer * Z) : Prop :=
  exists pre junk post z,
    out = (canon pre (q ++ junk) post z r, len pre + len q) /\
    nil_ok z (pre ++ (q ++ junk) ++ post) /\ len junk = n /\
    len pre + len (q ++ junk) + len post <= capBound c (len q) n.

Lemma tryGrow_canon pre q post z r n :
  0 <= n ->
  tryGrowByReslice (canon pre q post z r) n =
  if n <=? len post
  then Ok (canon pre (q ++ take (Z.to_nat n) post) (drop (Z.to_nat n) post) z r, len pre + len q, true)
  else Ok (canon pre q post z r, 0, false).
Proof.
  intros Hn. unfold tryGrowByReslice. rewrite cap_canon.
  replace (slen (buf (canon pre q post z r))) with (len pre + len q) by done.
  replace (len pre + len q + len post - (len pre + len q)) with (len post) by lia.
  destruct (Z.leb_spec n (len post)); [|done].
  rewrite <- Z.add_assoc, reslice_canon by len_lia. cbn [rbind].
  rewrite set_buf_canon by done.
  assert (Z.to_nat (len q + n) = (length q + Z.to_nat n)%nat) as -> by (unfold len; lia).
  by rewrite take_app_add, drop_app_add.
Qed.

Lemma reslice_grown q post l z r n :
  0 <= n <= len post ->
  reslice (mkSlice (q ++ post) l z) (len q + n) =
  Ok (buf (canon [] (q ++ take (Z.to_nat n) post) (drop (Z.to_nat n) post) z r)).
Proof.
  intros Hn. unfold reslice, cap, canon. cbn [arr buf app].
  rewrite !(proj2 (Z.leb_le _ _)) by len_lia. cbn [andb isnil]. do 2 f_equal.
  - by rewrite <- app_assoc, take_drop.
  - rewrite len_app, len_take by lia. done.
Qed.

(** The three ways [grow] makes room when the capacity is not enough: a first
    small allocation, sliding the unread bytes to the front, a new array. *)
Lemma slide_canon pre q post z r :
  copyAt (buf (canon pre q post z r)) 0 q =
  Ok (mkSlice (q ++ drop (Z.to_nat (len q)) (pre ++ q ++ post)) (len pre + len q) z, len q).
Proof.
  unfold copyAt, canon. cbn [buf arr slen isnil].
  rewrite !(proj2 (Z.leb_le _ _)) by len_lia. cbn [andb].
  replace (Z.min (len pre + len q - 0) (len q)) with (len q) by len_lia.
  rewrite (take_ge q) by (unfold len; lia). done.
Qed.

Lemma growSlice_room q c n :
  0 <= n -> 0 <= c ->
  exists post, growSlice q c n = mkSlice (q ++ post) (len q) false /\ n <= len post /\
               len q + len post <= 2 * Z.max (2 * c) (len q + n) + 8192.
Proof.
  intros Hn Hc. unfold growSlice.
  set (k := if len q + n <? 2 * c then 2 * c else len q + n).
  assert (Hk : 0 <= k /\ len q + n <= k <= Z.max (2 * c) (len q + n)) by (unfold k; zcases; len_lia).
  pose proof (appendCap_room k ltac:(lia)). pose proof (appendCap_waste k ltac:(lia)).
  eexists. split; [done|]. rewrite len_replicate. unfold len in *. lia.
Qed.

Lemma first_alloc q r n :
  0 <= n <= smallBufferSize ->
  grown 0 [] n r (set_buf (canon [] [] [] q r) (makeSlice n smallBufferSize), 0).
Proof.
  unfold smallBufferSize. intros Hn. exists [], (replicate (Z.to_nat n) 0), (replicate (Z.to_nat (64 - n)) 0), false.
  unfold canon, set_buf, makeSlice. cbn [off lastRead app].
  change (len (@nil Z)) with 0. rewrite !len_replicate, <- replicate_add. unfold capBound.
  split; [|split; [by intros|lia]]. do 3 f_equal; [f_equal|]; lia.
Qed.

(** Either array leaves the unread bytes at its front with room for [n] more. *)
Lemma grown_front q post l z r n c b :
  0 <= n <= len post -> nil_ok z (q ++ post) -> len q + len post <= capBound c (len q) n ->
  lastRead b = r ->
  (let! s := reslice (mkSlice (q ++ post) l z) (len q + n) in Ok (mkBuffer s 0 (lastRead b), len q))
    ⇓ grown c q n r.
Proof.
  intros Hn Hz Hc ->. rewrite (reslice_grown _ _ _ _ (lastRead b)) by done.
  exists [], (take (Z.to_nat n) post), (drop (Z.to_nat n) post), z.
  rewrite len_app, len_take, len_drop by lia.
  split; [done|]. split; [by cbn [app]; rewrite <- app_assoc, take_drop|]. change (len (@nil Z)) with 0. lia.
Qed.

Lemma grow_slow pre q post z r n :
  let b := canon pre q post z r in
  nil_ok z (pre ++ q ++ post) -> len post < n ->
  2 * (len pre + len q + len post) + n <= maxInt ->
  (if isnil (buf b) && (n <=? smallBufferSize)
   then Ok (set_buf b (makeSlice n smallBufferSize), 0)
   else
     let c := cap (buf b) in
     let! s := if n <=? c / 2 - len q then
                 let! d := unread b in let! '(s, _) := copyAt (buf b) 0 d in Ok s
               else if c >? maxInt - c - n then Panic
               else let! d := unread b in Ok (growSlice d (c - off b) (off b + n)) in
     let! s := reslice s (len q + n) in
     Ok (mkBuffer s 0 (lastRead b), len q)) ⇓ grown (len pre + len q + len post) q n r.
Proof.
  cbv zeta. intros Hz Hn Hroom. rewrite cap_canon, unread_canon.
  replace (isnil (buf (canon pre q post z r))) with z by done.
  destruct (z && (n <=? smallBufferSize)) eqn:B.
  { apply andb_true_iff in B as [Hzt Hs%Z.leb_le]. specialize (Hz Hzt). apply app_eq_nil in Hz as [-> Hz].
    apply app_eq_nil in Hz as [-> ->]. apply first_alloc. len_lia. }
  remember (len pre + len q + len post) as c eqn:Ec. assert (0 <= c) by len_lia. destruct (Z.leb_spec n (c / 2 - len q)).
  - cbn [rbind]. rewrite slide_canon. cbn [rbind].
    assert (E : len (drop (Z.to_nat (len q)) (pre ++ q ++ post)) = c - len q)
      by (rewrite len_drop; len_lia).
    apply grown_front; [|intros Hzt| |done].
    + rewrite E. split; [len_lia|]. zdm.
    + specialize (Hz Hzt). rewrite Hz, drop_nil. by apply app_eq_nil in Hz as [_ [-> _]%app_eq_nil].
    + rewrite E. unfold capBound. lia.
  - destruct (Z.gtb_spec c (maxInt - c - n)); [lia|]. cbn [rbind].
    destruct (growSlice_room q (c - len pre) (len pre + n)) as (post' & E & Hp & Hc);
      [len_lia..|]. replace (off (canon pre q post z r)) with (len pre) by done. rewrite E.
    apply grown_front; [len_lia|by intros| |done]. unfold capBound. len_facts. zdm.
Qed.

Lemma grow_canon pre q post z r n :
  nil_ok z (pre ++ q ++ post) -> 0 <= n ->
  2 * (len pre + len q + len post) + n <= maxInt ->
  grow (canon pre q post z r) n ⇓
    (fun out => exists r', (r' = r \/ r' = opInvalid) /\ grown (len pre + len q + len post) q n r' out).
Proof.
  intros Hz Hn Hroom. unfold grow. rewrite Len_canon.
  eassert (exists pre' post' r', (if _ && _ then _ else _) = Ok (canon pre' q post' z r') /\
    (r' = r \/ r' = opInvalid) /\ pre' ++ q ++ post' = pre ++ q ++ post)
    as (pre' & post' & r' & -> & Hr & E).
  { destruct (Z.eqb_spec (len q) 0) as [E0|]; [|exists pre, post, r; auto].
    apply len_zero_inv in E0 as ->. cbn [andb].
    destruct (negb _); [|exists pre, post, r; auto]. rewrite Reset_canon.
    exists [], (pre ++ [] ++ post), opInvalid. auto. }
  rewrite <- E in Hz. replace (len pre + len q + len post) with (len pre' + len q + len post') in *
    by (apply (f_equal len) in E; len_lia).
  cbn [rbind]. clear E pre post. rename pre' into pre, post' into post.
  eapply returns_mono; [|intros out H; exists r'; split; [exact Hr | exact H]]. clear Hr r. rename r' into r.
  rewrite tryGrow_canon by done. destruct (Z.leb_spec n (len post)); cbn [rbind].
  { exists pre, (take (Z.to_nat n) post), (drop (Z.to_nat n) post), z.
    split; [done|]. split; [by rewrite <- app_assoc, take_drop|]. unfold capBound.
    rewrite len_app, len_take, len_drop by lia. lia. }
  by apply grow_slow.
Qed.

(** ** The operations on normal forms *)

(** The buffer holds exactly [q], in at most [M] bytes of storage. *)
Definition holds (M : Z) (q : list Z) (b : Buffer) : Prop :=
  inv b /\ contents b = q /\ cap (buf b) <= M.

Lemma holds_canon M pre q post z r :
  nil_ok z (pre ++ q ++ post) -> len pre + len q + len post <= M ->
  holds M q (canon pre q post z r).
Proof.
  intros Hz HM. split; [by apply canon_inv|]. split; [apply contents_canon|]. by rewrite cap_canon.
Qed.

Lemma capBound_ge c m n : c <= capBound c m n.
Proof. unfold capBound. lia. Qed.

Lemma makeRoom_canon pre q post z n :
  nil_ok z (pre ++ q ++ post) -> 0 <= n ->
  2 * (len pre + len q + len post) + n <= maxInt ->
  makeRoom (canon pre q post z opInvalid) n ⇓ grown (len pre + len q + len post) q n opInvalid.
Proof.
  intros Hz Hn Hroom. unfold makeRoom. rewrite tryGrow_canon by done.
  destruct (Z.leb_spec n (len post)); cbn [rbind].
  - exists pre, (take (Z.to_nat n) post), (drop (Z.to_nat n) post), z.
    split; [done|]. split; [by rewrite <- app_assoc, take_drop|]. unfold capBound.
    rewrite len_app, len_take, len_drop by lia. lia.
  - eapply returns_mono; [by apply grow_canon|]. by intros out (r' & [-> | ->] & G).
Qed.

(** Writing [p] at the index [makeRoom] returned appends it. *)
Lemma Write_canon pre q post z r p :
  nil_ok z (pre ++ q ++ post) -> 2 * (len pre + len q + len post) + len p <= maxInt ->
  Write (canon pre q post z r) p ⇓ (fun '(b, n) =>
    n = len p /\ holds (capBound (len pre + len q + len post) (len q) (len p)) (q ++ p) b).
Proof.
  intros Hz Hroom. unfold Write. rewrite set_last_canon.
  eapply returns_bind_mono; [apply makeRoom_canon; [done|len_lia|done]|].
  intros out (pre' & junk & post' & z' & -> & Hz' & Hj & Hc).
  rewrite copyAt_canon by done. cbn [rbind returns]. split; [done|].
  rewrite set_buf_canon by done. apply holds_canon; [|len_lia].
  revert Hz'. apply nil_ok_len. len_lia.
Qed.

Lemma WriteString_Write b p : WriteString b p = Write b p.
Proof. done. Qed.

Lemma WriteByte_canon pre q post z r c :
  nil_ok z (pre ++ q ++ post) -> 2 * (len pre + len q + len post) + 1 <= maxInt ->
  WriteByte (canon pre q post z r) c ⇓
    holds (capBound (len pre + len q + len post) (len q) 1) (q ++ [c]).
Proof.
  intros Hz Hroom. unfold WriteByte. rewrite set_last_canon.
  eapply returns_bind_mono; [by apply makeRoom_canon|].
  intros out (pre' & junk & post' & z' & -> & Hz' & Hj & Hc).
  destruct junk as [|x [|]]; [done| |exfalso; len_lia].
  replace (slen (buf (canon pre' (q ++ [x]) post' z' opInvalid))) with (len pre' + len q + 1)
    by (unfold canon; cbn [buf slen]; len_lia).
  rewrite (proj2 (Z.leb_le _ _)), (proj2 (Z.ltb_lt _ _)) by len_lia. cbn [andb].
  replace (arr (buf (canon pre' (q ++ [x]) post' z' opInvalid))) with ((pre' ++ q) ++ x :: post')
    by (unfold canon; cbn [buf arr]; by rewrite <- !app_assoc).
  rewrite upd_app by len_lia. cbn [rbind returns].
  assert (E : set_buf (canon pre' (q ++ [x]) post' z' opInvalid)
    (mkSlice ((pre' ++ q) ++ c :: post') (len pre' + len q + 1) z') = canon pre' (q ++ [c]) post' z' opInvalid).
  { unfold set_buf, canon. cbn [off lastRead]. do 2 f_equal; [by rewrite <- !app_assoc|len_lia]. }
  unfold canon at 2. cbn [buf isnil]. rewrite E. apply holds_canon; [|len_lia].
  revert Hz'. apply nil_ok_len. len_lia.
Qed.

Lemma encoded_ascii r : 0 <= r < 128 -> encoded r = [r].
Proof.
  intros Hr. unfold encoded, ValidRune, surrogateMin, utf8_encode.
  rewrite (proj2 (Z.leb_le 0 r)), (proj2 (Z.ltb_lt r _)) by lia. cbn [andb orb].
  by rewrite (proj2 (Z.ltb_lt r _)) by lia.
Qed.

Lemma len_encoded r : 1 <= len (encoded r) <= 4.
Proof. unfold encoded. destruct (ValidRune r); apply utf8_encode_nonempty. Qed.

Lemma decode_ref_width q : q <> [] -> bytes_ok q -> 1 <= snd (decode_ref q) <= Z.min 4 (len q).
Proof.
  intros Hq Hb. assert (1 <= len q) by (destruct q; [done|len_lia]).
  destruct (decode_ref_sound q Hb Hq) as [(_ & -> & rest & E)|E].
  - pose proof (utf8_encode_nonempty (fst (decode_ref q))). apply (f_equal len) in E. len_lia.
  - rewrite E. cbn [snd]. lia.
Qed.

(** Appending a rune within the space [makeRoom] made. *)
Lemma appendRuneTo_canon pre q post z z' r :
  - 2 ^ 31 <= r < 2 ^ 31 -> 4 <= len post -> z' = z ->
  appendRuneTo (buf (canon pre q post z opInvalid)) r =
  buf (canon pre (q ++ encoded r) (drop (length (encoded r)) post) z' opInvalid).
Proof.
  intros Hr Hp ->. unfold appendRuneTo. rewrite elements_canon, cap_canon, AppendRune_spec by done.
  pose proof (len_encoded r). rewrite (proj2 (Z.leb_le _ _)) by len_lia.
  unfold canon. cbn [buf arr isnil]. f_equal; [|len_lia].
  rewrite <- !app_assoc. do 3 f_equal. rewrite (app_assoc pre q post), (app_assoc pre q (encoded r)).
  by rewrite (length_app (pre ++ q)), drop_app_add.
Qed.

Lemma WriteRune_canon pre q post z last r :
  - 2 ^ 31 <= r < 2 ^ 31 -> nil_ok z (pre ++ q ++ post) ->
  2 * (len pre + len q + len post) + 4 <= maxInt ->
  WriteRune (canon pre q post z last) r ⇓ (fun '(b, n) =>
    n = len (encoded r) /\
    holds (capBound (len pre + len q + len post) (len q) 4) (q ++ encoded r) b).
Proof.
  intros Hr Hz Hroom. unfold WriteRune. destruct (Z.ltb_spec (u32 r) RuneSelf) as [Hs|Hs].
  - assert (Ha : 0 <= r < 128).
    { unfold u32, RuneSelf in Hs. zdm. }
    rewrite encoded_ascii, u8_id by lia.
    eapply returns_bind_mono; [apply WriteByte_canon; [done|lia]|]. intros b (Hi & Hq & Hc).
    cbn [returns]. split; [done|]. split; [done|]. split; [done|]. unfold capBound in *. lia.
  - change UTFMax with 4. rewrite set_last_canon. eapply returns_bind_mono; [apply makeRoom_canon; [done|done|exact Hroom]|].
    intros out (pre' & junk & post' & z' & -> & Hz' & Hj & Hc).
    rewrite reslice_canon by len_lia. cbn [rbind].
    rewrite <- (app_assoc q), take_len, drop_len.
    rewrite (appendRuneTo_canon _ _ _ _ z') by (done || len_lia). cbn [returns].
    rewrite set_buf_canon by done. split; [unfold canon; cbn [buf slen]; len_lia|].
    assert (len (drop (length (encoded r)) (junk ++ post')) = len junk + len post' - len (encoded r)).
    { pose proof (len_encoded r). unfold len in *. rewrite length_drop, length_app. lia. }
    apply holds_canon; [|len_lia]. revert Hz'. apply nil_ok_len. len_lia.
Qed.

Lemma Grow_canon pre q post z r n :
  nil_ok z (pre ++ q ++ post) -> 0 <= n -> 2 * (len pre + len q + len post) + n <= maxInt ->
  Grow (canon pre q post z r) n ⇓ (fun b =>
    holds (capBound (len pre + len q + len post) (len q) n) q b /\ n <= Available b).
Proof.
  intros Hz Hn Hroom. unfold Grow. rewrite (proj2 (Z.ltb_ge n 0)) by done.
  eapply returns_bind_mono; [by apply grow_canon|].
  intros out (r' & _ & pre' & junk & post' & z' & -> & Hz' & Hj & Hc).
  rewrite reslice_canon by len_lia. cbn [rbind returns]. rewrite set_buf_canon by done.
  rewrite <- (app_assoc q), take_len, drop_len. split.
  - apply holds_canon; [by rewrite <- app_assoc in Hz'|len_lia].
  - unfold Available. rewrite cap_canon. unfold canon. cbn [buf slen]. len_lia.
Qed.

(** ** The queue *)

(** The bytes up to and including the first [d], and whether there is one. *)
Fixpoint upto (d : Z) (q : list Z) : list Z * bool :=
  match q with
  | [] => ([], false)
  | x :: t => if x =? d then ([x], true) else let '(l, f) := upto d t in (x :: l, f)
  end.

Inductive op :=
| OpWrite (p : list Z) | OpWriteString (s : list Z) | OpWriteByte (c : Z) | OpWriteRune (r : Z)
| OpRead (p : list Z) | OpNext (n : Z) | OpReadByte | OpReadRune
| OpReadBytes (delim : Z) | OpReadString (delim : Z)
| OpPeek (n : Z) | OpBytes | OpString | OpLen
| OpTruncate (n : Z) | OpReset | OpGrow (n : Z).

Inductive reply :=
| Done | Count (n : Z) | Data (d : list Z) (e : option ioErr)
| Filled (p : list Z) (n : Z) (e : option ioErr) | Rune (r n : Z) (e : option ioErr).

Definition perform (o : op) (b : Buffer) : res (Buffer * reply) :=
  match o with
  | OpWrite p => let! '(b, n) := Write b p in Ok (b, Count n)
  | OpWriteString s => let! '(b, n) := WriteString b s in Ok (b, Count n)
  | OpWriteByte c => let! b := WriteByte b c in Ok (b, Done)
  | OpWriteRune r => let! '(b, n) := WriteRune b r in Ok (b, Count n)
  | OpRead p => let! '(b, p, n, e) := Read b p in Ok (b, Filled p n e)
  | OpNext n => let! '(b, d) := Next b n in Ok (b, Data d None)
  | OpReadByte => let! '(b, c, e) := ReadByte b in Ok (b, Rune c 1 e)
  | OpReadRune => let! '(b, r, n, e) := ReadRune b in Ok (b, Rune r n e)
  | OpReadBytes d => let! '(b, l, e) := ReadBytes b d in Ok (b, Data l e)
  | OpReadString d => let! '(b, l, e) := ReadString b d in Ok (b, Data l e)
  | OpPeek n => let! '(d, e) := Peek b n in Ok (b, Data d e)
  | OpBytes => let! d := Bytes b in Ok (b, Data d None)
  | OpString => let! d := String_ b in Ok (b, Data d None)
  | OpLen => Ok (b, Count (Len b))
  | OpTruncate n => let! b := Truncate b n in Ok (b, Done)
  | OpReset => let! b := Reset b in Ok (b, Done)
  | OpGrow n => let! b := Grow b n in Ok (b, Done)
  end.

(** What a queue of bytes does; [None] is a panic. *)
Definition queue (o : op) (q : list Z) : option (list Z * reply) :=
  match o with
  | OpWrite p | OpWriteString p => Some (q ++ p, Count (len p))
  | OpWriteByte c => Some (q ++ [c], Done)
  | OpWriteRune r => Some (q ++ encoded r, Count (len (encoded r)))
  | OpRead p =>
      let n := min (length p) (length q) in
      Some (drop n q, Filled (take n q ++ drop n p) (Z.of_nat n)
        (match q, p with [], _ :: _ => Some EOF | _, _ => None end))
  | OpNext n => if n <? 0 then None else Some (drop (Z.to_nat n) q, Data (take (Z.to_nat n) q) None)
  | OpReadByte => Some (match q with [] => ([], Rune 0 1 (Some EOF)) | c :: q => (q, Rune c 1 None) end)
  | OpReadRune =>
      Some (match q with
            | [] => ([], Rune 0 0 (Some EOF))
            | _ => let '(r, n) := decode_ref q in (drop (Z.to_nat n) q, Rune r n None)
            end)
  | OpReadBytes d | OpReadString d =>
      let '(l, found) := upto d q in
      Some (drop (length l) q, Data l (if found then None else Some EOF))
  | OpPeek n =>
      if n <? 0 then None
      else Some (q, Data (take (Z.to_nat n) q) (if len q <? n then Some EOF else None))
  | OpBytes | OpString => Some (q, Data q None)
  | OpLen => Some (q, Count (len q))
  | OpTruncate n => if (n <? 0) || (len q <? n) then None else Some (take (Z.to_nat n) q, Done)
  | OpReset => Some ([], Done)
  | OpGrow n => if n <? 0 then None else Some (q, Done)
  end.

(** The bytes an operation needs room for. *)
Definition demand (o : op) : Z :=
  match o with
  | OpWrite p | OpWriteString p => len p
  | OpWriteByte _ => 1
  | OpWriteRune _ => UTFMax
  | OpGrow n => Z.max 0 n
  | _ => 0
  end.

(** The bytes and runes of an operation are in range. *)
Definition op_ok (o : op) : Prop :=
  match o with
  | OpWrite p | OpWriteString p => bytes_ok p
  | OpWriteByte c => byte_ok c
  | OpWriteRune r => - 2 ^ 31 <= r < 2 ^ 31
  | _ => True
  end.

(** ** The buffer behaves as the queue *)

Definition agrees (o : op) (b : Buffer) : Prop :=
  match queue o (contents b) with
  | Some (q, rep) =>
      perform o b ⇓ (fun '(b', rep') =>
        rep' = rep /\ holds (capBound (cap (buf b)) (len (contents b)) (demand o)) q b')
  | None => perform o b = Panic
  end.

Lemma upto_absent d q : d ∉ q -> upto d q = (q, false).
Proof.
  induction q as [|x q IH]; intros H; [done|]. apply not_elem_of_cons in H as [Hx H]. simpl.
  rewrite (proj2 (Z.eqb_neq x d)) by congruence. by rewrite IH.
Qed.

Lemma upto_found d q n : q !! n = Some d -> d ∉ take n q -> upto d q = (take (S n) q, true).
Proof.
  revert n. induction q as [|x q IH]; intros [|n] Hd Hn; simplify_eq/=.
  - by rewrite Z.eqb_refl.
  - apply not_elem_of_cons in Hn as [Hx Hn]. rewrite (proj2 (Z.eqb_neq x d)) by congruence.
    by rewrite (IH n).
Qed.

(** Reading [n] bytes, whatever read operation it is recorded as. *)
Lemma holds_advance M pre q post z r r' n :
  nil_ok z (pre ++ q ++ post) -> len pre + len q + len post <= M -> 0 <= n <= len q ->
  holds M (drop (Z.to_nat n) q) (mkBuffer (buf (canon pre q post z r)) (len pre + n) r').
Proof.
  intros Hz HM Hn. rewrite advance_canon by done. apply holds_canon.
  - revert Hz. apply nil_ok_len. len_simpl. rewrite len_take, len_drop by done. lia.
  - rewrite len_app, len_take, len_drop by done. lia.
Qed.

Lemma holds_Reset M pre q post z r :
  nil_ok z (pre ++ q ++ post) -> len pre + len q + len post <= M ->
  Reset (canon pre q post z r) ⇓ holds M [].
Proof. intros Hz HM. rewrite Reset_canon. apply holds_canon; [done|len_lia]. Qed.

Lemma write_agrees o pre q post z r :
  nil_ok z (pre ++ q ++ post) -> 2 * (len pre + len q + len post) + demand o <= maxInt -> op_ok o ->
  match o with
  | OpWrite _ | OpWriteString _ | OpWriteByte _ | OpWriteRune _ | OpGrow _ => agrees o (canon pre q post z r)
  | _ => True
  end.
Proof.
  intros Hz Hroom Hok. unfold agrees. rewrite contents_canon, cap_canon.
  destruct o; try done; cbn [queue perform demand op_ok] in *; rewrite ?WriteString_Write.
  1,2: eapply returns_bind_mono; [by apply Write_canon|]; intros [b n] [-> H]; by split.
  - eapply returns_bind_mono; [by apply WriteByte_canon|]. intros b H. by split.
  - eapply returns_bind_mono; [by apply WriteRune_canon|]. intros [b n] [-> H]. by split.
  - destruct (Z.ltb_spec n 0) as [Hn|Hn].
    + unfold Grow. by rewrite (proj2 (Z.ltb_lt _ _)) by done.
    + rewrite Z.max_r in * by done. eapply returns_bind_mono; [by apply Grow_canon|]. intros b [H _]. by split.
Qed.

Section Reads.
Context (pre q post : list Z) (z : bool) (r M : Z).
Context (Hz : nil_ok z (pre ++ q ++ post)) (HM : len pre + len q + len post <= M).
Abbreviation b := (canon pre q post z r).

Lemma Read_canon p :
  Read b p ⇓ (fun '(b', p', n, e) =>
    let k := min (length p) (length q) in
    holds M (drop k q) b' /\ p' = take k q ++ drop k p /\ n = Z.of_nat k /\
    e = match q, p with [], _ :: _ => Some EOF | _, _ => None end).
Proof.
  unfold Read. rewrite set_last_canon, empty_canon. destruct (Z.eqb_spec (len q) 0) as [E|E].
  - apply len_zero_inv in E as ->. eapply returns_bind_mono; [by apply holds_Reset|].
    intros b' H. cbn [returns length]. rewrite Nat.min_0_r. split; [done|].
    split; [done|]. split; [done|]. by destruct p.
  - rewrite unread_canon. cbn [rbind].
    replace (Z.min (len p) (len q)) with (Z.of_nat (min (length p) (length q))) by (unfold len; lia).
    set (k := min (length p) (length q)). rewrite Nat2Z.id. cbn [returns].
    split; [|split; [done|split; [done|by destruct q]]].
    assert (Hk : 0 <= Z.of_nat k <= len q) by (unfold len, k; lia).
    pose proof (fun r' => holds_advance M pre q post z opInvalid r' _ Hz HM Hk) as A.
    rewrite Nat2Z.id in A. destruct (Z.of_nat k >? 0); apply A.
Qed.

Lemma Next_negative n : n < 0 -> Next b n = Panic.
Proof.
  intros Hn. unfold Next, slice. rewrite set_last_canon, Len_canon.
  change (off (canon pre q post z opInvalid)) with (len pre).
  destruct (Z.gtb_spec n (len q)); [len_lia|].
  by rewrite (proj2 (Z.leb_gt (len pre) _)), andb_false_r by lia.
Qed.

Lemma Next_canon n :
  0 <= n -> Next b n ⇓ (fun '(b', d) => holds M (drop (Z.to_nat n) q) b' /\ d = take (Z.to_nat n) q).
Proof.
  intros Hn. unfold Next. rewrite set_last_canon, Len_canon.
  change (off (canon pre q post z opInvalid)) with (len pre).
  set (k := if n >? len q then len q else n).
  assert (Hk : 0 <= k <= len q) by (unfold k; zcases; len_lia).
  rewrite prefix_canon by done. cbn [rbind returns].
  assert (drop (Z.to_nat k) q = drop (Z.to_nat n) q /\ take (Z.to_nat k) q = take (Z.to_nat n) q) as [<- ->].
  { unfold k. destruct (Z.gtb_spec n (len q)); [|done]. unfold len in *.
    rewrite !drop_ge, !take_ge by lia. done. }
  split; [|done]. pose proof (fun r' => holds_advance M pre q post z opInvalid r' _ Hz HM Hk) as A.
  destruct (k >? 0); apply A.
Qed.

Lemma ReadByte_canon :
  ReadByte b ⇓ (fun '(b', c, e) =>
    match q with
    | [] => holds M [] b' /\ c = 0 /\ e = Some EOF
    | x :: t => holds M t b' /\ c = x /\ e = None
    end).
Proof.
  unfold ReadByte. rewrite empty_canon. destruct q as [|x t] eqn:E.
  - eapply returns_bind_mono; [by apply holds_Reset|]. by intros b' H.
  - rewrite (proj2 (Z.eqb_neq _ _)) by len_lia. rewrite elements_canon.
    rewrite idx_app by done. cbn [rbind returns]. split; [|done].
    apply (holds_advance M pre (x :: t) post z r opRead 1); [done|done|len_lia].
Qed.

Lemma ReadRune_canon :
  bytes_ok q ->
  ReadRune b ⇓ (fun '(b', x, n, e) =>
    match q with
    | [] => holds M [] b' /\ x = 0 /\ n = 0 /\ e = Some EOF
    | _ => holds M (drop (Z.to_nat n) q) b' /\ (x, n) = decode_ref q /\ e = None
    end).
Proof.
  intros Hb. unfold ReadRune. rewrite empty_canon. destruct q as [|x t] eqn:E.
  - eapply returns_bind_mono; [by apply holds_Reset|]. by intros b' H.
  - rewrite (proj2 (Z.eqb_neq _ _)) by len_lia. rewrite elements_canon.
    rewrite idx_app by done. cbn [rbind]. pose proof (DecodeRune_ref _ Hb) as D.
    destruct (x <? RuneSelf) eqn:Ex.
    + unfold DecodeRune in D. rewrite Ex in D. assert ((x, 1) = decode_ref (x :: t)) by congruence.
      cbn [returns]. split; [|done]. apply (holds_advance M pre (x :: t) post z r _ 1); [done|done|len_lia].
    + rewrite unread_canon. cbn [rbind]. rewrite D. pose proof (decode_ref_width (x :: t) ltac:(done) Hb) as W.
      destruct (decode_ref (x :: t)) as [y n]. cbn [rbind returns snd] in *. split; [|done].
      apply holds_advance; [done|done|lia].
Qed.

Lemma readSlice_canon d :
  readSlice b d ⇓ (fun '(b', l, e) =>
    let '(l', found) := upto d q in
    holds M (drop (length l') q) b' /\ l = l' /\ e = if (found : bool) then None else Some EOF).
Proof.
  unfold readSlice. rewrite unread_canon. cbn [rbind].
  change (off b) with (len pre). change (slen (buf b)) with (len pre + len q).
  destruct (Z.ltb_spec (IndexByte q d) 0) as [Hi|Hi].
  - rewrite upto_absent by (by apply IndexByte_absent).
    rewrite prefix_canon by len_lia. cbn [rbind returns].
    rewrite take_ge by (unfold len; lia). split; [|done].
    replace (length q) with (Z.to_nat (len q)) by (unfold len; lia).
    apply holds_advance; [done|done|len_lia].
  - destruct (IndexByte_found q d _ eq_refl Hi) as (Hlt & Hd & Hn).
    set (i := IndexByte q d) in *. rewrite (upto_found d q (Z.to_nat i)) by done.
    replace (len pre + i + 1) with (len pre + (i + 1)) by lia.
    rewrite prefix_canon by lia. cbn [rbind returns].
    replace (S (Z.to_nat i)) with (Z.to_nat (i + 1)) by lia. split; [|done].
    rewrite length_take, Nat.min_l by (unfold len in *; lia). apply holds_advance; [done|done|lia].
Qed.

Lemma Peek_canon n :
  Peek b n = if n <? 0 then Panic
             else Ok (take (Z.to_nat n) q, if len q <? n then Some EOF else None).
Proof.
  unfold Peek. rewrite Len_canon. change (off b) with (len pre).
  destruct (Z.ltb_spec (len q) n).
  - rewrite unread_canon, (proj2 (Z.ltb_ge n 0)) by len_lia. cbn [rbind].
    by rewrite take_ge by (unfold len in *; lia).
  - destruct (Z.ltb_spec n 0); [|by rewrite prefix_canon by lia].
    unfold slice. by rewrite (proj2 (Z.leb_gt (len pre) _)), andb_false_r by lia.
Qed.

Lemma Truncate_canon n :
  if (n <? 0) || (len q <? n) then Truncate b n = Panic
  else Truncate b n ⇓ holds M (take (Z.to_nat n) q).
Proof.
  unfold Truncate. destruct (Z.eqb_spec n 0) as [->|Hn].
  - rewrite (proj2 (Z.ltb_ge (len q) 0)) by len_lia. cbn [orb Z.ltb Z.compare Z.to_nat take].
    by apply holds_Reset.
  - rewrite set_last_canon, Len_canon. rewrite Z.gtb_ltb.
    destruct ((n <? 0) || (len q <? n)) eqn:E; [done|].
    apply orb_false_iff in E as [E1%Z.ltb_ge E2%Z.ltb_ge].
    change (off _) with (len pre). rewrite reslice_canon by len_lia. cbn [rbind returns].
    rewrite set_buf_canon, take_app_le by (done || (unfold len in *; lia)).
    assert (len (take (Z.to_nat n) q) = n) by (apply len_take; lia).
    assert (len (drop (Z.to_nat n) (q ++ post)) = len q + len post - n) by (rewrite len_drop; len_lia).
    apply holds_canon; [|lia]. revert Hz. apply nil_ok_len. len_lia.
Qed.
End Reads.

(** Any single operation. *)
Lemma op_agrees o b :
  inv b -> bytes_ok (contents b) -> op_ok o -> 2 * cap (buf b) + demand o <= maxInt -> agrees o b.
Proof.
  intros Hi Hb Hok Hroom. destruct (inv_canon b Hi) as (pre & post & E & Hz).
  set (q := contents b) in *. set (z := isnil (buf b)) in *. set (r := lastRead b) in *.
  clearbody q z r. subst b. rewrite cap_canon in Hroom.
  pose proof (write_agrees o pre q post z r Hz Hroom Hok) as W.
  pose proof (capBound_ge (len pre + len q + len post) (len q) (demand o)) as HM.
  destruct o; try exact W; clear W; unfold agrees; rewrite contents_canon, cap_canon;
    cbn [queue perform].
  - eapply returns_bind_mono; [by apply Read_canon|]. intros [[[b p'] n] e] (H & -> & -> & ->). by split.
  - destruct (Z.ltb_spec n 0); [by rewrite Next_negative|].
    eapply returns_bind_mono; [by apply Next_canon|]. intros [b d] (G & ->). by split.
  - pose proof (ReadByte_canon pre q post z r _ Hz HM) as T.
    destruct q as [|y t]; (eapply returns_bind_mono; [exact T|]); by intros [[b' c] e] (H & -> & ->).
  - pose proof (ReadRune_canon pre q post z r _ Hz HM Hb) as T.
    destruct q as [|y t]; [|destruct (decode_ref (y :: t)) as [r' n'] eqn:D];
      (eapply returns_bind_mono; [exact T|]); intros [[[b x] n] e].
    + by intros (H & -> & -> & ->).
    + intros (H & E & ->). injection E as -> ->. by split.
  - pose proof (readSlice_canon pre q post z r _ Hz HM delim) as T. destruct (upto delim q) as [l found].
    eapply returns_bind_mono; [exact T|]. by intros [[b' k] e] (H & -> & ->).
  - pose proof (readSlice_canon pre q post z r _ Hz HM delim) as T. destruct (upto delim q) as [l found].
    eapply returns_bind_mono; [exact T|]. by intros [[b' k] e] (H & -> & ->).
  - rewrite Peek_canon. destruct (n <? 0); [done|]. split; [done|]. by apply holds_canon.
  - unfold Bytes. rewrite unread_canon. split; [done|]. by apply holds_canon.
  - unfold String_. rewrite unread_canon. split; [done|]. by apply holds_canon.
  - rewrite Len_canon. split; [done|]. by apply holds_canon.
  - pose proof (Truncate_canon pre q post z r _ Hz HM n) as T.
    destruct (_ || _); [by rewrite T|]. eapply returns_bind_mono; [exact T|]. by intros b H.
  - eapply returns_bind_mono; [by apply holds_Reset|]. by intros b H.
Qed.
End Correct.
