(* ===== verification/BufferSpec.v ===== *)
(** * Package bytes: Buffer, the theorems

    Runs of operations refine runs of a queue of bytes; Unread undoes the last
    read; the transfers to and from streams.  The last section is about two
    calls after which Unread does not do what its comment says. *)
From Stdlib Require Import Ascii String ZArith Lia.
From stdpp Require Import base numbers list.
From S2P Require Import Prelude Utf8 Buffer BufferCorrect.

(** ** Runs of operations *)










Section Refinement.
Context `{R : Runtime} `{L : !RuntimeLaws R}.


End Refinement.

(** ** A runtime *)

Fixpoint firstIndex (l : list Z) (c : Z) : Z :=
  match l with
  | [] => -1
  | x :: t => if x =? c then 0 else let i := firstIndex t c in if i <? 0 then -1 else 1 + i
  end.

#[local] Instance plainRuntime : Runtime := { IndexByte := firstIndex; appendCap c := c }.

Lemma firstIndex_spec l c :
  (firstIndex l c = -1 /\ c ∉ l) \/
  (0 <= firstIndex l c < len l /\ l !! Z.to_nat (firstIndex l c) = Some c /\
   c ∉ take (Z.to_nat (firstIndex l c)) l).
Proof.
  induction l as [|x l IH]; [left; split; [done|apply not_elem_of_nil]|]. cbn [firstIndex].
  destruct (Z.eqb_spec x c) as [->|Hx].
  { right. split; [len_lia|]. split; [done|apply not_elem_of_nil]. }
  destruct IH as [[-> Hn]|(Hi & Hc & Hn)]; [left|right].
  - split; [done|]. by apply not_elem_of_cons.
  - set (i := firstIndex l c) in *. rewrite (proj2 (Z.ltb_ge i 0)) by lia.
    replace (Z.to_nat (1 + i)) with (S (Z.to_nat i)) by lia.
    split; [len_lia|]. split; [done|]. by apply not_elem_of_cons.
Qed.

#[local] Instance plainRuntimeLaws : RuntimeLaws plainRuntime.
Proof.
  constructor; cbn [IndexByte appendCap plainRuntime].
  - lia.
  - lia.
  - intros l c i <- Hi. destruct (firstIndex_spec l c) as [[E _]|H]; [lia|]. split; [lia|apply H].
  - intros l c. destruct (firstIndex_spec l c) as [[-> Hn]|(Hi & Hc & _)]; [split; [done|lia]|].
    split; [lia|]. intros Hn. by apply list_elem_of_lookup_2 in Hc.
Qed.






(** ** Unread *)

Section Unread.
Context `{R : Runtime} `{L : !RuntimeLaws R}.

Lemma Reset_last b b' : Reset b = Ok b' -> lastRead b' = opInvalid.
Proof. unfold Reset, reslice. cbn [rbind]. case_match; [|done]. by intros [= <-]. Qed.

Lemma tryGrow_last b n b' i ok : tryGrowByReslice b n = Ok (b', i, ok) -> lastRead b' = lastRead b.
Proof.
  unfold tryGrowByReslice. destruct (n <=? _); [|by intros [= <- _ _]].
  destruct (reslice _ _); cbn [rbind]; [|done..]. by intros [= <- _ _].
Qed.

Lemma grow_last b n b' m :
  lastRead b = opInvalid -> grow b n = Ok (b', m) -> lastRead b' = opInvalid.
Proof.
  intros Hb E. unfold grow in E.
  set (b0 := if _ && _ then Reset b else Ok b) in E.
  assert (B : forall c, b0 = Ok c -> lastRead c = opInvalid).
  { unfold b0. case_match; [apply Reset_last|]. by intros c [= <-]. }
  destruct b0 as [c| |]; [|done..]. specialize (B c eq_refl). cbn [rbind] in E.
  destruct (tryGrowByReslice c n) as [[[c' i] ok]| |] eqn:T; [|done..]. apply tryGrow_last in T.
  cbn [rbind] in E. destruct ok; [congruence|].
  case_match; [injection E as <- <-; cbn [lastRead set_buf]; congruence|].
  set (s := if n <=? _ then _ else _) in E. destruct s as [s| |]; [|done..]. cbn [rbind] in E.
  destruct (reslice s _); [|done..]. cbn [rbind] in E. injection E as <- <-. cbn [lastRead]. congruence.
Qed.

Lemma makeRoom_last b n b' m :
  lastRead b = opInvalid -> makeRoom b n = Ok (b', m) -> lastRead b' = opInvalid.
Proof.
  intros Hb E. unfold makeRoom in E.
  destruct (tryGrowByReslice b n) as [[[c i] ok]| |] eqn:T; [|done..]. apply tryGrow_last in T.
  cbn [rbind] in E. destruct ok; [congruence|]. apply (grow_last c n b' m); [congruence|done].
Qed.

(** After a write, Truncate or Reset there is no read to undo. *)
Lemma write_last o b b' rep :
  match o with
  | OpWrite _ | OpWriteString _ | OpWriteByte _ | OpWriteRune _ | OpTruncate _ | OpReset => True
  | _ => False
  end ->
  perform o b = Ok (b', rep) -> lastRead b' = opInvalid.
Proof.
  assert (W : forall p b' n, Write b p = Ok (b', n) -> lastRead b' = opInvalid).
  { intros p b1 n E. unfold Write in E.
    destruct (makeRoom _ _) as [[c m]| |] eqn:T; [|done..]. apply makeRoom_last in T; [|done].
    cbn [rbind] in E. destruct (copyAt _ _ _) as [[s k]| |]; [|done..]. by injection E as <- <-. }
  assert (WB : forall c b', WriteByte b c = Ok b' -> lastRead b' = opInvalid).
  { intros x b1 E. unfold WriteByte in E.
    destruct (makeRoom _ _) as [[c m]| |] eqn:T; [|done..]. apply makeRoom_last in T; [|done].
    cbn [rbind] in E. case_match; [|done]. destruct (upd _ _ _); [|done..]. by injection E as <-. }
  intros Ho E. destruct o; try done; cbn [perform] in E.
  - destruct (Write b p) as [[c n]| |] eqn:T; [|done..]. injection E as <- _. by eapply W.
  - rewrite WriteString_Write in E. destruct (Write b s) as [[c n]| |] eqn:T; [|done..]. injection E as <- _. by eapply W.
  - destruct (WriteByte b c) as [c'| |] eqn:T; [|done..]. injection E as <- _. by eapply WB.
  - unfold WriteRune in E. case_match.
    + destruct (WriteByte b _) as [c'| |] eqn:T; [|done..]. injection E as <- _. by eapply WB.
    + destruct (makeRoom _ _) as [[c m]| |] eqn:T; [|done..]. apply makeRoom_last in T; [|done].
      cbn [rbind] in E. destruct (reslice _ _); [|done..]. by injection E as <- _.
  - unfold Truncate in E. case_match.
    + destruct (Reset b) as [c| |] eqn:T; [|done..]. apply Reset_last in T. by injection E as <- _.
    + case_match; [done|]. cbn [rbind] in E. destruct (reslice _ _); [|done..]. by injection E as <- _.
  - destruct (Reset b) as [c| |] eqn:T; [|done..]. apply Reset_last in T. by injection E as <- _.
Qed.

(** The buffer after a read of [k] bytes. *)
Section After.
Context (pre q post : list Z) (z : bool) (r : Z).

Definition after (k last : Z) : Buffer := mkBuffer (buf (canon pre q post z r)) (len pre + k) last.

Lemma contents_after k last : 0 <= k <= len q -> contents (after k last) = drop (Z.to_nat k) q.
Proof. intros Hk. unfold after. rewrite advance_canon by done. apply contents_canon. Qed.

Lemma UnreadByte_after k last :
  1 <= k <= len q -> last <> opInvalid -> UnreadByte (after k last) = (after (k - 1) opInvalid, true).
Proof.
  intros Hk Hl. unfold UnreadByte, after. cbn [off buf lastRead].
  rewrite (proj2 (Z.eqb_neq _ _)) by done. rewrite Z.gtb_ltb, (proj2 (Z.ltb_lt _ _)) by len_lia.
  do 2 f_equal. lia.
Qed.

Lemma UnreadRune_after k : 1 <= k <= len q -> UnreadRune (after k k) = (after 0 opInvalid, true).
Proof.
  intros Hk. unfold UnreadRune, after, opInvalid. cbn [off buf lastRead].
  rewrite (proj2 (Z.leb_gt k 0)), Z.geb_leb, (proj2 (Z.leb_le _ _)) by len_lia. do 2 f_equal. lia.
Qed.

Lemma back_after k last :
  1 <= k <= len q -> last <> opInvalid ->
  snd (UnreadByte (after k last)) = true /\
  contents (fst (UnreadByte (after k last))) = drop (Z.to_nat k - 1) q.
Proof.
  intros Hk Hl. rewrite UnreadByte_after by done. cbn [fst snd]. split; [done|].
  rewrite contents_after by lia. f_equal. lia.
Qed.

(** Each read ends in such a state. *)
Hypothesis Hq : q <> [].

Lemma len_q : 1 <= len q.
Proof. destruct q; [done|len_lia]. Qed.

Lemma not_empty : empty (canon pre q post z r) = false.
Proof. rewrite empty_canon. apply Z.eqb_neq. pose proof len_q. lia. Qed.

Lemma head_byte :
  idx (elements (buf (canon pre q post z r))) (off (canon pre q post z r)) ⇓ (fun _ => True).
Proof. rewrite elements_canon. apply idx_returns; [|done]. pose proof len_q. unfold canon. cbn [off]. len_lia. Qed.

Lemma ReadByte_after :
  ReadByte (canon pre q post z r) ⇓ (fun '(b', _, _) => b' = after 1 opRead).
Proof.
  unfold ReadByte. rewrite not_empty. by eapply returns_bind_mono; [apply head_byte|].
Qed.

Lemma ReadRune_after :
  bytes_ok q ->
  ReadRune (canon pre q post z r) ⇓ (fun '(b', _, n, _) => 1 <= n <= len q /\ b' = after n n).
Proof.
  intros Hb. unfold ReadRune. rewrite not_empty, unread_canon.
  eapply returns_bind_mono; [apply head_byte|]. intros x _.
  pose proof (decode_ref_width q Hq Hb) as W. pose proof len_q.
  destruct (x <? RuneSelf); [cbn [returns]; split; [lia|done]|]. cbn [rbind].
  rewrite (DecodeRune_ref q Hb). destruct (decode_ref q) as [y n]. cbn [snd] in W. cbn [rbind returns]. split; [lia|done].
Qed.

Lemma Next_after n :
  0 < n -> Next (canon pre q post z r) n ⇓ (fun '(b', d) => 1 <= len d <= len q /\ b' = after (len d) opRead).
Proof.
  intros Hn. unfold Next. rewrite set_last_canon, Len_canon.
  change (off (canon pre q post z opInvalid)) with (len pre). pose proof len_q.
  set (k := if n >? len q then len q else n).
  assert (Hk : 1 <= k <= len q) by (unfold k; zcases; len_lia).
  rewrite prefix_canon by lia. cbn [rbind returns]. rewrite len_take by lia.
  rewrite Z.gtb_ltb, (proj2 (Z.ltb_lt 0 k)) by lia. by split.
Qed.

Lemma Read_after p :
  p <> [] ->
  Read (canon pre q post z r) p ⇓ (fun '(b', _, n, _) => 1 <= n <= len q /\ b' = after n opRead).
Proof.
  intros Hp. unfold Read. rewrite set_last_canon. pose proof len_q.
  rewrite empty_canon, (proj2 (Z.eqb_neq _ _)) by lia. rewrite unread_canon. cbn [rbind returns].
  assert (1 <= Z.min (len p) (len q) <= len q) by (destruct p; [done|len_lia]).
  split; [done|]. by rewrite Z.gtb_ltb, (proj2 (Z.ltb_lt 0 _)) by lia.
Qed.
End After.

(** Unread undoes the last read.  After ReadByte, UnreadByte restores the
    unread bytes and UnreadRune refuses; after ReadRune, UnreadRune restores
    them and UnreadByte gives back the last byte of the rune; after Next or Read of at
    least one byte, UnreadByte gives back the last byte read; and after a
    write, Truncate or Reset both refuse and change nothing. *)
Theorem Unread_undoes b :
  inv b -> contents b <> [] -> bytes_ok (contents b) ->
  let back k b' := snd (UnreadByte b') = true /\ contents (fst (UnreadByte b')) = drop (k - 1) (contents b) in
  ReadByte b ⇓ (fun '(b', _, _) => back 1%nat b' /\ UnreadRune b' = (b', false)) /\
  ReadRune b ⇓ (fun '(b', _, n, _) =>
    back (Z.to_nat n) b' /\ snd (UnreadRune b') = true /\ contents (fst (UnreadRune b')) = contents b) /\
  (forall n, 0 < n -> Next b n ⇓ (fun '(b', d) => back (length d) b' /\ UnreadRune b' = (b', false))) /\
  (forall p, p <> [] -> Read b p ⇓ (fun '(b', _, n, _) => back (Z.to_nat n) b' /\ UnreadRune b' = (b', false))) /\
  (forall o b' rep, perform o b = Ok (b', rep) ->
     match o with
     | OpWrite _ | OpWriteString _ | OpWriteByte _ | OpWriteRune _ | OpTruncate _ | OpReset =>
         UnreadByte b' = (b', false) /\ UnreadRune b' = (b', false)
     | _ => True
     end).
Proof.
  intros Hi Hne Hb. cbv zeta. destruct (inv_canon b Hi) as (pre & post & E & _).
  set (q := contents b) in *. rewrite E. clearbody q.
  assert (Rf : forall k, UnreadRune (after pre q post (isnil (buf b)) (lastRead b) k opRead) =
                         (after pre q post (isnil (buf b)) (lastRead b) k opRead, false)) by done.
  split; [|split; [|split; [|split]]].
  - eapply returns_mono; [by apply ReadByte_after|]. intros [[b' c] e] ->.
    split; [|apply Rf]. by apply (back_after pre q post _ _ 1 opRead); [pose proof (len_q q Hne); lia|].
  - eapply returns_mono; [by apply ReadRune_after|]. intros [[[b' c] n] e] [Hn ->].
    split; [by apply back_after; [|unfold opInvalid; lia]|].
    rewrite UnreadRune_after by done. cbn [fst snd]. split; [done|]. by rewrite contents_after by lia.
  - intros n Hn. eapply returns_mono; [by apply Next_after|]. intros [b' d] [Hd ->].
    split; [|apply Rf]. pose proof (back_after pre q post (isnil (buf b)) (lastRead b) (len d) opRead Hd) as B.
    replace (length d) with (Z.to_nat (len d)) by (unfold len; lia). by apply B.
  - intros p Hp. eapply returns_mono; [by apply Read_after|]. intros [[[b' p'] n] e] [Hn ->].
    split; [|apply Rf]. by apply back_after.
  - rewrite <- E. intros o b' rep P. unfold UnreadByte, UnreadRune.
    destruct o; try done; apply write_last in P; try done; by rewrite P.
Qed.
End Unread.

Definition euroBuffer : Buffer := NewBufferString [0xE2; 0x82; 0xAC; 0x21].

Lemma Unread_undoes_witness :
  ReadRune euroBuffer ⇓ (fun '(b', _, n, _) =>
    contents (fst (UnreadByte b')) = drop (Z.to_nat n - 1) [0xE2; 0x82; 0xAC; 0x21] /\
    contents (fst (UnreadRune b')) = [0xE2; 0x82; 0xAC; 0x21]).
Proof.
  assert (Hi : inv euroBuffer) by (split; [by vm_compute|]; split; by vm_compute).
  assert (Hb : bytes_ok (contents euroBuffer)) by (apply (bool_decide_unpack _); by vm_compute).
  refine (returns_mono _ _ _ (proj1 (proj2 (Unread_undoes euroBuffer Hi ltac:(done) Hb))) _).
  intros [[[b' x] n] e] [[_ B] [_ C]]. by split.
Defined.

(** ** Transfers to and from streams *)

(** The reader gives [data] and then the error [e], in at most [k] calls with
    room for [MinRead] bytes; each call may use all of [p] as scratch space. *)
Fixpoint yields {S : Type} `{Reader S} (k : nat) (s : S) (data : list Z) (e : ioErr) : Prop :=
  match k with
  | O => False
  | Datatypes.S k =>
      forall p, MinRead <= len p -> exists s' chunk scratch rest,
        len chunk + len scratch = len p /\ data = chunk ++ rest /\
        ((rd_read s p = (s', chunk ++ scratch, len chunk, Some e) /\ rest = []) \/
         (rd_read s p = (s', chunk ++ scratch, len chunk, None) /\ yields k s' rest e))
  end.

Section Streams.
Context `{R : Runtime} `{L : !RuntimeLaws R}.

(** The free space a reader is given, and the buffer once it was filled. *)
Lemma space_canon pre q space z r :
  drop (Z.to_nat (len pre + len q)) (arr (buf (canon pre q space z r))) = space /\
  take (Z.to_nat (len pre + len q)) (arr (buf (canon pre q space z r))) = pre ++ q.
Proof.
  unfold canon. cbn [buf arr]. rewrite app_assoc, <- len_app. split; [apply drop_len|apply take_len].
Qed.

Lemma fill_canon pre q chunk scratch z r :
  reslice (mkSlice ((pre ++ q) ++ chunk ++ scratch) (len pre + len q) z) (len pre + len q + len chunk) =
  Ok (buf (canon pre (q ++ chunk) scratch z r)).
Proof.
  replace (mkSlice _ _ z) with (buf (canon pre q (chunk ++ scratch) z r))
    by (unfold canon; cbn [buf]; by rewrite <- app_assoc).
  rewrite <- Z.add_assoc, reslice_canon by len_lia.
  by rewrite <- len_app, (app_assoc q), take_len, drop_len.
Qed.

Lemma readFromStep_canon {S : Type} `{Reader S} k pre q post z r s n data e :
  nil_ok z (pre ++ q ++ post) -> 2 * (len pre + len q + len post) + MinRead <= maxInt ->
  yields (Datatypes.S k) s data e -> 0 <= n -> n + len data < 2 ^ 63 ->
  readFromStep (canon pre q post z r, s, n) ⇓ (fun out => exists chunk b s' rest,
    data = chunk ++ rest /\ holds (capBound (len pre + len q + len post) (len q) MinRead) (q ++ chunk) b /\
    ((out = inr (b, s', n + len chunk, match e with EOF => None | _ => Some e end) /\ rest = []) \/
     (out = inl (b, s', n + len chunk) /\ yields k s' rest e))).
Proof.
  intros Hz Hroom Hy Hn0 Hn. unfold readFromStep.
  eapply returns_bind_mono; [apply grow_canon; [done|unfold MinRead; lia|done]|].
  intros out (r' & _ & pre' & junk & post' & z' & -> & Hz' & Hj & Hc).
  assert (HM : MinRead = 512) by done. rewrite reslice_canon by len_lia. cbn [rbind].
  rewrite <- (app_assoc q), take_len, drop_len in *.
  destruct (space_canon pre' q (junk ++ post') z' r') as [-> ->].
  destruct (Hy (junk ++ post') ltac:(len_lia)) as (s' & chunk & scratch & rest & Hl & -> & Hrd).
  assert (Hh : holds (capBound (len pre + len q + len post) (len q) MinRead) (q ++ chunk)
                 (canon pre' (q ++ chunk) scratch z' r')).
  { apply holds_canon; [|len_lia]. revert Hz'. apply nil_ok_len. len_lia. }
  destruct Hrd as [[-> ->]|[-> Hy']];
    change (isnil (buf (canon pre' q (junk ++ post') z' r'))) with z';
    rewrite (proj2 (Z.ltb_ge (len chunk) 0)), (fill_canon _ _ _ _ _ r') by len_lia;
    cbn [rbind]; rewrite set_buf_canon, i64_id by (done || len_lia).
  - destruct e; exists chunk, (canon pre' (q ++ chunk) scratch z' r'), s', []; auto.
  - exists chunk, (canon pre' (q ++ chunk) scratch z' r'), s', rest. auto.
Qed.

Lemma readFrom_loop {S : Type} `{Reader S} M fuel b s n data e :
  inv b -> cap (buf b) <= M -> yields fuel s data e ->
  8 * (len (contents b) + len data + MinRead) + 8192 <= M -> 2 * M + MinRead <= maxInt ->
  0 <= n -> n + len data < 2 ^ 63 ->
  loop fuel readFromStep (b, s, n) ⇓ (fun '(b', _, n', e') =>
    holds M (contents b ++ data) b' /\ n' = n + len data /\
    e' = match e with EOF => None | _ => Some e end).
Proof.
  revert b s n data. induction fuel as [|k IH]; intros b s n data Hi HM Hy Hd Hroom Hn0 Hn; [done|].
  cbn [loop]. destruct (inv_canon b Hi) as (pre & post & E & Hz).
  rewrite E in HM |- *. rewrite cap_canon in HM. rewrite contents_canon.
  eapply returns_bind_mono; [by apply (readFromStep_canon k); [|lia|..]|].
  intros out (chunk & b' & s' & rest & -> & (Hi' & Hq & Hc) & Hout). unfold capBound in Hc.
  rewrite len_app in *. pose proof (len_nonneg rest). pose proof (len_nonneg chunk).
  destruct Hout as [[-> ->]|[-> Hy']].
  - cbn [returns]. change (len (@nil Z)) with 0. rewrite app_nil_r. repeat split; try done; try lia; apply Hi'.
  - eapply returns_mono; [apply (IH b' s' _ rest); try done; rewrite ?Hq, ?len_app; lia|].
    intros [[[b2 s2] n2] e2] (Hh & -> & ->). rewrite Hq, <- app_assoc in Hh. repeat split; try apply Hh; lia.
Qed.

(** ReadFrom drains the reader: if the reader gives [data] and then the
    error [e] within [fuel] calls, ReadFrom returns, without a panic, with
    exactly [data] appended to the unread bytes, its length as the count, and
    the error, io.EOF excepted; the storage stays within eight times the bytes
    held plus a constant. *)
Theorem ReadFrom_correct {S : Type} `{Reader S} fuel b s data e :
  inv b -> yields fuel s data e ->
  let M := capBound (cap (buf b)) (len (contents b)) (len data + MinRead) in
  2 * M + MinRead <= maxInt ->
  ReadFrom fuel b s ⇓ (fun '(b', _, n, e') =>
    inv b' /\ contents b' = contents b ++ data /\ cap (buf b') <= M /\ n = len data /\
    e' = match e with EOF => None | _ => Some e end).
Proof.
  cbv zeta. intros Hi Hy Hroom. unfold ReadFrom, capBound in *. pose proof (len_nonneg data).
  pose proof (len_nonneg (contents b)). assert (HM : MinRead = 512) by done.
  assert (HX : maxInt = 2 ^ 63 - 1) by done.
  set (M := Z.max _ _) in *.
  eapply returns_mono; [apply (readFrom_loop M fuel (set_last b opInvalid) s 0 data e); try done; cbn [set_last buf];
    change (contents (set_last b opInvalid)) with (contents b); lia|].
  intros [[[b' s'] n] e'] ((Hi' & Hq & Hc) & -> & ->). repeat split; try done; apply Hi'.
Qed.

(** WriteTo hands the unread bytes to the writer once.  When the writer
    keeps its contract (it takes between zero and all of them), WriteTo
    returns the count the writer gave, removes exactly that many bytes, and
    returns the writer's error, or ErrShortWrite for a short count without
    one; with nothing to write it does not call the writer. *)
Theorem WriteTo_correct {S : Type} `{Writer S} b w :
  inv b -> cap (buf b) <= maxInt ->
  let '(w1, m, e) := wr_write w (contents b) in
  (contents b <> [] -> 0 <= m <= len (contents b)) ->
  WriteTo b w ⇓ (fun '(b', w', n, e') =>
    inv b' /\ contents b' = drop (Z.to_nat n) (contents b) /\
    if len (contents b) =? 0 then w' = w /\ n = 0 /\ e' = None
    else w' = w1 /\ n = m /\
         e' = match e with
              | Some e => Some e
              | None => if m <? len (contents b) then Some ErrShortWrite else None
              end).
Proof.
  intros Hi Hcap. destruct (wr_write w (contents b)) as [[w1 m] e] eqn:W. intros Hm.
  destruct (inv_canon b Hi) as (pre & post & E & Hz). set (q := contents b) in *.
  rewrite E, cap_canon in Hcap. rewrite E. clearbody q. unfold WriteTo.
  rewrite set_last_canon, Len_canon, unread_canon. cbn [rbind]. rewrite W, Z.gtb_ltb.
  destruct (Z.eqb_spec (len q) 0) as [E0|E0].
  - rewrite (proj2 (Z.ltb_ge 0 _)) by lia.
    eapply returns_bind_mono; [by apply (holds_Reset maxInt pre q post)|]. intros b' (Hi' & Hq & _).
    apply len_zero_inv in E0 as ->. repeat split; (done || apply Hi').
  - rewrite (proj2 (Z.ltb_lt 0 _)) by len_lia. specialize (Hm ltac:(by intros ->)).
    rewrite Z.gtb_ltb, (proj2 (Z.ltb_ge (len q) m)) by lia.
    rewrite i64_id by (unfold maxInt in Hcap; len_lia).
    destruct (holds_advance _ pre q post _ opInvalid opInvalid m Hz Hcap ltac:(lia)) as (Hi' & Hq & _).
    destruct e as [e|]; [repeat split; (done || apply Hi')|].
    destruct (Z.eqb_spec m (len q)) as [->|Hne]; cbn [negb].
    + change (set_off _ _) with (mkBuffer (buf (canon pre q post (isnil (buf b)) opInvalid)) (len pre + len q) opInvalid).
      rewrite advance_canon by len_lia. rewrite Reset_canon. cbn [rbind returns]. rewrite Z.ltb_irrefl.
      split; [|split; [|done]].
      * apply canon_inv. revert Hz. apply nil_ok_len. cbn [app]. rewrite !len_app, len_take, len_drop by len_lia. lia.
      * rewrite contents_canon. by rewrite drop_ge by (unfold len; lia).
    + rewrite (proj2 (Z.ltb_lt _ _)) by lia. repeat split; (done || apply Hi').
Qed.
End Streams.

(** A reader of a list that gives three bytes at a time, and a writer that
    takes five. *)
#[local] Instance listReader : Reader (list Z) := fun s p =>
  let chunk := take 3 s in
  (drop 3 s, chunk ++ drop (length chunk) p, len chunk, match s with [] => Some EOF | _ => None end).
#[local] Instance fiveWriter : Writer (list Z) := fun w p => (w ++ take 5 p, Z.min 5 (len p), None).

Lemma listReader_yields k s : (length s < k)%nat -> yields k s s EOF.
Proof.
  revert s. induction k as [|k IH]; intros s Hk; [lia|]. cbn [yields]. intros p Hp.
  exists (drop 3 s), (take 3 s), (drop (length (take 3 s)) p), (drop 3 s).
  split; [|split; [by rewrite take_drop|]].
  { unfold len, MinRead in *. rewrite length_drop, length_take. lia. }
  destruct s as [|x s]; [left; by split|right]. split; [done|].
  apply IH. rewrite length_drop. simpl in *. lia.
Qed.

Lemma ReadFrom_correct_witness :
  ReadFrom 9 (NewBufferString (str "The "%string)) (str "gopher"%string) ⇓ (fun '(b, _, n, e) =>
    inv b /\ contents b = str "The gopher"%string /\
    cap (buf b) <= 12368 /\ n = 6 /\ e = None).
Proof.
  refine (ReadFrom_correct 9 (NewBufferString (str "The "%string)) (str "gopher"%string)
            (str "gopher"%string) EOF _ (listReader_yields _ _ _) _).
  - split; [by vm_compute|]. split; by vm_compute.
  - simpl. lia.
  - by vm_compute.
Defined.

Lemma WriteTo_correct_witness :
  WriteTo (NewBufferString (str "gophers"%string)) (@nil Z) ⇓ (fun '(b, w, n, e) =>
    inv b /\ contents b = drop (Z.to_nat n) (str "gophers"%string) /\
    w = str "gophe"%string /\ n = 5 /\ e = Some ErrShortWrite).
Proof.
  refine (WriteTo_correct (NewBufferString (str "gophers"%string)) (@nil Z) _ _ _).
  - split; [by vm_compute|]. split; by vm_compute.
  - by vm_compute.
  - intros _. split; by vm_compute.
Defined.

(** ** Where Unread differs from its comment *)

(** ReadByte, then a Grow that moves the unread bytes to the front of the
    array: UnreadByte reports success but gives nothing back.  Without the Grow the byte comes back. *)
Lemma UnreadByte_after_Grow :
  let start := NewBufferString (str "ab"%string) in
  (let! '(b, _, _) := ReadByte start in
   let '(b', ok) := UnreadByte b in Ok (contents b', ok)) = Ok (str "ab"%string, true) /\
  (let! '(b, _, _) := ReadByte start in
   let! b := Grow b 1 in
   let '(b', ok) := UnreadByte b in Ok (contents b', ok)) = Ok (str "b"%string, true).
Proof. split; vm_compute; reflexivity. Qed.

(** A ReadBytes that finds nothing to read and returns io.EOF is still
    recorded as a read: UnreadByte then reports success and gives back a byte
    of an earlier read. *)
Lemma UnreadByte_after_EOF :
  (let! '(b, _) := Next (NewBufferString (str "a"%string)) 1 in
   let! '(b, line, e) := ReadBytes b (ch "x"%char) in
   let '(b', ok) := UnreadByte b in Ok (line, e, contents b', ok)) =
  Ok ([], Some EOF, str "a"%string, true).
Proof. vm_compute. reflexivity. Qed.
