(* ===== verification/Heap.v ===== *)
(** * Package container/heap

    The functions of src/container/heap/heap.go over the class [Interface] of
    the operations they call.  [InterfaceLaws] is what a type that implements
    the interface promises: its elements form a sequence, [view], which Less
    compares by a strict weak order, Swap exchanges in, and Push and Pop
    extend and shorten at its end.  The theorems are proved against these
    laws; a slice with a comparison function is an instance. *)
From Stdlib Require Import ZArith Lia Permutation Sorted.
From stdpp Require Import base numbers list.
From S2P Require Import Prelude Bits Search Sort Segments.

(** ** Model *)

(** sort.Interface and heap.Interface. *)
Class Interface (H A : Type) := {
  hLen : H -> Z;
  hLess : H -> Z -> Z -> res bool;
  hSwap : H -> Z -> Z -> res H;
  hPush : H -> A -> res H;
  hPop : H -> res (H * A);
}.

Section Model.
Context {H A : Type} `{I : Interface H A}.

Definition up (h : H) (j : Z) : res H :=
  loop (S (Z.to_nat j))
    (fun '(h, j) =>
       let i := Z.quot (j - 1) 2 in
       let! stop := if i =? j then Ok true else (let! l := hLess h j i in Ok (negb l)) in
       if (stop : bool) then Ok (inr h) else
       let! h := hSwap h i j in
       Ok (inl (h, i))) (h, j).

Definition down (h : H) (i0 n : Z) : res (H * bool) :=
  loop (S (Z.to_nat n))
    (fun '(h, i) =>
       let j1 := i64 (2 * i + 1) in
       if (j1 >=? n) || (j1 <? 0) then Ok (inr (h, i >? i0)) else
       let j2 := j1 + 1 in
       let! isRight := if j2 <? n then hLess h j2 j1 else Ok false in
       let j := if (isRight : bool) then j2 else j1 in
       let! l := hLess h j i in
       if negb l then Ok (inr (h, i >? i0)) else
       let! h := hSwap h i j in
       Ok (inl (h, j))) (h, i0).

Definition Init (h : H) : res H :=
  let n := hLen h in
  loop (S (Z.to_nat n))
    (fun '(h, i) =>
       if i >=? 0 then
         let! '(h, _) := down h i n in
         Ok (inl (h, i - 1))
       else Ok (inr h)) (h, Z.quot n 2 - 1).

Definition Push (h : H) (x : A) : res H :=
  let! h := hPush h x in
  up h (hLen h - 1).

Definition Pop (h : H) : res (H * A) :=
  let n := hLen h - 1 in
  let! h := hSwap h 0 n in
  let! '(h, _) := down h 0 n in
  hPop h.

Definition Remove (h : H) (i : Z) : res (H * A) :=
  let n := hLen h - 1 in
  let! h :=
    if negb (n =? i) then
      let! h := hSwap h i n in
      let! '(h, moved) := down h i n in
      if negb moved then up h i else Ok h
    else Ok h in
  hPop h.

Definition Fix (h : H) (i : Z) : res H :=
  let! '(h, moved) := down h i (hLen h) in
  if negb moved then up h i else Ok h.
End Model.

(** ** The contract of the interface *)

Class InterfaceLaws {H A : Type} (I : Interface H A) (cmp : A -> A -> Z) (view : H -> list A) : Prop := {
  hLen_view h : hLen h = len (view h);
  hLess_view h i j : 0 <= i < len (view h) -> 0 <= j < len (view h) ->
    hLess h i j = lessAt cmp (view h) i j;
  hSwap_view h i j : 0 <= i < len (view h) -> 0 <= j < len (view h) ->
    hSwap h i j ⇓ (fun h' => view h' = xchg (view h) i j);
  hPush_view h x : hPush h x ⇓ (fun h' => view h' = view h ++ [x]);
  hPop_view h l x : view h = l ++ [x] -> hPop h ⇓ (fun '(h', y) => y = x /\ view h' = l);
}.

Section Correct.
Context {H A : Type} `{I : Interface H A} (cmp : A -> A -> Z) `{SW : !StrictWeak cmp}.
Context (view : H -> list A) `{L : !InterfaceLaws I cmp view}.
Implicit Types (h : H) (d : list A).
Local Abbreviation leA := (leA cmp).

(** ** The heap order *)

Definition parentOf (c : Z) : Z := (c - 1) / 2.

(** Every node from [lo] on is not above its children, among the first [n]. *)
Definition heapFrom (lo n : Z) d : Prop :=
  forall c, 0 < c < n -> lo <= parentOf c -> leA d (parentOf c) c.
Definition isHeap d : Prop := heapFrom 0 (len d) d.

(** The node [i] may be out of order, with its parent and its children. *)
Definition hole (i lo n : Z) d : Prop :=
  (forall c, 0 < c < n -> lo <= parentOf c -> parentOf c <> i -> c <> i -> leA d (parentOf c) c) /\
  (forall c, 0 < c < n -> parentOf c = i -> 0 < i -> lo <= parentOf i -> leA d (parentOf i) c).

(** The node [i] is in order with its children, or with its parent. *)
Definition kids (i n : Z) d : Prop := forall c, 0 < c < n -> parentOf c = i -> leA d i c.
Definition above (i lo : Z) d : Prop := 0 < i -> lo <= parentOf i -> leA d (parentOf i) i.

Lemma hole_filled i lo n d : hole i lo n d -> kids i n d -> above i lo d -> heapFrom lo n d.
Proof.
  intros [Hh _] Hk Ha c Hc Hlo. destruct (decide (parentOf c = i)) as [<-|]; [by apply Hk|].
  destruct (decide (c = i)) as [->|]; [by apply Ha; [lia|]|auto].
Qed.

(** Exchanging the node with its least child moves the hole down. *)
Lemma hole_down i j lo n d :
  0 <= lo <= i -> n <= len d -> 0 < j < n -> parentOf j = i ->
  (forall c, 0 < c < n -> parentOf c = i -> leA d j c) -> leA d j i ->
  hole i lo n d -> hole j lo n (xchg d i j) /\ above j lo (xchg d i j).
Proof.
  unfold hole, above, parentOf. intros Hlo Hn Hj Hp Hmin Hle [H1 H2]. split; [split|].
  - intros c Hc Hlo1 Hpne Hne. destruct (decide (c = i)) as [->|]; [|destruct (decide ((c - 1) / 2 = i)) as [E|]].
    + leA_xchg_tac; try zdm. apply H2; zdm.
    + rewrite E. leA_xchg_tac; try zdm. by apply Hmin.
    + leA_xchg_tac; try zdm. apply H1; zdm.
  - intros c Hc Hpc _ _. rewrite Hp. assert (j < c) by zdm. leA_xchg_tac; try zdm. rewrite <- Hpc. apply H1; zdm.
  - intros _ _. rewrite Hp. leA_xchg_tac; try zdm. done.
Qed.

(** Exchanging it with its parent moves the hole up. *)
Lemma hole_up j n d :
  0 < j < n -> n <= len d -> leA d j (parentOf j) -> hole j 0 n d -> kids j n d ->
  hole (parentOf j) 0 n (xchg d (parentOf j) j) /\ kids (parentOf j) n (xchg d (parentOf j) j).
Proof.
  unfold hole, kids. intros Hj Hn Hle [H1 H2] Hk. set (i := parentOf j) in *.
  assert (Hi : 0 <= i < j) by (unfold i, parentOf; zdm). split; [split|].
  - intros c Hc _ Hpne Hne. assert (Hpc : 0 <= parentOf c < c) by (unfold parentOf; zdm).
    destruct (decide (c = j)) as [->|]; [done|]. destruct (decide (parentOf c = j)) as [E|].
    + rewrite E. leA_xchg_tac; try lia. apply H2; lia.
    + leA_xchg_tac; try lia. apply H1; lia.
  - intros c Hc Hpc Hi0 _. assert (Hpi : 0 <= parentOf i < i) by (unfold parentOf; zdm).
    assert (leA d (parentOf i) i) by (apply H1; lia).
    assert (i < c) by (rewrite <- Hpc; unfold parentOf; zdm).
    leA_xchg_tac; try lia; [done|]. eapply leA_trans; [done..|]. rewrite <- Hpc. apply H1; lia.
  - intros c Hc Hpc. assert (i < c) by (rewrite <- Hpc; unfold parentOf; zdm).
    leA_xchg_tac; try lia; [done|]. eapply leA_trans; [done|done|]. fold i. rewrite <- Hpc. apply H1; lia.
Qed.

(** ** up and down *)

Lemma hLess_spec h i j (Q : bool -> Prop) :
  0 <= i < len (view h) -> 0 <= j < len (view h) ->
  (leA (view h) i j -> Q true) -> (leA (view h) j i -> Q false) -> hLess h i j ⇓ Q.
Proof. intros. rewrite (hLess_view h) by done. by apply lessAt_spec. Qed.

Lemma up_spec h j n :
  0 <= j < n -> n <= len (view h) -> hole j 0 n (view h) -> kids j n (view h) ->
  up h j ⇓ (fun h' => shuffle 0 n (view h) (view h') /\ heapFrom 0 n (view h')).
Proof.
  intros Hj Hn Hh Hk. unfold up.
  apply (loop_returns (fun '(h', i) => shuffle 0 n (view h) (view h') /\ 0 <= i < n /\
      hole i 0 n (view h') /\ kids i n (view h')) (fun '(h', i) => i)); [| |lia|lia].
  2: { split; [constructor|done]. }
  clear Hj Hh Hk. intros [h' i] (Hs & Hi & Hh & Hk). pose proof (shuffle_len _ _ _ _ Hs) as Hl.
  destruct (decide (i = 0)) as [->|].
  { cbn. split; [done|]. apply (hole_filled 0 0 n); [done..|]. intros ?; lia. }
  assert (Z.quot (i - 1) 2 = parentOf i) as -> by (unfold parentOf; apply Z.quot_div_nonneg; lia).
  assert (Hp : 0 <= parentOf i < i) by (unfold parentOf; zdm).
  rewrite (proj2 (Z.eqb_neq _ _)) by lia. apply returns_bind, returns_bind, hLess_spec; [lia|lia| |]; intros Hle; cbn.
  - eapply returns_bind_mono; [apply hSwap_view; lia|]. intros h2 E. cbn [returns]. rewrite E.
    destruct (hole_up i n (view h') ltac:(lia) ltac:(lia) Hle Hh Hk). split; [|lia].
    split; [apply shuffle_snoc; auto; lia|]. split; [lia|done].
  - split; [done|]. apply (hole_filled i 0 n); [done..|]. by intros _ _.
Qed.

(** The least child of a node, as [down] selects it. *)
Lemma least_child h i n :
  0 <= i -> 2 * i + 1 < n -> n <= len (view h) ->
  (if 2 * i + 1 + 1 <? n then hLess h (2 * i + 1 + 1) (2 * i + 1) else Ok false) ⇓ (fun right =>
    let j := if right then 2 * i + 1 + 1 else 2 * i + 1 in
    0 < j < n /\ parentOf j = i /\ forall c, 0 < c < n -> parentOf c = i -> leA (view h) j c).
Proof.
  intros Hi Hlt Hn. cbv zeta.
  assert (Hk : forall c, 0 < c < n -> parentOf c = i -> c = 2 * i + 1 \/ c = 2 * i + 1 + 1)
    by (unfold parentOf; intros; zdm).
  assert (P1 : parentOf (2 * i + 1) = i) by (unfold parentOf; zdm).
  assert (P2 : parentOf (2 * i + 1 + 1) = i) by (unfold parentOf; zdm).
  destruct (Z.ltb_spec (2 * i + 1 + 1) n).
  - apply hLess_spec; [lia|lia| |]; intros Hle; (split; [lia|]); (split; [done|]); intros c Hc Hpc;
      destruct (Hk c Hc Hpc) as [-> | ->]; (done || (apply leA_refl; [done|lia])).
  - cbn [returns]. split; [lia|]. split; [done|]. intros c Hc Hpc.
    destruct (Hk c Hc Hpc) as [-> | ->]; [|lia]. apply leA_refl; [done|lia].
Qed.

Lemma down_spec h i0 lo n :
  0 <= lo <= i0 -> i0 <= n <= len (view h) -> n < 2 ^ 62 -> hole i0 lo n (view h) ->
  down h i0 n ⇓ (fun '(h', moved) => shuffle 0 n (view h) (view h') /\
    if (moved : bool) then heapFrom lo n (view h')
    else view h' = view h /\ kids i0 n (view h)).
Proof.
  intros Hlo Hi0 Hmax Hh. unfold down.
  apply (loop_returns (fun '(h', i) => shuffle 0 n (view h) (view h') /\ i0 <= i <= n /\
      hole i lo n (view h') /\ (i = i0 -> view h' = view h) /\ (i0 < i -> above i lo (view h')))
    (fun '(h', i) => n - i)); [| |lia|lia].
  2: { split; [constructor|]. split; [lia|]. split; [done|]. split; [done|lia]. }
  clear Hh. intros [h' i] (Hs & Hi & Hh & Hsame & Hab). pose proof (shuffle_len _ _ _ _ Hs) as Hl.
  assert (Hend : kids i n (view h') -> shuffle 0 n (view h) (view h') /\
      if i >? i0 then heapFrom lo n (view h') else view h' = view h /\ kids i0 n (view h)).
  { intros Hk. split; [done|]. destruct (Z.gtb_spec i i0).
    - apply (hole_filled i lo n); auto.
    - assert (i = i0) as -> by lia. rewrite Hsame in Hk by done. auto. }
  rewrite i64_id by lia. rewrite (proj2 (Z.ltb_ge (2 * i + 1) 0)), orb_false_r by lia.
  destruct (Z.geb_spec (2 * i + 1) n) as [Hge|Hlt].
  { apply Hend. intros c Hc Hpc. exfalso. unfold parentOf in Hpc. zdm. }
  eapply returns_bind_mono; [apply least_child; lia|].
  intros right (Hj & Hpj & Hmin). set (j := if right then _ else _) in *.
  assert (i < j) by (unfold parentOf in Hpj; zdm).
  apply returns_bind, hLess_spec; [lia|lia| |]; intros Hle; cbn.
  - eapply returns_bind_mono; [apply hSwap_view; lia|]. intros h2 E. cbn [returns]. rewrite E.
    destruct (hole_down i j lo n (view h')) as [Hh2 Ha2]; [lia|lia|lia|done|done|done|done|].
    split; [|lia]. split; [apply shuffle_snoc; auto; lia|]. split; [lia|]. split; [done|]. split; [lia|done].
  - apply Hend. intros c Hc Hpc. eapply leA_trans; [done|exact Hle|by apply Hmin].
Qed.

Lemma settle_spec h i n :
  0 <= i < n -> n <= len (view h) -> n < 2 ^ 62 -> hole i 0 n (view h) ->
  (let! '(h, moved) := down h i n in if negb moved then up h i else Ok h)
    ⇓ (fun h' => shuffle 0 n (view h) (view h') /\ heapFrom 0 n (view h')).
Proof.
  intros Hi Hn Hmax Hh. eapply returns_bind_mono; [by apply (down_spec h i 0 n); [lia|lia|..]|].
  intros [h' moved] [Hs Hm]. destruct moved; cbn [negb]; [done|]. destruct Hm as [E Hk].
  rewrite <- E in Hk, Hh. eapply returns_mono; [apply (up_spec h' i n); (done || by rewrite ?E)|].
  intros h2. by rewrite E.
Qed.

(** ** The operations *)

Lemma Init_spec h :
  len (view h) < 2 ^ 62 ->
  Init h ⇓ (fun h' => Permutation (view h') (view h) /\ isHeap (view h')).
Proof.
  intros Hmax. unfold Init. rewrite hLen_view. set (n := len (view h)) in *.
  assert (Hn : 0 <= n) by (unfold n; len_lia). assert (0 <= Z.quot n 2 <= n /\ n <= 2 * Z.quot n 2 + 1)
    by (rewrite Z.quot_div_nonneg by lia; zdm).
  apply (loop_returns (fun '(h', i) => shuffle 0 n (view h) (view h') /\ -1 <= i < n /\
      heapFrom (i + 1) n (view h')) (fun '(h', i) => i + 1)); [| |lia|lia].
  2: { split; [constructor|]. split; [|intros c Hc Hp; exfalso; unfold parentOf in Hp; zdm]. lia. }
  intros [h' i] (Hs & Hi & Hh). pose proof (shuffle_len _ _ _ _ Hs) as Hl. fold n in Hl.
  destruct (Z.geb_spec i 0).
  - assert (Ho : hole i i n (view h')).
    { split; [intros; apply Hh; lia|]. unfold parentOf. intros; zdm. }
    eapply returns_bind_mono; [apply (down_spec h' i i n); (done || lia)|].
    intros [h2 moved] [Hs2 Hm]. split; [|lia]. split; [by eapply shuffle_trans|]. split; [lia|].
    rewrite Z.sub_add. destruct moved; [done|]. destruct Hm as [-> Hk].
    apply (hole_filled i i n); [done..|]. unfold above, parentOf. intros; zdm.
  - cbn. assert (i = -1) as -> by lia. split; [by eapply shuffle_Permutation|].
    unfold isHeap. by rewrite Hl.
Qed.

Lemma at_app_l d1 d2 i : 0 <= i < len d1 -> at_ (d1 ++ d2) i = at_ d1 i.
Proof. intros Hi. unfold at_, len in *. apply lookup_app_l. lia. Qed.

Lemma heapFrom_app n d1 d2 : n <= len d1 -> heapFrom 0 n (d1 ++ d2) <-> heapFrom 0 n d1.
Proof.
  intros Hn. split; intros Hh c Hc Hp; (eapply leA_at; [| |by apply Hh]);
    (rewrite at_app_l by (unfold parentOf in *; zdm)); done.
Qed.

Lemma Push_spec h x :
  len (view h) + 1 < 2 ^ 62 -> isHeap (view h) ->
  Push h x ⇓ (fun h' => Permutation (view h') (x :: view h) /\ isHeap (view h')).
Proof.
  intros Hmax Hh. unfold Push. eapply returns_bind_mono; [apply hPush_view|]. intros h1 E.
  rewrite hLen_view, E, len_app. change (len [x]) with 1. set (n := len (view h)) in *.
  replace (n + 1 - 1) with n by lia. apply (heapFrom_app n _ [x]) in Hh; [|done].
  eapply returns_mono; [apply (up_spec h1 n (n + 1)); rewrite ?E|].
  - unfold n. len_lia.
  - len_simpl. change (len (@nil A)) with 0. fold n. lia.
  - split; [intros c Hc Hp Hpc Hcn; apply Hh; lia|]. unfold parentOf. intros; zdm.
  - unfold kids, parentOf. intros; zdm.
  - intros h' [Hs Hh']. pose proof (shuffle_len _ _ _ _ Hs) as Hl. split.
    + rewrite (shuffle_Permutation _ _ _ _ Hs), E. symmetry. apply Permutation_cons_append.
    + unfold isHeap. rewrite Hl, E, len_app. done.
Qed.

Lemma hole_xchg_last i n d :
  len d = n + 1 -> 0 <= i < n -> isHeap d -> hole i 0 n (xchg d i n).
Proof.
  intros Hl Hi Hh. unfold isHeap, heapFrom in Hh. rewrite Hl in Hh. split.
  - intros c Hc _ Hpc Hne. assert (0 <= parentOf c < c) by (unfold parentOf; zdm).
    leA_xchg_tac; try lia. apply Hh; lia.
  - intros c Hc Hpc Hi0 _. assert (i < c) by (rewrite <- Hpc; unfold parentOf; zdm).
    assert (0 <= parentOf i < i) by (unfold parentOf; zdm). leA_xchg_tac; try lia.
    eapply leA_trans; [done|apply Hh; lia|]. rewrite <- Hpc. apply Hh; lia.
Qed.

(** Removing the last element once the others form a heap. *)
Lemma pop_spec h d n x :
  len d = n + 1 -> 0 <= n -> shuffle 0 n d (view h) -> heapFrom 0 n (view h) -> at_ d n = Some x ->
  hPop h ⇓ (fun '(h', y) => y = x /\ Permutation (x :: view h') d /\ isHeap (view h')).
Proof.
  intros Hl Hn Hs Hh Hx. pose proof (shuffle_len _ _ _ _ Hs) as Hl2.
  destruct (exists_last (l := view h)) as (l & y & E); [intros E; rewrite E in Hl2; len_lia|].
  assert (Hy : y = x).
  { rewrite <- (shuffle_outside 0 n d (view h)) in Hx by (done || lia). rewrite E in *.
    rewrite len_app in Hl2. change (len [y]) with 1 in Hl2. unfold at_ in Hx.
    replace (Z.to_nat n) with (length l) in Hx by (unfold len in *; lia).
    rewrite list_lookup_middle in Hx by done. congruence. }
  subst y. eapply returns_mono; [by apply (hPop_view h l x)|]. intros [h' y] [-> ->].
  rewrite E in *. split; [done|]. split.
  - rewrite <- (shuffle_Permutation _ _ _ _ Hs). apply Permutation_cons_append.
  - rewrite len_app in Hl2. change (len [x]) with 1 in Hl2. unfold isHeap.
    apply (heapFrom_app _ l [x]); [done|]. by replace (len l) with n by lia.
Qed.

Lemma Pop_spec h x :
  len (view h) < 2 ^ 62 -> isHeap (view h) -> at_ (view h) 0 = Some x ->
  Pop h ⇓ (fun '(h', y) => y = x /\ Permutation (x :: view h') (view h) /\ isHeap (view h')).
Proof.
  intros Hmax Hh Hx. assert (1 <= len (view h)) by (destruct (view h); [done|len_lia]).
  unfold Pop. rewrite hLen_view. set (n := len (view h) - 1) in *.
  eapply returns_bind_mono; [apply hSwap_view; lia|]. intros h1 E1.
  assert (Hl : len (view h1) = n + 1) by (rewrite E1, len_xchg; lia).
  assert (Ho : hole 0 0 n (view h1)).
  { destruct (decide (n = 0)) as [->|]; [split; intros; lia|]. rewrite E1. apply hole_xchg_last; [lia|lia|done]. }
  eapply returns_bind_mono; [apply (down_spec h1 0 0 n); (done || lia)|]. intros [h2 moved] [Hs Hm].
  assert (Hn : at_ (view h1) n = Some x).
  { rewrite E1, at_xchg by lia. unfold transpose. by rewrite Z.eqb_refl. }
  eapply returns_mono; [apply (pop_spec h2 (view h1) n x); [done|lia|done| |done]|].
  - destruct moved; [done|]. destruct Hm as [-> Hk]. apply (hole_filled 0 0 n); [done..|]. intros ?; lia.
  - intros [h3 y] (-> & Hp & Hh3). split; [done|]. split; [|done]. rewrite Hp, E1. apply exchange_Permutation.
Qed.

Lemma Remove_spec h i x :
  len (view h) < 2 ^ 62 -> isHeap (view h) -> 0 <= i -> at_ (view h) i = Some x ->
  Remove h i ⇓ (fun '(h', y) => y = x /\ Permutation (x :: view h') (view h) /\ isHeap (view h')).
Proof.
  intros Hmax Hh Hi Hx.
  assert (Hlt : i < len (view h)) by (apply lookup_lt_Some in Hx; unfold len; lia).
  unfold Remove. rewrite hLen_view. set (n := len (view h) - 1) in *.
  destruct (Z.eqb_spec n i) as [<-|Hne]; cbn [negb].
  - apply (pop_spec h (view h) n x); [lia|lia|constructor| |done].
    intros c Hc Hp. apply Hh; lia.
  - apply returns_bind. eapply returns_bind_mono; [apply hSwap_view; lia|]. intros h1 E1.
    assert (Hl : len (view h1) = n + 1) by (rewrite E1, len_xchg; lia).
    eapply returns_mono; [apply (settle_spec h1 i n); [lia|lia|lia|rewrite E1; apply hole_xchg_last; (done || lia)]|].
    intros h2 [Hs Hh2].
    assert (Hn : at_ (view h1) n = Some x).
    { rewrite E1, at_xchg by lia. unfold transpose. by rewrite Z.eqb_refl. }
    eapply returns_mono; [apply (pop_spec h2 (view h1) n x); (done || lia)|].
    intros [h3 y] (-> & Hp & Hh3). split; [done|]. split; [|done]. rewrite Hp, E1. apply exchange_Permutation.
Qed.

(** A heap in which the element at [i] was replaced. *)
Lemma hole_insert i y d :
  0 <= i < len d -> isHeap (<[Z.to_nat i := y]> d) -> hole i 0 (len d) d.
Proof.
  intros Hi Hh. unfold isHeap in Hh. rewrite len_insert in Hh.
  assert (Hat : forall k, 0 <= k -> k <> i -> at_ d k = at_ (<[Z.to_nat i := y]> d) k).
  { intros k Hk Hne. unfold at_. by rewrite list_lookup_insert_ne by lia. }
  split.
  - intros c Hc Hp Hpc Hne. apply (leA_at cmp (<[Z.to_nat i := y]> d)); [apply Hat; lia..|]. apply Hh; lia.
  - intros c Hc Hpc Hi0 _. assert (i < c) by (rewrite <- Hpc; unfold parentOf; zdm).
    assert (0 <= parentOf i < i) by (unfold parentOf; zdm).
    apply (leA_at cmp (<[Z.to_nat i := y]> d)); [apply Hat; lia..|].
    pose proof (Hh c Hc ltac:(lia)) as Q. rewrite Hpc in Q. eapply leA_trans; [done|apply Hh; lia|exact Q].
Qed.

Lemma Fix_spec h i y :
  len (view h) < 2 ^ 62 -> 0 <= i < len (view h) -> isHeap (<[Z.to_nat i := y]> (view h)) ->
  Fix h i ⇓ (fun h' => Permutation (view h') (view h) /\ isHeap (view h')).
Proof.
  intros Hmax Hi Hh. unfold Fix. rewrite hLen_view.
  eapply returns_mono; [apply settle_spec; [done|lia|done|by eapply hole_insert]|].
  intros h' [Hs Hh']. split; [by eapply shuffle_Permutation|].
  unfold isHeap. by rewrite (shuffle_len _ _ _ _ Hs).
Qed.

(** The first element is a least one. *)
Lemma root_least d x : isHeap d -> at_ d 0 = Some x -> Forall (le cmp x) d.
Proof.
  intros Hh Hx. apply Forall_lookup. intros k z Hz.
  assert (Hroot : forall c, 0 <= c -> c < len d -> leA d 0 c).
  { refine (Zlt_0_ind _ _). intros c IH Hc0 Hc. destruct (decide (c = 0)) as [->|]; [apply leA_refl; [done|lia]|].
    eapply leA_trans; [done|apply (IH (parentOf c)); unfold parentOf; zdm|apply Hh; unfold parentOf; zdm]. }
  assert (Hk : (k < length d)%nat) by (by eapply lookup_lt_Some).
  destruct (Hroot (Z.of_nat k)) as (a & b & Ha & Hb & Hle); [lia|unfold len; lia|].
  unfold at_ in Hb. rewrite Nat2Z.id in Hb. by simplify_eq.
Qed.

(** ** The contract of the package *)

(** Calling Pop until the heap is empty. *)
Fixpoint drain (k : nat) (h : H) : res (list A) :=
  match k with
  | O => Ok []
  | S k => let! '(h, x) := Pop h in let! l := drain k h in Ok (x :: l)
  end.

(** C27: The operations keep the heap order and move the right elements, for
    any implementation of the interface.  Init makes a heap of the same
    elements; Push adds one element; Pop removes and returns a least element;
    Remove removes and returns the element at an index; Fix restores the order
    after the element at an index was changed.  None panics, and each leaves
    a heap. *)
Theorem Heap_operations h :
  len (view h) + 1 < 2 ^ 62 ->
  Init h ⇓ (fun h' => Permutation (view h') (view h) /\ isHeap (view h')) /\
  (isHeap (view h) ->
   (forall x, Push h x ⇓ (fun h' => Permutation (view h') (x :: view h) /\ isHeap (view h'))) /\
   (view h <> [] -> Pop h ⇓ (fun '(h', x) =>
      Permutation (x :: view h') (view h) /\ Forall (le cmp x) (view h) /\ isHeap (view h'))) /\
   (forall i, 0 <= i < len (view h) -> Remove h i ⇓ (fun '(h', x) =>
      at_ (view h) i = Some x /\ Permutation (x :: view h') (view h) /\ isHeap (view h')))) /\
  (forall i y, 0 <= i < len (view h) -> isHeap (<[Z.to_nat i := y]> (view h)) ->
   Fix h i ⇓ (fun h' => Permutation (view h') (view h) /\ isHeap (view h'))).
Proof.
  intros Hmax. split; [apply Init_spec; lia|]. split; [intros Hh; split; [|split]|].
  - intros x. by apply Push_spec.
  - intros Hne. destruct (at_in (view h) 0) as [x Hx]; [destruct (view h); [done|len_lia]|].
    eapply returns_mono; [by apply (Pop_spec h x); [lia|..]|]. intros [h' y] (-> & Hp & Hh').
    split; [done|]. split; [by apply root_least|done].
  - intros i Hi. destruct (at_in (view h) i Hi) as [x Hx].
    eapply returns_mono; [apply (Remove_spec h i x); (done || lia)|]. by intros [h' y] (-> & Hp & Hh').
  - intros i y Hi Hh. by apply (Fix_spec h i y); [lia|..].
Qed.

Lemma drain_sorted k h :
  length (view h) = k -> len (view h) < 2 ^ 62 -> isHeap (view h) ->
  drain k h ⇓ (fun l => Permutation l (view h) /\ StronglySorted (le cmp) l).
Proof.
  revert h. induction k as [|k IH]; intros h Hk Hmax Hh.
  { destruct (view h) eqn:E; [|done]. cbn. split; [done|constructor]. }
  cbn [drain]. destruct (at_in (view h) 0) as [x Hx]; [unfold len; lia|].
  eapply returns_bind_mono; [by apply (Pop_spec h x)|]. intros [h' y] (-> & Hp & Hh').
  assert (Hl : length (view h) = S (length (view h'))) by (by rewrite <- Hp).
  eapply returns_bind_mono; [apply (IH h'); [lia|unfold len in *; lia|done]|].
  intros l [Hpl Hsl]. cbn [returns]. split; [by rewrite Hpl|]. constructor; [done|].
  pose proof (root_least _ _ Hh Hx) as Hleast. rewrite <- Hp in Hleast. rewrite Hpl.
  by apply Forall_cons_1 in Hleast as [_ Hleast].
Qed.

(** A heap is a priority queue: Init followed by a Pop for every element
    returns all the elements, in order. *)
Theorem Heap_drains h :
  len (view h) < 2 ^ 62 ->
  (let! h' := Init h in drain (Z.to_nat (hLen h')) h')
    ⇓ (fun l => Permutation l (view h) /\ StronglySorted (le cmp) l).
Proof.
  intros Hmax. eapply returns_bind_mono; [by apply Init_spec|]. intros h' [Hp Hh].
  assert (Hl : length (view h') = length (view h)) by (by rewrite Hp).
  eapply returns_mono; [apply drain_sorted; [rewrite hLen_view; unfold len; lia|unfold len in *; lia|done]|].
  intros l [Hpl Hsl]. split; [by rewrite Hpl|done].
Qed.
End Correct.

(** ** Slices implement the interface *)

Definition sliceHeap {A} (cmp : A -> A -> Z) : Interface (list A) A := {|
  hLen := len;
  hLess := lessAt cmp;
  hSwap := swap;
  hPush h x := Ok (h ++ [x]);
  hPop h := match last h with Some x => Ok (removelast h, x) | None => Panic end;
|}.

#[export] Instance sliceHeap_laws {A} (cmp : A -> A -> Z) : InterfaceLaws (sliceHeap cmp) cmp (fun h => h).
Proof.
  split; cbn [hLen hLess hSwap hPush hPop sliceHeap]; try done.
  - intros h i j Hi Hj. by apply swap_returns.
  - intros h l x ->. by rewrite last_snoc, removelast_last.
Qed.

Lemma Heap_operations_witness :
  Pop (I := sliceHeap Z.sub) [1; 3; 2; 7] ⇓ (fun '(h, x) =>
    Permutation (x :: h) [1; 3; 2; 7] /\ Forall (le Z.sub x) [1; 3; 2; 7] /\ isHeap Z.sub h) /\
  Fix (I := sliceHeap Z.sub) [9; 3; 2; 7] 0 ⇓ (fun h => Permutation h [9; 3; 2; 7] /\ isHeap Z.sub h).
Proof.
  assert (Hh : isHeap Z.sub [1; 3; 2; 7]).
  { intros c Hc _. change (len [1; 3; 2; 7]) with 4 in Hc.
    assert (c = 1 \/ c = 2 \/ c = 3) as [-> |[-> | ->]] by lia; (eexists _, _; split; [reflexivity|]; by split). }
  split.
  - refine (proj1 (proj2 (proj1 (proj2 (Heap_operations Z.sub (fun h => h) (I := sliceHeap Z.sub) [1; 3; 2; 7] _)) Hh)) _);
      by vm_compute.
  - refine (proj2 (proj2 (Heap_operations Z.sub (fun h => h) (I := sliceHeap Z.sub) [9; 3; 2; 7] _)) 0 1 _ Hh); by vm_compute.
Defined.

Lemma Heap_drains_witness :
  (let! h := Init (I := sliceHeap Z.sub) [5; 1; 4; 1; 3] in
   drain (I := sliceHeap Z.sub) (Z.to_nat (hLen (Interface := sliceHeap Z.sub) h)) h)
    ⇓ (fun l => Permutation l [5; 1; 4; 1; 3] /\ StronglySorted (le Z.sub) l).
Proof. apply (Heap_drains Z.sub (fun h => h) (I := sliceHeap Z.sub)). by vm_compute. Defined.
