(* ===== verification/BigWords.v ===== *)
(** * Package math/big: arithmetic on word vectors (model)

    The functions of src/math/big/arith.go, over the word size of the platform
    (32 or 64 bits) and the functions of math/bits.  A vector function
    overwrites its first argument [z]; each other vector is either a slice
    of its own or the very slice [z], and is read as the code reads it, while
    [z] is being overwritten.  The vector form of the assembly versions is
    the pure Go one (src/math/big/arith_decl_pure.go). *)
From Stdlib Require Import ZArith Lia.
From stdpp Require Import base numbers list.
From S2P Require Import Prelude Bits.

(** bits.UintSize *)
Class Platform := { _W : Z; _W_ok : _W = 32 \/ _W = 64 }.
Definition amd64 : Platform := {| _W := 64; _W_ok := or_intror eq_refl |}.
Definition i386 : Platform := {| _W := 32; _W_ok := or_introl eq_refl |}.

(** A source operand of a vector function. *)
Inductive operand := Same | Vec (v : list Z).

Definition words (o : operand) (z : list Z) : list Z := match o with Same => z | Vec v => v end.
Definition rd (o : operand) (z : list Z) (i : Z) : res Z := idx (words o z) i.

(** [copy(z[i:], x[i:])], where [x] is not [z] *)
Definition copyFrom (z : list Z) (x : operand) (i : Z) : list Z :=
  match x with
  | Same => z
  | Vec v => take (Z.to_nat i) z ++ drop (Z.to_nat i) v
  end.

Section Words.
Context `{P : Platform}.

Definition _B : Z := Z.shiftl 1 _W.
Definition _M : Z := _B - 1.
Definition word (x : Z) : Z := x mod 2 ^ _W.

Definition mulWW (x y : Z) : Z * Z := Mul _W x y.

Definition mulAddWWW_g (x y c : Z) : Z * Z :=
  let '(hi, lo) := Mul _W x y in
  let '(lo, cc) := Add _W lo c 0 in
  (word (hi + cc), lo).

Definition nlz (x : Z) : res Z := LeadingZeros _W x.

(** [for i := range z]: [step z c i] is the word stored and the new carry. *)
Definition forWords (step : list Z -> Z -> Z -> res (Z * Z)) (z : list Z) (c : Z) : res (list Z * Z) :=
  loop (S (length z))
    (fun '(z, c, i) =>
       if i <? len z then
         let! '(zi, c) := step z c i in
         let! z := upd z i zi in
         Ok (inl (z, c, i + 1))
       else Ok (inr (z, c))) (z, c, 0).

Definition sameLen (z : list Z) (x : operand) : bool := len (words x z) =? len z.

Definition addVV_g (z : list Z) (x y : operand) : res (list Z * Z) :=
  if negb (sameLen z x) || negb (sameLen z y) then Panic else
  forWords (fun z c i => let! xi := rd x z i in let! yi := rd y z i in Ok (Add _W xi yi c)) z 0.

Definition subVV_g (z : list Z) (x y : operand) : res (list Z * Z) :=
  if negb (sameLen z x) || negb (sameLen z y) then Panic else
  forWords (fun z c i => let! xi := rd x z i in let! yi := rd y z i in Ok (Sub _W xi yi c)) z 0.

Definition addVW (z : list Z) (x : operand) (y : Z) : res (list Z * Z) :=
  if negb (sameLen z x) then Panic else
  if len z =? 0 then Ok (z, y) else
  let! x0 := rd x z 0 in
  let '(zi, cc) := Add _W x0 y 0 in
  let! z := upd z 0 zi in
  if cc =? 0 then Ok (copyFrom z x 1, 0) else
  loop (S (length z))
    (fun '(z, i) =>
       if i <? len z then
         let! xi := rd x z i in
         if negb (xi =? _M) then
           let! z := upd z i (word (xi + 1)) in
           Ok (inr (copyFrom z x (i + 1), 0))
         else
           let! z := upd z i 0 in
           Ok (inl (z, i + 1))
       else Ok (inr (z, 1))) (z, 1).

Definition addVW_ref (z : list Z) (x : operand) (y : Z) : res (list Z * Z) :=
  forWords (fun z c i => let! xi := rd x z i in Ok (Add _W xi c 0)) z y.

Definition subVW (z : list Z) (x : operand) (y : Z) : res (list Z * Z) :=
  if negb (sameLen z x) then Panic else
  if len z =? 0 then Ok (z, y) else
  let! x0 := rd x z 0 in
  let '(zi, cc) := Sub _W x0 y 0 in
  let! z := upd z 0 zi in
  if cc =? 0 then Ok (copyFrom z x 1, 0) else
  loop (S (length z))
    (fun '(z, i) =>
       if i <? len z then
         let! xi := rd x z i in
         if negb (xi =? 0) then
           let! z := upd z i (word (xi - 1)) in
           Ok (inr (copyFrom z x (i + 1), 0))
         else
           let! z := upd z i _M in
           Ok (inl (z, i + 1))
       else Ok (inr (z, 1))) (z, 1).

Definition subVW_ref (z : list Z) (x : operand) (y : Z) : res (list Z * Z) :=
  forWords (fun z c i => let! xi := rd x z i in Ok (Sub _W xi c 0)) z y.

(** [copy(z, x)] *)
Definition copyAll (z : list Z) (x : operand) : list Z := copyFrom z x 0.

Definition lshVU_g (z : list Z) (x : operand) (s : Z) : res (list Z * Z) :=
  if negb (sameLen z x) then Panic else
  if s =? 0 then Ok (copyAll z x, 0) else
  if len z =? 0 then Ok (z, 0) else
  let s := Z.land s (_W - 1) in
  let s' := Z.land (_W - s) (_W - 1) in
  let! top := rd x z (len z - 1) in
  let c := Z.shiftr top s' in
  let! z :=
    loop (S (length z))
      (fun '(z, i) =>
         if i >? 0 then
           let! xi := rd x z i in
           let! xp := rd x z (i - 1) in
           let! z := upd z i (Z.lor (word (Z.shiftl xi s)) (Z.shiftr xp s')) in
           Ok (inl (z, i - 1))
         else Ok (inr z)) (z, len z - 1) in
  let! x0 := rd x z 0 in
  let! z := upd z 0 (word (Z.shiftl x0 s)) in
  Ok (z, c).

Definition rshVU_g (z : list Z) (x : operand) (s : Z) : res (list Z * Z) :=
  if negb (sameLen z x) then Panic else
  if s =? 0 then Ok (copyAll z x, 0) else
  if len z =? 0 then Ok (z, 0) else
  let s := Z.land s (_W - 1) in
  let s' := Z.land (_W - s) (_W - 1) in
  let! x0 := rd x z 0 in
  let c := word (Z.shiftl x0 s') in
  let! z :=
    loop (S (length z))
      (fun '(z, i) =>
         if i <? len z then
           let! xp := rd x z (i - 1) in
           let! xi := rd x z i in
           let! z := upd z (i - 1) (Z.lor (Z.shiftr xp s) (word (Z.shiftl xi s'))) in
           Ok (inl (z, i + 1))
         else Ok (inr z)) (z, 1) in
  let! last := rd x z (len z - 1) in
  let! z := upd z (len z - 1) (Z.shiftr last s) in
  Ok (z, c).

Definition mulAddVWW_g (z : list Z) (x : operand) (y r : Z) : res (list Z * Z) :=
  if negb (sameLen z x) then Panic else
  forWords (fun z c i => let! xi := rd x z i in let '(c, zi) := mulAddWWW_g xi y c in Ok (zi, c)) z r.

Definition addMulVVWW_g (z : list Z) (x y : operand) (m a : Z) : res (list Z * Z) :=
  if negb (sameLen z x) || negb (sameLen z y) then Panic else
  forWords (fun z c i =>
      let! yi := rd y z i in
      let! xi := rd x z i in
      let '(z1, z0) := mulAddWWW_g yi m xi in
      let '(lo, cc) := Add _W z0 c 0 in
      Ok (lo, word (cc + z1))) z a.

Definition divWW (x1 x0 y m : Z) : res (Z * Z) :=
  let! s := nlz y in
  let '(x1, x0, y) :=
    if negb (s =? 0)
    then (Z.lor (word (Z.shiftl x1 s)) (Z.shiftr x0 (_W - s)), word (Z.shiftl x0 s), word (Z.shiftl y s))
    else (x1, x0, y) in
  let d := y in
  let '(t1, t0) := Mul _W m x1 in
  let '(_, c) := Add _W t0 x0 0 in
  let '(t1, _) := Add _W t1 x1 c in
  let qq := t1 in
  let '(dq1, dq0) := Mul _W d qq in
  let '(r0, b) := Sub _W x0 dq0 0 in
  let '(r1, _) := Sub _W x1 dq1 b in
  let '(qq, r0) := if negb (r1 =? 0) then (word (qq + 1), word (r0 - d)) else (qq, r0) in
  let '(qq, r0) := if r0 >=? d then (word (qq + 1), word (r0 - d)) else (qq, r0) in
  Ok (qq, Z.shiftr r0 s).

Definition reciprocalWord (d1 : Z) : res Z :=
  let! s := nlz d1 in
  let u := word (Z.shiftl d1 s) in
  let x1 := word (Z.lnot u) in
  let x0 := _M in
  let! '(rec, _) := Div _W x1 x0 u in
  Ok rec.
End Words.

(** The assembly names. *)
Definition addVV `{Platform} := addVV_g.
Definition subVV `{Platform} := subVV_g.
Definition lshVU `{Platform} := lshVU_g.
Definition rshVU `{Platform} := rshVU_g.
Definition mulAddVWW `{Platform} := mulAddVWW_g.
Definition addMulVVWW `{Platform} := addMulVVWW_g.
