(* ===== verification/BigWordsCorrect.v ===== *)
(** * Package math/big: the vector functions compute exact arithmetic

    Every loop over word vectors of BigWords.v computes the digits and the
    carry of an exact sum, difference, product or shift, whether its operands
    are slices of their own or the slice being overwritten; the early exits of
    addVW and subVW change nothing; division of two words by a precomputed
    reciprocal is exact. *)
From Stdlib Require Import ZArith Lia.
From stdpp Require Import base numbers list.
From S2P Require Import Prelude Bits BigWords.

Section Correct.
Context `{P : Platform}.

Abbreviation B := (2 ^ _W).
Abbreviation nval := (val _W).

Definition word_ok (x : Z) : Prop := 0 <= x < B.
Definition words_ok (l : list Z) : Prop := digits_ok B l.
(** The weight of the word after [n] words. *)
Definition weight (n : Z) : Z := 2 ^ (_W * n).

Lemma W_pos : 0 < _W.
Proof. destruct _W_ok as [-> | ->]; lia. Qed.
Lemma B_pos : 2 ^ 32 <= B.
Proof. destruct _W_ok as [-> | ->]; lia. Qed.
Lemma _B_eq : _B = B.
Proof. unfold _B. rewrite Z.shiftl_1_l. done. Qed.

Lemma weight_0 : weight 0 = 1.
Proof. unfold weight. by rewrite Z.mul_0_r. Qed.
Lemma weight_add a b : 0 <= a -> 0 <= b -> weight (a + b) = weight a * weight b.
Proof. intros. unfold weight. pose proof W_pos. rewrite Z.mul_add_distr_l. apply Z.pow_add_r; nia. Qed.
Lemma weight_1 : weight 1 = B.
Proof. unfold weight. by rewrite Z.mul_1_r. Qed.
Lemma weight_pos n : 0 <= n -> 0 < weight n.
Proof. intros. unfold weight. pose proof W_pos. apply Z.pow_pos_nonneg; nia. Qed.

Lemma nval_cons d l : nval (d :: l) = d + B * nval l.
Proof. done. Qed.
Lemma nval_app l k : nval (l ++ k) = nval l + weight (len l) * nval k.
Proof.
  induction l as [|d l IH]; cbn [app].
  - change (len (@nil Z)) with 0. rewrite weight_0. cbn [val]. lia.
  - rewrite !nval_cons, IH, len_cons, weight_add, weight_1 by len_lia. lia.
Qed.
Lemma nval_bound l : words_ok l -> 0 <= nval l < weight (len l).
Proof. pose proof W_pos. apply val_bound. lia. Qed.

(** ** Words *)

Lemma Add_word x y c :
  word_ok x -> word_ok y -> 0 <= c <= 1 ->
  let '(s, k) := Add _W x y c in s + B * k = x + y + c /\ word_ok s /\ 0 <= k <= 1.
Proof.
  unfold word_ok, Add. intros Hx Hy Hc. destruct _W_ok as [E|E]; rewrite E in *; cbn [Z.eqb Pos.eqb].
  - rewrite !u32_id by lia. unfold Add32. rewrite u64_id, shiftr_div by lia. unfold u32. zdm.
  - rewrite !u64_id by lia. apply Add64_spec; lia.
Qed.

Lemma Sub_word x y c :
  word_ok x -> word_ok y -> 0 <= c <= 1 ->
  let '(s, k) := Sub _W x y c in s - B * k = x - y - c /\ word_ok s /\ 0 <= k <= 1.
Proof.
  unfold word_ok, Sub. intros Hx Hy Hc. destruct _W_ok as [E|E]; rewrite E in *; cbn [Z.eqb Pos.eqb].
  - rewrite !u32_id by lia. apply (borrow_formula 31); lia.
  - rewrite !u64_id by lia. apply (borrow_formula 63); lia.
Qed.

Lemma Mul_word x y :
  word_ok x -> word_ok y -> let '(hi, lo) := Mul _W x y in hi * B + lo = x * y /\ word_ok hi /\ word_ok lo.
Proof.
  unfold word_ok, Mul. intros Hx Hy. destruct _W_ok as [E|E]; rewrite E in *; cbn [Z.eqb Pos.eqb].
  - rewrite !u32_id by lia. unfold Mul32. pose proof (mul_bound x y _ _ Hx Hy).
    rewrite u64_id, shiftr_div by lia. unfold u32. rewrite (Z.mod_small (x * y / 2 ^ 32)) by zdm. zdm.
  - rewrite !u64_id by lia. pose proof (Mul64_spec x y Hx Hy) as M. destruct (Mul64 x y). lia.
Qed.

Lemma word_small x : 0 <= x < B -> word x = x.
Proof. apply Z.mod_small. Qed.

Lemma mulAddWWW_word x y c :
  word_ok x -> word_ok y -> word_ok c ->
  let '(hi, lo) := mulAddWWW_g x y c in hi * B + lo = x * y + c /\ word_ok hi /\ word_ok lo.
Proof.
  intros Hx Hy Hc. unfold mulAddWWW_g. pose proof (Mul_word x y Hx Hy) as M.
  destruct (Mul _W x y) as [hi lo]. destruct M as (EM & Hhi & Hlo).
  pose proof (Add_word lo c 0 Hlo Hc ltac:(lia)) as A. destruct (Add _W lo c 0) as [lo' cc].
  destruct A as (EA & Hlo' & Hcc). unfold word_ok in *.
  assert (hi + cc < B) by nia. rewrite word_small by lia. repeat split; (lia || nia).
Qed.

(** ** Loops over vectors *)

(** The words and the carry a step function gives on a list of inputs. *)
Fixpoint mapAcc {I : Type} (g : I -> Z -> Z * Z) (ins : list I) (c : Z) : list Z * Z :=
  match ins with
  | [] => ([], c)
  | i :: ins =>
      let '(d, c) := g i c in
      let '(ds, c) := mapAcc g ins c in
      (d :: ds, c)
  end.

(** A step that reads its inputs at the current index: the words before it
    were overwritten, the words from it on are still the original ones. *)
Definition reads {I : Type} (step : list Z -> Z -> Z -> res (Z * Z)) (g : I -> Z -> Z * Z)
    (ins : list I) (z : list Z) : Prop :=
  forall pre c k i, length pre = k -> ins !! k = Some i -> step (pre ++ drop k z) c (len pre) = Ok (g i c).

Lemma drop_cons_lookup {A} (l : list A) k x : l !! k = Some x -> drop k l = x :: drop (S k) l.
Proof. apply drop_S. Qed.

Lemma forWords_mapAcc {I : Type} step (g : I -> Z -> Z * Z) ins z c :
  length ins = length z -> reads step g ins z -> forWords step z c = Ok (mapAcc g ins c).
Proof.
  intros Hl Hr. unfold forWords.
  assert (G : forall fuel pre k c, length pre = k -> (k <= length z)%nat -> (length z - k < fuel)%nat ->
    loop fuel (fun '(z, c, i) => if i <? len z then
         let! '(zi, c) := step z c i in let! z := upd z i zi in Ok (inl (z, c, i + 1))
       else Ok (inr (z, c))) (pre ++ drop k z, c, len pre)
    = Ok (let '(ds, c) := mapAcc g (drop k ins) c in (pre ++ ds, c))).
  { induction fuel as [|fuel IH]; intros pre k c0 Hp Hk Hf; [lia|]. cbn [loop].
    assert (Hlz : len (pre ++ drop k z) = len z) by (unfold len; rewrite length_app, length_drop; lia).
    rewrite Hlz. destruct (Z.ltb_spec (len pre) (len z)) as [Hlt|Hge].
    - destruct (lookup_lt_is_Some_2 ins k) as [i Hi]; [unfold len in *; lia|].
      destruct (lookup_lt_is_Some_2 z k) as [zk Hz]; [unfold len in *; lia|].
      rewrite (Hr pre c0 k i Hp Hi). cbn [rbind]. destruct (g i c0) as [d c1] eqn:G.
      rewrite (drop_cons_lookup z k zk Hz), upd_app by done. cbn [rbind].
      replace (pre ++ d :: drop (S k) z) with ((pre ++ [d]) ++ drop (S k) z) by (by rewrite <- app_assoc).
      replace (len pre + 1) with (len (pre ++ [d])) by len_lia.
      rewrite IH by (rewrite ?length_app; cbn [length]; unfold len in *; lia).
      rewrite (drop_cons_lookup ins k i Hi). cbn [mapAcc]. rewrite G.
      destruct (mapAcc g (drop (S k) ins) c1). by rewrite <- app_assoc.
    - rewrite (drop_ge z), (drop_ge ins) by (unfold len in *; lia). done. }
  specialize (G (S (length z)) [] 0%nat c eq_refl). cbn [app] in G. change (len (@nil Z)) with 0 in G.
  rewrite !drop_0 in G. rewrite G by lia. by destruct (mapAcc g ins c).
Qed.

Lemma rd_reads x z pre k a :
  length pre = k -> words x z !! k = Some a -> rd x (pre ++ drop k z) (len pre) = Ok a.
Proof.
  intros <- Ha. unfold rd. apply idx_Ok; [len_lia|]. unfold len. rewrite Nat2Z.id.
  destruct x as [|v]; cbn [words] in *; [|done].
  rewrite lookup_app_r, Nat.sub_diag, lookup_drop, Nat.add_0_r by lia. done.
Qed.

(** The value computed, from the value of one step: [sg] is 1 or -1. *)
Lemma mapAcc_value {I : Type} (sg : Z) (g : I -> Z -> Z * Z) (f : I -> Z) (okI : I -> Prop) (okC : Z -> Prop) :
  (forall i c, okI i -> okC c ->
     let '(d, c') := g i c in d + sg * (B * c') = f i + sg * c /\ word_ok d /\ okC c') ->
  forall ins c, Forall okI ins -> okC c ->
  let '(ds, c') := mapAcc g ins c in
  nval ds + sg * (weight (len ins) * c') = nval (map f ins) + sg * c /\
  words_ok ds /\ length ds = length ins /\ okC c'.
Proof.
  intros Hg. induction ins as [|i ins IH]; intros c Hi Hc; cbn [mapAcc map].
  - change (len (@nil I)) with 0. rewrite weight_0. cbn [val]. split; [lia|]. split; [constructor|done].
  - apply Forall_cons_1 in Hi as [Hi His]. specialize (Hg i c Hi Hc). destruct (g i c) as [d c1].
    destruct Hg as (E1 & Hd & Hc1). specialize (IH c1 His Hc1). destruct (mapAcc g ins c1) as [ds c2].
    destruct IH as (E2 & Hds & Hl & Hc2). rewrite !nval_cons, len_cons, weight_add, weight_1 by len_lia.
    split; [nia|]. split; [by constructor|]. split; [cbn [length]; lia|done].
Qed.

Lemma nval_zip_add f X Y : length X = length Y ->
  nval (map (fun '(x, y) => x + f * y) (zip X Y)) = nval X + f * nval Y.
Proof.
  revert Y. induction X as [|x X IH]; intros [|y Y] Hl; try discriminate Hl; cbn [zip zip_with map val]; [lia|].
  cbn [zip] in IH. injection Hl as Hl. rewrite (IH Y Hl). lia.
Qed.

Lemma nval_scale y X : nval (map (fun x => x * y) X) = nval X * y.
Proof. induction X as [|x X IH]; cbn [map val]; [lia|]. rewrite IH. lia. Qed.

Lemma zip_lookup {A C} (X : list A) (Y : list C) k p :
  zip X Y !! k = Some p -> X !! k = Some p.1 /\ Y !! k = Some p.2.
Proof. intros H. apply lookup_zip_with_Some in H as (x & y & -> & Hx & Hy). done. Qed.

Lemma Forall_zip {A C} (P1 : A -> Prop) (P2 : C -> Prop) X Y :
  Forall P1 X -> Forall P2 Y -> Forall (fun p => P1 p.1 /\ P2 p.2) (zip X Y).
Proof.
  intros HX HY. apply Forall_lookup. intros k p Hp. apply zip_lookup in Hp as [Hx Hy].
  split; [by eapply (Forall_lookup_1 P1 X)|by eapply (Forall_lookup_1 P2 Y)].
Qed.

(** ** The vector functions *)

Lemma sameLen_true z x : length (words x z) = length z -> sameLen z x = true.
Proof. intros H. unfold sameLen, len. rewrite H. apply Z.eqb_refl. Qed.

Lemma length_zip {A C} (X : list A) (Y : list C) : length X = length Y -> length (zip X Y) = length X.
Proof. intros H. rewrite length_zip_with. lia. Qed.

Section Vectors1.
Context (z : list Z) (x : operand).
Context (Hx : length (words x z) = length z) (Hxw : words_ok (words x z)).
Let X := words x z.

(** A loop with one operand. *)
Lemma loop1 (sg m : Z) (okC : Z -> Prop) (g : Z -> Z -> Z * Z) step c0 :
  (forall zz c i a, rd x zz i = Ok a -> step zz c i = Ok (g a c)) ->
  (forall a c, word_ok a -> okC c ->
     let '(d, c') := g a c in d + sg * (B * c') = a * m + sg * c /\ word_ok d /\ okC c') ->
  okC c0 ->
  forWords step z c0 = Ok (mapAcc g X c0) /\
  let '(z', c) := mapAcc g X c0 in
  nval z' + sg * (weight (len z) * c) = nval X * m + sg * c0 /\
  words_ok z' /\ length z' = length z /\ okC c.
Proof.
  intros Hs Hg Hc. split.
  { apply forWords_mapAcc; [done|]. intros pre c k a Hk Hp. by apply Hs, rd_reads. }
  pose proof (mapAcc_value sg g (fun a => a * m) word_ok okC Hg X c0 Hxw Hc) as M.
  assert (Hl : length X = length z) by done. rewrite nval_scale, Hl in M. unfold len in *. by rewrite Hl in M.
Qed.

Lemma mulAddVWW_spec m r :
  word_ok m -> word_ok r ->
  mulAddVWW z x m r ⇓ (fun '(z', c) =>
    nval z' + weight (len z) * c = nval X * m + r /\ words_ok z' /\ length z' = length z /\ word_ok c).
Proof.
  intros Hm Hr. unfold mulAddVWW, mulAddVWW_g. rewrite sameLen_true by done. cbn [negb].
  destruct (loop1 1 m word_ok (fun a c => let '(c, zi) := mulAddWWW_g a m c in (zi, c))
    (fun z c i => let! xi := rd x z i in let '(c, zi) := mulAddWWW_g xi m c in Ok (zi, c)) r) as [-> E]; [| |done|].
  - intros zz c i a ->. cbn [rbind]. by destruct (mulAddWWW_g _ _ _).
  - intros a c Ha Hc. pose proof (mulAddWWW_word a m c Ha Hm Hc) as A.
    destruct (mulAddWWW_g a m c). split; [lia|]. split; apply A.
  - cbn [returns]. destruct (mapAcc _ X r). split; [lia|apply E].
Qed.

Lemma addVW_ref_spec a :
  word_ok a ->
  addVW_ref z x a = Ok (mapAcc (fun u c => Add _W u c 0) X a) /\
  let '(z', c) := mapAcc (fun u c => Add _W u c 0) X a in
  nval z' + 1 * (weight (len z) * c) = nval X * 1 + 1 * a /\ words_ok z' /\ length z' = length z /\ word_ok c.
Proof.
  intros Ha. apply (loop1 1 1 word_ok); [by intros * ->| |done]. intros u c Hu Hc.
  pose proof (Add_word u c 0 Hu Hc ltac:(lia)) as A. pose proof B_pos.
  destruct (Add _W u c 0). unfold word_ok in *. lia.
Qed.

Lemma subVW_ref_spec a :
  word_ok a ->
  subVW_ref z x a = Ok (mapAcc (fun u c => Sub _W u c 0) X a) /\
  let '(z', c) := mapAcc (fun u c => Sub _W u c 0) X a in
  nval z' + -1 * (weight (len z) * c) = nval X * 1 + -1 * a /\ words_ok z' /\ length z' = length z /\ word_ok c.
Proof.
  intros Ha. apply (loop1 (-1) 1 word_ok); [by intros * ->| |done]. intros u c Hu Hc.
  pose proof (Sub_word u c 0 Hu Hc ltac:(lia)) as A. pose proof B_pos.
  destruct (Sub _W u c 0). unfold word_ok in *. lia.
Qed.
End Vectors1.

Section Vectors2.
Context (z : list Z) (x y : operand).
Context (Hx : length (words x z) = length z) (Hy : length (words y z) = length z).
Context (Hxw : words_ok (words x z)) (Hyw : words_ok (words y z)).
Let X := words x z.
Let Y := words y z.

(** A loop with two operands. *)
Lemma loop2 (sg f : Z) (okC : Z -> Prop) (g : Z * Z -> Z -> Z * Z) step c0 :
  (forall zz c i a b, rd x zz i = Ok a -> rd y zz i = Ok b -> step zz c i = Ok (g (a, b) c)) ->
  (forall a b c, word_ok a -> word_ok b -> okC c ->
     let '(d, c') := g (a, b) c in d + sg * (B * c') = a + f * b + sg * c /\ word_ok d /\ okC c') ->
  okC c0 ->
  forWords step z c0 ⇓ (fun '(z', c) =>
    nval z' + sg * (weight (len z) * c) = nval X + f * nval Y + sg * c0 /\
    words_ok z' /\ length z' = length z /\ okC c).
Proof.
  intros Hs Hg Hc. assert (HXY : length X = length Y) by (unfold X, Y; congruence).
  assert (Hl : length (zip X Y) = length z) by (rewrite length_zip by done; done).
  rewrite (forWords_mapAcc _ g (zip X Y) z c0 Hl).
  2: { intros pre c k [a b] Hk Hp. apply zip_lookup in Hp as [H1 H2].
       apply Hs; by apply rd_reads. }
  pose proof (mapAcc_value sg g (fun '(a, b) => a + f * b) (fun p => word_ok p.1 /\ word_ok p.2) okC) as M.
  specialize (M ltac:(intros [a b] c [Ha Hb] Hc'; by apply Hg) (zip X Y) c0 ltac:(by apply Forall_zip) Hc).
  rewrite nval_zip_add, Hl in M by done. unfold len in *. rewrite Hl in M. cbn [returns].
  by destruct (mapAcc g (zip X Y) c0).
Qed.

Lemma addVV_spec :
  addVV z x y ⇓ (fun '(z', c) =>
    nval z' + weight (len z) * c = nval X + nval Y /\ words_ok z' /\ length z' = length z /\ 0 <= c <= 1).
Proof.
  unfold addVV, addVV_g. rewrite !sameLen_true by done. cbn [negb orb].
  eapply returns_mono; [apply (loop2 1 1 (fun c => 0 <= c <= 1) (fun p c => Add _W p.1 p.2 c)); [by intros * -> ->| |lia]|].
  - intros a b c Ha Hb Hc. pose proof (Add_word a b c Ha Hb Hc) as A. cbn [fst snd].
    destruct (Add _W a b c). split; [lia|apply A].
  - intros [z' c] (E & H). split; [lia|done].
Qed.

Lemma subVV_spec :
  subVV z x y ⇓ (fun '(z', c) =>
    nval z' - weight (len z) * c = nval X - nval Y /\ words_ok z' /\ length z' = length z /\ 0 <= c <= 1).
Proof.
  unfold subVV, subVV_g. rewrite !sameLen_true by done. cbn [negb orb].
  eapply returns_mono; [apply (loop2 (-1) (-1) (fun c => 0 <= c <= 1) (fun p c => Sub _W p.1 p.2 c)); [by intros * -> ->| |lia]|].
  - intros a b c Ha Hb Hc. pose proof (Sub_word a b c Ha Hb Hc) as A. cbn [fst snd].
    destruct (Sub _W a b c). split; [lia|apply A].
  - intros [z' c] (E & H). split; [lia|done].
Qed.

End Vectors2.

Lemma addMulVVWW_spec z x y m a :
  length (words x z) = length z -> length (words y z) = length z ->
  words_ok (words x z) -> words_ok (words y z) -> word_ok m -> word_ok a ->
  addMulVVWW z x y m a ⇓ (fun '(z', c) =>
    nval z' + weight (len z) * c = nval (words x z) + m * nval (words y z) + a /\
    words_ok z' /\ length z' = length z /\ word_ok c).
Proof.
  intros Hx Hy Hxw Hyw Hm Ha. unfold addMulVVWW, addMulVVWW_g. rewrite !sameLen_true by done. cbn [negb orb].
  eapply returns_mono; [apply (loop2 z x y Hx Hy Hxw Hyw 1 m word_ok (fun p c =>
    let '(z1, z0) := mulAddWWW_g p.2 m p.1 in let '(lo, cc) := Add _W z0 c 0 in (lo, word (cc + z1)))); [| |done]|].
  - intros zz c i u v -> ->. cbn [rbind fst snd]. destruct (mulAddWWW_g _ _ _), (Add _W _ _ _). done.
  - intros u v c Hu Hv Hc. cbn [fst snd].
    pose proof (mulAddWWW_word v m u Hv Hm Hu) as A. destruct (mulAddWWW_g v m u) as [z1 z0].
    destruct A as (A & Hz1 & Hz0). pose proof (Add_word z0 c 0 Hz0 Hc ltac:(lia)) as D.
    destruct (Add _W z0 c 0) as [lo cc]. destruct D as (D & Hlo & Hcc). unfold word_ok in *.
    assert (v * m <= (B - 1) * (B - 1)) by nia. assert (cc + z1 < B) by nia.
    rewrite word_small by lia. lia.
  - intros [z' c] (E & H). split; [lia|done].
Qed.

(** *** The early exits of addVW and subVW *)

(** The carry loop of either function: it goes on at words equal to [t],
    writing [fill], and stops at the first other word. *)
Definition carryLoop (x : operand) (t fill : Z) (next : Z -> Z) (fuel : nat) (z : list Z) (i : Z) :=
  loop fuel
    (fun '(z, i) =>
       if i <? len z then
         let! xi := rd x z i in
         if negb (xi =? t) then
           let! z := upd z i (next xi) in
           Ok (inr (copyFrom z x (i + 1), 0))
         else
           let! z := upd z i fill in
           Ok (inl (z, i + 1))
       else Ok (inr (z, 1))) (z, i).

Section Exits.
Context (z : list Z) (x : operand) (Hx : length (words x z) = length z).
Context (t fill : Z) (next : Z -> Z) (g : Z -> Z -> Z * Z).
Hypothesis g0 : forall u, u ∈ words x z -> g u 0 = (u, 0).
Hypothesis g1 : forall u, u ∈ words x z -> g u 1 = if u =? t then (fill, 1) else (next u, 0).

Lemma mapAcc_rest k : mapAcc g (drop k (words x z)) 0 = (drop k (words x z), 0).
Proof.
  assert (Hd : forall u, u ∈ drop k (words x z) -> u ∈ words x z).
  { intros u Hu. rewrite <- (take_drop k (words x z)). apply elem_of_app. by right. }
  induction (drop k (words x z)) as [|u l IH]; [done|]. cbn [mapAcc].
  rewrite g0 by (apply Hd; left). rewrite IH; [done|]. intros v Hv. apply Hd. by right.
Qed.

(** Copying the rest of the source. *)
Lemma copyFrom_rest pre k : length pre = k -> (k <= length z)%nat ->
  copyFrom (pre ++ drop k z) x (len pre) = pre ++ drop k (words x z).
Proof.
  intros Hk Hl. unfold copyFrom, len. rewrite Nat2Z.id. destruct x; cbn [words]; [done|].
  rewrite take_app_length. by rewrite Hk.
Qed.

Lemma carryLoop_spec fuel pre k :
  length pre = k -> (k <= length z)%nat -> (length z - k < fuel)%nat ->
  carryLoop x t fill next fuel (pre ++ drop k z) (len pre) =
  Ok (let '(ds, c) := mapAcc g (drop k (words x z)) 1 in (pre ++ ds, c)).
Proof.
  revert pre k. induction fuel as [|fuel IH]; intros pre k Hk Hl Hf; [lia|].
  unfold carryLoop. cbn [loop]. fold (carryLoop x t fill next fuel).
  replace (len (pre ++ drop k z)) with (len z) by (unfold len; rewrite length_app, length_drop; lia).
  destruct (Z.ltb_spec (len pre) (len z)) as [Hlt|Hge].
  2: { by rewrite !drop_ge by (unfold len in *; lia). }
  assert (Hkz : (k < length z)%nat) by (unfold len in *; lia).
  destruct (lookup_lt_is_Some_2 (words x z) k) as [u Hu]; [lia|].
  destruct (lookup_lt_is_Some_2 z k) as [zk Hz]; [lia|].
  rewrite (rd_reads x z pre k u) by done. cbn [rbind].
  rewrite (drop_cons_lookup z k zk Hz), upd_app by done.
  rewrite (drop_cons_lookup (words x z) k u Hu). cbn [mapAcc].
  rewrite g1 by (by eapply list_elem_of_lookup_2). destruct (u =? t); cbn [negb].
  - rewrite upd_app by done. cbn [rbind].
    replace (pre ++ fill :: drop (S k) z) with ((pre ++ [fill]) ++ drop (S k) z) by (by rewrite <- app_assoc).
    replace (len pre + 1) with (len (pre ++ [fill])) by len_lia.
    fold (carryLoop x t fill next fuel ((pre ++ [fill]) ++ drop (S k) z) (len (pre ++ [fill]))).
    rewrite IH by (rewrite ?length_app; cbn [length]; lia).
    destruct (mapAcc g (drop (S k) (words x z)) 1). by rewrite <- app_assoc.
  - cbn [rbind]. rewrite mapAcc_rest.
    replace (pre ++ next u :: drop (S k) z) with ((pre ++ [next u]) ++ drop (S k) z) by (by rewrite <- app_assoc).
    replace (len pre + 1) with (len (pre ++ [next u])) by len_lia.
    rewrite copyFrom_rest by (rewrite ?length_app; cbn [length]; lia). by rewrite <- app_assoc.
Qed.

Lemma early_exit y :
  z <> [] -> (forall u, u ∈ words x z -> snd (g u y) = 0 \/ snd (g u y) = 1) ->
  (let! x0 := rd x z 0 in
   let '(zi, cc) := g x0 y in
   let! z := upd z 0 zi in
   if cc =? 0 then Ok (copyFrom z x 1, 0) else carryLoop x t fill next (S (length z)) z 1)
  = Ok (mapAcc g (words x z) y).
Proof.
  intros Hz Hcc. assert (Hl0 : (0 < length z)%nat) by (destruct z; [done|cbn [length]; lia]).
  destruct (lookup_lt_is_Some_2 (words x z) 0) as [u Hu]; [lia|].
  destruct (lookup_lt_is_Some_2 z 0) as [z0 Hz0]; [lia|].
  pose proof (rd_reads x z [] 0 u eq_refl Hu) as R. cbn [app] in R. rewrite drop_0 in R.
  change (len (@nil Z)) with 0 in R. rewrite R. cbn [rbind].
  specialize (Hcc u ltac:(by eapply list_elem_of_lookup_2)).
  pose proof (drop_cons_lookup z 0 z0 Hz0) as Ez. pose proof (drop_cons_lookup _ 0 u Hu) as Eu.
  rewrite drop_0 in Ez, Eu. rewrite Eu at 1. cbn [mapAcc]. destruct (g u y) as [d c]. cbn [snd] in Hcc.
  assert (upd z 0 d = Ok ([d] ++ drop 1 z)) as -> by (rewrite Ez at 1; by apply (upd_app [])).
  cbn [rbind]. change 1 with (len [d]). destruct Hcc as [-> | ->]; cbn [Z.eqb].
  - rewrite copyFrom_rest by (cbn [length]; lia). by rewrite mapAcc_rest.
  - rewrite (carryLoop_spec _ [d] 1) by (rewrite ?length_app, ?length_drop; cbn [length]; lia).
    by destruct (mapAcc g (drop 1 (words x z)) (len [d])).
Qed.
End Exits.

Lemma Add_zero u : word_ok u -> Add _W u 0 0 = (u, 0).
Proof.
  intros Hu. pose proof B_pos. pose proof (Add_word u 0 0 Hu ltac:(unfold word_ok; lia) ltac:(lia)) as A.
  destruct (Add _W u 0 0) as [s k]. unfold word_ok in *.
  assert (k = 0 \/ k = 1) as [-> | ->] by lia; f_equal; lia.
Qed.

Lemma Add_one u : word_ok u -> Add _W u 1 0 = if u =? _M then (0, 1) else (word (u + 1), 0).
Proof.
  intros Hu. pose proof B_pos. pose proof (Add_word u 1 0 Hu ltac:(unfold word_ok; lia) ltac:(lia)) as A.
  destruct (Add _W u 1 0) as [s k]. unfold word_ok, _M in *. rewrite _B_eq.
  assert (k = 0 \/ k = 1) as [-> | ->] by lia;
    (destruct (Z.eqb_spec u (B - 1)); [|rewrite word_small by lia]); f_equal; lia.
Qed.

Lemma Sub_zero u : word_ok u -> Sub _W u 0 0 = (u, 0).
Proof.
  intros Hu. pose proof B_pos. pose proof (Sub_word u 0 0 Hu ltac:(unfold word_ok; lia) ltac:(lia)) as A.
  destruct (Sub _W u 0 0) as [s k]. unfold word_ok in *.
  assert (k = 0 \/ k = 1) as [-> | ->] by lia; f_equal; lia.
Qed.

Lemma Sub_one u : word_ok u -> Sub _W u 1 0 = if u =? 0 then (_M, 1) else (word (u - 1), 0).
Proof.
  intros Hu. pose proof B_pos. pose proof (Sub_word u 1 0 Hu ltac:(unfold word_ok; lia) ltac:(lia)) as A.
  destruct (Sub _W u 1 0) as [s k]. unfold word_ok, _M in *. rewrite _B_eq.
  assert (k = 0 \/ k = 1) as [-> | ->] by lia;
    (destruct (Z.eqb_spec u 0); [|rewrite word_small by lia]); f_equal; lia.
Qed.

Lemma words_elem l u : words_ok l -> u ∈ l -> word_ok u.
Proof. intros H Hu. by eapply (Forall_forall _ l). Qed.

Section Fast.
Context (z : list Z) (x : operand) (y : Z).
Context (Hx : length (words x z) = length z) (Hxw : words_ok (words x z)) (Hy : word_ok y).

Lemma addVW_fast : addVW z x y = addVW_ref z x y.
Proof.
  destruct (addVW_ref_spec z x Hx Hxw y Hy) as [-> _]. unfold addVW. rewrite sameLen_true by done. cbn [negb].
  destruct (Z.eqb_spec (len z) 0) as [E|E].
  { apply len_zero_inv in E as ->. by rewrite (nil_length_inv _ Hx). }
  apply (early_exit z x Hx _M 0 (fun u => word (u + 1)) (fun u c => Add _W u c 0)).
  - intros u Hu. apply Add_zero. by eapply words_elem.
  - intros u Hu. apply Add_one. by eapply words_elem.
  - by intros ->.
  - intros u Hu. pose proof (Add_word u y 0 (words_elem _ _ Hxw Hu) Hy ltac:(lia)) as A.
    destruct (Add _W u y 0). cbn [snd]. lia.
Qed.

Lemma subVW_fast : subVW z x y = subVW_ref z x y.
Proof.
  destruct (subVW_ref_spec z x Hx Hxw y Hy) as [-> _]. unfold subVW. rewrite sameLen_true by done. cbn [negb].
  destruct (Z.eqb_spec (len z) 0) as [E|E].
  { apply len_zero_inv in E as ->. by rewrite (nil_length_inv _ Hx). }
  apply (early_exit z x Hx 0 _M (fun u => word (u - 1)) (fun u c => Sub _W u c 0)).
  - intros u Hu. apply Sub_zero. by eapply words_elem.
  - intros u Hu. apply Sub_one. by eapply words_elem.
  - by intros ->.
  - intros u Hu. pose proof (Sub_word u y 0 (words_elem _ _ Hxw Hu) Hy ltac:(lia)) as A.
    destruct (Sub _W u y 0). cbn [snd]. lia.
Qed.

Lemma addVW_spec :
  addVW z x y ⇓ (fun '(z', c) =>
    nval z' + weight (len z) * c = nval (words x z) + y /\ words_ok z' /\ length z' = length z /\ word_ok c).
Proof.
  rewrite addVW_fast. destruct (addVW_ref_spec z x Hx Hxw y Hy) as [-> M]. cbn [returns].
  destruct (mapAcc _ _ _). split; [lia|apply M].
Qed.

Lemma subVW_spec :
  subVW z x y ⇓ (fun '(z', c) =>
    nval z' - weight (len z) * c = nval (words x z) - y /\ words_ok z' /\ length z' = length z /\ word_ok c).
Proof.
  rewrite subVW_fast. destruct (subVW_ref_spec z x Hx Hxw y Hy) as [-> M]. cbn [returns].
  destruct (mapAcc _ _ _). split; [lia|apply M].
Qed.
End Fast.

(** *** Shifts *)

Lemma shift_amounts s : 0 < s < _W -> Z.land s (_W - 1) = s /\ Z.land (_W - s) (_W - 1) = _W - s.
Proof.
  intros Hs. destruct _W_ok as [E|E]; rewrite E in *.
  - rewrite !(land_ones' _ 5) by (lia || done). rewrite !Z.mod_small by (change (2 ^ 5) with 32; lia). lia.
  - rewrite !(land_ones' _ 6) by (lia || done). rewrite !Z.mod_small by (change (2 ^ 6) with 64; lia). lia.
Qed.

Lemma B_split s : 0 <= s <= _W -> B = 2 ^ s * 2 ^ (_W - s).
Proof. intros. rewrite <- Z.pow_add_r by lia. f_equal. lia. Qed.

(** The low part of a word moved up, and the high part moved down. *)
Lemma word_shiftl u s : 0 <= s <= _W -> word (Z.shiftl u s) = u mod 2 ^ (_W - s) * 2 ^ s.
Proof.
  intros Hs. unfold word. rewrite shiftl_mul by lia. rewrite (B_split s Hs), (Z.mul_comm (2 ^ s)).
  rewrite Z.mul_mod_distr_r by (apply Z.pow_nonzero; lia). done.
Qed.

Lemma lor_words hi lo s : 0 <= s -> 0 <= lo < 2 ^ s -> Z.lor (hi * 2 ^ s) lo = hi * 2 ^ s + lo.
Proof. intros. by apply lor_disjoint_mul. Qed.

Lemma pow_pos s : 0 <= s -> 0 < 2 ^ s.
Proof. intros. by apply Z.pow_pos_nonneg. Qed.

Section Shifts.
Context (z : list Z) (x : operand) (s : Z).
Context (Hx : length (words x z) = length z) (Hxw : words_ok (words x z)) (Hs : 0 < s < _W).
Let X := words x z.

Definition lshDigit (u c : Z) : Z * Z := (Z.lor (word (Z.shiftl u s)) c, Z.shiftr u (_W - s)).

Lemma lshDigit_value u c :
  word_ok u -> 0 <= c < 2 ^ s ->
  let '(d, c') := lshDigit u c in d + 1 * (B * c') = u * 2 ^ s + 1 * c /\ word_ok d /\ 0 <= c' < 2 ^ s.
Proof.
  intros Hu Hc. unfold lshDigit, word_ok in *. rewrite word_shiftl, lor_words, shiftr_div by lia.
  assert (0 < 2 ^ s /\ 0 < 2 ^ (_W - s)) as [Hp HT] by (split; apply pow_pos; lia).
  rewrite (B_split s) in Hu |- * by lia. revert HT Hu. generalize (2 ^ (_W - s)). intros T HT Hu.
  pose proof (Z.div_mod u T ltac:(lia)). pose proof (Z.mod_pos_bound u T ltac:(lia)).
  assert (0 <= u / T < 2 ^ s) by (split; [apply Z.div_pos|apply Z.div_lt_upper_bound]; lia).
  nia.
Qed.

(** The digits, by index: each takes its low bits from the word before. *)
Lemma lshDigit_lookup l c k :
  (mapAcc lshDigit l c).1 !! S k =
  match l !! k, l !! S k with
  | Some p, Some u => Some (lshDigit u (Z.shiftr p (_W - s))).1
  | _, _ => None
  end.
Proof.
  revert c k. induction l as [|u l IH]; intros c k; [done|]. cbn [mapAcc].
  destruct (lshDigit u c) as [d c'] eqn:E. assert (c' = Z.shiftr u (_W - s)) as -> by (injection E; done).
  destruct (mapAcc lshDigit l _) as [ds c2] eqn:M. cbn [fst].
  destruct k as [|k]; cbn.
  - destruct l as [|v l]; cbn [mapAcc] in M; [by simplify_eq|].
    destruct (lshDigit v _) as [d' c3] eqn:E2. destruct (mapAcc lshDigit l c3). injection M as <- <-. by injection E2 as <- _.
  - specialize (IH (Z.shiftr u (_W - s)) k). rewrite M in IH. done.
Qed.

Lemma lshDigit_last l c top : l !! (length l - 1)%nat = Some top ->
  (mapAcc lshDigit l c).2 = Z.shiftr top (_W - s).
Proof.
  revert c. induction l as [|u l IH]; intros c Hl; [done|]. cbn [mapAcc].
  destruct (lshDigit u c) as [d c'] eqn:E. assert (c' = Z.shiftr u (_W - s)) as -> by (injection E; done).
  destruct l as [|v l]; [by injection Hl as ->|].
  assert (Hl' : (v :: l) !! (length (v :: l) - 1)%nat = Some top).
  { rewrite <- Hl. cbn [length]. by replace (S (length l) - 1)%nat with (length l) by lia. }
  specialize (IH (Z.shiftr u (_W - s)) Hl').
  destruct (mapAcc lshDigit (v :: l) _) as [ds c2]. exact IH.
Qed.

Lemma lshDigit_first l c u : l !! 0%nat = Some u -> (mapAcc lshDigit l c).1 !! 0%nat = Some (lshDigit u c).1.
Proof.
  destruct l as [|v l]; [done|]. intros [= ->]. cbn [mapAcc]. destruct (lshDigit u c) as [d c'].
  by destruct (mapAcc lshDigit l c').
Qed.

(** Reading a word not overwritten yet, from above and from below. *)
Lemma rd_below m r (j : nat) a :
  (j < m)%nat -> X !! j = Some a -> rd x (take m z ++ r) (Z.of_nat j) = Ok a.
Proof.
  intros Hj Ha. unfold rd. apply idx_Ok; [lia|]. rewrite Nat2Z.id. unfold X in Ha.
  destruct x; cbn [words] in *; [|done]. rewrite lookup_app_l, lookup_take_lt; [done|done|].
  rewrite length_take. apply lookup_lt_Some in Ha. lia.
Qed.

Lemma rd_above m r (j : nat) a :
  (m <= j)%nat -> length r = m -> X !! j = Some a -> rd x (r ++ drop m z) (Z.of_nat j) = Ok a.
Proof.
  intros Hj Hr Ha. unfold rd. apply idx_Ok; [lia|]. rewrite Nat2Z.id. unfold X in Ha.
  destruct x; cbn [words] in *; [|done]. rewrite lookup_app_r, lookup_drop by lia. rewrite <- Ha. f_equal. lia.
Qed.

Let D := (mapAcc lshDigit X 0).1.

Lemma lsh_facts :
  nval D + weight (len z) * (mapAcc lshDigit X 0).2 = nval X * 2 ^ s /\ words_ok D /\ length D = length z /\
  0 <= (mapAcc lshDigit X 0).2 < 2 ^ s.
Proof.
  pose proof (mapAcc_value 1 lshDigit (fun u => u * 2 ^ s) word_ok (fun c => 0 <= c < 2 ^ s) lshDigit_value X 0 Hxw) as M.
  assert (Hp : 0 < 2 ^ s) by (apply pow_pos; lia). specialize (M (conj (Z.le_refl 0) Hp)).
  assert (Hl : length X = length z) by done. rewrite nval_scale, Hl in M. unfold len in *. rewrite Hl in M.
  unfold D. destruct (mapAcc lshDigit X 0) as [ds c]. cbn [fst snd]. split; [lia|apply M].
Qed.

Lemma upd_boundary m (r : list Z) d :
  (m < length z)%nat -> upd (take (S m) z ++ r) (Z.of_nat m) d = Ok (take m z ++ d :: r).
Proof.
  intros Hm. destruct (lookup_lt_is_Some_2 z m Hm) as [a Ha]. rewrite (take_S_r _ _ _ Ha), <- app_assoc.
  cbn [app]. apply upd_app. unfold len. rewrite length_take. lia.
Qed.

Lemma lsh_loop fuel (k : nat) :
  (k < length z)%nat -> (k < fuel)%nat ->
  loop fuel
    (fun '(z, i) =>
       if i >? 0 then
         let! xi := rd x z i in
         let! xp := rd x z (i - 1) in
         let! z := upd z i (Z.lor (word (Z.shiftl xi s)) (Z.shiftr xp (_W - s))) in
         Ok (inl (z, i - 1))
       else Ok (inr z)) (take (S k) z ++ drop (S k) D, Z.of_nat k)
  = Ok (take 1 z ++ drop 1 D).
Proof.
  destruct lsh_facts as (_ & _ & HD & _). revert fuel. induction k as [|k IH]; intros fuel Hk Hf.
  { destruct fuel; [lia|]. done. }
  destruct fuel as [|fuel]; [lia|]. cbn [loop].
  assert ((Z.of_nat (S k) >? 0) = true) as -> by (rewrite Z.gtb_ltb; apply Z.ltb_lt; lia).
  destruct (lookup_lt_is_Some_2 X (S k)) as [u Hu]; [unfold X; lia|].
  destruct (lookup_lt_is_Some_2 X k) as [v Hv]; [unfold X; lia|].
  replace (Z.of_nat (S k) - 1) with (Z.of_nat k) by lia.
  rewrite (rd_below _ _ _ u), (rd_below _ _ _ v) by (done || lia). cbn [rbind].
  rewrite upd_boundary by lia. cbn [rbind].
  pose proof (lshDigit_lookup X 0 k) as E. rewrite Hu, Hv in E. fold D in E.
  rewrite <- (IH fuel) by lia. by rewrite (drop_cons_lookup D (S k) _ E).
Qed.

Lemma lshVU_spec :
  lshVU z x s ⇓ (fun '(z', c) =>
    nval z' + weight (len z) * c = nval X * 2 ^ s /\ words_ok z' /\ length z' = length z /\ 0 <= c < 2 ^ s).
Proof.
  destruct lsh_facts as (E & HDw & HD & Hc). unfold lshVU, lshVU_g.
  rewrite sameLen_true by done. cbn [negb]. rewrite (proj2 (Z.eqb_neq s 0)) by lia.
  destruct (Z.eqb_spec (len z) 0) as [E0|E0].
  { apply len_zero_inv in E0 as Hz. unfold X in *. rewrite Hz in *. rewrite (nil_length_inv _ Hx) in *. 
    cbn [returns val]. assert (0 < 2 ^ s) by (apply pow_pos; lia). repeat split; (lia || constructor). }
  destruct (shift_amounts s Hs) as [-> ->].
  assert (Hn : (0 < length z)%nat) by (destruct z; [done|cbn [length]; lia]).
  replace (len z - 1) with (Z.of_nat (length z - 1)) by (unfold len; lia).
  destruct (lookup_lt_is_Some_2 X (length z - 1)) as [top Ht]; [unfold X; lia|].
  rewrite <- (take_ge z (S (length z - 1))) at 1 by lia. rewrite <- (app_nil_r (take _ z)).
  rewrite (rd_below _ _ _ top) by (done || lia). cbn [rbind].
  pose proof (lsh_loop (S (length z)) (length z - 1) ltac:(lia) ltac:(lia)) as Lp.
  rewrite (drop_ge D), (take_ge z), app_nil_r in Lp by lia. rewrite Lp. cbn [rbind].
  destruct (lookup_lt_is_Some_2 X 0) as [x0 H0]; [unfold X; lia|].
  rewrite (rd_below 1 _ 0 x0 ltac:(lia) H0). cbn [rbind].
  rewrite (upd_boundary 0) by lia. cbn [rbind returns take app].
  pose proof (lshDigit_first X 0 x0 H0) as E1. fold D in E1. unfold lshDigit in E1. cbn [fst] in E1.
  rewrite Z.lor_0_r in E1. rewrite <- (drop_cons_lookup D 0 _ E1), drop_0.
  rewrite <- (lshDigit_last X 0 top) by (by rewrite (Hx : length X = length z)). done.
Qed.

(** The digits of a right shift: each takes its high bits from the word after. *)
Definition rshDigit (u : Z) (next : option Z) : Z :=
  match next with
  | Some v => Z.lor (Z.shiftr u s) (word (Z.shiftl v (_W - s)))
  | None => Z.shiftr u s
  end.
Fixpoint rshDigits (l : list Z) : list Z :=
  match l with
  | [] => []
  | u :: t => rshDigit u (t !! 0%nat) :: rshDigits t
  end.

Lemma rshDigits_lookup l k u : l !! k = Some u -> rshDigits l !! k = Some (rshDigit u (l !! S k)).
Proof.
  revert k. induction l as [|v l IH]; intros [|k] Hk; try done; cbn [rshDigits].
  - by injection Hk as ->.
  - by apply IH.
Qed.

Lemma rshDigits_length l : length (rshDigits l) = length l.
Proof. induction l as [|u l IH]; cbn [rshDigits length]; lia. Qed.

Lemma rshDigit_value u next :
  word_ok u -> (forall v, next = Some v -> word_ok v) ->
  rshDigit u next = u / 2 ^ s + match next with Some v => v mod 2 ^ s * 2 ^ (_W - s) | None => 0 end /\
  word_ok (rshDigit u next).
Proof.
  intros Hu Hn. unfold rshDigit, word_ok in *.
  assert (0 < 2 ^ s /\ 0 < 2 ^ (_W - s)) as [Hp HT] by (split; apply pow_pos; lia).
  assert (Hdiv : 0 <= u / 2 ^ s < 2 ^ (_W - s)).
  { rewrite (B_split s) in Hu by lia. split; [apply Z.div_pos|apply Z.div_lt_upper_bound]; lia. }
  rewrite shiftr_div by lia. destruct next as [v|].
  - rewrite word_shiftl by lia. replace (_W - (_W - s)) with s by lia.
    rewrite Z.lor_comm, lor_words by lia. split; [lia|].
    pose proof (Z.mod_pos_bound v (2 ^ s) ltac:(lia)). rewrite (B_split s) by lia. nia.
  - split; [lia|]. rewrite (B_split s) by lia. nia.
Qed.

Lemma rshDigits_value l :
  words_ok l ->
  nval (rshDigits l) * 2 ^ s + match l with [] => 0 | u :: _ => u mod 2 ^ s end = nval l /\ words_ok (rshDigits l).
Proof.
  assert (0 < 2 ^ s) by (apply pow_pos; lia).
  induction l as [|u l IH]; intros Hw; [split; [done|constructor]|].
  apply Forall_cons_1 in Hw as [Hu Hl]. destruct (IH Hl) as [E Hd]. cbn [rshDigits].
  destruct (rshDigit_value u (l !! 0%nat)) as [Ed Hok]; [done| |].
  { intros v Hv. eapply (Forall_lookup_1 _ l); [exact Hl|exact Hv]. }
  split; [|by constructor]. rewrite !nval_cons, Ed. pose proof (Z.div_mod u (2 ^ s) ltac:(lia)).
  rewrite (B_split s) in * by lia. destruct l as [|v l]; cbn [lookup list_lookup]; nia.
Qed.

Lemma rsh_loop fuel (k : nat) :
  (k < length z)%nat -> (length z - k < fuel)%nat ->
  loop fuel
    (fun '(z, i) =>
       if i <? len z then
         let! xp := rd x z (i - 1) in
         let! xi := rd x z i in
         let! z := upd z (i - 1) (Z.lor (Z.shiftr xp s) (word (Z.shiftl xi (_W - s)))) in
         Ok (inl (z, i + 1))
       else Ok (inr z)) (take k (rshDigits X) ++ drop k z, Z.of_nat k + 1)
  = Ok (take (length z - 1) (rshDigits X) ++ drop (length z - 1) z).
Proof.
  revert k. induction fuel as [|fuel IH]; intros k Hk Hf; [lia|]. cbn [loop].
  assert (HX : length X = length z) by done.
  assert (HD : length (take k (rshDigits X)) = k) by (rewrite length_take, rshDigits_length; lia).
  replace (len (take k (rshDigits X) ++ drop k z)) with (len z)
    by (unfold len; rewrite length_app, length_drop; lia).
  destruct (Z.ltb_spec (Z.of_nat k + 1) (len z)) as [Hlt|Hge].
  2: { by replace (length z - 1)%nat with k by (unfold len in *; lia). }
  destruct (lookup_lt_is_Some_2 X k) as [u Hu]; [lia|].
  destruct (lookup_lt_is_Some_2 X (S k)) as [v Hv]; [unfold len in *; lia|].
  destruct (lookup_lt_is_Some_2 z k) as [zk Hz]; [lia|].
  replace (Z.of_nat k + 1 - 1) with (Z.of_nat k) by lia.
  replace (Z.of_nat k + 1) with (Z.of_nat (S k)) by lia.
  rewrite (rd_above k _ k u), (rd_above k _ (S k) v) by (done || lia). cbn [rbind].
  rewrite (drop_cons_lookup z k zk Hz), upd_app by (unfold len; lia). cbn [rbind].
  pose proof (rshDigits_lookup X k u Hu) as E. rewrite Hv in E. cbn [rshDigit] in E.
  rewrite <- (IH (S k)) by (unfold len in *; lia). rewrite (take_S_r _ _ _ E), <- app_assoc. done.
Qed.

Lemma rshVU_spec :
  rshVU z x s ⇓ (fun '(z', c) =>
    nval z' = nval X / 2 ^ s /\ words_ok z' /\ length z' = length z /\
    c = nval X mod 2 ^ s * 2 ^ (_W - s)).
Proof.
  destruct (rshDigits_value X Hxw) as [E HDw]. assert (HX : length X = length z) by done.
  assert (0 < 2 ^ s) by (apply pow_pos; lia).
  unfold rshVU, rshVU_g. rewrite sameLen_true by done. cbn [negb]. rewrite (proj2 (Z.eqb_neq s 0)) by lia.
  destruct (Z.eqb_spec (len z) 0) as [E0|E0].
  { apply len_zero_inv in E0 as Hz. rewrite Hz in HX. rewrite (nil_length_inv _ HX). rewrite Hz.
    cbn [returns val]. rewrite Z.div_0_l, Z.mod_0_l by lia. repeat split; (lia || constructor). }
  destruct (shift_amounts s Hs) as [-> ->].
  assert (Hn : (0 < length z)%nat) by (destruct z; [done|cbn [length]; lia]).
  destruct (lookup_lt_is_Some_2 X 0) as [x0 H0]; [lia|].
  destruct (lookup_lt_is_Some_2 X (length z - 1)) as [top Ht]; [lia|].
  pose proof (rd_above 0 [] 0 x0 ltac:(lia) eq_refl H0) as R0. cbn [app] in R0. rewrite drop_0 in R0.
  change (Z.of_nat 0) with 0 in R0. rewrite R0.
  cbn [rbind]. pose proof (rsh_loop (S (length z)) 0 ltac:(lia) ltac:(lia)) as Lp.
  rewrite take_0, drop_0 in Lp. cbn [app] in Lp. change (Z.of_nat 0 + 1) with 1 in Lp. rewrite Lp. cbn [rbind].
  assert (Hlt : length (take (length z - 1) (rshDigits X)) = (length z - 1)%nat)
    by (rewrite length_take, rshDigits_length; lia).
  set (z2 := take (length z - 1) (rshDigits X) ++ drop (length z - 1) z).
  assert (Hl2 : len z2 - 1 = Z.of_nat (length z - 1))
    by (unfold z2, len; rewrite length_app, length_drop, Hlt; lia).
  rewrite Hl2. unfold z2 at 1. rewrite (rd_above _ _ _ top) by (done || lia). cbn [rbind].
  destruct (lookup_lt_is_Some_2 z (length z - 1)) as [zl Hzl]; [lia|].
  unfold z2. rewrite (drop_cons_lookup z _ zl Hzl), upd_app by (unfold len; lia). cbn [rbind returns].
  pose proof (rshDigits_lookup X _ top Ht) as El. rewrite (lookup_ge_None_2 X) in El by lia. cbn [rshDigit] in El.
  rewrite (drop_ge z) by lia. rewrite <- (take_S_r _ _ _ El), take_ge by (rewrite rshDigits_length; lia).
  destruct X as [|u l] eqn:EX; [done|]. injection H0 as ->.
  pose proof (Z.mod_pos_bound x0 (2 ^ s) ltac:(lia)).
  rewrite word_shiftl by lia. replace (_W - (_W - s)) with s by lia.
  assert (Eq : nval (x0 :: l) / 2 ^ s = nval (rshDigits (x0 :: l))) by (symmetry; apply (Z.div_unique _ _ _ (x0 mod 2 ^ s)); lia).
  assert (Er : nval (x0 :: l) mod 2 ^ s = x0 mod 2 ^ s) by (symmetry; apply (Z.mod_unique _ _ (nval (rshDigits (x0 :: l)))); lia).
  rewrite Eq, Er. split; [done|]. split; [done|]. split; [by rewrite rshDigits_length|done].
Qed.
End Shifts.

(** *** Division of two words by one *)

Lemma nlz_norm y : 0 < y < B ->
  exists s, nlz y = Ok s /\ 0 <= s < _W /\ B <= 2 * (y * 2 ^ s) /\ y * 2 ^ s < B.
Proof.
  intros Hy. assert (E : nlz y = Ok (_W - bitlen y)).
  { unfold nlz, LeadingZeros, Len. destruct _W_ok as [E|E]; rewrite E in *; cbn [Z.eqb Pos.eqb].
    - by rewrite u32_id, Len32_bitlen by lia.
    - by rewrite u64_id, Len64_bitlen by lia. }
  exists (_W - bitlen y). split; [done|]. destruct (bitlen_bounds y) as [Hlo Hhi]; [lia|].
  pose proof W_pos. assert (0 <= bitlen y <= _W) by (apply bitlen_le; lia).
  assert (1 <= bitlen y).
  { unfold bitlen in *. rewrite (proj2 (Z.eqb_neq y 0)) in * by lia. pose proof (Z.log2_nonneg y). lia. }
  split; [lia|]. assert (0 < 2 ^ (_W - bitlen y)) by (apply pow_pos; lia).
  assert (EB : B = 2 * 2 ^ (bitlen y - 1) * 2 ^ (_W - bitlen y)).
  { rewrite <- (Z.pow_succ_r 2 (bitlen y - 1)), <- Z.pow_add_r by lia. f_equal. lia. }
  assert (EB2 : B = 2 ^ bitlen y * 2 ^ (_W - bitlen y)) by (rewrite <- Z.pow_add_r by lia; f_equal; lia).
  split; [rewrite EB; nia|rewrite EB2; nia].
Qed.

Lemma Div_word hi lo y :
  word_ok hi -> word_ok lo -> word_ok y -> hi < y ->
  Div _W hi lo y ⇓ (fun '(q, r) => hi * B + lo = q * y + r /\ 0 <= r < y /\ word_ok q).
Proof.
  unfold word_ok, Div. intros Hhi Hlo Hy Hlt.
  destruct _W_ok as [E|E]; rewrite E in *; cbn [Z.eqb Pos.eqb].
  - rewrite !u32_id by lia. unfold Div32.
    rewrite (proj2 (Z.eqb_neq y 0)), (proj2 (Z.leb_gt y hi)) by lia. cbn [negb andb].
    rewrite shiftl_mul, u64_id, lor_disjoint_mul by lia. cbn [returns].
    set (N := hi * 2 ^ 32 + lo). pose proof (Z.div_mod N y ltac:(lia)). pose proof (Z.mod_pos_bound N y ltac:(lia)).
    assert (0 <= N / y < 2 ^ 32) by (split; [apply Z.div_pos|apply Z.div_lt_upper_bound]; lia).
    rewrite !u32_id by lia. lia.
  - rewrite !u64_id by lia. by apply Div64_spec.
Qed.

(** [m] is the reciprocal of the divisor [d], scaled to use the top bit. *)
Definition reciprocal (d m : Z) : Prop :=
  word_ok m /\ (m + B) * d <= B * B - 1 < (m + B + 1) * d.

Lemma reciprocalWord_spec y s :
  0 < y < B -> nlz y = Ok s -> reciprocalWord y ⇓ (fun m => reciprocal (y * 2 ^ s) m).
Proof.
  intros Hy Es. destruct (nlz_norm y Hy) as (s' & E & Hs & Hhi & Hlt). assert (s' = s) as -> by congruence.
  pose proof B_pos. unfold reciprocalWord. rewrite E. cbn [rbind]. rewrite shiftl_mul, (word_small (y * 2 ^ s)) by lia.
  set (u := y * 2 ^ s) in *. unfold _M. rewrite _B_eq. unfold word. rewrite lnot_mod by lia.
  eapply returns_bind_mono; [apply Div_word; unfold word_ok; lia|].
  intros [q r] (Eq & Hr & Hq). cbn [returns]. split; [done|]. nia.
Qed.

Section DivWW.
Context (x1 x0 d m : Z).
Context (H1 : word_ok x1) (H0 : word_ok x0) (Hd : d < B) (Hd2 : B <= 2 * d) (Hlt : x1 < d) (Hm : reciprocal d m).
Let N := x1 * B + x0.

(** The estimate: at most two too small, and the remainder stays below [B + d]. *)
Lemma estimate_low qq : qq * B <= m * x1 + x1 * B + x0 -> qq * d <= N.
Proof. destruct Hm as [Hmw [Hm1 Hm2]]. unfold word_ok, N in *. nia. Qed.

Lemma estimate_high qq : m * x1 + x1 * B + x0 < (qq + 1) * B -> N - qq * d < B + d.
Proof.
  destruct Hm as [Hmw [Hm1 Hm2]]. unfold word_ok, N in *. intros Hq.
  assert (B * (x1 * B + x0 - qq * d) < B * (B + d)); [|nia].
  assert (d * (m * x1 + x1 * B + x0) <= d * ((qq + 1) * B - 1)) by nia.
  assert ((B * B - (m + B) * d) * x1 <= d * x1) by nia. nia.
Qed.

(** The two corrections. *)
Lemma corrections qq r1 r0 :
  word_ok qq -> word_ok r1 -> word_ok r0 -> N = qq * d + (r1 * B + r0) -> r1 * B + r0 < B + d ->
  let '(qq, r0) := if negb (r1 =? 0) then (word (qq + 1), word (r0 - d)) else (qq, r0) in
  let '(qq, r0) := if r0 >=? d then (word (qq + 1), word (r0 - d)) else (qq, r0) in
  qq * d + r0 = N /\ 0 <= r0 < d /\ word_ok qq.
Proof.
  intros Hq Hr1 Hr0 EN HR. unfold word_ok, N in *. pose proof B_pos.
  assert (Hsmall : forall q, q * d <= x1 * B + x0 -> q < B) by (intros; nia).
  destruct (Z.eqb_spec r1 0) as [->|Hne]; cbn [negb].
  - destruct (Z.geb_spec r0 d); [|repeat split; lia].
    assert (qq + 1 < B) by (apply Hsmall; lia). rewrite !word_small by lia. lia.
  - assert (r1 = 1) as -> by nia.
    assert (Hw : word (r0 - d) = r0 - d + B).
    { unfold word. symmetry. apply (Z.mod_unique _ _ (-1)); lia. }
    assert (qq + 1 < B) by (apply Hsmall; lia). rewrite Hw, (word_small (qq + 1)) by lia.
    destruct (Z.geb_spec (r0 - d + B) d); [|repeat split; lia].
    assert (qq + 1 + 1 < B) by (apply Hsmall; lia). rewrite !word_small by lia. lia.
Qed.

Lemma divNorm :
  let '(t1, t0) := Mul _W m x1 in
  let '(_, c) := Add _W t0 x0 0 in
  let '(t1, _) := Add _W t1 x1 c in
  let qq := t1 in
  let '(dq1, dq0) := Mul _W d qq in
  let '(r0, b) := Sub _W x0 dq0 0 in
  let '(r1, _) := Sub _W x1 dq1 b in
  let '(qq, r0) := if negb (r1 =? 0) then (word (qq + 1), word (r0 - d)) else (qq, r0) in
  let '(qq, r0) := if r0 >=? d then (word (qq + 1), word (r0 - d)) else (qq, r0) in
  qq * d + r0 = N /\ 0 <= r0 < d /\ word_ok qq.
Proof.
  destruct Hm as [Hmw Hm12]. pose proof B_pos.
  assert (Hdw : word_ok d) by (unfold word_ok in *; lia).
  pose proof (Mul_word m x1 Hmw H1) as M. destruct (Mul _W m x1) as [t1 t0]. destruct M as (EM & Ht1 & Ht0).
  pose proof (Add_word t0 x0 0 Ht0 H0 ltac:(lia)) as A. destruct (Add _W t0 x0 0) as [s0 c]. destruct A as (EA & Hs0 & Hc).
  pose proof (Add_word t1 x1 c Ht1 H1 Hc) as A2. destruct (Add _W t1 x1 c) as [t1' k]. destruct A2 as (EA2 & Ht1' & Hk).
  assert (EP : (t1' + B * k) * B = (t1 + x1 + c) * B) by (f_equal; lia).
  assert (Hlow : (t1' + B * k) * d <= N) by (apply estimate_low; unfold word_ok in *; lia).
  assert (HN : N < d * B) by (unfold N, word_ok in *; clear - H0 Hlt; nia).
  assert (Hpos : 0 <= t1' * d) by (unfold word_ok in *; clear - Ht1' Hdw; nia).
  assert (k = 0) as -> by (assert (k = 0 \/ k = 1) as [-> | ->] by lia; lia).
  assert (Hhigh : N - t1' * d < B + d) by (apply estimate_high; unfold word_ok in *; lia).
  cbv zeta. pose proof (Mul_word d t1' Hdw Ht1') as M2. destruct (Mul _W d t1') as [dq1 dq0]. destruct M2 as (EM2 & Hq1 & Hq0).
  pose proof (Sub_word x0 dq0 0 H0 Hq0 ltac:(lia)) as S1. destruct (Sub _W x0 dq0 0) as [r0 b]. destruct S1 as (ES1 & Hr0 & Hb).
  pose proof (Sub_word x1 dq1 b H1 Hq1 Hb) as S2. destruct (Sub _W x1 dq1 b) as [r1 b']. destruct S2 as (ES2 & Hr1 & Hb').
  assert (EQ : (r1 - B * b') * B = (x1 - dq1 - b) * B) by (f_equal; lia).
  assert (ER : r1 * B + r0 - B * B * b' = N - t1' * d) by (unfold N; lia).
  assert (Hpos1 : 0 <= r1 * B <= (B - 1) * B) by (unfold word_ok in *; clear - Hr1; nia).
  assert (b' = 0) as -> by (unfold word_ok in *; assert (b' = 0 \/ b' = 1) as [-> | ->] by lia; lia).
  apply (corrections t1' r1 r0 Ht1' Hr1 Hr0); lia.
Qed.
End DivWW.

(** The high and low words of the scaled dividend. *)
Lemma scaled_dividend x1 x0 y s :
  word_ok x1 -> word_ok x0 -> 0 < s < _W -> y * 2 ^ s < B -> x1 < y ->
  let h := Z.lor (word (Z.shiftl x1 s)) (Z.shiftr x0 (_W - s)) in
  let l := word (Z.shiftl x0 s) in
  h * B + l = (x1 * B + x0) * 2 ^ s /\ word_ok h /\ word_ok l /\ h < y * 2 ^ s.
Proof.
  intros H1 H0 Hs Hy Hlt. cbv zeta. unfold word_ok in *.
  assert (0 < 2 ^ s /\ 0 < 2 ^ (_W - s)) as [Hp HT] by (split; apply pow_pos; lia).
  assert (Hx1 : x1 * 2 ^ s < B) by nia. rewrite (shiftl_mul x1), (word_small (x1 * 2 ^ s)) by nia.
  assert (Hdiv : 0 <= x0 / 2 ^ (_W - s) < 2 ^ s).
  { rewrite (B_split s) in H0 by lia. split; [apply Z.div_pos|apply Z.div_lt_upper_bound]; lia. }
  rewrite shiftr_div, lor_words, word_shiftl by lia.
  assert (Ex0 : x0 = 2 ^ (_W - s) * (x0 / 2 ^ (_W - s)) + x0 mod 2 ^ (_W - s)) by (apply Z.div_mod; lia).
  assert (Hmod : 0 <= x0 mod 2 ^ (_W - s) < 2 ^ (_W - s)) by (apply Z.mod_pos_bound; lia).
  assert (EB : B = 2 ^ s * 2 ^ (_W - s)) by (apply B_split; lia).
  revert Ex0 Hmod Hdiv. generalize (x0 / 2 ^ (_W - s)) (x0 mod 2 ^ (_W - s)). intros q r Ex0 Hr Hq.
  revert Ex0 Hr EB HT. generalize (2 ^ (_W - s)). intros T Ex0 Hr EB HT.
  split; [rewrite EB, Ex0; ring|]. split; [nia|]. split; nia.
Qed.

Lemma divWW_spec x1 x0 y m s :
  word_ok x1 -> word_ok x0 -> 0 < y < B -> x1 < y -> nlz y = Ok s -> reciprocal (y * 2 ^ s) m ->
  divWW x1 x0 y m = Ok ((x1 * B + x0) / y, (x1 * B + x0) mod y).
Proof.
  intros H1 H0 Hy Hlt Es Hm. destruct (nlz_norm y Hy) as (s' & E & Hs & Hhi & Hsm).
  assert (s' = s) as -> by congruence. unfold divWW. rewrite E. cbn [rbind].
  assert (Hp : 0 < 2 ^ s) by (apply pow_pos; lia).
  set (scaled := if negb (s =? 0) then _ else _).
  assert (exists h l, scaled = (h, l, y * 2 ^ s) /\ h * B + l = (x1 * B + x0) * 2 ^ s /\
    word_ok h /\ word_ok l /\ h < y * 2 ^ s) as (h & l & -> & EN & Hh & Hl & Hlt').
  { unfold scaled. destruct (Z.eqb_spec s 0) as [->|Hs0]; cbn [negb].
    - exists x1, x0. change (2 ^ 0) with 1. rewrite !Z.mul_1_r. auto.
    - exists (Z.lor (word (Z.shiftl x1 s)) (Z.shiftr x0 (_W - s))), (word (Z.shiftl x0 s)).
      rewrite (shiftl_mul y), (word_small (y * 2 ^ s)) by nia. split; [done|]. apply scaled_dividend; (done || lia). }
  pose proof (divNorm h l (y * 2 ^ s) m Hh Hl Hsm Hhi Hlt' Hm) as D. cbv zeta in *.
  destruct (Mul _W m h) as [t1 t0], (Add _W t0 l 0) as [? c], (Add _W t1 h c) as [qq ?],
    (Mul _W (y * 2 ^ s) qq) as [dq1 dq0], (Sub _W l dq0 0) as [r0 b], (Sub _W h dq1 b) as [r1 ?].
  destruct (if negb (r1 =? 0) then _ else _) as [q2 r2]. destruct (if r2 >=? _ then _ else _) as [q r].
  destruct D as (D & Hr & _). rewrite EN in D. f_equal. rewrite shiftr_div by lia.
  assert (Er : r = (x1 * B + x0 - q * y) * 2 ^ s) by nia. rewrite Er, Z.div_mul by lia.
  assert (0 <= x1 * B + x0 - q * y < y) by nia.
  f_equal; [apply (Z.div_unique _ _ _ (x1 * B + x0 - q * y))|apply (Z.mod_unique _ _ q)]; lia.
Qed.
End Correct.
