(* ===== verification/BigNat.v ===== *)
(** * Package math/big: natural numbers (model)

    The type nat of src/math/big/nat.go (words, lowest first, no leading zero
    word) and its arithmetic, with the schoolbook multiplication of natmul.go.
    The receiver [z], whose storage a function may reuse, is given by the words
    of that storage; it is not an operand. *)
From Stdlib Require Import ZArith Lia.
From stdpp Require Import base numbers list.
From S2P Require Import Prelude Bits BigWords.

(** [z[i:j] = f(z[i:j], ...)]: a vector function on a part of [z]. *)
Definition onRange {A} (z : list Z) (i j : Z) (f : list Z -> res (list Z * A)) : res (list Z * A) :=
  let! s := slice z i j in
  let! '(s, a) := f s in
  Ok (take (Z.to_nat i) z ++ s ++ drop (Z.to_nat j) z, a).

(** [for i := range ...]: [z[i] = f(x[i], y[i])]. *)
Definition zeros (n : Z) : list Z := replicate (Z.to_nat n) 0.

Section Nat.
Context `{P : Platform}.

Definition norm (z : list Z) : res (list Z) :=
  loop (S (length z))
    (fun i =>
       let! c := if i >? 0 then (let! w := idx z (i - 1) in Ok (w =? 0)) else Ok false in
       if (c : bool) then Ok (inl (i - 1)) else (let! s := slice z 0 i in Ok (inr s))) (len z).

(** make: reuse the storage, or allocate zeroed words. *)
Definition nmake (z : list Z) (n : Z) : list Z :=
  if n <=? len z then take (Z.to_nat n) z else zeros n.

Definition setWord (z : list Z) (x : Z) : res (list Z) :=
  if x =? 0 then Ok [] else upd (nmake z 1) 0 x.

Definition setUint64 (z : list Z) (x : Z) : res (list Z) :=
  if word x =? x then setWord z (word x) else
  let z := nmake z 2 in
  let! z := upd z 1 (word (Z.shiftr x 32)) in
  upd z 0 (word x).

Definition nset (z x : list Z) : list Z :=
  copyAll (nmake z (len x)) (Vec x).

(** The words of [x] at least as many as those of [y]. *)
Definition addLong (z x y : list Z) : res (list Z) :=
  let m := len x in
  let n := len y in
  if m =? 0 then Ok [] else
  if n =? 0 then Ok (nset z x) else
  let z := nmake z (m + 1) in
  let! xn := slice x 0 n in
  let! '(z, c) := onRange z 0 n (fun s => addVV s (Vec xn) (Vec y)) in
  let! '(z, c) :=
    if m >? n then (let! xt := slice x n m in onRange z n m (fun s => addVW s (Vec xt) c))
    else Ok (z, c) in
  let! z := upd z m c in
  norm z.

Definition nadd (z x y : list Z) : res (list Z) :=
  if len x <? len y then addLong z y x else addLong z x y.

Definition nsub (z x y : list Z) : res (list Z) :=
  let m := len x in
  let n := len y in
  if m <? n then Panic else
  if m =? 0 then Ok [] else
  if n =? 0 then Ok (nset z x) else
  let z := nmake z m in
  let! xn := slice x 0 n in
  let! '(z, c) := onRange z 0 n (fun s => subVV s (Vec xn) (Vec y)) in
  let! '(z, c) :=
    if m >? n then (let! xt := slice x n m in onRange z n m (fun s => subVW s (Vec xt) c))
    else Ok (z, c) in
  if negb (c =? 0) then Panic else
  norm z.

Definition cmp (x y : list Z) : res Z :=
  let m := len x in
  let n := len y in
  if negb (m =? n) || (m =? 0) then
    Ok (if m <? n then -1 else if m >? n then 1 else 0)
  else
  let! i :=
    loop (S (length x))
      (fun i =>
         let! c := if i >? 0 then (let! a := idx x i in let! b := idx y i in Ok (a =? b)) else Ok false in
         if (c : bool) then Ok (inl (i - 1)) else Ok (inr i)) (m - 1) in
  let! a := idx x i in
  let! b := idx y i in
  Ok (if a <? b then -1 else if a >? b then 1 else 0).

(** ** Shifts and bits *)

Definition lsh (z x : list Z) (s : Z) : res (list Z) :=
  if s =? 0 then Ok (nset z x) else
  let m := len x in
  if m =? 0 then Ok [] else
  let n := m + s / _W in
  let z := nmake z (n + 1) in
  let s := s mod _W in
  let! z :=
    if s =? 0 then
      let! '(z, _) := onRange z (n - m) n (fun w => Ok (copyAll w (Vec x), 0)) in
      upd z n 0
    else
      let! '(z, c) := onRange z (n - m) n (fun w => lshVU w (Vec x) s) in
      upd z n c in
  let! '(z, _) := onRange z 0 (n - m) (fun w => Ok (zeros (len w), 0)) in
  norm z.

Definition rsh (z x : list Z) (s : Z) : res (list Z) :=
  if s =? 0 then Ok (nset z x) else
  let m := len x in
  let n := m - s / _W in
  if n <=? 0 then Ok [] else
  let z := nmake z n in
  let s := s mod _W in
  let! xt := slice x (m - n) m in
  let! z :=
    if s =? 0 then Ok (copyAll z (Vec xt))
    else (let! '(z, _) := rshVU z (Vec xt) s in Ok z) in
  norm z.

Definition bitLen (x : list Z) : res Z :=
  let i := len x - 1 in
  if i >=? 0 then
    let! top := idx x i in
    let top := Z.lor top (Z.shiftr top 1) in
    let top := Z.lor top (Z.shiftr top 2) in
    let top := Z.lor top (Z.shiftr top 4) in
    let top := Z.lor top (Z.shiftr top 8) in
    let top := Z.lor top (Z.shiftr top 16) in
    let top := Z.lor top (Z.shiftr (Z.shiftr top 16) 16) in
    let! n := Len _W top in
    Ok (i * _W + n)
  else Ok 0.

Definition bit (x : list Z) (i : Z) : res Z :=
  let j := i / _W in
  if j >=? len x then Ok 0 else
  let! w := idx x j in
  Ok (Z.land (Z.shiftr w (i mod _W)) 1).

(** ** Multiplication *)

Definition mulAddWW (z x : list Z) (y r : Z) : res (list Z) :=
  let m := len x in
  if (m =? 0) || (y =? 0) then setWord z r else
  let z := nmake z (m + 1) in
  let! '(z, c) := onRange z 0 m (fun s => mulAddVWW s (Vec x) y r) in
  let! z := upd z m c in
  norm z.

Definition basicMul (z x y : list Z) : res (list Z) :=
  let! '(z, _) := onRange z 0 (len x + len y) (fun s => Ok (zeros (len s), 0)) in
  loop (S (length y))
    (fun '(z, i) =>
       if i <? len y then
         let! d := idx y i in
         if negb (d =? 0) then
           let! '(z, c) := onRange z i (i + len x) (fun s => addMulVVWW s Same (Vec x) d 0) in
           let! z := upd z (len x + i) c in
           Ok (inl (z, i + 1))
         else Ok (inl (z, i + 1))
       else Ok (inr z)) (z, 0).
End Nat.
