(* ===== verification/BigNatCorrect.v ===== *)
(** * Package math/big: natural numbers are exact

    The functions of BigNat.v return the normalised words of the exact result,
    whatever the storage they reuse holds; subtraction panics exactly on
    underflow. *)
From Stdlib Require Import ZArith Lia.
From stdpp Require Import base numbers list.
From S2P Require Import Prelude Bits BigWords BigWordsCorrect BigNat.

Section Correct.
Context `{P : Platform}.
Abbreviation B := (2 ^ _W).
Abbreviation nval := (val _W).

(** ** Normal forms *)

(** No leading zero word. *)
Definition normal (x : list Z) : Prop := forall l d, x = l ++ [d] -> d <> 0.
Definition is_nat (x : list Z) : Prop := words_ok x /\ normal x.

Lemma words_ok_app x y : words_ok (x ++ y) <-> words_ok x /\ words_ok y.
Proof. apply Forall_app. Qed.

Lemma words_ok_zeros n : words_ok (zeros n).
Proof. apply Forall_replicate. pose proof B_pos. lia. Qed.

Lemma nval_zeros k : nval (replicate k 0) = 0.
Proof. induction k as [|k IH]; cbn [replicate val]; [done|]. rewrite IH. lia. Qed.

Lemma nval_snoc l d : nval (l ++ [d]) = nval l + weight (len l) * d.
Proof. rewrite nval_app. cbn [val]. lia. Qed.

Lemma normal_nil : normal [].
Proof. intros l d E. by destruct l. Qed.

Lemma normal_snoc l d : d <> 0 -> normal (l ++ [d]).
Proof. intros Hd l' d' E. by apply app_inj_tail in E as [_ <-]. Qed.

Lemma is_nat_nil : is_nat [].
Proof. split; [constructor|apply normal_nil]. Qed.

(** A nonempty normal form has a leading word. *)
Lemma normal_lead x : x <> [] -> words_ok x -> normal x -> weight (len x - 1) <= nval x.
Proof.
  intros Hx Hw Hn. destruct (exists_last Hx) as (l & d & ->). apply words_ok_app in Hw as [Hl Hd].
  pose proof (Hn l d eq_refl). apply Forall_cons_1 in Hd as [Hd _]. pose proof (nval_bound l Hl).
  rewrite nval_snoc, len_app. change (len [d]) with 1. replace (len l + 1 - 1) with (len l) by lia.
  pose proof (weight_pos (len l) (len_nonneg l)). nia.
Qed.

Lemma weight_le a b : 0 <= a <= b -> weight a <= weight b.
Proof. intros. unfold weight. pose proof W_pos. apply Z.pow_le_mono_r; nia. Qed.

(** Equal numbers have equal normal forms. *)
Lemma words_unique x y : length x = length y -> words_ok x -> words_ok y -> nval x = nval y -> x = y.
Proof.
  revert y. induction x as [|a x IH]; intros [|b y] Hl Hx Hy E; try done.
  apply Forall_cons_1 in Hx as [Ha Hx]. apply Forall_cons_1 in Hy as [Hb Hy]. rewrite !nval_cons in E.
  injection Hl as Hl. assert (nval x = nval y) by nia. f_equal; [nia|]. by apply IH.
Qed.

Lemma shorter_less x y : is_nat x -> is_nat y -> len x < len y -> nval x < nval y.
Proof.
  intros [Hx _] [Hy Hn] Hl. pose proof (nval_bound x Hx). assert (y <> []) by (intros ->; len_lia).
  pose proof (normal_lead y ltac:(done) Hy Hn). assert (weight (len x) <= weight (len y - 1)) by (apply weight_le; len_lia). lia.
Qed.

Lemma is_nat_unique x y : is_nat x -> is_nat y -> nval x = nval y -> x = y.
Proof.
  intros Hx Hy E. apply words_unique; [|apply Hx|apply Hy|done].
  destruct (Z.lt_trichotomy (len x) (len y)) as [H|[H|H]]; [|unfold len in H; lia|].
  - pose proof (shorter_less x y Hx Hy H). lia.
  - pose proof (shorter_less y x Hy Hx H). lia.
Qed.

Lemma is_nat_zero x : is_nat x -> nval x = 0 -> x = [].
Proof. intros Hx E. by apply is_nat_unique; [|apply is_nat_nil|]. Qed.

(** ** norm *)

Lemma norm_spec z :
  words_ok z -> norm z ⇓ (fun r => nval r = nval z /\ is_nat r /\ exists k, z = r ++ replicate k 0).
Proof.
  intros Hz. unfold norm.
  apply (loop_returns (fun i => 0 <= i <= len z /\ exists k, drop (Z.to_nat i) z = replicate k 0) (fun i => i)).
  2: { split; [len_lia|]. exists 0%nat. apply drop_ge. unfold len. lia. }
  2,3: unfold len; lia.
  intros i [Hi [k Hk]].
  assert (Hend : forall r, r = take (Z.to_nat i) z -> normal r -> nval r = nval z /\ is_nat r /\ exists k, z = r ++ replicate k 0).
  { intros r -> Hn. assert (Ez : z = take (Z.to_nat i) z ++ replicate k 0) by (by rewrite <- Hk, take_drop).
    assert (nval z = nval (take (Z.to_nat i) z)) by (rewrite Ez at 1; rewrite nval_app, nval_zeros; lia).
    split; [done|]. split; [split; [by apply Forall_take|done]|by exists k]. }
  assert (Hslice : slice z 0 i = Ok (take (Z.to_nat i) z)) by (rewrite slice_Ok by lia; by rewrite Z.sub_0_r).
  destruct (Z.gtb_spec i 0) as [Hpos|Hz0].
  - destruct (lookup_lt_is_Some_2 z (Z.to_nat (i - 1))) as [w Hw]; [unfold len in Hi; lia|].
    rewrite (idx_Ok z (i - 1) w) by (done || lia). cbn [rbind]. destruct (Z.eqb_spec w 0) as [->|Hne].
    + cbn [returns]. split; [|lia]. split; [lia|]. exists (S k).
      rewrite (drop_cons_lookup _ _ _ Hw). replace (S (Z.to_nat (i - 1))) with (Z.to_nat i) by lia. by rewrite Hk.
    + rewrite Hslice. cbn [rbind returns]. apply Hend; [done|].
      replace (Z.to_nat i) with (S (Z.to_nat (i - 1))) by lia. rewrite (take_S_r _ _ _ Hw). by apply normal_snoc.
  - cbn [rbind]. rewrite Hslice. cbn [rbind returns]. apply Hend; [done|].
    replace (Z.to_nat i) with 0%nat by lia. apply normal_nil.
Qed.

(** ** Parts of a vector *)

Lemma onRange_app {A} (a b c : list Z) i j (f : list Z -> res (list Z * A)) :
  i = len a -> j = len a + len b ->
  onRange (a ++ b ++ c) i j f = let! '(s, x) := f b in Ok (a ++ s ++ c, x).
Proof.
  intros -> ->. unfold onRange. rewrite slice_Ok by len_lia.
  replace (len a + len b - len a) with (len b) by lia.
  unfold len. rewrite !Nat2Z.id, drop_app_length, take_app_length. cbn [rbind].
  destruct (f b) as [[s x]| |]; cbn [rbind]; [|done..].
  replace (Z.to_nat (Z.of_nat (length a) + Z.of_nat (length b))) with (length a + length b)%nat by lia.
  by rewrite take_app_length, drop_app_add, drop_app_length.
Qed.

Lemma len_nmake z n : 0 <= n -> len (nmake z n) = n.
Proof.
  intros Hn. unfold nmake, zeros, len. destruct (Z.leb_spec n (Z.of_nat (length z))).
  - rewrite length_take. lia.
  - rewrite length_replicate. lia.
Qed.

Lemma nset_eq z x : nset z x = x.
Proof. unfold nset, copyAll, copyFrom. change (Z.to_nat 0) with 0%nat. by rewrite take_0, drop_0. Qed.

Lemma slice_front (a b : list Z) n : n = len a -> slice (a ++ b) 0 n = Ok a.
Proof.
  intros ->. rewrite slice_Ok by len_lia. rewrite Z.sub_0_r, drop_0. unfold len. by rewrite Nat2Z.id, take_app_length.
Qed.

Lemma slice_back (a b : list Z) n m : n = len a -> m = len a + len b -> slice (a ++ b) n m = Ok b.
Proof.
  intros -> ->. rewrite slice_Ok by len_lia. replace (len a + len b - len a) with (len b) by lia.
  unfold len. rewrite !Nat2Z.id, drop_app_length. by rewrite take_ge by lia.
Qed.

Lemma upd_last (a : list Z) e w n : n = len a -> upd (a ++ [e]) n w = Ok (a ++ [w]).
Proof. intros ->. by apply upd_app. Qed.

Lemma onRange_front {A} (b c : list Z) j (f : list Z -> res (list Z * A)) :
  j = len b -> onRange (b ++ c) 0 j f = let! '(s, x) := f b in Ok (s ++ c, x).
Proof. intros ->. by rewrite (onRange_app [] b c). Qed.

Lemma onRange_back {A} (a b : list Z) i j (f : list Z -> res (list Z * A)) :
  i = len a -> j = len a + len b -> onRange (a ++ b) i j f = let! '(s, x) := f b in Ok (a ++ s, x).
Proof.
  intros -> ->. rewrite <- (app_nil_r b) at 1. rewrite onRange_app by done.
  destruct (f b) as [[s x]| |]; cbn [rbind]; [by rewrite app_nil_r|done..].
Qed.

(** The storage for a result of [n + k + 1] words, in three parts. *)
Lemma storage_split z n k :
  0 <= n -> 0 <= k -> exists a b e, nmake z (n + k + 1) = a ++ b ++ [e] /\ len a = n /\ len b = k.
Proof.
  intros Hn Hk. pose proof (len_nmake z (n + k + 1) ltac:(lia)) as Hl.
  destruct (slice_split (nmake z (n + k + 1)) n ltac:(lia)) as (a & r & E & Ha).
  rewrite E in Hl |- *. destruct (slice_split r k ltac:(len_lia)) as (b & c & -> & Hb).
  destruct c as [|e [|? ?]]; [len_lia| |len_lia]. eauto 10.
Qed.

Lemma len_eq_length {A} (a b : list A) : len a = len b -> length a = length b.
Proof. unfold len. lia. Qed.

(** ** Addition, subtraction, comparison *)

(** The carry passed to the words beyond the shorter operand. *)
Lemma addTail (b xt : list Z) c :
  len b = len xt -> words_ok xt -> 0 <= c <= 1 ->
  (if len xt >? 0 then addVW b (Vec xt) c else Ok (b, c)) ⇓ (fun '(t, c') =>
    nval t + weight (len xt) * c' = nval xt + c /\ words_ok t /\ len t = len xt /\ word_ok c').
Proof.
  intros Hb Hx Hc. pose proof B_pos. destruct (Z.gtb_spec (len xt) 0) as [Hp|Hz].
  - eapply returns_mono; [apply addVW_spec; [by apply len_eq_length|done|unfold word_ok; lia]|].
    cbn [words]. intros [t c'] (E & Hw & Hl & Hc'). rewrite Hb in E. unfold len in *. split; [done|]. split; [done|]. split; [lia|done].
  - assert (xt = []) as -> by (apply len_zero_inv; len_lia). assert (b = []) as -> by (by apply len_zero_inv).
    cbn [returns]. rewrite weight_0. cbn [val]. unfold word_ok. split; [lia|]. split; [constructor|]. split; [done|lia].
Qed.

Lemma tail_range (a b e xt : list Z) n m x c (f : list Z -> list Z -> res (list Z * Z)) :
  n = len a -> m = len a + len b -> slice x n m = Ok xt -> len b = len xt ->
  (if m >? n then (let! t := slice x n m in onRange (a ++ b ++ e) n m (f t)) else Ok (a ++ b ++ e, c))
  = let! '(s, k) := (if len xt >? 0 then f xt b else Ok (b, c)) in Ok (a ++ s ++ e, k).
Proof.
  intros -> -> Hs Hb. rewrite !Z.gtb_ltb. destruct (Z.ltb_spec (len a) (len a + len b)), (Z.ltb_spec 0 (len xt)); try lia.
  - rewrite Hs. cbn [rbind]. by rewrite onRange_app.
  - done.
Qed.

Lemma addLong_spec z x y :
  is_nat x -> is_nat y -> len y <= len x ->
  addLong z x y ⇓ (fun r => nval r = nval x + nval y /\ is_nat r).
Proof.
  intros Hx Hy Hl. unfold addLong. destruct (Z.eqb_spec (len x) 0) as [E|Ex].
  { apply len_zero_inv in E as ->. assert (y = []) as -> by (apply len_zero_inv; len_lia). split; [done|apply is_nat_nil]. }
  destruct (Z.eqb_spec (len y) 0) as [E|Ey].
  { apply len_zero_inv in E as ->. rewrite nset_eq. cbn [returns val]. split; [lia|done]. }
  destruct (slice_split x (len y) ltac:(len_lia)) as (xn & xt & -> & Hxn). destruct Hx as [Hxw _]. destruct Hy as [Hyw _].
  apply words_ok_app in Hxw as [Hxnw Hxtw]. rewrite slice_front by lia. cbn [rbind].
  destruct (storage_split z (len y) (len xt)) as (a & b & e & Ez & Ha & Hb); [len_lia..|].
  rewrite len_app, Hxn, Ez, onRange_front by lia.
  apply returns_bind, returns_bind.
  eapply returns_mono; [apply addVV_spec; [apply len_eq_length; cbn [words]; lia..|done|done]|].
  cbn [words]. intros [s c] (E1 & Hs & Hls & Hc). cbn [returns].
  assert (Hla : len s = len y) by (unfold len in *; lia).
  rewrite (tail_range s b [e] xt _ _ _ _ (fun t w => addVW w (Vec t) c)) by (try apply slice_back; lia).
  apply returns_bind, returns_bind. eapply returns_mono; [by apply addTail|].
  intros [t c'] (E2 & Ht & Hlt & Hc'). cbn [returns rbind]. rewrite app_assoc, upd_last by len_lia. cbn [rbind].
  pose proof B_pos. eapply returns_mono; [apply norm_spec|].
  - apply words_ok_app. split; [by apply words_ok_app|by constructor].
  - intros r (-> & Hr & _). split; [|done]. rewrite nval_snoc, !nval_app, len_app, weight_add by len_lia.
    rewrite Hla, Hlt, Hxn in *. rewrite Ha in E1. nia.
Qed.

Lemma nadd_spec z x y : is_nat x -> is_nat y -> nadd z x y ⇓ (fun r => nval r = nval x + nval y /\ is_nat r).
Proof.
  intros Hx Hy. unfold nadd. destruct (Z.ltb_spec (len x) (len y)).
  - eapply returns_mono; [apply addLong_spec; (done || lia)|]. intros r [-> Hr]. split; [lia|done].
  - by apply addLong_spec.
Qed.

Lemma subTail (b xt : list Z) c :
  len b = len xt -> words_ok xt -> 0 <= c <= 1 ->
  (if len xt >? 0 then subVW b (Vec xt) c else Ok (b, c)) ⇓ (fun '(t, c') =>
    nval t - weight (len xt) * c' = nval xt - c /\ words_ok t /\ len t = len xt /\ word_ok c').
Proof.
  intros Hb Hx Hc. pose proof B_pos. destruct (Z.gtb_spec (len xt) 0) as [Hp|Hz].
  - eapply returns_mono; [apply subVW_spec; [by apply len_eq_length|done|unfold word_ok; lia]|].
    cbn [words]. intros [t c'] (E & Hw & Hl & Hc'). rewrite Hb in E. unfold len in *. split; [done|]. split; [done|]. split; [lia|done].
  - assert (xt = []) as -> by (apply len_zero_inv; len_lia). assert (b = []) as -> by (by apply len_zero_inv).
    cbn [returns]. rewrite weight_0. cbn [val]. unfold word_ok. split; [lia|]. split; [constructor|]. split; [done|lia].
Qed.

Lemma storage_split2 z n k :
  0 <= n -> 0 <= k -> exists a b, nmake z (n + k) = a ++ b /\ len a = n /\ len b = k.
Proof.
  intros Hn Hk. pose proof (len_nmake z (n + k) ltac:(lia)) as Hl.
  destruct (slice_split (nmake z (n + k)) n ltac:(lia)) as (a & b & E & Ha).
  exists a, b. rewrite E, len_app in *. split; [done|]. lia.
Qed.

Lemma nsub_spec z x y :
  is_nat x -> is_nat y ->
  if nval x <? nval y then nsub z x y = Panic
  else nsub z x y ⇓ (fun r => nval r = nval x - nval y /\ is_nat r).
Proof.
  intros Hx Hy. unfold nsub. destruct (Z.ltb_spec (len x) (len y)) as [Hlt|Hle].
  { pose proof (shorter_less x y Hx Hy Hlt). by rewrite (proj2 (Z.ltb_lt _ _)). }
  destruct (Z.eqb_spec (len x) 0) as [E|Ex].
  { apply len_zero_inv in E as ->. assert (y = []) as -> by (apply len_zero_inv; len_lia).
    cbn [val]. rewrite Z.ltb_irrefl. split; [done|apply is_nat_nil]. }
  destruct (Z.eqb_spec (len y) 0) as [E|Ey].
  { apply len_zero_inv in E as ->. rewrite nset_eq. cbn [val]. pose proof (nval_bound x (proj1 Hx)).
    rewrite (proj2 (Z.ltb_ge _ 0)) by lia. cbn [returns]. split; [lia|done]. }
  destruct (slice_split x (len y) ltac:(len_lia)) as (xn & xt & -> & Hxn). destruct Hx as [Hxw _]. destruct Hy as [Hyw _].
  pose proof Hxw as Hxw0. apply words_ok_app in Hxw as [Hxnw Hxtw]. rewrite slice_front by lia. cbn [rbind].
  destruct (storage_split2 z (len y) (len xt)) as (a & b & Ez & Ha & Hb); [len_lia..|].
  rewrite len_app, Hxn, Ez, onRange_front by lia.
  destruct (returns_inv _ _ (subVV_spec a (Vec xn) (Vec y) (len_eq_length xn a ltac:(lia)) (len_eq_length y a ltac:(lia)) Hxnw Hyw))
    as ([s c] & -> & E1 & Hs & Hls & Hc). cbn [rbind words] in *.
  assert (Hla : len s = len y) by (unfold len in *; lia). rewrite <- (app_nil_r b).
  rewrite (tail_range s b [] xt _ _ _ _ (fun t w => subVW w (Vec t) c)) by (try apply slice_back; lia).
  destruct (returns_inv _ _ (subTail b xt c Hb Hxtw Hc)) as ([t c'] & -> & E2 & Ht & Hlt & Hc'). cbn [rbind].
  rewrite app_nil_r. assert (Hst : words_ok (s ++ t)) by (by apply words_ok_app).
  pose proof (nval_bound _ Hst) as Hb1.
  assert (E : nval (s ++ t) - weight (len (s ++ t)) * c' = nval (xn ++ xt) - nval y).
  { rewrite !nval_app, len_app, weight_add by len_lia. rewrite Hla, Hlt, Hxn in *. rewrite Ha in E1. nia. }
  destruct (Z.eqb_spec c' 0) as [->|Hne]; cbn [negb].
  - rewrite (proj2 (Z.ltb_ge _ _)) by lia. eapply returns_mono; [by apply norm_spec|].
    intros r (-> & Hr & _). split; [lia|done].
  - rewrite (proj2 (Z.ltb_lt _ _)); [done|]. unfold word_ok in *. nia.
Qed.

(** *** Comparison *)

Definition sign (a b : Z) : Z := if a <? b then -1 else if a >? b then 1 else 0.

Lemma sign_lt a b : a < b -> sign a b = -1.
Proof. intros. unfold sign. by rewrite (proj2 (Z.ltb_lt a b)). Qed.
Lemma sign_gt a b : b < a -> sign a b = 1.
Proof. intros. unfold sign. by rewrite (proj2 (Z.ltb_ge a b)), Z.gtb_ltb, (proj2 (Z.ltb_lt b a)) by lia. Qed.

(** The highest words that differ decide. *)
Lemma lead_less p p' a b t :
  len p = len p' -> words_ok p -> words_ok p' -> a < b -> nval (p ++ a :: t) < nval (p' ++ b :: t).
Proof.
  intros Hl Hp Hp' Hab. rewrite !nval_app, !nval_cons, Hl. pose proof (nval_bound p Hp). pose proof (nval_bound p' Hp').
  pose proof (weight_pos (len p') (len_nonneg p')). rewrite Hl in *. nia.
Qed.

(** Vectors of the same length, leading zeros or not. *)
Lemma cmp_words x y : words_ok x -> words_ok y -> len x = len y -> cmp x y = Ok (sign (nval x) (nval y)).
Proof.
  intros Hx Hy El. unfold cmp. rewrite (proj2 (Z.eqb_eq _ _) El). cbn [negb orb].
  destruct (Z.eqb_spec (len x) 0) as [E0|E0].
  { rewrite El in E0. apply len_zero_inv in E0 as ->. rewrite El. apply len_zero_inv in El as ->. done. }
  apply len_eq_length in El as El'.
  set (Q := fun i => 0 <= i < len x /\ drop (Z.to_nat i + 1) x = drop (Z.to_nat i + 1) y).
  match goal with |- context [loop ?f ?g ?i0] =>
    assert (L : loop f g i0 ⇓ (fun i => Q i /\ (i = 0 \/ x !! Z.to_nat i <> y !! Z.to_nat i))) end.
  { apply (loop_returns Q (fun i => i)).
    2: { split; [len_lia|]. rewrite !drop_ge by (unfold len in *; lia). done. }
    2,3: unfold len in *; lia.
    intros i [Hi Hd]. destruct (Z.gtb_spec i 0) as [Hp|]; [|cbn; split; [done|left; lia]].
    destruct (lookup_lt_is_Some_2 x (Z.to_nat i)) as [a Ha]; [unfold len in *; lia|].
    destruct (lookup_lt_is_Some_2 y (Z.to_nat i)) as [b Hb]; [unfold len in *; lia|].
    rewrite (idx_Ok x i a), (idx_Ok y i b) by (done || lia). cbn [rbind].
    destruct (Z.eqb_spec a b) as [->|Hne]; cbn [returns].
    - split; [|lia]. split; [lia|]. replace (Z.to_nat (i - 1) + 1)%nat with (Z.to_nat i) by lia.
      rewrite (drop_cons_lookup _ _ _ Ha), (drop_cons_lookup _ _ _ Hb). f_equal.
      by rewrite <- Nat.add_1_r.
    - split; [done|]. right. rewrite Ha, Hb. congruence. }
  apply returns_inv in L as (i & -> & [Hi Hd] & Hend). cbn [rbind].
  destruct (lookup_lt_is_Some_2 x (Z.to_nat i)) as [a Ha]; [unfold len in *; lia|].
  destruct (lookup_lt_is_Some_2 y (Z.to_nat i)) as [b Hb]; [unfold len in *; lia|].
  rewrite (idx_Ok x i a), (idx_Ok y i b) by (done || lia). cbn [rbind]. f_equal. change (sign a b = sign (nval x) (nval y)).
  pose proof (take_drop_middle x _ a Ha) as Ex. pose proof (take_drop_middle y _ b Hb) as Ey.
  rewrite Nat.add_1_r in Hd. rewrite <- Hd in Ey.
  assert (Hpl : len (take (Z.to_nat i) x) = len (take (Z.to_nat i) y)) by (unfold len; rewrite !length_take; lia).
  assert (words_ok (take (Z.to_nat i) x) /\ words_ok (take (Z.to_nat i) y)) as [Hxp Hyp] by (split; by apply Forall_take).
  destruct (Z.lt_trichotomy a b) as [H|[->|H]].
  - rewrite !sign_lt; [done| |done]. rewrite <- Ex, <- Ey. by apply lead_less.
  - destruct Hend as [-> | Hne]; [|congruence]. rewrite <- Ex, <- Ey. unfold sign. by rewrite !take_0, !Z.ltb_irrefl, !Z.gtb_ltb, !Z.ltb_irrefl.
  - rewrite !sign_gt; [done| |done]. rewrite <- Ex, <- Ey. by apply lead_less.
Qed.

Lemma cmp_spec x y : is_nat x -> is_nat y -> cmp x y = Ok (sign (nval x) (nval y)).
Proof.
  intros Hx Hy. destruct (decide (len x = len y)) as [El|El]; [apply cmp_words; [apply Hx|apply Hy|done]|].
  unfold cmp. rewrite (proj2 (Z.eqb_neq _ _) El). cbn [negb orb].
  destruct (Z.lt_gt_cases (len x) (len y)) as [[H|H] _]; [done| |].
  - rewrite (proj2 (Z.ltb_lt _ _)) by done. by rewrite sign_lt by (by apply shorter_less).
  - rewrite (proj2 (Z.ltb_ge _ _)), Z.gtb_ltb, (proj2 (Z.ltb_lt _ _)) by lia. by rewrite sign_gt by (by apply shorter_less).
Qed.

(** ** Multiplication *)

Lemma setWord_spec z x : word_ok x -> setWord z x ⇓ (fun r => nval r = x /\ is_nat r).
Proof.
  intros Hx. unfold setWord. destruct (Z.eqb_spec x 0) as [->|Hne]; [split; [done|apply is_nat_nil]|].
  pose proof (len_nmake z 1 ltac:(lia)) as Hl. destruct (nmake z 1) as [|w [|? ?]]; [len_lia| |len_lia].
  change (upd [w] 0 x) with (Ok [x]). cbn [returns val]. split; [lia|].
  split; [by constructor|]. by apply (normal_snoc []).
Qed.

Lemma mulAddWW_spec z x y r :
  words_ok x -> word_ok y -> word_ok r -> mulAddWW z x y r ⇓ (fun p => nval p = nval x * y + r /\ is_nat p).
Proof.
  intros Hx Hy Hr. unfold mulAddWW. destruct ((len x =? 0) || (y =? 0)) eqn:E.
  { eapply returns_mono; [by apply setWord_spec|]. intros p [-> Hp]. split; [|done].
    apply orb_true_iff in E as [E%Z.eqb_eq|E%Z.eqb_eq]; [apply len_zero_inv in E as ->; cbn [val]; lia|lia]. }
  destruct (storage_split2 z (len x) 1) as (a & b & -> & Ha & Hb); [len_lia..|].
  destruct b as [|e [|? ?]]; [len_lia| |len_lia]. rewrite onRange_front by lia.
  apply returns_bind, returns_bind.
  eapply returns_mono; [apply mulAddVWW_spec; [apply len_eq_length; cbn [words]; lia|done..]|].
  cbn [words]. intros [s c] (E1 & Hs & Hls & Hc). cbn [returns].
  assert (Hla : len s = len x) by (unfold len in *; lia). rewrite upd_last by lia. cbn [rbind].
  eapply returns_mono; [apply norm_spec, words_ok_app; split; [done|by constructor]|].
  intros p (-> & Hp & _). split; [|done]. rewrite nval_snoc, Hla. rewrite Ha in E1. lia.
Qed.

Lemma basicMul_spec z x y :
  words_ok x -> words_ok y -> len z = len x + len y ->
  basicMul z x y ⇓ (fun p => nval p = nval x * nval y /\ words_ok p /\ len p = len x + len y).
Proof.
  intros Hx Hy Hz. unfold basicMul. rewrite <- (app_nil_r z) at 1. rewrite onRange_front by done. cbn [rbind].
  rewrite app_nil_r, Hz.
  apply (loop_returns (fun '(w, i) => 0 <= i <= len y /\ exists p, w = p ++ zeros (len y - i) /\
      len p = len x + i /\ words_ok p /\ nval p = nval x * nval (take (Z.to_nat i) y)) (fun '(w, i) => len y - i)).
  2: { split; [len_lia|]. exists (zeros (len x)). unfold zeros. rewrite <- replicate_add, Z.sub_0_r, len_replicate.
       split; [f_equal; len_lia|]. split; [len_lia|]. split; [apply words_ok_zeros|]. rewrite nval_zeros, take_0. cbn [val]. lia. }
  2,3: unfold len; lia.
  intros [w i] (Hi & p & -> & Hlp & Hp & Ep). destruct (Z.ltb_spec i (len y)) as [Hlt|Hge].
  2: { cbn [returns]. replace (len y - i) with 0 by lia. cbn. rewrite app_nil_r. rewrite Ep, take_ge by (unfold len in *; lia). split; [done|]. split; [done|lia]. }
  destruct (lookup_lt_is_Some_2 y (Z.to_nat i)) as [d Hd]; [unfold len in *; lia|].
  rewrite (idx_Ok y i d) by (done || lia). cbn [rbind].
  assert (Hdw : word_ok d) by (by eapply (Forall_lookup_1 _ y)).
  assert (Ez : zeros (len y - i) = 0 :: zeros (len y - (i + 1))).
  { unfold zeros. replace (Z.to_nat (len y - i)) with (S (Z.to_nat (len y - (i + 1)))) by lia. done. }
  assert (Ey : nval (take (Z.to_nat (i + 1)) y) = nval (take (Z.to_nat i) y) + weight i * d).
  { replace (Z.to_nat (i + 1)) with (S (Z.to_nat i)) by lia. rewrite (take_S_r _ _ _ Hd), nval_snoc.
    do 2 f_equal. unfold len in *. rewrite length_take. f_equal. lia. }
  rewrite Ez. pose proof B_pos. destruct (Z.eqb_spec d 0) as [->|Hne]; cbn [negb returns].
  { split; [|lia]. split; [lia|]. exists (p ++ [0]). rewrite <- app_assoc, Ey, nval_snoc. split; [done|].
    split; [len_lia|]. split; [apply words_ok_app; split; [done|constructor; [lia|constructor]]|lia]. }
  destruct (slice_split p i ltac:(len_lia)) as (lo & hi & -> & Hlo). apply words_ok_app in Hp as [Hlow Hhiw].
  rewrite len_app in Hlp. rewrite <- app_assoc, onRange_app by lia. apply returns_bind, returns_bind.
  eapply returns_mono; [apply addMulVVWW_spec; cbn [words]; try done; [apply len_eq_length; lia|unfold word_ok; lia]|].
  cbn [words]. intros [s c] (E1 & Hs & Hls & Hc). cbn [returns]. assert (Hla : len s = len x) by (unfold len in *; lia).
  rewrite app_assoc, upd_app by len_lia. cbn [rbind returns]. split; [|lia]. split; [lia|].
  exists ((lo ++ s) ++ [c]). rewrite <- (app_assoc (lo ++ s)). split; [done|]. split; [len_lia|].
  split; [apply words_ok_app; split; [by apply words_ok_app|by constructor]|].
  rewrite nval_snoc, nval_app, len_app, weight_add, Ey by len_lia. rewrite nval_app in Ep.
  rewrite Hlo, Hla in *. replace (len hi) with (len x) in E1 by lia. nia.
Qed.

(** ** Shifts *)

Lemma pow_split s : 0 <= s -> 2 ^ s = weight (s / _W) * 2 ^ (s mod _W).
Proof.
  intros Hs. pose proof W_pos. unfold weight. assert (0 <= s mod _W < _W) by (apply Z.mod_pos_bound; lia).
  assert (0 <= s / _W) by (apply Z.div_pos; lia). rewrite <- Z.pow_add_r by nia. f_equal. apply Z.div_mod. lia.
Qed.

(** The words of [x] shifted by less than a word. *)
Lemma shifted_words b x s :
  len b = len x -> words_ok x -> 0 <= s < _W ->
  (if s =? 0 then Ok (copyAll b (Vec x), 0) else lshVU b (Vec x) s) ⇓ (fun '(w, c) =>
    nval w + weight (len x) * c = nval x * 2 ^ s /\ words_ok w /\ len w = len x /\ word_ok c).
Proof.
  intros Hb Hx Hs. pose proof B_pos. destruct (Z.eqb_spec s 0) as [->|Hne].
  - unfold copyAll, copyFrom. change (Z.to_nat 0) with 0%nat. rewrite take_0, drop_0. cbn [returns app].
    change (2 ^ 0) with 1. unfold word_ok. split; [lia|]. split; [done|]. split; [done|lia].
  - eapply returns_mono; [apply lshVU_spec; [by apply len_eq_length|done|lia]|]. cbn [words].
    intros [w c] (E & Hw & Hl & Hc). rewrite Hb in E. assert (2 ^ s < B) by (apply Z.pow_lt_mono_r; lia).
    unfold word_ok, len in *. split; [done|]. split; [done|]. split; lia.
Qed.

Lemma lsh_spec z x s :
  is_nat x -> 0 <= s -> lsh z x s ⇓ (fun r => nval r = nval x * 2 ^ s /\ is_nat r).
Proof.
  intros Hx Hs. unfold lsh. destruct (Z.eqb_spec s 0) as [->|Hs0].
  { rewrite nset_eq. cbn [returns]. change (2 ^ 0) with 1. split; [lia|done]. }
  destruct (Z.eqb_spec (len x) 0) as [E|E]; [apply len_zero_inv in E as ->; split; [done|apply is_nat_nil]|].
  pose proof W_pos. pose proof (pow_split s Hs) as EP.
  assert (Hk : 0 <= s / _W) by (apply Z.div_pos; lia).
  assert (Hr : 0 <= s mod _W < _W) by (apply Z.mod_pos_bound; lia).
  revert EP Hk Hr. generalize (s / _W) (s mod _W). intros k r EP Hk Hr. rewrite EP.
  replace (len x + k + 1) with (k + len x + 1) by lia. replace (len x + k - len x) with k by lia.
  destruct (storage_split z k (len x)) as (a & b & e & -> & Ha & Hb); [lia|len_lia|].
  destruct (returns_inv _ _ (shifted_words b x r Hb (proj1 Hx) Hr)) as ([w c] & Ew & Ev & Hw & Hlw & Hc).
  match goal with |- rbind ?m _ ⇓ _ => assert (Em : m = Ok (a ++ w ++ [c])) end.
  { destruct (Z.eqb_spec r 0) as [->|Hr0]; rewrite onRange_app by lia.
    - assert (copyAll b (Vec x) = w /\ c = 0) as [-> ->] by (by injection Ew).
      cbn [rbind]. rewrite app_assoc, upd_last by len_lia. by rewrite <- app_assoc.
    - rewrite Ew. cbn [rbind]. rewrite app_assoc, upd_last by len_lia. by rewrite <- app_assoc. }
  rewrite Em.
  cbn [rbind]. rewrite onRange_front by lia. cbn [rbind].
  eapply returns_mono; [apply norm_spec|].
  - apply words_ok_app. split; [apply words_ok_zeros|]. apply words_ok_app. split; [done|by constructor].
  - intros p (-> & Hp & _). split; [|done]. unfold zeros. rewrite !nval_app, nval_zeros, len_replicate, Hlw.
    cbn [val]. rewrite Ha. rewrite Z2Nat.id by lia. nia.
Qed.

Lemma rsh_spec z x s :
  is_nat x -> 0 <= s -> rsh z x s ⇓ (fun r => nval r = nval x / 2 ^ s /\ is_nat r).
Proof.
  intros Hx Hs. unfold rsh. destruct (Z.eqb_spec s 0) as [->|Hs0].
  { rewrite nset_eq. cbn [returns]. change (2 ^ 0) with 1. rewrite Z.div_1_r. done. }
  pose proof W_pos. pose proof (pow_split s Hs) as EP.
  assert (Hk : 0 <= s / _W) by (apply Z.div_pos; lia).
  assert (Hr : 0 <= s mod _W < _W) by (apply Z.mod_pos_bound; lia).
  revert EP Hk Hr. generalize (s / _W) (s mod _W). intros k r EP Hk Hr. rewrite EP.
  pose proof (pow_pos r ltac:(lia)) as Hpr. pose proof (weight_pos k Hk) as Hwk. destruct Hx as [Hxw Hxn].
  destruct (Z.leb_spec (len x - k) 0) as [Hle|Hgt].
  { cbn [returns val]. split; [|apply is_nat_nil]. symmetry. apply Z.div_small. pose proof (nval_bound x Hxw).
    assert (weight (len x) <= weight k) by (apply weight_le; len_lia). nia. }
  destruct (slice_split x k ltac:(len_lia)) as (xl & xh & -> & Hxl). apply words_ok_app in Hxw as [Hxlw Hxhw].
  rewrite len_app in *. replace (len xl + len xh - (len xl + len xh - k)) with k by lia.
  replace (len xl + len xh - k) with (len xh) by lia. rewrite slice_back by lia. cbn [rbind].
  pose proof (len_nmake z (len xh) ltac:(len_lia)) as Hl.
  assert (Ediv : nval (xl ++ xh) / (weight k * 2 ^ r) = nval xh / 2 ^ r).
  { rewrite <- Z.div_div by lia. f_equal. rewrite nval_app, Hxl. symmetry. pose proof (nval_bound xl Hxlw). rewrite Hxl in *.
    apply (Z.div_unique _ _ _ (nval xl)); lia. }
  rewrite Ediv. apply returns_bind. destruct (Z.eqb_spec r 0) as [->|Hr0].
  - cbn [returns]. unfold copyAll, copyFrom. change (Z.to_nat 0) with 0%nat. rewrite take_0, drop_0. cbn [app].
    eapply returns_mono; [by apply norm_spec|]. intros p (-> & Hp & _). change (2 ^ 0) with 1. by rewrite Z.div_1_r.
  - apply returns_bind. eapply returns_mono; [apply rshVU_spec; [cbn [words]; apply len_eq_length; lia|done|lia]|].
    cbn [words]. intros [w c] (E & Hw & _). cbn [returns]. eapply returns_mono; [by apply norm_spec|].
    intros p (-> & Hp & _). done.
Qed.

(** ** Bits *)

Lemma bitlen_smear a k : 0 <= a -> 0 <= k -> bitlen (Z.lor a (Z.shiftr a k)) = bitlen a /\ 0 <= Z.lor a (Z.shiftr a k).
Proof.
  intros Ha Hk. assert (Hs : 0 <= Z.shiftr a k) by (by apply Z.shiftr_nonneg).
  assert (Hl : 0 <= Z.lor a (Z.shiftr a k)) by (by apply Z.lor_nonneg). split; [|done].
  unfold bitlen. destruct (Z.eqb_spec a 0) as [->|Hne]; [by rewrite Z.shiftr_0_l|].
  rewrite (proj2 (Z.eqb_neq _ 0)) by (intros E; apply Z.lor_eq_0_iff in E; lia). f_equal.
  rewrite Z.log2_lor by done. apply Z.max_l. apply Z.log2_le_mono. rewrite shiftr_div by done.
  pose proof (pow_pos k Hk). apply Z.div_le_upper_bound; nia.
Qed.

Lemma Len_word x : word_ok x -> Len _W x = Ok (bitlen x).
Proof.
  intros Hx. unfold word_ok, Len in *. destruct _W_ok as [E|E]; rewrite E in *; cbn [Z.eqb Pos.eqb].
  - by rewrite u32_id, Len32_bitlen by lia.
  - by rewrite u64_id, Len64_bitlen by lia.
Qed.

Lemma bitlen_range x : 0 <= x -> bitlen x <= _W -> word_ok x.
Proof.
  intros Hx Hb. split; [done|]. destruct (decide (x = 0)) as [->|]; [pose proof B_pos; lia|].
  destruct (bitlen_bounds x) as [_ H]; [lia|]. pose proof W_pos.
  assert (2 ^ bitlen x <= B) by (apply Z.pow_le_mono_r; lia). lia.
Qed.

Lemma bitlen_high lo d k : 0 <= lo < 2 ^ k -> 0 < d -> 0 <= k -> bitlen (lo + 2 ^ k * d) = k + bitlen d.
Proof.
  intros Hlo Hd Hk. rewrite (bitlen_shiftr (lo + 2 ^ k * d) k) by nia. do 2 f_equal. rewrite shiftr_div by done.
  symmetry. apply (Z.div_unique _ _ _ lo); lia.
Qed.

Lemma bitLen_spec x : is_nat x -> bitLen x = Ok (bitlen (nval x)).
Proof.
  intros [Hw Hn]. unfold bitLen. destruct (decide (x = [])) as [->|Hx]; [done|].
  destruct (exists_last Hx) as (l & d & ->). rewrite len_app. change (len [d]) with 1.
  replace (len l + 1 - 1) with (len l) by lia. rewrite Z.geb_leb, (proj2 (Z.leb_le 0 _)) by len_lia.
  rewrite idx_app by done. cbn [rbind]. apply words_ok_app in Hw as [Hl Hd]. apply Forall_cons_1 in Hd as [Hd _].
  pose proof (Hn l d eq_refl).
  destruct (bitlen_smear d 1) as [E1 P1]; [lia..|]. set (t1 := Z.lor d _) in *. clearbody t1.
  destruct (bitlen_smear t1 2) as [E2 P2]; [lia..|]. set (t2 := Z.lor t1 _) in *. clearbody t2.
  destruct (bitlen_smear t2 4) as [E3 P3]; [lia..|]. set (t3 := Z.lor t2 _) in *. clearbody t3.
  destruct (bitlen_smear t3 8) as [E4 P4]; [lia..|]. set (t4 := Z.lor t3 _) in *. clearbody t4.
  destruct (bitlen_smear t4 16) as [E5 P5]; [lia..|]. set (t5 := Z.lor t4 _) in *. clearbody t5.
  rewrite Z.shiftr_shiftr by lia. change (16 + 16) with 32.
  destruct (bitlen_smear t5 32) as [E6 P6]; [lia..|]. set (t6 := Z.lor t5 _) in *. clearbody t6.
  rewrite E5, E4, E3, E2, E1 in E6.
  rewrite Len_word; [|apply bitlen_range; [done|rewrite E6; pose proof W_pos; apply bitlen_le; lia]].
  cbn [rbind]. rewrite E6. f_equal. rewrite nval_snoc. unfold weight. pose proof (nval_bound l Hl). pose proof W_pos.
  rewrite bitlen_high by (unfold weight in *; len_facts; nia). lia.
Qed.

Lemma bit_spec x i : words_ok x -> 0 <= i -> bit x i = Ok (Z.b2z (Z.testbit (nval x) i)).
Proof.
  intros Hw Hi. unfold bit. pose proof W_pos. pose proof (pow_split i Hi) as EP.
  assert (Hk : 0 <= i / _W) by (apply Z.div_pos; lia).
  assert (Hr : 0 <= i mod _W < _W) by (apply Z.mod_pos_bound; lia).
  rewrite Z.testbit_spec' by done. rewrite EP. revert EP Hk Hr. generalize (i / _W) (i mod _W). intros k r EP Hk Hr.
  pose proof (weight_pos k Hk) as Hwk. pose proof (pow_pos r ltac:(lia)) as Hpr.
  destruct (Z.geb_spec k (len x)) as [Hge|Hlt].
  - pose proof (nval_bound x Hw). assert (weight (len x) <= weight k) by (apply weight_le; len_lia).
    rewrite Z.div_small by nia. done.
  - destruct (slice_split x k ltac:(len_lia)) as (lo & hi & -> & Hlo). destruct hi as [|w hi]; [len_lia|].
    rewrite idx_app by done. cbn [rbind]. f_equal. rewrite (land_ones' _ 1) by (lia || done). change (2 ^ 1) with 2.
    rewrite shiftr_div by lia. apply words_ok_app in Hw as [Hlow Hhi]. pose proof (nval_bound lo Hlow). rewrite Hlo in *.
    rewrite <- Z.div_div by lia. rewrite nval_app, Hlo, nval_cons.
    assert ((nval lo + weight k * (w + B * nval hi)) / weight k = w + B * nval hi) as ->
      by (symmetry; apply (Z.div_unique _ _ _ (nval lo)); lia).
    rewrite (B_split r) by lia. rewrite <- Z.mul_assoc, (Z.mul_comm (2 ^ r)), Z.div_add by lia.
    replace (_W - r) with (1 + (_W - r - 1)) by lia. rewrite Z.pow_add_r by lia. change (2 ^ 1) with 2.
    rewrite <- Z.mul_assoc, (Z.mul_comm 2), Z_mod_plus_full. done.
Qed.
End Correct.
