(* ===== verification/BigMul.v ===== *)
(** * Package math/big: multiplication (model)

    The functions of src/math/big/natmul.go over the vectors and the natural
    numbers of BigWords.v and BigNat.v: schoolbook multiplication below
    [karatsubaThreshold] words, Karatsuba's above, and the squarings; with
    addTo of nat.go and the type Int of int.go with the additions Karatsuba's
    multiplication needs.  [scratch n] stands for the contents of the [n] words
    that stack.nat returns.  A number that the code keeps in a part of [z] only
    until it clears [z] is a value here; the storage of the two products that
    remain in [z] is explicit ([into]).

    mul and karatsuba call each other on shorter operands: each takes the
    function it calls as an argument, and [nmul] ties the knot with as much
    fuel as the operands have words. *)
From Stdlib Require Import ZArith Lia.
From stdpp Require Import base numbers list.
From S2P Require Import Prelude Bits BigWords BigNat.

(** An integer: its sign, and the words of its absolute value. *)
Record Int := mkInt { neg : bool; abs : list Z }.

Section Mul.
Context `{P : Platform}.

(** addTo: [z += x], in place. *)
Definition addTo (z x : list Z) : res (list Z) :=
  let n := len x in
  if n >? 0 then
    let! '(z, c) := onRange z 0 n (fun s => addVV s Same (Vec x)) in
    if negb (c =? 0) then
      if n <? len z then
        let! '(z, _) := onRange z n (len z) (fun s => addVW s Same c) in
        Ok z
      else Ok z
    else Ok z
  else Ok z.

(** [addTo(z[i:], x)] *)
Definition addToAt (z : list Z) (i : Z) (x : list Z) : res (list Z) :=
  let! '(z, _) := onRange z i (len z) (fun s => let! s := addTo s x in Ok (s, tt)) in
  Ok z.

(** ** Signed addition *)

Definition IntAdd (z : list Z) (x y : Int) : res Int :=
  let! '(a, ng) :=
    if eqb (neg x) (neg y) then
      let! a := nadd z (abs x) (abs y) in
      Ok (a, neg x)
    else
      let! c := cmp (abs x) (abs y) in
      if c >=? 0 then
        let! a := nsub z (abs x) (abs y) in
        Ok (a, neg x)
      else
        let! a := nsub z (abs y) (abs x) in
        Ok (a, negb (neg x)) in
  Ok (mkInt ((len a >? 0) && ng) a).

Definition IntSub (z : list Z) (x y : Int) : res Int :=
  let! '(a, ng) :=
    if negb (eqb (neg x) (neg y)) then
      let! a := nadd z (abs x) (abs y) in
      Ok (a, neg x)
    else
      let! c := cmp (abs x) (abs y) in
      if c >=? 0 then
        let! a := nsub z (abs x) (abs y) in
        Ok (a, neg x)
      else
        let! a := nsub z (abs y) (abs x) in
        Ok (a, negb (neg x)) in
  Ok (mkInt ((len a >? 0) && ng) a).

(** ** Karatsuba's multiplication *)

Definition karatsubaThreshold : Z := 40.
Definition basicSqrThreshold : Z := 12.
Definition karatsubaSqrThreshold : Z := 80.

(** A normalized part of a vector, as a number. *)
Definition part (x : list Z) (i j : Z) : res Int :=
  let! s := slice x i j in
  let! s := norm s in
  Ok (mkInt false s).

(** A product stored in the cleared part [i:j] of [z]: its words, then zeros,
    some of which the multiplication wrote and norm dropped. *)
Definition into (z : list Z) (i j : Z) (f : list Z -> res Int) : res (list Z * Int) :=
  onRange z i j (fun s =>
    let! r := f s in
    Ok (abs r ++ zeros (len s - len (abs r)), r)).

Section Open.
Context (scratch : Z -> list Z).
Context (mul : list Z -> list Z -> list Z -> res (list Z)).
Context (sqr : list Z -> list Z -> res (list Z)).

(** Int.mul of two distinct numbers, and of a number by itself. *)
Definition IntMul (z : list Z) (x y : Int) : res Int :=
  let! a := mul z (abs x) (abs y) in
  Ok (mkInt ((len a >? 0) && negb (eqb (neg x) (neg y))) a).

Definition IntSqr (z : list Z) (x : Int) : res Int :=
  let! a := sqr z (abs x) in
  Ok (mkInt false a).

Definition karatsuba (z x y : list Z) : res (list Z) :=
  let n := len y in
  if negb (len x =? n) || negb (len z =? 2 * n) then Panic else
  if (n <? karatsubaThreshold) || (n <? 2) then basicMul z x y else
  let n2 := (n + 1) / 2 in
  let! x0 := part x 0 n2 in
  let! x1 := part x n2 n in
  let! y0 := part y 0 n2 in
  let! y1 := part y n2 n in
  let! t1 := slice z 0 n2 in
  let! t2 := slice z n2 (2 * n2) in
  let! tx := IntSub t1 x0 x1 in
  let! ty := IntSub t2 y1 y0 in
  let! z1 := IntMul (scratch (2 * n2 + 1)) tx ty in
  let z := zeros (len z) in
  let! '(z, z0) := into z 0 (2 * n2) (fun s => IntMul s x0 y0) in
  let! '(z, z2) := into z (2 * n2) (len z) (fun s => IntMul s x1 y1) in
  let! z1 := IntAdd (abs z1) z1 z0 in
  let! z1 := IntAdd (abs z1) z1 z2 in
  addToAt z n2 (abs z1).

(** The sections of [x] above its first [n] words, multiplied by [y] and
    added to [z]. *)
Definition mulSections (z x y : list Z) : res (list Z) :=
  let m := len x in
  let n := len y in
  loop (S (length x))
    (fun '(z, t, i) =>
       if i <? m then
         let! xi := slice x i (Z.min (i + n) (len x)) in
         let! t := mul t xi y in
         let! z := addToAt z i t in
         Ok (inl (z, t, i + n))
       else Ok (inr z)) (z, scratch (2 * n), n).

(** mul, of operands of which the first is not the shorter one. *)
Definition mulLong (z x y : list Z) : res (list Z) :=
  let m := len x in
  let n := len y in
  if (m =? 0) || (n =? 0) then Ok [] else
  if n =? 1 then (let! y0 := idx y 0 in mulAddWW z x y0 0) else
  let z := nmake z (m + n) in
  if n <? karatsubaThreshold then
    let! z := basicMul z x y in
    norm z
  else
  let! xn := slice x 0 n in
  let! '(z, _) := onRange z 0 (2 * n) (fun s => let! s := karatsuba s xn y in Ok (s, tt)) in
  let! z :=
    if n <? m then
      let! '(z, _) := onRange z (2 * n) (len z) (fun s => Ok (zeros (len s), tt)) in
      mulSections z x y
    else Ok z in
  norm z.

Definition mulStep (z x y : list Z) : res (list Z) :=
  if len x <? len y then mulLong z y x else mulLong z x y.

(** ** Squaring *)

Definition basicSqr (z x : list Z) : res (list Z) :=
  let n := len x in
  if n <? basicSqrThreshold then basicMul z x x else
  let t := zeros (2 * n) in
  let! x0 := idx x 0 in
  let '(hi, lo) := mulWW x0 x0 in
  let! z := upd z 1 hi in
  let! z := upd z 0 lo in
  let! '(z, t) :=
    loop (S (length x))
      (fun '(z, t, i) =>
         if i <? n then
           let! d := idx x i in
           let '(hi, lo) := mulWW d d in
           let! z := upd z (2 * i + 1) hi in
           let! z := upd z (2 * i) lo in
           let! xi := slice x 0 i in
           let! '(t, c) := onRange t i (2 * i) (fun s => addMulVVWW s Same (Vec xi) d 0) in
           let! t := upd t (2 * i) c in
           Ok (inl (z, t, i + 1))
         else Ok (inr (z, t))) (z, t, 1) in
  let! '(t, c) := onRange t 1 (2 * n - 1) (fun s => lshVU s Same 1) in
  let! t := upd t (2 * n - 1) c in
  let! '(z, _) := addVV z Same (Vec t) in
  Ok z.

Definition karatsubaSqr (z x : list Z) : res (list Z) :=
  let n := len x in
  if negb (len z =? 2 * n) then Panic else
  if (n <? karatsubaSqrThreshold) || (n <? 2) then basicSqr z x else
  let n2 := (n + 1) / 2 in
  let! x0 := part x 0 n2 in
  let! x1 := part x n2 n in
  let! t1 := slice z 0 n2 in
  let! tx := IntSub t1 x0 x1 in
  let! a := sqr (scratch (2 * n2 + 1)) (abs tx) in
  let z1 := mkInt true a in
  let z := zeros (len z) in
  let! '(z, z0) := into z 0 (2 * n2) (fun s => IntSqr s x0) in
  let! '(z, z2) := into z (2 * n2) (len z) (fun s => IntSqr s x1) in
  let! z1 := IntAdd (abs z1) z1 z0 in
  let! z1 := IntAdd (abs z1) z1 z2 in
  addToAt z n2 (abs z1).

Definition sqrStep (z x : list Z) : res (list Z) :=
  let n := len x in
  if n =? 0 then Ok [] else
  if n =? 1 then
    let! d := idx x 0 in
    let z := nmake z 2 in
    let '(hi, lo) := mulWW d d in
    let! z := upd z 1 hi in
    let! z := upd z 0 lo in
    norm z
  else
  let z := nmake z (2 * n) in
  if (n <? basicSqrThreshold) && (n <? karatsubaSqrThreshold) then
    let! z := basicMul z x x in
    norm z
  else
  if n <? karatsubaSqrThreshold then
    let! z := basicSqr z x in
    norm z
  else
  let! z := karatsubaSqr z x in
  norm z.
End Open.

Section Closed.
Context (scratch : Z -> list Z).

Fixpoint mulF (fuel : nat) (z x y : list Z) : res (list Z) :=
  match fuel with
  | O => NoFuel
  | S f => mulStep scratch (mulF f) z x y
  end.

Definition nmul (z x y : list Z) : res (list Z) := mulF (S (length x + length y)) z x y.

Fixpoint sqrF (fuel : nat) (z x : list Z) : res (list Z) :=
  match fuel with
  | O => NoFuel
  | S f => sqrStep scratch (sqrF f) z x
  end.

Definition nsqr (z x : list Z) : res (list Z) := sqrF (S (length x)) z x.
End Closed.
End Mul.

(** 90 words squared: by Karatsuba's squaring, and as a product. *)
Example big_square :
  let P := amd64 in
  let x := replicate 90 (2 ^ 64 - 1) in
  let scratch := fun n => replicate (Z.to_nat n) 7 in
  nsqr scratch [] x = nmul scratch [] x x /\
  (let! p := nmul scratch [] x x in nadd [] p x) = Ok (replicate 90 0 ++ x).
Proof. vm_compute. split; reflexivity. Qed.
