(* ===== verification/BigMulCorrect.v ===== *)
(** * Package math/big: correctness of multiplication

    The results of BigMul.v by value: [nval] of the words of a number, [ival]
    of an integer.  Karatsuba's multiplication and the squarings are exact for
    operands of every length, whatever the scratch storage holds. *)
From Stdlib Require Import ZArith Lia.
From stdpp Require Import base numbers list.
From S2P Require Import Prelude Bits BigWords BigWordsCorrect BigNat BigNatCorrect BigMul.

Section Correct.
Context `{P : Platform}.
Abbreviation B := (2 ^ _W).
Abbreviation nval := (val _W).

(** A number below a power of the base has at most as many words. *)
Lemma fits x k : is_nat x -> nval x < weight k -> 0 <= k -> len x <= k.
Proof.
  intros [Hw Hn] Hlt Hk. destruct (Z.le_gt_cases (len x) k); [done|].
  pose proof (normal_lead x ltac:(intros ->; len_lia) Hw Hn) as Hl.
  pose proof (weight_le k (len x - 1) ltac:(lia)). lia.
Qed.

(** ** addTo *)

Lemma addTo_spec z x :
  words_ok z -> words_ok x -> len x <= len z -> nval z + nval x < weight (len z) ->
  addTo z x ⇓ (fun z' => nval z' = nval z + nval x /\ words_ok z' /\ len z' = len z).
Proof.
  intros Hz Hx Hl Hlt. unfold addTo. destruct (Z.gtb_spec (len x) 0) as [Hpos|H0].
  2: { assert (x = []) as -> by (apply len_zero_inv; len_lia). cbn [returns val]. split; [lia|done]. }
  destruct (slice_split z (len x) ltac:(lia)) as (a & b & -> & Ha). apply words_ok_app in Hz as [Haw Hbw].
  rewrite onRange_front by lia. apply returns_bind, returns_bind.
  eapply returns_mono; [apply addVV_spec; cbn [words]; try done; apply len_eq_length; lia|].
  cbn [words]. intros [s c] (E & Hs & Hls & Hc). cbn [returns]. assert (Hls' : len s = len x) by (unfold len in *; lia).
  rewrite Ha in E. rewrite nval_app, len_app, weight_add in * by len_lia. rewrite Ha in *.
  pose proof (nval_bound b Hbw) as Hb. pose proof (nval_bound s Hs) as Hsb. rewrite Hls' in Hsb.
  destruct (Z.eqb_spec c 0) as [->|Hc0]; cbn [negb].
  { cbn [returns]. rewrite !nval_app, !len_app, Hls', Ha. split; [lia|]. split; [by apply words_ok_app|lia]. }
  assert (c = 1) as -> by lia. rewrite ?len_app; destruct (Z.ltb_spec (len x) (len s + len b)) as [Hlt2|Hge].
  2: { assert (b = []) as -> by (apply len_zero_inv; len_lia). change (len (@nil Z)) with 0 in *.
       rewrite weight_0 in *. cbn [val] in *. lia. }
  rewrite onRange_back by len_lia. apply returns_bind, returns_bind. pose proof B_pos.
  eapply returns_mono; [apply addVW_spec; [done|done|unfold word_ok; lia]|].
  cbn [words]. intros [t d] (E2 & Ht & Hlt' & Hd). cbn [returns].
  assert (Hlt3 : len t = len b) by (unfold len in *; lia). pose proof (nval_bound t Ht) as Htb. rewrite Hlt3 in Htb.
  pose proof (weight_pos (len x) ltac:(lia)). pose proof (weight_pos (len b) ltac:(len_lia)). unfold word_ok in Hd.
  assert (d = 0) as ->.
  { destruct (decide (d = 0)); [done|]. assert (weight (len b) <= weight (len b) * d) by nia.
    assert (weight (len b) <= nval b + 1) by lia. nia. }
  rewrite !nval_app, !len_app, Hls', Hlt3, Ha. split; [nia|]. split; [by apply words_ok_app|lia].
Qed.

Lemma addToAt_spec z i x :
  words_ok z -> words_ok x -> 0 <= i <= len z -> len x <= len z - i -> nval z + weight i * nval x < weight (len z) ->
  addToAt z i x ⇓ (fun z' => nval z' = nval z + weight i * nval x /\ words_ok z' /\ len z' = len z).
Proof.
  intros Hz Hx Hi Hl Hlt. unfold addToAt. destruct (slice_split z i Hi) as (a & b & -> & Ha).
  apply words_ok_app in Hz as [Haw Hbw]. rewrite len_app in *. rewrite onRange_back by lia.
  apply returns_bind, returns_bind, returns_bind. rewrite nval_app, weight_add, Ha in * by len_lia.
  pose proof (weight_pos i ltac:(lia)). pose proof (nval_bound a Haw).
  eapply returns_mono; [apply addTo_spec; [done|done|lia|nia]|].
  intros s (E & Hs & Hls). cbn [returns]. rewrite !nval_app, !len_app, Ha, E, Hls.
  split; [lia|]. split; [by apply words_ok_app|lia].
Qed.

(** ** Signed addition *)

Definition ival (x : Int) : Z := if neg x then - nval (abs x) else nval (abs x).
(** A normalized absolute value, and no negative zero. *)
Definition int_ok (x : Int) : Prop := is_nat (abs x) /\ (neg x = true -> abs x <> []).

Lemma nonzero_nat a : is_nat a -> (len a >? 0) = negb (nval a =? 0).
Proof.
  intros [Hw Hn]. rewrite Z.gtb_ltb. destruct a as [|w a]; [done|].
  assert (weight (len (w :: a) - 1) <= nval (w :: a)) by (by apply normal_lead).
  assert (0 < weight (len (w :: a) - 1)) by (apply weight_pos; len_lia).
  rewrite (proj2 (Z.ltb_lt _ _)), (proj2 (Z.eqb_neq _ _)) by len_lia. done.
Qed.

Lemma mkInt_ok a ng : is_nat a ->
  let r := mkInt ((len a >? 0) && ng) a in ival r = (if ng then - nval a else nval a) /\ int_ok r.
Proof.
  intros Ha. unfold ival, int_ok. cbn [neg abs]. rewrite nonzero_nat by done. split.
  - destruct (Z.eqb_spec (nval a) 0) as [->|], ng; done.
  - split; [done|]. intros E. apply andb_true_iff in E as [E _]. intros ->. done.
Qed.

Lemma int_difference z x y ng :
  is_nat x -> is_nat y ->
  (let! '(a, ng) :=
     let! c := cmp x y in
     if c >=? 0 then (let! a := nsub z x y in Ok (a, ng)) else (let! a := nsub z y x in Ok (a, negb ng)) in
   Ok (mkInt ((len a >? 0) && ng) a)) ⇓ (fun r =>
    ival r = (if ng then nval y - nval x else nval x - nval y) /\ int_ok r).
Proof.
  intros Hx Hy. rewrite cmp_spec by done. cbn [rbind].
  assert (Hr : forall (a : list Z) (g : bool) v, is_nat a -> (if g then - nval a else nval a) = v ->
    Ok (mkInt ((len a >? 0) && g) a) ⇓ (fun r => ival r = v /\ int_ok r)).
  { intros a g v Ha <-. by apply mkInt_ok. }
  pose proof (nsub_spec z x y Hx Hy) as Hxy. pose proof (nsub_spec z y x Hy Hx) as Hyx.
  destruct (Z.lt_ge_cases (nval x) (nval y)) as [Hlt|Hge].
  - rewrite sign_lt by done. cbn [Z.geb Z.compare]. rewrite (proj2 (Z.ltb_ge (nval y) _)) in Hyx by lia.
    apply returns_bind, returns_bind. eapply returns_mono; [exact Hyx|]. intros a [E Ha]. cbn [returns].
    apply Hr; [done|]. rewrite E. destruct ng; cbn [negb]; lia.
  - rewrite (proj2 (Z.ltb_ge (nval x) _)) in Hxy by lia.
    assert ((sign (nval x) (nval y) >=? 0) = true) as ->.
    { unfold sign. rewrite (proj2 (Z.ltb_ge _ _)) by lia. by destruct (nval x >? nval y). }
    apply returns_bind, returns_bind. eapply returns_mono; [exact Hxy|]. intros a [E Ha]. cbn [returns].
    apply Hr; [done|]. rewrite E. destruct ng; lia.
Qed.

Lemma IntAdd_spec z x y :
  is_nat (abs x) -> is_nat (abs y) -> IntAdd z x y ⇓ (fun r => ival r = ival x + ival y /\ int_ok r).
Proof.
  intros Hx Hy. unfold IntAdd. destruct (eqb (neg x) (neg y)) eqn:E.
  - apply eqb_prop in E. apply returns_bind, returns_bind. eapply returns_mono; [by apply nadd_spec|].
    intros a [Ea Ha]. cbn [returns]. destruct (mkInt_ok a (neg x) Ha) as [-> Hok]. split; [|done].
    unfold ival. rewrite <- E, Ea. destruct (neg x); lia.
  - eapply returns_mono; [by apply int_difference|]. intros r [-> Hr]. split; [|done].
    unfold ival. destruct (neg x), (neg y); (done || lia).
Qed.

Lemma IntSub_spec z x y :
  is_nat (abs x) -> is_nat (abs y) -> IntSub z x y ⇓ (fun r => ival r = ival x - ival y /\ int_ok r).
Proof.
  intros Hx Hy. unfold IntSub. destruct (eqb (neg x) (neg y)) eqn:E; cbn [negb].
  - apply eqb_prop in E. eapply returns_mono; [by apply int_difference|]. intros r [-> Hr]. split; [|done].
    unfold ival. rewrite <- E. destruct (neg x); lia.
  - apply returns_bind, returns_bind. eapply returns_mono; [by apply nadd_spec|].
    intros a [Ea Ha]. cbn [returns]. destruct (mkInt_ok a (neg x) Ha) as [-> Hok]. split; [|done].
    unfold ival. rewrite Ea. destruct (neg x), (neg y); (done || lia).
Qed.

Lemma ival_nonneg r : is_nat (abs r) -> 0 <= ival r -> nval (abs r) = ival r.
Proof. intros [Hw _] H. pose proof (nval_bound _ Hw). unfold ival in *. destruct (neg r); lia. Qed.

(** ** Karatsuba's multiplication *)

Lemma part_front a b n : words_ok a -> n = len a ->
  part (a ++ b) 0 n ⇓ (fun r => ival r = nval a /\ is_nat (abs r)).
Proof.
  intros Ha Hn. unfold part. rewrite slice_front by done. cbn [rbind]. eapply returns_bind_mono; [by apply norm_spec|].
  intros r (E & Hr & _). cbn [returns]. split; [exact E|done].
Qed.

Lemma part_back a b n m : words_ok b -> n = len a -> m = len a + len b ->
  part (a ++ b) n m ⇓ (fun r => ival r = nval b /\ is_nat (abs r)).
Proof.
  intros Hb Hn Hm. unfold part. rewrite slice_back by done. cbn [rbind]. eapply returns_bind_mono; [by apply norm_spec|].
  intros r (E & Hr & _). cbn [returns]. split; [exact E|done].
Qed.

Lemma half_up n : 2 * ((n + 1) / 2) <= n + 1 < 2 * ((n + 1) / 2) + 2.
Proof. pose proof (Z.div_mod (n + 1) 2). pose proof (Z.mod_pos_bound (n + 1) 2). lia. Qed.

(** The two products in the cleared [z]: the first in its low [2 * n2] words. *)
Lemma into_both f g n k p q :
  0 <= n -> 0 <= k ->
  (forall s, f s ⇓ (fun r => ival r = p /\ is_nat (abs r))) -> 0 <= p < weight n ->
  (forall s, g s ⇓ (fun r => ival r = q /\ is_nat (abs r))) -> 0 <= q < weight k ->
  (let! '(z, r1) := into (zeros (n + k)) 0 n f in
   let! '(z, r2) := into z n (len z) g in
   Ok (z, r1, r2)) ⇓ (fun '(z, r1, r2) =>
    ival r1 = p /\ is_nat (abs r1) /\ ival r2 = q /\ is_nat (abs r2) /\
    nval z = p + weight n * q /\ words_ok z /\ len z = n + k).
Proof.
  intros Hn Hk Hf Hp Hg Hq. unfold into. assert (Ez : zeros (n + k) = zeros n ++ zeros k).
  { unfold zeros. rewrite <- replicate_add. f_equal. lia. }
  assert (Hlz : forall c, 0 <= c -> len (zeros c) = c) by (intros; unfold zeros; rewrite len_replicate; lia).
  rewrite Ez, onRange_front by (by rewrite Hlz). apply returns_bind, returns_bind, returns_bind.
  eapply returns_mono; [apply Hf|]. intros r1 [E1 H1]. cbn [returns]. rewrite Hlz by done.
  assert (Hv1 : nval (abs r1) = p) by (rewrite <- E1; apply ival_nonneg; [done|lia]).
  assert (Hl1 : len (abs r1) <= n) by (apply fits; [done|lia|done]).
  set (s1 := abs r1 ++ zeros (n - len (abs r1))).
  assert (Hs1 : len s1 = n) by (unfold s1; rewrite len_app, Hlz by lia; lia).
  rewrite onRange_back by (rewrite ?len_app; lia). apply returns_bind, returns_bind, returns_bind.
  eapply returns_mono; [apply Hg|]. intros r2 [E2 H2]. cbn [returns]. rewrite Hlz by done.
  assert (Hv2 : nval (abs r2) = q) by (rewrite <- E2; apply ival_nonneg; [done|lia]).
  assert (Hl2 : len (abs r2) <= k) by (apply fits; [done|lia|done]).
  do 4 (split; [done|]). assert (Hz : forall (a : list Z) c, nval (a ++ zeros c) = nval a).
  { intros a c. rewrite nval_app. unfold zeros. rewrite nval_zeros. lia. }
  split; [rewrite nval_app, Hs1; unfold s1; rewrite !Hz; lia|]. split.
  - unfold s1. repeat (apply words_ok_app; split); try apply words_ok_zeros; [apply H1|apply H2].
  - rewrite !len_app, Hlz, Hs1 by lia. lia.
Qed.

(** The multiplication the functions call is exact on operands of fewer than
    [k] words in all. *)
Definition mul_upto (mul : list Z -> list Z -> list Z -> res (list Z)) (k : Z) : Prop :=
  forall z x y, words_ok x -> words_ok y -> len x + len y < k ->
    mul z x y ⇓ (fun p => nval p = nval x * nval y /\ is_nat p).

Section Step.
Context (scratch : Z -> list Z) (mul : list Z -> list Z -> list Z -> res (list Z)) (k : Z) (Hmul : mul_upto mul k).

Lemma IntMul_spec z x y :
  is_nat (abs x) -> is_nat (abs y) -> len (abs x) + len (abs y) < k ->
  IntMul mul z x y ⇓ (fun r => ival r = ival x * ival y /\ int_ok r).
Proof.
  intros [Hx _] [Hy _] Hl. unfold IntMul. apply returns_bind. eapply returns_mono; [by apply Hmul|].
  intros a [Ea Ha]. cbn [returns]. destruct (mkInt_ok a (negb (eqb (neg x) (neg y))) Ha) as [-> Hok]. split; [|done].
  unfold ival. rewrite Ea. destruct (neg x), (neg y); cbn [eqb negb]; lia.
Qed.


Lemma part_len (a : list Z) x : words_ok a -> ival x = nval a -> is_nat (abs x) -> len (abs x) <= len a.
Proof. intros Ha Ei Hi. pose proof (nval_bound a Ha). apply fits; [done| |len_lia]. rewrite ival_nonneg; lia || done. Qed.

(** The words of the difference of two parts, and of a product. *)
Lemma part_bounds (a b : list Z) x :
  words_ok a -> words_ok b -> len b <= len a -> is_nat (abs x) -> ival x = nval a - nval b \/ ival x = nval b - nval a ->
  len (abs x) <= len a.
Proof.
  intros Ha Hb Hl Hx E. pose proof (nval_bound a Ha). pose proof (nval_bound b Hb).
  pose proof (weight_le (len b) (len a) ltac:(len_lia)). pose proof (nval_bound _ (proj1 Hx)).
  apply fits; [done| |len_lia]. unfold ival in E. destruct (neg x); lia.
Qed.

Lemma product_bound (a b : list Z) : words_ok a -> words_ok b -> 0 <= nval a * nval b < weight (len a + len b).
Proof.
  intros Ha Hb. pose proof (nval_bound a Ha). pose proof (nval_bound b Hb). rewrite weight_add by len_lia. nia.
Qed.

(** The combination of the three products. *)
Lemma combine z r0 r2 r1 (xa xb ya yb : list Z) :
  words_ok xa -> words_ok xb -> words_ok ya -> words_ok yb -> len ya = len xa -> len yb = len xb ->
  ival r1 = (nval xa - nval xb) * (nval yb - nval ya) -> ival r0 = nval xa * nval ya -> ival r2 = nval xb * nval yb ->
  is_nat (abs r1) -> is_nat (abs r0) -> is_nat (abs r2) ->
  nval z = nval xa * nval ya + weight (2 * len xa) * (nval xb * nval yb) -> words_ok z -> len z = 2 * (len xa + len xb) ->
  (let! z1 := IntAdd (abs r1) r1 r0 in
   let! z1 := IntAdd (abs z1) z1 r2 in
   addToAt z (len xa) (abs z1)) ⇓ (fun p =>
    nval p = nval (xa ++ xb) * nval (ya ++ yb) /\ words_ok p /\ len p = 2 * (len xa + len xb)).
Proof.
  intros Hxa Hxb Hya Hyb Lya Lyb E1 E0 E2 H1 H0 H2 Ez Hz Lz.
  eapply returns_bind_mono; [by apply IntAdd_spec|]. intros z1 [Ez1 Hz1].
  eapply returns_bind_mono; [apply IntAdd_spec; [apply Hz1|done]|]. intros z2 [Ez2 [Hz2 _]].
  assert (Ev : ival z2 = nval xa * nval yb + nval xb * nval ya) by lia.
  pose proof (nval_bound xa Hxa). pose proof (nval_bound xb Hxb). pose proof (nval_bound ya Hya). pose proof (nval_bound yb Hyb).
  assert (Hn : nval (abs z2) = ival z2) by (apply ival_nonneg; [done|nia]).
  pose proof (product_bound (xa ++ xb) (ya ++ yb) ltac:(by apply words_ok_app) ltac:(by apply words_ok_app)) as Hp.
  assert (Ep : nval (xa ++ xb) * nval (ya ++ yb) = nval z + weight (len xa) * nval (abs z2)).
  { rewrite !nval_app, Ez, Hn, Ev, Lya. replace (2 * len xa) with (len xa + len xa) by lia. rewrite weight_add by len_lia. lia. }
  replace (len (xa ++ xb) + len (ya ++ yb)) with (len z) in Hp by (rewrite !len_app; lia). rewrite Ep in Hp |- *.
  pose proof (weight_pos (len xa) ltac:(len_lia)) as Hw. pose proof (nval_bound z Hz).
  eapply returns_mono; [apply addToAt_spec; [done|apply Hz2|len_lia| |lia]|].
  - apply fits; [done| |len_lia].
    assert (Es : weight (len z) = weight (len xa) * weight (len z - len xa)) by (rewrite <- weight_add by len_lia; f_equal; lia).
    rewrite Es in Hp. assert (weight (len xa) * nval (abs z2) < weight (len xa) * weight (len z - len xa)) by lia. nia.
  - intros p (-> & Hpw & Hlp). split; [done|]. split; [done|lia].
Qed.

Lemma karatsuba_spec z x y :
  words_ok x -> words_ok y -> len x = len y -> len z = 2 * len y -> 2 * len y <= k ->
  karatsuba scratch mul z x y ⇓ (fun p => nval p = nval x * nval y /\ words_ok p /\ len p = 2 * len y).
Proof.
  intros Hx Hy Hlx Hlz Hk. unfold karatsuba. rewrite (proj2 (Z.eqb_eq (len x) _)), (proj2 (Z.eqb_eq (len z) _)) by done. cbn [negb orb].
  destruct ((len y <? karatsubaThreshold) || (len y <? 2)) eqn:Eth.
  { eapply returns_mono; [by apply basicMul_spec; [| |lia]|]. intros p (Ep & Hp & Hlp). split; [done|]. split; [done|lia]. }
  apply orb_false_iff in Eth as [Eth%Z.ltb_ge _]. unfold karatsubaThreshold in Eth. set (n := len y) in *.
  pose proof (half_up n) as Hn2. set (n2 := (n + 1) / 2) in *. clearbody n2. destruct (slice_split x n2 ltac:(lia)) as (xa & xb & -> & Lxa), (slice_split y n2 ltac:(lia)) as (ya & yb & -> & Lya).
  apply words_ok_app in Hx as [Hxa Hxb], Hy as [Hya Hyb]. unfold n in *. rewrite !len_app in *.
  rewrite !slice_Ok by lia. cbn [rbind].
  eapply returns_bind_mono; [by apply part_front|]. intros x0 [Ex0 Hx0].
  eapply returns_bind_mono; [apply part_back; [done|lia..]|]. intros x1 [Ex1 Hx1].
  eapply returns_bind_mono; [by apply part_front|]. intros y0 [Ey0 Hy0].
  eapply returns_bind_mono; [apply part_back; [done|lia..]|]. intros y1 [Ey1 Hy1].
  eapply returns_bind_mono; [by apply IntSub_spec|]. intros tx [Etx [Htx _]].
  eapply returns_bind_mono; [by apply IntSub_spec|]. intros ty [Ety [Hty _]].
  assert (Ltx : len (abs tx) <= len xa) by (apply (part_bounds xa xb); try done; [lia|left; lia]).
  assert (Lty : len (abs ty) <= len ya) by (apply (part_bounds ya yb); try done; [lia|right; lia]).
  eapply returns_bind_mono; [apply IntMul_spec; [done|done|lia]|]. intros z1 [Ez1 [Hz1 _]].
  pose proof (part_len _ _ Hxa Ex0 Hx0) as Lx0. pose proof (part_len _ _ Hxb Ex1 Hx1) as Lx1.
  pose proof (part_len _ _ Hya Ey0 Hy0) as Ly0. pose proof (part_len _ _ Hyb Ey1 Hy1) as Ly1.
  pose proof (product_bound xa ya Hxa Hya) as Hp0. pose proof (product_bound xb yb Hxb Hyb) as Hp2.
  pose proof (into_both (fun s => IntMul mul s x0 y0) (fun s => IntMul mul s x1 y1) (2 * n2) (len z - 2 * n2)
    (nval xa * nval ya) (nval xb * nval yb) ltac:(lia) ltac:(lia)) as Hboth.
  replace (2 * n2 + (len z - 2 * n2)) with (len z) in Hboth by lia.
  ospecialize (Hboth _ _ _ _).
  { intros s'. eapply returns_mono; [apply IntMul_spec; [done|done|lia]|]. intros r [Er [Hr _]]. by rewrite Er, Ex0, Ey0. }
  { replace (2 * n2) with (len xa + len ya) by lia. done. }
  { intros s'. eapply returns_mono; [apply IntMul_spec; [done|done|lia]|]. intros r [Er [Hr _]]. by rewrite Er, Ex1, Ey1. }
  { replace (len z - 2 * n2) with (len xb + len yb) by lia. done. }
  destruct (into (zeros (len z)) 0 (2 * n2) _) as [[za r0]| |]; cbn [rbind] in *; [|done..].
  destruct (into za (2 * n2) (len za) _) as [[zb r2]| |]; cbn [rbind] in *; [|done..]. cbn [returns] in Hboth.
  destruct Hboth as (E0 & H0 & E2 & H2 & Ezb & Hzb & Lzb).
  replace n2 with (len xa) by done. eapply returns_mono; [apply (combine zb r0 r2 z1 xa xb ya yb); try done; try lia|].
  - rewrite Ezb. do 3 f_equal. lia.
  - intros p (Ep & Hp & Lp). split; [done|]. split; [done|lia].
Qed.

(** Adding the product of a section of [x] to that of the words below it. *)
Lemma add_section z lo mid hi y t :
  words_ok (lo ++ mid ++ hi) -> words_ok y -> words_ok z -> len z = len (lo ++ mid ++ hi) + len y ->
  nval z = nval lo * nval y -> nval t = nval mid * nval y -> is_nat t ->
  addToAt z (len lo) t ⇓ (fun z' => nval z' = nval (lo ++ mid) * nval y /\ words_ok z' /\ len z' = len z).
Proof.
  intros Hx Hy Hz Lz Ez Et Ht. apply words_ok_app in Hx as [Hlo Hx]. apply words_ok_app in Hx as [Hmid Hhi].
  assert (Em : nval z + weight (len lo) * nval t = nval (lo ++ mid) * nval y) by (rewrite nval_app, Ez, Et; lia).
  pose proof (product_bound (lo ++ mid) y ltac:(by apply words_ok_app) Hy) as Hp. rewrite !len_app in *. pose proof (nval_bound z Hz).
  pose proof (weight_le (len lo + len mid + len y) (len z) ltac:(len_lia)).
  pose proof (product_bound mid y Hmid Hy).
  eapply returns_mono; [apply addToAt_spec; [done|apply Ht|len_lia| |lia]|].
  - assert (len t <= len mid + len y) by (apply fits; [done|lia|len_lia]). len_lia.
  - intros z' (-> & Hz' & Lz'). done.
Qed.

Lemma mulSections_spec z x y :
  words_ok x -> words_ok y -> words_ok z -> len z = len x + len y -> 0 < len y < len x -> len x + len y <= k ->
  nval z = nval (take (Z.to_nat (len y)) x) * nval y ->
  mulSections scratch mul z x y ⇓ (fun p => nval p = nval x * nval y /\ words_ok p).
Proof.
  intros Hx Hy Hz Lz Hl Hk Ez. unfold mulSections.
  apply (loop_returns (fun '(z, t, i) => 0 <= i /\ words_ok z /\ len z = len x + len y /\
    nval z = nval (take (Z.to_nat i) x) * nval y) (fun '(z, t, i) => Z.max 0 (len x - i))).
  2: { split; [lia|done]. }
  2,3: unfold len in *; lia.
  clear z Hz Lz Ez. intros [[z t] i] (Hi & Hz & Lz & Ez). destruct (Z.ltb_spec i (len x)) as [Hlt|Hge].
  2: { cbn [returns]. rewrite take_ge in Ez by (unfold len in *; lia). done. }
  destruct (slice_split x i ltac:(lia)) as (lo & rest & -> & Hlo). rewrite len_app in *.
  destruct (slice_split rest (Z.min (len y) (len rest)) ltac:(lia)) as (mid & hi & -> & Hmid). rewrite len_app in *.
  replace (Z.to_nat i) with (length lo) in Ez by (unfold len in *; lia). rewrite take_app_length in Ez.
  assert (slice (lo ++ mid ++ hi) i (Z.min (i + len y) (len lo + (len mid + len hi))) = Ok mid) as ->.
  { rewrite slice_Ok by (rewrite ?len_app; lia). f_equal. replace (Z.to_nat i) with (length lo) by (unfold len in *; lia).
    rewrite drop_app_length. replace (Z.to_nat _) with (length mid) by (unfold len in *; lia). apply take_app_length. }
  cbn [rbind]. assert (Hmw : words_ok mid) by (apply words_ok_app in Hx as [_ Hx]; by apply words_ok_app in Hx as [Hx _]).
  eapply returns_bind_mono; [apply Hmul; [done|done|lia]|]. intros t' [Et Ht]. rewrite <- Hlo.
  eapply returns_bind_mono; [eapply (add_section z lo mid hi y t'); try done; rewrite !len_app; lia|].
  intros z' (Ez' & Hz' & Lz'). cbn [returns]. split; [|lia]. split; [lia|]. split; [done|]. split; [lia|].
  rewrite Ez'. do 2 f_equal. destruct (Z.le_gt_cases (len y) (len mid + len hi)) as [Hc|Hc].
  - rewrite app_assoc. replace (Z.to_nat (len lo + len y)) with (length (lo ++ mid)) by (rewrite length_app; unfold len in *; lia).
    by rewrite take_app_length.
  - assert (hi = []) as -> by (apply len_zero_inv; len_lia). rewrite !app_nil_r.
    rewrite take_ge by (rewrite length_app; unfold len in *; lia). done.
Qed.

Lemma mulLong_spec z x y :
  words_ok x -> words_ok y -> len y <= len x -> len x + len y <= k ->
  mulLong scratch mul z x y ⇓ (fun p => nval p = nval x * nval y /\ is_nat p).
Proof.
  intros Hx Hy Hl Hk. unfold mulLong. destruct ((len x =? 0) || (len y =? 0)) eqn:E.
  { split; [|apply is_nat_nil]. apply orb_true_iff in E as [E%Z.eqb_eq|E%Z.eqb_eq]; apply len_zero_inv in E as ->; cbn [val]; lia. }
  apply orb_false_iff in E as [E1%Z.eqb_neq E2%Z.eqb_neq].
  destruct (Z.eqb_spec (len y) 1) as [E3|].
  { destruct y as [|d [|? ?]]; [done| |len_lia]. change (idx [d] 0) with (Ok d). cbn [rbind].
    apply Forall_cons_1 in Hy as [Hd _]. pose proof B_pos.
    eapply returns_mono; [apply mulAddWW_spec; [done|done|unfold word_ok; lia]|]. intros p [-> Hp]. cbn [val]. split; [lia|done]. }
  assert (Hnorm : forall w, nval w = nval x * nval y -> words_ok w -> norm w ⇓ (fun p => nval p = nval x * nval y /\ is_nat p)).
  { intros w Ew Hw. eapply returns_mono; [by apply norm_spec|]. intros p (-> & Hp & _). done. }
  destruct (storage_split2 z (2 * len y) (len x - len y)) as (a & b & Ez & La & Lb); [len_lia..|].
  replace (2 * len y + (len x - len y)) with (len x + len y) in Ez by lia. rewrite Ez.
  destruct (Z.ltb_spec (len y) karatsubaThreshold) as [Hlt|Hge].
  { eapply returns_bind_mono; [apply basicMul_spec; [done|done|rewrite len_app; lia]|]. intros w (Ew & Hw & _). by apply Hnorm. }
  destruct (slice_split x (len y) ltac:(len_lia)) as (xn & xt & -> & Lxn). rewrite len_app in *.
  pose proof Hx as Hx'. apply words_ok_app in Hx' as [Hxn Hxt]. rewrite slice_front by lia. cbn [rbind]. rewrite onRange_front by lia.
  apply returns_bind, returns_bind, returns_bind. eapply returns_mono; [apply karatsuba_spec; try done; lia|].
  intros s (Es & Hs & Ls). cbn [returns]. destruct (Z.ltb_spec (len y) (len xn + len xt)) as [Hm|Hm].
  - rewrite onRange_back by (rewrite ?len_app; lia). cbn [rbind]. apply returns_bind.
    assert (Lzb : len (zeros (len b)) = len b) by (unfold zeros; rewrite len_replicate; len_lia).
    eapply returns_mono; [apply mulSections_spec; rewrite ?len_app; try done; try lia|].
    + apply words_ok_app. split; [done|apply words_ok_zeros].
    + len_lia.
    + rewrite nval_app. unfold zeros at 1. rewrite nval_zeros, Es.
      replace (Z.to_nat (len y)) with (length xn) by (unfold len in *; lia). rewrite take_app_length. lia.
    + intros w [Ew Hw]. by apply Hnorm.
  - cbn [rbind]. assert (xt = []) as -> by (apply len_zero_inv; len_lia). assert (b = []) as -> by (apply len_zero_inv; len_lia).
    rewrite !app_nil_r in *. by apply Hnorm.
Qed.

Lemma mulStep_spec z x y :
  words_ok x -> words_ok y -> len x + len y <= k ->
  mulStep scratch mul z x y ⇓ (fun p => nval p = nval x * nval y /\ is_nat p).
Proof.
  intros Hx Hy Hk. unfold mulStep. destruct (Z.ltb_spec (len x) (len y)).
  - eapply returns_mono; [apply mulLong_spec; (done || lia)|]. intros p [-> Hp]. split; [lia|done].
  - apply mulLong_spec; (done || lia).
Qed.
End Step.

(** The product of two numbers, of every length. *)
Lemma mulF_spec scratch fuel : mul_upto (mulF scratch fuel) (Z.of_nat fuel).
Proof.
  induction fuel as [|f IH]; intros z x y Hx Hy Hl; [len_lia|]. cbn [mulF].
  by apply (mulStep_spec scratch _ (Z.of_nat f)); [..|lia].
Qed.

Lemma nmul_spec scratch z x y :
  words_ok x -> words_ok y -> nmul scratch z x y ⇓ (fun p => nval p = nval x * nval y /\ is_nat p).
Proof. intros Hx Hy. apply mulF_spec; [done|done|unfold len; lia]. Qed.

(** ** Squaring *)

(** The squares in [z] and the products of different words in [t], for the
    first [i] words of [x]. *)
Definition squares (x : list Z) (st : list Z * list Z * Z) : Prop :=
  let '(z, t, i) := st in
  1 <= i <= len x /\ len z = 2 * len x /\
  exists zlo zhi tm, z = zlo ++ zhi /\ len zlo = 2 * i /\ words_ok zlo /\
    t = (0 :: tm) ++ zeros (2 * len x - 2 * i + 1) /\ len tm = 2 * i - 2 /\ words_ok tm /\
    nval zlo + 2 * nval (0 :: tm) = nval (take (Z.to_nat i) x) * nval (take (Z.to_nat i) x).

Lemma zeros_S n : 0 < n -> zeros n = 0 :: zeros (n - 1).
Proof. intros Hn. unfold zeros. by replace (Z.to_nat n) with (S (Z.to_nat (n - 1))) by lia. Qed.

(** Storing the square of a word in the next two words of [z]. *)
Lemma store_square zlo zhi d :
  word_ok d -> 2 <= len zhi ->
  (let '(hi, lo) := mulWW d d in
   let! z := upd (zlo ++ zhi) (len zlo + 1) hi in
   upd z (len zlo) lo) ⇓ (fun z => exists hi lo zhi', z = (zlo ++ [lo; hi]) ++ zhi' /\
     len zhi' = len zhi - 2 /\ words_ok [lo; hi] /\ nval [lo; hi] = d * d).
Proof.
  intros Hd Hl. unfold mulWW. pose proof (Mul_word d d Hd Hd) as M. destruct (Mul _W d d) as [hi lo].
  destruct zhi as [|e0 [|e1 zhi]]; [len_lia..|].
  assert (Eu : upd (zlo ++ e0 :: e1 :: zhi) (len zlo + 1) hi = Ok (zlo ++ e0 :: hi :: zhi)).
  { change (e0 :: e1 :: zhi) with ([e0] ++ e1 :: zhi). change (e0 :: hi :: zhi) with ([e0] ++ hi :: zhi).
    rewrite !app_assoc. apply upd_app. len_lia. }
  rewrite Eu. cbn [rbind]. rewrite upd_app by done. cbn [returns]. exists hi, lo, zhi.
  split; [by rewrite <- app_assoc|]. split; [len_lia|]. destruct M as (E & Hhi & Hlo). split; [constructor; [done|constructor; [done|constructor]]|]. cbn [val]. lia.
Qed.

Lemma squares_step x z t i d :
  words_ok x -> squares x (z, t, i) -> i < len x -> x !! Z.to_nat i = Some d ->
  (let '(hi, lo) := mulWW d d in
   let! z := upd z (2 * i + 1) hi in
   let! z := upd z (2 * i) lo in
   let! xi := slice x 0 i in
   let! '(t, c) := onRange t i (2 * i) (fun s => addMulVVWW s Same (Vec xi) d 0) in
   let! t := upd t (2 * i) c in
   Ok (z, t)) ⇓ (fun '(z, t) => squares x (z, t, i + 1)).
Proof.
  intros Hx (Hi & Lz & zlo & zhi & tm & -> & Lzlo & Hzlo & -> & Ltm & Htm & E) Hlt Hd.
  assert (Hdw : word_ok d) by (by eapply (Forall_lookup_1 _ x)). rewrite len_app in Lz.
  pose proof (store_square zlo zhi d Hdw ltac:(lia)) as Hsq. rewrite Lzlo in Hsq.
  destruct (mulWW d d) as [hi lo]. destruct (upd (zlo ++ zhi) (2 * i + 1) hi) as [z'| |]; cbn [rbind] in *; [|done..].
  eapply returns_bind_mono; [exact Hsq|]. intros z'' (hi' & lo' & zhi' & -> & Lzhi & Hsw & Esq).
  assert (slice x 0 i = Ok (take (Z.to_nat i) x)) as -> by (rewrite slice_Ok by len_lia; by rewrite Z.sub_0_r, drop_0).
  cbn [rbind]. set (xi := take (Z.to_nat i) x) in *. assert (Hxi : words_ok xi) by (by apply Forall_take).
  assert (Lxi : len xi = i) by (unfold xi, len in *; rewrite length_take; lia).
  rewrite (zeros_S (2 * len x - 2 * i + 1)), (zeros_S (2 * len x - 2 * i + 1 - 1)) by lia.
  destruct (slice_split (tm ++ [0]) (i - 1)) as (ta & tb & Et & Lta); [rewrite len_app; change (len [0]) with 1; lia|].
  assert (Ltb : len tb = i) by (apply (f_equal len) in Et; rewrite !len_app in Et; change (len [0]) with 1 in Et; lia).
  assert (Htab : words_ok (ta ++ tb)) by (rewrite <- Et; apply words_ok_app; split; [done|]; constructor; [pose proof B_pos; lia|constructor]).
  apply words_ok_app in Htab as [Hta Htb].
  replace ((0 :: tm) ++ 0 :: 0 :: zeros (2 * len x - 2 * i + 1 - 1 - 1)) with ((0 :: ta) ++ tb ++ 0 :: zeros (2 * len x - 2 * (i + 1) + 1)).
  2: { cbn [app]. f_equal. rewrite app_assoc, <- Et, <- app_assoc. cbn [app]. do 4 f_equal. lia. }
  rewrite onRange_app by (rewrite ?len_cons; lia). apply returns_bind, returns_bind. pose proof B_pos.
  eapply returns_mono; [apply addMulVVWW_spec; cbn [words]; try done; [apply len_eq_length; lia|unfold word_ok; lia]|].
  cbn [words]. intros [s c] (Em & Hs & Ls & Hc). cbn [returns]. assert (Ls' : len s = i) by (unfold len in *; lia).
  rewrite app_assoc, upd_app by (rewrite len_app, len_cons; lia). cbn [rbind returns].
  split; [lia|]. split; [rewrite !len_app; change (len [lo'; hi']) with 2; lia|].
  exists (zlo ++ [lo'; hi']), zhi', (ta ++ s ++ [c]). split; [done|]. split; [rewrite len_app; change (len [lo'; hi']) with 2; lia|].
  split; [by apply words_ok_app|]. split; [cbn [app]; by rewrite <- !app_assoc|].
  split; [rewrite !len_app; change (len [c]) with 1; lia|]. split; [repeat (apply words_ok_app; split; [done|]); by constructor|].
  replace (Z.to_nat (i + 1)) with (S (Z.to_nat i)) by lia. rewrite (take_S_r _ _ _ Hd). fold xi.
  assert (Etm : nval tm = nval ta + weight (i - 1) * nval tb).
  { rewrite <- Lta, <- nval_app, <- Et, nval_snoc. lia. }
  rewrite !(nval_snoc xi), !(nval_cons 0), (nval_app ta), (nval_snoc s), (nval_app zlo), Lxi, Lzlo, Lta, Ls', Esq. rewrite nval_cons, Etm in E. rewrite Ltb in Em.
  assert (E2i : weight (2 * i) = weight i * weight i) by (rewrite <- weight_add by lia; f_equal; lia).
  assert (Ei : weight i = B * weight (i - 1)) by (rewrite <- weight_1, <- weight_add by lia; f_equal; lia).
  rewrite E2i. assert (Ec : nval s + weight i * c = nval tb + nval xi * d) by lia.
  replace (nval ta + weight (i - 1) * (nval s + weight i * c)) with (nval ta + weight (i - 1) * (nval tb + nval xi * d)) by (rewrite Ec; lia).
  rewrite Ei in *. nia.
Qed.

(** The products doubled and added to the squares. *)
Lemma squares_end x z t :
  words_ok x -> 1 <= len x -> squares x (z, t, len x) ->
  (let! '(t, c) := onRange t 1 (2 * len x - 1) (fun s => lshVU s Same 1) in
   let! t := upd t (2 * len x - 1) c in
   let! '(z, _) := addVV z Same (Vec t) in
   Ok z) ⇓ (fun p => nval p = nval x * nval x /\ words_ok p /\ len p = 2 * len x).
Proof.
  intros Hx Hl (_ & Lz & zlo & zhi & tm & -> & Lzlo & Hzlo & -> & Ltm & Htm & E).
  rewrite len_app in Lz. assert (zhi = []) as -> by (apply len_zero_inv; len_lia). rewrite app_nil_r in *.
  replace (2 * len x - 2 * len x + 1) with 1 by lia. change (zeros 1) with [0]. change ((0 :: tm) ++ [0]) with ([0] ++ tm ++ [0]).
  rewrite onRange_app by (change (len [0]) with 1; lia). apply returns_bind, returns_bind.
  eapply returns_mono; [apply lshVU_spec; cbn [words]; [done|done|destruct _W_ok; lia]|].
  cbn [words]. intros [s c] (Es & Hs & Ls & Hc). cbn [returns]. assert (Ls' : len s = len tm) by (unfold len in *; lia).
  rewrite app_assoc, upd_last by (rewrite len_app; change (len [0]) with 1; lia). cbn [rbind].
  assert (Hcw : word_ok c) by (unfold word_ok; pose proof B_pos; change (2 ^ 1) with 2 in Hc; lia).
  assert (Htw : words_ok (([0] ++ s) ++ [c])).
  { apply words_ok_app. split; [|by constructor]. constructor; [pose proof B_pos; lia|done]. }
  assert (Lt : len (([0] ++ s) ++ [c]) = len zlo) by (rewrite !len_app; change (len [0]) with 1; change (len [c]) with 1; lia).
  apply returns_bind. eapply returns_mono; [apply addVV_spec; cbn [words]; try done; by apply len_eq_length|].
  cbn [words]. intros [p c'] (Ep & Hp & Lp & Hc'). cbn [returns]. assert (Lp' : len p = len zlo) by (unfold len in *; lia).
  rewrite take_ge in E by (unfold len in *; lia).
  assert (Et : nval (([0] ++ s) ++ [c]) = 2 * nval (0 :: tm)).
  { rewrite nval_snoc, len_app. change (len [0]) with 1. change ([0] ++ s) with (0 :: s). rewrite !nval_cons, weight_add, weight_1, Ls' by len_lia.
    change (2 ^ 1) with 2 in Es. rewrite Z.add_0_l. transitivity (B * (nval s + weight (len tm) * c)); [lia|]. rewrite Es. lia. }
  rewrite Et, E in Ep. pose proof (product_bound x x Hx Hx) as Hb. replace (len x + len x) with (len zlo) in Hb by lia.
  pose proof (nval_bound p Hp) as Hpb. rewrite Lp' in Hpb. assert (c' = 0 \/ c' = 1) as [-> | ->] by lia; [|lia].
  split; [lia|]. split; [done|lia].
Qed.

Lemma basicSqr_spec z x :
  words_ok x -> len z = 2 * len x -> basicSqr z x ⇓ (fun p => nval p = nval x * nval x /\ words_ok p /\ len p = 2 * len x).
Proof.
  intros Hx Lz. unfold basicSqr. destruct (Z.ltb_spec (len x) basicSqrThreshold) as [Hlt|Hge].
  { eapply returns_mono; [apply basicMul_spec; [done|done|lia]|]. intros p (Ep & Hp & Lp). split; [done|]. split; [done|lia]. }
  unfold basicSqrThreshold in Hge. assert (exists x0 x', x = x0 :: x') as (x0 & x' & Ex) by (destruct x; [len_lia|eauto]).
  assert (Hx0 : word_ok x0) by (rewrite Ex in Hx; by apply Forall_cons_1 in Hx as [Hx _]).
  replace (idx x 0) with (Ok x0) by (by rewrite Ex). cbn [rbind].
  pose proof (store_square [] z x0 Hx0 ltac:(lia)) as Hsq. cbn [app] in Hsq. change (len (@nil Z)) with 0 in Hsq.
  destruct (mulWW x0 x0) as [hi lo]. change (0 + 1) with 1 in Hsq. destruct (upd z 1 hi) as [z'| |]; cbn [rbind] in *; [|done..].
  eapply returns_bind_mono; [exact Hsq|]. intros z1 (hi' & lo' & zhi & -> & Lzhi & Hsw & Esq). clear Hsq.
  assert (Hinit : squares x ([lo'; hi'] ++ zhi, zeros (2 * len x), 1)).
  { split; [lia|]. split; [rewrite len_app; change (len [lo'; hi']) with 2; lia|].
    exists [lo'; hi'], zhi, []. split; [done|]. split; [done|]. split; [done|].
    split; [rewrite zeros_S by lia; cbn [app]; do 2 f_equal; lia|]. split; [done|]. split; [constructor|].
    rewrite Esq. change (Z.to_nat 1) with 1%nat. rewrite Ex. cbn [take val]. rewrite !Z.mul_0_r, !Z.add_0_r. lia. }
  match goal with |- rbind (loop ?f ?g ?st) _ ⇓ _ =>
    assert (L : loop f g st ⇓ (fun '(z, t) => squares x (z, t, len x))) end.
  { apply (loop_returns (squares x) (fun '(z, t, i) => len x - i)); [|done|unfold len in *; lia..].
    intros [[z2 t] i] Hst. pose proof Hst as (Hi & _). destruct (Z.ltb_spec i (len x)) as [Hlt|Hge'].
    2: { cbn [returns]. by replace (len x) with i by lia. }
    destruct (lookup_lt_is_Some_2 x (Z.to_nat i)) as [d Hd]; [unfold len in *; lia|].
    rewrite (idx_Ok x i d) by (done || lia). cbn [rbind].
    pose proof (squares_step x z2 t i d Hx Hst Hlt Hd) as Hs.
    destruct (mulWW d d) as [h l]. destruct (upd z2 (2 * i + 1) h) as [z3| |]; cbn [rbind] in *; [|done..].
    destruct (upd z3 (2 * i) l) as [z4| |]; cbn [rbind] in *; [|done..].
    destruct (slice x 0 i) as [xi| |]; cbn [rbind] in *; [|done..].
    destruct (onRange t i (2 * i) _) as [[t' c]| |]; cbn [rbind] in *; [|done..].
    destruct (upd t' (2 * i) c) as [t''| |]; cbn [rbind returns] in *; [|done..]. split; [done|lia]. }
  eapply returns_bind_mono; [exact L|]. intros [z5 t5] Hst. apply squares_end; [done|lia|done].
Qed.

Definition sqr_upto (sqr : list Z -> list Z -> res (list Z)) (k : Z) : Prop :=
  forall z x, words_ok x -> len x < k -> sqr z x ⇓ (fun p => nval p = nval x * nval x /\ is_nat p).

Section SqrStep.
Context (scratch : Z -> list Z) (sqr : list Z -> list Z -> res (list Z)) (k : Z) (Hsqr : sqr_upto sqr k).

Lemma IntSqr_spec z x v :
  is_nat (abs x) -> len (abs x) < k -> ival x = v -> IntSqr sqr z x ⇓ (fun r => ival r = v * v /\ is_nat (abs r)).
Proof.
  intros [Hx _] Hl Ev. unfold IntSqr. apply returns_bind. eapply returns_mono; [by apply Hsqr|].
  intros a [Ea Ha]. cbn [returns]. split; [|done]. unfold ival in *. cbn [neg abs]. rewrite Ea. destruct (neg x); subst v; lia.
Qed.

Lemma karatsubaSqr_spec z x :
  words_ok x -> len z = 2 * len x -> len x <= k ->
  karatsubaSqr scratch sqr z x ⇓ (fun p => nval p = nval x * nval x /\ words_ok p /\ len p = 2 * len x).
Proof.
  intros Hx Hlz Hk. unfold karatsubaSqr. rewrite (proj2 (Z.eqb_eq (len z) _)) by done. cbn [negb].
  destruct ((len x <? karatsubaSqrThreshold) || (len x <? 2)) eqn:Eth; [by apply basicSqr_spec|].
  apply orb_false_iff in Eth as [Eth%Z.ltb_ge _]. unfold karatsubaSqrThreshold in Eth.
  pose proof (half_up (len x)) as Hn2. set (n2 := (len x + 1) / 2) in *. clearbody n2.
  destruct (slice_split x n2 ltac:(lia)) as (xa & xb & -> & Lxa). apply words_ok_app in Hx as [Hxa Hxb]. rewrite !len_app in *.
  rewrite !slice_Ok by lia. cbn [rbind].
  eapply returns_bind_mono; [by apply part_front|]. intros x0 [Ex0 Hx0].
  eapply returns_bind_mono; [apply part_back; [done|lia..]|]. intros x1 [Ex1 Hx1].
  eapply returns_bind_mono; [by apply IntSub_spec|]. intros tx [Etx [Htx _]].
  assert (Ltx : len (abs tx) <= len xa) by (apply (part_bounds xa xb); try done; [lia|left; lia]).
  eapply returns_bind_mono; [apply Hsqr; [apply Htx|lia]|]. intros a [Ea Ha].
  assert (Ez1 : ival (mkInt true a) = (nval xa - nval xb) * (nval xb - nval xa)).
  { unfold ival in *. cbn [neg abs] in *. rewrite Ea. destruct (neg tx); nia. }
  pose proof (part_len _ _ Hxa Ex0 Hx0) as Lx0. pose proof (part_len _ _ Hxb Ex1 Hx1) as Lx1.
  pose proof (product_bound xa xa Hxa Hxa) as Hp0. pose proof (product_bound xb xb Hxb Hxb) as Hp2.
  pose proof (into_both (fun s => IntSqr sqr s x0) (fun s => IntSqr sqr s x1) (2 * n2) (len z - 2 * n2)
    (nval xa * nval xa) (nval xb * nval xb) ltac:(lia) ltac:(lia)) as Hboth.
  replace (2 * n2 + (len z - 2 * n2)) with (len z) in Hboth by lia.
  ospecialize (Hboth _ _ _ _).
  { intros s'. apply IntSqr_spec; [done|lia|done]. }
  { replace (2 * n2) with (len xa + len xa) by lia. done. }
  { intros s'. apply IntSqr_spec; [done|lia|done]. }
  { replace (len z - 2 * n2) with (len xb + len xb) by lia. done. }
  destruct (into (zeros (len z)) 0 (2 * n2) _) as [[za r0]| |]; cbn [rbind] in *; [|done..].
  destruct (into za (2 * n2) (len za) _) as [[zb r2]| |]; cbn [rbind] in *; [|done..]. cbn [returns] in Hboth.
  destruct Hboth as (E0 & H0 & E2 & H2 & Ezb & Hzb & Lzb).
  replace n2 with (len xa) by done. apply (combine zb r0 r2 (mkInt true a) xa xb xa xb); try done; [|lia].
  rewrite Ezb. do 3 f_equal. lia.
Qed.

Lemma sqrStep_spec z x :
  words_ok x -> len x <= k -> sqrStep scratch sqr z x ⇓ (fun p => nval p = nval x * nval x /\ is_nat p).
Proof.
  intros Hx Hk. unfold sqrStep. destruct (Z.eqb_spec (len x) 0) as [E|E0].
  { apply len_zero_inv in E as ->. split; [done|apply is_nat_nil]. }
  assert (Hnorm : forall w, nval w = nval x * nval x -> words_ok w -> norm w ⇓ (fun p => nval p = nval x * nval x /\ is_nat p)).
  { intros w Ew Hw. eapply returns_mono; [by apply norm_spec|]. intros p (-> & Hp & _). done. }
  destruct (Z.eqb_spec (len x) 1) as [E1|E1].
  { destruct x as [|d [|? ?]]; [done| |len_lia]. change (idx [d] 0) with (Ok d). cbn [rbind].
    apply Forall_cons_1 in Hx as [Hd _]. pose proof (len_nmake z 2 ltac:(lia)) as Hl.
    pose proof (store_square [] (nmake z 2) d Hd ltac:(lia)) as Hsq. cbn [app] in Hsq. change (len (@nil Z)) with 0 in Hsq.
    change (0 + 1) with 1 in Hsq. destruct (mulWW d d) as [hi lo]. destruct (upd (nmake z 2) 1 hi) as [z'| |]; cbn [rbind] in *; [|done..].
    eapply returns_bind_mono; [exact Hsq|]. intros w (h & l & r & -> & Lr & Hw & Ew).
    assert (r = []) as -> by (apply len_zero_inv; len_lia). apply Hnorm; [|done]. rewrite Ew. cbn [val]. lia. }
  pose proof (len_nmake z (2 * len x) ltac:(len_lia)) as Hl.
  destruct ((len x <? basicSqrThreshold) && (len x <? karatsubaSqrThreshold)).
  { eapply returns_bind_mono; [apply basicMul_spec; [done|done|lia]|]. intros w (Ew & Hw & _). by apply Hnorm. }
  destruct (len x <? karatsubaSqrThreshold).
  - eapply returns_bind_mono; [by apply basicSqr_spec|]. intros w (Ew & Hw & _). by apply Hnorm.
  - eapply returns_bind_mono; [by apply karatsubaSqr_spec|]. intros w (Ew & Hw & _). by apply Hnorm.
Qed.
End SqrStep.

Lemma sqrF_spec scratch fuel : sqr_upto (sqrF scratch fuel) (Z.of_nat fuel).
Proof.
  induction fuel as [|f IH]; intros z x Hx Hl; [len_lia|]. cbn [sqrF].
  by apply (sqrStep_spec scratch _ (Z.of_nat f)); [..|lia].
Qed.

Lemma nsqr_spec scratch z x :
  words_ok x -> nsqr scratch z x ⇓ (fun p => nval p = nval x * nval x /\ is_nat p).
Proof. intros Hx. apply sqrF_spec; [done|unfold len; lia]. Qed.

End Correct.
