(* ===== verification/BigDivide.v ===== *)
(** * Package math/big: division (model)

    The functions of src/math/big/natdiv.go: division by a word, long division
    digit by digit, and the recursive division of longer divisors. *)
From Stdlib Require Import ZArith Lia.
From stdpp Require Import base numbers list.
From S2P Require Import Prelude Bits BigWords BigNat BigMul.

Section Division.
Context `{P : Platform}.

(** ** Division by a word *)

Definition divWVW (z : list Z) (xn : Z) (x : list Z) (y : Z) : res (list Z * Z) :=
  if len x =? 1 then
    let! x0 := idx x 0 in
    let! '(qq, rr) := Div _W xn x0 y in
    let! z := upd z 0 qq in
    Ok (z, rr)
  else
  let! rec := reciprocalWord y in
  loop (S (length z))
    (fun '(z, r, i) =>
       if i >=? 0 then
         let! xi := idx x i in
         let! '(q, r) := divWW r xi y rec in
         let! z := upd z i q in
         Ok (inl (z, r, i - 1))
       else Ok (inr (z, r))) (z, xn, len z - 1).

Definition divW (z x : list Z) (y : Z) : res (list Z * Z) :=
  let m := len x in
  if y =? 0 then Panic else
  if y =? 1 then Ok (nset z x, 0) else
  if m =? 0 then Ok ([], 0) else
  let z := nmake z m in
  let! '(z, r) := divWVW z 0 x y in
  let! q := norm z in
  Ok (q, r).

Definition modW (x : list Z) (d : Z) : res Z :=
  let! '(_, r) := divWVW (nmake [] (len x)) 0 x d in
  Ok r.

(** ** Long division *)

Definition greaterThan (x1 x2 y1 y2 : Z) : bool := (x1 >? y1) || ((x1 =? y1) && (x2 >? y2)).

(** The loop that refines the guess: it is left within three rounds. *)
Definition refine (qhat rhat vn1 vn2 ujn2 : Z) : res Z :=
  let '(x1, x2) := mulWW qhat vn2 in
  loop 4
    (fun '(qhat, rhat, x1, x2) =>
       if greaterThan x1 x2 rhat ujn2 then
         let qhat := word (qhat - 1) in
         let prevRhat := rhat in
         let rhat := word (rhat + vn1) in
         if rhat <? prevRhat then Ok (inr qhat) else
         let '(x1, x2) := mulWW qhat vn2 in
         Ok (inl (qhat, rhat, x1, x2))
       else Ok (inr qhat)) (qhat, rhat, x1, x2).

(** The guess of a quotient digit. *)
Definition guess (u v : list Z) (j n vn1 rec ujn : Z) : res Z :=
  if negb (ujn =? vn1) then
    let! u1 := idx u (j + n - 1) in
    let! '(qhat, rhat) := divWW ujn u1 vn1 rec in
    let! vn2 := idx v (n - 2) in
    let! ujn2 := idx u (j + n - 2) in
    refine qhat rhat vn1 vn2 ujn2
  else Ok _M.

(** Subtract [qhat] times [v] from the section of [u] at [j], and add [v] back
    when that was too much: the new [u] and digit. *)
Definition mulSub (u v qhatv : list Z) (j n qhat : Z) : res (list Z * list Z * Z) :=
  let! '(qhatv, top) := onRange qhatv 0 n (fun s => mulAddVWW s (Vec v) qhat 0) in
  let! qhatv := upd qhatv n top in
  let qhl := len qhatv in
  let qhl := if (j + qhl >? len u) && (top =? 0) then qhl - 1 else qhl in
  let! qv := slice qhatv 0 qhl in
  let! '(u, c) := onRange u j (j + qhl) (fun s => subVV s Same (Vec qv)) in
  if negb (c =? 0) then
    let! '(u, c) := onRange u j (j + n) (fun s => addVV s Same (Vec v)) in
    let! u :=
      if n <? qhl then (let! w := idx u (j + n) in upd u (j + n) (word (w + c))) else Ok u in
    Ok (u, qhatv, word (qhat - 1))
  else Ok (u, qhatv, qhat).

(** One digit of the quotient. *)
Definition divStep (v : list Z) (n m vn1 rec : Z) (st : list Z * list Z * list Z * Z * Z)
    : res (list Z * list Z * list Z * Z * Z + list Z * list Z) :=
  let '(q, u, qhatv, ujn, j) := st in
  if j >=? 0 then
    let! qhat := guess u v j n vn1 rec ujn in
    let! '(u, qhatv, qhat) := mulSub u v qhatv j n qhat in
    let! ujn := idx u (j + n - 1) in
    if (j =? m) && (m =? len q) && (qhat =? 0) then Ok (inl (q, u, qhatv, ujn, j - 1)) else
    let! q := upd q j qhat in
    Ok (inl (q, u, qhatv, ujn, j - 1))
  else Ok (inr (q, u)).

(** [qhatv] is scratch space of [n + 1] words. *)
Definition divBasic (qhatv q u v : list Z) : res (list Z * list Z) :=
  let n := len v in
  let m := len u - n in
  let! vn1 := idx v (n - 1) in
  let! rec := reciprocalWord vn1 in
  loop (S (S (length u))) (divStep v n m vn1 rec) (q, u, qhatv, 0, m).

Definition divRecursiveThreshold : Z := 40.

(** ** Recursive division

    [scratch n] stands for the contents of the [n] words that stack.nat
    returns.  The product of the guess and the low words of the divisor is kept
    in cleared storage [qs], of which the first [ql] words are the slice
    [qhatv]: the code reslices it up to its capacity. *)
Section Recursive.
Context (scratch : Z -> list Z).

(** One less in the guess: the product loses [v[:s]], the dividend regains
    [v[s:]]. *)
Definition fixup (vlo vhi : list Z) (s ql : Z) (st : list Z * list Z * list Z) : res (list Z * list Z * list Z) :=
  let '(qhat, qs, uu) := st in
  let! '(qhat, _) := subVW qhat Same 1 in
  let! '(qs, c) := onRange qs 0 s (fun w => subVV w Same (Vec vlo)) in
  let! qs :=
    if ql >? s then (let! '(qs, _) := onRange qs s ql (fun w => subVW w Same c) in Ok qs)
    else Ok qs in
  let! uu := addToAt uu s vhi in
  Ok (qhat, qs, uu).

(** [qhatv.cmp(uu.norm())] *)
Definition cmpNorm (qs : list Z) (ql : Z) (uu : list Z) : res Z :=
  let! qhatv := slice qs 0 ql in
  let! un := norm uu in
  cmp qhatv un.

(** The corrections of the guess: two at most; the loop for the lowest wide
    digit goes on where the other one breaks. *)
Definition fixups (breaks : bool) (vlo vhi : list Z) (s ql : Z) (st : list Z * list Z * list Z)
    : res (list Z * list Z * list Z) :=
  loop 3
    (fun '(st, i) =>
       if i <? 2 then
         let '(qhat, qs, uu) := st in
         let! e := cmpNorm qs ql uu in
         if e <=? 0 then Ok (if breaks then inr st else inl (st, i + 1))
         else
           let! st := fixup vlo vhi s ql st in
           Ok (inl (st, i + 1))
       else Ok (inr st)) (st, 0).

(** From the guess [qhat] and the dividend, whose words above [s] hold the
    remainder of the guess, the digit, the remainder and the last borrow. *)
Definition reduce (breaks : bool) (qhat uu v : list Z) (s n : Z) : res (list Z * list Z * Z) :=
  let! vlo := slice v 0 s in
  let! vhi := slice v s n in
  let! qhatv := nmul scratch (zeros (3 * n)) qhat vlo in
  let ql := len qhatv in
  let qs := qhatv ++ zeros (3 * n - ql) in
  let! '(qhat, qs, uu) := fixups breaks vlo vhi s ql (qhat, qs, uu) in
  let! e := cmpNorm qs ql uu in
  if e >? 0 then Panic else
  let! qhatv := slice qs 0 ql in
  let! '(uu, c) := onRange uu 0 ql (fun w => subVV w Same (Vec qhatv)) in
  let! '(uu, c) := if c >? 0 then onRange uu ql (len uu) (fun w => subVW w Same c) else Ok (uu, c) in
  Ok (qhat, uu, c).

Section Open.
Context (rec : list Z -> list Z -> list Z -> res (list Z * list Z)).

(** The loop over the wide digits but the lowest one. *)
Definition wideDigits (z u v : list Z) (n m WB s : Z) : res (list Z * list Z) :=
  let! vhi := slice v s n in
  loop (S (length u))
    (fun '(z, u, j) =>
       if j >? WB then
         let! '(u, qhat) := onRange u (j - WB) (len u) (fun uu =>
           let! '(uu, qhat) := onRange uu s (WB + n) (fun w =>
             let! '(qhat, w) := rec (zeros (WB + 1)) w vhi in
             Ok (w, qhat)) in
           let! qhat := norm qhat in
           let! '(qhat, uu, _) := reduce true qhat uu v s n in
           Ok (uu, qhat)) in
         let! z := addToAt z (j - WB) qhat in
         Ok (inl (z, u, j - WB))
       else Ok (inr (z, u))) (z, u, m).

(** The lowest wide digit. *)
Definition lastDigit (z u v : list Z) (n WB s : Z) : res (list Z * list Z) :=
  let! vhi := slice v s n in
  let! '(u, qhat) := onRange u s (len u) (fun w =>
    let! wn := norm w in
    let! '(qhat, r) := rec (zeros (WB + 1)) wn vhi in
    Ok (r ++ drop (length wn) w, qhat)) in
  let! qhat := norm qhat in
  let! '(qhat, u, c) := reduce false qhat u v s n in
  if c >? 0 then Panic else
  let! qhat := norm qhat in
  let! z := addTo z qhat in
  Ok (z, u).

Definition divRecursiveBody (z u v : list Z) : res (list Z * list Z) :=
  let uAll := u in
  let! u := norm u in
  let! v := norm v in
  if len u =? 0 then Ok (zeros (len z), uAll) else
  let n := len v in
  let rest := drop (length u) uAll in
  if n <? divRecursiveThreshold then
    let! '(z, u) := divBasic (scratch (n + 1)) z u v in
    Ok (z, u ++ rest)
  else
  let m := len u - n in
  if m <? 0 then Ok (z, uAll) else
  let WB := n / 2 in
  let s := WB - 1 in
  let! '(z, u) := wideDigits z u v n m WB s in
  let! '(z, u) := lastDigit z u v n WB s in
  Ok (z, u ++ rest).
End Open.

Fixpoint divRecursiveStep (fuel : nat) (z u v : list Z) : res (list Z * list Z) :=
  match fuel with
  | O => NoFuel
  | S f => divRecursiveBody (divRecursiveStep f) z u v
  end.

(** Each call divides by about half as many words. *)
Definition divRecursive (z u v : list Z) : res (list Z * list Z) :=
  divRecursiveStep (S (length v)) (zeros (len z)) u v.
End Recursive.

(** ** Division *)

Definition divLarge (scratch : Z -> list Z) (z u uIn vIn : list Z) : res (list Z * list Z) :=
  let n := len vIn in
  let m := len uIn - n in
  let! top := idx vIn (n - 1) in
  let! shift := nlz top in
  let v := scratch n in
  let u := nmake u (len uIn + 1) in
  let! '(v, u) :=
    if shift =? 0 then
      let! '(u, _) := onRange u 0 (len uIn) (fun s => Ok (copyAll s (Vec uIn), 0)) in
      let! u := upd u (len uIn) 0 in
      Ok (copyAll v (Vec vIn), u)
    else
      let! '(v, _) := lshVU v (Vec vIn) shift in
      let! '(u, c) := onRange u 0 (len uIn) (fun s => lshVU s (Vec uIn) shift) in
      let! u := upd u (len uIn) c in
      Ok (v, u) in
  let q := nmake z (m + 1) in
  let! '(q, u) :=
    if n <? divRecursiveThreshold then divBasic (scratch (n + 1)) q u v else divRecursive scratch q u v in
  let! q := norm q in
  let! u := if negb (shift =? 0) then (let! '(u, _) := rshVU u Same shift in Ok u) else Ok u in
  let! r := norm u in
  Ok (q, r).

Definition ndiv (scratch : Z -> list Z) (z z2 u v : list Z) : res (list Z * list Z) :=
  if len v =? 0 then Panic else
  if len v =? 1 then
    let! v0 := idx v 0 in
    let! '(q, r2) := divW z u v0 in
    let! r := setWord z2 r2 in
    Ok (q, r)
  else
  let! c := cmp u v in
  if c <? 0 then Ok ([], nset z2 u) else
  divLarge scratch z z2 u v.
End Division.


(** A product and its division: (2^128 - 1)^2 + 5 by 2^128 - 1. *)
Example big_example :
  let P := amd64 in
  let x := [2 ^ 64 - 1; 2 ^ 64 - 1] in
  (let! p := nmul (fun n => replicate (Z.to_nat n) 7) [] x x in
   let! s := nadd [] p [5] in
   ndiv (fun n => replicate (Z.to_nat n) 7) [] [] s x) = Ok (x, [5]).
Proof. vm_compute. reflexivity. Qed.

(** A recursive division: a divisor of 50 words. *)
Example big_recursive :
  let P := amd64 in
  let scratch := fun n => replicate (Z.to_nat n) 7 in
  let x := replicate 50 (2 ^ 64 - 1) in
  let y := 5 :: replicate 120 0 ++ [9; 8] in
  (let! p := nmul scratch [] x y in
   let! s := nadd [] p [5; 6; 7] in
   ndiv scratch [] [] s x) = Ok (y, [5; 6; 7]).
Proof. vm_compute. reflexivity. Qed.
