(* ===== verification/BigDiv.v ===== *)
(** * Package math/big: long division

    Correctness of the division of BigNat.v: by a word, with the reciprocal
    computed once, and by a number, digit by digit, each digit guessed from
    the leading words, refined, and corrected by at most one. *)
From Stdlib Require Import ZArith Lia.
From stdpp Require Import base numbers list.
From S2P Require Import Prelude Bits BigWords BigWordsCorrect BigNat BigNatCorrect BigMul BigMulCorrect BigDivide.

(** ** The guess of a quotient digit, in arithmetic

    The divisor is [V = a + w * (v2 + B * v1)], the section of the dividend
    [S = b + w * (u2 + B * (u1 + B * u0))], with [w] the weight of the two
    leading words of the divisor. *)
Section Guess.
Context (B w a b v1 v2 u0 u1 u2 V S : Z).
Context (Hw : 1 <= w) (Ha : 0 <= a < w) (Hb : 0 <= b < w).
Context (Hv1 : 0 <= v1 < B) (Hv2 : 0 <= v2 < B) (Hu0 : 0 <= u0) (Hu1 : 0 <= u1 < B) (Hu2 : 0 <= u2 < B).
Context (Hnorm : B <= 2 * v1) (HV : V = a + w * (v2 + B * v1)) (HS : S = b + w * (u2 + B * (u1 + B * u0))).
Context (HSV : S < B * V).

Lemma V_pos : 0 < V.
Proof. assert (1 <= B * v1) by nia. assert (1 <= w * (v2 + B * v1)) by nia. lia. Qed.

Lemma lead_le : u0 <= v1.
Proof.
  assert (V <= w * B * (v1 + 1)) by nia. assert (w * B * B * u0 <= S) by nia.
  assert (B * V <= B * (w * B * (v1 + 1))) by (apply Z.mul_le_mono_nonneg_l; lia).
  assert (0 < w * B * B) by nia. assert (w * B * B * u0 < w * B * B * (v1 + 1)) by lia. nia.
Qed.

(** The largest digit, when the leading words are equal. *)
Lemma guess_max : u0 = v1 -> (B - 2) * V <= S.
Proof.
  intros E. assert (0 <= w * u2) by nia. assert (0 <= w * B) by nia. assert (0 <= w * B * u1) by nia.
  assert (w * B * B * v1 <= S) by (rewrite HS, E; lia).
  assert (w * (v2 + 1) <= w * B) by nia. assert (HV2 : V <= w * B * v1 + w * B) by lia. assert (2 <= B) by lia.
  assert ((B - 2) * V <= (B - 2) * (w * B * v1 + w * B)) by (apply Z.mul_le_mono_nonneg_l; lia).
  assert (0 <= w * B * (2 * v1 - B)) by nia. lia.
Qed.

(** The first guess is not too small. *)
Lemma guess_high q r : q * v1 + r = u0 * B + u1 -> r < v1 -> 0 <= q -> S < (q + 1) * V.
Proof.
  intros E Hr Hq. assert (w * (u2 + 1) <= w * B) by nia. assert (S < w * B * (u0 * B + u1 + 1)) by lia.
  assert (0 <= w * B) by nia.
  assert (w * B * (u0 * B + u1 + 1) <= w * B * ((q + 1) * v1)) by (apply Z.mul_le_mono_nonneg_l; lia).
  assert (w * B * v1 <= V) by nia.
  assert ((q + 1) * (w * B * v1) <= (q + 1) * V) by (apply Z.mul_le_mono_nonneg_l; lia). lia.
Qed.

(** A guess that fails the test is too large; one that passes it is at most
    one too large. *)
Lemma test_fails q r : q * v1 + r = u0 * B + u1 -> 0 <= q -> r * B + u2 < q * v2 -> S < q * V.
Proof.
  intros E Hq Ht. assert (EB : (q * v1 + r) * B = (u0 * B + u1) * B) by (f_equal; lia).
  assert (u2 + B * (u1 + B * u0) < q * (v2 + B * v1)) by lia.
  assert (w * (u2 + B * (u1 + B * u0) + 1) <= w * (q * (v2 + B * v1))) by (apply Z.mul_le_mono_nonneg_l; lia).
  assert (0 <= q * a) by nia. rewrite HV. lia.
Qed.

Lemma test_passes q r : q * v1 + r = u0 * B + u1 -> 0 <= q < B -> q * v2 <= r * B + u2 -> (q - 1) * V <= S.
Proof.
  intros E Hq Ht. assert (EB : (q * v1 + r) * B = (u0 * B + u1) * B) by (f_equal; lia).
  assert (q * (v2 + B * v1) <= u2 + B * (u1 + B * u0)) by lia.
  assert (w * (q * (v2 + B * v1)) <= w * (u2 + B * (u1 + B * u0))) by (apply Z.mul_le_mono_nonneg_l; lia).
  assert (q * a <= q * w /\ q * w <= B * w) by nia. assert (w * B <= w * B * v1) by nia.
  assert (0 <= w * v2) by nia. lia.
Qed.
End Guess.

Section Division.
Context `{P : Platform}.
Abbreviation B := (2 ^ _W).
Abbreviation nval := (val _W).

(** ** Division by a word *)

Lemma divWVW_spec z xn x y :
  words_ok x -> 0 < y < B -> 0 <= xn < y -> len z = len x -> 
  divWVW z xn x y ⇓ (fun '(q, r) =>
    xn * weight (len x) + nval x = nval q * y + r /\ 0 <= r < y /\ words_ok q /\ len q = len x).
Proof.
  intros Hx Hy Hxn Hz. unfold divWVW. destruct (Z.eqb_spec (len x) 1) as [E1|_].
  { destruct x as [|d [|? ?]]; [len_lia| |len_lia]. destruct z as [|e [|? ?]]; [len_lia| |len_lia].
    apply Forall_cons_1 in Hx as [Hd _]. change (idx [d] 0) with (Ok d). cbn [rbind].
    eapply returns_bind_mono; [apply Div_word; unfold word_ok; (lia || done)|]. intros [q r] (E & Hr & Hq).
    change (upd [e] 0 q) with (Ok [q]). cbn [rbind returns val]. change (len [d]) with 1. rewrite weight_1.
    split; [lia|]. split; [done|]. split; [by constructor|done]. }
  destruct (nlz_norm y Hy) as (s & Es & _).
  eapply returns_bind_mono; [by apply (reciprocalWord_spec y s)|]. intros rec Hrec.
  apply (loop_returns (fun '(w, r, i) => -1 <= i < len x /\ 0 <= r < y /\ exists p qs, w = p ++ qs /\ len p = i + 1 /\
      words_ok qs /\ len qs = len x - (i + 1) /\
      xn * weight (len qs) + nval (drop (Z.to_nat (i + 1)) x) = nval qs * y + r) (fun '(w, r, i) => i + 1)).
  2: { split; [len_lia|]. split; [lia|]. exists z, []. rewrite app_nil_r, drop_ge by (unfold len in *; lia).
       split; [done|]. split; [lia|]. split; [constructor|]. change (len (@nil Z)) with 0. rewrite weight_0. cbn [val]. lia. }
  2,3: unfold len in *; lia.
  intros [[w r] i] (Hi & Hr & p & qs & -> & Hp & Hqs & Hlq & E). destruct (Z.geb_spec i 0) as [Hi0|Hi0].
  2: { assert (i = -1) as -> by lia. assert (p = []) as -> by (by apply len_zero_inv). cbn [returns app].
       change (Z.to_nat (-1 + 1)) with 0%nat in E. rewrite drop_0 in E. replace (len qs) with (len x) in E by lia.
       split; [lia|]. split; [done|]. split; [done|lia]. }
  destruct (lookup_lt_is_Some_2 x (Z.to_nat i)) as [d Hd]; [unfold len in *; lia|].
  assert (Hdw : word_ok d) by (by eapply (Forall_lookup_1 _ x)).
  rewrite (idx_Ok x i d) by (done || lia). cbn [rbind].
  rewrite (divWW_spec r d y rec s) by (unfold word_ok; (done || lia)). cbn [rbind].
  destruct (exists_last (l := p)) as (p' & e & ->); [intros ->; len_lia|].
  rewrite <- app_assoc. cbn [app]. rewrite upd_app by len_lia. cbn [rbind returns].
  pose proof (Z.div_mod (r * B + d) y ltac:(lia)) as Edm. pose proof (Z.mod_pos_bound (r * B + d) y ltac:(lia)).
  assert (Hq : word_ok ((r * B + d) / y)) by (unfold word_ok in *; split; [apply Z.div_pos; nia|apply Z.div_lt_upper_bound; nia]).
  split; [|lia]. split; [lia|]. split; [done|]. exists p', ((r * B + d) / y :: qs).
  split; [done|]. split; [len_lia|]. split; [by constructor|]. split; [len_lia|].
  replace (Z.to_nat (i - 1 + 1)) with (Z.to_nat i) by lia. rewrite (drop_cons_lookup _ _ _ Hd).
  replace (S (Z.to_nat i)) with (Z.to_nat (i + 1)) by lia. rewrite len_cons, weight_add, weight_1, !nval_cons by len_lia. nia.
Qed.

Lemma divW_spec z x y :
  is_nat x -> 0 <= y < B ->
  if y =? 0 then divW z x y = Panic
  else divW z x y ⇓ (fun '(q, r) => nval q = nval x / y /\ r = nval x mod y /\ is_nat q).
Proof.
  intros Hx Hy. unfold divW. destruct (Z.eqb_spec y 0) as [->|Hy0]; [done|].
  destruct (Z.eqb_spec y 1) as [->|Hy1].
  { rewrite nset_eq. cbn [returns]. by rewrite Z.div_1_r, Z.mod_1_r. }
  destruct (Z.eqb_spec (len x) 0) as [E|E].
  { apply len_zero_inv in E as ->. cbn [returns val]. rewrite Z.div_0_l, Z.mod_0_l by lia. split; [done|]. split; [done|apply is_nat_nil]. }
  eapply returns_bind_mono; [apply divWVW_spec; [apply Hx|lia|lia|apply len_nmake; len_lia]|].
  intros [q r] (Ev & Hr & Hq & _). eapply returns_bind_mono; [by apply norm_spec|].
  intros q' (E' & Hq' & _). cbn [returns]. rewrite E'. split; [|split; [|done]].
  - apply (Z.div_unique _ _ _ r); lia.
  - apply (Z.mod_unique _ _ (nval q)); lia.
Qed.

(** ** One digit of a long division *)

Lemma greaterThan_spec x1 x2 y1 y2 :
  word_ok x2 -> word_ok y2 -> greaterThan x1 x2 y1 y2 = (y1 * B + y2 <? x1 * B + x2).
Proof.
  unfold word_ok, greaterThan. intros Hx Hy. rewrite !Z.gtb_ltb.
  destruct (Z.ltb_spec (y1 * B + y2) (x1 * B + x2)), (Z.ltb_spec y1 x1), (Z.eqb_spec x1 y1), (Z.ltb_spec y2 x2);
    cbn [orb andb]; try done; nia.
Qed.

(** A list of at least two words, by its two highest. *)
Lemma two_highest (l : list Z) : 2 <= len l -> exists l' a c, l = l' ++ [a; c] /\ len l' = len l - 2.
Proof.
  intros Hl. destruct (exists_last (l := l)) as (l1 & c & ->); [intros ->; len_lia|].
  destruct (exists_last (l := l1)) as (l2 & a & ->); [intros ->; len_lia|].
  exists l2, a, c. split; [by rewrite <- app_assoc|len_lia].
Qed.

(** Zero words above a value that fits below them. *)
Lemma high_zero r1 e : words_ok (r1 ++ [e]) -> nval (r1 ++ [e]) < weight (len r1) -> e = 0.
Proof.
  intros Hw Hlt. apply words_ok_app in Hw as [H1 H2]. apply Forall_cons_1 in H2 as [He _]. pose proof (nval_bound r1 H1).
  rewrite nval_snoc in Hlt. pose proof (weight_pos (len r1) (len_nonneg r1)). nia.
Qed.

Lemma zeros_app a b : zeros a ++ zeros b = zeros (Z.max 0 a + Z.max 0 b).
Proof. unfold zeros. rewrite <- replicate_add. f_equal. lia. Qed.

(** Storing the digit: the top digit is dropped, when it is zero and there is
    no room for it. *)
Lemma store_digit q j m qhat :
  0 <= j <= m -> m <= len q -> (j = m -> len q = m -> qhat = 0) ->
  exists q', (if (j =? m) && (m =? len q) && (qhat =? 0) then Ok q else upd q j qhat) = Ok q' /\ len q' = len q /\
    (drop (Z.to_nat j) q' = qhat :: drop (Z.to_nat (j + 1)) q \/
     (qhat = 0 /\ drop (Z.to_nat j) q' = [] /\ drop (Z.to_nat (j + 1)) q = [])).
Proof.
  intros Hj Hq Htop. destruct ((j =? m) && (m =? len q)) eqn:E.
  - apply andb_true_iff in E as [->%Z.eqb_eq E%Z.eqb_eq]. rewrite (Htop eq_refl) by done. cbn [andb Z.eqb].
    exists q. split; [done|]. split; [done|]. right. rewrite !drop_ge by (unfold len in *; lia). done.
  - assert (Hlt : j < len q) by (apply andb_false_iff in E as [E%Z.eqb_neq|E%Z.eqb_neq]; lia).
    cbn [andb]. rewrite upd_Ok by lia. eexists. split; [done|]. split; [by rewrite len_insert|]. left.
    replace (Z.to_nat (j + 1)) with (S (Z.to_nat j)) by lia.
    rewrite (drop_cons_lookup _ _ qhat); [|apply list_lookup_insert_eq; unfold len in *; lia].
    f_equal. apply drop_insert_lt. lia.
Qed.

(** The divisor: [n] words of which the highest has its top bit set. *)
Section Divisor.
Context (v : list Z) (n vn1 vn2 : Z) (vlo : list Z).
Context (Hv : v = vlo ++ [vn2; vn1]) (Hvw : words_ok v) (Hn : n = len v) (Hnorm : B <= 2 * vn1).
Let V := nval v.
Let w := weight (n - 2).

Lemma n_ge2 : 2 <= n.
Proof. rewrite Hn, Hv. len_lia. Qed.
Lemma vlo_len : len vlo = n - 2.
Proof. rewrite Hn, Hv. len_lia. Qed.
Lemma v_words : words_ok vlo /\ word_ok vn2 /\ word_ok vn1.
Proof.
  pose proof Hvw as H. rewrite Hv in H. apply words_ok_app in H as [H1 H2].
  apply Forall_cons_1 in H2 as [H2 H3]. apply Forall_cons_1 in H3 as [H3 _]. done.
Qed.
Lemma V_eq : V = nval vlo + w * (vn2 + B * vn1).
Proof. unfold V, w. rewrite Hv, nval_app, vlo_len. cbn [val]. lia. Qed.
Lemma w_pos : 1 <= w.
Proof. unfold w. pose proof n_ge2. pose proof (weight_pos (n - 2)). lia. Qed.
Lemma vlo_bound : 0 <= nval vlo < w.
Proof. unfold w. rewrite <- vlo_len. apply nval_bound, v_words. Qed.
Lemma V_bound : 0 < V < weight n.
Proof.
  pose proof (nval_bound v Hvw). rewrite <- Hn in *. split; [|apply H]. destruct v_words as (_ & H2 & H1). unfold word_ok in *.
  eapply (V_pos B w (nval vlo) vn1 vn2); try apply V_eq; pose proof w_pos; pose proof vlo_bound; (lia || done).
Qed.

(** A section of the dividend, by its leading words. *)
Section Digit.
Context (S b u0 u1 u2 : Z).
Context (Hb : 0 <= b < w) (Hu0 : word_ok u0) (Hu1 : word_ok u1) (Hu2 : word_ok u2).
Context (HS : S = b + w * (u2 + B * (u1 + B * u0))) (HSV : S < B * V).

(** [q] is the digit, or one more. *)
Definition close (q : Z) : Prop := word_ok q /\ S < (q + 1) * V /\ (q - 1) * V <= S.

Lemma refine_spec qhat rhat :
  word_ok qhat -> 0 <= rhat < vn1 -> qhat * vn1 + rhat = u0 * B + u1 ->
  refine qhat rhat vn1 vn2 u2 ⇓ (fun q => close q /\ q * vn1 <= u0 * B + u1).
Proof.
  destruct v_words as (_ & Hv2 & Hv1). pose proof w_pos. pose proof vlo_bound. pose proof V_eq.
  intros Hq Hr E. unfold refine, mulWW. pose proof (Mul_word qhat vn2 Hq Hv2) as M.
  destruct (Mul _W qhat vn2) as [x1 x2]. unfold word_ok in *. pose proof B_pos.
  apply (loop_returns (fun '(q, r, x1, x2) => word_ok q /\ word_ok r /\ q * vn1 + r = u0 * B + u1 /\ S < (q + 1) * V /\
      x1 * B + x2 = q * vn2 /\ word_ok x2) (fun '(q, r, x1, x2) => (B - 1 - r) / vn1)).
  - intros [[[q r] y1] y2] (Hqw & Hrw & Eq & Hlow & Ey & Hy2). rewrite greaterThan_spec, Ey by done. unfold word_ok in *.
    destruct (Z.ltb_spec (r * B + u2) (q * vn2)) as [Ht|Ht].
    + assert (Hlow' : S < q * V) by (eapply (test_fails B w (nval vlo) b vn1 vn2 u0 u1 u2 V S); (done || lia)).
      assert (Hq1 : 1 <= q) by (destruct (decide (q = 0)) as [->|]; [lia|lia]).
      rewrite (word_small (q - 1)) by lia. destruct (Z.lt_ge_cases (r + vn1) B) as [Hno|Hov].
      * rewrite (word_small (r + vn1)), (proj2 (Z.ltb_ge _ _)) by lia.
        assert (Hqm : word_ok (q - 1)) by (unfold word_ok; lia). pose proof (Mul_word (q - 1) vn2 Hqm Hv2) as M2.
        unfold mulWW. destruct (Mul _W (q - 1) vn2) as [z1 z2]. unfold word_ok in *. cbn [returns].
        split; [repeat split; lia|]. replace (B - 1 - (r + vn1)) with (B - 1 - r + (-1) * vn1) by lia.
        rewrite Z.div_add by lia. assert (1 <= (B - 1 - r) / vn1) by (apply Z.div_le_lower_bound; lia). lia.
      * assert (Ew : word (r + vn1) = r + vn1 - B) by (unfold word; symmetry; apply (Z.mod_unique _ _ 1); lia).
        rewrite Ew, (proj2 (Z.ltb_lt _ _)) by lia. cbn [returns]. split; [|lia]. split; [unfold word_ok; lia|].
        split; [lia|]. eapply (test_passes B w (nval vlo) b vn1 vn2 u0 u1 u2 V S) with (r := r + vn1); try (done || lia).
        assert ((q - 1) * vn2 <= B * B) by (apply Z.mul_le_mono_nonneg; lia).
        assert (B * B <= (r + vn1) * B) by (apply Z.mul_le_mono_nonneg_r; lia). lia.
    + cbn [returns]. split; [|lia]. split; [done|]. split; [done|].
      eapply (test_passes B w (nval vlo) b vn1 vn2 u0 u1 u2 V S) with (r := r); (done || lia).
  - repeat split; try lia. eapply (guess_high B w (nval vlo) b vn1 vn2 u0 u1 u2 V S) with (r := rhat); (done || lia).
  - assert ((B - 1 - rhat) / vn1 < 2); [|lia]. apply Z.div_lt_upper_bound; lia.
  - apply Z.div_pos; lia.
Qed.

Lemma guess_spec u pre post j rec s :
  u = pre ++ u2 :: u1 :: post -> len pre = j + n - 2 -> nlz vn1 = Ok s -> reciprocal (vn1 * 2 ^ s) rec ->
  guess u v j n vn1 rec u0 ⇓ (fun q => close q /\ q * vn1 <= u0 * B + u1).
Proof.
  destruct v_words as (Hvl & Hv2 & Hv1). pose proof w_pos. pose proof vlo_bound. pose proof V_eq. pose proof B_pos.
  intros -> Hpre Es Hrec. unfold guess. pose proof n_ge2.
  assert (Hle : u0 <= vn1) by (unfold word_ok in *; eapply (lead_le B w (nval vlo) b vn1 vn2 u0 u1 u2 V S); (done || lia)).
  destruct (Z.eqb_spec u0 vn1) as [E0|E0]; cbn [negb].
  - cbn [returns]. unfold _M. rewrite _B_eq. split; [|unfold word_ok in *; lia]. split; [unfold word_ok; lia|]. split; [lia|].
    unfold word_ok in *. replace (B - 1 - 1) with (B - 2) by lia.
    eapply (guess_max B w (nval vlo) b vn1 vn2 u0 u1 u2 V S); (done || lia).
  - replace (j + n - 1) with (len (pre ++ [u2])) by len_lia.
    assert (idx (pre ++ u2 :: u1 :: post) (len (pre ++ [u2])) = Ok u1) as ->.
    { replace (pre ++ u2 :: u1 :: post) with ((pre ++ [u2]) ++ u1 :: post) by (by rewrite <- app_assoc). by apply idx_app. }
    cbn [rbind]. assert (Hvp : 0 < vn1 < B) by (unfold word_ok in *; lia).
    rewrite (divWW_spec u0 u1 vn1 rec s) by (done || lia). cbn [rbind].
    assert (idx v (n - 2) = Ok vn2) as -> by (rewrite Hv; apply idx_app; by rewrite vlo_len).
    cbn [rbind]. rewrite idx_app by lia. cbn [rbind]. unfold word_ok in *.
    assert (Hmod : 0 <= (u0 * B + u1) mod vn1 < vn1) by (apply Z.mod_pos_bound; lia).
    assert (Edm : u0 * B + u1 = vn1 * ((u0 * B + u1) / vn1) + (u0 * B + u1) mod vn1) by (apply Z.div_mod; lia).
    apply refine_spec; [|done|lia]. split; [apply Z.div_pos; nia|apply Z.div_lt_upper_bound; nia].
Qed.
End Digit.

(** The digit and the remainder of the section. *)
Lemma close_exact S q :
  close S q -> 0 <= S -> (q * V <= S /\ q = S / V) \/ (S < q * V /\ q - 1 = S / V /\ 1 <= q).
Proof.
  intros (Hq & Hlow & Hhigh) HS. pose proof V_bound. unfold word_ok in *.
  destruct (Z.le_gt_cases (q * V) S); [left|right].
  - split; [done|]. apply (Z.div_unique _ _ _ (S - q * V)); lia.
  - split; [done|]. split; [apply (Z.div_unique _ _ _ (S - (q - 1) * V)); lia|nia].
Qed.

(** Adding the divisor back to a section that went below zero. *)
Lemma addBack lo sec hi j k R :
  len lo = j -> len sec = k -> words_ok sec -> (k = n \/ k = n + 1) ->
  nval sec + V = weight k + R -> 0 <= R < V ->
  (let! '(u, c) := onRange (lo ++ sec ++ hi) j (j + n) (fun s => addVV s Same (Vec v)) in
   if n <? k then (let! e := idx u (j + n) in upd u (j + n) (word (e + c))) else Ok u)
  ⇓ (fun u => exists r, u = lo ++ r ++ hi /\ len r = k /\ words_ok r /\ nval r = R).
Proof.
  intros Hlo Hk Hw Hkn Ev HR. pose proof V_bound as HVb. pose proof n_ge2.
  destruct (slice_split sec n ltac:(lia)) as (s1 & s2 & -> & Hs1). apply words_ok_app in Hw as [Hw1 Hw2].
  rewrite <- app_assoc, onRange_app by lia. apply returns_bind, returns_bind.
  eapply returns_mono; [apply addVV_spec; cbn [words]; try done; apply len_eq_length; lia|].
  cbn [words]. intros [t c] (Et & Ht & Hlt & Hc). cbn [returns]. fold V in Et. rewrite Hs1 in Et.
  assert (Hlt' : len t = n) by (unfold len in *; lia). pose proof (nval_bound t Ht) as Htb. rewrite Hlt' in Htb.
  rewrite len_app in Hk. rewrite nval_app, Hs1 in Ev. destruct Hkn as [->| ->].
  - rewrite Z.ltb_irrefl. cbn [returns]. assert (s2 = []) as -> by (apply len_zero_inv; lia). exists t.
    cbn [val app] in *. split; [done|]. split; [done|]. split; [done|]. assert (c = 0 \/ c = 1) as [-> | ->] by lia; lia.
  - rewrite (proj2 (Z.ltb_lt n _)) by lia. destruct s2 as [|e [|? ?]]; [len_lia| |len_lia].
    apply Forall_cons_1 in Hw2 as [He _]. cbn [app].
    rewrite app_assoc, idx_app by len_lia. cbn [rbind]. rewrite upd_app by len_lia. cbn [returns].
    cbn [val] in Ev. rewrite weight_add, weight_1 in Ev by lia.
    assert (Ec : e + c = B /\ nval t = R).
    { assert (weight n * (e + c - B) = R - nval t) by lia. assert (- 1 < e + c - B < 1); [|split; [lia|nia]]. nia. }
    destruct Ec as [Ec Er]. assert (word (e + c) = 0) as -> by (unfold word; rewrite Ec; apply Z.mod_same; lia).
    exists (t ++ [0]). rewrite <- !app_assoc. split; [done|]. split; [len_lia|].
    split; [apply words_ok_app; split; [done|constructor; [pose proof B_pos; lia|constructor]]|]. rewrite nval_snoc. lia.
Qed.

Lemma mulSub_spec lo sec hi qhatv j k S qhat :
  len lo = j -> len sec = k -> words_ok sec -> nval sec = S -> len qhatv = n + 1 ->
  (k = n + 1 \/ (k = n /\ hi = [] /\ qhat <= 1)) -> close S qhat ->
  mulSub (lo ++ sec ++ hi) v qhatv j n qhat ⇓ (fun '(u, qhatv, q) =>
    len qhatv = n + 1 /\ q = S / V /\
    exists r, u = lo ++ r ++ hi /\ len r = k /\ words_ok r /\ nval r = S mod V).
Proof.
  intros Hlo Hk Hw ES Hq Hkn Hcl. pose proof V_bound as HVb. pose proof n_ge2. pose proof B_pos.
  pose proof (nval_bound sec Hw) as Hsb. pose proof (close_exact S qhat Hcl ltac:(lia)) as Hex.
  destruct Hcl as (Hqw & Hlow & Hhigh). unfold mulSub.
  destruct (exists_last (l := qhatv)) as (qa & qe & ->); [intros ->; len_lia|].
  assert (Hqa : len qa = n) by (rewrite len_app in Hq; change (len [qe]) with 1 in Hq; lia).
  rewrite onRange_front by lia. apply returns_bind, returns_bind.
  eapply returns_mono; [apply mulAddVWW_spec; [apply len_eq_length; cbn [words]; lia|done|done|unfold word_ok; lia]|].
  cbn [words]. intros [s top] (Em & Hs & Hls & Htop). cbn [returns]. fold V in Em.
  assert (Hls' : len s = n) by (unfold len in *; lia). rewrite Hqa in Em.
  rewrite upd_last by lia. cbn [rbind]. pose proof (nval_bound s Hs) as Hsb2. rewrite Hls' in Hsb2.
  set (qhl := if _ && _ then _ else _).
  assert (exists qv, qhl = k /\ slice (s ++ [top]) 0 qhl = Ok qv /\ len qv = k /\ words_ok qv /\ nval qv = V * qhat)
    as (qv & Eq & -> & Hlq & Hqv & Eqv).
  { unfold qhl. rewrite !len_app, Hls'. change (len [top]) with 1. destruct Hkn as [->|(-> & -> & HSV)].
    - rewrite Z.gtb_ltb, (proj2 (Z.ltb_ge _ _)) by len_lia. cbn [andb]. exists (s ++ [top]). split; [done|].
      split; [rewrite <- (app_nil_r (s ++ [top])) at 1; apply slice_front; len_lia|]. split; [len_lia|].
      split; [apply words_ok_app; split; [done|by constructor]|]. rewrite nval_snoc, Hls'. lia.
    - assert (V * qhat <= V) by nia. assert (top = 0) as -> by (unfold word_ok in *; nia).
      rewrite Z.gtb_ltb, (proj2 (Z.ltb_lt _ _)) by len_lia. cbn [andb Z.eqb]. exists s. split; [lia|].
      split; [apply slice_front; lia|]. split; [done|]. split; [done|lia]. }
  rewrite Eq in *. cbn [rbind]. rewrite onRange_app by lia. apply returns_bind, returns_bind.
  eapply returns_mono; [apply subVV_spec; cbn [words]; try done; apply len_eq_length; lia|].
  cbn [words]. intros [sec' c] (Es & Hs' & Hls2 & Hc). cbn [returns]. rewrite Hk in Es, Hsb. rewrite ES, Eqv in Es.
  assert (Hl2 : len sec' = k) by (unfold len in *; lia). pose proof (nval_bound sec' Hs') as Hb'. rewrite Hl2 in Hb'.
  pose proof (Z.div_mod S V ltac:(lia)) as Edm. pose proof (Z.mod_pos_bound S V ltac:(lia)) as Hmod.
  destruct Hex as [[Hle Hd]|(Hgt & Hd & Hq1)].
  - assert (c = 0) as -> by (assert (c = 0 \/ c = 1) as [-> | ->] by lia; lia). cbn [negb Z.eqb returns].
    split; [len_lia|]. split; [done|]. exists sec'. split; [done|]. split; [done|]. split; [done|]. rewrite <- Hd in Edm. lia.
  - assert (c = 1) as -> by (assert (c = 0 \/ c = 1) as [-> | ->] by lia; lia). cbn [negb Z.eqb].
    assert (HB : nval sec' + V = weight k + S mod V) by (rewrite <- Hd in Edm; lia).
    pose proof (addBack lo sec' hi j k _ Hlo Hl2 Hs' ltac:(tauto) HB Hmod) as Hadd.
    destruct (onRange (lo ++ sec' ++ hi) j (j + n) _) as [[u c]| |]; cbn [rbind] in *; [|done..].
    eapply returns_bind_mono; [exact Hadd|]. intros u' Hu'. cbn [returns]. split; [len_lia|].
    split; [|done]. rewrite word_small by (unfold word_ok in *; lia). done.
Qed.

(** *** The loop over the digits *)

(** Before the digit [j]: the words above the section are zero, the section
    without its lowest word is below the divisor, and the digits found so far
    account for the rest of the dividend [U]; the words of [q0] above them are
    untouched. *)
Definition progress (U m : Z) (q0 : list Z) (st : list Z * list Z * list Z * Z * Z) : Prop :=
  let '(q, u, qhatv, ujn, j) := st in
  -1 <= j <= m /\ len q = len q0 /\ len qhatv = n + 1 /\ len u = m + n /\
  exists qd lo core top k,
    drop (Z.to_nat (j + 1)) q = qd ++ drop (Z.to_nat (m + 1)) q0 /\ words_ok qd /\
    u = lo ++ (core ++ top) ++ zeros k /\ len lo = j + 1 /\ len core = n - 1 /\ words_ok (lo ++ core ++ top) /\
    ((j = m /\ top = [] /\ ujn = 0 /\ k = 0 /\ (len q0 = m -> nval (drop (Z.to_nat m) u) < V)) \/ (j < m /\ top = [ujn])) /\
    nval (core ++ top) < V /\
    U = nval lo + weight (j + 1) * (nval (core ++ top) + V * nval qd).

(** The digit of the section [d :: core ++ top]. *)
Lemma section_digit lo d core top k j m ujn rec s qhatv :
  len lo = j -> len core = n - 1 -> words_ok (d :: core ++ top) -> word_ok ujn -> len qhatv = n + 1 ->
  ((j = m /\ top = [] /\ ujn = 0 /\ k = 0) \/ (j < m /\ top = [ujn])) ->
  nval (core ++ top) < V -> nlz vn1 = Ok s -> reciprocal (vn1 * 2 ^ s) rec ->
  let u := lo ++ (d :: core ++ top) ++ zeros k in
  let S := nval (d :: core ++ top) in
  (let! qhat := guess u v j n vn1 rec ujn in mulSub u v qhatv j n qhat) ⇓ (fun '(u', qhatv', q) =>
    len qhatv' = n + 1 /\ q = S / V /\
    exists r, u' = lo ++ r ++ zeros k /\ len r = len (d :: core ++ top) /\ words_ok r /\ nval r = S mod V).
Proof.
  intros Hlo Hcore Hw Hujn Hq Hcase Hlt Es Hrec u S. pose proof n_ge2.
  destruct (two_highest (d :: core)) as (s3 & u2 & u1 & E3 & Hs3); [len_lia|]. rewrite len_cons in Hs3.
  assert (Hw3 : words_ok s3 /\ word_ok u2 /\ word_ok u1).
  { rewrite app_comm_cons, E3 in Hw. apply words_ok_app in Hw as [Hw _]. apply words_ok_app in Hw as [Hw1 Hw2].
    apply Forall_cons_1 in Hw2 as [Hw2 Hw4]. apply Forall_cons_1 in Hw4 as [Hw4 _]. done. }
  destruct Hw3 as (Hw3 & Hu2 & Hu1).
  assert (Hwn : weight n = w * (B * B)).
  { unfold w. replace n with (n - 2 + (1 + 1)) at 1 by lia. rewrite !weight_add, weight_1 by lia. done. }
  assert (HSd : S = nval s3 + w * (u2 + B * (u1 + B * ujn))).
  { unfold S. rewrite app_comm_cons, E3, nval_app, nval_app, len_app, Hs3. change (len [u2; u1]) with 2.
    replace (1 + len core - 2 + 2) with n by lia. replace (1 + len core - 2) with (n - 2) by lia. fold w.
    destruct Hcase as [(_ & -> & -> & _)|(_ & ->)]; cbn [val]; lia. }
  assert (HSV : S < B * V).
  { unfold S. rewrite nval_cons. apply Forall_cons_1 in Hw as [Hd _]. pose proof B_pos. nia. }
  assert (Hb3 : 0 <= nval s3 < w).
  { pose proof (nval_bound s3 Hw3) as H3. rewrite Hs3 in H3. replace (1 + len core - 2) with (n - 2) in H3 by lia. done. }
  eapply returns_bind_mono.
  - eapply (guess_spec S (nval s3) ujn u1 u2 Hb3 Hujn Hu1 Hu2 HSd HSV u (lo ++ s3) (top ++ zeros k) j rec s); [|len_lia|done|done].
    unfold u. rewrite app_comm_cons, E3, <- !app_assoc. done.
  - intros qhat [Hcl Hq1]. apply mulSub_spec; try done.
    destruct Hcase as [(-> & -> & -> & ->)|(_ & ->)]; [right|left; len_lia].
    split; [len_lia|]. split; [done|]. destruct v_words as (_ & _ & Hv1). unfold word_ok in *. nia.
Qed.

(** The remainder of a section, as the next section without its lowest word. *)
Lemma next_section (r top : list Z) :
  words_ok r -> len r = n + len top -> (top = [] \/ exists e, top = [e]) -> nval r < V ->
  exists core e k, r = (core ++ [e]) ++ zeros k /\ len core = n - 1 /\ nval (core ++ [e]) = nval r.
Proof.
  intros Hw Hl Ht Hlt. pose proof V_bound. pose proof n_ge2.
  destruct Ht as [->|[e ->]].
  - destruct (exists_last (l := r)) as (core & e & ->); [intros ->; len_lia|]. exists core, e, 0.
    cbn. rewrite app_nil_r. split; [done|]. split; [len_lia|done].
  - destruct (exists_last (l := r)) as (r1 & z & ->); [intros ->; len_lia|].
    assert (Hr1 : len r1 = n) by len_lia. assert (z = 0) as -> by (apply (high_zero r1); [done|rewrite Hr1; lia]).
    destruct (exists_last (l := r1)) as (core & e' & ->); [intros ->; len_lia|]. exists core, e', 1.
    split; [done|]. split; [len_lia|]. rewrite (nval_snoc (core ++ [e'])). lia.
Qed.

(** After the last digit. *)
Lemma progress_end U m q0 q u qhatv ujn :
  progress U m q0 (q, u, qhatv, ujn, -1) ->
  exists qd, q = qd ++ drop (Z.to_nat (m + 1)) q0 /\ len q = len q0 /\ words_ok qd /\ words_ok u /\ len u = m + n /\
    U = nval qd * V + nval u /\ nval u < V.
Proof.
  intros (Hj & Hq & Hqh & Lu & qd & lo & core & top & k & Eq & Hqw & Eu & Hlo & Hcore & Hw & Hcase & Hlt & EU).
  assert (lo = []) as -> by (by apply len_zero_inv).
  change (Z.to_nat (-1 + 1)) with 0%nat in *. rewrite drop_0 in *. cbn [app val] in *.
  assert (Eun : nval u = nval (core ++ top)) by (rewrite Eu, nval_app; unfold zeros; rewrite nval_zeros; lia).
  assert (weight (-1 + 1) = 1) as Hw1 by apply weight_0. rewrite Hw1 in EU. rewrite Eun. exists qd.
  split; [done|]. split; [done|]. split; [done|]. split; [|lia]. rewrite Eu. apply words_ok_app. split; [done|apply words_ok_zeros].
Qed.

(** The section of a digit [j], and the state its digit leaves. *)
Lemma progress_section U m q0 q u qhatv ujn j :
  progress U m q0 (q, u, qhatv, ujn, j) -> 0 <= j ->
  exists qd lo d core top k, drop (Z.to_nat (j + 1)) q = qd ++ drop (Z.to_nat (m + 1)) q0 /\ words_ok qd /\
    u = lo ++ (d :: core ++ top) ++ zeros k /\ len lo = j /\ len core = n - 1 /\
    words_ok lo /\ word_ok d /\ words_ok (core ++ top) /\ word_ok ujn /\ nval (core ++ top) < V /\
    ((j = m /\ top = [] /\ ujn = 0 /\ k = 0) \/ (j < m /\ top = [ujn])) /\
    (j = m -> len q0 = m -> nval (d :: core ++ top) < V) /\
    U = nval lo + weight j * (nval (d :: core ++ top) + B * (V * nval qd)).
Proof.
  intros (Hj & Hq & Hqh & Lu & qd & lo & core & top & k & Eq & Hqw & Eu & Hlo & Hcore & Hw & Hcase & Hlt & EU) Hj0.
  apply words_ok_app in Hw as [Hlow Hcw].
  destruct (exists_last (l := lo)) as (lo' & d & ->); [intros ->; len_lia|]. rewrite len_app in Hlo. change (len [d]) with 1 in Hlo.
  apply words_ok_app in Hlow as [Hlow' Hd]. apply Forall_cons_1 in Hd as [Hd _].
  assert (Eu' : u = lo' ++ (d :: core ++ top) ++ zeros k) by (rewrite Eu, <- app_assoc; done).
  exists qd, lo', d, core, top, k. do 3 (split; [done|]). split; [lia|]. do 4 (split; [done|]).
  split; [|split; [done|split; [|split]]].
  - destruct Hcase as [(_ & _ & -> & _)|(_ & ->)]; [unfold word_ok; pose proof B_pos; lia|].
    apply words_ok_app in Hcw as [_ Hcw]. by apply Forall_cons_1 in Hcw as [Hcw _].
  - destruct Hcase as [(-> & -> & -> & -> & _)|?]; [by left|by right].
  - intros Ejm Hm. destruct Hcase as [(_ & -> & -> & -> & HS)|(? & _)]; [|lia]. specialize (HS Hm). rewrite Eu' in HS.
    replace (Z.to_nat m) with (length lo') in HS by (unfold len in *; lia).
    rewrite drop_app_length in HS. unfold zeros in HS. cbn [replicate Z.to_nat] in HS. by rewrite app_nil_r in HS.
  - rewrite EU, nval_snoc, weight_add, weight_1, (nval_cons d) by lia. replace (len lo') with j by lia. lia.
Qed.

Lemma progress_next U m q0 q q' qd qhatv j lo core e k S :
  0 <= j <= m -> len q' = len q0 -> len qhatv = n + 1 -> len lo = j -> len core = n - 1 ->
  len (lo ++ (core ++ [e]) ++ zeros k) = m + n -> m <= len q0 ->
  words_ok lo -> words_ok (core ++ [e]) -> word_ok (S / V) -> nval (core ++ [e]) = S mod V ->
  drop (Z.to_nat (j + 1)) q = qd ++ drop (Z.to_nat (m + 1)) q0 -> words_ok qd ->
  (drop (Z.to_nat j) q' = S / V :: drop (Z.to_nat (j + 1)) q \/
   (S / V = 0 /\ drop (Z.to_nat j) q' = [] /\ drop (Z.to_nat (j + 1)) q = [])) ->
  U = nval lo + weight j * (S + B * (V * nval qd)) ->
  progress U m q0 (q', lo ++ (core ++ [e]) ++ zeros k, qhatv, e, j - 1).
Proof.
  intros Hj Hlq' Hq' Hlo Hcore Lu Hmq Hlow Hcw Hdw Evr Eqd Hqd Hq2 ->. pose proof V_bound as HVb.
  pose proof (Z.div_mod S V ltac:(lia)) as Edm. pose proof (Z.mod_pos_bound S V ltac:(lia)) as Hmod.
  split; [lia|]. split; [done|]. split; [done|]. split; [done|]. rewrite Z.sub_add.
  assert (Hqv : exists qd', drop (Z.to_nat j) q' = qd' ++ drop (Z.to_nat (m + 1)) q0 /\ words_ok qd' /\
    nval qd' = S / V + B * nval qd).
  { destruct Hq2 as [E|(E0 & E1 & E2)].
    - exists (S / V :: qd). rewrite E, Eqd. split; [done|]. split; [by constructor|apply nval_cons].
    - rewrite Eqd in E2. apply app_eq_nil in E2 as [-> E2]. exists []. rewrite E1, E2, E0. split; [done|].
      split; [constructor|cbn [val]; lia]. }
  destruct Hqv as (qd' & E' & Hqw' & Hqv). exists qd', lo, core, [e], k. split; [done|]. split; [done|].
  split; [done|]. split; [lia|]. split; [done|]. split; [by apply words_ok_app|]. split; [right; split; [lia|done]|].
  split; [lia|]. rewrite Hqv, Evr. rewrite Edm at 1. lia.
Qed.

Lemma divStep_spec U m q0 rec s st :
  nlz vn1 = Ok s -> reciprocal (vn1 * 2 ^ s) rec -> progress U m q0 st -> m <= len q0 ->
  divStep v n m vn1 rec st ⇓ (fun out =>
    match out with
    | inl st' => progress U m q0 st' /\ 0 <= snd st' + 1 < snd st + 1
    | inr (q, u) => exists qd, q = qd ++ drop (Z.to_nat (m + 1)) q0 /\ len q = len q0 /\ words_ok qd /\ words_ok u /\ len u = m + n /\
        U = nval qd * V + nval u /\ nval u < V
    end).
Proof.
  intros Es Hrec Hpr Hm. destruct st as [[[[q u] qhatv] ujn] j]. unfold divStep. pose proof n_ge2. pose proof V_bound as HVb.
  pose proof Hpr as (Hj & Hq & Hqh & Lu & _). destruct (Z.geb_spec j 0) as [Hj0|Hj0].
  2: { assert (j = -1) as -> by lia. cbn [returns]. by apply (progress_end U m q0 q u qhatv ujn). }
  destruct (progress_section _ _ _ _ _ _ _ _ Hpr Hj0)
    as (qd & lo & d & core & top & k & Eqd & Hqd & Eu & Hlo & Hcore & Hlow & Hd & Hcw & Hujn & Hlt & Hcase & Hroom & EU).
  pose proof (section_digit lo d core top k j m ujn rec s qhatv Hlo Hcore ltac:(by constructor) Hujn Hqh Hcase Hlt Es Hrec) as Hdig.
  cbv zeta in Hdig. rewrite <- Eu in Hdig. set (S := nval (d :: core ++ top)) in *.
  assert (ES : S = d + B * nval (core ++ top)) by apply nval_cons. pose proof B_pos.
  pose proof (Z.mod_pos_bound S V ltac:(lia)) as Hmod. pose proof (nval_bound _ Hcw) as Hcb. unfold word_ok in Hd.
  assert (Hdw : word_ok (S / V)) by (split; [apply Z.div_pos; nia|apply Z.div_lt_upper_bound; nia]).
  destruct (guess u v j n vn1 rec ujn) as [qhat| |]; cbn [rbind] in *; [|done..].
  eapply returns_bind_mono; [exact Hdig|].
  intros [[u' qhatv'] qhat'] (Hq' & -> & r & -> & Hlr & Hwr & Evr).
  assert (Lu' : len (lo ++ r ++ zeros k) = m + n) by (rewrite <- Lu, Eu, !(len_app lo), !(len_app _ (zeros k)), Hlr; done).
  destruct (next_section r top) as (core' & e & k' & -> & Hcore' & Evr'); [done| | |lia|].
  { rewrite Hlr. len_lia. }
  { destruct Hcase as [(_ & -> & _)|(_ & ->)]; [by left|right; by exists ujn]. }
  replace (lo ++ ((core' ++ [e]) ++ zeros k') ++ zeros k) with (lo ++ (core' ++ [e]) ++ zeros (Z.max 0 k' + Z.max 0 k)) in *
    by (rewrite <- zeros_app, <- !app_assoc; done).
  apply words_ok_app in Hwr as [Hwr _].
  replace (idx _ (j + n - 1)) with (Ok e) by (rewrite <- !app_assoc; cbn [app]; rewrite app_assoc, idx_app by len_lia; done).
  cbn [rbind]. destruct (store_digit q j m (S / V)) as (q' & Est & Hlq' & Hq2); [lia|lia| |].
  { intros Ejm Hlm. apply Z.div_small. rewrite Hq in Hlm. specialize (Hroom Ejm Hlm). nia. }
  assert (Egoal : forall (f : list Z -> res (list Z * list Z * list Z * Z * Z + list Z * list Z)) (c : bool),
    (if c then f q else let! q := upd q j (S / V) in f q) = (let! q := (if c then Ok q else upd q j (S / V)) in f q))
    by (by intros ? []).
  rewrite (Egoal (fun q => Ok (inl (q, _, qhatv', e, j - 1)))), Est. cbn [rbind returns snd]. split; [|lia].
  eapply (progress_next U m q0 q q' qd qhatv' j); (done || lia).
Qed.

Lemma divisor_top : idx v (n - 1) = Ok vn1.
Proof.
  rewrite Hv. change [vn2; vn1] with ([vn2] ++ [vn1]). rewrite app_assoc. apply idx_app. rewrite len_app, vlo_len.
  change (len [vn2]) with 1. lia.
Qed.

Lemma divisor_lead : weight (n - 1) * vn1 <= V.
Proof.
  pose proof V_eq. pose proof vlo_bound. pose proof n_ge2. destruct v_words as (_ & Hv2 & Hv1). unfold word_ok in *. pose proof w_pos.
  assert (E1 : weight (n - 1) = w * B) by (unfold w; replace (n - 1) with (n - 2 + 1) by lia; rewrite weight_add, weight_1 by lia; done).
  rewrite E1. nia.
Qed.

(** The quotient is stored in the low words of [q], with room for a word more
    than the dividend has above the divisor, or when the [n] highest words of
    the dividend are below the divisor. *)
Lemma divBasic_spec qhatv q u :
  words_ok u -> n <= len u -> len u - n <= len q -> len qhatv = n + 1 ->
  (len q = len u - n -> nval (drop (Z.to_nat (len u - n)) u) < V) ->
  divBasic qhatv q u v ⇓ (fun '(q', u') => exists qd, q' = qd ++ drop (Z.to_nat (len u - n + 1)) q /\ len q' = len q /\
    words_ok qd /\ words_ok u' /\ len u' = len u /\ nval u = nval qd * V + nval u' /\ nval u' < V).
Proof.
  intros Hu Hnu Hq Hqh HV. unfold divBasic. rewrite <- Hn. pose proof n_ge2. pose proof V_bound. pose proof B_pos.
  destruct v_words as (_ & _ & Hv1). rewrite divisor_top.
  cbn [rbind]. assert (Hvp : 0 < vn1 < B) by (unfold word_ok in *; lia). destruct (nlz_norm vn1 Hvp) as (s & Es & _).
  eapply returns_bind_mono; [by apply (reciprocalWord_spec vn1 s)|]. intros rec Hrec.
  assert (Lu : len u = (len u - n) + n) by lia. set (m := len u - n) in *.
  eapply (loop_returns (progress (nval u) m q) (fun st => snd st + 1)).
  - intros st Hst. eapply returns_mono; [eapply divStep_spec; (done || lia)|]. intros [st'|[q' u']]; [done|].
    intros (qd & G1 & G2 & G3 & G4 & G5 & G6). exists qd. rewrite <- Lu in G5. done.
  - destruct (slice_split u (m + 1) ltac:(lia)) as (lo & core & Eu & Hlo).
    assert (Hlu : len u = len lo + len core) by (rewrite Eu; apply len_app). assert (Hlc : len core = n - 1) by lia.
    assert (Hcw : words_ok core) by (rewrite Eu in Hu; apply words_ok_app in Hu as [_ Hu]; done).
    split; [lia|]. split; [done|]. split; [done|]. split; [done|].
    exists [], lo, core, [], 0. rewrite !app_nil_r. split; [done|]. split; [constructor|]. split; [done|]. split; [done|]. split; [done|].
    split; [by rewrite <- Eu|]. split; [left; done|]. split; [|rewrite Eu at 1; rewrite nval_app, Hlo; cbn [val]; lia].
    pose proof (nval_bound core Hcw) as Hcb. rewrite Hlc in Hcb. pose proof divisor_lead. pose proof (weight_pos (n - 1)). nia.
  - cbn [snd]. unfold len in *. lia.
  - cbn [snd]. lia.
Qed.

(** A dividend of fewer words than the divisor is left as it is. *)
Lemma divBasic_short qhatv q u : len u < n -> divBasic qhatv q u v = Ok (q, u).
Proof.
  intros Hl. unfold divBasic. rewrite <- Hn. rewrite divisor_top. cbn [rbind]. pose proof B_pos. destruct v_words as (_ & _ & Hv1).
  assert (Hvp : 0 < vn1 < B) by (unfold word_ok in *; lia). destruct (nlz_norm vn1 Hvp) as (s & Es & _).
  destruct (returns_inv _ _ (reciprocalWord_spec vn1 s Hvp Es)) as (rec & -> & _). cbn [rbind].
  cbn [loop]. unfold divStep at 1. rewrite Z.geb_leb, (proj2 (Z.leb_gt _ _)) by lia. done.
Qed.
End Divisor.

(** ** Division of natural numbers *)

(** The two scalings of divLarge, as one function. *)
Lemma scaled_words b x s :
  len b = len x -> words_ok x -> 0 <= s < _W ->
  exists w c, (if s =? 0 then Ok (copyAll b (Vec x), 0) else lshVU b (Vec x) s) = Ok (w, c) /\
    nval w + weight (len x) * c = nval x * 2 ^ s /\ words_ok w /\ len w = len x /\ word_ok c.
Proof.
  intros Hb Hx Hs. destruct (returns_inv _ _ (shifted_words b x s Hb Hx Hs)) as ([w c] & E & H). eauto.
Qed.

(** The scaled divisor uses the top bit and has no word more. *)
Lemma scaled_divisor vl top s w c :
  words_ok (vl ++ [top]) -> 0 < top < B -> 0 <= s < _W -> B <= 2 * (top * 2 ^ s) -> top * 2 ^ s < B ->
  nval w + weight (len w) * c = nval (vl ++ [top]) * 2 ^ s -> words_ok w -> len w = len vl + 1 -> 1 <= len vl ->
  word_ok c ->
  nval w = nval (vl ++ [top]) * 2 ^ s /\ exists wl w2 w1, w = wl ++ [w2; w1] /\ B <= 2 * w1.
Proof.
  intros Hv Ht Hs Hhi Hlt E Hw Hlw Hl Hc. apply words_ok_app in Hv as [Hvl _].
  pose proof (nval_bound vl Hvl) as Hb. pose proof (nval_bound w Hw) as Hwb. pose proof (weight_pos (len vl) ltac:(lia)) as Hp.
  pose proof (pow_pos s ltac:(lia)) as Hps. unfold word_ok in *.
  rewrite Hlw, weight_add, weight_1 in E, Hwb by lia. rewrite nval_snoc in *.
  assert (EB : B = 2 ^ s * 2 ^ (_W - s)) by (apply B_split; lia).
  assert (Ht2 : (top + 1) * 2 ^ s <= B) 
    by (assert (top < 2 ^ (_W - s)) by nia; rewrite EB, (Z.mul_comm (2 ^ s)); apply Z.mul_le_mono_nonneg_r; lia).
  assert (Hval : (nval vl + weight (len vl) * top) * 2 ^ s < weight (len vl) * B).
  { apply Z.lt_le_trans with (weight (len vl) * ((top + 1) * 2 ^ s)); [|apply Z.mul_le_mono_nonneg_l; lia].
    replace (weight (len vl) * ((top + 1) * 2 ^ s)) with (weight (len vl) * (top + 1) * 2 ^ s) by lia.
    apply Z.mul_lt_mono_pos_r; lia. }
  assert (Hc0 : c = 0) by (destruct (decide (c = 0)); [done|]; assert (weight (len vl) * B <= weight (len vl) * B * c) by nia; lia).
  split; [rewrite Hc0 in E; lia|]. destruct (two_highest w) as (wl & w2 & w1 & -> & Hwl); [lia|].
  exists wl, w2, w1. split; [done|]. change [w2; w1] with ([w2] ++ [w1]) in *. rewrite app_assoc in *.
  set (x := wl ++ [w2]) in *. apply words_ok_app in Hw as [Hw _]. pose proof (nval_bound x Hw) as Hwb2. rewrite nval_snoc in E, Hwb.
  assert (Ewl : len x = len vl) by (rewrite len_app in Hlw; change (len [w1]) with 1 in Hlw; lia).
  rewrite Ewl in *.
  assert (0 <= nval vl * 2 ^ s) by nia.
  assert (Hm : weight (len vl) * (top * 2 ^ s) < weight (len vl) * (w1 + 1)) by (rewrite Hc0 in E; lia).
  apply Z.mul_lt_mono_pos_l in Hm; lia.
Qed.

(** The remainder, scaled back. *)
Lemma unscale u v q r s : 0 <= s -> u * 2 ^ s = q * (v * 2 ^ s) + r -> 0 <= r < v * 2 ^ s ->
  q = u / v /\ r / 2 ^ s = u mod v.
Proof.
  intros Hs E Hr. pose proof (pow_pos s Hs). assert (Er : r = (u - q * v) * 2 ^ s) by lia.
  assert (0 <= u - q * v < v) by nia. rewrite Er, Z.div_mul by lia.
  split; [apply (Z.div_unique _ _ _ (u - q * v)); lia|apply (Z.mod_unique _ _ q); lia].
Qed.

Lemma unshift_norm u s :
  words_ok u -> 0 <= s < _W ->
  (let! u := if negb (s =? 0) then (let! '(u, _) := rshVU u Same s in Ok u) else Ok u in norm u)
  ⇓ (fun r => nval r = nval u / 2 ^ s /\ is_nat r).
Proof.
  intros Hu Hs. destruct (Z.eqb_spec s 0) as [->|Hs0]; cbn [negb rbind].
  - eapply returns_mono; [by apply norm_spec|]. intros r (-> & Hr & _). change (2 ^ 0) with 1. by rewrite Z.div_1_r.
  - apply returns_bind, returns_bind. eapply returns_mono; [apply rshVU_spec; [done|done|lia]|]. cbn [words].
    intros [r c] (E & Hr & _). cbn [returns]. eapply returns_mono; [by apply norm_spec|].
    intros r' (-> & Hr2 & _). by split.
Qed.

(** Both operands scaled; the dividend has one word more. *)
Lemma scaled_operands vs z2 u v s :
  len vs = len v -> words_ok u -> words_ok v -> 0 <= s < _W ->
  exists w c u',
    (let z2 := nmake z2 (len u + 1) in
     if s =? 0 then
       let! '(z2, _) := onRange z2 0 (len u) (fun s => Ok (copyAll s (Vec u), 0)) in
       let! z2 := upd z2 (len u) 0 in
       Ok (copyAll vs (Vec v), z2)
     else
       let! '(v, _) := lshVU vs (Vec v) s in
       let! '(z2, c) := onRange z2 0 (len u) (fun w => lshVU w (Vec u) s) in
       let! z2 := upd z2 (len u) c in
       Ok (v, z2)) = Ok (w, u') /\
    nval w + weight (len v) * c = nval v * 2 ^ s /\ words_ok w /\ len w = len v /\ word_ok c /\
    nval u' = nval u * 2 ^ s /\ words_ok u' /\ len u' = len u + 1.
Proof.
  intros Hvs Hu Hv Hs. destruct (scaled_words vs v s Hvs Hv Hs) as (w & c & Ew & Ev & Hww & Hlw & Hc).
  destruct (storage_split z2 0 (len u)) as (a & b & e & Est & Ha & Hb); [lia|len_lia|].
  apply len_zero_inv in Ha as ->. cbn [app] in Est. rewrite Z.add_0_l in Est. rewrite Est.
  destruct (scaled_words b u s Hb Hu Hs) as (ub & uc & Eu & Euv & Hub & Hlub & Huc).
  exists w, c, (ub ++ [uc]). split; [|do 4 (split; [done|])].
  - cbv zeta. rewrite !onRange_front by lia. destruct (Z.eqb_spec s 0) as [->|Hs0].
    + assert (copyAll vs (Vec v) = w) as -> by (by injection Ew).
      assert (copyAll b (Vec u) = ub /\ uc = 0) as [-> ->] by (by injection Eu). cbn [rbind]. by rewrite upd_last by lia.
    + rewrite Ew, Eu. cbn [rbind]. by rewrite upd_last by lia.
  - split; [rewrite nval_snoc, Hlub; lia|]. split; [|len_lia]. apply words_ok_app. split; [done|by constructor].
Qed.
End Division.
