(* ===== verification/BigDivRec.v ===== *)
(** * Package math/big: recursive division

    The division of BigDivide.v for divisors of every length: the wide digits
    of the recursive division are exact, after at most one correction of the
    guess each, and so is the division of two natural numbers. *)
From Stdlib Require Import ZArith Lia.
From stdpp Require Import base numbers list.
From S2P Require Import Prelude Bits BigWords BigWordsCorrect BigNat BigNatCorrect BigMul BigMulCorrect BigDivide BigDiv.

Section Recursive.
Context `{P : Platform}.
Abbreviation B := (2 ^ _W).
Abbreviation nval := (val _W).

(** ** Words *)

Lemma norm_id x : is_nat x -> norm x = Ok x.
Proof.
  intros Hx. destruct (returns_inv _ _ (norm_spec x (proj1 Hx))) as (r & E & Ev & Hr & _).
  rewrite E. f_equal. by apply is_nat_unique.
Qed.

Lemma norm_split x : words_ok x -> exists r k, norm x = Ok r /\ x = r ++ zeros k /\ is_nat r /\ nval r = nval x /\ 0 <= k.
Proof.
  intros Hx. destruct (returns_inv _ _ (norm_spec x Hx)) as (r & E & Ev & Hr & k & Ek). exists r, (Z.of_nat k).
  unfold zeros. rewrite Nat2Z.id. split; [done|]. split; [done|]. split; [done|]. split; [done|lia].
Qed.

Lemma len_zeros k : 0 <= k -> len (zeros k) = k.
Proof. intros. unfold zeros. rewrite len_replicate. lia. Qed.

Lemma nval_zeros_app (a : list Z) k : nval (a ++ zeros k) = nval a.
Proof. rewrite nval_app. unfold zeros. rewrite nval_zeros. lia. Qed.

Lemma words_take k x : words_ok x -> words_ok (take k x).
Proof. apply Forall_take. Qed.

(** The low words of a value that fits in them. *)
Lemma take_value x k : words_ok x -> 0 <= k <= len x -> nval x < weight k -> nval (take (Z.to_nat k) x) = nval x.
Proof.
  intros Hx Hk Hlt. destruct (slice_split x k Hk) as (a & b & -> & Ha).
  replace (Z.to_nat k) with (length a) by (unfold len in *; lia). rewrite take_app_length.
  apply words_ok_app in Hx as [Haw Hbw]. pose proof (nval_bound a Haw). pose proof (nval_bound b Hbw).
  rewrite nval_app, Ha in *. pose proof (weight_pos k ltac:(lia)). assert (nval b = 0) as -> by nia. lia.
Qed.

Lemma cmp_le x y : words_ok x -> is_nat y -> len x <= len y -> cmp x y = Ok (sign (nval x) (nval y)).
Proof.
  intros Hx Hy Hl. destruct (decide (len x = len y)) as [E|E]; [by apply cmp_words; [|apply Hy|]|].
  assert (Hlt : nval x < nval y).
  { pose proof (nval_bound x Hx). pose proof (weight_le (len x) (len y - 1) ltac:(len_lia)).
    assert (weight (len y - 1) <= nval y); [|lia]. destruct Hy. apply normal_lead; [intros ->; len_lia|done|done]. }
  unfold cmp. rewrite (proj2 (Z.eqb_neq _ _) E). cbn [negb orb].
  rewrite (proj2 (Z.ltb_lt (len x) _)) by lia. by rewrite sign_lt.
Qed.

Lemma sign_le a b : a <= b -> (sign a b >? 0) = false /\ (sign a b <=? 0) = true.
Proof.
  intros H. unfold sign. destruct (Z.ltb_spec a b); [done|]. rewrite (Z.gtb_ltb a), (proj2 (Z.ltb_ge b a)) by lia. done.
Qed.

(** ** One wide digit, in arithmetic

    [U = a + w * Uh] by [V = b + w * Vh], from the quotient of the high parts. *)
Lemma wide_quotient U V w a b Uh Vh :
  0 < w -> 0 <= a < w -> 0 <= b < w -> 0 < Vh -> 0 <= Uh -> U = a + w * Uh -> V = b + w * Vh -> Uh / Vh <= Vh ->
  if Uh / Vh * b <=? a + w * (Uh mod Vh) then U / V = Uh / Vh
  else U / V = Uh / Vh - 1 /\ 1 <= Uh / Vh.
Proof.
  intros Hw Ha Hb HVh HUh EU EV Hq. pose proof (Z.div_mod Uh Vh ltac:(lia)) as Edm. pose proof (Z.mod_pos_bound Uh Vh HVh) as Hr.
  revert Edm Hr Hq. generalize (Uh / Vh) (Uh mod Vh). intros q r Edm Hr Hq.
  assert (Hq0 : 0 <= q) by nia. assert (EUV : U - q * V = a + w * r - q * b) by (rewrite EU, EV, Edm; ring).
  assert (a + w * r < V) by nia. assert (q * b < V) by nia.
  destruct (Z.leb_spec (q * b) (a + w * r)) as [Hle|Hgt].
  - symmetry. apply (Z.div_unique _ _ _ (U - q * V)); nia.
  - split; [|nia]. symmetry. apply (Z.div_unique _ _ _ (U - (q - 1) * V)); nia.
Qed.

(** ** The correction of a guess *)

(** Subtracting the product from the rest. *)
Lemma subtract_spec ql qs uu x :
  words_ok qs -> words_ok uu -> 0 <= ql <= len qs -> ql <= len uu -> nval qs < weight ql -> nval qs <= nval uu -> x = nval uu - nval qs ->
  (let! qhatv := slice qs 0 ql in
   let! '(uu, c) := onRange uu 0 ql (fun w => subVV w Same (Vec qhatv)) in
   if c >? 0 then onRange uu ql (len uu) (fun w => subVW w Same c) else Ok (uu, c)) ⇓ (fun '(uu', c) =>
    c = 0 /\ nval uu' = x /\ words_ok uu' /\ len uu' = len uu).
Proof.
  intros Hqs Hu Hl Hlu' Hlt Hle ->. rewrite slice_Ok by lia. rewrite Z.sub_0_r, drop_0. cbn [rbind].
  pose proof (take_value qs ql Hqs Hl Hlt) as Et. set (t := take (Z.to_nat ql) qs) in *.
  assert (Lt : len t = ql) by (unfold t, len in *; rewrite length_take; lia). assert (Ht : words_ok t) by (by apply words_take).
  rewrite <- Et in *. clearbody t. destruct (slice_split uu ql ltac:(lia)) as (u1 & u2 & -> & L1). apply words_ok_app in Hu as [Hu1 Hu2].
  rewrite onRange_front by lia. apply returns_bind, returns_bind. pose proof B_pos.
  eapply returns_mono; [apply subVV_spec; cbn [words]; try done; apply len_eq_length; lia|].
  cbn [words]. intros [p c] (Ep & Hp & Lp & Hc). cbn [returns]. assert (Lp' : len p = ql) by (unfold len in *; lia). rewrite L1 in Ep.
  pose proof (nval_bound p Hp) as Hpb. rewrite Lp' in Hpb. pose proof (weight_pos ql ltac:(lia)) as Hwq. rewrite nval_app, L1 in *.
  destruct (Z.gtb_spec c 0) as [Hc0|Hc0].
  - assert (c = 1) as -> by lia. rewrite onRange_back by (rewrite ?len_app; lia). apply returns_bind.
    eapply returns_mono; [apply subVW_spec; cbn [words]; [done|done|unfold word_ok; lia]|].
    cbn [words]. intros [p2 c2] (Ep2 & Hp2 & Lp2 & Hc2). cbn [returns]. assert (Lp2' : len p2 = len u2) by (unfold len in *; lia).
    pose proof (nval_bound p2 Hp2) as Hb2. rewrite Lp2' in Hb2. pose proof (nval_bound u2 Hu2). unfold word_ok in Hc2.
    assert (1 <= nval u2) by nia. assert (c2 = 0) as -> by nia.
    split; [done|]. split; [rewrite !nval_app, Lp'; lia|]. split; [by apply words_ok_app|rewrite !len_app; lia].
  - assert (c = 0) as -> by lia. cbn [returns]. split; [done|]. split; [rewrite !nval_app, Lp'; lia|].
    split; [by apply words_ok_app|rewrite !len_app; lia].
Qed.

Section Reduce.
Context (vlo vhi : list Z) (s n : Z).
Context (Hvlo : words_ok vlo) (Hvhi : words_ok vhi) (Ls : len vlo = s) (Ln : len vhi = n - s) (Hs : 0 <= s < n).
Context (Htop : weight (n - s) <= 2 * nval vhi).
Let Vl := nval vlo.
Let Vh := nval vhi.
Let V := nval (vlo ++ vhi).
Let w := weight s.
Context (U : Z) (ql lq lu : Z).
Context (Hql : 0 <= ql <= n).

(** The guess [q], the product [q * Vl] and the rest of the dividend. *)
Definition guessed (q : Z) (st : list Z * list Z * list Z) : Prop :=
  let '(qhat, qs, uu) := st in
  words_ok qhat /\ nval qhat = q /\ len qhat = lq /\
  words_ok qs /\ nval qs = q * Vl /\ len qs = 3 * n /\
  words_ok uu /\ nval uu = U - q * (w * Vh) /\ len uu = lu.

Lemma w_pos' : 0 < w.
Proof. apply weight_pos. lia. Qed.
Lemma Vl_bound : 0 <= Vl < w.
Proof. unfold Vl, w. rewrite <- Ls. by apply nval_bound. Qed.
Lemma Vh_bound : 0 < Vh < weight (n - s).
Proof. pose proof (nval_bound vhi Hvhi) as H. rewrite Ln in H. pose proof (weight_pos (n - s)). unfold Vh. lia. Qed.
Lemma V_split : V = Vl + w * Vh.
Proof. unfold V, Vl, Vh, w. by rewrite nval_app, Ls. Qed.

(** Taking [Vl] from the product, in place. *)
Lemma lessProduct qs q :
  words_ok qs -> nval qs = q * Vl -> len qs = 3 * n -> 1 <= q -> q * Vl < weight ql ->
  (let! '(qs, c) := onRange qs 0 s (fun z => subVV z Same (Vec vlo)) in
   if ql >? s then (let! '(qs, _) := onRange qs s ql (fun z => subVW z Same c) in Ok qs) else Ok qs)
  ⇓ (fun qs' => words_ok qs' /\ nval qs' = (q - 1) * Vl /\ len qs' = 3 * n).
Proof.
  intros Hqs Eqs Lqs Hq Hlt. pose proof Vl_bound as HVl. pose proof B_pos.
  destruct (slice_split qs s ltac:(lia)) as (s1 & r & -> & L1). apply words_ok_app in Hqs as [Hs1 Hr]. rewrite len_app in Lqs.
  rewrite onRange_front by lia. apply returns_bind, returns_bind.
  eapply returns_mono; [apply subVV_spec; cbn [words]; try done; apply len_eq_length; lia|].
  cbn [words]. intros [t c] (Et & Ht & Lt & Hc). cbn [returns]. assert (Lt' : len t = s) by (unfold len in *; lia).
  rewrite L1 in Et. fold Vl in Et. rewrite nval_app, L1 in Eqs. pose proof (nval_bound t Ht) as Htb. rewrite Lt' in Htb.
  pose proof (nval_bound r Hr) as Hrb. fold w in Eqs, Et, Htb. pose proof w_pos' as Hwp. destruct (Z.gtb_spec ql s) as [Hgt|Hle].
  - destruct (slice_split r (ql - s) ltac:(lia)) as (s2 & s3 & -> & L2). apply words_ok_app in Hr as [Hs2 Hs3]. rewrite len_app in *.
    rewrite onRange_app by lia. apply returns_bind, returns_bind.
    eapply returns_mono; [apply subVW_spec; cbn [words]; [done|done|unfold word_ok; lia]|].
    cbn [words]. intros [t2 c2] (Et2 & Ht2 & Lt2 & Hc2). cbn [returns]. assert (Lt2' : len t2 = ql - s) by (unfold len in *; lia).
    rewrite L2 in Et2. pose proof (nval_bound t2 Ht2) as Ht2b. rewrite Lt2' in Ht2b. rewrite nval_app, L2 in *.
    pose proof (nval_bound s3 Hs3) as Hs3b. pose proof (weight_pos (ql - s) ltac:(lia)) as Hwq.
    assert (Ew : weight ql = w * weight (ql - s)) by (unfold w; rewrite <- weight_add by lia; f_equal; lia).
    pose proof (nval_bound s2 Hs2) as Hs2b. pose proof (nval_bound s1 Hs1) as Hs1b. rewrite Ew in Hlt. unfold word_ok in Hc2.
    assert (Hs30 : nval s3 = 0) by (destruct (Z.eq_dec (nval s3) 0); [done|]; assert (w * weight (ql - s) <= w * weight (ql - s) * nval s3) by nia; nia).
    rewrite Hs30 in *. assert (Esum : nval t + w * nval t2 = (q - 1) * Vl + w * weight (ql - s) * c2)
      by (replace (nval t2) with (nval s2 - c + weight (ql - s) * c2) by lia; lia).
    assert (c2 = 0) as ->.
    { assert (Hsum : nval t + w * nval t2 < w * weight (ql - s)) by nia. destruct (Z.eq_dec c2 0); [done|].
      assert (w * weight (ql - s) <= w * weight (ql - s) * c2) by nia. assert (0 <= (q - 1) * Vl) by nia. lia. }
    split; [repeat (apply words_ok_app; split; [done|]); done|].
    split; [rewrite !nval_app, Lt', Lt2', Hs30; fold w; lia|]. rewrite !len_app. lia.
  - assert (weight ql <= w) by (apply weight_le; lia). pose proof (nval_bound s1 Hs1). assert (Hr0 : nval r = 0) by nia. rewrite Hr0 in *.
    assert (c = 0) as -> by nia. cbn [returns]. split; [by apply words_ok_app|].
    split; [rewrite nval_app, Lt', Hr0; lia|]. rewrite !len_app. lia.
Qed.

Lemma fixup_spec q st :
  guessed q st -> 1 <= q -> q * Vl < weight ql -> n <= lu -> U - (q - 1) * (w * Vh) < weight lu ->
  fixup vlo vhi s ql st ⇓ guessed (q - 1).
Proof.
  destruct st as [[qhat qs] uu]. intros (Hq & Eq & Lq & Hqs & Eqs & Lqs & Hu & Eu & Lu) Hq1 Hlt Hlu Hfit. unfold fixup. pose proof B_pos.
  apply returns_bind. eapply returns_mono; [apply subVW_spec; cbn [words]; [done|done|unfold word_ok; lia]|].
  cbn [words]. intros [qhat' c] (E1 & Hq' & Lq' & Hc). cbn [returns].
  assert (Lq2 : len qhat' = lq) by (unfold len in *; lia). pose proof (nval_bound qhat' Hq') as Hqb. unfold word_ok in Hc.
  pose proof (nval_bound qhat Hq) as Hqb2. pose proof (weight_pos (len qhat) (len_nonneg _)) as Hwl.
  replace (len qhat') with (len qhat) in Hqb by lia. assert (c = 0) as -> by nia.
  pose proof (lessProduct qs q Hqs Eqs Lqs Hq1 Hlt) as Hp.
  destruct (onRange qs 0 s _) as [[qs1 c1]| |]; cbn [rbind] in *; [|done..].
  destruct (if ql >? s then _ else _) as [qs'| |]; cbn [rbind returns] in *; [|done..]. destruct Hp as (Hp1 & Hp2 & Hp3).
  pose proof Vh_bound. pose proof w_pos'. apply returns_bind.
  eapply returns_mono; [apply addToAt_spec; [done|done|lia|lia|fold w Vh; rewrite Lu; lia]|].
  intros uu' (Eu' & Hu' & Lu'). cbn [returns guessed]. fold w Vh in Eu'.
  split; [done|]. split; [lia|]. split; [done|]. split; [done|]. split; [done|]. split; [done|]. split; [done|]. split; lia.
Qed.

Lemma cmpNorm_spec q qhat qs uu :
  guessed q (qhat, qs, uu) -> q * Vl < weight ql -> is_nat (take (Z.to_nat ql) qs) \/ weight (n - 1) <= nval uu ->
  cmpNorm qs ql uu = Ok (sign (q * Vl) (nval uu)).
Proof.
  intros (Hq & Eq & Lq & Hqs & Eqs & Lqs & Hu & Eu & Lu) Hlt Hcase. unfold cmpNorm.
  rewrite slice_Ok by lia. rewrite Z.sub_0_r, drop_0. cbn [rbind].
  destruct (norm_split uu Hu) as (un & k & -> & _ & Hun & Eun & _). cbn [rbind].
  pose proof (take_value qs ql Hqs ltac:(lia) ltac:(lia)) as Et. rewrite <- Eun, <- Eqs, <- Et.
  destruct Hcase as [Hn|Hbig]; [by apply cmp_spec|]. apply cmp_le; [by apply words_take|done|].
  assert (Llt : len (take (Z.to_nat ql) qs) = ql) by (unfold len in *; rewrite length_take; lia). rewrite Llt.
  destruct (Z.le_gt_cases n (len un)); [lia|]. pose proof (nval_bound un (proj1 Hun)).
  pose proof (weight_le (len un) (n - 1) ltac:(len_lia)). lia.
Qed.

Context (q0 Uh a : Z).
Context (Eq0 : q0 = Uh / Vh) (HUh : 0 <= Uh) (Ha : 0 <= a < w) (EU : U = a + w * Uh) (HU : U < weight lu).
Context (Hq0 : q0 <= Vh) (Hprod : q0 * Vl < weight ql) (Hlu : n <= lu) (Hroom : q0 <= 1 \/ n + 1 <= lu).

Lemma rest_value : U - q0 * (w * Vh) = a + w * (Uh mod Vh).
Proof. pose proof Vh_bound. pose proof (Z.div_mod Uh Vh ltac:(lia)). rewrite EU, Eq0. nia. Qed.

Lemma guess_or_less :
  (q0 * Vl <= U - q0 * (w * Vh) /\ U / V = q0) \/ (U - q0 * (w * Vh) < q0 * Vl /\ U / V = q0 - 1 /\ 1 <= q0).
Proof.
  pose proof Vh_bound. pose proof Vl_bound. pose proof w_pos'. rewrite rest_value.
  pose proof (wide_quotient U V w a Vl Uh Vh ltac:(lia) Ha ltac:(lia) ltac:(lia) HUh EU V_split ltac:(lia)) as Hw.
  rewrite <- Eq0 in Hw. destruct (Z.leb_spec (q0 * Vl) (a + w * (Uh mod Vh))); [left|right]; tauto.
Qed.

Lemma V_range : weight (n - 1) <= w * Vh /\ w * Vh <= V < weight n.
Proof.
  pose proof V_split as E. pose proof Vl_bound as H1. pose proof Vh_bound as H2. pose proof w_pos'. pose proof B_pos.
  assert (En : weight n = w * weight (n - s)) by (unfold w; rewrite <- weight_add by lia; f_equal; lia).
  assert (En1 : weight (n - s) = B * weight (n - s - 1)) by (rewrite <- weight_1, <- weight_add by lia; f_equal; lia).
  assert (En2 : weight (n - 1) = w * weight (n - s - 1)) by (unfold w; rewrite <- weight_add by lia; f_equal; lia).
  pose proof (weight_pos (n - s - 1) ltac:(lia)). fold Vh in Htop.
  split; [rewrite En2; apply Z.mul_le_mono_nonneg_l; nia|]. split; [lia|]. rewrite E, En. nia.
Qed.

(** The digit and the remainder before the last subtraction. *)
Definition corrected (st : list Z * list Z * list Z) : Prop :=
  guessed (U / V) st /\ U / V * Vl < weight ql /\ U / V * Vl <= U - U / V * (w * Vh) /\
  let '(_, qs, uu) := st in is_nat (take (Z.to_nat ql) qs) \/ weight (n - 1) <= nval uu.

Lemma corrected_stays breaks st fuel i :
  corrected st -> 0 <= i -> 2 < i + Z.of_nat fuel ->  (0 < fuel)%nat ->
  loop fuel (fun '(st, i) =>
    if i <? 2 then
      let '(qhat, qs, uu) := st in
      let! e := cmpNorm qs ql uu in
      if e <=? 0 then Ok (if breaks : bool then inr st else inl (st, i + 1))
      else
        let! st := fixup vlo vhi s ql st in
        Ok (inl (st, i + 1))
    else Ok (inr st)) (st, i) = Ok st.
Proof.
  destruct st as [[qhat qs] uu]. intros (Hg & Hlt & Hle & Hcase) Hi Hf Hp.
  pose proof (cmpNorm_spec _ _ _ _ Hg Hlt Hcase) as Ec. pose proof Hg as (_ & _ & _ & _ & _ & _ & _ & Eu & _). rewrite Eu in Ec.
  destruct (sign_le _ _ Hle) as [_ Hs0].
  revert i Hi Hf Hp. induction fuel as [|f IH]; intros i Hi Hf Hp; [lia|]. cbn [loop].
  destruct (Z.ltb_spec i 2) as [Hlt2|Hge]; [|done]. rewrite Ec. cbn [rbind]. rewrite Hs0.
  destruct breaks; cbn [rbind]; [done|]. apply IH; lia.
Qed.

Lemma fixups_spec breaks st :
  guessed q0 st -> (let '(_, qs, _) := st in is_nat (take (Z.to_nat ql) qs)) ->
  fixups breaks vlo vhi s ql st ⇓ corrected.
Proof.
  intros Hg Hn. pose proof Vh_bound. pose proof Vl_bound. pose proof w_pos'. pose proof V_split as EV. destruct V_range as (Hv1 & Hv2 & Hv3).
  unfold fixups. destruct guess_or_less as [[Hle Ed]|(Hgt & Ed & Hq1)].
  { rewrite corrected_stays; [|destruct st as [[? ?] ?]; unfold corrected; rewrite Ed; auto|lia..].
    cbn [returns]. destruct st as [[? ?] ?]. unfold corrected. rewrite Ed. auto. }
  destruct st as [[qhat qs] uu]. pose proof (cmpNorm_spec _ _ _ _ Hg Hprod (or_introl Hn)) as Ec.
  pose proof Hg as (_ & _ & _ & _ & _ & _ & _ & Eu & _). rewrite Eu, sign_gt in Ec by lia.
  pose proof (Z.div_mod U V ltac:(lia)) as Edm. pose proof (Z.mod_pos_bound U V ltac:(lia)) as Hmod. rewrite Ed in Edm.
  assert (Hql' : weight ql <= weight n) by (apply weight_le; lia).
  assert (Hfix : U - (q0 - 1) * (w * Vh) < weight lu).
  { destruct Hroom as [Hr|Hr]; [assert (q0 = 1) as -> by lia; lia|].
    assert (weight (n + 1) <= weight lu) by (apply weight_le; lia). pose proof B_pos.
    rewrite weight_add, weight_1 in * by lia. assert ((q0 - 1) * Vl <= q0 * Vl) by nia. nia. }
  destruct (returns_inv _ _ (fixup_spec q0 _ Hg Hq1 Hprod Hlu Hfix)) as (st' & Ef & Hg').
  assert (Hc : corrected st').
  { destruct st' as [[qhat' qs'] uu']. pose proof Hg' as (_ & _ & _ & _ & _ & _ & _ & Eu' & _). unfold corrected. rewrite Ed.
    assert (0 <= (q0 - 1) * Vl <= q0 * Vl) by nia.
    split; [done|]. split; [lia|]. split; [assert (Hge : V * (q0 - 1) <= U) by lia; rewrite EV in Hge; lia|]. right. rewrite Eu'.
    assert (0 <= a + w * (Uh mod Vh)) by (pose proof (Z.mod_pos_bound Uh Vh ltac:(lia)); nia). pose proof rest_value. lia. }
  cbn [loop]. change (0 <? 2) with true. cbv iota. rewrite Ec. cbn [rbind Z.leb Z.compare]. rewrite Ef. cbn [rbind].
  pose proof (corrected_stays breaks st' 2 (0 + 1) Hc ltac:(lia) ltac:(lia) ltac:(lia)) as Hst.
  cbn [loop] in Hst. by rewrite Hst.
Qed.
End Reduce.

Lemma reduce_spec scratch breaks qhat uu vlo vhi s n U Uh a :
  words_ok vlo -> words_ok vhi -> len vlo = s -> len vhi = n - s -> 0 <= s < n -> weight (n - s) <= 2 * nval vhi ->
  is_nat qhat -> words_ok uu -> nval qhat = Uh / nval vhi -> nval uu = a + weight s * (Uh mod nval vhi) ->
  0 <= Uh -> 0 <= a < weight s -> U = a + weight s * Uh -> U < weight (len uu) ->
  nval qhat <= nval vhi -> len qhat + s <= n -> n <= len uu -> nval qhat <= 1 \/ n + 1 <= len uu ->
  reduce scratch breaks qhat uu (vlo ++ vhi) s n ⇓ (fun '(q, uu', c) =>
    c = 0 /\ nval q = U / nval (vlo ++ vhi) /\ words_ok q /\ len q = len qhat /\
    nval uu' = U mod nval (vlo ++ vhi) /\ words_ok uu' /\ len uu' = len uu).
Proof.
  intros Hvlo Hvhi Ls Ln Hs Htop Hq Hu Eq Eu HUh Ha EU HU Hqv Hlq Hlu Hroom. unfold reduce.
  rewrite slice_front, slice_back by lia. cbn [rbind].
  destruct (returns_inv _ _ (nmul_spec scratch (zeros (3 * n)) qhat vlo (proj1 Hq) Hvlo)) as (p & -> & Ep & Hp). cbn [rbind].
  assert (Hpl : len p <= n).
  { pose proof (product_bound qhat vlo (proj1 Hq) Hvlo) as Hb. assert (len p <= len qhat + len vlo) by (apply fits; [done|lia|len_lia]). lia. }
  assert (Hlp : 0 <= len p <= n) by (split; [len_lia|done]). pose proof (nval_bound p (proj1 Hp)) as Hpb.
  pose proof (Vh_bound vlo vhi s n Hvhi Ln Hs Htop) as HVh. 
  assert (Edm : Uh = nval vhi * (Uh / nval vhi) + Uh mod nval vhi) by (apply Z.div_mod; lia).
  assert (Hmod : 0 <= Uh mod nval vhi < nval vhi) by (apply Z.mod_pos_bound; lia).
  set (st := (qhat, p ++ zeros (3 * n - len p), uu)).
  assert (Hg : guessed vlo vhi s n U (len qhat) (len uu) (nval qhat) st).
  { split; [apply Hq|]. split; [done|]. split; [done|]. split; [apply words_ok_app; split; [apply Hp|apply words_ok_zeros]|].
    split; [by rewrite nval_zeros_app|]. split; [rewrite len_app, len_zeros by lia; lia|]. split; [done|].
    split; [|done]. rewrite Eu, EU, Eq. nia. }
  assert (Htake : take (Z.to_nat (len p)) (p ++ zeros (3 * n - len p)) = p) by (unfold len; by rewrite Nat2Z.id, take_app_length).
  eapply returns_bind_mono.
  { eapply (fixups_spec vlo vhi s n Hvlo Hvhi Ls Ln Hs Htop U (len p) (len qhat) (len uu) Hlp (nval qhat) Uh a); try done; [lia|].
    unfold st. by rewrite Htake. }
  intros [[qhat' qs] uu'] (Hg' & Hlt & Hle & Hcase). pose proof Hg' as (Hq' & Eq' & Lq' & Hqs & Eqs & Lqs & Hu' & Eu' & Lu').
  rewrite (cmpNorm_spec vlo vhi s n Ls Hs U (len p) (len qhat) (len uu) Hlp _ _ _ _ Hg' Hlt Hcase). cbn [rbind].
  rewrite (proj1 (sign_le _ (nval uu') ltac:(rewrite Eu'; exact Hle))).
  assert (EV : nval (vlo ++ vhi) = nval vlo + weight s * nval vhi) by (by rewrite nval_app, Ls).
  pose proof (nval_bound vlo Hvlo). pose proof (weight_pos s ltac:(lia)).
  pose proof (subtract_spec (len p) qs uu' (U mod nval (vlo ++ vhi)) Hqs Hu' ltac:(lia) ltac:(lia) ltac:(lia) ltac:(lia)) as Hsub.
  ospecialize (Hsub _).
  { rewrite Eqs, Eu'. assert (EdU : U = nval (vlo ++ vhi) * (U / nval (vlo ++ vhi)) + U mod nval (vlo ++ vhi)) by (apply Z.div_mod; nia).
    revert EdU. generalize (U / nval (vlo ++ vhi)) (U mod nval (vlo ++ vhi)). intros qq rr EdU. rewrite EV in EdU. lia. }
  destruct (slice qs 0 (len p)) as [qv| |]; cbn [rbind] in *; [|done..].
  destruct (onRange uu' 0 (len p) _) as [[u1 c]| |]; cbn [rbind] in *; [|done..].
  eapply returns_bind_mono; [exact Hsub|]. intros [u2 c2] (-> & E2 & Hu2 & Lu2). cbn [returns].
  do 4 (split; [done|]). split; [done|]. split; [done|lia].
Qed.

(** ** Long divisions *)

(** A divisor whose highest word has its top bit set. *)
Definition divisor (v : list Z) : Prop := words_ok v /\ exists vl v2 v1, v = vl ++ [v2; v1] /\ B <= 2 * v1.

(** Room for the quotient in [L] words. *)
Definition room (u v : list Z) (L : Z) : Prop :=
  len u - len v < L \/ (len u - len v = L /\ 2 * nval u < weight (len u)).

(** The quotient in [L] words, the remainder in those of the dividend. *)
Definition exact (u v : list Z) (L : Z) (out : list Z * list Z) : Prop :=
  let '(q, r) := out in
  len q = L /\ words_ok q /\ nval q = nval u / nval v /\
  len r = len u /\ words_ok r /\ nval r = nval u mod nval v.

Lemma divisor_facts v : divisor v ->
  2 <= len v /\ weight (len v) <= 2 * nval v /\ nval v < weight (len v) /\ is_nat v /\ weight (len v - 1) <= nval v.
Proof.
  intros (Hv & vl & v2 & v1 & -> & Hn). pose proof (nval_bound _ Hv) as Hb. pose proof B_pos. pose proof (len_nonneg vl).
  change [v2; v1] with ([v2] ++ [v1]) in *. rewrite app_assoc in *. assert (Hl2 : 1 <= len (vl ++ [v2])) by len_lia.
  set (x := vl ++ [v2]) in *. clearbody x. pose proof Hv as Hv'. apply words_ok_app in Hv' as [Hx _].
  pose proof (nval_bound _ Hx) as Hb2. rewrite nval_snoc in *. assert (Hl : len (x ++ [v1]) = len x + 1) by len_lia.
  pose proof (weight_pos (len x) ltac:(lia)). rewrite Hl, weight_add, weight_1, Z.add_simpl_r in * by lia.
  assert (weight (len x) * B <= weight (len x) * (2 * v1)) by (apply Z.mul_le_mono_nonneg_l; lia).
  split; [lia|]. split; [lia|]. split; [lia|]. split; [split; [done|apply normal_snoc; lia]|nia].
Qed.

Lemma divisor_drop vlo vhi : divisor (vlo ++ vhi) -> 2 <= len vhi -> divisor vhi.
Proof.
  intros (Hv & vl & v2 & v1 & E & Hn) Hl. apply words_ok_app in Hv as [_ Hv]. split; [done|].
  destruct (two_highest vhi Hl) as (l & a & c & -> & _). exists l, a, c. split; [done|].
  rewrite app_assoc in E. by apply app_inj_2 in E as [_ [= <- <-]].
Qed.

Lemma room_bound u v L : divisor v -> words_ok u -> room u v L -> 0 <= L -> nval u < nval v * weight L.
Proof.
  intros Hv Hu Hr HL. destruct (divisor_facts v Hv) as (Hl & Hv2 & Hlt & _ & Hlead). pose proof (nval_bound u Hu) as Hub.
  pose proof (weight_pos L HL) as Hwl. pose proof (weight_pos (len v - 1) ltac:(lia)). destruct Hr as [Hr|[Hr Htop]].
  - assert (weight (len u) <= weight (L + (len v - 1))) by (apply weight_le; len_lia). rewrite weight_add in * by lia. nia.
  - replace (len u) with (L + len v) in Htop by lia. rewrite weight_add in Htop by lia. nia.
Qed.

(** The high part of a dividend that has room. *)
Lemma room_high (u v lo hi : list Z) L :
  u = lo ++ hi -> words_ok u -> len u - len v = L -> 2 * nval u < weight (len u) -> len lo = L -> 2 * nval hi < weight (len v).
Proof.
  intros -> Hu Hl Ht Hlo. apply words_ok_app in Hu as [Hlow _]. pose proof (nval_bound lo Hlow).
  replace (len (lo ++ hi)) with (L + len v) in Ht by lia. pose proof (len_nonneg lo). pose proof (len_nonneg v).
  rewrite nval_app, Hlo, weight_add in Ht by lia. pose proof (weight_pos L ltac:(lia)). nia.
Qed.

Section Scratch.
Context (scratch : Z -> list Z) (Hscratch : forall n, 0 <= n -> len (scratch n) = n).

Lemma divBasic_exact u v L :
  divisor v -> words_ok u -> room u v L -> 0 <= L ->
  divBasic (scratch (len v + 1)) (zeros L) u v ⇓ exact u v L.
Proof.
  intros Hv Hu Hr HL. destruct (divisor_facts v Hv) as (Hl & Hv2 & Hlt & _ & Hlead). pose proof (nval_bound u Hu) as Hub.
  destruct Hv as (Hvw & vl & v2 & v1 & Ev & Hn). pose proof (weight_pos (len v - 1) ltac:(lia)).
  destruct (Z.lt_ge_cases (len u) (len v)) as [Hs|Hge].
  { rewrite (divBasic_short v (len v) v1 v2 vl Ev Hvw eq_refl Hn) by done. cbn [returns exact].
    pose proof (weight_le (len u) (len v - 1) ltac:(len_lia)). rewrite Z.div_small, Z.mod_small by lia.
    rewrite len_zeros by done. split; [done|]. split; [apply words_ok_zeros|]. split; [apply nval_zeros|done]. }
  eapply returns_mono.
  - eapply (divBasic_spec v (len v) v1 v2 vl Ev Hvw eq_refl Hn); [done|done|rewrite len_zeros by done; unfold room in Hr; lia|apply Hscratch; lia|].
    rewrite len_zeros by done. intros EL. destruct Hr as [Hr|[_ Htop]]; [lia|].
    destruct (slice_split u (len u - len v) ltac:(lia)) as (lo & hi & E & Hlo).
    pose proof (room_high u v lo hi (len u - len v) E Hu eq_refl Htop Hlo) as Hh.
    rewrite <- Hlo at 1. unfold len at 1. rewrite Nat2Z.id, E, drop_app_length. lia.
  - intros [q r] (qd & -> & Lq & Hqd & Hrw & Lr & E & Hlt2). rewrite len_zeros in Lq by done. pose proof (nval_bound r Hrw).
    assert (Eq : nval (qd ++ drop (Z.to_nat (len u - len v + 1)) (zeros L)) = nval qd).
    { unfold zeros. rewrite drop_replicate, nval_app, nval_zeros. lia. }
    cbn [exact]. rewrite Eq. split; [done|]. split; [apply words_ok_app; split; [done|apply Forall_drop, words_ok_zeros]|].
    split; [apply (Z.div_unique _ _ _ (nval r)); lia|]. split; [done|]. split; [done|apply (Z.mod_unique _ _ (nval qd)); lia].
Qed.

(** *** Wide digits *)

Section Wide.
Context (rec : list Z -> list Z -> list Z -> res (list Z * list Z)).
Context (vlo vhi : list Z) (n WB s : Z).
Context (Hv : divisor (vlo ++ vhi)) (Ln : len (vlo ++ vhi) = n) (EWB : WB = n / 2) (Es : s = WB - 1) (Ls : len vlo = s) (Hn : divRecursiveThreshold <= n).
Context (Hrec : forall u, words_ok u -> room u vhi (WB + 1) -> rec (zeros (WB + 1)) u vhi ⇓ exact u vhi (WB + 1)).
Let V := nval (vlo ++ vhi).
Let Vh := nval vhi.

Lemma wide_sizes : 2 * WB <= n <= 2 * WB + 1 /\ 20 <= WB /\ len vhi = n - s.
Proof.
  unfold divRecursiveThreshold in Hn. pose proof (Z.div_mod n 2 ltac:(lia)). pose proof (Z.mod_pos_bound n 2 ltac:(lia)).
  rewrite len_app in Ln. lia.
Qed.

Lemma wide_divisor :
  words_ok vlo /\ words_ok vhi /\ divisor vhi /\ weight (n - s) <= 2 * Vh /\ 0 < Vh /\ 2 * weight WB <= Vh /\ 0 < V.
Proof.
  destruct wide_sizes as (H1 & H2 & H3). pose proof Hv as [Hvw _]. apply words_ok_app in Hvw as [Hl Hh].
  assert (Hd : divisor vhi) by (apply (divisor_drop vlo); [done|lia]). destruct (divisor_facts vhi Hd) as (_ & Hw & _).
  destruct (divisor_facts _ Hv) as (_ & _ & _ & _ & Hlead). rewrite H3 in Hw. fold Vh in Hw.
  pose proof (weight_pos (n - s) ltac:(lia)). pose proof (weight_pos (len (vlo ++ vhi) - 1) ltac:(lia)).
  split; [done|]. split; [done|]. split; [done|]. split; [done|]. split; [lia|]. split; [|unfold V; lia].
  assert (He : weight (WB + 1) <= weight (n - s)) by (apply weight_le; lia). rewrite weight_add, weight_1 in He by lia.
  pose proof (weight_pos WB ltac:(lia)). pose proof B_pos. nia.
Qed.

(** The guess: from a high part of [c + (n - s)] words, of fewer than
    [2 * weight c]. *)
Lemma guess_small Uh c : 0 <= c -> 0 <= Uh < weight (c + (n - s)) -> Uh / Vh < 2 * weight c.
Proof.
  intros Hc HU. destruct wide_divisor as (_ & _ & _ & Ht & Hp & _). destruct wide_sizes as (? & ? & ?).
  rewrite weight_add in HU by lia. apply Z.div_lt_upper_bound; [lia|]. pose proof (weight_pos c Hc). nia.
Qed.

(** A guess that [reduce] accepts, from the section of the dividend. *)
Lemma wide_reduce breaks a h k q r c :
  words_ok a -> len a = s -> words_ok h -> exact h vhi (WB + 1) (q, r) -> 0 <= c <= WB -> nval h < weight (c + (n - s)) ->
  0 <= k -> n <= len (a ++ r ++ zeros k) -> c = 0 \/ n + 1 <= len (a ++ r ++ zeros k) ->
  (let! qhat := norm q in reduce scratch breaks qhat (a ++ r ++ zeros k) (vlo ++ vhi) s n) ⇓ (fun '(q', uu', b) =>
    let U := nval (a ++ h) in
    b = 0 /\ nval q' = U / V /\ words_ok q' /\ nval uu' = U mod V /\ words_ok uu' /\ len uu' = len (a ++ r ++ zeros k) /\
    (forall d, 0 <= d -> nval h / Vh < weight d -> len q' <= d)).
Proof.
  intros Ha La Hh (Lq & Hq & Eq & Lr & Hr & Er) Hc Hhb Hk Hlen Hroom.
  destruct wide_divisor as (Hvl & Hvh & Hdh & Ht & HVh & Hbig & HV). destruct wide_sizes as (H1 & H2 & H3).
  destruct (norm_split q Hq) as (qhat & kq & -> & _ & Hqn & Eqn & _). cbn [rbind].
  pose proof (nval_bound h Hh) as Hhb0. pose proof (nval_bound a Ha) as Hab. rewrite La in Hab.
  assert (Hg : nval h / Vh < 2 * weight c) by (apply guess_small; lia). fold Vh in Eq. rewrite Eq in Eqn.
  assert (Hwc : weight c <= weight WB) by (apply weight_le; lia).
  assert (Lqn : len qhat <= WB + 1).
  { apply fits; [done| |lia]. rewrite weight_add, weight_1, Eqn by lia. pose proof B_pos.
    assert (0 < weight WB) by (apply weight_pos; lia). nia. }
  assert (Hqs : words_ok (a ++ r ++ zeros k)) by (repeat (apply words_ok_app; split; [done|]); apply words_ok_zeros).
  assert (Ev : nval (a ++ r ++ zeros k) = nval a + weight s * (nval h mod nval vhi)) by (rewrite app_assoc, nval_zeros_app, nval_app, La, Er; done).
  assert (EU : nval (a ++ h) = nval a + weight s * nval h) by (by rewrite nval_app, La).
  assert (HU : nval (a ++ h) < weight (len (a ++ r ++ zeros k))).
  { assert (Hah : words_ok (a ++ h)) by (by apply words_ok_app). pose proof (nval_bound _ Hah).
    assert (weight (len (a ++ h)) <= weight (len (a ++ r ++ zeros k))); [|lia].
    apply weight_le. rewrite !len_app, len_zeros by done. pose proof (len_nonneg a). pose proof (len_nonneg h). lia. }
  eapply returns_mono.
  { eapply (reduce_spec scratch breaks qhat _ vlo vhi s n (nval (a ++ h)) (nval h) (nval a)); try done; try lia.
    destruct Hroom as [->|Hroom]; [left|by right]. rewrite weight_0 in Hg. lia. }
  intros [[q' uu'] b] (-> & Eq' & Hq' & Lq' & Eu' & Hu' & Lu'). cbv zeta. do 6 (split; [done|]).
  intros d Hd Hlt. rewrite Lq'. apply fits; [done|lia|done].
Qed.

(** The digits of [u0] above [j] are in [z], the rest of it in [u]. *)
Definition widely (u0 : list Z) (m L : Z) (st : list Z * list Z * Z) : Prop :=
  let '(z, u, j) := st in
  0 <= j <= m /\ len u = m + n /\ words_ok u /\ len z = L /\ words_ok z /\ nval u0 = nval u + V * nval z /\
  exists lo hi, u = lo ++ hi /\ len lo = j /\ ((j = m /\ u = u0) \/ (j < m /\ nval hi < V)).

(** The section of a wide digit: [s] words, the high part, and zeros. *)
Lemma wide_section u0 m L z u j :
  widely u0 m L (z, u, j) -> WB < j ->
  exists lo a h k, u = lo ++ a ++ h ++ zeros k /\ len lo = j - WB /\ len a = s /\ len h = WB + (n - s) /\ 0 <= k /\
    words_ok lo /\ words_ok a /\ words_ok h /\ (j = m -> k = 0).
Proof.
  intros (Hj & Lu & Hu & _ & _ & _ & lo0 & hi0 & E0 & L0 & Hcase) Hlt. destruct wide_sizes as (H1 & H2 & H3).
  destruct (slice_split u (j - WB) ltac:(lia)) as (lo & uu & E1 & L1).
  assert (Luu : len uu = m + n - (j - WB)) by (rewrite E1, len_app in Lu; lia).
  destruct (slice_split uu s ltac:(lia)) as (a & r & E2 & La).
  assert (Lr : len r = m + n - j + WB - s) by (rewrite E2, len_app in Luu; lia).
  destruct (slice_split r (WB + (n - s)) ltac:(lia)) as (h & t & E3 & Lh).
  assert (Lt : len t = m - j) by (rewrite E3, len_app in Lr; lia).
  assert (Eu : u = (lo ++ a ++ h) ++ t) by (by rewrite E1, E2, E3, <- !app_assoc).
  pose proof Hu as Hu'. rewrite Eu in Hu'. apply words_ok_app in Hu' as [Hlah Ht].
  assert (Ht0 : t = zeros (m - j)).
  { apply words_unique; [unfold zeros; rewrite length_replicate; unfold len in Lt; lia|done|apply words_ok_zeros|].
    unfold zeros. rewrite nval_zeros. destruct Hcase as [(-> & _)|(_ & Hhi)].
    - assert (t = []) as -> by (apply len_zero_inv; lia). done.
    - (* the words above the section are above the divisor *)
      assert (Ehi : exists b, hi0 = b ++ t /\ len b = n).
      { exists (drop (Z.to_nat WB) (a ++ h)).
        assert (E : drop (Z.to_nat j) u = hi0) by (rewrite E0; replace (Z.to_nat j) with (length lo0) by (unfold len in *; lia); apply drop_app_length).
        rewrite <- E, Eu. replace (Z.to_nat j) with (length lo + Z.to_nat WB)%nat by (unfold len in *; lia).
        rewrite <- app_assoc, drop_app_add. rewrite drop_app_le by (rewrite length_app; unfold len in *; lia).
        split; [done|]. unfold len in *. rewrite length_drop, length_app. lia. }
      destruct Ehi as (b & -> & Lb). rewrite nval_app, Lb in Hhi. pose proof (nval_bound t Ht).
      assert (words_ok b) by (rewrite E0 in Hu; apply words_ok_app in Hu as [_ Hu]; by apply words_ok_app in Hu as [Hu _]).
      assert (0 <= nval b) by (by apply nval_bound). destruct (divisor_facts _ Hv) as (_ & _ & Hvb & _). rewrite Ln in Hvb. fold V in Hvb.
      assert (0 < weight n) by (apply weight_pos; lia). nia. }
  apply words_ok_app in Hlah as [Hlo Hah]. apply words_ok_app in Hah as [Ha Hh].
  exists lo, a, h, (m - j). rewrite <- Ht0. split; [by rewrite Eu, <- !app_assoc|]. split; [done|]. split; [done|]. split; [done|].
  split; [lia|]. split; [done|]. split; [done|]. split; [done|lia].
Qed.

Lemma wide_digit a h k :
  words_ok a -> len a = s -> words_ok h -> len h = WB + (n - s) -> 0 <= k ->
  (let! '(uu, qhat) := onRange (a ++ h ++ zeros k) s (WB + n) (fun w =>
     let! '(qhat, w) := rec (zeros (WB + 1)) w vhi in
     Ok (w, qhat)) in
   let! qhat := norm qhat in
   let! '(qhat, uu, _) := reduce scratch true qhat uu (vlo ++ vhi) s n in
   Ok (uu, qhat)) ⇓ (fun '(uu, q) =>
    let U := nval (a ++ h) in
    nval q = U / V /\ words_ok q /\ nval uu = U mod V /\ words_ok uu /\ len uu = len (a ++ h ++ zeros k) /\
    (forall d, 0 <= d -> nval h / Vh < weight d -> len q <= d)).
Proof.
  intros Ha La Hh Lh Hk. destruct wide_sizes as (H1 & H2 & H3). destruct wide_divisor as (_ & Hvh & _).
  rewrite onRange_app by lia. apply returns_bind, returns_bind, returns_bind.
  eapply returns_mono; [apply Hrec; [done|left; lia]|]. intros [q r] Hex. cbn [returns].
  pose proof Hex as (_ & _ & _ & Lr & _). assert (Hwl : nval h < weight (WB + (n - s))) by (rewrite <- Lh; by apply nval_bound).
  assert (Ll : len (a ++ r ++ zeros k) = len (a ++ h ++ zeros k)) by (rewrite !len_app; lia).
  assert (Ll2 : n + 1 <= len (a ++ r ++ zeros k)) by (rewrite !len_app, len_zeros by done; lia).
  pose proof (wide_reduce true a h k q r WB Ha La Hh Hex ltac:(lia) Hwl Hk ltac:(lia) ltac:(by right)) as Hred.
  destruct (norm q) as [qhat| |]; cbn [rbind] in *; [|done..].
  eapply returns_bind_mono; [exact Hred|]. cbv zeta. intros [[q' uu'] b] (-> & E1 & H4 & E2 & H5 & L5 & Hfit). cbn [returns].
  do 4 (split; [done|]). split; [lia|done].
Qed.

(** What the room for the quotient leaves for a wide digit. *)
Lemma digit_room u0 m L j lo a h k :
  room u0 (vlo ++ vhi) L -> len u0 = m + n -> WB < j <= m -> len lo = j - WB -> len a = s -> len h = WB + (n - s) ->
  words_ok lo -> words_ok a -> words_ok h -> 0 <= k -> (j = m -> k = 0 /\ lo ++ a ++ h ++ zeros k = u0) ->
  exists d, 0 <= d <= L - (j - WB) /\ nval h / Vh < weight d.
Proof.
  intros Hr Lu Hj Llo La Lh Hlo Ha Hh Hk Hm. destruct wide_sizes as (H1 & H2 & H3).
  destruct wide_divisor as (_ & _ & _ & Ht & HVh & _). pose proof (nval_bound h Hh) as Hhb. rewrite Lh in Hhb.
  assert (Hg : nval h / Vh < 2 * weight WB) by (apply guess_small; lia). pose proof (weight_pos WB ltac:(lia)) as HwB.
  destruct (Z.lt_ge_cases (j + 1) (L + 1)) as [Hlt|Hge].
  { exists (WB + 1). split; [lia|]. rewrite weight_add, weight_1 by lia. pose proof B_pos. nia. }
  destruct Hr as [Hr|[Hr Htop]]; [lia|]. exists WB. split; [lia|]. apply Z.div_lt_upper_bound; [lia|].
  destruct (Hm ltac:(lia)) as [-> E]. rewrite <- E in Htop. change (zeros 0) with (@nil Z) in Htop. rewrite app_nil_r in Htop.
  rewrite !nval_app, !len_app, La, Lh, Llo in Htop. pose proof (nval_bound lo Hlo). pose proof (nval_bound a Ha).
  rewrite (weight_add (j - WB)), (weight_add s), (weight_add WB) in Htop by lia. pose proof (weight_pos (j - WB) ltac:(lia)) as Hw1. pose proof (weight_pos s ltac:(lia)) as Hw2.
  revert Hw1 Hw2 Htop Ht HwB. generalize (weight (j - WB)) (weight s) (weight WB) (weight (n - s)). intros w1 w2 w3 w4 Hw1 Hw2 Htop Ht HwB.
  assert (0 <= w1 * nval a) by nia. assert (Hx : (w1 * w2) * (2 * nval h) < (w1 * w2) * (w3 * w4)) by lia.
  apply Z.mul_lt_mono_pos_l in Hx; [|nia]. nia.
Qed.

Lemma wide_step u0 m L z u j :
  room u0 (vlo ++ vhi) L -> len u0 = m + n -> nval u0 < V * weight L -> 0 <= L -> widely u0 m L (z, u, j) -> WB < j ->
  (let! '(u, qhat) := onRange u (j - WB) (len u) (fun uu =>
     let! '(uu, qhat) := onRange uu s (WB + n) (fun w =>
       let! '(qhat, w) := rec (zeros (WB + 1)) w vhi in
       Ok (w, qhat)) in
     let! qhat := norm qhat in
     let! '(qhat, uu, _) := reduce scratch true qhat uu (vlo ++ vhi) s n in
     Ok (uu, qhat)) in
   let! z := addToAt z (j - WB) qhat in
   Ok (z, u)) ⇓ (fun '(z, u) => widely u0 m L (z, u, j - WB)).
Proof.
  intros Hr Lu0 Hlt HL Hst Hj. pose proof Hst as (Hjm & Lu & Hu & Lz & Hz & EU & lo0 & hi0 & E0 & L0 & Hcase).
  destruct (wide_section _ _ _ _ _ _ Hst Hj) as (lo & a & h & k & E & Llo & La & Lh & Hk & Hlo & Ha & Hh & Hk0).
  destruct wide_sizes as (H1 & H2 & H3). destruct wide_divisor as (_ & _ & _ & _ & _ & _ & HV).
  destruct (digit_room u0 m L j lo a h k) as (d & Hd & Hdig); try done; [lia| |].
  { intros Ejm. split; [by apply Hk0|]. rewrite <- E. destruct Hcase as [[_ ->]|[? _]]; [done|lia]. }
  rewrite E. rewrite onRange_back by (rewrite ?len_app; lia). apply returns_bind, returns_bind.
  eapply returns_mono; [by apply wide_digit|]. cbv zeta. intros [uu q] (Eq & Hq & Euu & Huu & Luu & Hfit). cbn [returns].
  set (U := nval (a ++ h)) in *. assert (EdU : U = V * (U / V) + U mod V) by (apply Z.div_mod; lia).
  assert (Hmod : 0 <= U mod V < V) by (by apply Z.mod_pos_bound).
  assert (Eu : nval u = nval lo + weight (j - WB) * U).
  { rewrite E, nval_app, Llo. unfold U. f_equal. f_equal. by rewrite app_assoc, nval_zeros_app. }
  pose proof (weight_pos (j - WB) ltac:(lia)) as Hw. pose proof (nval_bound lo Hlo) as Hlob. pose proof (nval_bound z Hz) as Hzb.
  assert (Etot : nval u0 = nval lo + weight (j - WB) * (U mod V) + V * (nval z + weight (j - WB) * nval q)).
  { rewrite EU, Eu, Eq. rewrite EdU at 1. lia. }
  assert (Hfits : nval z + weight (j - WB) * nval q < weight L).
  { assert (V * (nval z + weight (j - WB) * nval q) < V * weight L) by nia. nia. }
  apply returns_bind. eapply returns_mono; [apply addToAt_spec; [done|done|lia| |rewrite Lz; done]|].
  { specialize (Hfit d ltac:(lia) Hdig). lia. }
  intros z' (Ez' & Hz' & Lz'). cbn [returns].
  assert (Ll : len (lo ++ uu) = len u) by (rewrite E, !(len_app lo), Luu; done).
  split; [lia|]. split; [lia|]. split; [by apply words_ok_app|]. split; [lia|]. split; [done|].
  split; [rewrite nval_app, Llo, Ez', Euu; lia|]. exists lo, uu. split; [done|]. split; [done|]. right. split; [lia|]. fold V. lia.
Qed.

Lemma wideDigits_spec u0 m L z :
  room u0 (vlo ++ vhi) L -> len u0 = m + n -> nval u0 < V * weight L -> 0 <= L -> 0 <= m -> widely u0 m L (z, u0, m) ->
  wideDigits scratch rec z u0 (vlo ++ vhi) n m WB s ⇓ (fun '(z, u) => exists j, j <= WB /\ widely u0 m L (z, u, j)).
Proof.
  intros Hr Lu Hlt HL Hm Hst. destruct wide_sizes as (H1 & H2 & H3). unfold wideDigits.
  rewrite slice_back by (rewrite len_app in Ln; lia). cbn [rbind].
  apply (loop_returns (widely u0 m L) (fun '(z, u, j) => j)); [|done|unfold len in *; lia|done].
  clear z Hst. intros [[z u] j] Hst. destruct (Z.gtb_spec j WB) as [Hj|Hj].
  2: { cbn [returns]. exists j. split; [lia|done]. }
  pose proof (wide_step u0 m L z u j Hr Lu Hlt HL Hst Hj) as Hw.
  destruct (onRange u (j - WB) (len u) _) as [[u' q]| |]; cbn [rbind] in *; [|done..].
  destruct (addToAt z (j - WB) q) as [z'| |]; cbn [rbind returns] in *; [|done..]. split; [done|].
  destruct Hst as (Hj' & _). lia.
Qed.

Lemma lastDigit_spec u0 m L z u j :
  nval u0 < V * weight L -> 0 <= L -> 0 <= m -> len u0 = m + n -> words_ok u0 -> widely u0 m L (z, u, j) -> j <= WB ->
  lastDigit scratch rec z u (vlo ++ vhi) n WB s ⇓ exact u0 (vlo ++ vhi) L.
Proof.
  intros Hlt HL Hm Lu0 Hu0 (Hj & Lu & Hu & Lz & Hz & EU & lo0 & hi0 & E0 & L0 & Hcase) HjW.
  destruct wide_sizes as (H1 & H2 & H3). destruct wide_divisor as (_ & Hvh & _ & _ & HVh & _ & HV). unfold lastDigit.
  rewrite slice_back by (rewrite len_app in Ln; lia). cbn [rbind].
  assert (Hub : nval u < weight (j + n)).
  { rewrite E0, nval_app, L0. pose proof Hu as Hu'. rewrite E0 in Hu'. apply words_ok_app in Hu' as [Hlo Hhi].
    assert (Hhn : nval hi0 < weight n).
    { destruct Hcase as [[-> _]|[_ Hv']].
      - assert (Lh : len hi0 = n) by (rewrite E0, len_app in Lu; lia). rewrite <- Lh. by apply nval_bound.
      - destruct (divisor_facts _ Hv) as (_ & _ & Hvb & _). rewrite Ln in Hvb. fold V in Hvb. lia. }
    pose proof (nval_bound lo0 Hlo) as Hb. rewrite L0 in Hb. rewrite weight_add by lia. nia. }
  destruct (slice_split u s ltac:(lia)) as (a & w & Eu & La). assert (Lw : len w = m + n - s) by (rewrite Eu, len_app in Lu; lia).
  pose proof Hu as Hu'. rewrite Eu in Hu'. apply words_ok_app in Hu' as [Ha Hw].
  rewrite Eu, onRange_back by (rewrite ?len_app; lia). destruct (norm_split w Hw) as (wn & k & En & Ew & Hwn & Ewv & Hk). rewrite En. cbn [rbind].
  assert (Hwb : nval w < weight (j + (n - s))).
  { rewrite Eu, nval_app, La in Hub. replace (j + n) with (s + (j + (n - s))) in Hub by lia. rewrite weight_add in Hub by lia.
    pose proof (weight_pos s ltac:(lia)). pose proof (nval_bound a Ha). nia. }
  assert (Lwn : len wn <= j + (n - s)) by (apply fits; [done|lia|lia]).
  apply returns_bind, returns_bind, returns_bind.
  eapply returns_mono; [apply Hrec; [apply Hwn|left; lia]|]. intros [q r] Hex. cbn [returns].
  assert (Etail : drop (length wn) w = zeros k) by (rewrite Ew at 1; apply drop_app_length). rewrite Etail.
  pose proof Hex as (_ & _ & _ & Lr & _).
  assert (Ll : len (a ++ r ++ zeros k) = m + n).
  { rewrite Ew, len_app, len_zeros in Lw by done. rewrite !len_app, len_zeros by done. lia. }
  pose proof (wide_reduce false a wn k q r j Ha La (proj1 Hwn) Hex ltac:(lia) ltac:(lia) Hk ltac:(lia) ltac:(lia)) as Hred.
  destruct (norm q) as [qhat| |]; cbn [rbind] in *; [|done..].
  eapply returns_bind_mono; [exact Hred|]. cbv zeta. intros [[q' u'] b] (-> & Eq' & Hq' & Eu' & Hu2 & Lu' & _). clear Hred.
  change (0 >? 0) with false. cbv iota.
  assert (EUu : nval (a ++ wn) = nval u) by (rewrite Eu, !nval_app, Ewv; done). rewrite EUu in *.
  assert (EdU : nval u = V * (nval u / V) + nval u mod V) by (apply Z.div_mod; lia).
  assert (Hmod : 0 <= nval u mod V < V) by (by apply Z.mod_pos_bound). pose proof (nval_bound z Hz). pose proof (nval_bound q' Hq').
  assert (Etot : nval u0 = V * (nval z + nval q') + nval u mod V) by (rewrite EU, Eq'; rewrite EdU at 1; lia).
  assert (Hfit : nval z + nval q' < weight L) by nia.
  destruct (norm_split q' Hq') as (qn & ? & -> & _ & Hqn & Eqn & _). cbn [rbind].
  apply returns_bind. eapply returns_mono; [apply addTo_spec; [done|apply Hqn|rewrite Lz; apply fits; [done|lia|done]|rewrite Lz; lia]|].
  intros z' (Ez' & Hz' & Lz'). cbn [returns exact]. fold V.
  split; [lia|]. split; [done|]. split; [apply (Z.div_unique _ _ _ (nval u mod V)); lia|]. split; [lia|]. split; [done|].
  rewrite Eu'. apply (Z.mod_unique _ _ (nval z + nval q')); lia.
Qed.
End Wide.

(** ** The recursion *)

Definition divides_upto (rec : list Z -> list Z -> list Z -> res (list Z * list Z)) (k : Z) : Prop :=
  forall L u v, divisor v -> len v < k -> words_ok u -> room u v L -> 0 <= L -> rec (zeros L) u v ⇓ exact u v L.

(** The result for a dividend, from that for the dividend without its leading
    zeros. *)
Lemma exact_zeros un k v L q r :
  0 <= k -> exact un v L (q, r) -> exact (un ++ zeros k) v L (q, r ++ zeros k).
Proof.
  intros Hk (Lq & Hq & Eq & Lr & Hr & Er). cbn [exact]. rewrite !nval_zeros_app, !len_app, Lr.
  do 4 (split; [done|]). split; [apply words_ok_app; split; [done|apply words_ok_zeros]|done].
Qed.

Lemma divRecursiveBody_spec rec k : divides_upto rec k -> divides_upto (divRecursiveBody scratch rec) (k + 1).
Proof.
  intros Hrec L u v Hv Hk Hu Hr HL. destruct (divisor_facts v Hv) as (Hl & Hv2 & Hlt & Hvn & Hlead). unfold divRecursiveBody.
  destruct (norm_split u Hu) as (un & k0 & -> & Eu & Hun & Eun & Hk0). cbn [rbind]. rewrite (norm_id v Hvn). cbn [rbind].
  assert (Lu : len u = len un + k0) by (rewrite Eu, len_app, len_zeros by done; done).
  assert (Hrn : room un v L).
  { destruct Hr as [Hr|[Hr Ht]]; [left; lia|]. destruct (decide (k0 = 0)); [right|left; lia]. split; [lia|].
    rewrite Eun. replace (len un) with (len u) by lia. done. }
  pose proof (room_bound un v L Hv (proj1 Hun) Hrn HL) as Hfit. pose proof (weight_pos (len v - 1) ltac:(lia)) as Hwp.
  assert (Hshort : nval u < nval v -> Ok (zeros L, u) ⇓ exact u v L).
  { intros Hs. pose proof (nval_bound u Hu). cbn [returns exact]. rewrite Z.div_small, Z.mod_small, len_zeros by lia.
    split; [done|]. split; [apply words_ok_zeros|]. split; [apply nval_zeros|done]. }
  rewrite len_zeros by done. destruct (Z.eqb_spec (len un) 0) as [E0|E0].
  { apply Hshort. apply len_zero_inv in E0 as ->. cbn [val] in Eun. lia. }
  assert (Edrop : drop (length un) u = zeros k0) by (rewrite Eu at 1; apply drop_app_length). rewrite Edrop.
  destruct (Z.ltb_spec (len v) divRecursiveThreshold) as [Hsm|Hbig].
  { eapply returns_bind_mono; [by apply divBasic_exact; [|apply Hun| |]|]. intros [q r] Hex. cbn [returns]. rewrite Eu. by apply exact_zeros. }
  destruct (Z.ltb_spec (len un - len v) 0) as [Hneg|Hm].
  { apply Hshort. rewrite <- Eun. pose proof (nval_bound un (proj1 Hun)). pose proof (weight_le (len un) (len v - 1) ltac:(len_lia)). lia. }
  set (n := len v) in *. set (WB := n / 2). unfold divRecursiveThreshold in Hbig.
  assert (HWB : 2 * WB <= n <= 2 * WB + 1) by (unfold WB; pose proof (Z.div_mod n 2); pose proof (Z.mod_pos_bound n 2); lia).
  destruct (slice_split v (WB - 1) ltac:(lia)) as (vlo & vhi & Ev & Lvlo).
  assert (Lvhi : len vhi = n - (WB - 1)) by (unfold n; rewrite Ev, len_app; lia).
  assert (Hrec' : forall w, words_ok w -> room w vhi (WB + 1) -> rec (zeros (WB + 1)) w vhi ⇓ exact w vhi (WB + 1)).
  { intros w Hw Hrw. apply Hrec; [|lia|done|done|lia]. apply (divisor_drop vlo); [by rewrite <- Ev|lia]. }
  assert (Ln : len v = n) by done. clearbody n. subst v.
  assert (Hwide : widely vlo vhi n un (len un - n) L (zeros L, un, len un - n)).
  { split; [lia|]. split; [lia|]. split; [apply Hun|]. split; [by apply len_zeros|]. split; [apply words_ok_zeros|].
    split; [unfold zeros; rewrite nval_zeros; lia|].
    destruct (slice_split un (len un - n) ltac:(lia)) as (lo & hi & E & Hlo). exists lo, hi. split; [done|]. split; [done|by left]. }
  eapply returns_bind_mono.
  { apply (wideDigits_spec rec vlo vhi n WB (WB - 1) Hv Ln eq_refl eq_refl Lvlo Hbig Hrec' un (len un - n) L); (done || lia). }
  intros [z u'] (j & Hj & Hst). eapply returns_bind_mono.
  { apply (lastDigit_spec rec vlo vhi n WB (WB - 1) Hv Ln eq_refl eq_refl Lvlo Hbig Hrec' un (len un - n) L z u' j); (apply Hun || done || lia). }
  intros [q r] Hex. cbn [returns]. rewrite Eu. by apply exact_zeros.
Qed.

Lemma divRecursiveStep_spec fuel : divides_upto (divRecursiveStep scratch fuel) (Z.of_nat fuel).
Proof.
  induction fuel as [|f IH]; intros L u v Hv Hl; [pose proof (len_nonneg v); lia|]. cbn [divRecursiveStep].
  apply (divRecursiveBody_spec _ (Z.of_nat f)); [done|done|lia].
Qed.

(** Basic or recursive division, of a dividend whose top bit is clear. *)
Lemma divLong_spec q u v :
  divisor v -> words_ok u -> 2 * nval u < weight (len u) -> len v <= len u -> len q = len u - len v ->
  (if len v <? divRecursiveThreshold then divBasic (scratch (len v + 1)) q u v else divRecursive scratch q u v)
  ⇓ exact u v (len q).
Proof.
  intros Hv Hu Ht Hl Lq. destruct (Z.ltb_spec (len v) divRecursiveThreshold) as [Hsm|Hbig].
  2: { unfold divRecursive. apply divRecursiveStep_spec; [done|unfold len; lia|done|right; done|len_lia]. }
  destruct (divisor_facts v Hv) as (Hl2 & Hv2 & Hlt & _). destruct Hv as (Hvw & vl & v2 & v1 & Ev & Hn).
  destruct (slice_split u (len u - len v) ltac:(len_lia)) as (lo & hi & E & Hlo).
  pose proof (room_high u v lo hi (len u - len v) E Hu eq_refl Ht Hlo) as Hh.
  eapply returns_mono.
  - eapply (divBasic_spec v (len v) v1 v2 vl Ev Hvw eq_refl Hn); [done|done|lia|apply Hscratch; lia|].
    intros _. rewrite <- Hlo at 1. unfold len at 1. rewrite Nat2Z.id, E, drop_app_length. lia.
  - intros [q' r] (qd & -> & Lq' & Hqd & Hrw & Lr & Eu & Hlt2). pose proof (nval_bound r Hrw).
    rewrite (drop_ge q) in * by (unfold len in *; lia). rewrite app_nil_r in *. cbn [exact].
    split; [done|]. split; [done|]. split; [apply (Z.div_unique _ _ _ (nval r)); lia|]. split; [done|].
    split; [done|apply (Z.mod_unique _ _ (nval qd)); lia].
Qed.

(** ** Division of natural numbers *)

Lemma divLarge_spec z z2 u v :
  is_nat u -> is_nat v -> 2 <= len v -> len v <= len u ->
  divLarge scratch z z2 u v ⇓ (fun '(q, r) =>
    nval q = nval u / nval v /\ nval r = nval u mod nval v /\ is_nat q /\ is_nat r).
Proof.
  intros [Hu Hun] Hv Hlv Hlu. unfold divLarge.
  destruct (exists_last (l := v)) as (vl & top & ->); [intros ->; len_lia|].
  assert (Hlvl : len (vl ++ [top]) = len vl + 1) by len_lia. pose proof Hv as [Hvw Hvn].
  assert (Ht : 0 < top < B).
  { pose proof (Hvn vl top eq_refl). apply words_ok_app in Hvw as [_ Ht]. apply Forall_cons_1 in Ht as [Ht _].
    unfold word_ok in *. lia. }
  rewrite idx_app by lia. cbn [rbind]. destruct (nlz_norm top Ht) as (s & -> & Hs & Hhi & Hlt). cbn [rbind].
  destruct (scaled_operands (scratch (len (vl ++ [top]))) z2 u (vl ++ [top]) s)
    as (w & c & u' & Em & Ev & Hww & Hlw & Hc & Eu' & Hu'w & Hlu'); [apply Hscratch; lia|done..|].
  cbv zeta in Em. rewrite Em. cbn [rbind]. rewrite <- Hlw in *.
  destruct (scaled_divisor vl top s w c Hvw Ht Hs Hhi Hlt Ev Hww ltac:(lia) ltac:(lia) Hc) as (Ev' & wl & w2 & w1 & Edec & Hnorm).
  assert (Hdw : divisor w) by (split; [done|by exists wl, w2, w1]).
  assert (Htop : 2 * nval u' < weight (len u')).
  { rewrite Eu', Hlu', weight_add, weight_1 by len_lia. pose proof (nval_bound u Hu) as Hub. pose proof (pow_pos s ltac:(lia)) as Hps.
    assert (EB : B = 2 ^ s * 2 ^ (_W - s)) by (apply B_split; lia).
    assert (2 <= 2 ^ (_W - s)) by (change 2 with (2 ^ 1) at 1; apply Z.pow_le_mono_r; lia). rewrite EB.
    assert (2 * (nval u * 2 ^ s) < 2 * (weight (len u) * 2 ^ s)) by nia.
    assert (weight (len u) * 2 ^ s * 2 <= weight (len u) * 2 ^ s * 2 ^ (_W - s)) by (apply Z.mul_le_mono_nonneg_l; nia). lia. }
  assert (Lq : len (nmake z (len u - len w + 1)) = len u' - len w) by (rewrite len_nmake; lia).
  eapply returns_bind_mono; [apply divLong_spec; [done|done|done|lia|exact Lq]|].
  intros [q' r'] (_ & Hq' & Eq & _ & Hr'w & Er). rewrite Eu', Ev' in Eq, Er. pose proof (nval_bound r' Hr'w) as Hrb.
  assert (Hvp : 0 < nval (vl ++ [top]) * 2 ^ s) by (destruct (divisor_facts w Hdw) as (? & ? & ? & _ & ?); pose proof (weight_pos (len w - 1) ltac:(lia)); lia).
  assert (Edm : nval u * 2 ^ s = nval q' * (nval (vl ++ [top]) * 2 ^ s) + nval r').
  { rewrite Eq, Er. rewrite (Z.mul_comm (nval u * 2 ^ s / _)). apply Z.div_mod. lia. }
  assert (Hr : 0 <= nval r' < nval (vl ++ [top]) * 2 ^ s) by (rewrite Er; by apply Z.mod_pos_bound).
  destruct (unscale _ _ _ _ s ltac:(lia) Edm Hr) as [Eq2 Er2].
  eapply returns_bind_mono; [by apply norm_spec|]. intros q (Eqn & Hq & _).
  pose proof (unshift_norm r' s Hr'w Hs) as Hres.
  destruct (if negb (s =? 0) then _ else _) as [u2| |]; cbn [rbind] in *; [|done..].
  eapply returns_bind_mono; [exact Hres|]. intros r [Er' Hr']. cbn [returns]. by rewrite Er', Eqn.
Qed.

(** The quotient and the remainder; a zero divisor panics. *)
Lemma ndiv_spec z z2 u v :
  is_nat u -> is_nat v ->
  if nval v =? 0 then ndiv scratch z z2 u v = Panic
  else ndiv scratch z z2 u v ⇓ (fun '(q, r) =>
    nval q = nval u / nval v /\ nval r = nval u mod nval v /\ is_nat q /\ is_nat r).
Proof.
  intros Hu Hv. unfold ndiv. destruct (Z.eqb_spec (len v) 0) as [E0|E0].
  { apply len_zero_inv in E0 as ->. done. }
  assert (Hv0 : nval v <> 0) by (intros E; apply is_nat_zero in E as ->; [|done]; done).
  rewrite (proj2 (Z.eqb_neq _ _) Hv0). destruct (Z.eqb_spec (len v) 1) as [E1|E1].
  - destruct v as [|v0 [|? ?]]; [done| |len_lia]. change (idx [v0] 0) with (Ok v0). cbn [rbind].
    destruct Hv as [Hvw _]. apply Forall_cons_1 in Hvw as [Hv0w _]. rewrite nval_cons in *. cbn [val] in *.
    rewrite Z.mul_0_r, Z.add_0_r in *. pose proof (divW_spec z u v0 Hu Hv0w) as Hd.
    rewrite (proj2 (Z.eqb_neq _ _) Hv0) in Hd. eapply returns_bind_mono; [exact Hd|]. intros [q r2] (Eq & -> & Hq).
    assert (word_ok (nval u mod v0)) by (pose proof (Z.mod_pos_bound (nval u) v0); unfold word_ok in *; lia).
    eapply returns_bind_mono; [by apply setWord_spec|]. intros r [Er Hr]. cbn [returns]; by rewrite Er.
  - rewrite cmp_spec by done. cbn [rbind]. pose proof (nval_bound u (proj1 Hu)). pose proof (nval_bound v (proj1 Hv)).
    unfold sign. destruct (Z.ltb_spec (nval u) (nval v)) as [Hlt|Hge].
    + cbn [Z.ltb Z.compare]. rewrite nset_eq. cbn [returns val]. rewrite Z.div_small, Z.mod_small by lia.
      split; [done|]. split; [done|]. split; [apply is_nat_nil|done].
    + assert (((if nval u >? nval v then 1 else 0) <? 0) = false) as -> by (destruct (nval u >? nval v); done).
      apply divLarge_spec; try done; [len_lia|]. destruct (Z.le_gt_cases (len v) (len u)); [done|].
      pose proof (shorter_less u v Hu Hv ltac:(lia)). lia.
Qed.
End Scratch.
End Recursive.
