(* ===== verification/BigSpec.v ===== *)
(** * Package math/big: the properties of natural numbers

    Addition, subtraction, multiplication, comparison, division, shifts and
    bits of numbers of every length, on 32-bit and 64-bit platforms, whatever
    the reused storage ([z]) and the scratch storage hold. *)
From Stdlib Require Import ZArith Lia.
From stdpp Require Import base numbers list.
From S2P Require Import Prelude Bits BigWords BigWordsCorrect BigNat BigNatCorrect BigMul BigMulCorrect BigDivide BigDiv BigDivRec.

Section Properties.
Context `{P : Platform} (scratch : Z -> list Z).
Abbreviation B := (2 ^ _W).
Abbreviation nval := (val _W).

(** Results are unique: two normalized results of one value are equal. *)
Lemma same_result (m1 m2 : res (list Z)) v :
  m1 ⇓ (fun r => nval r = v /\ is_nat r) -> m2 ⇓ (fun r => nval r = v /\ is_nat r) -> m1 = m2 /\ m1 ⇓ (fun r => nval r = v /\ is_nat r).
Proof.
  intros H1 H2. split; [|done]. apply returns_inv in H1 as (r1 & -> & E1 & N1), H2 as (r2 & -> & E2 & N2).
  f_equal. apply is_nat_unique; [done|done|congruence].
Qed.

Lemma schoolbook x y :
  words_ok x -> words_ok y ->
  (let! p := basicMul (zeros (len x + len y)) x y in norm p) ⇓ (fun r => nval r = nval x * nval y /\ is_nat r).
Proof.
  intros Hx Hy. eapply returns_bind_mono; [apply basicMul_spec; [done|done|apply len_zeros; len_lia]|].
  intros p (Ep & Hp & _). eapply returns_mono; [by apply norm_spec|]. intros r (-> & Hr & _). done.
Qed.

(** C3: nat.div divides: for normalized [u] and [v] of any length it panics
    when [v] is zero, and otherwise returns the normalized quotient and
    remainder, by the word loop, the long division or the recursive division
    as the length of the divisor asks, with the recursion always ending. *)
Theorem ndiv_correct z z2 u v :
  (forall n, 0 <= n -> len (scratch n) = n) -> is_nat u -> is_nat v ->
  if nval v =? 0 then ndiv scratch z z2 u v = Panic
  else ndiv scratch z z2 u v ⇓ (fun '(q, r) =>
    nval u = nval q * nval v + nval r /\ 0 <= nval r < nval v /\ is_nat q /\ is_nat r).
Proof.
  intros Hs Hu Hv. pose proof (ndiv_spec scratch Hs z z2 u v Hu Hv) as H. destruct (Z.eqb_spec (nval v) 0) as [|Hne]; [done|].
  pose proof (nval_bound v (proj1 Hv)). eapply returns_mono; [exact H|]. intros [q r] (-> & -> & Hq & Hr).
  split; [rewrite Z.mul_comm; apply Z.div_mod; done|]. split; [apply Z.mod_pos_bound; lia|done].
Qed.

(** C4: nat.mul, which switches to Karatsuba's multiplication at 40 words and
    multiplies a longer operand by sections, and nat.sqr, which has squarings
    of its own, return exactly what schoolbook multiplication of the same
    words returns: the normalized product. *)
Theorem nmul_schoolbook z x y :
  words_ok x -> words_ok y ->
  nmul scratch z x y = (let! p := basicMul (zeros (len x + len y)) x y in norm p) /\
  nsqr scratch z x = (let! p := basicMul (zeros (len x + len x)) x x in norm p) /\
  nmul scratch z x y ⇓ (fun p => nval p = nval x * nval y /\ is_nat p).
Proof.
  intros Hx Hy. destruct (same_result _ _ _ (nmul_spec scratch z x y Hx Hy) (schoolbook x y Hx Hy)) as [E1 H1].
  destruct (same_result _ _ _ (nsqr_spec scratch z x Hx) (schoolbook x x Hx Hx)) as [E2 _]. done.
Qed.

(** nat.add, nat.sub and nat.cmp are exact: the sum and the difference are
    normalized, sub panics exactly on underflow, cmp gives the sign of the
    difference, and add undoes sub. *)
Theorem nat_add_sub_cmp z x y :
  is_nat x -> is_nat y ->
  nadd z x y ⇓ (fun r => nval r = nval x + nval y /\ is_nat r) /\
  cmp x y = Ok (Z.sgn (nval x - nval y)) /\
  (if nval x <? nval y then nsub z x y = Panic
   else nsub z x y ⇓ (fun d => nval d = nval x - nval y /\ is_nat d) /\ (let! d := nsub z x y in nadd z d y) = Ok x).
Proof.
  intros Hx Hy. split; [by apply nadd_spec|]. split.
  - rewrite cmp_spec by done. f_equal. unfold sign. destruct (Z.ltb_spec (nval x) (nval y)), (Z.gtb_spec (nval x) (nval y)); lia.
  - pose proof (nsub_spec z x y Hx Hy) as H. destruct (nval x <? nval y); [done|]. split; [done|].
    apply returns_inv in H as (d & -> & Ed & Hd). cbn [rbind].
    destruct (returns_inv _ _ (nadd_spec z d y Hd Hy)) as (r & -> & Er & Hr). f_equal. apply is_nat_unique; [done|done|lia].
Qed.

(** Division undoes multiplication and addition: for a remainder below the
    divisor, dividing the words of [x * y + r] by [y] gives back the very
    words of [x] and [r]. *)
Theorem ndiv_nmul z x y r :
  (forall n, 0 <= n -> len (scratch n) = n) -> is_nat x -> is_nat y -> is_nat r -> nval r < nval y ->
  (let! p := nmul scratch z x y in
   let! s := nadd z p r in
   ndiv scratch z z s y) = Ok (x, r).
Proof.
  intros Hs Hx Hy Hr Hlt. destruct (returns_inv _ _ (nmul_spec scratch z x y (proj1 Hx) (proj1 Hy))) as (p & -> & Ep & Hp). cbn [rbind].
  destruct (returns_inv _ _ (nadd_spec z p r Hp Hr)) as (s & -> & Es & Hsn). cbn [rbind].
  pose proof (nval_bound r (proj1 Hr)). pose proof (ndiv_spec scratch Hs z z s y Hsn Hy) as H0.
  rewrite (proj2 (Z.eqb_neq _ 0)) in H0 by lia. apply returns_inv in H0 as ([q r'] & -> & Eq & Er & Hq & Hr').
  rewrite Es, Ep in Eq, Er. f_equal. f_equal; apply is_nat_unique; try done.
  - rewrite Eq. symmetry. apply (Z.div_unique _ _ _ (nval r)); lia.
  - rewrite Er. symmetry. apply (Z.mod_unique _ _ (nval x)); lia.
Qed.

(** lsh and rsh are the shifts of the value, bitLen and bit read its bits,
    for every shift amount and index. *)
Theorem nat_shifts_bits z x s :
  is_nat x -> 0 <= s ->
  lsh z x s ⇓ (fun r => nval r = Z.shiftl (nval x) s /\ is_nat r) /\
  rsh z x s ⇓ (fun r => nval r = Z.shiftr (nval x) s /\ is_nat r) /\
  bit x s = Ok (Z.b2z (Z.testbit (nval x) s)) /\
  bitLen x ⇓ (fun n => 0 <= n /\ nval x < 2 ^ n /\ (0 < n -> 2 ^ (n - 1) <= nval x)).
Proof.
  intros Hx Hs. rewrite Z.shiftl_mul_pow2, Z.shiftr_div_pow2 by done. pose proof (nval_bound x (proj1 Hx)).
  split; [by apply lsh_spec|]. split; [by apply rsh_spec|]. split; [by apply bit_spec; [apply Hx|]|].
  rewrite bitLen_spec by done. cbn [returns]. unfold bitlen. destruct (Z.eqb_spec (nval x) 0) as [->|Hne]; [done|].
  assert (Hl : 2 ^ Z.log2 (nval x) <= nval x < 2 ^ Z.succ (Z.log2 (nval x))) by (apply Z.log2_spec; lia).
  pose proof (Z.log2_nonneg (nval x)). rewrite Z.add_simpl_r. split; [lia|]. split; [|lia]. rewrite Z.add_1_r. apply Hl.
Qed.
End Properties.

(** addVW and subVW, which stop carrying at the first word that does not
    pass the carry on and copy the rest, agree with the plain loops addVW_ref
    and subVW_ref, in place and from another vector. *)
Theorem addVW_subVW_reference `{P : Platform} z x y :
  length (words x z) = length z -> words_ok (words x z) -> word_ok y ->
  addVW z x y = addVW_ref z x y /\ subVW z x y = subVW_ref z x y /\
  addVW z x y ⇓ (fun '(z', c) => val _W z' + weight (len z) * c = val _W (words x z) + y /\ words_ok z') /\
  subVW z x y ⇓ (fun '(z', c) => val _W z' - weight (len z) * c = val _W (words x z) - y /\ words_ok z').
Proof.
  intros Hl Hx Hy. split; [by apply addVW_fast|]. split; [by apply subVW_fast|]. split.
  - eapply returns_mono; [by apply addVW_spec|]. intros [z' c] (E & Hz & _). done.
  - eapply returns_mono; [by apply subVW_spec|]. intros [z' c] (E & Hz & _). done.
Qed.

(** divWW, given the reciprocal that reciprocalWord computes once for the
    divisor, returns the exact quotient and remainder of two words by one,
    on both word sizes, without a division. *)
Theorem divWW_reciprocal `{P : Platform} x1 x0 y :
  word_ok x1 -> word_ok x0 -> 0 < y < 2 ^ _W -> x1 < y ->
  (let! m := reciprocalWord y in divWW x1 x0 y m) = Ok ((x1 * 2 ^ _W + x0) / y, (x1 * 2 ^ _W + x0) mod y).
Proof.
  intros H1 H0 Hy Hlt. destruct (nlz_norm y Hy) as (s & Es & _).
  destruct (returns_inv _ _ (reciprocalWord_spec y s Hy Es)) as (m & -> & Hm). cbn [rbind]. by apply (divWW_spec x1 x0 y m s).
Qed.

(** ** Witnesses *)

Definition filled (n : Z) : list Z := replicate (Z.to_nat n) 7.
Lemma len_filled n : 0 <= n -> len (filled n) = n.
Proof. intros. unfold filled. rewrite len_replicate. lia. Qed.

(** The conditions on words, decided. *)
Definition wordsb `{P : Platform} (x : list Z) : bool := forallb (fun w => (0 <=? w) && (w <? 2 ^ _W)) x.
Definition natb `{P : Platform} (x : list Z) : bool :=
  wordsb x && match last x with Some d => negb (d =? 0) | None => true end.

Lemma wordsb_ok `{P : Platform} x : wordsb x = true -> words_ok x.
Proof.
  unfold wordsb. induction x as [|w x IH]; cbn [forallb]; intros H; [constructor|].
  apply andb_true_iff in H as [H1 H2]. apply andb_true_iff in H1 as [Ha%Z.leb_le Hb%Z.ltb_lt]. constructor; [done|by apply IH].
Qed.
Lemma natb_ok `{P : Platform} x : natb x = true -> is_nat x.
Proof.
  intros [Hw Hl]%andb_true_iff. split; [by apply wordsb_ok|]. intros l d ->. rewrite last_snoc in Hl.
  by destruct (Z.eqb_spec d 0).
Qed.

Definition big50 : list Z := replicate 50 (2 ^ 64 - 1).
Definition big120 : list Z := 5 :: replicate 118 0 ++ [9].

Lemma ndiv_correct_witness :
  let P := amd64 in
  ndiv filled [1; 2; 3] [] big120 big50 ⇓ (fun '(q, r) =>
    val _W big120 = val _W q * val _W big50 + val _W r /\ 0 <= val _W r < val _W big50 /\ is_nat q /\ is_nat r).
Proof.
  intros P. assert (Hd : natb big120 = true /\ natb big50 = true /\ (val _W big50 =? 0) = false) by (vm_compute; done).
  destruct Hd as (H1 & H2 & H3).
  pose proof (ndiv_correct filled [1; 2; 3] [] big120 big50 len_filled (natb_ok _ H1) (natb_ok _ H2)) as H.
  rewrite H3 in H. exact H.
Defined.

Lemma nmul_schoolbook_witness :
  let P := i386 in
  let x := replicate 85 (2 ^ 32 - 1) in
  nmul filled [] x big120 = (let! p := basicMul (zeros (len x + len big120)) x big120 in norm p).
Proof.
  intros P x. assert (Hd : wordsb x = true /\ wordsb big120 = true) by (vm_compute; done). destruct Hd as [H1 H2].
  destruct (nmul_schoolbook filled [] x big120 (wordsb_ok _ H1) (wordsb_ok _ H2)) as [E _]. exact E.
Defined.

Lemma nat_add_sub_cmp_witness :
  let P := amd64 in
  (let! d := nsub [] [0; 0; 1] [1] in nadd [] d [1]) = Ok [0; 0; 1] /\ cmp [0; 0; 1] [1] = Ok (Z.sgn (2 ^ 128 - 1)) /\
  nsub [] [1] [0; 0; 1] = Panic.
Proof.
  intros P. assert (Hd : natb [0; 0; 1] = true /\ natb [1] = true) by (vm_compute; done). destruct Hd as [H1 H2].
  destruct (nat_add_sub_cmp [] [0; 0; 1] [1] (natb_ok _ H1) (natb_ok _ H2)) as (_ & E1 & _ & E2).
  destruct (nat_add_sub_cmp [] [1] [0; 0; 1] (natb_ok _ H2) (natb_ok _ H1)) as (_ & _ & E3). split; [exact E2|]. split; [exact E1|exact E3].
Defined.

Lemma ndiv_nmul_witness :
  let P := amd64 in
  (let! p := nmul filled [] big120 big50 in
   let! s := nadd [] p [5; 6; 7] in
   ndiv filled [] [] s big50) = Ok (big120, [5; 6; 7]).
Proof.
  intros P. assert (Hd : natb big120 = true /\ natb big50 = true /\ natb [5; 6; 7] = true /\ val _W [5; 6; 7] < val _W big50) by (vm_compute; done).
  destruct Hd as (H1 & H2 & H3 & H4).
  exact (ndiv_nmul filled [] big120 big50 [5; 6; 7] len_filled (natb_ok _ H1) (natb_ok _ H2) (natb_ok _ H3) H4).
Defined.

Lemma nat_shifts_bits_witness :
  let P := i386 in
  rsh [] [5; 0; 0; 3] 65 ⇓ (fun r => val _W r = Z.shiftr (3 * 2 ^ 96 + 5) 65 /\ is_nat r) /\ bit [5; 0; 0; 3] 97 = Ok 1.
Proof.
  intros P. assert (Hx : natb [5; 0; 0; 3] = true) by (vm_compute; done).
  destruct (nat_shifts_bits [] [5; 0; 0; 3] 65 (natb_ok _ Hx) ltac:(lia)) as (_ & H1 & _).
  destruct (nat_shifts_bits [] [5; 0; 0; 3] 97 (natb_ok _ Hx) ltac:(lia)) as (_ & _ & H2 & _). split; [exact H1|exact H2].
Defined.

Lemma addVW_subVW_reference_witness :
  let P := amd64 in
  addVW [2 ^ 64 - 1; 2 ^ 64 - 1; 4; 9] Same 1 = addVW_ref [2 ^ 64 - 1; 2 ^ 64 - 1; 4; 9] Same 1.
Proof.
  intros P. assert (Hx : wordsb [2 ^ 64 - 1; 2 ^ 64 - 1; 4; 9] = true) by (vm_compute; done).
  assert (Hy : word_ok 1) by (split; [lia|vm_compute; done]).
  destruct (addVW_subVW_reference [2 ^ 64 - 1; 2 ^ 64 - 1; 4; 9] Same 1 eq_refl (wordsb_ok _ Hx) Hy) as [E _]. exact E.
Defined.

Lemma divWW_reciprocal_witness :
  let P := amd64 in
  (let! m := reciprocalWord 10 in divWW 9 7 10 m) = Ok ((9 * 2 ^ 64 + 7) / 10, (9 * 2 ^ 64 + 7) mod 10).
Proof.
  intros P. assert (H : forall n, 0 <= n < 100 -> word_ok n) by (intros n Hn; split; [lia|change (2 ^ _W) with 18446744073709551616; lia]).
  exact (divWW_reciprocal 9 7 10 (H 9 ltac:(lia)) (H 7 ltac:(lia)) ltac:(change (2 ^ _W) with 18446744073709551616; lia) ltac:(lia)).
Defined.

(** bitLen of a number that is not normalized is not the length of its value. *)
Example bitLen_unnormalized :
  let P := amd64 in bitLen [1; 0] = Ok 64 /\ val _W [1; 0] = 1.
Proof. vm_compute. split; reflexivity. Qed.
