(* ===== verification/BigBits.v ===== *)
(** * Package math/big: bits of natural numbers

    The bitwise functions of src/math/big/nat.go (and, andNot, or, xor, setBit,
    trunc, sticky) with their correctness: each is the operation of the same
    name on the value.  The loops of and, andNot, or and xor are one loop over
    the operation on words ([zipWords]). *)
From Stdlib Require Import ZArith Lia.
From stdpp Require Import base numbers list.
From S2P Require Import Prelude Bits BigWords BigWordsCorrect BigNat BigNatCorrect BigMul BigMulCorrect BigDivide BigDiv BigDivRec.

Section Model.
Context `{P : Platform}.

(** [for i := 0; i < n; i++ { z[i] = op(x[i], y[i]) }] *)
Definition zipWords (op : Z -> Z -> Z) (z x y : list Z) (n : Z) : res (list Z) :=
  let! '(z, _) := onRange z 0 n (fun w =>
    forWords (fun _ c i => let! a := idx x i in let! b := idx y i in Ok (op a b, c)) w 0) in
  Ok z.

Definition copyRange (z s : list Z) (n m : Z) : res (list Z) :=
  let! t := slice s n m in
  let! '(z, _) := onRange z n m (fun w => Ok (copyAll w (Vec t), tt)) in
  Ok z.

Definition nand (z x y : list Z) : res (list Z) :=
  let m := len x in
  let n := len y in
  let m := if m >? n then n else m in
  let z := nmake z m in
  let! z := zipWords Z.land z x y m in
  norm z.

Definition nandNot (z x y : list Z) : res (list Z) :=
  let m := len x in
  let n := len y in
  let n := if n >? m then m else n in
  let z := nmake z m in
  let! z := zipWords Z.ldiff z x y n in
  let! z := copyRange z x n m in
  norm z.

(** or and xor: the words of the longer operand above the shorter one are
    copied. *)
Definition longerOp (op : Z -> Z -> Z) (z x y : list Z) : res (list Z) :=
  let m := len x in
  let n := len y in
  let '(n, m, s) := if m <? n then (m, n, y) else (n, m, x) in
  let z := nmake z m in
  let! z := zipWords op z x y n in
  let! z := copyRange z s n m in
  norm z.

Definition nor (z x y : list Z) : res (list Z) := longerOp Z.lor z x y.
Definition nxor (z x y : list Z) : res (list Z) := longerOp Z.lxor z x y.

(** [copy(z, x)] into the first words of [z] *)
Definition copyFront (z x : list Z) : list Z :=
  let k := Nat.min (length z) (length x) in take k x ++ drop k z.

Definition setBit (z x : list Z) (i b : Z) : res (list Z) :=
  let j := i / _W in
  let m := word (Z.shiftl 1 (i mod _W)) in
  let n := len x in
  if b =? 0 then
    let z := copyFront (nmake z n) x in
    if j >=? n then Ok z else
    let! w := idx z j in
    let! z := upd z j (Z.ldiff w m) in
    norm z
  else if b =? 1 then
    let! z :=
      if j >=? n then
        let z := nmake z (j + 1) in
        let! '(z, _) := onRange z n (len z) (fun w => Ok (zeros (len w), tt)) in
        Ok z
      else Ok (nmake z n) in
    let z := copyFront z x in
    let! w := idx z j in
    upd z j (Z.lor w m)
  else Panic.

Definition trunc (z x : list Z) (n : Z) : res (list Z) :=
  let w := (n + _W - 1) / _W in
  if len x <? w then Ok (nset z x) else
  let z := copyFront (nmake z w) x in
  let! z :=
    if negb (n mod _W =? 0) then
      let! t := idx z (len z - 1) in
      upd z (len z - 1) (Z.land t (word (Z.shiftl 1 (n mod _W)) - 1))
    else Ok z in
  norm z.

Definition sticky (x : list Z) (i : Z) : res Z :=
  let j := i / _W in
  if j >=? len x then Ok (if len x =? 0 then 0 else 1) else
  let! lo := slice x 0 j in
  if existsb (fun w => negb (w =? 0)) lo then Ok 1 else
  let! w := idx x j in
  Ok (if negb (word (Z.shiftl w (_W - i mod _W)) =? 0) then 1 else 0).
End Model.

(** ** Bit operations word by word *)

Lemma testbit_add a x k i :
  0 <= k -> 0 <= a < 2 ^ k -> 0 <= i ->
  Z.testbit (a + 2 ^ k * x) i = if i <? k then Z.testbit a i else Z.testbit x (i - k).
Proof. intros Hk Ha Hi. rewrite Z.add_comm, Z.mul_comm. by apply testbit_split. Qed.

(** A bitwise operation: [f] on each pair of bits. *)
Class BitOp (op : Z -> Z -> Z) (f : bool -> bool -> bool) := {
  op_bits : forall a b i, 0 <= i -> Z.testbit (op a b) i = f (Z.testbit a i) (Z.testbit b i);
  op_zero : f false false = false;
}.

#[export] Instance land_op : BitOp Z.land andb.
Proof. split; [intros; apply Z.land_spec|done]. Qed.
#[export] Instance ldiff_op : BitOp Z.ldiff (fun a b => a && negb b).
Proof. split; [intros; by apply Z.ldiff_spec|done]. Qed.
#[export] Instance lor_op : BitOp Z.lor orb.
Proof. split; [intros; apply Z.lor_spec|done]. Qed.
#[export] Instance lxor_op : BitOp Z.lxor xorb.
Proof. split; [intros; apply Z.lxor_spec|done]. Qed.

Section BitOps.
Context (op : Z -> Z -> Z) (f : bool -> bool -> bool) `{O : !BitOp op f}.

Lemma op_bound a b k : 0 <= k -> 0 <= a < 2 ^ k -> 0 <= b < 2 ^ k -> 0 <= op a b < 2 ^ k.
Proof.
  intros Hk Ha Hb. assert (E : op a b = op a b mod 2 ^ k).
  { apply Z.bits_inj'. intros i Hi. rewrite op_bits by done. destruct (Z.ltb_spec i k) as [H|H].
    - rewrite Z.mod_pow2_bits_low by lia. by rewrite op_bits.
    - rewrite Z.mod_pow2_bits_high by lia. rewrite <- (Z.mod_small a (2 ^ k)), <- (Z.mod_small b (2 ^ k)) by done.
      rewrite !Z.mod_pow2_bits_high by lia. apply op_zero. }
  rewrite E. apply Z.mod_pos_bound. lia.
Qed.

Lemma op_split a b x y k : 0 <= k -> 0 <= a < 2 ^ k -> 0 <= b < 2 ^ k ->
  op (a + 2 ^ k * x) (b + 2 ^ k * y) = op a b + 2 ^ k * op x y.
Proof.
  intros Hk Ha Hb. apply Z.bits_inj'. intros i Hi.
  rewrite op_bits, !testbit_add by (done || by apply op_bound). destruct (Z.ltb_spec i k); rewrite op_bits by lia; done.
Qed.

Lemma op_00 : op 0 0 = 0.
Proof. apply Z.bits_inj'. intros i Hi. rewrite op_bits, Z.bits_0 by done. apply op_zero. Qed.
End BitOps.

Section Correct.
Context `{P : Platform}.
Abbreviation nval := (val _W).

Section Ops.
Context (op : Z -> Z -> Z) (f : bool -> bool -> bool) `{O : !BitOp op f}.

Lemma zip_value X Y : len X = len Y -> words_ok X -> words_ok Y ->
  nval (zip_with op X Y) = op (nval X) (nval Y) /\ words_ok (zip_with op X Y) /\ len (zip_with op X Y) = len X.
Proof.
  pose proof W_pos as HW. revert Y. induction X as [|a X IH]; intros [|b Y] Hl HX HY; try len_lia.
  { cbn. rewrite (op_00 op f). split; [done|]. split; [constructor|done]. }
  apply Forall_cons_1 in HX as [Ha HX]. apply Forall_cons_1 in HY as [Hb HY]. cbn [zip_with].
  destruct (IH Y ltac:(len_lia) HX HY) as (E & Hw & L). rewrite !nval_cons, E, (op_split op f) by (done || lia).
  split; [done|]. split; [constructor; [apply (op_bound op f); done || lia|done]|len_lia].
Qed.

Lemma zipWords_eq z x y n xa xt ya yt :
  x = xa ++ xt -> y = ya ++ yt -> len xa = n -> len ya = n -> n <= len z ->
  zipWords op z x y n = Ok (zip_with op xa ya ++ drop (Z.to_nat n) z).
Proof.
  intros -> -> Hx Hy Hz. destruct (slice_split z n ltac:(len_lia)) as (a & b & -> & Ha).
  unfold zipWords. rewrite onRange_front by done.
  rewrite (forWords_mapAcc _ (fun p c => (op p.1 p.2, c)) (zip xa ya)).
  - replace (mapAcc _ (zip xa ya) 0) with (zip_with op xa ya, 0).
    + cbn [rbind]. replace (Z.to_nat n) with (length a) by (unfold len in *; lia). by rewrite drop_app_length.
    + clear. revert ya. induction xa as [|u xa IH]; intros [|v ya]; try done. cbn [zip zip_with mapAcc]. cbn [zip] in IH. by rewrite <- IH.
  - rewrite length_zip; unfold len in *; lia.
  - intros pre c k [u v] Hk Hp. apply zip_lookup in Hp as [Hu Hv]. cbn [fst snd] in *.
    assert (k < length xa)%nat by (by eapply lookup_lt_Some). assert (k < length ya)%nat by (by eapply lookup_lt_Some).
    rewrite (idx_Ok _ _ u), (idx_Ok _ _ v); [done|len_lia| |len_lia|]; unfold len; rewrite Nat2Z.id, lookup_app_l by lia; by rewrite Hk.
Qed.

Lemma copyRange_eq a b sa sb n m :
  len a = n -> len sa = n -> len a + len b = m -> len sb = len b -> copyRange (a ++ b) (sa ++ sb) n m = Ok (a ++ sb).
Proof.
  intros Ha Hs Hm Hb. unfold copyRange. rewrite slice_back by lia. cbn [rbind]. rewrite onRange_back by lia.
  unfold copyAll, copyFrom. change (Z.to_nat 0) with 0%nat. by rewrite take_0, drop_0.
Qed.

(** The operation on the words both operands have, the other words of [s]. *)
Lemma zip_copy_spec z x y s n m xa xt ya yt sa st :
  x = xa ++ xt -> y = ya ++ yt -> s = sa ++ st -> len xa = n -> len ya = n -> len sa = n -> n + len st = m ->
  words_ok x -> words_ok y -> words_ok s -> nval st = op (nval xt) (nval yt) ->
  (let! z := zipWords op (nmake z m) x y n in let! z := copyRange z s n m in norm z)
  ⇓ (fun r => nval r = op (nval x) (nval y) /\ is_nat r).
Proof.
  intros -> -> -> Lx Ly Ls Lm Hx Hy Hs Hv. apply words_ok_app in Hx as [Hxa Hxt], Hy as [Hya Hyt], Hs as [Hsa Hst].
  destruct (zip_value xa ya ltac:(lia) Hxa Hya) as (E & Hw & L). pose proof (len_nmake z m ltac:(len_lia)) as Hz.
  rewrite (zipWords_eq _ _ _ n xa xt ya yt) by (done || len_lia). cbn [rbind].
  assert (len (drop (Z.to_nat n) (nmake z m)) = len st).
  { unfold len in *. rewrite length_drop. lia. }
  rewrite copyRange_eq by (done || lia). cbn [rbind]. eapply returns_mono; [by apply norm_spec, words_ok_app|].
  intros r (-> & Hr & _). split; [|done]. rewrite !nval_app, E, L, Hv, Lx, Ly. symmetry. apply (op_split op f).
  - pose proof W_pos. subst n. len_lia.
  - rewrite <- Lx. by apply nval_bound.
  - rewrite <- Ly. by apply nval_bound.
Qed.

Lemma longerOp_spec z x y :
  (forall a, op a 0 = a) -> (forall a, op 0 a = a) -> words_ok x -> words_ok y ->
  longerOp op z x y ⇓ (fun r => nval r = op (nval x) (nval y) /\ is_nat r).
Proof.
  intros H0r H0l Hx Hy. unfold longerOp. destruct (Z.ltb_spec (len x) (len y)).
  - destruct (slice_split y (len x) ltac:(len_lia)) as (ya & yt & Ey & La).
    apply (zip_copy_spec z x y y _ _ x [] ya yt ya yt); rewrite ?app_nil_r; try done. rewrite Ey. len_lia.
  - destruct (slice_split x (len y) ltac:(len_lia)) as (xa & xt & Ex & La).
    apply (zip_copy_spec z x y x _ _ xa xt y [] xa xt); rewrite ?app_nil_r; try done. rewrite Ex. len_lia.
Qed.
End Ops.

Lemma nor_spec z x y : words_ok x -> words_ok y -> nor z x y ⇓ (fun r => nval r = Z.lor (nval x) (nval y) /\ is_nat r).
Proof. apply (longerOp_spec Z.lor orb z x y Z.lor_0_r Z.lor_0_l). Qed.

Lemma nxor_spec z x y : words_ok x -> words_ok y -> nxor z x y ⇓ (fun r => nval r = Z.lxor (nval x) (nval y) /\ is_nat r).
Proof. apply (longerOp_spec Z.lxor xorb z x y Z.lxor_0_r Z.lxor_0_l). Qed.

Lemma nandNot_spec z x y : words_ok x -> words_ok y -> nandNot z x y ⇓ (fun r => nval r = Z.ldiff (nval x) (nval y) /\ is_nat r).
Proof.
  intros Hx Hy. unfold nandNot. destruct (Z.gtb_spec (len y) (len x)).
  - destruct (slice_split y (len x) ltac:(len_lia)) as (ya & yt & Ey & La).
    apply (zip_copy_spec Z.ldiff (fun a b => a && negb b) z x y x _ _ x [] ya yt x []); rewrite ?app_nil_r; try done; len_lia.
  - destruct (slice_split x (len y) ltac:(len_lia)) as (xa & xt & Ex & La).
    apply (zip_copy_spec Z.ldiff (fun a b => a && negb b) z x y x _ _ xa xt y [] xa xt); rewrite ?app_nil_r; try done.
    + rewrite Ex. len_lia.
    + by rewrite Z.ldiff_0_r.
Qed.

Lemma nand_spec z x y : words_ok x -> words_ok y -> nand z x y ⇓ (fun r => nval r = Z.land (nval x) (nval y) /\ is_nat r).
Proof.
  intros Hx Hy. unfold nand. set (m := if len x >? len y then len y else len x).
  assert (Hm : 0 <= m <= len x /\ m <= len y /\ (m = len x \/ m = len y)) by (unfold m; destruct (Z.gtb_spec (len x) (len y)); len_lia).
  clearbody m. destruct (slice_split x m ltac:(lia)) as (xa & xt & -> & Lx), (slice_split y m ltac:(lia)) as (ya & yt & -> & Ly).
  apply words_ok_app in Hx as [Hxa Hxt], Hy as [Hya Hyt]. pose proof (len_nmake z m ltac:(lia)) as Lz.
  destruct (zip_value Z.land andb xa ya ltac:(lia) Hxa Hya) as (E & Hw & L).
  rewrite (zipWords_eq _ _ _ _ m xa xt ya yt) by (done || lia). cbn [rbind].
  rewrite drop_ge by (unfold len in *; lia). rewrite app_nil_r. eapply returns_mono; [by apply norm_spec|].
  intros r (-> & Hr & _). split; [|done]. rewrite !nval_app, E, Lx, Ly. pose proof W_pos. unfold weight.
  rewrite (op_split Z.land andb);
    [|lia|rewrite <- Lx; by apply nval_bound|rewrite <- Ly; by apply nval_bound].
  assert (xt = [] \/ yt = []) as [-> | ->]; [|cbn [val]; rewrite Z.land_0_l; lia|cbn [val]; rewrite Z.land_0_r; lia].
  destruct Hm as (_ & _ & [Hm|Hm]); [left|right]; apply len_zero_inv; len_lia.
Qed.

(** ** Single bits *)

Lemma copyFront_all z x : len z = len x -> copyFront z x = x.
Proof.
  intros H. unfold copyFront, len in *. rewrite !Nat.min_r by lia. rewrite take_ge by lia.
  rewrite (drop_ge z) by lia. apply app_nil_r.
Qed.

Lemma copyFront_longer a b x : len a = len x -> copyFront (a ++ b) x = x ++ b.
Proof.
  intros H. unfold copyFront, len in *. rewrite !Nat.min_r by (rewrite length_app; lia). rewrite take_ge by lia.
  replace (length x) with (length a) by lia. by rewrite drop_app_length.
Qed.

Lemma mask_word i : 0 <= i -> word (Z.shiftl 1 (i mod _W)) = 2 ^ (i mod _W) /\ word_ok (2 ^ (i mod _W)).
Proof.
  intros Hi. pose proof (Z.mod_pos_bound i _W W_pos). rewrite Z.shiftl_1_l.
  assert (word_ok (2 ^ (i mod _W))) by (unfold word_ok; split; [lia|apply Z.pow_lt_mono_r; lia]).
  split; [by apply word_small|done].
Qed.

Section OneBit.
Context (op : Z -> Z -> Z) (f : bool -> bool -> bool) `{O : !BitOp op f} (op_0r : forall a, op a 0 = a).

(** The operation with the bit's mask on its word. *)
Lemma bit_word a w c i : 0 <= i -> len a = i / _W -> words_ok (a ++ w :: c) ->
  let x' := a ++ op w (2 ^ (i mod _W)) :: c in nval x' = op (nval (a ++ w :: c)) (2 ^ i) /\ words_ok x'.
Proof.
  intros Hi La Hx. destruct (mask_word i Hi) as [_ Hm]. apply words_ok_app in Hx as [Ha Hx]. apply Forall_cons_1 in Hx as [Hw Hc].
  pose proof W_pos as HW. cbn zeta. split.
  - rewrite !nval_app, !nval_cons, (pow_split i Hi), <- La. set (m := 2 ^ (i mod _W)) in *.
    replace (weight (len a) * m) with (0 + weight (len a) * (m + 2 ^ _W * 0)) by lia. unfold weight.
    assert (0 < 2 ^ (_W * len a)) by (apply weight_pos; len_lia).
    rewrite (op_split op f), (op_split op f), !op_0r; [done|lia|done|done| | |lia]; [|apply (nval_bound a Ha)].
    pose proof (len_nonneg a). lia.
  - apply words_ok_app. split; [done|]. constructor; [|done]. apply (op_bound op f); [lia|done|done].
Qed.
End OneBit.

Lemma normal_replace a w w' c : normal (a ++ w :: c) -> w' <> 0 -> normal (a ++ w' :: c).
Proof.
  intros Hn Hw. destruct c as [|d' c' _] using rev_ind; [by apply normal_snoc|].
  replace (a ++ w' :: c' ++ [d']) with ((a ++ w' :: c') ++ [d']) by (by rewrite <- app_assoc).
  apply normal_snoc. apply (Hn (a ++ w :: c')). by rewrite <- app_assoc.
Qed.

Lemma lor_bit_nonzero w k : 0 <= k -> Z.lor w (2 ^ k) <> 0.
Proof. intros Hk E. apply Z.lor_eq_0_iff in E as [_ E]. lia. Qed.

(** The value of a vector is below [2 ^ i] when the word of bit [i] is beyond it. *)
Lemma beyond_bound x i : words_ok x -> 0 <= i -> len x <= i / _W -> 0 <= nval x < 2 ^ i.
Proof.
  intros Hx Hi Hl. pose proof (nval_bound x Hx). assert (weight (len x) <= weight (i / _W)) by (apply weight_le; len_lia).
  rewrite (pow_split i Hi). destruct (mask_word i Hi) as [_ Hm]. pose proof (Z.mod_pos_bound i _W W_pos).
  assert (0 < 2 ^ (i mod _W)) by (apply Z.pow_pos_nonneg; lia). nia.
Qed.

Lemma ldiff_above a i : 0 <= i -> 0 <= a < 2 ^ i -> Z.ldiff a (2 ^ i) = a.
Proof.
  intros Hi Ha. apply Z.bits_inj'. intros k Hk. rewrite Z.ldiff_spec, Z.pow2_bits_eqb by done.
  destruct (Z.eqb_spec i k) as [->|]; [|by rewrite andb_true_r].
  rewrite <- (Z.mod_small a (2 ^ k)) by done. by rewrite Z.mod_pow2_bits_high by lia.
Qed.

Lemma setBit_spec z x i b :
  is_nat x -> 0 <= i ->
  if b =? 0 then setBit z x i b ⇓ (fun r => nval r = Z.clearbit (nval x) i /\ is_nat r)
  else if b =? 1 then setBit z x i b ⇓ (fun r => nval r = Z.setbit (nval x) i /\ is_nat r)
  else setBit z x i b = Panic.
Proof.
  intros [Hx Hn] Hi. unfold setBit. destruct (mask_word i Hi) as [-> Hm]. rewrite Z.clearbit_spec', Z.setbit_spec'.
  pose proof W_pos as HW. pose proof (Z.div_pos i _W Hi HW) as Hj. pose proof (Z.mod_pos_bound i _W HW) as Hr.
  pose proof (len_nonneg x). pose proof (copyFront_all (nmake z (len x)) x (len_nmake z (len x) ltac:(lia))) as Ec.
  destruct (Z.eqb_spec b 0) as [->|]; [|destruct (Z.eqb_spec b 1); [|done]]; rewrite Z.geb_leb; destruct (Z.leb_spec (len x) (i / _W)) as [Hge|Hlt]; cbn [rbind].
  - rewrite Ec. split; [|by split]. symmetry. apply ldiff_above; [done|by apply beyond_bound].
  - rewrite Ec. destruct (slice_split x (i / _W) (conj Hj (Z.lt_le_incl _ _ Hlt))) as (a & [|w c] & -> & La); [len_lia|].
    rewrite idx_app by done. cbn [rbind]. rewrite upd_app by done. cbn [rbind].
    destruct (bit_word Z.ldiff _ Z.ldiff_0_r a w c i Hi La Hx) as [E Hw]. eapply returns_mono; [by apply norm_spec|].
    intros r (-> & Hrn & _). done.
  - destruct (storage_split2 z (len x) (i / _W + 1 - len x)) as (p & q & Ez & Lp & Lq); [lia..|].
    replace (len x + (i / _W + 1 - len x)) with (i / _W + 1) in Ez by lia. rewrite Ez, onRange_back by len_lia.
    cbn [rbind]. rewrite copyFront_longer by done. rewrite Lq.
    replace (zeros (i / _W + 1 - len x)) with (zeros (i / _W - len x) ++ [0]).
    2: { unfold zeros. replace (Z.to_nat (i / _W + 1 - len x)) with (Z.to_nat (i / _W - len x) + 1)%nat by lia. by rewrite replicate_add. }
    rewrite app_assoc. assert (La : len (x ++ zeros (i / _W - len x)) = i / _W) by (rewrite len_app, len_zeros; lia).
    rewrite idx_app by done. cbn [rbind]. rewrite upd_app by done.
    assert (Hxz : words_ok ((x ++ zeros (i / _W - len x)) ++ [0])).
    { apply words_ok_app. split; [apply words_ok_app; split; [done|apply words_ok_zeros]|apply (words_ok_zeros 1)]. }
    destruct (bit_word Z.lor _ Z.lor_0_r _ 0 [] i Hi La Hxz) as [E Hw]. cbn [returns]. split; [|split; [done|]].
    + etransitivity; [exact E|]. f_equal. rewrite (nval_zeros_app _ 1). apply nval_zeros_app.
    + apply normal_snoc, lor_bit_nonzero. lia.
  - rewrite Ec. destruct (slice_split x (i / _W) (conj Hj (Z.lt_le_incl _ _ Hlt))) as (a & [|w c] & -> & La); [len_lia|].
    rewrite idx_app by done. cbn [rbind]. rewrite upd_app by done.
    destruct (bit_word Z.lor _ Z.lor_0_r a w c i Hi La Hx) as [E Hw]. split; [done|split; [done|]].
    apply (normal_replace a w); [done|apply lor_bit_nonzero; lia].
Qed.

(** ** Low bits *)

Lemma low_bits a t c r : words_ok a -> 0 <= r <= _W ->
  nval (a ++ t :: c) mod (weight (len a) * 2 ^ r) = nval a + weight (len a) * (t mod 2 ^ r).
Proof.
  intros Ha Hr. pose proof (nval_bound a Ha). rewrite nval_app, nval_cons, Z.rem_mul_r by lia.
  rewrite (Z.mul_comm (weight _)), Z.mod_add, Z.div_add, Z.mod_small, Z.div_small by lia.
  replace (0 + (t + 2 ^ _W * nval c)) with (t + nval c * 2 ^ (_W - r) * 2 ^ r).
  - rewrite Z.mod_add by lia. lia.
  - rewrite <- Z.mul_assoc, <- Z.pow_add_r by lia. replace (_W - r + r) with _W by lia. lia.
Qed.

(** A vector with enough words need not be normalized. *)
Lemma trunc_words z x n :
  words_ok x -> (len x < (n + _W - 1) / _W -> normal x) -> 0 <= n ->
  trunc z x n ⇓ (fun r => nval r = nval x mod 2 ^ n /\ is_nat r).
Proof.
  intros Hxw Hxn Hn. unfold trunc. set (w := (n + _W - 1) / _W) in *. pose proof W_pos as HW. pose proof (Z.mod_pos_bound n _W HW) as Hr.
  assert (Hw : if n mod _W =? 0 then n = _W * w else n = _W * (w - 1) + n mod _W).
  { unfold w. assert (D : n = _W * (n / _W) + n mod _W) by (apply Z.div_mod; lia). destruct (Z.eqb_spec (n mod _W) 0) as [E|E].
    - replace ((n + _W - 1) / _W) with (n / _W); [lia|]. apply (Z.div_unique_pos _ _ _ (_W - 1)); lia.
    - replace ((n + _W - 1) / _W) with (n / _W + 1); [lia|]. apply (Z.div_unique_pos _ _ _ (n mod _W - 1)); lia. }
  clearbody w. assert (0 <= w) by (destruct (n mod _W =? 0); nia). destruct (Z.ltb_spec (len x) w) as [Hlt|Hge].
  { rewrite nset_eq. split; [|by split; [|apply Hxn]]. symmetry. apply Z.mod_small. pose proof (nval_bound x Hxw).
    assert (weight (len x) <= 2 ^ n); [|lia]. apply Z.pow_le_mono_r; [lia|]. destruct (n mod _W =? 0); nia. }
  destruct (slice_split x w ltac:(lia)) as (a & c & -> & La).
  assert (Ec : copyFront (nmake z w) (a ++ c) = a).
  { pose proof (len_nmake z w ltac:(lia)). unfold copyFront, len in *. rewrite length_app. rewrite !Nat.min_l by lia.
    replace (length (nmake z w)) with (length a) by lia. rewrite take_app_length, drop_ge by lia. apply app_nil_r. }
  rewrite Ec. apply words_ok_app in Hxw as [Ha Hc]. pose proof (nval_bound a Ha) as Hb. rewrite La in Hb.
  destruct (Z.eqb_spec (n mod _W) 0) as [Er|Er]; cbn [negb rbind].
  - eapply returns_mono; [by apply norm_spec|]. intros r (-> & Hrn & _). split; [|done].
    rewrite nval_app, La. rewrite Hw. change (2 ^ (_W * w)) with (weight w). rewrite Z.mul_comm, Z.mod_add by lia. symmetry. by apply Z.mod_small.
  - destruct a as [|t a' _] using rev_ind; [unfold len in *; cbn in *; nia|]. apply words_ok_app in Ha as [Ha' Ht].
    assert (La' : len (a' ++ [t]) - 1 = len a') by len_lia. rewrite La', idx_app by done. cbn [rbind]. rewrite upd_last by done. cbn [rbind].
    destruct (mask_word n Hn) as [-> _]. rewrite (land_ones' t (n mod _W)) by lia.
    apply Forall_cons_1 in Ht as [Ht _]. assert (0 < 2 ^ (n mod _W)) by lia.
    assert (0 <= t mod 2 ^ (n mod _W) <= t) by (split; [apply Z.mod_pos_bound|apply Z.mod_le]; lia).
    eapply returns_mono; [apply norm_spec, words_ok_app; split; [done|constructor; [lia|constructor]]|].
    intros r (-> & Hrn & _). split; [|done]. rewrite <- app_assoc, nval_snoc. cbn [app].
    replace (2 ^ n) with (weight (len a') * 2 ^ (n mod _W)); [by rewrite low_bits by (done || lia)|].
    unfold weight. rewrite <- Z.pow_add_r by (try apply Z.mul_nonneg_nonneg; len_lia). f_equal. len_lia.
Qed.

Lemma trunc_spec z x n : is_nat x -> 0 <= n -> trunc z x n ⇓ (fun r => nval r = nval x mod 2 ^ n /\ is_nat r).
Proof. intros [Hw Hn]. by apply trunc_words. Qed.

Lemma existsb_nonzero l : words_ok l -> existsb (fun w => negb (w =? 0)) l = negb (nval l =? 0).
Proof.
  pose proof B_pos. induction l as [|w l IH]; intros Hl; [done|]. apply Forall_cons_1 in Hl as [Hw Hl]. cbn [existsb].
  rewrite IH, nval_cons by done. pose proof (nval_bound l Hl).
  destruct (Z.eqb_spec w 0), (Z.eqb_spec (nval l) 0), (Z.eqb_spec (w + 2 ^ _W * nval l) 0); cbn; done || nia.
Qed.

Lemma sticky_spec x i :
  is_nat x -> 0 <= i -> sticky x i = Ok (if nval x mod 2 ^ i =? 0 then 0 else 1).
Proof.
  intros Hx Hi. unfold sticky. pose proof W_pos as HW. pose proof (Z.mod_pos_bound i _W HW) as Hr.
  pose proof (Z.div_pos i _W Hi HW) as Hj. rewrite Z.geb_leb. destruct (Z.leb_spec (len x) (i / _W)) as [Hge|Hlt].
  { rewrite Z.mod_small by (by apply beyond_bound; [apply Hx|..]). pose proof (nonzero_nat x Hx) as N. rewrite Z.gtb_ltb in N.
    destruct (Z.ltb_spec 0 (len x)), (Z.eqb_spec (nval x) 0), (Z.eqb_spec (len x) 0); try done; len_lia. }
  destruct (slice_split x (i / _W) (conj Hj (Z.lt_le_incl _ _ Hlt))) as (a & [|w c] & -> & La); [len_lia|].
  destruct Hx as [Hx _]. apply words_ok_app in Hx as [Ha Hx]. apply Forall_cons_1 in Hx as [Hw Hc].
  rewrite slice_front by done. cbn [rbind]. rewrite existsb_nonzero, idx_app by done. cbn [rbind].
  rewrite word_shiftl by lia. replace (_W - (_W - i mod _W)) with (i mod _W) by lia.
  pose proof (nval_bound a Ha) as Hb.
  assert (E : nval (a ++ w :: c) mod 2 ^ i = nval a + weight (len a) * (w mod 2 ^ (i mod _W))).
  { rewrite (pow_split i Hi), <- La. apply low_bits; (done || lia). }
  rewrite E. assert (0 < 2 ^ (i mod _W) /\ 0 < 2 ^ (_W - i mod _W)) as [Hp1 Hp2] by lia. pose proof (Z.mod_pos_bound w _ Hp1).
  assert (0 < weight (len a)) by (apply weight_pos; len_lia).
  destruct (Z.eqb_spec (nval a) 0), (Z.eqb_spec (w mod 2 ^ (i mod _W) * 2 ^ (_W - i mod _W)) 0),
    (Z.eqb_spec (nval a + weight (len a) * (w mod 2 ^ (i mod _W))) 0); cbn [negb]; done || nia.
Qed.
End Correct.
