(* ===== verification/BigNatFuns.v ===== *)
(** * Package math/big: functions of natural numbers

    mulRange, trailingZeroBits, isPow2, bytes, setBytes, sqrt and subMod2N of
    src/math/big/nat.go, with their correctness.  The big-endian decoding of a
    word is internal/byteorder's, which the repository does not contain: it is
    the argument [beWord] of [setBytes].  mulRange halves its range, so 65
    nested calls suffice; sqrt halves the distance to the root. *)
From Stdlib Require Import ZArith Lia.
From stdpp Require Import base numbers list.
From S2P Require Import Prelude Bits BigWords BigWordsCorrect BigNat BigNatCorrect BigMul BigMulCorrect BigDivide BigDiv BigDivRec BigBits.

Section Model.
Context `{P : Platform}.

Definition _S : Z := _W / 8.
Definition natOne : list Z := [1].

Fixpoint mulRangeF (scratch : Z -> list Z) (fuel : nat) (z : list Z) (a b : Z) : res (list Z) :=
  match fuel with
  | O => NoFuel
  | S fuel =>
      if a =? 0 then setUint64 z 0 else
      if a >? b then setUint64 z 1 else
      if a =? b then setUint64 z a else
      if u64 (a + 1) =? b then
        let! x := setUint64 [] a in
        let! y := setUint64 [] b in
        nmul scratch z x y
      else
      let m := u64 (a + u64 (b - a) / 2) in
      let! x := mulRangeF scratch fuel [] a m in
      let! y := mulRangeF scratch fuel [] (u64 (m + 1)) b in
      nmul scratch z x y
  end.
Definition mulRange (scratch : Z -> list Z) (z : list Z) (a b : Z) : res (list Z) := mulRangeF scratch 65 z a b.

(** [for x[i] == 0 { i++ }] *)
Definition skipZeros (x : list Z) : res Z :=
  loop (S (length x)) (fun i => let! w := idx x i in Ok (if w =? 0 then inl (i + 1) else inr i)) 0.

Definition trailingZeroBits (x : list Z) : res Z :=
  if len x =? 0 then Ok 0 else
  let! i := skipZeros x in
  let! w := idx x i in
  let! t := TrailingZeros _W w in
  Ok (i * _W + t).

Definition isPow2 (x : list Z) : res (Z * bool) :=
  let! i := skipZeros x in
  let! w := idx x i in
  if (i =? len x - 1) && (Z.land w (word (w - 1)) =? 0) then
    let! t := TrailingZeros _W w in
    Ok (i * _W + t, true)
  else Ok (0, false).

Definition putByte (d : Z) (st : list Z * Z) : res (list Z * Z) :=
  let '(buf, i) := st in
  let i := i - 1 in
  if i >=? 0 then
    let! buf := upd buf i (u8 d) in
    Ok (buf, i)
  else if negb (u8 d =? 0) then Panic
  else Ok (buf, i).

Fixpoint putBytes (j : nat) (d : Z) (st : list Z * Z) : res (list Z * Z) :=
  match j with
  | O => Ok st
  | S j =>
      let! st := putByte d st in
      putBytes j (Z.shiftr d 8) st
  end.

Fixpoint putWords (z : list Z) (st : list Z * Z) : res (list Z * Z) :=
  match z with
  | [] => Ok st
  | d :: z =>
      let! st := putBytes (Z.to_nat _S) d st in
      putWords z st
  end.

Definition nbytes (z buf : list Z) : res (list Z * Z) :=
  let! '(buf, i) := putWords z (buf, len buf) in
  let i := if i <? 0 then 0 else i in
  let! i :=
    loop (S (length buf))
      (fun i =>
         let! c := if i <? len buf then (let! b := idx buf i in Ok (b =? 0)) else Ok false in
         Ok (if (c : bool) then inl (i + 1) else inr i)) i in
  Ok (buf, i).

Definition setBytes (beWord : list Z -> Z) (z buf : list Z) : res (list Z) :=
  let z := nmake z ((len buf + _S - 1) / _S) in
  let! '(z, i) :=
    loop (S (length buf))
      (fun '(z, i, k) =>
         if i >=? _S then
           let! b := slice buf (i - _S) i in
           let! z := upd z k (beWord b) in
           Ok (inl (z, i - _S, k + 1))
         else Ok (inr (z, i))) (z, len buf, 0) in
  let! z :=
    if i >? 0 then
      let! d :=
        loop (S (length buf))
          (fun '(d, i, s) =>
             if i >? 0 then
               let! b := idx buf (i - 1) in
               Ok (inl (Z.lor d (word (Z.shiftl b s)), i - 1, s + 8))
             else Ok (inr d)) (0, i, 0) in
      upd z (len z - 1) d
    else Ok z in
  norm z.

Definition nsqrt (scratch : Z -> list Z) (z x : list Z) : res (list Z) :=
  let! c := cmp x natOne in
  if c <=? 0 then Ok (nset z x) else
  let! z1 := setUint64 z 1 in
  let! n := bitLen x in
  let! z1 := lsh z1 z1 ((n + 1) / 2) in
  loop (Z.to_nat n + 2)
    (fun '(z1, z2, n) =>
       let! '(z2, _) := ndiv scratch z2 [] x z1 in
       let! z2 := nadd z2 z2 z1 in
       let! z2 := rsh z2 z2 1 in
       let! c := cmp z2 z1 in
       if c >=? 0 then Ok (inr (if Z.land n 1 =? 0 then z1 else nset z z1))
       else Ok (inl (z2, z1, n + 1))) (z1, [], 0).

(** [x = x.trunc(x, n)] or a truncated copy, when [x] has more than [n] bits. *)
Definition truncTo (x : list Z) (n : Z) : res (list Z) :=
  let! b := bitLen x in
  if b >? n then trunc [] x n else Ok x.

Definition subMod2N (z x y : list Z) (n : Z) : res (list Z) :=
  let! x := truncTo x n in
  let! y := truncTo y n in
  let! c := cmp x y in
  if c >=? 0 then nsub z x y else
  let! z := nsub z y x in
  let! z :=
    loop (Z.to_nat n + 1) (fun z => Ok (if len z * _W <? n then inl (z ++ [0]) else inr z)) z in
  let! '(z, _) := forWords (fun z c i => let! w := idx z i in Ok (word (Z.lnot w), c)) z 0 in
  let! z := trunc z z n in
  nadd z z natOne.
End Model.

(** [a * (a + 1) * ... * b], 1 when [a > b] *)
Fixpoint prodFrom (a : Z) (n : nat) : Z :=
  match n with
  | O => 1
  | S n => a * prodFrom (a + 1) n
  end.
Definition prodRange (a b : Z) : Z := prodFrom a (Z.to_nat (b - a + 1)).

Section Correct.
Context `{P : Platform}.
Abbreviation nval := (val _W).

Lemma setUint64_spec z x : 0 <= x < 2 ^ 64 -> setUint64 z x ⇓ (fun r => nval r = x /\ is_nat r).
Proof.
  intros Hx. unfold setUint64. pose proof B_pos. destruct (Z.eqb_spec (word x) x) as [E|E].
  { rewrite E. apply setWord_spec. rewrite <- E. apply Z.mod_pos_bound. lia. }
  assert (Hge : 2 ^ _W <= x).
  { destruct (Z.le_gt_cases (2 ^ _W) x); [done|]. destruct E. apply word_small. lia. }
  pose proof _W_ok as HW. assert (EW : _W = 32) by (destruct HW as [|EW]; [done|]; rewrite EW in Hge; lia). clear HW.
  pose proof (len_nmake z 2 ltac:(lia)) as Lz. destruct (nmake z 2) as [|e0 [|e1 [|e2 t]]]; try (exfalso; len_lia).
  cbn [rbind]. change (upd [e0; e1] 1 (word (Z.shiftr x 32))) with (upd ([e0] ++ [e1]) 1 (word (Z.shiftr x 32))).
  rewrite upd_app by done. cbn [rbind app]. change (upd (e0 :: ?l) 0 ?w) with (upd ([] ++ e0 :: l) 0 w). rewrite upd_app by done.
  cbn [app returns]. unfold word. rewrite shiftr_div by lia. rewrite EW in *.
  assert (x / 2 ^ 32 < 2 ^ 32 /\ 0 < x / 2 ^ 32) as [H1 H2] by zdm. rewrite (Z.mod_small (x / 2 ^ 32)) by lia.
  split; [|split].
  - cbn [val]. zdm.
  - unfold words_ok, digits_ok. rewrite EW. constructor; [apply Z.mod_pos_bound; lia|]. constructor; [lia|constructor].
  - apply (normal_snoc [x mod 2 ^ 32]). lia.
Qed.

Lemma is_nat_one : is_nat natOne /\ nval natOne = 1.
Proof.
  pose proof B_pos. unfold natOne. split; [|cbn [val]; lia]. split; [constructor; [lia|constructor]|].
  by apply (normal_snoc []).
Qed.

(** ** sqrt *)

Lemma sign_geb a b : (sign a b >=? 0) = (b <=? a).
Proof. unfold sign. rewrite Z.gtb_ltb. destruct (Z.ltb_spec a b), (Z.leb_spec b a), (Z.ltb_spec b a); done || lia. Qed.
Lemma sign_leb a b : (sign a b <=? 0) = (a <=? b).
Proof. unfold sign. rewrite Z.gtb_ltb. destruct (Z.ltb_spec a b), (Z.leb_spec a b), (Z.ltb_spec b a); done || lia. Qed.

(** One step of Newton's iteration from above the root: at least the root, and
    half as far from it. *)
Lemma newton_step x z : 0 < x -> Z.sqrt x <= z ->
  Z.sqrt x <= (x / z + z) / 2 /\ (Z.sqrt x < z -> (x / z + z) / 2 - Z.sqrt x <= (z - Z.sqrt x) / 2).
Proof.
  intros Hx Hz. pose proof (Z.sqrt_spec x ltac:(lia)) as Hs. cbv zeta in Hs. rewrite <- Z.add_1_r in Hs.
  set (s := Z.sqrt x) in *. assert (0 < s) by (apply Z.sqrt_pos; done).
  pose proof (Z.div_mod x z ltac:(lia)) as D. pose proof (Z.mod_pos_bound x z ltac:(lia)) as M. set (q := x / z) in *. split.
  - apply Z.div_le_lower_bound; [lia|]. destruct (Z.le_gt_cases (2 * s) (q + z)); [done|]. exfalso.
    assert (q + 1 + z <= 2 * s) by lia. assert (x < z * (q + 1)) by lia.
    assert (4 * (z * (q + 1)) <= (q + 1 + z) * (q + 1 + z)) by nia. assert (0 <= q) by (apply Z.div_pos; lia). nia.
  - intros Hlt. assert (q <= s) by (apply Z.lt_succ_r; apply Z.div_lt_upper_bound; nia).
    assert ((q + z) / 2 <= (s + z) / 2) by (apply Z.div_le_mono; lia).
    replace ((z - s) / 2) with ((s + z) / 2 - s); [lia|]. replace (s + z) with (z - s + s * 2) by lia. rewrite Z.div_add; lia.
Qed.

Lemma bitlen_half e : 0 < e -> 0 <= bitlen (e / 2) < bitlen e.
Proof.
  intros He. pose proof (bitlen_bounds e He) as Hb.
  assert (0 < bitlen e) by (unfold bitlen; destruct (Z.eqb_spec e 0); [lia|]; pose proof (Z.log2_nonneg e); lia).
  assert (0 <= bitlen (e / 2) <= bitlen e - 1); [|lia]. apply bitlen_le; [lia|]. split; [apply Z.div_pos; lia|].
  apply Z.div_lt_upper_bound; [lia|]. rewrite <- Z.pow_succ_r by lia. replace (Z.succ (bitlen e - 1)) with (bitlen e) by lia. apply Hb.
Qed.

(** The start of the iteration is above the root. *)
Lemma sqrt_start x : 0 < x -> Z.sqrt x < 2 ^ ((bitlen x + 1) / 2).
Proof.
  intros Hx. pose proof (bitlen_bounds x Hx) as Hb. assert (0 < bitlen x) by (unfold bitlen; destruct (Z.eqb_spec x 0); [lia|]; pose proof (Z.log2_nonneg x); lia).
  apply Z.sqrt_lt_square; [lia|apply Z.pow_nonneg; lia|]. rewrite <- Z.pow_add_r by (apply Z.div_pos; lia).
  assert (2 ^ bitlen x <= 2 ^ ((bitlen x + 1) / 2 + (bitlen x + 1) / 2)); [|lia]. apply Z.pow_le_mono_r; [lia|]. zdm.
Qed.

Section Sqrt.
Context (scratch : Z -> list Z) (Hscratch : forall n, 0 <= n -> len (scratch n) = n).

Lemma newton_iteration z2 x z1 :
  is_nat x -> is_nat z1 -> nval z1 <> 0 ->
  (let! '(z2, _) := ndiv scratch z2 [] x z1 in let! z2 := nadd z2 z2 z1 in rsh z2 z2 1)
  ⇓ (fun r => nval r = (nval x / nval z1 + nval z1) / 2 /\ is_nat r).
Proof.
  intros Hx H1 H0. pose proof (ndiv_spec scratch Hscratch z2 [] x z1 Hx H1) as D. rewrite (proj2 (Z.eqb_neq _ _) H0) in D.
  eapply returns_bind_mono; [exact D|]. intros [q r] (Eq & _ & Hq & _). cbn beta iota.
  eapply returns_bind_mono; [by apply nadd_spec|]. intros t [Et Ht].
  eapply returns_mono; [by apply rsh_spec|]. intros u [-> Hu]. by rewrite Et, Eq.
Qed.

Lemma nsqrt_spec z x : is_nat x -> nsqrt scratch z x ⇓ (fun r => nval r = Z.sqrt (nval x) /\ is_nat r).
Proof.
  intros Hx. destruct is_nat_one as [H1 E1]. pose proof (nval_bound x (proj1 Hx)). unfold nsqrt.
  rewrite cmp_spec, E1 by done. cbn [rbind]. rewrite sign_leb. destruct (Z.leb_spec (nval x) 1) as [Hle|Hgt].
  { rewrite nset_eq. split; [|done]. assert (nval x = 0 \/ nval x = 1) as [-> | ->] by lia; done. }
  eapply returns_bind_mono; [apply setUint64_spec; lia|]. intros o [Eo Ho]. rewrite bitLen_spec by done. cbn [rbind].
  assert (0 <= bitlen (nval x)) by (unfold bitlen; destruct (Z.eqb_spec (nval x) 0); [lia|]; pose proof (Z.log2_nonneg (nval x)); lia).
  assert (0 <= (bitlen (nval x) + 1) / 2 <= bitlen (nval x) + 1) by zdm.
  eapply returns_bind_mono; [apply lsh_spec; [done|lia]|]. rewrite Eo, Z.mul_1_l. intros z1 [Ez Hz1].
  assert (Hx0 : 0 < nval x) by lia. pose proof (sqrt_start (nval x) Hx0) as Hstart. rewrite <- Ez in Hstart.
  assert (Hpos : 0 < Z.sqrt (nval x)) by (apply Z.sqrt_pos; lia).
  apply (loop_returns (fun '(z1, _, _) => is_nat z1 /\ Z.sqrt (nval x) <= nval z1)
           (fun '(z1, _, _) => bitlen (nval z1 - Z.sqrt (nval x)))).
  - clear z1 Ez Hz1 Hstart. intros [[z1 z2] n] [Hz1 Hge]. pose proof (newton_step (nval x) (nval z1) Hx0 Hge) as [N1 N2].
    assert (Hz0 : nval z1 <> 0) by lia. pose proof (newton_iteration z2 x z1 Hx Hz1 Hz0) as I. apply returns_inv in I as (t & I & Et & Ht).
    destruct (ndiv scratch z2 [] x z1) as [[q r]| |]; [|done..]. cbn [rbind] in I |- *.
    destruct (nadd q q z1) as [u| |]; [|done..]. cbn [rbind] in I |- *. rewrite I. cbn [rbind].
    rewrite cmp_spec by done. cbn [rbind]. rewrite sign_geb, Et. set (t' := (nval x / nval z1 + nval z1) / 2) in *.
    destruct (Z.eq_dec (nval z1) (Z.sqrt (nval x))) as [E|Hne].
    + rewrite (proj2 (Z.leb_le _ _)) by lia. rewrite nset_eq. cbn [returns]. by destruct (Z.land n 1 =? 0).
    + assert (Hlt : Z.sqrt (nval x) < nval z1) by lia. specialize (N2 Hlt). assert (t' < nval z1) by zdm. rewrite (proj2 (Z.leb_gt _ _)) by lia. cbn [returns].
      rewrite Et. split; [by split|]. pose proof (bitlen_half (nval z1 - Z.sqrt (nval x)) (proj2 (Z.lt_0_sub _ _) Hlt)) as Hb.
      assert (0 <= bitlen (t' - Z.sqrt (nval x)) <= bitlen ((nval z1 - Z.sqrt (nval x)) / 2)); [|lia].
      apply bitlen_le; [lia|]. set (e := (nval z1 - Z.sqrt (nval x)) / 2) in *. split; [lia|].
      destruct (Z.eq_dec e 0) as [->|]; [lia|]. assert (He : 0 < e) by lia. pose proof (bitlen_bounds e He). lia.
  - split; [done|lia].
  - assert (bitlen (nval z1 - Z.sqrt (nval x)) <= bitlen (nval x) + 1); [|lia].
    assert (0 <= bitlen (nval z1 - Z.sqrt (nval x)) <= (bitlen (nval x) + 1) / 2); [|lia]. apply bitlen_le; lia.
  - apply (bitlen_le _ ((bitlen (nval x) + 1) / 2)); lia.
Qed.
End Sqrt.

(** ** mulRange *)

Lemma prodFrom_add a n m : prodFrom a (n + m) = prodFrom a n * prodFrom (a + Z.of_nat n) m.
Proof.
  revert a. induction n as [|n IH]; intros a; cbn [Nat.add prodFrom].
  - rewrite Z.add_0_r. lia.
  - rewrite IH. replace (a + Z.of_nat (S n)) with (a + 1 + Z.of_nat n) by lia. lia.
Qed.

(** The product of a range from those of its two halves. *)
Lemma prodRange_split a m b : a <= m < b -> prodRange a b = prodRange a m * prodRange (m + 1) b.
Proof.
  intros H. unfold prodRange. replace (Z.to_nat (b - a + 1)) with (Z.to_nat (m - a + 1) + Z.to_nat (b - (m + 1) + 1))%nat by lia.
  rewrite prodFrom_add. by replace (a + Z.of_nat (Z.to_nat (m - a + 1))) with (m + 1) by lia.
Qed.

Lemma prodRange_one a : prodRange a a = a.
Proof. unfold prodRange. replace (Z.to_nat (a - a + 1)) with 1%nat by lia. cbn [prodFrom]. lia. Qed.

Lemma prodRange_zero b : 0 <= b -> prodRange 0 b = 0.
Proof. intros. unfold prodRange. by replace (Z.to_nat (b - 0 + 1)) with (S (Z.to_nat b)) by lia. Qed.

Lemma mulRangeF_spec scratch fuel : forall z a b,
  0 <= a < 2 ^ 64 -> 0 <= b < 2 ^ 64 -> b - a < 2 ^ Z.of_nat fuel ->
  mulRangeF scratch (S fuel) z a b ⇓ (fun r => nval r = prodRange a b /\ is_nat r).
Proof.
  induction fuel as [|fuel IH]; intros z a b Ha Hb Hf.
  2: set (f1 := S fuel) in IH |- *.
  all: cbn [mulRangeF]; destruct (Z.eqb_spec a 0) as [->|Ha0];
    [rewrite prodRange_zero by lia; apply setUint64_spec; lia|].
  all: destruct (Z.gtb_spec a b) as [Hgt|Hle];
    [unfold prodRange; replace (Z.to_nat (b - a + 1)) with 0%nat by lia; cbn [prodFrom]; apply setUint64_spec; lia|].
  all: destruct (Z.eqb_spec a b) as [->|Hne]; [rewrite prodRange_one; apply setUint64_spec; lia|].
  { change (2 ^ Z.of_nat 0) with 1 in Hf. lia. }
  rewrite u64_id by lia. destruct (Z.eqb_spec (a + 1) b) as [E|Hne1].
  - eapply returns_bind_mono; [apply setUint64_spec; lia|]. intros x [Ex Hx].
    eapply returns_bind_mono; [apply setUint64_spec; lia|]. intros y [Ey Hy].
    eapply returns_mono; [apply nmul_spec; [apply Hx|apply Hy]|]. intros r [-> Hr]. split; [|done].
    rewrite Ex, Ey, (prodRange_split a a b) by lia. rewrite E, !prodRange_one. done.
  - rewrite (u64_id (b - a)) by lia. set (m := a + (b - a) / 2). assert (a <= m < b) by (unfold m; zdm).
    rewrite (u64_id m), (u64_id (m + 1)) by lia. rewrite Nat2Z.inj_succ, Z.pow_succ_r in Hf by lia.
    eapply returns_bind_mono; [apply IH; unfold m; zdm|]. intros x [Ex Hx].
    eapply returns_bind_mono; [apply IH; unfold m; zdm|]. intros y [Ey Hy].
    eapply returns_mono; [apply nmul_spec; [apply Hx|apply Hy]|]. intros r [-> Hr]. split; [|done].
    by rewrite Ex, Ey, (prodRange_split a m b).
Qed.

Lemma mulRange_spec scratch z a b : 0 <= a < 2 ^ 64 -> 0 <= b < 2 ^ 64 ->
  mulRange scratch z a b ⇓ (fun r => nval r = prodRange a b /\ is_nat r).
Proof. intros Ha Hb. apply (mulRangeF_spec scratch 64); lia. Qed.

(** ** Trailing zeros *)

Lemma TrailingZeros_word w : 0 < w < 2 ^ _W -> TrailingZeros _W w ⇓ is_ntz w.
Proof.
  intros Hw. unfold TrailingZeros. destruct _W_ok as [E|E]; rewrite E in *; cbn [Z.eqb Pos.eqb].
  - rewrite u32_id by lia. by apply TrailingZeros32_ntz.
  - rewrite u64_id by lia. by apply TrailingZeros64_ntz.
Qed.

Lemma leading_zeros x : nval x <> 0 -> exists i w c, x = replicate i 0 ++ w :: c /\ w <> 0.
Proof.
  induction x as [|d x IH]; intros H; [done|]. destruct (Z.eq_dec d 0) as [->|Hd]; [|by exists 0%nat, d, x].
  destruct IH as (i & w & c & -> & Hw). { intros E. apply H. rewrite nval_cons, E. lia. }
  by exists (S i), w, c.
Qed.

Lemma skipZeros_eq i w c : w <> 0 -> skipZeros (replicate i 0 ++ w :: c) = Ok (Z.of_nat i).
Proof.
  intros Hw. unfold skipZeros. set (x := replicate i 0 ++ w :: c).
  assert (G : forall fuel k, (k <= i)%nat -> (i - k < fuel)%nat ->
    loop fuel (fun i => let! w := idx x i in Ok (if w =? 0 then inl (i + 1) else inr i)) (Z.of_nat k) = Ok (Z.of_nat i)).
  { induction fuel as [|fuel IH]; intros k Hk Hf; [lia|]. cbn [loop]. destruct (decide (k = i)) as [->|Hne].
    - unfold x. rewrite idx_app by (rewrite len_replicate; lia). cbn [rbind]. by rewrite (proj2 (Z.eqb_neq _ _) Hw).
    - rewrite (idx_Ok x _ 0); [|lia|]. 2: { unfold x. rewrite Nat2Z.id, lookup_app_l by (rewrite length_replicate; lia). apply lookup_replicate_2. lia. }
      cbn [rbind]. rewrite Z.eqb_refl. replace (Z.of_nat k + 1) with (Z.of_nat (S k)) by lia. apply IH; lia. }
  apply (G _ 0%nat); [lia|]. unfold x. rewrite length_app, length_replicate. cbn [length]. lia.
Qed.

(** The lowest one bit of a vector is that of its first nonzero word. *)
Lemma ntz_words i w c t : words_ok (replicate i 0 ++ w :: c) -> is_ntz w t -> t < _W ->
  is_ntz (nval (replicate i 0 ++ w :: c)) (Z.of_nat i * _W + t).
Proof.
  intros Hx (Ht & Ht1 & Htl) HtW. apply words_ok_app in Hx as [_ Hx]. apply Forall_cons_1 in Hx as [Hw Hc].
  pose proof W_pos as HW. assert (0 < 2 ^ (_W * Z.of_nat i)) by (apply Z.pow_pos_nonneg; lia).
  rewrite nval_app, nval_cons, nval_zeros, len_replicate. unfold weight. split; [lia|]. split.
  - rewrite testbit_add by lia. rewrite (proj2 (Z.ltb_ge _ _)) by lia. rewrite testbit_add by (done || lia).
    rewrite (proj2 (Z.ltb_lt _ _)) by lia. rewrite <- Ht1. f_equal. lia.
  - intros j Hj. rewrite testbit_add by lia. destruct (Z.ltb_spec j (_W * Z.of_nat i)); [apply Z.bits_0|].
    rewrite testbit_add by (done || lia). rewrite (proj2 (Z.ltb_lt _ _)) by lia. apply Htl. lia.
Qed.

Lemma ntz_lt w t : 0 <= w < 2 ^ _W -> is_ntz w t -> t < _W.
Proof.
  intros Hw (Ht & H1 & _). destruct (Z.lt_ge_cases t _W); [done|]. exfalso.
  rewrite <- (Z.mod_small w (2 ^ _W)), Z.mod_pow2_bits_high in H1 by (done || pose proof W_pos; lia). done.
Qed.

Lemma trailingZeroBits_spec x : is_nat x ->
  if nval x =? 0 then trailingZeroBits x = Ok 0 else trailingZeroBits x ⇓ is_ntz (nval x).
Proof.
  intros Hx. unfold trailingZeroBits. destruct (Z.eqb_spec (nval x) 0) as [E|Hne].
  { by rewrite (is_nat_zero x Hx E). }
  destruct (leading_zeros x Hne) as (i & w & c & -> & Hw). destruct Hx as [Hx _].
  rewrite (proj2 (Z.eqb_neq (len _) 0)) by (rewrite len_app, len_cons; len_lia). rewrite skipZeros_eq by done. cbn [rbind].
  rewrite idx_app by (rewrite len_replicate; lia). cbn [rbind]. pose proof Hx as Hx'.
  apply words_ok_app in Hx' as [_ Hx']. apply Forall_cons_1 in Hx' as [Hwb _].
  eapply returns_bind_mono; [apply TrailingZeros_word; lia|]. intros t Ht. cbn [returns].
  apply ntz_words; [done|done|by apply (ntz_lt w)].
Qed.

(** ** Powers of two *)

(** A number and its predecessor share no bit exactly when it has one bit. *)
Lemma land_pred w t : 0 < w -> is_ntz w t -> (Z.land w (w - 1) = 0 <-> w = 2 ^ t).
Proof.
  intros Hw (Ht & H1 & Hl). set (q := w / 2 ^ (t + 1)).
  assert (E : w = 2 ^ t + 2 ^ (t + 1) * q).
  { pose proof (Z.div_mod w (2 ^ (t + 1)) ltac:(lia)) as D. fold q in D.
    replace (w mod 2 ^ (t + 1)) with (2 ^ t) in D; [lia|]. apply Z.bits_inj'. intros j Hj.
    rewrite Z.pow2_bits_eqb by lia. destruct (Z.lt_ge_cases j (t + 1)).
    - rewrite Z.mod_pow2_bits_low by lia. destruct (Z.eqb_spec t j) as [<-|]; [done|]. symmetry. apply Hl. lia.
    - rewrite Z.mod_pow2_bits_high by lia. apply Z.eqb_neq. lia. }
  assert (0 < 2 ^ t) by lia. assert (2 ^ (t + 1) = 2 * 2 ^ t) by (rewrite Z.pow_add_r by lia; lia).
  rewrite E. replace (2 ^ t + 2 ^ (t + 1) * q - 1) with ((2 ^ t - 1) + 2 ^ (t + 1) * q) by lia.
  rewrite (op_split Z.land andb) by lia. rewrite Z.land_diag.
  replace (Z.land (2 ^ t) (2 ^ t - 1)) with 0. { nia. }
  rewrite (land_ones' _ t) by lia. symmetry. apply Z.mod_same. lia.
Qed.

Lemma isPow2_spec x : is_nat x -> nval x <> 0 ->
  isPow2 x ⇓ (fun '(i, b) => if (b : bool) then 0 <= i /\ nval x = 2 ^ i else i = 0 /\ forall k, 0 <= k -> nval x <> 2 ^ k).
Proof.
  intros Hx Hne. unfold isPow2. destruct (leading_zeros x Hne) as (i & w & c & -> & Hw). destruct Hx as [Hx Hn].
  rewrite skipZeros_eq by done. cbn [rbind]. rewrite idx_app by (rewrite len_replicate; lia). cbn [rbind].
  pose proof Hx as Hx'. apply words_ok_app in Hx' as [_ Hx']. apply Forall_cons_1 in Hx' as [Hwb Hc].
  destruct (returns_inv _ _ (TrailingZeros_word w ltac:(lia))) as (t & Et & Ht). pose proof (ntz_lt w t Hwb Ht) as HtW.
  pose proof (ntz_words i w c t Hx Ht HtW) as (HT & HT1 & _). rewrite word_small by lia. pose proof W_pos as HW.
  assert (Hval : nval (replicate i 0 ++ w :: c) = 2 ^ (_W * Z.of_nat i) * (w + 2 ^ _W * nval c)).
  { rewrite nval_app, nval_cons, nval_zeros, len_replicate. unfold weight. lia. }
  destruct (Z.eqb_spec (Z.of_nat i) (len (replicate i 0 ++ w :: c) - 1)) as [E|E]; cbn [andb].
  - rewrite len_app, len_cons, len_replicate in E. assert (c = []) as -> by (apply len_zero_inv; len_lia).
    rewrite Hval. cbn [val]. destruct (Z.eqb_spec (Z.land w (w - 1)) 0) as [E0|E0].
    + rewrite Et. cbn [rbind returns]. apply (land_pred w t) in E0 as ->; [|lia|done]. split; [lia|].
      rewrite Z.mul_0_r, Z.add_0_r, <- Z.pow_add_r by (destruct Ht; lia). f_equal. lia.
    + cbn [returns]. split; [done|]. intros k Hk E'. apply E0, (land_pred w t); [lia|done|].
      assert (Ek : k = Z.of_nat i * _W + t).
      { rewrite Hval in HT1. cbn [val] in HT1. rewrite E', Z.pow2_bits_eqb in HT1 by done. by apply Z.eqb_eq. }
      destruct Ht as [Ht0 _]. rewrite Ek, Z.pow_add_r in E' by lia. apply (Z.mul_reg_l _ _ (2 ^ (_W * Z.of_nat i))); [lia|].
      rewrite (Z.mul_comm (Z.of_nat i)) in E'. lia.
  - cbn [returns]. split; [done|]. intros k Hk E'.
    rewrite E', Z.pow2_bits_eqb in HT1 by done. apply Z.eqb_eq in HT1. destruct Ht as [Ht0 _].
    assert (nval c = 0).
    { assert (nval (replicate i 0 ++ w :: c) < 2 ^ (_W * Z.of_nat i) * 2 ^ _W).
      { rewrite E', HT1, (Z.mul_comm (Z.of_nat i)), <- Z.pow_add_r by lia. apply Z.pow_lt_mono_r; lia. }
      pose proof (nval_bound c Hc). rewrite Hval in H. apply Z.mul_lt_mono_pos_l in H; nia. }
    destruct c as [|d c' _] using rev_ind; [apply E; rewrite len_app, len_cons, len_replicate; len_lia|].
    assert (is_nat (c' ++ [d])).
    { split; [done|]. apply normal_snoc. apply (Hn (replicate i 0 ++ w :: c')). by rewrite <- app_assoc. }
    apply is_nat_zero in H; [|done]. by destruct c'.
Qed.

(** ** Bytes *)

(** The number of the big-endian bytes [l]. *)
Definition beval (l : list Z) : Z := val 8 (rev l).

Lemma val8_app l k : val 8 (l ++ k) = val 8 l + 2 ^ (8 * len l) * val 8 k.
Proof.
  induction l as [|d l IH]; cbn [app val].
  - change (len (@nil Z)) with 0. change (2 ^ (8 * 0)) with 1. lia.
  - rewrite IH, len_cons. replace (8 * (1 + len l)) with (8 + 8 * len l) by lia. rewrite Z.pow_add_r by len_lia. lia.
Qed.

Lemma val8_zeros k : val 8 (replicate k 0) = 0.
Proof. induction k as [|k IH]; cbn [replicate val]; [done|]. rewrite IH. lia. Qed.

Lemma beval_zeros k : beval (replicate k 0) = 0.
Proof. unfold beval. rewrite rev_alt. change (val 8 (reverse (replicate k 0)) = 0). by rewrite reverse_replicate, val8_zeros. Qed.

Fixpoint leBytes (j : nat) (d : Z) : list Z :=
  match j with
  | O => []
  | S j => u8 d :: leBytes j (Z.shiftr d 8)
  end.

Lemma leBytes_ok j d : bytes_ok (leBytes j d) /\ length (leBytes j d) = j.
Proof.
  revert d. induction j as [|j IH]; intros d; [split; [constructor|done]|]. cbn [leBytes length]. destruct (IH (Z.shiftr d 8)) as [H1 H2].
  split; [constructor; [apply u8_range|done]|by rewrite H2].
Qed.

Lemma leBytes_val j d : 0 <= d < 2 ^ (8 * Z.of_nat j) -> val 8 (leBytes j d) = d.
Proof.
  revert d. induction j as [|j IH]; intros d Hd; [change (2 ^ (8 * Z.of_nat 0)) with 1 in Hd; cbn; lia|]. cbn [leBytes val].
  rewrite shiftr_div by lia. rewrite IH; [unfold u8; zdm|].
  replace (8 * Z.of_nat (S j)) with (8 + 8 * Z.of_nat j) in Hd by lia. rewrite Z.pow_add_r in Hd by lia.
  split; [apply Z.div_pos; lia|]. apply Z.div_lt_upper_bound; lia.
Qed.

Lemma S_words : 8 * _S = _W /\ 0 < _S.
Proof. unfold _S. destruct _W_ok as [-> | ->]; done. Qed.

(** The bytes of a vector, lowest first. *)
Definition bytesOf (z : list Z) : list Z := z ≫= leBytes (Z.to_nat _S).

Lemma bytesOf_ok z : words_ok z -> bytes_ok (bytesOf z) /\ val 8 (bytesOf z) = nval z.
Proof.
  destruct S_words as [ES HS]. induction z as [|d z IH]; intros Hz; [split; [constructor|done]|].
  apply Forall_cons_1 in Hz as [Hd Hz]. destruct (IH Hz) as [H1 H2]. destruct (leBytes_ok (Z.to_nat _S) d) as [Hb Hl].
  unfold bytesOf in *. cbn [mbind list_bind]. split; [by apply Forall_app|].
  rewrite val8_app, H2, nval_cons, leBytes_val by (rewrite Z2Nat.id by lia; rewrite ES; done).
  unfold len. rewrite Hl, Z2Nat.id, ES by lia. done.
Qed.

Fixpoint putAll (bs : list Z) (st : list Z * Z) : res (list Z * Z) :=
  match bs with
  | [] => Ok st
  | b :: bs =>
      let! st := putByte b st in
      putAll bs st
  end.

Lemma putAll_app bs cs st : putAll (bs ++ cs) st = let! st := putAll bs st in putAll cs st.
Proof. revert st. induction bs as [|b bs IH]; intros st; [done|]. cbn [app putAll]. destruct (putByte b st); cbn [rbind]; auto. Qed.

Lemma putWords_all z st : putWords z st = putAll (bytesOf z) st.
Proof.
  revert st. induction z as [|d z IH]; intros st; [done|]. cbn [putWords]. unfold bytesOf. cbn [mbind list_bind]. rewrite putAll_app.
  replace (putAll (leBytes (Z.to_nat _S) d) st) with (putBytes (Z.to_nat _S) d st); [by destruct (putBytes _ _ _); cbn [rbind]|].
  generalize (Z.to_nat _S) as j. clear. intros j. revert d st. induction j as [|j IH]; intros d st; [done|]. cbn [putBytes leBytes putAll].
  replace (putByte (u8 d) st) with (putByte d st); [by destruct (putByte d st); cbn [rbind]|].
  destruct st as [buf i]. unfold putByte, u8. by rewrite Z.mod_mod.
Qed.

Lemma putAll_fits bs : forall a dn, bytes_ok bs -> len bs <= len a ->
  putAll bs (a ++ dn, len a) = Ok (take (Z.to_nat (len a - len bs)) a ++ rev bs ++ dn, len a - len bs).
Proof.
  induction bs as [|b bs IH]; intros a dn Hb Hl; cbn [putAll].
  - change (len (@nil Z)) with 0. rewrite Z.sub_0_r. unfold len. rewrite Nat2Z.id, take_ge by lia. done.
  - apply Forall_cons_1 in Hb as [Hb Hbs]. destruct a as [|e a _] using rev_ind; [len_lia|]. unfold putByte.
    rewrite Z.geb_leb, (proj2 (Z.leb_le 0 _)) by len_lia. rewrite <- app_assoc. cbn [app].
    rewrite (upd_app a e) by len_lia. cbn [rbind]. rewrite u8_id by done. replace (len (a ++ [e]) - 1) with (len a) by len_lia.
    rewrite IH by (done || len_lia). cbn [rev]. rewrite len_app, !len_cons, len_nil.
    replace (len a + (1 + 0) - (1 + len bs)) with (len a - len bs) by lia. rewrite take_app_le by (unfold len in *; len_lia).
    by rewrite <- app_assoc.
Qed.

Lemma putAll_over bs : forall buf i, bytes_ok bs -> i <= 0 ->
  putAll bs (buf, i) = if val 8 bs =? 0 then Ok (buf, i - len bs) else Panic.
Proof.
  induction bs as [|b bs IH]; intros buf i Hb Hi; cbn [putAll].
  - change (len (@nil Z)) with 0. by rewrite Z.sub_0_r.
  - apply Forall_cons_1 in Hb as [Hb Hbs]. unfold putByte. rewrite Z.geb_leb, (proj2 (Z.leb_gt 0 _)) by lia.
    pose proof (val_bound 8 bs ltac:(lia) Hbs). unfold byte_ok in Hb. rewrite u8_id by done. cbn [val].
    destruct (Z.eqb_spec b 0) as [->|]; cbn [negb rbind].
    + rewrite IH by (done || lia). rewrite len_cons. destruct (Z.eqb_spec (val 8 bs) 0), (Z.eqb_spec (0 + 2 ^ 8 * val 8 bs) 0); try done; try lia.
      do 2 f_equal. lia.
    + by rewrite (proj2 (Z.eqb_neq (b + _) 0)) by lia.
Qed.

(** Skipping the zero bytes at the front. *)
Lemma skip_spec buf i : 0 <= i <= len buf -> take (Z.to_nat i) buf = replicate (Z.to_nat i) 0 ->
  loop (S (length buf))
      (fun i =>
         let! c := if i <? len buf then (let! b := idx buf i in Ok (b =? 0)) else Ok false in
         Ok (if (c : bool) then inl (i + 1) else inr i)) i
  ⇓ (fun i => 0 <= i <= len buf /\ take (Z.to_nat i) buf = replicate (Z.to_nat i) 0 /\
       forall b, buf !! Z.to_nat i = Some b -> b <> 0).
Proof.
  intros Hi Ht. apply (loop_returns (fun i => 0 <= i <= len buf /\ take (Z.to_nat i) buf = replicate (Z.to_nat i) 0) (fun i => len buf - i));
    [|done|unfold len; lia|lia]. clear i Hi Ht. intros i [Hi Ht]. destruct (Z.ltb_spec i (len buf)) as [Hlt|Hge].
  - destruct (lookup_lt_is_Some_2 buf (Z.to_nat i)) as [b Hb]; [unfold len in *; lia|].
    rewrite (idx_Ok buf i b) by (done || lia). cbn [rbind returns]. destruct (Z.eqb_spec b 0) as [->|Hne].
    + split; [|lia]. split; [lia|]. replace (Z.to_nat (i + 1)) with (S (Z.to_nat i)) by lia.
      rewrite (take_S_r _ _ _ Hb), Ht. by rewrite <- replicate_S_end.
    + split; [done|]. split; [done|]. intros b'. rewrite Hb. by intros [= <-].
  - cbn [rbind returns]. split; [done|]. split; [done|]. intros b Hb. apply lookup_lt_Some in Hb. unfold len in *. lia.
Qed.

(** The words of [z] in a cleared buffer of [n] bytes: exactly when they fit,
    and the index of the first nonzero byte. *)
Lemma nbytes_spec z n : words_ok z -> 0 <= n ->
  if nval z <? 2 ^ (8 * n) then
    nbytes z (zeros n) ⇓ (fun '(buf, i) =>
      len buf = n /\ bytes_ok buf /\ beval buf = nval z /\ 0 <= i <= n /\
      take (Z.to_nat i) buf = replicate (Z.to_nat i) 0 /\ forall b, buf !! Z.to_nat i = Some b -> b <> 0)
  else nbytes z (zeros n) = Panic.
Proof.
  intros Hz Hn. unfold nbytes. rewrite putWords_all. destruct (bytesOf_ok z Hz) as [Hb <-]. set (bs := bytesOf z) in *. clearbody bs.
  pose proof (len_zeros n Hn) as Ln. pose proof (val_bound 8 bs ltac:(lia) Hb) as Hv. unfold beval.
  destruct (Z.le_gt_cases (len bs) n) as [Hle|Hgt].
  - rewrite (proj2 (Z.ltb_lt _ _)).
    2: { assert (2 ^ (8 * len bs) <= 2 ^ (8 * n)) by (apply Z.pow_le_mono_r; lia). lia. }
    pose proof (putAll_fits bs (zeros n) [] Hb ltac:(lia)) as Ep. rewrite !app_nil_r in Ep. rewrite Ep, Ln. cbn [rbind].
    set (m := n - len bs) in *. assert (Ez : take (Z.to_nat m) (zeros n) = replicate (Z.to_nat m) 0) by (unfold zeros, m; rewrite take_replicate; f_equal; len_lia).
    rewrite Ez. rewrite (proj2 (Z.ltb_ge m 0)) by lia. set (buf := replicate (Z.to_nat m) 0 ++ rev bs).
    assert (Lb : len buf = n) by (unfold buf, len in *; rewrite length_app, length_replicate, length_rev; lia).
    eapply returns_bind_mono; [apply skip_spec; [rewrite Lb; unfold m; len_lia|]|].
    { unfold buf. rewrite take_app_le by (rewrite length_replicate; lia). by rewrite take_ge by (rewrite length_replicate; lia). }
    intros i (Hi & Ht & Hnz). cbn [returns]. split; [done|]. split.
    { apply Forall_app. split; [apply Forall_replicate; done|by apply Forall_rev]. }
    split; [|split; [lia|done]]. unfold buf. rewrite rev_app_distr, rev_involutive, val8_app.
    pose proof (beval_zeros (Z.to_nat m)) as Z0. unfold beval in Z0. rewrite Z0. lia.
  - destruct (slice_split bs n ltac:(len_lia)) as (b1 & b2 & -> & L1). apply Forall_app in Hb as [Hb1 Hb2].
    rewrite putAll_app. pose proof (putAll_fits b1 (zeros n) [] Hb1 ltac:(lia)) as Ep. rewrite !app_nil_r, Ln, L1, Z.sub_diag in Ep.
    change (take (Z.to_nat 0) (zeros n)) with (@nil Z) in Ep. cbn [app] in Ep. rewrite Ln, Ep. cbn [rbind]. rewrite putAll_over by (done || lia).
    rewrite val8_app, L1. pose proof (val_bound 8 b1 ltac:(lia) Hb1) as V1. pose proof (val_bound 8 b2 ltac:(lia) Hb2) as V2. rewrite L1 in V1.
    destruct (Z.eqb_spec (val 8 b2) 0) as [->|Hne].
    2: { rewrite (proj2 (Z.ltb_ge _ _)) by nia. done. }
    rewrite Z.mul_0_r, Z.add_0_r, (proj2 (Z.ltb_lt _ _)) by lia. cbn [rbind].
    set (i0 := if 0 - len b2 <? 0 then 0 else 0 - len b2).
    assert (i0 = 0) as -> by (unfold i0; destruct (Z.ltb_spec (0 - len b2) 0); len_lia).
    assert (Lb : len (rev b1) = n) by (unfold len in *; by rewrite length_rev).
    eapply returns_bind_mono; [apply (skip_spec (rev b1) 0); [len_lia|done]|].
    intros i (Hi & Ht & Hnz). cbn [returns]. split; [done|]. split; [by apply Forall_rev|]. rewrite rev_involutive. split; [done|]. split; [lia|done].
Qed.

Section SetBytes.
Context (beWord : list Z -> Z).
Hypothesis beWord_ok : forall b, bytes_ok b -> len b = _S -> beWord b = beval b.

Lemma beval_app a b : beval (a ++ b) = beval b + 2 ^ (8 * len b) * beval a.
Proof. unfold beval. rewrite rev_app_distr, val8_app. unfold len. by rewrite length_rev. Qed.

Lemma beval_bound b : bytes_ok b -> 0 <= beval b < 2 ^ (8 * len b).
Proof.
  intros Hb. unfold beval. replace (len b) with (len (rev b)) by (unfold len; by rewrite length_rev).
  apply val_bound; [lia|]. by apply Forall_rev.
Qed.

(** The full words, from the end of the buffer. *)
Lemma setBytes_words z buf :
  bytes_ok buf -> len z = (len buf + _S - 1) / _S ->
  loop (S (length buf))
      (fun '(z, i, k) =>
         if i >=? _S then
           let! b := slice buf (i - _S) i in
           let! z := upd z k (beWord b) in
           Ok (inl (z, i - _S, k + 1))
         else Ok (inr (z, i))) (z, len buf, 0)
  ⇓ (fun '(z', i) => exists zw rest hi lo, buf = hi ++ lo /\ len hi = i /\ 0 <= i < _S /\ z' = zw ++ rest /\ words_ok zw /\
       len lo = _S * len zw /\ nval zw = beval lo /\ len rest = if i =? 0 then 0 else 1).
Proof.
  intros Hb Lz. destruct S_words as [ES HS].
  apply (loop_returns (fun '(z', i, k) => exists zw rest hi lo, buf = hi ++ lo /\ len hi = i /\ z' = zw ++ rest /\ words_ok zw /\
       len zw = k /\ len lo = _S * k /\ nval zw = beval lo /\ len rest = (len hi + _S - 1) / _S) (fun '(_, i, _) => i)).
  - intros [[z' i] k] (zw & rest & hi & lo & -> & Lh & -> & Hw & Lw & Ll & Ev & Lr). rewrite Z.geb_leb. destruct (Z.leb_spec _S i) as [Hge|Hlt].
    + assert (Hr : 0 <= i - _S <= len hi) by lia. destruct (slice_split hi (i - _S) Hr) as (h & b & -> & Lh'). assert (Lbb : len b = _S) by len_lia. rewrite <- app_assoc.
      apply Forall_app in Hb as [Hhb Hlo]. apply Forall_app in Hhb as [Hh Hbb].
      rewrite slice_Ok by (rewrite ?len_app in *; len_lia). replace (i - (i - _S)) with _S by lia.
      replace (take (Z.to_nat _S) (drop (Z.to_nat (i - _S)) (h ++ b ++ lo))) with b.
      2: { replace (Z.to_nat (i - _S)) with (length h) by (unfold len in *; lia). rewrite drop_app_length.
           replace (Z.to_nat _S) with (length b) by (unfold len in *; lia). by rewrite take_app_length. }
      cbn [rbind]. rewrite beWord_ok by done.
      assert (Lr' : len rest = (len h + _S - 1) / _S + 1).
      { rewrite Lr, len_app, Lbb. replace (len h + _S + _S - 1) with (len h + _S - 1 + 1 * _S) by lia. rewrite Z.div_add by lia. done. }
      destruct rest as [|e rest]; [pose proof (Z.div_pos (len h + _S - 1) _S); len_lia|]. rewrite upd_app by done. cbn [rbind returns].
      split; [|len_lia]. exists (zw ++ [beval b]), rest, h, (b ++ lo). rewrite <- app_assoc. cbn [app].
      split; [done|]. split; [done|]. split; [done|]. pose proof (beval_bound b Hbb) as Bb. rewrite Lbb, ES in Bb.
      split; [apply words_ok_app; split; [done|by constructor]|]. split; [len_lia|]. split; [len_lia|].
      split; [|rewrite len_cons in Lr'; lia]. rewrite nval_snoc, beval_app, Ev, Ll, Lw. unfold weight. rewrite <- ES. f_equal. f_equal. f_equal. lia.
    + exists zw, rest, hi, lo. split; [done|]. split; [done|]. split; [len_lia|]. split; [done|]. split; [done|]. split; [lia|]. split; [done|].
      rewrite Lr, Lh. destruct (Z.eqb_spec i 0) as [->|]; [apply Z.div_small; lia|]. symmetry. apply (Z.div_unique_pos _ _ _ (i - 1)); len_lia.
  - exists [], z, buf, []. rewrite app_nil_r. change (len (@nil Z)) with 0. repeat split; try done; [constructor|lia].
  - unfold len. lia.
  - len_lia.
Qed.

(** The bytes of the highest word, when it is not full. *)
Lemma setBytes_rest hi lo : bytes_ok hi -> len hi < _S ->
  loop (S (length (hi ++ lo)))
    (fun '(d, i, s) =>
       if i >? 0 then
         let! b := idx (hi ++ lo) (i - 1) in
         Ok (inl (Z.lor d (word (Z.shiftl b s)), i - 1, s + 8))
       else Ok (inr d)) (0, len hi, 0)
  ⇓ (fun d => d = beval hi).
Proof.
  intros Hh Hl. destruct S_words as [ES HS].
  apply (loop_returns (fun '(d, i, s) => exists h b, hi = h ++ b /\ len h = i /\ s = 8 * len b /\ d = beval b) (fun '(_, i, _) => i)).
  - intros [[d i] s] (h & b & -> & Lh & -> & ->). rewrite Z.gtb_ltb. destruct (Z.ltb_spec 0 i) as [Hpos|H0].
    + destruct h as [|e h _] using rev_ind; [len_lia|]. rewrite <- !app_assoc. cbn [app]. rewrite idx_app by len_lia. cbn [rbind returns].
      apply Forall_app in Hh as [Hhe Hb]. apply Forall_app in Hhe as [_ He]. apply Forall_cons_1 in He as [He _]. unfold byte_ok in He.
      split; [|len_lia]. exists h, (e :: b). split; [done|]. split; [len_lia|]. split; [len_lia|].
      change (e :: b) with ([e] ++ b). rewrite beval_app. unfold beval at 3. cbn [rev app val]. rewrite shiftl_mul by len_lia.
      pose proof (beval_bound b Hb) as Bb. rewrite word_small.
      * rewrite Z.lor_comm, lor_disjoint_mul by (done || len_lia). lia.
      * assert (2 ^ 8 * 2 ^ (8 * len b) <= 2 ^ _W); [|nia]. rewrite <- Z.pow_add_r by len_lia. apply Z.pow_le_mono_r; len_lia.
    + assert (h = []) as -> by (apply len_zero_inv; len_lia). done.
  - exists hi, []. rewrite app_nil_r. done.
  - unfold len. rewrite length_app. lia.
  - len_lia.
Qed.

Lemma setBytes_spec z buf : bytes_ok buf -> setBytes beWord z buf ⇓ (fun r => nval r = beval buf /\ is_nat r).
Proof.
  intros Hb. destruct S_words as [ES HS]. unfold setBytes.
  eapply returns_bind_mono; [apply setBytes_words; [done|apply len_nmake; apply Z.div_pos; len_lia]|].
  intros [z' i] (zw & rest & hi & lo & -> & Lh & Hi & -> & Hw & Ll & Ev & Lr). apply Forall_app in Hb as [Hh Hlo]. cbn beta iota.
  rewrite Z.gtb_ltb. destruct (Z.ltb_spec 0 i) as [Hpos|H0].
  - rewrite (proj2 (Z.eqb_neq i 0)) in Lr by lia. destruct rest as [|e [|? ?]]; [len_lia| |len_lia]. rewrite <- Lh.
    apply returns_bind. eapply returns_bind_mono; [apply setBytes_rest; [done|lia]|]. intros d ->.
    rewrite upd_last by len_lia. cbn [returns]. pose proof (beval_bound hi Hh) as Bh.
    assert (2 ^ (8 * len hi) <= 2 ^ _W) by (apply Z.pow_le_mono_r; lia).
    eapply returns_mono; [apply norm_spec, words_ok_app; split; [done|constructor; [lia|constructor]]|].
    intros r (-> & Hr & _). split; [|done]. rewrite nval_snoc, beval_app, Ev, Ll. unfold weight. rewrite <- ES. do 3 f_equal. lia.
  - assert (i = 0) as -> by lia. assert (rest = []) as -> by (by apply len_zero_inv). assert (hi = []) as -> by (by apply len_zero_inv).
    cbn [rbind]. rewrite app_nil_r. eapply returns_mono; [by apply norm_spec|]. intros r (-> & Hr & _). done.
Qed.
End SetBytes.

(** ** Subtraction modulo a power of two *)

Lemma truncTo_spec x n : is_nat x -> 0 <= n -> truncTo x n ⇓ (fun r => nval r = nval x mod 2 ^ n /\ is_nat r).
Proof.
  intros Hx Hn. unfold truncTo. rewrite bitLen_spec by done. cbn [rbind]. destruct (Z.gtb_spec (bitlen (nval x)) n) as [Hgt|Hle].
  { by apply trunc_spec. }
  cbn [returns]. split; [|done]. symmetry. apply Z.mod_small. pose proof (nval_bound x (proj1 Hx)). split; [lia|].
  destruct (Z.eq_dec (nval x) 0) as [->|Hne]; [lia|]. assert (Hp : 0 < nval x) by lia. pose proof (bitlen_bounds _ Hp).
  assert (2 ^ bitlen (nval x) <= 2 ^ n) by (apply Z.pow_le_mono_r; lia). lia.
Qed.

Lemma widen_spec z n : 0 <= n -> words_ok z ->
  loop (Z.to_nat n + 1) (fun z => Ok (if len z * _W <? n then inl (z ++ [0]) else inr z)) z
  ⇓ (fun z' => nval z' = nval z /\ words_ok z' /\ n <= len z' * _W).
Proof.
  intros Hn Hz. pose proof W_pos as HW.
  apply (loop_returns (fun z' => nval z' = nval z /\ words_ok z') (fun z' => Z.max 0 (n - len z' * _W))).
  - intros z' [Ev Hw]. cbn [returns]. destruct (Z.ltb_spec (len z' * _W) n) as [Hlt|Hge]; [|done]. split; [split|].
    + rewrite nval_snoc. lia.
    + apply words_ok_app. split; [done|apply (words_ok_zeros 1)].
    + rewrite len_app. change (len [0]) with 1. lia.
  - done.
  - pose proof (len_nonneg z). nia.
  - lia.
Qed.

Lemma complement_spec z : words_ok z ->
  forWords (fun z c i => let! w := idx z i in Ok (word (Z.lnot w), c)) z 0
  ⇓ (fun '(z', _) => nval z' = weight (len z) - 1 - nval z /\ words_ok z' /\ len z' = len z).
Proof.
  intros Hz. pose proof B_pos.
  assert (G : forall w, 0 <= w < 2 ^ _W -> word (Z.lnot w) = 2 ^ _W - 1 - w).
  { intros w Hw. unfold word. symmetry. apply (Z.mod_unique_pos _ _ (-1)); [lia|]. unfold Z.lnot. lia. }
  rewrite (forWords_mapAcc _ (fun w c => (word (Z.lnot w), c)) z) by (done ||
    (intros pre c k w Hk Hw; pose proof (rd_reads Same z pre k w Hk Hw) as R; unfold rd in R; cbn [words] in R; by rewrite R)).
  cbn [returns]. replace (mapAcc _ z 0) with (map (fun w => word (Z.lnot w)) z, 0).
  2: { clear. induction z as [|w z IH]; [done|]. cbn [map mapAcc]. by rewrite <- IH. }
  induction z as [|w z IH]; cbn [map].
  - change (len (@nil Z)) with 0. rewrite weight_0. split; [done|]. split; [constructor|done].
  - apply Forall_cons_1 in Hz as [Hw Hz]. destruct (IH Hz) as (E & Hw' & L). rewrite !nval_cons, !len_cons, weight_add, weight_1, E, G by (done || len_lia).
    split; [lia|]. split; [constructor; [lia|done]|lia].
Qed.

Lemma subMod2N_spec z x y n : is_nat x -> is_nat y -> 0 <= n ->
  subMod2N z x y n ⇓ (fun r => nval r = (nval x - nval y) mod 2 ^ n /\ is_nat r).
Proof.
  intros Hx Hy Hn. unfold subMod2N. assert (Hp : 0 < 2 ^ n) by lia. pose proof W_pos as HW.
  eapply returns_bind_mono; [by apply truncTo_spec|]. intros x' [Ex Hx'].
  eapply returns_bind_mono; [by apply truncTo_spec|]. intros y' [Ey Hy'].
  pose proof (Z.mod_pos_bound (nval x) _ Hp). pose proof (Z.mod_pos_bound (nval y) _ Hp).
  assert (Em : (nval x - nval y) mod 2 ^ n = (nval x' - nval y') mod 2 ^ n) by (rewrite Ex, Ey; apply Zminus_mod).
  rewrite <- Ex, <- Ey in *. rewrite Em, cmp_spec by done. cbn [rbind]. rewrite sign_geb.
  destruct (Z.leb_spec (nval y') (nval x')) as [Hle|Hgt].
  { pose proof (nsub_spec z x' y' Hx' Hy') as S. rewrite (proj2 (Z.ltb_ge _ _)) in S by lia.
    eapply returns_mono; [exact S|]. intros r [-> Hr]. split; [|done]. symmetry. apply Z.mod_small. lia. }
  pose proof (nsub_spec z y' x' Hy' Hx') as S. rewrite (proj2 (Z.ltb_ge _ _)) in S by lia.
  eapply returns_bind_mono; [exact S|]. intros d [Ed Hd].
  eapply returns_bind_mono; [apply widen_spec; [done|apply Hd]|]. intros d1 (E1 & Hd1 & L1).
  eapply returns_bind_mono; [by apply complement_spec|]. intros [d2 k] (E2 & Hd2 & L2). cbn beta iota.
  eapply returns_bind_mono; [apply trunc_words; [done| |done]|].
  { intros Hlt. exfalso. rewrite L2 in Hlt. apply Z.lt_nge in Hlt. apply Hlt. apply Z.lt_succ_r, Z.div_lt_upper_bound; lia. }
  intros d3 [E3 Hd3]. destruct is_nat_one as [H1 V1]. eapply returns_mono; [by apply nadd_spec|]. intros r [-> Hr]. split; [|done].
  assert (Ew : weight (len d1) = 2 ^ (_W * len d1 - n) * 2 ^ n) by (unfold weight; rewrite <- Z.pow_add_r by lia; f_equal; lia).
  rewrite E3, E2, E1, Ed, V1, Ew.
  replace (2 ^ (_W * len d1 - n) * 2 ^ n - 1 - (nval y' - nval x')) with (2 ^ n - 1 - (nval y' - nval x') + (2 ^ (_W * len d1 - n) - 1) * 2 ^ n) by lia.
  rewrite Z.mod_add, Z.mod_small by lia. apply (Z.mod_unique_pos _ _ (-1)); lia.
Qed.
End Correct.
