(* ===== verification/BigInt.v ===== *)
(** * Package math/big: signed integers (model)

    The methods of Int of src/math/big/int.go.  The receiver [z], whose storage
    a method reuses, is given by the words of that storage; a method that
    returns its receiver returns the new value.  Mul and Cmp test whether two
    operands are the same variable: [same] is the outcome of that test.
    [scratch n] stands for the contents of the [n] words that stack.nat
    returns. *)
From Stdlib Require Import ZArith Lia.
From stdpp Require Import base numbers list.
From S2P Require Import Prelude Bits BigWords BigNat BigMul BigDivide BigBits BigNatFuns.

Section Model.
Context `{P : Platform}.

Definition intOne : Int := mkInt false natOne.

Definition IntSign (x : Int) : Z :=
  if len (abs x) =? 0 then 0 else
  if neg x then -1 else 1.

Definition SetInt64 (z : list Z) (x : Z) : res Int :=
  let '(ng, x) := if x <? 0 then (true, i64 (- x)) else (false, x) in
  let! a := setUint64 z (u64 x) in
  Ok (mkInt ng a).

Definition SetUint64 (z : list Z) (x : Z) : res Int :=
  let! a := setUint64 z x in
  Ok (mkInt false a).

Definition NewInt (x : Z) : Int :=
  let u := u64 x in
  let u := if x <? 0 then u64 (- u) else u in
  let a :=
    if x =? 0 then []
    else if (_W =? 32) && negb (Z.shiftr u 32 =? 0) then [word u; word (Z.shiftr u 32)]
    else [word u] in
  mkInt (x <? 0) a.

Definition IntSet (z : list Z) (x : Int) : Int := mkInt (neg x) (nset z (abs x)).
Definition IntBits (x : Int) : list Z := abs x.

Definition SetBits (a : list Z) : res Int :=
  let! a := norm a in
  Ok (mkInt false a).

Definition IntAbs (z : list Z) (x : Int) : Int :=
  let z := IntSet z x in mkInt false (abs z).

Definition IntNeg (z : list Z) (x : Int) : Int :=
  let z := IntSet z x in mkInt ((len (abs z) >? 0) && negb (neg z)) (abs z).

(** ** Products *)
Section Scratch.
Context (scratch : Z -> list Z).

Definition imul (same : bool) (z : list Z) (x y : Int) : res Int :=
  if same then IntSqr (nsqr scratch) z x else IntMul (nmul scratch) z x y.

Definition MulRange (z : list Z) (a b : Z) : res Int :=
  if a >? b then SetInt64 z 1 else
  if (a <=? 0) && (b >=? 0) then SetInt64 z 0 else
  let '(ng, a, b) :=
    if a <? 0 then (Z.land (i64 (b - a)) 1 =? 0, i64 (- b), i64 (- a)) else (false, a, b) in
  let! r := mulRange scratch z (u64 a) (u64 b) in
  Ok (mkInt ng r).

(** ** Division *)

Definition Quo (z : list Z) (x y : Int) : res Int :=
  let! '(q, _) := ndiv scratch z [] (abs x) (abs y) in
  Ok (mkInt ((len q >? 0) && negb (eqb (neg x) (neg y))) q).

Definition IntRem (z : list Z) (x y : Int) : res Int :=
  let! '(_, r) := ndiv scratch [] z (abs x) (abs y) in
  Ok (mkInt ((len r >? 0) && neg x) r).

Definition QuoRem (z r : list Z) (x y : Int) : res (Int * Int) :=
  let! '(q, r) := ndiv scratch z r (abs x) (abs y) in
  Ok (mkInt ((len q >? 0) && negb (eqb (neg x) (neg y))) q, mkInt ((len r >? 0) && neg x) r).

Definition IntDiv (z : list Z) (x y : Int) : res Int :=
  let y_neg := neg y in
  let! '(z, r) := QuoRem z [] x y in
  if neg r then
    if y_neg then IntAdd (abs z) z intOne else IntSub (abs z) z intOne
  else Ok z.

Definition IntMod (z : list Z) (x y : Int) : res Int :=
  let y0 := y in
  let! '(_, z) := QuoRem [] z x y in
  if neg z then
    if neg y0 then IntSub (abs z) z y0 else IntAdd (abs z) z y0
  else Ok z.

Definition DivMod (z m : list Z) (x y : Int) : res (Int * Int) :=
  let y0 := y in
  let! '(z, m) := QuoRem z m x y in
  if neg m then
    if neg y0 then
      let! z := IntAdd (abs z) z intOne in
      let! m := IntSub (abs m) m y0 in
      Ok (z, m)
    else
      let! z := IntSub (abs z) z intOne in
      let! m := IntAdd (abs m) m y0 in
      Ok (z, m)
  else Ok (z, m).

Definition IntCmp (same : bool) (x y : Int) : res Z :=
  if same then Ok 0 else
  if eqb (neg x) (neg y) then
    let! r := cmp (abs x) (abs y) in
    Ok (if neg x then - r else r)
  else if neg x then Ok (-1)
  else Ok 1.

Definition CmpAbs (x y : Int) : res Z := cmp (abs x) (abs y).

Definition Binomial (z : list Z) (n k : Z) : res Int :=
  if k >? n then SetInt64 z 0 else
  let k := if k >? i64 (n - k) then i64 (n - k) else k in
  let! N := SetInt64 [] n in
  let! K := SetInt64 [] k in
  let z := IntSet z intOne in
  loop (Z.to_nat k + 1)
    (fun '(z, i, t) =>
       let! c := IntCmp false i K in
       if c <? 0 then
         let! t := IntSub t N i in
         let! z := imul false (abs z) z t in
         let! i := IntAdd (abs i) i intOne in
         let! z := Quo (abs z) z i in
         Ok (inl (z, i, abs t))
       else Ok (inr z)) (z, mkInt false [], []).

Definition IntSqrt (z : list Z) (x : Int) : res Int :=
  if neg x then Panic else
  let! a := nsqrt scratch z (abs x) in
  Ok (mkInt false a).
End Scratch.

(** ** Machine integers *)

Definition low32 (x : list Z) : res Z :=
  if len x =? 0 then Ok 0 else
  let! w := idx x 0 in
  Ok (u32 w).

Definition low64 (x : list Z) : res Z :=
  if len x =? 0 then Ok 0 else
  let! v := idx x 0 in
  if (_W =? 32) && (len x >? 1) then
    let! h := idx x 1 in
    Ok (Z.lor (u64 (Z.shiftl h 32)) v)
  else Ok v.

Definition IntInt64 (x : Int) : res Z :=
  let! v := low64 (abs x) in
  let v := i64 v in
  Ok (if neg x then i64 (- v) else v).

Definition IntUint64 (x : Int) : res Z := low64 (abs x).

Definition IsInt64 (x : Int) : res bool :=
  if len (abs x) <=? 64 / _W then
    let! v := low64 (abs x) in
    let w := i64 v in
    Ok ((w >=? 0) || neg x && (w =? i64 (- w)))
  else Ok false.

Definition IsUint64 (x : Int) : bool := negb (neg x) && (len (abs x) <=? 64 / _W).

(** ** Bytes *)

Definition SetBytes (beWord : list Z -> Z) (z buf : list Z) : res Int :=
  let! a := setBytes beWord z buf in
  Ok (mkInt false a).

Definition IntBytes (x : Int) : res (list Z) :=
  let buf := zeros (len (abs x) * _S) in
  let! '(buf, i) := nbytes (abs x) buf in
  slice buf i (len buf).

Definition FillBytes (x : Int) (buf : list Z) : res (list Z) :=
  let buf := zeros (len buf) in
  let! '(buf, _) := nbytes (abs x) buf in
  Ok buf.

Definition IntBitLen (x : Int) : res Z := bitLen (abs x).
Definition TrailingZeroBits (x : Int) : res Z := trailingZeroBits (abs x).

(** ** Shifts and bits *)

Definition IntLsh (z : list Z) (x : Int) (n : Z) : res Int :=
  let! a := lsh z (abs x) n in
  Ok (mkInt (neg x) a).

Definition IntRsh (z : list Z) (x : Int) (n : Z) : res Int :=
  if neg x then
    let! t := nsub z (abs x) natOne in
    let! t := rsh t t n in
    let! a := nadd t t natOne in
    Ok (mkInt true a)
  else
  let! a := rsh z (abs x) n in
  Ok (mkInt false a).

Definition IntBit (x : Int) (i : Z) : res Z :=
  if i =? 0 then
    if len (abs x) >? 0 then
      let! w := idx (abs x) 0 in
      Ok (Z.land w 1)
    else Ok 0
  else if i <? 0 then Panic
  else if neg x then
    let! t := nsub [] (abs x) natOne in
    let! b := bit t i in
    Ok (Z.lxor b 1)
  else bit (abs x) i.

Definition IntSetBit (z : list Z) (x : Int) (i b : Z) : res Int :=
  if i <? 0 then Panic else
  if neg x then
    let! t := nsub z (abs x) natOne in
    let! t := setBit t t i (Z.lxor b 1) in
    let! a := nadd t t natOne in
    Ok (mkInt (len a >? 0) a)
  else
  let! a := setBit z (abs x) i b in
  Ok (mkInt false a).

Definition And (z : list Z) (x y : Int) : res Int :=
  if eqb (neg x) (neg y) then
    if neg x then
      let! x1 := nsub [] (abs x) natOne in
      let! y1 := nsub [] (abs y) natOne in
      let! o := nor z x1 y1 in
      let! a := nadd z o natOne in
      Ok (mkInt true a)
    else
    let! a := nand z (abs x) (abs y) in
    Ok (mkInt false a)
  else
  let '(x, y) := if neg x then (y, x) else (x, y) in
  let! y1 := nsub [] (abs y) natOne in
  let! a := nandNot z (abs x) y1 in
  Ok (mkInt false a).

Definition AndNot (z : list Z) (x y : Int) : res Int :=
  if eqb (neg x) (neg y) then
    if neg x then
      let! x1 := nsub [] (abs x) natOne in
      let! y1 := nsub [] (abs y) natOne in
      let! a := nandNot z y1 x1 in
      Ok (mkInt false a)
    else
    let! a := nandNot z (abs x) (abs y) in
    Ok (mkInt false a)
  else
  if neg x then
    let! x1 := nsub [] (abs x) natOne in
    let! o := nor z x1 (abs y) in
    let! a := nadd z o natOne in
    Ok (mkInt true a)
  else
  let! y1 := nsub [] (abs y) natOne in
  let! a := nand z (abs x) y1 in
  Ok (mkInt false a).

Definition Or (z : list Z) (x y : Int) : res Int :=
  if eqb (neg x) (neg y) then
    if neg x then
      let! x1 := nsub [] (abs x) natOne in
      let! y1 := nsub [] (abs y) natOne in
      let! o := nand z x1 y1 in
      let! a := nadd z o natOne in
      Ok (mkInt true a)
    else
    let! a := nor z (abs x) (abs y) in
    Ok (mkInt false a)
  else
  let '(x, y) := if neg x then (y, x) else (x, y) in
  let! y1 := nsub [] (abs y) natOne in
  let! o := nandNot z y1 (abs x) in
  let! a := nadd z o natOne in
  Ok (mkInt true a).

Definition Xor (z : list Z) (x y : Int) : res Int :=
  if eqb (neg x) (neg y) then
    if neg x then
      let! x1 := nsub [] (abs x) natOne in
      let! y1 := nsub [] (abs y) natOne in
      let! a := nxor z x1 y1 in
      Ok (mkInt false a)
    else
    let! a := nxor z (abs x) (abs y) in
    Ok (mkInt false a)
  else
  let '(x, y) := if neg x then (y, x) else (x, y) in
  let! y1 := nsub [] (abs y) natOne in
  let! o := nxor z (abs x) y1 in
  let! a := nadd z o natOne in
  Ok (mkInt true a).

Definition Not (z : list Z) (x : Int) : res Int :=
  if neg x then
    let! a := nsub z (abs x) natOne in
    Ok (mkInt false a)
  else
  let! a := nadd z (abs x) natOne in
  Ok (mkInt true a).
End Model.
