(* ===== verification/BigIntCorrect.v ===== *)
(** * Package math/big: signed integers are exact

    Every method of BigInt.v computes, on the mathematical integers its
    operands stand for, the operation it is named after: ring operations and
    comparison, truncated and Euclidean division, two's complement bit
    operations and shifts, square roots, conversions to and from machine
    integers and bytes.  Results have no leading zero words and no negative
    zero. *)
From Stdlib Require Import ZArith Lia.
From stdpp Require Import base numbers list.
From S2P Require Import Prelude Bits BigWords BigWordsCorrect BigNat BigNatCorrect BigMul BigMulCorrect BigDivide BigDiv BigDivRec BigBits BigNatFuns BigInt.

Section Correct.
Context `{P : Platform}.
Abbreviation nval := (val _W).

(** [r] is a well-formed integer of value [v]. *)
Definition is_int (v : Z) (r : Int) : Prop := ival r = v /\ int_ok r.

Lemma int_ok_nat x : int_ok x -> is_nat (abs x).
Proof. by intros []. Qed.
Lemma nval_nonneg a : is_nat a -> 0 <= nval a.
Proof. intros [Hw _]. by apply nval_bound. Qed.

Lemma ival_pos x : int_ok x -> neg x = false -> nval (abs x) = ival x /\ 0 <= ival x.
Proof. intros [H _] E. unfold ival. rewrite E. split; [done|by apply nval_nonneg]. Qed.
Lemma ival_neg x : int_ok x -> neg x = true -> nval (abs x) = - ival x /\ ival x < 0.
Proof.
  intros [H Hz] E. unfold ival. rewrite E. split; [lia|]. pose proof (nval_nonneg _ H).
  assert (nval (abs x) <> 0); [|lia]. intros E0. by apply (Hz E), is_nat_zero.
Qed.
Lemma ival_abs x : int_ok x -> nval (abs x) = Z.abs (ival x).
Proof. intros [H _]. pose proof (nval_nonneg _ H). unfold ival. destruct (neg x); lia. Qed.
Lemma ival_zero x : int_ok x -> (ival x = 0 <-> nval (abs x) = 0).
Proof. intros _. unfold ival. destruct (neg x); lia. Qed.

Lemma is_int_nonneg a : is_nat a -> is_int (nval a) (mkInt false a).
Proof. intros H. by split; [|split]. Qed.
Lemma is_int_neg a : is_nat a -> nval a <> 0 -> is_int (- nval a) (mkInt true a).
Proof. intros H H0. split; [done|]. split; [done|]. intros _ E. cbn [abs] in E. subst a. done. Qed.
Lemma is_int_sign a (ng : bool) : is_nat a -> is_int (if ng then - nval a else nval a) (mkInt ((len a >? 0) && ng) a).
Proof. intros H. by apply mkInt_ok. Qed.

Lemma int_unique x y : int_ok x -> int_ok y -> ival x = ival y -> x = y.
Proof.
  intros Hx Hy E. destruct x as [nx ax], y as [ny ay]. pose proof (ival_abs _ Hx) as Ax. pose proof (ival_abs _ Hy) as Ay.
  cbn [abs] in *. assert (ax = ay) as <- by (apply is_nat_unique; [apply Hx|apply Hy|congruence]). f_equal.
  destruct nx, ny; try done.
  - pose proof (ival_neg _ Hx eq_refl). pose proof (ival_pos _ Hy eq_refl). lia.
  - pose proof (ival_neg _ Hy eq_refl). pose proof (ival_pos _ Hx eq_refl). lia.
Qed.

Lemma intOne_ok : is_int 1 intOne.
Proof. destruct is_nat_one as [H E]. unfold intOne. rewrite <- E. by apply is_int_nonneg. Qed.

(** ** Signs, copies, comparison *)

Lemma IntSign_spec x : int_ok x -> IntSign x = Z.sgn (ival x).
Proof.
  intros Hx. unfold IntSign. destruct (Z.eqb_spec (len (abs x)) 0) as [E|E].
  { apply len_zero_inv in E. unfold ival. rewrite E. by destruct (neg x). }
  assert (nval (abs x) <> 0) by (intros E0; apply is_nat_zero in E0; [rewrite E0 in E; done|apply Hx]).
  pose proof (nval_nonneg _ (proj1 Hx)). unfold ival. destruct (neg x); [rewrite Z.sgn_neg by lia|rewrite Z.sgn_pos by lia]; done.
Qed.

Lemma IntSet_spec z x : int_ok x -> is_int (ival x) (IntSet z x).
Proof. intros Hx. unfold IntSet. rewrite nset_eq. by destruct x. Qed.

Lemma IntAbs_spec z x : int_ok x -> is_int (Z.abs (ival x)) (IntAbs z x).
Proof. intros Hx. unfold IntAbs, IntSet. cbn [abs]. rewrite nset_eq, <- ival_abs by done. apply is_int_nonneg, Hx. Qed.

Lemma IntNeg_spec z x : int_ok x -> is_int (- ival x) (IntNeg z x).
Proof.
  intros Hx. unfold IntNeg, IntSet. cbn [abs neg]. rewrite nset_eq. pose proof (is_int_sign (abs x) (negb (neg x)) (proj1 Hx)) as H.
  unfold ival at 1. destruct (neg x); cbn [negb] in H; [rewrite Z.opp_involutive|]; done.
Qed.

Lemma SetBits_spec a : words_ok a -> SetBits a ⇓ is_int (nval a).
Proof.
  intros Ha. unfold SetBits. eapply returns_bind_mono; [by apply norm_spec|]. intros r (<- & Hr & _). by apply is_int_nonneg.
Qed.

Lemma sign_opp a b : sign (- a) (- b) = - sign a b.
Proof. unfold sign. rewrite !Z.gtb_ltb. destruct (Z.ltb_spec (- a) (- b)), (Z.ltb_spec a b), (Z.ltb_spec (- b) (- a)), (Z.ltb_spec b a); lia. Qed.

Lemma sign_refl a : sign a a = 0.
Proof. unfold sign. by rewrite Z.gtb_ltb, Z.ltb_irrefl. Qed.

Lemma IntCmp_spec same x y : int_ok x -> int_ok y -> (same = true -> x = y) -> IntCmp same x y = Ok (sign (ival x) (ival y)).
Proof.
  intros Hx Hy Hs. unfold IntCmp. destruct same; [rewrite (Hs eq_refl), sign_refl; done|].
  destruct (neg x) eqn:Ex, (neg y) eqn:Ey; cbn [eqb].
  - rewrite cmp_spec by (apply Hx || apply Hy). cbn [rbind]. by rewrite (proj1 (ival_neg x Hx Ex)), (proj1 (ival_neg y Hy Ey)), sign_opp, Z.opp_involutive.
  - pose proof (ival_neg x Hx Ex). pose proof (ival_pos y Hy Ey). by rewrite sign_lt by lia.
  - pose proof (ival_pos x Hx Ex). pose proof (ival_neg y Hy Ey). by rewrite sign_gt by lia.
  - rewrite cmp_spec by (apply Hx || apply Hy). cbn [rbind]. by rewrite (proj1 (ival_pos x Hx Ex)), (proj1 (ival_pos y Hy Ey)).
Qed.

Lemma CmpAbs_spec x y : int_ok x -> int_ok y -> CmpAbs x y = Ok (sign (Z.abs (ival x)) (Z.abs (ival y))).
Proof. intros Hx Hy. unfold CmpAbs. rewrite cmp_spec by (apply Hx || apply Hy). by rewrite !ival_abs. Qed.

(** ** Machine integers *)

(** The absolute value of a negative int64, -2^63 included. *)
Lemma u64_opp x : - 2 ^ 63 <= x < 0 -> u64 (i64 (- x)) = - x.
Proof.
  intros Hx. unfold i64, signed. change (64 - 1) with 63. destruct (Z.eq_dec x (- 2 ^ 63)) as [->|]; [done|].
  rewrite Z.mod_small by lia. rewrite u64_id; lia.
Qed.

Lemma SetInt64_spec z x : - 2 ^ 63 <= x < 2 ^ 63 -> SetInt64 z x ⇓ is_int x.
Proof.
  intros Hx. unfold SetInt64. destruct (Z.ltb_spec x 0) as [Hn|Hp].
  - rewrite u64_opp by lia. eapply returns_bind_mono; [apply setUint64_spec; lia|]. intros a [Ea Ha]. cbn [returns].
    replace x with (- nval a) by lia. apply is_int_neg; [done|lia].
  - rewrite u64_id by lia. eapply returns_bind_mono; [apply setUint64_spec; lia|]. intros a [<- Ha]. by apply is_int_nonneg.
Qed.

Lemma SetUint64_spec z x : 0 <= x < 2 ^ 64 -> SetUint64 z x ⇓ is_int x.
Proof. intros Hx. unfold SetUint64. eapply returns_bind_mono; [by apply setUint64_spec|]. intros a [<- Ha]. by apply is_int_nonneg. Qed.

(** The words of a 64-bit number. *)
Lemma words64 u : 0 < u < 2 ^ 64 ->
  let a := if (_W =? 32) && negb (Z.shiftr u 32 =? 0) then [word u; word (Z.shiftr u 32)] else [word u] in
  nval a = u /\ is_nat a.
Proof.
  intros Hu. rewrite shiftr_div by lia. unfold word, is_nat, words_ok, digits_ok. destruct _W_ok as [E|E]; rewrite E; cbn [Z.eqb Pos.eqb andb].
  - destruct (Z.eqb_spec (u / 2 ^ 32) 0) as [E0|E0]; cbn [negb val].
    + assert (u mod 2 ^ 32 = u) as -> by (apply Z.mod_small; zdm). split; [lia|]. split; [constructor; [zdm|constructor]|].
      apply (normal_snoc []). lia.
    + rewrite (Z.mod_small (u / 2 ^ 32)) by zdm. split; [zdm|]. split; [constructor; [zdm|constructor; [zdm|constructor]]|].
      by apply (normal_snoc [_]).
  - cbn [val]. rewrite Z.mod_small by lia. split; [lia|]. split; [constructor; [lia|constructor]|]. apply (normal_snoc []). lia.
Qed.

Lemma NewInt_spec x : - 2 ^ 63 <= x < 2 ^ 63 -> is_int x (NewInt x).
Proof.
  intros Hx. unfold NewInt. destruct (Z.eqb_spec x 0) as [->|H0]; [by split; [|split; [apply is_nat_nil|]]|].
  destruct (Z.ltb_spec x 0) as [Hn|Hp].
  - replace (u64 (- u64 x)) with (- x). 2: { unfold u64. zdm. }
    destruct (words64 (- x) ltac:(lia)) as [E Ha]. cbv zeta in *. replace x with (- nval (if (_W =? 32) && negb (Z.shiftr (- x) 32 =? 0) then [word (- x); word (Z.shiftr (- x) 32)] else [word (- x)])) at 1 by lia.
    apply is_int_neg; [done|lia].
  - rewrite u64_id by lia. destruct (words64 x ltac:(lia)) as [E Ha]. cbv zeta in *. rewrite <- E at 1. by apply is_int_nonneg.
Qed.

Lemma low64_spec x : words_ok x -> low64 x = Ok (nval x mod 2 ^ 64).
Proof.
  intros Hx. unfold low64. destruct x as [|w x]; [done|]. rewrite (proj2 (Z.eqb_neq _ 0)) by len_lia.
  apply Forall_cons_1 in Hx as [Hw Hx]. change (idx (w :: x) 0) with (Ok w). cbn [rbind]. destruct _W_ok as [E|E].
  - rewrite E in *. cbn [Z.eqb Pos.eqb andb]. destruct x as [|h x]; cbn [val].
    + change (len [w] >? 1) with false. cbn iota. f_equal. symmetry. rewrite Z.mul_0_r, Z.add_0_r. apply Z.mod_small. lia.
    + rewrite (proj2 (Z.gtb_lt _ 1)) by len_lia. change (idx (w :: h :: x) 1) with (Ok h). cbn [rbind].
      apply Forall_cons_1 in Hx as [Hh Hx]. rewrite shiftl_mul by lia. unfold u64. rewrite Z.mod_small by lia.
      rewrite lor_disjoint_mul by lia. f_equal. apply (Z.mod_unique_pos _ _ (val 32 x)); lia.
  - rewrite E in *. cbn [Z.eqb Pos.eqb andb val]. f_equal. apply (Z.mod_unique_pos _ _ (val 64 x)); lia.
Qed.

Lemma i64_mod a b : a mod 2 ^ 64 = b mod 2 ^ 64 -> i64 a = i64 b.
Proof. intros H. unfold i64, signed. by rewrite Z.add_mod, H, <- Z.add_mod by lia. Qed.

Lemma i64_opp a : i64 (- i64 a) = i64 (- a).
Proof. apply i64_mod. unfold i64, signed. zdm. Qed.

Lemma IntInt64_spec x : int_ok x -> IntInt64 x = Ok (i64 (ival x)).
Proof.
  intros [Hx _]. unfold IntInt64. rewrite low64_spec by apply Hx. cbn [rbind].
  assert (E : i64 (nval (abs x) mod 2 ^ 64) = i64 (nval (abs x))) by (apply i64_mod, Z.mod_mod; lia).
  rewrite E. unfold ival. destruct (neg x); [by rewrite i64_opp|done].
Qed.

(** At most 64 bits, by the number of words. *)
Lemma words_64 a : is_nat a -> (len a <=? 64 / _W) = (nval a <? 2 ^ 64).
Proof.
  intros Ha. assert (E : weight (64 / _W) = 2 ^ 64) by (unfold weight; destruct _W_ok as [-> | ->]; done).
  assert (0 <= 64 / _W) by (destruct _W_ok as [-> | ->]; done).
  destruct (Z.leb_spec (len a) (64 / _W)) as [Hle|Hgt]; symmetry.
  - apply Z.ltb_lt. pose proof (nval_bound a (proj1 Ha)). assert (weight (len a) <= weight (64 / _W)) by (apply weight_le; len_lia). lia.
  - apply Z.ltb_ge. destruct (Z.le_gt_cases (2 ^ 64) (nval a)); [done|]. exfalso. rewrite <- E in H0. pose proof (fits a _ Ha H0 H). lia.
Qed.

Lemma IsUint64_spec x : int_ok x -> IsUint64 x = bool_decide (0 <= ival x < 2 ^ 64).
Proof.
  intros Hx. unfold IsUint64. rewrite words_64 by apply Hx. destruct (neg x) eqn:E; cbn [negb andb]; symmetry.
  - apply bool_decide_eq_false. pose proof (ival_neg x Hx E). lia.
  - destruct (ival_pos x Hx E) as [-> Hp]. destruct (Z.ltb_spec (ival x) (2 ^ 64)); [apply bool_decide_eq_true|apply bool_decide_eq_false]; lia.
Qed.

Lemma IsInt64_spec x : int_ok x -> IsInt64 x = Ok (bool_decide (- 2 ^ 63 <= ival x < 2 ^ 63)).
Proof.
  intros Hx. unfold IsInt64. rewrite words_64, low64_spec by apply Hx. cbn [rbind]. destruct (Z.ltb_spec (nval (abs x)) (2 ^ 64)) as [Hlt|Hge].
  - pose proof (nval_nonneg _ (proj1 Hx)) as H0. rewrite (Z.mod_small (nval (abs x))) by lia. f_equal. unfold i64, signed. change (64 - 1) with 63.
    assert (Hc : nval (abs x) < 2 ^ 63 \/ nval (abs x) = 2 ^ 63 \/ 2 ^ 63 < nval (abs x)) by lia.
    destruct (neg x) eqn:E; [pose proof (ival_neg x Hx E) as [En _]|pose proof (ival_pos x Hx E) as [En _]]; cbn [andb];
      destruct Hc as [Hc|[Hc|Hc]]; symmetry.
    1,4: rewrite Z.mod_small by lia; rewrite Z.geb_leb, (proj2 (Z.leb_le 0 _)) by lia; apply bool_decide_eq_true; lia.
    1: rewrite Hc; apply bool_decide_eq_true; lia.
    2: rewrite Hc; apply bool_decide_eq_false; lia.
    all: replace ((nval (abs x) + 2 ^ 63) mod 2 ^ 64) with (nval (abs x) - 2 ^ 63) by (apply (Z.mod_unique_pos _ _ 1); lia).
    all: rewrite Z.geb_leb, (proj2 (Z.leb_gt 0 _)) by lia; cbn [orb].
    + rewrite Z.mod_small, (proj2 (Z.eqb_neq _ _)) by lia. apply bool_decide_eq_false. lia.
    + apply bool_decide_eq_false. lia.
  - f_equal. symmetry. apply bool_decide_eq_false. rewrite (ival_abs x Hx) in Hge. lia.
Qed.

(** ** Bits in two's complement *)

(** The predecessor of a negative number's absolute value is its complement. *)
Lemma pred_spec z x : int_ok x -> neg x = true ->
  nsub z (abs x) natOne ⇓ (fun t => nval t = Z.lnot (ival x) /\ is_nat t).
Proof.
  intros Hx E. destruct (ival_neg x Hx E) as [Ea Hn]. destruct is_nat_one as [H1 V1].
  pose proof (nsub_spec z (abs x) natOne (proj1 Hx) H1) as S. rewrite V1, (proj2 (Z.ltb_ge _ _)) in S by lia.
  eapply returns_mono; [exact S|]. intros r [-> Hr]. split; [|done]. unfold Z.lnot. lia.
Qed.

(** The complement of a natural number, as a negative number. *)
Lemma succ_spec z t : is_nat t -> (let! a := nadd z t natOne in Ok (mkInt true a)) ⇓ is_int (Z.lnot (nval t)).
Proof.
  intros Ht. destruct is_nat_one as [H1 V1]. pose proof (nval_nonneg t Ht). eapply returns_bind_mono; [by apply nadd_spec|]. intros a [Ea Ha]. cbn [returns].
  replace (Z.lnot (nval t)) with (- nval a) by (unfold Z.lnot; lia). apply is_int_neg; [done|lia].
Qed.

Ltac pred_step x :=
  let E := fresh "E" in let H := fresh "H" in
  eapply returns_bind_mono; [by apply (pred_spec _ x)|]; intros ? [E H].
Ltac nat_step := 
  let E := fresh "E" in let H := fresh "H" in
  eapply returns_bind_mono; [first [apply nand_spec | apply nandNot_spec | apply nor_spec | apply nxor_spec]; match goal with
    | |- words_ok (abs ?x) => by match goal with H : int_ok x |- _ => apply H end
    | H : is_nat ?a |- words_ok ?a => apply H end|]; intros ? [E H].
Ltac use_pos x := rewrite ?(proj1 (ival_pos x ltac:(assumption) ltac:(assumption))) in *.
Ltac done_nonneg := cbn [returns]; match goal with E : nval ?a = _ |- is_int _ (mkInt false ?a) =>
  let H := fresh in pose proof (is_int_nonneg a ltac:(assumption)) as H; rewrite E in H end.
Ltac done_neg := eapply returns_mono; [by apply succ_spec|]; intros ? HR; match goal with E : nval _ = _ |- _ => rewrite E in HR end.

Lemma Not_spec z x : int_ok x -> Not z x ⇓ is_int (Z.lnot (ival x)).
Proof.
  intros Hx. unfold Not. destruct (neg x) eqn:E.
  - pred_step x. cbn [returns]. rewrite <- E0. by apply is_int_nonneg.
  - rewrite <- (proj1 (ival_pos x Hx E)). apply succ_spec, Hx.
Qed.

(** Identities of the comments, on integers. *)
Lemma and_neg_neg a b : Z.lnot (Z.lor (Z.lnot a) (Z.lnot b)) = Z.land a b.
Proof. by rewrite Z.lnot_lor, !Z.lnot_involutive. Qed.
Lemma or_neg_neg a b : Z.lnot (Z.land (Z.lnot a) (Z.lnot b)) = Z.lor a b.
Proof. by rewrite Z.lnot_land, !Z.lnot_involutive. Qed.
Lemma andnot_neg_neg a b : Z.ldiff (Z.lnot b) (Z.lnot a) = Z.ldiff a b.
Proof. rewrite !Z.ldiff_land, Z.lnot_involutive. apply Z.land_comm. Qed.
Lemma andnot_neg_pos a b : Z.lnot (Z.lor (Z.lnot a) b) = Z.ldiff a b.
Proof. by rewrite Z.lnot_lor, Z.lnot_involutive, Z.ldiff_land. Qed.
Lemma and_pos_neg a b : Z.ldiff a (Z.lnot b) = Z.land a b.
Proof. by rewrite Z.ldiff_land, Z.lnot_involutive. Qed.
Lemma or_pos_neg a b : Z.lnot (Z.ldiff (Z.lnot b) a) = Z.lor a b.
Proof. rewrite Z.ldiff_land, Z.lnot_land, !Z.lnot_involutive. apply Z.lor_comm. Qed.
Lemma xor_pos_neg a b : Z.lnot (Z.lxor a (Z.lnot b)) = Z.lxor a b.
Proof. rewrite <- Z.lnot_lxor_r. by rewrite Z.lnot_involutive. Qed.
Lemma xor_neg_neg a b : Z.lxor (Z.lnot a) (Z.lnot b) = Z.lxor a b.
Proof. rewrite <- Z.lnot_lxor_l, <- Z.lnot_lxor_r. apply Z.lnot_involutive. Qed.

Lemma And_spec z x y : int_ok x -> int_ok y -> And z x y ⇓ is_int (Z.land (ival x) (ival y)).
Proof.
  intros Hx Hy. unfold And. destruct (neg x) eqn:Ex, (neg y) eqn:Ey; cbn [eqb].
  - pred_step x. pred_step y. nat_step. done_neg. by rewrite E, E0, and_neg_neg in HR.
  - pred_step x. nat_step. done_nonneg. by rewrite E, (proj1 (ival_pos y Hy Ey)), and_pos_neg, Z.land_comm in H1.
  - pred_step y. nat_step. done_nonneg. by rewrite E, (proj1 (ival_pos x Hx Ex)), and_pos_neg in H1.
  - nat_step. done_nonneg. by rewrite (proj1 (ival_pos x Hx Ex)), (proj1 (ival_pos y Hy Ey)) in H0.
Qed.

Lemma AndNot_spec z x y : int_ok x -> int_ok y -> AndNot z x y ⇓ is_int (Z.ldiff (ival x) (ival y)).
Proof.
  intros Hx Hy. unfold AndNot. destruct (neg x) eqn:Ex, (neg y) eqn:Ey; cbn [eqb].
  - pred_step x. pred_step y. nat_step. done_nonneg. by rewrite E, E0, andnot_neg_neg in H2.
  - pred_step x. nat_step. done_neg. by rewrite E, (proj1 (ival_pos y Hy Ey)), andnot_neg_pos in HR.
  - pred_step y. nat_step. done_nonneg. by rewrite E, (proj1 (ival_pos x Hx Ex)), <- Z.ldiff_land in H1.
  - nat_step. done_nonneg. by rewrite (proj1 (ival_pos x Hx Ex)), (proj1 (ival_pos y Hy Ey)) in H0.
Qed.

Lemma Or_spec z x y : int_ok x -> int_ok y -> Or z x y ⇓ is_int (Z.lor (ival x) (ival y)).
Proof.
  intros Hx Hy. unfold Or. destruct (neg x) eqn:Ex, (neg y) eqn:Ey; cbn [eqb].
  - pred_step x. pred_step y. nat_step. done_neg. by rewrite E, E0, or_neg_neg in HR.
  - pred_step x. nat_step. done_neg. by rewrite E, (proj1 (ival_pos y Hy Ey)), or_pos_neg, Z.lor_comm in HR.
  - pred_step y. nat_step. done_neg. by rewrite E, (proj1 (ival_pos x Hx Ex)), or_pos_neg in HR.
  - nat_step. done_nonneg. by rewrite (proj1 (ival_pos x Hx Ex)), (proj1 (ival_pos y Hy Ey)) in H0.
Qed.

Lemma Xor_spec z x y : int_ok x -> int_ok y -> Xor z x y ⇓ is_int (Z.lxor (ival x) (ival y)).
Proof.
  intros Hx Hy. unfold Xor. destruct (neg x) eqn:Ex, (neg y) eqn:Ey; cbn [eqb].
  - pred_step x. pred_step y. nat_step. done_nonneg. by rewrite E, E0, xor_neg_neg in H2.
  - pred_step x. nat_step. done_neg. by rewrite E, (proj1 (ival_pos y Hy Ey)), xor_pos_neg, Z.lxor_comm in HR.
  - pred_step y. nat_step. done_neg. by rewrite E, (proj1 (ival_pos x Hx Ex)), xor_pos_neg in HR.
  - nat_step. done_nonneg. by rewrite (proj1 (ival_pos x Hx Ex)), (proj1 (ival_pos y Hy Ey)) in H0.
Qed.

(** ** Shifts and single bits *)

Lemma IntLsh_spec z x n : int_ok x -> 0 <= n -> IntLsh z x n ⇓ is_int (Z.shiftl (ival x) n).
Proof.
  intros Hx Hn. unfold IntLsh. eapply returns_bind_mono; [apply lsh_spec; [apply Hx|done]|]. intros a [Ea Ha]. cbn [returns].
  rewrite shiftl_mul by done. assert (0 < 2 ^ n) by lia. destruct (neg x) eqn:E.
  - destruct (ival_neg x Hx E) as [Ev Hv]. replace (ival x * 2 ^ n) with (- nval a) by (rewrite Ea, Ev; lia). apply is_int_neg; [done|nia].
  - destruct (ival_pos x Hx E) as [Ev Hv]. rewrite <- Ev, <- Ea. by apply is_int_nonneg.
Qed.

Lemma IntRsh_spec z x n : int_ok x -> 0 <= n -> IntRsh z x n ⇓ is_int (Z.shiftr (ival x) n).
Proof.
  intros Hx Hn. unfold IntRsh. destruct (neg x) eqn:E.
  - pred_step x. eapply returns_bind_mono; [by apply rsh_spec|]. intros t [Et Ht].
    eapply returns_mono; [by apply succ_spec|]. intros r Hr. rewrite Et, E0, <- shiftr_div in Hr by done.
    rewrite <- (Z.lnot_involutive (ival x)). by rewrite Z.lnot_shiftr in Hr by done.
  - eapply returns_bind_mono; [apply rsh_spec; [apply Hx|done]|]. intros a [Ea Ha]. cbn [returns].
    rewrite shiftr_div by done. rewrite <- (proj1 (ival_pos x Hx E)), <- Ea. by apply is_int_nonneg.
Qed.

Lemma bit0_parity w : Z.land w 1 = Z.b2z (Z.odd w).
Proof. rewrite (land_ones' w 1) by done. change (2 ^ 1) with 2. rewrite Zmod_odd. by destruct (Z.odd w). Qed.

Lemma odd_low_word w l : Z.odd (nval (w :: l)) = Z.odd w.
Proof.
  rewrite nval_cons. rewrite Z.odd_add, Z.odd_mul.
  assert (Z.odd (2 ^ _W) = false) as -> by (destruct _W_ok as [-> | ->]; done). by destruct (Z.odd w).
Qed.

Lemma IntBit_spec x i : int_ok x -> 
  if i <? 0 then IntBit x i = Panic else IntBit x i = Ok (Z.b2z (Z.testbit (ival x) i)).
Proof.
  intros Hx. unfold IntBit. destruct (Z.eqb_spec i 0) as [->|Hi].
  { cbn [Z.ltb Z.compare]. destruct (abs x) as [|w l] eqn:Ea.
    - assert (ival x = 0) as -> by (unfold ival; rewrite Ea; by destruct (neg x)). done.
    - rewrite (proj2 (Z.gtb_lt _ _)) by len_lia. change (idx (w :: l) 0) with (Ok w). cbn [rbind]. f_equal.
      rewrite bit0_parity, Z.bit0_odd. f_equal. unfold ival. rewrite Ea.
      rewrite <- (odd_low_word w l). destruct (neg x); [by rewrite Z.odd_opp|done]. }
  destruct (Z.ltb_spec i 0) as [Hneg|Hpos]; [done|]. destruct (neg x) eqn:E.
  - destruct (returns_inv _ _ (pred_spec [] x Hx E)) as (t & -> & Et & Ht). cbn [rbind].
    rewrite bit_spec by (apply Ht || lia). cbn [rbind]. rewrite Et, Z.lnot_spec by lia. by destruct (Z.testbit (ival x) i).
  - rewrite bit_spec by (apply Hx || lia). by rewrite (proj1 (ival_pos x Hx E)).
Qed.

Lemma setbit_lnot a i : 0 <= i -> Z.lnot (Z.setbit (Z.lnot a) i) = Z.clearbit a i.
Proof. intros. unfold Z.setbit, Z.clearbit. by rewrite Z.lnot_lor, Z.lnot_involutive, Z.ldiff_land. Qed.
Lemma clearbit_lnot a i : 0 <= i -> Z.lnot (Z.clearbit (Z.lnot a) i) = Z.setbit a i.
Proof. intros. unfold Z.setbit, Z.clearbit. by rewrite Z.ldiff_land, Z.lnot_land, !Z.lnot_involutive. Qed.

Lemma succ_sign z t : is_nat t -> (let! a := nadd z t natOne in Ok (mkInt (len a >? 0) a)) ⇓ is_int (Z.lnot (nval t)).
Proof.
  intros Ht. pose proof (succ_spec z t Ht) as S. destruct is_nat_one as [H1 V1]. pose proof (nval_nonneg t Ht).
  destruct (returns_inv _ _ (nadd_spec z t natOne Ht H1)) as (a & Ea & Ev & Ha). rewrite Ea in *. cbn [rbind returns] in *.
  rewrite nonzero_nat by done. rewrite (proj2 (Z.eqb_neq _ _)) by lia. done.
Qed.

Lemma IntSetBit_spec z x i b : int_ok x ->
  if (i <? 0) || negb ((b =? 0) || (b =? 1)) then IntSetBit z x i b = Panic
  else IntSetBit z x i b ⇓ is_int (if b =? 0 then Z.clearbit (ival x) i else Z.setbit (ival x) i).
Proof.
  intros Hx. unfold IntSetBit. destruct (Z.ltb_spec i 0) as [Hneg|Hpos]; [done|]. cbn [orb]. destruct (neg x) eqn:E.
  - destruct (returns_inv _ _ (pred_spec z x Hx E)) as (t & -> & Et & Ht). cbn [rbind].
    pose proof (setBit_spec t t i (Z.lxor b 1) Ht Hpos) as S. rewrite Et in S. destruct (Z.eqb_spec b 0) as [->|H0]; [|destruct (Z.eqb_spec b 1) as [->|H1]]; cbn [orb negb].
    + change (Z.lxor 0 1) with 1 in *. cbn [Z.eqb] in S. eapply returns_bind_mono; [exact S|]. intros u [Eu Hu].
      eapply returns_mono; [by apply succ_sign|]. intros r Hr. by rewrite Eu, setbit_lnot in Hr.
    + change (Z.lxor 1 1) with 0 in *. cbn [Z.eqb] in S. eapply returns_bind_mono; [exact S|]. intros u [Eu Hu].
      eapply returns_mono; [by apply succ_sign|]. intros r Hr. by rewrite Eu, clearbit_lnot in Hr.
    + assert (Z.lxor b 1 <> 0) by (intros Ex; apply Z.lxor_eq in Ex; lia).
      assert (Z.lxor b 1 <> 1) by (intros Ex; apply (f_equal (fun v => Z.lxor v 1)) in Ex; rewrite Z.lxor_assoc, Z.lxor_nilpotent, Z.lxor_0_r in Ex; done).
      rewrite (proj2 (Z.eqb_neq (Z.lxor b 1) 0)), (proj2 (Z.eqb_neq (Z.lxor b 1) 1)) in S by done. by rewrite S.
  - pose proof (setBit_spec z (abs x) i b (proj1 Hx) Hpos) as S. rewrite (proj1 (ival_pos x Hx E)) in S.
    destruct (Z.eqb_spec b 0) as [->|H0]; [|destruct (Z.eqb_spec b 1) as [->|H1]]; cbn [orb negb].
    1,2: eapply returns_bind_mono; [exact S|]; intros a [<- Ha]; by apply is_int_nonneg.
    by rewrite S.
Qed.

(** ** Products and quotients *)

Section Scratch.
Context (scratch : Z -> list Z) (Hscratch : forall n, 0 <= n -> len (scratch n) = n).

Lemma imul_spec same z x y : int_ok x -> int_ok y -> (same = true -> x = y) ->
  imul scratch same z x y ⇓ is_int (ival x * ival y).
Proof.
  intros Hx Hy Hs. unfold imul. destruct same.
  - rewrite <- (Hs eq_refl). unfold IntSqr. eapply returns_bind_mono; [apply nsqr_spec, Hx|]. intros a [Ea Ha]. cbn [returns].
    replace (ival x * ival x) with (nval a) by (rewrite Ea, ival_abs by done; lia). by apply is_int_nonneg.
  - unfold IntMul. eapply returns_bind_mono; [apply nmul_spec; [apply Hx|apply Hy]|]. intros a [Ea Ha]. cbn [returns].
    pose proof (is_int_sign a (negb (eqb (neg x) (neg y))) Ha) as R. rewrite Ea in R. unfold ival.
    destruct (neg x), (neg y); cbn [eqb negb] in R |- *; (rewrite ?Z.mul_opp_opp, ?Z.mul_opp_l, ?Z.mul_opp_r; exact R).
Qed.

(** The quotient and the remainder of the absolute values, with their signs. *)
Lemma signed_division x y q r : int_ok x -> int_ok y -> ival y <> 0 ->
  nval q = nval (abs x) / nval (abs y) -> nval r = nval (abs x) mod nval (abs y) -> is_nat q -> is_nat r ->
  is_int (Z.quot (ival x) (ival y)) (mkInt ((len q >? 0) && negb (eqb (neg x) (neg y))) q) /\
  is_int (Z.rem (ival x) (ival y)) (mkInt ((len r >? 0) && neg x) r).
Proof.
  intros Hx Hy H0 Eq Er Hq Hr. pose proof (is_int_sign q (negb (eqb (neg x) (neg y))) Hq) as Q. pose proof (is_int_sign r (neg x) Hr) as R.
  rewrite Eq in Q. rewrite Er in R. pose proof (nval_nonneg _ (proj1 Hx)). pose proof (nval_nonneg _ (proj1 Hy)).
  assert (nval (abs y) <> 0) by (by rewrite <- ival_zero). unfold ival. rewrite <- Z.quot_div_nonneg in Q by lia. rewrite <- Z.rem_mod_nonneg in R by lia.
  destruct (neg x), (neg y); cbn [eqb negb] in *; rewrite ?Z.quot_opp_opp, ?Z.quot_opp_l, ?Z.quot_opp_r, ?Z.rem_opp_opp, ?Z.rem_opp_l, ?Z.rem_opp_r by done; done.
Qed.

Lemma QuoRem_spec z r x y : int_ok x -> int_ok y ->
  if ival y =? 0 then QuoRem scratch z r x y = Panic
  else QuoRem scratch z r x y ⇓ (fun '(q, m) => is_int (Z.quot (ival x) (ival y)) q /\ is_int (Z.rem (ival x) (ival y)) m).
Proof.
  intros Hx Hy. unfold QuoRem. pose proof (ndiv_spec scratch Hscratch z r (abs x) (abs y) (proj1 Hx) (proj1 Hy)) as D.
  destruct (Z.eqb_spec (ival y) 0) as [E|E].
  - apply ival_zero in E; [|done]. rewrite E in D. cbn [Z.eqb] in D. by rewrite D.
  - rewrite (proj2 (Z.eqb_neq _ _)) in D by (by rewrite <- ival_zero). eapply returns_bind_mono; [exact D|].
    intros [q m] (Eq & Er & Hq & Hr). by apply signed_division.
Qed.

Lemma Quo_spec z x y : int_ok x -> int_ok y ->
  if ival y =? 0 then Quo scratch z x y = Panic else Quo scratch z x y ⇓ is_int (Z.quot (ival x) (ival y)).
Proof.
  intros Hx Hy. pose proof (QuoRem_spec z [] x y Hx Hy) as D. unfold Quo, QuoRem in *.
  destruct (ndiv scratch z [] (abs x) (abs y)) as [[q r]| |]; destruct (ival y =? 0); try done. apply D.
Qed.

Lemma IntRem_spec z x y : int_ok x -> int_ok y ->
  if ival y =? 0 then IntRem scratch z x y = Panic else IntRem scratch z x y ⇓ is_int (Z.rem (ival x) (ival y)).
Proof.
  intros Hx Hy. pose proof (QuoRem_spec [] z x y Hx Hy) as D. unfold IntRem, QuoRem in *.
  destruct (ndiv scratch [] z (abs x) (abs y)) as [[q r]| |]; destruct (ival y =? 0); try done. apply D.
Qed.

(** Euclidean quotient and modulus: [x = y * q + m] with [0 <= m < |y|]. *)
Definition euclid (x y q m : Z) : Prop := x = y * q + m /\ 0 <= m < Z.abs y.

Lemma neg_sign v m : is_int v m -> neg m = (v <? 0).
Proof.
  intros [<- Hm]. destruct (neg m) eqn:E; symmetry.
  - apply Z.ltb_lt. by apply (ival_neg m Hm E).
  - apply Z.ltb_ge. by apply (ival_pos m Hm E).
Qed.

(** The truncated remainder, corrected when it is negative. *)
Lemma euclid_step x y : y <> 0 ->
  if Z.rem x y <? 0 then
    if y <? 0 then euclid x y (Z.quot x y + 1) (Z.rem x y - y) else euclid x y (Z.quot x y - 1) (Z.rem x y + y)
  else euclid x y (Z.quot x y) (Z.rem x y).
Proof.
  intros Hy. unfold euclid. pose proof (Z.quot_rem x y Hy). pose proof (Z.rem_bound_abs x y Hy).
  destruct (Z.ltb_spec (Z.rem x y) 0), (Z.ltb_spec y 0); lia.
Qed.

Lemma DivMod_spec z m x y : int_ok x -> int_ok y ->
  if ival y =? 0 then DivMod scratch z m x y = Panic
  else DivMod scratch z m x y ⇓ (fun '(q, m) => euclid (ival x) (ival y) (ival q) (ival m) /\ int_ok q /\ int_ok m).
Proof.
  intros Hx Hy. unfold DivMod. pose proof (QuoRem_spec z m x y Hx Hy) as D. pose proof (euclid_step (ival x) (ival y)) as S.
  destruct (Z.eqb_spec (ival y) 0) as [E|E]; [by rewrite D|]. specialize (S E). destruct intOne_ok as [V1 H1].
  eapply returns_bind_mono; [exact D|]. intros [q r] [Hq Hr]. cbn beta iota. rewrite (neg_sign _ _ Hr).
  assert (Ny : neg y = (ival y <? 0)) by (by apply neg_sign). rewrite Ny. destruct Hq as [Eq Hq], Hr as [Er Hr]. rewrite <- Eq, <- Er in *.
  destruct (ival r <? 0); [|by split]. destruct (ival y <? 0).
  - eapply returns_bind_mono; [apply IntAdd_spec; [apply Hq|apply H1]|]. intros q' [Eq' Hq'].
    eapply returns_bind_mono; [apply IntSub_spec; [apply Hr|apply Hy]|]. intros r' [Er' Hr']. cbn [returns]. rewrite Eq', Er', V1. by split.
  - eapply returns_bind_mono; [apply IntSub_spec; [apply Hq|apply H1]|]. intros q' [Eq' Hq'].
    eapply returns_bind_mono; [apply IntAdd_spec; [apply Hr|apply Hy]|]. intros r' [Er' Hr']. cbn [returns]. rewrite Eq', Er', V1. by split.
Qed.

Lemma IntDiv_spec z x y : int_ok x -> int_ok y ->
  if ival y =? 0 then IntDiv scratch z x y = Panic
  else IntDiv scratch z x y ⇓ (fun q => exists m, euclid (ival x) (ival y) (ival q) m /\ int_ok q).
Proof.
  intros Hx Hy. unfold IntDiv. pose proof (QuoRem_spec z [] x y Hx Hy) as D. pose proof (euclid_step (ival x) (ival y)) as S.
  destruct (Z.eqb_spec (ival y) 0) as [E|E]; [by rewrite D|]. specialize (S E). destruct intOne_ok as [V1 H1].
  eapply returns_bind_mono; [exact D|]. intros [q r] [Hq Hr]. cbn beta iota. rewrite (neg_sign _ _ Hr).
  assert (Ny : neg y = (ival y <? 0)) by (by apply neg_sign). rewrite Ny. destruct Hq as [Eq Hq]. rewrite <- Eq in *.
  destruct (Z.rem _ _ <? 0); [|by eexists]. destruct (ival y <? 0).
  - eapply returns_mono; [apply IntAdd_spec; [apply Hq|apply H1]|]. intros q' [Eq' Hq']. rewrite Eq', V1. by eexists.
  - eapply returns_mono; [apply IntSub_spec; [apply Hq|apply H1]|]. intros q' [Eq' Hq']. rewrite Eq', V1. by eexists.
Qed.

Lemma IntMod_spec z x y : int_ok x -> int_ok y ->
  if ival y =? 0 then IntMod scratch z x y = Panic
  else IntMod scratch z x y ⇓ (fun m => exists q, euclid (ival x) (ival y) q (ival m) /\ int_ok m).
Proof.
  intros Hx Hy. unfold IntMod. pose proof (QuoRem_spec [] z x y Hx Hy) as D. pose proof (euclid_step (ival x) (ival y)) as S.
  destruct (Z.eqb_spec (ival y) 0) as [E|E]; [by rewrite D|]. specialize (S E).
  eapply returns_bind_mono; [exact D|]. intros [q r] [_ Hr]. cbn beta iota. rewrite (neg_sign _ _ Hr).
  assert (Ny : neg y = (ival y <? 0)) by (by apply neg_sign). rewrite Ny. destruct Hr as [Er Hr]. rewrite <- Er in *.
  destruct (ival r <? 0); [|by eexists]. destruct (ival y <? 0).
  - eapply returns_mono; [apply IntSub_spec; [apply Hr|apply Hy]|]. intros r' [Er' Hr']. rewrite Er'. by eexists.
  - eapply returns_mono; [apply IntAdd_spec; [apply Hr|apply Hy]|]. intros r' [Er' Hr']. rewrite Er'. by eexists.
Qed.

Lemma IntSqrt_spec z x : int_ok x ->
  if ival x <? 0 then IntSqrt scratch z x = Panic else IntSqrt scratch z x ⇓ is_int (Z.sqrt (ival x)).
Proof.
  intros Hx. unfold IntSqrt. rewrite (neg_sign (ival x) x) by done. destruct (Z.ltb_spec (ival x) 0) as [H|H]; [done|].
  assert (E : neg x = false) by (rewrite (neg_sign (ival x) x) by done; by apply Z.ltb_ge).
  eapply returns_bind_mono; [apply nsqrt_spec; [done|apply Hx]|]. intros a [Ea Ha]. cbn [returns].
  rewrite <- (proj1 (ival_pos x Hx E)), <- Ea. by apply is_int_nonneg.
Qed.
End Scratch.

(** ** Bytes *)

Lemma IntBytes_spec x : int_ok x ->
  IntBytes x ⇓ (fun b => beval b = Z.abs (ival x) /\ bytes_ok b /\ forall d, b !! 0%nat = Some d -> d <> 0).
Proof.
  intros Hx. unfold IntBytes. destruct S_words as [ES HS]. pose proof (len_nonneg (abs x)).
  pose proof (nbytes_spec (abs x) (len (abs x) * _S) (proj1 (proj1 Hx)) ltac:(apply Z.mul_nonneg_nonneg; lia)) as N.
  rewrite (proj2 (Z.ltb_lt _ _)) in N.
  2: { replace (8 * (len (abs x) * _S)) with (_W * len (abs x)) by lia. by apply nval_bound, Hx. }
  eapply returns_bind_mono; [exact N|]. intros [buf i] (Lb & Hb & Ev & Hi & Ht & Hnz). cbn beta iota.
  rewrite slice_Ok by lia. cbn [returns].
  rewrite take_ge by (rewrite length_drop; unfold len in *; lia). rewrite <- ival_abs, <- Ev by done.
  split; [|split].
  - rewrite <- (take_drop (Z.to_nat i) buf) at 2. rewrite beval_app, Ht, beval_zeros. lia.
  - by apply Forall_drop.
  - intros d. rewrite lookup_drop, Nat.add_0_r. apply Hnz.
Qed.

Lemma FillBytes_spec x buf : int_ok x ->
  if Z.abs (ival x) <? 2 ^ (8 * len buf) then
    FillBytes x buf ⇓ (fun b => beval b = Z.abs (ival x) /\ bytes_ok b /\ len b = len buf)
  else FillBytes x buf = Panic.
Proof.
  intros Hx. unfold FillBytes. pose proof (nbytes_spec (abs x) (len buf) (proj1 (proj1 Hx)) (len_nonneg buf)) as N.
  rewrite <- ival_abs by done. destruct (nval (abs x) <? 2 ^ (8 * len buf)); [|by rewrite N].
  eapply returns_bind_mono; [exact N|]. intros [b i] (Lb & Hb & Ev & _). done.
Qed.

Lemma SetBytes_spec beWord z buf :
  (forall b, bytes_ok b -> len b = _S -> beWord b = beval b) -> bytes_ok buf -> SetBytes beWord z buf ⇓ is_int (beval buf).
Proof.
  intros Hbe Hb. unfold SetBytes. eapply returns_bind_mono; [by apply setBytes_spec|]. intros a [<- Ha]. by apply is_int_nonneg.
Qed.

(** ** Products of ranges and binomial coefficients *)

Lemma prodFrom_opp n : forall a, prodFrom a n = (if Nat.even n then 1 else -1) * prodFrom (- (a + Z.of_nat n - 1)) n.
Proof.
  induction n as [|n IH]; intros a; [done|]. cbn [prodFrom]. rewrite IH.
  replace (S n) with (n + 1)%nat by lia. change (- (a + Z.of_nat (n + 1) - 1) * prodFrom (- (a + Z.of_nat (n + 1) - 1) + 1) n)
    with (prodFrom (- (a + Z.of_nat (n + 1) - 1)) (S n)). replace (S n) with (n + 1)%nat by lia. rewrite prodFrom_add. cbn [prodFrom].
  replace (- (a + Z.of_nat (n + 1) - 1)) with (- (a + 1 + Z.of_nat n - 1)) by lia.
  set (q := prodFrom (- (a + 1 + Z.of_nat n - 1)) n). rewrite Nat.even_add. change (Nat.even 1) with false.
  destruct (Nat.even n); cbn [Bool.eqb]; nia.
Qed.

Lemma prodRange_opp a b : a <= b -> prodRange a b = (if Z.even (b - a) then -1 else 1) * prodRange (- b) (- a).
Proof.
  intros H. unfold prodRange. rewrite prodFrom_opp. replace (- a - - b + 1) with (b - a + 1) by lia.
  replace (- (a + Z.of_nat (Z.to_nat (b - a + 1)) - 1)) with (- b) by lia. f_equal.
  replace (Z.to_nat (b - a + 1)) with (S (Z.to_nat (b - a))) by lia. rewrite Nat.even_succ, <- Nat.negb_even.
  replace (Nat.even (Z.to_nat (b - a))) with (Z.even (b - a)); [by destruct (Z.even (b - a))|].
  destruct (Z.even (b - a)) eqn:E; symmetry.
  - apply Z.even_spec in E as [m E]. apply Nat.even_spec. exists (Z.to_nat m). lia.
  - rewrite <- Z.negb_odd in E. apply negb_false_iff, Z.odd_spec in E as [m E]. rewrite <- Nat.negb_odd. apply negb_false_iff, Nat.odd_spec. exists (Z.to_nat m). lia.
Qed.

Lemma prodRange_pos a b : 0 < a -> 0 < prodRange a b.
Proof.
  unfold prodRange. generalize (Z.to_nat (b - a + 1)) as n. intros n. revert a. induction n as [|n IH]; intros a Ha; cbn [prodFrom]; [lia|].
  specialize (IH (a + 1) ltac:(lia)). nia.
Qed.

Lemma prodRange_has_zero a b : a <= 0 <= b -> prodRange a b = 0.
Proof.
  intros H. destruct (Z.eq_dec a 0) as [->|]; [apply prodRange_zero; lia|]. rewrite (prodRange_split a (-1) b) by lia.
  replace (-1 + 1) with 0 by lia. rewrite prodRange_zero; lia.
Qed.

Lemma MulRange_spec scratch z a b : - 2 ^ 63 <= a < 2 ^ 63 -> - 2 ^ 63 <= b < 2 ^ 63 ->
  MulRange scratch z a b ⇓ is_int (prodRange a b).
Proof.
  intros Ha Hb. unfold MulRange. destruct (Z.gtb_spec a b) as [Hgt|Hle].
  { unfold prodRange. replace (Z.to_nat (b - a + 1)) with 0%nat by lia. cbn [prodFrom]. apply SetInt64_spec. lia. }
  destruct (Z.leb_spec a 0) as [Ha0|Ha0], (Z.geb_spec b 0) as [Hb0|Hb0]; cbn [andb].
  { rewrite prodRange_has_zero by lia. apply SetInt64_spec. lia. }
  2,3: rewrite (proj2 (Z.ltb_ge a 0)) by lia; rewrite !u64_id by lia;
    eapply returns_bind_mono; [apply mulRange_spec; lia|]; intros r [<- Hr]; by apply is_int_nonneg.
  rewrite (proj2 (Z.ltb_lt a 0)) by lia. rewrite (i64_id (b - a)), !u64_opp by lia.
  eapply returns_bind_mono; [apply mulRange_spec; lia|]. intros r [Er Hr]. cbn [returns].
  pose proof (prodRange_pos (- b) (- a) ltac:(lia)) as Hp. rewrite (prodRange_opp a b) by lia.
  rewrite bit0_parity, <- Z.negb_even. rewrite <- Er in *. destruct (Z.even (b - a)); cbn [negb Z.b2z Z.eqb].
  - replace (-1 * nval r) with (- nval r) by lia. apply is_int_neg; [done|lia].
  - rewrite Z.mul_1_l. by apply is_int_nonneg.
Qed.

(** Pascal's triangle. *)
Fixpoint binom (n k : nat) : Z :=
  match n, k with
  | _, O => 1
  | O, S _ => 0
  | S n, S k => binom n k + binom n (S k)
  end.

Lemma binom_0 n : binom n 0 = 1.
Proof. by destruct n. Qed.

Lemma binom_above n k : (n < k)%nat -> binom n k = 0.
Proof. revert k. induction n as [|n IH]; intros [|k] H; try lia; [done|]. cbn [binom]. rewrite !IH; lia. Qed.

Lemma binom_absorb n : forall k, Z.of_nat (S k) * binom n (S k) = (Z.of_nat n - Z.of_nat k) * binom n k.
Proof.
  induction n as [|n IH]; intros k; [destruct k; cbn [binom]; lia|]. cbn [binom]. destruct k as [|k].
  - specialize (IH 0%nat). rewrite binom_0 in *. lia.
  - pose proof (IH k) as I1. pose proof (IH (S k)) as I2. cbn [binom]. lia.
Qed.

Lemma binom_sym n : forall k, (k <= n)%nat -> binom n k = binom n (n - k).
Proof.
  induction n as [|n IH]; intros [|k] H; try lia; [done| |].
  - rewrite Nat.sub_0_r. cbn [binom]. rewrite (binom_above n (S n)) by lia. rewrite (IH n), Nat.sub_diag, binom_0 by lia. lia.
  - cbn [Nat.sub]. destruct (decide (k = n)) as [->|].
    + rewrite Nat.sub_diag. cbn [binom]. rewrite (binom_above n (S n)), (IH n), Nat.sub_diag, binom_0 by lia. lia.
    + replace (n - k)%nat with (S (n - S k)) by lia. cbn [binom]. replace (S (n - S k)) with (n - k)%nat by lia.
      rewrite <- (IH k), <- (IH (S k)) by lia. lia.
Qed.

Section Binomial.
Context (scratch : Z -> list Z) (Hscratch : forall n, 0 <= n -> len (scratch n) = n).

(** One round: from the coefficient at [i] to the one at [i + 1]. *)
Lemma binomial_round N n z i t : is_int (Z.of_nat n) N -> is_int (binom n i) z -> is_int (Z.of_nat i) t -> forall zt,
  (let! zt := IntSub zt N t in
   let! z := imul scratch false (abs z) z zt in
   let! t := IntAdd (abs t) t intOne in
   let! z := Quo scratch (abs z) z t in
   Ok (z, t, abs zt)) ⇓ (fun '(z, t, _) => is_int (binom n (S i)) z /\ is_int (Z.of_nat (S i)) t).
Proof.
  intros [En HN] [Ez Hz] [Et Ht] zt. destruct intOne_ok as [E1 H1].
  eapply returns_bind_mono; [apply IntSub_spec; [apply HN|apply Ht]|]. intros u [Eu Hu].
  eapply returns_bind_mono; [by apply imul_spec|]. intros p [Ep Hp].
  eapply returns_bind_mono; [apply IntAdd_spec; [apply Ht|apply H1]|]. intros t' [Et' Ht'].
  pose proof (Quo_spec scratch Hscratch (abs p) p t' Hp Ht') as Q. rewrite Et', Et, E1 in Q. rewrite (proj2 (Z.eqb_neq _ 0)) in Q by lia.
  eapply returns_bind_mono; [exact Q|]. intros q [Eq Hq]. cbn [returns]. split; split; [|done| |done].
  - rewrite Eq, Ep, Ez, Eu, En, Et. rewrite (Z.mul_comm (binom n i)), <- binom_absorb.
    replace (Z.of_nat i + 1) with (Z.of_nat (S i)) by lia. rewrite Z.mul_comm, Z.quot_mul; lia.
  - rewrite Et', Et, E1. lia.
Qed.

Lemma Binomial_loop z n k : 0 <= k <= n -> n < 2 ^ 63 ->
  (let! N := SetInt64 [] n in
  let! K := SetInt64 [] k in
  let z := IntSet z intOne in
  loop (Z.to_nat k + 1)
    (fun '(z, i, t) =>
       let! c := IntCmp false i K in
       if c <? 0 then
         let! t := IntSub t N i in
         let! z := imul scratch false (abs z) z t in
         let! i := IntAdd (abs i) i intOne in
         let! z := Quo scratch (abs z) z i in
         Ok (inl (z, i, abs t))
       else Ok (inr z)) (z, mkInt false [], [])) ⇓ is_int (binom (Z.to_nat n) (Z.to_nat k)).
Proof.
  intros Hk Hn. eapply returns_bind_mono; [apply SetInt64_spec; lia|]. intros N HN. eapply returns_bind_mono; [apply SetInt64_spec; lia|]. intros K [EK HK].
  cbv zeta. apply (loop_returns (fun '(z, t, _) => exists i, is_int (binom (Z.to_nat n) i) z /\ is_int (Z.of_nat i) t /\ Z.of_nat i <= k) (fun '(_, t, _) => k - ival t)).
  - intros [[z' t] zt] (i & Hz & [Et Ht] & Hi). rewrite IntCmp_spec by done. cbn [rbind]. rewrite EK, Et. unfold sign.
    destruct (Z.ltb_spec (Z.of_nat i) k) as [Hlt|Hge].
    + change (-1 <? 0) with true. cbn iota. rewrite <- (Z2Nat.id n) in HN by lia.
      pose proof (binomial_round N (Z.to_nat n) z' i t HN Hz (conj Et Ht) zt) as R.
      destruct (IntSub zt N t) as [u| |]; [|done..]. cbn [rbind] in R |- *. destruct (imul scratch false (abs z') z' u) as [p| |]; [|done..]. cbn [rbind] in R |- *.
      destruct (IntAdd (abs t) t intOne) as [t'| |]; [|done..]. cbn [rbind] in R |- *. destruct (Quo scratch (abs p) p t') as [q| |]; [|done..]. cbn [rbind returns] in R |- *.
      destruct R as [Hq Ht']. split; [exists (S i); split; [done|]; split; [done|lia]|]. rewrite (proj1 Ht'). lia.
    + assert (i = Z.to_nat k) as -> by lia. rewrite Z.gtb_ltb, (proj2 (Z.ltb_ge k _)) by lia. done.
  - exists 0%nat. rewrite binom_0. split; [|split; [apply (is_int_nonneg []), is_nat_nil|lia]].
    destruct intOne_ok as [E1 H1]. pose proof (IntSet_spec z intOne H1) as S. by rewrite E1 in S.
  - unfold ival. cbn [neg abs val]. lia.
  - unfold ival. cbn [neg abs val]. lia.
Qed.

Lemma Binomial_spec z n k : 0 <= n < 2 ^ 63 -> 0 <= k < 2 ^ 63 ->
  Binomial scratch z n k ⇓ is_int (binom (Z.to_nat n) (Z.to_nat k)).
Proof.
  intros Hn Hk. unfold Binomial. destruct (Z.gtb_spec k n) as [Hgt|Hle].
  { rewrite binom_above by lia. apply SetInt64_spec. lia. }
  rewrite i64_id by lia. destruct (Z.gtb_spec k (n - k)) as [Hg|Hg]; [|apply Binomial_loop; lia].
  rewrite binom_sym by lia. replace (Z.to_nat n - Z.to_nat k)%nat with (Z.to_nat (n - k)) by lia. apply Binomial_loop; lia.
Qed.
End Binomial.
End Correct.
