(* ===== verification/BigIntSpec.v ===== *)
(** * Package math/big: the properties of signed integers

    A program over the methods of Int computes the integers: [eval] runs the
    methods on a tree of operations, [denote] is its meaning on mathematical
    integers, and they agree, panics included.  Below it, the methods one
    by one. *)
From Stdlib Require Import ZArith Lia.
From stdpp Require Import base numbers list.
From S2P Require Import Prelude Bits BigWords BigWordsCorrect BigNat BigNatCorrect BigMul BigMulCorrect BigDivide BigDiv BigDivRec BigSpec BigBits BigNatFuns BigInt BigIntCorrect.

(** ** Programs *)




Section Programs.
Context `{P : Platform} (scratch : Z -> list Z) (st : list Z).







Lemma euclid_unique x y q m : y <> 0 -> euclid x y q m -> q = Z.sgn y * (x / Z.abs y) /\ m = x mod Z.abs y.
Proof.
  intros Hy [E Hm]. assert (Eq : x / Z.abs y = Z.sgn y * q /\ x mod Z.abs y = m).
  { split; symmetry; [apply (Z.div_unique_pos _ _ _ m)|apply (Z.mod_unique_pos _ _ (Z.sgn y * q))]; try done; rewrite E;
      pose proof (Z.sgn_abs y); rewrite Z.mul_assoc, (Z.mul_comm (Z.abs y)), (Z.mul_comm (Z.sgn y)), ?Z.abs_sgn; nia. }
  destruct Eq as [-> ->]. split; [|done]. rewrite Z.mul_assoc, <- Z.sgn_mul, Z.sgn_pos by nia. lia.
Qed.



Context (Hscratch : forall n, 0 <= n -> len (scratch n) = n).




(** QuoRem truncates toward zero, DivMod is Euclidean (the modulus is
    between 0 and the divisor's absolute value), Quo, Rem, Div and Mod agree
    with them, for operands of every sign and size; all six panic exactly
    when the divisor is zero. *)
Theorem Int_division z r x y :
  int_ok x -> int_ok y ->
  if ival y =? 0 then
    Forall (eq Panic) [Quo scratch z x y; IntRem scratch z x y; IntDiv scratch z x y; IntMod scratch z x y] /\
    QuoRem scratch z r x y = Panic /\ DivMod scratch z r x y = Panic
  else
    QuoRem scratch z r x y ⇓ (fun '(q, m) => ival q = Z.quot (ival x) (ival y) /\ ival m = Z.rem (ival x) (ival y) /\
      int_ok q /\ int_ok m /\ Quo scratch z x y = Ok q /\ IntRem scratch z x y = Ok m) /\
    DivMod scratch z r x y ⇓ (fun '(q, m) => ival x = ival y * ival q + ival m /\ 0 <= ival m < Z.abs (ival y) /\
      int_ok q /\ int_ok m /\ IntDiv scratch z x y = Ok q /\ IntMod scratch z x y = Ok m).
Proof.
  intros Hx Hy. pose proof (Quo_spec scratch Hscratch z x y Hx Hy) as Q. pose proof (IntRem_spec scratch Hscratch z x y Hx Hy) as R.
  pose proof (IntDiv_spec scratch Hscratch z x y Hx Hy) as D. pose proof (IntMod_spec scratch Hscratch z x y Hx Hy) as M.
  pose proof (QuoRem_spec scratch Hscratch z r x y Hx Hy) as QR. pose proof (DivMod_spec scratch Hscratch z r x y Hx Hy) as DM.
  destruct (Z.eqb_spec (ival y) 0) as [|Hne].
  { split; [|done]. by repeat constructor. }
  apply returns_inv in Q as (q & -> & Eq & Hq), R as (m & -> & Em & Hm), D as (q' & -> & m1 & Eq' & Hq'), M as (m' & -> & q1 & Em' & Hm').
  split.
  - eapply returns_mono; [exact QR|]. intros [q2 m2] [[E1 H1] [E2 H2]]. split; [done|]. split; [done|]. split; [done|]. split; [done|].
    split; f_equal; apply int_unique; (done || congruence).
  - eapply returns_mono; [exact DM|]. intros [q2 m2] (E & H1 & H2). pose proof E as [E1 E2]. split; [done|]. split; [done|]. split; [done|]. split; [done|].
    apply euclid_unique in E as [U1 U2]; [|done]. apply euclid_unique in Eq' as [U3 _]; [|done]. apply euclid_unique in Em' as [_ U4]; [|done].
    split; f_equal; apply int_unique; (done || congruence).
Qed.

(** And, Or, Xor, AndNot, Not, Lsh, Rsh, Bit and SetBit treat a negative
    number as its infinite two's complement: every bit of the result is the
    operation on the bits of the operands, and Rsh rounds toward minus
    infinity. *)
Theorem Int_twos_complement z x y n b :
  int_ok x -> int_ok y -> 0 <= n ->
  And z x y ⇓ is_int (Z.land (ival x) (ival y)) /\
  Or z x y ⇓ is_int (Z.lor (ival x) (ival y)) /\
  Xor z x y ⇓ is_int (Z.lxor (ival x) (ival y)) /\
  AndNot z x y ⇓ is_int (Z.ldiff (ival x) (ival y)) /\
  Not z x ⇓ is_int (- ival x - 1) /\
  IntLsh z x n ⇓ is_int (ival x * 2 ^ n) /\
  IntRsh z x n ⇓ is_int (ival x / 2 ^ n) /\
  IntBit x n = Ok (Z.b2z (Z.testbit (ival x) n)) /\
  (if (b =? 0) || (b =? 1)
   then IntSetBit z x n b ⇓ is_int (if b =? 0 then Z.clearbit (ival x) n else Z.setbit (ival x) n)
   else IntSetBit z x n b = Panic).
Proof.
  intros Hx Hy Hn. split; [by apply And_spec|]. split; [by apply Or_spec|]. split; [by apply Xor_spec|]. split; [by apply AndNot_spec|].
  split; [replace (- ival x - 1) with (Z.lnot (ival x)) by (unfold Z.lnot; lia); by apply Not_spec|].
  rewrite <- shiftl_mul, <- shiftr_div by done. split; [by apply IntLsh_spec|]. split; [by apply IntRsh_spec|].
  pose proof (IntBit_spec x n Hx) as B1. pose proof (IntSetBit_spec z x n b Hx) as B2. rewrite (proj2 (Z.ltb_ge n 0)) in B1, B2 by lia.
  split; [done|]. cbn [orb] in B2. by destruct ((b =? 0) || (b =? 1)).
Qed.


(** MulRange multiplies the integers from [a] to [b] for every pair of
    int64 values, the smallest included, and Binomial gives the entry of
    Pascal's triangle, every intermediate division being exact. *)
Theorem Int_products z a b n k :
  - 2 ^ 63 <= a < 2 ^ 63 -> - 2 ^ 63 <= b < 2 ^ 63 -> 0 <= n < 2 ^ 63 -> 0 <= k < 2 ^ 63 ->
  MulRange scratch z a b ⇓ is_int (prodRange a b) /\
  Binomial scratch z n k ⇓ is_int (binom (Z.to_nat n) (Z.to_nat k)).
Proof. intros Ha Hb Hn Hk. split; [by apply MulRange_spec|by apply Binomial_spec]. Qed.
End Programs.


(** Bytes gives the shortest big-endian encoding of the absolute value and
    SetBytes reads it back; FillBytes panics exactly when the value does not
    fit in the buffer, and SetBytes reads its result back too. *)
Theorem Int_bytes_roundtrip `{P : Platform} beWord z x buf :
  (forall b, bytes_ok b -> len b = _S -> beWord b = beval b) -> int_ok x ->
  IntBytes x ⇓ (fun b => beval b = Z.abs (ival x) /\ bytes_ok b /\ hd 1 b <> 0 /\ SetBytes beWord z b = Ok (IntAbs z x)) /\
  (if Z.abs (ival x) <? 2 ^ (8 * len buf)
   then FillBytes x buf ⇓ (fun b => len b = len buf /\ SetBytes beWord z b = Ok (IntAbs z x))
   else FillBytes x buf = Panic).
Proof.
  intros Hbe Hx. pose proof (IntAbs_spec z x Hx) as A.
  assert (G : forall b, bytes_ok b -> beval b = Z.abs (ival x) -> SetBytes beWord z b = Ok (IntAbs z x)).
  { intros b Hb Ev. destruct (returns_inv _ _ (SetBytes_spec beWord z b Hbe Hb)) as (r & -> & Er & Hr). f_equal.
    apply int_unique; [done|apply A|]. rewrite Er, Ev. symmetry. apply A. }
  split.
  - eapply returns_mono; [by apply IntBytes_spec|]. intros b (Ev & Hb & Hnz). split; [done|]. split; [done|]. split; [|by apply G].
    destruct b as [|d b]; [done|]. by apply Hnz.
  - pose proof (FillBytes_spec x buf Hx) as F. destruct (Z.abs (ival x) <? 2 ^ (8 * len buf)); [|done].
    eapply returns_mono; [exact F|]. intros b (Ev & Hb & Hl). split; [done|by apply G].
Qed.

(** ** Witnesses *)

Definition intb `{P : Platform} (x : Int) : bool := natb (abs x) && negb (neg x && (len (abs x) =? 0)).
Lemma intb_ok `{P : Platform} x : intb x = true -> int_ok x.
Proof.
  intros [Hn Hz]%andb_true_iff. split; [by apply natb_ok|]. intros E Ea. rewrite E, Ea in Hz. done.
Qed.

(** -5 * 2^100 and -7 *)
Definition m5p100 : Int := mkInt true [0; 5 * 2 ^ 36].
Definition m7 : Int := mkInt true [7].


Lemma Int_division_witness :
  let P := amd64 in
  QuoRem filled [] [] m5p100 m7 ⇓ (fun '(q, m) => ival q = Z.quot (- 5 * 2 ^ 100) (-7) /\ ival m = Z.rem (- 5 * 2 ^ 100) (-7)) /\
  DivMod filled [] [] m5p100 m7 ⇓ (fun '(q, m) => - 5 * 2 ^ 100 = -7 * ival q + ival m /\ 0 <= ival m < 7) /\
  QuoRem filled [] [] m7 (mkInt false []) = Panic.
Proof.
  intros P. assert (Hd : intb m5p100 = true /\ intb m7 = true /\ intb (mkInt false []) = true) by (vm_compute; done). destruct Hd as (H1 & H2 & H3).
  pose proof (Int_division filled len_filled [] [] m5p100 m7 (intb_ok _ H1) (intb_ok _ H2)) as D.
  pose proof (Int_division filled len_filled [] [] m7 (mkInt false []) (intb_ok _ H2) (intb_ok _ H3)) as D0.
  replace (ival m7 =? 0) with false in D by (vm_compute; reflexivity). destruct D as [D1 D2].
  replace (ival (mkInt false []) =? 0) with true in D0 by (vm_compute; reflexivity). destruct D0 as (_ & D0 & _).
  split; [|split; [|exact D0]].
  - eapply returns_mono; [exact D1|]. intros [q m] (Eq & Em & _). split; [exact Eq|exact Em].
  - eapply returns_mono; [exact D2|]. intros [q m] (E & Hm & _). split; [exact E|exact Hm].
Defined.

Lemma Int_twos_complement_witness :
  let P := i386 in
  let x := mkInt true [1; 1] in
  And [] x m7 ⇓ is_int (Z.land (- (2 ^ 32 + 1)) (-7)) /\ IntRsh [] x 1 ⇓ is_int (- 2 ^ 31 - 1) /\ IntBit x 40 = Ok 1.
Proof.
  intros P x. assert (Hd : intb x = true /\ intb m7 = true) by (vm_compute; done). destruct Hd as [H1 H2].
  destruct (Int_twos_complement [] x m7 1 0 (intb_ok _ H1) (intb_ok _ H2) ltac:(lia)) as (A & _ & _ & _ & _ & _ & R & _).
  destruct (Int_twos_complement [] x m7 40 0 (intb_ok _ H1) (intb_ok _ H2) ltac:(lia)) as (_ & _ & _ & _ & _ & _ & _ & B & _).
  split; [exact A|]. split; [exact R|exact B].
Defined.


Lemma Int_products_witness :
  let P := amd64 in
  MulRange filled [] (-7) (-3) ⇓ is_int (-2520) /\ Binomial filled [] 10 7 ⇓ is_int 120 /\ MulRange filled [] (- 2 ^ 63) (- 2 ^ 63) ⇓ is_int (- 2 ^ 63).
Proof.
  intros P. destruct (Int_products filled len_filled [] (-7) (-3) 10 7) as [H1 H2]; [lia..|].
  destruct (Int_products filled len_filled [] (- 2 ^ 63) (- 2 ^ 63) 10 7) as [H3 _]; [lia..|].
  split; [exact H1|]. split; [exact H2|].
  replace (prodRange (- 2 ^ 63) (- 2 ^ 63)) with (- 2 ^ 63) in H3 by (vm_compute; reflexivity). exact H3.
Defined.


Lemma Int_bytes_roundtrip_witness :
  let P := amd64 in
  let x := mkInt true [2 ^ 40 + 1; 3] in
  IntBytes x ⇓ (fun b => SetBytes beval [] b = Ok (IntAbs [] x)) /\ FillBytes x (replicate 4 0) = Panic.
Proof.
  intros P x. assert (Hd : intb x = true) by (vm_compute; done).
  destruct (Int_bytes_roundtrip beval [] x (replicate 4 0) (fun _ _ _ => eq_refl) (intb_ok _ Hd)) as [H1 H2].
  replace (Z.abs (ival x) <? 2 ^ (8 * len (replicate 4 0))) with false in H2 by (vm_compute; reflexivity).
  split; [|exact H2]. eapply returns_mono; [exact H1|]. intros b (_ & _ & _ & E). exact E.
Defined.

(** Outside the range of Pascal's triangle Binomial returns 1 for a negative
    lower index. *)
Example Binomial_negative :
  let P := amd64 in Binomial filled [] 10 (-1) = Ok (mkInt false [1]).
Proof. vm_compute. reflexivity. Qed.
