(* ===== verification/BigGcd.v ===== *)
(** * Package math/big: greatest common divisors (model)

    GCD, its Lehmer loop (lehmerSimulate, lehmerUpdate, mulW, euclidUpdate,
    lehmerGCD) and ModInverse of src/math/big/int.go.  The results [x] and [y]
    that the caller may pass as nil are asked for by [wantX] and [wantY].

    Fuel: a step of Euclid's algorithm, or of its simulation, halves the product
    of the two numbers at least, so a loop has at most as many rounds as
    that product has bits. *)
From Stdlib Require Import ZArith Lia.
From stdpp Require Import base numbers list.
From S2P Require Import Prelude Bits BigWords BigNat BigMul BigDivide BigBits BigNatFuns BigInt.

Section Model.
Context `{P : Platform}.

(** The top words of [A] and [B], aligned. *)
Definition topWords (A B : list Z) : res (Z * Z) :=
  let m := len B in
  let n := len A in
  let! an := idx A (n - 1) in
  let! h := nlz an in
  let! an' := idx A (n - 2) in
  let a1 := Z.lor (word (Z.shiftl an h)) (Z.shiftr an' (_W - h)) in
  let! a2 :=
    if n =? m then
      let! bn := idx B (n - 1) in
      let! bn' := idx B (n - 2) in
      Ok (Z.lor (word (Z.shiftl bn h)) (Z.shiftr bn' (_W - h)))
    else if n =? m + 1 then
      let! bn := idx B (n - 2) in
      Ok (Z.shiftr bn (_W - h))
    else Ok 0 in
  Ok (a1, a2).

(** The variables of the simulation. *)
Record cosequence := mkCo { ca1 : Z; ca2 : Z; cu0 : Z; cu1 : Z; cu2 : Z; cv0 : Z; cv1 : Z; cv2 : Z; ceven : bool }.

Definition simulateStep (s : cosequence) : cosequence + cosequence :=
  let '(mkCo a1 a2 u0 u1 u2 v0 v1 v2 even) := s in
  if (a2 >=? v2) && (word (a1 - a2) >=? word (v1 + v2)) then
    let q := a1 / a2 in
    let r := a1 mod a2 in
    inl (mkCo a2 r u1 u2 (word (u1 + word (q * u2))) v1 v2 (word (v1 + word (q * v2))) (negb even))
  else inr s.

Definition lehmerSimulate (A B : Int) : res cosequence :=
  let! '(a1, a2) := topWords (abs A) (abs B) in
  loop (2 * Z.to_nat _W + 2) (fun s => Ok (simulateStep s)) (mkCo a1 a2 0 1 0 0 0 1 false).

Definition mulW (z : list Z) (x : Int) (ng : bool) (w : Z) : res Int :=
  let! a := mulAddWW z (abs x) w 0 in
  Ok (mkInt (negb (eqb (neg x) ng)) a).

Definition lehmerUpdate (A B q r : Int) (u0 u1 v0 v1 : Z) (even : bool) : res (Int * Int * Int * Int) :=
  let! q := mulW (abs q) B even v0 in
  let! r := mulW (abs r) A even u1 in
  let! A := mulW (abs A) A (negb even) u0 in
  let! B := mulW (abs B) B (negb even) v1 in
  let! A := IntAdd (abs A) A q in
  let! B := IntAdd (abs B) B r in
  Ok (A, B, q, r).

Section Scratch.
Context (scratch : Z -> list Z).

(** The numbers, their cosequences and the temporaries. *)
Record gcdState := mkGcd { gA : Int; gB : Int; gUa : Int; gUb : Int; gq : Int; gr : Int }.

Definition euclidUpdate (extended : bool) (s : gcdState) : res gcdState :=
  let '(mkGcd A B Ua Ub q r) := s in
  let! '(q, r) := QuoRem scratch (abs q) (abs r) A B in
  if extended then
    let! q := imul scratch false (abs q) q Ub in
    let '(Ua, Ub) := (Ub, Ua) in
    let! Ub := IntSub (abs Ub) Ub q in
    Ok (mkGcd B r Ua Ub q A)
  else Ok (mkGcd B r Ua Ub q A).

Definition lehmerStep (extended : bool) (s : gcdState) : res (gcdState + gcdState) :=
  let '(mkGcd A B Ua Ub q r) := s in
  if len (abs B) >? 1 then
    let! c := lehmerSimulate A B in
    if negb (cv0 c =? 0) then
      let! '(A, B, q, r) := lehmerUpdate A B q r (cu0 c) (cu1 c) (cv0 c) (cv1 c) (ceven c) in
      if extended then
        let! '(Ua, Ub, q, r) := lehmerUpdate Ua Ub q r (cu0 c) (cu1 c) (cv0 c) (cv1 c) (ceven c) in
        Ok (inl (mkGcd A B Ua Ub q r))
      else Ok (inl (mkGcd A B Ua Ub q r))
    else
      let! s := euclidUpdate extended s in
      Ok (inl s)
  else Ok (inr s).

(** The loops over single words. *)
Definition wordStep (s : Z * Z * Z * Z * Z * Z * bool) : (Z * Z * Z * Z * Z * Z * bool) + (Z * Z * Z * bool) :=
  let '(a, b, ua, ub, va, vb, even) := s in
  if negb (b =? 0) then
    let q := a / b in
    let r := a mod b in
    inl (b, r, ub, word (ua + word (q * ub)), vb, word (va + word (q * vb)), negb even)
  else inr (a, ua, va, even).

Definition wordGCD (aw bw : Z) : res Z :=
  loop (2 * Z.to_nat _W + 2) (fun '(a, b) => Ok (if negb (b =? 0) then inl (b, a mod b) else inr a)) (aw, bw).

(** The base case: [A] and [B] are single words. *)
Definition wordPhase (extended : bool) (s : gcdState) : res gcdState :=
  let '(mkGcd A B Ua Ub q r) := s in
  let! aWord := idx (abs A) 0 in
  let! bWord := idx (abs B) 0 in
  if extended then
    let! '(aWord, ua, va, even) := loop (2 * Z.to_nat _W + 2) (fun s => Ok (wordStep s)) (aWord, bWord, 1, 0, 0, 1, true) in
    let! Ua := mulW (abs Ua) Ua (negb even) ua in
    let! Ub := mulW (abs Ub) Ub even va in
    let! Ua := IntAdd (abs Ua) Ua Ub in
    let! a := upd (abs A) 0 aWord in
    Ok (mkGcd (mkInt (neg A) a) B Ua Ub q r)
  else
    let! aWord := wordGCD aWord bWord in
    let! a := upd (abs A) 0 aWord in
    Ok (mkGcd (mkInt (neg A) a) B Ua Ub q r).

Definition flipIf (c : bool) (x : Int) : Int := if c then mkInt (negb (neg x)) (abs x) else x.

Definition lehmerGCD (wantX wantY : bool) (z x y : list Z) (a b : Int) : res (Int * Int * Int) :=
  let A := IntAbs [] a in
  let B := IntAbs [] b in
  let extended := wantX || wantY in
  let! '(Ua, Ub) :=
    if extended then
      let! Ua := SetInt64 [] 1 in
      Ok (Ua, mkInt false [])
    else Ok (mkInt false [], mkInt false []) in
  let q := mkInt false [] in
  let r := mkInt false [] in
  let! c := cmp (abs A) (abs B) in
  let s := if c <? 0 then mkGcd B A Ub Ua q r else mkGcd A B Ua Ub q r in
  let! s := loop (Z.to_nat (_W * (len (abs a) + len (abs b))) + 1) (lehmerStep extended) s in
  let! s :=
    if len (abs (gB s)) >? 0 then
      let! s := if len (abs (gA s)) >? 1 then euclidUpdate extended s else Ok s in
      if len (abs (gB s)) >? 0 then wordPhase extended s else Ok s
    else Ok s in
  let A := gA s in
  let Ua := gUa s in
  let negA := neg a in
  let! y' :=
    if wantY then
      let! y := imul scratch false y a Ua in
      let y := flipIf negA y in
      let! y := IntSub (abs y) A y in
      IntDiv scratch (abs y) y b
    else Ok (mkInt false []) in
  let x' := if wantX then flipIf negA (IntSet x Ua) else mkInt false [] in
  Ok (IntSet z A, x', y').

Definition withSign (ng : bool) (x : Int) : Int := mkInt ng (abs x).

Definition GCD (wantX wantY : bool) (z x y : list Z) (a b : Int) : res (Int * Int * Int) :=
  if (len (abs a) =? 0) || (len (abs b) =? 0) then
    let z' := if len (abs a) =? 0 then IntSet z b else IntSet z a in
    let z' := withSign false z' in
    let! x' :=
      if wantX then
        if len (abs a) =? 0 then SetUint64 x 0
        else
          let! x := SetUint64 x 1 in
          Ok (withSign (neg a) x)
      else Ok (mkInt false []) in
    let! y' :=
      if wantY then
        if len (abs b) =? 0 then SetUint64 y 0
        else
          let! y := SetUint64 y 1 in
          Ok (withSign (neg b) y)
      else Ok (mkInt false []) in
    Ok (z', x', y')
  else lehmerGCD wantX wantY z x y a b.

(** None is the nil result. *)
Definition ModInverse (z : list Z) (g n : Int) : res (option Int) :=
  let n := if neg n then IntNeg [] n else n in
  let! g := if neg g then IntMod scratch [] g n else Ok g in
  let! '(d, x, _) := GCD true false [] [] [] g n in
  let! c := IntCmp false d intOne in
  if negb (c =? 0) then Ok None else
  let! z := if neg x then IntAdd z x n else Ok (IntSet z x) in
  Ok (Some z).

(** [nil] has no words: the method value is only used when it is not nil. *)
Definition nmodInverse (z g n : list Z) : res (list Z) :=
  let! r := ModInverse z (mkInt false g) (mkInt false n) in
  match r with
  | Some x => Ok (abs x)
  | None => Panic
  end.
End Scratch.
End Model.

(** ** Negative zero

    A negative multiple of [b]: the coefficient of [a] is zero and its sign is
    flipped, so that it compares as less than zero. *)
Example GCD_negative_zero :
  let P := amd64 in
  GCD (fun n => zeros n) true true [] [] [] (NewInt (-4)) (NewInt 2) =
    Ok (NewInt 2, mkInt true [], NewInt 1) /\
  IntCmp false (mkInt true []) (NewInt 0) = Ok (-1).
Proof. vm_compute. split; reflexivity. Qed.

(** ModInverse with the modulus 0 does not panic for a nonnegative [g]. *)
Example ModInverse_zero_modulus :
  let P := amd64 in
  ModInverse (fun n => zeros n) [] (NewInt 1) (NewInt 0) = Ok (Some (NewInt 1)) /\
  ModInverse (fun n => zeros n) [] (NewInt 5) (NewInt 0) = Ok None.
Proof. vm_compute. split; reflexivity. Qed.
