(* ===== verification/BigGcdCorrect.v ===== *)
(** * Package math/big: GCD computes greatest common divisors

    Lehmer's algorithm of BigGcd.v: Collins' condition on the leading words is
    enough for the simulated steps to leave two numbers of the remainder
    sequence, no product or sum of the simulation overflows a word, every
    loop ends, and the results are the greatest common divisor and Bezout
    coefficients; ModInverse returns the inverse in [0, n). *)
From Stdlib Require Import ZArith Lia.
From stdpp Require Import base numbers list.
From S2P Require Import Prelude Bits BigWords BigWordsCorrect BigNat BigNatCorrect BigMul BigMulCorrect BigDivide BigDiv BigDivRec BigBits BigNatFuns BigInt BigIntCorrect BigGcd.

(** ** Remainder sequences *)

(** Halving makes a number shorter. *)
Lemma bitlen_halved x y : 0 <= y -> 2 * y <= x -> 0 < x -> 0 <= bitlen y < bitlen x.
Proof.
  intros Hy Hxy Hx. pose proof (bitlen_half x Hx) as Hh. assert (y <= x / 2) by (apply Z.div_le_lower_bound; lia).
  destruct (Z.eq_dec y 0) as [->|]; [change (bitlen 0) with 0; lia|].
  assert (0 <= bitlen y <= bitlen (x / 2)); [|lia]. apply bitlen_le; [lia|]. split; [lia|].
  pose proof (bitlen_bounds (x / 2) ltac:(lia)). lia.
Qed.

(** A step of Euclid's algorithm halves the product. *)
Lemma euclid_halves a b : 0 < b <= a -> 2 * (b * (a mod b)) <= a * b.
Proof.
  intros H. pose proof (Z.div_mod a b ltac:(lia)) as D. pose proof (Z.mod_pos_bound a b ltac:(lia)).
  assert (1 <= a / b) by (apply Z.div_le_lower_bound; lia). assert (2 * (a mod b) <= a) by nia. nia.
Qed.

Lemma gcd_euclid a b : b <> 0 -> Z.gcd b (a mod b) = Z.gcd a b.
Proof. intros H. rewrite (Z.gcd_comm b), Z.gcd_mod by done. apply Z.gcd_comm. Qed.

(** A unimodular combination of two numbers, written as the code does: with
    nonnegative cofactors and the signs given by [sg]. *)
Definition combo (sg u v A B : Z) : Z := sg * (u * A - v * B).

Lemma gcd_unimodular sg u0 u1 v0 v1 A B :
  sg = 1 \/ sg = -1 -> u0 * v1 - u1 * v0 = sg ->
  Z.gcd (combo sg u0 v0 A B) (combo (- sg) u1 v1 A B) = Z.gcd A B.
Proof.
  intros Hs Hd. apply Z.gcd_unique; [apply Z.gcd_nonneg|unfold combo|unfold combo|].
  - apply Z.divide_mul_r, Z.divide_sub_r; apply Z.divide_mul_r; [apply Z.gcd_divide_l|apply Z.gcd_divide_r].
  - apply Z.divide_mul_r, Z.divide_sub_r; apply Z.divide_mul_r; [apply Z.gcd_divide_l|apply Z.gcd_divide_r].
  - intros d H0 H1. apply Z.gcd_greatest.
    + replace A with (v1 * combo sg u0 v0 A B + v0 * combo (- sg) u1 v1 A B).
      * apply Z.divide_add_r; by apply Z.divide_mul_r.
      * transitivity (sg * (u0 * v1 - u1 * v0) * A); [unfold combo; ring|]. rewrite Hd. destruct Hs as [-> | ->]; lia.
    + replace B with (u1 * combo sg u0 v0 A B + u0 * combo (- sg) u1 v1 A B).
      * apply Z.divide_add_r; by apply Z.divide_mul_r.
      * transitivity (sg * (u0 * v1 - u1 * v0) * B); [unfold combo; ring|]. rewrite Hd. destruct Hs as [-> | ->]; lia.
Qed.

(** The invariant of the extended algorithm on [a0] and [b0]: [Ua] and [Ub] have
    opposite signs and stay below [b0]. *)
Definition bezout (a0 b0 A B Ua Ub : Z) : Prop :=
  (b0 | A - a0 * Ua) /\ (b0 | B - a0 * Ub) /\
  exists e p q, (e = 1 \/ e = -1) /\ Ua = e * p /\ Ub = - e * q /\ 0 <= p /\ 0 <= q /\ q * A + p * B = b0 /\
    (p = 0 -> B < A) /\ (B = 0 -> p < b0).

Lemma bezout_step a0 b0 A B Ua Ub sg u0 u1 v0 v1 :
  sg = 1 \/ sg = -1 -> 0 <= u0 -> 0 <= u1 -> 0 <= v0 -> 0 <= v1 -> u0 * v1 - u1 * v0 = sg ->
  bezout a0 b0 A B Ua Ub ->
  let A' := combo sg u0 v0 A B in let B' := combo (- sg) u1 v1 A B in
  B' < A' -> (B' = 0 -> 0 < B <= A /\ 0 < b0 /\ u0 = 0 /\ v0 = 1) ->
  bezout a0 b0 A' B' (combo sg u0 v0 Ua Ub) (combo (- sg) u1 v1 Ua Ub).
Proof.
  intros Hs Hu0 Hu1 Hv0 Hv1 Hd (HA & HB & e & p & q & He & -> & -> & Hp & Hq & Hpq & Hlt & _) A' B' HAB HB0. unfold bezout. split; [|split].
  - replace (A' - a0 * combo sg u0 v0 (e * p) (- e * q)) with (sg * (u0 * (A - a0 * (e * p)) - v0 * (B - a0 * (- e * q)))) by (unfold A', combo; ring).
    apply Z.divide_mul_r, Z.divide_sub_r; by apply Z.divide_mul_r.
  - replace (B' - a0 * combo (- sg) u1 v1 (e * p) (- e * q)) with (- sg * (u1 * (A - a0 * (e * p)) - v1 * (B - a0 * (- e * q)))) by (unfold B', combo; ring).
    apply Z.divide_mul_r, Z.divide_sub_r; by apply Z.divide_mul_r.
  - exists (sg * e), (u0 * p + v0 * q), (u1 * p + v1 * q). split; [destruct Hs as [-> | ->], He as [-> | ->]; lia|].
    split; [unfold combo; ring|]. split; [unfold combo; ring|]. split; [nia|]. split; [nia|]. split; [|split; [done|]].
    + assert (E : (u1 * p + v1 * q) * A' + (u0 * p + v0 * q) * B' = sg * (u0 * v1 - u1 * v0) * (q * A + p * B)) by (unfold A', B', combo; ring).
      rewrite E, Hd, Hpq. destruct Hs as [-> | ->]; lia.
    + intros E. destruct (HB0 E) as (HBA & Hb0 & -> & ->). destruct (Z.eq_dec p 0) as [->|]; [specialize (Hlt eq_refl)|]; nia.
Qed.

(** One quotient, as such a combination. *)
Lemma euclid_combo A B : combo (-1) 0 1 A B = B /\ combo (- -1) 1 (A / B) A B = A - A / B * B.
Proof. unfold combo. lia. Qed.

(** ** The simulation with leading words *)

Definition sgn (even : bool) : Z := if even then 1 else -1.

Section Simulate.
Context `{P : Platform}.
Abbreviation Bw := (2 ^ _W).
(** The numbers, and their leading words [a] and [b]. *)
Context (A B a b M alpha beta : Z).
Hypothesis HM : 0 < M.
Hypothesis EA : A = a * M + alpha.
Hypothesis EB : B = b * M + beta.
Hypothesis Halpha : 0 <= alpha < M.
Hypothesis Hbeta : 0 <= beta < M.
Hypothesis Hab : 0 <= b <= a.
Hypothesis Ha : a < Bw.

(** What the first, the second and the later rounds know of the two numbers
    the cofactors stand for. *)
Definition progress (s : cosequence) : Prop :=
  let sg := sgn (ceven s) in
  (cu0 s = 0 /\ cv0 s = 0 /\ cu1 s = 1 /\ cv1 s = 0 /\ cu2 s = 0 /\ cv2 s = 1) \/
  (cu0 s = 1 /\ cv0 s = 0 /\ cu1 s = 0 /\ cv1 s = 1 /\ combo sg (cu2 s) (cv2 s) A B <= A - B) \/
  (cv0 s <> 0 /\ 1 <= cv1 s /\ 0 <= cu0 s /\ 0 <= cv0 s < Bw /\ cu0 s < Bw /\ cu0 s * cv1 s - cu1 s * cv0 s = sg /\
   0 < combo (- sg) (cu1 s) (cv1 s) A B < combo sg (cu0 s) (cv0 s) A B /\
   combo sg (cu0 s) (cv0 s) A B <= B /\ combo (- sg) (cu1 s) (cv1 s) A B <= A - B).

Record co_ok (s : cosequence) : Prop := {
  co_a1 : ca1 s = combo (- sgn (ceven s)) (cu1 s) (cv1 s) a b;
  co_a2 : ca2 s = combo (sgn (ceven s)) (cu2 s) (cv2 s) a b;
  co_order : 0 <= ca2 s <= ca1 s;
  co_pos : 0 <= cu1 s /\ 0 <= cu2 s /\ 0 <= cv1 s /\ 1 <= cv2 s;
  co_le : cu2 s <= cv2 s /\ cu1 s + cu2 s <= cv1 s + cv2 s;
  co_sum_v : cv2 s * ca1 s + cv1 s * ca2 s = a;
  co_sum_u : cu2 s * ca1 s + cu1 s * ca2 s = b;
  co_det : cu1 s * cv2 s - cu2 s * cv1 s = - sgn (ceven s);
  co_small : cu1 s < Bw /\ cv1 s < Bw /\ ca1 s < Bw;
  co_progress : progress s;
}.

Lemma sgn_cases e : sgn e = 1 \/ sgn e = -1.
Proof. destruct e; auto. Qed.
Lemma sgn_negb e : sgn (negb e) = - sgn e.
Proof. by destruct e. Qed.

(** A combination of the numbers, from that of their leading words. *)
Lemma combo_lift sg u v : combo sg u v A B = combo sg u v a b * M + combo sg u v alpha beta.
Proof. unfold combo. rewrite EA, EB. ring. Qed.

Lemma combo_error sg u v : sg = 1 \/ sg = -1 -> 0 <= u <= v -> - (v * (M - 1)) <= combo sg u v alpha beta <= v * (M - 1).
Proof.
  intros Hs Hu. unfold combo. assert (0 <= u * alpha <= v * (M - 1)) by nia. assert (0 <= v * beta <= v * (M - 1)) by nia.
  destruct Hs as [-> | ->]; lia.
Qed.

(** Collins' condition: the two numbers are in order and positive. *)
Lemma collins s : co_ok s -> cv2 s <= ca2 s -> cv1 s + cv2 s <= ca1 s - ca2 s ->
  0 < combo (sgn (ceven s)) (cu2 s) (cv2 s) A B < combo (- sgn (ceven s)) (cu1 s) (cv1 s) A B.
Proof.
  intros [E1 E2 _ (Hu1 & Hu2 & Hv1 & Hv2) [L1 L2] _ _ _ _ _] H1 H2. pose proof (sgn_cases (ceven s)) as Hs.
  set (sg := sgn (ceven s)) in *. split.
  - rewrite combo_lift, <- E2. pose proof (combo_error sg (cu2 s) (cv2 s) Hs ltac:(lia)). nia.
  - apply Z.lt_0_sub.
    replace (combo (- sg) (cu1 s) (cv1 s) A B - combo sg (cu2 s) (cv2 s) A B) with (combo (- sg) (cu1 s + cu2 s) (cv1 s + cv2 s) A B) by (unfold combo; ring).
    rewrite combo_lift. pose proof (combo_error (- sg) (cu1 s + cu2 s) (cv1 s + cv2 s) ltac:(lia) ltac:(lia)).
    replace (combo (- sg) (cu1 s + cu2 s) (cv1 s + cv2 s) a b) with (ca1 s - ca2 s) by (rewrite E1, E2; unfold combo; ring). nia.
Qed.

(** The new cofactors fit in a word. *)
Lemma cofactor_fits x x1 x2 a1 a2 : 0 < a2 <= a1 -> 0 <= x1 -> 0 <= x2 -> x2 * a1 + x1 * a2 = x -> x < Bw ->
  let x' := x1 + a1 / a2 * x2 in
  word (x1 + word (a1 / a2 * x2)) = x' /\ x' * a2 + x2 * (a1 mod a2) = x /\ 0 <= x'.
Proof.
  intros H H1 H2 E Hx x'. pose proof (Z.div_mod a1 a2 ltac:(lia)) as D. pose proof (Z.mod_pos_bound a1 a2 ltac:(lia)).
  assert (0 <= a1 / a2) by (apply Z.div_pos; lia). assert (E' : x' * a2 + x2 * (a1 mod a2) = x) by (unfold x'; nia).
  assert (0 <= a1 / a2 * x2 <= x') by (unfold x'; nia). assert (x' <= x) by nia.
  rewrite (word_small (a1 / a2 * x2)), word_small by lia. split; [done|]. split; [done|lia].
Qed.

Lemma progress_step s r u2' v2' :
  co_ok s -> 0 < combo (sgn (ceven s)) (cu2 s) (cv2 s) A B < combo (- sgn (ceven s)) (cu1 s) (cv1 s) A B -> cv2 s < Bw -> cu2 s < Bw ->
  1 <= ca1 s / ca2 s -> u2' = cu1 s + ca1 s / ca2 s * cu2 s -> v2' = cv1 s + ca1 s / ca2 s * cv2 s ->
  progress (mkCo (ca2 s) r (cu1 s) (cu2 s) u2' (cv1 s) (cv2 s) v2' (negb (ceven s))).
Proof.
  intros [_ _ _ (Hu1 & Hu2 & Hv1 & Hv2) _ _ _ Hdet (Su1 & Sv1 & _) Hp] [T2 T1] Hv2w Hu2w Hq Eu Ev. unfold progress. cbn [ceven cu0 cu1 cu2 cv0 cv1 cv2].
  rewrite sgn_negb. pose proof (sgn_cases (ceven s)) as Hsg. set (sg := sgn (ceven s)) in *. assert (0 <= B) by (rewrite EB; nia).
  destruct Hp as [(E0 & E0' & E1 & E1' & E2 & E2')|[(E0 & E0' & E1 & E1' & HT)|(E0 & Hv1' & Hu0 & Hv0 & Su0 & Hd & HT1 & HT0 & HTA)]].
  - right. left. rewrite E1, E1', E2, E2' in *. split; [done|]. split; [done|]. split; [done|]. split; [done|].
    subst u2' v2'. assert (Esg : sg = -1) by lia. rewrite Esg. unfold combo.
    assert (B <= ca1 s / ca2 s * B) by nia. lia.
  - right. right. fold sg in HT. split; [lia|]. split; [lia|]. split; [lia|]. split; [lia|]. split; [lia|]. split; [lia|]. rewrite Z.opp_involutive.
    split; [done|]. split; [|done]. rewrite E1, E1' in *. assert (Esg : sg = 1) by lia. rewrite Esg. unfold combo. lia.
  - right. right. fold sg in HT1, HT0, HTA, Hd. split; [lia|]. split; [lia|]. split; [lia|]. split; [lia|]. split; [lia|]. split; [lia|]. rewrite Z.opp_involutive.
    split; [done|]. split; lia.
Qed.

Lemma simulateStep_ok s : co_ok s ->
  match simulateStep s with
  | inl s' => co_ok s' /\ 2 * (ca1 s' * ca2 s') <= ca1 s * ca2 s /\ 0 < ca1 s * ca2 s
  | inr s' => s' = s
  end.
Proof.
  intros Hok. pose proof Hok as [E1 E2 Ho (Hu1 & Hu2 & Hv1 & Hv2) [L1 L2] Sv Su Hd (Su1 & Sv1 & Sa1) Hp].
  destruct s as [a1 a2 u0 u1 u2 v0 v1 v2 even]. cbn [ca1 ca2 cu0 cu1 cu2 cv0 cv1 cv2 ceven] in *. unfold simulateStep.
  destruct (Z.geb_spec a2 v2) as [H2|]; [|done]. cbn [andb]. rewrite (word_small (a1 - a2)) by lia.
  assert (v2 * 1 <= v2 * a1 /\ v1 * 1 <= v1 * a2) as [Hm1 Hm2] by (split; apply Z.mul_le_mono_nonneg_l; lia).
  assert (v1 + v2 <= a) by lia. rewrite (word_small (v1 + v2)) by lia. destruct (Z.geb_spec (a1 - a2) (v1 + v2)) as [H1|]; [|done].
  pose proof (collins _ Hok H2 H1) as HT. assert (Ha2 : 0 < a2 <= a1) by lia.
  destruct (cofactor_fits a v1 v2 a1 a2 Ha2 Hv1 ltac:(lia) Sv Ha) as (-> & Ev & Hv'). 
  destruct (cofactor_fits b u1 u2 a1 a2 Ha2 Hu1 Hu2 Su ltac:(lia)) as (-> & Eu & Hu').
  assert (Hq : 1 <= a1 / a2) by (apply Z.div_le_lower_bound; lia). pose proof (Z.mod_pos_bound a1 a2 ltac:(lia)) as Hr.
  pose proof (Z.div_mod a1 a2 ltac:(lia)) as D. split.
  - assert (v2 * 1 <= v2 * a1) by (apply Z.mul_le_mono_nonneg_l; lia). assert (0 <= v1 * a2) by (apply Z.mul_nonneg_nonneg; lia).
    assert (v2 < Bw) by lia. assert ((a1 / a2 - 1) * u2 <= (a1 / a2 - 1) * v2) by (apply Z.mul_le_mono_nonneg_l; lia).
    assert (1 * v2 <= a1 / a2 * v2) by (apply Z.mul_le_mono_nonneg_r; lia). constructor; cbn [ca1 ca2 cu0 cu1 cu2 cv0 cv1 cv2 ceven]; rewrite ?sgn_negb, ?Z.opp_involutive.
    + done.
    + replace (a1 mod a2) with (a1 - a1 / a2 * a2) by lia. generalize (a1 / a2). intros q. rewrite E1, E2. unfold combo. ring.
    + lia.
    + lia.
    + lia.
    + lia.
    + lia.
    + lia.
    + lia.
    + apply (progress_step (mkCo a1 a2 u0 u1 u2 v0 v1 v2 even)); try done. cbn [cu2]. lia.
  - cbn [ca1 ca2]. split; [by apply euclid_halves|nia].
Qed.

Lemma simulate_loop :
  loop (2 * Z.to_nat _W + 2) (fun s => Ok (simulateStep s)) (mkCo a b 0 1 0 0 0 1 false) ⇓ co_ok.
Proof.
  pose proof W_pos as HW. assert (0 <= a * b < 2 ^ (2 * _W)) by (replace (2 * _W) with (_W + _W) by lia; rewrite Z.pow_add_r by lia; nia).
  apply (loop_returns co_ok (fun s => bitlen (ca1 s * ca2 s))).
  - intros s Hs. cbn [returns]. pose proof (simulateStep_ok s Hs) as S. destruct (simulateStep s) as [s'|s']; [|by subst s'].
    destruct S as (Hs' & Hh & Hp). split; [done|]. apply bitlen_halved; [|done|done]. pose proof (co_order s' Hs'). nia.
  - constructor; cbn [ca1 ca2 cu0 cu1 cu2 cv0 cv1 cv2 ceven]; unfold combo; cbn [sgn]; try lia.
    + pose proof B_pos. lia.
    + left. cbn. done.
  - cbn [ca1 ca2]. assert (0 <= bitlen (a * b) <= 2 * _W) by (apply bitlen_le; lia). lia.
  - cbn [ca1 ca2]. assert (0 <= bitlen (a * b) <= 2 * _W) by (apply bitlen_le; lia). lia.
Qed.
End Simulate.

(** ** Leading words *)

Section Words.
Context `{P : Platform}.
Abbreviation nval := (val _W).

Lemma top_bits lo w1 w2 h : words_ok lo -> word_ok w1 -> 0 <= w2 -> 0 <= h < _W ->
  nval (lo ++ [w1; w2]) / (weight (len lo) * 2 ^ (_W - h)) = w2 * 2 ^ h + w1 / 2 ^ (_W - h).
Proof.
  intros Hlo Hw1 Hw2 Hh. pose proof (nval_bound lo Hlo). rewrite <- Z.div_div by lia. rewrite nval_app. cbn [val].
  rewrite (Z.mul_comm (weight _)), Z.div_add, (Z.div_small (nval lo)), Z.add_0_l, (Z.mul_0_r (2 ^ _W)), Z.add_0_r by lia.
  replace (w1 + 2 ^ _W * w2) with (w1 + w2 * 2 ^ h * 2 ^ (_W - h)).
  - rewrite Z.div_add by lia. lia.
  - rewrite <- Z.mul_assoc, <- Z.pow_add_r by lia. replace (h + (_W - h)) with _W by lia. lia.
Qed.

Lemma two_top (x : list Z) : 2 <= len x -> exists lo w1 w2, x = lo ++ [w1; w2].
Proof.
  intros H. destruct x as [|w2 x' _] using rev_ind; [len_lia|]. destruct x' as [|w1 lo _] using rev_ind; [len_lia|].
  exists lo, w1, w2. by rewrite <- app_assoc.
Qed.

Lemma idx_top (lo : list Z) w1 w2 k : k = len lo + 2 ->
  idx (lo ++ [w1; w2]) (k - 1) = Ok w2 /\ idx (lo ++ [w1; w2]) (k - 2) = Ok w1.
Proof.
  intros ->. split; [|apply idx_app; lia]. change [w1; w2] with ([w1] ++ [w2]). rewrite app_assoc. apply idx_app. len_lia.
Qed.

Lemma or_top w1 w2 h : word_ok w1 -> 0 <= w2 -> w2 * 2 ^ h < 2 ^ _W -> 0 <= h < _W ->
  Z.lor (word (Z.shiftl w2 h)) (Z.shiftr w1 (_W - h)) = w2 * 2 ^ h + w1 / 2 ^ (_W - h).
Proof.
  intros Hw1 Hw2 Hlt Hh. rewrite shiftl_mul, shiftr_div by lia. rewrite word_small by nia. apply lor_disjoint_mul; [lia|].
  split; [apply Z.div_pos; unfold word_ok in *; lia|]. apply Z.div_lt_upper_bound; [lia|]. rewrite <- Z.pow_add_r by lia.
  replace (_W - h + h) with _W by lia. apply Hw1.
Qed.

Lemma topWords_spec A B : is_nat A -> is_nat B -> 2 <= len B -> nval B <= nval A ->
  exists M, 0 < M /\ topWords A B = Ok (nval A / M, nval B / M) /\ nval A / M < 2 ^ _W.
Proof.
  intros HA HB Lb Hle.
  assert (Lab : len B <= len A).
  { destruct (Z.le_gt_cases (len B) (len A)); [done|]. pose proof (shorter_less A B HA HB H). lia. }
  destruct (two_top A ltac:(lia)) as (lo & w1 & w2 & ->). destruct HA as [HwA HnA]. destruct HB as [HwB _].
  pose proof HwA as HwA'. apply words_ok_app in HwA' as [Hlo Hw]. apply Forall_cons_1 in Hw as [Hw1 Hw]. apply Forall_cons_1 in Hw as [Hw2 _].
  assert (w2 <> 0) by (apply (HnA (lo ++ [w1])); by rewrite <- app_assoc).
  assert (Hw2p : 0 < w2 < 2 ^ _W) by lia. destruct (nlz_norm w2 Hw2p) as (h & Eh & Hh & _ & Hlt).
  assert (HM : 0 < weight (len lo)) by (apply weight_pos; len_lia).
  exists (weight (len lo) * 2 ^ (_W - h)). unfold topWords. rewrite len_app. change (len [w1; w2]) with 2.
  destruct (idx_top lo w1 w2 (len lo + 2)) as [-> ->]; [done|]. cbn [rbind]. rewrite Eh. cbn [rbind]. rewrite or_top by (done || lia).
  assert (E1 : nval (lo ++ [w1; w2]) / (weight (len lo) * 2 ^ (_W - h)) = w2 * 2 ^ h + w1 / 2 ^ (_W - h)) by (apply top_bits; done || lia).
  assert (EW : 2 ^ _W = 2 ^ h * 2 ^ (_W - h)) by (rewrite <- Z.pow_add_r by lia; f_equal; lia).
  assert (Hp : 0 < 2 ^ h /\ 0 < 2 ^ (_W - h)) by lia.
  assert (Hsmall : w2 * 2 ^ h + w1 / 2 ^ (_W - h) < 2 ^ _W).
  { assert (w1 / 2 ^ (_W - h) < 2 ^ h) by (apply Z.div_lt_upper_bound; lia). assert (w2 < 2 ^ (_W - h)) by nia. nia. }
  rewrite E1. split; [nia|]. split; [|done].
  destruct (Z.eqb_spec (len lo + 2) (len B)) as [En|En]; [|destruct (Z.eqb_spec (len lo + 2) (len B + 1)) as [En1|En1]].
  - destruct (two_top B ltac:(lia)) as (lo' & b1 & b2 & ->). rewrite len_app in En. change (len [b1; b2]) with 2 in En.
    assert (Ll : len lo' = len lo) by lia. pose proof HwB as HwB'. apply words_ok_app in HwB' as [Hlo' Hb]. apply Forall_cons_1 in Hb as [Hb1 Hb]. apply Forall_cons_1 in Hb as [Hb2 _].
    destruct (idx_top lo' b1 b2 (len lo + 2)) as [-> ->]; [lia|]. cbn [rbind]. assert (Hbw : b2 <= w2).
    { pose proof (nval_bound lo Hlo) as N1. pose proof (nval_bound lo' Hlo') as N2. rewrite !nval_app, Ll in Hle. cbn [val] in Hle. rewrite Ll in *.
      set (w := weight (len lo)) in *. destruct (Z.le_gt_cases b2 w2) as [|Hgt]; [done|]. exfalso.
      assert (w * (w1 + 2 ^ _W * w2) <= w * (2 ^ _W * (w2 + 1) - 1)) by (apply Z.mul_le_mono_nonneg_l; lia).
      assert (w * (2 ^ _W * (w2 + 1)) <= w * (b1 + 2 ^ _W * b2)) by (apply Z.mul_le_mono_nonneg_l; nia). lia. }
    rewrite or_top by (done || nia || lia). rewrite <- Ll, top_bits by (done || lia). done.
  - destruct B as [|bt B' _] using rev_ind; [len_lia|]. rewrite len_app in *. change (len [bt]) with 1 in *.
    replace (len lo + 2 - 2) with (len B') by lia. rewrite idx_app by done. cbn [rbind]. rewrite shiftr_div by lia. do 2 f_equal.
    apply words_ok_app in HwB as [HB' _]. pose proof (nval_bound B' HB') as Hb'. replace (len B') with (len lo) in Hb' by lia.
    rewrite <- Z.div_div by lia. rewrite nval_snoc. replace (len B') with (len lo) by lia.
    rewrite (Z.mul_comm (weight _)), Z.div_add, (Z.div_small (nval B')) by lia. done.
  - cbn [rbind]. do 2 f_equal. symmetry. apply Z.div_small. pose proof (nval_bound B HwB).
    assert (weight (len B) <= weight (len lo)) by (apply weight_le; len_lia). nia.
Qed.

(** The simulation on two numbers of at least two words. *)
Lemma lehmerSimulate_spec A B : int_ok A -> int_ok B -> 0 <= ival B <= ival A -> 2 <= len (abs B) ->
  lehmerSimulate A B ⇓ (fun c => cv0 c <> 0 ->
    let sg := sgn (ceven c) in
    let A' := combo sg (cu0 c) (cv0 c) (ival A) (ival B) in
    let B' := combo (- sg) (cu1 c) (cv1 c) (ival A) (ival B) in
    word_ok (cu0 c) /\ word_ok (cu1 c) /\ word_ok (cv0 c) /\ word_ok (cv1 c) /\ cu0 c * cv1 c - cu1 c * cv0 c = sg /\
    0 < B' < A' /\ A' <= ival B /\ B' <= ival A - ival B).
Proof.
  intros HA HB Hle Lb.
  assert (EA : nval (abs A) = ival A) by (rewrite ival_abs by done; lia). assert (EB : nval (abs B) = ival B) by (rewrite ival_abs by done; lia).
  destruct (topWords_spec (abs A) (abs B) (proj1 HA) (proj1 HB) Lb ltac:(lia)) as (M & HM & ET & Hs). unfold lehmerSimulate. rewrite ET. cbn [rbind].
  rewrite EA, EB in *. eapply returns_mono.
  - apply (simulate_loop (ival A) (ival B) (ival A / M) (ival B / M) M (ival A mod M) (ival B mod M)); try done.
    + rewrite Z.mul_comm. apply Z.div_mod. lia.
    + rewrite Z.mul_comm. apply Z.div_mod. lia.
    + by apply Z.mod_pos_bound.
    + by apply Z.mod_pos_bound.
    + split; [apply Z.div_pos; lia|apply Z.div_le_mono; lia].
  - intros c [_ _ _ (Hu1 & _ & Hv1 & _) _ _ _ _ (Su1 & Sv1 & _) Hp] H0. unfold progress in Hp. cbv zeta. unfold word_ok.
    destruct Hp as [(_ & E & _)|[(_ & E & _)|(_ & Hv1' & Hu0 & Hv0 & Su0 & Hd & HT1 & HT0 & HTA)]]; [done|done|].
    repeat split; try lia.
Qed.

Lemma mulW_spec z x ng w : is_nat (abs x) -> word_ok w ->
  mulW z x ng w ⇓ (fun r => ival r = (if ng then - (ival x * w) else ival x * w) /\ is_nat (abs r)).
Proof.
  intros Hx Hw. unfold mulW. pose proof B_pos. eapply returns_bind_mono; [apply mulAddWW_spec; [apply Hx|done|split; lia]|].
  intros a [Ea Ha]. cbn [returns]. split; [|done]. unfold ival. cbn [neg abs]. rewrite Ea. destruct (neg x), ng; cbn [eqb negb]; lia.
Qed.

Lemma lehmerUpdate_spec A B q r u0 u1 v0 v1 even :
  is_nat (abs A) -> is_nat (abs B) -> word_ok u0 -> word_ok u1 -> word_ok v0 -> word_ok v1 ->
  lehmerUpdate A B q r u0 u1 v0 v1 even ⇓ (fun '(A', B', _, _) =>
    is_int (combo (sgn even) u0 v0 (ival A) (ival B)) A' /\ is_int (combo (- sgn even) u1 v1 (ival A) (ival B)) B').
Proof.
  intros HA HB H0 H1 H2 H3. unfold lehmerUpdate.
  eapply returns_bind_mono; [by apply mulW_spec|]. intros q' [Eq Hq].
  eapply returns_bind_mono; [by apply mulW_spec|]. intros r' [Er Hr].
  eapply returns_bind_mono; [by apply mulW_spec|]. intros A1 [EA1 HA1].
  eapply returns_bind_mono; [by apply mulW_spec|]. intros B1 [EB1 HB1].
  eapply returns_bind_mono; [by apply IntAdd_spec|]. intros A2 [EA2 HA2].
  eapply returns_bind_mono; [by apply IntAdd_spec|]. intros B2 [EB2 HB2]. cbn [returns]. unfold combo.
  split; split; try done.
  - rewrite EA2, EA1, Eq. destruct even; cbn [negb sgn]; lia.
  - rewrite EB2, EB1, Er. destruct even; cbn [negb sgn]; lia.
Qed.

(** ** The loop *)

Section Loop.
Context (scratch : Z -> list Z) (Hscratch : forall n, 0 <= n -> len (scratch n) = n) (ext : bool) (a0 b0 : Z) (Hb0 : 0 < b0).

Record gcd_ok (s : gcdState) : Prop := {
  ok_A : int_ok (gA s);
  ok_B : int_ok (gB s);
  ok_order : 0 <= ival (gB s) <= ival (gA s);
  ok_gcd : Z.gcd (ival (gA s)) (ival (gB s)) = Z.gcd a0 b0;
  ok_ext : ext = true -> int_ok (gUa s) /\ int_ok (gUb s) /\ bezout a0 b0 (ival (gA s)) (ival (gB s)) (ival (gUa s)) (ival (gUb s));
}.

(** A step by cofactors preserves the invariant. *)
Lemma gcd_ok_step s A' B' Ua' Ub' q r sg u0 u1 v0 v1 :
  gcd_ok s -> sg = 1 \/ sg = -1 -> 0 <= u0 -> 0 <= u1 -> 0 <= v0 -> 0 <= v1 -> u0 * v1 - u1 * v0 = sg ->
  is_int (combo sg u0 v0 (ival (gA s)) (ival (gB s))) A' -> is_int (combo (- sg) u1 v1 (ival (gA s)) (ival (gB s))) B' ->
  0 <= ival B' < ival A' -> (ival B' = 0 -> 0 < ival (gB s) /\ u0 = 0 /\ v0 = 1) ->
  (ext = true -> is_int (combo sg u0 v0 (ival (gUa s)) (ival (gUb s))) Ua' /\ is_int (combo (- sg) u1 v1 (ival (gUa s)) (ival (gUb s))) Ub') ->
  gcd_ok (mkGcd A' B' Ua' Ub' q r).
Proof.
  intros [HA HB Ho Hg He] Hs Hu0 Hu1 Hv0 Hv1 Hd [EA HA'] [EB HB'] Ho' H0 HU. constructor; cbn [gA gB gUa gUb]; try done; [lia| |].
  - rewrite EA, EB, <- Hg. by apply gcd_unimodular.
  - intros E. destruct (He E) as (_ & _ & Hbz). destruct (HU E) as [[EUa HUa] [EUb HUb]]. split; [done|]. split; [done|].
    rewrite EUa, EUb, EA, EB. apply bezout_step; try done; [lia|]. rewrite <- EB. intros E0. destruct (H0 E0) as (H1 & H2 & H3). split; [lia|done].
Qed.

Lemma euclidUpdate_spec s : gcd_ok s -> 0 < ival (gB s) ->
  euclidUpdate scratch ext s ⇓ (fun s' => gcd_ok s' /\ ival (gA s') = ival (gB s) /\ ival (gB s') = ival (gA s) mod ival (gB s)).
Proof.
  intros Hok Hpos. destruct s as [A B Ua Ub q r]. pose proof Hok as [HA HB Ho Hg He]. cbn [gA gB gUa gUb] in *. unfold euclidUpdate.
  pose proof (QuoRem_spec scratch Hscratch (abs q) (abs r) A B HA HB) as D. rewrite (proj2 (Z.eqb_neq _ 0)) in D by lia.
  eapply returns_bind_mono; [exact D|]. intros [q' r'] [[Eq Hq] [Er Hr]]. rewrite Z.quot_div_nonneg in Eq by lia. rewrite Z.rem_mod_nonneg in Er by lia.
  pose proof (Z.mod_pos_bound (ival A) (ival B) Hpos) as Hm. destruct (euclid_combo (ival A) (ival B)) as [C1 C2].
  assert (Hdm : ival A - ival A / ival B * ival B = ival A mod ival B) by (rewrite Z.mod_eq by lia; lia).
  assert (Hquo : 0 <= ival A / ival B) by (apply Z.div_pos; lia).
  assert (G : forall Ua' Ub' q2, (ext = true -> is_int (ival Ub) Ua' /\ is_int (ival Ua - ival A / ival B * ival Ub) Ub') -> gcd_ok (mkGcd B r' Ua' Ub' q2 A)).
  { intros Ua' Ub' q2 HU. apply (gcd_ok_step (mkGcd A B Ua Ub q r) B r' Ua' Ub' q2 A (-1) 0 1 1 (ival A / ival B)); cbn [gA gB gUa gUb]; try done; try lia.
    - rewrite C2, Hdm. by split.
    - intros E. destruct (HU E) as [U1 U2]. destruct (euclid_combo (ival Ua) (ival Ub)) as [C3 _]. rewrite C3. split; [done|].
      replace (combo (- -1) 1 (ival A / ival B) (ival Ua) (ival Ub)) with (ival Ua - ival A / ival B * ival Ub) by (unfold combo; lia). done. }
  cbn beta iota. destruct ext eqn:Ee.
  - destruct (He eq_refl) as (HUa & HUb & _). eapply returns_bind_mono; [by apply imul_spec|]. intros q2 [Eq2 Hq2].
    eapply returns_bind_mono; [apply IntSub_spec; [apply HUa|apply Hq2]|]. intros Ub' [EUb HUb']. cbn [returns gA gB]. split; [|done].
    apply G. intros _. split; [done|]. split; [|done]. by rewrite EUb, Eq2, Eq.
  - cbn [returns gA gB]. split; [|done]. by apply G.
Qed.

Lemma long_pos x : int_ok x -> 0 <= ival x -> 0 < len (abs x) -> 0 < ival x.
Proof.
  intros Hx H0 Hl. destruct (Z.eq_dec (ival x) 0) as [E|]; [|lia]. exfalso. apply ival_zero in E; [|done].
  apply is_nat_zero in E; [|apply Hx]. rewrite E in Hl. done.
Qed.

Lemma lehmerStep_spec s : gcd_ok s ->
  lehmerStep scratch ext s ⇓ (fun r => match r with
    | inl s' => gcd_ok s' /\ 2 * (ival (gA s') * ival (gB s')) <= ival (gA s) * ival (gB s) /\ 0 < ival (gA s) * ival (gB s)
    | inr s' => s' = s /\ len (abs (gB s)) <= 1
    end).
Proof.
  intros Hok. pose proof Hok as [HA HB Ho Hg He]. destruct s as [A B Ua Ub q r]. cbn [gA gB gUa gUb] in *. unfold lehmerStep.
  rewrite Z.gtb_ltb. destruct (Z.ltb_spec 1 (len (abs B))) as [Hl|Hl]; [|done].
  assert (Hpos : 0 < ival B) by (apply long_pos; done || lia). assert (HAB : 0 < ival A * ival B) by nia.
  eapply returns_bind_mono; [apply lehmerSimulate_spec; done || lia|]. intros c Hc. cbv zeta in Hc.
  destruct (Z.eqb_spec (cv0 c) 0) as [E0|E0]; cbn [negb].
  - eapply returns_bind_mono; [by apply euclidUpdate_spec|]. intros s' (Hok' & EA' & EB'). cbn [returns gA gB] in *.
    split; [done|]. split; [|done]. rewrite EA', EB'. apply euclid_halves. lia.
  - destruct (Hc E0) as (Hu0 & Hu1 & Hv0 & Hv1 & Hd & HT & HTB & HTA). pose proof (sgn_cases (ceven c)) as Hs. set (sg := sgn (ceven c)) in *.
    eapply returns_bind_mono; [apply lehmerUpdate_spec; done || apply HA || apply HB|]. intros [[[A' B'] q'] r'] [[EA' HA'] [EB' HB']]. fold sg in EA', EB'.
    assert (G : forall Ua' Ub' q2 r2, (ext = true -> is_int (combo sg (cu0 c) (cv0 c) (ival Ua) (ival Ub)) Ua' /\ is_int (combo (- sg) (cu1 c) (cv1 c) (ival Ua) (ival Ub)) Ub') ->
      gcd_ok (mkGcd A' B' Ua' Ub' q2 r2) /\ 2 * (ival A' * ival B') <= ival A * ival B /\ 0 < ival A * ival B).
    { intros Ua' Ub' q2 r2 HU. unfold word_ok in *. rewrite <- EA', <- EB' in *. split; [|split; [nia|done]].
      apply (gcd_ok_step (mkGcd A B Ua Ub q r) A' B' Ua' Ub' q2 r2 sg (cu0 c) (cu1 c) (cv0 c) (cv1 c)); cbn [gA gB gUa gUb]; done || lia. }
    destruct ext eqn:Ee.
    + destruct (He eq_refl) as (HUa & HUb & _). eapply returns_bind_mono; [apply lehmerUpdate_spec; done || apply HUa || apply HUb|].
      intros [[[Ua' Ub'] q2] r2] [HUa' HUb']. cbn [returns gA gB]. by apply G.
    + cbn [returns gA gB]. by apply G.
Qed.

Lemma lehmer_loop s fuel : gcd_ok s -> ival (gA s) * ival (gB s) < 2 ^ Z.of_nat fuel ->
  loop (fuel + 1) (lehmerStep scratch ext) s ⇓ (fun s' => gcd_ok s' /\ len (abs (gB s')) <= 1).
Proof.
  intros Hok Hf. assert (0 <= bitlen (ival (gA s) * ival (gB s)) <= Z.of_nat fuel).
  { apply bitlen_le; [lia|]. destruct Hok as [_ _ Ho _ _]. nia. }
  apply (loop_returns gcd_ok (fun s => bitlen (ival (gA s) * ival (gB s)))); [|done|lia|lia].
  clear s Hok Hf H. intros s Hok. eapply returns_mono; [by apply lehmerStep_spec|]. intros [s'|s'].
  - intros (Hok' & Hh & Hp). split; [done|]. apply bitlen_halved; try done. destruct Hok' as [_ _ Ho _ _]. nia.
  - intros [-> Hl]. done.
Qed.

(** ** Single words *)

(** The result: the divisor, and a coefficient of [a0] below [b0]. *)
Definition gcd_done (s : gcdState) : Prop :=
  is_int (Z.gcd a0 b0) (gA s) /\
  (ext = true -> int_ok (gUa s) /\ (b0 | Z.gcd a0 b0 - a0 * ival (gUa s)) /\ Z.abs (ival (gUa s)) < b0).

Lemma bezout_end A Ua Ub : 0 <= A -> bezout a0 b0 A 0 Ua Ub -> (b0 | A - a0 * Ua) /\ Z.abs Ua < b0.
Proof. intros HA (Hd & _ & e & p & q & He & -> & _ & Hp & _ & _ & _ & Hlt). split; [done|]. specialize (Hlt eq_refl). destruct He as [-> | ->]; lia. Qed.

Lemma gcd_ok_done s : gcd_ok s -> ival (gB s) = 0 -> gcd_done s.
Proof.
  intros [HA HB Ho Hg He] E. rewrite E in *. rewrite Z.gcd_0_r_nonneg in Hg by lia. split; [by split|]. intros Ee. destruct (He Ee) as (HUa & _ & Hbz).
  split; [done|]. rewrite <- Hg. apply (bezout_end _ _ (ival (gUb s))); [lia|done].
Qed.

Section WordLoop.
Context (A0 B0 Ua Ub : Z) (HA0 : A0 < 2 ^ _W) (HB0 : B0 <= A0).

Definition word_inv (s : Z * Z * Z * Z * Z * Z * bool) : Prop :=
  let '(a, b, ua, ub, va, vb, even) := s in
  0 <= b <= a /\ 0 < a < 2 ^ _W /\ Z.gcd a b = Z.gcd a0 b0 /\
  word_ok ua /\ word_ok ub /\ word_ok va /\ word_ok vb /\ vb * a + va * b = A0 /\ ub * a + ua * b = B0 /\
  bezout a0 b0 a b (combo (sgn even) ua va Ua Ub) (combo (- sgn even) ub vb Ua Ub).

Lemma bezout_euclid A B U V : 0 < B <= A -> bezout a0 b0 A B U V -> bezout a0 b0 B (A mod B) V (U - A / B * V).
Proof.
  intros HAB Hbz. destruct (euclid_combo A B) as [C1 C2]. destruct (euclid_combo U V) as [C3 _].
  assert (Hm : A - A / B * B = A mod B) by (rewrite Z.mod_eq by lia; lia). pose proof (Z.mod_pos_bound A B ltac:(lia)).
  pose proof (bezout_step a0 b0 A B U V (-1) 0 1 1 (A / B)) as S. cbv zeta in S. rewrite C1, C2, C3, Hm in S.
  replace (combo (- -1) 1 (A / B) U V) with (U - A / B * V) in S by (unfold combo; lia).
  apply S; try lia; try done.
Qed.

Lemma wordStep_spec s : word_inv s ->
  match wordStep s with
  | inl s' => word_inv s' /\ (let '(a, b, _, _, _, _, _) := s in let '(a', b', _, _, _, _, _) := s' in 2 * (a' * b') <= a * b /\ 0 < a * b)
  | inr (a, ua, va, even) => a = Z.gcd a0 b0 /\ 0 < a < 2 ^ _W /\ word_ok ua /\ word_ok va /\
      (b0 | a - a0 * combo (sgn even) ua va Ua Ub) /\ Z.abs (combo (sgn even) ua va Ua Ub) < b0
  end.
Proof.
  destruct s as [[[[[[a b] ua] ub] va] vb] even]. intros (Ho & Ha & Hg & Hua & Hub & Hva & Hvb & Ev & Eu & Hbz). unfold wordStep.
  destruct (Z.eqb_spec b 0) as [->|Hb]; cbn [negb].
  - rewrite Z.gcd_0_r_nonneg in Hg by lia. split; [done|]. split; [done|]. split; [done|]. split; [done|]. apply (bezout_end _ _ (combo (- sgn even) ub vb Ua Ub)); [lia|done].
  - assert (Hba : 0 < b <= a) by lia. unfold word_ok in *. pose proof (Z.mod_pos_bound a b ltac:(lia)) as Hm.
    destruct (cofactor_fits A0 va vb a b Hba ltac:(lia) ltac:(lia) Ev HA0) as (-> & Ev' & Hv').
    destruct (cofactor_fits B0 ua ub a b Hba ltac:(lia) ltac:(lia) Eu (Z.le_lt_trans _ _ _ HB0 HA0)) as (-> & Eu' & Hu').
    split; [|split; [by apply euclid_halves|nia]]. unfold word_inv, word_ok. split; [lia|]. split; [lia|]. split.
    { by rewrite gcd_euclid by lia. }
    assert (va + a / b * vb <= A0) by nia. assert (ua + a / b * ub <= B0) by nia.
    split; [lia|]. split; [lia|]. split; [lia|]. split; [lia|]. split; [done|]. split; [done|].
    pose proof (bezout_euclid a b _ _ Hba Hbz) as S. rewrite sgn_negb, Z.opp_involutive.
    replace (combo (sgn even) (ua + a / b * ub) (va + a / b * vb) Ua Ub) with (combo (sgn even) ua va Ua Ub - a / b * combo (- sgn even) ub vb Ua Ub) by (unfold combo; ring).
    done.
Qed.

Lemma word_loop : 0 < B0 -> Z.gcd A0 B0 = Z.gcd a0 b0 -> bezout a0 b0 A0 B0 Ua Ub ->
  loop (2 * Z.to_nat _W + 2) (fun s => Ok (wordStep s)) (A0, B0, 1, 0, 0, 1, true) ⇓ (fun '(a, ua, va, even) =>
    a = Z.gcd a0 b0 /\ 0 < a < 2 ^ _W /\ word_ok ua /\ word_ok va /\
    (b0 | a - a0 * combo (sgn even) ua va Ua Ub) /\ Z.abs (combo (sgn even) ua va Ua Ub) < b0).
Proof.
  intros HB Hg Hbz. pose proof W_pos as HW. pose proof B_pos as HBp. assert (0 <= A0 * B0 < 2 ^ (2 * _W)) by (replace (2 * _W) with (_W + _W) by lia; rewrite Z.pow_add_r by lia; nia).
  assert (0 <= bitlen (A0 * B0) <= 2 * _W) by (apply bitlen_le; lia).
  apply (loop_returns word_inv (fun '(a, b, _, _, _, _, _) => bitlen (a * b))); [|..|lia|lia].
  - intros s Hs. cbn [returns]. pose proof (wordStep_spec s Hs) as S. destruct (wordStep s) as [s'|[[[? ?] ?] ?]]; [|done].
    destruct S as [Hs' Hh]. split; [done|]. destruct s as [[[[[[a b] ?] ?] ?] ?] ?], s' as [[[[[[a' b'] ?] ?] ?] ?] ?]. destruct Hs' as (Ho' & Ha' & _).
    apply bitlen_halved; [nia|apply Hh|apply Hh].
  - unfold word_inv, word_ok. repeat (split; [lia || done|]). replace (combo (sgn true) 1 0 Ua Ub) with Ua by (unfold combo; cbn [sgn]; lia).
    replace (combo (- sgn true) 0 1 Ua Ub) with Ub by (unfold combo; cbn [sgn]; lia). done.
Qed.
End WordLoop.

Lemma wordGCD_spec aw bw : 0 < bw <= aw -> aw < 2 ^ _W -> wordGCD aw bw ⇓ (fun a => a = Z.gcd aw bw).
Proof.
  intros Hb Ha. pose proof W_pos as HW. unfold wordGCD. assert (0 <= aw * bw < 2 ^ (2 * _W)) by (replace (2 * _W) with (_W + _W) by lia; rewrite Z.pow_add_r by lia; nia).
  assert (0 <= bitlen (aw * bw) <= 2 * _W) by (apply bitlen_le; lia).
  apply (loop_returns (fun '(a, b) => 0 <= b <= a /\ Z.gcd a b = Z.gcd aw bw) (fun '(a, b) => bitlen (a * b))); [|split; [lia|done]|lia|lia].
  intros [a b] [Ho Hg]. destruct (Z.eqb_spec b 0) as [->|Hne]; cbn [negb returns].
  - by rewrite Z.gcd_0_r_nonneg in Hg by lia.
  - pose proof (Z.mod_pos_bound a b ltac:(lia)). split.
    + split; [lia|]. by rewrite gcd_euclid by lia.
    + apply bitlen_halved; [nia|apply euclid_halves; lia|nia].
Qed.

Lemma one_word x : int_ok x -> 0 <= ival x -> len (abs x) = 1 -> exists w, x = mkInt false [w] /\ ival x = w /\ 0 < w < 2 ^ _W.
Proof.
  intros Hx H0 Hl. destruct x as [[] [|w [|? ?]]]; cbn [abs] in Hl; try len_lia.
  - pose proof (ival_neg _ Hx eq_refl). lia.
  - exists w. split; [done|]. unfold ival. cbn [neg abs val]. split; [lia|]. destruct Hx as [[Hw Hn] _]. cbn [abs] in *. apply Forall_cons_1 in Hw as [Hw _].
    pose proof (Hn [] w eq_refl). lia.
Qed.

Lemma wordPhase_spec s : gcd_ok s -> len (abs (gA s)) = 1 -> len (abs (gB s)) = 1 -> wordPhase ext s ⇓ gcd_done.
Proof.
  intros [HA HB Ho Hg He] LA LB. destruct s as [A B Ua Ub q r]. cbn [gA gB gUa gUb] in *.
  destruct (one_word A HA ltac:(lia) LA) as (a & -> & Ea & Ha). destruct (one_word B HB ltac:(lia) LB) as (b & -> & Eb & Hb).
  rewrite Ea, Eb in *. unfold wordPhase. change (idx (abs (mkInt false [a])) 0) with (Ok a). change (idx (abs (mkInt false [b])) 0) with (Ok b). cbn [rbind abs neg].
  assert (U : forall w, upd [a] 0 w = Ok [w]) by done.
  assert (G : forall g, g = Z.gcd a0 b0 -> 0 < g < 2 ^ _W -> is_int (Z.gcd a0 b0) (mkInt false [g])).
  { intros g <- Hgb. split; [unfold ival; cbn [neg abs val]; lia|]. split; [|done]. cbn [abs]. split; [by repeat constructor; lia|]. apply (normal_snoc []). lia. }
  destruct ext eqn:Ee.
  - destruct (He eq_refl) as (HUa & HUb & Hbz). eapply returns_bind_mono; [apply (word_loop a b (ival Ua) (ival Ub)); done || lia|].
    intros [[[g ua] va] even] (Eg & Hgb & Hua & Hva & Hd & Hlt). cbn beta iota.
    eapply returns_bind_mono; [apply mulW_spec; [apply HUa|done]|]. intros U1 [EU1 HU1].
    eapply returns_bind_mono; [apply mulW_spec; [apply HUb|done]|]. intros V1 [EV1 HV1].
    eapply returns_bind_mono; [by apply IntAdd_spec|]. intros U2 [EU2 HU2]. rewrite U. cbn [rbind returns].
    assert (EU : ival U2 = combo (sgn even) ua va (ival Ua) (ival Ub)) by (rewrite EU2, EU1, EV1; unfold combo; destruct even; cbn [negb sgn]; lia).
    split; [by apply G|]. intros _. cbn [gUa]. rewrite EU, <- Eg. done.
  - eapply returns_bind_mono; [apply wordGCD_spec; lia|]. intros g Eg. rewrite U. cbn [rbind returns]. split; [|intros E; congruence]. cbn [gA].
    pose proof (Z.gcd_divide_l a b) as Hd. apply Z.divide_pos_le in Hd; [|lia]. pose proof (Z.gcd_nonneg a b).
    assert (g <> 0) by (rewrite Eg; intros E0; apply Z.gcd_eq_0 in E0; lia). apply G; [by rewrite Eg|]. rewrite Eg in *. lia.
Qed.

(** The loop, the last Euclidean step and the base case. *)
Lemma gcd_phases s fuel : gcd_ok s -> ival (gA s) * ival (gB s) < 2 ^ Z.of_nat fuel ->
  (let! s := loop (fuel + 1) (lehmerStep scratch ext) s in
   if len (abs (gB s)) >? 0 then
     let! s := if len (abs (gA s)) >? 1 then euclidUpdate scratch ext s else Ok s in
     if len (abs (gB s)) >? 0 then wordPhase ext s else Ok s
   else Ok s) ⇓ gcd_done.
Proof.
  intros Hok Hf. eapply returns_bind_mono; [by apply lehmer_loop|]. clear s Hok Hf. intros s [Hok Hl].
  assert (Hz : forall x, int_ok x -> 0 <= ival x -> len (abs x) <= 0 -> ival x = 0).
  { intros x Hx H0 Hlx. apply ival_zero; [done|]. assert (abs x = []) as -> by (apply len_zero_inv; len_lia). done. }
  rewrite Z.gtb_ltb. destruct (Z.ltb_spec 0 (len (abs (gB s)))) as [Hp|Hz0].
  2: { apply gcd_ok_done; [done|]. destruct Hok as [_ HB Ho _ _]. apply Hz; done || lia. }
  assert (HBp : 0 < ival (gB s)) by (destruct Hok as [_ HB Ho _ _]; apply long_pos; done || lia).
  rewrite Z.gtb_ltb. destruct (Z.ltb_spec 1 (len (abs (gA s)))) as [HA1|HA1].
  - eapply returns_bind_mono; [by apply euclidUpdate_spec|]. intros s' (Hok' & EA & EB). rewrite Z.gtb_ltb. destruct (Z.ltb_spec 0 (len (abs (gB s')))) as [Hp'|Hz'].
    + pose proof Hok' as [HA' HB' Ho' _ _]. pose proof Hok as [_ HB _ _ _].
      assert (LA : abs (gA s') = abs (gB s)) by (apply is_nat_unique; [apply HA'|apply HB|rewrite !ival_abs by done; lia]).
      assert (Hlt : ival (gB s') < 2 ^ _W).
      { assert (ival (gB s') < ival (gB s)) by (rewrite EB; apply Z.mod_pos_bound; lia). destruct (one_word (gB s) HB ltac:(lia) ltac:(lia)) as (w & _ & Ew & Hw). lia. }
      apply wordPhase_spec; [done|rewrite LA; lia|]. assert (len (abs (gB s')) <= 1); [|lia]. apply fits; [apply HB'| |lia].
      rewrite weight_1, ival_abs by done. lia.
    + apply gcd_ok_done; [done|]. destruct Hok' as [_ HB' Ho' _ _]. apply Hz; done || lia.
  - cbn [rbind]. rewrite Z.gtb_ltb, (proj2 (Z.ltb_lt 0 _)) by lia. pose proof Hok as [HA HB Ho _ _]. apply wordPhase_spec; [done| |lia].
    assert (0 < len (abs (gA s))); [|lia]. destruct (Z.le_gt_cases (len (abs (gA s))) 0) as [H0|]; [|done]. assert (ival (gA s) = 0) by (apply Hz; done || lia). lia.
Qed.
End Loop.

(** ** The results *)

Section Results.
Context (scratch : Z -> list Z) (Hscratch : forall n, 0 <= n -> len (scratch n) = n).

Lemma flipIf_spec c x : is_nat (abs x) -> ival (flipIf c x) = (if c then - ival x else ival x) /\ is_nat (abs (flipIf c x)).
Proof. intros Hx. unfold flipIf. destruct c; [|done]. split; [|done]. unfold ival. cbn [neg abs]. destruct (neg x); cbn [negb]; lia. Qed.

Lemma start_ok ext a0 b0 A B Ua Ub q r :
  0 < a0 -> 0 < b0 -> is_int a0 A -> is_int b0 B -> (ext = true -> is_int 1 Ua /\ is_int 0 Ub) ->
  gcd_ok ext a0 b0 (if a0 <? b0 then mkGcd B A Ub Ua q r else mkGcd A B Ua Ub q r).
Proof.
  intros Ha Hb [EA HA] [EB HB] HU. destruct (Z.ltb_spec a0 b0) as [Hlt|Hge]; constructor; cbn [gA gB gUa gUb]; rewrite ?EA, ?EB; try done; try lia.
  - apply Z.gcd_comm.
  - intros E. destruct (HU E) as [[EUa HUa] [EUb HUb]]. split; [done|]. split; [done|]. rewrite EUa, EUb. split; [exists 1; lia|]. split; [exists 0; lia|].
    exists (-1), 0, 1. repeat split; try lia.
  - intros E. destruct (HU E) as [[EUa HUa] [EUb HUb]]. split; [done|]. split; [done|]. rewrite EUa, EUb. split; [exists 0; lia|]. split; [exists 1; lia|].
    exists 1, 1, 0. repeat split; try lia.
Qed.

(** What GCD promises of the coefficients it was asked for. *)
Definition gcd_result (wantX wantY : bool) (a b : Int) (r : Int * Int * Int) : Prop :=
  let '(z, x, y) := r in
  is_int (Z.gcd (ival a) (ival b)) z /\
  (wantX = true -> (ival b | ival z - ival a * ival x) /\ Z.abs (ival x) <= Z.max 1 (Z.abs (ival b)) /\ is_nat (abs x) /\ (0 <= ival a -> int_ok x)) /\
  (wantY = true -> int_ok y /\ (ival a | ival z - ival b * ival y)) /\
  (wantX = true -> wantY = true -> ival z = ival a * ival x + ival b * ival y).

Lemma exact_quotient x y q m : y <> 0 -> euclid x y q m -> (y | x) -> x = y * q.
Proof.
  intros Hy [E Hm] [k Ek]. assert (m = y * (k - q)) by lia. assert (m = 0); [|lia].
  destruct (Z.eq_dec (k - q) 0) as [E0|]; [nia|]. assert (Z.abs y <= Z.abs m) by (rewrite H, Z.abs_mul; nia). lia.
Qed.

Lemma gcd_outputs wantX wantY z x y a b s :
  int_ok a -> int_ok b -> ival b <> 0 -> gcd_done (wantX || wantY) (Z.abs (ival a)) (Z.abs (ival b)) s ->
  (let! y' :=
     if wantY then
       let! y := imul scratch false y a (gUa s) in
       let y := flipIf (neg a) y in
       let! y := IntSub (abs y) (gA s) y in
       IntDiv scratch (abs y) y b
     else Ok (mkInt false []) in
   let x' := if wantX then flipIf (neg a) (IntSet x (gUa s)) else mkInt false [] in
   Ok (IntSet z (gA s), x', y')) ⇓ (fun r => gcd_result wantX wantY a b r /\ (wantX = true -> Z.abs (ival r.1.2) < Z.abs (ival b))).
Proof.
  intros Ha Hb Hb0 [HG HU]. rewrite Z.gcd_abs_l, Z.gcd_abs_r in *. set (g := Z.gcd (ival a) (ival b)) in *. set (Ua := gUa s) in *.
  assert (Hna : neg a = (ival a <? 0)) by (by apply neg_sign).
  assert (Eab : forall v, ival a * (if neg a then - v else v) = Z.abs (ival a) * v) by (intros v; rewrite Hna; destruct (Z.ltb_spec (ival a) 0); nia).
  apply (returns_bind_mono _ _ (fun y' => wantY = true -> int_ok y' /\ g - Z.abs (ival a) * ival Ua = ival b * ival y')).
  { destruct wantY; [|done]. destruct HU as (HUa & Hd & _); [by rewrite orb_true_r|].
    eapply returns_bind_mono; [by apply imul_spec|]. intros y1 [E1 H1]. cbv zeta. destruct (flipIf_spec (neg a) y1 (proj1 H1)) as [E2 H2].
    eapply returns_bind_mono; [apply IntSub_spec; [apply HG|done]|]. intros y3 [E3 H3].
    assert (E3' : ival y3 = g - Z.abs (ival a) * ival Ua) by (rewrite E3, E2, E1, (proj1 HG), <- Eab; destruct (neg a); lia).
    pose proof (IntDiv_spec scratch Hscratch (abs y3) y3 b H3 Hb) as D. rewrite (proj2 (Z.eqb_neq _ _) Hb0) in D.
    eapply returns_mono; [exact D|]. intros y4 (m & He & H4) _. split; [done|]. rewrite <- E3'. apply (exact_quotient _ _ _ m Hb0 He).
    rewrite E3'. by apply Z.divide_abs_l. }
  intros y' Hy. cbv zeta. cbn [returns].
  assert (HX : wantX = true -> let x' := flipIf (neg a) (IntSet x Ua) in
    ival a * ival x' = Z.abs (ival a) * ival Ua /\ Z.abs (ival x') = Z.abs (ival Ua) /\ is_nat (abs x') /\ (0 <= ival a -> int_ok x') /\
    (Z.abs (ival b) | g - Z.abs (ival a) * ival Ua) /\ Z.abs (ival Ua) < Z.abs (ival b)).
  { intros ->. destruct HU as (HUa & Hd & Hlt); [done|]. cbv zeta. destruct (IntSet_spec x Ua HUa) as [ES HS]. destruct (flipIf_spec (neg a) _ (proj1 HS)) as [E1 H1].
    rewrite E1, ES, Eab. split; [done|]. split; [destruct (neg a); lia|]. split; [done|]. split; [|by split].
    intros H0. unfold flipIf. rewrite Hna, (proj2 (Z.ltb_ge _ 0)) by lia. done. }
  destruct (IntSet_spec z (gA s) (proj2 HG)) as [EZ HZ]. rewrite (proj1 HG) in EZ. unfold gcd_result. cbn [fst snd]. rewrite EZ.
  split; [split; [by split|split; [|split]]|]; [| |intros Wx Wy|intros Wx].
  - intros ->. destruct (HX eq_refl) as (Ea & Eb & Hn & Hi & Hd & Hlt). rewrite Ea, Eb. split; [by apply Z.divide_abs_l|]. split; [lia|done].
  - intros Wy. destruct (Hy Wy) as [Hyi Ey]. split; [done|]. replace (g - ival b * ival y') with (Z.abs (ival a) * ival Ua) by lia.
    apply Z.divide_abs_l, Z.divide_mul_l, Z.divide_refl.
  - rewrite Wx in *. destruct (HX eq_refl) as (Ea & _). destruct (Hy Wy) as [_ Ey]. lia.
  - rewrite Wx in *. destruct (HX eq_refl) as (_ & Eb & _ & _ & _ & Hlt). lia.
Qed.

Lemma lehmerGCD_spec wantX wantY z x y a b : int_ok a -> int_ok b -> ival a <> 0 -> ival b <> 0 ->
  lehmerGCD scratch wantX wantY z x y a b ⇓ (fun r => gcd_result wantX wantY a b r /\
    (wantX = true -> Z.abs (ival r.1.2) < Z.abs (ival b))).
Proof.
  intros Ha Hb Ha0 Hb0. unfold lehmerGCD. set (ext := wantX || wantY).
  pose proof (IntAbs_spec [] a Ha) as HA. pose proof (IntAbs_spec [] b Hb) as HB.
  apply (returns_bind_mono _ _ (fun '(Ua, Ub) => ext = true -> is_int 1 Ua /\ is_int 0 Ub)).
  { destruct ext; [|done]. eapply returns_bind_mono; [apply SetInt64_spec; lia|]. intros U HU. cbn [returns]. intros _. split; [done|]. apply (is_int_nonneg []), is_nat_nil. }
  intros [Ua Ub] HU. rewrite cmp_spec by (apply HA || apply HB).
  rewrite (ival_abs _ (proj2 HA)), (ival_abs _ (proj2 HB)), (proj1 HA), (proj1 HB), !Z.abs_idemp. cbn [rbind].
  replace (sign (Z.abs (ival a)) (Z.abs (ival b)) <? 0) with (Z.abs (ival a) <? Z.abs (ival b)).
  2: { unfold sign. rewrite Z.gtb_ltb. destruct (Z.ltb_spec (Z.abs (ival a)) (Z.abs (ival b))), (Z.ltb_spec (Z.abs (ival b)) (Z.abs (ival a))); done || lia. }
  set (s0 := if Z.abs (ival a) <? Z.abs (ival b) then _ else _).
  assert (Hbp : 0 < Z.abs (ival b)) by lia.
  assert (Hok : gcd_ok ext (Z.abs (ival a)) (Z.abs (ival b)) s0) by (apply start_ok; done || lia).
  pose proof W_pos as HW. pose proof (len_nonneg (abs a)) as La. pose proof (len_nonneg (abs b)) as Lb.
  assert (Hf : ival (gA s0) * ival (gB s0) < 2 ^ Z.of_nat (Z.to_nat (_W * (len (abs a) + len (abs b))))).
  { rewrite Z2Nat.id by (apply Z.mul_nonneg_nonneg; lia). change (2 ^ (_W * (len (abs a) + len (abs b)))) with (weight (len (abs a) + len (abs b))). rewrite weight_add by lia.
    pose proof (nval_bound (abs a) (proj1 (proj1 Ha))) as B1. pose proof (nval_bound (abs b) (proj1 (proj1 Hb))) as B2. rewrite ival_abs in B1, B2 by done.
    unfold s0. destruct (Z.abs (ival a) <? Z.abs (ival b)); cbn [gA gB]; rewrite (proj1 HA), (proj1 HB); nia. }
  pose proof (gcd_phases scratch Hscratch ext (Z.abs (ival a)) (Z.abs (ival b)) Hbp s0 _ Hok Hf) as GP. clearbody s0.
  destruct (loop _ (lehmerStep scratch ext) s0) as [s1| |]; [|done..]. cbn [rbind] in GP |- *.
  eapply returns_bind_mono; [exact GP|]. clear GP Hok Hf. intros s Hs. by apply gcd_outputs.
Qed.

Lemma len_zero_iff x : int_ok x -> (len (abs x) =? 0) = (ival x =? 0).
Proof.
  intros Hx. destruct (Z.eqb_spec (len (abs x)) 0) as [E|E]; symmetry.
  - apply Z.eqb_eq, ival_zero; [done|]. by apply len_zero_inv in E as ->.
  - apply Z.eqb_neq. intros E0. apply ival_zero, is_nat_zero in E0; [|apply Hx|done]. by rewrite E0 in E.
Qed.

(** [x.SetUint64(1)] with the sign of an operand, or zero. *)
Lemma unit_spec z a : int_ok a ->
  (if len (abs a) =? 0 then SetUint64 z 0 else let! x := SetUint64 z 1 in Ok (withSign (neg a) x)) ⇓ is_int (Z.sgn (ival a)).
Proof.
  intros Ha. rewrite len_zero_iff by done. assert (Hna : neg a = (ival a <? 0)) by (by apply neg_sign). destruct (Z.eqb_spec (ival a) 0) as [->|Hne].
  - apply SetUint64_spec. lia.
  - eapply returns_bind_mono; [apply SetUint64_spec; lia|]. intros u [Eu Hu]. cbn [returns]. unfold withSign. rewrite Hna.
    assert (Ea : nval (abs u) = 1) by (rewrite ival_abs by done; lia). destruct (Z.ltb_spec (ival a) 0).
    + rewrite Z.sgn_neg by done. replace (-1) with (- nval (abs u)) by lia. apply is_int_neg; [apply Hu|lia].
    + rewrite Z.sgn_pos by lia. rewrite <- Ea. apply is_int_nonneg, Hu.
Qed.

Lemma GCD_spec wantX wantY z x y a b : int_ok a -> int_ok b ->
  GCD scratch wantX wantY z x y a b ⇓ (fun r => gcd_result wantX wantY a b r /\
    (wantX = true -> ival b <> 0 -> Z.abs (ival r.1.2) < Z.abs (ival b))).
Proof.
  intros Ha Hb. unfold GCD. destruct ((len (abs a) =? 0) || (len (abs b) =? 0)) eqn:E0.
  - assert (Hz : ival a = 0 \/ ival b = 0) by (rewrite !len_zero_iff in E0 by done; apply orb_true_iff in E0 as [?%Z.eqb_eq|?%Z.eqb_eq]; auto). clear E0.
    assert (Hna : neg a = true -> ival a < 0) by (apply ival_neg, Ha). cbv zeta.
    apply (returns_bind_mono _ _ (fun x' => wantX = true -> is_int (Z.sgn (ival a)) x')).
    { destruct wantX; [|done]. eapply returns_mono; [by apply unit_spec|]. done. }
    intros x' Hx'. apply (returns_bind_mono _ _ (fun y' => wantY = true -> is_int (Z.sgn (ival b)) y')).
    { destruct wantY; [|done]. eapply returns_mono; [by apply unit_spec|]. done. }
    intros y' Hy'. cbn [returns]. set (z' := withSign false (if len (abs a) =? 0 then IntSet z b else IntSet z a)).
    assert (Hz' : is_int (Z.gcd (ival a) (ival b)) z').
    { unfold z', withSign, IntSet. rewrite len_zero_iff by done. destruct (Z.eqb_spec (ival a) 0) as [E|E]; cbn [abs]; rewrite nset_eq.
      - rewrite E, Z.gcd_0_l, <- ival_abs by done. apply is_int_nonneg, Hb.
      - destruct Hz as [|E']; [done|]. rewrite E', Z.gcd_0_r, <- ival_abs by done. apply is_int_nonneg, Ha. }
    clearbody z'. unfold gcd_result. cbn [fst snd]. split; [split; [done|]|].
    + rewrite (proj1 Hz'). split; [|split].
      * intros Wx. destruct (Hx' Wx) as [-> Hi]. split; [|split; [lia|split; [apply Hi|done]]]. destruct Hz as [-> | ->].
        -- rewrite Z.gcd_0_l, Z.mul_0_l, Z.sub_0_r. by apply Z.divide_abs_r.
        -- rewrite Z.gcd_0_r, Z.sgn_abs, Z.sub_diag. apply Z.divide_0_r.
      * intros Wy. destruct (Hy' Wy) as [-> Hi]. split; [done|]. destruct Hz as [-> | ->].
        -- rewrite Z.gcd_0_l, Z.sgn_abs, Z.sub_diag. apply Z.divide_0_r.
        -- rewrite Z.gcd_0_r, Z.mul_0_l, Z.sub_0_r. by apply Z.divide_abs_r.
      * intros Wx Wy. destruct (Hx' Wx) as [-> _], (Hy' Wy) as [-> _]. destruct Hz as [-> | ->]; rewrite ?Z.gcd_0_l, ?Z.gcd_0_r; lia.
    + intros Wx Hne. destruct (Hx' Wx) as [-> _]. destruct Hz as [-> | E]; [cbn; lia|congruence].
  - rewrite !len_zero_iff in E0 by done. apply orb_false_iff in E0 as [Ha0%Z.eqb_neq Hb0%Z.eqb_neq].
    eapply returns_mono; [by apply lehmerGCD_spec|]. intros r [Hr Hx]. split; [done|]. intros Wx _. by apply Hx.
Qed.

(** [g] modulo [n], when it is negative. *)
Lemma mod_if_neg g n : int_ok g -> int_ok n -> 0 < ival n ->
  (if neg g then IntMod scratch [] g n else Ok g) ⇓ (fun g' => int_ok g' /\ 0 <= ival g' /\ ival g' mod ival n = ival g mod ival n).
Proof.
  intros Hg Hn Hp. rewrite (neg_sign (ival g) g) by done. destruct (Z.ltb_spec (ival g) 0) as [Hl|Hl]; [|done].
  pose proof (IntMod_spec scratch Hscratch [] g n Hg Hn) as M. rewrite (proj2 (Z.eqb_neq _ 0)) in M by lia.
  eapply returns_mono; [exact M|]. intros m (q & [E Hm] & Hi). split; [done|]. split; [lia|]. rewrite E.
  rewrite Z.mul_comm, Z.add_comm, Z.mod_add by lia. done.
Qed.

Lemma gcd_mod_eq a a' n : n <> 0 -> a mod n = a' mod n -> Z.gcd a n = Z.gcd a' n.
Proof. intros Hn E. by rewrite <- (gcd_euclid a n), <- (gcd_euclid a' n), E by done. Qed.

Lemma ModInverse_spec z g n : int_ok g -> int_ok n -> ival n <> 0 ->
  ModInverse scratch z g n ⇓ (fun r => match r with
    | Some x => int_ok x /\ 0 <= ival x < Z.abs (ival n) /\ (ival n | ival g * ival x - 1)
    | None => Z.gcd (ival g) (ival n) <> 1
    end).
Proof.
  intros Hg Hn H0. unfold ModInverse. set (n' := if neg n then IntNeg [] n else n).
  assert (Hn' : is_int (Z.abs (ival n)) n').
  { unfold n'. destruct (neg n) eqn:E.
    - destruct (ival_neg n Hn E). rewrite Z.abs_neq by lia. by apply IntNeg_spec.
    - destruct (ival_pos n Hn E). rewrite Z.abs_eq by lia. by split. }
  destruct Hn' as [En Hn']. clearbody n'.
  eapply returns_bind_mono; [apply mod_if_neg; done || lia|]. intros g' (Hg' & Hg0 & Hgm). rewrite En in Hgm.
  assert (Eg : Z.gcd (ival g') (Z.abs (ival n)) = Z.gcd (ival g) (ival n)) by (rewrite <- (Z.gcd_abs_r (ival g)); by apply gcd_mod_eq; [lia|]).
  eapply returns_bind_mono; [by apply (GCD_spec true false)|]. intros [[d x] y] [([Ed Hd] & HX & _ & _) Hlt]. cbn [fst snd] in Hlt.
  destruct (HX eq_refl) as (Hdiv & _ & _ & Hix). specialize (Hlt eq_refl ltac:(lia)). specialize (Hix Hg0). destruct intOne_ok as [V1 H1].
  rewrite Ed in Hdiv. rewrite En, Eg in *. rewrite IntCmp_spec by done. rewrite Ed, V1. cbn [rbind].
  destruct (Z.eqb_spec (sign (Z.gcd (ival g) (ival n)) 1) 0) as [Es|Es]; cbn [negb].
  2: { cbn [returns]. intros E1. rewrite E1 in Es. by rewrite sign_refl in Es. }
  assert (E1 : Z.gcd (ival g) (ival n) = 1).
  { unfold sign in Es. rewrite Z.gtb_ltb in Es. destruct (Z.ltb_spec (Z.gcd (ival g) (ival n)) 1), (Z.ltb_spec 1 (Z.gcd (ival g) (ival n))); lia. }
  rewrite E1 in *. rewrite (neg_sign (ival x) x) by done.
  assert (Hgx : forall v, v mod Z.abs (ival n) = ival x mod Z.abs (ival n) -> (ival n | ival g * v - 1)).
  { intros v Ev. apply Z.divide_abs_l, Z.mod_divide; [lia|]. rewrite Zminus_mod, Z.mul_mod, Ev, <- Hgm, <- Z.mul_mod, <- Zminus_mod by lia.
    apply Z.mod_divide; [lia|]. replace (ival g' * ival x - 1) with (- (1 - ival g' * ival x)) by lia. by apply Z.divide_opp_r. }
  apply (returns_bind_mono _ _ (fun r => int_ok r /\ 0 <= ival r < Z.abs (ival n) /\ (ival n | ival g * ival r - 1))); [|done].
  destruct (Z.ltb_spec (ival x) 0) as [Hneg|Hpos].
  - eapply returns_mono; [apply IntAdd_spec; [apply Hix|apply Hn']|]. intros r [Er Hr]. split; [done|]. rewrite Er, En. split; [lia|].
    apply Hgx. rewrite <- (Z.mul_1_l (Z.abs (ival n))) at 1. by rewrite Z.mod_add by lia.
  - destruct (IntSet_spec z x Hix) as [Er Hr]. cbn [returns]. rewrite Er. split; [done|]. split; [lia|]. by apply Hgx.
Qed.
End Results.
End Words.
