(* ===== verification/BigExp.v ===== *)
(** * Package math/big: exponentiation (model)

    montgomery, expNN and the exponentiations it chooses from (by Montgomery
    multiplication, by windows modulo a power of two, by the Chinese remainder
    theorem for other even moduli) of src/math/big/nat.go, and Int.Exp of
    int.go.  expNNMontgomeryEven calls expNN for a power of two and for an odd
    modulus, which do not call it again: two nested calls are enough fuel. *)
From Stdlib Require Import ZArith Lia.
From stdpp Require Import base numbers list.
From S2P Require Import Prelude Bits BigWords BigNat BigMul BigDivide BigBits BigNatFuns BigInt BigGcd.

Section Model.
Context `{P : Platform}.

(** One round of montgomery: [i], the vector and the carry. *)
Definition montStep (x y m : list Z) (k n : Z) (z : list Z) (c i : Z) : res (list Z * Z) :=
  let! d := idx y i in
  let! '(z, c2) := onRange z i (n + i) (fun w => addMulVVWW w Same (Vec x) d 0) in
  let! zi := idx z i in
  let t := word (zi * k) in
  let! '(z, c3) := onRange z i (n + i) (fun w => addMulVVWW w Same (Vec m) t 0) in
  let cx := word (c + c2) in
  let cy := word (cx + c3) in
  let! z := upd z (n + i) cy in
  Ok (z, if (cx <? c2) || (cy <? c3) then 1 else 0).

Definition montgomery (z x y m : list Z) (k n : Z) : res (list Z) :=
  if negb (len x =? n) || negb (len y =? n) || negb (len m =? n) then Panic else
  let z := zeros (len (nmake z (n * 2))) in
  let! '(z, c) :=
    loop (S (length x))
      (fun '(z, c, i) =>
         if i <? n then
           let! '(z, c) := montStep x y m k n z c i in
           Ok (inl (z, c, i + 1))
         else Ok (inr (z, c))) (z, 0, 0) in
  let! hi := slice z n (len z) in
  let! z :=
    if negb (c =? 0) then
      let! '(z, _) := onRange z 0 n (fun w => subVV w (Vec hi) (Vec m)) in
      Ok z
    else
      let! '(z, _) := onRange z 0 n (fun w => Ok (copyAll w (Vec hi), tt)) in
      Ok z in
  slice z 0 n.

Section Scratch.
Context (scratch : Z -> list Z).

Definition nrem (z u v : list Z) : res (list Z) :=
  let q := scratch (Z.max 1 (len u - (len v - 1))) in
  let! '(_, r) := ndiv scratch q z u v in
  Ok r.

(** ** Square and multiply *)

Record expState := mkExp { ez : list Z; ezz : list Z; eq_ : list Z; er : list Z }.

Definition expBit (x m : list Z) (v : Z) (s : expState) : res expState :=
  let '(mkExp z zz q r) := s in
  let! zz := nsqr scratch zz z in
  let '(zz, z) := (z, zz) in
  let! '(zz, z) :=
    if negb (Z.land v (Z.shiftl 1 (_W - 1)) =? 0) then
      let! zz := nmul scratch zz z x in
      Ok (z, zz)
    else Ok (zz, z) in
  if negb (len m =? 0) then
    let! '(zz, r) := ndiv scratch zz r z m in
    Ok (mkExp r q zz z)
  else Ok (mkExp z zz q r).

Fixpoint expBits (x m : list Z) (j : nat) (v : Z) (s : expState) : res expState :=
  match j with
  | O => Ok s
  | S j =>
      let! s := expBit x m v s in
      expBits x m j (word (Z.shiftl v 1)) s
  end.

(** The words of the exponent below the [i]th, from the highest one. *)
Fixpoint expWords (x y m : list Z) (i : nat) (s : expState) : res expState :=
  match i with
  | O => Ok s
  | S i =>
      let! v := idx y (Z.of_nat i) in
      let! s := expBits x m (Z.to_nat _W) v s in
      expWords x y m i s
  end.

Definition expBinary (z x y m : list Z) : res (list Z) :=
  let z := nset z x in
  let! v := idx y (len y - 1) in
  let! n := nlz v in
  let shift := n + 1 in
  let v := word (Z.shiftl v shift) in
  let w := _W - shift in
  let! s := expBits x m (Z.to_nat w) v (mkExp z [] [] []) in
  let! s := expWords x y m (Z.to_nat (len y - 1)) s in
  norm (ez s).

(** ** Windows of four bits *)

Definition winBits : Z := 4.

(** The windows of one word: [pow4] raises to the 16th power, [mulp] multiplies
    by a small power of the base.  [advance] tells whether this is not the
    first window. *)
Section Windows.
Context (pow4 : list Z -> list Z -> res (list Z * list Z)).
Context (mulp : list Z -> list Z -> Z -> res (list Z * list Z)).

Fixpoint winWord (j : nat) (yi : Z) (advance : bool) (z zz : list Z) : res (list Z * list Z) :=
  match j with
  | O => Ok (z, zz)
  | S j =>
      let! '(z, zz) := if advance then pow4 z zz else Ok (z, zz) in
      let! '(z, zz) := mulp z zz (Z.shiftr yi (_W - winBits)) in
      winWord j (word (Z.shiftl yi winBits)) true z zz
  end.

(** The words of [y] below the [i]th; [top] gives the bits used of the word. *)
Fixpoint winWords (y : list Z) (top : Z -> Z -> Z) (i : nat) (advance : bool) (z zz : list Z) : res (list Z * list Z) :=
  match i with
  | O => Ok (z, zz)
  | S i =>
      let! yi := idx y (Z.of_nat i) in
      let! '(z, zz) := winWord (Z.to_nat (_W / winBits)) (top (Z.of_nat i) yi) advance z zz in
      winWords y top i true z zz
  end.
End Windows.

(** ** Powers modulo a power of two *)

Definition sqrTrunc (logM : Z) (z zz : list Z) : res (list Z * list Z) :=
  let! zz := nsqr scratch zz z in
  let '(zz, z) := (z, zz) in
  let! z := trunc z z logM in
  Ok (z, zz).

Definition pow4Windowed (logM : Z) (z zz : list Z) : res (list Z * list Z) :=
  let! '(z, zz) := sqrTrunc logM z zz in
  let! '(z, zz) := sqrTrunc logM z zz in
  let! '(z, zz) := sqrTrunc logM z zz in
  sqrTrunc logM z zz.

Definition mulWindowed (logM : Z) (powers : list (list Z)) (z zz : list Z) (d : Z) : res (list Z * list Z) :=
  let! p := idx powers d in
  let! zz := nmul scratch zz z p in
  let '(zz, z) := (z, zz) in
  let! z := trunc z z logM in
  Ok (z, zz).

Definition powersWindowed (x : list Z) (logM w : Z) : res (list (list Z)) :=
  let powers := replicate 16 (scratch w) in
  let! p0 := idx powers 0 in
  let! powers := upd powers 0 (nset p0 natOne) in
  let! p1 := idx powers 1 in
  let! p1 := trunc p1 x logM in
  let! powers := upd powers 1 p1 in
  loop 8
    (fun '(powers, i) =>
       if i <? Z.shiftl 1 winBits then
         let! p2 := idx powers (i / 2) in
         let! p := idx powers i in
         let! p1 := idx powers (i + 1) in
         let! p := nsqr scratch p p2 in
         let! p := trunc p p logM in
         let! p1 := nmul scratch p1 p x in
         let! p1 := trunc p1 p1 logM in
         let! powers := upd powers i p in
         let! powers := upd powers (i + 1) p1 in
         Ok (inl (powers, i + 2))
       else Ok (inr powers)) (powers, 2).

Definition expNNWindowed (z x y : list Z) (logM : Z) : res (list Z) :=
  if len y <=? 1 then Panic else
  let! x0 := idx x 0 in
  if Z.land x0 1 =? 0 then setWord z 0 else
  if logM =? 1 then setWord z 1 else
  let w := (logM + _W - 1) / _W in
  let zz := scratch w in
  let! powers := powersWindowed x logM w in
  let i := len y - 1 in
  let mtop := (logM - 2) / _W in
  let mbits := Z.land (logM - 1) (_W - 1) in
  let mmask := if negb (mbits =? 0) then word (Z.shiftl 1 mbits) - 1 else _M in
  let i := if i >? mtop then mtop else i in
  let! z := setWord z 1 in
  let! '(z, _) :=
    winWords (pow4Windowed logM) (mulWindowed logM powers) y
      (fun i yi => if i =? mtop then Z.land yi mmask else yi) (Z.to_nat (i + 1)) false z zz in
  norm z.

(** ** Montgomery exponentiation *)

(** [-1/m0] modulo the word size *)
Definition negInverse (m0 : Z) : res Z :=
  let k0 := word (2 - m0) in
  let t := word (m0 - 1) in
  loop 8
    (fun '(k0, t, i) =>
       if i <? _W then
         let t := word (t * t) in
         let k0 := word (k0 * word (t + 1)) in
         Ok (inl (k0, t, Z.shiftl i 1))
       else Ok (inr (word (- k0)))) (k0, t, 1).

Definition pow4Montgomery (m : list Z) (k0 n : Z) (z zz : list Z) : res (list Z * list Z) :=
  let! zz := montgomery zz z z m k0 n in
  let! z := montgomery z zz zz m k0 n in
  let! zz := montgomery zz z z m k0 n in
  let! z := montgomery z zz zz m k0 n in
  Ok (z, zz).

Definition mulMontgomery (m : list Z) (k0 n : Z) (powers : list (list Z)) (z zz : list Z) (d : Z) : res (list Z * list Z) :=
  let! p := idx powers d in
  let! zz := montgomery zz z p m k0 n in
  Ok (zz, z).

Definition powersMontgomery (x one RR m : list Z) (k0 n : Z) : res (list (list Z)) :=
  let powers := replicate 16 [] in
  let! p0 := montgomery [] one RR m k0 n in
  let! powers := upd powers 0 p0 in
  let! p1 := montgomery [] x RR m k0 n in
  let! powers := upd powers 1 p1 in
  loop 15
    (fun '(powers, i) =>
       if i <? Z.shiftl 1 winBits then
         let! p := idx powers i in
         let! q := idx powers (i - 1) in
         let! p1 := idx powers 1 in
         let! p := montgomery p q p1 m k0 n in
         let! powers := upd powers i p in
         Ok (inl (powers, i + 1))
       else Ok (inr powers)) (powers, 2).

(** [rr := make(nat, n); copy(rr, x)] when [x] is shorter *)
Definition extend (z x : list Z) (n : Z) : list Z :=
  if len x <? n then copyFront (nmake z n) x else x.

Definition expNNMontgomery (z x y m : list Z) : res (list Z) :=
  let numWords := len m in
  let! x :=
    if len x >? numWords then
      let! '(_, x) := ndiv scratch [] [] x m in
      Ok x
    else Ok x in
  let x := extend (zeros numWords) x numWords in
  let! m0 := idx m 0 in
  let! k0 := negInverse m0 in
  let! RR := setWord [] 1 in
  let! zz := lsh [] RR (2 * numWords * _W) in
  let! '(_, RR) := ndiv scratch [] RR zz m in
  let RR := extend zz RR numWords in
  let! one := upd (zeros numWords) 0 1 in
  let! powers := powersMontgomery x one RR m k0 numWords in
  let! p0 := idx powers 0 in
  let z := copyFront (nmake z numWords) p0 in
  let zz := nmake zz numWords in
  let! '(z, zz) :=
    winWords (pow4Montgomery m k0 numWords) (mulMontgomery m k0 numWords powers) y
      (fun _ yi => yi) (length y) false z zz in
  let! zz := montgomery zz z one m k0 numWords in
  let! c := cmp zz m in
  let! zz :=
    if c >=? 0 then
      let! zz := nsub zz zz m in
      let! c := cmp zz m in
      if c >=? 0 then
        let! '(_, r) := ndiv scratch [] [] zz m in
        Ok r
      else Ok zz
    else Ok zz in
  norm zz.

(** ** The choice *)

Definition isOne (x : list Z) : res bool :=
  if len x =? 1 then (let! w := idx x 0 in Ok (w =? 1)) else Ok false.

Definition expNNMontgomeryEven (expNN : list Z -> list Z -> list Z -> list Z -> bool -> res (list Z)) (z x y m : list Z) : res (list Z) :=
  let! n := trailingZeroBits m in
  let! m1 := lsh [] natOne n in
  let! m2 := rsh [] m n in
  let! z1 := expNN [] x y m1 false in
  let! z2 := expNN [] x y m2 false in
  let z := nset z z2 in
  let! z1 := subMod2N z1 z1 z2 n in
  let! m2inv := nmodInverse scratch [] m2 m1 in
  let! z2 := nmul scratch z2 z1 m2inv in
  let! z2 := trunc z2 z2 n in
  let! p := nmul scratch z1 z2 m2 in
  nadd z z p.

Fixpoint expNNF (fuel : nat) (z x y m : list Z) (slow : bool) : res (list Z) :=
  match fuel with
  | O => NoFuel
  | S fuel =>
      let! m1 := isOne m in
      if m1 then setWord z 0 else
      if len y =? 0 then setWord z 1 else
      if len x =? 0 then setWord z 0 else
      let! x1 := isOne x in
      if x1 then setWord z 1 else
      let! y1 := isOne y in
      if y1 && (len m =? 0) then Ok (nset z x) else
      if y1 then nrem z x m else
      if negb (len m =? 0) then
        let z := nmake z (len m) in
        if (len y >? 1) && negb slow then
          let! m0 := idx m 0 in
          if Z.land m0 1 =? 1 then expNNMontgomery z x y m else
          let! '(logM, ok) := isPow2 m in
          if (ok : bool) then expNNWindowed z x y logM else
          expNNMontgomeryEven (expNNF fuel) z x y m
        else expBinary z x y m
      else expBinary z x y m
  end.
Definition expNN (z x y m : list Z) (slow : bool) : res (list Z) := expNNF 2 z x y m slow.

(** ** Int.Exp *)

(** The power of the base's words, then its sign. *)
Definition expSigned (z xWords : list Z) (x y : Int) (mWords : list Z) (slow : bool) : res Int :=
  let yWords := abs y in
  let! a := expNN z xWords yWords mWords slow in
  let! ng :=
    if (len a >? 0) && neg x && (len yWords >? 0) then
      let! w := idx yWords 0 in
      Ok (Z.land w 1 =? 1)
    else Ok false in
  if (ng : bool) && (len mWords >? 0) then
    let! a := nsub a mWords a in
    Ok (mkInt false a)
  else Ok (mkInt ng a).

(** The modulus may be nil; the result may be nil. *)
Definition iexp (z : list Z) (x y : Int) (m : option Int) (slow : bool) : res (option Int) :=
  let mWords := match m with Some m => abs m | None => [] end in
  if neg y then
    match m with
    | Some m =>
        if len (abs m) =? 0 then
          let! z := SetInt64 z 1 in
          Ok (Some z)
        else
          let! inverse := ModInverse scratch [] x m in
          match inverse with
          | None => Ok None
          | Some inverse =>
              let! z := expSigned z (abs inverse) x y mWords slow in
              Ok (Some z)
          end
    | None =>
        let! z := SetInt64 z 1 in
        Ok (Some z)
    end
  else
    let! z := expSigned z (abs x) x y mWords slow in
    Ok (Some z).

Definition Exp (z : list Z) (x y : Int) (m : option Int) : res (option Int) := iexp z x y m false.
Definition expSlow (z : list Z) (x y : Int) (m : option Int) : res (option Int) := iexp z x y m true.
End Scratch.
End Model.
