(* ===== verification/BigExpCorrect.v ===== *)
(** * Package math/big: exponentiation computes powers

    Montgomery multiplication divides by the radix modulo an odd number; the
    three exponentiations of expNN, and the square-and-multiply loop, return
    the power modulo the modulus (the power itself without one). *)
From Stdlib Require Import ZArith Lia Setoid Morphisms.
From stdpp Require Import base numbers list.
From S2P Require Import Prelude Bits BigWords BigWordsCorrect BigNat BigNatCorrect BigMul BigMulCorrect BigDivide BigDiv BigDivRec BigBits BigNatFuns BigInt BigIntCorrect BigGcd BigGcdCorrect BigExp.

(** ** Congruence *)

Definition cong (m a b : Z) : Prop := (m | a - b).

#[export] Instance cong_equiv m : Equivalence (cong m).
Proof.
  unfold cong. split.
  - intros a. rewrite Z.sub_diag. apply Z.divide_0_r.
  - intros a b H. replace (b - a) with (- (a - b)) by lia. by apply Z.divide_opp_r.
  - intros a b c H1 H2. replace (a - c) with ((a - b) + (b - c)) by lia. by apply Z.divide_add_r.
Qed.
#[export] Instance cong_add m : Proper (cong m ==> cong m ==> cong m) Z.add.
Proof. unfold cong. intros a a' Ha b b' Hb. replace (a + b - (a' + b')) with ((a - a') + (b - b')) by lia. by apply Z.divide_add_r. Qed.
#[export] Instance cong_sub m : Proper (cong m ==> cong m ==> cong m) Z.sub.
Proof. unfold cong. intros a a' Ha b b' Hb. replace (a - b - (a' - b')) with ((a - a') - (b - b')) by lia. by apply Z.divide_sub_r. Qed.
#[export] Instance cong_mul m : Proper (cong m ==> cong m ==> cong m) Z.mul.
Proof.
  unfold cong. intros a a' Ha b b' Hb. replace (a * b - a' * b') with ((a - a') * b + a' * (b - b')) by lia.
  apply Z.divide_add_r; [by apply Z.divide_mul_l|by apply Z.divide_mul_r].
Qed.
#[export] Instance cong_opp m : Proper (cong m ==> cong m) Z.opp.
Proof. unfold cong. intros a a' Ha. replace (- a - - a') with (- (a - a')) by lia. by apply Z.divide_opp_r. Qed.

Lemma cong_pow m a b e : 0 <= e -> cong m a b -> cong m (a ^ e) (b ^ e).
Proof.
  intros He Hab. revert e He. apply natlike_ind; [done|]. intros e He IH. rewrite !Z.pow_succ_r by done. by rewrite IH, Hab.
Qed.

Lemma cong_mod m a b : m <> 0 -> cong m a b <-> a mod m = b mod m.
Proof.
  intros Hm. unfold cong. split.
  - intros [k E]. replace a with (b + k * m) by lia. by apply Z.mod_add.
  - intros E. apply Z.mod_divide; [done|]. by rewrite Zminus_mod, E, Z.sub_diag, Z.mod_0_l.
Qed.

Lemma mod_cong m a : m <> 0 -> cong m (a mod m) a.
Proof. intros Hm. apply cong_mod; [done|]. by apply Z.mod_mod. Qed.

Lemma cong_small m a b : 0 <= a < m -> 0 <= b < m -> cong m a b -> a = b.
Proof. intros Ha Hb H. apply cong_mod in H; [|lia]. by rewrite !Z.mod_small in H. Qed.

(** A factor prime to the modulus cancels. *)
Lemma cong_cancel m r a b : Z.gcd m r = 1 -> cong m (a * r) (b * r) -> cong m a b.
Proof.
  unfold cong. intros Hg H. replace (a * r - b * r) with (r * (a - b)) in H by lia. by apply (Z.gauss m r).
Qed.

Lemma odd_coprime m k : Z.odd m = true -> 0 <= k -> Z.gcd m (2 ^ k) = 1.
Proof.
  intros Hm Hk. assert (G2 : Z.gcd m 2 = 1).
  { pose proof (Z.gcd_nonneg m 2). pose proof (Z.gcd_divide_r m 2) as D. pose proof (Z.gcd_divide_l m 2) as [q E]. apply Z.divide_pos_le in D; [|lia].
    assert (Z.gcd m 2 <> 0) by (intros E0; apply Z.gcd_eq_0 in E0; lia). assert (Z.gcd m 2 = 1 \/ Z.gcd m 2 = 2) as [|E2] by lia; [done|].
    rewrite E2 in E. rewrite E, Z.odd_mul, andb_false_r in Hm. done. }
  revert k Hk. apply natlike_ind; [apply Z.gcd_1_r|]. intros k Hk IH. rewrite Z.pow_succ_r by done.
  by apply Z.coprime_mul_r.
Qed.

Section Montgomery.
Context `{P : Platform}.
Abbreviation nval := (val _W).
Abbreviation Bw := (2 ^ _W).

(** The two overflow tests add up to the carry. *)
Lemma carry_sum c c2 c3 : 0 <= c <= 1 -> word_ok c2 -> word_ok c3 ->
  let cx := word (c + c2) in let cy := word (cx + c3) in let c' := if (cx <? c2) || (cy <? c3) then 1 else 0 in
  c + c2 + c3 = cy + Bw * c' /\ word_ok cy /\ 0 <= c' <= 1.
Proof.
  unfold word_ok, word. intros Hc H2 H3. pose proof B_pos. cbv zeta.
  assert (Ex : (c + c2) mod Bw = if c + c2 <? Bw then c + c2 else 0).
  { destruct (Z.ltb_spec (c + c2) Bw); [apply Z.mod_small; lia|]. symmetry. apply (Z.mod_unique_pos _ _ 1); lia. }
  rewrite Ex. destruct (Z.ltb_spec (c + c2) Bw) as [H1|H1].
  - rewrite (proj2 (Z.ltb_ge (c + c2) c2)) by lia. cbn [orb]. destruct (Z.ltb_spec (c + c2 + c3) Bw) as [Hs|Hs].
    + rewrite (Z.mod_small (c + c2 + c3)) by lia. rewrite (proj2 (Z.ltb_ge _ c3)) by lia. lia.
    + replace ((c + c2 + c3) mod Bw) with (c + c2 + c3 - Bw) by (apply (Z.mod_unique_pos _ _ 1); lia). rewrite (proj2 (Z.ltb_lt _ c3)) by lia. lia.
  - rewrite (proj2 (Z.ltb_lt 0 c2)) by lia. cbn [orb]. rewrite (Z.mod_small (0 + c3)) by lia. lia.
Qed.

Section Rounds.
Context (x y m : list Z) (k n : Z).
Context (Hx : words_ok x) (Hy : words_ok y) (Hm : words_ok m) (Lx : len x = n) (Ly : len y = n) (Lm : len m = n) (Hn : 0 < n).
Context (Hk : cong Bw (nval m * k) (-1)).

Lemma montStep_spec pre p e rest c i d :
  len pre = i -> len p = n -> words_ok p -> 0 <= c <= 1 -> y !! Z.to_nat i = Some d ->
  montStep x y m k n (pre ++ p ++ e :: rest) c i ⇓ (fun '(z', c') => exists p' w t,
    z' = (pre ++ [w]) ++ p' ++ rest /\ len p' = n /\ words_ok p' /\ 0 <= c' <= 1 /\ word_ok t /\
    Bw * (nval p' + weight n * c') = nval p + weight n * c + nval x * d + nval m * t).
Proof.
  intros Lp Lpn Hp Hc Hd. unfold montStep. assert (Hdw : word_ok d) by (by eapply (Forall_lookup_1 (fun w => 0 <= w < Bw) y)).
  pose proof B_pos as HB. rewrite (idx_Ok y i d) by (done || len_lia). cbn [rbind]. rewrite onRange_app by lia.
  destruct (returns_inv _ _ (addMulVVWW_spec p Same (Vec x) d 0 eq_refl ltac:(cbn [words]; unfold len in *; lia) Hp Hx Hdw ltac:(unfold word_ok; lia))) as ([p1 c2] & -> & E1 & Hp1 & Lp1 & Hc2).
  cbn [rbind words] in *. destruct p1 as [|zi p1t]; [unfold len in *; cbn in *; lia|].
  assert (Ei : idx (pre ++ (zi :: p1t) ++ e :: rest) i = Ok zi) by (by apply idx_app). rewrite Ei. cbn [rbind]. set (t := word (zi * k)). assert (Ht : word_ok t) by (apply Z.mod_pos_bound; lia).
  rewrite onRange_app by (unfold len in *; lia).
  destruct (returns_inv _ _ (addMulVVWW_spec (zi :: p1t) Same (Vec m) t 0 eq_refl ltac:(cbn [words]; unfold len in *; lia) Hp1 Hm Ht ltac:(unfold word_ok; lia))) as ([p2 c3] & -> & E2 & Hp2 & Lp2 & Hc3).
  cbn [rbind words] in *. destruct p2 as [|f p2t]; [unfold len in *; cbn in *; lia|].
  pose proof (carry_sum c c2 c3 Hc Hc2 Hc3) as CS. cbv zeta in CS. set (cy := word (word (c + c2) + c3)) in *. set (c' := if (word (c + c2) <? c2) || (cy <? c3) then 1 else 0) in *.
  destruct CS as (CS & Hcy & Hc'). rewrite app_assoc, upd_app by (rewrite len_app; unfold len in *; lia). cbn [rbind returns].
  exists (p2t ++ [cy]), f, t. apply Forall_cons_1 in Hp2 as [Hf Hp2t].
  assert (L2 : len p2t = n - 1) by (unfold len in *; cbn [length] in *; lia).
  assert (Lz : len (zi :: p1t) = n) by (unfold len in *; lia). rewrite Lpn in E1. rewrite Lz in E2.
  split; [by rewrite <- !app_assoc|]. split; [len_lia|]. split; [apply words_ok_app; split; [done|by constructor]|]. split; [done|]. split; [done|].
  assert (Ew : weight n = Bw * weight (n - 1)) by (rewrite <- weight_1, <- weight_add by lia; f_equal; lia).
  (* the low word vanishes *)
  assert (f = 0) as ->.
  { assert (Hlow : cong Bw f (zi + t * nval m)).
    { rewrite !nval_cons in E2. unfold cong. exists (nval p1t - nval p2t - weight (n - 1) * c3). rewrite Ew in E2. lia. }
    assert (H0 : cong Bw (zi + t * nval m) 0).
    { unfold t, word. rewrite mod_cong by lia. replace (zi + zi * k * nval m) with (zi * (1 + nval m * k)) by ring. rewrite Hk.
      replace (zi * (1 + -1)) with 0 by lia. reflexivity. }
    apply (cong_small Bw); [done|lia|]. by rewrite Hlow. }
  rewrite nval_cons in E2. rewrite nval_snoc, L2. rewrite nval_cons in E1, E2.
  assert (Bw * (nval p2t + weight (n - 1) * cy + weight n * c') = Bw * nval p2t + weight n * (cy + Bw * c')) as -> by (rewrite Ew; ring).
  rewrite <- CS. lia.
Qed.

(** After [i] rounds: [weight i] times the running number. *)
Definition mont_inv (st : list Z * Z * Z) : Prop :=
  let '(z, c, i) := st in
  0 <= i <= n /\ 0 <= c <= 1 /\ exists pre p rest T, z = pre ++ p ++ rest /\ len pre = i /\ len p = n /\ len rest = n - i /\ words_ok p /\
  0 <= T < weight i /\ weight i * (nval p + weight n * c) = nval x * nval (take (Z.to_nat i) y) + nval m * T.

Lemma mont_loop :
  loop (S (length x))
      (fun '(z, c, i) =>
         if i <? n then
           let! '(z, c) := montStep x y m k n z c i in
           Ok (inl (z, c, i + 1))
         else Ok (inr (z, c))) (zeros (n * 2), 0, 0)
  ⇓ (fun '(z, c) => mont_inv (z, c, n)).
Proof.
  pose proof B_pos as HB.
  apply (loop_returns mont_inv (fun '(_, _, i) => n - i)).
  - intros [[z c] i] (Hi & Hc & pre & p & rest & T & -> & Lp & Lpn & Lr & Hp & HT & E). destruct (Z.ltb_spec i n) as [Hlt|Hge].
    + destruct rest as [|e rest]; [len_lia|]. destruct (lookup_lt_is_Some_2 y (Z.to_nat i)) as [d Hd]; [unfold len in *; lia|].
      eapply returns_bind_mono; [by apply montStep_spec|]. intros [z' c'] (p' & w & t & -> & Lp' & Hp' & Hc' & Ht & E'). cbn [returns].
      split; [|lia]. split; [lia|]. split; [done|]. exists (pre ++ [w]), p', rest, (T + weight i * t). split; [done|]. split; [len_lia|]. split; [done|]. split; [len_lia|]. split; [done|].
      rewrite weight_add, weight_1 by lia. assert (0 < weight i) by (apply weight_pos; lia). unfold word_ok in Ht. split; [nia|].
      replace (Z.to_nat (i + 1)) with (S (Z.to_nat i)) by lia. rewrite (take_S_r _ _ _ Hd), nval_snoc.
      replace (len (take (Z.to_nat i) y)) with i by (unfold len in *; rewrite length_take; lia).
      rewrite <- Z.mul_assoc, E'. rewrite Z.mul_add_distr_l, Z.mul_add_distr_l, E. ring.
    + assert (i = n) as -> by lia. cbn [returns]. split; [done|]. split; [done|]. by exists pre, p, rest, T.
  - split; [lia|]. split; [lia|]. exists [], (zeros n), (zeros n), 0. rewrite weight_0, take_0. pose proof (words_ok_zeros n). pose proof (len_zeros n ltac:(lia)).
    assert (Z0 : nval (zeros n) = 0) by apply nval_zeros. rewrite Z0.
    split; [unfold zeros; replace (Z.to_nat (n * 2)) with (Z.to_nat n + Z.to_nat n)%nat by lia; by rewrite replicate_add|]. split; [done|]. split; [done|]. split; [lia|]. split; [done|]. split; [lia|]. cbn [val]. lia.
  - unfold len in *. lia.
  - lia.
Qed.

Lemma montgomery_spec z : montgomery z x y m k n ⇓ (fun r =>
  words_ok r /\ len r = n /\ cong (nval m) (nval r * weight n) (nval x * nval y)).
Proof.
  unfold montgomery. rewrite (proj2 (Z.eqb_eq (len x) n)), (proj2 (Z.eqb_eq (len y) n)), (proj2 (Z.eqb_eq (len m) n)) by done. cbn [negb orb].
  rewrite len_nmake by lia. eapply returns_bind_mono; [apply mont_loop|]. intros [z' c] (_ & Hc & pre & p & rest & T & -> & Lp & Lpn & Lr & Hp & HT & E).
  assert (rest = []) as -> by (apply len_zero_inv; lia). rewrite app_nil_r in *. rewrite take_ge in E by (unfold len in *; lia).
  rewrite slice_back by (rewrite ?len_app; lia). cbn [rbind].
  assert (Hcong : cong (nval m) ((nval p + weight n * c) * weight n) (nval x * nval y)) by (exists T; lia).
  destruct (Z.eqb_spec c 0) as [->|Hne]; cbn [negb].
  - assert (Ec : copyAll pre (Vec p) = p) by (unfold copyAll, copyFrom; change (Z.to_nat 0) with 0%nat; by rewrite take_0, drop_0).
    rewrite onRange_front, Ec by lia. cbn [rbind]. rewrite slice_front by lia. cbn [returns].
    split; [done|]. split; [done|]. replace (nval p + weight n * 0) with (nval p) in Hcong by lia. done.
  - assert (c = 1) as -> by lia. rewrite onRange_front by lia. apply returns_bind, returns_bind, returns_bind.
    eapply returns_mono; [apply (subVV_spec pre (Vec p) (Vec m)); cbn [words]; (done || (unfold len in *; lia))|].
    intros [r b] (Er & Hr & Lr' & Hb). cbn [words returns] in *. assert (Lr2 : len r = n) by (unfold len in *; lia).
    rewrite slice_front by done. cbn [returns]. split; [done|]. split; [done|]. rewrite Lp in Er.
    pose proof (nval_bound p Hp) as Bp. pose proof (nval_bound r Hr) as Br. pose proof (nval_bound m Hm) as Bm. pose proof (nval_bound x Hx) as Bx. pose proof (nval_bound y Hy) as By.
    rewrite ?Lpn, ?Lr2, ?Lm, ?Lx, ?Ly in *. set (w := weight n) in *.
    assert (Hlt : nval p + w * 1 - nval m < w).
    { assert (w * (nval p + w * 1) < w * (w + nval m)); [|nia]. rewrite E. nia. }
    assert (b = 1) as -> by nia. rewrite <- Hcong. unfold cong. exists (- w). nia.
Qed.
End Rounds.

Lemma word_cong a : cong Bw (word a) a.
Proof. unfold word. apply mod_cong. pose proof B_pos. lia. Qed.

(** Newton's iteration for [-1/m0]. *)
Lemma negInverse_spec m0 : Z.odd m0 = true -> negInverse m0 ⇓ (fun k => cong Bw (m0 * k) (-1)).
Proof.
  intros Hodd. pose proof B_pos as HB. unfold negInverse.
  apply (loop_returns (fun '(k0, t, i) => cong Bw (m0 * k0) (1 - t * t) /\ exists j, 0 <= j <= 6 /\ i = 2 ^ j /\ (2 ^ Z.min i _W | t))
           (fun '(_, _, i) => 7 - Z.log2 i)).
  - intros [[k0 t] i] (Hk & j & Hj & -> & Ht). assert (0 < 2 ^ j) by lia. pose proof W_pos as HW. destruct (Z.ltb_spec (2 ^ j) _W) as [Hlt|Hge]; cbn [returns].
    + assert (j < 6). { destruct (Z.lt_ge_cases j 6); [done|]. assert (j = 6) as -> by lia. change (2 ^ 6) with 64 in Hlt. destruct _W_ok; lia. }
      rewrite Z.shiftl_mul_pow2 by lia. rewrite <- Z.pow_add_r by lia. split; [split|].
      * rewrite !word_cong. rewrite Z.mul_assoc, Hk. replace ((1 - t * t) * (t * t + 1)) with (1 - t * t * (t * t)) by ring. reflexivity.
      * exists (j + 1). split; [lia|]. split; [done|]. rewrite (Z.min_l (2 ^ j)) in Ht by lia.
        apply (Z.divide_trans _ (2 ^ Z.min (2 ^ j + 2 ^ j) _W)).
        { rewrite Z.pow_add_r by lia. change (2 ^ 1) with 2. replace (2 ^ j * 2) with (2 ^ j + 2 ^ j) by lia. apply Z.divide_refl. }
        assert (Htt : (2 ^ Z.min (2 ^ j + 2 ^ j) _W | t * t)).
        { apply (Z.divide_trans _ (2 ^ (2 ^ j + 2 ^ j))); [|rewrite Z.pow_add_r by lia; destruct Ht as [q ->]; exists (q * q); ring].
          exists (2 ^ (2 ^ j + 2 ^ j - Z.min (2 ^ j + 2 ^ j) _W)). rewrite <- Z.pow_add_r by lia. f_equal. lia. }
        unfold word. rewrite Z.mod_eq by lia. apply Z.divide_sub_r; [done|]. apply Z.divide_mul_l.
        exists (2 ^ (_W - Z.min (2 ^ j + 2 ^ j) _W)). rewrite <- Z.pow_add_r by lia. f_equal. lia.
      * rewrite !Z.log2_pow2 by lia. lia.
    + rewrite word_cong, Z.mul_opp_r, Hk. rewrite Z.min_r in Ht by lia. destruct Ht as [q ->]. unfold cong. exists (q * q * Bw). ring.
  - split; [|exists 0].
    + rewrite !word_cong. replace (m0 * (2 - m0)) with (1 - (m0 - 1) * (m0 - 1)) by ring. reflexivity.
    + split; [lia|]. split; [done|]. pose proof W_pos. change (2 ^ 0) with 1. rewrite Z.min_l by lia. change (2 ^ 1) with 2.
      apply Z.odd_spec in Hodd as [q ->]. unfold word. rewrite Z.mod_eq by lia. apply Z.divide_sub_r; [exists q; lia|]. apply Z.divide_mul_l.
      exists (2 ^ (_W - 1)). rewrite <- (Z.pow_1_r 2) at 3. rewrite <- Z.pow_add_r by lia. f_equal. lia.
  - change (Z.log2 1) with 0. lia.
  - change (Z.log2 1) with 0. lia.
Qed.

Lemma low_word_cong w l : cong Bw (nval (w :: l)) w.
Proof. rewrite nval_cons. exists (nval l). lia. Qed.
End Montgomery.

(** * Package math/big: the exponentiations return powers

    Square and multiply, the windows modulo a power of two, the windows with
    Montgomery multiplication and the Chinese remainder theorem; expNN, which
    chooses, and Int.Exp. *)

Section Powers.
Context `{P : Platform}.
Abbreviation nval := (val _W).
Abbreviation Bw := (2 ^ _W).
Context (scratch : Z -> list Z) (Hscratch : forall n, 0 <= n -> len (scratch n) = n).

(** ** The bits of a word from the top *)

(** The top [k + j] bits: the top [k], then the top [j] of the shifted word. *)
Lemma window_split v k j : word_ok v -> 0 <= k -> 0 <= j -> k + j <= _W ->
  v / 2 ^ (_W - (k + j)) = v / 2 ^ (_W - k) * 2 ^ j + word (Z.shiftl v k) / 2 ^ (_W - j).
Proof.
  intros Hv Hk Hj Hl. rewrite shiftl_mul by lia. unfold word.
  assert (exists r, r = _W - (k + j)) as [r Er] by eauto. rewrite <- Er. assert (E1 : 2 ^ (_W - k) = 2 ^ r * 2 ^ j) by (rewrite <- Z.pow_add_r by lia; f_equal; lia).
  assert (E2 : 2 ^ (_W - j) = 2 ^ r * 2 ^ k) by (rewrite <- Z.pow_add_r by lia; f_equal; lia).
  assert (E3 : Bw = 2 ^ (_W - k) * 2 ^ k) by (rewrite <- Z.pow_add_r by lia; f_equal; lia).
  assert (0 < 2 ^ k) by lia. assert (0 < 2 ^ j) by lia. assert (Hr : 0 < 2 ^ r) by (apply Z.pow_pos_nonneg; lia). assert (0 < 2 ^ (_W - k)) by lia.
  rewrite E3, Z.mul_mod_distr_r, E2, Z.div_mul_cancel_r by lia. assert (N0 : 2 ^ (_W - k) <> 0) by lia. pose proof (Z.div_mod v (2 ^ (_W - k)) N0) as D.
  set (t := v / 2 ^ (_W - k)) in *. set (l := v mod 2 ^ (_W - k)) in *. rewrite D, E1.
  replace (2 ^ r * 2 ^ j * t + l) with (l + t * 2 ^ j * 2 ^ r) by ring. rewrite Z.div_add by lia. lia.
Qed.

Lemma word_ok_word a : word_ok (word a).
Proof. pose proof B_pos. apply Z.mod_pos_bound. lia. Qed.

Lemma half_word : Bw = 2 ^ (_W - 1) * 2.
Proof. pose proof W_pos. change 2 with (2 ^ 1) at 3. rewrite <- Z.pow_add_r by lia. f_equal. lia. Qed.

Lemma window_nonneg v k : word_ok v -> 0 <= v / 2 ^ k.
Proof. intros [Hv _]. pose proof (Z.pow_nonneg 2 k ltac:(lia)). destruct (Z.eq_dec (2 ^ k) 0) as [->|]; [by rewrite Z.div_0_r|]. apply Z.div_pos; lia. Qed.

Lemma word_all v : word_ok v -> v / 2 ^ (_W - _W) = v.
Proof. intros _. rewrite Z.sub_diag. apply Z.div_1_r. Qed.

Lemma nval_take_S (y : list Z) i d : y !! i = Some d -> nval (take (S i) y) = nval (take i y) + weight (Z.of_nat i) * d.
Proof.
  intros Hd. rewrite (take_S_r _ _ _ Hd), nval_snoc. do 2 f_equal. unfold len. rewrite length_take.
  apply lookup_lt_Some in Hd. f_equal. lia.
Qed.

Lemma idx_word (y : list Z) i : words_ok y -> (i < length y)%nat -> exists d, idx y (Z.of_nat i) = Ok d /\ y !! i = Some d /\ word_ok d.
Proof.
  intros Hy Hi. destruct (lookup_lt_is_Some_2 y i Hi) as [d Hd]. exists d. split; [apply idx_Ok; [lia|by rewrite Nat2Z.id]|]. split; [done|].
  by eapply (Forall_lookup_1 (fun w => 0 <= w < Bw) y).
Qed.

(** The words from the top: the value of the first [S i] words continues with
    the [i]th word. *)
Lemma nval_shift_in (y : list Z) i d e : words_ok y -> y !! i = Some d ->
  e * weight (Z.of_nat (S i)) + nval (take (S i) y) = (e * Bw + d) * weight (Z.of_nat i) + nval (take i y).
Proof.
  intros Hy Hd. rewrite (nval_take_S _ _ _ Hd). replace (Z.of_nat (S i)) with (Z.of_nat i + 1) by lia. rewrite weight_add, weight_1 by lia. ring.
Qed.

(** ** Square and multiply *)

Section Binary.
Context (x m : list Z) (Hx : is_nat x) (Hm : is_nat m).

(** The state holds [x ^ e]; it is reduced once a bit has been read. *)
Definition holds (e : Z) (s : expState) : Prop :=
  is_nat (ez s) /\ cong (nval m) (nval (ez s)) (nval x ^ e) /\ (1 < e -> nval m <> 0 -> nval (ez s) < nval m).

Lemma leading_bit v : word_ok v -> negb (Z.land v (Z.shiftl 1 (_W - 1)) =? 0) = (v / 2 ^ (_W - 1) =? 1).
Proof.
  intros Hv. pose proof W_pos as HW. rewrite shiftl_mul, Z.mul_1_l by lia.
  pose proof half_word as E.
  assert (Hp : 0 < 2 ^ (_W - 1)) by lia. unfold word_ok in Hv. rewrite E in Hv.
  assert (0 <= v / 2 ^ (_W - 1) < 2) by (split; [apply Z.div_pos; lia|apply Z.div_lt_upper_bound; lia]).
  assert (T : Z.testbit v (_W - 1) = (v / 2 ^ (_W - 1) =? 1)).
  { rewrite Z.testbit_odd, shiftr_div by lia.
    assert (v / 2 ^ (_W - 1) = 0 \/ v / 2 ^ (_W - 1) = 1) as [-> | ->] by lia; done. }
  rewrite <- T. destruct (Z.testbit v (_W - 1)) eqn:Et.
  - apply negb_true_iff, Z.eqb_neq. intros E0. assert (B : Z.testbit (Z.land v (2 ^ (_W - 1))) (_W - 1) = true) by (rewrite Z.land_spec, Et, Z.pow2_bits_true by lia; done).
    rewrite E0, Z.testbit_0_l in B. done.
  - apply negb_false_iff, Z.eqb_eq. apply Z.bits_inj'. intros i Hi. rewrite Z.land_spec, Z.testbit_0_l, Z.pow2_bits_eqb by lia.
    destruct (Z.eqb_spec (_W - 1) i) as [<-|]; [by rewrite Et|apply andb_false_r].
Qed.

Lemma expBit_spec v s e : word_ok v -> 1 <= e -> holds e s ->
  expBit scratch x m v s ⇓ holds (2 * e + v / 2 ^ (_W - 1)).
Proof.
  intros Hv He (Hz & Hc & _). destruct s as [z zz q r]. cbn [ez] in *. unfold expBit.
  eapply returns_bind_mono; [apply nsqr_spec, Hz|]. intros z1 [E1 H1]. cbv beta iota. rewrite leading_bit by done.
  assert (0 <= v / 2 ^ (_W - 1)) by (by apply window_nonneg).
  assert (C1 : cong (nval m) (nval z1) (nval x ^ (2 * e))).
  { rewrite E1, Hc. replace (2 * e) with (e + e) by lia. rewrite Z.pow_add_r by lia. reflexivity. }
  apply (returns_bind_mono _ _ (fun '(_, z2) => is_nat z2 /\ cong (nval m) (nval z2) (nval x ^ (2 * e + v / 2 ^ (_W - 1))))).
  { destruct (Z.eqb_spec (v / 2 ^ (_W - 1)) 1) as [Eb|Eb].
    - eapply returns_bind_mono; [apply nmul_spec; [apply H1|apply Hx]|]. intros z2 [E2 H2]. cbn [returns]. split; [done|].
      rewrite Eb, E2, C1, Z.pow_add_r, Z.pow_1_r by lia. reflexivity.
    - cbn [returns]. split; [done|]. replace (v / 2 ^ (_W - 1)) with 0; [by rewrite Z.add_0_r|]. pose proof W_pos as HW.
      assert (v / 2 ^ (_W - 1) < 2); [|lia]. apply Z.div_lt_upper_bound; [lia|]. rewrite <- half_word. apply Hv. }
  intros [zz' z2] [H2 C2]. pose proof (nonzero_nat m Hm) as Hnz. rewrite Z.gtb_ltb in Hnz. pose proof (len_nonneg m).
  replace (negb (len m =? 0)) with (0 <? len m) by (destruct (Z.ltb_spec 0 (len m)), (Z.eqb_spec (len m) 0); done || lia). rewrite Hnz.
  destruct (Z.eqb_spec (nval m) 0) as [E0|E0]; cbn [negb]; [cbn [returns]; split; [done|]; by split|].
  pose proof (ndiv_spec scratch Hscratch zz' r z2 m H2 Hm) as D. rewrite (proj2 (Z.eqb_neq _ _) E0) in D.
  eapply returns_bind_mono; [exact D|]. intros [q' r'] (_ & Er & _ & Hr). cbn [returns]. split; [done|]. cbn [ez]. rewrite Er. split.
  - rewrite mod_cong by done. done.
  - intros _ _. apply Z.mod_pos_bound. pose proof (nval_nonneg m Hm). lia.
Qed.

Lemma expBits_spec j v s e : word_ok v -> (Z.of_nat j <= _W) -> 1 <= e -> holds e s ->
  expBits scratch x m j v s ⇓ holds (e * 2 ^ Z.of_nat j + v / 2 ^ (_W - Z.of_nat j)).
Proof.
  revert v s e. induction j as [|j IH]; intros v s e Hv Hj He Hs; cbn [expBits].
  { cbn [returns]. rewrite Z.sub_0_r, Z.div_small by done. change (2 ^ Z.of_nat 0) with 1. by replace (e * 1 + 0) with e by lia. }
  eapply returns_bind_mono; [by apply expBit_spec|]. intros s' Hs'. pose proof W_pos.
  assert (0 <= v / 2 ^ (_W - 1)) by (by apply window_nonneg).
  eapply returns_mono; [apply IH; [apply word_ok_word|lia| |exact Hs']; lia|]. intros s'' Hs''.
  unshelve epose proof (window_split v 1 (Z.of_nat j) Hv _ _ _) as WS; [lia..|].
  replace (e * 2 ^ Z.of_nat (S j) + v / 2 ^ (_W - Z.of_nat (S j))) with ((2 * e + v / 2 ^ (_W - 1)) * 2 ^ Z.of_nat j + word (Z.shiftl v 1) / 2 ^ (_W - Z.of_nat j)); [done|].
  replace (Z.of_nat (S j)) with (1 + Z.of_nat j) by lia. rewrite WS, Z.pow_add_r by lia. lia.
Qed.

Lemma expWords_spec y i s e : words_ok y -> (i <= length y)%nat -> 1 <= e -> holds e s ->
  expWords scratch x y m i s ⇓ holds (e * weight (Z.of_nat i) + nval (take i y)).
Proof.
  intros Hy. revert s e. induction i as [|i IH]; intros s e Hi He Hs; cbn [expWords].
  { cbn [returns]. rewrite take_0, weight_0. cbn [val]. by replace (e * 1 + 0) with e by lia. }
  destruct (idx_word y i Hy ltac:(lia)) as (d & -> & Hd & Hdw). cbn [rbind]. pose proof W_pos as HW.
  eapply returns_bind_mono; [apply (expBits_spec _ d s e); done || lia|]. intros s' Hs'. rewrite Z2Nat.id, word_all in Hs' by lia || done.
  rewrite (nval_shift_in y i d e Hy Hd). unfold word_ok in Hdw. apply IH; [lia|nia|done].
Qed.

(** The top word without its leading bit. *)
Lemma top_word v s : 0 < v < Bw -> nlz v = Ok s -> 0 <= s < _W /\
  2 ^ (_W - (s + 1)) + word (Z.shiftl v (s + 1)) / 2 ^ (_W - (_W - (s + 1))) = v.
Proof.
  intros Hv Es. destruct (nlz_norm v Hv) as (s' & Es' & Hs & Hhi & Hlo). assert (s' = s) as -> by congruence. split; [done|].
  unshelve epose proof (window_split v (s + 1) (_W - (s + 1)) _ _ _ _) as S; [unfold word_ok; lia|lia..|].
  replace (_W - (s + 1 + (_W - (s + 1)))) with 0 in S by lia. rewrite Z.div_1_r in S.
  assert (Et : v / 2 ^ (_W - (s + 1)) = 1); [|rewrite Et in S; lia].
  assert (E : Bw = 2 ^ (_W - (s + 1)) * (2 ^ s * 2)) by (rewrite half_word, Z.mul_assoc, <- Z.pow_add_r by lia; do 2 f_equal; lia).
  assert (0 < 2 ^ s) by lia. assert (0 < 2 ^ (_W - (s + 1))) by lia. symmetry. apply (Z.div_unique_pos _ _ _ (v - 2 ^ (_W - (s + 1)))); [|lia]. rewrite E in *. split; [nia|].
  assert (2 ^ (_W - (s + 1)) * 2 > v); nia.
Qed.

Lemma expBinary_spec z y : is_nat y -> 1 < nval y ->
  expBinary scratch z x y m ⇓ (fun r => is_nat r /\ cong (nval m) (nval r) (nval x ^ nval y) /\ (nval m <> 0 -> nval r < nval m)).
Proof.
  intros [Hy Hny] H1. unfold expBinary. rewrite nset_eq. destruct y as [|v y' _] using rev_ind; [cbn [val] in H1; lia|].
  pose proof (Hny y' v eq_refl) as Hv0. apply words_ok_app in Hy as [Hy' Hv]. apply Forall_cons_1 in Hv as [Hv _].
  assert (Ll : len (y' ++ [v]) - 1 = len y') by len_lia. rewrite Ll, (idx_app y' v []) by done. cbn [rbind].
  assert (Hvp : 0 < v < Bw) by lia. destruct (nlz_norm v Hvp) as (s & Es & _). destruct (top_word v s Hvp Es) as [Hs Et]. rewrite Es. cbn [rbind].
  eapply returns_bind_mono.
  { apply (expBits_spec _ _ _ 1); [apply word_ok_word|lia|lia|]. split; [done|]. cbn [ez]. rewrite Z.pow_1_r. by split; [|lia]. }
  intros s1 Hs1. rewrite Z2Nat.id, Z.mul_1_l, Et in Hs1 by lia.
  eapply returns_bind_mono; [apply (expWords_spec (y' ++ [v]) _ s1 v); [apply words_ok_app; split; [done|by constructor]|rewrite length_app; unfold len; lia|lia|done]|].
  intros s2 (H2 & C2 & L2). assert (Ev : v * weight (Z.of_nat (Z.to_nat (len y'))) + nval (take (Z.to_nat (len y')) (y' ++ [v])) = nval (y' ++ [v])).
  { unfold len. rewrite !Nat2Z.id, take_app_length, nval_snoc. unfold len. lia. }
  rewrite Ev in C2, L2. eapply returns_mono; [apply norm_spec, H2|]. intros r (Er & Hr & _). rewrite Er. split; [done|]. split; [done|]. auto.
Qed.
End Binary.

(** ** Windows *)

Section Windows.
Context (pow4 : list Z -> list Z -> res (list Z * list Z)) (mulp : list Z -> list Z -> Z -> res (list Z * list Z)).
(** [good e z]: the vector represents the base to the power of [e]. *)
Context (good : Z -> list Z -> Prop).
Context (Hpow4 : forall e z zz, 0 <= e -> good e z -> pow4 z zz ⇓ (fun '(z', _) => good (16 * e) z')).
Context (Hmulp : forall e z zz d, 0 <= e -> 0 <= d < 16 -> good e z -> mulp z zz d ⇓ (fun '(z', _) => good (e + d) z')).

Lemma top_window yi : word_ok yi -> Z.shiftr yi (_W - winBits) = yi / 2 ^ (_W - 4) /\ 0 <= yi / 2 ^ (_W - 4) < 16.
Proof.
  intros Hy. unfold winBits. assert (HW : 4 < _W) by (destruct _W_ok; lia). rewrite shiftr_div by lia. split; [done|].
  split; [by apply window_nonneg|]. apply Z.div_lt_upper_bound; [lia|]. change 16 with (2 ^ 4). rewrite <- Z.pow_add_r by lia.
  replace (_W - 4 + 4) with _W by lia. apply Hy.
Qed.

Lemma winWord_spec j : forall yi advance z zz e,
  word_ok yi -> 4 * Z.of_nat j <= _W -> 0 <= e -> (advance = false -> e = 0) -> good e z ->
  winWord pow4 mulp j yi advance z zz ⇓ (fun '(z', _) => good (e * 2 ^ (4 * Z.of_nat j) + yi / 2 ^ (_W - 4 * Z.of_nat j)) z').
Proof.
  induction j as [|j IH]; intros yi advance z zz e Hy Hj He Ha Hg; cbn [winWord].
  { cbn [returns]. change (4 * Z.of_nat 0) with 0. rewrite Z.sub_0_r, Z.div_small by done. by replace (e * 2 ^ 0 + 0) with e by lia. }
  apply (returns_bind_mono _ _ (fun '(z', _) => good (16 * e) z')).
  { destruct advance; [by apply Hpow4|]. rewrite (Ha eq_refl) in *. done. }
  intros [z1 zz1] H1. destruct (top_window yi Hy) as [-> Hd].
  eapply returns_bind_mono; [apply (Hmulp (16 * e)); done || lia|]. intros [z2 zz2] H2.
  unshelve epose proof (window_split yi 4 (4 * Z.of_nat j) Hy _ _ _) as WS; [lia..|].
  replace (4 * Z.of_nat (S j)) with (4 + 4 * Z.of_nat j) by lia. rewrite WS, Z.pow_add_r by lia. change (2 ^ 4) with 16.
  replace (e * (16 * 2 ^ (4 * Z.of_nat j)) + (yi / 2 ^ (_W - 4) * 2 ^ (4 * Z.of_nat j) + word (Z.shiftl yi 4) / 2 ^ (_W - 4 * Z.of_nat j)))
    with ((16 * e + yi / 2 ^ (_W - 4)) * 2 ^ (4 * Z.of_nat j) + word (Z.shiftl yi 4) / 2 ^ (_W - 4 * Z.of_nat j)) by ring.
  apply IH; [apply word_ok_word|lia|lia|done|done].
Qed.

(** The words [y'] that the loop reads: those of [y], changed by [top]. *)
Lemma winWords_spec y y' top i : forall advance z zz e,
  words_ok y -> words_ok y' -> (i <= length y)%nat -> (forall k d, (k < i)%nat -> y !! k = Some d -> y' !! k = Some (top (Z.of_nat k) d)) ->
  0 <= e -> (advance = false -> e = 0) -> good e z ->
  winWords pow4 mulp y top i advance z zz ⇓ (fun '(z', _) => good (e * weight (Z.of_nat i) + nval (take i y')) z').
Proof.
  induction i as [|i IH]; intros advance z zz e Hy Hy' Hi Ht He Ha Hg; cbn [winWords].
  { cbn [returns]. rewrite take_0, weight_0. cbn [val]. by replace (e * 1 + 0) with e by lia. }
  destruct (idx_word y i Hy ltac:(lia)) as (d & -> & Hd & _). cbn [rbind]. pose proof (Ht i d ltac:(lia) Hd) as Hd'.
  assert (Hdw : word_ok (top (Z.of_nat i) d)) by (by eapply (Forall_lookup_1 (fun w => 0 <= w < Bw) y')).
  assert (E4 : 4 * Z.of_nat (Z.to_nat (_W / winBits)) = _W) by (unfold winBits; destruct _W_ok as [->| ->]; done).
  eapply returns_bind_mono; [apply (winWord_spec _ (top (Z.of_nat i) d) advance z zz e); done || lia|].
  intros [z1 zz1] H1. rewrite E4, word_all in H1 by done. rewrite (nval_shift_in y' i _ e Hy' Hd').
  unfold word_ok in Hdw. pose proof B_pos. apply IH; [done|done|lia| |nia|done|done]. intros k d' Hk. apply Ht. lia.
Qed.
End Windows.

(** ** The table of the first sixteen powers *)

Definition table (good : Z -> list Z -> Prop) (i : Z) (powers : list (list Z)) : Prop :=
  length powers = 16%nat /\ forall k, 0 <= k < i -> exists p, powers !! Z.to_nat k = Some p /\ good k p.

Lemma table_idx good i powers k : table good i powers -> 0 <= k < i -> exists p, idx powers k = Ok p /\ good k p.
Proof. intros [_ H] Hk. destruct (H k Hk) as (p & Hp & Hg). exists p. split; [|done]. apply idx_Ok; [lia|done]. Qed.

Lemma table_any good i powers k : table good i powers -> 0 <= k < 16 -> exists p, idx powers k = Ok p.
Proof.
  intros [L _] Hk. destruct (lookup_lt_is_Some_2 powers (Z.to_nat k)) as [p Hp]; [lia|]. exists p. apply idx_Ok; [lia|done].
Qed.

Lemma table_upd good i powers p : table good i powers -> 0 <= i < 16 -> good i p -> exists powers', upd powers i p = Ok powers' /\ table good (i + 1) powers'.
Proof.
  intros [L H] Hi Hg. eexists. split; [apply upd_Ok; unfold len; lia|]. split; [by rewrite length_insert|]. intros k Hk.
  destruct (Z.eq_dec k i) as [->|Hne].
  - exists p. split; [|done]. apply list_lookup_insert_eq. lia.
  - destruct (H k ltac:(lia)) as (q & Hq & Hgq). exists q. split; [|done]. by rewrite list_lookup_insert_ne by lia.
Qed.

Lemma table_start good l : length l = 16%nat -> table good 0 l.
Proof. intros L. split; [done|]. lia. Qed.
End Powers.
