(* ===== verification/BigExpModes.v ===== *)
(** * Package math/big: exponentiation by modulus

    The windows modulo a power of two, the windows with Montgomery
    multiplication modulo an odd number, and their combination for the other
    even moduli, each return the power modulo the modulus. *)
From Stdlib Require Import ZArith Lia Setoid Morphisms.
From stdpp Require Import base numbers list.
From S2P Require Import Prelude Bits BigWords BigWordsCorrect BigNat BigNatCorrect BigMul BigMulCorrect BigDivide BigDiv BigDivRec BigBits BigNatFuns BigInt BigIntCorrect BigGcd BigGcdCorrect BigExp BigExpCorrect.

(** An odd number to the power of [2 ^ k] is 1 modulo [2 ^ (k + 1)]. *)
Lemma odd_power_one x k : Z.odd x = true -> 0 <= k -> cong (2 ^ (k + 1)) (x ^ (2 ^ k)) 1.
Proof.
  intros Hx. revert k. apply natlike_ind.
  - change (2 ^ (0 + 1)) with 2. change (2 ^ 0) with 1. rewrite Z.pow_1_r. apply Z.odd_spec in Hx as [q ->]. exists q. lia.
  - intros k Hk [q E]. assert (E' : x ^ (2 ^ k) = 1 + q * 2 ^ (k + 1)) by lia. unfold cong.
    rewrite Z.pow_succ_r, Z.mul_comm, Z.pow_mul_r, E', Z.pow_2_r by lia.
    replace (Z.succ k + 1) with (k + 1 + 1) by lia. rewrite (Z.pow_add_r 2 (k + 1) 1) by lia. change (2 ^ 1) with 2.
    assert (Ek : 2 ^ (k + 1) = 2 * 2 ^ k) by (rewrite Z.add_1_r; by apply Z.pow_succ_r). exists (q + q * q * 2 ^ k). rewrite Ek. ring.
Qed.

(** Only the low bits of the exponent matter. *)
Lemma odd_power_low x y L : Z.odd x = true -> 0 <= y -> 1 <= L -> cong (2 ^ L) (x ^ y) (x ^ (y mod 2 ^ (L - 1))).
Proof.
  intros Hx Hy HL. set (M := 2 ^ (L - 1)). assert (HM : 0 < M) by (unfold M; lia). pose proof (Z.mod_pos_bound y M HM).
  pose proof (Z.div_pos y M Hy HM). rewrite (Z.div_mod y M) at 1 by lia. rewrite Z.pow_add_r, Z.pow_mul_r by nia.
  pose proof (odd_power_one x (L - 1) Hx ltac:(lia)) as C. replace (L - 1 + 1) with L in C by lia. fold M in C.
  rewrite (cong_pow _ _ _ (y / M) ltac:(lia) C), Z.pow_1_l, Z.mul_1_l by lia. reflexivity.
Qed.

Lemma even_power x y L : Z.even x = true -> 0 <= L <= y -> cong (2 ^ L) (x ^ y) 0.
Proof.
  intros Hx Hy. apply Z.even_spec in Hx as [q ->]. unfold cong. rewrite Z.sub_0_r, Z.pow_mul_l. apply Z.divide_mul_l.
  exists (2 ^ (y - L)). rewrite <- Z.pow_add_r by lia. f_equal. lia.
Qed.

Section Modes.
Context `{P : Platform}.
Abbreviation nval := (val _W).
Abbreviation Bw := (2 ^ _W).
Context (scratch : Z -> list Z) (Hscratch : forall n, 0 <= n -> len (scratch n) = n).

Lemma low_bit (w : Z) l : Z.land w 1 = nval (w :: l) mod 2.
Proof.
  change 1 with (Z.ones 1). rewrite Z.land_ones by lia. change (2 ^ 1) with 2. rewrite nval_cons, half_word.
  replace (w + 2 ^ (_W - 1) * 2 * nval l) with (w + 2 ^ (_W - 1) * nval l * 2) by ring. by rewrite Z.mod_add by lia.
Qed.

(** ** Modulo a power of two *)

Section Windowed.
Context (x : list Z) (L : Z) (Hx : is_nat x) (HL : 2 <= L).

Definition residue (e : Z) (z : list Z) : Prop :=
  is_nat z /\ nval z < 2 ^ L /\ cong (2 ^ L) (nval z) (nval x ^ e).

(** A product that has been truncated. *)
Lemma trunc_residue z a e : is_nat a -> cong (2 ^ L) (nval a) (nval x ^ e) -> trunc z a L ⇓ residue e.
Proof.
  intros Ha Hc. assert (0 < 2 ^ L) by lia. eapply returns_mono; [apply trunc_spec; done || lia|]. intros r [Er Hr].
  split; [done|]. rewrite Er. split; [by apply Z.mod_pos_bound|]. rewrite mod_cong by lia. done.
Qed.

Lemma sqrTrunc_spec z zz e : 0 <= e -> residue e z -> sqrTrunc scratch L z zz ⇓ (fun '(z', _) => residue (e + e) z').
Proof.
  intros He (Hz & _ & Hc). unfold sqrTrunc. eapply returns_bind_mono; [apply nsqr_spec, Hz|]. intros z1 [E1 H1]. cbv beta iota.
  eapply returns_bind_mono; [apply (trunc_residue z1 z1 (e + e) H1)|by intros].
  rewrite E1, Hc, Z.pow_add_r by done. reflexivity.
Qed.

Lemma pow4Windowed_spec e z zz : 0 <= e -> residue e z -> pow4Windowed scratch L z zz ⇓ (fun '(z', _) => residue (16 * e) z').
Proof.
  intros He Hz. unfold pow4Windowed.
  eapply returns_bind_mono; [by apply sqrTrunc_spec|]. intros [z1 zz1] H1.
  eapply returns_bind_mono; [apply (sqrTrunc_spec _ _ (e + e)); done || lia|]. intros [z2 zz2] H2.
  eapply returns_bind_mono; [apply (sqrTrunc_spec _ _ (e + e + (e + e))); done || lia|]. intros [z3 zz3] H3.
  replace (16 * e) with (e + e + (e + e) + (e + e + (e + e)) + (e + e + (e + e) + (e + e + (e + e)))) by lia. apply sqrTrunc_spec; done || lia.
Qed.

Lemma mulWindowed_spec powers e z zz d : table residue 16 powers -> 0 <= e -> 0 <= d < 16 -> residue e z ->
  mulWindowed scratch L powers z zz d ⇓ (fun '(z', _) => residue (e + d) z').
Proof.
  intros Ht He Hd (Hz & _ & Hc). unfold mulWindowed. destruct (table_idx _ _ _ d Ht Hd) as (p & -> & Hp & _ & Hcp). cbn [rbind].
  eapply returns_bind_mono; [apply nmul_spec; [apply Hz|apply Hp]|]. intros z1 [E1 H1]. cbv beta iota.
  eapply returns_bind_mono; [apply (trunc_residue z1 z1 (e + d) H1)|by intros].
  rewrite E1, Hc, Hcp, Z.pow_add_r by lia. reflexivity.
Qed.

Lemma residue_0 p : is_nat p -> nval p = 1 -> residue 0 p.
Proof.
  intros Hp Ep. split; [done|]. rewrite Ep. split; [|reflexivity]. assert (2 ^ 1 < 2 ^ L) by (apply Z.pow_lt_mono_r; lia). lia.
Qed.

Lemma powersWindowed_spec w : powersWindowed scratch x L w ⇓ table residue 16.
Proof.
  unfold powersWindowed. pose proof (table_start residue (replicate 16 (scratch w)) eq_refl) as T0.
  destruct (table_any _ _ _ 0 T0 ltac:(lia)) as [p0 ->]. cbn [rbind]. rewrite nset_eq. destruct is_nat_one as [H1 E1].
  destruct (table_upd _ 0 _ natOne T0 ltac:(lia) (residue_0 _ H1 E1)) as (l1 & -> & T1). cbn [rbind]. change (0 + 1) with 1 in T1.
  destruct (table_any _ _ _ 1 T1 ltac:(lia)) as [p1 ->]. cbn [rbind].
  eapply returns_bind_mono; [apply (trunc_residue p1 x 1 Hx); by rewrite Z.pow_1_r|]. intros p1' Hp1.
  destruct (table_upd _ 1 _ p1' T1 ltac:(lia) Hp1) as (l2 & -> & T2). cbn [rbind]. change (1 + 1) with 2 in T2.
  apply (loop_returns (fun '(l, i) => table residue i l /\ 2 <= i <= 16 /\ i mod 2 = 0) (fun '(_, i) => 8 - i / 2)); [|split; [done|split; [lia|done]]|done|done].
  intros [l i] (T & Hi & Hev). change (Z.shiftl 1 winBits) with 16. destruct (Z.ltb_spec i 16) as [Hlt|Hge].
  2: { assert (i = 16) as -> by lia. done. }
  pose proof (Z.div_mod i 2 ltac:(lia)) as D. rewrite Hev in D. assert (i < 15) by lia.
  destruct (table_idx _ _ _ (i / 2) T ltac:(lia)) as (q & -> & Hq & _ & Cq). cbn [rbind].
  destruct (table_any _ _ _ i T ltac:(lia)) as [a ->]. cbn [rbind]. destruct (table_any _ _ _ (i + 1) T ltac:(lia)) as [b ->]. cbn [rbind].
  eapply returns_bind_mono; [apply nsqr_spec, Hq|]. intros p [Ep Hp].
  eapply returns_bind_mono; [apply (trunc_residue p p i Hp)|]. { rewrite Ep, Cq. rewrite <- Z.pow_add_r by lia. replace (i / 2 + i / 2) with i by lia. reflexivity. }
  intros p' Hp'. eapply returns_bind_mono; [apply nmul_spec; [apply Hp'|apply Hx]|]. intros p2 [Ep2 Hp2].
  eapply returns_bind_mono; [apply (trunc_residue p2 p2 (i + 1) Hp2)|]. { destruct Hp' as (_ & _ & Cp). rewrite Ep2, Cp, Z.pow_add_r, Z.pow_1_r by lia. reflexivity. }
  intros p2' Hp2'. destruct (table_upd _ _ _ p' T ltac:(lia) Hp') as (l' & -> & T'). cbn [rbind].
  destruct (table_upd _ _ _ p2' T' ltac:(lia) Hp2') as (l'' & -> & T''). cbn [rbind returns]. replace (i + 1 + 1) with (i + 2) in T'' by lia.
  replace (i + 2) with (i + 1 * 2) in * by lia. rewrite Z.mod_add, Z.div_add by lia. split; [|lia]. split; [done|lia].
Qed.

(** The words of the exponent modulo [2 ^ (L - 1)]. *)
Definition maskTop (i yi : Z) : Z :=
  let mtop := (L - 2) / _W in
  let mbits := Z.land (L - 1) (_W - 1) in
  let mmask := if negb (mbits =? 0) then word (Z.shiftl 1 mbits) - 1 else _M in
  if i =? mtop then Z.land yi mmask else yi.

Lemma mask_bits : exists nb, 0 < nb <= _W /\ L - 1 = _W * ((L - 2) / _W) + nb /\ forall yi, word_ok yi -> maskTop ((L - 2) / _W) yi = yi mod 2 ^ nb.
Proof.
  pose proof W_pos as HW. assert (El : Z.land (L - 1) (_W - 1) = (L - 1) mod _W).
  { destruct _W_ok as [-> | ->]; [apply (Z.land_ones _ 5); lia|apply (Z.land_ones _ 6); lia]. }
  assert (D : L - 1 = _W * ((L - 1) / _W) + (L - 1) mod _W) by (apply Z.div_mod; lia). assert (Hm : 0 <= (L - 1) mod _W < _W) by (apply Z.mod_pos_bound; lia).
  unfold maskTop. rewrite El, Z.eqb_refl. destruct (Z.eqb_spec ((L - 1) mod _W) 0) as [E0|E0]; cbn [negb].
  - exists _W. split; [lia|]. split; [|intros yi Hy; unfold _M; rewrite _B_eq, <- Z.land_ones, Z.ones_equiv by lia; f_equal; lia].
    assert (Eq : (L - 2) / _W = (L - 1) / _W - 1); [|rewrite Eq; lia]. symmetry. apply (Z.div_unique_pos _ _ _ (_W - 1)); lia.
  - exists ((L - 1) mod _W). split; [lia|]. split.
    + assert (Eq : (L - 2) / _W = (L - 1) / _W); [|rewrite Eq; lia]. symmetry. apply (Z.div_unique_pos _ _ _ ((L - 1) mod _W - 1)); lia.
    + intros yi Hy. rewrite shiftl_mul, Z.mul_1_l by lia.
      assert (2 ^ ((L - 1) mod _W) < Bw) by (apply Z.pow_lt_mono_r; lia). rewrite word_small by lia. rewrite <- Z.land_ones by lia. f_equal. rewrite Z.ones_equiv. lia.
Qed.

Lemma maskTop_below i yi : i <> (L - 2) / _W -> maskTop i yi = yi.
Proof. intros H. unfold maskTop. by rewrite (proj2 (Z.eqb_neq _ _) H). Qed.

(** What the loop reads of the exponent. *)
Lemma masked_words y : words_ok y -> 0 < len y ->
  let i := if len y - 1 >? (L - 2) / _W then (L - 2) / _W else len y - 1 in
  0 <= i < len y /\
  exists y', words_ok y' /\ nval (take (Z.to_nat (i + 1)) y') = nval y mod 2 ^ (L - 1) /\
  forall k d, (k < Z.to_nat (i + 1))%nat -> y !! k = Some d -> y' !! k = Some (maskTop (Z.of_nat k) d).
Proof.
  intros Hy Hl. pose proof W_pos as HW. destruct mask_bits as (nb & Hnb & EL & Hmask). pose proof (Z.div_pos (L - 2) _W ltac:(lia) HW) as Hmt.
  set (mt := (L - 2) / _W) in *. cbv zeta.
  replace (if len y - 1 >? mt then mt else len y - 1) with (Z.min mt (len y - 1)) by (rewrite Z.gtb_ltb; destruct (Z.ltb_spec mt (len y - 1)); lia).
  assert (Epow : 2 ^ (L - 1) = weight mt * 2 ^ nb) by (unfold weight; rewrite <- Z.pow_add_r by nia; f_equal; lia).
  split; [lia|]. destruct (Z.le_gt_cases mt (len y - 1)) as [Hle|Hgt].
  - rewrite Z.min_l by done. destruct (slice_split y mt ltac:(lia)) as (a & b & -> & La). destruct b as [|d c]; [len_lia|].
    apply words_ok_app in Hy as [Ha Hd]. apply Forall_cons_1 in Hd as [Hdw Hc].
    assert (0 < 2 ^ nb) by lia. pose proof (Z.mod_pos_bound d (2 ^ nb) ltac:(lia)) as Hm.
    assert (2 ^ nb <= Bw) by (apply Z.pow_le_mono_r; lia). exists (a ++ [d mod 2 ^ nb]). split; [|split].
    + apply words_ok_app. split; [done|]. constructor; [lia|constructor].
    + rewrite take_ge by (rewrite length_app; unfold len in *; cbn [length]; lia). rewrite nval_snoc, Epow, <- La. symmetry. apply low_bits; [done|lia].
    + intros k d' Hk Hlk. destruct (decide (k < length a)%nat) as [Hka|Hka].
      * rewrite lookup_app_l in Hlk |- * by done. rewrite maskTop_below; [done|]. fold mt. unfold len in La. lia.
      * assert (k = length a) as -> by (unfold len in *; lia). rewrite list_lookup_middle in Hlk |- * by done. injection Hlk as <-.
        change (Z.of_nat (length a)) with (len a). rewrite La. by rewrite Hmask.
  - rewrite Z.min_r by lia. replace (len y - 1 + 1) with (len y) by lia. unfold len at 1 2. rewrite Nat2Z.id. exists y. split; [done|]. split.
    + rewrite take_ge by lia. symmetry. apply Z.mod_small. rewrite Epow. pose proof (nval_bound y Hy).
      assert (weight (len y) <= weight mt) by (apply weight_le; lia). assert (0 < 2 ^ nb) by lia. nia.
    + intros k d Hk Hd. rewrite maskTop_below; [done|]. fold mt. unfold len in *. lia.
Qed.
End Windowed.

Lemma one_word_ok : word_ok 1.
Proof. unfold word_ok. destruct _W_ok as [-> | ->]; lia. Qed.

Lemma expNNWindowed_spec z x y L : is_nat x -> is_nat y -> x <> [] -> 1 < len y -> 1 <= L <= nval y ->
  expNNWindowed scratch z x y L ⇓ (fun r => nval r = nval x ^ nval y mod 2 ^ L /\ is_nat r).
Proof.
  intros Hx Hy Hx0 Ly HL. assert (Hp : 0 < 2 ^ L) by lia. pose proof B_pos as HB. unfold expNNWindowed. rewrite (proj2 (Z.leb_gt _ _) Ly). destruct x as [|x0 xs]; [done|].
  change (idx (x0 :: xs) 0) with (Ok x0). cbn [rbind]. rewrite (low_bit x0 xs). set (x := x0 :: xs) in *.
  pose proof (Zeven_mod (nval x)) as Hev.
  destruct (Z.eqb_spec (nval x mod 2) 0) as [E0|E0].
  { eapply returns_mono; [apply setWord_spec; unfold word_ok; lia|]. intros r [Er Hr]. split; [|done]. rewrite Er.
    assert (C : cong (2 ^ L) (nval x ^ nval y) 0) by (apply even_power; [by rewrite Hev|lia]). apply cong_mod in C; [|lia]. rewrite C. by rewrite Z.mod_0_l by lia. }
  assert (Hodd : Z.odd (nval x) = true) by (rewrite <- Z.negb_even, Hev; done).
  destruct (Z.eqb_spec L 1) as [->|HL1].
  { eapply returns_mono; [apply setWord_spec; apply one_word_ok|]. intros r [Er Hr]. split; [|done]. rewrite Er.
    change (2 ^ 1) with 2. pose proof (odd_power_low (nval x) (nval y) 1 Hodd (nval_nonneg y Hy) (Z.le_refl 1)) as C.
    change (2 ^ (1 - 1)) with 1 in C. rewrite Z.mod_1_r in C. change (2 ^ 1) with 2 in C. apply cong_mod in C; [|lia]. by rewrite C. }
  assert (HL2 : 2 <= L) by lia. eapply returns_bind_mono; [by apply powersWindowed_spec|]. intros powers Ht.
  destruct (masked_words L HL2 y (proj1 Hy) ltac:(lia)) as (Hi & y' & Hy' & Ev & Hl). set (i := if len y - 1 >? (L - 2) / _W then (L - 2) / _W else len y - 1) in *.
  eapply returns_bind_mono; [apply setWord_spec; apply one_word_ok|]. intros z1 [E1 H1].
  eapply returns_bind_mono.
  { apply (winWords_spec (pow4Windowed scratch L) (mulWindowed scratch L powers) (residue x L) ltac:(intros; by apply pow4Windowed_spec) ltac:(intros; by apply mulWindowed_spec) y y' (maskTop L) (Z.to_nat (i + 1)) false z1 (scratch ((L + _W - 1) / _W)) 0);
      [apply Hy|done|unfold len in Hi; lia|done|lia|done|by apply residue_0]. }
  intros [z2 zz2] (H2 & L2 & C2). rewrite Z.mul_0_l, Z.add_0_l, Ev in C2.
  eapply returns_mono; [apply norm_spec, H2|]. intros r (Er & Hr & _). split; [|done]. rewrite Er.
  apply (cong_small (2 ^ L)); [|by apply Z.mod_pos_bound|].
  - split; [by apply nval_nonneg|done].
  - rewrite C2, (mod_cong (2 ^ L)) by lia. symmetry. apply odd_power_low; [done|lia|lia].
Qed.

(** ** Modulo an odd number *)

Section Odd.
Context (x m : list Z) (k0 : Z) (Hx : words_ok x) (Hm : words_ok m) (Lx : len x = len m) (Hn : 0 < len m).
Context (Hodd : Z.odd (nval m) = true) (Hk : cong Bw (nval m * k0) (-1)).
Abbreviation n := (len m).
Abbreviation R := (weight (len m)).

(** Montgomery form: [x ^ e] times the radix. *)
Definition montForm (e : Z) (z : list Z) : Prop :=
  words_ok z /\ len z = n /\ cong (nval m) (nval z) (nval x ^ e * R).

Lemma radix_coprime : Z.gcd (nval m) R = 1.
Proof. unfold weight. pose proof W_pos. apply odd_coprime; [done|]. apply Z.mul_nonneg_nonneg; lia. Qed.

Lemma mont_reduce z a b v : words_ok a -> words_ok b -> len a = n -> len b = n -> cong (nval m) (nval a * nval b) (v * R) ->
  montgomery z a b m k0 n ⇓ (fun r => words_ok r /\ len r = n /\ cong (nval m) (nval r) v).
Proof.
  intros Ha Hb La Lb Hc. eapply returns_mono; [by apply montgomery_spec|]. intros r (Hr & Lr & Cr). split; [done|]. split; [done|].
  apply (cong_cancel _ R); [apply radix_coprime|]. by rewrite Cr.
Qed.

Lemma mont_mul z a b d e : 0 <= d -> 0 <= e -> montForm d a -> montForm e b -> montgomery z a b m k0 n ⇓ montForm (d + e).
Proof.
  intros Hd He (Ha & La & Ca) (Hb & Lb & Cb). apply mont_reduce; try done. rewrite Ca, Cb, Z.pow_add_r by done.
  replace (nval x ^ d * R * (nval x ^ e * R)) with (nval x ^ d * nval x ^ e * R * R) by ring. reflexivity.
Qed.

Lemma pow4Montgomery_spec e z zz : 0 <= e -> montForm e z -> pow4Montgomery m k0 n z zz ⇓ (fun '(z', _) => montForm (16 * e) z').
Proof.
  intros He Hz. unfold pow4Montgomery.
  eapply returns_bind_mono; [by apply (mont_mul _ _ _ e e)|]. intros z1 H1.
  eapply returns_bind_mono; [apply (mont_mul _ _ _ (e + e) (e + e)); done || lia|]. intros z2 H2.
  eapply returns_bind_mono; [apply (mont_mul _ _ _ (e + e + (e + e)) (e + e + (e + e))); done || lia|]. intros z3 H3.
  eapply returns_bind_mono; [apply (mont_mul _ _ _ (e + e + (e + e) + (e + e + (e + e))) (e + e + (e + e) + (e + e + (e + e)))); done || lia|]. intros z4 H4. cbn [returns].
  replace (16 * e) with (e + e + (e + e) + (e + e + (e + e)) + (e + e + (e + e) + (e + e + (e + e)))) by lia. done.
Qed.

Lemma mulMontgomery_spec powers e z zz d : table montForm 16 powers -> 0 <= e -> 0 <= d < 16 -> montForm e z ->
  mulMontgomery m k0 n powers z zz d ⇓ (fun '(z', _) => montForm (e + d) z').
Proof.
  intros Ht He Hd Hz. unfold mulMontgomery. destruct (table_idx _ _ _ d Ht Hd) as (p & -> & Hp). cbn [rbind].
  eapply returns_bind_mono; [apply (mont_mul _ _ _ e d); done || lia|]. done.
Qed.

Lemma powersMontgomery_spec one RR : words_ok one -> words_ok RR -> len one = n -> len RR = n ->
  nval one = 1 -> cong (nval m) (nval RR) (R * R) -> powersMontgomery x one RR m k0 n ⇓ table montForm 16.
Proof.
  intros Ho HR Lo LR Eo CR. unfold powersMontgomery. pose proof (table_start montForm (replicate 16 []) eq_refl) as T0.
  apply (returns_bind_mono _ _ (montForm 0)). { apply mont_reduce; try done. rewrite Eo, CR, Z.pow_0_r, !Z.mul_1_l. reflexivity. }
  intros p0 Hp0. destruct (table_upd _ 0 _ p0 T0 ltac:(lia) Hp0) as (l1 & -> & T1). cbn [rbind]. change (0 + 1) with 1 in T1.
  apply (returns_bind_mono _ _ (montForm 1)). { apply mont_reduce; try done. rewrite CR, Z.pow_1_r, Z.mul_assoc. reflexivity. }
  intros p1 Hp1. destruct (table_upd _ 1 _ p1 T1 ltac:(lia) Hp1) as (l2 & -> & T2). cbn [rbind]. change (1 + 1) with 2 in T2.
  apply (loop_returns (fun '(l, i) => table montForm i l /\ 2 <= i <= 16) (fun '(_, i) => 16 - i)); [|split; [done|lia]|lia|lia].
  intros [l i] (T & Hi). change (Z.shiftl 1 winBits) with 16. destruct (Z.ltb_spec i 16) as [Hlt|Hge].
  2: { assert (i = 16) as -> by lia. done. }
  destruct (table_any _ _ _ i T ltac:(lia)) as [a ->]. cbn [rbind].
  destruct (table_idx _ _ _ (i - 1) T ltac:(lia)) as (q & -> & Hq). cbn [rbind].
  destruct (table_idx _ _ _ 1 T ltac:(lia)) as (p & -> & Hp). cbn [rbind].
  eapply returns_bind_mono; [apply (mont_mul _ _ _ (i - 1) 1); done || lia|]. intros r Hr. replace (i - 1 + 1) with i in Hr by lia.
  destruct (table_upd _ _ _ r T ltac:(lia) Hr) as (l' & -> & T'). cbn [rbind returns]. split; [|lia]. split; [done|lia].
Qed.
End Odd.

(** Padding with zeros. *)
Lemma extend_spec z w n : words_ok w -> len w <= n -> nmake z n = zeros n ->
  words_ok (extend z w n) /\ len (extend z w n) = n /\ nval (extend z w n) = nval w.
Proof.
  intros Hw Hl Hz. unfold extend. destruct (Z.ltb_spec (len w) n) as [Hlt|Hge]; [|split; [done|]; split; [lia|done]].
  assert (E : copyFront (nmake z n) w = w ++ zeros (n - len w)).
  { rewrite Hz. unfold copyFront, zeros, len in *. rewrite length_replicate, Nat.min_r, take_ge, drop_replicate by lia. do 2 f_equal. lia. }
  rewrite E, nval_zeros_app, len_app, len_zeros by lia. split; [|split; [lia|done]]. apply words_ok_app. split; [done|apply words_ok_zeros].
Qed.

Lemma nmake_zeros n : 0 <= n -> nmake (zeros n) n = zeros n.
Proof. intros Hn. unfold nmake. rewrite len_zeros, Z.leb_refl by done. apply take_ge. unfold zeros. rewrite length_replicate. lia. Qed.

(** A power of the radix is a one above zeros. *)
Lemma shifted_one n r : 0 <= n -> is_nat r -> nval r = weight (2 * n) -> r = zeros (2 * n) ++ [1].
Proof.
  intros Hn Hr E. apply is_nat_unique; [done| |].
  - split; [|by apply normal_snoc]. apply words_ok_app. split; [apply words_ok_zeros|]. constructor; [apply one_word_ok|constructor].
  - rewrite nval_snoc, len_zeros, E by lia. unfold zeros. rewrite nval_zeros. lia.
Qed.

(** The base, as long as the modulus. *)
Lemma base_words x m : is_nat x -> is_nat m -> nval m <> 0 ->
  (let! x := if len x >? len m then (let! '(_, x) := ndiv scratch [] [] x m in Ok x) else Ok x in
   Ok (extend (zeros (len m)) x (len m))) ⇓ (fun x' => words_ok x' /\ len x' = len m /\ cong (nval m) (nval x') (nval x)).
Proof.
  intros Hx Hm H0. pose proof (len_nonneg m) as Ln.
  apply (returns_bind_mono _ _ (fun x' => is_nat x' /\ len x' <= len m /\ cong (nval m) (nval x') (nval x))).
  - rewrite Z.gtb_ltb. destruct (Z.ltb_spec (len m) (len x)) as [Hlt|Hge]; [|by split].
    pose proof (ndiv_spec scratch Hscratch [] [] x m Hx Hm) as D. rewrite (proj2 (Z.eqb_neq _ _) H0) in D.
    eapply returns_bind_mono; [exact D|]. intros [q r] (_ & Er & _ & Hr). cbn [returns]. split; [done|]. split.
    + destruct (Z.le_gt_cases (len r) (len m)) as [|Hgt]; [done|]. pose proof (shorter_less m r Hm Hr Hgt).
      assert (nval r < nval m); [|lia]. rewrite Er. pose proof (nval_nonneg m Hm). apply Z.mod_pos_bound. lia.
    + rewrite Er, mod_cong by done. reflexivity.
  - intros x' (Hx' & Lx' & Cx'). cbn [returns]. destruct (extend_spec (zeros (len m)) x' (len m)) as (H1 & H2 & ->); [apply Hx'|done|by apply nmake_zeros|]. done.
Qed.

(** The last reduction. *)
Lemma final_reduction zz m : is_nat m -> nval m <> 0 -> words_ok zz -> len zz = len m ->
  (let! c := cmp zz m in
   let! zz :=
     if c >=? 0 then
       let! zz := nsub zz zz m in
       let! c := cmp zz m in
       if c >=? 0 then (let! '(_, r) := ndiv scratch [] [] zz m in Ok r) else Ok zz
     else Ok zz in
   norm zz) ⇓ (fun r => nval r = nval zz mod nval m /\ is_nat r).
Proof.
  intros Hm H0 Hz Lz. pose proof (nval_nonneg m Hm) as Hm0. pose proof (nval_bound zz Hz) as Hz0. rewrite cmp_words by (done || apply Hm). cbn [rbind]. rewrite sign_geb.
  apply (returns_bind_mono _ _ (fun r => words_ok r /\ nval r = nval zz mod nval m)).
  2: { intros r [Hr Er]. eapply returns_mono; [by apply norm_spec|]. intros r' (E' & H' & _). by rewrite E', Er. }
  destruct (Z.leb_spec (nval m) (nval zz)) as [Hle|Hgt]; [|cbn [returns]; split; [done|]; symmetry; apply Z.mod_small; lia].
  assert (Hzn : is_nat zz).
  { split; [done|]. intros l d -> ->. rewrite nval_snoc, Z.mul_0_r, Z.add_0_r in Hle. apply words_ok_app in Hz as [Hl _]. pose proof (nval_bound l Hl) as Bl.
    assert (m <> []) as Hne by (intros ->; done). pose proof (normal_lead m Hne (proj1 Hm) (proj2 Hm)) as Bm. rewrite <- Lz, len_app in Bm.
    change (len [0]) with 1 in Bm. replace (len l + 1 - 1) with (len l) in Bm by lia. lia. }
  pose proof (nsub_spec zz zz m Hzn Hm) as S. rewrite (proj2 (Z.ltb_ge _ _) Hle) in S. eapply returns_bind_mono; [exact S|]. intros r [Er Hr].
  rewrite cmp_spec by done. cbn [rbind]. rewrite sign_geb. assert (Em : nval zz mod nval m = nval r mod nval m) by (rewrite Er, <- (Z.mod_add (nval zz - nval m) 1) by done; f_equal; lia).
  rewrite Em. destruct (Z.leb_spec (nval m) (nval r)) as [Hle'|Hgt'].
  - pose proof (ndiv_spec scratch Hscratch [] [] r m Hr Hm) as D. rewrite (proj2 (Z.eqb_neq _ _) H0) in D.
    eapply returns_bind_mono; [exact D|]. intros [q r'] (_ & Er' & _ & Hr'). cbn [returns]. split; [apply Hr'|done].
  - cbn [returns]. split; [apply Hr|]. symmetry. apply Z.mod_small. pose proof (nval_nonneg r Hr). lia.
Qed.

Lemma expNNMontgomery_spec z x y m : is_nat x -> is_nat y -> is_nat m -> Z.odd (nval m) = true ->
  expNNMontgomery scratch z x y m ⇓ (fun r => nval r = nval x ^ nval y mod nval m /\ is_nat r).
Proof.
  intros Hx Hy Hm Hodd. assert (H0 : nval m <> 0) by (intros E; by rewrite E in Hodd). pose proof (nval_nonneg y Hy) as Hy0. pose proof W_pos as HW.
  destruct m as [|m0 ms]; [done|]. assert (Hm0 : Z.odd m0 = true).
  { rewrite nval_cons, half_word, Z.odd_add, <- Z.mul_assoc, Z.mul_comm, <- Z.mul_assoc, Z.odd_mul in Hodd. destruct (Z.odd m0); done. }
  set (m := m0 :: ms) in *. pose proof (proj1 Hm) as Hmw. assert (Hn : 0 < len m) by (unfold m; len_lia). unfold expNNMontgomery. pose proof (base_words x m Hx Hm H0) as BW.
  destruct (if len x >? len m then _ else _) as [x1| |]; [|done..]. cbn [rbind] in BW |- *. set (x' := extend (zeros (len m)) x1 (len m)) in *. cbn [returns] in BW. destruct BW as (Hx' & Lx' & Cx').
  change (idx m 0) with (Ok m0). cbn [rbind]. eapply returns_bind_mono; [by apply negInverse_spec|]. intros k0 Hk0.
  assert (Hk : cong Bw (nval m * k0) (-1)) by (unfold m; by rewrite low_word_cong).
  eapply returns_bind_mono; [apply setWord_spec, one_word_ok|]. intros R1 [E1 H1].
  eapply returns_bind_mono; [apply lsh_spec; [done|nia]|]. intros zz [Ezz Hzz]. rewrite E1, Z.mul_1_l in Ezz.
  assert (Ez : zz = zeros (2 * len m) ++ [1]) by (apply shifted_one; [lia|done|]; rewrite Ezz; unfold weight; f_equal; lia).
  pose proof (ndiv_spec scratch Hscratch [] R1 zz m Hzz Hm) as D. rewrite (proj2 (Z.eqb_neq _ _) H0) in D.
  eapply returns_bind_mono; [exact D|]. intros [q RR] (_ & ER & _ & HR).
  pose proof (nval_nonneg m Hm) as Hmn. assert (LR : len RR <= len m).
  { destruct (Z.le_gt_cases (len RR) (len m)) as [|Hgt]; [done|]. pose proof (shorter_less m RR Hm HR Hgt).
    assert (nval RR < nval m) by (rewrite ER; apply Z.mod_pos_bound; lia). lia. }
  assert (Enm : nmake zz (len m) = zeros (len m)).
  { rewrite Ez. unfold nmake. rewrite len_app, len_zeros by lia. change (len [1]) with 1. rewrite (proj2 (Z.leb_le _ _)) by lia.
    rewrite take_app_le by (unfold zeros; rewrite length_replicate; lia). unfold zeros. rewrite take_replicate. f_equal. lia. }
  destruct (extend_spec zz RR (len m) (proj1 HR) LR Enm) as (HR' & LR' & ER'). set (RR' := extend zz RR (len m)) in *.
  assert (CR : cong (nval m) (nval RR') (weight (len m) * weight (len m))).
  { rewrite ER', ER, mod_cong by done. rewrite Ezz, <- weight_add by lia. unfold weight. replace (2 * len m * _W) with (_W * (len m + len m)) by lia. reflexivity. }
  rewrite upd_Ok by (rewrite len_zeros; lia). cbn [rbind]. set (one := <[Z.to_nat 0:=1]> (zeros (len m))).
  assert (Eone : one = 1 :: zeros (len m - 1)) by (unfold one; by rewrite zeros_S by done).
  assert (Hone : words_ok one /\ len one = len m /\ nval one = 1).
  { rewrite Eone. split; [constructor; [apply one_word_ok|apply words_ok_zeros]|]. split; [rewrite len_cons, len_zeros; lia|]. rewrite nval_cons. unfold zeros. rewrite nval_zeros. lia. }
  destruct Hone as (Ho & Lo & Eo). clearbody one.
  eapply returns_bind_mono; [by apply (powersMontgomery_spec x' m k0)|]. intros powers Ht.
  destruct (table_idx _ _ _ 0 Ht ltac:(lia)) as (p0 & -> & Hp0). cbn [rbind].
  rewrite copyFront_all by (rewrite len_nmake by lia; symmetry; apply Hp0).
  eapply returns_bind_mono.
  { apply (winWords_spec (pow4Montgomery m k0 (len m)) (mulMontgomery m k0 (len m) powers) (montForm x' m)) with (y' := y) (e := 0);
      [by intros; apply pow4Montgomery_spec|by intros; apply mulMontgomery_spec|apply Hy|apply Hy|done|done|lia|done|done]. }
  intros [z1 zz1] (Hz1 & Lz1 & Cz1). rewrite Z.mul_0_l, Z.add_0_l, take_ge in Cz1 by lia.
  eapply returns_bind_mono; [apply (mont_reduce m k0) with (v := nval x ^ nval y); try done|].
  { rewrite Eo, Z.mul_1_r, Cz1. by rewrite (cong_pow _ _ _ _ Hy0 Cx'). }
  intros zf (Hzf & Lzf & Czf). eapply returns_mono; [by apply final_reduction|]. intros r [Er Hr]. split; [|done]. rewrite Er. by apply cong_mod.
Qed.
End Modes.
