(* ===== verification/BigExpSpec.v ===== *)
(** * Package math/big: exponentiation, greatest common divisors, inverses (properties)

    expNN and Int.Exp return the power modulo the modulus, whichever of the
    exponentiations they choose; Lehmer's algorithm returns the greatest common
    divisor with Bezout coefficients; ModInverse returns the inverse exactly when
    there is one. *)
From Stdlib Require Import ZArith Lia Setoid Morphisms.
From stdpp Require Import base numbers list.
From S2P Require Import Prelude Bits BigWords BigWordsCorrect BigNat BigNatCorrect BigMul BigMulCorrect BigDivide BigDiv BigDivRec BigSpec BigBits BigNatFuns BigInt BigIntCorrect BigIntSpec BigGcd BigGcdCorrect BigExp BigExpCorrect BigExpModes.

(** The power modulo [m]; the power itself without a modulus. *)
Definition powMod (x y m : Z) : Z := if m =? 0 then x ^ y else x ^ y mod m.

(** The Chinese remainder theorem, as the code uses it. *)
Lemma crt m1 m2 z1 z2 inv v : 0 < m1 -> 0 < m2 -> Z.gcd m1 m2 = 1 -> cong m1 (m2 * inv) 1 ->
  z1 = v mod m1 -> z2 = v mod m2 -> z2 + (z1 - z2) mod m1 * inv mod m1 * m2 = v mod (m1 * m2).
Proof.
  intros H1 H2 Hg Hinv -> ->. pose proof (Z.mod_pos_bound v m2 H2). set (z2 := v mod m2) in *. set (p := (v mod m1 - z2) mod m1 * inv mod m1).
  assert (Hp : 0 <= p < m1) by (by apply Z.mod_pos_bound).
  apply (cong_small (m1 * m2)); [nia|apply Z.mod_pos_bound; nia|]. rewrite (mod_cong (m1 * m2)) by nia.
  assert (C1 : cong m1 (z2 + p * m2) v).
  { unfold p. rewrite (mod_cong m1), (mod_cong m1 (v mod m1 - z2)), (mod_cong m1 v) by lia.
    replace (z2 + (v - z2) * inv * m2) with (z2 + (v - z2) * (m2 * inv)) by ring. rewrite Hinv. replace (z2 + (v - z2) * 1) with v by lia. reflexivity. }
  assert (C2 : (m2 | z2 + p * m2 - v)).
  { apply Z.mod_divide; [lia|]. replace (z2 + p * m2 - v) with (z2 - v + p * m2) by lia. rewrite Z.mod_add by lia. unfold z2. rewrite Zminus_mod_idemp_l, Z.sub_diag. apply Z.mod_0_l. lia. }
  destruct C2 as [q E]. unfold cong in *. rewrite E in *. rewrite Z.mul_comm in C1. apply Z.gauss in C1; [|done]. destruct C1 as [r ->]. exists r. ring.
Qed.

Section Exponentiation.
Context `{P : Platform}.
Abbreviation nval := (val _W).
Abbreviation Bw := (2 ^ _W).
Context (scratch : Z -> list Z) (Hscratch : forall n, 0 <= n -> len (scratch n) = n).

(** A modulus whose bit length is a machine word. *)
Definition fitsUint (m : list Z) : Prop := nval m < 2 ^ Bw.

Lemma powMod_small v x y m : 0 <= v -> (nval m <> 0 -> v < nval m) -> cong (nval m) v (x ^ y) -> v = powMod x y (nval m).
Proof.
  intros Hv Hlt Hc. unfold powMod. destruct (Z.eqb_spec (nval m) 0) as [E|E].
  - rewrite E in Hc. destruct Hc as [k Hk]. lia.
  - specialize (Hlt E). apply cong_mod in Hc; [|done]. rewrite <- Hc. symmetry. apply Z.mod_small. lia.
Qed.

Definition powers (z x y m : list Z) (r : res (list Z)) : Prop := r ⇓ (fun r => nval r = powMod (nval x) (nval y) (nval m) /\ is_nat r).

Lemma isOne_spec x : is_nat x -> isOne x = Ok (nval x =? 1).
Proof.
  intros Hx. unfold isOne. destruct x as [|w [|w' x]]; [done| |].
  - cbn [val]. change (len [w] =? 1) with true. change (idx [w] 0) with (Ok w). cbn [rbind]. by rewrite Z.mul_0_r, Z.add_0_r.
  - rewrite (proj2 (Z.eqb_neq (len _) 1)) by len_lia. symmetry. f_equal. apply Z.eqb_neq. pose proof B_pos.
    pose proof (normal_lead (w :: w' :: x) ltac:(done) (proj1 Hx) (proj2 Hx)) as B. assert (weight 1 <= weight (len (w :: w' :: x) - 1)) by (apply weight_le; len_lia). rewrite weight_1 in *.
    pose proof one_word_ok as [_ O]. lia.
Qed.

Lemma long_value y : is_nat y -> 1 < len y -> Bw <= nval y.
Proof.
  intros Hy Hl. assert (y <> []) as Hne by (intros ->; done). pose proof (normal_lead y Hne (proj1 Hy) (proj2 Hy)).
  assert (weight 1 <= weight (len y - 1)) by (apply weight_le; lia). rewrite weight_1 in *. lia.
Qed.

Lemma expNNMontgomeryEven_spec rec z x y m :
  is_nat x -> is_nat y -> is_nat m -> 0 < nval m ->
  (forall z' m', is_nat m' -> 0 < nval m' <= nval m -> (Z.odd (nval m') = true \/ exists k, 0 <= k /\ nval m' = 2 ^ k) -> powers z' x y m' (rec z' x y m' false)) ->
  powers z x y m (expNNMontgomeryEven scratch rec z x y m).
Proof.
  intros Hx Hy Hm Hpos Hrec. unfold expNNMontgomeryEven, powers. pose proof (trailingZeroBits_spec m Hm) as T. rewrite (proj2 (Z.eqb_neq _ 0)) in T by lia.
  eapply returns_bind_mono; [exact T|]. intros n (Hn0 & Hn1 & Hnl). clear T. destruct is_nat_one as [Hone Eone].
  eapply returns_bind_mono; [by apply lsh_spec|]. intros m1 [E1 H1]. rewrite Eone, Z.mul_1_l in E1.
  eapply returns_bind_mono; [by apply rsh_spec|]. intros m2 [E2 H2]. assert (Hp : 0 < 2 ^ n) by lia.
  assert (Em : nval m = 2 ^ n * nval m2).
  { rewrite E2. apply Z.div_exact; [lia|]. apply Z.bits_inj'. intros i Hi. rewrite Z.testbit_0_l. destruct (Z.lt_ge_cases i n).
    - rewrite Z.mod_pow2_bits_low by lia. by apply Hnl.
    - by rewrite Z.mod_pow2_bits_high by lia. }
  assert (Ho2 : Z.odd (nval m2) = true) by (rewrite E2, <- shiftr_div by done; by rewrite <- Z.testbit_odd).
  pose proof (nval_nonneg m2 H2) as N2. assert (0 < nval m2) by nia.
  eapply returns_bind_mono; [apply Hrec; [done|rewrite E1; nia|right; by exists n]|]. intros z1 [Ez1 Hz1].
  eapply returns_bind_mono; [apply Hrec; [done|nia|by left]|]. intros z2 [Ez2 Hz2].
  eapply returns_bind_mono; [by apply subMod2N_spec|]. intros z3 [Ez3 Hz3].
  assert (Hg : Z.gcd (nval m2) (2 ^ n) = 1) by (by apply odd_coprime).
  assert (Hinv : nmodInverse scratch [] m2 m1 ⇓ (fun r => is_nat r /\ cong (2 ^ n) (nval m2 * nval r) 1)).
  { unfold nmodInverse. destruct (is_int_nonneg m2 H2) as [I2 O2]. destruct (is_int_nonneg m1 H1) as [I1 O1].
    eapply returns_bind_mono; [apply (ModInverse_spec scratch Hscratch [] (mkInt false m2) (mkInt false m1)); [done|done|rewrite I1, E1; lia]|].
    rewrite I1, I2, E1. intros [r|] Hr; [|done]. destruct Hr as (Hri & Hr0 & Hrd). cbn [returns]. split; [apply Hri|]. rewrite ival_abs by done. by rewrite Z.abs_eq by lia. }
  eapply returns_bind_mono; [exact Hinv|]. intros inv [Hi Ci].
  eapply returns_bind_mono; [apply nmul_spec; [apply Hz3|apply Hi]|]. intros z4 [Ez4 Hz4].
  eapply returns_bind_mono; [by apply trunc_spec|]. intros z5 [Ez5 Hz5].
  eapply returns_bind_mono; [apply nmul_spec; [apply Hz5|apply H2]|]. intros p [Ep Hpn]. rewrite nset_eq.
  eapply returns_mono; [by apply nadd_spec|]. intros r [Er Hr]. split; [|done]. rewrite Er, Ep, Ez5, Ez4, Ez3. unfold powMod in *.
  rewrite (proj2 (Z.eqb_neq _ 0)) in Ez1 by lia. rewrite (proj2 (Z.eqb_neq _ 0)) in Ez2 by lia. rewrite (proj2 (Z.eqb_neq _ 0)) by lia. rewrite E1 in Ez1.
  rewrite Em. apply crt; try done. by rewrite Z.gcd_comm.
Qed.

(** The choice, with what is needed of the recursive calls. *)
Lemma expNNF_step f z x y m slow :
  is_nat x -> is_nat y -> is_nat m -> fitsUint m ->
  (0 < nval m -> Z.odd (nval m) = false -> (forall k, 0 <= k -> nval m <> 2 ^ k) -> forall z, powers z x y m (expNNMontgomeryEven scratch (expNNF scratch f) z x y m)) ->
  powers z x y m (expNNF scratch (S f) z x y m slow).
Proof.
  intros Hx Hy Hm Hfit Hev. unfold powers. cbn [expNNF]. rewrite !isOne_spec by done. cbn [rbind].
  pose proof (nval_nonneg x Hx) as Nx. pose proof (nval_nonneg y Hy) as Ny. pose proof (nval_nonneg m Hm) as Nm. pose proof B_pos as HB.
  assert (H0ok : word_ok 0) by (unfold word_ok; lia).
  destruct (Z.eqb_spec (nval m) 1) as [Em1|Em1].
  { eapply returns_mono; [by apply setWord_spec|]. intros r [Er Hr]. split; [|done]. unfold powMod. rewrite Er, Em1, Z.mod_1_r. done. }
  assert (Z0 : forall a, is_nat a -> (len a =? 0) = (nval a =? 0)).
  { intros a Ha. pose proof (nonzero_nat a Ha) as N. rewrite Z.gtb_ltb in N. pose proof (len_nonneg a).
    destruct (Z.eqb_spec (nval a) 0), (Z.ltb_spec 0 (len a)), (Z.eqb_spec (len a) 0); done || lia. }
  rewrite !Z0 by done. assert (P1 : nval m <> 0 -> 1 < nval m) by lia.
  destruct (Z.eqb_spec (nval y) 0) as [Ey|Ey].
  { eapply returns_mono; [apply setWord_spec, one_word_ok|]. intros r [Er Hr]. split; [|done]. rewrite Er, Ey. apply powMod_small; [lia|done|by rewrite Z.pow_0_r]. }
  destruct (Z.eqb_spec (nval x) 0) as [Ex|Ex].
  { eapply returns_mono; [by apply setWord_spec|]. intros r [Er Hr]. split; [|done]. rewrite Er, Ex. apply powMod_small; [lia|lia|rewrite Z.pow_0_l by lia; reflexivity]. }
  destruct (Z.eqb_spec (nval x) 1) as [Ex1|Ex1].
  { eapply returns_mono; [apply setWord_spec, one_word_ok|]. intros r [Er Hr]. split; [|done]. rewrite Er, Ex1. apply powMod_small; [lia|done|rewrite Z.pow_1_l by lia; reflexivity]. }
  destruct (Z.eqb_spec (nval y) 1) as [Ey1|Ey1]; cbn [andb].
  { rewrite Ey1. destruct (Z.eqb_spec (nval m) 0) as [E0|E0].
    - rewrite nset_eq. cbn [returns]. split; [|done]. rewrite E0. unfold powMod. cbn [Z.eqb]. lia.
    - unfold nrem. pose proof (ndiv_spec scratch Hscratch (scratch (Z.max 1 (len x - (len m - 1)))) z x m Hx Hm) as D. rewrite (proj2 (Z.eqb_neq _ _) E0) in D.
      eapply returns_bind_mono; [exact D|]. intros [q r] (_ & Er & _ & Hr). cbn [returns]. split; [|done]. unfold powMod. by rewrite (proj2 (Z.eqb_neq _ _) E0), Z.pow_1_r. }
  assert (HBin : forall z, expBinary scratch z x y m ⇓ (fun r => nval r = powMod (nval x) (nval y) (nval m) /\ is_nat r)).
  { intros z'. eapply returns_mono; [apply expBinary_spec; done || lia|]. intros r (Hr & Hc & Hlt). split; [|done]. apply powMod_small; [by apply nval_nonneg|done|done]. }
  destruct (Z.eqb_spec (nval m) 0) as [E0|E0]; cbn [negb]; [apply HBin|].
  destruct ((len y >? 1) && negb slow) eqn:Ec; [|apply HBin]. apply andb_true_iff in Ec as [Ly%Z.gtb_lt _].
  assert (Epm : powMod (nval x) (nval y) (nval m) = nval x ^ nval y mod nval m) by (unfold powMod; by rewrite (proj2 (Z.eqb_neq _ _) E0)).
  assert (Hodd : idx m 0 ⇓ (fun m0 => (Z.land m0 1 =? 1) = Z.odd (nval m))).
  { destruct m as [|m0 ms]; [done|]. change (idx (m0 :: ms) 0) with (Ok m0). cbn [returns]. rewrite (low_bit m0 ms), Zmod_odd. by destruct (Z.odd _). }
  eapply returns_bind_mono; [exact Hodd|]. intros m0 ->. destruct (Z.odd (nval m)) eqn:Eo.
  { rewrite Epm. by apply expNNMontgomery_spec. }
  eapply returns_bind_mono; [by apply isPow2_spec|]. intros [L ok] Hok. destruct ok.
  - destruct Hok as [HL EL]. rewrite Epm, EL. pose proof (long_value y Hy Ly). unfold fitsUint in Hfit. rewrite EL in Hfit. apply Z.pow_lt_mono_r_iff in Hfit; [|lia|lia].
    apply expNNWindowed_spec; [done|done|by intros ->|done|]. split; [|lia]. destruct (Z.eq_dec L 0) as [->|]; [rewrite EL in Em1; done|lia].
  - apply Hev; [lia|done|apply Hok].
Qed.

Lemma expNN_spec z x y m slow : is_nat x -> is_nat y -> is_nat m -> fitsUint m -> powers z x y m (expNN scratch z x y m slow).
Proof.
  intros Hx Hy Hm Hfit. unfold expNN. apply expNNF_step; try done. intros Hpos Ho Hnp z'.
  apply expNNMontgomeryEven_spec; try done. intros z'' m' Hm' Hle Hcase. apply expNNF_step; try done.
  - unfold fitsUint in *. lia.
  - intros _ Ho' Hnp'. destruct Hcase as [Hc|(k & Hk & Ek)]; [congruence|]. by destruct (Hnp' k Hk).
Qed.

(** ** Int.Exp *)

(** The low bit of the exponent decides the sign. *)
Lemma expSigned_spec z b x y m slow : is_nat b -> int_ok x -> int_ok y -> is_nat m -> fitsUint m ->
  expSigned scratch z b x y m slow ⇓ is_int (powMod ((if neg x then -1 else 1) * nval b) (Z.abs (ival y)) (nval m)).
Proof.
  intros Hb Hx Hy Hm Hfit. unfold expSigned. pose proof (ival_abs y Hy) as Ey. pose proof (nval_nonneg m Hm) as Nm.
  eapply returns_bind_mono; [apply (expNN_spec z b (abs y) m slow); try done; apply Hy|]. intros a [Ea Ha]. rewrite Ey in Ea.
  pose proof (nval_nonneg a Ha) as Na. pose proof (Z.abs_nonneg (ival y)) as Ny. set (e := Z.abs (ival y)) in *.
  apply (returns_bind_mono _ _ (fun ng => ng = negb (nval a =? 0) && neg x && Z.odd e)).
  { rewrite !nonzero_nat by (done || apply Hy). destruct (negb (nval a =? 0) && neg x); [|done]. cbn [andb]. rewrite Ey. fold e.
    destruct (Z.eqb_spec e 0) as [->|Hne]; cbn [negb]; [done|]. destruct (abs y) as [|w l] eqn:Ew; [cbn [val] in Ey; lia|].
    change (idx (w :: l) 0) with (Ok w). cbn [rbind returns]. rewrite (low_bit w l), Ey, Zmod_odd. by destruct (Z.odd e). }
  intros ng ->. rewrite nonzero_nat by done.
  assert (Es : forall u, neg x = true -> Z.odd e = false -> (-1 * u) ^ e = u ^ e).
  { intros u _ Ho. rewrite Z.pow_mul_l. replace ((-1) ^ e) with 1; [lia|]. assert (Z.even e = true) as [k ->]%Z.even_spec by (by rewrite <- Z.negb_odd, Ho). rewrite Z.pow_mul_r, Z.pow_1_l by lia. done. }
  assert (Eo : forall u, Z.odd e = true -> (-1 * u) ^ e = - u ^ e).
  { intros u [k Ek]%Z.odd_spec. rewrite Z.pow_mul_l. replace ((-1) ^ e) with (-1); [lia|]. rewrite Ek, Z.pow_add_r, Z.pow_mul_r, Z.pow_1_l by lia. done. }
  destruct (neg x); [|rewrite andb_false_r; cbn [andb returns]; rewrite Z.mul_1_l, <- Ea; by apply is_int_nonneg]. rewrite andb_true_r.
  destruct (Z.odd e) eqn:Eod; [|rewrite andb_false_r; cbn [andb returns]; unfold powMod in *; rewrite Es, <- Ea by done; by apply is_int_nonneg].
  rewrite andb_true_r. unfold powMod in *. rewrite Eo by done. destruct (Z.eqb_spec (nval m) 0) as [E0|E0]; cbn [negb].
  - rewrite andb_false_r. cbn [returns]. rewrite <- Ea. destruct (Z.eqb_spec (nval a) 0) as [Ez|Ez]; cbn [negb]; [|by apply is_int_neg].
    rewrite Ez. change (- 0) with 0. rewrite <- Ez. by apply is_int_nonneg.
  - destruct (Z.eqb_spec (nval a) 0) as [Ez|Ez]; cbn [negb andb].
    + cbn [returns]. rewrite Z.mod_opp_l_z by (done || congruence). rewrite <- Ez. by apply is_int_nonneg.
    + rewrite Z.mod_opp_l_nz by (done || congruence). assert (Mp : 0 < nval m) by lia. pose proof (Z.mod_pos_bound (nval b ^ e) (nval m) Mp). rewrite <- Ea in *.
      pose proof (nsub_spec a m a Hm Ha) as S. rewrite (proj2 (Z.ltb_ge (nval m) (nval a))) in S by lia.
      eapply returns_bind_mono; [exact S|]. intros r [Er Hr]. cbn [returns]. rewrite <- Er. by apply is_int_nonneg.
Qed.

(** The modulus of Exp: zero when it is nil. *)
Definition modulus (m : option Int) : Z := match m with Some m => Z.abs (ival m) | None => 0 end.

(** What Exp promises: [x ^ y] modulo [|m|] for a nonnegative exponent ([x ^ y]
    itself without a modulus); for a negative one, 1 without a modulus, else the
    inverse of [x ^ |y|], nil when there is none. *)
Definition exp_result (x y : Z) (m : Z) (r : option Int) : Prop :=
  if 0 <=? y then exists v, r = Some v /\ is_int (powMod x y m) v
  else if m =? 0 then exists v, r = Some v /\ is_int 1 v
  else match r with
       | Some v => int_ok v /\ 0 <= ival v < m /\ cong m (ival v * x ^ Z.abs y) 1
       | None => Z.gcd x m <> 1
       end.

Lemma iexp_spec z x y m slow : int_ok x -> int_ok y -> (forall m', m = Some m' -> int_ok m' /\ fitsUint (abs m')) ->
  0 <= ival y \/ 0 <= ival x \/ Z.even (ival y) = true ->
  iexp scratch z x y m slow ⇓ exp_result (ival x) (ival y) (modulus m).
Proof.
  intros Hx Hy Hm Hc. unfold iexp, exp_result. set (mw := match m with Some m => abs m | None => [] end).
  assert (Hmw : is_nat mw /\ fitsUint mw /\ nval mw = modulus m).
  { unfold mw, modulus. destruct m as [m'|]; [|split; [apply is_nat_nil|]; split; [|done]; unfold fitsUint; cbn [val]; apply Z.pow_pos_nonneg; pose proof B_pos; lia].
    destruct (Hm m' eq_refl) as [H1 H2]. split; [apply H1|]. split; [done|]. by apply ival_abs. }
  destruct Hmw as (Hmn & Hmf & Em). rewrite (neg_sign (ival y) y) by done. assert (Eleb : (0 <=? ival y) = negb (ival y <? 0)) by (by rewrite Z.leb_antisym). rewrite Eleb.
  destruct (Z.ltb_spec (ival y) 0) as [Hneg|Hpos]; cbn [negb].
  2: { eapply returns_bind_mono; [apply expSigned_spec; try done; apply Hx|]. intros v Hv. cbn [returns]. exists v. split; [done|]. rewrite Em, ival_abs, (Z.abs_eq (ival y)) in Hv by done.
       replace ((if neg x then -1 else 1) * Z.abs (ival x)) with (ival x) in Hv; [done|]. rewrite (neg_sign (ival x) x) by done. destruct (Z.ltb_spec (ival x) 0); lia. }
  assert (H1 : (let! z := SetInt64 z 1 in Ok (Some z)) ⇓ (fun r => exists v, r = Some v /\ is_int 1 v)).
  { eapply returns_bind_mono; [apply SetInt64_spec; lia|]. intros v Hv. cbn [returns]. by exists v. }
  destruct m as [m'|]; [|done]. destruct (Hm m' eq_refl) as [Hm' _]. rewrite len_zero_iff by done. cbn [modulus] in *.
  destruct (Z.eqb_spec (ival m') 0) as [E0|E0]. { rewrite E0. done. }
  rewrite (proj2 (Z.eqb_neq (Z.abs (ival m')) 0)) by lia. eapply returns_bind_mono; [by apply ModInverse_spec|]. intros [i|] Hi.
  2: { cbn [returns]. by rewrite Z.gcd_abs_r. }
  destruct Hi as (Hi & Hib & Hid). eapply returns_bind_mono; [apply expSigned_spec; try done; apply Hi|]. intros v [Ev Hv]. cbn [returns].
  rewrite Em, ival_abs, (Z.abs_eq (ival i)) in Ev by (done || lia). set (e := Z.abs (ival y)) in *. assert (He : 0 <= e) by lia.
  assert (Es : ((if neg x then -1 else 1) * ival i) ^ e = ival i ^ e).
  { rewrite (neg_sign (ival x) x) by done. destruct (Z.ltb_spec (ival x) 0) as [Hxn|]; [|by rewrite Z.mul_1_l]. destruct Hc as [|[|Hev]]; [lia|lia|].
    rewrite Z.pow_mul_l. replace ((-1) ^ e) with 1; [lia|]. assert (Z.even e = true) as [k Ek]%Z.even_spec by (unfold e; by destruct (ival y)). rewrite Ek, Z.pow_mul_r, Z.pow_1_l by lia. done. }
  unfold powMod in Ev. rewrite (proj2 (Z.eqb_neq (Z.abs (ival m')) 0)), Es in Ev by lia. split; [done|]. rewrite Ev. split; [apply Z.mod_pos_bound; lia|].
  rewrite mod_cong, <- Z.pow_mul_l by lia. assert (C : cong (Z.abs (ival m')) (ival i * ival x) 1) by (unfold cong; rewrite Z.mul_comm; by apply Z.divide_abs_l).
  rewrite (cong_pow _ _ _ e He C), Z.pow_1_l by done. reflexivity.
Qed.
End Exponentiation.

(** ** Properties *)

Section Properties.
Context `{P : Platform} (scratch : Z -> list Z) (Hscratch : forall n, 0 <= n -> len (scratch n) = n).

(** The bits of the modulus are counted by a machine word. *)
Definition boundedMod (m : option Int) : Prop := forall m', m = Some m' -> int_ok m' /\ _W * len (abs m') <= 2 ^ _W.

Lemma bounded_fits m : boundedMod m -> forall m', m = Some m' -> int_ok m' /\ fitsUint (abs m').
Proof.
  intros H m' E. destruct (H m' E) as [Hi Hl]. split; [done|]. unfold fitsUint. pose proof (nval_bound (abs m') (proj1 (proj1 Hi))) as B.
  unfold weight in B. assert (2 ^ (_W * len (abs m')) <= 2 ^ (2 ^ _W)) by (apply Z.pow_le_mono_r; lia). lia.
Qed.

(** C17: Int.Exp (and expSlow) return x**y mod |m|: for y >= 0 the Euclidean residue of
    the power (the power itself when m is nil or 0); for y < 0 the value 1
    without a modulus, else the inverse of x**|y| modulo |m|, in [0, |m|), and nil
    exactly when x is not invertible.  This covers Montgomery, windowed and
    Chinese-remainder exponentiation, which return for every input.  A negative x
    with an odd negative y is excepted: Exp_negative_inverse shows what the code
    then returns. *)
Theorem Exp_correct z x y m slow : int_ok x -> int_ok y -> boundedMod m ->
  0 <= ival y \/ 0 <= ival x \/ Z.even (ival y) = true ->
  iexp scratch z x y m slow ⇓ exp_result (ival x) (ival y) (modulus m).
Proof. intros Hx Hy Hm. apply iexp_spec; try done. by apply bounded_fits. Qed.

(** the fast exponentiations agree with square and multiply: Exp returns what
    expSlow does, for all operands (of either sign, with or without a modulus)
    and whatever the storage of the results holds. *)
Theorem Exp_equals_expSlow z z' x y m : int_ok x -> int_ok y -> boundedMod m ->
  Exp scratch z x y m = expSlow scratch z' x y m.
Proof.
  intros Hx Hy Hm. pose proof (bounded_fits m Hm) as Hf. unfold Exp, expSlow, iexp. set (mw := match m with Some m => abs m | None => [] end).
  assert (Hmw : is_nat mw /\ fitsUint mw).
  { unfold mw. destruct m as [m'|]; [destruct (Hf m' eq_refl) as [H1 H2]; split; [apply H1|done]|]. split; [apply is_nat_nil|]. unfold fitsUint. cbn [val].
    apply Z.pow_pos_nonneg; pose proof B_pos; lia. }
  assert (E1 : SetInt64 z 1 = SetInt64 z' 1).
  { destruct (returns_inv _ _ (SetInt64_spec z 1 ltac:(lia))) as (r & -> & Er & Hr), (returns_inv _ _ (SetInt64_spec z' 1 ltac:(lia))) as (r' & -> & Er' & Hr').
    f_equal. apply int_unique; [done|done|congruence]. }
  assert (ES : forall b, is_nat b -> expSigned scratch z b x y mw false = expSigned scratch z' b x y mw true).
  { intros b Hb. destruct Hmw as [Hmn Hmf].
    destruct (returns_inv _ _ (expSigned_spec scratch Hscratch z b x y mw false Hb Hx Hy Hmn Hmf)) as (r & -> & Er & Hr).
    destruct (returns_inv _ _ (expSigned_spec scratch Hscratch z' b x y mw true Hb Hx Hy Hmn Hmf)) as (r' & -> & Er' & Hr').
    f_equal. apply int_unique; [done|done|congruence]. }
  destruct (neg y); [|by rewrite ES by apply Hx]. destruct m as [m'|]; [|by rewrite E1]. destruct (Hf m' eq_refl) as [Hm' _].
  rewrite len_zero_iff by done. destruct (Z.eqb_spec (ival m') 0) as [E0|E0]; [by rewrite E1|].
  destruct (returns_inv _ _ (ModInverse_spec scratch Hscratch [] x m' Hx Hm' E0)) as ([i|] & -> & Hi); cbn [rbind]; [|done].
  destruct Hi as [Hi _]. by rewrite ES by apply Hi.
Qed.

(** C18: Int.GCD returns the greatest common divisor of a and b (also when they are
    negative or zero), and the coefficients it is asked for: x with
    b | gcd - a*x and |x| < |b| (when b is not 0), y with a | gcd - b*y, and
    a*x + b*y = gcd when it is asked for both.  Lehmer's algorithm returns for all operands: the leading-word
    simulation, the Euclidean steps and the single-word loop terminate. *)
Theorem GCD_correct wantX wantY z x y a b : int_ok a -> int_ok b ->
  GCD scratch wantX wantY z x y a b ⇓ (fun '(g, x, y) =>
    ival g = Z.gcd (ival a) (ival b) /\ int_ok g /\
    (wantX = true -> (ival b | ival g - ival a * ival x) /\ (ival b <> 0 -> Z.abs (ival x) < Z.abs (ival b))) /\
    (wantY = true -> int_ok y /\ (ival a | ival g - ival b * ival y)) /\
    (wantX = true -> wantY = true -> ival a * ival x + ival b * ival y = ival g)).
Proof.
  intros Ha Hb. eapply returns_mono; [by apply GCD_spec|]. intros [[g x'] y'] [([Eg Hg] & HX & HY & HXY) Hlt]. cbn [fst snd] in Hlt.
  split; [done|]. split; [done|]. split; [|split; [done|]].
  - intros Wx. destruct (HX Wx) as (Hd & _). auto.
  - intros Wx Wy. symmetry. auto.
Qed.

(** C31: Int.ModInverse returns the inverse of g modulo n, reduced to [0, |n|), when g
    and n are relatively prime, and nil otherwise (n not 0). *)
Theorem ModInverse_correct z g n : int_ok g -> int_ok n -> ival n <> 0 ->
  ModInverse scratch z g n ⇓ (fun r => match r with
    | Some x => Z.gcd (ival g) (ival n) = 1 /\ int_ok x /\ 0 <= ival x < Z.abs (ival n) /\ ival g * ival x mod Z.abs (ival n) = 1 mod Z.abs (ival n)
    | None => Z.gcd (ival g) (ival n) <> 1
    end).
Proof.
  intros Hg Hn H0. eapply returns_mono; [by apply ModInverse_spec|]. intros [x|] Hx; [|done]. destruct Hx as (Hi & Hb & Hd).
  split; [|split; [done|]; split; [done|]; apply cong_mod; [lia|]; by apply Z.divide_abs_l].
  apply Z.gcd_unique; [lia|apply Z.divide_1_l|apply Z.divide_1_l|]. intros q Hq1 Hq2.
  replace 1 with (ival g * ival x - (ival g * ival x - 1)) by lia. apply Z.divide_sub_r; [by apply Z.divide_mul_l|]. by apply (Z.divide_trans _ (ival n)).
Qed.
End Properties.

(** ** Witnesses *)

(** A three-word base, a two-word exponent and moduli of each kind. *)
Definition base3 : Int := mkInt true [12345678901234567; 999; 3].
Definition exponent2 : Int := mkInt false [5; 2].
Definition oddMod : Int := mkInt false [1000003; 1].
Definition evenMod : Int := mkInt true [6 * 2 ^ 20].

Lemma boundedMod_64 m : let P := amd64 in intb m = true -> len (abs m) <= 2 ^ 50 -> boundedMod (Some m).
Proof. intros P Hm Hl m' [= <-]. split; [by apply intb_ok|]. change _W with 64. lia. Qed.

Lemma Exp_correct_witness : let P := amd64 in
  iexp filled [7] base3 exponent2 (Some oddMod) false ⇓ exp_result (ival base3) (ival exponent2) (2 ^ 64 + 1000003) /\
  iexp filled [7] base3 exponent2 (Some evenMod) false ⇓ exp_result (ival base3) (ival exponent2) (6 * 2 ^ 20) /\
  iexp filled [7] (NewInt 3) (NewInt (-5)) (Some (NewInt 7)) true ⇓ exp_result 3 (-5) 7.
Proof.
  intros P. assert (H : intb base3 = true /\ intb exponent2 = true /\ intb oddMod = true /\ intb evenMod = true /\ intb (NewInt 3) = true /\ intb (NewInt (-5)) = true /\ intb (NewInt 7) = true) by (vm_compute; done).
  destruct H as (H1 & H2 & H3 & H4 & H5 & H6 & H7). split; [|split].
  - apply (Exp_correct filled len_filled [7] base3 exponent2 (Some oddMod) false (intb_ok _ H1) (intb_ok _ H2)); [by apply boundedMod_64|by left].
  - apply (Exp_correct filled len_filled [7] base3 exponent2 (Some evenMod) false (intb_ok _ H1) (intb_ok _ H2)); [by apply boundedMod_64|by left].
  - assert (Hb : boundedMod (Some (NewInt 7))) by (by apply boundedMod_64). assert (Hc : 0 <= ival (NewInt (-5)) \/ 0 <= ival (NewInt 3) \/ Z.even (ival (NewInt (-5))) = true) by (right; left; vm_compute; done).
    pose proof (Exp_correct filled len_filled [7] (NewInt 3) (NewInt (-5)) (Some (NewInt 7)) true (intb_ok _ H5) (intb_ok _ H6) Hb Hc) as T.
    replace (ival (NewInt 3)) with 3 in T by (vm_compute; reflexivity). replace (ival (NewInt (-5))) with (-5) in T by (vm_compute; reflexivity).
    replace (modulus (Some (NewInt 7))) with 7 in T by (vm_compute; reflexivity). exact T.
Defined.

Lemma Exp_equals_expSlow_witness : let P := amd64 in
  Exp filled [7] base3 exponent2 (Some evenMod) = expSlow filled [] base3 exponent2 (Some evenMod) /\
  Exp filled [] base3 exponent2 (Some evenMod) = Ok (Some (mkInt false [2274521])).
Proof.
  intros P. assert (H : intb base3 = true /\ intb exponent2 = true /\ intb evenMod = true) by (vm_compute; done). destruct H as (H1 & H2 & H4). split.
  - assert (Hb : boundedMod (Some evenMod)) by (by apply boundedMod_64).
    exact (Exp_equals_expSlow filled len_filled [7] [] base3 exponent2 (Some evenMod) (intb_ok _ H1) (intb_ok _ H2) Hb).
  - vm_compute. reflexivity.
Defined.

Lemma GCD_correct_witness : let P := amd64 in
  GCD filled true true [] [] [] (mkInt true [0; 30; 12; 9]) (mkInt false [0; 0; 999]) ⇓ (fun '(g, x, y) =>
    ival g = 3 * 2 ^ 65 /\ ival (mkInt true [0; 30; 12; 9]) * ival x + 999 * 2 ^ 128 * ival y = ival g).
Proof.
  intros P. assert (H : intb (mkInt true [0; 30; 12; 9]) = true /\ intb (mkInt false [0; 0; 999]) = true) by (vm_compute; done). destruct H as [H1 H2].
  pose proof (GCD_correct filled len_filled true true [] [] [] (mkInt true [0; 30; 12; 9]) (mkInt false [0; 0; 999]) (intb_ok _ H1) (intb_ok _ H2)) as T.
  eapply returns_mono; [exact T|]. intros [[g x] y] (Eg & _ & _ & _ & E). specialize (E eq_refl eq_refl). split; [rewrite Eg; vm_compute; reflexivity|exact E].
Defined.

Lemma ModInverse_correct_witness : let P := amd64 in
  ModInverse filled [] base3 oddMod ⇓ (fun r => match r with
    | Some x => 0 <= ival x < 2 ^ 64 + 1000003 /\ ival base3 * ival x mod (2 ^ 64 + 1000003) = 1
    | None => False
    end).
Proof.
  intros P. assert (H : intb base3 = true /\ intb oddMod = true) by (vm_compute; done). destruct H as [H1 H2].
  assert (H0 : ival oddMod <> 0) by (vm_compute; done). pose proof (ModInverse_correct filled len_filled [] base3 oddMod (intb_ok _ H1) (intb_ok _ H2) H0) as T.
  eapply returns_mono; [exact T|]. intros [x|] Hx.
  - destruct Hx as (_ & _ & Hb & E). split; [exact Hb|exact E].
  - apply Hx. vm_compute. reflexivity.
Defined.

(** ** A negative base and an odd negative exponent

    The inverse of -3 modulo 7 is 2, and 2**5 mod 7 = 4; the code returns 7 - 4. *)
Example Exp_negative_inverse :
  let P := amd64 in
  Exp filled [] (NewInt (-3)) (NewInt (-5)) (Some (NewInt 7)) = Ok (Some (NewInt 3)) /\
  (4 * (-3) ^ 5) mod 7 = 1 /\ (3 * (-3) ^ 5) mod 7 = 6.
Proof. vm_compute. repeat split. Qed.
