(* ===== verification/RWMutex.v ===== *)
(** * Package sync: reader/writer locks (src/sync/rwmutex.go)

    RWMutex with any number of goroutines that call its methods, interleaved
    at every atomic operation.  The mutex of internal/sync and the semaphores of
    the runtime, which are not part of the sources, are the class [Runtime] with
    what sync/mutex.go and sync/runtime.go document of them as the class
    [RuntimeLaws].  The calls for the race detector do nothing without it and are
    left out. *)
From Stdlib Require Import ZArith Lia.
From stdpp Require Import base numbers list relations.
From S2P Require Import Prelude.

(** ** The runtime *)

Class Runtime := {
  mutex : Type;
  mZero : mutex;
  mLock : mutex -> option mutex;     (** None: the goroutine blocks *)
  mTryLock : mutex -> bool * mutex;
  mUnlock : mutex -> option mutex;   (** None: a fatal error *)
  semacquire : Z -> option Z;        (** None: the goroutine blocks *)
  semrelease : Z -> Z;
}.

Class RuntimeLaws (RT : Runtime) := {
  locked : mutex -> bool;
  mZero_law : locked mZero = false;
  mLock_law m : match mLock m with Some m' => locked m = false /\ locked m' = true | None => locked m = true end;
  mTryLock_law m : let '(ok, m') := mTryLock m in if ok : bool then locked m = false /\ locked m' = true else locked m' = locked m;
  mUnlock_law m : match mUnlock m with Some m' => locked m = true /\ locked m' = false | None => locked m = false end;
  semacquire_law s : semacquire s = if 0 <? s then Some (s - 1) else None;
  semrelease_law s : 0 <= s < 2 ^ 32 - 1 -> semrelease s = s + 1;
}.

Section Model.
Context `{RT : Runtime}.

Record RWMutex := mkRW { w : mutex; writerSem : Z; readerSem : Z; readerCount : Z; readerWait : Z }.
Definition zeroRW : RWMutex := mkRW mZero 0 0 0 0.
Definition rwmutexMaxReaders : Z := Z.shiftl 1 30.

(** Where a goroutine is: outside of the methods ([Idle]), holding the lock
    ([Reading], [Writing]), or before an atomic operation of a method. *)
Inductive pc :=
  | Idle | Reading | Writing | Fatal
  | RLock0 | RLock1
  | TryRLock0 | TryRLock1 (c : Z)
  | RUnlock1 (r : Z) | RUnlock2
  | Lock0 | Lock1 | Lock2 (r : Z) | Lock3
  | TryLock0 | TryLock1 | TryLock2
  | Unlock1 (r i : Z).

#[export] Instance pc_eq_dec : EqDecision pc.
Proof. solve_decision. Defined.

(** The shared lock after the operation, and where the goroutine goes on. *)
Definition next : Type := option (RWMutex * pc).

Definition setCount (rw : RWMutex) (c : Z) : RWMutex := mkRW (w rw) (writerSem rw) (readerSem rw) c (readerWait rw).
Definition setWait (rw : RWMutex) (c : Z) : RWMutex := mkRW (w rw) (writerSem rw) (readerSem rw) (readerCount rw) c.
Definition setW (rw : RWMutex) (m : mutex) : RWMutex := mkRW m (writerSem rw) (readerSem rw) (readerCount rw) (readerWait rw).
Definition setWriterSem (rw : RWMutex) (s : Z) : RWMutex := mkRW (w rw) s (readerSem rw) (readerCount rw) (readerWait rw).
Definition setReaderSem (rw : RWMutex) (s : Z) : RWMutex := mkRW (w rw) (writerSem rw) s (readerCount rw) (readerWait rw).

(** RLock *)
Definition RLock_add (rw : RWMutex) : next :=
  let c := i32 (readerCount rw + 1) in
  Some (setCount rw c, if c <? 0 then RLock1 else Reading).
Definition RLock_wait (rw : RWMutex) : next :=
  s ← semacquire (readerSem rw); Some (setReaderSem rw s, Reading).

(** TryRLock *)
Definition TryRLock_load (rw : RWMutex) : next :=
  let c := readerCount rw in
  Some (rw, if c <? 0 then Idle else TryRLock1 c).
Definition TryRLock_cas (rw : RWMutex) (c : Z) : next :=
  if readerCount rw =? c then Some (setCount rw (i32 (c + 1)), Reading) else Some (rw, TryRLock0).

(** RUnlock and rUnlockSlow *)
Definition RUnlock_add (rw : RWMutex) : next :=
  let r := i32 (readerCount rw - 1) in
  Some (setCount rw r, if r <? 0 then RUnlock1 r else Idle).
Definition rUnlockSlow_wait (rw : RWMutex) (r : Z) : next :=
  if (i32 (r + 1) =? 0) || (i32 (r + 1) =? - rwmutexMaxReaders) then Some (rw, Fatal) else
  let d := i32 (readerWait rw - 1) in
  Some (setWait rw d, if d =? 0 then RUnlock2 else Idle).
Definition rUnlockSlow_release (rw : RWMutex) : next :=
  Some (setWriterSem rw (semrelease (writerSem rw)), Idle).

(** Lock *)
Definition Lock_mutex (rw : RWMutex) : next :=
  m ← mLock (w rw); Some (setW rw m, Lock1).
Definition Lock_announce (rw : RWMutex) : next :=
  let c := i32 (readerCount rw - rwmutexMaxReaders) in
  let r := i32 (c + rwmutexMaxReaders) in
  Some (setCount rw c, if negb (r =? 0) then Lock2 r else Writing).
Definition Lock_readers (rw : RWMutex) (r : Z) : next :=
  let d := i32 (readerWait rw + r) in
  Some (setWait rw d, if negb (d =? 0) then Lock3 else Writing).
Definition Lock_wait (rw : RWMutex) : next :=
  s ← semacquire (writerSem rw); Some (setWriterSem rw s, Writing).

(** TryLock *)
Definition TryLock_mutex (rw : RWMutex) : next :=
  let '(ok, m) := mTryLock (w rw) in
  Some (setW rw m, if ok : bool then TryLock1 else Idle).
Definition TryLock_cas (rw : RWMutex) : next :=
  if readerCount rw =? 0 then Some (setCount rw (- rwmutexMaxReaders), Writing) else Some (rw, TryLock2).
Definition TryLock_undo (rw : RWMutex) : next :=
  match mUnlock (w rw) with Some m => Some (setW rw m, Idle) | None => Some (rw, Fatal) end.

(** Unlock *)
Definition Unlock_announce (rw : RWMutex) : next :=
  let r := i32 (readerCount rw + rwmutexMaxReaders) in
  Some (setCount rw r, if r >=? rwmutexMaxReaders then Fatal else Unlock1 r 0).
Definition Unlock_readers (rw : RWMutex) (r i : Z) : next :=
  if i <? r then Some (setReaderSem rw (semrelease (readerSem rw)), Unlock1 r (i + 1)) else
  match mUnlock (w rw) with Some m => Some (setW rw m, Idle) | None => Some (rw, Fatal) end.

Definition syscall_hasWaitingReaders (rw : RWMutex) : bool :=
  let r := readerCount rw in
  (r <? 0) && (i32 (r + rwmutexMaxReaders) >? 0).

(** The next operation of a goroutine; None when it is blocked, or outside. *)
Definition run (rw : RWMutex) (p : pc) : next :=
  match p with
  | Idle | Fatal => None
  | RLock0 => RLock_add rw
  | RLock1 => RLock_wait rw
  | TryRLock0 => TryRLock_load rw
  | TryRLock1 c => TryRLock_cas rw c
  | Reading => RUnlock_add rw
  | RUnlock1 r => rUnlockSlow_wait rw r
  | RUnlock2 => rUnlockSlow_release rw
  | Lock0 => Lock_mutex rw
  | Lock1 => Lock_announce rw
  | Lock2 r => Lock_readers rw r
  | Lock3 => Lock_wait rw
  | TryLock0 => TryLock_mutex rw
  | TryLock1 => TryLock_cas rw
  | TryLock2 => TryLock_undo rw
  | Writing => Unlock_announce rw
  | Unlock1 r i => Unlock_readers rw r i
  end.

(** ** Goroutines *)

Inductive method := CallRLock | CallTryRLock | CallLock | CallTryLock.
Definition entry (c : method) : pc :=
  match c with CallRLock => RLock0 | CallTryRLock => TryRLock0 | CallLock => Lock0 | CallTryLock => TryLock0 end.

Record system := mkSys { rw : RWMutex; threads : list pc }.

Definition runAt (s : system) (i : nat) : option system :=
  p ← threads s !! i;
  '(rw', p') ← run (rw s) p;
  Some (mkSys rw' (<[i := p']> (threads s))).
Definition callAt (s : system) (i : nat) (c : method) : option system :=
  match threads s !! i with
  | Some Idle => Some (mkSys (rw s) (<[i := entry c]> (threads s)))
  | _ => None
  end.

(** A goroutine goes on; or it calls a method. *)
Definition progress (s s' : system) : Prop := exists i, runAt s i = Some s'.
Inductive step (s s' : system) : Prop :=
  | step_run : progress s s' -> step s s'
  | step_call i c : callAt s i c = Some s' -> step s s'.

Definition start (n : nat) : system := mkSys zeroRW (replicate n Idle).
Definition reachable (n : nat) (s : system) : Prop := rtc step (start n) s.

(** A schedule: which goroutine goes on, or which one calls a method. *)
Fixpoint schedule (s : system) (l : list (nat * option method)) : option system :=
  match l with
  | [] => Some s
  | (i, None) :: l => s' ← runAt s i; schedule s' l
  | (i, Some c) :: l => s' ← callAt s i c; schedule s' l
  end.

Lemma schedule_steps s l s' : schedule s l = Some s' -> rtc step s s'.
Proof.
  revert s. induction l as [|[i [c|]] l IH]; intros s H; cbn in H.
  - by injection H as ->.
  - destruct (callAt s i c) as [s1|] eqn:E; [|done]. eapply rtc_l; [by eapply step_call|]. by apply IH.
  - destruct (runAt s i) as [s1|] eqn:E; [|done]. eapply rtc_l; [apply step_run; by exists i|]. by apply IH.
Qed.

(** ** Counting goroutines *)

Definition tsum (f : pc -> Z) (l : list pc) : Z := foldr (fun p a => f p + a) 0 l.

Lemma tsum_middle f l1 p l2 : tsum f (l1 ++ p :: l2) = f p + tsum f (l1 ++ l2).
Proof. induction l1 as [|q l1 IH]; cbn [app tsum foldr] in *; [done|]. unfold tsum in IH. rewrite IH. lia. Qed.

Lemma tsum_le f g l : (forall p, f p <= g p) -> tsum f l <= tsum g l.
Proof. intros H. induction l as [|p l IH]; cbn [tsum foldr] in *; [lia|]. pose proof (H p). unfold tsum in IH. lia. Qed.

Lemma tsum_const c l : tsum (fun _ => c) l = c * len l.
Proof. unfold len. induction l as [|p l IH]; cbn [tsum foldr length] in *; [lia|]. unfold tsum in IH. rewrite IH. lia. Qed.

Lemma tsum_add f g l : tsum (fun p => f p + g p) l = tsum f l + tsum g l.
Proof. induction l as [|p l IH]; cbn [tsum foldr] in *; [lia|]. unfold tsum in IH. rewrite IH. lia. Qed.

Lemma tsum_nonneg f l : (forall p, 0 <= f p) -> 0 <= tsum f l.
Proof. intros H. induction l as [|p l IH]; cbn [tsum foldr] in *; [lia|]. pose proof (H p). unfold tsum in IH. lia. Qed.

(** Where [g] is zero so is [f]; so are their sums. *)
Lemma tsum_zero f g l : (forall p, 0 <= g p) -> (forall p, g p = 0 -> f p = 0) -> tsum g l = 0 -> tsum f l = 0.
Proof.
  intros Hg Hf. induction l as [|p l IH]; cbn [tsum foldr] in *; [done|]. intros H. pose proof (Hg p). pose proof (tsum_nonneg g l Hg).
  unfold tsum in *. rewrite Hf, IH by lia. done.
Qed.

Lemma tsum_pos f l : 0 < tsum f l -> exists i p, l !! i = Some p /\ 0 < f p.
Proof.
  induction l as [|q l IH]; cbn [tsum foldr]; [lia|]. intros H. destruct (Z.lt_ge_cases 0 (f q)); [by exists 0%nat, q|].
  destruct IH as (i & p & Hi & Hp); [unfold tsum; lia|]. by exists (S i), p.
Qed.

Lemma thread_split (l : list pc) i p : l !! i = Some p -> exists l1 l2, l = l1 ++ p :: l2 /\ forall q, <[i := q]> l = l1 ++ q :: l2.
Proof.
  intros H. exists (take i l), (drop (S i) l). split; [symmetry; by apply take_drop_middle|]. intros q. apply insert_take_drop. by eapply lookup_lt_Some.
Qed.

Definition isReading (p : pc) : Z := match p with Reading => 1 | _ => 0 end.
Definition isWriting (p : pc) : Z := match p with Writing => 1 | _ => 0 end.
(** a reader that waits for a writer to unlock *)
Definition isWaiting (p : pc) : Z := match p with RLock1 => 1 | _ => 0 end.
(** a reader that leaves while a writer is pending *)
Definition isLeaving (p : pc) : Z := match p with RUnlock1 _ => 1 | _ => 0 end.
Definition isWaking (p : pc) : Z := match p with RUnlock2 => 1 | _ => 0 end.
Definition isCounting (p : pc) : Z := match p with Lock2 _ => 1 | _ => 0 end.
Definition counted (p : pc) : Z := match p with Lock2 r => r | _ => 0 end.
Definition isBlocked (p : pc) : Z := match p with Lock3 => 1 | _ => 0 end.
Definition isReleasing (p : pc) : Z := match p with Unlock1 _ _ => 1 | _ => 0 end.
Definition toRelease (p : pc) : Z := match p with Unlock1 r i => r - i | _ => 0 end.
(** the goroutine that holds the mutex [w] *)
Definition holdsW (p : pc) : Z :=
  match p with Lock1 | Lock2 _ | Lock3 | TryLock1 | TryLock2 | Writing | Unlock1 _ _ => 1 | _ => 0 end.
End Model.
