(* ===== verification/RWMutexCorrect.v ===== *)
(** * Package sync: the invariant of reader/writer locks

    The counters of RWMutex against the goroutines: who has the lock, who waits
    for it, and who is about to wake another one. *)
From Stdlib Require Import ZArith Lia.
From stdpp Require Import base numbers list relations.
From S2P Require Import Prelude RWMutex.

Section Invariant.
Context `{RL : RuntimeLaws}.
Abbreviation max := 1073741824.

Lemma maxReaders_eq : rwmutexMaxReaders = max.
Proof. done. Qed.

(** What a goroutine remembers, of [n] goroutines. *)
Definition local_ok (n : Z) (p : pc) : Prop :=
  match p with
  | TryRLock1 c => 0 <= c
  | RUnlock1 r => - max <= r < 0 /\ r + 1 <> 0 /\ r + 1 <> - max
  | Lock2 r => 0 < r <= n
  | Unlock1 r i => 0 <= i <= r /\ r <= n
  | Fatal => False
  | _ => True
  end.

(** The goroutines by what they do; a writer is pending from its announcement
    until it unlocks. *)
Definition pendingWriters (l : list pc) : Z := tsum isCounting l + tsum isBlocked l + tsum isWriting l.
(** The readers that entered, and those that a token of the semaphore lets in. *)
Definition active (x : RWMutex) (l : list pc) : Z := tsum isReading l + readerSem x.

(** Nobody leaves or is woken, and the writers' counters are clear. *)
Definition quiet (s : system) : Prop :=
  tsum isLeaving (threads s) = 0 /\ tsum isWaking (threads s) = 0 /\ writerSem (rw s) = 0 /\ readerWait (rw s) = 0.

(** The four states of the lock: no writer pending, a writer that has announced
    itself, one that sleeps until the readers before it have left, one that holds
    the lock. *)
Inductive phase (s : system) : Z -> Z -> Z -> Prop :=
  | NoWriter :
      tsum isWaiting (threads s) - readerSem (rw s) = tsum toRelease (threads s) -> quiet s -> phase s 0 0 0
  | Announced :
      readerWait (rw s) + tsum counted (threads s) = active (rw s) (threads s) + tsum isLeaving (threads s) ->
      readerWait (rw s) <= 0 -> writerSem (rw s) = 0 -> tsum isWaking (threads s) = 0 -> phase s 1 0 0
  | Sleeping :
      readerWait (rw s) = active (rw s) (threads s) + tsum isLeaving (threads s) -> 0 < readerWait (rw s) ->
      writerSem (rw s) = 0 -> tsum isWaking (threads s) = 0 -> phase s 0 1 0
  | Woken :
      active (rw s) (threads s) = 0 -> tsum isLeaving (threads s) = 0 -> readerWait (rw s) = 0 ->
      0 <= writerSem (rw s) -> writerSem (rw s) + tsum isWaking (threads s) = 1 -> phase s 0 1 0
  | Held : active (rw s) (threads s) = 0 -> quiet s -> phase s 0 0 1.

Record consistent (n : Z) (s : system) : Prop := {
  c_len : len (threads s) = n;
  c_local : Forall (local_ok n) (threads s);
  c_mutex : tsum holdsW (threads s) = if locked (w (rw s)) then 1 else 0;
  c_count : readerCount (rw s) = tsum isReading (threads s) + tsum isWaiting (threads s) - max * pendingWriters (threads s);
  c_sem : 0 <= readerSem (rw s) <= tsum isWaiting (threads s);
  c_phase : phase s (tsum isCounting (threads s)) (tsum isBlocked (threads s)) (tsum isWriting (threads s));
}.

Lemma phase_iff s a b c : phase s a b c <->
  (a = 0 /\ b = 0 /\ c = 0 /\ tsum isWaiting (threads s) - readerSem (rw s) = tsum toRelease (threads s) /\ quiet s) \/
  (a = 1 /\ b = 0 /\ c = 0 /\ readerWait (rw s) + tsum counted (threads s) = active (rw s) (threads s) + tsum isLeaving (threads s) /\
     readerWait (rw s) <= 0 /\ writerSem (rw s) = 0 /\ tsum isWaking (threads s) = 0) \/
  (a = 0 /\ b = 1 /\ c = 0 /\ readerWait (rw s) = active (rw s) (threads s) + tsum isLeaving (threads s) /\ 0 < readerWait (rw s) /\
     writerSem (rw s) = 0 /\ tsum isWaking (threads s) = 0) \/
  (a = 0 /\ b = 1 /\ c = 0 /\ active (rw s) (threads s) = 0 /\ tsum isLeaving (threads s) = 0 /\ readerWait (rw s) = 0 /\
     0 <= writerSem (rw s) /\ writerSem (rw s) + tsum isWaking (threads s) = 1) \/
  (a = 0 /\ b = 0 /\ c = 1 /\ active (rw s) (threads s) = 0 /\ quiet s).
Proof.
  split; [intros []; [left|right; left|right; right; left|right; right; right; left|right; right; right; right]; done|].
  intros [(-> & -> & -> & H)|[(-> & -> & -> & H)|[(-> & -> & -> & H)|[(-> & -> & -> & H)|(-> & -> & -> & H)]]]]; [apply NoWriter|apply Announced|apply Sleeping|apply Woken|apply Held]; apply H.
Qed.

(** What the sums are to each other, for any goroutines. *)
Record counts (n : Z) (l : list pc) : Prop := {
  k_reading : 0 <= tsum isReading l;
  k_writing : 0 <= tsum isWriting l;
  k_waiting : 0 <= tsum isWaiting l;
  k_leaving : 0 <= tsum isLeaving l;
  k_waking : 0 <= tsum isWaking l;
  k_counting : 0 <= tsum isCounting l;
  k_blocked : 0 <= tsum isBlocked l;
  k_releasing : 0 <= tsum isReleasing l;
  k_holds : tsum isCounting l + tsum isBlocked l + tsum isWriting l + tsum isReleasing l <= tsum holdsW l;
  k_all : tsum isReading l + tsum isWaiting l + tsum isLeaving l + tsum isWaking l + tsum holdsW l <= len l;
  k_counted : tsum isCounting l <= tsum counted l;
  k_counted0 : tsum isCounting l = 0 -> tsum counted l = 0;
  k_counted1 : tsum isCounting l = 1 -> tsum counted l <= n;
  k_toRelease : 0 <= tsum toRelease l;
  k_toRelease0 : tsum isReleasing l = 0 -> tsum toRelease l = 0;
}.

Ltac pointwise := let p := fresh in intros p; destruct p; cbn; lia.

Lemma tsum_le_ok n f g l : Forall (local_ok n) l -> (forall p, local_ok n p -> f p <= g p) -> tsum f l <= tsum g l.
Proof.
  intros Hl H. induction Hl as [|p l Hp Hl IH]; cbn [tsum foldr] in *; [lia|]. specialize (H p Hp). unfold tsum in *. lia.
Qed.

Lemma tsum_scale c f l : tsum (fun p => c * f p) l = c * tsum f l.
Proof. induction l as [|p l IH]; cbn [tsum foldr] in *; [lia|]. unfold tsum in *. rewrite IH. lia. Qed.

Lemma counts_ok n l : Forall (local_ok n) l -> counts n l.
Proof.
  intros Hl. assert (C : tsum counted l <= n * tsum isCounting l) by (rewrite <- tsum_scale; apply (tsum_le_ok n); [done|]; intros [] Hp; cbn in *; lia).
  constructor; try (apply tsum_nonneg; pointwise).
  - rewrite <- !tsum_add. apply tsum_le. pointwise.
  - rewrite <- !tsum_add. rewrite <- (Z.mul_1_l (len l)), <- tsum_const. apply tsum_le. pointwise.
  - apply (tsum_le_ok n); try done; intros [] Hp; cbn in *; lia.
  - apply tsum_zero; pointwise.
  - intros E. rewrite E in C. lia.
  - replace 0 with (tsum (fun _ => 0) l) by (rewrite tsum_const; lia). apply (tsum_le_ok n); try done; intros [] Hp; cbn in *; lia.
  - apply tsum_zero; pointwise.
Qed.

Lemma consistent_start n : Z.of_nat n < max -> consistent (Z.of_nat n) (start n).
Proof.
  intros Hn. assert (Z0 : forall f, f Idle = 0 -> tsum f (replicate n Idle) = 0).
  { intros f Hf. induction n as [|n IH]; cbn [replicate tsum foldr]; [done|]. unfold tsum in IH. rewrite IH by lia. lia. }
  constructor; unfold pendingWriters, active; cbn [start rw threads zeroRW w readerSem readerCount readerWait writerSem]; rewrite ?Z0, ?mZero_law by done; try done; try lia.
  - unfold len. by rewrite length_replicate.
  - apply Forall_replicate. done.
  - apply phase_iff. left. unfold quiet. cbn [start rw threads zeroRW readerSem readerWait writerSem]. rewrite !Z0 by done. lia.
Qed.

(** The sums over the goroutines but one stay when that one moves. *)
Lemma others n s i p : consistent n s -> threads s !! i = Some p -> exists l1 l2,
  threads s = l1 ++ p :: l2 /\ (forall q, <[i := q]> (threads s) = l1 ++ q :: l2) /\
  Forall (local_ok n) (l1 ++ l2) /\ local_ok n p /\ len (l1 ++ l2) = n - 1 /\ len (l1 ++ p :: l2) = n.
Proof.
  intros C Hp. destruct (thread_split (threads s) i p Hp) as (l1 & l2 & E & Hq). exists l1, l2. split; [done|]. split; [done|].
  destruct C as [Hl Hloc _ _ _ _]. rewrite E in *. apply Forall_app in Hloc as [H1 H2]. apply Forall_cons_1 in H2 as [H2 H3].
  split; [by apply Forall_app|]. split; [done|]. rewrite !len_app, len_cons in *. lia.
Qed.

Lemma local_middle n l1 q l2 : Forall (local_ok n) (l1 ++ l2) -> local_ok n q -> Forall (local_ok n) (l1 ++ q :: l2).
Proof. intros [H1 H2]%Forall_app Hq. apply Forall_app. split; [done|]. by constructor. Qed.

Lemma len_middle {A} (l1 : list A) p q l2 : len (l1 ++ q :: l2) = len (l1 ++ p :: l2).
Proof. rewrite !len_app, !len_cons. lia. Qed.

(** All sums of [consistent], with the goroutine that moves taken out. *)
Ltac open_counts :=
  unfold pendingWriters, active, quiet in *;
  cbn [rw threads w writerSem readerSem readerCount readerWait setCount setWait setW setWriterSem setReaderSem] in *;
  rewrite ?tsum_middle in *;
  cbn [isReading isWriting isWaiting isLeaving isWaking isCounting counted isBlocked isReleasing toRelease holdsW local_ok] in *.

Ltac consistent_by tac :=
  match goal with
  | Hn : ?n < _, C : consistent ?n ?s, Hp : threads ?s !! ?i = Some ?p |- _ =>
      let l1 := fresh "l1" in let l2 := fresh "l2" in let El := fresh "El" in let Eq := fresh "Eq" in
      let Hr := fresh "Hr" in let Hlp := fresh "Hlp" in let L1 := fresh "L1" in let L2 := fresh "L2" in
      destruct (others n s i p C Hp) as (l1 & l2 & El & Eq & Hr & Hlp & L1 & L2);
      pose proof (counts_ok n (l1 ++ l2) Hr) as [];
      destruct C as [_ _ C1 C2 C3 C4%phase_iff]; open_counts;
      rewrite El in *; open_counts; destruct (locked (w (rw s))) eqn:Hlocked;
      destruct C4 as [C4|[C4|[C4|[C4|C4]]]]; try lia; tac
  end.

(** The goroutine went on to another place: every clause is linear. *)
Ltac moved :=
  match goal with Eq : forall q, <[_ := q]> _ = _ |- _ => rewrite Eq end;
  constructor; open_counts; rewrite ?tsum_middle;
  cbn [isReading isWriting isWaiting isLeaving isWaking isCounting counted isBlocked isReleasing toRelease holdsW];
  repeat match goal with H : locked _ = _ |- _ => rewrite H end;
  [by erewrite len_middle | apply local_middle; [done|cbn [local_ok]; lia || done] | lia | lia | lia
  | apply phase_iff; open_counts; rewrite ?tsum_middle; cbn [isReading isWriting isWaiting isLeaving isWaking isCounting counted isBlocked isReleasing toRelease holdsW];
    first [left; lia | right; left; lia | right; right; left; lia | right; right; right; left; lia | right; right; right; right; lia]].

Lemma call_consistent n s i c s' : n < max -> consistent n s -> callAt s i c = Some s' -> consistent n s'.
Proof.
  intros Hn C H. unfold callAt in H. destruct (threads s !! i) as [[]|] eqn:Hp; try done. injection H as <-. destruct c; cbn [entry]; consistent_by moved.
Qed.

Definition run_ok (n : Z) (p : pc) : Prop :=
  forall s i s', n < max -> consistent n s -> threads s !! i = Some p ->
  ('(rw', p') ← run (rw s) p; Some (mkSys rw' (<[i := p']> (threads s)))) = Some s' -> consistent n s'.

Ltac run_case := intros s i s' Hn C Hp H; cbn [run] in H.

Lemma RLock_ok n : run_ok n RLock0 /\ run_ok n RLock1.
Proof.
  split; run_case.
  - unfold RLock_add in H. consistent_by idtac; rewrite i32_id in H by lia;
      destruct (Z.ltb_spec (readerCount (rw s) + 1) 0); cbn in H; injection H as <-; moved.
  - unfold RLock_wait in H. rewrite semacquire_law in H. destruct (Z.ltb_spec 0 (readerSem (rw s))); [|done]. cbn in H. injection H as <-.
    consistent_by moved.
Qed.

Lemma TryRLock_ok n c : run_ok n TryRLock0 /\ run_ok n (TryRLock1 c).
Proof.
  split; run_case.
  - unfold TryRLock_load in H. destruct (Z.ltb_spec (readerCount (rw s)) 0); cbn in H; injection H as <-; consistent_by moved.
  - unfold TryRLock_cas in H. destruct (Z.eqb_spec (readerCount (rw s)) c) as [E|E].
    + consistent_by idtac; rewrite i32_id in H by lia; cbn in H; injection H as <-; moved.
    + cbn in H. injection H as <-. consistent_by moved.
Qed.

Lemma RUnlock_ok n r : run_ok n Reading /\ run_ok n (RUnlock1 r) /\ run_ok n RUnlock2.
Proof.
  split; [|split]; run_case.
  - unfold RUnlock_add in H. consistent_by idtac; rewrite i32_id in H by lia;
      destruct (Z.ltb_spec (readerCount (rw s) - 1) 0); cbn in H; injection H as <-; moved.
  - unfold rUnlockSlow_wait in H. rewrite maxReaders_eq in H. consistent_by idtac; rewrite !i32_id in H by lia;
      rewrite (proj2 (Z.eqb_neq (r + 1) 0)), (proj2 (Z.eqb_neq (r + 1) (- max))) in H by lia; cbn [orb] in H;
      destruct (Z.eqb_spec (readerWait (rw s) - 1) 0); cbn in H; injection H as <-; moved.
  - unfold rUnlockSlow_release in H. consistent_by idtac; rewrite semrelease_law in H by lia; cbn in H; injection H as <-; moved.
Qed.

Lemma Lock_ok n r : run_ok n Lock0 /\ run_ok n Lock1 /\ run_ok n (Lock2 r) /\ run_ok n Lock3.
Proof.
  split; [|split; [|split]]; run_case.
  - unfold Lock_mutex in H. pose proof (mLock_law (w (rw s))) as ML. destruct (mLock (w (rw s))) as [m|]; [|done]. destruct ML as [M1 M2]. cbn in H. injection H as <-.
    consistent_by ltac:(congruence || moved).
  - unfold Lock_announce in H. rewrite maxReaders_eq in H. consistent_by idtac; rewrite !i32_id in H by lia;
      destruct (Z.eqb_spec (readerCount (rw s) - max + max) 0); cbn in H; injection H as <-; moved.
  - unfold Lock_readers in H. consistent_by idtac; rewrite i32_id in H by lia;
      destruct (Z.eqb_spec (readerWait (rw s) + r) 0); cbn in H; injection H as <-; moved.
  - unfold Lock_wait in H. rewrite semacquire_law in H. destruct (Z.ltb_spec 0 (writerSem (rw s))); [|done]. cbn in H. injection H as <-.
    consistent_by moved.
Qed.

Lemma TryLock_ok n : run_ok n TryLock0 /\ run_ok n TryLock1 /\ run_ok n TryLock2.
Proof.
  split; [|split]; run_case.
  - unfold TryLock_mutex in H. pose proof (mTryLock_law (w (rw s))) as ML. destruct (mTryLock (w (rw s))) as [[] m].
    + destruct ML as [M1 M2]. cbn in H. injection H as <-. consistent_by ltac:(congruence || moved).
    + cbn in H. injection H as <-. consistent_by moved.
  - unfold TryLock_cas in H. rewrite maxReaders_eq in H. destruct (Z.eqb_spec (readerCount (rw s)) 0); cbn in H; injection H as <-; consistent_by moved.
  - unfold TryLock_undo in H. pose proof (mUnlock_law (w (rw s))) as ML. destruct (mUnlock (w (rw s))) as [m|].
    + destruct ML as [M1 M2]. cbn in H. injection H as <-. consistent_by ltac:(congruence || moved).
    + cbn in H. injection H as <-. consistent_by ltac:(congruence).
Qed.

Lemma Unlock_ok n r k : run_ok n Writing /\ run_ok n (Unlock1 r k).
Proof.
  split; run_case.
  - unfold Unlock_announce in H. rewrite maxReaders_eq, Z.geb_leb in H. consistent_by idtac; rewrite !i32_id in H by lia;
      rewrite (proj2 (Z.leb_gt _ _)) in H by lia; cbn in H; injection H as <-; moved.
  - unfold Unlock_readers in H. destruct (Z.ltb_spec k r).
    + consistent_by idtac; rewrite semrelease_law in H by lia; cbn in H; injection H as <-; moved.
    + pose proof (mUnlock_law (w (rw s))) as ML. destruct (mUnlock (w (rw s))) as [m|].
      * destruct ML as [M1 M2]. cbn in H. injection H as <-. consistent_by ltac:(congruence || moved).
      * cbn in H. injection H as <-. consistent_by ltac:(congruence).
Qed.

Lemma run_consistent n s i s' : n < max -> consistent n s -> runAt s i = Some s' -> consistent n s'.
Proof.
  intros Hn C H. unfold runAt in H. destruct (threads s !! i) as [p|] eqn:Hp; [|done]. cbn [mbind option_bind] in H.
  destruct (RLock_ok n) as [R0 R1], (Lock_ok n 0) as (L0 & L1 & _ & L3), (TryLock_ok n) as (T0 & T1 & T2).
  destruct p as [| | | | | | |c|r| | | |r| | | | |r k]; try done.
  - by eapply (proj1 (RUnlock_ok n 0)).
  - by eapply (proj1 (Unlock_ok n 0 0)).
  - by eapply R0.
  - by eapply R1.
  - by eapply (proj1 (TryRLock_ok n 0)).
  - by eapply (proj2 (TryRLock_ok n c)).
  - by eapply (proj1 (proj2 (RUnlock_ok n r))).
  - by eapply (proj2 (proj2 (RUnlock_ok n 0))).
  - by eapply L0.
  - by eapply L1.
  - by eapply (proj1 (proj2 (proj2 (Lock_ok n r)))).
  - by eapply L3.
  - by eapply T0.
  - by eapply T1.
  - by eapply T2.
  - by eapply (proj2 (Unlock_ok n r k)).
Qed.

Lemma reachable_consistent n s : Z.of_nat n < max -> reachable n s -> consistent (Z.of_nat n) s.
Proof.
  intros Hn. apply (rtc_ind_r (fun s => consistent (Z.of_nat n) s)); [by apply consistent_start|].
  intros s1 s2 _ [[i H]|i c H] C; [by eapply run_consistent|by eapply call_consistent].
Qed.

(** ** The readers before a writer *)

Definition ahead (s : system) : Z := active (rw s) (threads s) + tsum isLeaving (threads s).
Definition announced (s : system) : Prop := tsum isCounting (threads s) + tsum isBlocked (threads s) = 1.

Ltac ahead_case :=
  unfold ahead, announced in *; consistent_by ltac:(match goal with Eq : forall q, <[_ := q]> _ = _ |- _ => rewrite Eq end;
    rewrite ?tsum_middle; repeat case_match; rewrite ?Z.ltb_lt, ?Z.ltb_ge, ?Z.eqb_eq in *; cbn; lia).

Lemma call_ahead n s i c s' : n < max -> consistent n s -> announced s -> callAt s i c = Some s' -> ahead s' <= ahead s.
Proof.
  intros Hn C Ha H. unfold callAt in H. destruct (threads s !! i) as [[]|] eqn:Hp; try done. injection H as <-. destruct c; cbn [entry]; ahead_case.
Qed.

Lemma run_ahead n s i p rw' p' : n < max -> consistent n s -> announced s -> threads s !! i = Some p -> run (rw s) p = Some (rw', p') ->
  ahead (mkSys rw' (<[i := p']> (threads s))) <= ahead s.
Proof.
  intros Hn C Ha Hp H. destruct p; cbn [run] in H; try done.
  - unfold RUnlock_add in H. injection H as <- <-. ahead_case.
  - unfold Unlock_announce in H. injection H as <- <-. ahead_case.
  - unfold RLock_add in H. injection H as <- <-. unfold ahead, announced in *. consistent_by ltac:(rewrite i32_id, (proj2 (Z.ltb_lt _ _)), Eq, ?tsum_middle by lia; cbn; lia).
  - unfold RLock_wait in H. rewrite semacquire_law in H. destruct (0 <? _); [|done]. injection H as <- <-. ahead_case.
  - unfold TryRLock_load in H. injection H as <- <-. ahead_case.
  - unfold TryRLock_cas in H. destruct (Z.eqb_spec (readerCount (rw s)) c); injection H as <- <-; ahead_case.
  - unfold rUnlockSlow_wait in H. destruct (_ || _); injection H as <- <-; ahead_case.
  - unfold rUnlockSlow_release in H. injection H as <- <-. ahead_case.
  - unfold Lock_mutex in H. destruct (mLock _); [|done]. injection H as <- <-. ahead_case.
  - unfold Lock_announce in H. injection H as <- <-. ahead_case.
  - unfold Lock_readers in H. injection H as <- <-. ahead_case.
  - unfold Lock_wait in H. rewrite semacquire_law in H. destruct (0 <? _); [|done]. injection H as <- <-. ahead_case.
  - unfold TryLock_mutex in H. destruct (mTryLock _) as [[] m]; injection H as <- <-; ahead_case.
  - unfold TryLock_cas in H. destruct (_ =? 0); injection H as <- <-; ahead_case.
  - unfold TryLock_undo in H. destruct (mUnlock _); injection H as <- <-; ahead_case.
  - unfold Unlock_readers in H. destruct (Z.ltb_spec i0 r); [injection H as <- <-; ahead_case|]. destruct (mUnlock _); injection H as <- <-; ahead_case.
Qed.
End Invariant.
