(* ===== verification/RWMutexSpec.v ===== *)
(** * Package sync: the properties of reader/writer locks

    A writer excludes everybody else; no call deadlocks or runs for ever; no
    reader overtakes a writer that has announced itself. *)
From Stdlib Require Import ZArith Lia.
From stdpp Require Import base numbers list relations.
From S2P Require Import Prelude RWMutex RWMutexCorrect.

Section Spec.
Context `{RL : RuntimeLaws}.
Abbreviation max := 1073741824.

Lemma tsum_at (f : pc -> Z) l i p : (forall q, 0 <= f q) -> l !! i = Some p -> f p <= tsum f l.
Proof.
  intros Hf Hp. destruct (thread_split l i p Hp) as (l1 & l2 & -> & _). rewrite tsum_middle. pose proof (tsum_nonneg f (l1 ++ l2) Hf). lia.
Qed.

Lemma tsum_two (f : pc -> Z) l i j p q : (forall q, 0 <= f q) -> f Idle = 0 -> i <> j -> l !! i = Some p -> l !! j = Some q -> f p + f q <= tsum f l.
Proof.
  intros Hf H0 Hij Hp Hq. destruct (thread_split l i p Hp) as (l1 & l2 & E & Hi). pose proof (Hi Idle) as E'.
  assert (Hq' : (l1 ++ Idle :: l2) !! j = Some q) by (by rewrite <- E', list_lookup_insert_ne). pose proof (tsum_at f _ _ _ Hf Hq') as B.
  rewrite E, tsum_middle. rewrite tsum_middle in B. lia.
Qed.

(** ** Some goroutine can go on *)

Lemma runs s i p rw' p' : threads s !! i = Some p -> run (rw s) p = Some (rw', p') -> exists s', progress s s'.
Proof. intros Hp Hr. eexists. exists i. unfold runAt. rewrite Hp. cbn [mbind option_bind]. rewrite Hr. reflexivity. Qed.

Lemma found s (f : pc -> Z) : 0 < tsum f (threads s) -> (forall p, 0 < f p -> run (rw s) p <> None) -> exists s', progress s s'.
Proof.
  intros H Hr. destruct (tsum_pos f (threads s) H) as (i & p & Hp & Hf). specialize (Hr p Hf).
  destruct (run (rw s) p) as [[rw' p']|] eqn:E; [|done]. by eapply runs.
Qed.

(** While a writer sleeps, a reader it waits for can go on. *)
Lemma sleeper_progress n s : consistent n s -> tsum isBlocked (threads s) = 1 -> exists s', progress s s'.
Proof.
  intros [Hl Hloc Hm Hc Hs Hph%phase_iff] Hb. destruct (counts_ok n _ Hloc). unfold active, quiet in Hph.
  destruct Hph as [H|[H|[H|[H|H]]]]; try lia.
  - destruct (decide (0 < tsum isReading (threads s))); [apply (found s isReading); [done|intros [] ?; cbn in *; done || lia]|].
    destruct (decide (0 < tsum isLeaving (threads s))); [apply (found s isLeaving); [done|intros [] Hp; cbn in *; try lia; unfold rUnlockSlow_wait; by destruct (_ || _)]|].
    apply (found s isWaiting); [lia|]. intros [] Hp; cbn in *; try lia. unfold RLock_wait. rewrite semacquire_law, (proj2 (Z.ltb_lt _ _)) by lia. done.
  - destruct (decide (0 < tsum isWaking (threads s))); [apply (found s isWaking); [done|intros [] ?; cbn in *; done || lia]|].
    apply (found s isBlocked); [lia|]. intros [] Hp; cbn in *; try lia. unfold Lock_wait. rewrite semacquire_law, (proj2 (Z.ltb_lt _ _)) by lia. done.
Qed.

Lemma holder_progress n s : consistent n s -> 0 < tsum holdsW (threads s) -> exists s', progress s s'.
Proof.
  intros C H. destruct (tsum_pos holdsW (threads s) H) as (i & p & Hp & Hf).
  destruct (run (rw s) p) as [[rw' p']|] eqn:E; [by eapply runs|].
  assert (p = Lock3) as ->.
  { destruct p; cbn in *; try lia; try done.
    - unfold TryLock_cas in E. by destruct (_ =? _).
    - unfold TryLock_undo in E. by destruct (mUnlock _).
    - unfold Unlock_readers in E. destruct (_ <? _); [done|]. by destruct (mUnlock _). }
  apply (sleeper_progress n s C). destruct C as [_ Hloc _ _ _ Hph%phase_iff]. destruct (counts_ok n _ Hloc).
  pose proof (tsum_at isBlocked (threads s) i Lock3 ltac:(intros []; cbn; lia) Hp) as B. cbn in B. lia.
Qed.

Lemma no_deadlock n s : consistent n s -> ~ Forall (eq Idle) (threads s) -> exists s', progress s s'.
Proof.
  intros C Hna. apply not_Forall_Exists in Hna; [|intros p; apply (decide_rel (=))].
  apply Exists_exists in Hna as (p & Hin & Hne). apply list_elem_of_lookup in Hin as [i Hp].
  destruct (run (rw s) p) as [[rw' p']|] eqn:E; [by eapply runs|]. pose proof C as [Hl Hloc Hm Hc Hs Hph%phase_iff]. destruct (counts_ok n _ Hloc).
  pose proof (Forall_lookup_1 _ _ _ _ Hloc Hp) as Hlp. unfold active, quiet in Hph.
  assert (W : forall f : pc -> Z, (forall p, 0 <= f p <= holdsW p) -> tsum f (threads s) = 1 -> exists s', progress s s').
  { intros f Hf H1. apply (holder_progress n s C). assert (tsum f (threads s) <= tsum holdsW (threads s)) by (apply tsum_le; intros q; apply Hf). lia. }
  destruct p; cbn in E, Hne, Hlp; try done.
  - (* a reader that waits *)
    unfold RLock_wait in E. rewrite semacquire_law in E. destruct (Z.ltb_spec 0 (readerSem (rw s))); [done|].
    pose proof (tsum_at isWaiting (threads s) i RLock1 ltac:(intros []; cbn; lia) Hp) as B. cbn in B.
    destruct Hph as [H'|[H'|[H'|[H'|H']]]].
    + destruct (tsum_pos toRelease (threads s)) as (j & q & Hq & Hf); [lia|]. apply (holder_progress n s C).
      pose proof (tsum_at holdsW (threads s) j q ltac:(intros []; cbn; lia) Hq) as B2. destruct q; cbn in *; lia.
    + apply (W isCounting); [intros []; cbn; lia|lia].
    + apply (W isBlocked); [intros []; cbn; lia|lia].
    + apply (W isBlocked); [intros []; cbn; lia|lia].
    + apply (W isWriting); [intros []; cbn; lia|lia].
  - unfold TryRLock_cas in E. by destruct (_ =? _).
  - unfold rUnlockSlow_wait in E. by destruct (_ || _).
  - (* a writer that waits for another one *)
    unfold Lock_mutex in E. pose proof (mLock_law (w (rw s))) as ML. destruct (mLock (w (rw s))); [done|]. rewrite ML in Hm. apply (holder_progress n s C). lia.
  - (* a writer that sleeps *)
    apply (holder_progress n s C). pose proof (tsum_at holdsW (threads s) i Lock3 ltac:(intros []; cbn; lia) Hp) as B. cbn in B. lia.
  - unfold TryLock_mutex in E. by destruct (mTryLock _).
  - unfold TryLock_cas in E. by destruct (_ =? _).
  - unfold TryLock_undo in E. by destruct (mUnlock _).
  - unfold Unlock_readers in E. destruct (_ <? _); [done|]. by destruct (mUnlock _).
Qed.

(** ** The operations left

    The number of atomic operations a goroutine still does before it is outside
    again, if the compare-and-swap of TryRLock succeeds the first time; a failed
    one means that another goroutine has gone on since the load. *)
Definition remaining (n : Z) (p : pc) : Z :=
  match p with
  | Idle | Fatal => 0
  | RUnlock2 | TryLock2 => 1
  | RUnlock1 _ => 2
  | Reading => 3
  | RLock1 | TryRLock0 | TryRLock1 _ => 4
  | RLock0 => 5
  | Unlock1 r i => 1 + (r - i)
  | Writing => 2 + n
  | Lock3 | TryLock1 => 3 + n
  | Lock2 _ | TryLock0 => 4 + n
  | Lock1 => 5 + n
  | Lock0 => 6 + n
  end.
Definition retries (count : Z) (p : pc) : Z :=
  match p with TryRLock0 => 1 | TryRLock1 c => if c =? count then 0 else 2 | _ => 0 end.
Definition measure (n : Z) (s : system) : Z :=
  (2 * n + 1) * tsum (remaining n) (threads s) + tsum (retries (readerCount (rw s))) (threads s).

Lemma run_remaining n s i p rw' p' : n < max -> consistent n s -> threads s !! i = Some p -> run (rw s) p = Some (rw', p') ->
  remaining n p' < remaining n p \/ (rw' = rw s /\ remaining n p' = remaining n p /\ retries (readerCount (rw s)) p' < retries (readerCount (rw s)) p).
Proof.
  intros Hn [Hl Hloc Hm Hc Hs Hph%phase_iff] Hp H. pose proof (Forall_lookup_1 _ _ _ _ Hloc Hp) as Hlp. destruct (counts_ok n _ Hloc).
  pose proof (len_nonneg (threads s)). destruct p; cbn [run] in H; try done.
  - unfold RUnlock_add in H. injection H as <- <-. left. by destruct (_ <? 0).
  - pose proof (tsum_at isWriting (threads s) i Writing ltac:(intros []; cbn; lia) Hp) as B. cbn in B. unfold Unlock_announce in H. rewrite maxReaders_eq in H.
    unfold pendingWriters, active in *. rewrite i32_id in H by lia. injection H as <- <-. left. rewrite Z.geb_leb, (proj2 (Z.leb_gt _ _)) by lia. cbn [remaining]. lia.
  - unfold RLock_add in H. injection H as <- <-. left. by destruct (_ <? 0).
  - unfold RLock_wait in H. destruct (semacquire _); [|done]. injection H as <- <-. by left.
  - unfold TryRLock_load in H. injection H as <- <-. destruct (_ <? 0); [by left|]. right. cbn [remaining retries]. by rewrite Z.eqb_refl.
  - unfold TryRLock_cas in H. rewrite Z.eqb_sym in H. destruct (c =? readerCount (rw s)) eqn:E; injection H as <- <-; [by left|]. right. cbn [remaining retries]. by rewrite E.
  - unfold rUnlockSlow_wait in H. destruct (_ || _); injection H as <- <-; left; [done|]. by destruct (_ =? 0).
  - unfold rUnlockSlow_release in H. injection H as <- <-. by left.
  - unfold Lock_mutex in H. destruct (mLock _); [|done]. injection H as <- <-. left. cbn [remaining]. lia.
  - unfold Lock_announce in H. injection H as <- <-. left. destruct (negb _); cbn [remaining]; lia.
  - unfold Lock_readers in H. injection H as <- <-. left. destruct (negb _); cbn [remaining]; lia.
  - unfold Lock_wait in H. destruct (semacquire _); [|done]. injection H as <- <-. left. cbn [remaining]. lia.
  - unfold TryLock_mutex in H. destruct (mTryLock _) as [[] m]; injection H as <- <-; left; cbn [remaining]; lia.
  - unfold TryLock_cas in H. destruct (_ =? 0); injection H as <- <-; left; cbn [remaining]; lia.
  - unfold TryLock_undo in H. destruct (mUnlock _); injection H as <- <-; by left.
  - unfold Unlock_readers in H. cbn [local_ok] in Hlp. destruct (Z.ltb_spec i0 r); [injection H as <- <-; left; cbn [remaining]; lia|].
    destruct (mUnlock _); injection H as <- <-; left; cbn [remaining]; lia.
Qed.

Lemma retries_bound c l : 0 <= tsum (retries c) l <= 2 * len l.
Proof.
  split; [apply tsum_nonneg; intros []; cbn; try lia; by destruct (_ =? _)|]. rewrite <- tsum_const. apply tsum_le. intros []; cbn; try lia. by destruct (_ =? _).
Qed.

Lemma remaining_bound n l : 0 <= n -> Forall (local_ok n) l -> 0 <= tsum (remaining n) l <= (n + 6) * len l.
Proof.
  intros Hn Hl. rewrite <- tsum_const. replace 0 with (tsum (fun _ => 0) l) by (rewrite tsum_const; lia). split; apply (tsum_le_ok n); try done; intros [] Hp; cbn in *; lia.
Qed.

Lemma measure_decreases n s s' : n < max -> consistent n s -> progress s s' -> measure n s' < measure n s.
Proof.
  intros Hn C [i H]. unfold runAt in H. destruct (threads s !! i) as [p|] eqn:Hp; [|done]. cbn [mbind option_bind] in H.
  destruct (run (rw s) p) as [[rw' p']|] eqn:Hr; [|done]. injection H as <-. pose proof (run_remaining n s i p rw' p' Hn C Hp Hr) as D.
  destruct (others n s i p C Hp) as (l1 & l2 & El & Eq & Hloc & _ & L1 & L2). unfold measure. cbn [rw threads]. rewrite Eq, El, !tsum_middle.
  pose proof (len_nonneg (l1 ++ l2)) as Hn0. destruct D as [D|(-> & D1 & D2)].
  - pose proof (retries_bound (readerCount rw') (l1 ++ p' :: l2)) as B. rewrite tsum_middle, (len_middle _ p), L2 in B.
    pose proof (retries_bound (readerCount (rw s)) (l1 ++ p :: l2)) as B'. rewrite tsum_middle in B'. nia.
  - rewrite D1. lia.
Qed.

(** An operation takes or leaves the lock, not both. *)
Lemma run_once x p rw' p' : run x p = Some (rw', p') -> isReading p + isWriting p + (isReading p' + isWriting p') <= 1.
Proof.
  destruct p; cbn [run isReading isWriting]; intros H; try done; [| |destruct p'; cbn; lia..].
  - unfold RUnlock_add in H. injection H as _ <-. by destruct (_ <? 0).
  - unfold Unlock_announce in H. injection H as _ <-. by destruct (_ >=? _).
Qed.

(** ** Properties *)

(** C10: mutual exclusion: with any number of goroutines (below the 2^30 readers
    the code allows) calling RLock, TryRLock, RUnlock, Lock, TryLock and Unlock,
    interleaved at every atomic operation, while one goroutine holds the write
    lock no other one holds it for writing or reading; no goroutine ever reaches
    one of the fatal errors; and readerCount is the number of readers inside or
    waiting, less 2^30 while a writer is pending. *)
Theorem RWMutex_exclusion n s : Z.of_nat n < rwmutexMaxReaders -> reachable n s ->
  (forall i j p, threads s !! i = Some Writing -> threads s !! j = Some p -> i <> j -> p <> Reading /\ p <> Writing) /\
  (forall i, threads s !! i <> Some Fatal) /\
  readerCount (rw s) = tsum isReading (threads s) + tsum isWaiting (threads s) - rwmutexMaxReaders * pendingWriters (threads s) /\
  0 <= pendingWriters (threads s) <= 1.
Proof.
  intros Hn Hr. destruct (reachable_consistent n s Hn Hr) as [Hl Hloc Hm Hc Hs Hph%phase_iff]. destruct (counts_ok _ _ Hloc). unfold active, quiet, pendingWriters in *.
  split; [|split; [|split; [done|lia]]].
  - intros i j p Hi Hj Hij. pose proof (tsum_at isWriting (threads s) i Writing ltac:(intros []; cbn; lia) Hi) as B1. cbn in B1. split; intros ->.
    + pose proof (tsum_at isReading (threads s) j Reading ltac:(intros []; cbn; lia) Hj) as B2. cbn in B2. lia.
    + pose proof (tsum_two isWriting (threads s) i j Writing Writing ltac:(intros []; cbn; lia) eq_refl Hij Hi Hj) as B2. cbn in B2. lia.
  - intros i Hi. by pose proof (Forall_lookup_1 _ _ _ _ Hloc Hi).
Qed.

(** C11: liveness: from every reachable state, whichever goroutine is scheduled at each
    operation, and if goroutines that hold the lock release it and start no new
    calls, at most (2n+1)*n*(n+6)+2n operations are left, and as long as a goroutine is
    not outside some goroutine can go on: no deadlock, no lost wake-up, and every
    pending Lock and RLock returns. *)
Theorem RWMutex_liveness n s k s' : Z.of_nat n < rwmutexMaxReaders -> reachable n s -> nsteps progress k s s' ->
  Z.of_nat k <= (2 * Z.of_nat n + 1) * (Z.of_nat n * (Z.of_nat n + 6)) + 2 * Z.of_nat n /\
  (Forall (eq Idle) (threads s') \/ exists s'', progress s' s'').
Proof.
  intros Hn Hr Hk. pose proof (reachable_consistent n s Hn Hr) as C. clear Hr.
  assert (B : Z.of_nat k + measure (Z.of_nat n) s' <= measure (Z.of_nat n) s /\ consistent (Z.of_nat n) s').
  { induction Hk as [s|k s s1 s' [i H1] Hk IH]; [split; [lia|done]|]. assert (C1 : consistent (Z.of_nat n) s1) by (by eapply run_consistent).
    destruct (IH C1) as [B C']. pose proof (measure_decreases _ s s1 Hn C (ex_intro _ i H1)). split; [lia|done]. }
  destruct B as [B C']. split.
  - destruct C as [Hl Hloc _ _ _ _], C' as [Hl' Hloc' _ _ _ _]. pose proof (remaining_bound (Z.of_nat n) _ (Nat2Z.is_nonneg n) Hloc). pose proof (remaining_bound (Z.of_nat n) _ (Nat2Z.is_nonneg n) Hloc').
    pose proof (retries_bound (readerCount (rw s)) (threads s)). pose proof (retries_bound (readerCount (rw s')) (threads s')). unfold measure in B. rewrite Hl, Hl' in *. nia.
  - destruct (decide (Forall (fun p => Idle = p) (threads s'))) as [|Hna]; [by left|right]. by eapply no_deadlock.
Qed.

(** C26: writers are not overtaken: from the moment a writer has announced itself until
    it gets the lock, no step of any goroutine (a new RLock, TryRLock or Lock
    included) adds a reader to those it waits for. *)
Theorem RWMutex_no_overtaking n s s' : Z.of_nat n < rwmutexMaxReaders -> reachable n s -> step s s' ->
  announced s -> ahead s' <= ahead s.
Proof.
  intros Hn Hr Hstep Hpend. pose proof (reachable_consistent n s Hn Hr) as C. clear Hr. rewrite maxReaders_eq in Hn.
  destruct Hstep as [[i H]|i c H].
  - unfold runAt in H. destruct (threads s !! i) as [p|] eqn:Hp; [|done]. cbn [mbind option_bind] in H.
    destruct (run (rw s) p) as [[rw' p']|] eqn:Hrun; [|done]. injection H as <-.
    by apply (run_ahead (Z.of_nat n) s i p rw' p').
  - by apply (call_ahead (Z.of_nat n) s i c s').
Qed.

(** ** Refinement of an abstract lock *)

(** A lock with a number of readers or a writer. *)
Inductive lockState := mkLock (readers : Z) (writer : bool).
Inductive lockStep : lockState -> lockState -> Prop :=
  | AcquireRead r : lockStep (mkLock r false) (mkLock (r + 1) false)
  | ReleaseRead r : 0 < r -> lockStep (mkLock r false) (mkLock (r - 1) false)
  | AcquireWrite : lockStep (mkLock 0 false) (mkLock 0 true)
  | ReleaseWrite : lockStep (mkLock 0 true) (mkLock 0 false).

Definition abstract (s : system) : lockState := mkLock (tsum isReading (threads s)) (0 <? tsum isWriting (threads s)).

(** C24: RWMutex implements the abstract reader/writer lock: every step of every
    interleaving is a step of it (a reader enters only while nobody writes, a
    writer only while nobody reads or writes) or leaves it as it is. *)
Theorem RWMutex_refines n s s' : Z.of_nat n < rwmutexMaxReaders -> reachable n s -> step s s' ->
  abstract s' = abstract s \/ lockStep (abstract s) (abstract s').
Proof.
  intros Hn Hr Hstep. pose proof (reachable_consistent n s Hn Hr) as C.
  assert (C' : consistent (Z.of_nat n) s') by (apply reachable_consistent; [done|]; by eapply rtc_r).
  assert (M : exists i p p', threads s !! i = Some p /\ threads s' = <[i := p']> (threads s) /\ isReading p + isWriting p + (isReading p' + isWriting p') <= 1).
  { destruct Hstep as [[i H]|i c H].
    - unfold runAt in H. destruct (threads s !! i) as [p|] eqn:Hp; [|done]. cbn [mbind option_bind] in H.
      destruct (run (rw s) p) as [[rw' p']|] eqn:Hrun; [|done]. injection H as <-. exists i, p, p'. split; [done|]. split; [done|]. by eapply run_once.
    - unfold callAt in H. destruct (threads s !! i) as [[]|] eqn:Hp; try done. injection H as <-. exists i, Idle, (entry c). split; [done|]. split; [done|]. by destruct c. }
  destruct M as (i & p & p' & Hp & E & Honce). destruct (others _ s i p C Hp) as (l1 & l2 & El & Eq & _). unfold abstract. rewrite E, Eq, El, !tsum_middle.
  destruct C as [_ Hloc _ _ Hs Hph%phase_iff], C' as [_ Hloc' _ _ Hs' Hph'%phase_iff]. destruct (counts_ok _ _ Hloc), (counts_ok _ _ Hloc').
  unfold active, quiet in *. rewrite E, Eq, !tsum_middle in *. rewrite El, !tsum_middle in *.
  set (R := tsum isReading (l1 ++ l2)) in *. set (W := tsum isWriting (l1 ++ l2)) in *.
  assert (HR : 0 <= R) by (apply tsum_nonneg; intros []; cbn; lia). assert (HW : 0 <= W) by (apply tsum_nonneg; intros []; cbn; lia).
  assert (0 <= isReading p) by (destruct p; cbn; lia). assert (0 <= isReading p') by (destruct p'; cbn; lia).
  assert (0 <= isWriting p) by (destruct p; cbn; lia). assert (0 <= isWriting p') by (destruct p'; cbn; lia).
  assert (X : isWriting p + W <= 1 /\ (isWriting p + W = 1 -> isReading p + R = 0)) by (clear Hph'; lia).
  assert (X' : isWriting p' + W <= 1 /\ (isWriting p' + W = 1 -> isReading p' + R = 0)) by (clear Hph; lia).
  clear Hph Hph'. assert (Cases : (isReading p = 0 /\ isReading p' = 0 /\ isWriting p = 0 /\ isWriting p' = 0) \/ isReading p = 1 \/ isReading p' = 1 \/ isWriting p = 1 \/ isWriting p' = 1) by lia.
  destruct Cases as [(-> & -> & -> & ->)|[Hd|[Hd|[Hd|Hd]]]]; [by left|right..].
  - replace (isReading p') with 0 by lia. replace (isWriting p') with 0 by lia. replace (isWriting p) with 0 by lia. rewrite Hd. replace W with 0 by lia. cbn [Z.ltb Z.compare Z.add].
    replace R with (1 + R - 1) at 2 by lia. apply ReleaseRead. lia.
  - replace (isReading p) with 0 by lia. replace (isWriting p') with 0 by lia. replace (isWriting p) with 0 by lia. rewrite Hd. replace W with 0 by lia. cbn [Z.ltb Z.compare Z.add].
    rewrite (Z.add_comm 1 R). apply AcquireRead.
  - replace (isReading p') with 0 by lia. replace (isWriting p') with 0 by lia. replace (isReading p) with 0 by lia. rewrite Hd. replace W with 0 by lia. replace R with 0 by lia. apply ReleaseWrite.
  - replace (isReading p') with 0 by lia. replace (isWriting p) with 0 by lia. replace (isReading p) with 0 by lia. rewrite Hd. replace W with 0 by lia. replace R with 0 by lia. apply AcquireWrite.
Qed.
End Spec.

(** ** Witnesses *)

(** A mutex that is a flag, and semaphores that count. *)
Definition plainRuntime : Runtime := {|
  mutex := bool; mZero := false;
  mLock m := if m then None else Some true;
  mTryLock m := if m then (false, m) else (true, true);
  mUnlock m := if m then Some false else None;
  semacquire s := if 0 <? s then Some (s - 1) else None;
  semrelease s := s + 1;
|}.
#[export] Instance plainLaws : RuntimeLaws plainRuntime.
Proof.
  refine {| locked := fun m : @mutex plainRuntime => m : bool |}; try done.
  - by intros [].
  - by intros [].
  - by intros [].
Defined.

(** A reader enters; a writer announces itself and sleeps; another reader waits. *)
Definition sleepingWriter : list (nat * option method) :=
  [(0, Some CallRLock); (0, None); (1, Some CallLock); (1, None); (1, None); (1, None); (2, Some CallRLock); (2, None)]%nat.
(** The reader leaves and wakes the writer, which gets the lock. *)
Definition wokenWriter : list (nat * option method) := sleepingWriter ++ [(0, None); (0, None); (0, None); (1, None)]%nat.

Definition afterSchedule (l : list (nat * option method)) : system (RT := plainRuntime) :=
  default (start (RT := plainRuntime) 3) (schedule (RT := plainRuntime) (start (RT := plainRuntime) 3) l).

Definition completes (l : list (nat * option method)) : bool :=
  match schedule (RT := plainRuntime) (start (RT := plainRuntime) 3) l with Some _ => true | None => false end.

Lemma reach_schedule l : completes l = true -> reachable (RT := plainRuntime) 3 (afterSchedule l).
Proof.
  unfold completes, afterSchedule. destruct (schedule _ l) as [s|] eqn:E; [|done]. intros _. cbn [default]. by apply (schedule_steps _ l).
Qed.

(** Then the reader leaves. *)
Definition readerLeft : system (RT := plainRuntime) := afterSchedule (sleepingWriter ++ [(0%nat, None)]).

Lemma RWMutex_exclusion_witness :
  threads (afterSchedule wokenWriter) = [Idle; Writing; RLock1] /\
  (forall j p, threads (afterSchedule wokenWriter) !! j = Some p -> 1%nat <> j -> p <> Reading /\ p <> Writing).
Proof.
  split; [vm_compute; reflexivity|]. assert (Hr : reachable 3 (afterSchedule wokenWriter)) by (apply reach_schedule; vm_compute; reflexivity).
  destruct (RWMutex_exclusion 3 (afterSchedule wokenWriter) ltac:(done) Hr) as [H _]. intros j p Hj Hne. apply (H 1%nat j p); [vm_compute; reflexivity|done|done].
Defined.

Lemma RWMutex_liveness_witness :
  exists s', nsteps progress 1 (afterSchedule sleepingWriter) s' /\ threads s' = [RUnlock1 (-1073741823); Lock3; RLock1] /\ exists s'', progress s' s''.
Proof.
  assert (Hr : reachable 3 (afterSchedule sleepingWriter)) by (apply reach_schedule; vm_compute; reflexivity).
  assert (E : runAt (afterSchedule sleepingWriter) 0 = Some readerLeft) by (vm_compute; reflexivity). exists readerLeft.
  assert (Hs : nsteps progress 1 (afterSchedule sleepingWriter) readerLeft) by (apply nsteps_once; by exists 0%nat).
  assert (Ht : threads readerLeft = [RUnlock1 (-1073741823); Lock3; RLock1]) by (vm_compute; reflexivity).
  split; [done|]. split; [done|]. destruct (RWMutex_liveness 3 (afterSchedule sleepingWriter) 1 readerLeft ltac:(done) Hr Hs) as [_ [Hi|Hp]]; [|done].
  rewrite Ht in Hi. apply Forall_cons_1 in Hi as [Hi _]. done.
Defined.

Lemma RWMutex_no_overtaking_witness :
  exists s', callAt (afterSchedule sleepingWriter) 0 CallRLock = None /\ runAt (afterSchedule sleepingWriter) 0 = Some s' /\ ahead s' <= ahead (afterSchedule sleepingWriter).
Proof.
  assert (Hr : reachable 3 (afterSchedule sleepingWriter)) by (apply reach_schedule; vm_compute; reflexivity).
  assert (E : runAt (afterSchedule sleepingWriter) 0 = Some readerLeft) by (vm_compute; reflexivity). exists readerLeft. split; [vm_compute; reflexivity|]. split; [done|].
  apply (RWMutex_no_overtaking 3 (afterSchedule sleepingWriter) readerLeft ltac:(done) Hr); [apply step_run; by exists 0%nat|vm_compute; reflexivity].
Defined.

Lemma RWMutex_refines_witness :
  exists s', runAt (afterSchedule sleepingWriter) 0 = Some s' /\ abstract (afterSchedule sleepingWriter) = mkLock 1 false /\ lockStep (mkLock 1 false) (abstract s').
Proof.
  assert (Hr : reachable 3 (afterSchedule sleepingWriter)) by (apply reach_schedule; vm_compute; reflexivity).
  assert (E : runAt (afterSchedule sleepingWriter) 0 = Some readerLeft) by (vm_compute; reflexivity). exists readerLeft. split; [done|]. split; [vm_compute; reflexivity|].
  destruct (RWMutex_refines 3 (afterSchedule sleepingWriter) readerLeft ltac:(done) Hr (step_run _ _ (ex_intro _ 0%nat E))) as [H|H]; [|exact H].
  vm_compute in H. done.
Defined.

(** syscall_hasWaitingReaders also reports a reader that has the lock, and is not
    waiting for it, when a writer waits. *)
Example hasWaitingReaders_active :
  let s := afterSchedule (firstn 6 sleepingWriter) in
  threads s = [Reading; Lock3; Idle] /\ syscall_hasWaitingReaders (rw s) = true.
Proof. vm_compute. split; reflexivity. Qed.
