(* ===== verification/Path.v ===== *)
(** * Package path: slash-separated paths (src/path/path.go)

    Clean with its lazily allocated buffer, Join, Split, Base, Dir, Ext, IsAbs.
    The specification is lexical: the elements of the path between slashes are
    folded over a stack of names.  bytealg.LastIndexByteString, which is not part
    of the sources, is the class [Bytealg] with its laws. *)
From Stdlib Require Import ZArith Lia String Ascii.
From stdpp Require Import base numbers list.
From S2P Require Import Prelude.

Abbreviation SL := (ch "/").
Abbreviation DOT := (ch ".").

(** ** lazybuf *)

Record lazybuf := mkLazy { ls : list Z; lbuf : option (list Z); lw : Z }.

Definition lindex (b : lazybuf) (i : Z) : res Z :=
  match lbuf b with
  | Some buf => idx buf i
  | None => idx (ls b) i
  end.

Definition lappend (b : lazybuf) (c : Z) : res lazybuf :=
  let write (buf : list Z) :=
    let! buf := upd buf (lw b) c in
    Ok (mkLazy (ls b) (Some buf) (lw b + 1)) in
  match lbuf b with
  | Some buf => write buf
  | None =>
      let! same := if lw b <? len (ls b) then (let! d := idx (ls b) (lw b) in Ok (d =? c)) else Ok false in
      if (same : bool) then Ok (mkLazy (ls b) None (lw b + 1)) else
      let! head := slice (ls b) 0 (lw b) in
      write (head ++ drop (length head) (replicate (length (ls b)) 0))
  end.

Definition lstring (b : lazybuf) : res (list Z) :=
  match lbuf b with
  | None => slice (ls b) 0 (lw b)
  | Some buf => slice buf 0 (lw b)
  end.

Definition setw (b : lazybuf) (n : Z) : lazybuf := mkLazy (ls b) (lbuf b) n.

(** ** Clean *)

(** [for out.w > dotdot && out.index(out.w) != '/' { out.w-- }] *)
Definition backtrack (out : lazybuf) (dotdot : Z) : res lazybuf :=
  loop (S (Z.to_nat (lw out)))
    (fun out =>
       if lw out >? dotdot then
         let! c := lindex out (lw out) in
         if negb (c =? SL) then Ok (inl (setw out (lw out - 1))) else Ok (inr out)
       else Ok (inr out)) out.

(** [for ; r < n && path[r] != '/'; r++ { out.append(path[r]) }] *)
Definition copyElement (path : list Z) (r : Z) (out : lazybuf) : res (Z * lazybuf) :=
  loop (S (length path))
    (fun '(r, out) =>
       if r <? len path then
         let! c := idx path r in
         if negb (c =? SL) then
           let! out := lappend out c in
           Ok (inl (r + 1, out))
         else Ok (inr (r, out))
       else Ok (inr (r, out))) (r, out).

(** [i == n || path[i] == '/'] *)
Definition elementEnd (path : list Z) (i : Z) : res bool :=
  if i =? len path then Ok true else (let! c := idx path i in Ok (c =? SL)).

Definition cleanStep (path : list Z) (rooted : bool) (st : lazybuf * Z * Z) : res (lazybuf * Z * Z + lazybuf) :=
  let '(out, r, dotdot) := st in
  if r <? len path then
    let! c := idx path r in
    if c =? SL then Ok (inl (out, r + 1, dotdot)) else
    let! dot := if c =? DOT then elementEnd path (r + 1) else Ok false in
    if (dot : bool) then Ok (inl (out, r + 1, dotdot)) else
    let! dots :=
      if c =? DOT then
        let! d := idx path (r + 1) in
        if d =? DOT then elementEnd path (r + 2) else Ok false
      else Ok false in
    if (dots : bool) then
      let r := r + 2 in
      if lw out >? dotdot then
        let! out := backtrack (setw out (lw out - 1)) dotdot in
        Ok (inl (out, r, dotdot))
      else if negb rooted then
        let! out := if lw out >? 0 then lappend out SL else Ok out in
        let! out := lappend out DOT in
        let! out := lappend out DOT in
        Ok (inl (out, r, lw out))
      else Ok (inl (out, r, dotdot))
    else
      let! out := if (rooted && negb (lw out =? 1)) || (negb rooted && negb (lw out =? 0)) then lappend out SL else Ok out in
      let! '(r, out) := copyElement path r out in
      Ok (inl (out, r, dotdot))
  else Ok (inr out).

Definition Clean (path : list Z) : res (list Z) :=
  match path with
  | [] => Ok [DOT]
  | c :: _ =>
      let rooted := c =? SL in
      let out := mkLazy path None 0 in
      let! st :=
        if rooted then
          let! out := lappend out SL in
          Ok (out, 1, 1)
        else Ok (out, 0, 0) in
      let! out := loop (S (length path)) (cleanStep path rooted) st in
      if lw out =? 0 then Ok [DOT] else lstring out
  end.

(** ** The other functions *)

Class Bytealg := LastIndexByteString : list Z -> Z -> Z.
Class BytealgLaws (B : Bytealg) := {
  LastIndex_found l c : 0 <= LastIndexByteString l c ->
    exists a b, l = a ++ c :: b /\ LastIndexByteString l c = len a /\ c ∉ b;
  LastIndex_absent l c : LastIndexByteString l c < 0 -> LastIndexByteString l c = -1 /\ c ∉ l;
}.

Section Functions.
Context `{B : Bytealg}.

Definition Split (path : list Z) : res (list Z * list Z) :=
  let i := LastIndexByteString path SL in
  let! dir := slice path 0 (i + 1) in
  let! file := slice path (i + 1) (len path) in
  Ok (dir, file).

Definition joinStep (buf e : list Z) : list Z :=
  if (len buf >? 0) || negb (len e =? 0) then (if len buf >? 0 then buf ++ [SL] else buf) ++ e else buf.

Definition Join (elem : list (list Z)) : res (list Z) :=
  let size := foldl (fun n e => n + len e) 0 elem in
  if size =? 0 then Ok [] else Clean (foldl joinStep [] elem).

Definition Ext (path : list Z) : res (list Z) :=
  loop (S (length path))
    (fun i =>
       if i >=? 0 then
         let! c := idx path i in
         if negb (c =? SL) then
           if c =? DOT then (let! e := slice path i (len path) in Ok (inr e)) else Ok (inl (i - 1))
         else Ok (inr [])
       else Ok (inr [])) (len path - 1).

(** [for len(path) > 0 && path[len(path)-1] == '/' { path = path[0 : len(path)-1] }] *)
Definition stripSlashes (path : list Z) : res (list Z) :=
  loop (S (length path))
    (fun path =>
       if len path >? 0 then
         let! c := idx path (len path - 1) in
         if c =? SL then (let! path := slice path 0 (len path - 1) in Ok (inl path)) else Ok (inr path)
       else Ok (inr path)) path.

Definition Base (path : list Z) : res (list Z) :=
  if len path =? 0 then Ok [DOT] else
  let! path := stripSlashes path in
  let i := LastIndexByteString path SL in
  let! path := if i >=? 0 then slice path (i + 1) (len path) else Ok path in
  if len path =? 0 then Ok [SL] else Ok path.

Definition IsAbs (path : list Z) : res bool :=
  if len path >? 0 then (let! c := idx path 0 in Ok (c =? SL)) else Ok false.

Definition Dir (path : list Z) : res (list Z) :=
  let! '(dir, _) := Split path in
  Clean dir.
End Functions.

(** ** Specification *)

(** The elements between slashes. *)
Fixpoint elements (p : list Z) : list (list Z) :=
  match p with
  | [] => [[]]
  | c :: p =>
      if c =? SL then [] :: elements p
      else match elements p with
           | e :: es => (c :: e) :: es
           | [] => [[c]]
           end
  end.

(** A stack of names, the last one on top, with the ".." of the front apart. *)
Definition dotdot : list Z := [DOT; DOT].
Definition cleanElem (rooted : bool) (st : nat * list (list Z)) (e : list Z) : nat * list (list Z) :=
  let '(ups, names) := st in
  if decide (e = [] \/ e = [DOT]) then st
  else if decide (e = dotdot) then
    match names with
    | [] => if rooted then st else (S ups, [])
    | _ => (ups, removelast names)
    end
  else (ups, names ++ [e]).

Fixpoint joinSlash (l : list (list Z)) : list Z :=
  match l with
  | [] => []
  | [e] => e
  | e :: l => e ++ SL :: joinSlash l
  end.

Definition render (rooted : bool) (st : nat * list (list Z)) : list Z :=
  (if rooted then [SL] else []) ++ joinSlash (replicate st.1 dotdot ++ st.2).

Definition cleanSpec (path : list Z) : list Z :=
  let rooted := match path with c :: _ => c =? SL | [] => false end in
  match render rooted (foldl (cleanElem rooted) (0%nat, []) (elements path)) with
  | [] => [DOT]
  | p => p
  end.

Example Clean_examples :
  map (fun s => Clean (str s)) ["a/b/../c"; "//a//./b/"; "../../a/.."; "/../x"; ""; "a/../.."]%string =
  map (fun s => Ok (str s)) ["a/c"; "/a/b"; "../.."; "/x"; "."; ".."]%string.
Proof. vm_compute. reflexivity. Qed.
Example cleanSpec_examples :
  map (fun s => Clean (str s)) ["a/b/../c"; "//a//./b/"; "../../a/.."; "/../x"; ""; "a/../.."]%string =
  map (fun s => Ok (cleanSpec (str s))) ["a/b/../c"; "//a//./b/"; "../../a/.."; "/../x"; ""; "a/../.."]%string.
Proof. vm_compute. reflexivity. Qed.
