(* ===== verification/PathCorrect.v ===== *)
(** * Package path: Clean computes the lexical specification *)
From Stdlib Require Import ZArith Lia String Ascii.
From stdpp Require Import base numbers list.
From S2P Require Import Prelude Path.

(** ** The buffer *)

Definition under (b : lazybuf) : list Z := default (ls b) (lbuf b).
Definition content (b : lazybuf) : list Z := take (Z.to_nat (lw b)) (under b).
Definition lazy_ok (p : list Z) (b : lazybuf) : Prop := ls b = p /\ len (under b) = len p /\ 0 <= lw b <= len p.

Lemma len_content p b : lazy_ok p b -> len (content b) = lw b.
Proof. intros (_ & Hu & Hw). unfold content, len in *. rewrite length_take. lia. Qed.

Lemma lindex_under b i x : 0 <= i -> under b !! Z.to_nat i = Some x -> lindex b i = Ok x.
Proof. intros Hi H. unfold lindex, under in *. destruct (lbuf b); cbn in H; by apply idx_Ok. Qed.

Lemma write_content (l : list Z) i c : (i < length l)%nat -> take (S i) (<[i := c]> l) = take i l ++ [c].
Proof.
  intros Hi. rewrite (take_S_r _ _ c) by (by apply list_lookup_insert_eq). by rewrite take_insert_ge.
Qed.

Lemma lappend_spec p b c : lazy_ok p b -> lw b < len p -> lappend b c ⇓ (fun b' => lazy_ok p b' /\ content b' = content b ++ [c]).
Proof.
  intros (Hs & Hu & Hw) Hlt. unfold lappend, lazy_ok, content, under in *. replace (Z.to_nat (lw b + 1)) with (S (Z.to_nat (lw b))) by lia.
  assert (W : forall buf, len buf = len p -> take (Z.to_nat (lw b)) buf = take (Z.to_nat (lw b)) (default (ls b) (lbuf b)) ->
    (let! buf := upd buf (lw b) c in Ok (mkLazy (ls b) (Some buf) (lw b + 1))) ⇓ (fun b' =>
      (ls b' = p /\ len (default (ls b') (lbuf b')) = len p /\ 0 <= lw b' <= len p) /\
      take (Z.to_nat (lw b')) (default (ls b') (lbuf b')) = take (Z.to_nat (lw b)) (default (ls b) (lbuf b)) ++ [c])).
  { intros buf Hl E. rewrite upd_Ok by lia. cbn [rbind returns ls lbuf lw default from_option id]. split; [split; [done|]; split; [by rewrite len_insert|lia]|].
    replace (Z.to_nat (lw b + 1)) with (S (Z.to_nat (lw b))) by lia. rewrite write_content, E by (unfold len in *; lia). done. }
  destruct (lbuf b) as [buf|] eqn:Eb; cbn [default from_option id] in *; [by apply W|].
  rewrite (proj2 (Z.ltb_lt (lw b) (len (ls b)))) by lia. destruct (lookup_lt_is_Some_2 (ls b) (Z.to_nat (lw b))) as [d Hd]; [unfold len in *; lia|].
  rewrite (idx_Ok _ _ d) by (done || lia). cbn [rbind]. destruct (Z.eqb_spec d c) as [->|Hne].
  - cbn [returns ls lbuf lw default from_option id]. split; [split; [done|]; split; [lia|lia]|]. replace (Z.to_nat (lw b + 1)) with (S (Z.to_nat (lw b))) by lia. by apply take_S_r.
  - rewrite slice_Ok by lia. cbn [rbind]. rewrite Z.sub_0_r, drop_0.
    assert (Lh : length (take (Z.to_nat (lw b)) (ls b)) = Z.to_nat (lw b)) by (rewrite length_take; unfold len in *; lia).
    apply W; [|by rewrite take_app_le, take_ge by lia]. rewrite len_app. unfold len in *. rewrite Lh, length_drop, length_replicate. lia.
Qed.

Lemma setw_spec p b n : lazy_ok p b -> 0 <= n <= lw b -> lazy_ok p (setw b n) /\ content (setw b n) = take (Z.to_nat n) (content b).
Proof.
  intros (Hs & Hu & Hw) Hn. unfold lazy_ok, content, under in *. cbn [setw ls lbuf lw]. split; [split; [done|]; split; [done|lia]|].
  rewrite take_take. f_equal. lia.
Qed.

(** Removing the last element, with the slash before it. *)
Lemma backtrack_spec p b a sep e dd : lazy_ok p b -> content b = a ++ sep ++ e -> e <> [] -> SL ∉ e -> 0 <= dd ->
  (sep = [SL] /\ dd <= len a \/ sep = [] /\ dd = len a) ->
  backtrack (setw b (lw b - 1)) dd ⇓ (fun b' => lazy_ok p b' /\ content b' = a).
Proof.
  intros Hok Ec He Hns Hdd Hsep. pose proof (len_content p b Hok) as Lc. rewrite Ec, !len_app in Lc.
  assert (1 <= len e) by (destruct e; [done|len_lia]). pose proof (len_nonneg a). pose proof (len_nonneg sep).
  unfold backtrack. cbn [setw lw].
  apply (loop_returns (fun b' => exists w, b' = setw b w /\ len a <= w <= lw b - 1) lw).
  - intros b' (w & -> & Hw). cbn [setw lw]. destruct (setw_spec p b w Hok ltac:(lia)) as [Hok' Ec']. rewrite Z.gtb_ltb.
    assert (Hdone : w = len a -> content (setw b w) = a).
    { intros ->. rewrite Ec', Ec. unfold len. rewrite Nat2Z.id. by rewrite take_app_length. }
    destruct (Z.ltb_spec dd w) as [Hlt|Hge]; [|cbn [returns]; split; [done|]; apply Hdone; destruct Hsep as [[-> ?]|[-> ?]]; lia].
    assert (exists x, under b !! Z.to_nat w = Some x /\ (a ++ sep ++ e) !! Z.to_nat w = Some x) as (x & Hx & Hx').
    { destruct Hok as (_ & Hu & Hwb). destruct (lookup_lt_is_Some_2 (under b) (Z.to_nat w)) as [x Hx]; [unfold len in *; lia|]. exists x. split; [done|].
      rewrite <- Ec. unfold content. by rewrite lookup_take_lt by lia. }
    change (setw b w) with (setw b w) at 1. rewrite (lindex_under (setw b w) w x) by (done || lia). cbn [rbind].
    destruct (Z.eqb_spec x SL) as [->|Hne]; cbn [negb returns].
    + split; [done|]. apply Hdone. destruct (Z.eq_dec w (len a)) as [|Hn]; [done|]. exfalso. apply Hns. apply list_elem_of_lookup.
      exists (Z.to_nat w - length a - length sep)%nat. rewrite lookup_app_r in Hx' by (unfold len in *; lia). destruct Hsep as [[-> _]|[-> _]]; cbn [app length] in *.
      * rewrite lookup_cons_ne_0 in Hx' by (unfold len in *; lia). rewrite <- Hx'. f_equal. lia.
      * rewrite <- Hx'. f_equal. lia.
    + split; [|cbn [setw lw]; lia]. exists (w - 1). split; [done|]. split; [|lia].
      destruct (Z.eq_dec w (len a)) as [->|]; [|lia]. exfalso. destruct Hsep as [[-> _]|[-> ?]]; [|lia].
      apply Hne. unfold len in Hx'. cbn [app] in Hx'; rewrite Nat2Z.id, list_lookup_middle in Hx' by done. congruence.
  - exists (lw b - 1). split; [done|]. lia.
  - cbn [setw lw]. lia.
  - cbn [setw lw]. lia.
Qed.

(** ** Elements *)

Lemma elements_cons p : exists e es, elements p = e :: es.
Proof. destruct p as [|c p]; [by exists [], []|]. cbn [elements]. destruct (c =? SL); [by eexists _, _|]. destruct (elements p); by eexists _, _. Qed.

(** The first element. *)
Lemma elements_app e p : SL ∉ e -> p = [] \/ (exists t, p = SL :: t) -> elements (e ++ p) = e :: tl (elements p).
Proof.
  intros He Hp. induction e as [|c e IH]; cbn [app].
  - destruct Hp as [->|[t ->]]; reflexivity.
  - apply not_elem_of_cons in He as [Hc He]. cbn [elements]. rewrite (proj2 (Z.eqb_neq _ _)) by congruence. by rewrite IH.
Qed.

Definition slashless (e : list Z) : Prop := SL ∉ e.

(** A path that starts with an element splits into it and the rest. *)
Lemma first_element (p : list Z) : exists e t, p = e ++ t /\ (SL ∉ e) /\ (t = [] \/ (exists u, t = SL :: u)).
Proof.
  induction p as [|c p (e & t & -> & He & Ht)]; [exists [], []; split; [done|]; split; [apply not_elem_of_nil|by left]|].
  destruct (decide (c = SL)) as [->|Hc]; [exists [], (SL :: e ++ t); split; [done|]; split; [apply not_elem_of_nil|right; eauto]|].
  exists (c :: e), t. split; [done|]. split; [|done]. apply not_elem_of_cons. done.
Qed.

Section Fold.
Context (rooted : bool).
Abbreviation clean := (foldl (cleanElem rooted)).

Lemma cleanElem_nil st : cleanElem rooted st [] = st.
Proof. destruct st. cbn. by rewrite decide_True by (by left). Qed.

Lemma clean_slash st p : clean st (elements (SL :: p)) = clean st (elements p).
Proof. cbn [elements]. rewrite Z.eqb_refl. cbn [foldl]. by rewrite cleanElem_nil. Qed.

Lemma clean_first st e t : SL ∉ e -> t = [] \/ (exists u, t = SL :: u) -> clean st (elements (e ++ t)) = clean (cleanElem rooted st e) (elements t).
Proof.
  intros He Ht. rewrite elements_app by done. cbn [foldl]. destruct (elements_cons t) as (e' & es & E). rewrite E. cbn [tl foldl].
  assert (e' = []) as ->; [|by rewrite cleanElem_nil]. destruct Ht as [->|[u ->]]; cbn [elements] in E; [congruence|]. rewrite Z.eqb_refl in E. congruence.
Qed.
End Fold.

(** ** Rendering *)

Lemma joinSlash_snoc l e : joinSlash (l ++ [e]) = joinSlash l ++ (match l with [] => [] | _ => [SL] end) ++ e.
Proof.
  induction l as [|d l IH]; [done|]. cbn [app joinSlash]. destruct l as [|d' l]; [done|]. cbn [app] in *. rewrite IH.
  by rewrite <- app_assoc.
Qed.

Lemma joinSlash_nil l : (forall e, e ∈ l -> e <> []) -> joinSlash l = [] -> l = [].
Proof. destruct l as [|e [|d l]]; [done| |]; intros H E; cbn [joinSlash] in E; exfalso; apply (H e); [by left|done|by left|by destruct e]. Qed.

Definition proper (e : list Z) : Prop := e <> [] /\ e <> [DOT] /\ e <> dotdot /\ (SL ∉ e).
Definition stack_ok (rooted : bool) (st : nat * list (list Z)) : Prop := (rooted = true -> st.1 = 0%nat) /\ Forall proper st.2.
Definition stacked (st : nat * list (list Z)) : list (list Z) := replicate st.1 dotdot ++ st.2.

Lemma stacked_nonempty rooted st e : stack_ok rooted st -> e ∈ stacked st -> e <> [].
Proof.
  intros [_ Hn] [H|H]%elem_of_app; [by apply elem_of_replicate in H as [-> _]|]. rewrite Forall_forall in Hn. by apply Hn.
Qed.

Lemma render_push rooted st e :
  render rooted (st.1, st.2 ++ [e]) = render rooted st ++ (match stacked st with [] => [] | _ => [SL] end) ++ e.
Proof. unfold render. cbn [fst snd]. rewrite app_assoc, joinSlash_snoc, <- !app_assoc. done. Qed.

Lemma render_up ups : render false (S ups, []) = render false (ups, []) ++ (match ups with O => [] | _ => [SL] end) ++ dotdot.
Proof. unfold render. cbn [fst snd app]. rewrite !app_nil_r, replicate_S_end, joinSlash_snoc. by destruct ups. Qed.

(** The code tells an empty stack from the length of the output. *)
Lemma render_empty rooted st : stack_ok rooted st ->
  ((rooted && negb (len (render rooted st) =? 1)) || (negb rooted && negb (len (render rooted st) =? 0))) = match stacked st with [] => false | _ => true end.
Proof.
  intros Hok. unfold render. destruct (stacked st) as [|d l] eqn:E; unfold stacked in E.
  - rewrite E. by destruct rooted.
  - assert (joinSlash (replicate st.1 dotdot ++ st.2) <> []) as Hne.
    { intros E0. apply joinSlash_nil in E0; [rewrite E0 in E; done|]. intros e. by apply (stacked_nonempty rooted). }
    rewrite len_app. pose proof (len_nonneg (joinSlash (replicate st.1 dotdot ++ st.2))). assert (len (joinSlash (replicate st.1 dotdot ++ st.2)) <> 0) by (intros E0; by apply len_zero_inv in E0).
    destruct rooted; cbn [andb orb negb]; [change (len [SL]) with 1; rewrite (proj2 (Z.eqb_neq _ _)) by lia|change (len (@nil Z)) with 0; rewrite (proj2 (Z.eqb_neq _ _)) by lia]; done.
Qed.

(** ** Clean *)

Definition ends (t : list Z) : bool := match t with [] => true | c :: _ => c =? SL end.

Lemma elementEnd_at path a t i : path = a ++ t -> i = len a -> elementEnd path i = Ok (ends t).
Proof.
  intros -> ->. unfold elementEnd. destruct t as [|c t]; cbn [ends].
  - rewrite app_nil_r, Z.eqb_refl. done.
  - rewrite (proj2 (Z.eqb_neq _ _)) by len_lia. rewrite idx_app by done. done.
Qed.

Lemma ends_boundary t : t = [] \/ (exists u, t = SL :: u) -> ends t = true.
Proof. intros [->|[u ->]]; [done|]. apply Z.eqb_refl. Qed.

Lemma ends_element c e : SL ∉ c :: e -> forall t, ends ((c :: e) ++ t) = false.
Proof. intros [H _]%not_elem_of_cons t. cbn. apply Z.eqb_neq. congruence. Qed.

Lemma copyElement_spec path pre e t out :
  path = pre ++ e ++ t -> SL ∉ e -> t = [] \/ (exists u, t = SL :: u) -> lazy_ok path out -> lw out + len e <= len path ->
  copyElement path (len pre) out ⇓ (fun '(r, out') => r = len pre + len e /\ lazy_ok path out' /\ content out' = content out ++ e).
Proof.
  intros Ep He Ht Hok Hsp. unfold copyElement. pose proof (len_content _ _ Hok) as Lc. pose proof (len_nonneg pre). pose proof (len_nonneg t).
  apply (loop_returns (fun '(r, out') => exists e1 e2, e = e1 ++ e2 /\ r = len pre + len e1 /\ lazy_ok path out' /\ content out' = content out ++ e1)
           (fun '(r, _) => len pre + len e - r)).
  - intros [r out'] (e1 & e2 & E & -> & Hok' & Ec). pose proof (len_nonneg e1). assert (Lp : len path = len pre + len e1 + len e2 + len t) by (rewrite Ep, E, !len_app; lia).
    assert (Le : len e = len e1 + len e2) by (rewrite E, len_app; lia). pose proof (len_content _ _ Hok') as Lc'. rewrite Ec, len_app in Lc'.
    assert (Ep' : path = (pre ++ e1) ++ e2 ++ t) by (rewrite Ep, E, <- !app_assoc; done).
    destruct e2 as [|c e2].
    + rewrite app_nil_r in E. subst e1. cbn [app] in Ep'. assert (Hfin : len pre + len e = len pre + len e /\ lazy_ok path out' /\ content out' = content out ++ e) by done.
      destruct Ht as [->|[u ->]].
      * rewrite (proj2 (Z.ltb_ge _ _)) by len_lia. done.
      * rewrite (proj2 (Z.ltb_lt _ _)) by len_lia. rewrite Ep' at 1. rewrite idx_app by len_lia. cbn [rbind]. rewrite Z.eqb_refl. cbn [negb]. done.
    + pose proof (len_nonneg e2). rewrite len_cons in *. rewrite (proj2 (Z.ltb_lt _ _)) by lia. cbn [app] in Ep'. rewrite Ep' at 1. rewrite idx_app by len_lia. cbn [rbind].
      assert (Hc : c <> SL) by (intros ->; apply He; rewrite E; apply elem_of_app; right; by left). rewrite (proj2 (Z.eqb_neq _ _) Hc). cbn [negb].
      eapply returns_bind_mono; [by apply (lappend_spec path); [|lia]|]. intros out'' [Hok'' Ec'']. cbn [returns]. split; [|lia].
      exists (e1 ++ [c]), e2. rewrite <- app_assoc. split; [done|]. split; [len_lia|]. split; [done|]. by rewrite Ec'', Ec, <- app_assoc.
  - exists [], e. rewrite app_nil_r. split; [done|]. split; [len_lia|done].
  - unfold len in *. subst path. rewrite !length_app. lia.
  - len_lia.
Qed.

Section Loop.
Context (path : list Z) (rooted : bool).
Abbreviation clean := (foldl (cleanElem rooted)).

Definition clean_inv (s : lazybuf * Z * Z) : Prop :=
  let '(out, r, dd) := s in
  exists pre rest st, path = pre ++ rest /\ r = len pre /\ lazy_ok path out /\ stack_ok rooted st /\ content out = render rooted st /\
    dd = len (render rooted (st.1, [])) /\ len (content out) <= len pre /\
    (ends rest = false -> stacked st <> [] -> len (content out) < len pre) /\
    clean (0%nat, []) (elements path) = clean st (elements rest).

(** The state after an element [e], for the stack it gives. *)
Lemma inv_element pre e t st out dd :
  path = pre ++ e ++ t -> t = [] \/ (exists u, t = SL :: u) -> SL ∉ e ->
  clean (0%nat, []) (elements path) = clean st (elements (e ++ t)) ->
  lazy_ok path out -> stack_ok rooted (cleanElem rooted st e) -> content out = render rooted (cleanElem rooted st e) ->
  dd = len (render rooted ((cleanElem rooted st e).1, [])) -> len (content out) <= len pre + len e ->
  clean_inv (out, len pre + len e, dd).
Proof.
  intros Ep Ht He Hf Hok Hst Ec Hdd Hl. exists (pre ++ e), t, (cleanElem rooted st e). rewrite <- app_assoc, len_app. split; [done|]. split; [done|]. split; [done|].
  split; [done|]. split; [done|]. split; [done|]. split; [done|]. split; [by rewrite ends_boundary|]. rewrite Hf. by apply clean_first.
Qed.

Lemma dotdot_slashless : SL ∉ dotdot.
Proof. by intros [?|[?|[]%not_elem_of_nil]%elem_of_cons]%elem_of_cons. Qed.

Lemma cleanElem_dotdot st : cleanElem rooted st dotdot =
  match st.2 with [] => if rooted then st else (S st.1, []) | _ => (st.1, removelast st.2) end.
Proof. destruct st as [ups names]. cbn [cleanElem fst snd]. rewrite decide_False by (by intros [?|?]). by rewrite decide_True. Qed.

Lemma cleanElem_proper st e : proper e -> cleanElem rooted st e = (st.1, st.2 ++ [e]).
Proof. intros (H1 & H2 & H3 & _). destruct st as [ups names]. cbn [cleanElem fst snd]. rewrite decide_False by (by intros [?|?]). by rewrite decide_False. Qed.

Lemma render_mono ups names : len (render rooted (ups, [])) <= len (render rooted (ups, names)).
Proof.
  induction names as [|e names IH] using rev_ind; [done|]. pose proof (render_push rooted (ups, names) e) as E. cbn [fst snd] in E. rewrite E. len_lia.
Qed.

Definition sep (st : nat * list (list Z)) : list Z := match stacked st with [] => [] | _ => [SL] end.

(** ".." with a name to remove. *)
Lemma dotdot_pop out ups names e dd : lazy_ok path out -> stack_ok rooted (ups, names ++ [e]) -> content out = render rooted (ups, names ++ [e]) ->
  dd = len (render rooted (ups, [])) ->
  (lw out >? dd) = true /\ backtrack (setw out (lw out - 1)) dd ⇓ (fun out' => lazy_ok path out' /\ content out' = render rooted (ups, names)).
Proof.
  intros Hok [Hr Hn] Ec ->. pose proof (len_content _ _ Hok) as Lc. pose proof (render_push rooted (ups, names) e) as E. cbn [fst snd] in *. fold (sep (ups, names)) in E.
  rewrite E in Ec. apply Forall_app in Hn as [_ Hn]. apply Forall_cons_1 in Hn as [(He & _ & _ & Hs) _]. pose proof (render_mono ups names) as Hm.
  assert (1 <= len e) by (destruct e; [done|len_lia]). rewrite Ec, !len_app in Lc. pose proof (len_nonneg (sep (ups, names))).
  split; [apply Z.gtb_lt; lia|]. apply (backtrack_spec path out _ (sep (ups, names)) e); [done|done|done|done|apply len_nonneg|].
  unfold sep, stacked. cbn [fst snd]. destruct (replicate ups dotdot ++ names) as [|d l] eqn:El; [right|by left]. split; [done|].
  apply app_eq_nil in El as [E1 ->]. by destruct ups.
Qed.

(** ".." that stays, at the front of a path that is not rooted. *)
Lemma dotdot_push {R} pre t ups out (k : lazybuf -> res R) (Q : R -> Prop) : path = pre ++ dotdot ++ t -> lazy_ok path out -> content out = render false (ups, []) ->
  len (content out) <= len pre -> (ups <> 0%nat -> len (content out) < len pre) ->
  (forall out', lazy_ok path out' -> content out' = render false (S ups, []) -> len (content out') <= len pre + 2 -> k out' ⇓ Q) ->
  (let! out := if lw out >? 0 then lappend out SL else Ok out in
   let! out := lappend out DOT in
   let! out := lappend out DOT in
   k out) ⇓ Q.
Proof.
  intros Ep Hok Ec Hl Hl' Hk. pose proof (len_content _ _ Hok) as Lc. assert (Lp : len pre + 2 <= len path) by (rewrite Ep, !len_app; change (len dotdot) with 2; pose proof (len_nonneg t); lia).
  pose proof (len_nonneg pre) as L0.
  apply (returns_bind_mono _ _ (fun o => lazy_ok path o /\ content o = render false (ups, []) ++ (match ups with O => [] | _ => [SL] end) /\ len (content o) <= len pre)).
  - rewrite Z.gtb_ltb. destruct ups as [|ups].
    + rewrite Ec in Lc. change (len (render false (0%nat, []))) with 0 in Lc. rewrite <- Lc. cbn [Z.ltb Z.compare returns]. by rewrite app_nil_r.
    + assert (Hp : 0 < lw out).
      { pose proof (render_up ups) as E. rewrite <- Lc, Ec, E, !len_app. change (len dotdot) with 2. pose proof (len_nonneg (render false (ups, []))). pose proof (len_nonneg (match ups with O => [] | _ => [SL] end)). lia. }
      rewrite (proj2 (Z.ltb_lt _ _) Hp). specialize (Hl' ltac:(done)). eapply returns_mono; [apply (lappend_spec path); [done|lia]|]. intros o [Ho Eo]. split; [done|]. rewrite Eo, Ec in *.
      split; [done|]. rewrite len_app. change (len [SL]) with 1. lia.
  - intros o (Ho & Eo & Lo). pose proof (len_content _ _ Ho) as Lw. eapply returns_bind_mono; [apply (lappend_spec path); [done|lia]|]. intros o1 [Ho1 Eo1].
    pose proof (len_content _ _ Ho1) as Lw1. rewrite Eo1, len_app in Lw1. change (len [DOT]) with 1 in Lw1. eapply returns_bind_mono; [apply (lappend_spec path); [done|lia]|].
    intros o2 [Ho2 Eo2]. apply Hk; [done|by rewrite Eo2, Eo1, Eo, render_up, <- !app_assoc|]. rewrite Eo2, Eo1, !len_app. change (len [DOT]) with 1. lia.
Qed.

Lemma removelast_snoc {A} (l : list A) x : removelast (l ++ [x]) = l.
Proof. apply removelast_last. Qed.

Lemma cleanStep_spec s : clean_inv s ->
  cleanStep path rooted s ⇓ (fun r => match r with
    | inl s' => clean_inv s' /\ 0 <= len path - s'.1.2 < len path - s.1.2
    | inr out => lazy_ok path out /\ content out = render rooted (clean (0%nat, []) (elements path))
    end).
Proof.
  destruct s as [[out r] dd]. intros (pre & rest & st & Ep & -> & Hok & Hst & Ec & Hdd & Hl & Hl' & Hf). cbn [fst snd]. unfold cleanStep. pose proof (len_nonneg pre) as L0.
  destruct rest as [|c rest].
  { rewrite app_nil_r in Ep. rewrite (proj2 (Z.ltb_ge _ _)) by (rewrite Ep; lia). cbn [returns]. split; [done|]. rewrite Ec, Hf. cbn [elements foldl]. by rewrite cleanElem_nil. }
  assert (Lp : len path = len pre + 1 + len rest) by (rewrite Ep, len_app, len_cons; lia). pose proof (len_nonneg rest) as Lr0.
  rewrite (proj2 (Z.ltb_lt _ _)) by lia. rewrite Ep at 1. rewrite idx_app by done. cbn [rbind].
  assert (Ep1 : path = (pre ++ [c]) ++ rest) by (rewrite <- app_assoc; done).
  destruct (Z.eqb_spec c SL) as [->|Hc].
  { cbn [returns fst snd]. split; [|lia]. exists (pre ++ [SL]), rest, st. rewrite len_app. change (len [SL]) with 1. 
    split; [done|]. split; [done|]. split; [done|]. split; [done|]. split; [done|]. split; [done|]. split; [lia|]. split; [intros; lia|]. by rewrite Hf, clean_slash. }
  specialize (Hl' ltac:(by apply Z.eqb_neq)).
  destruct (first_element rest) as (e & t & -> & He & Ht). rewrite len_app in Lp, Lr0. pose proof (len_nonneg e) as Le0. pose proof (len_nonneg t) as Lt0.
  assert (Hce : SL ∉ c :: e) by (apply not_elem_of_cons; split; [congruence|done]).
  assert (Eend : elementEnd path (len pre + 1) = Ok (ends (e ++ t))) by (apply (elementEnd_at _ _ _ _ Ep1); by rewrite len_app).
  assert (Efold : clean (0%nat, []) (elements path) = clean st (elements ((c :: e) ++ t))) by exact Hf.
  assert (Epe : path = pre ++ (c :: e) ++ t) by done. assert (Lce : len (c :: e) = 1 + len e) by apply len_cons.
  destruct (decide (c :: e = [DOT])) as [Ed|Nd].
  { injection Ed as -> ->. rewrite Z.eqb_refl, Eend. cbn [app]. rewrite ends_boundary by done. cbn [rbind returns fst snd]. split; [|lia].
    assert (Es : cleanElem rooted st [DOT] = st) by (destruct st; cbn; by rewrite decide_True by (by right)).
    change (len pre + 1) with (len pre + len [DOT]). apply (inv_element pre [DOT] t st); rewrite ?Es; try done. change (len [DOT]) with 1. lia. }
  assert (Edot : (if c =? DOT then elementEnd path (len pre + 1) else Ok false) = Ok false).
  { destruct (Z.eqb_spec c DOT) as [->|]; [|done]. rewrite Eend. destruct e as [|d e]; [done|]. f_equal. by apply ends_element. }
  rewrite Edot. cbn [rbind]. clear Edot.
  assert (Edots : (if c =? DOT then let! d := idx path (len pre + 1) in if d =? DOT then elementEnd path (len pre + 2) else Ok false else Ok false)
                  = Ok (bool_decide (c :: e = dotdot))).
  { destruct (Z.eqb_spec c DOT) as [->|Hnd]; [|rewrite bool_decide_false; [done|]; intros [= -> _]; done].
    destruct e as [|d e]; [done|]. rewrite Ep1 at 1. cbn [app]. rewrite idx_app by (rewrite len_app; done). cbn [rbind].
    destruct (Z.eqb_spec d DOT) as [->|Hnd]; [|rewrite bool_decide_false; [done|]; intros [= -> _]; done].
    rewrite (elementEnd_at path (pre ++ dotdot) (e ++ t)); [|rewrite Epe, <- app_assoc; done|rewrite len_app; done]. f_equal. destruct e as [|d e].
    - cbn [app]. by rewrite ends_boundary.
    - rewrite ends_element; [done|]. intros H. apply He. by right. }
  rewrite Edots. cbn [rbind]. clear Edots. case_bool_decide as Edd.
  - injection Edd as -> ->. change (len pre + 2) with (len pre + len dotdot). change (len [DOT]) with 1 in *. pose proof (cleanElem_dotdot st) as Ecd. destruct st as [ups names]. cbn [fst snd] in *.
    pose proof (len_content _ _ Hok) as Lc. assert (Hmu : 0 <= len path - (len pre + len dotdot) < len path - len pre) by (change (len dotdot) with 2; lia).
    destruct names as [|e names _] using rev_ind.
    + rewrite Z.gtb_ltb, (proj2 (Z.ltb_ge _ _)) by (rewrite <- Lc, Ec, Hdd; lia). destruct (Bool.bool_dec rooted true) as [Er|Er%not_true_is_false].
      * rewrite Er at 1. cbn [negb returns fst snd]. split; [|done]. rewrite Er in Ecd at 2.
        apply (inv_element pre dotdot t (ups, [])); rewrite ?Ecd; try done. change (len dotdot) with 2. lia.
      * rewrite Er at 1. cbn [negb]. rewrite Er in Ecd at 2. assert (Hn : ups <> 0%nat -> len (content out) < len pre) by (intros Hu; apply Hl'; unfold stacked; by destruct ups).
        apply (dotdot_push pre t ups); [done|done|by rewrite Ec, Er|done|done|]. intros out' Hok' Ec' Hl2. cbn [returns fst snd]. split; [|done].
        apply (inv_element pre dotdot t (ups, [])); rewrite ?Ecd; try done.
        -- split; [by rewrite Er|apply Forall_nil_2].
        -- by rewrite Ec', Er.
        -- cbn [fst]. rewrite Er, <- Ec'. symmetry. by apply (len_content path).
    + destruct (dotdot_pop out ups names e dd Hok Hst Ec Hdd) as [-> BT]. eapply returns_bind_mono; [exact BT|]. intros out' [Hok' Ec']. cbn [returns fst snd]. split; [|done].
      assert (Es : cleanElem rooted (ups, names ++ [e]) dotdot = (ups, names)) by (rewrite Ecd, removelast_last; by destruct names).
      apply (inv_element pre dotdot t (ups, names ++ [e])); rewrite ?Es; try done.
      * split; [apply Hst|]. destruct Hst as [_ Hn]. cbn [snd] in *. by apply Forall_app in Hn as [Hn _].
      * pose proof (render_push rooted (ups, names) e) as E. cbn [fst snd] in E. rewrite Ec' in *. rewrite Ec, E, len_app in Hl. change (len dotdot) with 2.
        pose proof (len_nonneg ((match stacked (ups, names) with [] => [] | _ => [SL] end) ++ e)). lia.
  - assert (Hpr : proper (c :: e)) by done. pose proof (cleanElem_proper st (c :: e) Hpr) as Es. pose proof (render_push rooted st (c :: e)) as Ep2. fold (sep st) in Ep2.
    pose proof (len_content _ _ Hok) as Lc. rewrite <- Lc, Ec, (render_empty rooted st Hst).
    apply (returns_bind_mono _ _ (fun o => lazy_ok path o /\ content o = render rooted st ++ sep st /\ len (content o) <= len pre)).
    { unfold sep. destruct (stacked st) as [|d l] eqn:Est; [cbn [returns]; rewrite app_nil_r; done|]. specialize (Hl' ltac:(done)).
      eapply returns_mono; [apply (lappend_spec path); [done|lia]|]. intros o [Ho Eo]. split; [done|]. rewrite Eo, Ec in *. split; [done|]. rewrite len_app. change (len [SL]) with 1. lia. }
    intros o (Ho & Eo & Lo). pose proof (len_content _ _ Ho) as Lw.
    eapply returns_bind_mono; [apply (copyElement_spec path pre (c :: e) t); try done; lia|]. intros [r' o'] (-> & Ho' & Eo'). cbn [returns fst snd]. split; [|lia].
    apply (inv_element pre (c :: e) t st); rewrite ?Es; try done.
    + split; [apply Hst|]. apply Forall_app. split; [apply Hst|]. by constructor.
    + by rewrite Eo', Eo, Ep2, <- app_assoc.
    + rewrite Eo', len_app. lia.
Qed.
End Loop.

Lemma lstring_spec p b : lazy_ok p b -> lstring b = Ok (content b).
Proof.
  intros (Hs & Hu & Hw). unfold lstring, content, under in *. destruct (lbuf b); cbn [default from_option id] in *; rewrite slice_Ok by lia; by rewrite Z.sub_0_r, drop_0.
Qed.

Lemma Clean_spec path : Clean path = Ok (cleanSpec path).
Proof.
  destruct path as [|c p]; [done|]. unfold Clean, cleanSpec. set (path := c :: p). set (rooted := c =? SL).
  assert (Lp : 1 <= len path) by (unfold path; len_lia). assert (Hok0 : lazy_ok path (mkLazy path None 0)) by (split; [done|split; [done|cbn; lia]]).
  assert (Hinv : (if rooted then let! out := lappend (mkLazy path None 0) SL in Ok (out, 1, 1) else Ok (mkLazy path None 0, 0, 0)) ⇓ (fun s => clean_inv path rooted s /\ 0 <= s.1.2 <= len path)).
  { unfold rooted. destruct (Z.eqb_spec c SL) as [E|E].
    - eapply returns_bind_mono; [apply (lappend_spec path); [done|cbn; lia]|]. intros out [Ho Eo]. cbn [returns]. split; [|cbn; lia]. exists [SL], p, (0%nat, []).
      split; [unfold path; by rewrite E|]. split; [done|]. split; [done|]. split; [split; [done|apply Forall_nil_2]|]. split; [by rewrite Eo|]. split; [done|]. rewrite Eo. split; [done|]. split; [done|].
      unfold path. rewrite E. apply clean_slash.
    - cbn [returns]. split; [|cbn; lia]. exists [], path, (0%nat, []). split; [done|]. split; [done|]. split; [done|]. split; [split; [done|apply Forall_nil_2]|]. done. }
  destruct (returns_inv _ _ Hinv) as (s0 & -> & Hs0 & Hr0). cbn [rbind].
  assert (HL : loop (S (length path)) (cleanStep path rooted) s0 ⇓ (fun out => lazy_ok path out /\ content out = render rooted (foldl (cleanElem rooted) (0%nat, []) (elements path)))).
  { apply (loop_returns (clean_inv path rooted) (fun s => len path - s.1.2)); [|done|unfold len in *; lia|lia]. intros s Hs. eapply returns_mono; [by apply cleanStep_spec|]. by intros []. }
  destruct (returns_inv _ _ HL) as (out & -> & Ho & Eo). cbn [rbind]. pose proof (len_content _ _ Ho) as Lw. rewrite (lstring_spec path) by done. rewrite Eo in *.
  destruct (render rooted _) as [|d l]; [by rewrite <- Lw|]. rewrite (proj2 (Z.eqb_neq _ _)) by (rewrite <- Lw; len_lia). done.
Qed.
