(* ===== verification/PathSpec.v ===== *)
(** * Package path: the properties of paths *)
From Stdlib Require Import ZArith Lia String Ascii.
From stdpp Require Import base numbers list.
From S2P Require Import Prelude Path PathCorrect.

(** ** Normal forms *)

Lemma elements_slashless p : Forall slashless (elements p).
Proof.
  induction p as [|c p IH]; cbn [elements]; [constructor; [apply not_elem_of_nil|constructor]|].
  destruct (Z.eqb_spec c SL) as [E|E]; [constructor; [apply not_elem_of_nil|done]|]. destruct (elements_cons p) as (e & es & Ee). rewrite Ee in *. apply Forall_cons_1 in IH as [He Hes].
  constructor; [|done]. unfold slashless in *. apply not_elem_of_cons. split; [congruence|done].
Qed.

Lemma cleanElem_ok rooted st e : slashless e -> stack_ok rooted st -> stack_ok rooted (cleanElem rooted st e).
Proof.
  intros He [Hu Hn]. destruct st as [ups names]. cbn [cleanElem fst snd] in *. destruct (decide (e = [] \/ e = [DOT])) as [|Hn1]; [by split|].
  destruct (decide (e = dotdot)) as [|Hn2].
  - destruct names as [|d l]; [destruct rooted; (by split) || (split; [done|apply Forall_nil_2])|]. split; [done|]. cbn [snd] in *.
    destruct (exists_last (l := d :: l)) as (l' & x & E); [done|]. rewrite E in *. rewrite removelast_last. by apply Forall_app in Hn as [Hn _].
  - split; [done|]. cbn [snd]. apply Forall_app. split; [done|]. constructor; [|constructor]. unfold proper. intuition.
Qed.

Lemma clean_ok rooted st l : Forall slashless l -> stack_ok rooted st -> stack_ok rooted (foldl (cleanElem rooted) st l).
Proof. intros Hl. revert st. induction Hl as [|e l He Hl IH]; intros st Hst; [done|]. cbn [foldl]. apply IH. by apply cleanElem_ok. Qed.

Lemma elements_slash a b : elements (a ++ SL :: b) = elements a ++ elements b.
Proof.
  induction a as [|c a IH]; cbn [app elements]; [by rewrite Z.eqb_refl|]. rewrite IH. destruct (c =? SL); [done|].
  destruct (elements_cons a) as (e & es & ->). done.
Qed.

Lemma elements_join l : l <> [] -> elements (joinSlash l) = concat (map elements l).
Proof.
  induction l as [|e [|d l] IH]; intros H; [done|cbn; by rewrite app_nil_r|]. change (joinSlash (e :: d :: l)) with (e ++ SL :: joinSlash (d :: l)).
  rewrite elements_slash, IH by done. done.
Qed.

Lemma elements_one e : slashless e -> elements e = [e].
Proof. intros He. rewrite <- (app_nil_r e) at 1. rewrite elements_app by (done || by left). done. Qed.

(** Reading a normal form gives its stack back. *)
Lemma clean_names rooted ups names names' : Forall proper names' -> foldl (cleanElem rooted) (ups, names) names' = (ups, names ++ names').
Proof.
  intros H. revert names. induction H as [|e l He Hl IH]; intros names; [by rewrite app_nil_r|]. cbn [foldl]. rewrite (cleanElem_proper rooted (ups, names) e He). cbn [fst snd].
  by rewrite IH, <- app_assoc.
Qed.

Lemma clean_ups ups k : foldl (cleanElem false) (k, []) (replicate ups dotdot) = ((k + ups)%nat, []).
Proof. revert k. induction ups as [|u IH]; intros k; cbn [replicate foldl]; [by rewrite Nat.add_0_r|]. rewrite (cleanElem_dotdot false (k, [])). cbn [fst snd]. rewrite IH. f_equal. lia. Qed.

Lemma clean_stacked rooted st : stack_ok rooted st -> foldl (cleanElem rooted) (0%nat, []) (stacked st) = st.
Proof.
  intros [Hu Hn]. destruct st as [ups names]. unfold stacked. cbn [fst snd] in *. rewrite foldl_app. destruct rooted.
  - rewrite Hu by done. cbn [replicate foldl]. by rewrite clean_names.
  - rewrite clean_ups. cbn [Nat.add]. by rewrite clean_names.
Qed.

Lemma stacked_elements rooted st : stack_ok rooted st -> concat (map elements (stacked st)) = stacked st.
Proof.
  intros [_ Hn]. assert (H : Forall slashless (stacked st)).
  { apply Forall_app. split; [apply Forall_replicate, dotdot_slashless|]. eapply Forall_impl; [exact Hn|]. by intros e (_ & _ & _ & He). }
  induction H as [|e l He Hl IH]; [done|]. cbn [map concat]. by rewrite elements_one, IH.
Qed.

Lemma join_head st rooted c p : stack_ok rooted st -> joinSlash (stacked st) = c :: p -> c <> SL.
Proof.
  intros Hst E ->. destruct (stacked st) as [|e l] eqn:Es; [done|]. assert (He : e <> [] /\ slashless e).
  { assert (Hin : e ∈ stacked st) by (rewrite Es; by left). split; [by eapply stacked_nonempty|]. unfold stacked in Hin. apply elem_of_app in Hin as [H|H].
    - apply elem_of_replicate in H as [-> _]. apply dotdot_slashless.
    - destruct Hst as [_ Hn]. rewrite Forall_forall in Hn. by destruct (Hn e H) as (_ & _ & _ & ?). }
  destruct He as [Hne Hs]. destruct e as [|d e]; [done|]. apply Hs. destruct l; cbn [joinSlash app] in E; injection E as -> _; by left.
Qed.

Lemma cleanSpec_render rooted st : stack_ok rooted st -> cleanSpec (match render rooted st with [] => [DOT] | p => p end) = match render rooted st with [] => [DOT] | p => p end.
Proof.
  intros Hst. destruct (render rooted st) as [|c p] eqn:E; [done|]. rewrite <- E. unfold render in E. fold (stacked st) in E. destruct rooted; cbn [app] in E.
  - injection E as <- E. unfold cleanSpec, render. fold (stacked st). cbn [app]. rewrite Z.eqb_refl, clean_slash.
    assert (Ef : foldl (cleanElem true) (0%nat, []) (elements (joinSlash (stacked st))) = st).
    { destruct (stacked st) as [|d l] eqn:Es; [|rewrite <- Es, elements_join, (stacked_elements true) by (done || by rewrite Es); by apply clean_stacked].
      pose proof (clean_stacked true st Hst) as Ec. rewrite Es in Ec. exact Ec. }
    rewrite Ef. done.
  - unfold cleanSpec, render. fold (stacked st). cbn [app]. rewrite E. pose proof (join_head st false c p Hst E) as Hc. rewrite (proj2 (Z.eqb_neq _ _) Hc).
    assert (Hne : stacked st <> []) by (intros E0; by rewrite E0 in E). rewrite <- E, elements_join, (stacked_elements false) by done. rewrite clean_stacked by done. fold (stacked st). rewrite E. done.
Qed.

Lemma final_stack path : let rooted := match path with c :: _ => c =? SL | [] => false end in
  exists st, stack_ok rooted st /\ cleanSpec path = match render rooted st with [] => [DOT] | p => p end.
Proof.
  cbv zeta. eexists. split; [|unfold cleanSpec; reflexivity]. apply clean_ok; [apply elements_slashless|]. split; [done|apply Forall_nil_2].
Qed.

(** ** Join *)

Abbreviation nonempty := (filter (fun e : list Z => e <> [])).

Lemma joinStep_more buf l : buf <> [] -> foldl joinStep buf l = joinSlash (buf :: l).
Proof.
  revert buf. induction l as [|e l IH]; intros buf Hb; [done|]. cbn [foldl].
  assert (E : joinStep buf e = buf ++ SL :: e).
  { unfold joinStep. rewrite Z.gtb_ltb, (proj2 (Z.ltb_lt _ _)) by (destruct buf; [done|len_lia]). cbn [orb]. by rewrite <- app_assoc. }
  rewrite E, IH by (by destruct buf). destruct l; cbn [joinSlash]; [done|]. by rewrite <- app_assoc.
Qed.

Lemma clean_empties rooted st l : foldl (cleanElem rooted) st (concat (map elements l)) = foldl (cleanElem rooted) st (concat (map elements (nonempty l))).
Proof.
  revert st. induction l as [|e l IH]; intros st; [done|]. rewrite filter_cons. destruct (decide (e <> [])) as [H|H]; cbn [map concat].
  - by rewrite !foldl_app, IH.
  - apply dec_stable in H as ->. cbn [elements app foldl]. by rewrite cleanElem_nil, IH.
Qed.

Lemma joinSlash_head e l : e <> [] -> match joinSlash (e :: l) with c :: _ => c =? SL | [] => false end = match e with c :: _ => c =? SL | [] => false end.
Proof. intros H. destruct e as [|c e]; [done|]. by destruct l. Qed.

Lemma cleanSpec_nonempty e l : e <> [] -> cleanSpec (joinSlash (e :: l)) = cleanSpec (joinSlash (e :: nonempty l)).
Proof.
  intros He. unfold cleanSpec. rewrite !joinSlash_head, !elements_join by done. cbn [map concat]. by rewrite !foldl_app, clean_empties.
Qed.

Lemma size_zero l k : 0 <= k -> (foldl (fun n (e : list Z) => n + len e) k l =? 0) = (k =? 0) && match nonempty l with [] => true | _ => false end.
Proof.
  revert k. induction l as [|e l IH]; intros k Hk; cbn [foldl]; [by rewrite andb_true_r|]. pose proof (len_nonneg e) as Le. rewrite IH by lia. rewrite filter_cons.
  destruct (decide (e <> [])) as [H|H].
  - assert (1 <= len e) by (destruct e; [done|len_lia]). rewrite (proj2 (Z.eqb_neq (k + len e) 0)) by lia. by rewrite andb_false_r.
  - apply dec_stable in H as ->. by rewrite Z.add_0_r.
Qed.

Lemma join_start l : nonempty l <> [] -> exists e l', foldl joinStep [] l = joinSlash (e :: l') /\ e <> [] /\ nonempty l = e :: nonempty l'.
Proof.
  induction l as [|e l IH]; [done|]. rewrite filter_cons. destruct (decide (e <> [])) as [H|H]; intros Hne.
  - exists e, l. split; [|done]. cbn [foldl]. assert (E : joinStep [] e = e) by (unfold joinStep; cbn [len length Z.of_nat Z.gtb Z.compare orb]; rewrite (proj2 (Z.eqb_neq (len e) 0)); [done|]; intros E0; by apply len_zero_inv in E0).
    rewrite E. by apply joinStep_more.
  - apply dec_stable in H as ->. cbn [foldl]. by apply IH.
Qed.

Lemma Join_spec elem : Join elem = Ok (match nonempty elem with [] => [] | l => cleanSpec (joinSlash l) end).
Proof.
  unfold Join. rewrite size_zero by done. cbn [Z.eqb andb]. destruct (nonempty elem) as [|e0 l0] eqn:E; [done|].
  destruct (join_start elem) as (e & l & -> & He & El); [by rewrite E|]. rewrite El in E. injection E as <- <-. rewrite Clean_spec. f_equal. by apply cleanSpec_nonempty.
Qed.

(** ** Parts *)

Section Parts.
Context `{BL : BytealgLaws}.

(** The last element, which may be empty. *)
Definition lastElement (path : list Z) : list Z := default [] (last (elements path)).

Lemma lastElement_slash p t : slashless t -> lastElement (p ++ SL :: t) = t.
Proof. intros Ht. unfold lastElement. rewrite elements_slash, (elements_one t Ht), last_snoc. done. Qed.
Lemma lastElement_one t : slashless t -> lastElement t = t.
Proof. intros Ht. unfold lastElement. by rewrite (elements_one t Ht). Qed.

Lemma lastElement_suffix p x : slashless x -> exists a, lastElement (p ++ x) = a ++ x.
Proof.
  intros Hx. destruct (decide (SL ∈ p)) as [Hin|Hn].
  - apply list_elem_of_split_r in Hin as (a & b & -> & Hb). exists b. rewrite <- app_assoc. cbn [app]. apply lastElement_slash. by apply not_elem_of_app.
  - exists p. apply lastElement_one. by apply not_elem_of_app.
Qed.

Lemma Split_spec path : exists dir, Split path = Ok (dir, lastElement path) /\ path = dir ++ lastElement path /\
  slashless (lastElement path) /\ (dir = [] \/ exists a, dir = a ++ [SL]).
Proof.
  unfold Split. destruct (Z.lt_ge_cases (LastIndexByteString path SL) 0) as [Hi|Hi].
  - destruct (LastIndex_absent path SL Hi) as [E Hs]. rewrite E. change (-1 + 1) with 0. rewrite !slice_Ok by len_lia. cbn [rbind]. exists [].
    rewrite lastElement_one by done. rewrite !Z.sub_0_r. change (Z.to_nat 0) with 0%nat. rewrite take_0, drop_0. unfold len. rewrite Nat2Z.id, take_ge by lia. split; [done|]. split; [done|]. split; [done|by left].
  - destruct (LastIndex_found path SL Hi) as (a & b & E & Ei & Hs). exists (a ++ [SL]). assert (El : lastElement path = b) by (rewrite E; by apply lastElement_slash).
    assert (Ep : path = (a ++ [SL]) ++ b) by (by rewrite <- app_assoc). rewrite El, Ei. assert (Lp : len path = len a + 1 + len b) by (rewrite E; len_lia). pose proof (len_nonneg a). pose proof (len_nonneg b). rewrite !slice_Ok by lia. cbn [rbind].
    assert (Ln : Z.to_nat (len a + 1 - 0) = length (a ++ [SL])) by (rewrite length_app; unfold len; cbn [length]; lia).
    assert (Ln' : Z.to_nat (len a + 1) = length (a ++ [SL])) by (rewrite length_app; unfold len; cbn [length]; lia).
    rewrite Ln, Ln', Ep, drop_0, take_app_length, drop_app_length. split; [|split; [done|]; split; [done|right; by exists a]].
    do 2 f_equal. apply take_ge. rewrite <- Ep. unfold len in *. lia.
Qed.

Lemma nonempty_cons e l : e <> [] -> nonempty (e :: l) = e :: nonempty l.
Proof. intros H. rewrite filter_cons. by rewrite decide_True. Qed.
Lemma nonempty_nil l : nonempty ([] :: l) = nonempty l.
Proof. rewrite filter_cons. rewrite decide_False; [done|]. intros H. by apply H. Qed.

Lemma cleanSpec_split dir file : dir ++ file <> [] -> (dir = [] \/ exists a, dir = a ++ [SL]) ->
  match nonempty [dir; file] with [] => [] | l => cleanSpec (joinSlash l) end = cleanSpec (dir ++ file).
Proof.
  intros Hne [->|[a ->]].
  - cbn [app] in *. by rewrite nonempty_nil, nonempty_cons.
  - rewrite nonempty_cons by (by destruct a). destruct (decide (file = [])) as [->|Hf]; [by rewrite app_nil_r|]. rewrite nonempty_cons by done.
    change (nonempty []) with (@nil (list Z)). cbn [joinSlash]. rewrite <- !app_assoc. cbn [app]. unfold cleanSpec.
    rewrite !elements_slash. cbn [elements]. rewrite Z.eqb_refl, !foldl_app. cbn [foldl]. rewrite cleanElem_nil. by destruct a.
Qed.

Lemma stripSlashes_spec path : exists q k, path = q ++ replicate k SL /\ stripSlashes path = Ok q /\ forall a, q <> a ++ [SL].
Proof.
  assert (G : stripSlashes path ⇓ (fun q => (exists k, path = q ++ replicate k SL) /\ forall a, q <> a ++ [SL])).
  { unfold stripSlashes. apply (loop_returns (fun q => exists k, path = q ++ replicate k SL) len); [|by exists 0%nat; rewrite app_nil_r|unfold len; lia|len_lia].
    intros q [k E]. rewrite Z.gtb_ltb. destruct q as [|c q _] using rev_ind.
    - cbn [len length Z.of_nat Z.ltb Z.compare returns]. split; [by exists k|]. intros a Ea. by destruct a.
    - assert (L : len (q ++ [c]) - 1 = len q) by len_lia. rewrite (proj2 (Z.ltb_lt _ _)) by len_lia. rewrite L, idx_app by done. cbn [rbind]. destruct (Z.eqb_spec c SL) as [->|Hc].
      + rewrite slice_Ok by len_lia. cbn [rbind returns]. rewrite Z.sub_0_r, drop_0. replace (Z.to_nat (len q)) with (length q) by (unfold len; lia). rewrite take_app_length. split; [|len_lia].
        exists (S k). rewrite E, <- app_assoc. done.
      + cbn [returns]. split; [by exists k|]. intros a Ea. apply app_inj_tail in Ea as [_ ->]. done. }
  destruct (returns_inv _ _ G) as (q & Eq & [k Ek] & Hq). by exists q, k.
Qed.

Lemma elements_trailing q k : elements (q ++ replicate k SL) = elements q ++ replicate k [].
Proof.
  revert q. induction k as [|k IH]; intros q; cbn [replicate]; [by rewrite !app_nil_r|]. rewrite elements_slash.
  pose proof (IH []) as E. cbn [app] in E. rewrite E. done.
Qed.

Lemma nonempty_trailing l k : nonempty (l ++ replicate k []) = nonempty l.
Proof. rewrite filter_app. assert (E : nonempty (replicate k []) = []); [|by rewrite E, app_nil_r]. induction k as [|k IH]; [done|]. cbn [replicate]. by rewrite nonempty_nil. Qed.

(** The last element that is not empty; "/" when there is none, "." for the empty path. *)
Definition baseSpec (path : list Z) : list Z :=
  match path with [] => [DOT] | _ => default [SL] (last (nonempty (elements path))) end.

Lemma Base_spec path : Base path = Ok (baseSpec path).
Proof.
  unfold Base. destruct path as [|c p]; [done|]. rewrite (proj2 (Z.eqb_neq _ _)) by len_lia. unfold baseSpec. set (path := c :: p).
  destruct (stripSlashes_spec path) as (q & k & Ep & -> & Hq). cbn [rbind]. rewrite Ep, elements_trailing, nonempty_trailing. rewrite Z.geb_leb.
  destruct (Z.leb_spec 0 (LastIndexByteString q SL)) as [Hi|Hi].
  - destruct (LastIndex_found q SL Hi) as (a & b & E & Ei & Hs). rewrite Ei, slice_Ok by (rewrite E; len_lia). cbn [rbind].
    assert (Eb : take (Z.to_nat (len q - (len a + 1))) (drop (Z.to_nat (len a + 1)) q) = b).
    { rewrite E. replace (Z.to_nat (len a + 1)) with (length (a ++ [SL])) by (rewrite length_app; unfold len; cbn [length]; lia).
      replace (a ++ SL :: b) with ((a ++ [SL]) ++ b) by (by rewrite <- app_assoc). rewrite drop_app_length. apply take_ge. unfold len. rewrite !length_app. cbn [length]. lia. }
    rewrite Eb. assert (Hb : b <> []) by (intros ->; by apply (Hq a)). rewrite (proj2 (Z.eqb_neq (len b) 0)) by (intros E0; by apply len_zero_inv in E0).
    rewrite E, elements_slash, (elements_one b Hs), filter_app, nonempty_cons by done. change (nonempty []) with (@nil (list Z)). by rewrite last_snoc.
  - destruct (LastIndex_absent q SL Hi) as [_ Hs]. cbn [rbind]. rewrite (elements_one q Hs). destruct (decide (q = [])) as [->|Hne]; [done|].
    rewrite (proj2 (Z.eqb_neq (len q) 0)) by (intros E0; by apply len_zero_inv in E0). by rewrite nonempty_cons.
Qed.

Lemma Ext_spec path : Ext path ⇓ (fun x =>
  (x = [] /\ (DOT ∉ lastElement path)) \/ exists a b, lastElement path = a ++ x /\ x = DOT :: b /\ (DOT ∉ b)).
Proof.
  unfold Ext. apply (loop_returns (fun i => exists p1 p2, path = p1 ++ p2 /\ i = len p1 - 1 /\ slashless p2 /\ (DOT ∉ p2)) (fun i => i + 1)).
  - intros i (p1 & p2 & E & -> & Hs & Hd). destruct p1 as [|c p1 _] using rev_ind.
    + cbn [len length Z.of_nat Z.sub Z.geb Z.compare returns Z.opp Z.add]. left. cbn [app] in E. rewrite E, lastElement_one by done. done.
    + rewrite Z.geb_leb. replace (len (p1 ++ [c]) - 1) with (len p1) by len_lia. rewrite (proj2 (Z.leb_le _ _)) by len_lia. rewrite <- app_assoc in E. cbn [app] in E. rewrite E at 1. rewrite idx_app by done. cbn [rbind].
      destruct (Z.eqb_spec c SL) as [->|Hc]; cbn [negb].
      * cbn [returns]. left. split; [done|]. by rewrite E, lastElement_slash.
      * destruct (Z.eqb_spec c DOT) as [->|Hdot].
        -- rewrite slice_Ok by (rewrite E; len_lia). cbn [rbind returns]. right.
           assert (Ex : take (Z.to_nat (len path - len p1)) (drop (Z.to_nat (len p1)) path) = DOT :: p2).
           { rewrite E. unfold len. rewrite Nat2Z.id, drop_app_length. apply take_ge. rewrite length_app. cbn [length]. lia. }
           rewrite Ex. assert (Hsuf : exists a, lastElement path = a ++ DOT :: p2) by (rewrite E; apply lastElement_suffix, not_elem_of_cons; done).
           destruct Hsuf as [a Ea]. exists a, p2. done.
        -- cbn [returns]. split; [|len_lia]. exists p1, (c :: p2). split; [done|]. split; [len_lia|]. split; apply not_elem_of_cons; split; congruence || done.
  - exists path, []. rewrite app_nil_r. split; [done|]. split; [done|]. split; apply not_elem_of_nil.
  - unfold len. lia.
  - len_lia.
Qed.
End Parts.

(** ** Properties *)

(** C30: Clean is the lexical specification: splitting the path at slashes and folding
    the elements over a stack (empty and "." elements skipped, ".." removing the
    name before it, dropped at the root and kept at the front of other paths)
    gives exactly the bytes Clean returns, for every path; the lazily allocated
    buffer never runs out. *)
Theorem Clean_correct path : Clean path = Ok (cleanSpec path).
Proof. apply Clean_spec. Qed.

(** what Clean returns is a normal form: a path of "..", then names that are not
    empty, "." or ".." and hold no slash, separated by single slashes (no ".." in
    a rooted path, "." alone for the empty one), and cleaning it again changes
    nothing. *)
Theorem Clean_normal path : Clean path ⇓ (fun r =>
  Clean r = Ok r /\
  exists rooted ups names, (rooted = true -> ups = 0%nat) /\ Forall proper names /\
    r = match render rooted (ups, names) with [] => [DOT] | p => p end).
Proof.
  rewrite Clean_spec. cbn [returns]. destruct (final_stack path) as ([ups names] & Hst & ->). split; [rewrite Clean_spec; f_equal; by apply cleanSpec_render|].
  eexists _, ups, names. split; [apply Hst|]. split; [apply Hst|reflexivity].
Qed.

(** Join ignores empty elements and cleans the others joined by slashes; it is
    empty only when they all are; and joining what Split returns is cleaning the
    path. *)
Theorem Join_correct `{BL : BytealgLaws} :
  (forall elem, Join elem = Ok (match nonempty elem with [] => [] | l => cleanSpec (joinSlash l) end)) /\
  (forall path, path <> [] -> (let! '(dir, file) := Split path in Join [dir; file]) = Clean path).
Proof.
  split; [apply Join_spec|]. intros path Hne. destruct (Split_spec path) as (dir & -> & E & _ & Hd). cbn [rbind]. rewrite Join_spec, Clean_spec. f_equal.
  rewrite cleanSpec_split by (done || by rewrite <- E). by rewrite <- E.
Qed.

(** Split cuts after the last slash; Base is the last element that is not empty
    ("/" or "." without one); Dir cleans the part before the last element; Ext is
    the end of the last element from its last dot. *)
Theorem Path_parts `{BL : BytealgLaws} path :
  exists dir, path = dir ++ lastElement path /\ slashless (lastElement path) /\ (dir = [] \/ exists a, dir = a ++ [SL]) /\
  Split path = Ok (dir, lastElement path) /\ Dir path = Ok (cleanSpec dir) /\ Base path = Ok (baseSpec path) /\
  Ext path ⇓ (fun x => (x = [] /\ (DOT ∉ lastElement path)) \/ exists a b, lastElement path = a ++ x /\ x = DOT :: b /\ (DOT ∉ b)).
Proof.
  destruct (Split_spec path) as (dir & E & Ep & Hs & Hd). exists dir. split; [done|]. split; [done|]. split; [done|]. split; [done|].
  split; [unfold Dir; rewrite E; apply Clean_spec|]. split; [apply Base_spec|apply Ext_spec].
Qed.

(** ** Witnesses *)

(** The last position of a byte. *)
Fixpoint lastIndex (l : list Z) (c : Z) : Z :=
  match l with
  | [] => -1
  | d :: l => let i := lastIndex l c in if 0 <=? i then i + 1 else if d =? c then 0 else -1
  end.
#[export] Instance plainBytealg : Bytealg := lastIndex.
#[export] Instance plainBytealgLaws : BytealgLaws plainBytealg.
Proof.
  assert (B : forall l c, -1 <= lastIndex l c) by (induction l as [|d l IH]; intros c; cbn [lastIndex]; [lia|]; specialize (IH c); destruct (0 <=? _), (d =? c); lia).
  assert (A : forall l c, lastIndex l c < 0 -> c ∉ l).
  { induction l as [|d l IH]; intros c H; [apply not_elem_of_nil|]. cbn [lastIndex] in H. destruct (Z.leb_spec 0 (lastIndex l c)); [lia|].
    destruct (Z.eqb_spec d c); [lia|]. apply not_elem_of_cons. split; [congruence|]. by apply IH. }
  split.
  - induction l as [|d l IH]; intros c H; [done|]. unfold LastIndexByteString, plainBytealg in *. cbn [lastIndex] in *. destruct (Z.leb_spec 0 (lastIndex l c)) as [Hi|Hi].
    + destruct (IH c Hi) as (a & b & -> & -> & Hb). exists (d :: a), b. split; [done|]. split; [len_lia|done].
    + destruct (Z.eqb_spec d c) as [->|]; [|lia]. exists [], l. split; [done|]. split; [done|by apply A].
  - intros l c H. split; [specialize (B l c); unfold LastIndexByteString, plainBytealg in *; lia|by apply A].
Qed.

Lemma Join_correct_witness :
  Join (map str ["a"; ""; "../b"]%string) = Ok (str "b") /\
  (let! '(dir, file) := Split (str "/x//./y.go") in Join [dir; file]) = Ok (str "/x/y.go").
Proof.
  destruct Join_correct as [J S]. split; [rewrite J; vm_compute; reflexivity|]. rewrite S by done. vm_compute. reflexivity.
Defined.

Lemma Path_parts_witness :
  Base (str "/usr/lib//") = Ok (str "lib") /\ Split (str "/usr/lib//") = Ok (str "/usr/lib//", []) /\ Ext (str "a.b/c.tar.gz") = Ok (str ".gz").
Proof.
  destruct (Path_parts (str "/usr/lib//")) as (dir & _ & _ & _ & _ & _ & B & _). split; [rewrite B; vm_compute; reflexivity|]. split; vm_compute; reflexivity.
Defined.
