(* ===== verification/Lzw.v ===== *)
(** * Package compress/lzw: Lempel-Ziv-Welch compression

    src/compress/lzw/reader.go and writer.go, every function.  The byte source
    of a Reader is any [ByteReader] and the destination of a Writer any
    [writer], the two interfaces of the package; both may fail at each call.
    [toRead], a slice of the output array, is the pair of its bounds.  The
    counts of bits ([uint]) stay below 32 and are written without wrap-around;
    codes and bit buffers are kept at their 16 and 32 bits. *)
From Stdlib Require Import ZArith Lia.
From stdpp Require Import base numbers list.
From S2P Require Import Prelude.

(** ** Errors and interfaces *)

Inductive error :=
| EOF
| ErrUnexpectedEOF
| errClosed
| errOutOfCodes
| errUnknownOrder
| errLitWidth (litWidth : Z)
| errInvalidCode
| errTooLarge
| ioError (e : Z).

#[global] Instance error_eq_dec : EqDecision error.
Proof. solve_decision. Defined.

Class ByteReader (R : Type) := ReadByte : R -> (Z + error) * R.

Class writer (W : Type) := {
  WriteByte : W -> Z -> option error * W;
  Flush : W -> option error * W;
}.

Definition Order : Type := Z.
Definition LSB : Order := 0.
Definition MSB : Order := 1.

(** The values of the fields [read] and [write]. *)
Inductive codeFn := fnLSB | fnMSB.

Definition maxWidth : Z := 12.
Definition decoderInvalidCode : Z := 0xffff.
Definition flushBuffer : Z := Z.shiftl 1 maxWidth.

(** ** Reader *)

Record Reader (R : Type) := mkReader {
  r_r : option R;
  r_bits : Z;
  r_nBits : Z;
  r_width : Z;
  r_read : option codeFn;
  r_litWidth : Z;
  r_err : option error;
  r_clear : Z;
  r_eof : Z;
  r_hi : Z;
  r_overflow : Z;
  r_last : Z;
  r_suffix : list Z;
  r_prefix : list Z;
  r_output : list Z;
  r_o : Z;
  r_toRead : Z * Z;
}.
Arguments mkReader {R}.
Arguments r_r {R}.
Arguments r_bits {R}.
Arguments r_nBits {R}.
Arguments r_width {R}.
Arguments r_read {R}.
Arguments r_litWidth {R}.
Arguments r_err {R}.
Arguments r_clear {R}.
Arguments r_eof {R}.
Arguments r_hi {R}.
Arguments r_overflow {R}.
Arguments r_last {R}.
Arguments r_suffix {R}.
Arguments r_prefix {R}.
Arguments r_output {R}.
Arguments r_o {R}.
Arguments r_toRead {R}.

Section Decoder.
Context {R : Type} {BR : ByteReader R}.
Implicit Types r : Reader R.

(** [Reader{}] *)
Definition zeroTable : list Z := replicate (Z.to_nat (Z.shiftl 1 maxWidth)) 0.

Definition zeroReader : Reader R :=
  mkReader None 0 0 0 None 0 None 0 0 0 0 0 zeroTable zeroTable
    (replicate (Z.to_nat (Z.shiftl (2 * 1) maxWidth)) 0) 0 (0, 0).

(** Assignments to groups of fields. *)
Definition rSetBits r (src : option R) (bits nBits : Z) : Reader R :=
  mkReader src bits nBits (r_width r) (r_read r) (r_litWidth r) (r_err r) (r_clear r) (r_eof r) (r_hi r)
    (r_overflow r) (r_last r) (r_suffix r) (r_prefix r) (r_output r) (r_o r) (r_toRead r).
Definition rSetErr r (e : option error) : Reader R :=
  mkReader (r_r r) (r_bits r) (r_nBits r) (r_width r) (r_read r) (r_litWidth r) e (r_clear r) (r_eof r) (r_hi r)
    (r_overflow r) (r_last r) (r_suffix r) (r_prefix r) (r_output r) (r_o r) (r_toRead r).
Definition rSetCodes r (width hi overflow last : Z) : Reader R :=
  mkReader (r_r r) (r_bits r) (r_nBits r) width (r_read r) (r_litWidth r) (r_err r) (r_clear r) (r_eof r) hi
    overflow last (r_suffix r) (r_prefix r) (r_output r) (r_o r) (r_toRead r).
Definition rSetTables r (suffix prefix : list Z) : Reader R :=
  mkReader (r_r r) (r_bits r) (r_nBits r) (r_width r) (r_read r) (r_litWidth r) (r_err r) (r_clear r) (r_eof r)
    (r_hi r) (r_overflow r) (r_last r) suffix prefix (r_output r) (r_o r) (r_toRead r).
Definition rSetOutput r (output : list Z) (o : Z) : Reader R :=
  mkReader (r_r r) (r_bits r) (r_nBits r) (r_width r) (r_read r) (r_litWidth r) (r_err r) (r_clear r) (r_eof r)
    (r_hi r) (r_overflow r) (r_last r) (r_suffix r) (r_prefix r) output o (r_toRead r).
Definition rSetToRead r (o : Z) (toRead : Z * Z) : Reader R :=
  mkReader (r_r r) (r_bits r) (r_nBits r) (r_width r) (r_read r) (r_litWidth r) (r_err r) (r_clear r) (r_eof r)
    (r_hi r) (r_overflow r) (r_last r) (r_suffix r) (r_prefix r) (r_output r) o toRead.

(** [for r.nBits < r.width { x, err := r.r.ReadByte(); ...; r.nBits += 8 }],
    where [put] adds the byte to the bits. *)
Definition fillBits (put : Z -> Z -> Z -> Z) r : res (option error * Reader R) :=
  loop (S (Z.to_nat (r_width r)))
    (fun r =>
       if r_nBits r <? r_width r then
         match r_r r with
         | None => Panic
         | Some src =>
             let '(x, src') := ReadByte src in
             match x with
             | inr err => Ok (inr (Some err, rSetBits r (Some src') (r_bits r) (r_nBits r)))
             | inl x => Ok (inl (rSetBits r (Some src') (put (r_bits r) x (r_nBits r)) (r_nBits r + 8)))
             end
         end
       else Ok (inr (None, r))) r.

Definition readLSB r : res ((Z + error) * Reader R) :=
  let! '(err, r) := fillBits (fun bits x nBits => Z.lor bits (u32 (Z.shiftl x nBits))) r in
  match err with
  | Some err => Ok (inr err, r)
  | None =>
      let code := u16 (Z.land (r_bits r) (Z.shiftl 1 (r_width r) - 1)) in
      Ok (inl code, rSetBits r (r_r r) (Z.shiftr (r_bits r) (r_width r)) (r_nBits r - r_width r))
  end.

Definition readMSB r : res ((Z + error) * Reader R) :=
  let! '(err, r) := fillBits (fun bits x nBits => Z.lor bits (u32 (Z.shiftl x (24 - nBits)))) r in
  match err with
  | Some err => Ok (inr err, r)
  | None =>
      let code := u16 (Z.shiftr (r_bits r) (32 - r_width r)) in
      Ok (inl code, rSetBits r (r_r r) (u32 (Z.shiftl (r_bits r) (r_width r))) (r_nBits r - r_width r))
  end.

(** [r.read(r)] *)
Definition callRead r : res ((Z + error) * Reader R) :=
  match r_read r with
  | Some fnLSB => readLSB r
  | Some fnMSB => readMSB r
  | None => Panic
  end.

(** Save what the hi code expands to. *)
Definition saveHi r (b : Z) : res (Reader R) :=
  if r_last r =? decoderInvalidCode then Ok r else
  let! suffix := upd (r_suffix r) (r_hi r) (u8 b) in
  let! prefix := upd (r_prefix r) (r_hi r) (r_last r) in
  Ok (rSetTables r suffix prefix).

(** [for c >= r.clear { c = r.prefix[c] }] *)
Definition chainHead r (c : Z) : res Z :=
  loop (S (Z.to_nat (Z.shiftl 1 maxWidth)))
    (fun c => if c >=? r_clear r then (let! c := idx (r_prefix r) c in Ok (inl c)) else Ok (inr c)) c.

(** [for c >= r.clear { r.output[i] = r.suffix[c]; i--; c = r.prefix[c] }] *)
Definition copyChain r (output : list Z) (i c : Z) : res (list Z * Z * Z) :=
  loop (S (Z.to_nat (Z.shiftl 1 maxWidth)))
    (fun '(output, i, c) =>
       if c >=? r_clear r then
         let! s := idx (r_suffix r) c in
         let! output := upd output i s in
         let! c := idx (r_prefix r) c in
         Ok (inl (output, i - 1, c))
       else Ok (inr (output, i, c))) (output, i, c).

(** [copy(dst[o:], dst[i:])] and the number of bytes copied *)
Definition copyWithin (l : list Z) (o i : Z) : res (list Z * Z) :=
  let! dst := slice_from l o in
  let! src := slice_from l i in
  let n := Nat.min (length dst) (length src) in
  Ok (take (Z.to_nat o) l ++ take n src ++ drop n dst, Z.of_nat n).

(** The case of a code that is not a literal, in the range of the table. *)
Definition decodeCode r (code : Z) : res (Reader R) :=
  let i := len (r_output r) - 1 in
  let! '(output, i, c) :=
    if (code =? r_hi r) && negb (r_last r =? decoderInvalidCode) then
      let! c := chainHead r (r_last r) in
      let! output := upd (r_output r) i (u8 c) in
      Ok (output, i - 1, r_last r)
    else Ok (r_output r, i, code) in
  let! '(output, i, c) := copyChain r output i c in
  let! output := upd output i (u8 c) in
  let! '(output, n) := copyWithin output (r_o r) i in
  saveHi (rSetOutput r output (r_o r + n)) c.

(** The end of the body of the loop: the code is the last one seen. *)
Definition nextCode r (code : Z) : res (Reader R) :=
  let r := rSetCodes r (r_width r) (u16 (r_hi r + 1)) (r_overflow r) code in
  if r_hi r >=? r_overflow r then
    if r_hi r >? r_overflow r then Panic else
    if r_width r =? maxWidth then Ok (rSetCodes r (r_width r) (u16 (r_hi r - 1)) (r_overflow r) decoderInvalidCode)
    else Ok (rSetCodes r (r_width r + 1) (r_hi r) (u16 (Z.shiftl 1 (r_width r + 1))) (r_last r))
  else Ok r.

(** One round of the loop of decode. *)
Definition decodeStep r : res (Reader R + Reader R) :=
  let! '(code, r) := callRead r in
  match code with
  | inr err =>
      let err := if decide (err = EOF) then ErrUnexpectedEOF else err in
      Ok (inr (rSetErr r (Some err)))
  | inl code =>
      let finish r :=
        let! r := nextCode r code in
        if r_o r >=? flushBuffer then Ok (inr r) else Ok (inl r) in
      if code <? r_clear r then
        let! output := upd (r_output r) (r_o r) (u8 code) in
        let! r := saveHi (rSetOutput r output (r_o r + 1)) code in
        finish r
      else if code =? r_clear r then
        let width := 1 + r_litWidth r in
        Ok (inl (rSetCodes r width (r_eof r) (u16 (Z.shiftl 1 width)) decoderInvalidCode))
      else if code =? r_eof r then Ok (inr (rSetErr r (Some EOF)))
      else if code <=? r_hi r then
        let! r := decodeCode r code in
        finish r
      else Ok (inr (rSetErr r (Some errInvalidCode)))
  end.

(** [fuel]: rounds of the loop, one for each code. *)
Definition decode (fuel : nat) r : res (Reader R) :=
  let! r := loop fuel decodeStep r in
  Ok (rSetToRead r 0 (0, r_o r)).

(** One round of the loop of Read, for a buffer of [n] bytes. *)
Definition readRound (fuel : nat) (n : Z) r : res (Reader R + (list Z * option error * Reader R)) :=
  let '(lo, hi) := r_toRead r in
  if hi - lo >? 0 then
    let k := Z.min n (hi - lo) in
    let! b := slice (r_output r) lo (lo + k) in
    Ok (inr (b, None, rSetToRead r (r_o r) (lo + k, hi)))
  else
    match r_err r with
    | Some err => Ok (inr ([], Some err, r))
    | None => let! r := decode fuel r in Ok (inl r)
    end.

(** [Read(b)] for a buffer of [n] bytes: what it puts in the buffer and the
    error.  A call of decode leaves bytes to read or an error, so there are at
    most two rounds. *)
Definition Reader_Read (fuel : nat) r (n : Z) : res (list Z * option error * Reader R) :=
  loop 3 (readRound fuel n) r.

Definition Reader_Close r : option error * Reader R := (None, rSetErr r (Some errClosed)).

Definition Reader_init r (src : R) (order : Order) (litWidth : Z) : Reader R :=
  let start read :=
    if (litWidth <? 2) || (8 <? litWidth) then
      mkReader (r_r r) (r_bits r) (r_nBits r) (r_width r) (Some read) (r_litWidth r) (Some (errLitWidth litWidth))
        (r_clear r) (r_eof r) (r_hi r) (r_overflow r) (r_last r) (r_suffix r) (r_prefix r) (r_output r) (r_o r)
        (r_toRead r)
    else
      let width := 1 + litWidth in
      let clear := u16 (Z.shiftl 1 litWidth) in
      mkReader (Some src) (r_bits r) (r_nBits r) width (Some read) litWidth (r_err r)
        clear (u16 (clear + 1)) (u16 (clear + 1)) (u16 (Z.shiftl 1 width)) decoderInvalidCode
        (r_suffix r) (r_prefix r) (r_output r) (r_o r) (r_toRead r) in
  if order =? LSB then start fnLSB
  else if order =? MSB then start fnMSB
  else rSetErr r (Some errUnknownOrder).

Definition Reader_Reset r (src : R) (order : Order) (litWidth : Z) : Reader R :=
  Reader_init zeroReader src order litWidth.

Definition newReader (src : R) (order : Order) (litWidth : Z) : Reader R :=
  Reader_init zeroReader src order litWidth.

Definition NewReader (src : R) (order : Order) (litWidth : Z) : Reader R := newReader src order litWidth.
End Decoder.

(** ** Writer *)

Definition maxCode : Z := Z.shiftl 1 12 - 1.
Definition invalidCode : Z := Z.shiftl 1 32 - 1.
Definition tableSize : Z := Z.shiftl (4 * 1) 12.
Definition tableMask : Z := tableSize - 1.
Definition invalidEntry : Z := 0.

Record Writer (W : Type) := mkWriter {
  w_w : option W;
  w_litWidth : Z;
  w_order : Order;
  w_write : option codeFn;
  w_nBits : Z;
  w_width : Z;
  w_bits : Z;
  w_hi : Z;
  w_overflow : Z;
  w_savedCode : Z;
  w_err : option error;
  w_table : list Z;
}.
Arguments mkWriter {W}.
Arguments w_w {W}.
Arguments w_litWidth {W}.
Arguments w_order {W}.
Arguments w_write {W}.
Arguments w_nBits {W}.
Arguments w_width {W}.
Arguments w_bits {W}.
Arguments w_hi {W}.
Arguments w_overflow {W}.
Arguments w_savedCode {W}.
Arguments w_err {W}.
Arguments w_table {W}.

Section Encoder.
Context {W : Type} {WR : writer W}.
Implicit Types w : Writer W.

(** [Writer{}] *)
Definition zeroWriter : Writer W := mkWriter None 0 0 None 0 0 0 0 0 0 None (replicate (Z.to_nat tableSize) 0).

(** Assignments to groups of fields. *)
Definition wSetBits w (dst : option W) (bits nBits : Z) : Writer W :=
  mkWriter dst (w_litWidth w) (w_order w) (w_write w) nBits (w_width w) bits (w_hi w) (w_overflow w)
    (w_savedCode w) (w_err w) (w_table w).
Definition wSetCodes w (width hi overflow : Z) : Writer W :=
  mkWriter (w_w w) (w_litWidth w) (w_order w) (w_write w) (w_nBits w) width (w_bits w) hi overflow
    (w_savedCode w) (w_err w) (w_table w).
Definition wSetSaved w (code : Z) : Writer W :=
  mkWriter (w_w w) (w_litWidth w) (w_order w) (w_write w) (w_nBits w) (w_width w) (w_bits w) (w_hi w)
    (w_overflow w) code (w_err w) (w_table w).
Definition wSetErr w (e : option error) : Writer W :=
  mkWriter (w_w w) (w_litWidth w) (w_order w) (w_write w) (w_nBits w) (w_width w) (w_bits w) (w_hi w)
    (w_overflow w) (w_savedCode w) e (w_table w).
Definition wSetTable w (table : list Z) : Writer W :=
  mkWriter (w_w w) (w_litWidth w) (w_order w) (w_write w) (w_nBits w) (w_width w) (w_bits w) (w_hi w)
    (w_overflow w) (w_savedCode w) (w_err w) table.

(** [w.w.WriteByte(b)] *)
Definition putByte w (b : Z) : res (option error * Writer W) :=
  match w_w w with
  | None => Panic
  | Some dst => let '(err, dst') := WriteByte dst b in Ok (err, wSetBits w (Some dst') (w_bits w) (w_nBits w))
  end.

(** [for w.nBits >= 8 { if err := w.w.WriteByte(..) ..; w.nBits -= 8 }], where
    [first] is the next byte and [next] drops it. *)
Definition drainBits (first next : Z -> Z) w : res (option error * Writer W) :=
  loop (S (Z.to_nat (w_nBits w)))
    (fun w =>
       if w_nBits w >=? 8 then
         let! '(err, w) := putByte w (first (w_bits w)) in
         match err with
         | Some err => Ok (inr (Some err, w))
         | None => Ok (inl (wSetBits w (w_w w) (next (w_bits w)) (w_nBits w - 8)))
         end
       else Ok (inr (None, w))) w.

Definition writeLSB w (c : Z) : res (option error * Writer W) :=
  let w := wSetBits w (w_w w) (Z.lor (w_bits w) (u32 (Z.shiftl c (w_nBits w)))) (w_nBits w + w_width w) in
  drainBits (fun bits => u8 bits) (fun bits => Z.shiftr bits 8) w.

Definition writeMSB w (c : Z) : res (option error * Writer W) :=
  let w := wSetBits w (w_w w) (Z.lor (w_bits w) (u32 (Z.shiftl c (32 - w_width w - w_nBits w))))
             (w_nBits w + w_width w) in
  drainBits (fun bits => u8 (Z.shiftr bits 24)) (fun bits => u32 (Z.shiftl bits 8)) w.

(** [w.write(w, c)] *)
Definition callWrite w (c : Z) : res (option error * Writer W) :=
  match w_write w with
  | Some fnLSB => writeLSB w c
  | Some fnMSB => writeMSB w c
  | None => Panic
  end.

Definition incHi w : res (option error * Writer W) :=
  let w := wSetCodes w (w_width w) (u32 (w_hi w + 1)) (w_overflow w) in
  let w := if w_hi w =? w_overflow w
           then wSetCodes w (w_width w + 1) (w_hi w) (u32 (Z.shiftl (w_overflow w) 1)) else w in
  if w_hi w =? maxCode then
    let clear := u32 (Z.shiftl 1 (w_litWidth w)) in
    let! '(err, w) := callWrite w clear in
    match err with
    | Some err => Ok (Some err, w)
    | None =>
        let w := wSetCodes w (w_litWidth w + 1) (u32 (clear + 1)) (u32 (Z.shiftl clear 1)) in
        Ok (Some errOutOfCodes, wSetTable w (map (fun _ => invalidEntry) (w_table w)))
    end
  else Ok (None, w).

Definition hashOf (key : Z) : Z := Z.land (Z.lxor (Z.shiftr key 12) key) tableMask.

(** [for h, t := hash, w.table[hash]; t != invalidEntry; { .. }]: the code of
    the key, if the table has one. *)
Definition probe (table : list Z) (key hash : Z) : res (option Z) :=
  let! t := idx table hash in
  loop (S (Z.to_nat tableSize))
    (fun '(h, t) =>
       if negb (t =? invalidEntry) then
         if key =? Z.shiftr t 12 then Ok (inr (Some (Z.land t maxCode)))
         else
           let h := Z.land (u32 (h + 1)) tableMask in
           let! t := idx table h in
           Ok (inl (h, t))
       else Ok (inr None)) (hash, t).

(** [for { if w.table[hash] == invalidEntry { .. break }; hash = .. }] *)
Definition insertEntry (table : list Z) (hash entry : Z) : res (list Z) :=
  loop (S (Z.to_nat tableSize))
    (fun hash =>
       let! t := idx table hash in
       if t =? invalidEntry then
         let! table := upd table hash entry in
         Ok (inr table)
       else Ok (inl (Z.land (u32 (hash + 1)) tableMask))) hash.

(** One round of the loop over [p]: the new code, or the error that ends it. *)
Definition writeStep w (code x : Z) : res ((Z + error) * Writer W) :=
  let literal := x in
  let key := Z.lor (u32 (Z.shiftl code 8)) literal in
  let hash := hashOf key in
  let! hit := probe (w_table w) key hash in
  match hit with
  | Some code => Ok (inl code, w)
  | None =>
      let! '(err, w) := callWrite w code in
      let w := wSetErr w err in
      match err with
      | Some err => Ok (inr err, w)
      | None =>
          let! '(err1, w) := incHi w in
          match err1 with
          | Some err1 =>
              if decide (err1 = errOutOfCodes) then Ok (inl literal, w)
              else Ok (inr err1, wSetErr w (Some err1))
          | None =>
              let! table := insertEntry (w_table w) hash (Z.lor (u32 (Z.shiftl key 12)) (w_hi w)) in
              Ok (inl literal, wSetTable w table)
          end
      end
  end.

Fixpoint writeLoop w (code : Z) (p : list Z) : res ((Z + error) * Writer W) :=
  match p with
  | [] => Ok (inl code, w)
  | x :: p =>
      let! '(out, w) := writeStep w code x in
      match out with
      | inl code => writeLoop w code p
      | inr err => Ok (inr err, w)
      end
  end.

Definition Writer_Write w (p : list Z) : res (Z * option error * Writer W) :=
  match w_err w with
  | Some err => Ok (0, Some err, w)
  | None =>
      if len p =? 0 then Ok (0, None, w) else
      let maxLit := u8 (Z.shiftl 1 (w_litWidth w) - 1) in
      if negb (maxLit =? 0xff) && existsb (fun x => x >? maxLit) p
      then Ok (0, Some errTooLarge, wSetErr w (Some errTooLarge)) else
      let n := len p in
      let code := w_savedCode w in
      let run w code p :=
        let! '(out, w) := writeLoop w code p in
        match out with
        | inl code => Ok (n, None, wSetSaved w code)
        | inr err => Ok (0, Some err, w)
        end in
      if code =? invalidCode then
        let clear := u32 (Z.shiftl 1 (w_litWidth w)) in
        let! '(err, w) := callWrite w clear in
        match err with
        | Some err => Ok (0, Some err, w)
        | None =>
            let! x := idx p 0 in
            let! p := slice_from p 1 in
            run w x p
        end
      else run w code p
  end.

(** The last bits and the flush of Close. *)
Definition closeBits w : res (option error * Writer W) :=
  let flush w :=
    match w_w w with
    | None => Panic
    | Some dst => let '(err, dst') := Flush dst in Ok (err, wSetBits w (Some dst') (w_bits w) (w_nBits w))
    end in
  if w_nBits w >? 0 then
    let w := if w_order w =? MSB then wSetBits w (w_w w) (Z.shiftr (w_bits w) 24) (w_nBits w) else w in
    let! '(err, w) := putByte w (u8 (w_bits w)) in
    match err with
    | Some err => Ok (Some err, w)
    | None => flush w
    end
  else flush w.

Definition Writer_Close w : res (option error * Writer W) :=
  match w_err w with
  | Some err => if decide (err = errClosed) then Ok (None, w) else Ok (Some err, w)
  | None =>
      let w := wSetErr w (Some errClosed) in
      let! '(err, w) :=
        if negb (w_savedCode w =? invalidCode) then
          let! '(err, w) := callWrite w (w_savedCode w) in
          match err with
          | Some err => Ok (Some err, w)
          | None =>
              let! '(err, w) := incHi w in
              match err with
              | Some err => if decide (err = errOutOfCodes) then Ok (None, w) else Ok (Some err, w)
              | None => Ok (None, w)
              end
          end
        else callWrite w (u32 (Z.shiftl 1 (w_litWidth w))) in
      match err with
      | Some err => Ok (Some err, w)
      | None =>
          let eof := u32 (u32 (Z.shiftl 1 (w_litWidth w)) + 1) in
          let! '(err, w) := callWrite w eof in
          match err with
          | Some err => Ok (Some err, w)
          | None => closeBits w
          end
      end
  end.

Definition Writer_init w (dst : W) (order : Order) (litWidth : Z) : Writer W :=
  let start write :=
    if (litWidth <? 2) || (8 <? litWidth) then
      mkWriter (w_w w) (w_litWidth w) (w_order w) (Some write) (w_nBits w) (w_width w) (w_bits w) (w_hi w)
        (w_overflow w) (w_savedCode w) (Some (errLitWidth litWidth)) (w_table w)
    else
      mkWriter (Some dst) litWidth order (Some write) (w_nBits w) (1 + litWidth) (w_bits w)
        (u32 (Z.shiftl 1 litWidth + 1)) (u32 (Z.shiftl 1 (litWidth + 1))) invalidCode (w_err w) (w_table w) in
  if order =? LSB then start fnLSB
  else if order =? MSB then start fnMSB
  else wSetErr w (Some errUnknownOrder).

Definition Writer_Reset w (dst : W) (order : Order) (litWidth : Z) : Writer W :=
  Writer_init zeroWriter dst order litWidth.

Definition newWriter (dst : W) (order : Order) (litWidth : Z) : Writer W :=
  Writer_init zeroWriter dst order litWidth.

Definition NewWriter (dst : W) (order : Order) (litWidth : Z) : Writer W := newWriter dst order litWidth.
End Encoder.
