(* ===== verification/LzwBits.v ===== *)
(** * compress/lzw: codes as bits

    A stream of codes is a list of bits.  [bitsOf f n x] are the n bits of x in
    the order of f, the least or the most significant first; [pend] says which
    bits a buffer of the Reader or of the Writer holds. *)
From Stdlib Require Import ZArith Lia.
From stdpp Require Import base numbers list.
From S2P Require Import Prelude Lzw.

(** ** Bits of numbers *)

Fixpoint bitsL (n : nat) (x : Z) : list bool :=
  match n with
  | O => []
  | S n => Z.odd x :: bitsL n (Z.div2 x)
  end.

Fixpoint valL (l : list bool) : Z :=
  match l with
  | [] => 0
  | b :: l => Z.b2z b + 2 * valL l
  end.

Definition bitsOf (f : codeFn) (n x : Z) : list bool :=
  match f with
  | fnLSB => bitsL (Z.to_nat n) x
  | fnMSB => reverse (bitsL (Z.to_nat n) x)
  end.

Definition valOf (f : codeFn) (l : list bool) : Z :=
  match f with
  | fnLSB => valL l
  | fnMSB => valL (reverse l)
  end.

Definition bytesBits (f : codeFn) (l : list Z) : list bool := concat (map (bitsOf f 8) l).

Lemma bitsL_length n x : length (bitsL n x) = n.
Proof. revert x. induction n; simpl; auto. Qed.

Lemma bitsOf_length f n x : length (bitsOf f n x) = Z.to_nat n.
Proof. destruct f; simpl; rewrite ?length_reverse; apply bitsL_length. Qed.

Lemma bitsL_app n m x : bitsL (n + m) x = bitsL n x ++ bitsL m (x / 2 ^ Z.of_nat n).
Proof.
  revert x. induction n as [|n IH]; intros x; simpl; [by rewrite Z.div_1_r|].
  f_equal. rewrite IH, Z.div2_div, Z.div_div, <- Z.pow_succ_r by lia.
  do 4 f_equal. lia.
Qed.

Lemma odd_mod_pow x m : 0 < m -> Z.odd (x mod 2 ^ m) = Z.odd x.
Proof.
  intros. rewrite <- !Z.bit0_odd. rewrite Z.mod_pow2_bits_low; [done | lia].
Qed.

Lemma bitsL_mod n m x : Z.of_nat n <= m -> bitsL n (x mod 2 ^ m) = bitsL n x.
Proof.
  revert m x. induction n as [|n IH]; intros m x Hm; simpl; [done|].
  rewrite odd_mod_pow by lia. f_equal.
  rewrite !Z.div2_div. replace m with (1 + (m - 1)) by lia.
  rewrite Z.pow_add_r, Z.pow_1_r by lia.
  rewrite Z.rem_mul_r by lia.
  replace ((x mod 2 + 2 * ((x / 2) mod 2 ^ (m - 1))) / 2) with ((x / 2) mod 2 ^ (m - 1)).
  - apply IH. lia.
  - rewrite Z.mul_comm, Z.div_add by lia. rewrite (Z.div_small (x mod 2)); [done|].
    apply Z.mod_pos_bound. lia.
Qed.

Lemma valL_bitsL n x : 0 <= x < 2 ^ Z.of_nat n -> valL (bitsL n x) = x.
Proof.
  revert x. induction n as [|n IH]; intros x Hx; simpl; [lia|].
  rewrite Nat2Z.inj_succ, Z.pow_succ_r in Hx by lia.
  rewrite IH; [rewrite (Z.div2_odd x) at 3; lia|].
  rewrite Z.div2_div. zdm.
Qed.

Lemma valOf_bitsOf f n x : 0 <= n -> 0 <= x < 2 ^ n -> valOf f (bitsOf f n x) = x.
Proof.
  intros Hn Hx. destruct f; simpl; rewrite ?reverse_involutive; apply valL_bitsL; by rewrite Z2Nat.id.
Qed.

Lemma valL_range l : 0 <= valL l < 2 ^ Z.of_nat (length l).
Proof.
  induction l as [|b l IH]; simpl; [lia|].
  rewrite Nat2Z.inj_succ, Z.pow_succ_r by lia. destruct b; simpl; lia.
Qed.

Lemma bitsL_valL l : bitsL (length l) (valL l) = l.
Proof.
  induction l as [|b l IH]; simpl; [done|].
  rewrite Z.odd_add_mul_2. f_equal; [by destruct b|].
  rewrite Z.div2_div, Z.mul_comm, Z.div_add by lia.
  rewrite (Z.div_small (Z.b2z b)) by (destruct b; simpl; lia). done.
Qed.

Lemma valOf_range f l : 0 <= valOf f l < 2 ^ len l.
Proof.
  unfold len. destruct f; simpl; [apply valL_range|]. rewrite <- length_reverse. apply valL_range.
Qed.

Lemma bitsOf_valOf f l : bitsOf f (len l) (valOf f l) = l.
Proof.
  unfold len. destruct f; simpl; rewrite Nat2Z.id; [apply bitsL_valL|].
  rewrite <- (length_reverse l), bitsL_valL. apply reverse_involutive.
Qed.

(** Two numbers side by side, in the order of the stream. *)
Definition cat (f : codeFn) (n x m y : Z) : Z :=
  match f with
  | fnLSB => x + y * 2 ^ n
  | fnMSB => x * 2 ^ m + y
  end.

Lemma bitsOf_cat f n x m y :
  0 <= n -> 0 <= m -> 0 <= x < 2 ^ n -> 0 <= y < 2 ^ m ->
  bitsOf f (n + m) (cat f n x m y) = bitsOf f n x ++ bitsOf f m y.
Proof.
  intros Hn Hm Hx Hy. destruct f; simpl.
  - rewrite Z2Nat.inj_add, bitsL_app by lia. rewrite Z2Nat.id by lia. f_equal.
    + rewrite <- (bitsL_mod (Z.to_nat n) n) by lia. rewrite Z.mod_add by lia.
      by rewrite Z.mod_small.
    + rewrite Z.div_add by lia. by rewrite Z.div_small.
  - rewrite <- reverse_app. f_equal. rewrite (Z.add_comm n m), Z2Nat.inj_add, bitsL_app by lia.
    rewrite Z2Nat.id by lia. f_equal.
    + rewrite <- (bitsL_mod (Z.to_nat m) m) by lia. rewrite Z.add_comm, Z.mod_add by lia.
      by rewrite Z.mod_small.
    + rewrite Z.add_comm, Z.div_add by lia. by rewrite Z.div_small.
Qed.

Lemma cat_range f n x m y :
  0 <= n -> 0 <= m -> 0 <= x < 2 ^ n -> 0 <= y < 2 ^ m -> 0 <= cat f n x m y < 2 ^ (n + m).
Proof. intros. rewrite Z.pow_add_r by lia. destruct f; simpl; nia. Qed.

Lemma bytesBits_length f l : length (bytesBits f l) = (8 * length l)%nat.
Proof.
  induction l as [|x l IH]; [done|]. unfold bytesBits in *. simpl.
  rewrite length_app, IH, bitsOf_length. simpl length. lia.
Qed.

Lemma bytesBits_app f l k : bytesBits f (l ++ k) = bytesBits f l ++ bytesBits f k.
Proof. unfold bytesBits. by rewrite map_app, concat_app. Qed.

Lemma bytesBits_cons f x l : bytesBits f (x :: l) = bitsOf f 8 x ++ bytesBits f l.
Proof. done. Qed.

(** ** Buffers of bits *)

(** The n bits [B] wait in the buffer [bits]. *)
Definition pend (f : codeFn) (bits n : Z) (B : list bool) : Prop :=
  0 <= n <= 32 /\
  exists v, 0 <= v < 2 ^ n /\ B = bitsOf f n v /\
    bits = match f with fnLSB => v | fnMSB => v * 2 ^ (32 - n) end.

Definition putBits (f : codeFn) (k bits x n : Z) : Z :=
  match f with
  | fnLSB => Z.lor bits (u32 (Z.shiftl x n))
  | fnMSB => Z.lor bits (u32 (Z.shiftl x (32 - k - n)))
  end.

Definition topBits (f : codeFn) (k bits : Z) : Z :=
  match f with
  | fnLSB => bits mod 2 ^ k
  | fnMSB => Z.shiftr bits (32 - k)
  end.

Definition dropBits (f : codeFn) (k bits : Z) : Z :=
  match f with
  | fnLSB => Z.shiftr bits k
  | fnMSB => u32 (Z.shiftl bits k)
  end.

Lemma pend_length f bits n B : pend f bits n B -> length B = Z.to_nat n.
Proof. intros (? & v & ? & -> & ?). apply bitsOf_length. Qed.

Lemma pend_empty f : pend f 0 0 [].
Proof. split; [lia|]. exists 0. destruct f; simpl; repeat split; lia. Qed.

Lemma pend_put f bits n B k x :
  pend f bits n B -> 0 <= k -> n + k <= 32 -> 0 <= x < 2 ^ k ->
  pend f (putBits f k bits x n) (n + k) (B ++ bitsOf f k x).
Proof.
  intros (Hn & v & Hv & -> & ->) Hk Hnk Hx. split; [lia|]. exists (cat f n v k x).
  split; [apply cat_range; lia|]. split; [by rewrite bitsOf_cat by lia|].
  assert (Hp : 0 < 2 ^ n) by lia. assert (Hpk : 0 < 2 ^ k) by lia.
  assert (Hs : 2 ^ (n + k) <= 2 ^ 32) by (apply Z.pow_le_mono_r; lia).
  rewrite Z.pow_add_r in Hs by lia.
  destruct f; simpl; rewrite shiftl_mul by lia.
  - rewrite u32_id by nia. rewrite Z.lor_comm, (lor_disjoint_mul _ _ n) by lia. lia.
  - set (q := 32 - k - n). assert (Hq : 2 ^ 32 = 2 ^ n * 2 ^ k * 2 ^ q).
    { rewrite <- !Z.pow_add_r by lia. f_equal. unfold q. lia. }
    assert (0 < 2 ^ q) by (apply Z.pow_pos_nonneg; unfold q; lia).
    rewrite u32_id by (rewrite Hq; nia).
    replace (32 - n) with (k + q) by (unfold q; lia). replace (32 - (n + k)) with q by (unfold q; lia).
    rewrite (lor_disjoint_mul _ _ (k + q)).
    + rewrite Z.pow_add_r by (unfold q; lia). lia.
    + unfold q; lia.
    + rewrite Z.pow_add_r by (unfold q; lia). nia.
Qed.

Lemma pend_take f bits n B k :
  pend f bits n B -> 0 <= k <= n ->
  exists B', B = bitsOf f k (topBits f k bits) ++ B' /\ 0 <= topBits f k bits < 2 ^ k /\
    pend f (dropBits f k bits) (n - k) B'.
Proof.
  intros (Hn & v & Hv & -> & ->) Hk.
  assert (Hp : 2 ^ n = 2 ^ k * 2 ^ (n - k)) by (rewrite <- Z.pow_add_r by lia; f_equal; lia).
  assert (0 < 2 ^ k) by lia. assert (0 < 2 ^ (n - k)) by lia.
  destruct f; cbn [topBits dropBits].
  - assert (Hd : 0 <= v / 2 ^ k < 2 ^ (n - k)).
    { split; [apply Z.div_pos; lia | apply Z.div_lt_upper_bound; nia]. }
    assert (Hm : 0 <= v mod 2 ^ k < 2 ^ k) by (apply Z.mod_pos_bound; lia).
    exists (bitsOf fnLSB (n - k) (v / 2 ^ k)). split_and!.
    + pose proof (bitsOf_cat fnLSB k (v mod 2 ^ k) (n - k) (v / 2 ^ k)) as E.
      rewrite <- E by lia. cbn [cat]. f_equal; [lia|]. rewrite (Z.div_mod v (2 ^ k)) at 1; lia.
    + lia.
    + lia.
    + split; [lia|]. exists (v / 2 ^ k). rewrite shiftr_div by lia. done.
  - assert (H32 : 2 ^ (32 - k) = 2 ^ (n - k) * 2 ^ (32 - n)) by (rewrite <- Z.pow_add_r by lia; f_equal; lia).
    assert (0 < 2 ^ (32 - n)) by lia.
    assert (Et : Z.shiftr (v * 2 ^ (32 - n)) (32 - k) = v / 2 ^ (n - k)).
    { rewrite shiftr_div, H32 by lia. apply Z.div_mul_cancel_r; lia. }
    assert (Hd : 0 <= v / 2 ^ (n - k) < 2 ^ k).
    { split; [apply Z.div_pos; lia | apply Z.div_lt_upper_bound; nia]. }
    assert (Hm : 0 <= v mod 2 ^ (n - k) < 2 ^ (n - k)) by (apply Z.mod_pos_bound; lia).
    rewrite Et. exists (bitsOf fnMSB (n - k) (v mod 2 ^ (n - k))). split_and!.
    + pose proof (bitsOf_cat fnMSB k (v / 2 ^ (n - k)) (n - k) (v mod 2 ^ (n - k))) as E.
      rewrite <- E by lia. cbn [cat]. f_equal; [lia|]. rewrite (Z.div_mod v (2 ^ (n - k))) at 1; lia.
    + lia.
    + lia.
    + split; [lia|]. exists (v mod 2 ^ (n - k)). split; [done|]. split; [done|].
      rewrite shiftl_mul by lia. unfold u32.
      replace (2 ^ 32) with (2 ^ (n - k) * 2 ^ (32 - (n - k))) by (rewrite <- Z.pow_add_r by lia; f_equal; lia).
      rewrite <- Z.mul_assoc, <- Z.pow_add_r by lia. replace (32 - n + k) with (32 - (n - k)) by lia.
      by rewrite Z.mul_mod_distr_r by lia.
Qed.
