(* ===== verification/LzwDict.v ===== *)
(** * compress/lzw: the algorithm

    The specification of the package: the decoder as steps over a stream of
    bits with a dictionary of strings, and the greedy encoder, which emits the
    code of the longest string of the dictionary that continues the input.  The
    two keep the same dictionary, one string apart, so decoding undoes encoding. *)
From Stdlib Require Import ZArith Lia.
From stdpp Require Import base numbers list.
From S2P Require Import Prelude Lzw LzwBits.

Section Codes.
Variable lit : Z.

Definition clearOf : Z := 2 ^ lit.
Definition eofOf : Z := 2 ^ lit + 1.

(** The width of codes up to [hi]. *)
Definition widthOf (hi : Z) : Z := Z.max (lit + 1) (Z.log2 hi + 1).

(** The string of a code, in a dictionary whose first code is [eofOf + 1]. *)
Definition expOf (E : list (list Z)) (c : Z) : option (list Z) :=
  if (0 <=? c) && (c <? clearOf) then Some [c]
  else if c <=? eofOf then None
  else E !! Z.to_nat (c - eofOf - 1).

(** ** Decoding *)

(** [pending] is the last string decoded, the start of the next entry. *)
Record dict := mkDict { strings : list (list Z); pending : option (list Z) }.

Definition emptyDict : dict := mkDict [] None.

Definition hiOf (d : dict) : Z :=
  eofOf + len (strings d) + match pending d with Some _ => 1 | None => 0 end.

Definition strOf (d : dict) (c : Z) : option (list Z) :=
  match expOf (strings d) c with
  | Some s => Some s
  | None =>
      if c =? eofOf + 1 + len (strings d)
      then option_map (fun l => l ++ take 1 l) (pending d) else None
  end.

Definition learn (d : dict) (s : list Z) : dict :=
  let E := match pending d with
           | Some l => strings d ++ [l ++ take 1 s]
           | None => strings d
           end in
  mkDict E (if eofOf + 1 + len E <=? maxCode then Some s else None).

(** One code; [e] is the error at the end of the bits. *)
Definition decStep (f : codeFn) (e : error) (bits : list bool) (d : dict) :
    (list Z * list bool * dict) + error :=
  let w := widthOf (hiOf d) in
  if len bits <? w then inr (if decide (e = EOF) then ErrUnexpectedEOF else e) else
  let code := valOf f (take (Z.to_nat w) bits) in
  let rest := drop (Z.to_nat w) bits in
  if code =? clearOf then inl ([], rest, emptyDict)
  else if code =? eofOf then inr EOF
  else match strOf d code with
       | Some s => inl (s, rest, learn d s)
       | None => inr errInvalidCode
       end.

(** The bytes and the error that the bits decode to. *)
Inductive produces (f : codeFn) (e : error) : list bool -> dict -> list Z -> error -> Prop :=
| produces_end bits d err : decStep f e bits d = inr err -> produces f e bits d [] err
| produces_step bits d s bits' d' out err :
    decStep f e bits d = inl (s, bits', d') -> produces f e bits' d' out err ->
    produces f e bits d (s ++ out) err.

(** Some codes decoded. *)
Inductive runs (f : codeFn) (e : error) : list bool -> dict -> list Z -> list bool -> dict -> Prop :=
| runs_nil bits d : runs f e bits d [] bits d
| runs_cons bits d s bits' d' out bits'' d'' :
    decStep f e bits d = inl (s, bits', d') -> runs f e bits' d' out bits'' d'' ->
    runs f e bits d (s ++ out) bits'' d''.

(** ** Encoding *)

Definition encCode (E : list (list Z)) (s : list Z) : Z :=
  match s with
  | [b] => b
  | _ => match list_find (eq s) E with
         | Some (i, _) => eofOf + 1 + Z.of_nat i
         | None => 0
         end
  end.

(** The codes that leave the encoder, each with its width. *)
Definition emit (E : list (list Z)) (cur : list Z) : list (Z * Z) :=
  let h := eofOf + len E in
  (widthOf h, encCode E cur) :: if h + 1 =? maxCode then [(widthOf (h + 1), clearOf)] else [].

Definition encStep (st : list (list Z) * list Z) (x : Z) : list (Z * Z) * (list (list Z) * list Z) :=
  let '(E, cur) := st in
  if decide (cur ++ [x] ∈ E) then ([], (E, cur ++ [x]))
  else (emit E cur, (if eofOf + len E + 1 =? maxCode then [] else E ++ [cur ++ [x]], [x])).

Fixpoint encLoop (st : list (list Z) * list Z) (p : list Z) : list (Z * Z) * (list (list Z) * list Z) :=
  match p with
  | [] => ([], st)
  | x :: p =>
      let '(out, st) := encStep st x in
      let '(outs, st) := encLoop st p in
      (out ++ outs, st)
  end.

(** The width at which the code after [emit E cur] is written. *)
Definition widthAfter (E : list (list Z)) : Z :=
  if eofOf + len E + 1 =? maxCode then widthOf eofOf else widthOf (eofOf + len E + 1).

Definition encode (p : list Z) : list (Z * Z) :=
  (lit + 1, clearOf) ::
  match p with
  | [] => [(lit + 1, eofOf)]
  | x :: p =>
      let '(outs, (E, cur)) := encLoop ([], [x]) p in
      outs ++ emit E cur ++ [(widthAfter E, eofOf)]
  end.

Definition codesBits (f : codeFn) (l : list (Z * Z)) : list bool :=
  concat (map (fun '(w, c) => bitsOf f w c) l).

(** ** Widths *)

Hypothesis Hlit : 2 <= lit <= 8.

Lemma clear_range : 4 <= clearOf <= 256.
Proof. unfold clearOf. change 4 with (2 ^ 2). change 256 with (2 ^ 8). split; apply Z.pow_le_mono_r; lia. Qed.

Lemma eof_clear : eofOf = clearOf + 1.
Proof. done. Qed.

Lemma eof_range : 5 <= eofOf <= 257.
Proof. pose proof clear_range. rewrite eof_clear. lia. Qed.

Lemma pow_double : 2 ^ (lit + 1) = 2 * clearOf.
Proof. unfold clearOf. rewrite Z.pow_add_r by lia. lia. Qed.

Lemma widthOf_lt hi : 0 < hi -> hi < 2 ^ widthOf hi.
Proof.
  intros. apply Z.lt_le_trans with (2 ^ (Z.log2 hi + 1)).
  - apply Z.log2_spec. done.
  - apply Z.pow_le_mono_r; unfold widthOf; lia.
Qed.

Lemma widthOf_range hi : 0 < hi < 4096 -> 3 <= widthOf hi <= 12.
Proof.
  intros. unfold widthOf. assert (Z.log2 hi < 12) by (apply Z.log2_lt_pow2; simpl; lia). lia.
Qed.

Lemma widthOf_mono h h' : 0 < h <= h' -> widthOf h <= widthOf h'.
Proof. intros. unfold widthOf. pose proof (Z.log2_le_mono h h'). lia. Qed.

Lemma widthOf_small h : 0 < h < 2 ^ (lit + 1) -> widthOf h = lit + 1.
Proof.
  intros. unfold widthOf. assert (Z.log2 h < lit + 1) by (apply Z.log2_lt_pow2; lia). lia.
Qed.

Lemma widthOf_eof : widthOf eofOf = lit + 1.
Proof. pose proof clear_range. apply widthOf_small. rewrite pow_double, eof_clear. lia. Qed.

(** The next width: the same, until the next code does not fit. *)
Lemma widthOf_succ h :
  eofOf <= h -> widthOf (h + 1) = if h + 1 =? 2 ^ widthOf h then widthOf h + 1 else widthOf h.
Proof.
  intros Hh. pose proof eof_range. pose proof (widthOf_lt h ltac:(lia)) as Hlt.
  pose proof (widthOf_mono h (h + 1) ltac:(lia)).
  assert (Hw : 0 <= widthOf h) by (unfold widthOf; pose proof (Z.log2_nonneg h); lia).
  destruct (Z.eqb_spec (h + 1) (2 ^ widthOf h)) as [E|E].
  - assert (lit + 1 <= widthOf h) by (unfold widthOf; lia).
    unfold widthOf at 1. rewrite E, Z.log2_pow2 by lia. lia.
  - assert (Z.log2 (h + 1) < widthOf h) by (apply Z.log2_lt_pow2; lia).
    unfold widthOf in *. lia.
Qed.

(** ** One code *)

Lemma decStep_bits f e w c rest d :
  w = widthOf (hiOf d) -> 0 <= c < 2 ^ w ->
  decStep f e (bitsOf f w c ++ rest) d =
    if c =? clearOf then inl ([], rest, emptyDict)
    else if c =? eofOf then inr EOF
    else match strOf d c with
         | Some s => inl (s, rest, learn d s)
         | None => inr errInvalidCode
         end.
Proof.
  intros Hw Hc. assert (0 <= w) by (subst w; unfold widthOf; pose proof (Z.log2_nonneg (hiOf d)); lia).
  unfold decStep. rewrite <- Hw.
  destruct (Z.ltb_spec (len (bitsOf f w c ++ rest)) w) as [L|_].
  { unfold len in L. rewrite length_app, bitsOf_length in L. lia. }
  rewrite <- (bitsOf_length f w c), take_app_length, drop_app_length.
  by rewrite valOf_bitsOf.
Qed.

Lemma runs_trans f e bits d out bits' d' out' bits'' d'' :
  runs f e bits d out bits' d' -> runs f e bits' d' out' bits'' d'' ->
  runs f e bits d (out ++ out') bits'' d''.
Proof.
  induction 1; intros; simpl; [done|]. rewrite <- (assoc_L app). eapply runs_cons; eauto.
Qed.

Lemma runs_one f e bits d s bits' d' :
  decStep f e bits d = inl (s, bits', d') -> runs f e bits d s bits' d'.
Proof. intros. rewrite <- (app_nil_r s). eapply runs_cons; [done | apply runs_nil]. Qed.

Lemma runs_then_nil f e bits d s bits' d' bits'' d'' :
  decStep f e bits d = inl (s, bits', d') -> runs f e bits' d' [] bits'' d'' ->
  runs f e bits d s bits'' d''.
Proof. intros. rewrite <- (app_nil_r s). eapply runs_cons; eauto. Qed.

Lemma runs_produces f e bits d out bits' d' out' err :
  runs f e bits d out bits' d' -> produces f e bits' d' out' err ->
  produces f e bits d (out ++ out') err.
Proof.
  induction 1; intros; simpl; [done|]. rewrite <- (assoc_L app). eapply produces_step; eauto.
Qed.

Lemma produces_det f e bits d o1 e1 o2 e2 :
  produces f e bits d o1 e1 -> produces f e bits d o2 e2 -> o1 = o2 /\ e1 = e2.
Proof.
  intros H. revert o2 e2. induction H as [bits d err Hs|bits d s bits' d' out err Hs Hp IH]; intros o2 e2 H2;
    inversion H2 as [? ? ? Hs2|? ? s2 b2 d2 out2 ? Hs2 Hp2]; subst; rewrite Hs in Hs2; simplify_eq; [done|].
  destruct (IH _ _ Hp2) as [-> ->]. done.
Qed.

Lemma decStep_shorter f e bits d s bits' d' :
  decStep f e bits d = inl (s, bits', d') -> (length bits' < length bits)%nat.
Proof.
  unfold decStep. set (w := widthOf (hiOf d)). assert (3 <= w) by (unfold w, widthOf; lia).
  destruct (Z.ltb_spec (len bits) w); [done|]. unfold len in *. intros E.
  assert (bits' = drop (Z.to_nat w) bits) as -> by (repeat case_match; simplify_eq; done).
  rewrite length_drop. lia.
Qed.

Lemma produces_total f e bits d : exists out err, produces f e bits d out err.
Proof.
  remember (length bits) as n eqn:Hn. revert bits d Hn.
  induction n as [n IH] using lt_wf_ind. intros bits d ->.
  destruct (decStep f e bits d) as [[[s bits'] d']|err] eqn:E; [|eauto using produces_end].
  destruct (IH (length bits') (decStep_shorter _ _ _ _ _ _ _ E) bits' d' eq_refl) as (out & err & Hp).
  exists (s ++ out), err. eapply produces_step; eauto.
Qed.

(** ** Decoding undoes encoding *)

Definition wordOk (E : list (list Z)) (cur : list Z) : Prop :=
  (exists b, cur = [b] /\ 0 <= b < clearOf) \/ cur ∈ E.

(** The dictionary of the encoder: room for one more code, and strings longer
    than the literals. *)
Definition dictOk (E : list (list Z)) : Prop :=
  eofOf + len E < maxCode /\ Forall (fun s => (2 <= length s)%nat) E.

(** The decoder lacks the last entry, whose last byte it has not seen. *)
Definition link (E : list (list Z)) (cur : list Z) (d : dict) : Prop :=
  (pending d = None /\ strings d = [] /\ E = []) \/
  (exists l, pending d = Some l /\ l <> [] /\ E = strings d ++ [l ++ take 1 cur]).

Lemma link_hi E cur d : link E cur d -> hiOf d = eofOf + len E.
Proof.
  unfold hiOf. intros [(-> & -> & ->)|(l & -> & _ & ->)]; rewrite ?len_app, ?len_cons, ?len_nil; lia.
Qed.

Lemma encCode_long E s :
  (2 <= length s)%nat -> s ∈ E -> exists i, E !! i = Some s /\ encCode E s = eofOf + 1 + Z.of_nat i.
Proof.
  intros H2 Hs. destruct s as [|b [|b' s]]; simpl in H2; try lia. unfold encCode.
  destruct (list_find_elem_of (eq (b :: b' :: s)) E _ Hs eq_refl) as [[i s'] Ef]. rewrite Ef.
  apply list_find_Some in Ef as (Hi & -> & _). eauto.
Qed.

Lemma expOf_lookup E i s : E !! i = Some s -> expOf E (eofOf + 1 + Z.of_nat i) = Some s.
Proof.
  intros Hi. pose proof clear_range. pose proof eof_clear. unfold expOf.
  destruct (Z.ltb_spec (eofOf + 1 + Z.of_nat i) clearOf); [lia|]. rewrite andb_false_r.
  destruct (Z.leb_spec (eofOf + 1 + Z.of_nat i) eofOf); [lia|].
  replace (Z.to_nat _) with i by lia. done.
Qed.

Lemma expOf_literal E b : 0 <= b < clearOf -> expOf E b = Some [b].
Proof. intros. unfold expOf. destruct (Z.leb_spec 0 b), (Z.ltb_spec b clearOf); simpl; try lia. done. Qed.

Lemma expOf_encCode E cur :
  wordOk E cur -> dictOk E ->
  expOf E (encCode E cur) = Some cur /\ 0 <= encCode E cur <= eofOf + len E /\
  encCode E cur <> clearOf /\ encCode E cur <> eofOf.
Proof.
  intros Hc [Hm Hl]. pose proof clear_range. pose proof eof_clear. pose proof (len_nonneg E).
  destruct Hc as [(b & -> & Hb)|Hc].
  - simpl. rewrite expOf_literal by done. split; [done | lia].
  - pose proof (proj1 (Forall_forall _ _) Hl _ Hc) as H2. simpl in H2.
    destruct (encCode_long E cur H2 Hc) as (i & Hi & ->). rewrite (expOf_lookup E i cur Hi).
    apply lookup_lt_Some in Hi. unfold len. split; [done | lia].
Qed.

Lemma expOf_app E k c s : expOf E c = Some s -> expOf (E ++ k) c = Some s.
Proof. unfold expOf. repeat case_match; try done. apply lookup_app_l_Some. Qed.

(** The decoder knows every code of the encoder. *)
Lemma strOf_link E cur d c :
  link E cur d -> expOf E c = Some cur -> strOf d c = Some cur.
Proof.
  intros [(Hp & Hs & ->)|(l & Hp & Hl & ->)] He; unfold strOf.
  { rewrite Hs, He. done. }
  destruct (expOf (strings d) c) as [s|] eqn:E1.
  { rewrite (expOf_app _ _ _ _ E1) in He. done. }
  unfold expOf in *. destruct ((0 <=? c) && (c <? clearOf)); [done|].
  destruct (Z.leb_spec c eofOf) as [|Hc]; [done|].
  apply lookup_app_Some in He as [He|[Hge He]]; [congruence|].
  apply list_lookup_singleton_Some in He as [Hi Hcur]. rewrite Hp.
  destruct (Z.eqb_spec c (eofOf + 1 + len (strings d))) as [_|N]; [|unfold len in N; lia].
  destruct l as [|a l], cur as [|b cur]; simpl in *; try done.
  injection Hcur as -> Hcur. rewrite take_0 in Hcur. by rewrite take_0, Hcur.
Qed.

Lemma learn_link E cur d :
  link E cur d -> eofOf + len E < maxCode -> learn d cur = mkDict E (Some cur).
Proof.
  intros H Hm. unfold learn.
  assert (match pending d with Some l => strings d ++ [l ++ take 1 cur] | None => strings d end = E) as ->.
  { destruct H as [(-> & -> & ->)|(l & -> & _ & ->)]; done. }
  destruct (Z.leb_spec (eofOf + 1 + len E) maxCode); [done | lia].
Qed.

Lemma wordOk_nonempty E cur : wordOk E cur -> dictOk E -> cur <> [].
Proof.
  intros [(b & -> & _)|Hc] [_ Hl]; [done|].
  pose proof (proj1 (Forall_forall _ _) Hl _ Hc) as H2. destruct cur; simpl in H2; [lia | done].
Qed.

Lemma emit_runs f e E cur d rest :
  wordOk E cur -> dictOk E -> link E cur d ->
  runs f e (codesBits f (emit E cur) ++ rest) d cur rest
    (if eofOf + len E + 1 =? maxCode then emptyDict else mkDict E (Some cur)).
Proof.
  intros Hc Hd Hk. pose proof (expOf_encCode E cur Hc Hd) as (He & Hr & Hn1 & Hn2).
  pose proof (link_hi _ _ _ Hk) as Hh. pose proof eof_range. pose proof clear_range. pose proof (len_nonneg E).
  pose proof (widthOf_lt (eofOf + len E) ltac:(lia)).
  assert (Hs : decStep f e (bitsOf f (widthOf (eofOf + len E)) (encCode E cur) ++ (codesBits f
      (if eofOf + len E + 1 =? maxCode then [(widthOf (eofOf + len E + 1), clearOf)] else []) ++ rest)) d =
    inl (cur, codesBits f (if eofOf + len E + 1 =? maxCode then [(widthOf (eofOf + len E + 1), clearOf)] else [])
              ++ rest, mkDict E (Some cur))).
  { rewrite decStep_bits by (rewrite ?Hh; auto; lia).
    destruct (Z.eqb_spec (encCode E cur) clearOf), (Z.eqb_spec (encCode E cur) eofOf); try done.
    rewrite (strOf_link _ _ _ _ Hk He), (learn_link _ _ _ Hk); [done | apply Hd]. }
  unfold emit, codesBits in *. simpl map. simpl concat. rewrite <- (assoc_L app).
  destruct (Z.eqb_spec (eofOf + len E + 1) maxCode) as [Em|Em]; simpl in *.
  - eapply runs_then_nil; [exact Hs|]. apply runs_one.
    rewrite app_nil_r. rewrite decStep_bits.
    + by rewrite Z.eqb_refl.
    + unfold hiOf. simpl. f_equal; lia.
    + pose proof (widthOf_lt (eofOf + len E + 1) ltac:(lia)). rewrite eof_clear in *. lia.
  - by apply runs_one.
Qed.

Definition encInv (E : list (list Z)) (cur : list Z) (d : dict) : Prop :=
  wordOk E cur /\ dictOk E /\ link E cur d.

Lemma encStep_runs f e E cur d x out E' cur' :
  encInv E cur d -> 0 <= x < clearOf -> encStep (E, cur) x = (out, (E', cur')) ->
  exists d' o, (forall rest, runs f e (codesBits f out ++ rest) d o rest d') /\
    o ++ cur' = cur ++ [x] /\ encInv E' cur' d'.
Proof.
  intros (Hc & Hd & Hk) Hx. unfold encStep.
  pose proof (wordOk_nonempty _ _ Hc Hd) as Hne. pose proof eof_range.
  destruct (decide (cur ++ [x] ∈ E)) as [Hin|Hin]; intros [= <- <- <-].
  - exists d, []. split; [intros; apply runs_nil|]. split; [done|]. split; [by right|]. split; [done|].
    destruct Hk as [(? & ? & ->)|(l & ? & ? & ->)]; [by apply elem_of_nil in Hin|].
    right. exists l. destruct cur; done.
  - eexists _, cur. split; [intros rest; by apply emit_runs|]. split; [done|].
    destruct (Z.eqb_spec (eofOf + len E + 1) maxCode) as [Em|Em].
    + split; [left; eauto|]. split; [|by left]. split; [|done]. rewrite len_nil. change maxCode with 4095. lia.
    + split; [left; eauto|]. destruct Hd as [Hm Hl]. split.
      * split; [rewrite len_app, len_cons, len_nil; lia|]. apply Forall_app. split; [done|].
        constructor; [|done]. rewrite length_app. destruct cur; simpl; [done | lia].
      * right. exists cur. done.
Qed.

Lemma codesBits_app f l k : codesBits f (l ++ k) = codesBits f l ++ codesBits f k.
Proof. unfold codesBits. by rewrite map_app, concat_app. Qed.

Lemma codesBits_cons f w c l : codesBits f ((w, c) :: l) = bitsOf f w c ++ codesBits f l.
Proof. done. Qed.

Lemma encLoop_runs f e p E cur d outs E' cur' :
  encInv E cur d -> Forall (fun x => 0 <= x < clearOf) p -> encLoop (E, cur) p = (outs, (E', cur')) ->
  exists d' o, (forall rest, runs f e (codesBits f outs ++ rest) d o rest d') /\
    o ++ cur' = cur ++ p /\ encInv E' cur' d'.
Proof.
  revert E cur d outs. induction p as [|x p IH]; intros E cur d outs Hi Hp; cbn [encLoop].
  - intros [= <- <- <-]. exists d, []. split; [intros; apply runs_nil|]. by rewrite app_nil_r.
  - inversion Hp as [|? ? Hx Hp']; subst.
    destruct (encStep (E, cur) x) as [out1 [E1 cur1]] eqn:Es.
    destruct (encLoop (E1, cur1) p) as [outs2 [E2 cur2]] eqn:El. intros [= <- <- <-].
    destruct (encStep_runs f e E cur d x _ _ _ Hi Hx Es) as (d1 & o1 & Hr1 & Ho1 & Hi1).
    destruct (IH _ _ _ _ Hi1 Hp' El) as (d2 & o2 & Hr2 & Ho2 & Hi2).
    exists d2, (o1 ++ o2). split; [|split; [|done]].
    + intros rest. rewrite codesBits_app, <- (assoc_L app). eapply runs_trans; eauto.
    + by rewrite <- (assoc_L app), Ho2, (assoc_L app), Ho1, <- (assoc_L app).
Qed.

Lemma encode_produces f e p rest :
  Forall (fun x => 0 <= x < clearOf) p ->
  produces f e (codesBits f (encode p) ++ rest) emptyDict p EOF.
Proof.
  intros Hp. pose proof clear_range. pose proof eof_range. pose proof eof_clear. pose proof pow_double.
  assert (Hw0 : lit + 1 = widthOf (hiOf emptyDict)).
  { unfold hiOf. simpl. rewrite len_nil, !Z.add_0_r, widthOf_eof. done. }
  assert (Hend : forall w d bits, w = widthOf (hiOf d) -> eofOf < 2 ^ w ->
            produces f e (codesBits f [(w, eofOf)] ++ bits) d [] EOF).
  { intros w d bits Hw Hlt. apply produces_end. unfold codesBits. simpl. rewrite app_nil_r.
    rewrite decStep_bits by (auto; lia). destruct (Z.eqb_spec eofOf clearOf); [lia|]. by rewrite Z.eqb_refl. }
  unfold encode. rewrite codesBits_cons, <- (assoc_L app).
  change p with ([] ++ p) at 2. eapply (produces_step f e _ _ []).
  { rewrite decStep_bits by (auto; lia). by rewrite Z.eqb_refl. }
  destruct p as [|x p]; lazy match beta.
  - apply Hend; [done | lia].
  - inversion Hp as [|? ? Hx Hp']; subst.
    destruct (encLoop ([], [x]) p) as [outs [E cur]] eqn:El.
    destruct (encLoop_runs f e p [] [x] emptyDict outs E cur) as (d & o & Hr & Ho & Hc & Hd & Hk).
    { split; [left; eauto|]. split; [|by left]. split; [|done]. rewrite len_nil. change maxCode with 4095. lia. }
    { done. } { done. }
    rewrite !codesBits_app, <- !(assoc_L app).
    replace (x :: p) with (o ++ (cur ++ [])) by (rewrite app_nil_r; exact Ho).
    eapply runs_produces; [apply Hr|]. eapply runs_produces; [by apply emit_runs|].
    unfold widthAfter. pose proof (len_nonneg E).
    destruct (Z.eqb_spec (eofOf + len E + 1) maxCode).
    + apply Hend; [by rewrite widthOf_eof|]. rewrite widthOf_eof. lia.
    + pose proof (widthOf_lt (eofOf + len E + 1) ltac:(lia)).
      apply Hend; [|lia]. unfold hiOf. simpl. f_equal; lia.
Qed.
End Codes.
