(* ===== verification/LzwReader.v ===== *)
(** * compress/lzw: the Reader decodes

    Each round of [decode] is one step of the specification's decoder, for every
    source of bytes: the tables of the Reader hold the strings of the
    dictionary, and nothing is out of range. *)
From Stdlib Require Import ZArith Lia.
From stdpp Require Import base numbers list.
From S2P Require Import Prelude Lzw LzwBits LzwDict.

(** A source of bytes: the bytes that are left, and the error at their end. *)
Class ByteSource (R : Type) {BR : ByteReader R} := {
  remaining : R -> list Z;
  ends : R -> error;
  ReadByte_byte : forall r x l, remaining r = x :: l ->
    exists r', ReadByte r = (inl x, r') /\ remaining r' = l /\ ends r' = ends r;
  ReadByte_end : forall r, remaining r = [] ->
    exists r', ReadByte r = (inr (ends r), r') /\ remaining r' = [] /\ ends r' = ends r;
  remaining_ok : forall r, bytes_ok (remaining r);
}.

Section ReadCode.
Context {R : Type} {BR : ByteReader R} {BS : ByteSource R}.
Implicit Types r : Reader R.

(** The bits that wait in the Reader and those of the source. *)
Definition stream (f : codeFn) (B : list bool) (src : R) : list bool := B ++ bytesBits f (remaining src).

(** [r'] is [r] with other bits: the same stream. *)
Definition refilled (f : codeFn) r (S : list bool) (e : error) (bound : Z) r' : Prop :=
  exists src bits n B, r' = rSetBits r (Some src) bits n /\ pend f bits n B /\ 0 <= n < bound /\
    S = stream f B src /\ ends src = e.

Lemma refilled_self f r S e bound src B :
  r_r r = Some src -> pend f (r_bits r) (r_nBits r) B -> r_nBits r < bound -> S = stream f B src ->
  ends src = e -> refilled f r S e bound r.
Proof.
  intros Hs Hp Hb HS He. exists src, (r_bits r), (r_nBits r), B. pose proof Hp as [Hn _].
  split; [|split_and!; try done; lia]. rewrite <- Hs. by destruct r.
Qed.

Lemma fillBits_spec f r S e :
  refilled f r S e 8 r -> 0 < r_width r <= 12 ->
  fillBits (putBits f 8) r ⇓ fun '(err, r') =>
    refilled f r S e (r_width r + 8) r' /\
    match err with
    | None => r_width r <= r_nBits r'
    | Some x => x = e /\ len S < r_width r
    end.
Proof.
  intros Hr Hw. unfold fillBits.
  apply (loop_returns (fun r' => refilled f r S e (r_width r + 8) r') (fun r' => Z.max 0 (r_width r - r_nBits r'))).
  - intros r' (src & bits & n & B & -> & Hp & Hn & HS & He). simpl.
    destruct (Z.ltb_spec n (r_width r)) as [L|L].
    + destruct (remaining src) as [|x l] eqn:Hrem.
      * destruct (ReadByte_end src Hrem) as (src' & -> & Hr' & He'). simpl.
        pose proof (pend_length _ _ _ _ Hp) as HB. split.
        -- exists src', bits, n, B. split_and!; try done; try lia; [|congruence].
           unfold stream. rewrite HS. unfold stream. by rewrite Hrem, Hr'.
        -- split; [done|]. rewrite HS. unfold stream. rewrite Hrem. simpl. rewrite app_nil_r.
           unfold len. lia.
      * destruct (ReadByte_byte src x l Hrem) as (src' & -> & Hr' & He'). simpl.
        pose proof (remaining_ok src) as Hok. rewrite Hrem in Hok. inversion Hok as [|? ? Hx _]; subst.
        split; [|lia]. exists src', (putBits f 8 bits x n), (n + 8), (B ++ bitsOf f 8 x).
        split_and!; try done; try lia.
        -- apply pend_put; try done; lia.
        -- unfold stream. rewrite Hrem, bytesBits_cons, <- (assoc_L app). done.
    + simpl. split; [|lia]. exists src, bits, n, B. done.
  - destruct Hr as (src & bits & n & B & E & Hp & Hn & HS & He).
    exists src, bits, n, B. split_and!; try done; lia.
  - destruct Hr as (src & bits & n & B & E & Hp & Hn & HS & He). rewrite E. simpl. lia.
  - lia.
Qed.

Lemma takeCode f r S e r1 :
  refilled f r S e (r_width r + 8) r1 -> 0 < r_width r <= 12 -> r_width r <= r_nBits r1 ->
  let code := topBits f (r_width r1) (r_bits r1) in
  exists S', S = bitsOf f (r_width r) code ++ S' /\ 0 <= code < 2 ^ r_width r /\
    refilled f r S' e 8
      (rSetBits r1 (r_r r1) (dropBits f (r_width r1) (r_bits r1)) (r_nBits r1 - r_width r1)).
Proof.
  intros (src & bits & n & B & -> & Hp & Hn & HS & He) Hw Hle. simpl in *.
  destruct (pend_take _ _ _ _ (r_width r) Hp ltac:(lia)) as (B' & -> & Hc & Hp').
  exists (stream f B' src). split; [|split; [done|]].
  - rewrite HS. unfold stream. by rewrite <- (assoc_L app).
  - exists src, (dropBits f (r_width r) bits), (n - r_width r), B'. split_and!; try done; lia.
Qed.

Lemma callRead_spec f r S e :
  r_read r = Some f -> refilled f r S e 8 r -> 0 < r_width r <= 12 ->
  callRead r ⇓ fun '(c, r') =>
    match c with
    | inl code => exists S', S = bitsOf f (r_width r) code ++ S' /\ 0 <= code < 2 ^ r_width r /\
                    refilled f r S' e 8 r'
    | inr x => x = e /\ len S < r_width r /\ exists bound, refilled f r S e bound r'
    end.
Proof.
  intros Hf Hr Hw. unfold callRead. rewrite Hf.
  pose proof (fillBits_spec f r S e Hr Hw) as Hfill.
  assert (H16 : forall w x, 0 < w <= 12 -> 0 <= x < 2 ^ w -> u16 x = x).
  { intros w x ? Hx. apply u16_id. assert (2 ^ w <= 2 ^ 12) by (apply Z.pow_le_mono_r; lia). lia. }
  assert (Hk : forall r1, refilled f r S e (r_width r + 8) r1 -> r_width r1 = r_width r).
  { by intros r1 (src & bits & n & B & -> & _). }
  destruct f; unfold readLSB, readMSB; eapply returns_bind_mono; try exact Hfill.
  all: intros [[x|] r1]; simpl; intros [Hr1 Hx]; [split; [tauto|]; split; [tauto|]; eauto|].
  all: destruct (takeCode _ _ _ _ _ Hr1 Hw Hx) as (S' & HS & Hc & Hr2); rewrite (Hk r1 Hr1) in *.
  - rewrite (land_ones' _ (r_width r)) by (rewrite ?shiftl_mul by lia; lia).
    exists S'. simpl in *. erewrite H16 by eauto. done.
  - exists S'. simpl in *. erewrite H16 by eauto. done.
Qed.
End ReadCode.

(** ** The tables *)

Lemma idx_insert_eq {A} (l : list A) i x : 0 <= i < len l -> idx (<[Z.to_nat i := x]> l) i = Ok x.
Proof.
  intros Hi. unfold idx. destruct (Z.leb_spec 0 i); [|lia].
  rewrite list_lookup_insert_eq by (unfold len in Hi; lia). done.
Qed.

Lemma idx_insert_ne {A} (l : list A) i j x : 0 <= j -> i <> j -> idx (<[Z.to_nat j := x]> l) i = idx l i.
Proof.
  intros Hj Hn. unfold idx. destruct (Z.leb_spec 0 i); [|done]. by rewrite list_lookup_insert_ne by lia.
Qed.

Section Tables.
Variable lit : Z.
Hypothesis Hlit : 2 <= lit <= 8.
Abbreviation eof := (eofOf lit).
Abbreviation clear := (clearOf lit).

(** [suffix] and [prefix] hold the strings [E], entry by entry. *)
Definition tableOk (suffix prefix : list Z) (E : list (list Z)) : Prop :=
  len suffix = 4096 /\ len prefix = 4096 /\
  forall i s, E !! i = Some s -> exists p b s',
    idx suffix (eof + 1 + Z.of_nat i) = Ok b /\ idx prefix (eof + 1 + Z.of_nat i) = Ok p /\
    s = s' ++ [b] /\ expOf lit E p = Some s' /\ p < eof + 1 + Z.of_nat i.

Definition bytesLit (s : list Z) : Prop := Forall (fun b => 0 <= b < clear) s.
Definition stringsOk (E : list (list Z)) : Prop := Forall (fun s => s <> [] /\ bytesLit s) E.

Lemma expOf_cases E c s :
  expOf lit E c = Some s ->
  (0 <= c < clear /\ s = [c]) \/ (exists i, c = eof + 1 + Z.of_nat i /\ E !! i = Some s).
Proof.
  unfold expOf. destruct (Z.leb_spec 0 c), (Z.ltb_spec c clear); simpl; intros Hs.
  1: left; simplify_eq; done.
  all: destruct (Z.leb_spec c eof); [done|].
  all: right; exists (Z.to_nat (c - eof - 1)); split; [lia | done].
Qed.

Lemma expOf_ok E c s : stringsOk E -> expOf lit E c = Some s -> s <> [] /\ bytesLit s.
Proof.
  intros HE [[Hc ->]|(i & -> & Hi)]%expOf_cases.
  - split; [done|]. by constructor.
  - exact (Forall_lookup_1 _ _ _ _ HE Hi).
Qed.

Lemma expOf_length suffix prefix E c s :
  tableOk suffix prefix E -> expOf lit E c = Some s -> len s <= Z.max 1 (c - eof + 1).
Proof.
  intros (_ & _ & HT). pose proof (eof_range lit Hlit).
  assert (forall n c s, (Z.to_nat (c - eof) <= n)%nat -> expOf lit E c = Some s -> len s <= Z.max 1 (c - eof + 1)) as H';
    [|intros; by eapply (H' (Z.to_nat (c - eof)))].
  induction n as [|n IH]; intros c0 s0 Hn [[Hc ->]|(i & -> & Hi)]%expOf_cases; try (unfold len; simpl; lia).
  destruct (HT i s0 Hi) as (p & b & s' & _ & _ & -> & Hp & Hlt).
  apply IH in Hp; [|lia]. rewrite len_app, len_cons, len_nil. lia.
Qed.

Section Chains.
Context {R : Type}.
Variables (r : Reader R) (E : list (list Z)).
Hypothesis Hclear : r_clear r = clear.
Hypothesis HT : tableOk (r_suffix r) (r_prefix r) E.
Hypothesis HE : stringsOk E.

Lemma chainHead_loop n c s :
  expOf lit E c = Some s -> (length s <= n)%nat ->
  loop n (fun c => if c >=? r_clear r then (let! c := idx (r_prefix r) c in Ok (inl c)) else Ok (inr c)) c =
    Ok (default 0 (head s)).
Proof.
  rewrite Hclear. revert c s. induction n as [|n IH]; intros c s Hc Hn.
  { destruct (expOf_ok _ _ _ HE Hc) as [Hs _]. destruct s; simpl in Hn; [done | lia]. }
  pose proof (eof_clear lit) as Hec. apply expOf_cases in Hc as [[Hc ->]|(i & -> & Hi)]; simpl.
  - destruct (Z.geb_spec c clear); [lia | done].
  - destruct (Z.geb_spec (eof + 1 + Z.of_nat i) clear); [|lia].
    destruct HT as (_ & _ & HT'). destruct (HT' i s Hi) as (p & b & s' & _ & -> & -> & Hp & Hlt). simpl.
    rewrite (IH p s' Hp) by (rewrite length_app in Hn; simpl in Hn; lia).
    destruct (expOf_ok _ _ _ HE Hp) as [Hs _]. by destruct s'.
Qed.

Lemma copyChain_loop n c s output (k : nat) :
  expOf lit E c = Some s -> (length s <= n)%nat -> (length s <= k + 1)%nat -> (k < length output)%nat ->
  loop n
    (fun '(output, i, c) =>
       if c >=? r_clear r then
         let! s := idx (r_suffix r) c in
         let! output := upd output i s in
         let! c := idx (r_prefix r) c in
         Ok (inl (output, i - 1, c))
       else Ok (inr (output, i, c))) (output, Z.of_nat k, c) =
    Ok (take (k + 2 - length s) output ++ tail s ++ drop (k + 1) output, Z.of_nat k + 1 - len s, default 0 (head s)).
Proof.
  rewrite Hclear. revert c s output k. induction n as [|n IH]; intros c s output k Hc Hn Hk Ho.
  { destruct (expOf_ok _ _ _ HE Hc) as [Hs _]. destruct s; simpl in Hn; [done | lia]. }
  pose proof (eof_clear lit) as Hec. apply expOf_cases in Hc as [[Hc ->]|(i & -> & Hi)]; simpl.
  - destruct (Z.geb_spec c clear); [lia|]. unfold len. simpl.
    replace (k + 2 - 1)%nat with (k + 1)%nat by lia. rewrite take_drop. do 3 f_equal. lia.
  - destruct (Z.geb_spec (eof + 1 + Z.of_nat i) clear); [|lia].
    destruct HT as (_ & _ & HT'). destruct (HT' i s Hi) as (p & b & s' & -> & -> & -> & Hp & Hlt). simpl.
    destruct (expOf_ok _ _ _ HE Hp) as [Hs _].
    rewrite length_app in Hn, Hk. simpl in Hn, Hk.
    assert (1 <= length s')%nat by (destruct s'; simpl; [done | lia]).
    rewrite upd_Ok by (unfold len; lia). simpl. rewrite Nat2Z.id.
    replace (Z.of_nat k - 1) with (Z.of_nat (k - 1)) by lia.
    rewrite (IH p s' _ (k - 1)%nat Hp) by (rewrite ?length_insert; lia).
    rewrite length_app, len_app. simpl. replace (k - 1 + 1)%nat with k by lia.
    do 3 f_equal.
    + rewrite take_insert_ge by lia. replace (k - 1 + 2 - length s')%nat with (k + 2 - (length s' + 1))%nat by lia.
      f_equal. destruct s' as [|a s']; [done|]. simpl. rewrite <- (assoc_L app). f_equal.
      rewrite (drop_S _ b) by (by apply list_lookup_insert_eq; lia). simpl. f_equal.
      rewrite drop_insert_lt by lia. f_equal. lia.
    + rewrite len_cons, len_nil. lia.
    + by destruct s'.
Qed.
End Chains.
End Tables.
