(* ===== verification/LzwDecode.v ===== *)
(** * compress/lzw: the loop of decode

    The state of a Reader against the dictionary of the specification, and one
    round of the loop against one step of it. *)
From Stdlib Require Import ZArith Lia.
From stdpp Require Import base numbers list.
From S2P Require Import Prelude Lzw LzwBits LzwDict LzwReader.

Section Decode.
Context {R : Type} {BR : ByteReader R} {BS : ByteSource R}.
Implicit Types r : Reader R.
Variable lit : Z.
Hypothesis Hlit : 2 <= lit <= 8.
Abbreviation eof := (eofOf lit).
Abbreviation clear := (clearOf lit).

(** The fields that do not belong to the dictionary. *)
Definition ioOf r := (r_r r, r_bits r, r_nBits r, r_read r, r_err r, r_output r, r_o r, r_toRead r).

Record dictRel r (d : dict) : Prop := {
  dr_clear : r_clear r = clear;
  dr_eof : r_eof r = eof;
  dr_lit : r_litWidth r = lit;
  dr_hi : r_hi r = hiOf lit d;
  dr_max : hiOf lit d <= 4095;
  dr_width : r_width r = widthOf lit (hiOf lit d);
  dr_overflow : r_overflow r = 2 ^ r_width r;
  dr_table : tableOk lit (r_suffix r) (r_prefix r) (strings d);
  dr_strings : stringsOk lit (strings d);
  dr_last : match pending d with
            | None => r_last r = decoderInvalidCode /\ (strings d = [] \/ hiOf lit d = 4095)
            | Some l => 0 <= r_last r < 4096 /\ expOf lit (strings d) (r_last r) = Some l
            end;
}.

Lemma hi_bounds d : eof <= hiOf lit d.
Proof. unfold hiOf. pose proof (len_nonneg (strings d)). case_match; lia. Qed.

(** The dictionary's strings after [learn]. *)
Definition learned (d : dict) (s : list Z) : list (list Z) :=
  match pending d with
  | Some l => strings d ++ [l ++ take 1 s]
  | None => strings d
  end.

Lemma hi_learned d s : hiOf lit d + 1 = eof + 1 + len (learned d s).
Proof.
  unfold hiOf, learned. destruct (pending d); rewrite ?len_app, ?len_cons, ?len_nil; lia.
Qed.

Lemma strOf_ok r d c s : dictRel r d -> strOf lit d c = Some s -> s <> [] /\ bytesLit lit s.
Proof.
  intros Hd. pose proof (dr_strings _ _ Hd) as HE. pose proof (dr_last _ _ Hd) as Hl. unfold strOf.
  destruct (expOf lit (strings d) c) eqn:E1; [intros [= <-]; by eapply expOf_ok|].
  destruct (c =? _); [|done]. destruct (pending d) as [l|]; simpl; [|done]. intros [= <-].
  destruct Hl as [_ Hl]. destruct (expOf_ok _ _ _ _ HE Hl) as [Hne Hb]. split; [by destruct l|].
  apply Forall_app. split; [done | by apply Forall_take].
Qed.

Lemma strOf_learned r d c s :
  dictRel r d -> strOf lit d c = Some s -> expOf lit (learned d s) c = Some s.
Proof.
  intros Hd. pose proof (dr_strings _ _ Hd) as HE. pose proof (dr_last _ _ Hd) as Hl. unfold strOf, learned.
  destruct (expOf lit (strings d) c) as [s1|] eqn:E1.
  { intros [= ->]. destruct (pending d); [by apply expOf_app | done]. }
  destruct (Z.eqb_spec c (eof + 1 + len (strings d))) as [->|]; [|done].
  destruct (pending d) as [l|]; simpl; [|done]. intros [= <-].
  destruct Hl as [_ Hl]. destruct (expOf_ok _ _ _ _ HE Hl) as [Hne _].
  apply expOf_lookup; [done|]. rewrite list_lookup_middle by done. by destruct l.
Qed.

Lemma saveHi_rel r d s c :
  dictRel r d -> strOf lit d c = Some s ->
  exists suffix prefix, saveHi r (default 0 (head s)) = Ok (rSetTables r suffix prefix) /\
    tableOk lit suffix prefix (learned d s) /\ stringsOk lit (learned d s).
Proof.
  intros Hd Hs. pose proof (strOf_ok _ _ _ _ Hd Hs) as [Hne Hb].
  destruct Hd as [? ? ? Hhi Hmax ? ? HT HE Hlast]. unfold saveHi, learned, hiOf in *.
  destruct (pending d) as [l|].
  2: { destruct Hlast as [-> _]. exists (r_suffix r), (r_prefix r). split; [by destruct r | done]. }
  destruct Hlast as [Hr Hl]. destruct (Z.eqb_spec (r_last r) decoderInvalidCode) as [E|_].
  { unfold decoderInvalidCode in E. lia. }
  destruct HT as (L1 & L2 & HT). pose proof (len_nonneg (strings d)). pose proof (eof_range lit Hlit).
  destruct s as [|b s]; [done|]. pose proof (Forall_cons_1 _ _ _ Hb) as [Hb0 _]. pose proof (clear_range lit Hlit).
  simpl. rewrite !upd_Ok by lia. simpl. rewrite u8_id by lia. eexists _, _. split; [done|].
  split; [split; [by rewrite len_insert|]; split; [by rewrite len_insert|]|].
  - intros i s0 Hi. apply lookup_app_Some in Hi as [Hi|[Hge Hi]].
    + destruct (HT i s0 Hi) as (p & b0 & s' & I1 & I2 & -> & Hp & Hlt).
      apply lookup_lt_Some in Hi. unfold len in *. exists p, b0, s'.
      rewrite !idx_insert_ne by lia. split_and!; try done. by apply expOf_app.
    + apply list_lookup_singleton_Some in Hi as [Hi <-].
      exists (r_last r), b, l. unfold len in *.
      replace (eof + 1 + Z.of_nat i) with (r_hi r) by lia.
      rewrite !idx_insert_eq by (unfold len; lia).
      split_and!; try done; [by apply expOf_app|].
      apply expOf_cases in Hl as [[Hl _]|(j & Hj & Hl)]; [rewrite eof_clear in *; lia|].
      apply lookup_lt_Some in Hl. lia.
  - apply Forall_app. split; [done|]. constructor; [|done].
    destruct (expOf_ok _ _ _ _ HE Hl) as [Hln Hlb]. split; [by destruct l|].
    apply Forall_app. split; [done|]. by constructor.
Qed.

(** [saveHi] and [nextCode] learn the string of the code. *)
Lemma learn_rel r d c s :
  dictRel r d -> 0 <= c <= 4095 -> strOf lit d c = Some s ->
  (let! r := saveHi r (default 0 (head s)) in nextCode r c) ⇓ fun r' =>
    dictRel r' (learn lit d s) /\ ioOf r' = ioOf r.
Proof.
  intros Hd Hc Hs. destruct (saveHi_rel r d s c Hd Hs) as (suffix & prefix & -> & HT & HE).
  pose proof (strOf_learned _ _ _ _ Hd Hs) as Hexp. pose proof (hi_learned d s) as Hh.
  destruct Hd as [? ? ? Hhi Hmax Hw Ho _ _ _]. simpl.
  pose proof (hi_bounds d) as Hb. pose proof (eof_range lit Hlit) as He.
  pose proof (widthOf_lt lit (hiOf lit d) ltac:(lia)) as Hlt.
  pose proof (widthOf_range lit Hlit (hiOf lit d) ltac:(lia)) as Hwr.
  pose proof (widthOf_succ lit Hlit (hiOf lit d) Hb) as Hsucc.
  assert (Hk : forall h w ov last, h = hiOf lit (learn lit d s) -> h <= 4095 -> w = widthOf lit h -> ov = 2 ^ w ->
             (match pending (learn lit d s) with
              | None => last = decoderInvalidCode /\ h = 4095
              | Some _ => last = c end) ->
             dictRel (rSetCodes (rSetTables r suffix prefix) w h ov last) (learn lit d s)).
  { intros h w ov last -> ? -> -> Hlast. constructor; simpl; try done.
    unfold learn in *. fold (learned d s) in *. simpl in *. destruct (_ <=? maxCode).
    - subst last. split; [lia | done].
    - destruct Hlast. auto. }
  unfold nextCode. simpl. rewrite u16_id by (rewrite Hhi; lia). rewrite Hhi, Ho, Hw.
  assert (Hhl : hiOf lit (learn lit d s) = if hiOf lit d + 1 <=? 4095 then hiOf lit d + 1 else hiOf lit d).
  { unfold hiOf at 1, learn. fold (learned d s). change maxCode with 4095. simpl.
    rewrite <- Hh. destruct (Z.leb_spec (hiOf lit d + 1) 4095); lia. }
  assert (Hpend : pending (learn lit d s) = if hiOf lit d + 1 <=? 4095 then Some s else None).
  { unfold learn. fold (learned d s). change maxCode with 4095. simpl. by rewrite <- Hh. }
  rewrite Hpend, Hhl in Hk.
  destruct (Z.geb_spec (hiOf lit d + 1) (2 ^ widthOf lit (hiOf lit d))) as [G|G].
  - destruct (Z.gtb_spec (hiOf lit d + 1) (2 ^ widthOf lit (hiOf lit d))) as [|_]; [lia|].
    assert (Heq : hiOf lit d + 1 = 2 ^ widthOf lit (hiOf lit d)) by lia.
    destruct (Z.eqb_spec (hiOf lit d + 1) (2 ^ widthOf lit (hiOf lit d))) as [_|]; [|lia].
    destruct (Z.eqb_spec (widthOf lit (hiOf lit d)) maxWidth) as [E|E]; unfold maxWidth in E.
    + rewrite E in Heq. change (2 ^ 12) with 4096 in Heq. simpl. split; [|done].
      destruct (Z.leb_spec (hiOf lit d + 1) 4095); [lia|].
      apply Hk; rewrite ?u16_id by lia; try lia; f_equal; lia.
    + assert (hiOf lit d + 1 <= 4095).
      { rewrite Heq. assert (2 ^ widthOf lit (hiOf lit d) <= 2 ^ 11) by (apply Z.pow_le_mono_r; lia). lia. }
      simpl. split; [|done]. destruct (Z.leb_spec (hiOf lit d + 1) 4095); [|lia].
      apply Hk; try done; try lia. rewrite shiftl_mul, Z.mul_1_l by lia. apply u16_id.
      assert (2 ^ (widthOf lit (hiOf lit d) + 1) <= 2 ^ 12) by (apply Z.pow_le_mono_r; lia). lia.
  - destruct (Z.eqb_spec (hiOf lit d + 1) (2 ^ widthOf lit (hiOf lit d))) as [|_]; [lia|].
    assert (hiOf lit d + 1 <= 4095).
    { assert (2 ^ widthOf lit (hiOf lit d) <= 2 ^ 12) by (apply Z.pow_le_mono_r; lia). lia. }
    simpl. split; [|done]. destruct (Z.leb_spec (hiOf lit d + 1) 4095); [|lia].
    apply Hk; try done; lia.
Qed.

(** ** The expansion of a code *)

Lemma copyChain_spec r E c s output (k : nat) :
  r_clear r = clear -> tableOk lit (r_suffix r) (r_prefix r) E -> stringsOk lit E ->
  expOf lit E c = Some s -> len s <= 4096 -> (length s <= k + 1)%nat -> (k < length output)%nat ->
  copyChain r output (Z.of_nat k) c =
    Ok (take (k + 2 - length s) output ++ tail s ++ drop (k + 1) output, Z.of_nat k + 1 - len s, default 0 (head s)).
Proof.
  intros Hc HT HE Hs Hl Hk Ho. unfold copyChain. eapply copyChain_loop; eauto.
  change (Z.shiftl 1 maxWidth) with 4096. unfold len in Hl. lia.
Qed.

Lemma chainHead_spec r E c s :
  r_clear r = clear -> tableOk lit (r_suffix r) (r_prefix r) E -> stringsOk lit E ->
  expOf lit E c = Some s -> len s <= 4096 -> chainHead r c = Ok (default 0 (head s)).
Proof.
  intros Hc HT HE Hs Hl. unfold chainHead. eapply chainHead_loop; eauto.
  change (Z.shiftl 1 maxWidth) with 4096. unfold len in Hl. lia.
Qed.

Lemma putHead output s (k : nat) :
  s <> [] -> bytesLit lit s -> (length s <= k + 1)%nat -> (k < length output)%nat ->
  upd (take (k + 2 - length s) output ++ tail s ++ drop (k + 1) output) (Z.of_nat k + 1 - len s)
    (u8 (default 0 (head s))) =
    Ok (take (k + 1 - length s) output ++ s ++ drop (k + 1) output).
Proof.
  intros Hs Hb Hk Ho. destruct s as [|b s]; [done|]. simpl in *. pose proof (clear_range lit Hlit).
  pose proof (Forall_cons_1 _ _ _ Hb) as [Hb0 _]. rewrite u8_id by lia.
  replace (k + 2 - S (length s))%nat with (S (k + 1 - S (length s))) by lia.
  destruct (lookup_lt_is_Some_2 output (k + 1 - S (length s))) as [y Hy]; [lia|].
  rewrite (take_S_r _ _ y Hy), <- (assoc_L app). simpl. apply upd_app.
  unfold len. simpl. rewrite length_take. lia.
Qed.

Lemma copyWithin_spec (l s : list Z) (o i : Z) :
  0 <= o -> 0 <= i <= len l -> drop (Z.to_nat i) l = s -> o + len s <= len l ->
  exists l', copyWithin l o i = Ok (l', len s) /\ len l' = len l /\
    take (Z.to_nat (o + len s)) l' = take (Z.to_nat o) l ++ s.
Proof.
  intros Ho Hi Hs Hl. unfold copyWithin. pose proof (len_nonneg s).
  rewrite !slice_from_Ok by lia. simpl. rewrite Hs, length_drop.
  replace (Nat.min _ (length s)) with (length s) by (unfold len in *; lia).
  eexists. split; [done|]. rewrite (take_ge s) by lia. split.
  - rewrite !len_app. unfold len in *. rewrite length_take, !length_drop. lia.
  - rewrite (assoc_L app), take_app_le.
    + apply take_ge. rewrite length_app, length_take. unfold len in *. lia.
    + rewrite length_app, length_take. unfold len in *. lia.
Qed.

Lemma strOf_valid r d c :
  dictRel r d -> eof < c -> is_Some (strOf lit d c) <-> c <= hiOf lit d.
Proof.
  intros Hd Hc. pose proof (dr_last _ _ Hd) as Hl. unfold strOf, hiOf, expOf. pose proof (eof_clear lit).
  destruct (Z.ltb_spec c clear); [lia|]. rewrite andb_false_r. destruct (Z.leb_spec c eof); [lia|].
  destruct (strings d !! Z.to_nat (c - eof - 1)) as [s|] eqn:E.
  - apply lookup_lt_Some in E. split; [|by eauto]. unfold len. case_match; lia.
  - apply lookup_ge_None in E. unfold len. destruct (Z.eqb_spec c (eof + 1 + Z.of_nat (length (strings d)))) as [->|N];
      destruct (pending d); simpl.
    + split; [lia | by eauto].
    + split; [by intros [? ?] | lia].
    + split; [by intros [? ?] | lia].
    + split; [by intros [? ?] | lia].
Qed.

(** The bytes of [output] that wait. *)
Definition outOf r : list Z := take (Z.to_nat (r_o r)) (r_output r).

(** The room in the output array. *)
Definition outOk r : Prop := len (r_output r) = 8192 /\ 0 <= r_o r < 4096.

Lemma expansion_length r d c s :
  dictRel r d -> c <= hiOf lit d -> strOf lit d c = Some s -> len s <= 4092.
Proof.
  intros Hd Hc. pose proof (dr_max _ _ Hd). pose proof (dr_table _ _ Hd) as HT.
  pose proof (dr_last _ _ Hd) as Hl. pose proof (eof_range lit Hlit). unfold strOf, hiOf in *.
  destruct (expOf lit (strings d) c) eqn:E.
  - intros [= ->]. pose proof (expOf_length _ Hlit _ _ _ _ _ HT E). destruct (pending d); lia.
  - destruct (Z.eqb_spec c (eof + 1 + len (strings d))); [|done].
    destruct (pending d) as [l|]; [|done]. simpl. intros [= <-]. destruct Hl as [_ Hl].
    pose proof (expOf_length _ Hlit _ _ _ _ _ HT Hl).
    assert (r_last r < eof + 1 + len (strings d)).
    { apply expOf_cases in Hl as [[? _]|(i & -> & Hi)].
      - rewrite eof_clear. pose proof (len_nonneg (strings d)). lia.
      - apply lookup_lt_Some in Hi. unfold len. lia. }
    rewrite len_app. assert (len (take 1 l) <= 1) by (unfold len; rewrite length_take; lia). lia.
Qed.

(** The chain of [c] before the last [j] bytes, then its copy to the output. *)
Lemma expand_spec r E c s t output (k : nat) :
  r_clear r = clear -> tableOk lit (r_suffix r) (r_prefix r) E -> stringsOk lit E ->
  expOf lit E c = Some s -> drop (k + 1) output = t -> (length output = k + 1 + length t)%nat ->
  len output = 8192 -> 0 <= r_o r < 4096 -> len (s ++ t) <= 4096 ->
  exists out, (let! '(output, i, c) := copyChain r output (Z.of_nat k) c in
     let! output := upd output i (u8 c) in
     let! '(output, n) := copyWithin output (r_o r) i in
     saveHi (rSetOutput r output (r_o r + n)) c) =
     saveHi (rSetOutput r out (r_o r + len (s ++ t))) (default 0 (head s)) /\
     len out = 8192 /\ take (Z.to_nat (r_o r + len (s ++ t))) out = take (Z.to_nat (r_o r)) output ++ s ++ t.
Proof.
  intros Hc HT HE Hs Ht Hk Ho Hr Hl. destruct (expOf_ok _ _ _ _ HE Hs) as [Hne Hb].
  rewrite len_app in Hl. pose proof (len_nonneg t). pose proof (len_nonneg s).
  assert (Hks : (length s <= k + 1)%nat) by (unfold len in *; lia).
  rewrite (copyChain_spec r E c s output k) by (try done; unfold len in *; lia). simpl.
  rewrite putHead by (try done; unfold len in *; lia). simpl. rewrite Ht.
  set (out1 := take (k + 1 - length s) output ++ s ++ t).
  assert (Hd : drop (Z.to_nat (Z.of_nat k + 1 - len s)) out1 = s ++ t).
  { unfold out1. rewrite drop_app_ge; rewrite length_take; unfold len in *; [|lia].
    replace (_ - _)%nat with 0%nat by lia. done. }
  assert (L1 : len out1 = 8192).
  { unfold out1. rewrite !len_app. unfold len in *. rewrite length_take. lia. }
  destruct (copyWithin_spec out1 (s ++ t) (r_o r) (Z.of_nat k + 1 - len s)) as (out & -> & Hlen & Htake);
    try done; rewrite ?len_app; try (unfold len in *; lia).
  exists out. simpl. split; [done|]. split; [by rewrite Hlen|]. rewrite <- len_app, Htake. f_equal.
  unfold out1. rewrite take_app_le by (rewrite length_take; unfold len in *; lia).
  rewrite take_take. f_equal. unfold len in *. lia.
Qed.

Lemma decodeCode_spec r d c :
  dictRel r d -> outOk r -> eof < c <= hiOf lit d ->
  exists s out, strOf lit d c = Some s /\
    decodeCode r c = saveHi (rSetOutput r out (r_o r + len s)) (default 0 (head s)) /\
    len out = 8192 /\ take (Z.to_nat (r_o r + len s)) out = outOf r ++ s.
Proof.
  intros Hd [Ho Hr] Hc. destruct (proj2 (strOf_valid r d c Hd ltac:(lia))) as [s Hs]; [lia|].
  pose proof (expansion_length r d c s Hd (proj2 Hc) Hs) as Hlen.
  pose proof Hd as [Hcl _ _ Hhi Hmax _ _ HT HE Hlast]. unfold decodeCode, outOf.
  rewrite Ho. change (8192 - 1) with 8191. rewrite Hhi.
  assert (Hk : exists k : nat, 8191 = Z.of_nat k) by (exists (Z.to_nat 8191); lia). destruct Hk as [k Hk].
  rewrite Hk. assert (Hout : drop (k + 1) (r_output r) = []) by (apply drop_ge; unfold len in Ho; lia).
  destruct ((c =? hiOf lit d) && negb (r_last r =? decoderInvalidCode)) eqn:Espec.
  - apply andb_true_iff in Espec as [->%Z.eqb_eq Elast]. unfold strOf, hiOf in *.
    destruct (pending d) as [l|]; [|rewrite (proj1 Hlast), Z.eqb_refl in Elast; done]. destruct Hlast as [Hlr Hle].
    destruct (expOf_ok _ _ _ _ HE Hle) as [Hne Hb].
    assert (s = l ++ take 1 l) as ->.
    { destruct (expOf lit (strings d) _) eqn:E1 in Hs.
      - apply expOf_cases in E1 as [[? _]|(i & Hi & E1)]; [rewrite eof_clear in *; lia|].
        apply lookup_lt_Some in E1. unfold len in Hi. lia.
      - case_match; [simpl in Hs; congruence | done]. }
    rewrite len_app in Hlen. pose proof (len_nonneg (take 1 l)).
    rewrite (chainHead_spec r (strings d) (r_last r) l) by (try done; lia). simpl.
    destruct l as [|b l]; [done|]. pose proof (Forall_cons_1 _ _ _ Hb) as [Hb0 _]. pose proof (clear_range lit Hlit).
    simpl default. rewrite upd_Ok by lia. simpl. rewrite u8_id by lia. rewrite Nat2Z.id.
    replace (Z.of_nat k - 1) with (Z.of_nat (k - 1)) by lia.
    destruct (expand_spec r (strings d) (r_last r) (b :: l) [b] (<[k := b]> (r_output r)) (k - 1))
      as (out & -> & Hlo & Hta); try done.
    { replace (k - 1 + 1)%nat with k by lia. rewrite (drop_S _ b) by (apply list_lookup_insert_eq; unfold len in Ho; lia).
      rewrite drop_insert_lt by lia. f_equal. replace (S k) with (k + 1)%nat by lia. done. }
    { rewrite length_insert. simpl. unfold len in Ho. lia. }
    { by rewrite len_insert. }
    { rewrite len_app. simpl in Hlen. change (len [b]) with 1 in *. unfold len in *. simpl in *. lia. }
    exists ((b :: l) ++ [b]), out. split; [done|]. split; [done|]. split; [done|].
    rewrite Hta. rewrite take_insert_ge by (unfold len in *; lia). done.
  - assert (Hs' : expOf lit (strings d) c = Some s).
    { unfold strOf, hiOf in *. destruct (expOf lit (strings d) c); [done|].
      destruct (Z.eqb_spec c (eof + 1 + len (strings d))) as [->|]; [|done].
      destruct (pending d); [|done]. destruct Hlast as [Hlr _].
      rewrite (proj2 (Z.eqb_neq (r_last r) decoderInvalidCode)) in Espec by (unfold decoderInvalidCode; lia).
      simpl in Espec. rewrite andb_true_r in Espec. apply Z.eqb_neq in Espec. lia. }
    destruct (expand_spec r (strings d) c s [] (r_output r) k) as (out & He & Hlo & Hta); try done.
    { unfold len in Ho. simpl. lia. }
    { rewrite app_nil_r. lia. }
    rewrite app_nil_r in *. exists s, out. simpl. rewrite He. done.
Qed.

(** ** One round *)

Record readerRel (f : codeFn) (e : error) r (bits : list bool) (d : dict) : Prop := {
  rr_read : r_read r = Some f;
  rr_err : r_err r = None;
  rr_bits : refilled f r bits e 8 r;
  rr_dict : dictRel r d;
  rr_out : len (r_output r) = 8192 /\ 0 <= r_o r < 8192;
}.

Lemma refilled_io f r r1 r' S e :
  refilled f r S e 8 r1 -> r_r r' = r_r r1 -> r_bits r' = r_bits r1 -> r_nBits r' = r_nBits r1 ->
  refilled f r' S e 8 r'.
Proof.
  intros (src & bits & n & B & -> & Hp & Hn & HS & He) E1 E2 E3. simpl in *.
  eapply refilled_self; rewrite ?E1, ?E2, ?E3; eauto; lia.
Qed.

Lemma clear_rel r d :
  dictRel r d ->
  dictRel (rSetCodes r (1 + r_litWidth r) (r_eof r) (u16 (Z.shiftl 1 (1 + r_litWidth r))) decoderInvalidCode) emptyDict.
Proof.
  intros [? He Hl ? ? ? ? HT _ _]. pose proof (eof_range lit Hlit).
  assert (Hh : hiOf lit emptyDict = eof) by (unfold hiOf; simpl; rewrite len_nil; lia).
  constructor; simpl; rewrite ?Hh, ?Hl; try done.
  - lia.
  - rewrite widthOf_eof by done. lia.
  - rewrite shiftl_mul, Z.mul_1_l by lia. apply u16_id.
    assert (2 ^ (1 + lit) <= 2 ^ 9) by (apply Z.pow_le_mono_r; lia). lia.
  - split; [apply HT|]. split; [apply HT|]. intros i s E. done.
  - constructor.
  - auto.
Qed.

(** The end of a round that has put the bytes of the code at the end of the
    output. *)
Lemma finish_spec f e r r1 d c s out bits' :
  r_read r = Some f -> r_err r = None -> refilled f r bits' e 8 r1 -> dictRel r1 d -> r_toRead r1 = r_toRead r ->
  r_read r1 = Some f -> r_err r1 = None -> 0 <= c <= 4095 ->
  strOf lit d c = Some s -> len out = 8192 -> 0 <= r_o r1 + len s < 8192 ->
  (let! r := saveHi (rSetOutput r1 out (r_o r1 + len s)) (default 0 (head s)) in
   let! r := nextCode r c in
   if r_o r >=? flushBuffer then Ok (inr r) else Ok (inl r)) ⇓ fun res =>
    exists r', readerRel f e r' bits' (learn lit d s) /\ r_output r' = out /\ r_o r' = r_o r1 + len s /\
      r_toRead r' = r_toRead r /\ res = if r_o r' >=? 4096 then inr r' else inl r'.
Proof.
  intros Hf Herr Hb Hd Htr Hf1 Herr1 Hc Hs Ho Hl.
  assert (Hd' : dictRel (rSetOutput r1 out (r_o r1 + len s)) d) by (destruct Hd; by constructor).
  pose proof (learn_rel _ d c s Hd' Hc Hs) as HL.
  destruct (saveHi _ _) as [r2| |]; try done. simpl in *. eapply returns_bind_mono; [exact HL|].
  intros r3 [Hd3 Hio]. unfold ioOf in Hio. simpl in Hio. simplify_eq.
  assert (readerRel f e r3 bits' (learn lit d s)).
  { constructor; try congruence; try done.
    - eapply refilled_io; eauto.
    - split; [congruence | lia]. }
  change flushBuffer with 4096.
  destruct (r_o r3 >=? 4096) eqn:E; simpl; exists r3; rewrite E; split_and!; congruence.
Qed.

Lemma decodeStep_spec f e r bits d :
  readerRel f e r bits d -> r_o r < 4096 ->
  decodeStep r ⇓ fun res =>
    match decStep lit f e bits d with
    | inr err => exists r', res = inr r' /\ r_err r' = Some err /\ r_output r' = r_output r /\ r_o r' = r_o r
    | inl (s, bits', d') =>
        exists r', readerRel f e r' bits' d' /\ outOf r' = outOf r ++ s /\ r_o r' = r_o r + len s /\
          res = if r_o r' >=? 4096 then inr r' else inl r'
    end.
Proof.
  intros [Hf Herr Hb Hd [Ho Hr]] Hr4. pose proof (hi_bounds d) as Hhb. pose proof (eof_range lit Hlit) as He.
  pose proof Hd as [Hcl Heof Hl Hhi Hmax Hw Hov HT HE Hlast].
  pose proof (widthOf_range lit Hlit (hiOf lit d) ltac:(lia)) as Hwr.
  assert (Hp12 : 2 ^ r_width r <= 2 ^ 12) by (apply Z.pow_le_mono_r; lia).
  unfold decodeStep. eapply returns_bind_mono; [apply (callRead_spec f r bits e Hf Hb); lia|].
  intros [[c|x] r1].
  2: { intros (-> & Hlen & bound & Hb1). unfold decStep. rewrite <- Hw.
       destruct (Z.ltb_spec (len bits) (r_width r)); [|lia].
       destruct Hb1 as (src & bits1 & n & B & -> & _). simpl. eexists. split_and!; try done. }
  intros (S' & -> & Hc & Hb1). rewrite (decStep_bits lit Hlit f e (r_width r) c S' d) by done.
  assert (Hd1 : dictRel r1 d).
  { destruct Hb1 as (src & bits1 & n & B & -> & _). by constructor. }
  assert (E1 : r_output r1 = r_output r /\ r_o r1 = r_o r /\ r_toRead r1 = r_toRead r /\ r_read r1 = Some f /\ r_err r1 = None).
  { by destruct Hb1 as (src & bits1 & n & B & -> & _). }
  destruct E1 as (E1 & E2 & E3 & E4 & E5).
  rewrite (dr_clear _ _ Hd1), (dr_eof _ _ Hd1), (dr_hi _ _ Hd1). pose proof (eof_clear lit) as Hec.
  destruct (Z.ltb_spec c clear) as [L|L].
  { destruct (Z.eqb_spec c clear); [lia|]. destruct (Z.eqb_spec c eof); [lia|].
    assert (Hs : strOf lit d c = Some [c]) by (unfold strOf; by rewrite expOf_literal by lia).
    rewrite Hs. pose proof (clear_range lit Hlit). rewrite u8_id by lia.
    rewrite upd_Ok by (rewrite E1, E2; lia). cbn [rbind].
    change (saveHi (rSetOutput r1 ?o (r_o r1 + 1)) c)
      with (saveHi (rSetOutput r1 o (r_o r1 + len [c])) (default 0 (head [c]))).
    eapply returns_mono; [eapply (finish_spec f e r r1 d c [c]); eauto; rewrite ?len_insert; try lia; try congruence|].
    { rewrite E2. change (len [c]) with 1. lia. }
    intros res (r' & HR & H1 & H2 & H3 & ->). exists r'. split_and!; try done; [|by rewrite H2, E2].
    unfold outOf. rewrite H1, H2, E1, E2. change (len [c]) with 1.
    replace (Z.to_nat (r_o r + 1)) with (S (Z.to_nat (r_o r))) by lia.
    erewrite take_S_r by (apply list_lookup_insert_eq; unfold len in Ho; lia).
    by rewrite take_insert_ge by lia. }
  destruct (Z.eqb_spec c clear) as [->|Nc].
  { exists (rSetCodes r1 (1 + r_litWidth r1) (r_eof r1) (u16 (Z.shiftl 1 (1 + r_litWidth r1))) decoderInvalidCode).
    split; [|split; [|split; [|]]].
    - constructor; simpl; try done; [|exact (clear_rel r1 d Hd1)|rewrite E1, E2; done].
      eapply refilled_io; eauto.
    - unfold outOf. simpl. by rewrite app_nil_r, E1, E2.
    - simpl. rewrite len_nil, E2. lia.
    - simpl. destruct (Z.geb_spec (r_o r1) 4096); [lia|]. by rewrite (dr_eof _ _ Hd1). }
  destruct (Z.eqb_spec c eof) as [->|Ne].
  { simpl. eexists. split_and!; try done. }
  destruct (Z.leb_spec c (hiOf lit d)) as [Lh|Lh].
  - destruct (decodeCode_spec r1 d c Hd1) as (s & out & Hs & -> & Hlo & Hta).
    { unfold outOk. rewrite E1, E2. lia. } { lia. }
    rewrite Hs. pose proof (expansion_length r1 d c s Hd1 Lh Hs). pose proof (len_nonneg s).
    eapply returns_mono; [eapply (finish_spec f e r r1 d c s out); eauto; try lia|].
    intros res (r' & HR & H1 & H2 & H3 & ->). exists r'. split_and!; try done; [|by rewrite H2, E2].
    unfold outOf at 1. rewrite H1, H2, Hta. unfold outOf. by rewrite E1, E2.
  - destruct (strOf lit d c) eqn:Hs.
    { assert (eof < c) as Hlt by lia. pose proof (proj1 (strOf_valid r1 d c Hd1 Hlt) (mk_is_Some _ _ Hs)). lia. }
    simpl. eexists. split_and!; try done.
Qed.

(** ** decode and Read *)

Lemma decode_loop f e fuel r bits d :
  readerRel f e r bits d -> r_o r < 4096 -> (length bits < fuel)%nat ->
  loop fuel decodeStep r ⇓ fun r' =>
    exists out, outOf r' = outOf r ++ out /\ r_o r' = r_o r + len out /\
      len (r_output r') = 8192 /\ 0 <= r_o r' < 8192 /\
      ((4096 <= r_o r' /\ exists bits' d', runs lit f e bits d out bits' d' /\ readerRel f e r' bits' d' /\
          (length bits' < length bits)%nat) \/
       (exists err, r_err r' = Some err /\ produces lit f e bits d out err)).
Proof.
  revert r bits d. induction fuel as [|n IH]; intros r bits d HR Ho Hf; [lia|]. cbn [loop].
  eapply returns_bind_mono; [by apply decodeStep_spec|]. pose proof (rr_out _ _ _ _ _ HR) as Hout.
  intros res. destruct (decStep lit f e bits d) as [[[s bits'] d']|err] eqn:Es.
  - intros (r1 & HR1 & Ho1 & Hr1 & ->). pose proof (decStep_shorter lit Hlit _ _ _ _ _ _ _ Es) as Hsh.
    destruct (Z.geb_spec (r_o r1) 4096) as [G|G].
    + exists s. split_and!; try done; try apply (rr_out _ _ _ _ _ HR1).
      left. split; [lia|]. exists bits', d'. split; [by apply runs_one|]. done.
    + eapply returns_mono; [apply (IH r1 bits' d'); [done | lia | lia]|].
      intros r' (out & H1 & H2 & H3 & H4 & H5). exists (s ++ out). split_and!; try done; try lia.
      * rewrite H1, Ho1. by rewrite (assoc_L app).
      * rewrite H2, Hr1, len_app. lia.
      * destruct H5 as [(? & bits'' & d'' & Hrun & HR' & Hl)|(err & He & Hp)].
        -- left. split; [done|]. exists bits'', d''. split; [by eapply runs_cons|]. split; [done | lia].
        -- right. exists err. split; [done|]. by eapply produces_step.
  - intros (r1 & -> & H1 & H2 & H3). exists []. rewrite app_nil_r. unfold outOf. rewrite H2, H3, len_nil.
    split_and!; try done; try lia. right. exists err. split; [done|]. by apply produces_end.
Qed.

(** What a Reader still delivers: bytes, then the error [err]. *)
Definition delivers (f : codeFn) (e : error) (fuel : nat) r (data : list Z) (err : error) : Prop :=
  let '(lo, hi) := r_toRead r in
  0 <= lo <= hi /\ hi <= 8192 /\ len (r_output r) = 8192 /\
  let waiting := take (Z.to_nat (hi - lo)) (drop (Z.to_nat lo) (r_output r)) in
  (r_err r = Some err /\ data = waiting) \/
  (exists bits d rest, readerRel f e r bits d /\ r_o r = 0 /\ produces lit f e bits d rest err /\
     data = waiting ++ rest /\ (length bits < fuel)%nat).

Lemma runs_split f e bits d out bits' d' all err :
  runs lit f e bits d out bits' d' -> produces lit f e bits d all err ->
  exists rest, all = out ++ rest /\ produces lit f e bits' d' rest err.
Proof.
  intros H. revert all err. induction H as [|bits d s b1 d1 out b2 d2 Hs Hr IH]; intros all err Hp; [eauto|].
  inversion Hp as [? ? ? Hs2|? ? s2 b' d'' out2 ? Hs2 Hp2]; subst; rewrite Hs in Hs2; simplify_eq.
  destruct (IH _ _ Hp2) as (rest & -> & Hp'). exists rest. split; [by rewrite (assoc_L app) | done].
Qed.

Lemma decode_delivers f e fuel r data err :
  delivers f e fuel r data err -> r_err r = None -> r_toRead r = (snd (r_toRead r), snd (r_toRead r)) ->
  decode fuel r ⇓ fun r' => delivers f e fuel r' data err /\
    (r_err r' <> None \/ fst (r_toRead r') < snd (r_toRead r')).
Proof.
  intros HD Hne Heq. unfold delivers in HD. destruct (r_toRead r) as [lo hi]. simpl in Heq. simplify_eq.
  destruct HD as (Hlo & Hhi & Hlen & [[? _]|(bits & d & rest & HR & Ho & Hp & -> & Hf)]); [congruence|].
  rewrite Z.sub_diag. simpl. unfold decode. eapply returns_bind_mono; [apply (decode_loop f e fuel r bits d); [done | lia | done]|].
  intros r1 (out & H1 & H2 & H3 & H4 & H5). rewrite Ho, Z.add_0_l in H2. unfold outOf in H1. rewrite Ho in H1. simpl in H1.
  simpl. unfold delivers. simpl. rewrite Z.sub_0_r. rewrite drop_0, H1.
  destruct H5 as [(G & bits' & d' & Hrun & HR' & Hsh)|(err' & He' & Hp')].
  - destruct (runs_split _ _ _ _ _ _ _ _ _ Hrun Hp) as (rest' & -> & Hp').
    split; [|right; lia]. split_and!; try done; try lia. right.
    exists bits', d', rest'. split_and!; try done; [|lia].
    destruct HR' as [? ? ? Hd [? ?]]. constructor; simpl; try done; [|by destruct Hd].
    eapply refilled_io; eauto.
  - destruct (produces_det lit _ _ _ _ _ _ _ _ Hp Hp') as [-> ->].
    split; [|left; congruence]. split_and!; try done; try lia. by left.
Qed.

(** The outcome of a Read of [n] bytes. *)
Definition readOk (f : codeFn) (e : error) (fuel : nat) (data : list Z) (err : error) (n : Z)
    (out : list Z * option error * Reader R) : Prop :=
  let '(b, x, r') := out in
  exists data', data = b ++ data' /\ delivers f e fuel r' data' err /\ len b <= n /\
    x = (if decide (data = []) then Some err else None) /\ (0 < n -> data <> [] -> b <> []).

Lemma delivers_toRead f e fuel r data err lo hi m :
  delivers f e fuel r data err -> r_toRead r = (lo, hi) -> 0 <= m <= hi - lo ->
  let b := take (Z.to_nat m) (drop (Z.to_nat lo) (r_output r)) in
  len b = m /\ slice (r_output r) lo (lo + m) = Ok b /\
  exists data', data = b ++ data' /\ delivers f e fuel (rSetToRead r (r_o r) (lo + m, hi)) data' err.
Proof.
  unfold delivers. intros HD Et Hm. rewrite Et in HD. destruct HD as (Hlo & Hhi & Hlen & HD). simpl.
  set (w := drop (Z.to_nat lo) (r_output r)) in *.
  assert (Hw : take (Z.to_nat (hi - lo)) w = take (Z.to_nat m) w ++
            take (Z.to_nat (hi - (lo + m))) (drop (Z.to_nat (lo + m)) (r_output r))).
  { replace (Z.to_nat (hi - lo)) with (Z.to_nat m + Z.to_nat (hi - (lo + m)))%nat by lia.
    rewrite <- take_take_drop. f_equal. unfold w. rewrite drop_drop. do 2 f_equal. lia. }
  split; [unfold w, len in *; rewrite length_take, length_drop; lia|].
  split; [rewrite slice_Ok by lia; do 3 f_equal; lia|].
  destruct HD as [[He ->]|(bits & d & rest & HR & Ho & Hp & -> & Hf)].
  - eexists. split; [exact Hw|]. split; [lia|]. split; [done|]. split; [done|]. by left.
  - rewrite Hw, <- (assoc_L app). eexists. split; [done|]. split; [lia|]. split; [done|]. split; [done|].
    right. exists bits, d, rest. split_and!; try done.
    destruct HR as [? ? ? Hd ?]. constructor; try done; [|by destruct Hd]. eapply refilled_io; eauto.
Qed.

Lemma readRound_done f e fuel r data err n :
  delivers f e fuel r data err -> 0 <= n -> r_err r <> None \/ fst (r_toRead r) < snd (r_toRead r) ->
  readRound fuel n r ⇓ fun res => exists out, res = inr out /\ readOk f e fuel data err n out.
Proof.
  intros HD Hn Hc. unfold readRound. destruct (r_toRead r) as [lo hi] eqn:Et. simpl in Hc.
  assert (Hlh : 0 <= lo <= hi) by (unfold delivers in HD; rewrite Et in HD; apply HD).
  destruct (Z.gtb_spec (hi - lo) 0) as [G|G].
  - destruct (delivers_toRead _ _ _ _ _ _ _ _ (hi - lo) HD Et) as (L & _ & d1 & E1 & _); [lia|].
    destruct (delivers_toRead _ _ _ _ _ _ _ _ (Z.min n (hi - lo)) HD Et) as (Lb & -> & data' & E2 & HD'); [lia|].
    assert (Hne : data <> []).
    { intros ->. symmetry in E1. apply app_eq_nil in E1 as [E1 _]. rewrite E1, len_nil in L. lia. }
    simpl. eexists. split; [done|]. exists data'. rewrite decide_False by done. split_and!; try done; [lia|].
    intros H0 _ E. rewrite E, len_nil in Lb. lia.
  - pose proof HD as HD0. unfold delivers in HD. rewrite Et in HD.
    replace (hi - lo) with 0 in HD by lia. destruct HD as (_ & _ & _ & [[He ->]|(bits & d & rest & HR & _)]).
    + rewrite He. simpl. eexists. split; [done|]. exists []. split_and!; try done.
    + rewrite (rr_err _ _ _ _ _ HR) in Hc. destruct Hc; [done | lia].
Qed.

Lemma Read_delivers f e fuel r data err n :
  delivers f e fuel r data err -> 0 <= n -> Reader_Read fuel r n ⇓ readOk f e fuel data err n.
Proof.
  intros HD Hn. unfold Reader_Read.
  assert (Hdone : forall r k, delivers f e fuel r data err ->
    r_err r <> None \/ fst (r_toRead r) < snd (r_toRead r) ->
    loop (S k) (readRound fuel n) r ⇓ readOk f e fuel data err n).
  { intros r' k HD' Hc. cbn [loop]. eapply returns_bind_mono; [by apply (readRound_done f e)|].
    by intros res (out & -> & Hok). }
  destruct (r_err r) as [x|] eqn:He.
  { apply Hdone; [done|]. left. congruence. }
  destruct (Z.lt_ge_cases (fst (r_toRead r)) (snd (r_toRead r))) as [L|L].
  { apply Hdone; auto. }
  cbn [loop]. unfold readRound at 1. destruct (r_toRead r) as [lo hi] eqn:Et. simpl in L.
  assert (Hlh : 0 <= lo <= hi) by (unfold delivers in HD; rewrite Et in HD; apply HD).
  destruct (Z.gtb_spec (hi - lo) 0); [lia|]. rewrite He.
  pose proof (decode_delivers f e fuel r data err HD He) as Hdec. rewrite Et in Hdec. simpl in Hdec.
  specialize (Hdec ltac:(f_equal; lia)). destruct (decode fuel r) as [r1| |]; try done.
  destruct Hdec as [HD1 Hc1]. exact (Hdone r1 1%nat HD1 Hc1).
Qed.
End Decode.
