(* ===== verification/LzwWriter.v ===== *)
(** * compress/lzw: the hash table of the Writer

    The table with linear probing is a map from keys to codes: the key of the
    i-th string of the dictionary has code [first + i]. *)
From Stdlib Require Import ZArith Lia.
From stdpp Require Import base numbers list.
From S2P Require Import Prelude Lzw LzwBits LzwDict LzwReader.

Section Table.
Variable first : Z.
Hypothesis Hfirst : 0 < first.

Definition entryOf (i : nat) (key : Z) : Z := key * 2 ^ 12 + (first + Z.of_nat i).

(** The [j]-th slot that is probed from [h]. *)
Definition slot (h j : Z) : Z := (h + j) mod 16384.

Record hashRep (table : list Z) (K : list Z) : Prop := {
  hr_len : len table = 16384;
  hr_nodup : NoDup K;
  hr_keys : Forall (fun key => 0 <= key < 2 ^ 20) K;
  hr_room : first + len K <= 4095;
  hr_sound : forall h t, idx table h = Ok t -> t <> 0 -> exists i key, K !! i = Some key /\ t = entryOf i key;
  hr_complete : forall i key, K !! i = Some key ->
    exists j, 0 <= j /\ idx table (slot (hashOf key) j) = Ok (entryOf i key) /\
      forall j', 0 <= j' < j -> idx table (slot (hashOf key) j') <> Ok 0;
  hr_count : (length (filter (fun t : Z => t <> 0%Z) table) <= length K)%nat;
}.

Lemma slot_range h j : 0 <= slot h j < 16384.
Proof. apply Z.mod_pos_bound. lia. Qed.

Lemma slot_next h j : Z.land (u32 (slot h j + 1)) tableMask = slot h (j + 1).
Proof.
  pose proof (slot_range h j). rewrite u32_id by lia.
  rewrite (land_ones' _ 14) by (try lia; done). unfold slot.
  change (2 ^ 14) with 16384. rewrite Zplus_mod_idemp_l. f_equal. lia.
Qed.

Lemma hashOf_range key : 0 <= hashOf key < 16384.
Proof. unfold hashOf. rewrite (land_ones' _ 14) by (try lia; done). apply Z.mod_pos_bound. lia. Qed.

Lemma slot_0 key : slot (hashOf key) 0 = hashOf key.
Proof. unfold slot. rewrite Z.add_0_r. apply Z.mod_small, hashOf_range. Qed.

(** How far a probe from [h] has gone. *)
Lemma slot_dist h j : 0 <= j < 16384 -> (slot h j - h) mod 16384 = j.
Proof.
  intros Hj. unfold slot. rewrite Zminus_mod_idemp_l. replace (h + j - h) with j by lia. by apply Z.mod_small.
Qed.

Lemma slot_surj h p : 0 <= p < 16384 -> exists j, 0 <= j < 16384 /\ slot h j = p.
Proof.
  intros Hp. exists ((p - h) mod 16384). split; [apply Z.mod_pos_bound; lia|].
  unfold slot. rewrite Zplus_mod_idemp_r. replace (h + (p - h)) with p by lia. by apply Z.mod_small.
Qed.

Lemma idx_slot (table : list Z) h j : len table = 16384 -> exists t, idx table (slot h j) = Ok t.
Proof.
  intros Hl. pose proof (slot_range h j). destruct (lookup_lt_is_Some_2 table (Z.to_nat (slot h j))) as [t Ht].
  { unfold len in Hl. lia. }
  exists t. apply idx_Ok; [lia | done].
Qed.

Lemma filter_all (table : list Z) :
  (forall p, 0 <= p < len table -> idx table p <> Ok 0) -> filter (fun t : Z => t <> 0%Z) table = table.
Proof.
  induction table as [|t table IH]; intros HH; [done|]. rewrite filter_cons_True.
  - f_equal. apply IH. intros p Hp. specialize (HH (p + 1)). rewrite len_cons in HH. revert HH. unfold idx.
    destruct (Z.leb_spec 0 (p + 1)), (Z.leb_spec 0 p); try lia.
    replace (Z.to_nat (p + 1)) with (S (Z.to_nat p)) by lia. simpl. intros HH. apply HH. lia.
  - intros ->. apply (HH 0); [rewrite len_cons; pose proof (len_nonneg table); lia | done].
Qed.

Lemma filter_zeros (table : list Z) : Forall (eq 0) table -> filter (fun t : Z => t <> 0%Z) table = [].
Proof.
  induction 1 as [|x table <- H0 IH]; [done|]. by rewrite filter_cons_False by (intros N; by apply N).
Qed.

(** The entries of a table with free slots: a probe meets one. *)
Lemma probe_bound table K h j :
  hashRep table K -> 0 <= j -> (forall j', 0 <= j' < j -> idx table (slot h j') <> Ok 0) -> j < 16384.
Proof.
  intros HR Hj Hv. destruct (Z.lt_ge_cases j 16384) as [|G]; [done|]. exfalso.
  pose proof (hr_count _ _ HR) as Hc. pose proof (hr_room _ _ HR) as Hr. pose proof (hr_len _ _ HR) as Hl.
  rewrite filter_all in Hc; [unfold len in *; lia|].
  intros p Hp. rewrite Hl in Hp. destruct (slot_surj h p Hp) as (j' & Hj' & <-). apply Hv. lia.
Qed.

Lemma entry_key table K i key :
  hashRep table K -> K !! i = Some key ->
  Z.shiftr (entryOf i key) 12 = key /\ Z.land (entryOf i key) maxCode = first + Z.of_nat i /\ entryOf i key <> 0.
Proof.
  intros HR Hi. pose proof (hr_room _ _ HR) as Hr. pose proof (Forall_lookup_1 _ _ _ _ (hr_keys _ _ HR) Hi) as Hk.
  apply lookup_lt_Some in Hi. simpl in Hk. unfold len, entryOf in *.
  rewrite shiftr_div by lia. rewrite (land_ones' _ 12) by (try lia; done).
  split_and!; [|rewrite Z.add_comm, Z.mod_add by lia; apply Z.mod_small; lia|lia].
  rewrite Z.add_comm, Z.div_add by lia. rewrite Z.div_small by lia. lia.
Qed.

(** probe finds the code of every key of the table, and of no other. *)
Lemma probe_spec table K key :
  hashRep table K -> probe table key (hashOf key) ⇓ fun hit =>
    match hit with
    | Some c => exists i, K !! i = Some key /\ c = first + Z.of_nat i
    | None => key ∉ K
    end.
Proof.
  intros HR. pose proof (hr_len _ _ HR) as Hl. unfold probe. rewrite <- (slot_0 key) at 1.
  destruct (idx_slot table (hashOf key) 0 Hl) as (t0 & Ht0). rewrite Ht0. cbn [rbind].
  apply (loop_returns (fun '(h, t) => exists j, 0 <= j < 16384 /\ h = slot (hashOf key) j /\ idx table h = Ok t /\
     forall j', 0 <= j' < j -> exists t', idx table (slot (hashOf key) j') = Ok t' /\ t' <> 0 /\ Z.shiftr t' 12 <> key)
     (fun '(h, t) => 16384 - (h - hashOf key) mod 16384)).
  - intros [h t] (j & Hj & -> & Ht & Hv).
    destruct (Z.eqb_spec t invalidEntry) as [->|N]; unfold invalidEntry in *; cbn [negb].
    + simpl. intros [i Hi]%list_elem_of_lookup. destruct (hr_complete _ _ HR i key Hi) as (j0 & Hj0 & He & Hb).
      destruct (entry_key _ _ _ _ HR Hi) as (Ek & _ & En).
      destruct (Z.lt_trichotomy j0 j) as [L|[->|L]].
      * destruct (Hv j0 ltac:(lia)) as (t' & Ht' & _ & Hk). congruence.
      * congruence.
      * by apply (Hb j ltac:(lia)).
    + destruct (hr_sound _ _ HR _ _ Ht N) as (i & key' & Hi & ->).
      destruct (entry_key _ _ _ _ HR Hi) as (Ek & Ec & En). rewrite Ek.
      destruct (Z.eqb_spec key key') as [->|Nk]; [simpl; rewrite Ec; eauto|].
      rewrite slot_next. destruct (idx_slot table (hashOf key) (j + 1) Hl) as (t' & Ht'). rewrite Ht'. simpl.
      assert (Hv' : forall j', 0 <= j' < j + 1 -> exists t', idx table (slot (hashOf key) j') = Ok t' /\ t' <> 0 /\ Z.shiftr t' 12 <> key).
      { intros j' Hj'. destruct (Z.eq_dec j' j) as [->|]; [|apply Hv; lia]. eexists. split; [exact Ht|]. split; [done|]. rewrite Ek. congruence. }
      assert (j + 1 < 16384).
      { apply (probe_bound table K (hashOf key)); [exact HR | lia|]. intros j' Hj' E. destruct (Hv' j' Hj') as (t1 & E1 & E2 & _). congruence. }
      split; [exists (j + 1); split_and!; try done; lia|].
      rewrite !slot_dist by lia. lia.
  - exists 0. split; [lia|]. split; [by rewrite slot_0|]. split; [by rewrite slot_0 in Ht0|]. intros; lia.
  - change tableSize with 16384. rewrite Z.sub_diag, Zmod_0_l. lia.
  - rewrite Z.sub_diag, Zmod_0_l. lia.
Qed.

Lemma filter_insert_zero (table : list Z) (p : nat) e :
  table !! p = Some 0 -> e <> 0 ->
  length (filter (fun t : Z => t <> 0%Z) (<[p := e]> table)) = S (length (filter (fun t : Z => t <> 0%Z) table)).
Proof.
  intros Hp He. rewrite <- (take_drop_middle table p 0 Hp) at 2.
  rewrite insert_take_drop by (by eapply lookup_lt_Some).
  rewrite !filter_app, !length_app. rewrite filter_cons_True by done. rewrite (filter_cons_False _ 0) by (intros N; by apply N).
  simpl. lia.
Qed.

Lemma hashRep_insert table K key j :
  hashRep table K -> key ∉ K -> 0 <= key < 2 ^ 20 -> first + len K + 1 <= 4095 -> 0 <= j ->
  idx table (slot (hashOf key) j) = Ok 0 ->
  (forall j', 0 <= j' < j -> idx table (slot (hashOf key) j') <> Ok 0) ->
  hashRep (<[Z.to_nat (slot (hashOf key) j) := entryOf (length K) key]> table) (K ++ [key]).
Proof.
  intros HR Hk Hr Hroom Hj Hz Hv. set (p := slot (hashOf key) j) in *.
  pose proof (slot_range (hashOf key) j) as Hp. fold p in Hp. pose proof (hr_len _ _ HR) as Hl.
  assert (He : entryOf (length K) key <> 0) by (unfold entryOf; lia).
  assert (Hkeep : forall h, idx table h <> Ok 0 -> idx (<[Z.to_nat p := entryOf (length K) key]> table) h = idx table h).
  { intros h Hh. apply idx_insert_ne; [lia|]. intros ->. done. }
  assert (Hnz : forall h, idx table h <> Ok 0 -> idx (<[Z.to_nat p := entryOf (length K) key]> table) h <> Ok 0).
  { intros h Hh. by rewrite Hkeep. }
  constructor.
  - by rewrite len_insert.
  - apply NoDup_app. split; [apply HR|]. split; [|apply NoDup_singleton].
    intros x Hx ->%list_elem_of_singleton. done.
  - apply Forall_app. split; [apply HR | by constructor].
  - rewrite len_app, len_cons, len_nil. lia.
  - intros h t Ht Hn. destruct (Z.eq_dec h p) as [->|N].
    + rewrite idx_insert_eq in Ht by lia. simplify_eq. exists (length K), key. split; [|done].
      by rewrite list_lookup_middle.
    + rewrite idx_insert_ne in Ht by lia. destruct (hr_sound _ _ HR _ _ Ht Hn) as (i & k & Hi & ->).
      exists i, k. split; [by apply lookup_app_l_Some | done].
  - intros i k Hi. apply lookup_app_Some in Hi as [Hi|[Hge Hi]].
    + destruct (hr_complete _ _ HR i k Hi) as (j0 & Hj0 & E & Hb). exists j0. split; [done|].
      split; [|intros j' Hj'; apply Hnz, Hb, Hj']. rewrite Hkeep; [done|].
      destruct (entry_key _ _ _ _ HR Hi) as (_ & _ & En). congruence.
    + apply list_lookup_singleton_Some in Hi as [Hi <-]. replace i with (length K) by lia.
      exists j. split; [done|]. split; [by apply idx_insert_eq; lia|]. intros j' Hj'. apply Hnz, Hv, Hj'.
  - rewrite filter_insert_zero, length_app; [|by apply idx_inv in Hz as [_ ?]|done].
    pose proof (hr_count _ _ HR). simpl. lia.
Qed.

Lemma insertEntry_spec table K key entry :
  hashRep table K -> key ∉ K -> 0 <= key < 2 ^ 20 -> first + len K + 1 <= 4095 -> entry = entryOf (length K) key ->
  insertEntry table (hashOf key) entry ⇓ fun table' => hashRep table' (K ++ [key]).
Proof.
  intros HR Hk Hr Hroom ->. pose proof (hr_len _ _ HR) as Hl. unfold insertEntry.
  apply (loop_returns (fun h => exists j, 0 <= j < 16384 /\ h = slot (hashOf key) j /\
     forall j', 0 <= j' < j -> idx table (slot (hashOf key) j') <> Ok 0)
     (fun h => 16384 - (h - hashOf key) mod 16384)).
  - intros h (j & Hj & -> & Hv).
    destruct (idx_slot table (hashOf key) j Hl) as (t & Ht). rewrite Ht. cbn [rbind].
    destruct (Z.eqb_spec t invalidEntry) as [->|N]; unfold invalidEntry in *.
    + pose proof (slot_range (hashOf key) j). rewrite upd_Ok by lia. simpl. apply hashRep_insert; try done; lia.
    + simpl. rewrite slot_next.
      assert (Hv' : forall j', 0 <= j' < j + 1 -> idx table (slot (hashOf key) j') <> Ok 0).
      { intros j' Hj'. destruct (Z.eq_dec j' j) as [->|]; [congruence | apply Hv; lia]. }
      assert (j + 1 < 16384) by (eapply probe_bound; [exact HR | lia | exact Hv']).
      split; [exists (j + 1); split_and!; try done; lia|].
      rewrite !slot_dist by lia. lia.
  - exists 0. split; [lia|]. split; [by rewrite slot_0|]. intros; lia.
  - change tableSize with 16384. rewrite Z.sub_diag, Zmod_0_l. lia.
  - rewrite Z.sub_diag, Zmod_0_l. lia.
Qed.

Lemma hashRep_empty table : len table = 16384 -> first <= 4095 -> Forall (eq 0) table -> hashRep table [].
Proof.
  intros Hl Hf H0. constructor; try done.
  - constructor.
  - rewrite len_nil. lia.
  - intros h t Ht Hn. apply idx_inv in Ht as [_ Ht]. pose proof (Forall_lookup_1 _ _ _ _ H0 Ht). congruence.
  - rewrite (filter_zeros table H0). done.
Qed.
End Table.

(** * compress/lzw: the Writer encodes

    The Writer against the specification's encoder: the bits of each code reach
    the destination, the hash table holds the dictionary, and a call of Write is
    the encoder's loop over its bytes. *)

(** A destination: the bytes it has been given.  errOutOfCodes is internal to
    the package, so no destination returns it. *)
Class ByteSink (W : Type) {WR : writer W} := {
  written : W -> list Z;
  WriteByte_ok : forall w b w', WriteByte w b = (None, w') -> written w' = written w ++ [b];
  Flush_ok : forall w w', Flush w = (None, w') -> written w' = written w;
  WriteByte_err : forall w b e w', WriteByte w b = (Some e, w') -> e <> errOutOfCodes;
}.

Section WriteCode.
Context {W : Type} {WR : writer W} {BK : ByteSink W}.
Implicit Types w : Writer W.

(** The bits written since the destination held [P]: [T]. *)
Definition wroteBits (f : codeFn) (P : list Z) w (bound : Z) (T : list bool) : Prop :=
  exists dst out B, w_w w = Some dst /\ written dst = P ++ out /\
    pend f (w_bits w) (w_nBits w) B /\ w_nBits w < bound /\ T = bytesBits f out ++ B.

(** [w'] is [w] but for the destination and the bits. *)
Definition sameButBits w w' : Prop := exists dst bits n, w' = wSetBits w (Some dst) bits n.

Definition notOutOfCodes (err : option error) : Prop := err <> Some errOutOfCodes.

Lemma drainBits_spec f P (first next : Z -> Z) w T bound :
  (forall bits, 0 <= topBits f 8 bits < 2 ^ 8 -> first bits = topBits f 8 bits) ->
  (forall bits, next bits = dropBits f 8 bits) ->
  wroteBits f P w bound T ->
  drainBits first next w ⇓ fun '(err, w') => sameButBits w w' /\ notOutOfCodes err /\
    (err = None -> wroteBits f P w' 8 T).
Proof.
  intros Hfirst Hnext Hw. unfold drainBits.
  apply (loop_returns (fun w' => wroteBits f P w' bound T /\ sameButBits w w') (fun w' => Z.max 0 (w_nBits w'))).
  - intros w' [(dst & out & B & Hd & Hwr & Hp & Hb & HT) (dst0 & bits & n & ->)]. simpl in *. simplify_eq.
    destruct (Z.geb_spec n 8) as [G|G]; simpl.
    + destruct (pend_take _ _ _ _ 8 Hp ltac:(lia)) as (B' & -> & Hr & Hp').
      unfold putByte. simpl. rewrite Hfirst by done.
      destruct (WriteByte dst (topBits f 8 bits)) as [[err|] dst'] eqn:Eb; simpl.
      * split; [by eexists _, _, _|]. split; [|done]. intros [= ->]. by apply WriteByte_err in Eb.
      * apply WriteByte_ok in Eb. rewrite Hnext. split; [split|].
        -- exists dst', (out ++ [topBits f 8 bits]), B'. simpl. split_and!; try done; [|lia|].
           ++ by rewrite Eb, Hwr, (assoc_L app).
           ++ rewrite bytesBits_app, bytesBits_cons, <- !(assoc_L app). done.
        -- by eexists _, _, _.
        -- destruct Hp' as [? _]. lia.
    + split; [by eexists _, _, _|]. split; [done|]. intros _. exists dst, out, B. split_and!; try done; simpl; lia.
  - split; [done|]. destruct Hw as (dst & out & B & Hd & _). exists dst, (w_bits w), (w_nBits w).
    rewrite <- Hd. by destruct w.
  - lia.
  - lia.
Qed.

Lemma callWrite_spec f P w T c :
  w_write w = Some f -> wroteBits f P w 8 T -> 0 < w_width w <= 12 -> 0 <= c < 2 ^ w_width w ->
  callWrite w c ⇓ fun '(err, w') => sameButBits w w' /\ notOutOfCodes err /\
    (err = None -> wroteBits f P w' 8 (T ++ bitsOf f (w_width w) c)).
Proof.
  intros Hf (dst & out & B & Hd & Hwr & Hp & Hb & HT) Hw Hc. unfold callWrite. rewrite Hf.
  pose proof (pend_put _ _ _ _ (w_width w) c Hp ltac:(lia) ltac:(lia) Hc) as Hp'. pose proof Hp as [Hn _].
  assert (Hput : forall bits, bits = putBits f (w_width w) (w_bits w) c (w_nBits w) ->
    wroteBits f P (wSetBits w (w_w w) bits (w_nBits w + w_width w)) 32 (T ++ bitsOf f (w_width w) c)).
  { intros bits ->. exists dst, out, (B ++ bitsOf f (w_width w) c). simpl. split_and!; try done; [lia|].
    by rewrite HT, <- (assoc_L app). }
  assert (Hframe : forall bits n (Q : Writer W -> Prop) m, m ⇓ (fun '(err, w') =>
      sameButBits (wSetBits w (w_w w) bits n) w' /\ notOutOfCodes err /\ (err = None -> Q w')) ->
      m ⇓ fun '(err, w') => sameButBits w w' /\ notOutOfCodes err /\ (err = None -> Q w')).
  { intros bits n Q m H. eapply returns_mono; [exact H|]. intros [err w'] [(d & b & k & ->) H2].
    split; [by eexists _, _, _ | done]. }
  destruct f; unfold writeLSB, writeMSB; eapply Hframe; eapply drainBits_spec; try (by apply Hput); try done.
  intros bits Hr. simpl in *. apply u8_id. change (2 ^ 8) with 256 in Hr. change (32 - 8) with 24 in Hr. done.
Qed.
End WriteCode.

(** ** The dictionary *)

Section Dictionary.
Variable lit : Z.
Hypothesis Hlit : 2 <= lit <= 8.
Abbreviation eof := (eofOf lit).
Abbreviation clear := (clearOf lit).

(** The keys of the strings: the code of all but the last byte, and that byte. *)
Definition keysRel (K : list Z) (E : list (list Z)) : Prop :=
  length K = length E /\
  forall i key s, K !! i = Some key -> E !! i = Some s -> exists p b s',
    key = p * 256 + b /\ s = s' ++ [b] /\ expOf lit E p = Some s' /\ 0 <= b < 256.

Definition tableRel (table : list Z) (E : list (list Z)) : Prop :=
  exists K, hashRep (eof + 1) table K /\ keysRel K E.

Definition keyOf (code x : Z) : Z := Z.lor (u32 (Z.shiftl code 8)) x.

Lemma keyOf_eq code x : 0 <= code < 4096 -> 0 <= x < 256 -> keyOf code x = code * 256 + x.
Proof.
  intros Hc Hx. unfold keyOf. rewrite shiftl_mul, u32_id by lia. apply (lor_disjoint_mul _ _ 8); lia.
Qed.

Lemma expOf_inj E c c' s :
  NoDup E -> dictOk lit E -> expOf lit E c = Some s -> expOf lit E c' = Some s -> c = c'.
Proof.
  intros Hn [_ Hl] H1 H2.
  assert (Hlong : forall i, E !! i = Some s -> (2 <= length s)%nat) by (intros i Hi; exact (Forall_lookup_1 _ _ _ _ Hl Hi)).
  apply expOf_cases in H1 as [[? ->]|(i & -> & Hi)], H2 as [[? E2]|(j & -> & Hj)].
  - congruence.
  - apply Hlong in Hj. simpl in Hj. lia.
  - subst s. apply Hlong in Hi. simpl in Hi. lia.
  - by rewrite (NoDup_lookup E i j s Hn Hi Hj).
Qed.

Lemma expOf_range E c s : dictOk lit E -> expOf lit E c = Some s -> 0 <= c <= eof + len E /\ c < 4096 /\ wordOk lit E s.
Proof.
  intros [Hm _] He. change maxCode with 4095 in Hm. pose proof (eof_range lit Hlit). pose proof (clear_range lit Hlit).
  pose proof (eof_clear lit). pose proof (len_nonneg E).
  apply expOf_cases in He as [[Hc ->]|(i & -> & Hi)].
  - split; [lia|]. split; [lia|]. left. eauto.
  - pose proof (lookup_lt_Some _ _ _ Hi). unfold len in *. split; [lia|]. split; [lia|]. right.
    by eapply list_elem_of_lookup_2.
Qed.

Lemma probe_dict table E code cur x :
  tableRel table E -> NoDup E -> dictOk lit E -> expOf lit E code = Some cur -> 0 <= x < 256 ->
  probe table (keyOf code x) (hashOf (keyOf code x)) ⇓ fun hit =>
    match hit with
    | Some c => cur ++ [x] ∈ E /\ expOf lit E c = Some (cur ++ [x])
    | None => cur ++ [x] ∉ E
    end.
Proof.
  intros (K & HR & Hlen & HK) Hn Hd He Hx. pose proof (expOf_range _ _ _ Hd He) as (Hc & Hc' & _).
  eapply returns_mono; [apply (probe_spec (eof + 1)); [pose proof (eof_range lit Hlit); lia | exact HR]|].
  rewrite keyOf_eq by lia. intros [c|].
  - intros (i & Hi & ->). destruct (lookup_lt_is_Some_2 E i) as [s Hs].
    { rewrite <- Hlen. by eapply lookup_lt_Some. }
    destruct (HK i _ s Hi Hs) as (p & b & s' & Ek & -> & Hp & Hb).
    assert (p = code /\ b = x) as [-> ->] by lia. rewrite He in Hp. simplify_eq.
    split; [by eapply list_elem_of_lookup_2 | by apply expOf_lookup].
  - intros Hnot [i Hi]%list_elem_of_lookup. apply Hnot.
    destruct (lookup_lt_is_Some_2 K i) as [key Hkey].
    { rewrite Hlen. by eapply lookup_lt_Some. }
    destruct (HK i key _ Hkey Hi) as (p & b & s' & -> & Es & Hp & Hb).
    apply app_inj_tail in Es as [<- <-].
    rewrite (expOf_inj _ _ _ _ Hn Hd He Hp). by eapply list_elem_of_lookup_2.
Qed.

Lemma insert_dict table E code cur x hi :
  tableRel table E -> NoDup E -> dictOk lit E -> expOf lit E code = Some cur -> 0 <= x < 256 ->
  cur ++ [x] ∉ E -> hi = eof + len E + 1 -> hi < maxCode ->
  insertEntry table (hashOf (keyOf code x)) (Z.lor (u32 (Z.shiftl (keyOf code x) 12)) hi) ⇓ fun table' =>
    tableRel table' (E ++ [cur ++ [x]]).
Proof.
  intros (K & HR & Hlen & HK) Hn Hd He Hx Hnot -> Hm. change maxCode with 4095 in Hm.
  pose proof (expOf_range _ _ _ Hd He) as (Hc & Hc' & _). pose proof (eof_range lit Hlit). pose proof (len_nonneg E).
  assert (Hkey : code * 256 + x ∉ K).
  { intros [i Hi]%list_elem_of_lookup. apply Hnot. destruct (lookup_lt_is_Some_2 E i) as [s Hs].
    { rewrite <- Hlen. by eapply lookup_lt_Some. }
    destruct (HK i _ s Hi Hs) as (p & b & s' & Ek & -> & Hp & Hb).
    assert (p = code /\ b = x) as [-> ->] by lia. rewrite He in Hp. simplify_eq. by eapply list_elem_of_lookup_2. }
  rewrite keyOf_eq by lia. eapply returns_mono; [apply (insertEntry_spec (eof + 1)); [lia | exact HR | exact Hkey | lia | |]|].
  - unfold len in *. lia.
  - rewrite shiftl_mul, u32_id by lia. rewrite (lor_disjoint_mul _ _ 12) by lia. unfold entryOf, len. lia.
  - intros table' HR'. exists (K ++ [code * 256 + x]). split; [done|]. split; [by rewrite !length_app, Hlen|].
    intros i key s Hi Hs. apply lookup_app_Some in Hi as [Hi|[Hge Hi]].
    + apply lookup_app_Some in Hs as [Hs|[Hge _]]; [|apply lookup_lt_Some in Hi; lia].
      destruct (HK i key s Hi Hs) as (p & b & s' & -> & -> & Hp & Hb). exists p, b, s'. split_and!; try done; try lia.
      by apply expOf_app.
    + apply lookup_app_Some in Hs as [Hs|[_ Hs]]; [apply lookup_lt_Some in Hs; lia|].
      apply list_lookup_singleton_Some in Hi as [_ <-]. apply list_lookup_singleton_Some in Hs as [_ <-].
      exists code, x, cur. split_and!; try done; try lia. by apply expOf_app.
Qed.

Lemma tableRel_empty table : len table = 16384 -> Forall (eq 0) table -> tableRel table [].
Proof.
  intros Hl H0. pose proof (eof_range lit Hlit). exists []. split; [apply hashRep_empty; try done; lia|].
  split; [done|]. intros i key s Hi. done.
Qed.
End Dictionary.
