(* ===== verification/LzwEncode.v ===== *)
(** * compress/lzw: Write and Close

    The methods of the Writer against the encoder of the specification, for every
    destination: unless the destination fails, the bits of the encoder's codes
    are written. *)
From Stdlib Require Import ZArith Lia.
From stdpp Require Import base numbers list.
From S2P Require Import Prelude Lzw LzwBits LzwDict LzwReader LzwWriter.

Section Encode.
Context {W : Type} {WR : writer W} {BK : ByteSink W}.
Implicit Types w : Writer W.
Variables (lit : Z) (f : codeFn) (P : list Z).
Hypothesis Hlit : 2 <= lit <= 8.
Abbreviation eof := (eofOf lit).
Abbreviation clear := (clearOf lit).

(** The code that the next emission implies is [h + 1]. *)
Record hiRel w (h : Z) : Prop := {
  hl_lit : w_litWidth w = lit;
  hl_write : w_write w = Some f;
  hl_hi : w_hi w = h;
  hl_width : w_width w = widthOf lit h;
  hl_overflow : w_overflow w = 2 ^ w_width w;
}.

(** The Writer has written [T] and its dictionary is [E]. *)
Record wInv w (T : list bool) (E : list (list Z)) : Prop := {
  wi_bits : wroteBits f P w 8 T;
  wi_hi : hiRel w (eof + len E);
  wi_table : tableRel lit (w_table w) E;
  wi_nodup : NoDup E;
  wi_dict : dictOk lit E;
}.

(** What no write of a code changes. *)
Definition fixedOf w := (w_savedCode w, w_order w).

Lemma hiRel_bits w w' h : sameButBits w w' -> hiRel w h -> hiRel w' h.
Proof. intros (dst & bits & n & ->) []. by constructor. Qed.

Lemma width_range w h : hiRel w h -> eof <= h < 4096 -> 0 < w_width w <= 12 /\ 2 ^ w_width w <= 4096 /\ h < 2 ^ w_width w.
Proof.
  intros Hh Hr. pose proof (eof_range lit Hlit). rewrite (hl_width _ _ Hh).
  pose proof (widthOf_range lit Hlit h ltac:(lia)). pose proof (widthOf_lt lit h ltac:(lia)).
  assert (2 ^ widthOf lit h <= 2 ^ 12) by (apply Z.pow_le_mono_r; lia). lia.
Qed.

(** The clear code, and the state after it. *)
Lemma sendClear_spec w T h :
  hiRel w h -> eof <= h < 4096 -> wroteBits f P w 8 T ->
  u32 (Z.shiftl 1 (w_litWidth w)) = clear /\
  callWrite w clear ⇓ fun '(err, w') => sameButBits w w' /\ notOutOfCodes err /\
    (err = None -> wroteBits f P w' 8 (T ++ bitsOf f (widthOf lit h) clear)).
Proof.
  intros Hh Hr Hw. pose proof (width_range _ _ Hh Hr) as (Hw1 & Hw2 & Hw3). pose proof (clear_range lit Hlit) as Hc.
  pose proof (eof_clear lit). split.
  - rewrite (hl_lit _ _ Hh), shiftl_mul, Z.mul_1_l by lia. fold (clearOf lit). apply u32_id. lia.
  - rewrite <- (hl_width _ _ Hh). apply callWrite_spec; try done; [apply Hh | lia].
Qed.

Lemma incHi_spec w T h :
  hiRel w h -> eof <= h < maxCode -> wroteBits f P w 8 T ->
  incHi w ⇓ fun '(err, w') => fixedOf w' = fixedOf w /\ w_err w' = w_err w /\
    if h + 1 =? maxCode then
      (err = Some errOutOfCodes /\ hiRel w' eof /\
       wroteBits f P w' 8 (T ++ bitsOf f (widthOf lit (h + 1)) clear) /\
       Forall (eq 0) (w_table w') /\ len (w_table w') = len (w_table w)) \/
      (exists e, err = Some e /\ e <> errOutOfCodes)
    else err = None /\ hiRel w' (h + 1) /\ wroteBits f P w' 8 T /\ w_table w' = w_table w.
Proof.
  intros Hh Hr Hw. change maxCode with 4095 in *. pose proof (width_range _ _ Hh ltac:(lia)) as (Hw1 & Hw2 & Hw3).
  pose proof (eof_range lit Hlit). unfold incHi. simpl.
  rewrite (hl_hi _ _ Hh), u32_id, (hl_overflow _ _ Hh) by lia.
  pose proof (widthOf_succ lit Hlit h ltac:(lia)) as Hs. rewrite <- (hl_width _ _ Hh) in Hs.
  set (w1 := if h + 1 =? 2 ^ w_width w then _ else _).
  assert (Hh1 : hiRel w1 (h + 1)).
  { pose proof Hh as [? ? ? ? Ho]. unfold w1. destruct (Z.eqb_spec (h + 1) (2 ^ w_width w)) as [E|E]; constructor; simpl; try done; try congruence.
    rewrite shiftl_mul by lia. rewrite u32_id by lia. rewrite Z.pow_add_r by lia. lia. }
  assert (Hb1 : wroteBits f P w1 8 T /\ fixedOf w1 = fixedOf w /\ w_err w1 = w_err w /\ w_table w1 = w_table w).
  { unfold w1. by destruct (h + 1 =? 2 ^ w_width w). }
  destruct Hb1 as (Hb1 & Ef & Ee & Et). rewrite (hl_hi _ _ Hh1). change maxCode with 4095.
  destruct (Z.eqb_spec (h + 1) 4095) as [E|E]; [|simpl; done].
  destruct (sendClear_spec w1 T (h + 1) Hh1 ltac:(lia) Hb1) as [-> Hsend].
  eapply returns_bind_mono; [exact Hsend|]. intros [[e|] w2] ((dst & bits & n & ->) & Hno & Hk); simpl.
  - split; [done|]. split; [done|]. right. exists e. split; [done|]. intros ->. by apply Hno.
  - specialize (Hk eq_refl). split; [done|]. split; [done|]. left. split; [done|].
    pose proof (clear_range lit Hlit). split_and!.
    + constructor; simpl; try apply Hh1.
      * rewrite u32_id by lia. done.
      * rewrite (hl_lit _ _ Hh1). by rewrite widthOf_eof.
      * rewrite (hl_lit _ _ Hh1), pow_double by done. rewrite shiftl_mul by lia. rewrite u32_id by lia. lia.
    + exact Hk.
    + apply Forall_forall. intros x [y [Hx _]]%list_elem_of_fmap. by rewrite Hx.
    + unfold len. by rewrite length_map, Et.
Qed.

Lemma emit_bits E cur code :
  NoDup E -> dictOk lit E -> expOf lit E code = Some cur ->
  codesBits f (emit lit E cur) = bitsOf f (widthOf lit (eof + len E)) code ++
    (if eof + len E + 1 =? maxCode then bitsOf f (widthOf lit (eof + len E + 1)) clear else []).
Proof.
  intros Hn Hd He. pose proof (expOf_range lit Hlit _ _ _ Hd He) as (_ & _ & Hw).
  destruct (expOf_encCode lit Hlit E cur Hw Hd) as (He' & _).
  rewrite (expOf_inj lit E _ _ _ Hn Hd He He'). unfold emit, codesBits. simpl.
  destruct (_ =? maxCode); simpl; by rewrite ?app_nil_r.
Qed.

(** One byte of the input. *)
Lemma writeStep_spec w T E code cur x :
  wInv w T E -> expOf lit E code = Some cur -> 0 <= x < clear -> w_err w = None ->
  writeStep w code x ⇓ fun '(out, w') => fixedOf w' = fixedOf w /\
    match out with
    | inl code' => w_err w' = None /\ exists em E' cur', encStep lit (E, cur) x = (em, (E', cur')) /\
        wInv w' (T ++ codesBits f em) E' /\ expOf lit E' code' = Some cur'
    | inr e => w_err w' = Some e
    end.
Proof.
  intros [Hb Hh Ht Hn Hd] He Hx Hnone. pose proof (expOf_range lit Hlit _ _ _ Hd He) as (Hc & Hc' & Hw).
  pose proof (clear_range lit Hlit). pose proof (eof_range lit Hlit). pose proof (len_nonneg E).
  pose proof (proj1 Hd) as Hroom. unfold writeStep. fold (keyOf code x).
  eapply returns_bind_mono; [apply (probe_dict lit Hlit _ E code cur x); try done; lia|].
  intros [c|].
  { intros [Hin Hc2]. simpl. split; [done|]. split; [done|]. exists [], E, (cur ++ [x]).
    rewrite decide_True by done. split; [done|]. split; [|done]. by rewrite app_nil_r. }
  intros Hnot. change maxCode with 4095 in Hroom.
  pose proof (width_range _ _ Hh ltac:(lia)) as (Hw1 & Hw2 & Hw3).
  eapply returns_bind_mono; [apply (callWrite_spec f P w T code); try done; [apply Hh | lia]|].
  intros [[e|] w1] (Hs1 & Hno & Hk).
  { destruct Hs1 as (dst & bits & n & ->). simpl. done. }
  specialize (Hk eq_refl). pose proof (hiRel_bits _ _ _ Hs1 Hh) as Hh1.
  destruct Hs1 as (dst & bits & n & ->). rewrite (hl_width _ _ Hh) in Hk.
  lazy beta iota zeta. eapply returns_bind_mono.
  { apply (incHi_spec (wSetErr (wSetBits w (Some dst) bits n) None) (T ++ bitsOf f (widthOf lit (eof + len E)) code) (eof + len E));
      [by destruct Hh1; constructor | change maxCode with 4095; lia | exact Hk]. }
  intros [err1 w2] (Ef & Ee & Hcase). pose proof (emit_bits E cur code Hn Hd He) as Hemit.
  destruct (Z.eqb_spec (eof + len E + 1) maxCode) as [Em|Em].
  - destruct Hcase as [(-> & Hh2 & Hk2 & Hz & Hlen)|(e & -> & Hne)].
    + rewrite decide_True by done. simpl. split; [done|]. split; [by rewrite Ee|].
      exists (emit lit E cur), [], [x]. rewrite decide_False by done. rewrite (proj2 (Z.eqb_eq _ _) Em).
      split; [done|]. split; [|by apply expOf_literal]. constructor; try done.
      * rewrite Hemit, (assoc_L app). done.
      * rewrite len_nil, Z.add_0_r. done.
      * destruct Ht as (K & HR & _). apply tableRel_empty; try done. rewrite Hlen. apply HR.
      * constructor.
      * split; [|done]. rewrite len_nil. change maxCode with 4095. lia.
    + rewrite decide_False by done. simpl. done.
  - destruct Hcase as (-> & Hh2 & Hk2 & Et2). rewrite Et2. simpl w_table. rewrite (hl_hi _ _ Hh2).
    assert (Hlt : eof + len E + 1 < maxCode) by (change maxCode with 4095 in *; lia).
    eapply returns_bind_mono; [apply (insert_dict lit Hlit (w_table w) E code cur x); try done; lia|].
    intros table' Htab. simpl. split; [done|]. split; [by rewrite Ee|].
    exists (emit lit E cur), (E ++ [cur ++ [x]]), [x]. rewrite decide_False by done.
    rewrite (proj2 (Z.eqb_neq _ _) Em). split; [done|]. split; [|by apply expOf_literal].
    pose proof (wordOk_nonempty lit E cur Hw Hd) as Hne. rewrite Hemit, app_nil_r. constructor; try done.
    + replace (eof + len (E ++ [cur ++ [x]])) with (eof + len E + 1) by (rewrite len_app, len_cons, len_nil; lia).
      destruct Hh2; by constructor.
    + apply NoDup_app. split; [done|]. split; [|apply NoDup_singleton]. by intros s Hs ->%list_elem_of_singleton.
    + split; [rewrite len_app, len_cons, len_nil; lia|]. apply Forall_app. split; [apply Hd|]. constructor; [|done].
      rewrite length_app. destruct cur; simpl; [done | lia].
Qed.

Lemma writeLoop_spec p w T E code cur :
  wInv w T E -> expOf lit E code = Some cur -> Forall (fun x => 0 <= x < clear) p -> w_err w = None ->
  writeLoop w code p ⇓ fun '(out, w') => fixedOf w' = fixedOf w /\
    match out with
    | inl code' => w_err w' = None /\ exists em E' cur', encLoop lit (E, cur) p = (em, (E', cur')) /\
        wInv w' (T ++ codesBits f em) E' /\ expOf lit E' code' = Some cur'
    | inr e => w_err w' = Some e
    end.
Proof.
  revert w T E code cur. induction p as [|x p IH]; intros w T E code cur Hi He Hp Hnone; cbn [writeLoop encLoop].
  - simpl. split; [done|]. split; [done|]. exists [], E, cur. split; [done|]. by rewrite app_nil_r.
  - apply Forall_cons in Hp as [Hx Hp]. eapply returns_bind_mono; [by apply writeStep_spec|].
    intros [[code1|e] w1] [Hf1 H1]; [|done].
    destruct H1 as (He1 & em & E1 & cur1 & -> & Hi1 & Hc1).
    eapply returns_mono; [by apply (IH w1 (T ++ codesBits f em) E1 code1 cur1)|].
    intros [out w'] [Hf' H']. split; [congruence|]. destruct out; [|done].
    destruct H' as (He' & em2 & E2 & cur2 & -> & Hi2 & Hc2). split; [done|].
    exists (em ++ em2), E2, cur2. split; [done|]. split; [|done]. by rewrite codesBits_app, (assoc_L app).
Qed.

(** ** Write *)

(** The codes that the input [p] has caused, and the dictionary. *)
Definition encodedTo (p : list Z) (ems : list (Z * Z)) (E : list (list Z)) (cur : list Z) : Prop :=
  match p with
  | [] => False
  | x :: p => exists em, encLoop lit ([], [x]) p = (em, (E, cur)) /\ ems = (lit + 1, clear) :: em
  end.

(** A Writer that has been given [p]. *)
Definition accepts w (order : Order) (p : list Z) : Prop :=
  w_err w = None /\ w_order w = order /\
  match p with
  | [] => w_savedCode w = invalidCode /\ wInv w [] []
  | _ => exists ems E cur, encodedTo p ems E cur /\ wInv w (codesBits f ems) E /\
           expOf lit E (w_savedCode w) = Some cur
  end.

Lemma encLoop_app st p q :
  encLoop lit st (p ++ q) =
    (let '(o1, st1) := encLoop lit st p in let '(o2, st2) := encLoop lit st1 q in (o1 ++ o2, st2)).
Proof.
  revert st. induction p as [|x p IH]; intros st; cbn [encLoop app].
  - by destruct (encLoop lit st q).
  - destruct (encStep lit st x) as [o1 st1]. rewrite IH. destruct (encLoop lit st1 p) as [o2 st2].
    destruct (encLoop lit st2 q) as [o3 st3]. by rewrite (assoc_L app).
Qed.

Lemma maxLit_check p :
  bytes_ok p ->
  negb (u8 (Z.shiftl 1 lit - 1) =? 0xff) && existsb (fun x => x >? u8 (Z.shiftl 1 lit - 1)) p =
  negb (forallb (fun x => x <? clear) p).
Proof.
  intros Hp. pose proof (clear_range lit Hlit) as Hc. rewrite shiftl_mul, Z.mul_1_l by lia. fold (clearOf lit).
  rewrite u8_id by lia.
  assert (existsb (fun x => x >? clear - 1) p = negb (forallb (fun x => x <? clear) p)) as ->.
  { induction Hp as [|x p _ Hp IH]; [done|]. simpl. rewrite IH, negb_andb. f_equal.
    destruct (Z.gtb_spec x (clear - 1)), (Z.ltb_spec x clear); simpl; try done; lia. }
  destruct (Z.eqb_spec (clear - 1) 255) as [E|]; [|done]. simpl. symmetry. apply negb_false_iff, forallb_forall.
  intros x Hx. apply list_elem_of_In, (proj1 (Forall_forall _ _) Hp) in Hx. unfold byte_ok in Hx. lia.
Qed.

Lemma forallb_lit p :
  bytes_ok p -> forallb (fun x => x <? clear) p = true -> Forall (fun x => 0 <= x < clear) p.
Proof.
  intros Hp Hb. apply Forall_forall. intros x Hx. pose proof (proj1 (Forall_forall _ _) Hp x Hx) as [? _].
  rewrite forallb_forall in Hb. apply list_elem_of_In in Hx. apply Hb in Hx. lia.
Qed.

Lemma run_spec w T E code cur (order : Order) p n q ems :
  wInv w T E -> expOf lit E code = Some cur -> Forall (fun x => 0 <= x < clear) p -> w_err w = None ->
  w_order w = order -> encodedTo q ems E cur -> T = codesBits f ems -> q <> [] ->
  (let! '(out, w) := writeLoop w code p in
   match out with
   | inl code => Ok (n, None, wSetSaved w code)
   | inr err => Ok (0, Some err, w)
   end) ⇓ fun '(k, err, w') =>
     match err with
     | None => k = n /\ accepts w' order (q ++ p)
     | Some e => k = 0 /\ w_err w' = Some e
     end.
Proof.
  intros Hi He Hp Hnone Ho Henc -> Hq. eapply returns_bind_mono; [by apply writeLoop_spec|].
  intros [[code'|e] w'] [Hf' H']; [|done]. simpl. split; [done|].
  destruct H' as (He' & em & E' & cur' & Hloop & Hi' & Hc'). split; [done|].
  split; [simpl; injection Hf'; congruence|]. destruct q as [|x q]; [done|]. simpl.
  destruct Henc as (em0 & Hl0 & ->). exists ((lit + 1, clear) :: em0 ++ em), E', cur'. split; [|split; [|done]].
  - exists (em0 ++ em). split; [|done]. by rewrite encLoop_app, Hl0, Hloop.
  - rewrite codesBits_cons, codesBits_app, (assoc_L app), <- codesBits_cons.
    destruct Hi' as [? Hh ? ? ?]. constructor; try done. by destruct Hh; constructor.
Qed.

(** Write: all of [p] is accepted, or the first error.  The Writer keeps the
    error, unless it was that of the clear code before the first byte. *)
Lemma Write_spec w order p q :
  accepts w order q -> bytes_ok p ->
  Writer_Write w p ⇓ fun '(k, err, w') =>
    match err with
    | None => k = len p /\ Forall (fun x => 0 <= x < clear) p /\ accepts w' order (q ++ p)
    | Some e => k = 0 /\ (w_err w' = Some e \/ (q = [] /\ w_err w' = None))
    end /\ (forallb (fun x => x <? clear) p = false -> err = Some errTooLarge /\ w_err w' = Some errTooLarge).
Proof.
  intros (Hnone & Ho & Hacc) Hp. unfold Writer_Write. rewrite Hnone.
  destruct (Z.eqb_spec (len p) 0) as [E|E].
  { apply len_zero_inv in E as ->. simpl. rewrite app_nil_r. done. }
  assert (Hl : w_litWidth w = lit) by (destruct q as [|y q]; [apply Hacc | destruct Hacc as (? & ? & ? & _ & [] & _); apply wi_hi0]).
  rewrite Hl, maxLit_check by done. destruct (forallb (fun x => x <? clear) p) eqn:Hb; simpl; [|by auto].
  apply forallb_lit in Hb as Hlitp; [|done]. destruct q as [|y q].
  - destruct Hacc as [-> Hi]. rewrite Z.eqb_refl. destruct p as [|x p]; [done|].
    pose proof (eof_range lit Hlit). pose proof (wi_hi _ _ _ Hi) as Hh. rewrite len_nil, Z.add_0_r in Hh.
    destruct (sendClear_spec w [] eof Hh ltac:(lia) (wi_bits _ _ _ Hi)) as [Hcl Hsend]. rewrite Hl in Hcl. rewrite Hcl.
    eapply returns_bind_mono; [exact Hsend|]. intros [[e|] w1] (Hs1 & _ & Hk).
    { simpl. destruct Hs1 as (dst & bits & n & ->). simpl. split; [auto | done]. }
    specialize (Hk eq_refl). rewrite widthOf_eof in Hk by done. simpl in Hk.
    change (idx (x :: p) 0) with (Ok x). rewrite slice_from_Ok by (rewrite len_cons; pose proof (len_nonneg p); lia).
    cbn [rbind]. apply Forall_cons in Hlitp as [Hx Hlitp].
    eapply returns_mono; [apply (run_spec w1 (bitsOf f (lit + 1) clear) [] x [x] order p _ [x] [(lit + 1, clear)]); try done|].
    + destruct Hs1 as (dst & bits & n & ->). destruct Hi as [_ Hh0 Ht ? ?]. constructor; try done. by destruct Hh0; constructor.
    + by apply expOf_literal.
    + by destruct Hs1 as (dst & bits & n & ->).
    + by destruct Hs1 as (dst & bits & n & ->).
    + exists []. done.
    + unfold codesBits. simpl. by rewrite app_nil_r.
    + intros [[k err] w'] H'. split; [|done]. destruct err; [by destruct H'; auto|]. destruct H'; split; [done|].
      split; [by constructor | done].
  - destruct Hacc as (ems & E' & cur & Henc & Hi & He).
    destruct (Z.eqb_spec (w_savedCode w) invalidCode) as [Ei|_].
    { exfalso. pose proof (expOf_range lit Hlit _ _ _ (wi_dict _ _ _ Hi) He) as (_ & Hlt & _). rewrite Ei in Hlt.
      by vm_compute in Hlt. }
    eapply returns_mono; [by apply (run_spec w (codesBits f ems) E' (w_savedCode w) cur order p _ (y :: q) ems)|].
    intros [[k err] w'] H'. split; [|done]. destruct err; [by destruct H'; auto|]. by destruct H'.
Qed.

(** ** Close *)

Lemma pad_byte bits n B :
  pend f bits n B -> 0 < n < 8 ->
  exists pad, bitsOf f 8 (u8 (match f with fnLSB => bits | fnMSB => Z.shiftr bits 24 end)) = B ++ pad /\
    (length pad < 8)%nat.
Proof.
  intros (Hn & v & Hv & -> & ->) Hn8. exists (bitsOf f (8 - n) 0). rewrite bitsOf_length. split; [|lia].
  rewrite <- (bitsOf_cat f n v (8 - n) 0) by lia. replace (n + (8 - n)) with 8 by lia. f_equal.
  assert (H8 : 2 ^ 8 = 2 ^ n * 2 ^ (8 - n)) by (rewrite <- Z.pow_add_r by lia; f_equal; lia).
  destruct f; unfold cat.
  - rewrite u8_id by nia. lia.
  - rewrite shiftr_div by lia. replace (32 - n) with ((8 - n) + 24) by lia. rewrite Z.pow_add_r, Z.mul_assoc, Z.div_mul by lia.
    rewrite u8_id by nia. lia.
Qed.

Definition orderOf (g : codeFn) : Order := match g with fnLSB => LSB | fnMSB => MSB end.

(** The destination holds the bits [T], to the next byte. *)
Definition wroteAll w (T : list bool) : Prop :=
  exists dst out pad, w_w w = Some dst /\ written dst = P ++ out /\ bytesBits f out = T ++ pad /\ (length pad < 8)%nat.

Lemma closeBits_spec w T :
  wroteBits f P w 8 T -> w_order w = orderOf f ->
  closeBits w ⇓ fun '(err, w') => w_err w' = w_err w /\ (err = None -> wroteAll w' T).
Proof.
  intros (dst & out & B & Hd & Hwr & Hp & Hb & HT) Ho. unfold closeBits.
  destruct (Z.gtb_spec (w_nBits w) 0) as [G|G].
  - destruct (pad_byte _ _ _ Hp ltac:(lia)) as (pad & Hpad & Hlen).
    set (w1 := if w_order w =? MSB then _ else _).
    assert (H1 : w_w w1 = Some dst /\ w_err w1 = w_err w /\
      w_bits w1 = match f with fnLSB => w_bits w | fnMSB => Z.shiftr (w_bits w) 24 end).
    { unfold w1. rewrite Ho. destruct f; simpl; auto. }
    destruct H1 as (H1 & H2 & H3). unfold putByte. rewrite H1, H3.
    destruct (WriteByte dst _) as [[e|] dst'] eqn:Eb; simpl; [done|]. apply WriteByte_ok in Eb.
    destruct (Flush dst') as [[e|] dst''] eqn:Ef; simpl; [done|]. apply Flush_ok in Ef. split; [done|]. intros _.
    eexists dst'', _, pad. split; [done|]. split; [by rewrite Ef, Eb, Hwr, <- (assoc_L app)|]. split; [|done].
    rewrite bytesBits_app, bytesBits_cons, Hpad, HT. simpl. by rewrite app_nil_r, <- !(assoc_L app).
  - rewrite Hd. destruct (Flush dst) as [[e|] dst''] eqn:Ef; simpl; [done|]. apply Flush_ok in Ef. split; [done|]. intros _.
    exists dst'', out, []. split; [done|]. split; [congruence|]. split; [|simpl; lia].
    pose proof Hp as [Hn _]. apply pend_length in Hp. destruct B; [by rewrite HT, !app_nil_r | simpl in Hp; lia].
Qed.

(** The eof code and the last bits. *)
Lemma closeEof_spec w T h :
  hiRel w h -> eof <= h < 4096 -> wroteBits f P w 8 T -> w_order w = orderOf f ->
  (let! '(err, w) := callWrite w (u32 (u32 (Z.shiftl 1 (w_litWidth w)) + 1)) in
   match err with
   | Some err => Ok (Some err, w)
   | None => closeBits w
   end) ⇓ fun '(err, w') => w_err w' = w_err w /\ (err = None -> wroteAll w' (T ++ bitsOf f (widthOf lit h) eof)).
Proof.
  intros Hh Hr Hw Ho. destruct (sendClear_spec w T h Hh Hr Hw) as [-> _]. pose proof (clear_range lit Hlit).
  pose proof (eof_clear lit) as He. rewrite u32_id by lia. rewrite <- He.
  pose proof (width_range _ _ Hh Hr) as (Hw1 & Hw2 & Hw3).
  eapply returns_bind_mono; [apply (callWrite_spec f P w T eof); try done; [apply Hh | lia]|].
  intros [[e|] w1] ((dst & bits & n & ->) & _ & Hk); [done|]. specialize (Hk eq_refl). rewrite (hl_width _ _ Hh) in Hk.
  exact (closeBits_spec _ _ Hk Ho).
Qed.

Lemma Close_spec w q :
  accepts w (orderOf f) q ->
  Writer_Close w ⇓ fun '(err, w') => w_err w' = Some errClosed /\
    (err = None -> wroteAll w' (codesBits f (encode lit q))).
Proof.
  intros (Hnone & Ho & Hacc). unfold Writer_Close. rewrite Hnone.
  set (w0 := wSetErr w (Some errClosed)). pose proof (eof_range lit Hlit).
  assert (Hkeep : forall T E, wInv w T E -> wroteBits f P w0 8 T /\ hiRel w0 (eof + len E)).
  { intros T E [Hb [] _ _ _]. split; [done | by constructor]. }
  destruct q as [|x q].
  - destruct Hacc as [Hs Hi]. destruct (Hkeep _ _ Hi) as [Hb Hh]. rewrite len_nil, Z.add_0_r in Hh.
    change (w_savedCode w0) with (w_savedCode w). rewrite Hs, Z.eqb_refl. cbn [negb].
    destruct (sendClear_spec w0 [] eof Hh ltac:(lia) Hb) as [Hcl Hsend]. rewrite Hcl.
    eapply returns_bind_mono; [exact Hsend|]. intros [[e|] w1] (Hs1 & _ & Hk).
    { by destruct Hs1 as (dst & bits & n & ->). }
    specialize (Hk eq_refl). pose proof (hiRel_bits _ _ _ Hs1 Hh) as Hh1.
    eapply returns_mono; [apply (closeEof_spec w1 _ eof Hh1 ltac:(lia) Hk)|].
    { by destruct Hs1 as (dst & bits & n & ->). }
    intros [err w'] [H1 H2]. split; [by rewrite H1; destruct Hs1 as (dst & bits & n & ->)|].
    intros ->. specialize (H2 eq_refl). rewrite widthOf_eof in H2 by done. unfold encode, codesBits. simpl.
    by rewrite app_nil_r.
  - destruct Hacc as (ems & E & cur & (em & Hloop & ->) & Hi & He). destruct (Hkeep _ _ Hi) as [Hb Hh].
    pose proof (expOf_range lit Hlit _ _ _ (wi_dict _ _ _ Hi) He) as (Hc & Hlt & _).
    change (w_savedCode w0) with (w_savedCode w).
    destruct (Z.eqb_spec (w_savedCode w) invalidCode) as [Ei|_].
    { exfalso. rewrite Ei in Hlt. by vm_compute in Hlt. }
    pose proof (proj1 (wi_dict _ _ _ Hi)) as Hroom. change maxCode with 4095 in Hroom. pose proof (len_nonneg E).
    pose proof (width_range _ _ Hh ltac:(lia)) as (Hw1 & Hw2 & Hw3).
    pose proof (emit_bits E cur _ (wi_nodup _ _ _ Hi) (wi_dict _ _ _ Hi) He) as Hemit.
    unfold encode. rewrite Hloop. rewrite codesBits_cons, !codesBits_app, Hemit. unfold widthAfter.
    cbn [negb]. pose proof (hl_width _ _ Hh) as Hwid.
    eapply (returns_bind_mono _ _ (fun '(err, w') => w_order w' = orderOf f /\ w_err w' = Some errClosed /\ (err = None ->
       exists h, eof <= h < 4096 /\ hiRel w' h /\
         h = (if eof + len E + 1 =? maxCode then eof else eof + len E + 1) /\
         wroteBits f P w' 8 (codesBits f ((lit + 1, clear) :: em) ++ bitsOf f (widthOf lit (eof + len E)) (w_savedCode w) ++
           (if eof + len E + 1 =? maxCode then bitsOf f (widthOf lit (eof + len E + 1)) clear else []))))).
    + eapply returns_bind_mono; [apply (callWrite_spec f P w0 (codesBits f ((lit + 1, clear) :: em)) (w_savedCode w)); [apply Hh | exact Hb | done | lia]|].
      intros [[e|] w1] (Hs1 & Hno & Hk); [by destruct Hs1 as (dst & bits & n & ->)|]. specialize (Hk eq_refl).
      rewrite Hwid in Hk. pose proof (hiRel_bits _ _ _ Hs1 Hh) as Hh1. destruct Hs1 as (dst & bits & n & ->).
      eapply returns_bind_mono; [eapply (incHi_spec _ _ (eof + len E) Hh1); [change maxCode with 4095; lia | exact Hk]|].
      intros [err w2] (Hf2 & He2 & Hcase). injection Hf2 as Hs2 Ho2. change maxCode with 4095 in *.
      destruct (Z.eqb_spec (eof + len E + 1) 4095) as [Em|Em].
      * destruct Hcase as [(-> & Hh2 & Hk2 & _)|(e & -> & Hne)].
        -- rewrite decide_True by done. simpl. split; [congruence|]. split; [done|]. intros _.
           exists eof. split_and!; try done; try lia. by rewrite (assoc_L app).
        -- rewrite decide_False by done. simpl. split; [congruence|]. done.
      * destruct Hcase as (-> & Hh2 & Hk2 & _). simpl. split; [congruence|]. split; [done|]. intros _.
        exists (eof + len E + 1). split_and!; try done; try lia. by rewrite app_nil_r.
    + intros [[e|] w1] (Ho1 & He1 & Hk); [done|]. destruct (Hk eq_refl) as (h & Hr & Hh1 & Eh & Hb1).
      eapply returns_mono; [apply (closeEof_spec w1 _ h Hh1 Hr Hb1 Ho1)|].
      intros [err w'] [H1 H2]. split; [congruence|]. intros ->. specialize (H2 eq_refl).
      rewrite codesBits_cons in H2. rewrite <- !(assoc_L app) in H2. rewrite <- !(assoc_L app).
      replace (codesBits f [_]) with (bitsOf f (widthOf lit h) eof); [exact H2|].
      unfold codesBits. simpl. rewrite app_nil_r, Eh. by destruct (_ =? maxCode).
Qed.
End Encode.
