(* ===== verification/LzwSpec.v ===== *)
(** * compress/lzw: properties

    What a client sees of the package: any calls of Write and a Close, then any
    calls of Read.  The Reader decodes every stream as the specification does,
    the Writer produces the codes of the greedy encoder, and what was written is
    read back. *)
From Stdlib Require Import ZArith Lia String Ascii.
From stdpp Require Import base numbers list.
From S2P Require Import Prelude Lzw LzwBits LzwDict LzwReader LzwDecode LzwWriter LzwEncode.

(** ** Clients *)

(** Writes, until one fails, and Close. *)
Fixpoint writes {W} {WR : writer W} (w : Writer W) (ps : list (list Z)) : res (option error * Writer W) :=
  match ps with
  | [] => Ok (None, w)
  | p :: ps =>
      let! '(_, err, w) := Writer_Write w p in
      match err with
      | Some e => Ok (Some e, w)
      | None => writes w ps
      end
  end.

Definition compress {W} {WR : writer W} (dst : W) (order : Order) (litWidth : Z) (ps : list (list Z)) :
    res (option error * Writer W) :=
  let! '(err, w) := writes (NewWriter dst order litWidth) ps in
  match err with
  | Some e => Ok (Some e, w)
  | None => Writer_Close w
  end.

(** Reads into buffers of the given sizes. *)
Fixpoint reads {R} {BR : ByteReader R} (fuel : nat) (r : Reader R) (ns : list Z) :
    res (list (list Z * option error) * Reader R) :=
  match ns with
  | [] => Ok ([], r)
  | n :: ns =>
      let! '(b, err, r) := Reader_Read fuel r n in
      let! '(rs, r) := reads fuel r ns in
      Ok ((b, err) :: rs, r)
  end.

(** The results of reads that deliver [data] in pieces and then the error. *)
Fixpoint follows (data : list Z) (err : error) (ns : list Z) (rs : list (list Z * option error)) : Prop :=
  match ns, rs with
  | [], [] => True
  | n :: ns, (b, x) :: rs => exists data', data = b ++ data' /\ len b <= n /\ (0 < n -> data <> [] -> b <> []) /\
      x = (if decide (data = []) then Some err else None) /\ follows data' err ns rs
  | _, _ => False
  end.

Section Clients.
Context {W : Type} {WR : writer W} {BK : ByteSink W}.
Context {R : Type} {BR : ByteReader R} {BS : ByteSource R}.
Variables (lit : Z) (f : codeFn).
Hypothesis Hlit : 2 <= lit <= 8.

Lemma reads_follow e fuel (r : Reader R) data err ns :
  delivers lit f e fuel r data err -> Forall (Z.le 0) ns ->
  reads fuel r ns ⇓ fun '(rs, _) => follows data err ns rs.
Proof.
  revert r data. induction ns as [|n ns IH]; intros r data HD Hn; simpl; [done|].
  apply Forall_cons in Hn as [Hn Hns]. eapply returns_bind_mono; [by apply (Read_delivers lit Hlit f e fuel r data err n)|].
  intros [[b x] r1] (data' & -> & HD' & Hlen & Hx & Hne).
  eapply returns_bind_mono; [by apply IH|]. intros [rs r2] Hf. simpl. exists data'. done.
Qed.

Lemma newReader_delivers (src : R) fuel data err :
  produces lit f (ends src) (bytesBits f (remaining src)) emptyDict data err ->
  (8 * length (remaining src) < fuel)%nat ->
  delivers lit f (ends src) fuel (NewReader src (orderOf f) lit) data err.
Proof.
  intros Hp Hf.
  assert (E : NewReader src (orderOf f) lit =
    mkReader (Some src) 0 0 (1 + lit) (Some f) lit None (clearOf lit) (eofOf lit) (eofOf lit) (2 ^ (1 + lit)) decoderInvalidCode
      zeroTable zeroTable (replicate (Z.to_nat (Z.shiftl (2 * 1) maxWidth)) 0) 0 (0, 0)).
  { pose proof (clear_range lit Hlit). pose proof (eof_clear lit) as He.
    unfold NewReader, newReader, Reader_init. rewrite !shiftl_mul, !Z.mul_1_l by lia. fold (clearOf lit).
    rewrite (u16_id (clearOf lit)), u16_id by lia. rewrite u16_id.
    2: { assert (2 ^ (1 + lit) <= 2 ^ 9) by (apply Z.pow_le_mono_r; lia). lia. }
    rewrite He. destruct (Z.ltb_spec lit 2), (Z.ltb_spec 8 lit); try lia. by destruct f. }
  rewrite E. unfold delivers. cbn [r_toRead r_output]. rewrite len_replicate. change (Z.shiftl (2 * 1) maxWidth) with 8192.
  split; [lia|]. split; [lia|]. split; [lia|]. right. exists (bytesBits f (remaining src)), emptyDict, data.
  rewrite bytesBits_length. split; [|done]. pose proof (eof_range lit Hlit).
  assert (Hh : hiOf lit emptyDict = eofOf lit) by (unfold hiOf, emptyDict; cbn [strings pending]; rewrite len_nil; lia).
  constructor; try done.
  - eapply (refilled_self _ _ _ _ _ src []); try done. apply pend_empty.
  - constructor; cbn [r_clear r_eof r_litWidth r_hi r_width r_overflow r_suffix r_prefix r_last]; rewrite ?Hh; try done; try lia.
    + rewrite widthOf_eof by done. lia.
    + constructor.
    + simpl. auto.
Qed.

Lemma newWriter_accepts (dst : W) :
  accepts lit f (written dst) (NewWriter dst (orderOf f) lit) (orderOf f) [].
Proof.
  assert (E : NewWriter dst (orderOf f) lit =
    mkWriter (Some dst) lit (orderOf f) (Some f) 0 (1 + lit) 0 (eofOf lit) (2 ^ (lit + 1)) invalidCode None
      (replicate (Z.to_nat tableSize) 0)).
  { pose proof (clear_range lit Hlit). pose proof (eof_clear lit) as He. pose proof (pow_double lit Hlit).
    unfold NewWriter, newWriter, Writer_init. rewrite !shiftl_mul, !Z.mul_1_l by lia. fold (clearOf lit).
    rewrite <- He, !u32_id by lia. destruct (Z.ltb_spec lit 2), (Z.ltb_spec 8 lit); try lia. by destruct f. }
  rewrite E. pose proof (eof_range lit Hlit). split; [done|]. split; [done|]. split; [done|]. constructor.
  - exists dst, [], []. split_and!; try done; [by rewrite app_nil_r | apply pend_empty].
  - replace (eofOf lit + len []) with (eofOf lit) by (unfold len; simpl; lia).
    constructor; cbn [w_litWidth w_write w_hi w_width w_overflow]; try done.
    + rewrite widthOf_eof by done. lia.
    + f_equal. lia.
  - apply tableRel_empty; cbn [w_table]; [done | | by apply Forall_replicate].
    rewrite len_replicate. change tableSize with 16384. lia.
  - constructor.
  - split; [|constructor]. unfold len. simpl length. change maxCode with 4095. lia.
Qed.

Lemma writes_accepts P (w : Writer W) q ps :
  accepts lit f P w (orderOf f) q -> Forall bytes_ok ps ->
  writes w ps ⇓ fun '(err, w') => err = None -> Forall (fun x => 0 <= x < clearOf lit) (concat ps) /\
    accepts lit f P w' (orderOf f) (q ++ concat ps).
Proof.
  revert w q. induction ps as [|p ps IH]; intros w q Ha Hb; simpl; [by rewrite app_nil_r|].
  apply Forall_cons in Hb as [Hp Hb]. eapply returns_bind_mono; [by apply (Write_spec lit f P Hlit w (orderOf f) p q)|].
  intros [[k [e|]] w1] [H1 _]; [done|]. destruct H1 as (_ & Hl & Ha1).
  eapply returns_mono; [by apply (IH w1 (q ++ p))|]. intros [err w2] Hk ->. destruct (Hk eq_refl) as [Hl2 Ha2].
  split; [by apply Forall_app | by rewrite (assoc_L app)].
Qed.

Lemma compress_encodes (dst : W) ps :
  Forall bytes_ok ps ->
  compress dst (orderOf f) lit ps ⇓ fun '(err, w') => err = None ->
    Forall (fun x => 0 <= x < clearOf lit) (concat ps) /\
    wroteAll f (written dst) w' (codesBits f (encode lit (concat ps))).
Proof.
  intros Hb. unfold compress. eapply returns_bind_mono; [by apply (writes_accepts _ _ [] ps (newWriter_accepts dst))|].
  intros [[e|] w] Hk; [done|]. destruct (Hk eq_refl) as [Hl Ha]. simpl in Ha.
  eapply returns_mono; [by apply (Close_spec lit f (written dst) Hlit w (concat ps))|].
  intros [err w'] [_ H2] E. auto.
Qed.

(** ** Properties *)

(** C5: Writing any pieces of data with an LZW Writer and closing it never
    panics, and if no call reports an error, then reading the bytes that reached
    the destination (with anything after them) through a Reader with the same
    order and literal width delivers exactly the data, in pieces of any sizes,
    and then io.EOF. *)
Theorem Lzw_roundtrip (dst : W) (ps : list (list Z)) :
  Forall bytes_ok ps ->
  compress dst (orderOf f) lit ps ⇓ fun '(err, w) => err = None ->
    exists dst' out, w_w w = Some dst' /\ written dst' = written dst ++ out /\
      forall (src : R) junk fuel ns, remaining src = out ++ junk -> (8 * length (remaining src) < fuel)%nat ->
        Forall (Z.le 0) ns ->
        reads fuel (NewReader src (orderOf f) lit) ns ⇓ fun '(rs, _) => follows (concat ps) EOF ns rs.
Proof.
  intros Hb. eapply returns_mono; [by apply compress_encodes|]. intros [err w] Hk E.
  destruct (Hk E) as (Hl & dst' & out & pad & Hw & Hwr & Hbits & _). exists dst', out. split; [done|]. split; [done|].
  intros src junk fuel ns Hrem Hfuel Hns. apply (reads_follow (ends src)); [|done]. apply newReader_delivers; [|done].
  rewrite Hrem, bytesBits_app, Hbits, <- (assoc_L app). by apply encode_produces.
Qed.

(** C12: For every source of bytes, also of invalid data, a Reader delivers what
    the specification's decoder produces of the bits: no call of Read panics or
    loops, and the calls return the decoded bytes in pieces of any sizes and
    then the decoder's error, io.EOF only at an eof code. *)
Theorem Lzw_Reader_refines (src : R) :
  exists data err, produces lit f (ends src) (bytesBits f (remaining src)) emptyDict data err /\
    forall fuel ns, (8 * length (remaining src) < fuel)%nat -> Forall (Z.le 0) ns ->
      reads fuel (NewReader src (orderOf f) lit) ns ⇓ fun '(rs, _) => follows data err ns rs.
Proof.
  destruct (produces_total lit Hlit f (ends src) (bytesBits f (remaining src)) emptyDict) as (data & err & Hp).
  exists data, err. split; [done|]. intros fuel ns Hfuel Hns.
  apply (reads_follow (ends src)); [|done]. by apply newReader_delivers.
Qed.

(** C20: The Writer is the greedy LZW encoder: unless a call reports an error, the
    bits that reach the destination are, code by code and width by width, those
    of the encoder that always emits the longest string of its dictionary, and
    fewer than eight bits of padding, however the data was split into writes. *)
Theorem Lzw_Writer_refines (dst : W) (ps : list (list Z)) :
  Forall bytes_ok ps ->
  compress dst (orderOf f) lit ps ⇓ fun '(err, w) => err = None ->
    exists dst' out pad, w_w w = Some dst' /\ written dst' = written dst ++ out /\
      bytesBits f out = codesBits f (encode lit (concat ps)) ++ pad /\ (length pad < 8)%nat.
Proof.
  intros Hb. eapply returns_mono; [by apply compress_encodes|]. intros [err w] Hk E.
  destruct (Hk E) as (_ & Hw). exact Hw.
Qed.

End Clients.

(** ** Witnesses *)

(** A destination and a source in memory. *)
#[global] Instance listWriter : writer (list Z) := {| WriteByte w b := (None, w ++ [b]); Flush w := (None, w) |}.
#[global] Instance listSink : ByteSink (list Z).
Proof. refine {| written w := w |}; cbn; congruence. Defined.

#[global] Instance listReader : ByteReader (list Z) :=
  fun r => match r with [] => (inr EOF, []) | x :: r => (inl (u8 x), r) end.
#[global] Instance listSource : ByteSource (list Z).
Proof.
  refine {| remaining r := map u8 r; ends _ := EOF |}.
  - intros [|y r] x l E; simpl in E; [done|]. simplify_eq. eexists. split; [done|]. done.
  - intros [|y r] E; [|done]. exists []. done.
  - intros r. apply Forall_map, Forall_forall. intros x _. apply u8_range.
Defined.

Definition pieces : list (list Z) := [str "abab"; []; str "ababababc"].

Lemma pieces_ok : Forall bytes_ok pieces.
Proof.
  apply Forall_cons_2; [apply str_ok|]. apply Forall_cons_2; [by apply Forall_nil_2|].
  apply Forall_cons_2; [apply str_ok|]. by apply Forall_nil_2.
Qed.

Lemma Lzw_roundtrip_witness :
  (let! '(err, w) := compress (@nil Z) LSB 8 pieces in Ok (err, w_w w)) = Ok (None, Some [0; 195; 136; 17; 72; 112; 160; 193; 49; 1; 1]) /\
  compress (@nil Z) (orderOf fnLSB) 8 pieces ⇓ fun '(err, w) => err = None ->
    exists dst' out, w_w w = Some dst' /\ written dst' = written [] ++ out /\
      forall (src : list Z) junk fuel ns, remaining src = out ++ junk -> (8 * length (remaining src) < fuel)%nat ->
        Forall (Z.le 0) ns ->
        reads fuel (NewReader src (orderOf fnLSB) 8) ns ⇓ fun '(rs, _) => follows (concat pieces) EOF ns rs.
Proof. split; [vm_compute; reflexivity|]. apply (Lzw_roundtrip 8 fnLSB); [lia | apply pieces_ok]. Defined.

(** A stream without its end. *)
Definition truncated : list Z := [128; 24; 76; 80; 40; 36; 14].

Lemma Lzw_Reader_refines_witness :
  exists data err, produces 8 fnMSB (ends truncated) (bytesBits fnMSB (remaining truncated)) emptyDict data err /\
    forall fuel ns, (8 * length (remaining truncated) < fuel)%nat -> Forall (Z.le 0) ns ->
      reads fuel (NewReader truncated (orderOf fnMSB) 8) ns ⇓ fun '(rs, _) => follows data err ns rs.
Proof. apply (Lzw_Reader_refines 8 fnMSB ltac:(lia) truncated). Defined.

Lemma Lzw_Writer_refines_witness :
  (let! '(err, w) := compress (@nil Z) MSB 8 pieces in Ok (err, w_w w)) = Ok (None, Some [128; 24; 76; 80; 40; 36; 14; 12; 99; 128; 128]) /\
  compress (@nil Z) (orderOf fnMSB) 8 pieces ⇓ fun '(err, w) => err = None ->
    exists dst' out pad, w_w w = Some dst' /\ written dst' = written [] ++ out /\
      bytesBits fnMSB out = codesBits fnMSB (encode 8 (concat pieces)) ++ pad /\ (length pad < 8)%nat.
Proof. split; [vm_compute; reflexivity|]. apply (Lzw_Writer_refines 8 fnMSB); [lia | apply pieces_ok]. Defined.


(** ** Where the code and its comments differ *)

(** Close "returns an error for any future read operation"; the bytes that an
    earlier Read has decoded and not returned are still returned without one. *)
Example Reader_Close_pending :
  (let! '(b1, e1, r) := Reader_Read 1000 (NewReader [0; 195; 136; 17; 19; 16] LSB 8) 1 in
   let '(e2, r) := Reader_Close r in
   let! '(b3, e3, r) := Reader_Read 1000 r 2 in
   Ok (b1, e1, e2, b3, e3)) = Ok (str "a", None, None, str "bb", None).
Proof. vm_compute. reflexivity. Qed.

(** A destination that fails once. *)
Definition flakyWriter : writer (bool * list Z) :=
  {| WriteByte '(ok, w) b := if ok : bool then (None, (true, w ++ [b])) else (Some (ioError 7), (true, w));
     Flush w := (None, w) |}.

(** [err] is "the first error encountered during writing"; the error of the
    first clear code is returned and not kept, and the next Write succeeds. *)
Example Writer_first_error_not_kept :
  (let! '(n1, e1, w) := Writer_Write (WR := flakyWriter) (NewWriter (false, []) LSB 8) (str "a") in
   let! '(n2, e2, w) := Writer_Write (WR := flakyWriter) w (str "a") in
   Ok (n1, e1, n2, e2)) = Ok (0, Some (ioError 7), 1, None).
Proof. vm_compute. reflexivity. Qed.
