(* ===== verification/Bufio.v ===== *)
(** * Package bufio: buffered readers and writers

    src/bufio/bufio.go, every method of Reader and Writer.  The reader or writer
    beneath is an object with a state, a Read or Write operation, and, where the
    code asks for them, the optional methods WriteTo, ReadFrom and WriteString as
    arguments that may be absent.  A slice that a method returns from its buffer
    is the list of its bytes when the method returns.  The shortcuts for a reader
    that is itself a Reader, which return it unchanged, are left out.
    bytes.IndexByte, which is not part of the sources, is the class [Bytealg]. *)
From Stdlib Require Import ZArith Lia.
From stdpp Require Import base numbers list.
From S2P Require Import Prelude Utf8.

Inductive ioError :=
| EOF
| ErrShortWrite
| ErrNoProgress
| ErrBufferFull
| ErrNegativeCount
| ErrInvalidUnreadByte
| ErrInvalidUnreadRune
| ErrTooLong
| ErrNegativeAdvance
| ErrAdvanceTooFar
| ErrBadReadCount
| ErrFinalToken
| OtherError (e : Z).

#[global] Instance ioError_eq_dec : EqDecision ioError.
Proof. solve_decision. Defined.

(** [Read(p)]: the new contents of p, the count and the error; [Write(p)]: the
    count and the error. *)
Class ioReader (S : Type) := doRead : S -> list Z -> list Z * Z * option ioError * S.
Class ioWriter (T : Type) := doWrite : T -> list Z -> Z * option ioError * T.

Class Bytealg := IndexByte : list Z -> Z -> Z.

Definition defaultBufSize : Z := 4096.
Definition minReadBufferSize : Z := 16.
Definition maxConsecutiveEmptyReads : Z := 100.

(** [copy(dst[i:], src)] and the number of bytes copied *)
Definition copyTo (dst : list Z) (i : Z) (src : list Z) : res (list Z * Z) :=
  let! room := slice_from dst i in
  let n := Nat.min (length room) (length src) in
  Ok (take (Z.to_nat i) dst ++ take n src ++ drop n room, Z.of_nat n).

(** ** Reader *)

Record Reader (S : Type) := mkRd {
  rbuf : list Z;
  rd : S;
  rr : Z;
  rw : Z;
  rerr : option ioError;
  lastByte : Z;
  lastRuneSize : Z;
}.
Arguments mkRd {S}.
Arguments rbuf {S}.
Arguments rd {S}.
Arguments rr {S}.
Arguments rw {S}.
Arguments rerr {S}.
Arguments lastByte {S}.
Arguments lastRuneSize {S}.

Section ReaderModel.
Context {S : Type} {RD : ioReader S} {BA : Bytealg}.
Implicit Types b : Reader S.

Definition setPos b (r w : Z) : Reader S := mkRd (rbuf b) (rd b) r w (rerr b) (lastByte b) (lastRuneSize b).
Definition setErr b (e : option ioError) : Reader S := mkRd (rbuf b) (rd b) (rr b) (rw b) e (lastByte b) (lastRuneSize b).
Definition setLast b (lb lr : Z) : Reader S := mkRd (rbuf b) (rd b) (rr b) (rw b) (rerr b) lb lr.
Definition setBuf b (buf : list Z) : Reader S := mkRd buf (rd b) (rr b) (rw b) (rerr b) (lastByte b) (lastRuneSize b).
Definition setRd b (s : S) : Reader S := mkRd (rbuf b) s (rr b) (rw b) (rerr b) (lastByte b) (lastRuneSize b).

Definition reset (buf : list Z) (s : S) : Reader S := mkRd buf s 0 0 None (-1) (-1).

Definition NewReaderSize (s : S) (size : Z) : Reader S :=
  reset (replicate (Z.to_nat (Z.max size minReadBufferSize)) 0) s.

Definition NewReader (s : S) : Reader S := NewReaderSize s defaultBufSize.

Definition Size b : Z := len (rbuf b).

(** A buffer is nil only in the zero Reader, and else not empty. *)
Definition Reset b (s : S) : Reader S :=
  let buf := if len (rbuf b) =? 0 then replicate (Z.to_nat defaultBufSize) 0 else rbuf b in
  reset buf s.

Definition Buffered b : Z := rw b - rr b.

(** [b.rd.Read(b.buf[b.w:])] and [b.w += n] *)
Definition readMore b : res (Z * option ioError * Reader S) :=
  let! p := slice_from (rbuf b) (rw b) in
  let '(p', n, err, s) := doRead (rd b) p in
  if n <? 0 then Panic else
  Ok (n, err, setPos (setRd (setBuf b (take (Z.to_nat (rw b)) (rbuf b) ++ p')) s) (rr b) (rw b + n)).

Definition slideDown b : res (Reader S) :=
  if rr b >? 0 then
    let! data := slice (rbuf b) (rr b) (rw b) in
    let! '(buf, _) := copyTo (rbuf b) 0 data in
    Ok (setPos (setBuf b buf) 0 (rw b - rr b))
  else Ok b.

Definition fill b : res (Reader S) :=
  let! b := slideDown b in
  if rw b >=? len (rbuf b) then Panic else
  loop (Datatypes.S (Z.to_nat maxConsecutiveEmptyReads))
    (fun '(i, b) =>
       if i >? 0 then
         let! '(n, err, b) := readMore b in
         match err with
         | Some err => Ok (inr (setErr b (Some err)))
         | None => if n >? 0 then Ok (inr b) else Ok (inl (i - 1, b))
         end
       else Ok (inr (setErr b (Some ErrNoProgress)))) (maxConsecutiveEmptyReads, b).

Definition readErr b : option ioError * Reader S := (rerr b, setErr b None).

(** [for b.w-b.r < n && b.w-b.r < len(b.buf) && b.err == nil { b.fill() }] *)
Definition fillTo b (n : Z) : res (Reader S) :=
  loop (Datatypes.S (length (rbuf b)))
    (fun b =>
       if (Buffered b <? n) && (Buffered b <? len (rbuf b)) && bool_decide (rerr b = None)
       then (let! b := fill b in Ok (inl b)) else Ok (inr b)) b.

Definition Peek b (n : Z) : res (list Z * option ioError * Reader S) :=
  if n <? 0 then Ok ([], Some ErrNegativeCount, b) else
  let b := setLast b (-1) (-1) in
  let! b := fillTo b n in
  if n >? len (rbuf b) then
    let! p := slice (rbuf b) (rr b) (rw b) in
    Ok (p, Some ErrBufferFull, b)
  else
    let avail := Buffered b in
    if avail <? n then
      let '(err, b) := readErr b in
      let! p := slice (rbuf b) (rr b) (rr b + avail) in
      Ok (p, Some (default ErrBufferFull err), b)
    else
      let! p := slice (rbuf b) (rr b) (rr b + n) in
      Ok (p, None, b).

(** The loop of Discard; [remain] bytes are left to skip. *)
Definition discardStep (n : Z) (st : Z * Reader S) : res (Z * Reader S + Z * option ioError * Reader S) :=
  let '(remain, b) := st in
  let skip := Buffered b in
  let! b := if skip =? 0 then fill b else Ok b in
  let skip := Buffered b in
  let skip := if skip >? remain then remain else skip in
  let b := setPos b (rr b + skip) (rw b) in
  let remain := remain - skip in
  if remain =? 0 then Ok (inr (n, None, b)) else
  match rerr b with
  | Some _ => let '(err, b) := readErr b in Ok (inr (n - remain, err, b))
  | None => Ok (inl (remain, b))
  end.

Definition Discard b (n : Z) : res (Z * option ioError * Reader S) :=
  if n <? 0 then Ok (0, Some ErrNegativeCount, b) else
  if n =? 0 then Ok (0, None, b) else
  loop (Datatypes.S (Datatypes.S (Z.to_nat n))) (discardStep n) (n, setLast b (-1) (-1)).

(** [Read(p)]: the contents of p, the count and the error. *)
Definition Read b (p : list Z) : res (list Z * Z * option ioError * Reader S) :=
  let copyOut b :=
    let! data := slice (rbuf b) (rr b) (rw b) in
    let! '(p, n) := copyTo p 0 data in
    let b := setPos b (rr b + n) (rw b) in
    let! c := idx (rbuf b) (rr b - 1) in
    Ok (p, n, None, setLast b c (-1)) in
  if len p =? 0 then
    if Buffered b >? 0 then Ok (p, 0, None, b) else
    let '(err, b) := readErr b in Ok (p, 0, err, b)
  else if rr b =? rw b then
    match rerr b with
    | Some _ => let '(err, b) := readErr b in Ok (p, 0, err, b)
    | None =>
        if len p >=? len (rbuf b) then
          let '(p, n, err, s) := doRead (rd b) p in
          let b := setErr (setRd b s) err in
          if n <? 0 then Panic else
          let! b := if n >? 0 then (let! c := idx p (n - 1) in Ok (setLast b c (-1))) else Ok b in
          let '(err, b) := readErr b in
          Ok (p, n, err, b)
        else
          let b := setPos b 0 0 in
          let '(buf, n, err, s) := doRead (rd b) (rbuf b) in
          let b := setErr (setRd (setBuf b buf) s) err in
          if n <? 0 then Panic else
          if n =? 0 then (let '(err, b) := readErr b in Ok (p, 0, err, b)) else
          copyOut (setPos b (rr b) (rw b + n))
    end
  else copyOut b.

(** [for b.r == b.w { ..; b.fill() }]: the error that ends it, if any.  A call of
    fill leaves a byte or an error. *)
Definition needByte b : res (option ioError * Reader S) :=
  loop 3
    (fun b =>
       if rr b =? rw b then
         match rerr b with
         | Some _ => Ok (inr (readErr b))
         | None => let! b := fill b in Ok (inl b)
         end
       else Ok (inr (None, b))) b.

Definition ReadByte b : res (Z * option ioError * Reader S) :=
  let b := setLast b (lastByte b) (-1) in
  let! '(err, b) := needByte b in
  match err with
  | Some err => Ok (0, Some err, b)
  | None =>
      let! c := idx (rbuf b) (rr b) in
      Ok (c, None, setLast (setPos b (rr b + 1) (rw b)) c (lastRuneSize b))
  end.

Definition UnreadByte b : res (option ioError * Reader S) :=
  if (lastByte b <? 0) || ((rr b =? 0) && (rw b >? 0)) then Ok (Some ErrInvalidUnreadByte, b) else
  let b := if rr b >? 0 then setPos b (rr b - 1) (rw b) else setPos b (rr b) 1 in
  let! buf := upd (rbuf b) (rr b) (u8 (lastByte b)) in
  Ok (None, setLast (setBuf b buf) (-1) (-1)).

(** [for b.r+utf8.UTFMax > b.w && !utf8.FullRune(..) && b.err == nil && .. { b.fill() }] *)
Definition fillRune b : res (Reader S) :=
  loop (Datatypes.S (length (rbuf b)))
    (fun b =>
       let! more :=
         if rr b + UTFMax >? rw b then
           let! p := slice (rbuf b) (rr b) (rw b) in
           let! full := FullRune p in
           Ok (negb full && bool_decide (rerr b = None) && (Buffered b <? len (rbuf b)))
         else Ok false in
       if (more : bool) then (let! b := fill b in Ok (inl b)) else Ok (inr b)) b.

Definition ReadRune b : res (Z * Z * option ioError * Reader S) :=
  let! b := fillRune b in
  let b := setLast b (lastByte b) (-1) in
  if rr b =? rw b then
    let '(err, b) := readErr b in Ok (0, 0, err, b)
  else
    let! p := slice (rbuf b) (rr b) (rw b) in
    let! '(r, size) := DecodeRune p in
    let b := setPos b (rr b + size) (rw b) in
    let! c := idx (rbuf b) (rr b - 1) in
    Ok (r, size, None, setLast b c size).

Definition UnreadRune b : option ioError * Reader S :=
  if (lastRuneSize b <? 0) || (rr b <? lastRuneSize b) then (Some ErrInvalidUnreadRune, b)
  else (None, setLast (setPos b (rr b - lastRuneSize b) (rw b)) (-1) (-1)).

(** One round of ReadSlice; [s] is where the search starts. *)
Definition sliceStep (delim : Z) (st : Z * Reader S) : res (Z * Reader S + list Z * option ioError * Reader S) :=
  let '(s, b) := st in
  let! area := slice (rbuf b) (rr b + s) (rw b) in
  let i := IndexByte area delim in
  if i >=? 0 then
    let i := i + s in
    let! line := slice (rbuf b) (rr b) (rr b + i + 1) in
    Ok (inr (line, None, setPos b (rr b + (i + 1)) (rw b)))
  else
    match rerr b with
    | Some _ =>
        let! line := slice (rbuf b) (rr b) (rw b) in
        let '(err, b) := readErr (setPos b (rw b) (rw b)) in
        Ok (inr (line, err, b))
    | None =>
        if Buffered b >=? len (rbuf b) then
          Ok (inr (rbuf b, Some ErrBufferFull, setPos b (rw b) (rw b)))
        else
          let s := rw b - rr b in
          let! b := fill b in
          Ok (inl (s, b))
    end.

Definition ReadSlice b (delim : Z) : res (list Z * option ioError * Reader S) :=
  let! '(line, err, b) := loop (Datatypes.S (Datatypes.S (length (rbuf b)))) (sliceStep delim) (0, b) in
  let i := len line - 1 in
  if i >=? 0 then
    let! c := idx line i in
    Ok (line, err, setLast b c (-1))
  else Ok (line, err, b).

(** The line is [None] when it is nil. *)
Definition ReadLine b : res (option (list Z) * bool * option ioError * Reader S) :=
  let! '(line, err, b) := ReadSlice b 10 in
  if decide (err = Some ErrBufferFull) then
    if len line >? 0 then
      let! c := idx line (len line - 1) in
      if c =? 13 then
        if rr b =? 0 then Panic else
        let! line := slice line 0 (len line - 1) in
        Ok (Some line, true, None, setPos b (rr b - 1) (rw b))
      else Ok (Some line, true, None, b)
    else Ok (Some line, true, None, b)
  else if len line =? 0 then
    match err with
    | Some _ => Ok (None, false, err, b)
    | None => Ok (Some line, false, err, b)
    end
  else
    let! c := idx line (len line - 1) in
    if c =? 10 then
      let! cr := if len line >? 1 then (let! c := idx line (len line - 2) in Ok (c =? 13)) else Ok false in
      let drop := if (cr : bool) then 2 else 1 in
      let! line := slice line 0 (len line - drop) in
      Ok (Some line, false, None, b)
    else Ok (Some line, false, None, b).

(** [fuel]: buffers read. *)
Definition collectFragments (fuel : nat) b (delim : Z) :
    res (list (list Z) * list Z * Z * option ioError * Reader S) :=
  let! '(full, frag, total, err, b) :=
    loop fuel
      (fun '(full, total, b) =>
         let! '(frag, e, b) := ReadSlice b delim in
         match e with
         | None => Ok (inr (full, frag, total, None, b))
         | Some e =>
             if decide (e = ErrBufferFull) then Ok (inl (full ++ [frag], total + len frag, b))
             else Ok (inr (full, frag, total, Some e, b))
         end) ([], 0, b) in
  Ok (full, frag, total + len frag, err, b).

(** [for i := range full { n += copy(buf[n:], full[i]) }] *)
Fixpoint copyAll (buf : list Z) (n : Z) (full : list (list Z)) : res (list Z * Z) :=
  match full with
  | [] => Ok (buf, n)
  | f :: full =>
      let! '(buf, k) := copyTo buf n f in
      copyAll buf (n + k) full
  end.

Definition ReadBytes (fuel : nat) b (delim : Z) : res (list Z * option ioError * Reader S) :=
  let! '(full, frag, n, err, b) := collectFragments fuel b delim in
  let! '(buf, n) := copyAll (replicate (Z.to_nat n) 0) 0 full in
  let! '(buf, _) := copyTo buf n frag in
  Ok (buf, err, b).

(** The strings.Builder appends what it is given. *)
Definition ReadString (fuel : nat) b (delim : Z) : res (list Z * option ioError * Reader S) :=
  let! '(full, frag, _, err, b) := collectFragments fuel b delim in
  Ok (fold_left (fun buf f => buf ++ f) full [] ++ frag, err, b).

(** *** WriteTo *)

Section WriteTo.
Context {T : Type} {WR : ioWriter T}.

Definition writeBuf b (w : T) : res (Z * option ioError * Reader S * T) :=
  let! p := slice (rbuf b) (rr b) (rw b) in
  let '(n, err, w) := doWrite w p in
  if n <? 0 then Panic else
  Ok (n, err, setPos b (rr b + n) (rw b), w).

(** [for b.r < b.w { ..writeBuf(w).. b.fill() }] *)
Definition copyLoop (fuel : nat) (n : Z) b (w : T) : res (Z * option ioError * Reader S * T) :=
  loop fuel
    (fun '(n, b, w) =>
       if rr b <? rw b then
         let! '(m, err, b, w) := writeBuf b w in
         match err with
         | Some err => Ok (inr (n + m, Some err, b, w))
         | None => let! b := fill b in Ok (inl (n + m, b, w))
         end
       else
         let b := if decide (rerr b = Some EOF) then setErr b None else b in
         let '(err, b) := readErr b in
         Ok (inr (n, err, b, w))) (n, b, w).

(** [writerTo] and [readerFrom]: the methods of the reader and of the writer, if
    they have them. *)
Definition WriteTo (writerTo : option (S -> T -> Z * option ioError * S * T))
    (readerFrom : option (T -> S -> Z * option ioError * S * T)) (fuel : nat) b (w : T) :
    res (Z * option ioError * Reader S * T) :=
  let b := setLast b (-1) (-1) in
  let! '(n, err, b, w) := if rr b <? rw b then writeBuf b w else Ok (0, None, b, w) in
  match err with
  | Some err => Ok (n, Some err, b, w)
  | None =>
      match writerTo, readerFrom with
      | Some writeTo, _ => let '(m, err, s, w) := writeTo (rd b) w in Ok (n + m, err, setRd b s, w)
      | None, Some readFrom => let '(m, err, s, w) := readFrom w (rd b) in Ok (n + m, err, setRd b s, w)
      | None, None =>
          let! b := if rw b - rr b <? len (rbuf b) then fill b else Ok b in
          copyLoop fuel n b w
      end
  end.
End WriteTo.
End ReaderModel.

(** ** Writer *)

Record Writer (T : Type) := mkWr { werr : option ioError; wbuf : list Z; wn : Z; wr : T }.
Arguments mkWr {T}.
Arguments werr {T}.
Arguments wbuf {T}.
Arguments wn {T}.
Arguments wr {T}.

Section WriterModel.
Context {T : Type} {WR : ioWriter T}.
Implicit Types b : Writer T.

Definition NewWriterSize (w : T) (size : Z) : Writer T :=
  let size := if size <=? 0 then defaultBufSize else size in
  mkWr None (replicate (Z.to_nat size) 0) 0 w.

Definition NewWriter (w : T) : Writer T := NewWriterSize w defaultBufSize.

Definition Writer_Size b : Z := len (wbuf b).

Definition Writer_Reset b (w : T) : Writer T :=
  let buf := if len (wbuf b) =? 0 then replicate (Z.to_nat defaultBufSize) 0 else wbuf b in
  mkWr None buf 0 w.

Definition Flush b : res (option ioError * Writer T) :=
  match werr b with
  | Some err => Ok (Some err, b)
  | None =>
      if wn b =? 0 then Ok (None, b) else
      let! p := slice (wbuf b) 0 (wn b) in
      let '(n, err, w) := doWrite (wr b) p in
      let err := if (n <? wn b) && bool_decide (err = None) then Some ErrShortWrite else err in
      match err with
      | Some err =>
          let! buf :=
            if (n >? 0) && (n <? wn b) then
              let! rest := slice (wbuf b) n (wn b) in
              let! '(buf, _) := copyTo (wbuf b) 0 rest in Ok buf
            else Ok (wbuf b) in
          Ok (Some err, mkWr (Some err) buf (wn b - n) w)
      | None => Ok (None, mkWr None (wbuf b) 0 w)
      end
  end.

Definition Available b : Z := len (wbuf b) - wn b.

(** The empty slice at the end of the data, with the capacity [Available]. *)
Definition AvailableBuffer b : res (list Z) :=
  let! rest := slice_from (wbuf b) (wn b) in slice rest 0 0.

Definition Writer_Buffered b : Z := wn b.

(** [n := copy(b.buf[b.n:], p); b.n += n] *)
Definition putBuf b (p : list Z) : res (Z * Writer T) :=
  let! '(buf, n) := copyTo (wbuf b) (wn b) p in
  Ok (n, mkWr (werr b) buf (wn b + n) (wr b)).

(** The loop of Write and of WriteString; [direct] writes to the writer beneath. *)
Definition writeLoop (direct : option (T -> list Z -> Z * option ioError * T)) b (p : list Z) :
    res (Z * option ioError * Writer T) :=
  loop (Datatypes.S (Datatypes.S (length p)))
    (fun '(nn, p, b) =>
       if (len p >? Available b) && bool_decide (werr b = None) then
         let! '(n, b) :=
           match direct with
           | Some write =>
               if Writer_Buffered b =? 0 then
                 let '(n, err, w) := write (wr b) p in Ok (n, mkWr err (wbuf b) (wn b) w)
               else
                 let! '(n, b) := putBuf b p in let! '(_, b) := Flush b in Ok (n, b)
           | None =>
               let! '(n, b) := putBuf b p in let! '(_, b) := Flush b in Ok (n, b)
           end in
         let! p := slice_from p n in
         Ok (inl (nn + n, p, b))
       else
         match werr b with
         | Some err => Ok (inr (nn, Some err, b))
         | None => let! '(n, b) := putBuf b p in Ok (inr (nn + n, None, b))
         end) (0, p, b).

Definition Write b (p : list Z) : res (Z * option ioError * Writer T) := writeLoop (Some doWrite) b p.

(** [stringWriter]: the method WriteString of the writer beneath, if it has one. *)
Definition WriteString (stringWriter : option (T -> list Z -> Z * option ioError * T)) b (s : list Z) :
    res (Z * option ioError * Writer T) := writeLoop stringWriter b s.

Definition WriteByte b (c : Z) : res (option ioError * Writer T) :=
  match werr b with
  | Some err => Ok (Some err, b)
  | None =>
      let! '(err, b) := if Available b <=? 0 then Flush b else Ok (None, b) in
      match err with
      | Some _ => Ok (werr b, b)
      | None =>
          let! buf := upd (wbuf b) (wn b) c in
          Ok (None, mkWr (werr b) buf (wn b + 1) (wr b))
      end
  end.

Definition WriteRune (stringWriter : option (T -> list Z -> Z * option ioError * T)) b (r : Z) :
    res (Z * option ioError * Writer T) :=
  if u32 r <? RuneSelf then
    let! '(err, b) := WriteByte b (u8 r) in
    match err with
    | Some err => Ok (0, Some err, b)
    | None => Ok (1, None, b)
    end
  else
    match werr b with
    | Some err => Ok (0, Some err, b)
    | None =>
        let encode b :=
          let! rest := slice_from (wbuf b) (wn b) in
          let! '(rest, size) := EncodeRune rest r in
          Ok (size, None, mkWr (werr b) (take (Z.to_nat (wn b)) (wbuf b) ++ rest) (wn b + size) (wr b)) in
        if Available b <? UTFMax then
          let! '(_, b) := Flush b in
          match werr b with
          | Some err => Ok (0, Some err, b)
          | None => if Available b <? UTFMax then WriteString stringWriter b (AppendRune [] r) else encode b
          end
        else encode b
    end.

Section ReadFrom.
Context {S : Type} {RD : ioReader S}.

(** [for nr < maxConsecutiveEmptyReads { m, err = r.Read(b.buf[b.n:]); .. }]: the
    last count and error, or [None] when every read was empty. *)
Definition readSome b (s : S) : res (option (Z * option ioError) * Writer T * S) :=
  loop (Datatypes.S (Z.to_nat maxConsecutiveEmptyReads))
    (fun '(nr, b, s) =>
       if nr <? maxConsecutiveEmptyReads then
         let! p := slice_from (wbuf b) (wn b) in
         let '(p', m, err, s) := doRead s p in
         let b := mkWr (werr b) (take (Z.to_nat (wn b)) (wbuf b) ++ p') (wn b) (wr b) in
         if negb (m =? 0) || bool_decide (err <> None) then Ok (inr (Some (m, err), b, s))
         else Ok (inl (nr + 1, b, s))
       else Ok (inr (None, b, s))) (0, b, s).

(** One round of the loop of ReadFrom. *)
Definition readFromStep (readerFrom : option (T -> S -> Z * option ioError * S * T)) (st : Z * Writer T * S) :
    res (Z * Writer T * S + Z * option ioError * Writer T * S) :=
  let '(n, b, s) := st in
  let! '(err1, b) := if Available b =? 0 then Flush b else Ok (None, b) in
  match err1 with
  | Some err1 => Ok (inr (n, Some err1, b, s))
  | None =>
      let go b :=
        let! '(got, b, s) := readSome b s in
        match got with
        | None => Ok (inr (n, Some ErrNoProgress, b, s))
        | Some (m, err) =>
            let b := mkWr (werr b) (wbuf b) (wn b + m) (wr b) in
            let n := n + m in
            match err with
            | None => Ok (inl (n, b, s))
            | Some err =>
                if decide (err = EOF) then
                  if Available b =? 0 then (let! '(err, b) := Flush b in Ok (inr (n, err, b, s)))
                  else Ok (inr (n, None, b, s))
                else Ok (inr (n, Some err, b, s))
            end
        end in
      match readerFrom with
      | Some readFrom =>
          if Writer_Buffered b =? 0 then
            let '(nn, err, s, w) := readFrom (wr b) s in
            Ok (inr (n + nn, err, mkWr err (wbuf b) (wn b) w, s))
          else go b
      | None => go b
      end
  end.

Definition ReadFrom (readerFrom : option (T -> S -> Z * option ioError * S * T)) (fuel : nat) b (s : S) :
    res (Z * option ioError * Writer T * S) :=
  match werr b with
  | Some err => Ok (0, Some err, b, s)
  | None => loop fuel (readFromStep readerFrom) (0, b, s)
  end.
End ReadFrom.
End WriterModel.
