(* ===== verification/BufioReader.v ===== *)
(** * bufio: the Reader delivers its source

    A Reader holds a queue: the bytes of its buffer and those that its source
    will still give.  Each method against that queue, for every source that keeps
    the contract of io.Reader. *)
From Stdlib Require Import ZArith Lia.
From stdpp Require Import base numbers list.
From S2P Require Import Prelude Utf8 Bufio.

(** A source: the data it will give, the error at its end, and a bound on the
    reads in a row that give neither.  ErrBufferFull is an error of the Reader
    itself. *)
Class Source (S : Type) {RD : ioReader S} := {
  dataOf : S -> list Z;
  finalOf : S -> ioError;
  stallOf : S -> Z;
  dataOf_ok : forall s, bytes_ok (dataOf s);
  stallOf_range : forall s, 0 <= stallOf s < 100;
  finalOf_own : forall s, finalOf s <> ErrBufferFull;
  doRead_spec : forall s p, p <> [] -> exists chunk rest err s',
    doRead s p = (chunk ++ rest, len chunk, err, s') /\ len (chunk ++ rest) = len p /\
    dataOf s = chunk ++ dataOf s' /\ finalOf s' = finalOf s /\
    (err = None \/ (err = Some (finalOf s) /\ dataOf s' = [])) /\
    (chunk = [] -> err = None -> stallOf s' < stallOf s);
}.

Class BytealgLaws (BA : Bytealg) : Prop := {
  IndexByte_found l c i : IndexByte l c = i -> 0 <= i -> i < len l /\ l !! Z.to_nat i = Some c /\ c ∉ take (Z.to_nat i) l;
  IndexByte_absent l c : IndexByte l c < 0 <-> c ∉ l;
}.

Section Queue.
Context {S : Type} {RD : ioReader S} {SR : Source S}.
Implicit Types b : Reader S.

(** The bytes in the buffer, and all that will be read. *)
Definition inBuf b : list Z := take (Z.to_nat (rw b - rr b)) (drop (Z.to_nat (rr b)) (rbuf b)).
Definition queue b : list Z := inBuf b ++ dataOf (rd b).

Record rinv b : Prop := {
  ri_pos : 0 <= rr b <= rw b;
  ri_cap : rw b <= len (rbuf b);
  ri_size : 16 <= len (rbuf b);
  ri_err : rerr b = None \/ (rerr b = Some (finalOf (rd b)) /\ dataOf (rd b) = []);
  ri_bytes : bytes_ok (inBuf b);
}.

(** What stays the same when the buffer is filled. *)
Definition sameQueue b b' : Prop :=
  queue b' = queue b /\ finalOf (rd b') = finalOf (rd b) /\ len (rbuf b') = len (rbuf b) /\
  lastByte b' = lastByte b /\ lastRuneSize b' = lastRuneSize b.

Lemma inBuf_len b : rinv b -> len (inBuf b) = Buffered b.
Proof.
  intros []. unfold inBuf, Buffered, len in *. rewrite length_take, length_drop. lia.
Qed.

Lemma queue_ok b : rinv b -> bytes_ok (queue b).
Proof. intros Hb. apply Forall_app. split; [apply Hb | apply dataOf_ok]. Qed.

Lemma inBuf_slice b : rinv b -> slice (rbuf b) (rr b) (rw b) = Ok (inBuf b).
Proof. intros []. by rewrite slice_Ok by lia. Qed.

Lemma sameQueue_trans b b1 b2 : sameQueue b b1 -> sameQueue b1 b2 -> sameQueue b b2.
Proof. unfold sameQueue. intuition congruence. Qed.

(** ** fill *)

Lemma slideDown_spec b :
  rinv b -> slideDown b ⇓ fun b' => rinv b' /\ sameQueue b b' /\ rr b' = 0 /\ inBuf b' = inBuf b /\
    rd b' = rd b /\ rerr b' = rerr b.
Proof.
  intros Hb. pose proof (inBuf_len b Hb) as Hl. unfold slideDown, Buffered in *.
  destruct (Z.gtb_spec (rr b) 0) as [G|G].
  2: { simpl. split_and!; try done. destruct Hb. lia. }
  rewrite inBuf_slice by done. simpl. unfold copyTo. pose proof Hb as [Hp Hc Hs He Hok].
  rewrite slice_from_Ok by lia. simpl. rewrite drop_0.
  assert (Hm : Nat.min (length (rbuf b)) (length (inBuf b)) = length (inBuf b)) by (unfold len in *; lia).
  rewrite Hm, take_ge by lia.
  set (b' := setPos (setBuf b (inBuf b ++ drop (length (inBuf b)) (rbuf b))) 0 (rw b - rr b)).
  assert (Hin : inBuf b' = inBuf b).
  { unfold inBuf at 1. simpl. rewrite drop_0, Z.sub_0_r, <- Hl. unfold len. rewrite Nat2Z.id. apply take_app_length. }
  assert (HL : len (rbuf b') = len (rbuf b)).
  { simpl. rewrite len_app. unfold len in *. rewrite length_drop. lia. }
  split_and!; try done.
  - constructor; rewrite ?HL, ?Hin; try done; simpl; lia.
  - unfold sameQueue, queue. rewrite Hin, HL. done.
Qed.

Lemma readMore_spec b :
  rinv b -> rw b < len (rbuf b) ->
  readMore b ⇓ fun '(n, err, b') => exists chunk, n = len chunk /\ dataOf (rd b) = chunk ++ dataOf (rd b') /\
    rr b' = rr b /\ rw b' = rw b + n /\ inBuf b' = inBuf b ++ chunk /\ len (rbuf b') = len (rbuf b) /\
    rw b' <= len (rbuf b) /\ finalOf (rd b') = finalOf (rd b) /\ rerr b' = rerr b /\
    lastByte b' = lastByte b /\ lastRuneSize b' = lastRuneSize b /\
    (err = None \/ (err = Some (finalOf (rd b)) /\ dataOf (rd b') = [])) /\
    (chunk = [] -> err = None -> stallOf (rd b') < stallOf (rd b)).
Proof.
  intros Hb Hw. pose proof Hb as [Hp Hc Hs He Hok]. unfold readMore. rewrite slice_from_Ok by lia. cbn [rbind].
  destruct (doRead_spec (rd b) (drop (Z.to_nat (rw b)) (rbuf b))) as (chunk & rest & err & s' & -> & Hlen & Hd & Hf & Herr & Hst).
  { intros E. apply (f_equal length) in E. rewrite length_drop in E. unfold len in *. simpl in E. lia. }
  pose proof (len_nonneg chunk). destruct (Z.ltb_spec (len chunk) 0); [lia|]. simpl.
  rewrite len_app in Hlen. assert (Hdl : len (drop (Z.to_nat (rw b)) (rbuf b)) = len (rbuf b) - rw b).
  { unfold len in *. rewrite length_drop. lia. }
  pose proof (len_nonneg rest).
  exists chunk. split_and!; try done; try lia.
  - unfold inBuf. simpl. replace (Z.to_nat (rw b + len chunk - rr b)) with (Z.to_nat (rw b - rr b) + length chunk)%nat by (unfold len in *; lia).
    rewrite drop_app_le by (rewrite length_take; unfold len in *; lia).
    rewrite skipn_firstn_comm. rewrite (assoc_L app), take_app_le.
    2: { rewrite length_app, length_take, length_drop. unfold len in *. lia. }
    rewrite take_ge; [|rewrite length_app, length_take, length_drop; unfold len in *; lia].
    do 2 f_equal. lia.
  - rewrite !len_app. unfold len in *. rewrite length_take. lia.
Qed.

(** fill gets a byte or the error, and loses nothing. *)
Lemma fill_spec b :
  rinv b -> Buffered b < len (rbuf b) ->
  fill b ⇓ fun b' => rinv b' /\ sameQueue b b' /\ rr b' = 0 /\ Buffered b <= Buffered b' /\
    (exists chunk, inBuf b' = inBuf b ++ chunk) /\
    (rerr b' = None -> Buffered b < Buffered b') /\ (Buffered b < Buffered b' \/ rerr b' <> None).
Proof.
  intros Hb Hroom. unfold fill. eapply returns_bind_mono; [by apply slideDown_spec|].
  intros b0 (Hb0 & Hq0 & Hr0 & Hin0 & Hrd0 & He0). pose proof (inBuf_len b Hb) as HL. pose proof (inBuf_len b0 Hb0) as HL0.
  rewrite Hin0, HL in HL0. unfold Buffered in HL0 at 2. rewrite Hr0, Z.sub_0_r in HL0.
  destruct Hq0 as (Q1 & Q2 & Q3 & Q4 & Q5). destruct (Z.geb_spec (rw b0) (len (rbuf b0))) as [G|G]; [lia|].
  apply (loop_returns (fun '(i, b') => 0 <= i <= 100 /\ stallOf (rd b') < i /\ rinv b' /\ sameQueue b b' /\ rr b' = 0 /\
    rw b' = rw b0 /\ inBuf b' = inBuf b /\ len (rbuf b') = len (rbuf b)) (fun '(i, _) => i)).
  - intros [i b1] (Hi & Hst & Hb1 & Hq1 & Hr1 & Hw1 & Hin1 & Hlb1). pose proof (stallOf_range (rd b1)).
    destruct (Z.gtb_spec i 0) as [_|]; [|lia].
    eapply returns_bind_mono; [apply readMore_spec; [done | lia]|].
    intros [[n err] b2] (chunk & -> & Hd & Hr2 & Hw2 & Hin2 & Hlb2 & Hcap2 & Hf2 & Herr2 & Hl2 & Hlr2 & Hcase & Hst2).
    pose proof (len_nonneg chunk). destruct Hq1 as (R1 & R2 & R3 & R4 & R5).
    assert (Hq2 : sameQueue b b2).
    { unfold sameQueue, queue. rewrite Hin2, <- (assoc_L app), <- Hd. split; [exact R1|]. split_and!; congruence. }
    assert (Hok : bytes_ok (inBuf b2)).
    { rewrite Hin2. apply Forall_app. split; [apply Hb1|]. pose proof (dataOf_ok (rd b1)) as Hd1. rewrite Hd in Hd1.
      apply Forall_app in Hd1 as [? _]. done. }
    assert (Hok2 : forall e, e = None \/ (e = Some (finalOf (rd b1)) /\ dataOf (rd b2) = []) -> rinv (setErr b2 e)).
    { intros e He. pose proof Hb1 as []. constructor; simpl; try done; try lia. by rewrite Hf2. }
    assert (Hbuf : Buffered b2 = Buffered b + len chunk) by (unfold Buffered in *; lia).
    destruct err as [err|].
    + simpl. destruct Hcase as [|[E Hd0]]; [done|]. split; [apply Hok2; auto|].
      split_and!; try done; try (unfold Buffered in *; simpl in *; lia).
      * exists chunk. rewrite <- Hin1. exact Hin2.
      * by right.
    + assert (Hinv2 : rinv b2).
      { replace b2 with (setErr b2 (rerr b2)) by (by destruct b2). apply Hok2. rewrite Herr2.
        destruct (ri_err _ Hb1) as [->|[-> Hd0]]; [by left | right]. split; [done|]. rewrite Hd0 in Hd.
        symmetry in Hd. by apply app_eq_nil in Hd as [_ ?]. }
      destruct (Z.gtb_spec (len chunk) 0).
      * simpl. split_and!; try done; try lia; exists chunk; congruence.
      * simpl. assert (chunk = []) as -> by (apply len_zero_inv; lia). specialize (Hst2 eq_refl eq_refl).
        rewrite app_nil_r in Hin2. change (len []) with 0 in *. split; [|lia]. split_and!; try done; try lia; try congruence.
  - change maxConsecutiveEmptyReads with 100. pose proof (stallOf_range (rd b0)). split_and!; try done; try lia; try congruence.
  - change maxConsecutiveEmptyReads with 100. lia.
  - change maxConsecutiveEmptyReads with 100. lia.
Qed.

(** ** Taking bytes from the buffer *)

Lemma rinv_setErr b : rinv b -> rinv (setErr b None).
Proof. intros []. constructor; auto. Qed.

Lemma rinv_setLast b x y : rinv b -> rinv (setLast b x y).
Proof. intros []. by constructor. Qed.

Lemma err_empty b e : rinv b -> rerr b = Some e -> e = finalOf (rd b) /\ queue b = inBuf b.
Proof.
  intros Hb He. destruct (ri_err _ Hb) as [E|[E Hd]]; [congruence|]. split; [congruence|].
  unfold queue. by rewrite Hd, app_nil_r.
Qed.

Lemma empty_buf b : rinv b -> rr b = rw b -> inBuf b = [].
Proof. intros Hb E. apply len_zero_inv. rewrite inBuf_len by done. unfold Buffered. lia. Qed.

Lemma advance b k :
  rinv b -> 0 <= k <= Buffered b ->
  let b' := setPos b (rr b + k) (rw b) in
  let taken := take (Z.to_nat k) (inBuf b) in
  rinv b' /\ queue b = taken ++ queue b' /\ inBuf b = taken ++ inBuf b' /\ len taken = k /\ inBuf b' = drop (Z.to_nat k) (inBuf b).
Proof.
  intros Hb Hk b' taken. pose proof (inBuf_len b Hb) as Hl. pose proof Hb as [Hp Hc Hs He Hok].
  assert (Hd : inBuf b' = drop (Z.to_nat k) (inBuf b)).
  { unfold inBuf, b'. simpl. rewrite skipn_firstn_comm, drop_drop. unfold Buffered in Hk. f_equal; [lia|]. f_equal. lia. }
  assert (Hin : inBuf b = taken ++ inBuf b') by (rewrite Hd; symmetry; apply take_drop).
  split_and!; try done.
  - constructor; simpl; try done; unfold Buffered in Hk; [lia|]. rewrite Hd. by apply Forall_drop.
  - unfold queue. rewrite Hin at 1. by rewrite <- (assoc_L app).
  - unfold taken, len in *. rewrite length_take. lia.
Qed.

Lemma idx_inBuf b j : rinv b -> 0 <= j < Buffered b -> idx (rbuf b) (rr b + j) = idx (inBuf b) j.
Proof.
  intros [] Hj. unfold Buffered in Hj. unfold idx, inBuf.
  destruct (Z.leb_spec 0 (rr b + j)), (Z.leb_spec 0 j); try lia.
  rewrite lookup_take_lt by lia. rewrite lookup_drop. by replace (Z.to_nat (rr b + j)) with (Z.to_nat (rr b) + Z.to_nat j)%nat by lia.
Qed.

(** ** ReadByte *)

Lemma needByte_spec b :
  rinv b -> needByte b ⇓ fun '(err, b') => rinv b' /\ sameQueue b b' /\
    ((queue b = [] /\ err = Some (finalOf (rd b)) /\ rr b' = rw b') \/ (err = None /\ rr b' < rw b')).
Proof.
  intros Hb. unfold needByte.
  assert (Hstop : forall n b1, rinv b1 -> rerr b1 <> None \/ rr b1 < rw b1 ->
    loop (Datatypes.S n)
      (fun b =>
       if rr b =? rw b then
         match rerr b with
         | Some _ => Ok (inr (readErr b))
         | None => let! b := fill b in Ok (inl b)
         end
       else Ok (inr (None, b))) b1 ⇓ fun '(err, b') => rinv b' /\ sameQueue b1 b' /\
    ((queue b1 = [] /\ err = Some (finalOf (rd b1)) /\ rr b' = rw b') \/ (err = None /\ rr b' < rw b'))).
  { intros n b1 Hb1 Hc. cbn [loop]. pose proof (ri_pos _ Hb1). destruct (Z.eqb_spec (rr b1) (rw b1)) as [E|E].
    - destruct (rerr b1) as [e|] eqn:He; [|destruct Hc; [done | lia]].
      destruct (err_empty _ _ Hb1 He) as [-> Hq]. simpl. split; [by apply rinv_setErr|]. split; [done|]. left.
      rewrite Hq, empty_buf by done. done.
    - simpl. split; [done|]. split; [done|]. right. split; [done | lia]. }
  destruct (rerr b) as [e|] eqn:He; [apply Hstop; [done | left; congruence]|].
  pose proof (ri_pos _ Hb). destruct (Z.eq_dec (rr b) (rw b)) as [E|E]; [|apply Hstop; [done | right; lia]].
  cbn [loop]. rewrite (proj2 (Z.eqb_eq _ _) E), He.
  pose proof (fill_spec b Hb ltac:(unfold Buffered; pose proof (ri_size _ Hb); lia)) as Hfill.
  destruct (fill b) as [b1| |]; try done. simpl in Hfill. destruct Hfill as (Hb1 & Hq1 & _ & _ & _ & _ & Hor).
  cbn [rbind]. eapply returns_mono; [apply (Hstop 1%nat b1 Hb1)|].
  { unfold Buffered in Hor. destruct Hor; [right; lia | by left]. }
  intros [err b'] (Hb' & Hq' & Hcase). pose proof Hq1 as (Q1 & Q2 & _). split; [done|].
  split; [by eapply sameQueue_trans|]. by rewrite Q1, Q2 in Hcase.
Qed.

(** The state after bytes have been taken: the rest of the queue. *)
Definition leaves b b' (q : list Z) : Prop :=
  rinv b' /\ queue b' = q /\ finalOf (rd b') = finalOf (rd b) /\ len (rbuf b') = len (rbuf b).

Lemma leaves_same b b1 b' q : sameQueue b b1 -> leaves b1 b' q -> leaves b b' q.
Proof. unfold leaves, sameQueue. intuition congruence. Qed.

(** There is room for an unread byte in front of the data. *)
Definition settled b : Prop := rr b = rw b \/ 0 < rr b.

Lemma ReadByte_spec b :
  rinv b -> ReadByte b ⇓ fun '(c, err, b') => lastRuneSize b' = -1 /\ settled b' /\
    match queue b with
    | [] => c = 0 /\ err = Some (finalOf (rd b)) /\ leaves b b' [] /\ lastByte b' = lastByte b
    | x :: q => c = x /\ err = None /\ leaves b b' q /\ lastByte b' = x
    end.
Proof.
  intros Hb. unfold ReadByte. set (b0 := setLast b (lastByte b) (-1)).
  eapply returns_bind_mono; [apply (needByte_spec b0); by apply rinv_setLast|].
  intros [err b1] (Hb1 & Hq1 & Hcase). change (queue b0) with (queue b) in Hcase. change (rd b0) with (rd b) in Hcase.
  pose proof Hq1 as (Q1 & Q2 & Q3 & Q4 & Q5). change (queue b0) with (queue b) in Q1.
  simpl in Q2, Q3, Q4, Q5. destruct Hcase as [(Hqe & -> & E)|(-> & L)].
  - simpl. rewrite Hqe. split_and!; try done; [by left|]. unfold leaves. split_and!; congruence.
  - assert (Hne : 1 <= Buffered b1) by (unfold Buffered; lia). destruct (advance b1 1 Hb1 ltac:(lia)) as (Hb2 & Hq2 & Hin2 & Hl2 & _).
    replace (rr b1) with (rr b1 + 0) at 1 by lia. rewrite idx_inBuf by (try done; lia).
    destruct (inBuf b1) as [|x l] eqn:Ein; [pose proof (inBuf_len b1 Hb1) as Hn; rewrite Ein, len_nil in Hn; lia|].
    cbn [idx]. change (idx (x :: l) 0) with (Ok x). simpl in Hq2. rewrite Q1 in Hq2. rewrite Hq2. simpl.
    split; [done|]. split; [right; simpl; pose proof (ri_pos _ Hb1); lia|]. split; [done|]. split; [done|]. split; [|done].
    split; [by apply rinv_setLast|]. split; [done|]. split; simpl; congruence.
Qed.

(** ** Peek and Discard *)

(** The buffer holds [n] bytes, or is full, or its error is known. *)
Definition filledTo b (n : Z) : Prop := n <= Buffered b \/ len (rbuf b) <= Buffered b \/ rerr b <> None.

Lemma fillTo_spec b n :
  rinv b -> fillTo b n ⇓ fun b' => rinv b' /\ sameQueue b b' /\ filledTo b' n.
Proof.
  intros Hb. unfold fillTo.
  apply (loop_returns (fun b' => rinv b' /\ sameQueue b b') (fun b' => if bool_decide (rerr b' = None) then len (rbuf b) - Buffered b' else 0)).
  - intros b1 [Hb1 Hq1]. pose proof (inBuf_len _ Hb1). pose proof (len_nonneg (inBuf b1)). pose proof (ri_cap _ Hb1). pose proof (ri_pos _ Hb1).
    pose proof Hq1 as (_ & _ & Q3 & _).
    destruct (Z.ltb_spec (Buffered b1) n) as [L1|L1]; [|simpl; split_and!; try done; by left].
    destruct (Z.ltb_spec (Buffered b1) (len (rbuf b1))) as [L2|L2]; [|simpl; split_and!; try done; right; left; lia].
    destruct (rerr b1) eqn:He; simpl; [split_and!; try done; right; right; congruence|].
    eapply returns_bind_mono; [by apply fill_spec|]. intros b2 (Hb2 & Hq2 & _ & Hle & _ & Hlt & _). simpl.
    pose proof (inBuf_len _ Hb2). pose proof (len_nonneg (inBuf b2)). pose proof Hq2 as (_ & _ & Q3' & _).
    pose proof (ri_cap _ Hb2). pose proof (ri_pos _ Hb2). unfold Buffered in *.
    split; [split; [done | by eapply sameQueue_trans]|]. case_bool_decide; [specialize (Hlt ltac:(done)); lia | lia].
  - done.
  - pose proof (inBuf_len _ Hb). pose proof (len_nonneg (inBuf b)). unfold len. case_bool_decide; lia.
  - pose proof (ri_cap _ Hb). pose proof (ri_pos _ Hb). unfold Buffered. case_bool_decide; lia.
Qed.

(** A filled buffer holds the front of the queue. *)
Lemma filled_front b n :
  rinv b -> filledTo b n -> n <= len (rbuf b) ->
  (n <= Buffered b /\ take (Z.to_nat n) (inBuf b) = take (Z.to_nat n) (queue b) /\ n <= len (queue b)) \/
  (Buffered b < n /\ queue b = inBuf b /\ rerr b = Some (finalOf (rd b))).
Proof.
  intros Hb Hf Hn. pose proof (inBuf_len b Hb) as Hl. destruct (Z.le_gt_cases n (Buffered b)) as [L|L].
  - left. split; [done|]. unfold queue. rewrite take_app_le by (unfold len in Hl; lia). split; [done|].
    rewrite len_app. pose proof (len_nonneg (dataOf (rd b))). lia.
  - right. split; [done|]. destruct Hf as [|[|He]]; [lia | lia|]. destruct (rerr b) as [e|] eqn:Ee; [|done].
    destruct (err_empty _ _ Hb Ee) as [-> Hq]. done.
Qed.

(** Peek shows the front of the queue: [n] bytes, or all there are before the
    error, or a full buffer. *)
Lemma Peek_spec b n :
  rinv b -> 0 <= n -> Peek b n ⇓ fun '(p, err, b') => leaves b b' (queue b) /\ lastByte b' = -1 /\ lastRuneSize b' = -1 /\
    if len (rbuf b) <? n then p = take (length (rbuf b)) (queue b) /\ err = Some ErrBufferFull
    else p = take (Z.to_nat n) (queue b) /\ err = if n <=? len (queue b) then None else Some (finalOf (rd b)).
Proof.
  intros Hb Hn. unfold Peek. destruct (Z.ltb_spec n 0); [lia|]. set (b0 := setLast b (-1) (-1)).
  eapply returns_bind_mono; [apply (fillTo_spec b0 n); by apply rinv_setLast|].
  intros b1 (Hb1 & (Q1 & Q2 & Q3 & Q4 & Q5) & Hf). change (queue b0) with (queue b) in Q1. simpl in Q2, Q3, Q4, Q5.
  pose proof (inBuf_len b1 Hb1) as Hl. pose proof (ri_cap _ Hb1). pose proof (ri_pos _ Hb1).
  assert (HL : leaves b b1 (queue b)) by done.
  rewrite Q3. destruct (Z.gtb_spec n (len (rbuf b))) as [G|G].
  - rewrite inBuf_slice by done. simpl. destruct (Z.ltb_spec (len (rbuf b)) n); [|lia]. split_and!; try done.
    rewrite <- Q1. destruct (filled_front b1 (len (rbuf b1)) Hb1) as [(L1 & Ht & _)|(L1 & Hq & _)].
    + destruct Hf as [?|[?|?]]; [left; lia | right; by left | by right; right].
    + lia.
    + unfold len in *. rewrite <- Q3 in *. replace (length (rbuf b)) with (Z.to_nat (Z.of_nat (length (rbuf b1)))) by lia.
      rewrite <- Ht. symmetry. apply take_ge. unfold Buffered in *. lia.
    + rewrite Hq. symmetry. apply take_ge. unfold len in *. unfold Buffered in *. lia.
  - destruct (Z.ltb_spec (len (rbuf b)) n); [lia|].
    destruct (filled_front b1 n Hb1 Hf ltac:(lia)) as [(L1 & Ht & Hlen)|(L1 & Hq & He)].
    + destruct (Z.ltb_spec (Buffered b1) n); [lia|]. unfold Buffered in L1. rewrite slice_Ok by lia. simpl.
      split_and!; try done.
      * rewrite <- Q1, <- Ht. unfold inBuf. rewrite take_take. f_equal. lia.
      * rewrite Q1 in Hlen. destruct (Z.leb_spec n (len (queue b))); [done | lia].
    + destruct (Z.ltb_spec (Buffered b1) n); [|lia]. simpl. unfold Buffered in *. rewrite slice_Ok by lia. simpl.
      assert (Hqb : queue b = inBuf b1) by congruence. rewrite He. simpl.
      split; [split; [by apply rinv_setErr|]; split; [done|]; split; simpl; congruence|]. split; [done|]. split; [done|].
      rewrite Hqb. split.
      * rewrite (take_ge (inBuf b1)) by (unfold len in *; lia). unfold inBuf. f_equal. lia.
      * destruct (Z.leb_spec n (len (inBuf b1))); [lia|]. congruence.
Qed.

Lemma leaves_trans b b1 b2 q q' : leaves b b1 q -> leaves b1 b2 q' -> leaves b b2 q'.
Proof. unfold leaves. intuition congruence. Qed.

(** Discard skips [n] bytes, or all before the error. *)
Lemma Discard_spec b n :
  rinv b -> 0 < n -> Discard b n ⇓ fun '(k, err, b') =>
    leaves b b' (drop (Z.to_nat n) (queue b)) /\ lastByte b' = -1 /\ lastRuneSize b' = -1 /\
    k = Z.min n (len (queue b)) /\ err = if n <=? len (queue b) then None else Some (finalOf (rd b)).
Proof.
  intros Hb Hn. unfold Discard. destruct (Z.ltb_spec n 0); [lia|]. destruct (Z.eqb_spec n 0); [lia|].
  apply (loop_returns (fun '(remain, b') => 0 < remain <= n /\ n - remain <= len (queue b) /\ lastByte b' = -1 /\ lastRuneSize b' = -1 /\
     leaves b b' (drop (Z.to_nat (n - remain)) (queue b))) (fun '(remain, _) => remain)).
  - intros [remain b1] (Hr & Hle & Hlb & Hlr & (Hb1 & Q1 & Q2 & Q3)). unfold discardStep.
    eapply (returns_bind_mono _ _ (fun b2 => rinv b2 /\ sameQueue b1 b2 /\ (0 < Buffered b2 \/ rerr b2 <> None))).
    { destruct (Z.eqb_spec (Buffered b1) 0) as [E|E].
      - eapply returns_mono; [apply fill_spec; [done | pose proof (ri_size _ Hb1); lia]|].
        intros b2 (Hb2 & Hq2 & _ & _ & _ & _ & Hor). split_and!; try done. destruct Hor; [left; lia | by right].
      - simpl. split_and!; try done. left. pose proof (ri_pos _ Hb1). unfold Buffered in *. lia. }
    intros b2 (Hb2 & (R1 & R2 & R3 & R4 & R5) & Hor). cbv zeta.
    pose proof (ri_pos _ Hb2) as Hp2. set (skip := if Buffered b2 >? remain then remain else Buffered b2).
    assert (Hskip : 0 <= skip <= Buffered b2 /\ skip <= remain /\ (skip = remain \/ skip = Buffered b2)).
    { unfold skip, Buffered in *. destruct (Z.gtb_spec (rw b2 - rr b2) remain); lia. }
    destruct (advance b2 skip Hb2 ltac:(lia)) as (Hb3 & Hq3 & _ & Hl3 & Hd3). set (b3 := setPos b2 (rr b2 + skip) (rw b2)) in *.
    assert (Hq : queue b3 = drop (Z.to_nat (n - remain + skip)) (queue b)).
    { rewrite Q1 in R1. rewrite R1 in Hq3. replace (Z.to_nat (n - remain + skip)) with (Z.to_nat (n - remain) + Z.to_nat skip)%nat by lia.
      rewrite <- drop_drop, Hq3, drop_app_ge; [|unfold len in Hl3; lia].
      replace (_ - _)%nat with 0%nat by (unfold len in Hl3; lia). done. }
    assert (Hlen3 : n - remain + skip <= len (queue b)).
    { apply (f_equal len) in Hq3. rewrite R1, Q1, len_app, Hl3 in Hq3. pose proof (len_nonneg (queue b3)).
      unfold len in Hq3 at 1. rewrite length_drop in Hq3. unfold len in *. lia. }
    destruct (Z.eqb_spec (remain - skip) 0) as [E|E].
    + simpl. split; [|split_and!; try congruence].
      * split; [done|]. split; [rewrite Hq; do 2 f_equal; lia|]. simpl. split; congruence.
      * lia.
      * destruct (Z.leb_spec n (len (queue b))); [done | lia].
    + change (rerr b3) with (rerr b2). destruct (rerr b2) as [e|] eqn:Ee.
      * destruct (err_empty _ _ Hb2 Ee) as [-> Hqe]. assert (Hs : skip = Buffered b2) by lia. pose proof (inBuf_len b2 Hb2) as Hl2.
        assert (Hall : len (queue b) = n - remain + skip).
        { apply (f_equal len) in Hqe. rewrite R1, Q1, Hl2, <- Hs in Hqe. unfold len in Hqe at 1. rewrite length_drop in Hqe. unfold len in *. lia. }
        simpl. split; [split; [by apply rinv_setErr|]; split; [|simpl; split; congruence]|].
        -- change (queue (setErr b3 None)) with (queue b3). rewrite Hq, !drop_ge by (unfold len in *; lia). done.
        -- split_and!; try congruence; try lia. destruct (Z.leb_spec n (len (queue b))); [lia|]. rewrite Ee. congruence.
      * assert (0 < skip) by (destruct Hor; [lia | done]). simpl. split; [|lia]. split; [lia|]. split; [lia|].
        split; [congruence|]. split; [congruence|]. split; [done|]. split; [rewrite Hq; do 2 f_equal; lia|]. simpl. split; congruence.
  - rewrite Z.sub_diag. split; [lia|]. split; [pose proof (len_nonneg (queue b)); lia|]. split; [done|]. split; [done|].
    split; [by apply rinv_setLast | done].
  - lia.
  - lia.
Qed.
End Queue.

(** * bufio: Read, runes, unreading and lines

    The methods of the Reader that take more than a byte, against its queue. *)

(** ** Full runes *)

Lemma decode_ref_full p x : full_ref p = true -> decode_ref (p ++ x) = decode_ref p.
Proof.
  destruct p as [|b0 t]; [done|]. unfold full_ref, decode_ref. cbn [app]. destruct (b0 <? 0x80); [done|].
  destruct (between 0xC2 0xDF b0); [by destruct t|].
  destruct (between 0xE0 0xEF b0).
  { destruct t as [|b1 [|b2 t]]; [done| |done]. intros H%negb_true_iff. destruct x; cbn [app]; [done|]. by rewrite H. }
  destruct (between 0xF0 0xF4 b0); [|done].
  destruct t as [|b1 [|b2 [|b3 t]]]; [done| | |done]; intros H%negb_true_iff.
  - destruct x as [|x1 [|x2 x]]; cbn [app]; [done..|]. by rewrite H.
  - destruct x as [|x1 x]; cbn [app]; [done|]. by rewrite H.
Qed.

Lemma full_ref_long p : (4 <= length p)%nat -> full_ref p = true.
Proof. destruct p as [|b0 [|b1 [|b2 [|b3 p]]]]; simpl; try lia. intros _. by repeat case_match. Qed.

Lemma decode_ref_bounds p : bytes_ok p -> p <> [] -> 1 <= snd (decode_ref p) <= len p.
Proof.
  intros Hp Hne. pose proof (decode_width_pos p Hne Hp). split; [done|].
  destruct (decode_ref_sound p Hp Hne) as [(_ & E & t & Ep)|E].
  - rewrite Ep at 2. rewrite len_app, E. pose proof (len_nonneg t). lia.
  - rewrite E. simpl. destruct p; [done|]. rewrite len_cons. pose proof (len_nonneg p). lia.
Qed.

Section Reading.
Context {S : Type} {RD : ioReader S} {SR : Source S}.
Implicit Types b : Reader S.

(** The bytes before the read position that UnreadRune would bring back are
    those before, or it will refuse. *)
Definition runeKept b b' : Prop :=
  lastRuneSize b' = lastRuneSize b /\ (rr b' = 0 \/ (rbuf b' = rbuf b /\ rr b' = rr b)).

(** What a read that took [chunk] leaves to unread. *)
Definition lastAfter b b' (chunk : list Z) : Prop :=
  if decide (chunk = []) then lastByte b' = lastByte b /\ runeKept b b' /\ (settled b -> settled b')
  else last chunk = Some (lastByte b') /\ lastRuneSize b' = -1 /\ settled b'.

Definition readResult b (p : list Z) (out : list Z * Z * option ioError * Reader S) : Prop :=
  let '(p', n, err, b') := out in
  exists chunk q, queue b = chunk ++ q /\ n = len chunk /\ len p' = len p /\ take (Z.to_nat n) p' = chunk /\
    leaves b b' q /\ (err = None \/ (err = Some (finalOf (rd b)) /\ q = [])) /\ lastAfter b b' chunk /\
    (chunk = [] -> err = None -> len p = 0 \/ stallOf (rd b') < stallOf (rd b)).

Lemma last_idx (l : list Z) c : last l = Some c -> idx l (len l - 1) = Ok c.
Proof.
  intros Hl. destruct l as [|x l _] using rev_ind; [done|]. rewrite last_snoc in Hl. simplify_eq.
  rewrite len_app. change (len [c]) with 1. apply idx_app. lia.
Qed.

Lemma idx_last (l : list Z) : l <> [] -> exists c, idx l (len l - 1) = Ok c /\ last l = Some c.
Proof.
  intros Hl. destruct (last l) as [c|] eqn:E; [|by apply last_None in E]. exists c. split; [by apply last_idx | done].
Qed.

(** The copy of the buffer to [p]. *)
Lemma copyOut_spec b p :
  rinv b -> 0 < Buffered b -> 0 < len p ->
  (let! data := slice (rbuf b) (rr b) (rw b) in
   let! '(p, n) := copyTo p 0 data in
   let b := setPos b (rr b + n) (rw b) in
   let! c := idx (rbuf b) (rr b - 1) in
   Ok (p, n, @None ioError, setLast b c (-1))) ⇓ fun '(p', n, err, b') => err = None /\ lastRuneSize b' = -1 /\ len p' = len p /\
     exists chunk q, chunk <> [] /\ queue b = chunk ++ q /\ n = len chunk /\ take (Z.to_nat n) p' = chunk /\
       leaves b b' q /\ last chunk = Some (lastByte b') /\ settled b'.
Proof.
  intros Hb Hpos Hp. pose proof (inBuf_len b Hb) as Hl. rewrite inBuf_slice by done. cbn [rbind]. unfold copyTo.
  rewrite slice_from_Ok by lia. cbn [rbind]. change (Z.to_nat 0) with 0%nat. rewrite drop_0, take_0. cbn [app].
  set (k := Nat.min (length p) (length (inBuf b))). destruct (advance b (Z.of_nat k) Hb) as (Hb' & Hq & Hin & Hlen & _).
  { unfold len, k in *. lia. }
  set (b' := setPos b (rr b + Z.of_nat k) (rw b)) in *. rewrite Nat2Z.id in *.
  assert (Hk : (0 < k)%nat) by (unfold len, k in *; lia).
  assert (Hne : take k (inBuf b) <> []) by (intros E; rewrite E, len_nil in Hlen; lia).
  destruct (idx_last _ Hne) as (c & Hc & Hlast). rewrite Hlen in Hc.
  assert (Hi : idx (rbuf b') (rr b' - 1) = Ok c).
  { simpl. replace (rr b + Z.of_nat k - 1) with (rr b + (Z.of_nat k - 1)) by lia. rewrite idx_inBuf; [|done|unfold len, k in *; lia].
    rewrite <- Hc. unfold idx. destruct (Z.leb_spec 0 (Z.of_nat k - 1)); [|lia]. by rewrite lookup_take_lt by lia. }
  rewrite Hi. cbn [rbind returns]. split; [done|]. split; [done|]. split.
  { rewrite len_app. unfold len in *. rewrite length_take, length_drop. unfold k in *. lia. }
  exists (take k (inBuf b)), (queue b'). split_and!; try done.
  - rewrite take_app_le by (rewrite length_take; lia). rewrite take_take. f_equal. lia.
  - split; [by apply rinv_setLast | done].
  - right. simpl. pose proof (ri_pos _ Hb). lia.
Qed.

Lemma Read_spec b p : rinv b -> Read b p ⇓ readResult b p.
Proof.
  intros Hb. unfold Read. pose proof (ri_pos _ Hb) as Hpos. pose proof (inBuf_len b Hb) as Hl.
  assert (Hstay : forall err, (err = None /\ len p = 0) \/ (err = Some (finalOf (rd b)) /\ queue b = []) ->
    forall b', b' = b \/ b' = setErr b None -> readResult b p (p, 0, err, b')).
  { intros err He b' Hb'. exists [], (queue b). simpl.
    split_and!; try done.
    - destruct Hb' as [->| ->]; [done|]. split; [by apply rinv_setErr | done].
    - destruct He as [[-> _]|[-> ->]]; auto.
    - unfold lastAfter, runeKept. rewrite decide_True by done. destruct Hb' as [->| ->]; split_and!; auto.
    - intros _ ->. destruct He as [[_ ?]|[? _]]; [by left | done]. }
  destruct (Z.eqb_spec (len p) 0) as [E|E].
  { destruct (Z.gtb_spec (Buffered b) 0) as [G|G]; simpl; [apply Hstay; auto|].
    refine (Hstay (rerr b) _ (setErr b None) (or_intror eq_refl)).
    destruct (rerr b) as [e|] eqn:Ee; [right | by left].
    destruct (err_empty _ _ Hb Ee) as [-> Hq]. split; [done|]. rewrite Hq. apply empty_buf; [done|]. unfold Buffered in G. lia. }
  pose proof (len_nonneg p).
  destruct (Z.eqb_spec (rr b) (rw b)) as [Ew|Ew].
  2: { eapply returns_mono; [apply (copyOut_spec b p Hb); unfold Buffered; lia|]. intros [[[p' n] err] b'] (-> & Hlr & Hlp & chunk & q & Hne & H1 & H2 & H3 & H4 & H5 & H6).
       exists chunk, q. split_and!; try done; [by left|]. unfold lastAfter. by rewrite decide_False. }
  pose proof (empty_buf b Hb Ew) as Hin. assert (Hqd : queue b = dataOf (rd b)) by (unfold queue; by rewrite Hin).
  destruct (rerr b) as [e|] eqn:Ee.
  { simpl. rewrite Ee. refine (Hstay (Some e) _ (setErr b None) (or_intror eq_refl)). destruct (err_empty _ _ Hb Ee) as [-> Hq]. right. split; [done | congruence]. }
  destruct (Z.geb_spec (len p) (len (rbuf b))) as [G|G].
  - destruct (doRead_spec (rd b) p) as (chunk & rest & err & s' & -> & Hlen & Hd & Hf & Herr & Hst).
    { intros ->. by rewrite len_nil in E. }
    pose proof (len_nonneg chunk). destruct (Z.ltb_spec (len chunk) 0); [lia|].
    set (b1 := setErr (setRd b s') err). rewrite len_app in Hlen.
    assert (Hb2 : forall lb lr, leaves b (setErr (setLast b1 lb lr) None) (dataOf s')).
    { intros lb lr. split; [|split; [unfold queue; simpl; change (inBuf (setErr (setLast b1 lb lr) None)) with (inBuf b); by rewrite Hin | done]].
      pose proof Hb as []. constructor; try done. by left. }
    assert (Hcase : err = None \/ err = Some (finalOf (rd b)) /\ dataOf s' = []) by done.
    destruct (Z.gtb_spec (len chunk) 0) as [Hpos2|Hz].
    + assert (Hne : chunk <> []) by (intros ->; unfold len in Hpos2; simpl in Hpos2; lia).
      destruct (idx_last _ Hne) as (c & Hc & Hlast).
      assert (Hi : idx (chunk ++ rest) (len chunk - 1) = Ok c).
      { apply idx_inv in Hc as [? Hc]. apply idx_Ok; [lia|]. by apply lookup_app_l_Some. }
      rewrite Hi. cbn [rbind]. simpl. exists chunk, (dataOf s'). rewrite Hqd. split_and!; try done.
      * by rewrite len_app.
      * unfold len. rewrite Nat2Z.id. apply take_app_length.
      * unfold lastAfter. rewrite decide_False by done. split_and!; try done. by left.
    + assert (chunk = []) as -> by (apply len_zero_inv; lia). simpl. exists [], (dataOf s'). rewrite Hqd. split_and!; try done.
      * replace (setErr b1 None) with (setErr (setLast b1 (lastByte b) (lastRuneSize b)) None) by done. apply Hb2.
      * unfold lastAfter. rewrite decide_True by done. split; [done|]. split; [split; [done | by right] | by left].
      * intros _ Ex. right. auto.
  - change (rd (setPos b 0 0)) with (rd b). change (rbuf (setPos b 0 0)) with (rbuf b).
    destruct (doRead_spec (rd b) (rbuf b)) as (chunk & rest & err & s' & -> & Hlen & Hd & Hf & Herr & Hst).
    { intros E0. pose proof (ri_size _ Hb) as Hs. rewrite E0 in Hs. unfold len in Hs. simpl in Hs. lia. }
    pose proof (len_nonneg chunk). destruct (Z.ltb_spec (len chunk) 0); [lia|]. rewrite len_app in Hlen. pose proof (len_nonneg rest).
    set (b1 := setErr (setRd (setBuf (setPos b 0 0) (chunk ++ rest)) s') err).
    assert (HL1 : len (rbuf b1) = len (rbuf b)) by (simpl; rewrite len_app; lia).
    assert (Hin1 : inBuf (setPos b1 0 (0 + len chunk)) = chunk).
    { unfold inBuf. simpl. rewrite drop_0. replace (Z.to_nat (0 + len chunk - 0)) with (length chunk) by (unfold len; lia). apply take_app_length. }
    assert (Hb1 : rinv (setPos b1 0 (0 + len chunk))).
    { constructor; try done; rewrite ?HL1; simpl; try lia.
      - rewrite len_app. lia.
      - rewrite len_app. pose proof (ri_size _ Hb). lia.
      - destruct Herr as [->|[-> ?]]; [by left | right]. by rewrite Hf.
      - rewrite Hin1. pose proof (dataOf_ok (rd b)) as Hok. rewrite Hd in Hok. apply Forall_app in Hok as [? _]. done. }
    assert (Hq1 : queue (setPos b1 0 (0 + len chunk)) = queue b) by (unfold queue at 1; rewrite Hin1, Hqd; done).
    destruct (Z.eqb_spec (len chunk) 0) as [Ez|Ez].
    + assert (chunk = []) as -> by (by apply len_zero_inv). simpl. exists [], (dataOf s'). rewrite Hqd. split_and!; try done.
      * change (setErr b1 None) with (setErr (setPos b1 0 (0 + len (@nil Z))) None). split; [by apply rinv_setErr|].
        split; [unfold queue; change (inBuf (setErr (setPos b1 0 (0 + len (@nil Z))) None)) with (inBuf (setPos b1 0 (0 + len (@nil Z)))); by rewrite Hin1 | done].
      * unfold lastAfter. rewrite decide_True by done. split; [done|]. split; [split; [done | by left] | by left].
      * intros _ Ex. right. auto.
    + eapply returns_mono; [apply (copyOut_spec (setPos b1 0 (0 + len chunk)) p Hb1); unfold Buffered; simpl; lia|].
      intros [[[p' n] err'] b'] (-> & Hlr & Hlp & chunk' & q & Hne & J1 & J2 & J3 & (J4 & J5 & J6 & J7) & J8 & J9).
      exists chunk', q. rewrite Hq1 in J1. split_and!; try done.
      * split; [done|]. split; [done|]. split; [simpl in J6; congruence|]. rewrite J7. exact HL1.
      * by left.
      * unfold lastAfter. by rewrite decide_False.
Qed.

(** ** Runes *)

Lemma fillRune_spec b :
  rinv b -> fillRune b ⇓ fun b' => rinv b' /\ sameQueue b b' /\
    (full_ref (inBuf b') = true \/ (queue b' = inBuf b' /\ rerr b' = Some (finalOf (rd b')))).
Proof.
  intros Hb. unfold fillRune.
  apply (loop_returns (fun b' => rinv b' /\ sameQueue b b') (fun b' => if bool_decide (rerr b' = None) then len (rbuf b) - Buffered b' else 0)).
  - intros b1 [Hb1 Hq1]. pose proof (inBuf_len _ Hb1) as Hl1. pose proof (ri_cap _ Hb1). pose proof (ri_pos _ Hb1).
    pose proof Hq1 as (_ & _ & Q3 & _). change UTFMax with 4.
    destruct (Z.gtb_spec (rr b1 + 4) (rw b1)) as [G|G].
    2: { simpl. split_and!; try done. left. apply full_ref_long. unfold len, Buffered in *. lia. }
    rewrite inBuf_slice by done. cbn [rbind]. rewrite FullRune_ref by apply Hb1. cbn [rbind].
    destruct (full_ref (inBuf b1)) eqn:Ef; simpl; [split_and!; try done; by left|].
    destruct (rerr b1) as [e|] eqn:He; simpl.
    { destruct (err_empty _ _ Hb1 He) as [-> ?]. split_and!; try done. by right. }
    destruct (Z.ltb_spec (Buffered b1) (len (rbuf b1))) as [L2|L2].
    + eapply returns_bind_mono; [by apply fill_spec|]. intros b2 (Hb2 & Hq2 & _ & Hle & _ & Hlt & _). simpl.
      pose proof (inBuf_len _ Hb2). pose proof Hq2 as (_ & _ & Q3' & _).
      pose proof (ri_cap _ Hb2). pose proof (ri_pos _ Hb2). unfold Buffered in *.
      split; [split; [done | by eapply sameQueue_trans]|]. case_bool_decide; [specialize (Hlt ltac:(done)); lia | lia].
    + exfalso. pose proof (ri_size _ Hb1). unfold Buffered in *. lia.
  - done.
  - pose proof (inBuf_len _ Hb). pose proof (len_nonneg (inBuf b)). unfold len. case_bool_decide; lia.
  - pose proof (ri_cap _ Hb). pose proof (ri_pos _ Hb). unfold Buffered. case_bool_decide; lia.
Qed.

(** ReadRune decodes the front of the queue. *)
Lemma ReadRune_spec b :
  rinv b -> ReadRune b ⇓ fun '(r, size, err, b') =>
    match queue b with
    | [] => r = 0 /\ size = 0 /\ err = Some (finalOf (rd b)) /\ leaves b b' [] /\ lastByte b' = lastByte b /\ lastRuneSize b' = -1 /\ settled b'
    | _ => DecodeRune (queue b) = Ok (r, size) /\ err = None /\ 1 <= size <= len (queue b) /\
        leaves b b' (drop (Z.to_nat size) (queue b)) /\
        last (take (Z.to_nat size) (queue b)) = Some (lastByte b') /\ lastRuneSize b' = size /\ size <= rr b' /\
        take (Z.to_nat size) (drop (Z.to_nat (rr b' - size)) (rbuf b')) = take (Z.to_nat size) (queue b)
    end.
Proof.
  intros Hb. unfold ReadRune. eapply returns_bind_mono; [by apply fillRune_spec|].
  intros b1 (Hb1 & (Q1 & Q2 & Q3 & Q4 & Q5) & Hfull). pose proof (ri_pos _ Hb1) as Hpos. pose proof (inBuf_len _ Hb1) as Hl.
  simpl rr. simpl rw. destruct (Z.eqb_spec (rr b1) (rw b1)) as [E|E].
  - pose proof (empty_buf _ Hb1 E) as Hin. destruct Hfull as [F|[Hq He]]; [by rewrite Hin in F|].
    rewrite <- Q1, Hq, Hin. simpl. rewrite He, Q2. split_and!; try done; [|by left]. split; [by apply rinv_setErr, rinv_setLast|].
    split; [exact (eq_trans Hq Hin)|]. simpl. split; congruence.
  - rewrite Q1 in Hfull. set (p := inBuf b1) in *.
    assert (Hp : p <> []) by (intros Ep; unfold Buffered in Hl; rewrite Ep, len_nil in Hl; lia).
    assert (Hq : queue b = p ++ dataOf (rd b1)) by (by rewrite <- Q1).
    assert (Hdec : decode_ref (queue b) = decode_ref p).
    { destruct Hfull as [F|[-> _]]; [rewrite Hq; by apply decode_ref_full | done]. }
    assert (Hqn : queue b <> []) by (rewrite Hq; by destruct p).
    change (slice (rbuf (setLast b1 (lastByte b1) (-1))) (rr b1) (rw b1)) with (slice (rbuf b1) (rr b1) (rw b1)).
    rewrite inBuf_slice by done. cbn [rbind]. fold p. rewrite (DecodeRune_ref p) by apply Hb1. rewrite (DecodeRune_ref (queue b)) by (by apply queue_ok).
    rewrite Hdec. destruct (decode_ref_bounds p (ri_bytes _ Hb1) Hp) as [Hw1 Hw2].
    destruct (decode_ref p) as [r size]. simpl in Hw1, Hw2. cbn [rbind].
    destruct (advance b1 size Hb1 ltac:(lia)) as (Hb2 & Hq2 & Hin2 & Hlt & _). fold p in Hq2, Hin2, Hlt.
    set (b2 := setPos b1 (rr b1 + size) (rw b1)) in *.
    assert (Htake : take (Z.to_nat size) (queue b) = take (Z.to_nat size) p).
    { rewrite Hq. apply take_app_le. unfold len in Hw2. lia. }
    assert (Hdrop : queue b2 = drop (Z.to_nat size) (queue b)).
    { rewrite <- Q1, Hq2. rewrite drop_app_ge by (unfold len in Hlt; lia). replace (_ - _)%nat with 0%nat by (unfold len in Hlt; lia). done. }
    assert (Hne : take (Z.to_nat size) p <> []) by (intros Et; rewrite Et, len_nil in Hlt; lia).
    destruct (idx_last _ Hne) as (c & Hc & Hlast). rewrite Hlt in Hc.
    assert (Hi : idx (rbuf b2) (rr b2 - 1) = Ok c).
    { simpl. replace (rr b1 + size - 1) with (rr b1 + (size - 1)) by lia. rewrite idx_inBuf; [|done|lia].
      rewrite <- Hc. fold p. unfold idx. destruct (Z.leb_spec 0 (size - 1)); [|lia]. by rewrite lookup_take_lt by lia. }
    change (setPos (setLast b1 (lastByte b1) (-1)) (rr b1 + size) (rw b1)) with (setLast b2 (lastByte b1) (-1)).
    change (idx (rbuf (setLast b2 (lastByte b1) (-1))) (rr b1 + size - 1)) with (idx (rbuf b2) (rr b2 - 1)). rewrite Hi. cbn [rbind returns]. destruct (queue b) as [|y q] eqn:Eq; [done|]. rewrite <- Eq in *.
    split_and!; try done.
    + rewrite Hq, len_app. pose proof (len_nonneg (dataOf (rd b1))). lia.
    + split; [by do 2 apply rinv_setLast|]. split; [exact Hdrop|]. simpl. split; congruence.
    + rewrite Htake. exact Hlast.
    + simpl. lia.
    + simpl. rewrite Htake. replace (rr b1 + size - size) with (rr b1) by lia. unfold p, inBuf. rewrite take_take. f_equal.
      unfold Buffered in Hl. lia.
Qed.
End Reading.
