(* ===== verification/BufioLine.v ===== *)
(** * bufio: unreading and delimited reads

    UnreadByte and UnreadRune, and the methods that read up to a delimiter,
    against the queue of the Reader. *)
From Stdlib Require Import ZArith Lia.
From stdpp Require Import base numbers list.
From S2P Require Import Prelude Utf8 Bufio BufioReader.

Section Lines.
Context {S : Type} {RD : ioReader S} {SR : Source S} {BA : Bytealg} {BL : BytealgLaws BA}.
Implicit Types b : Reader S.

(** ** Unreading *)

Lemma inBuf_pushed b i c :
  rinv b -> 0 <= i -> (i + 1 = rr b \/ (i = 0 /\ rr b = 0 /\ rw b = 0)) ->
  let b' := setBuf (setPos b i (if rr b =? 0 then 1 else rw b)) (<[Z.to_nat i := c]> (rbuf b)) in
  inBuf b' = c :: inBuf b.
Proof.
  intros [] Hi Hc. unfold inBuf. simpl.
  assert (Hlt : (Z.to_nat i < length (rbuf b))%nat) by (unfold len in *; lia).
  rewrite (drop_S _ c) by (by apply list_lookup_insert_eq). rewrite drop_insert_lt by lia.
  destruct Hc as [E|(-> & E1 & E2)].
  - destruct (Z.eqb_spec (rr b) 0); [lia|].
    replace (Z.to_nat (rw b - i)) with (Datatypes.S (Z.to_nat (rw b - rr b))) by lia. simpl.
    by replace (Datatypes.S (Z.to_nat i)) with (Z.to_nat (rr b)) by lia.
  - rewrite E1, E2. done.
Qed.

Lemma pushed_leaves b b1 l :
  rinv b -> bytes_ok l -> 0 <= rr b1 <= rw b1 -> rw b1 <= len (rbuf b1) -> len (rbuf b1) = len (rbuf b) ->
  rd b1 = rd b -> rerr b1 = rerr b -> inBuf b1 = l ++ inBuf b ->
  leaves b (setLast b1 (-1) (-1)) (l ++ queue b).
Proof.
  intros Hb Hok Hp Hc Hl Hrd He Hin. split; [apply rinv_setLast|split; [|split]].
  - pose proof Hb as []. constructor; try done; try congruence; try lia. rewrite Hin. by apply Forall_app.
  - unfold queue. change (inBuf (setLast b1 (-1) (-1))) with (inBuf b1). simpl. rewrite Hin, Hrd. by rewrite <- (assoc_L app).
  - simpl. congruence.
  - done.
Qed.

Lemma UnreadByte_spec b :
  rinv b -> lastByte b < 256 ->
  UnreadByte b ⇓ fun '(err, b') =>
    (err = Some ErrInvalidUnreadByte /\ b' = b /\ (lastByte b < 0 \/ (rr b = 0 /\ 0 < rw b))) \/
    (err = None /\ 0 <= lastByte b /\ leaves b b' (lastByte b :: queue b) /\ lastByte b' = -1 /\ lastRuneSize b' = -1).
Proof.
  intros Hb Hlt. pose proof (ri_pos _ Hb). pose proof (ri_cap _ Hb). pose proof (ri_size _ Hb). unfold UnreadByte.
  destruct (Z.ltb_spec (lastByte b) 0) as [L|L]; simpl; [left; auto|].
  destruct (Z.eqb_spec (rr b) 0) as [E|E]; simpl.
  - destruct (Z.gtb_spec (rw b) 0) as [G|G]; simpl; [left; split_and!; auto|].
    rewrite E. simpl. rewrite upd_Ok by lia. simpl. right. rewrite u8_id by lia.
    pose proof (inBuf_pushed b 0 (lastByte b) Hb ltac:(lia) ltac:(right; lia)) as Hin. rewrite E in Hin. simpl in Hin.
    split; [done|]. split; [done|]. split; [|done].
    apply (pushed_leaves b _ [lastByte b]); simpl; rewrite ?len_insert; try done; try lia. by constructor; [unfold byte_ok; lia|].
  - destruct (Z.gtb_spec (rr b) 0) as [G|G]; [|lia]. simpl. rewrite upd_Ok by lia. simpl. right. rewrite u8_id by lia.
    pose proof (inBuf_pushed b (rr b - 1) (lastByte b) Hb ltac:(lia) ltac:(left; lia)) as Hin.
    destruct (Z.eqb_spec (rr b) 0); [lia|].
    split; [done|]. split; [done|]. split; [|done].
    apply (pushed_leaves b _ [lastByte b]); simpl; rewrite ?len_insert; try done; try lia. by constructor; [unfold byte_ok; lia|].
Qed.

Lemma UnreadRune_spec b bytes :
  rinv b -> bytes_ok bytes ->
  (0 <= lastRuneSize b <= rr b ->
     take (Z.to_nat (lastRuneSize b)) (drop (Z.to_nat (rr b - lastRuneSize b)) (rbuf b)) = bytes) ->
  let '(err, b') := UnreadRune b in
    (err = Some ErrInvalidUnreadRune /\ b' = b /\ (lastRuneSize b < 0 \/ rr b < lastRuneSize b)) \/
    (err = None /\ 0 <= lastRuneSize b /\ leaves b b' (bytes ++ queue b) /\ lastByte b' = -1 /\ lastRuneSize b' = -1).
Proof.
  intros Hb Hok Hbytes. unfold UnreadRune. pose proof (ri_pos _ Hb). pose proof (ri_cap _ Hb).
  destruct (Z.ltb_spec (lastRuneSize b) 0) as [L|L]; simpl; [left; auto|].
  destruct (Z.ltb_spec (rr b) (lastRuneSize b)) as [L2|L2]; simpl; [left; auto|].
  right. specialize (Hbytes ltac:(lia)).
  assert (Hin : inBuf (setPos b (rr b - lastRuneSize b) (rw b)) = bytes ++ inBuf b).
  { unfold inBuf. simpl. rewrite <- Hbytes.
    replace (Z.to_nat (rw b - (rr b - lastRuneSize b))) with (Z.to_nat (lastRuneSize b) + Z.to_nat (rw b - rr b))%nat by lia.
    rewrite <- take_take_drop. f_equal. rewrite drop_drop. do 2 f_equal. lia. }
  split; [done|]. split; [done|]. split; [|done]. apply pushed_leaves; simpl; try done; lia.
Qed.

(** ** ReadSlice *)

(** The result of a read up to [delim] with a buffer of [size] bytes: a
    delimited line, all there is before the error, or a full buffer. *)
Definition sliceResult (q : list Z) (e : ioError) (size delim : Z) (line : list Z) (err : option ioError) (q' : list Z) : Prop :=
  q = line ++ q' /\
  ((err = None /\ exists l, line = l ++ [delim] /\ delim ∉ l) \/
   (err = Some e /\ (delim ∉ line) /\ q' = []) \/
   (err = Some ErrBufferFull /\ (delim ∉ line) /\ len line = size)).

Lemma found_line (l : list Z) (s i d : Z) :
  0 <= s <= len l -> d ∉ take (Z.to_nat s) l -> IndexByte (drop (Z.to_nat s) l) d = i -> 0 <= i ->
  i + s < len l /\ exists pre, take (Z.to_nat (i + s + 1)) l = pre ++ [d] /\ d ∉ pre.
Proof.
  intros Hs Hpre Hi Hpos. destruct (IndexByte_found _ _ _ Hi Hpos) as (Hlt & Hd & Hno).
  assert (Hl : len (drop (Z.to_nat s) l) = len l - s) by (unfold len in *; rewrite length_drop; lia).
  split; [lia|]. exists (take (Z.to_nat (i + s)) l). rewrite lookup_drop in Hd.
  replace (Z.to_nat (i + s + 1)) with (Datatypes.S (Z.to_nat (i + s))) by lia. split.
  - apply take_S_r. by replace (Z.to_nat (i + s)) with (Z.to_nat s + Z.to_nat i)%nat by lia.
  - replace (Z.to_nat (i + s)) with (Z.to_nat s + Z.to_nat i)%nat by lia. rewrite <- take_take_drop. by rewrite not_elem_of_app.
Qed.

Lemma sliceLoop_spec b delim :
  rinv b -> loop (Datatypes.S (Datatypes.S (length (rbuf b)))) (sliceStep delim) (0, b) ⇓ fun '(line, err, b') =>
    exists q, sliceResult (queue b) (finalOf (rd b)) (len (rbuf b)) delim line err q /\ leaves b b' q /\
      lastByte b' = lastByte b /\ lastRuneSize b' = lastRuneSize b /\ settled b' /\
      (line = [] -> rr b' = 0 \/ (rbuf b' = rbuf b /\ rr b' = rr b)) /\ (err = Some ErrBufferFull -> rbuf b' = line /\ rr b' = len line).
Proof.
  intros Hb.
  apply (loop_returns (fun '(s, b') => 0 <= s <= Buffered b' /\ rinv b' /\ sameQueue b b' /\ (delim ∉ take (Z.to_nat s) (inBuf b')) /\
     (rr b' = 0 \/ (rbuf b' = rbuf b /\ rr b' = rr b)))
     (fun '(_, b') => if bool_decide (rerr b' = None) then 1 + len (rbuf b) - Buffered b' else 0)).
  - intros [s b1] (Hs & Hb1 & Hq1 & Hno & Hkept). pose proof Hq1 as (Q1 & Q2 & Q3 & Q4 & Q5).
    pose proof (inBuf_len _ Hb1) as Hl. pose proof (ri_cap _ Hb1). pose proof (ri_pos _ Hb1). pose proof (ri_size _ Hb1).
    unfold sliceStep, Buffered in *. rewrite slice_Ok by lia. cbn [rbind].
    assert (Harea : take (Z.to_nat (rw b1 - (rr b1 + s))) (drop (Z.to_nat (rr b1 + s)) (rbuf b1)) = drop (Z.to_nat s) (inBuf b1)).
    { unfold inBuf. rewrite skipn_firstn_comm, drop_drop. f_equal; [lia|]. f_equal. lia. }
    rewrite Harea. destruct (Z.geb_spec (IndexByte (drop (Z.to_nat s) (inBuf b1)) delim) 0) as [G|G].
    + set (i := IndexByte _ _) in *. destruct (found_line (inBuf b1) s i delim ltac:(lia) Hno eq_refl G) as (Hlt & pre & Hline & Hpre).
      rewrite slice_Ok by lia. cbn [rbind returns].
      destruct (advance b1 (i + s + 1) Hb1) as (Hb2 & Hq2 & Hin2 & Hlen2 & _); [unfold Buffered; lia|].
      assert (Htk : take (Z.to_nat (rr b1 + (i + s) + 1 - rr b1)) (drop (Z.to_nat (rr b1)) (rbuf b1)) = take (Z.to_nat (i + s + 1)) (inBuf b1)).
      { unfold inBuf. rewrite take_take. f_equal. lia. }
      rewrite Htk. exists (queue (setPos b1 (rr b1 + (i + s + 1)) (rw b1))). rewrite <- Q1, <- Q2, <- Q3. split_and!; try done; try lia.
      * split; [done|]. left. rewrite Hline. eauto.
      * right. simpl. lia.
      * intros E. rewrite Hline in E. by apply app_eq_nil in E as [_ ?].
    + assert (Hnone : delim ∉ inBuf b1).
      { rewrite <- (take_drop (Z.to_nat s) (inBuf b1)), not_elem_of_app. split; [done|]. apply IndexByte_absent. lia. }
      destruct (advance b1 (rw b1 - rr b1) Hb1) as (Hb2 & Hq2 & Hin2 & Hlen2 & Hd2); [unfold Buffered; lia|].
      replace (rr b1 + (rw b1 - rr b1)) with (rw b1) in * by lia.
      assert (Hin0 : inBuf (setPos b1 (rw b1) (rw b1)) = []) by (rewrite Hd2; apply drop_ge; unfold len in Hl; lia).
      destruct (rerr b1) as [e|] eqn:Ee.
      * destruct (err_empty _ _ Hb1 Ee) as [-> Hqe]. rewrite inBuf_slice by done. cbn [rbind]. simpl. rewrite Ee.
        exists []. rewrite <- Q1, <- Q2. split_and!; try done.
        -- split; [by rewrite app_nil_r|]. right. left. done.
        -- split; [by apply rinv_setErr|]. split; [|simpl; split; congruence].
           unfold queue. change (inBuf (setErr (setPos b1 (rw b1) (rw b1)) None)) with (inBuf (setPos b1 (rw b1) (rw b1))). rewrite Hin0.
           destruct (ri_err _ Hb1) as [?|[_ ?]]; [congruence | done].
        -- by left.
        -- intros E. simpl. assert (rr b1 = rw b1) by (apply (f_equal len) in E; rewrite Hl, len_nil in E; lia). destruct Hkept as [?|[? ?]]; [left; lia | right; split; [done | lia]].
        -- intros [= E]. by apply finalOf_own in E.
      * destruct (Z.geb_spec (rw b1 - rr b1) (len (rbuf b1))) as [G2|G2].
        -- simpl. assert (Hall : rbuf b1 = inBuf b1).
           { unfold inBuf. replace (rr b1) with 0 by lia. rewrite drop_0. symmetry. apply take_ge. unfold len in *. lia. }
           exists (dataOf (rd b1)). rewrite <- Q1, <- Q3. split_and!; try done; try lia.
           ++ split; [unfold queue; by rewrite Hall at 1|]. right. right. rewrite Hall at 1. split_and!; try done.
           ++ split; [done|]. split; [|split; simpl; congruence]. unfold queue. by rewrite Hin0.
           ++ by left.
           ++ intros E. rewrite E in *. unfold len in *. simpl in *. lia.
           ++ intros _. simpl. split; [done | lia].
        -- eapply returns_bind_mono; [apply fill_spec; [done | unfold Buffered; lia]|].
           intros b2 (Hb2' & Hq2' & Hr2 & Hle & (chunk & Hch) & Hlt2 & _). simpl. pose proof Hq2' as (_ & _ & Q3' & _).
           pose proof (ri_cap _ Hb2'). pose proof (ri_pos _ Hb2'). unfold Buffered in *.
           split; [split_and!; try done; try lia|].
           ++ by eapply sameQueue_trans.
           ++ rewrite Hch, take_app_le by (unfold len in Hl; lia). rewrite take_ge by (unfold len in Hl; lia). done.
           ++ case_bool_decide; [specialize (Hlt2 ltac:(done)); lia | lia].
  - pose proof (ri_pos _ Hb). unfold Buffered. split; [lia|]. split; [done|]. split; [done|]. split; [|by right]. simpl. by intros ?%not_elem_of_nil.
  - pose proof (ri_pos _ Hb). unfold Buffered, len. case_bool_decide; lia.
  - pose proof (ri_cap _ Hb). pose proof (ri_pos _ Hb). unfold Buffered. case_bool_decide; lia.
Qed.

Lemma ReadSlice_spec b delim :
  rinv b -> ReadSlice b delim ⇓ fun '(line, err, b') =>
    exists q, sliceResult (queue b) (finalOf (rd b)) (len (rbuf b)) delim line err q /\ leaves b b' q /\ lastAfter b b' line /\
      (err = Some ErrBufferFull -> rbuf b' = line /\ rr b' = len line).
Proof.
  intros Hb. unfold ReadSlice. eapply returns_bind_mono; [by apply sliceLoop_spec|].
  intros [[line err] b'] (q & Hres & Hlv & Hlb & Hlr & Hset & Hk & Hrr). unfold lastAfter, runeKept.
  destruct (Z.geb_spec (len line - 1) 0) as [G|G].
  - assert (Hne : line <> []) by (intros ->; unfold len in G; simpl in G; lia).
    destruct (idx_last line Hne) as (c & -> & Hc). simpl. exists q. rewrite decide_False by done. split_and!; try done.
    destruct Hlv as (? & ? & ? & ?). split; [by apply rinv_setLast | done].
  - assert (line = []) as -> by (apply len_zero_inv; pose proof (len_nonneg line); lia). simpl. exists q.
    split_and!; auto.
Qed.

(** ** ReadBytes and ReadString *)

Lemma lastAfter_app b b1 b2 f1 f2 : lastAfter b b1 f1 -> lastAfter b1 b2 f2 -> lastAfter b b2 (f1 ++ f2).
Proof.
  unfold lastAfter. intros H1 H2. destruct (decide (f1 = [])) as [->|Hne].
  - simpl. destruct H1 as (L1 & [R1 R2] & Hs). destruct (decide (f2 = [])); [|done]. destruct H2 as (-> & [R0 R3] & ?).
    split; [done|]. split; [|auto]. split; [congruence|]. destruct R3 as [?|[-> ->]]; auto.
  - rewrite decide_False by (intros E; by apply app_eq_nil in E as [? _]).
    destruct (decide (f2 = [])) as [->|].
    + rewrite app_nil_r. destruct H1 as (? & ? & ?), H2 as (-> & [-> _] & ?). auto.
    + rewrite last_app. by destruct H2 as (-> & -> & ?).
Qed.

(** All up to and including [delim], or all before the error. *)
Definition lineResult (q : list Z) (e : ioError) (delim : Z) (line : list Z) (err : option ioError) (q' : list Z) : Prop :=
  q = line ++ q' /\
  ((err = None /\ exists l, line = l ++ [delim] /\ delim ∉ l) \/ (err = Some e /\ (delim ∉ line) /\ q' = [])).

Lemma collectFragments_spec fuel b delim :
  rinv b -> (length (queue b) < fuel)%nat ->
  collectFragments fuel b delim ⇓ fun '(full, frag, n, err, b') => n = len (concat full ++ frag) /\
    exists q, lineResult (queue b) (finalOf (rd b)) delim (concat full ++ frag) err q /\ leaves b b' q /\
      lastAfter b b' (concat full ++ frag).
Proof.
  intros Hb Hf. unfold collectFragments.
  eapply (returns_bind_mono _ _ (fun '(full, frag, n, err, b') => n = len (concat full) /\
    exists q, lineResult (queue b) (finalOf (rd b)) delim (concat full ++ frag) err q /\ leaves b b' q /\
      lastAfter b b' (concat full ++ frag))).
  2: { intros [[[[full frag] n] err] b'] (-> & H). simpl. split; [by rewrite len_app | done]. }
  apply (loop_returns (fun '(full, n, b') => n = len (concat full) /\ exists q, queue b = concat full ++ q /\ (delim ∉ concat full) /\
      leaves b b' q /\ lastAfter b b' (concat full)) (fun '(_, _, b') => len (queue b'))).
  - intros [[full n] b1] (-> & q & Hq & Hno & Hlv & Hla). pose proof Hlv as (Hb1 & Hq1 & Hf1 & Hs1).
    eapply returns_bind_mono; [by apply (ReadSlice_spec b1 delim)|].
    intros [[frag e] b2] (q2 & (Hq2 & Hcase) & Hlv2 & Hla2 & _). rewrite Hq1 in Hq2.
    assert (Hlv' : leaves b b2 q2) by (by eapply leaves_trans).
    assert (Hla' : lastAfter b b2 (concat full ++ frag)) by (by eapply lastAfter_app).
    assert (Hall : queue b = (concat full ++ frag) ++ q2) by (rewrite Hq, Hq2; by rewrite (assoc_L app)).
    destruct Hcase as [(-> & l & -> & Hl)|[(-> & Hn & ->)|(-> & Hn & Hlen)]].
    + simpl. split; [done|]. exists q2. split_and!; try done. split; [done|]. left. split; [done|]. exists (concat full ++ l).
      rewrite (assoc_L app). by rewrite not_elem_of_app.
    + rewrite Hf1. destruct (decide (finalOf (rd b) = ErrBufferFull)) as [E|_]; [by apply finalOf_own in E|].
      simpl. split; [done|]. exists []. split_and!; try done. split; [done|]. right. rewrite not_elem_of_app. done.
    + rewrite decide_True by done. simpl. rewrite concat_app. simpl. rewrite app_nil_r. split.
      * split; [by rewrite len_app|]. exists q2. split_and!; try done. by rewrite not_elem_of_app.
      * destruct Hlv2 as (_ & -> & _). rewrite Hq1, Hq2, len_app. pose proof (len_nonneg q2). pose proof (ri_size _ Hb1). lia.
  - simpl. split; [done|]. exists (queue b). split; [done|]. split; [by intros ?%not_elem_of_nil|]. split; [done|].
    unfold lastAfter, runeKept. rewrite decide_True by done. split_and!; auto.
  - simpl. unfold len. lia.
  - apply len_nonneg.
Qed.

Lemma copyTo_at (done_ f rest : list Z) :
  (length f <= length rest)%nat ->
  copyTo (done_ ++ rest) (len done_) f = Ok ((done_ ++ f) ++ drop (length f) rest, len f).
Proof.
  intros Hl. unfold copyTo, len. pose proof (len_nonneg rest).
  rewrite slice_from_Ok by (rewrite len_app; unfold len in *; lia). cbn [rbind].
  rewrite Nat2Z.id, drop_app_length. replace (Nat.min (length rest) (length f)) with (length f) by lia.
  rewrite take_app_length, take_ge by lia. by rewrite (assoc_L app).
Qed.

Lemma copyAll_spec (full : list (list Z)) (done_ rest : list Z) :
  (length (concat full) <= length rest)%nat ->
  copyAll (done_ ++ rest) (len done_) full =
    Ok ((done_ ++ concat full) ++ drop (length (concat full)) rest, len (done_ ++ concat full)).
Proof.
  revert done_ rest. induction full as [|f full IH]; intros done_ rest Hl; simpl.
  - by rewrite app_nil_r, drop_0.
  - simpl in Hl. rewrite length_app in Hl. rewrite copyTo_at by lia. cbn [rbind]. rewrite <- len_app, IH by (rewrite length_drop; lia).
    rewrite drop_drop, length_app. do 3 f_equal; by rewrite (assoc_L app).
Qed.

Lemma ReadBytes_spec fuel b delim :
  rinv b -> (length (queue b) < fuel)%nat ->
  ReadBytes fuel b delim ⇓ fun '(line, err, b') =>
    exists q, lineResult (queue b) (finalOf (rd b)) delim line err q /\ leaves b b' q /\ lastAfter b b' line.
Proof.
  intros Hb Hf. unfold ReadBytes. eapply returns_bind_mono; [by apply collectFragments_spec|].
  intros [[[[full frag] n] err] b'] (-> & H). rewrite len_app.
  pose proof (copyAll_spec full [] (replicate (Z.to_nat (len (concat full) + len frag)) 0)) as Hc.
  change (len (@nil Z)) with 0 in Hc. rewrite !app_nil_l in Hc.
  rewrite Hc by (rewrite length_replicate; unfold len; lia). cbn [rbind].
  rewrite copyTo_at by (rewrite length_drop, length_replicate; unfold len; lia). cbn [rbind returns].
  rewrite drop_drop, drop_ge by (rewrite length_replicate; unfold len; lia). by rewrite app_nil_r.
Qed.

Lemma fold_left_app (full : list (list Z)) (acc : list Z) : fold_left (fun buf f => buf ++ f) full acc = acc ++ concat full.
Proof.
  revert acc. induction full as [|f full IH]; intros acc; simpl; [by rewrite app_nil_r|]. by rewrite IH, <- (assoc_L app).
Qed.

Lemma ReadString_spec fuel b delim :
  rinv b -> (length (queue b) < fuel)%nat ->
  ReadString fuel b delim ⇓ fun '(line, err, b') =>
    exists q, lineResult (queue b) (finalOf (rd b)) delim line err q /\ leaves b b' q /\ lastAfter b b' line.
Proof.
  intros Hb Hf. unfold ReadString. eapply returns_bind_mono; [by apply collectFragments_spec|].
  intros [[[[full frag] n] err] b'] (_ & H). by rewrite fold_left_app.
Qed.

(** ** ReadLine *)

(** A line and its end, the last line, the end of the data, or a part of a line
    that fills the buffer; a carriage return at the end of the part stays.  The
    last list but one is what has been read, the put back return included. *)
Inductive readLineResult (q : list Z) (e : ioError) (size : Z) :
    option (list Z) -> bool -> option ioError -> list Z -> list Z -> Prop :=
| wholeLine l eol q' : q = l ++ eol ++ q' -> 10 ∉ l -> eol = [13; 10] \/ (eol = [10] /\ last l <> Some 13) ->
    readLineResult q e size (Some l) false None (l ++ eol) q'
| lastLine l : q = l -> l <> [] -> 10 ∉ l -> readLineResult q e size (Some l) false None l []
| noLine : q = [] -> readLineResult q e size None false (Some e) [] []
| linePart l q' : q = l ++ q' -> 10 ∉ l -> len l = size -> last l <> Some 13 ->
    readLineResult q e size (Some l) true None l q'
| linePartCR l q' : q = l ++ 13 :: q' -> 10 ∉ l -> len l = size - 1 ->
    readLineResult q e size (Some l) true None (l ++ [13]) (13 :: q').

Lemma back_one b c :
  rinv b -> 0 < rr b -> byte_ok c -> rbuf b !! Z.to_nat (rr b - 1) = Some c ->
  let b' := setPos b (rr b - 1) (rw b) in rinv b' /\ queue b' = c :: queue b.
Proof.
  intros Hb Hp Hc Hat b'. pose proof Hb as [].
  assert (Hin : inBuf b' = c :: inBuf b).
  { unfold inBuf, b'. simpl. rewrite (drop_S _ c) by done.
    replace (Z.to_nat (rw b - (rr b - 1))) with (Datatypes.S (Z.to_nat (rw b - rr b))) by lia. simpl.
    by replace (Datatypes.S (Z.to_nat (rr b - 1))) with (Z.to_nat (rr b)) by lia. }
  split; [constructor; simpl; try done; try lia | unfold queue; by rewrite Hin].
  rewrite Hin. by constructor.
Qed.

Lemma slice_snoc (l t : list Z) k : k = len l -> slice (l ++ t) 0 k = Ok l.
Proof.
  intros ->. rewrite slice_Ok by (rewrite ?len_app; pose proof (len_nonneg l); pose proof (len_nonneg t); lia).
  rewrite drop_0, Z.sub_0_r. unfold len. by rewrite Nat2Z.id, take_app_length.
Qed.

Lemma ReadLine_spec b :
  rinv b -> ReadLine b ⇓ fun '(line, isPrefix, err, b') =>
    exists raw q, readLineResult (queue b) (finalOf (rd b)) (len (rbuf b)) line isPrefix err raw q /\ leaves b b' q /\
      lastAfter b b' raw.
Proof.
  intros Hb. unfold ReadLine. eapply returns_bind_mono; [by apply ReadSlice_spec|].
  intros [[line err] b'] (q & (Hq & Hcase) & Hlv & Hla & Hfull). pose proof (queue_ok b Hb) as Hok.
  pose proof (ri_size _ Hb) as Hsz.
  destruct (decide (err = Some ErrBufferFull)) as [->|Hnf].
  - destruct Hcase as [[? _]|[([= E] & _)|(_ & Hno & Hlen)]]; [done|by destruct (finalOf_own (rd b))|].
    destruct (Hfull eq_refl) as [Hbuf Hrr]. destruct (Z.gtb_spec (len line) 0); [|lia].
    destruct line as [|c l _] using rev_ind; [unfold len in *; simpl in *; lia|].
    rewrite len_app in *. change (len [c]) with 1 in *.
    rewrite idx_app by lia. cbn [rbind]. destruct (Z.eqb_spec c 13) as [->|Hc].
    + destruct (Z.eqb_spec (rr b') 0); [lia|]. rewrite slice_snoc by lia. cbn [rbind returns].
      destruct Hlv as (Hb' & Hq' & Hf' & Hs'). destruct (back_one b' 13) as [Hb2 Hq2]; try done; try lia.
      { rewrite Hbuf, lookup_app_r by (unfold len in *; lia). replace (_ - _)%nat with 0%nat by (unfold len in *; lia). done. }
      exists (l ++ [13]), (13 :: q). rewrite not_elem_of_app in Hno. split; [|split; [split; [done|]; split; [congruence | done]|]].
      * apply linePartCR; [by rewrite Hq, <- (assoc_L app) | tauto | lia].
      * revert Hla. unfold lastAfter. rewrite !decide_False by (by destruct l). intros (? & ? & _).
        split_and!; try done. right. simpl. lia.
    + simpl. exists (l ++ [c]), q. split; [|done]. apply linePart; [done..| |rewrite last_snoc; congruence].
      rewrite len_app. change (len [c]) with 1. lia.
  - destruct Hcase as [(-> & l & -> & Hl)|[(-> & Hno & ->)|(-> & _)]]; [| |done].
    + rewrite !len_app. change (len [10]) with 1. pose proof (len_nonneg l). destruct (Z.eqb_spec (len l + 1) 0); [lia|].
      rewrite idx_app by lia. cbn [rbind]. change (10 =? 10) with true. cbn iota.
      rewrite <- (assoc_L app) in Hq.
      destruct (Z.gtb_spec (len l + 1) 1) as [G|G].
      * destruct l as [|c l _] using rev_ind; [unfold len in *; simpl in *; lia|].
        rewrite len_app in *. change (len [c]) with 1 in *.
        rewrite <- (assoc_L app). cbn [app]. rewrite idx_app by lia. cbn [rbind]. rewrite <- (assoc_L app) in Hq. rewrite not_elem_of_app in Hl.
        destruct (Z.eqb_spec c 13) as [->|Hc].
        -- rewrite slice_snoc by lia. simpl. exists (l ++ [13; 10]), q. split; [|by rewrite <- (assoc_L app) in Hla]. eapply (wholeLine _ _ _ l [13; 10]); [done | tauto | by left].
        -- rewrite (cons_middle c l [10]), (assoc_L app), slice_snoc by (rewrite len_app; change (len [c]) with 1; lia). simpl. exists ((l ++ [c]) ++ [10]), q. split; [|done].
           eapply (wholeLine _ _ _ _ [10]); [by rewrite <- (assoc_L app) | by rewrite not_elem_of_app | right].
           rewrite last_snoc. split; [done | congruence].
      * assert (l = []) as -> by (apply len_zero_inv; lia). simpl. exists [10], q. split; [|done].
        by eapply (wholeLine _ _ _ [] [10]); [done | done | right].
    + rewrite app_nil_r in Hq. destruct (Z.eqb_spec (len line) 0) as [E|E].
      * apply len_zero_inv in E as ->. simpl. exists [], []. split; [by apply noLine | done].
      * destruct (idx_last line) as (c & -> & Hc); [by intros ->|]. cbn [rbind]. destruct (Z.eqb_spec c 10) as [->|_].
        { exfalso. apply Hno. apply last_Some in Hc as [l' ->]. apply elem_of_app. right. constructor. }
        simpl. exists line, []. split; [|done]. apply lastLine; [done | by intros -> | done].
Qed.
End Lines.
