(* ===== verification/BufioWriter.v ===== *)
(** * bufio: the Writer passes on what it accepts

    What a Writer has accepted is what the writer beneath it holds and what waits
    in the buffer.  Each method appends to it the bytes that it reports, and an
    error stays. *)
From Stdlib Require Import ZArith Lia.
From stdpp Require Import base numbers list.
From S2P Require Import Prelude Utf8 Bufio BufioReader.

(** The contract of io.Writer for one call of Write; [out] is what the writer
    holds. *)
Definition writes {T} (out : T -> list Z) (f : T -> list Z -> Z * option ioError * T) : Prop :=
  forall w p, let '(n, err, w') := f w p in
    0 <= n <= len p /\ out w' = out w ++ take (Z.to_nat n) p /\ (n < len p -> err <> None).

Class Sink (T : Type) {WR : ioWriter T} := {
  writtenOf : T -> list Z;
  doWrite_spec : writes writtenOf doWrite;
}.

(** The bytes of [p] from [n] on have not been taken. *)
Lemma take_split (n k : Z) (p : list Z) :
  0 <= n -> 0 <= k ->
  take (Z.to_nat n) p ++ take (Z.to_nat k) (drop (Z.to_nat n) p) = take (Z.to_nat (n + k)) p.
Proof. intros Hn Hk. rewrite Z2Nat.inj_add by lia. apply take_take_drop. Qed.

Lemma len_drop_to (n : Z) (p : list Z) : 0 <= n <= len p -> len (drop (Z.to_nat n) p) = len p - n.
Proof. intros H. unfold len in *. rewrite length_drop. lia. Qed.

Lemma len_take_to (n : Z) (p : list Z) : 0 <= n <= len p -> len (take (Z.to_nat n) p) = n.
Proof. intros H. unfold len in *. rewrite length_take. lia. Qed.

Section Writing.
Context {T : Type} {WR : ioWriter T} {SK : Sink T}.
Implicit Types b : Writer T.

Definition held b : list Z := take (Z.to_nat (wn b)) (wbuf b).
Definition sent b : list Z := writtenOf (wr b) ++ held b.

Record winv b : Prop := {
  wi_pos : 0 <= wn b <= len (wbuf b);
  wi_size : 0 < len (wbuf b);
}.

(** [b'] has accepted [l] after [b]. *)
Definition accepts b b' (l : list Z) : Prop := winv b' /\ len (wbuf b') = len (wbuf b) /\ sent b' = sent b ++ l.

Lemma accepts_trans b b1 b2 l1 l2 : accepts b b1 l1 -> accepts b1 b2 l2 -> accepts b b2 (l1 ++ l2).
Proof. intros (? & ? & E1) (? & ? & E2). split; [done|]. split; [congruence|]. by rewrite E2, E1, (assoc_L app). Qed.

Lemma accepts_nil b : winv b -> accepts b b [].
Proof. intros H. split; [done|]. split; [done|]. by rewrite app_nil_r. Qed.

(** ** Flush *)

Lemma held_slice b : winv b -> slice (wbuf b) 0 (wn b) = Ok (held b).
Proof. intros []. rewrite slice_Ok by lia. by rewrite drop_0, Z.sub_0_r. Qed.

Lemma held_len b : winv b -> len (held b) = wn b.
Proof. intros []. by apply len_take_to. Qed.

(** The part of the data that was not written moves to the front. *)
Lemma keep_rest b n :
  winv b -> 0 <= n < wn b ->
  (if (n >? 0) && (n <? wn b) then
     let! rest := slice (wbuf b) n (wn b) in
     let! '(buf, _) := copyTo (wbuf b) 0 rest in Ok buf
   else Ok (wbuf b)) ⇓ fun buf => len buf = len (wbuf b) /\ take (Z.to_nat (wn b - n)) buf = drop (Z.to_nat n) (held b).
Proof.
  intros Hb Hn. pose proof Hb as []. destruct (Z.gtb_spec n 0) as [G|G].
  - rewrite (proj2 (Z.ltb_lt n (wn b))) by lia. cbn [andb]. rewrite slice_Ok by lia. cbn [rbind].
    assert (Hrest : take (Z.to_nat (wn b - n)) (drop (Z.to_nat n) (wbuf b)) = drop (Z.to_nat n) (held b)).
    { unfold held. rewrite skipn_firstn_comm. f_equal. lia. }
    rewrite Hrest. pose proof (held_len b Hb) as Hh. pose proof (len_drop_to n (held b) ltac:(lia)) as Hd.
    unfold copyTo. rewrite slice_from_Ok by lia. cbn [rbind returns]. rewrite drop_0. simpl.
    set (rest := drop (Z.to_nat n) (held b)) in *. rewrite Nat.min_r by (unfold len in *; lia). rewrite take_ge by lia. split.
    + unfold len in *. rewrite length_app, length_drop. lia.
    + rewrite take_app_le by (unfold len in *; lia). apply take_ge. unfold len in *. lia.
  - assert (n = 0) as -> by lia. simpl. split; [done|]. by rewrite drop_0, Z.sub_0_r.
Qed.

Lemma Flush_spec b :
  winv b -> Flush b ⇓ fun '(err, b') => accepts b b' [] /\ werr b' = err /\
    (err = None -> wn b' = 0) /\ (werr b <> None -> b' = b).
Proof.
  intros Hb. pose proof Hb as [Hp Hs]. unfold Flush. destruct (werr b) as [e|] eqn:Ee.
  { simpl. split_and!; try done. by apply accepts_nil. }
  destruct (Z.eqb_spec (wn b) 0) as [E|E].
  { simpl. split_and!; try done. by apply accepts_nil. }
  rewrite held_slice by done. cbn [rbind]. pose proof (held_len b Hb) as Hl. pose proof (doWrite_spec (wr b) (held b)) as Hw.
  destruct (doWrite (wr b) (held b)) as [[n err] w']. destruct Hw as (Hn & Hout & Hshort). rewrite Hl in *.
  assert (Hkeep : n < wn b -> forall buf e, len buf = len (wbuf b) -> take (Z.to_nat (wn b - n)) buf = drop (Z.to_nat n) (held b) ->
    accepts b (mkWr e buf (wn b - n) w') []).
  { intros Hlt buf e HL Hbuf. split; [constructor; simpl; lia|]. split; [done|].
    unfold sent at 1, held at 1. simpl. rewrite Hbuf, Hout, <- (assoc_L app), take_drop. by rewrite app_nil_r. }
  assert (Hall : n = wn b -> forall e, accepts b (mkWr e (wbuf b) 0 w') []).
  { intros -> e. split; [constructor; simpl; lia|]. split; [done|].
    unfold sent at 1, held at 1. simpl. rewrite take_0, Hout, take_ge by (unfold len in Hl; lia). by rewrite !app_nil_r. }
  destruct (Z.ltb_spec n (wn b)) as [L|L]; cbn [andb].
  - rewrite bool_decide_eq_false_2 by (by apply Hshort). destruct err as [e|]; [|by specialize (Hshort L)].
    pose proof (keep_rest b n Hb ltac:(lia)) as K. rewrite (proj2 (Z.ltb_lt n (wn b))) in K by done.
    eapply returns_bind_mono; [exact K|].
    intros buf [HL Hbuf]. simpl. split_and!; try done. by apply Hkeep.
  - assert (n = wn b) as -> by lia. rewrite andb_false_r. destruct err as [e|]; cbn [rbind returns].
    + split_and!; try done. rewrite Z.sub_diag. by apply Hall.
    + split_and!; try done. by apply Hall.
Qed.

(** ** Write *)

Lemma putBuf_spec b p :
  winv b -> putBuf b p ⇓ fun '(n, b') => n = Z.min (Available b) (len p) /\ accepts b b' (take (Z.to_nat n) p) /\
    werr b' = werr b /\ wn b' = wn b + n.
Proof.
  intros Hb. pose proof Hb as [Hp Hs]. unfold putBuf, copyTo, Available. rewrite slice_from_Ok by lia. cbn [rbind returns].
  pose proof (len_drop_to (wn b) (wbuf b) Hp) as Hd. set (n := Nat.min _ _).
  assert (Hn : Z.of_nat n = Z.min (len (wbuf b) - wn b) (len p)) by (unfold n, len in *; lia).
  pose proof (len_take_to (wn b) (wbuf b) Hp) as Ht. pose proof (len_nonneg p).
  split; [done|]. split; [|done]. split; [|split].
  - constructor; simpl; rewrite !len_app; unfold len in *; rewrite ?length_take, ?length_drop in *; lia.
  - simpl. rewrite !len_app. unfold len in *. rewrite ?length_take, ?length_drop in *. lia.
  - unfold sent, held. simpl. rewrite <- (assoc_L app). f_equal. rewrite Nat2Z.id.
    rewrite (assoc_L app), take_app_le by (rewrite length_app, !length_take; unfold len in *; lia).
    apply take_ge. rewrite length_app, !length_take. unfold len in *. lia.
Qed.

(** The bytes of [p] that a write took. *)
Definition writeResult b (p : list Z) (out : Z * option ioError * Writer T) : Prop :=
  let '(nn, err, b') := out in
  0 <= nn <= len p /\ accepts b b' (take (Z.to_nat nn) p) /\ werr b' = err /\ (err = None -> nn = len p) /\
  (werr b <> None -> nn = 0 /\ b' = b).

Definition direct_ok (direct : option (T -> list Z -> Z * option ioError * T)) : Prop :=
  match direct with Some f => writes writtenOf f | None => True end.

(** One round of the loop: by the writer beneath, or by way of the buffer. *)
Lemma writeRound_spec direct b p :
  direct_ok direct -> winv b -> Available b < len p -> werr b = None ->
  (match direct with
   | Some write =>
       if Writer_Buffered b =? 0 then
         let '(n, err, w) := write (wr b) p in Ok (n, mkWr err (wbuf b) (wn b) w)
       else
         let! '(n, b) := putBuf b p in let! '(_, b) := Flush b in Ok (n, b)
   | None =>
       let! '(n, b) := putBuf b p in let! '(_, b) := Flush b in Ok (n, b)
   end) ⇓ fun '(n, b') => 0 <= n <= len p /\ accepts b b' (take (Z.to_nat n) p) /\
     (werr b' = None -> wn b' = 0 /\ (wn b = 0 -> 0 < n)).
Proof.
  intros Hd Hb Hav He. pose proof Hb as [Hp Hs].
  assert (Hbuf : (let! '(n, b) := putBuf b p in let! '(_, b) := Flush b in Ok (n, b)) ⇓ fun '(n, b') =>
    0 <= n <= len p /\ accepts b b' (take (Z.to_nat n) p) /\ (werr b' = None -> wn b' = 0 /\ (wn b = 0 -> 0 < n))).
  { eapply returns_bind_mono; [by apply putBuf_spec|]. intros [n b1] (-> & Hacc & He1 & Hn1).
    eapply returns_bind_mono; [apply Flush_spec; apply Hacc|]. intros [err b2] (Hacc2 & He2 & Hz & _). simpl.
    unfold Available in *. split; [lia|]. split; [rewrite <- (app_nil_r (take _ p)); by eapply accepts_trans|].
    rewrite He2. intros ->. split; [auto | lia]. }
  destruct direct as [f|]; [|done]. unfold Writer_Buffered. destruct (Z.eqb_spec (wn b) 0) as [E|E]; [|done].
  specialize (Hd (wr b) p). destruct (f (wr b) p) as [[n err] w']. destruct Hd as (Hn & Hout & Hshort). simpl.
  split; [done|]. split.
  - split; [by constructor|]. split; [done|]. unfold sent, held. simpl. rewrite Hout, E. simpl. by rewrite take_0, !app_nil_r.
  - intros ->. split; [done|]. intros _. unfold Available in Hav. destruct (decide (n < len p)); [by specialize (Hshort ltac:(done)) | lia].
Qed.

Lemma bufferLoop_spec direct b p : direct_ok direct -> winv b -> writeLoop direct b p ⇓ writeResult b p.
Proof.
  intros Hd Hb. unfold writeLoop.
  apply (loop_returns (fun '(nn, p', b') => 0 <= nn <= len p /\ p' = drop (Z.to_nat nn) p /\
      accepts b b' (take (Z.to_nat nn) p) /\ (werr b <> None -> nn = 0 /\ b' = b))
    (fun '(_, p', b') => if bool_decide (werr b' = None) then len p' + (if wn b' =? 0 then 0 else 1) else 0)).
  - intros [[nn p'] b1] (Hn & -> & Hacc & Hst). pose proof (len_drop_to nn p Hn) as HL.
    destruct (werr b1) as [e|] eqn:Ee.
    { rewrite andb_false_r. simpl. split_and!; try done; lia. }
    rewrite bool_decide_eq_true_2, andb_true_r by done. destruct (Z.gtb_spec (len (drop (Z.to_nat nn) p)) (Available b1)) as [G|G].
    + eapply returns_bind_mono; [apply (writeRound_spec direct b1 _ Hd (proj1 Hacc) G Ee)|].
      intros [n b2] (Hn2 & Hacc2 & Hz). rewrite slice_from_Ok by lia. cbn [rbind returns].
      assert (Hne : werr b = None).
      { destruct (decide (werr b = None)) as [|N]; [done|]. destruct (Hst N) as [_ ->]. congruence. }
      pose proof (wi_pos _ (proj1 Hacc)). split.
      * split_and!; try lia.
        -- rewrite drop_drop. f_equal. lia.
        -- rewrite <- take_split by lia. by eapply accepts_trans.
        -- by intros ?.
      * rewrite len_drop_to by lia. unfold Available in G. pose proof (wi_size _ (proj1 Hacc)).
        case_bool_decide as Hc; [destruct (Hz Hc) as [-> Hpos]; simpl; destruct (Z.eqb_spec (wn b1) 0); lia
          | destruct (Z.eqb_spec (wn b1) 0); lia].
    + eapply returns_bind_mono; [apply putBuf_spec, Hacc|]. intros [n b2] (-> & Hacc2 & He2 & _). simpl.
      rewrite Z.min_r in * by lia. split_and!; try lia.
      * rewrite <- take_split by lia. by eapply accepts_trans.
      * congruence.
      * intros N. destruct (Hst N) as [_ ->]. congruence.
  - split_and!; try done; try lia; [apply len_nonneg|]. simpl. by apply accepts_nil.
  - unfold len. case_bool_decide; repeat case_match; lia.
  - pose proof (len_nonneg p). case_bool_decide; repeat case_match; lia.
Qed.

Lemma Writer_Write_spec b p : winv b -> Write b p ⇓ writeResult b p.
Proof. apply bufferLoop_spec. exact doWrite_spec. Qed.

Lemma WriteString_spec stringWriter b s : direct_ok stringWriter -> winv b -> WriteString stringWriter b s ⇓ writeResult b s.
Proof. apply bufferLoop_spec. Qed.

(** ** WriteByte and WriteRune *)

Lemma WriteByte_spec b c :
  winv b -> WriteByte b c ⇓ fun '(err, b') => accepts b b' (if decide (err = None) then [c] else []) /\ werr b' = err /\
    (werr b <> None -> b' = b).
Proof.
  intros Hb. unfold WriteByte. destruct (werr b) as [e|] eqn:Ee.
  { simpl. split_and!; try done. by apply accepts_nil. }
  eapply (returns_bind_mono _ _ (fun '(err, b1) => accepts b b1 [] /\ werr b1 = err /\ (err = None -> 0 < Available b1))).
  - pose proof Hb as [Hp Hs]. unfold Available in *. destruct (Z.leb_spec (len (wbuf b) - wn b) 0).
    + eapply returns_mono; [by apply Flush_spec|]. intros [err b1] (Hacc & He & Hz & _). split_and!; try done.
      intros ->. rewrite (Hz eq_refl). destruct Hacc as (_ & -> & _). lia.
    + simpl. split_and!; [by apply accepts_nil | done | lia].
  - intros [err b1] (Hacc & He & Hroom). destruct err as [e|].
    { simpl. rewrite He. split_and!; try done. }
    specialize (Hroom eq_refl). unfold Available in Hroom. pose proof Hacc as ([Hp1 Hs1] & HL & Hsent).
    rewrite upd_Ok by lia. cbn [rbind returns]. rewrite He. split_and!; try done. rewrite decide_True by done.
    rewrite <- (app_nil_l [c]). eapply accepts_trans; [exact Hacc|]. split; [|split].
    + constructor; simpl; rewrite ?len_insert; lia.
    + simpl. by rewrite len_insert.
    + unfold sent, held. simpl. rewrite <- (assoc_L app). f_equal.
      replace (Z.to_nat (wn b1 + 1)) with (Datatypes.S (Z.to_nat (wn b1))) by lia.
      rewrite (take_S_r _ _ c) by (apply list_lookup_insert_eq; unfold len in *; lia). by rewrite take_insert_ge by lia.
Qed.

Lemma encode_spec b r :
  winv b -> - 2 ^ 31 <= r < 2 ^ 31 -> len (AppendRune [] r) <= Available b ->
  (let! rest := slice_from (wbuf b) (wn b) in
   let! '(rest, size) := EncodeRune rest r in
   Ok (size, @None ioError, mkWr (werr b) (take (Z.to_nat (wn b)) (wbuf b) ++ rest) (wn b + size) (wr b)))
  ⇓ fun '(n, err, b') => n = len (AppendRune [] r) /\ err = None /\ werr b' = werr b /\ accepts b b' (AppendRune [] r).
Proof.
  intros Hb Hr Hroom. pose proof Hb as [Hp Hs]. unfold Available in Hroom. rewrite slice_from_Ok by lia. cbn [rbind].
  rewrite EncodeRune_append by done. cbv zeta. pose proof (len_drop_to (wn b) (wbuf b) Hp) as Hd.
  pose proof (len_take_to (wn b) (wbuf b) Hp) as Ht. set (q := AppendRune [] r) in *. pose proof (len_nonneg q).
  rewrite (proj2 (Z.leb_le _ _)) by lia. cbn [rbind returns]. split_and!; try done.
  assert (HL : len (take (Z.to_nat (wn b)) (wbuf b) ++ q ++ drop (length q) (drop (Z.to_nat (wn b)) (wbuf b))) = len (wbuf b)).
  { rewrite !len_app. unfold len in *. rewrite (length_drop (drop _ _)), length_drop, length_take in *. lia. }
  split; [|split].
  - constructor; simpl; lia.
  - exact HL.
  - unfold sent, held. simpl. rewrite <- (assoc_L app). f_equal.
    rewrite (assoc_L app), take_app_le by (rewrite length_app, length_take; unfold len in *; lia).
    apply take_ge. rewrite length_app, length_take. unfold len in *. lia.
Qed.
Lemma rune_bytes_len r : - 2 ^ 31 <= r < 2 ^ 31 -> 1 <= len (AppendRune [] r) <= 4.
Proof.
  intros Hr. rewrite AppendRune_spec by done. unfold encoded. destruct (ValidRune r); apply utf8_encode_nonempty.
Qed.

Lemma WriteRune_spec stringWriter b r :
  direct_ok stringWriter -> winv b -> - 2 ^ 31 <= r < 2 ^ 31 ->
  WriteRune stringWriter b r ⇓ writeResult b (AppendRune [] r).
Proof.
  intros Hd Hb Hr. pose proof (rune_bytes_len r Hr) as Hlen. unfold WriteRune.
  destruct (Z.ltb_spec (u32 r) RuneSelf) as [L|L].
  { assert (Hone : AppendRune [] r = [u8 r]).
    { unfold AppendRune. rewrite (proj2 (Z.leb_le _ _)); [done|]. change rune1Max with 127. change RuneSelf with 128 in L. lia. }
    rewrite Hone. eapply returns_bind_mono; [by apply WriteByte_spec|]. intros [err b'] (Hacc & He & Hst).
    destruct err as [e|]; simpl in *; split_and!; try done; try (unfold len; simpl; lia).
    all: intros N; rewrite (Hst N) in *; first [done | congruence]. }
  destruct (werr b) as [e|] eqn:Ee.
  { simpl. split_and!; try done; try lia. by apply accepts_nil. }
  assert (Henc : forall b1, accepts b b1 [] -> werr b1 = None -> len (AppendRune [] r) <= Available b1 ->
    (let! rest := slice_from (wbuf b1) (wn b1) in
     let! '(rest, size) := EncodeRune rest r in
     Ok (size, @None ioError, mkWr None (take (Z.to_nat (wn b1)) (wbuf b1) ++ rest) (wn b1 + size) (wr b1)))
    ⇓ writeResult b (AppendRune [] r)).
  { intros b1 Hacc He1 Hroom. pose proof (encode_spec b1 r (proj1 Hacc) Hr Hroom) as K. rewrite He1 in K. eapply returns_mono; [exact K|].
    intros [[n err] b2] (-> & -> & He2 & Hacc2). split_and!; try done; try lia; try congruence.
    rewrite take_ge by (unfold len; lia). by apply (accepts_trans b b1 b2 []). }
  change UTFMax with 4. destruct (Z.ltb_spec (Available b) 4) as [G|G]; [|by apply Henc; [apply accepts_nil | done | lia]].
  eapply returns_bind_mono; [by apply Flush_spec|]. intros [err b1] (Hacc & He1 & _).
  destruct (werr b1) as [e|] eqn:Ee1.
  { simpl. split_and!; try done; lia. }
  destruct (Z.ltb_spec (Available b1) 4) as [G1|G1]; [|by apply Henc; [done | done | lia]].
  eapply returns_mono; [apply WriteString_spec; [done | apply Hacc]|].
  intros [[n e] b2] (Hn & Hacc2 & He2 & Hall & _). split_and!; try done; try lia. by apply (accepts_trans b b1 b2 []).
Qed.

Lemma fresh_winv w size : winv (NewWriterSize w size) /\ sent (NewWriterSize w size) = writtenOf w.
Proof.
  unfold NewWriterSize, sent, held. set (k := if size <=? 0 then defaultBufSize else size).
  assert (0 < k) by (unfold k; destruct (Z.leb_spec size 0); [reflexivity | lia]).
  simpl. rewrite app_nil_r. split; [|done]. constructor; simpl; unfold len; rewrite length_replicate; lia.
Qed.
End Writing.

(** * bufio: copying from a source to a sink

    Reader.WriteTo and Writer.ReadFrom move the data of a source to a writer: what
    arrives is what was taken, whatever error ends the copy. *)

Section Copy.
Context {S T : Type} {RD : ioReader S} {SR : Source S} {WR : ioWriter T} {SK : Sink T}.

(** [n] bytes have moved from [q] to [out], and without an error all of them. *)
Definition moved (q q' out out' : list Z) (final : ioError) (n : Z) (err : option ioError) : Prop :=
  exists taken, q = taken ++ q' /\ out' = out ++ taken /\ n = len taken /\ (err = None -> q' = [] /\ final = EOF).

(** What the optional methods of the reader and the writer beneath promise. *)
Definition copies (s : S) (w : T) (out : Z * option ioError * S * T) : Prop :=
  let '(n, err, s', w') := out in
  finalOf s' = finalOf s /\ moved (dataOf s) (dataOf s') (writtenOf w) (writtenOf w') (finalOf s) n err.

(** ** ReadFrom *)

Section ReadFrom.
Implicit Types b : Writer T.
Variable readerFrom : option (T -> S -> Z * option ioError * S * T).
Hypothesis readerFrom_ok : match readerFrom with Some f => forall w s, copies s w (f w s) | None => True end.

Lemma readSome_spec b s :
  winv b -> 0 < Available b ->
  readSome b s ⇓ fun '(got, b', s') => exists chunk err, got = Some (len chunk, err) /\ (chunk <> [] \/ err <> None) /\
    dataOf s = chunk ++ dataOf s' /\ finalOf s' = finalOf s /\ (err = None \/ (err = Some (finalOf s) /\ dataOf s' = [])) /\
    werr b' = werr b /\ wr b' = wr b /\ wn b' = wn b /\ len (wbuf b') = len (wbuf b) /\ wn b + len chunk <= len (wbuf b) /\
    take (Z.to_nat (wn b + len chunk)) (wbuf b') = held b ++ chunk.
Proof.
  intros Hb Hroom. pose proof Hb as [Hp Hs]. unfold readSome, Available in *.
  apply (loop_returns (fun '(nr, b', s') => 0 <= nr <= 100 /\ stallOf s' < 100 - nr /\ dataOf s' = dataOf s /\ finalOf s' = finalOf s /\
    werr b' = werr b /\ wr b' = wr b /\ wn b' = wn b /\ len (wbuf b') = len (wbuf b) /\ held b' = held b) (fun '(nr, _, _) => 100 - nr)).
  - intros [[nr b1] s1] (Hnr & Hst & Hd & Hf & He & Hw & Hn & HL & Hh). pose proof (stallOf_range s1).
    change maxConsecutiveEmptyReads with 100. rewrite (proj2 (Z.ltb_lt nr 100)) by lia. rewrite slice_from_Ok by lia. cbn [rbind].
    pose proof (len_drop_to (wn b1) (wbuf b1) ltac:(lia)) as HD. pose proof (len_take_to (wn b1) (wbuf b1) ltac:(lia)) as HT.
    destruct (doRead_spec s1 (drop (Z.to_nat (wn b1)) (wbuf b1))) as (chunk & rest & err & s2 & -> & Hlen & Hd2 & Hf2 & Herr & Hst2).
    { intros E. rewrite E in HD. unfold len in *. simpl in *. lia. }
    rewrite len_app in Hlen. pose proof (len_nonneg chunk). pose proof (len_nonneg rest).
    assert (HL2 : len (take (Z.to_nat (wn b1)) (wbuf b1) ++ chunk ++ rest) = len (wbuf b)) by (rewrite !len_app; lia).
    destruct (negb (len chunk =? 0) || bool_decide (err <> None)) eqn:Estop; cbn [returns].
    + exists chunk, err. split_and!; try done; try lia; try congruence.
      * apply orb_true_iff in Estop as [E|E]; [left; intros ->; done | right; by apply bool_decide_eq_true in E].
      * simpl. rewrite <- Hh, <- Hn. unfold held.
        rewrite (assoc_L app), take_app_le by (rewrite length_app; unfold len in *; lia).
        apply take_ge. rewrite length_app. unfold len in *. lia.
    + apply orb_false_iff in Estop as [E1 E2]. apply negb_false_iff, Z.eqb_eq in E1.
      assert (chunk = []) as -> by (by apply len_zero_inv). assert (err = None) as ->.
      { destruct err; [|done]. by rewrite bool_decide_eq_true_2 in E2. }
      specialize (Hst2 eq_refl eq_refl). rewrite app_nil_l in Hd2. split; [|lia]. split_and!; try done; try lia; try congruence.
      rewrite <- Hh. unfold held at 1. simpl. rewrite take_app_le by (unfold len in *; lia). by rewrite take_take, Nat.min_id.
  - pose proof (stallOf_range s). split_and!; done || lia.
  - change maxConsecutiveEmptyReads with 100. lia.
  - lia.
Qed.

Lemma readFromStep_spec b0 s0 n b s taken :
  accepts b0 b taken -> n = len taken -> dataOf s0 = taken ++ dataOf s -> finalOf s = finalOf s0 -> werr b = None ->
  readFromStep readerFrom (n, b, s) ⇓ fun r => match r with
    | inl (n', b', s') => exists taken', accepts b0 b' taken' /\ n' = len taken' /\ dataOf s0 = taken' ++ dataOf s' /\
        finalOf s' = finalOf s0 /\ werr b' = None /\ len (dataOf s') < len (dataOf s)
    | inr (n', err, b', s') => winv b' /\ len (wbuf b') = len (wbuf b0) /\ finalOf s' = finalOf s0 /\
        moved (dataOf s0) (dataOf s') (sent b0) (sent b') (finalOf s0) n' err
    end.
Proof.
  intros Hacc -> Hdata Hfin He. unfold readFromStep.
  eapply (returns_bind_mono _ _ (fun '(err, b1) => accepts b0 b1 taken /\ werr b1 = err /\ (err = None -> 0 < Available b1))).
  { pose proof Hacc as ([Hp Hs] & HL & Hse). unfold Available. destruct (Z.eqb_spec (len (wbuf b) - wn b) 0).
    - eapply returns_mono; [apply Flush_spec, Hacc|]. intros [err b1] (Ha & He1 & Hz & _). split_and!; try done.
      + rewrite <- (app_nil_r taken). by eapply accepts_trans.
      + intros ->. rewrite (Hz eq_refl). destruct Ha as (_ & -> & _). lia.
    - simpl. split_and!; done || lia. }
  intros [err1 b1] (Hacc1 & He1 & Hroom). destruct err1 as [e|].
  { simpl. destruct Hacc1 as (? & ? & ?). split_and!; try done. exists taken. done. }
  specialize (Hroom eq_refl). pose proof Hacc1 as (Hb1 & HL1 & Hsent1).
  match goal with |- (match readerFrom with Some _ => _ | None => ?go end) ⇓ ?Q => assert (Hgo : go ⇓ Q) end.
  { eapply returns_bind_mono; [by apply (readSome_spec b1 s)|].
    intros [[got b2] s2] (chunk & err & -> & Hprog & Hd & Hf & Herr & Hwe & Hwr & Hwn & HL & Hcap & Htk).
    pose proof (len_nonneg chunk). pose proof Hb1 as [Hp1 Hs1].
    set (b3 := mkWr (werr b2) (wbuf b2) (wn b2 + len chunk) (wr b2)).
    assert (Ha3 : accepts b0 b3 (taken ++ chunk)).
    { eapply accepts_trans; [exact Hacc1|]. split; [constructor; simpl; lia|]. split; [done|].
      unfold sent, held at 1. simpl. by rewrite Hwn, Htk, Hwr, (assoc_L app). }
    rewrite Hd, (assoc_L app) in Hdata. destruct err as [e|].
    - destruct Herr as [|[[= ->] Hnil]]; [done|]. destruct (decide (finalOf s = EOF)) as [E|E].
      + destruct (Z.eqb_spec (Available b3) 0).
        * eapply returns_bind_mono; [apply Flush_spec, Ha3|]. intros [e4 b4] ((? & ? & Hs4) & _). simpl.
          destruct Ha3 as (? & ? & Hs3). split_and!; try done; try congruence. exists (taken ++ chunk).
          rewrite Hs4, Hs3, app_nil_r, len_app. split_and!; try done. by rewrite <- Hfin.
        * simpl. destruct Ha3 as (? & ? & Hs3). split_and!; try done; try congruence. exists (taken ++ chunk).
          rewrite len_app. split_and!; try done. by rewrite <- Hfin.
      + simpl. destruct Ha3 as (? & ? & Hs3). split_and!; try done; try congruence. exists (taken ++ chunk).
        by rewrite len_app.
    - simpl. exists (taken ++ chunk). split_and!; try done; try congruence; [by rewrite len_app|].
      destruct Hprog as [Hne|]; [|done]. rewrite Hd, len_app. destruct chunk; [done|]. rewrite len_cons. pose proof (len_nonneg chunk). lia. }
  destruct readerFrom as [f|]; [|exact Hgo]. unfold Writer_Buffered. destruct (Z.eqb_spec (wn b1) 0) as [E|_]; [|exact Hgo].
  specialize (readerFrom_ok (wr b1) s). destruct (f (wr b1) s) as [[[nn e] s2] w2]. simpl.
  destruct readerFrom_ok as (Hf & more & Hd & Hout & -> & Hend). split_and!; try done; try congruence.
  - destruct Hb1. by constructor.
  - exists (taken ++ more). rewrite len_app. split_and!; try done; try congruence.
    + by rewrite Hdata, Hd, (assoc_L app).
    + revert Hsent1. unfold sent, held. simpl. rewrite E, !take_0, !app_nil_r, Hout. intros ->. by rewrite <- !(assoc_L app).
    + rewrite <- Hfin. auto.
Qed.

Lemma ReadFrom_spec fuel b s :
  winv b -> (length (dataOf s) < fuel)%nat ->
  ReadFrom readerFrom fuel b s ⇓ fun '(n, err, b', s') => winv b' /\ len (wbuf b') = len (wbuf b) /\ finalOf s' = finalOf s /\
    moved (dataOf s) (dataOf s') (sent b) (sent b') (finalOf s) n err.
Proof.
  intros Hb Hf. unfold ReadFrom. destruct (werr b) as [e|] eqn:Ee.
  { simpl. split_and!; try done. exists []. rewrite app_nil_r. done. }
  apply (loop_returns (fun '(n, b', s') => exists taken, accepts b b' taken /\ n = len taken /\ dataOf s = taken ++ dataOf s' /\
    finalOf s' = finalOf s /\ werr b' = None) (fun '(_, _, s') => len (dataOf s'))).
  - intros [[n b1] s1] (taken & Hacc & Hn & Hd & Hfin & He). eapply returns_mono; [by eapply (readFromStep_spec b s)|].
    intros [[[n' b'] s']|[[[n' err] b'] s']]; [|done]. intros (taken' & ? & ? & ? & ? & ? & ?).
    split; [by exists taken'|]. pose proof (len_nonneg (dataOf s')). lia.
  - exists []. split_and!; try done. by apply accepts_nil.
  - unfold len. lia.
  - apply len_nonneg.
Qed.
End ReadFrom.

(** ** WriteTo *)

Section WriteTo.
Implicit Types b : Reader S.
Variable writerTo : option (S -> T -> Z * option ioError * S * T).
Variable readerFrom : option (T -> S -> Z * option ioError * S * T).
Hypothesis writerTo_ok : match writerTo with Some f => forall s w, copies s w (f s w) | None => True end.
Hypothesis readerFrom_ok : match readerFrom with Some f => forall w s, copies s w (f w s) | None => True end.

Lemma writeBuf_spec b w :
  rinv b -> writeBuf b w ⇓ fun '(n, err, b', w') => exists taken, queue b = taken ++ queue b' /\ writtenOf w' = writtenOf w ++ taken /\
    n = len taken /\ leaves b b' (queue b') /\ (err = None -> taken = inBuf b /\ rr b' = rw b').
Proof.
  intros Hb. pose proof (inBuf_len b Hb) as Hl. unfold writeBuf. rewrite inBuf_slice by done. cbn [rbind].
  pose proof (doWrite_spec w (inBuf b)) as Hw. destruct (doWrite w (inBuf b)) as [[n err] w'].
  destruct Hw as (Hn & Hout & Hshort). destruct (Z.ltb_spec n 0); [lia|]. cbn [returns].
  destruct (advance b n Hb) as (Hb' & Hq & _ & Htk & _); [lia|].
  exists (take (Z.to_nat n) (inBuf b)). split_and!; try done.
  intros ->. destruct (decide (n < len (inBuf b))) as [L|L]; [by specialize (Hshort L)|].
  rewrite take_ge by (unfold len in *; lia). split; [done|]. simpl. unfold Buffered in Hl. lia.
Qed.

Lemma copyLoop_spec fuel b0 w0 n b w taken :
  queue b0 = taken ++ queue b -> writtenOf w = writtenOf w0 ++ taken -> n = len taken ->
  leaves b0 b (queue b) -> (rr b < rw b \/ rerr b <> None) -> (length (queue b) < fuel)%nat ->
  copyLoop fuel n b w ⇓ fun '(n', err, b', w') => leaves b0 b' (queue b') /\
    moved (queue b0) (queue b') (writtenOf w0) (writtenOf w') (finalOf (rd b0)) n' err.
Proof.
  intros Hq Hout -> Hlv Hprog Hfuel. unfold copyLoop.
  apply (loop_returns (fun '(n, b, w) => exists taken, queue b0 = taken ++ queue b /\ writtenOf w = writtenOf w0 ++ taken /\
    n = len taken /\ leaves b0 b (queue b) /\ (rr b < rw b \/ rerr b <> None)) (fun '(_, b, _) => len (queue b))).
  - clear. intros [[n b] w] (taken & Hq & Hout & -> & Hlv & Hprog). pose proof Hlv as (Hb & _ & Hf & HL).
    destruct (Z.ltb_spec (rr b) (rw b)) as [L|L].
    + eapply returns_bind_mono; [by apply (writeBuf_spec b w)|].
      intros [[[m err] b1] w1] (more & Hq1 & Hout1 & -> & Hlv1 & Hall).
      assert (Hq2 : queue b0 = (taken ++ more) ++ queue b1) by (by rewrite Hq, Hq1, (assoc_L app)).
      assert (Hout2 : writtenOf w1 = writtenOf w0 ++ taken ++ more) by (by rewrite Hout1, Hout, (assoc_L app)).
      assert (Hlv2 : leaves b0 b1 (queue b1)) by (by eapply leaves_trans).
      destruct err as [e|].
      { simpl. split; [done|]. exists (taken ++ more). by rewrite len_app. }
      destruct (Hall eq_refl) as [-> Hrw]. pose proof Hlv1 as (Hb1 & _ & _ & HL1). pose proof (ri_size _ Hb1).
      eapply returns_bind_mono; [apply fill_spec; [done | unfold Buffered; lia]|].
      intros b2 (Hb2 & Hsame & _ & _ & _ & _ & Hp2). pose proof Hsame as (Q1 & Q2 & Q3 & _). simpl. rewrite Q1. split.
      * exists (taken ++ inBuf b). rewrite len_app. split_and!; try done.
        -- destruct Hlv2 as (_ & _ & ? & ?). split; [done|]. split; [done|]. split; congruence.
        -- unfold Buffered in Hp2. destruct Hp2; [left; lia | by right].
      * rewrite Hq1, len_app, (inBuf_len b Hb). unfold Buffered. pose proof (len_nonneg (queue b1)). lia.
    + destruct Hprog as [|He]; [lia|]. destruct (rerr b) as [e|] eqn:Ee; [|done].
      destruct (err_empty _ _ Hb Ee) as [-> Hqe]. pose proof (ri_pos _ Hb). rewrite (empty_buf b Hb) in Hqe by lia.
      assert (Hlast : forall b1, b1 = setErr b None -> leaves b0 b1 (queue b1) /\ queue b1 = []).
      { intros b1 ->. destruct Hlv as (_ & _ & ? & ?). split; [|exact Hqe]. split; [by apply rinv_setErr | done]. }
      rewrite Hqe, app_nil_r in Hq.
      destruct (decide (Some (finalOf (rd b)) = Some EOF)) as [[= E]|E]; simpl.
      * destruct (Hlast (setErr (setErr b None) None) eq_refl) as [Hl1 Hl2]. split; [exact Hl1|]. rewrite Hl2. exists taken. rewrite app_nil_r, <- Hf. done.
      * rewrite Ee. destruct (Hlast (setErr b None) eq_refl) as [Hl1 Hl2]. split; [exact Hl1|]. rewrite Hl2. exists taken. by rewrite app_nil_r.
  - exists taken. done.
  - unfold len. lia.
  - apply len_nonneg.
Qed.

Lemma moveRest b0 b taken w0 w f :
  queue b0 = taken ++ queue b -> writtenOf w = writtenOf w0 ++ taken -> leaves b0 b (queue b) -> rr b = rw b ->
  rerr b = None \/ dataOf (rd b) = [] ->
  copies (rd b) w f ->
  let '(m, err, s, w') := f in leaves b0 (setRd b s) (queue (setRd b s)) /\
    moved (queue b0) (queue (setRd b s)) (writtenOf w0) (writtenOf w') (finalOf (rd b0)) (len taken + m) err.
Proof.
  intros Hq Hout (Hb & _ & Hf & HL) Hrw Herr Hc. destruct f as [[[m err] s] w']. destruct Hc as (Hfs & more & Hd & Hw & -> & Hend).
  pose proof (empty_buf b Hb Hrw) as Hin.
  assert (Hqb : queue b = dataOf (rd b)) by (unfold queue; by rewrite Hin).
  assert (Hqs : queue (setRd b s) = dataOf s) by (unfold queue; change (inBuf (setRd b s)) with (inBuf b); by rewrite Hin).
  split.
  - split; [|split; [done|]; split; simpl; congruence]. pose proof Hb as [? ? ? He ?]. constructor; try done. simpl.
    destruct He as [?|[He Hnil]]; [by left|]. right. rewrite Hfs. split; [done|]. rewrite Hnil in Hd. symmetry in Hd. by apply app_eq_nil in Hd as [_ ?].
  - rewrite Hqs. exists (taken ++ more). rewrite len_app, Hq, Hqb, Hd, Hw, Hout, !(assoc_L app). split_and!; try done.
    rewrite <- Hf. done.
Qed.

Lemma WriteTo_spec fuel b w :
  rinv b -> (length (queue b) < fuel)%nat ->
  WriteTo writerTo readerFrom fuel b w ⇓ fun '(n, err, b', w') => leaves b b' (queue b') /\
    moved (queue b) (queue b') (writtenOf w) (writtenOf w') (finalOf (rd b)) n err.
Proof.
  intros Hb Hf. unfold WriteTo. set (b0 := setLast b (-1) (-1)).
  assert (Hb0 : rinv b0) by (by apply rinv_setLast). change (queue b) with (queue b0) in *.
  eapply (returns_bind_mono _ _ (fun '(n, err, b1, w1) => exists taken, queue b0 = taken ++ queue b1 /\
    writtenOf w1 = writtenOf w ++ taken /\ n = len taken /\ leaves b0 b1 (queue b1) /\ (err = None -> rr b1 = rw b1))).
  { pose proof (ri_pos _ Hb0). destruct (Z.ltb_spec (rr b0) (rw b0)).
    - eapply returns_mono; [by apply writeBuf_spec|]. intros [[[n err] b1] w1] (taken & ? & ? & ? & ? & Hall).
      exists taken. split_and!; try done. intros E. by apply Hall.
    - simpl. exists []. rewrite app_nil_r. split_and!; try done. intros _. change (rr b0 = rw b0). lia. }
  intros [[[n err] b1] w1] (taken & Hq & Hout & -> & Hlv & Hrw). destruct err as [e|].
  { simpl. split; [done|]. exists taken. done. }
  specialize (Hrw eq_refl). pose proof Hlv as (Hb1 & _ & Hf1 & HL1). pose proof (ri_size _ Hb1).
  assert (Hopt : forall f, copies (rd b1) w1 f -> (let '(m, err, s, w') := f in Ok (len taken + m, err, setRd b1 s, w')) ⇓
    fun '(n, err, b', w') => leaves b b' (queue b') /\ moved (queue b0) (queue b') (writtenOf w) (writtenOf w') (finalOf (rd b)) n err).
  { intros f Hc. pose proof (moveRest b0 b1 taken w w1 f Hq Hout Hlv Hrw) as Hm. destruct f as [[[m e] s] w']. apply Hm; [|done].
    destruct (ri_err _ Hb1) as [?|[_ ?]]; auto. }
  destruct writerTo as [f|]; [apply Hopt, writerTo_ok|]. destruct readerFrom as [f|]; [apply Hopt, readerFrom_ok|].
  rewrite (proj2 (Z.ltb_lt _ _)) by lia.
  eapply returns_bind_mono; [apply fill_spec; [done | unfold Buffered; lia]|].
  intros b2 (Hb2 & (Q1 & Q2 & Q3 & _) & _ & _ & _ & _ & Hp2).
  apply (copyLoop_spec fuel b0 w (len taken) b2 w1 taken); rewrite ?Q1; try done.
  - split; [done|]. split; [done|]. split; congruence.
  - unfold Buffered in Hp2. destruct Hp2; [left; lia | by right].
  - apply (f_equal length) in Hq. rewrite length_app in Hq. lia.
Qed.
End WriteTo.
End Copy.
