(* ===== verification/BufioSpec.v ===== *)
(** * bufio: properties

    A Reader is a stream of bytes with one step back, a Writer a log of bytes on
    its way out.  Any calls of the methods, over any source and any sink that keep
    the contracts of io.Reader and io.Writer, give the results of these two
    machines, which know neither buffers nor the sizes of the reads and writes
    beneath. *)
From Stdlib Require Import ZArith Lia.
From stdpp Require Import base numbers list.
From S2P Require Import Prelude Utf8 Bufio BufioReader BufioLine BufioWriter.

(** ** Calls of a Reader *)

Inductive readOp :=
| OpRead (p : list Z)
| OpReadByte
| OpUnreadByte
| OpReadRune
| OpUnreadRune
| OpPeek (n : Z)
| OpDiscard (n : Z)
| OpReadSlice (delim : Z)
| OpReadLine
| OpReadBytes (delim : Z)
| OpReadString (delim : Z).

Inductive readOut :=
| OutRead (p : list Z) (n : Z) (err : option ioError)
| OutByte (c : Z) (err : option ioError)
| OutErr (err : option ioError)
| OutRune (r size : Z) (err : option ioError)
| OutBytes (line : list Z) (err : option ioError)
| OutCount (n : Z) (err : option ioError)
| OutLine (line : option (list Z)) (isPrefix : bool) (err : option ioError).

Section ReaderCalls.
Context {S : Type} {RD : ioReader S} {SR : Source S} {BA : Bytealg}.
Implicit Types b : Reader S.

(** ReadBytes and ReadString read no more buffers than there are bytes. *)
Definition callReader b (op : readOp) : res (readOut * Reader S) :=
  let fuel := Datatypes.S (length (queue b)) in
  match op with
  | OpRead p => let! '(p, n, err, b) := Read b p in Ok (OutRead p n err, b)
  | OpReadByte => let! '(c, err, b) := ReadByte b in Ok (OutByte c err, b)
  | OpUnreadByte => let! '(err, b) := UnreadByte b in Ok (OutErr err, b)
  | OpReadRune => let! '(r, size, err, b) := ReadRune b in Ok (OutRune r size err, b)
  | OpUnreadRune => let '(err, b) := UnreadRune b in Ok (OutErr err, b)
  | OpPeek n => let! '(p, err, b) := Peek b n in Ok (OutBytes p err, b)
  | OpDiscard n => let! '(k, err, b) := Discard b n in Ok (OutCount k err, b)
  | OpReadSlice delim => let! '(line, err, b) := ReadSlice b delim in Ok (OutBytes line err, b)
  | OpReadLine => let! '(line, isPrefix, err, b) := ReadLine b in Ok (OutLine line isPrefix err, b)
  | OpReadBytes delim => let! '(line, err, b) := ReadBytes fuel b delim in Ok (OutBytes line err, b)
  | OpReadString delim => let! '(line, err, b) := ReadString fuel b delim in Ok (OutBytes line err, b)
  end.

Fixpoint callsReader b (ops : list readOp) : res (list readOut * Reader S) :=
  match ops with
  | [] => Ok ([], b)
  | op :: ops =>
      let! '(out, b) := callReader b op in
      let! '(outs, b) := callsReader b ops in
      Ok (out :: outs, b)
  end.
End ReaderCalls.

(** ** The stream *)

(** The rune that can be unread: none, that of the last call, or one that calls
    which read nothing have followed. *)
Inductive lastRune := NoRune | LastRune (p : list Z) | EarlierRune (p : list Z).

Record stream := mkStream { ahead : list Z; backByte : option Z; backRune : lastRune }.






(** There is one line up to the first delimiter. *)
Lemma first_delim (d : Z) (l1 l2 q1 q2 : list Z) :
  d ∉ l1 -> d ∉ l2 -> (l1 ++ [d]) ++ q1 = (l2 ++ [d]) ++ q2 -> l1 ++ [d] = l2 ++ [d].
Proof.
  revert l2. induction l1 as [|x l1 IH]; intros l2 N1 N2 E; destruct l2 as [|y l2]; simpl in *; simplify_eq; try done.
  - exfalso. apply N2. constructor.
  - exfalso. apply N1. constructor.
  - f_equal. apply IH; [by intros ?; apply N1; constructor | by intros ?; apply N2; constructor | done].
Qed.

Section ReaderRefines.
Context {S : Type} {RD : ioReader S} {SR : Source S} {BA : Bytealg} {BL : BytealgLaws BA}.
Implicit Types b : Reader S.

Definition backRuneRel b (r : lastRune) : Prop :=
  match r with
  | NoRune => lastRuneSize b = -1
  | LastRune p | EarlierRune p => p <> [] /\ bytes_ok p /\ lastRuneSize b = len p /\
      (len p <= rr b -> take (length p) (drop (Z.to_nat (rr b - len p)) (rbuf b)) = p) /\
      (r = LastRune p -> len p <= rr b)
  end.

(** A Reader and its stream. *)
Record streamOf (e : ioError) (size : Z) b (st : stream) : Prop := {
  so_inv : rinv b;
  so_ahead : queue b = ahead st;
  so_end : finalOf (rd b) = e;
  so_size : len (rbuf b) = size;
  so_byte : lastByte b = default (-1) (backByte st);
  so_byte_ok : forall c, backByte st = Some c -> byte_ok c /\ settled b;
  so_rune : backRuneRel b (backRune st);
}.

Lemma streamOf_fresh s size :
  streamOf (finalOf s) (Z.max size 16) (NewReaderSize s size) (mkStream (dataOf s) None NoRune).
Proof.
  unfold NewReaderSize, reset. change minReadBufferSize with 16.
  assert (Hl : len (replicate (Z.to_nat (Z.max size 16)) 0) = Z.max size 16) by (unfold len; rewrite length_replicate; lia).
  constructor; try done. constructor; simpl; try done; try lia; [by left | constructor].
Qed.




















(** ReadBytes and ReadString read through the delimiter, or to the end: the
    line, the error and what is left depend on the bytes alone, not on the
    buffer, also for lines longer than it. *)
Theorem Bufio_ReadBytes_exact (b : Reader S) (delim : Z) (fuel : nat) :
  rinv b -> (length (queue b) < fuel)%nat ->
  ReadBytes fuel b delim ⇓ (fun '(line, err, b') => exists rest, queue b = line ++ rest /\ queue b' = rest /\
    if decide (delim ∈ queue b) then err = None /\ exists l, line = l ++ [delim] /\ delim ∉ l
    else err = Some (finalOf (rd b)) /\ line = queue b) /\
  exists line err b1 b2, ReadBytes fuel b delim = Ok (line, err, b1) /\ ReadString fuel b delim = Ok (line, err, b2).
Proof.
  intros Hb Hf. pose proof (ReadBytes_spec fuel b delim Hb Hf) as H1. pose proof (ReadString_spec fuel b delim Hb Hf) as H2.
  assert (Hone : forall line err q, lineResult (queue b) (finalOf (rd b)) delim line err q ->
    if decide (delim ∈ queue b) then err = None /\ exists l, line = l ++ [delim] /\ delim ∉ l
    else err = Some (finalOf (rd b)) /\ line = queue b).
  { intros line err q (Hq & [(-> & l & -> & Hl)|(-> & Hl & ->)]).
    - rewrite decide_True; [by eauto|]. rewrite Hq, !elem_of_app. left. right. constructor.
    - rewrite app_nil_r in Hq. subst line. by rewrite decide_False. }
  split.
  - eapply returns_mono; [exact H1|]. intros [[line err] b'] (q & Hr & (_ & Hq & _) & _). exists q. split; [apply Hr|].
    split; [done|]. by eapply Hone.
  - destruct (ReadBytes fuel b delim) as [[[line1 err1] b1]| |]; try done.
    destruct (ReadString fuel b delim) as [[[line2 err2] b2]| |]; try done.
    destruct H1 as (q1 & R1 & _), H2 as (q2 & R2 & _). pose proof (Hone _ _ _ R1) as O1. pose proof (Hone _ _ _ R2) as O2.
    exists line1, err1, b1, b2. split; [done|]. destruct R1 as [E1 _], R2 as [E2 _].
    assert (Heq : line1 = line2 /\ err1 = err2) by (destruct (decide (delim ∈ queue b)); [|by destruct O1 as [-> ->], O2 as [-> ->]];
      destruct O1 as (-> & l1 & -> & N1), O2 as (-> & l2 & -> & N2); split; [|done]; rewrite E1 in E2; by eapply first_delim).
    by destruct Heq as [-> ->].
Qed.
End ReaderRefines.

(** ** Calls of a Writer *)



Section WriterCalls.
Context {T : Type} {WR : ioWriter T}.
Variable stringWriter : option (T -> list Z -> Z * option ioError * T).
Implicit Types b : Writer T.


End WriterCalls.

(** ** The log *)






Section WriterRefines.
Context {T : Type} {WR : ioWriter T} {SK : Sink T}.
Variable stringWriter : option (T -> list Z -> Z * option ioError * T).
Hypothesis stringWriter_ok : match stringWriter with Some f => writes writtenOf f | None => True end.
Implicit Types b : Writer T.








End WriterRefines.

(** ** Copying *)


(** ** Examples *)

(** A source that gives at most [atOnce + 1] bytes at a time, and a sink with
    room for some bytes. *)
Record pieces := mkPieces { bytesLeft : list Z; atOnce : nat }.

#[global] Instance pieces_reader : ioReader pieces := fun s p =>
  match bytesLeft s with
  | [] => (p, 0, Some EOF, s)
  | _ =>
      let n := Nat.min (length p) (Nat.min (Datatypes.S (atOnce s)) (length (bytesLeft s))) in
      (map u8 (take n (bytesLeft s)) ++ drop n p, Z.of_nat n, None, mkPieces (drop n (bytesLeft s)) (atOnce s))
  end.

#[global] Instance pieces_source : Source pieces.
Proof.
  refine {| dataOf s := map u8 (bytesLeft s); finalOf _ := EOF; stallOf _ := 0 |}; try done.
  - intros s. apply Forall_fmap. apply Forall_true. intros x. apply u8_range.
  - intros s p Hp. unfold doRead, pieces_reader. destruct (bytesLeft s) as [|x l] eqn:El.
    + exists [], p, (Some EOF), s. rewrite El. split_and!; try done. right. done.
    + set (n := Nat.min _ _). set (d := x :: l) in *.
      assert (Hn : (0 < n <= length p)%nat /\ (n <= length d)%nat) by (unfold n, d; destruct p; [done|]; simpl; lia).
      exists (map u8 (take n d)), (drop n p), None, (mkPieces (drop n d) (atOnce s)). split_and!; try done.
      * do 3 f_equal. unfold len. rewrite length_map, length_take. lia.
      * rewrite len_app. unfold len. rewrite length_map, length_take, length_drop. lia.
      * simpl. by rewrite <- map_app, take_drop.
      * by left.
      * intros E. apply (f_equal length) in E. rewrite length_map, length_take in E. simpl in E. lia.
Defined.

Record room := mkRoom { taken : list Z; left_ : nat }.

#[global] Instance room_writer : ioWriter room := fun w p =>
  if decide (length p <= left_ w)%nat then (len p, None, mkRoom (taken w ++ p) (left_ w - length p))
  else (Z.of_nat (left_ w), Some (OtherError 1), mkRoom (taken w ++ take (left_ w) p) 0).

#[global] Instance room_sink : Sink room.
Proof.
  refine {| writtenOf := taken |}. intros w p. unfold doWrite, room_writer. destruct (decide (length p <= left_ w)%nat).
  - simpl. pose proof (len_nonneg p). split_and!; try lia. unfold len. by rewrite Nat2Z.id, take_ge.
  - simpl. unfold len. split_and!; try lia; try done. by rewrite Nat2Z.id.
Defined.

#[global] Instance searchByte : Bytealg := fun l c =>
  match list_find (eq c) l with Some (i, _) => Z.of_nat i | None => -1 end.

#[global] Instance searchByte_laws : BytealgLaws searchByte.
Proof.
  constructor; unfold IndexByte, searchByte.
  - intros l c i. destruct (list_find (eq c) l) as [[j x]|] eqn:E; intros <- H; [|lia].
    apply list_find_Some in E as (Hj & <- & Hno). rewrite Nat2Z.id. pose proof (lookup_lt_Some _ _ _ Hj). split; [unfold len; lia|].
    split; [done|]. intros (k & Hk)%list_elem_of_lookup. apply lookup_take_Some in Hk as [Hk Hlt]. by destruct (Hno k c Hk Hlt).
  - intros l c. destruct (list_find (eq c) l) as [[j x]|] eqn:E.
    + apply list_find_Some in E as (Hj & <- & _). split; [lia|]. intros N. destruct N. by eapply list_elem_of_lookup_2.
    + split; [|lia]. intros _ Hin. apply list_find_None in E. rewrite Forall_forall in E. by destruct (E c Hin).
Qed.

Definition sample : pieces := mkPieces (replicate 20 97 ++ [10; 0xC3; 0xA9; 98]) 2.


Definition resultsOf {A B} (m : res (list A * B)) : list A := match m with Ok (l, _) => l | _ => [] end.


Definition sampleReader : Reader pieces := NewReaderSize sample 16.

Lemma Bufio_ReadBytes_exact_witness :
  ReadBytes 30 sampleReader 10 ⇓ (fun '(line, err, b') => exists rest, queue sampleReader = line ++ rest /\ queue b' = rest /\
    if decide (10 ∈ queue sampleReader) then err = None /\ exists l, line = l ++ [10] /\ 10 ∉ l
    else err = Some (finalOf (rd sampleReader)) /\ line = queue sampleReader) /\
  exists line err b1 b2, ReadBytes 30 sampleReader 10 = Ok (line, err, b1) /\ ReadString 30 sampleReader 10 = Ok (line, err, b2).
Proof.
  apply (Bufio_ReadBytes_exact sampleReader 10 30).
  - exact (so_inv _ _ _ _ (streamOf_fresh sample 16)).
  - vm_compute. lia.
Defined.




(** A carriage return that ReadLine puts back at the end of a full buffer is still
    the last byte read, and UnreadByte puts it back again, over the last byte of
    the line: what follows holds it twice. *)
Example ReadLine_UnreadByte_twice :
  resultsOf (callsReader (NewReaderSize (mkPieces (replicate 15 97 ++ [13; 10; 98]) 3) 16)
    [OpReadLine; OpUnreadByte; OpReadBytes 10]) =
  [OutLine (Some (replicate 15 97)) true None; OutErr None; OutBytes [13; 13; 10] None].
Proof. vm_compute. reflexivity. Qed.
