(* ===== verification/Scanner.v ===== *)
(** * Package bufio: Scanner

    src/bufio/scan.go: the Scanner with every method, and the four split
    functions.  A token is [None] when it is nil; the bytes of a token are those
    that it has when Scan returns. *)
From Stdlib Require Import ZArith Lia.
From stdpp Require Import base numbers list.
From S2P Require Import Prelude Utf8 Bufio.

Definition MaxScanTokenSize : Z := 64 * 1024.
Definition startBufSize : Z := 4096.
Definition scanMaxInt : Z := 2 ^ 63 - 1.

Definition SplitFunc : Type := list Z -> bool -> res (Z * option (list Z) * option ioError).

(** ** Split functions *)

Section Splits.
Context {BA : Bytealg}.

Definition ScanBytes : SplitFunc := fun data atEOF =>
  if atEOF && (len data =? 0) then Ok (0, None, None) else
  let! token := slice data 0 1 in
  Ok (1, Some token, None).

Definition errorRune : list Z := AppendRune [] RuneError.

Definition ScanRunes : SplitFunc := fun data atEOF =>
  if atEOF && (len data =? 0) then Ok (0, None, None) else
  let! c := idx data 0 in
  if c <? RuneSelf then
    let! token := slice data 0 1 in
    Ok (1, Some token, None)
  else
    let! '(_, width) := DecodeRune data in
    if width >? 1 then
      let! token := slice data 0 width in
      Ok (width, Some token, None)
    else
      let! incomplete := if negb atEOF then (let! full := FullRune data in Ok (negb full)) else Ok false in
      if (incomplete : bool) then Ok (0, None, None) else Ok (1, Some errorRune, None).

Definition dropCR (data : list Z) : res (list Z) :=
  if len data >? 0 then
    let! c := idx data (len data - 1) in
    if c =? 13 then slice data 0 (len data - 1) else Ok data
  else Ok data.

Definition ScanLines : SplitFunc := fun data atEOF =>
  if atEOF && (len data =? 0) then Ok (0, None, None) else
  let i := IndexByte data 10 in
  if i >=? 0 then
    let! line := slice data 0 i in
    let! token := dropCR line in
    Ok (i + 1, Some token, None)
  else if (atEOF : bool) then
    let! token := dropCR data in
    Ok (len data, Some token, None)
  else Ok (0, None, None).

Definition isSpace (r : Z) : bool :=
  if r <=? 0xFF then
    (r =? 0x20) || (r =? 0x09) || (r =? 0x0A) || (r =? 0x0B) || (r =? 0x0C) || (r =? 0x0D) || (r =? 0x85) || (r =? 0xA0)
  else if (0x2000 <=? r) && (r <=? 0x200A) then true
  else (r =? 0x1680) || (r =? 0x2028) || (r =? 0x2029) || (r =? 0x202F) || (r =? 0x205F) || (r =? 0x3000).

(** [for width := 0; start < len(data); start += width { .. }] *)
Definition skipSpaces (data : list Z) : res Z :=
  loop (S (length data))
    (fun start =>
       if start <? len data then
         let! rest := slice_from data start in
         let! '(r, width) := DecodeRune rest in
         if isSpace r then Ok (inl (start + width)) else Ok (inr start)
       else Ok (inr start)) 0.

(** [for width, i := 0, start; i < len(data); i += width { .. }]: the end of the
    word and the width of the space after it, if there is one. *)
Definition findSpace (data : list Z) (start : Z) : res (option (Z * Z)) :=
  loop (S (length data))
    (fun i =>
       if i <? len data then
         let! rest := slice_from data i in
         let! '(r, width) := DecodeRune rest in
         if isSpace r then Ok (inr (Some (i, width))) else Ok (inl (i + width))
       else Ok (inr None)) start.

Definition ScanWords : SplitFunc := fun data atEOF =>
  let! start := skipSpaces data in
  let! found := findSpace data start in
  match found with
  | Some (i, width) =>
      let! word := slice data start i in
      Ok (i + width, Some word, None)
  | None =>
      if atEOF && (len data >? start) then
        let! word := slice_from data start in
        Ok (len data, Some word, None)
      else Ok (start, None, None)
  end.
End Splits.

(** ** Scanner *)

Record Scanner (S : Type) := mkSc {
  sc_r : S;
  sc_split : SplitFunc;
  sc_max : Z;
  sc_token : option (list Z);
  sc_buf : list Z;
  sc_start : Z;
  sc_end : Z;
  sc_err : option ioError;
  sc_empties : Z;
  sc_called : bool;
  sc_done : bool;
}.
Arguments mkSc {S}.
Arguments sc_r {S}.
Arguments sc_split {S}.
Arguments sc_max {S}.
Arguments sc_token {S}.
Arguments sc_buf {S}.
Arguments sc_start {S}.
Arguments sc_end {S}.
Arguments sc_err {S}.
Arguments sc_empties {S}.
Arguments sc_called {S}.
Arguments sc_done {S}.

Section ScannerModel.
Context {S : Type} {RD : ioReader S} {BA : Bytealg}.
Implicit Types s : Scanner S.

Definition scSetBuf s (r : S) (buf : list Z) (start end_ : Z) : Scanner S :=
  mkSc r (sc_split s) (sc_max s) (sc_token s) buf start end_ (sc_err s) (sc_empties s) (sc_called s) (sc_done s).
Definition scSetToken s (token : option (list Z)) (empties : Z) (done : bool) : Scanner S :=
  mkSc (sc_r s) (sc_split s) (sc_max s) token (sc_buf s) (sc_start s) (sc_end s) (sc_err s) empties (sc_called s) done.
Definition scSetErr s (err : option ioError) : Scanner S :=
  mkSc (sc_r s) (sc_split s) (sc_max s) (sc_token s) (sc_buf s) (sc_start s) (sc_end s) err (sc_empties s) (sc_called s) (sc_done s).
Definition scSetCalled s : Scanner S :=
  mkSc (sc_r s) (sc_split s) (sc_max s) (sc_token s) (sc_buf s) (sc_start s) (sc_end s) (sc_err s) (sc_empties s) true (sc_done s).

Definition NewScanner (r : S) : Scanner S := mkSc r ScanLines MaxScanTokenSize None [] 0 0 None 0 false false.

Definition Err s : option ioError := if decide (sc_err s = Some EOF) then None else sc_err s.

Definition Scanner_Bytes s : option (list Z) := sc_token s.

Definition Text s : list Z := default [] (sc_token s).

Definition setErr_ s (err : ioError) : Scanner S :=
  if decide (sc_err s = None \/ sc_err s = Some EOF) then scSetErr s (Some err) else s.

Definition advance_ s (n : Z) : bool * Scanner S :=
  if n <? 0 then (false, setErr_ s ErrNegativeAdvance)
  else if n >? sc_end s - sc_start s then (false, setErr_ s ErrAdvanceTooFar)
  else (true, scSetBuf s (sc_r s) (sc_buf s) (sc_start s + n) (sc_end s)).

(** The attempt to get a token of what is in the buffer: [inr] when Scan returns. *)
Definition trySplit s : res (Scanner S + bool * Scanner S) :=
  if (sc_end s >? sc_start s) || bool_decide (sc_err s <> None) then
    let! data := slice (sc_buf s) (sc_start s) (sc_end s) in
    let! '(adv, token, err) := sc_split s data (bool_decide (sc_err s <> None)) in
    match err with
    | Some err =>
        if decide (err = ErrFinalToken) then
          Ok (inr (bool_decide (token <> None), scSetToken s token (sc_empties s) true))
        else Ok (inr (false, setErr_ s err))
    | None =>
        let '(ok, s) := advance_ s adv in
        if (ok : bool) then
          let s := scSetToken s token (sc_empties s) (sc_done s) in
          match token with
          | Some _ =>
              if bool_decide (sc_err s = None) || (adv >? 0) then Ok (inr (true, scSetToken s token 0 (sc_done s)))
              else
                let s := scSetToken s token (sc_empties s + 1) (sc_done s) in
                if sc_empties s >? maxConsecutiveEmptyReads then Panic else Ok (inr (true, s))
          | None => Ok (inl s)
          end
        else Ok (inr (false, s))
    end
  else Ok (inl s).

(** The data moves to the front when space is needed or half of it is free. *)
Definition shiftDown s : res (Scanner S) :=
  if (sc_start s >? 0) && ((sc_end s =? len (sc_buf s)) || (sc_start s >? Z.quot (len (sc_buf s)) 2)) then
    let! data := slice (sc_buf s) (sc_start s) (sc_end s) in
    let! '(buf, _) := copyTo (sc_buf s) 0 data in
    Ok (scSetBuf s (sc_r s) buf 0 (sc_end s - sc_start s))
  else Ok s.

(** A full buffer is replaced by a larger one: [inr] when it may not grow. *)
Definition growBuf s : res (Scanner S + bool * Scanner S) :=
  if sc_end s =? len (sc_buf s) then
    if (len (sc_buf s) >=? sc_max s) || (len (sc_buf s) >? Z.quot scanMaxInt 2) then Ok (inr (false, setErr_ s ErrTooLong)) else
    let newSize := len (sc_buf s) * 2 in
    let newSize := if newSize =? 0 then startBufSize else newSize in
    let newSize := Z.min newSize (sc_max s) in
    let! data := slice (sc_buf s) (sc_start s) (sc_end s) in
    let! '(buf, _) := copyTo (replicate (Z.to_nat newSize) 0) 0 data in
    Ok (inl (scSetBuf s (sc_r s) buf 0 (sc_end s - sc_start s)))
  else Ok (inl s).

Definition readBuf s : res (Scanner S) :=
  loop (Datatypes.S (Datatypes.S (Z.to_nat maxConsecutiveEmptyReads)))
    (fun '(count, s) =>
       let! p := slice (sc_buf s) (sc_end s) (len (sc_buf s)) in
       let '(p', n, err, r) := doRead (sc_r s) p in
       let s := scSetBuf s r (take (Z.to_nat (sc_end s)) (sc_buf s) ++ p') (sc_start s) (sc_end s) in
       if (n <? 0) || (len (sc_buf s) - sc_end s <? n) then Ok (inr (setErr_ s ErrBadReadCount)) else
       let s := scSetBuf s (sc_r s) (sc_buf s) (sc_start s) (sc_end s + n) in
       match err with
       | Some err => Ok (inr (setErr_ s err))
       | None =>
           if n >? 0 then Ok (inr (scSetToken s (sc_token s) 0 (sc_done s))) else
           let count := count + 1 in
           if count >? maxConsecutiveEmptyReads then Ok (inr (setErr_ s ErrNoProgress)) else Ok (inl (count, s))
       end) (0, s).

(** One round of Scan. *)
Definition scanStep s : res (Scanner S + bool * Scanner S) :=
  let! r := trySplit s in
  match r with
  | inr out => Ok (inr out)
  | inl s =>
      if decide (sc_err s <> None) then Ok (inr (false, scSetBuf s (sc_r s) (sc_buf s) 0 0)) else
      let! s := shiftDown s in
      let! r := growBuf s in
      match r with
      | inr out => Ok (inr out)
      | inl s => let! s := readBuf s in Ok (inl s)
      end
  end.

(** [fuel]: rounds, each of which reads. *)
Definition Scan (fuel : nat) s : res (bool * Scanner S) :=
  if sc_done s then Ok (false, s) else loop fuel scanStep (scSetCalled s).

(** [buf]: the buffer up to its capacity. *)
Definition Scanner_Buffer s (buf : list Z) (max : Z) : res (Scanner S) :=
  if sc_called s then Panic else
  Ok (mkSc (sc_r s) (sc_split s) max (sc_token s) buf (sc_start s) (sc_end s) (sc_err s) (sc_empties s) (sc_called s) (sc_done s)).

Definition Scanner_Split s (split : SplitFunc) : res (Scanner S) :=
  if sc_called s then Panic else
  Ok (mkSc (sc_r s) split (sc_max s) (sc_token s) (sc_buf s) (sc_start s) (sc_end s) (sc_err s) (sc_empties s) (sc_called s) (sc_done s)).
End ScannerModel.
