(* ===== verification/ScannerCorrect.v ===== *)
(** * bufio: a Scanner delivers the tokens of its source

    A split function that decides on a part of the data as it does on all of it
    ([SplitLaws]) cuts the data into the same tokens, in whatever pieces it comes
    and however the buffer grows. *)
From Stdlib Require Import ZArith Lia.
From stdpp Require Import base numbers list.
From S2P Require Import Prelude Utf8 Bufio BufioReader BufioWriter Scanner.

(** What a Scanner needs of a split function: it answers within the data; a token
    advances; a token found early is the token of the longer data, and what it
    skips does not matter. *)
Class SplitLaws (split : SplitFunc) : Prop := {
  split_total d eof : bytes_ok d -> d <> [] \/ eof = true ->
    exists adv token, split d eof = Ok (adv, token, None) /\ 0 <= adv <= len d /\ (token <> None -> 0 < adv);
  split_token d adv t more eof : bytes_ok (d ++ more) -> d <> [] -> split d false = Ok (adv, Some t, None) ->
    split (d ++ more) eof = Ok (adv, Some t, None);
  split_more d adv more adv' token : bytes_ok (d ++ more) -> d <> [] -> split d false = Ok (adv, None, None) ->
    split (drop (Z.to_nat adv) d ++ more) true = Ok (adv', token, None) ->
    split (d ++ more) true = Ok (adv + adv', token, None);
}.

(** The tokens of all the data. *)
Inductive tokenizes (split : SplitFunc) : list Z -> list (list Z) -> Prop :=
| tokens_end d adv : split d true = Ok (adv, None, None) -> tokenizes split d []
| tokens_next d adv t ts : split d true = Ok (adv, Some t, None) -> tokenizes split (drop (Z.to_nat adv) d) ts ->
    tokenizes split d (t :: ts).

Lemma bytes_ok_front (d more : list Z) : bytes_ok (d ++ more) -> bytes_ok d.
Proof. by intros [? _]%Forall_app. Qed.

Section Tokens.
Context {split : SplitFunc} {SL : SplitLaws split}.

Lemma tokens_of_token d more adv t toks :
  bytes_ok (d ++ more) -> d <> [] -> split d false = Ok (adv, Some t, None) -> tokenizes split (d ++ more) toks ->
  exists ts, toks = t :: ts /\ tokenizes split (drop (Z.to_nat adv) d ++ more) ts.
Proof.
  intros Hok Hne Hs Ht. pose proof (split_token d adv t more true Hok Hne Hs) as Hs'.
  destruct (split_total d false (bytes_ok_front _ _ Hok) (or_introl Hne)) as (adv0 & tok0 & E & Hadv & _).
  rewrite E in Hs. injection Hs as -> ->. inversion Ht as [? adv' E' E1 E2|? adv' t' ts E' Ht' E1 E2]; subst; rewrite Hs' in E'; simplify_eq.
  exists ts. split; [done|]. rewrite drop_app_le in Ht' by (unfold len in Hadv; lia). done.
Qed.

Lemma tokens_of_more d more adv toks :
  bytes_ok (d ++ more) -> d <> [] -> split d false = Ok (adv, None, None) -> tokenizes split (d ++ more) toks ->
  tokenizes split (drop (Z.to_nat adv) d ++ more) toks.
Proof.
  intros Hok Hne Hs Ht. destruct (split_total d false (bytes_ok_front _ _ Hok) (or_introl Hne)) as (adv0 & tok0 & E & Hadv & _).
  rewrite E in Hs. injection Hs as -> ->.
  assert (Hok' : bytes_ok (drop (Z.to_nat adv) d ++ more)).
  { apply Forall_app in Hok as [? ?]. apply Forall_app. split; [by apply Forall_drop | done]. }
  destruct (split_total _ true Hok' (or_intror eq_refl)) as (adv' & token & E' & Hadv' & _).
  pose proof (split_more _ _ _ _ _ Hok Hne E E') as Hall.
  inversion Ht as [? adv2 E2 F1 F2|? adv2 t2 ts E2 Ht' F1 F2]; subst; rewrite Hall in E2; simplify_eq; [by eapply tokens_end|].
  eapply tokens_next; [exact E'|]. rewrite Z2Nat.inj_add, <- drop_drop, drop_app_le in Ht' by (unfold len in *; lia). done.
Qed.

Lemma tokens_total d : bytes_ok d -> exists ts, tokenizes split d ts.
Proof.
  induction d as [d IH] using (induction_ltof1 _ length). unfold ltof in IH. intros Hok.
  destruct (split_total d true Hok (or_intror eq_refl)) as (adv & [t|] & E & Hadv & Hpos); [|by exists []; eapply tokens_end].
  specialize (Hpos ltac:(done)). destruct (IH (drop (Z.to_nat adv) d)) as [ts Hts].
  - rewrite length_drop. unfold len in *. lia.
  - by apply Forall_drop.
  - exists (t :: ts). by eapply tokens_next.
Qed.

Lemma tokens_unique d ts ts' : tokenizes split d ts -> tokenizes split d ts' -> ts = ts'.
Proof.
  intros H. revert ts'. induction H as [d adv E|d adv t ts E _ IH]; intros ts' H';
    inversion H' as [? ? E'|? ? ? ? E' Ht]; subst; rewrite E in E'; simplify_eq; [done|]. f_equal. by apply IH.
Qed.
End Tokens.

Section Scanning.
Context {S : Type} {RD : ioReader S} {SR : Source S}.
Implicit Types s : Scanner S.

Definition window s : list Z := take (Z.to_nat (sc_end s - sc_start s)) (drop (Z.to_nat (sc_start s)) (sc_buf s)).
Definition squeue s : list Z := window s ++ dataOf (sc_r s).

Record sinv s : Prop := {
  si_pos : 0 <= sc_start s <= sc_end s;
  si_cap : sc_end s <= len (sc_buf s);
  si_err : sc_err s = None \/ (sc_err s = Some (finalOf (sc_r s)) /\ dataOf (sc_r s) = []);
  si_bytes : bytes_ok (window s);
  si_done : sc_done s = false;
}.

Definition sameConfig s s' : Prop :=
  sc_split s' = sc_split s /\ sc_max s' = sc_max s /\ finalOf (sc_r s') = finalOf (sc_r s).

Lemma sameConfig_trans s s1 s2 : sameConfig s s1 -> sameConfig s1 s2 -> sameConfig s s2.
Proof. unfold sameConfig. intuition congruence. Qed.

Lemma window_len s : sinv s -> len (window s) = sc_end s - sc_start s.
Proof. intros []. unfold window. rewrite len_take_to; [done|]. rewrite len_drop_to; lia. Qed.

Lemma window_slice s : sinv s -> slice (sc_buf s) (sc_start s) (sc_end s) = Ok (window s).
Proof. intros []. by rewrite slice_Ok by lia. Qed.

Lemma squeue_ok s : sinv s -> bytes_ok (squeue s).
Proof. intros []. apply Forall_app. split; [done | apply dataOf_ok]. Qed.

(** A state with the window [l] at the front. *)
Lemma moved_window s buf l rest :
  sinv s -> l = window s -> buf = l ++ rest ->
  let s' := scSetBuf s (sc_r s) buf 0 (sc_end s - sc_start s) in
  sinv s' /\ window s' = window s /\ sameConfig s s'.
Proof.
  intros Hs -> -> s'. pose proof (window_len s Hs) as Hl. pose proof Hs as [].
  assert (Hw : window s' = window s).
  { unfold window at 1. simpl. rewrite drop_0, Z.sub_0_r, <- Hl. unfold len. rewrite Nat2Z.id. apply take_app_length. }
  split; [|done]. constructor; simpl; try done; try lia; [|by rewrite Hw].
  rewrite len_app, Hl. pose proof (len_nonneg rest). lia.
Qed.

Lemma copyTo_front (dst data : list Z) :
  len data <= len dst -> copyTo dst 0 data = Ok (data ++ drop (length data) dst, len data).
Proof.
  intros H. unfold copyTo. rewrite slice_from_Ok by (pose proof (len_nonneg dst); lia). cbn [rbind].
  change (Z.to_nat 0) with 0%nat. rewrite take_0, drop_0, Nat.min_r by (unfold len in H; lia). by rewrite take_ge by lia.
Qed.

Lemma shiftDown_spec s :
  sinv s -> shiftDown s ⇓ fun s' => sinv s' /\ window s' = window s /\ sc_r s' = sc_r s /\ sameConfig s s' /\ sc_err s' = sc_err s /\
    (sc_end s' = len (sc_buf s') -> s' = s /\ sc_start s = 0).
Proof.
  intros Hs. pose proof (window_len s Hs) as Hl. pose proof Hs as []. unfold shiftDown.
  destruct (Z.gtb_spec (sc_start s) 0) as [G|G]; cbn [andb].
  - destruct ((sc_end s =? len (sc_buf s)) || (sc_start s >? Z.quot (len (sc_buf s)) 2)) eqn:E.
    + rewrite window_slice by done. cbn [rbind]. rewrite copyTo_front by lia. cbn [rbind returns].
      destruct (moved_window s _ _ (drop (length (window s)) (sc_buf s)) Hs eq_refl eq_refl) as (? & ? & ?). split_and!; try done.
      simpl. rewrite len_app. unfold len at 2. rewrite length_drop. unfold len in *. lia.
    + simpl. split_and!; try done. intros Ee. apply orb_false_iff in E as [E _]. lia.
  - simpl. split_and!; try done. intros _. split; [done | lia].
Qed.

(** The buffer has room, or is as large as it may be. *)
Lemma growBuf_spec s :
  sinv s -> (sc_end s = len (sc_buf s) -> sc_start s = 0) ->
  growBuf s ⇓ fun r => match r with
    | inl s' => sinv s' /\ window s' = window s /\ sc_r s' = sc_r s /\ sameConfig s s' /\ sc_err s' = sc_err s /\
        sc_end s' < len (sc_buf s')
    | inr (ok, s') => ok = false /\ s' = setErr_ s ErrTooLong /\ sc_end s = len (sc_buf s) /\ Z.min (sc_max s) (2 ^ 62) <= len (window s)
    end.
Proof.
  intros Hs Hfull. pose proof (window_len s Hs) as Hl. pose proof Hs as []. unfold growBuf.
  destruct (Z.eqb_spec (sc_end s) (len (sc_buf s))) as [E|E]; [|simpl; split_and!; try done; lia].
  specialize (Hfull E). change (Z.quot scanMaxInt 2) with (2 ^ 62 - 1).
  destruct (Z.geb_spec (len (sc_buf s)) (sc_max s)) as [G|G]; cbn [orb].
  { simpl. split_and!; try done. lia. }
  destruct (Z.gtb_spec (len (sc_buf s)) (2 ^ 62 - 1)) as [G2|G2].
  { simpl. split_and!; try done. lia. }
  set (n2 := if _ =? 0 then _ else _). assert (Hn : len (sc_buf s) < Z.min n2 (sc_max s)).
  { unfold n2. change startBufSize with 4096. pose proof (len_nonneg (sc_buf s)). destruct (Z.eqb_spec (len (sc_buf s) * 2) 0); lia. }
  rewrite window_slice by done. cbn [rbind].
  assert (Hr : len (replicate (Z.to_nat (Z.min n2 (sc_max s))) 0) = Z.min n2 (sc_max s)).
  { unfold len. rewrite length_replicate. pose proof (len_nonneg (sc_buf s)). lia. }
  rewrite copyTo_front by lia. cbn [rbind returns].
  destruct (moved_window s _ _ (drop (length (window s)) (replicate (Z.to_nat (Z.min n2 (sc_max s))) 0)) Hs eq_refl eq_refl) as (? & ? & ?).
  split_and!; try done. simpl. rewrite len_app, Hl. unfold len at 1. rewrite length_drop. unfold len in *. lia.
Qed.

(** A read gives a byte or the error. *)
Lemma readBuf_spec s :
  sinv s -> sc_err s = None -> sc_end s < len (sc_buf s) ->
  readBuf s ⇓ fun s' => sinv s' /\ squeue s' = squeue s /\ sameConfig s s' /\
    (sc_err s' <> None \/ len (dataOf (sc_r s')) < len (dataOf (sc_r s))).
Proof.
  intros Hs He Hroom. unfold readBuf. change maxConsecutiveEmptyReads with 100.
  apply (loop_returns (fun '(count, s1) => 0 <= count <= 100 /\ stallOf (sc_r s1) < 100 - count /\ sinv s1 /\ squeue s1 = squeue s /\
    sameConfig s s1 /\ sc_err s1 = None /\ sc_end s1 < len (sc_buf s1) /\ dataOf (sc_r s1) = dataOf (sc_r s)) (fun '(count, _) => 100 - count)).
  - intros [count s1] (Hc & Hst & Hs1 & Hq1 & (C1 & C2 & C3) & He1 & Hr1 & Hd1). pose proof Hs1 as [Hp Hcap _ Hok Hdone].
    pose proof (stallOf_range (sc_r s1)). pose proof (window_len _ Hs1) as Hl.
    rewrite slice_Ok by lia. cbn [rbind]. rewrite take_ge by (rewrite length_drop; unfold len in *; lia).
    pose proof (len_drop_to (sc_end s1) (sc_buf s1) ltac:(lia)) as HD. pose proof (len_take_to (sc_end s1) (sc_buf s1) ltac:(lia)) as HT.
    destruct (doRead_spec (sc_r s1) (drop (Z.to_nat (sc_end s1)) (sc_buf s1))) as (chunk & rest & err & r2 & -> & Hlen & Hd2 & Hf2 & Herr & Hst2).
    { intros E. rewrite E in HD. unfold len in *. simpl in *. lia. }
    rewrite len_app in Hlen. pose proof (len_nonneg chunk). pose proof (len_nonneg rest).
    cbn [sc_buf sc_end scSetBuf sc_r sc_start sc_token sc_done].
    assert (HL : len (take (Z.to_nat (sc_end s1)) (sc_buf s1) ++ chunk ++ rest) = len (sc_buf s1)) by (rewrite !len_app; lia).
    rewrite HL. destruct (Z.ltb_spec (len chunk) 0); [lia|]. destruct (Z.ltb_spec (len (sc_buf s1) - sc_end s1) (len chunk)); [lia|]. cbn [orb].
    set (s2 := scSetBuf _ _ _ _ _).
    assert (Hw : window s2 = window s1 ++ chunk).
    { unfold window. simpl. rewrite drop_app_le by (rewrite length_take; unfold len in *; lia). rewrite skipn_firstn_comm.
      rewrite (assoc_L app), take_app_le by (rewrite length_app, length_take, length_drop; unfold len in *; lia).
      rewrite take_ge by (rewrite length_app, length_take, length_drop; unfold len in *; lia). do 2 f_equal. lia. }
    assert (Hq2 : squeue s2 = squeue s) by (rewrite <- Hq1; unfold squeue; rewrite Hw, <- (assoc_L app); simpl; by rewrite <- Hd2).
    assert (Hok2 : bytes_ok (window s2)).
    { pose proof (squeue_ok s Hs) as Hall. rewrite <- Hq2 in Hall. by apply Forall_app in Hall as [? _]. }
    assert (Hs2 : forall e t k, e = None \/ (e = Some (finalOf r2) /\ dataOf r2 = []) -> sinv (scSetErr (scSetToken s2 t k (sc_done s2)) e)).
    { intros e t k Hcase. constructor; simpl; try done; try lia. }
    destruct err as [e|].
    + destruct Herr as [|[[= ->] Hnil]]; [done|]. unfold setErr_. rewrite decide_True by (left; exact He1). cbn [returns].
      split_and!; try done.
      * replace (scSetErr s2 _) with (scSetErr (scSetToken s2 (sc_token s2) (sc_empties s2) (sc_done s2)) (Some (finalOf (sc_r s1)))) by done.
        apply Hs2. right. by rewrite Hf2.
      * unfold sameConfig. simpl. split_and!; congruence.
      * by left.
    + destruct (Z.gtb_spec (len chunk) 0) as [G|G]; cbn [returns].
      * split_and!; try done.
        -- replace (scSetToken s2 _ _ _) with (scSetErr (scSetToken s2 (sc_token s2) 0 (sc_done s2)) None) by (unfold scSetErr, scSetToken, s2, scSetBuf; simpl; by rewrite He1).
           apply Hs2. by left.
        -- unfold sameConfig. simpl. split_and!; congruence.
        -- right. simpl. rewrite <- Hd1, Hd2, len_app. lia.
      * assert (chunk = []) as -> by (apply len_zero_inv; lia). specialize (Hst2 eq_refl eq_refl).
        destruct (Z.gtb_spec (count + 1) 100); [lia|]. cbn [returns]. split; [|lia].
        split_and!; try done; try (simpl; lia).
        -- replace s2 with (scSetErr (scSetToken s2 (sc_token s2) (sc_empties s2) (sc_done s2)) None) by (unfold scSetErr, scSetToken, s2, scSetBuf; simpl; by rewrite He1).
           apply Hs2. by left.
        -- unfold sameConfig. simpl. split_and!; congruence.
        -- unfold s2. cbn [scSetBuf sc_end sc_buf]. rewrite HL. change (len (@nil Z)) with 0. lia.
        -- rewrite <- Hd1. symmetry. exact Hd2.
  - pose proof (stallOf_range (sc_r s)). split_and!; try done; try lia.
  - lia.
  - lia.
Qed.
End Scanning.

Section Delivering.
Context {S : Type} {RD : ioReader S} {SR : Source S} {split : SplitFunc} {SL : SplitLaws split}.
Implicit Types s : Scanner S.

Lemma advance_spec s adv token k :
  sinv s -> 0 <= adv <= len (window s) ->
  advance_ s adv = (true, scSetBuf s (sc_r s) (sc_buf s) (sc_start s + adv) (sc_end s)) /\
  let s' := scSetToken (scSetBuf s (sc_r s) (sc_buf s) (sc_start s + adv) (sc_end s)) token k (sc_done s) in
  sinv s' /\ window s' = drop (Z.to_nat adv) (window s) /\ sameConfig s s'.
Proof.
  intros Hs Hadv. rewrite window_len in Hadv by done. pose proof Hs as []. unfold advance_.
  destruct (Z.ltb_spec adv 0); [lia|]. destruct (Z.gtb_spec adv (sc_end s - sc_start s)); [lia|]. split; [done|].
  set (s' := scSetToken _ _ _ _).
  assert (Hw : window s' = drop (Z.to_nat adv) (window s)).
  { unfold window, s'. simpl. rewrite skipn_firstn_comm, drop_drop. f_equal; [lia|]. f_equal. lia. }
  split; [|done]. constructor; unfold s'; simpl; try done; try lia. fold s'. rewrite Hw. by apply Forall_drop.
Qed.

(** [s'] has the next token of [s]. *)
Definition delivers s toks s' : Prop :=
  sinv s' /\ sameConfig s s' /\ exists t ts pre, toks = t :: ts /\ sc_token s' = Some t /\ tokenizes split (squeue s') ts /\
    pre <> [] /\ squeue s = pre ++ squeue s'.

Definition splitResult s toks (r : Scanner S + bool * Scanner S) : Prop :=
  match r with
  | inl s' => sinv s' /\ sameConfig s s' /\ sc_err s' = sc_err s /\ sc_r s' = sc_r s /\
      (sc_err s <> None -> toks = []) /\ (sc_err s = None -> tokenizes split (squeue s') toks) /\
      (exists pre, squeue s = pre ++ squeue s') /\
      (window s' <> [] -> sc_err s = None -> sc_start s' = 0 -> split (window s') false = Ok (0, None, None))
  | inr (ok, s') => ok = true /\ delivers s toks s'
  end.

(** What happens to the answer of the split function. *)
Lemma trySplit_answer s toks adv token :
  sinv s -> sc_split s = split -> window s <> [] \/ sc_err s <> None ->
  split (window s) (bool_decide (sc_err s <> None)) = Ok (adv, token, None) ->
  0 <= adv <= len (window s) -> (token <> None -> 0 < adv) ->
  match token with
  | Some t => exists ts, toks = t :: ts /\ tokenizes split (drop (Z.to_nat adv) (window s) ++ dataOf (sc_r s)) ts
  | None => (sc_err s <> None -> toks = []) /\
      (sc_err s = None -> tokenizes split (drop (Z.to_nat adv) (window s) ++ dataOf (sc_r s)) toks)
  end ->
  trySplit s ⇓ splitResult s toks.
Proof.
  intros Hs Hsp Hcall Es Hadv Hpos Htoks. pose proof (window_len s Hs) as Hl. unfold trySplit.
  assert (Hgo : (sc_end s >? sc_start s) || bool_decide (sc_err s <> None) = true).
  { destruct Hcall as [Hw|He]; [|by rewrite bool_decide_eq_true_2, orb_true_r]. destruct (Z.gtb_spec (sc_end s) (sc_start s)); [done|].
    exfalso. apply Hw, len_zero_inv. pose proof (si_pos _ Hs). lia. }
  rewrite Hgo, window_slice by done. cbn [rbind]. rewrite Hsp, Es. cbn [rbind].
  destruct (advance_spec s adv token 0 Hs Hadv) as [-> (Hs1 & Hw1 & Hc1)]. cbv zeta beta iota.
  set (s1 := scSetBuf s (sc_r s) (sc_buf s) (sc_start s + adv) (sc_end s)) in *.
  assert (Hq : squeue s = take (Z.to_nat adv) (window s) ++ drop (Z.to_nat adv) (window s) ++ dataOf (sc_r s)).
  { unfold squeue. by rewrite (assoc_L app), take_drop. }
  assert (Hq1 : forall k, squeue (scSetToken s1 token k (sc_done s1)) = drop (Z.to_nat adv) (window s) ++ dataOf (sc_r s)).
  { intros k. unfold squeue. rewrite <- Hw1. done. }
  destruct token as [t|].
  - specialize (Hpos ltac:(done)). rewrite (proj2 (Z.gtb_lt adv 0)), orb_true_r by lia. cbn [returns].
    destruct Htoks as (ts & -> & Hts). split; [done|]. split; [done|]. split; [done|].
    exists t, ts, (take (Z.to_nat adv) (window s)). split_and!; try done.
    + rewrite <- (Hq1 0) in Hts. exact Hts.
    + intros E. apply (f_equal len) in E. rewrite len_take_to in E by done. change (len (@nil Z)) with 0 in E. lia.
    + rewrite Hq at 1. rewrite <- (Hq1 0). done.
  - cbn [returns]. destruct Htoks as [He Hm]. rewrite <- (Hq1 (sc_empties s1)) in Hq, Hm. split_and!; try done; [by destruct Hs1 | by eexists|].
    + intros Hne E H0. simpl in H0. pose proof (si_pos _ Hs). assert (adv = 0) as -> by lia.
      change (window _) with (window (scSetToken s1 None 0 (sc_done s))). rewrite Hw1, drop_0. rewrite E in Es. exact Es.
Qed.

(** A token of what is there, or none yet, or the end. *)
Lemma trySplit_spec s toks :
  sinv s -> sc_split s = split -> tokenizes split (squeue s) toks -> trySplit s ⇓ splitResult s toks.
Proof.
  intros Hs Hsp Ht. pose proof (window_len s Hs) as Hl. pose proof (squeue_ok s Hs) as Hok.
  destruct (decide (sc_err s = None)) as [E|E].
  - destruct (decide (window s = [])) as [Ew|Hne].
    + unfold trySplit. rewrite Ew in Hl. change (len (@nil Z)) with 0 in Hl.
      destruct (Z.gtb_spec (sc_end s) (sc_start s)); [lia|]. rewrite bool_decide_eq_false_2 by tauto. simpl.
      split_and!; try done. by exists [].
    + destruct (split_total (window s) false ltac:(apply Hs) ltac:(by left)) as (adv & token & Es & Hadv & Hpos).
      apply (trySplit_answer s toks adv token); try done; [by left | by rewrite bool_decide_eq_false_2 by tauto|].
      destruct token as [t|]; [by eapply tokens_of_token|]. split; [done|]. intros _. by eapply tokens_of_more.
  - assert (Hd : dataOf (sc_r s) = []) by (destruct (si_err _ Hs) as [?|[_ ?]]; done).
    unfold squeue in Ht. rewrite Hd, app_nil_r in Ht.
    destruct (split_total (window s) true ltac:(apply Hs) ltac:(by right)) as (adv & token & Es & Hadv & Hpos).
    apply (trySplit_answer s toks adv token); try done; [by right | by rewrite bool_decide_eq_true_2|].
    rewrite Hd, app_nil_r. inversion Ht as [? ? E'|? ? ? ? E' Ht']; subst; rewrite Es in E'; simplify_eq; [done | eauto].
Qed.

(** Scan stops: all is delivered, or a stretch as long as a buffer may be has no
    token. *)
Definition stops s (toks : list (list Z)) s' : Prop :=
  finalOf (sc_r s') = finalOf (sc_r s) /\
  ((toks = [] /\ sc_err s' = Some (finalOf (sc_r s))) \/
   (sc_err s' = Some ErrTooLong /\ exists pre d post, squeue s = pre ++ d ++ post /\
      Z.min (sc_max s) (2 ^ 62) <= len d /\ (d = [] \/ split d false = Ok (0, None, None)))).

Lemma scanStep_spec s toks :
  sinv s -> sc_split s = split -> tokenizes split (squeue s) toks ->
  scanStep s ⇓ fun r => match r with
    | inl s' => sinv s' /\ sameConfig s s' /\ tokenizes split (squeue s') toks /\ (exists pre, squeue s = pre ++ squeue s') /\
        (sc_err s = None /\ (sc_err s' <> None \/ len (dataOf (sc_r s')) < len (dataOf (sc_r s))))
    | inr (true, s') => delivers s toks s'
    | inr (false, s') => stops s toks s'
    end.
Proof.
  intros Hs Hsp Ht. unfold scanStep. eapply returns_bind_mono; [by apply trySplit_spec|].
  intros [s1|[ok s1]]; [|by intros [-> ?]]. intros (Hs1 & Hc1 & He1 & Hr1 & Hend & Hmore & (pre & Hpre) & Hstuck).
  destruct (decide (sc_err s1 <> None)) as [E|E].
  { rewrite He1 in E. simpl. split; [simpl; by rewrite Hr1|]. left. split; [by apply Hend|]. simpl. rewrite He1.
    destruct (si_err _ Hs) as [?|[? _]]; done. }
  rewrite He1 in E. assert (E0 : sc_err s = None) by (destruct (sc_err s); [by destruct E | done]). specialize (Hmore E0).
  eapply returns_bind_mono; [by apply shiftDown_spec|]. intros s2 (Hs2 & Hw2 & Hr2 & Hc2 & He2 & Hfull).
  eapply returns_bind_mono; [apply growBuf_spec; [done | intros Hf; by destruct (Hfull Hf) as [-> ?]]|]. intros [s3|[ok s3]].
  - intros (Hs3 & Hw3 & Hr3 & Hc3 & He3 & Hroom). eapply returns_bind_mono; [apply readBuf_spec; [done | congruence | done]|].
    intros s4 (Hs4 & Hq4 & Hc4 & Hprog). simpl.
    assert (Hq : squeue s4 = squeue s1) by (rewrite Hq4; unfold squeue; by rewrite Hw3, Hw2, Hr3, Hr2).
    rewrite Hq. split_and!; try done.
    + eapply sameConfig_trans; [|exact Hc4]. eapply sameConfig_trans; [|exact Hc3]. by eapply sameConfig_trans.
    + by exists pre.
    + by rewrite <- Hr1, <- Hr2, <- Hr3.
  - intros (-> & -> & H0 & Hlong). destruct (Hfull H0) as [-> Hz]. simpl. unfold setErr_. rewrite decide_True by (left; congruence). split.
    { simpl. by rewrite Hr1. }
    right. split; [done|]. exists pre, (window s1), (dataOf (sc_r s1)). split; [done|].
    destruct Hc1 as (_ & Hm1 & _). split; [by rewrite <- Hm1|].
    destruct (decide (window s1 = [])) as [|Hne]; [by left | right]. by apply Hstuck.
Qed.

Definition roundsLeft s : Z := match sc_err s with None => 1 + len (dataOf (sc_r s)) | Some _ => 0 end.

Lemma Scan_spec fuel s toks :
  sinv s -> sc_split s = split -> tokenizes split (squeue s) toks -> roundsLeft s < Z.of_nat fuel ->
  Scan fuel s ⇓ fun '(ok, s') => if ok : bool then delivers s toks s' else stops s toks s'.
Proof.
  intros Hs Hsp Ht Hf. unfold Scan. rewrite (si_done _ Hs). set (s0 := scSetCalled s).
  assert (Hs0 : sinv s0) by (by destruct Hs). change (squeue s) with (squeue s0) in Ht.
  eapply (returns_mono _ (fun '(ok, s') => if ok : bool then delivers s0 toks s' else stops s0 toks s')).
  2: { by intros [[|] s']. }
  apply (loop_returns (fun s1 => sinv s1 /\ sameConfig s0 s1 /\ tokenizes split (squeue s1) toks /\ exists pre, squeue s0 = pre ++ squeue s1)
    roundsLeft).
  - intros s1 (Hs1 & Hc1 & Ht1 & pre & Hpre). pose proof Hc1 as (C1 & C2 & C3).
    eapply returns_mono; [apply (scanStep_spec s1 toks); try done; by rewrite C1|]. intros [s2|[[|] s2]].
    + intros (Hs2 & Hc2 & Ht2 & (pre' & Hpre') & He & Hprog). split.
      * split; [done|]. split; [by eapply sameConfig_trans|]. split; [done|]. exists (pre ++ pre').
        by rewrite Hpre, Hpre', (assoc_L app).
      * unfold roundsLeft. rewrite He. pose proof (len_nonneg (dataOf (sc_r s1))). pose proof (len_nonneg (dataOf (sc_r s2))).
        destruct (sc_err s2); [lia|]. destruct Hprog; [done | lia].
    + intros (Hs2 & Hc2 & t & ts & pre' & ? & ? & ? & Hne & Hq). split; [done|]. split; [by eapply sameConfig_trans|].
      exists t, ts, (pre ++ pre'). split_and!; try done.
      * intros E. by apply app_eq_nil in E as [_ ?].
      * by rewrite Hpre, Hq, (assoc_L app).
    + intros (Hf2 & Hcase). split; [congruence|]. destruct Hcase as [[-> He]|(He & p & d & post & Hq & Hlen & Hd)].
      * left. split; [done|]. congruence.
      * right. split; [done|]. exists (pre ++ p), d, post. split; [by rewrite Hpre, Hq, (assoc_L app)|]. by rewrite <- C2.
  - split; [done|]. split; [done|]. split; [done|]. by exists [].
  - exact Hf.
  - unfold roundsLeft. destruct (sc_err s0); [lia|]. pose proof (len_nonneg (dataOf (sc_r s0))). lia.
Qed.
End Delivering.
