(* ===== verification/ScannerSplits.v ===== *)
(** * bufio: the split functions

    ScanBytes, ScanRunes, ScanLines and ScanWords decide on a part of the data as
    they do on all of it, and cut it into its bytes, runes, lines and words. *)
From Stdlib Require Import ZArith Lia.
From stdpp Require Import base numbers list.
From S2P Require Import Prelude Utf8 Bufio BufioReader BufioWriter Scanner ScannerCorrect.

(** ** Bytes *)

#[global] Instance ScanBytes_laws : SplitLaws ScanBytes.
Proof.
  assert (Hs : forall x l eof, ScanBytes (x :: l) eof = Ok (1, Some [x], None)).
  { intros x l eof. unfold ScanBytes. pose proof (len_nonneg l). rewrite (proj2 (Z.eqb_neq (len (x :: l)) 0)) by (rewrite len_cons; lia).
    rewrite andb_false_r, slice_Ok by (rewrite ?len_cons; lia). done. }
  constructor.
  - intros [|x l] eof _ Hc.
    + destruct Hc as [?| ->]; [done|]. exists 0, None. split; [done|]. change (len (@nil Z)) with 0. split; [lia | done].
    + exists 1, (Some [x]). rewrite Hs, len_cons. pose proof (len_nonneg l). split; [done|]. split; [lia | done].
  - intros [|x l] adv t more eof _ Hne; [done|]. cbn [app]. by rewrite !Hs.
  - intros [|x l] adv more adv' token _ Hne; [done|]. by rewrite Hs.
Qed.

Lemma ScanBytes_tokens d : tokenizes ScanBytes d (map (fun x => [x]) d).
Proof.
  induction d as [|x d IH]; simpl; [by eapply tokens_end|]. eapply (tokens_next _ _ 1); [|exact IH].
  unfold ScanBytes. pose proof (len_nonneg d). rewrite (proj2 (Z.eqb_neq (len (x :: d)) 0)) by (rewrite len_cons; lia).
  cbn [andb]. rewrite slice_Ok by (rewrite ?len_cons; lia). done.
Qed.

(** ** Runes *)

(** A rune of more than one byte, and any rune but the error, is full. *)
Lemma decode_wide_full p : 1 < snd (decode_ref p) -> full_ref p = true.
Proof.
  destruct p as [|b0 t]; [done|]. unfold decode_ref, full_ref. destruct (Z.ltb_spec b0 0x80); [simpl; lia|].
  destruct (between 0xC2 0xDF b0); [by destruct t; [simpl; lia|]|].
  destruct (between 0xE0 0xEF b0); [by destruct t as [|? [|? t]]; [simpl; lia | simpl; lia|]|].
  destruct (between 0xF0 0xF4 b0); [|by simpl; lia]. by destruct t as [|? [|? [|? t]]]; [simpl; lia | simpl; lia | simpl; lia|].
Qed.

Lemma decode_good_full p : p <> [] -> decode_ref p <> (RuneError, 1) -> full_ref p = true.
Proof.
  destruct p as [|b0 t]; [done|]. intros _ Hgood. unfold decode_ref, full_ref in *. destruct (Z.ltb_spec b0 0x80).
  { unfold between. destruct (Z.leb_spec 0xC2 b0), (Z.leb_spec 0xE0 b0), (Z.leb_spec 0xF0 b0); try lia. done. }
  destruct (between 0xC2 0xDF b0); [by destruct t|]. destruct (between 0xE0 0xEF b0); [by destruct t as [|? [|? t]]|].
  destruct (between 0xF0 0xF4 b0); [|done]. by destruct t as [|? [|? [|? t]]].
Qed.

Lemma full_ref_app p x : full_ref p = true -> full_ref (p ++ x) = true.
Proof.
  destruct p as [|b0 t]; [done|]. unfold full_ref. cbn [app]. destruct (between 0xC2 0xDF b0); [by destruct t|].
  destruct (between 0xE0 0xEF b0); [destruct t as [|b1 [|b2 t]]; [done|by destruct x|done]|].
  destruct (between 0xF0 0xF4 b0); [|done].
  destruct t as [|b1 [|b2 [|b3 t]]]; [done| | |done]; intros H; destruct x as [|x1 [|x2 x]]; cbn [app]; try done;
    apply negb_true_iff in H; by rewrite H.
Qed.

Section Runes.

(** The function on data that is not empty. *)
Definition runeStep (d : list Z) (eof : bool) : Z * option (list Z) :=
  let w := snd (decode_ref d) in
  if 1 <? w then (w, Some (take (Z.to_nat w) d))
  else if negb (hd 0 d <? 0x80) && negb eof && negb (full_ref d) then (0, None)
  else (1, Some (if hd 0 d <? 0x80 then take 1 d else errorRune)).

Lemma ScanRunes_eq d eof : bytes_ok d -> d <> [] -> ScanRunes d eof = Ok (fst (runeStep d eof), snd (runeStep d eof), None).
Proof.
  intros Hok Hne. destruct (decode_ref_bounds d Hok Hne) as [Hw1 Hw2]. destruct d as [|x l]; [done|]. clear Hne.
  pose proof (len_nonneg l). unfold ScanRunes, runeStep. rewrite (proj2 (Z.eqb_neq (len (x :: l)) 0)) by (rewrite len_cons; lia).
  rewrite andb_false_r. change (idx (x :: l) 0) with (Ok x). cbn [rbind hd]. change RuneSelf with 0x80.
  destruct (Z.ltb_spec x 0x80) as [L|L].
  - assert (Hd : decode_ref (x :: l) = (x, 1)) by (simpl; by rewrite (proj2 (Z.ltb_lt x 0x80)) by done).
    rewrite Hd. simpl. rewrite slice_Ok by (rewrite ?len_cons; lia). done.
  - rewrite DecodeRune_ref by done. destruct (decode_ref (x :: l)) as [r w]. cbn [rbind fst snd] in *.
    destruct (Z.gtb_spec w 1), (Z.ltb_spec 1 w); try lia.
    + rewrite slice_Ok by lia. cbn [rbind]. by rewrite drop_0, Z.sub_0_r.
    + cbn [andb negb]. destruct eof; cbn [negb andb rbind]; [done|]. rewrite FullRune_ref by done. cbn [rbind]. by destruct (full_ref (x :: l)).
Qed.

Lemma runeStep_bounds d eof :
  bytes_ok d -> d <> [] -> 0 <= fst (runeStep d eof) <= len d /\ (snd (runeStep d eof) <> None -> 0 < fst (runeStep d eof)).
Proof.
  intros Hok Hne. destruct (decode_ref_bounds d Hok Hne) as [Hw1 Hw2]. unfold runeStep.
  destruct (Z.ltb_spec 1 (snd (decode_ref d))); simpl; [lia|]. destruct (_ && _); simpl; [|lia]. split; [lia | done].
Qed.

#[global] Instance ScanRunes_laws : SplitLaws ScanRunes.
Proof.
  constructor.
  - intros d eof Hok Hc. destruct (decide (d = [])) as [->|Hne].
    + destruct Hc as [?| ->]; [done|]. exists 0, None. split; [done|]. change (len (@nil Z)) with 0. split; [lia | done].
    + exists (fst (runeStep d eof)), (snd (runeStep d eof)). split; [by apply ScanRunes_eq|]. by apply runeStep_bounds.
  - intros d adv t more eof Hok Hne. rewrite ScanRunes_eq by (try done; by eapply bytes_ok_front).
    rewrite ScanRunes_eq by (try done; by destruct d). intros [= E1 E2]. rewrite <- E1, <- E2.
    assert (Hfull : full_ref d = true \/ hd 0 d < 0x80).
    { revert E2. unfold runeStep. destruct (Z.ltb_spec 1 (snd (decode_ref d))); [left; by apply decode_wide_full|].
      destruct (Z.ltb_spec (hd 0 d) 0x80); [by right|]. destruct (full_ref d); [by left | done]. }
    assert (Hdec : decode_ref (d ++ more) = decode_ref d).
    { destruct Hfull as [?|L]; [by apply decode_ref_full|]. destruct d as [|x l]; [done|]. simpl in *.
      by rewrite (proj2 (Z.ltb_lt x 0x80)). }
    assert (Hhd : hd 0 (d ++ more) = hd 0 d) by (by destruct d).
    assert (Hpass : forall eof l, l = d \/ l = d ++ more -> negb (hd 0 d <? 0x80) && negb eof && negb (full_ref l) = false).
    { intros e l Hl. destruct Hfull as [F|L]; [|by rewrite (proj2 (Z.ltb_lt _ _))].
      replace (full_ref l) with true; [by rewrite andb_false_r|]. destruct Hl as [->| ->]; [done | symmetry; by apply full_ref_app]. }
    unfold runeStep. rewrite Hdec, Hhd, !Hpass by auto. pose proof (decode_ref_bounds d (bytes_ok_front _ _ Hok) Hne) as [? ?].
    destruct (Z.ltb_spec 1 (snd (decode_ref d))); simpl.
    + by rewrite take_app_le by (unfold len in *; lia).
    + destruct d; [done|]. by destruct (hd 0 (z :: d) <? 0x80).
  - intros d adv more adv' token Hok Hne. rewrite ScanRunes_eq by (try done; by eapply bytes_ok_front). intros [= E1 E2].
    revert E1 E2. unfold runeStep. destruct (1 <? snd (decode_ref d)); [done|]. destruct (_ && _); [|done]. intros <- _.
    change (Z.to_nat 0) with 0%nat. by rewrite drop_0.
Qed.
End Runes.

(** The runes of the data, as a range loop over it has them, with their bytes. *)
Fixpoint runesFrom (n : nat) (d : list Z) : list (Z * list Z) :=
  match n, d with
  | Datatypes.S n, _ :: _ =>
      let '(r, w) := decode_ref d in (r, take (Z.to_nat w) d) :: runesFrom n (drop (Z.to_nat w) d)
  | _, _ => []
  end.

Definition runesOf (d : list Z) : list (Z * list Z) := runesFrom (length d) d.

Lemma runesFrom_fuel n m d : bytes_ok d -> (length d <= n)%nat -> (length d <= m)%nat -> runesFrom n d = runesFrom m d.
Proof.
  revert m d. induction n as [|n IH]; intros m d Hok Hn Hm; [destruct d; [by destruct m | simpl in Hn; lia]|].
  destruct d as [|x l] eqn:Ed; [by destruct m|]. rewrite <- Ed in *. destruct m as [|m]; [rewrite Ed in Hm; simpl in Hm; lia|].
  destruct (decode_ref_bounds d Hok) as [Hw1 Hw2]; [by rewrite Ed|]. unfold runesFrom; fold runesFrom. rewrite Ed. rewrite <- Ed.
  destruct (decode_ref d) as [r w]. simpl in Hw1, Hw2. f_equal. apply IH; [by apply Forall_drop|..]; rewrite length_drop; unfold len in *; lia.
Qed.

Lemma runesOf_cons d :
  bytes_ok d -> d <> [] ->
  let '(r, w) := decode_ref d in runesOf d = (r, take (Z.to_nat w) d) :: runesOf (drop (Z.to_nat w) d).
Proof.
  intros Hok Hne. destruct (decode_ref_bounds d Hok Hne) as [Hw1 Hw2]. unfold runesOf at 1. destruct d as [|x l] eqn:Ed; [done|]. rewrite <- Ed in *.
  replace (length d) with (Datatypes.S (length l)) by (by rewrite Ed). unfold runesFrom; fold runesFrom. rewrite Ed. rewrite <- Ed.
  destruct (decode_ref d) as [r w]. simpl in Hw1, Hw2. f_equal. assert (length d = Datatypes.S (length l)) by (by rewrite Ed).
  apply runesFrom_fuel; [by apply Forall_drop|..]; rewrite length_drop; lia.
Qed.

Lemma decode_encoded d : bytes_ok d -> d <> [] ->
  (exists r w, decode_ref d = (r, w) /\ (1 < w \/ hd 0 d < 0x80) /\ take (Z.to_nat w) d = AppendRune [] r) \/
  (decode_ref d = (RuneError, 1) /\ 0x80 <= hd 0 d).
Proof.
  intros Hok Hne. destruct (decode_ref_sound d Hok Hne) as [(Hsc & Hw & rest & Hd)|E].
  - destruct (decide (decode_ref d = (RuneError, 1) /\ 0x80 <= hd 0 d)) as [|Hnot]; [by right|]. left.
    destruct (decode_ref d) as [r w] eqn:E. simpl in *. exists r, w. split; [done|]. split.
    + destruct d as [|x l]; [done|]. simpl. destruct (Z.ltb_spec x 0x80); [by right|]. left. clear Hnot.
      pose proof (utf8_encode_nonempty r). destruct (Z.eq_dec w 1) as [Ew|]; [|lia]. exfalso.
      rewrite Ew in Hw. destruct (utf8_encode r) as [|y [|? ?]] eqn:Eu; [done| |rewrite !len_cons in Hw; pose proof (len_nonneg l0); lia].
      injection Hd as <- <-. unfold utf8_encode in Eu. repeat case_match; simplify_eq.
      unfold scalar in Hsc. lia.
    + rewrite AppendRune_spec by (unfold scalar in Hsc; lia). cbn [app]. unfold encoded.
      assert (Hv : ValidRune r = true) by (by apply ValidRune_scalar). rewrite Hv, Hd, Hw. unfold len. by rewrite Nat2Z.id, take_app_length.
  - right. split; [done|]. destruct d as [|x l]; [done|]. simpl in *. destruct (Z.ltb_spec x 0x80); [|lia]. by injection E as ->.
Qed.

Lemma ScanRunes_tokens d : bytes_ok d -> tokenizes ScanRunes d (map (fun r => AppendRune [] (fst r)) (runesOf d)).
Proof.
  induction d as [d IH] using (induction_ltof1 _ length). unfold ltof in IH. intros Hok.
  destruct (decide (d = [])) as [->|Hne]; [by eapply tokens_end|]. pose proof (runesOf_cons d Hok Hne) as Hr.
  destruct (decode_ref_bounds d Hok Hne) as [Hw1 Hw2]. pose proof (ScanRunes_eq d true Hok Hne) as Hs.
  destruct (decode_ref d) as [r w] eqn:E. rewrite Hr. cbn [map fst snd] in *. apply (tokens_next _ _ w).
  - rewrite Hs. unfold runeStep. rewrite E. cbn [snd]. rewrite andb_false_r. cbn [andb].
    destruct (decode_encoded d Hok Hne) as [(r' & w' & E' & Hc & Htk)|[E' Hh]]; rewrite E in E'; simplify_eq.
    + destruct (Z.ltb_spec 1 w'); [by rewrite <- Htk|]. assert (w' = 1) as -> by lia.
      destruct Hc as [|L]; [lia|]. rewrite (proj2 (Z.ltb_lt _ _)) by done. by rewrite <- Htk.
    + simpl. destruct (Z.ltb_spec (hd 0 d) 0x80); [lia|]. done.
  - apply IH; [rewrite length_drop; unfold len in *; lia | by apply Forall_drop].
Qed.

(** ** Lines *)

Definition trimCR (l : list Z) : list Z := if decide (last l = Some 13) then removelast l else l.

(** The lines: what stands before each newline, and after the last one. *)
Fixpoint linesFrom (cur d : list Z) : list (list Z) :=
  match d with
  | [] => if decide (cur = []) then [] else [trimCR cur]
  | c :: d => if c =? 10 then trimCR cur :: linesFrom [] d else linesFrom (cur ++ [c]) d
  end.

Definition linesOf (d : list Z) : list (list Z) := linesFrom [] d.

Lemma dropCR_trim l : dropCR l = Ok (trimCR l).
Proof.
  unfold dropCR, trimCR. destruct l as [|c l _] using rev_ind; [done|]. rewrite last_snoc, len_app. change (len [c]) with 1.
  pose proof (len_nonneg l). rewrite (proj2 (Z.gtb_lt _ _)) by lia. rewrite idx_app by lia. cbn [rbind].
  destruct (Z.eqb_spec c 13) as [->|Hc].
  - rewrite decide_True by done. rewrite removelast_last, slice_Ok by (rewrite ?len_app; change (len [13]) with 1; lia).
    replace (len l + 1 - 1 - 0) with (len l) by lia. unfold len. by rewrite drop_0, Nat2Z.id, take_app_length.
  - rewrite decide_False by congruence. done.
Qed.

Section Lines.
Context {BA : Bytealg} {BL : BytealgLaws BA}.

Lemma IndexByte_first (l rest : list Z) c : c ∉ l -> IndexByte (l ++ c :: rest) c = len l.
Proof.
  intros Hno. destruct (Z.lt_ge_cases (IndexByte (l ++ c :: rest) c) 0) as [L|L].
  { exfalso. apply IndexByte_absent in L. apply L, elem_of_app. right. constructor. }
  destruct (IndexByte_found _ _ _ eq_refl L) as (Hlt & Hat & Hpre). set (i := IndexByte _ _) in *.
  destruct (Z.lt_trichotomy i (len l)) as [H|[H|H]]; [|done|]; exfalso.
  - apply Hno. rewrite lookup_app_l in Hat by (unfold len in *; lia). by eapply list_elem_of_lookup_2.
  - apply Hpre. rewrite take_app_ge by (unfold len in *; lia). apply elem_of_app. right.
    replace (Z.to_nat i - length l)%nat with (Datatypes.S (Z.to_nat i - length l - 1)) by (unfold len in *; lia). constructor.
Qed.

(** A line with its end, or none. *)
Lemma line_cases (d : list Z) : (exists l rest, d = l ++ 10 :: rest /\ 10 ∉ l) \/ 10 ∉ d.
Proof.
  destruct (decide (10 ∈ d)) as [Hin|]; [left | by right]. apply list_elem_of_split_l in Hin as (l & rest & -> & Hno). by exists l, rest.
Qed.

Lemma ScanLines_line l rest eof : 10 ∉ l -> ScanLines (l ++ 10 :: rest) eof = Ok (len l + 1, Some (trimCR l), None).
Proof.
  intros Hno. unfold ScanLines. pose proof (len_nonneg l). pose proof (len_nonneg rest).
  rewrite (proj2 (Z.eqb_neq (len (l ++ 10 :: rest)) 0)) by (rewrite len_app, len_cons; lia).
  rewrite andb_false_r, IndexByte_first by done. rewrite Z.geb_leb, (proj2 (Z.leb_le 0 (len l))) by lia.
  rewrite slice_Ok by (rewrite ?len_app, ?len_cons; lia). cbn [rbind]. rewrite drop_0, Z.sub_0_r. unfold len at 1. rewrite Nat2Z.id, take_app_length.
  by rewrite dropCR_trim.
Qed.

Lemma ScanLines_none d eof :
  10 ∉ d -> d <> [] -> ScanLines d eof = Ok (if eof then len d else 0, if eof then Some (trimCR d) else None, None).
Proof.
  intros Hno Hne. unfold ScanLines. assert (len d <> 0) by (intros E; by apply len_zero_inv in E).
  rewrite (proj2 (Z.eqb_neq (len d) 0)), andb_false_r by done. pose proof (proj2 (IndexByte_absent d 10) Hno).
  rewrite Z.geb_leb. destruct (Z.leb_spec 0 (IndexByte d 10)); [lia|]. destruct eof; [|done]. by rewrite dropCR_trim.
Qed.

#[global] Instance ScanLines_laws : SplitLaws ScanLines.
Proof.
  constructor.
  - intros d eof _ Hc. destruct (decide (d = [])) as [->|Hne].
    { destruct Hc as [?| ->]; [done|]. exists 0, None. split; [done|]. change (len (@nil Z)) with 0. split; [lia | done]. }
    pose proof (len_nonneg d). destruct (line_cases d) as [(l & rest & -> & Hno)|Hno].
    + exists (len l + 1), (Some (trimCR l)). split; [by apply ScanLines_line|]. rewrite len_app, len_cons.
      pose proof (len_nonneg l). pose proof (len_nonneg rest). lia.
    + eexists _, _. split; [by apply ScanLines_none|]. assert (len d <> 0) by (intros E; by apply len_zero_inv in E).
      destruct eof; (split; [lia | done || lia]).
  - intros d adv t more eof _ Hne. destruct (line_cases d) as [(l & rest & -> & Hno)|Hno].
    + rewrite <- (assoc_L app). cbn [app]. by rewrite !ScanLines_line.
    + by rewrite ScanLines_none.
  - intros d adv more adv' token _ Hne. destruct (line_cases d) as [(l & rest & -> & Hno)|Hno].
    + by rewrite ScanLines_line.
    + rewrite ScanLines_none by done. intros [= <-]. change (Z.to_nat 0) with 0%nat. by rewrite drop_0.
Qed.

Lemma linesFrom_line cur l rest : 10 ∉ l -> linesFrom cur (l ++ 10 :: rest) = trimCR (cur ++ l) :: linesOf rest.
Proof.
  revert cur. induction l as [|c l IH]; intros cur Hno; simpl; [by rewrite app_nil_r|]. apply not_elem_of_cons in Hno as [Hc Hno].
  destruct (Z.eqb_spec c 10); [done|]. rewrite IH by done. by rewrite <- (assoc_L app).
Qed.

Lemma linesFrom_last cur l : 10 ∉ l -> linesFrom cur l = if decide (cur ++ l = []) then [] else [trimCR (cur ++ l)].
Proof.
  revert cur. induction l as [|c l IH]; intros cur Hno; simpl; [by rewrite app_nil_r|]. apply not_elem_of_cons in Hno as [Hc Hno].
  destruct (Z.eqb_spec c 10); [done|]. rewrite IH by done. by rewrite <- (assoc_L app).
Qed.

Lemma ScanLines_tokens d : tokenizes ScanLines d (linesOf d).
Proof.
  induction d as [d IH] using (induction_ltof1 _ length). unfold ltof in IH.
  destruct (line_cases d) as [(l & rest & -> & Hno)|Hno].
  - unfold linesOf. rewrite linesFrom_line by done. eapply (tokens_next _ _ (len l + 1)); [by apply ScanLines_line|].
    replace (drop (Z.to_nat (len l + 1)) (l ++ 10 :: rest)) with rest.
    + apply IH. rewrite length_app. simpl. lia.
    + rewrite drop_app_ge by (unfold len; lia). by replace (Z.to_nat (len l + 1) - length l)%nat with 1%nat by (unfold len; lia).
  - unfold linesOf. rewrite linesFrom_last by done. cbn [app]. destruct (decide (d = [])) as [->|Hne]; [by eapply tokens_end|].
    eapply tokens_next; [by apply ScanLines_none|]. cbn iota. rewrite drop_ge by (unfold len; lia). by eapply tokens_end.
Qed.
End Lines.

(** ** Words *)

(** [c] is a run of runes that satisfy [P], before [rest]. *)
Inductive run (P : Z -> bool) : list Z -> list Z -> Prop :=
| run_nil rest : run P [] rest
| run_rune chunk c rest r : chunk <> [] -> decode_ref (chunk ++ c ++ rest) = (r, len chunk) -> P r = true -> run P c rest ->
    run P (chunk ++ c) rest.

Definition stopsAt (P : Z -> bool) (rest : list Z) : Prop := rest = [] \/ P (fst (decode_ref rest)) = false.

(** The spaces, the word and what follows it. *)
Record wordAt (d sp w rest : list Z) : Prop := {
  wa_all : d = sp ++ w ++ rest;
  wa_spaces : run isSpace sp (w ++ rest);
  wa_start : stopsAt isSpace (w ++ rest);
  wa_word : run (fun r => negb (isSpace r)) w rest;
  wa_stop : stopsAt (fun r => negb (isSpace r)) rest;
}.

Lemma run_exists P d : bytes_ok d -> exists c rest, d = c ++ rest /\ run P c rest /\ stopsAt P rest.
Proof.
  induction d as [d IH] using (induction_ltof1 _ length). unfold ltof in IH. intros Hok.
  destruct (decide (d = [])) as [->|Hne]; [exists [], []; split; [done|]; split; [constructor | by left]|].
  destruct (decode_ref_bounds d Hok Hne) as [Hw1 Hw2]. destruct (decode_ref d) as [r w] eqn:E. simpl in *.
  destruct (P r) eqn:Ep; [|exists [], d; split; [done|]; split; [constructor | right; by rewrite E]].
  destruct (IH (drop (Z.to_nat w) d)) as (c & rest & Hd & Hrun & Hstop);
    [rewrite length_drop; unfold len in *; lia | by apply Forall_drop|].
  exists (take (Z.to_nat w) d ++ c), rest. rewrite <- (assoc_L app), <- Hd, take_drop. split_and!; try done.
  eapply (run_rune _ _ _ _ r); try done.
  - intros Et. apply (f_equal len) in Et. rewrite len_take_to in Et by lia. change (len (@nil Z)) with 0 in Et. lia.
  - rewrite <- Hd, take_drop, E, len_take_to by lia. done.
Qed.

Lemma wordAt_exists d : bytes_ok d -> exists sp w rest, wordAt d sp w rest.
Proof.
  intros Hok. destruct (run_exists isSpace d Hok) as (sp & d' & -> & Hsp & Hst). apply Forall_app in Hok as [_ Hok].
  destruct (run_exists (fun r => negb (isSpace r)) d' Hok) as (w & rest & -> & Hw & Hst'). by exists sp, w, rest.
Qed.

(** *** The loops *)

Lemma slice_from_pre (pre rest : list Z) : slice_from (pre ++ rest) (len pre) = Ok rest.
Proof.
  rewrite slice_from_Ok by (rewrite len_app; pose proof (len_nonneg pre); pose proof (len_nonneg rest); lia).
  unfold len. by rewrite Nat2Z.id, drop_app_length.
Qed.

Lemma loop_pointwise {A R} (f g : A -> res (A + R)) n a : (forall a, f a = g a) -> loop n f a = loop n g a.
Proof.
  intros H. revert a. induction n as [|n IH]; intros a; simpl; [done|]. rewrite H. destruct (g a) as [[a'|r]| |]; try done. apply IH.
Qed.

Section WordLoops.
Variable P : Z -> bool.
Context {R : Type} (found : Z -> Z -> R) (none : Z -> R).

(** A loop over the runes that satisfy [P]. *)
Definition runLoop (d : list Z) (i : Z) : res (Z + R) :=
  if i <? len d then
    let! rest := slice_from d i in
    let! '(r, width) := DecodeRune rest in
    if P r then Ok (inl (i + width)) else Ok (inr (found i width))
  else Ok (inr (none i)).

Lemma runLoop_spec fuel pre c rest :
  bytes_ok (c ++ rest) -> run P c rest -> stopsAt P rest -> (length c < fuel)%nat ->
  loop fuel (runLoop (pre ++ c ++ rest)) (len pre) =
    Ok (if decide (rest = []) then none (len (pre ++ c)) else found (len (pre ++ c)) (snd (decode_ref rest))).
Proof.
  intros Hok Hrun Hstop. revert fuel pre Hok. induction Hrun as [rest|chunk c rest r Hne E Hp Hrun IH]; intros fuel pre Hok Hf;
    (destruct fuel as [|fuel]; [lia|]).
  - apply loop_inr. unfold runLoop. cbn [app]. rewrite app_nil_r. pose proof (len_nonneg pre). rewrite len_app.
    destruct (decide (rest = [])) as [->|Hne].
    + change (len (@nil Z)) with 0. rewrite Z.add_0_r, Z.ltb_irrefl. done.
    + assert (len rest <> 0) by (intros E; by apply len_zero_inv in E). pose proof (len_nonneg rest).
      rewrite (proj2 (Z.ltb_lt _ _)) by lia. rewrite slice_from_pre. cbn [rbind]. rewrite DecodeRune_ref by done.
      destruct Hstop as [|Hs]; [done|]. destruct (decode_ref rest) as [r w]. cbn [rbind fst snd] in *. by rewrite Hs.
  - assert (Hcl : len chunk <> 0) by (intros E0; by apply len_zero_inv in E0). pose proof (len_nonneg chunk). pose proof (len_nonneg pre).
    pose proof (len_nonneg (c ++ rest)). rewrite <- (assoc_L app) in *.
    rewrite (loop_inl _ _ _ (len (pre ++ chunk))).
    + rewrite (assoc_L app pre chunk (c ++ rest)), IH; [by rewrite <- !(assoc_L app)|done|by apply Forall_app in Hok as [_ ?]|].
      rewrite length_app in Hf. unfold len in Hcl. lia.
    + unfold runLoop. rewrite (proj2 (Z.ltb_lt _ _)) by (rewrite !len_app in *; lia). rewrite slice_from_pre. cbn [rbind].
      rewrite DecodeRune_ref, E by done. cbn [rbind]. by rewrite Hp, len_app.
Qed.
End WordLoops.

Lemma skipSpaces_eq d sp w rest : bytes_ok d -> wordAt d sp w rest -> skipSpaces d = Ok (len sp).
Proof.
  intros Hok [-> Hsp Hst _ _]. unfold skipSpaces.
  pose proof (runLoop_spec isSpace (fun i _ => i) (fun i => i) (Datatypes.S (length (sp ++ w ++ rest))) [] sp (w ++ rest) Hok Hsp Hst
    ltac:(rewrite length_app; lia)) as H. unfold runLoop in H. cbn [app] in H. change (len (@nil Z)) with 0 in H. rewrite H. by destruct (decide _).
Qed.

Lemma findSpace_eq d sp w rest :
  bytes_ok d -> wordAt d sp w rest ->
  findSpace d (len sp) = Ok (if decide (rest = []) then None else Some (len sp + len w, snd (decode_ref rest))).
Proof.
  intros Hok [-> _ _ Hw Hst]. unfold findSpace. pose proof Hok as Hok'. apply Forall_app in Hok' as [_ Hok'].
  pose proof (runLoop_spec (fun r => negb (isSpace r)) (fun i w => Some (i, w)) (fun _ => None) (Datatypes.S (length (sp ++ w ++ rest))) sp w rest Hok' Hw Hst
    ltac:(rewrite !length_app; lia)) as H. rewrite <- len_app. rewrite <- H.
  apply loop_pointwise. intros i. unfold runLoop. destruct (i <? len (sp ++ w ++ rest)); [|done].
  destruct (slice_from (sp ++ w ++ rest) i) as [l| |]; try done. cbn [rbind]. destruct (DecodeRune l) as [[r width]| |]; try done.
  cbn [rbind]. by destruct (isSpace r).
Qed.

Lemma ScanWords_eq d sp w rest eof :
  bytes_ok d -> wordAt d sp w rest ->
  ScanWords d eof =
    Ok (if decide (rest = []) then
          if eof && bool_decide (w <> []) then (len d, Some w, None) else (len sp, None, None)
        else (len sp + len w + snd (decode_ref rest), Some w, None)).
Proof.
  intros Hok Hw. unfold ScanWords. rewrite (skipSpaces_eq d sp w rest) by done. cbn [rbind].
  rewrite (findSpace_eq d sp w rest) by done. cbn [rbind].
  destruct Hw as [-> _ _ _ _]. pose proof (len_nonneg sp). pose proof (len_nonneg w). pose proof (len_nonneg rest).
  destruct (decide (rest = [])) as [->|Hne].
  - rewrite app_nil_r, len_app. destruct eof; [|done]. cbn [andb]. destruct (Z.gtb_spec (len sp + len w) (len sp)) as [G|G].
    + rewrite bool_decide_eq_true_2 by (intros ->; change (len (@nil Z)) with 0 in G; lia). by rewrite slice_from_pre.
    + rewrite bool_decide_eq_false_2; [done|]. intros N. apply N, len_zero_inv. lia.
  - rewrite slice_Ok by (rewrite ?len_app; lia). cbn [rbind]. replace (len sp + len w - len sp) with (len w) by lia.
    unfold len. by rewrite !Nat2Z.id, drop_app_length, take_app_length.
Qed.

(** *** More data *)

(** A rune that more bytes may complete has no space in it. *)
Lemma partial_suffix (p q : list Z) : p <> [] -> q <> [] -> full_ref (p ++ q) = false -> decode_ref q = (RuneError, 1).
Proof.
  assert (Hcont : forall lo hi b l, 0x80 <= lo -> hi <= 0xBF -> negb (between lo hi b) = false -> decode_ref (b :: l) = (RuneError, 1)).
  { intros lo hi b l Hlo Hhi H%negb_false_iff. unfold between in H. apply andb_prop in H as [H1%Z.leb_le H2%Z.leb_le].
    unfold decode_ref, between. destruct (Z.ltb_spec b 0x80), (Z.leb_spec 0xC2 b), (Z.leb_spec 0xE0 b), (Z.leb_spec 0xF0 b); try lia. done. }
  destruct p as [|b0 p]; [done|]. intros _ Hq. cbn [app]. unfold full_ref. destruct (between 0xC2 0xDF b0).
  { by destruct p; [destruct q|]. }
  destruct (between 0xE0 0xEF b0).
  { destruct p as [|b1 p]; cbn [app].
    - destruct q as [|x [|y q]]; [done| |done]. apply Hcont; repeat case_match; lia.
    - by destruct p; [destruct q|]. }
  destruct (between 0xF0 0xF4 b0); [|done]. destruct p as [|b1 [|b2 p]]; cbn [app].
  - destruct q as [|x [|y [|z q]]]; [done| | |done].
    + apply Hcont; repeat case_match; lia.
    + intros [H _]%negb_false_iff%andb_prop. eapply Hcont; [..|by rewrite H]; repeat case_match; lia.
  - destruct q as [|x [|y q]]; [done| |done]. intros [_ H]%negb_false_iff%andb_prop. by eapply Hcont; [..|by rewrite H].
  - by destruct p; [destruct q|].
Qed.

Lemma space_full p : isSpace (fst (decode_ref p)) = true -> p <> [] /\ full_ref p = true.
Proof.
  intros Hs. assert (Hne : p <> []) by (by intros ->). split; [done|]. apply decode_good_full; [done|]. intros E. by rewrite E in Hs.
Qed.

Lemma spaces_more sp rest more : run isSpace sp rest -> run isSpace sp (rest ++ more).
Proof.
  induction 1 as [rest|chunk c rest r Hne E Hp _ IH]; [constructor|]. apply (run_rune _ _ _ _ r); try done.
  rewrite !(assoc_L app), decode_ref_full; rewrite <- (assoc_L app); [done|]. apply space_full. by rewrite E.
Qed.

Lemma word_more w rest more :
  run (fun r => negb (isSpace r)) w rest -> isSpace (fst (decode_ref rest)) = true -> run (fun r => negb (isSpace r)) w (rest ++ more).
Proof.
  intros Hrun Hsp. induction Hrun as [rest|chunk c rest r Hne E Hp _ IH]; [constructor|]. apply (run_rune _ _ _ _ r); try done; [|by apply IH].
  rewrite !(assoc_L app), decode_ref_full; rewrite <- (assoc_L app); [done|].
  destruct (full_ref (chunk ++ c ++ rest)) eqn:Ef; [done|]. exfalso. rewrite (assoc_L app) in Ef.
  apply partial_suffix in Ef; [by rewrite Ef in Hsp | by destruct chunk | by intros ->].
Qed.

Lemma run_app P c1 c2 rest : run P c1 (c2 ++ rest) -> run P c2 rest -> run P (c1 ++ c2) rest.
Proof.
  intros H1 H2. remember (c2 ++ rest) as X eqn:EX. induction H1 as [X|chunk c X r Hne E Hp _ IH]; [done|]. subst X.
  rewrite <- (assoc_L app). apply (run_rune _ _ _ _ r); try done; [by rewrite <- (assoc_L app) | by apply IH].
Qed.

Lemma run_head P c rest : run P c rest -> c <> [] -> P (fst (decode_ref (c ++ rest))) = true.
Proof. intros [|chunk c' rest' r _ E Hp _]; [done|]. intros _. by rewrite <- (assoc_L app), E. Qed.

(** A word before a space: the word is not empty. *)
Lemma wordAt_nonempty d sp w rest : wordAt d sp w rest -> rest <> [] -> w <> [] /\ isSpace (fst (decode_ref rest)) = true.
Proof.
  intros [_ _ Hst _ Hstop] Hne. destruct Hstop as [|Hs%negb_false_iff]; [done|]. split; [|done]. intros ->.
  destruct Hst as [|Hst]; [done|]. simpl in Hst. congruence.
Qed.

Lemma wordAt_more d sp w rest more : wordAt d sp w rest -> rest <> [] -> wordAt (d ++ more) sp w (rest ++ more).
Proof.
  intros Hw Hne. destruct (wordAt_nonempty _ _ _ _ Hw Hne) as [Hwne Hs]. destruct Hw as [-> Hsp Hst Hw Hstop].
  pose proof (word_more _ _ more Hw Hs) as Hw'. constructor; try done.
  - by rewrite <- !(assoc_L app).
  - rewrite (assoc_L app). by apply spaces_more.
  - right. by apply negb_true_iff, (run_head _ _ _ Hw').
  - right. rewrite decode_ref_full by (by apply space_full). by rewrite Hs.
Qed.

Lemma wordAt_later sp w more sp2 w2 r2 :
  run isSpace sp w -> wordAt (w ++ more) sp2 w2 r2 -> wordAt (sp ++ w ++ more) (sp ++ sp2) w2 r2.
Proof.
  intros Hsp [E Hsp2 Hst Hw Hstop]. constructor; try done; [by rewrite E, <- (assoc_L app)|].
  apply run_app; [|done]. rewrite <- E. by apply spaces_more.
Qed.

#[global] Instance ScanWords_laws : SplitLaws ScanWords.
Proof.
  constructor.
  - intros d eof Hok _. destruct (wordAt_exists d Hok) as (sp & w & rest & Hw). rewrite (ScanWords_eq d sp w rest) by done.
    pose proof (wa_all _ _ _ _ Hw) as E. pose proof (len_nonneg sp). pose proof (len_nonneg w). pose proof (len_nonneg rest).
    assert (HL : len d = len sp + len w + len rest) by (rewrite E, !len_app; lia).
    destruct (decide (rest = [])) as [->|Hne].
    + destruct eof; cbn [andb]; [case_bool_decide as Hwne|]; eexists _, _; (split; [done|]); (split; [lia|]); try done.
      intros _. change (len (@nil Z)) with 0 in HL. assert (len w <> 0) by (intros E0; by apply len_zero_inv in E0). lia.
    + eexists _, _. split; [done|]. rewrite E in Hok. apply Forall_app in Hok as [_ Hok]. apply Forall_app in Hok as [_ Hok].
      pose proof (decode_ref_bounds rest Hok Hne). lia.
  - intros d adv t more eof Hok Hne. destruct (wordAt_exists d (bytes_ok_front _ _ Hok)) as (sp & w & rest & Hw).
    rewrite (ScanWords_eq d sp w rest) by (try done; by eapply bytes_ok_front). destruct (decide (rest = [])) as [->|Hr]; [done|].
    rewrite (ScanWords_eq (d ++ more) sp w (rest ++ more)) by (try done; by apply wordAt_more).
    rewrite decide_False by (by destruct rest). destruct (wordAt_nonempty _ _ _ _ Hw Hr) as [_ Hs].
    by rewrite decode_ref_full by (by apply space_full).
  - intros d adv more adv' token Hok Hne. destruct (wordAt_exists d (bytes_ok_front _ _ Hok)) as (sp & w & rest & Hw).
    rewrite (ScanWords_eq d sp w rest) by (try done; by eapply bytes_ok_front). destruct (decide (rest = [])) as [->|Hr]; [|done].
    cbn [andb]. intros [= <-]. pose proof Hw as [-> Hsp _ _ _]. rewrite app_nil_r in *. unfold len at 1. rewrite Nat2Z.id, drop_app_length.
    rewrite <- (assoc_L app) in *. pose proof Hok as Hok'. apply Forall_app in Hok' as [_ Hok'].
    destruct (wordAt_exists (w ++ more) Hok') as (sp2 & w2 & r2 & Hw2).
    rewrite (ScanWords_eq (w ++ more) sp2 w2 r2) by done. pose proof (wordAt_later _ _ _ _ _ _ Hsp Hw2) as Hw3.
    rewrite (ScanWords_eq (sp ++ w ++ more) (sp ++ sp2) w2 r2) by done. rewrite !len_app.
    destruct (decide (r2 = [])); [destruct (true && _)|]; intros [= <- <-]; by rewrite ?(assoc_L Z.add).
Qed.

(** *** The words *)

(** The stretches of bytes of runes that are not spaces. *)
Fixpoint wordsFrom (cur : list Z) (rs : list (Z * list Z)) : list (list Z) :=
  let word := if decide (cur = []) then [] else [cur] in
  match rs with
  | [] => word
  | (r, b) :: rs => if isSpace r then word ++ wordsFrom [] rs else wordsFrom (cur ++ b) rs
  end.

Definition wordsOf (d : list Z) : list (list Z) := wordsFrom [] (runesOf d).

Lemma run_runes P c rest :
  bytes_ok (c ++ rest) -> run P c rest ->
  exists rs, runesOf (c ++ rest) = rs ++ runesOf rest /\ Forall (fun r => P (fst r) = true) rs /\ concat (map snd rs) = c.
Proof.
  intros Hok Hrun. induction Hrun as [rest|chunk c rest r Hne E Hp _ IH]; [by exists []|]. rewrite <- (assoc_L app) in *.
  assert (Hd : chunk ++ c ++ rest <> []) by (by destruct chunk). pose proof (runesOf_cons _ Hok Hd) as Hr. rewrite E in Hr.
  unfold len in Hr. rewrite Nat2Z.id, take_app_length, drop_app_length in Hr. apply Forall_app in Hok as [_ Hok].
  destruct (IH Hok) as (rs & Hrs & Hall & <-). exists ((r, chunk) :: rs). rewrite Hr, Hrs. split; [done|]. split; [by constructor | done].
Qed.

Lemma wordsFrom_spaces rs l : Forall (fun r => isSpace (fst r) = true) rs -> wordsFrom [] (rs ++ l) = wordsFrom [] l.
Proof. induction 1 as [|[r b] rs Hr _ IH]; [done|]. simpl in *. by rewrite Hr, IH. Qed.

Lemma wordsFrom_word cur rs l :
  Forall (fun r => negb (isSpace (fst r)) = true) rs -> wordsFrom cur (rs ++ l) = wordsFrom (cur ++ concat (map snd rs)) l.
Proof.
  intros H. revert cur. induction H as [|[r b] rs Hr _ IH]; intros cur; simpl; [by rewrite app_nil_r|].
  simpl in Hr. apply negb_true_iff in Hr. rewrite Hr, IH. by rewrite <- (assoc_L app).
Qed.

Lemma ScanWords_tokens d : bytes_ok d -> tokenizes ScanWords d (wordsOf d).
Proof.
  induction d as [d IH] using (induction_ltof1 _ length). unfold ltof in IH. intros Hok.
  destruct (wordAt_exists d Hok) as (sp & w & rest & Hw). pose proof (ScanWords_eq d sp w rest true Hok Hw) as Hs.
  pose proof Hw as [E Hsp _ Hword _]. pose proof Hok as Hok1. rewrite E in Hok1. destruct (run_runes _ _ _ Hok1 Hsp) as (rs1 & R1 & A1 & _).
  apply Forall_app in Hok1 as [_ Hok1]. destruct (run_runes _ _ _ Hok1 Hword) as (rs2 & R2 & A2 & Hcat).
  apply Forall_app in Hok1 as [_ Hok1].
  assert (HW : wordsOf d = wordsFrom w (runesOf rest)).
  { unfold wordsOf. rewrite E, R1, wordsFrom_spaces, R2, wordsFrom_word by done. by rewrite Hcat. }
  rewrite HW. destruct (decide (rest = [])) as [->|Hne].
  - cbn. case_bool_decide as Hwne; cbn in Hs.
    + rewrite decide_False by done. eapply tokens_next; [exact Hs|]. rewrite drop_ge by (unfold len; lia). by eapply tokens_end.
    + destruct (decide (w = [])); [by eapply tokens_end | tauto].
  - destruct (wordAt_nonempty _ _ _ _ Hw Hne) as [Hwne Hspace]. pose proof (runesOf_cons rest Hok1 Hne) as Hr.
    pose proof (decode_ref_bounds rest Hok1 Hne) as Hb. destruct (decode_ref rest) as [r k]. cbn [fst snd] in *.
    rewrite Hr. cbn. rewrite Hspace, decide_False by done. eapply tokens_next; [exact Hs|].
    replace (drop (Z.to_nat (len sp + len w + k)) d) with (drop (Z.to_nat k) rest).
    + apply IH; [|by apply Forall_drop]. rewrite E, !length_app, length_drop. unfold len in *. destruct w; [done|]. simpl. lia.
    + rewrite E, (assoc_L app). pose proof (len_nonneg sp). pose proof (len_nonneg w).
      rewrite drop_app_ge by (rewrite length_app; unfold len in *; lia). f_equal. rewrite length_app. unfold len in *. lia.
Qed.
