(* ===== verification/ScannerSpec.v ===== *)
(** * bufio: properties of Scanner

    The loop of a client of a Scanner, [for s.Scan() { .. s.Text() .. }], has the
    tokens of all the data of its source, whatever pieces it comes in. *)
From Stdlib Require Import ZArith Lia String Ascii.
From stdpp Require Import base numbers list.
From S2P Require Import Prelude Utf8 Bufio BufioReader BufioSpec Scanner ScannerCorrect ScannerSplits.

Section Client.
Context {S : Type} {RD : ioReader S} {SR : Source S} {BA : Bytealg}.
Implicit Types s : Scanner S.


End Client.


Section Properties.
Context {S : Type} {RD : ioReader S} {SR : Source S} {BA : Bytealg} {BL : BytealgLaws BA}.
Implicit Types s : Scanner S.







End Properties.

(** ** Witnesses *)




