(* ===== verification/Flate.v ===== *)
(** * Package compress/flate: the decompressor

    src/compress/flate/inflate.go and dict_decoder.go, every function, and
    io.ReadFull.  The reader beneath has Read and ReadByte ([ioReader],
    [byteReader]).  The pointers hl and hd are names of the decoders; the pointer
    step is the name of the method.  The slice toRead of the window is a list: no
    method writes to the window before it is empty.  The Once around the fixed
    decoder is left out. *)
From Stdlib Require Import ZArith Lia.
From stdpp Require Import base numbers list.
From S2P Require Import Prelude Bits Bufio.

(** ** Errors and the reader beneath *)

Inductive flateError :=
| IoError (e : ioError)
| ErrUnexpectedEOF
| ErrShortBuffer
| CorruptInputError (offset : Z)
| InternalError.

#[global] Instance flateError_eq_dec : EqDecision flateError.
Proof. solve_decision. Defined.

(** [ReadByte()]: the byte, the error and the reader. *)
Class byteReader (S : Type) := readByte : S -> Z * option ioError * S.

Section ReadFull.
Context {S : Type} {RD : ioReader S}.

(** [io.ReadAtLeast(r, buf, min)]: the contents of buf, the count and the error. *)
Definition ReadAtLeast (fuel : nat) (r : S) (buf : list Z) (min : Z) : res (list Z * Z * option flateError * S) :=
  if len buf <? min then Ok (buf, 0, Some ErrShortBuffer, r) else
  loop fuel
    (fun '(buf, n, err, r) =>
       if (n <? min) && bool_decide (err = None) then
         let! p := slice_from buf n in
         let '(p', nn, e, r) := doRead r p in
         Ok (inl (take (Z.to_nat n) buf ++ p', n + nn, e, r))
       else
         let err :=
           if n >=? min then None
           else if (n >? 0) && bool_decide (err = Some EOF) then Some ErrUnexpectedEOF
           else option_map IoError err in
         Ok (inr (buf, n, err, r))) (buf, 0, None, r).

Definition ReadFull (fuel : nat) (r : S) (buf : list Z) : res (list Z * Z * option flateError * S) :=
  ReadAtLeast fuel r buf (len buf).
End ReadFull.

(** ** The window *)

Record dictDecoder := mkDict { hist : list Z; wrPos : Z; rdPos : Z; full : bool }.

Definition zeroDict : dictDecoder := mkDict [] 0 0 false.

(** [copy(hist[dst:dstEnd], hist[src:srcEnd])] and the count *)
Definition copyHist (h : list Z) (dst dstEnd src srcEnd : Z) : res (list Z * Z) :=
  let! d := slice h dst dstEnd in
  let! s := slice h src srcEnd in
  let n := Nat.min (length d) (length s) in
  Ok (take (Z.to_nat dst) h ++ take n s ++ drop (Z.to_nat dst + n) h, Z.of_nat n).

(** The capacity of hist is its length. *)
Definition dict_init (dd : dictDecoder) (size : Z) (dict : list Z) : res dictDecoder :=
  let h := if len (hist dd) <? size then replicate (Z.to_nat size) 0 else hist dd in
  let! h := slice h 0 size in
  let! dict := if len dict >? len h then slice_from dict (len dict - len h) else Ok dict in
  let! '(h, n) := copyTo h 0 dict in
  if n =? len h then Ok (mkDict h 0 0 true) else Ok (mkDict h n n false).

Definition histSize (dd : dictDecoder) : Z := if full dd then len (hist dd) else wrPos dd.
Definition availRead (dd : dictDecoder) : Z := wrPos dd - rdPos dd.
Definition availWrite (dd : dictDecoder) : Z := len (hist dd) - wrPos dd.
Definition writeSlice (dd : dictDecoder) : res (list Z) := slice_from (hist dd) (wrPos dd).
Definition writeMark (dd : dictDecoder) (cnt : Z) : dictDecoder := mkDict (hist dd) (wrPos dd + cnt) (rdPos dd) (full dd).

Definition dict_writeByte (dd : dictDecoder) (c : Z) : res dictDecoder :=
  let! h := upd (hist dd) (wrPos dd) c in
  Ok (mkDict h (wrPos dd + 1) (rdPos dd) (full dd)).

(** [for dstPos < endPos { dstPos += copy(hist[dstPos:endPos], hist[srcPos:dstPos]) }] *)
Definition copyForward (h : list Z) (dstPos endPos srcPos : Z) : res (list Z * Z) :=
  loop (S (S (Z.to_nat (endPos - dstPos))))
    (fun '(h, dstPos) =>
       if dstPos <? endPos then
         let! '(h, n) := copyHist h dstPos endPos srcPos dstPos in
         Ok (inl (h, dstPos + n))
       else Ok (inr (h, dstPos))) (h, dstPos).

Definition writeCopy (dd : dictDecoder) (dist length : Z) : res (Z * dictDecoder) :=
  let dstBase := wrPos dd in
  let dstPos := dstBase in
  let srcPos := dstPos - dist in
  let endPos := Z.min (dstPos + length) (len (hist dd)) in
  let! '(h, dstPos, srcPos) :=
    if srcPos <? 0 then
      let srcPos := srcPos + len (hist dd) in
      let! '(h, n) := copyHist (hist dd) dstPos endPos srcPos (len (hist dd)) in
      Ok (h, dstPos + n, 0)
    else Ok (hist dd, dstPos, srcPos) in
  let! '(h, dstPos) := copyForward h dstPos endPos srcPos in
  Ok (dstPos - dstBase, mkDict h dstPos (rdPos dd) (full dd)).

Definition tryWriteCopy (dd : dictDecoder) (dist length : Z) : res (Z * dictDecoder) :=
  let dstPos := wrPos dd in
  let endPos := dstPos + length in
  if (dstPos <? dist) || (endPos >? len (hist dd)) then Ok (0, dd) else
  let dstBase := dstPos in
  let srcPos := dstPos - dist in
  let! '(h, dstPos) := copyForward (hist dd) dstPos endPos srcPos in
  Ok (dstPos - dstBase, mkDict h dstPos (rdPos dd) (full dd)).

Definition readFlush (dd : dictDecoder) : res (list Z * dictDecoder) :=
  let! toRead := slice (hist dd) (rdPos dd) (wrPos dd) in
  if wrPos dd =? len (hist dd) then Ok (toRead, mkDict (hist dd) 0 0 true)
  else Ok (toRead, mkDict (hist dd) (wrPos dd) (wrPos dd) (full dd)).

(** ** Huffman decoders *)

Definition maxCodeLen : Z := 16.
Definition maxNumLit : Z := 286.
Definition maxNumDist : Z := 30.
Definition numCodes : Z := 19.
Definition maxMatchOffset : Z := Z.shiftl 1 15.
Definition endBlockMarker : Z := 256.
Definition huffmanChunkBits : Z := 9.
Definition huffmanNumChunks : Z := Z.shiftl 1 huffmanChunkBits.
Definition huffmanCountMask : Z := 15.
Definition huffmanValueShift : Z := 4.

Record huffmanDecoder := mkHuff { hmin : Z; chunks : list Z; links : list (list Z); linkMask : Z }.

Definition zeroHuff : huffmanDecoder := mkHuff 0 (replicate (Z.to_nat huffmanNumChunks) 0) [] 0.

(** The number of codes of each length, the shortest and the longest. *)
Fixpoint countLengths (count : list Z) (min max : Z) (lengths : list Z) : res (list Z * Z * Z) :=
  match lengths with
  | [] => Ok (count, min, max)
  | n :: lengths =>
      if n =? 0 then countLengths count min max lengths else
      let min := if (min =? 0) || (n <? min) then n else min in
      let max := if n >? max then n else max in
      let! c := idx count n in
      let! count := upd count n (c + 1) in
      countLengths count min max lengths
  end.

(** [for i := min; i <= max; i++ { .. }] *)
Definition firstCodes (count : list Z) (min max : Z) : res (list Z * Z) :=
  loop (S (S (Z.to_nat max)))
    (fun '(i, nextcode, code) =>
       if i <=? max then
         let code := Z.shiftl code 1 in
         let! nextcode := upd nextcode i code in
         let! c := idx count i in
         Ok (inl (i + 1, nextcode, code + c))
       else Ok (inr (nextcode, code))) (min, replicate (Z.to_nat maxCodeLen) 0, 0).

(** The tables for the codes longer than a chunk. *)
Definition makeLinks (h : huffmanDecoder) (max : Z) (nextcode : list Z) : res huffmanDecoder :=
  let numLinks := Z.shiftl 1 (max - huffmanChunkBits) in
  let mask := u32 (numLinks - 1) in
  let! c := idx nextcode (huffmanChunkBits + 1) in
  let link := Z.shiftr c 1 in
  if huffmanNumChunks - link <? 0 then Panic else
  loop (S (Z.to_nat huffmanNumChunks))
    (fun '(j, h) =>
       if j <? huffmanNumChunks then
         let! reverse := Reverse16 (u16 j) in
         let reverse := Z.shiftr reverse (16 - huffmanChunkBits) in
         let off := j - link in
         let! cs := upd (chunks h) reverse (u32 (Z.lor (Z.shiftl off huffmanValueShift) (huffmanChunkBits + 1))) in
         let! ls := upd (links h) off (replicate (Z.to_nat numLinks) 0) in
         Ok (inl (j + 1, mkHuff (hmin h) cs ls (linkMask h)))
       else Ok (inr h))
    (link, mkHuff (hmin h) (chunks h) (replicate (Z.to_nat (huffmanNumChunks - link)) []) mask).

(** [for off := start; off < len(tab); off += step { tab[off] = chunk }] *)
Definition fillTab (tab : list Z) (start step chunk : Z) : res (list Z) :=
  loop (S (length tab))
    (fun '(off, tab) =>
       if off <? len tab then
         let! tab := upd tab off chunk in
         Ok (inl (off + step, tab))
       else Ok (inr tab)) (start, tab).

(** The symbol [i] with a code of [n] bits gets its entries. *)
Definition addCode (h : huffmanDecoder) (i n code : Z) : res huffmanDecoder :=
  let chunk := u32 (Z.lor (Z.shiftl i huffmanValueShift) n) in
  let! reverse := Reverse16 (u16 code) in
  let reverse := Z.shiftr reverse (16 - n) in
  if n <=? huffmanChunkBits then
    let! cs := fillTab (chunks h) reverse (Z.shiftl 1 n) chunk in
    Ok (mkHuff (hmin h) cs (links h) (linkMask h))
  else
    let j := Z.land reverse (huffmanNumChunks - 1) in
    let! c := idx (chunks h) j in
    let value := Z.shiftr c huffmanValueShift in
    let! linktab := idx (links h) value in
    let reverse := Z.shiftr reverse huffmanChunkBits in
    let! linktab := fillTab linktab reverse (Z.shiftl 1 (n - huffmanChunkBits)) chunk in
    let! ls := upd (links h) value linktab in
    Ok (mkHuff (hmin h) (chunks h) ls (linkMask h)).

Fixpoint addCodes (h : huffmanDecoder) (nextcode : list Z) (i : Z) (lengths : list Z) : res huffmanDecoder :=
  match lengths with
  | [] => Ok h
  | n :: lengths =>
      if n =? 0 then addCodes h nextcode (i + 1) lengths else
      let! code := idx nextcode n in
      let! nextcode := upd nextcode n (code + 1) in
      let! h := addCode h i n code in
      addCodes h nextcode (i + 1) lengths
  end.

Definition huff_init (h : huffmanDecoder) (lengths : list Z) : res (bool * huffmanDecoder) :=
  let h := if negb (hmin h =? 0) then zeroHuff else h in
  let! '(count, min, max) := countLengths (replicate (Z.to_nat maxCodeLen) 0) 0 0 lengths in
  if max =? 0 then Ok (true, h) else
  let! '(nextcode, code) := firstCodes count min max in
  if negb (code =? Z.shiftl 1 max) && negb ((code =? 1) && (max =? 1)) then Ok (false, h) else
  let h := mkHuff min (chunks h) (links h) (linkMask h) in
  let! h := if max >? huffmanChunkBits then makeLinks h max nextcode else Ok h in
  let! h := addCodes h nextcode 0 lengths in
  Ok (true, h).

(** The lengths of RFC 1951, section 3.2.6. *)
Definition fixedLengths : list Z := replicate 144 8 ++ replicate 112 9 ++ replicate 24 7 ++ replicate 8 8.

Definition fixedHuffmanDecoder : huffmanDecoder :=
  match huff_init zeroHuff fixedLengths with Ok (_, h) => h | _ => zeroHuff end.

(** ** The decompressor *)

Inductive stepFn := nextBlockStep | huffmanBlockStep | copyDataStep.
Inductive blockState := stateInit | stateDict.
Inductive huffPtr := hNil | hFixed | hH1 | hH2.

Record decompressor (S : Type) := mkDec {
  d_r : S;
  roffset : Z;
  d_b : Z;
  d_nb : Z;
  h1 : huffmanDecoder;
  h2 : huffmanDecoder;
  d_bits : list Z;
  codebits : list Z;
  d_dict : dictDecoder;
  d_step : stepFn;
  stepState : blockState;
  d_final : bool;
  d_err : option flateError;
  d_toRead : list Z;
  d_hl : huffPtr;
  d_hd : huffPtr;
  copyLen : Z;
  copyDist : Z;
}.
Arguments mkDec {S}.
Arguments d_r {S}.
Arguments roffset {S}.
Arguments d_b {S}.
Arguments d_nb {S}.
Arguments h1 {S}.
Arguments h2 {S}.
Arguments d_bits {S}.
Arguments codebits {S}.
Arguments d_dict {S}.
Arguments d_step {S}.
Arguments stepState {S}.
Arguments d_final {S}.
Arguments d_err {S}.
Arguments d_toRead {S}.
Arguments d_hl {S}.
Arguments d_hd {S}.
Arguments copyLen {S}.
Arguments copyDist {S}.

Definition noEOF (e : flateError) : flateError := if decide (e = IoError EOF) then ErrUnexpectedEOF else e.

(** [codeOrder] of RFC 1951, section 3.2.7. *)
Definition codeOrder : list Z := [16; 17; 18; 0; 8; 7; 9; 6; 10; 5; 11; 4; 12; 3; 13; 2; 14; 1; 15].

(** The base and the number of extra bits of a length symbol. *)
Definition lengthCode (v : Z) : option (Z * Z) :=
  if v <? 265 then Some (v - (257 - 3), 0)
  else if v <? 269 then Some (v * 2 - (265 * 2 - 11), 1)
  else if v <? 273 then Some (v * 4 - (269 * 4 - 19), 2)
  else if v <? 277 then Some (v * 8 - (273 * 8 - 35), 3)
  else if v <? 281 then Some (v * 16 - (277 * 16 - 67), 4)
  else if v <? 285 then Some (v * 32 - (281 * 32 - 131), 5)
  else if v <? maxNumLit then Some (258, 0)
  else None.

Section Decompressor.
Context {S : Type} {RD : ioReader S} {BR : byteReader S}.
Implicit Types f : decompressor S.

Definition setIn f (r : S) (off b nb : Z) : decompressor S :=
  mkDec r off b nb (h1 f) (h2 f) (d_bits f) (codebits f) (d_dict f) (d_step f) (stepState f) (d_final f) (d_err f) (d_toRead f)
    (d_hl f) (d_hd f) (copyLen f) (copyDist f).
Definition setTrees f (t1 t2 : huffmanDecoder) (bits cbits : list Z) : decompressor S :=
  mkDec (d_r f) (roffset f) (d_b f) (d_nb f) t1 t2 bits cbits (d_dict f) (d_step f) (stepState f) (d_final f) (d_err f) (d_toRead f)
    (d_hl f) (d_hd f) (copyLen f) (copyDist f).
Definition setOut f (dict : dictDecoder) (toRead : list Z) : decompressor S :=
  mkDec (d_r f) (roffset f) (d_b f) (d_nb f) (h1 f) (h2 f) (d_bits f) (codebits f) dict (d_step f) (stepState f) (d_final f) (d_err f) toRead
    (d_hl f) (d_hd f) (copyLen f) (copyDist f).
Definition setStep f (step : stepFn) (state : blockState) : decompressor S :=
  mkDec (d_r f) (roffset f) (d_b f) (d_nb f) (h1 f) (h2 f) (d_bits f) (codebits f) (d_dict f) step state (d_final f) (d_err f) (d_toRead f)
    (d_hl f) (d_hd f) (copyLen f) (copyDist f).
Definition setFlateErr f (err : option flateError) : decompressor S :=
  mkDec (d_r f) (roffset f) (d_b f) (d_nb f) (h1 f) (h2 f) (d_bits f) (codebits f) (d_dict f) (d_step f) (stepState f) (d_final f) err (d_toRead f)
    (d_hl f) (d_hd f) (copyLen f) (copyDist f).
Definition setBlock f (final : bool) (hl hd : huffPtr) : decompressor S :=
  mkDec (d_r f) (roffset f) (d_b f) (d_nb f) (h1 f) (h2 f) (d_bits f) (codebits f) (d_dict f) (d_step f) (stepState f) final (d_err f) (d_toRead f)
    hl hd (copyLen f) (copyDist f).
Definition setCopy f (n dist : Z) : decompressor S :=
  mkDec (d_r f) (roffset f) (d_b f) (d_nb f) (h1 f) (h2 f) (d_bits f) (codebits f) (d_dict f) (d_step f) (stepState f) (d_final f) (d_err f) (d_toRead f)
    (d_hl f) (d_hd f) n dist.

Definition corrupt f : flateError := CorruptInputError (roffset f).

(** *** Bits *)

Definition moreBits f : option flateError * decompressor S :=
  let '(c, err, r) := readByte (d_r f) in
  match err with
  | Some err => (Some (noEOF (IoError err)), setIn f r (roffset f) (d_b f) (d_nb f))
  | None => (None, setIn f r (roffset f + 1) (Z.lor (d_b f) (u32 (Z.shiftl c (d_nb f)))) (d_nb f + 8))
  end.

(** [for f.nb < n { if err := f.moreBits(); err != nil { .. } }] *)
Definition needBits f (n : Z) : res (option flateError * decompressor S) :=
  loop (Datatypes.S (Z.to_nat n))
    (fun f =>
       if d_nb f <? n then
         let '(err, f) := moreBits f in
         match err with
         | Some err => Ok (inr (Some err, f))
         | None => Ok (inl f)
         end
       else Ok (inr (None, f))) f.

(** [int(f.b & (1<<n - 1))] and [f.b >>= n] *)
Definition lowBits f (n : Z) : Z := Z.land (d_b f) (u32 (Z.shiftl 1 n - 1)).
Definition dropBits f (n : Z) : decompressor S := setIn f (d_r f) (roffset f) (Z.shiftr (d_b f) n) (d_nb f - n).

(** [for f.nb < n ..], the bits and their removal. *)
Definition getBits f (n : Z) : res (Z * option flateError * decompressor S) :=
  let! '(err, f) := needBits f n in
  match err with
  | Some err => Ok (0, Some err, f)
  | None => Ok (lowBits f n, None, dropBits f n)
  end.

(** [for nb < n { .. }] of huffSym *)
Definition symBits f (n : Z) : res (option flateError * decompressor S) :=
  loop (Datatypes.S (Z.to_nat n))
    (fun f =>
       if d_nb f <? n then
         let '(c, err, r) := readByte (d_r f) in
         match err with
         | Some err => Ok (inr (Some (noEOF (IoError err)), setIn f r (roffset f) (d_b f) (d_nb f)))
         | None => Ok (inl (setIn f r (roffset f + 1) (Z.lor (d_b f) (u32 (Z.shiftl c (Z.land (d_nb f) 31)))) (d_nb f + 8)))
         end
       else Ok (inr (None, f))) f.

(** The chunk for the bits [b] and its length. *)
Definition lookupChunk (h : huffmanDecoder) (b : Z) : res (Z * Z) :=
  let! chunk := idx (chunks h) (Z.land b (huffmanNumChunks - 1)) in
  let n := Z.land chunk huffmanCountMask in
  if n >? huffmanChunkBits then
    let! tab := idx (links h) (Z.shiftr chunk huffmanValueShift) in
    let! chunk := idx tab (Z.land (Z.shiftr b huffmanChunkBits) (linkMask h)) in
    Ok (chunk, Z.land chunk huffmanCountMask)
  else Ok (chunk, n).

(** Each round but the last reads. *)
Definition huffSym f (h : huffmanDecoder) : res (Z * option flateError * decompressor S) :=
  loop (Datatypes.S (Datatypes.S (Z.to_nat maxCodeLen)))
    (fun '(n, f) =>
       let! '(err, f) := symBits f n in
       match err with
       | Some err => Ok (inr (0, Some err, f))
       | None =>
           let! '(chunk, n) := lookupChunk h (d_b f) in
           if n <=? d_nb f then
             if n =? 0 then
               let err := corrupt f in
               Ok (inr (0, Some err, setFlateErr f (Some err)))
             else Ok (inr (Z.shiftr chunk huffmanValueShift, None, setIn f (d_r f) (roffset f) (Z.shiftr (d_b f) (Z.land n 31)) (d_nb f - n)))
           else Ok (inl (n, f))
       end) (hmin h, f).

Definition tree f (p : huffPtr) : res huffmanDecoder :=
  match p with
  | hNil => Panic
  | hFixed => Ok fixedHuffmanDecoder
  | hH1 => Ok (h1 f)
  | hH2 => Ok (h2 f)
  end.

(** *** Trees *)

(** [for i := 0; i < nclen; i++ { .. f.codebits[codeOrder[i]] = .. }] *)
Definition readCodebits f (nclen : Z) : res (option flateError * decompressor S) :=
  loop (Datatypes.S (length codeOrder))
    (fun '(i, f) =>
       if i <? nclen then
         let! '(x, err, f) := getBits f 3 in
         match err with
         | Some err => Ok (inr (Some err, f))
         | None =>
             let! o := idx codeOrder i in
             let! cb := upd (codebits f) o x in
             Ok (inl (i + 1, setTrees f (h1 f) (h2 f) (d_bits f) cb))
         end
       else Ok (inr (None, f))) (0, f).

(** [for i := nclen; i < len(codeOrder); i++ { f.codebits[codeOrder[i]] = 0 }] *)
Definition clearCodebits (cb : list Z) (nclen : Z) : res (list Z) :=
  loop (Datatypes.S (length codeOrder))
    (fun '(i, cb) =>
       if i <? len codeOrder then
         let! o := idx codeOrder i in
         let! cb := upd cb o 0 in
         Ok (inl (i + 1, cb))
       else Ok (inr cb)) (nclen, cb).

(** [for j := 0; j < rep; j++ { f.bits[i] = b; i++ }] *)
Definition repeatBits (bits : list Z) (i rep b : Z) : res (list Z) :=
  loop (Datatypes.S (Z.to_nat rep))
    (fun '(j, bits) =>
       if j <? rep then
         let! bits := upd bits (i + j) b in
         Ok (inl (j + 1, bits))
       else Ok (inr bits)) (0, bits).

(** One round of the loop over the code lengths. *)
Definition lengthStep (n : Z) (st : Z * decompressor S) : res (Z * decompressor S + option flateError * decompressor S) :=
  let '(i, f) := st in
  if i <? n then
    let! '(x, err, f) := huffSym f (h1 f) in
    match err with
    | Some err => Ok (inr (Some err, f))
    | None =>
        if x <? 16 then
          let! bits := upd (d_bits f) i x in
          Ok (inl (i + 1, setTrees f (h1 f) (h2 f) bits (codebits f)))
        else
          let again rep nb b :=
            let! '(k, err, f) := getBits f nb in
            match err with
            | Some err => Ok (inr (Some err, f))
            | None =>
                let rep := rep + k in
                if i + rep >? n then Ok (inr (Some (corrupt f), f)) else
                let! bits := repeatBits (d_bits f) i rep b in
                Ok (inl (i + rep, setTrees f (h1 f) (h2 f) bits (codebits f)))
            end in
          if x =? 16 then
            if i =? 0 then Ok (inr (Some (corrupt f), f)) else
            let! b := idx (d_bits f) (i - 1) in again 3 2 b
          else if x =? 17 then again 3 3 0
          else if x =? 18 then again 11 7 0
          else Ok (inr (Some InternalError, f))
    end
  else Ok (inr (None, f)).

Definition readHuffman f : res (option flateError * decompressor S) :=
  let! '(err, f) := needBits f (5 + 5 + 4) in
  match err with
  | Some err => Ok (Some err, f)
  | None =>
      let nlit := Z.land (d_b f) 0x1F + 257 in
      if nlit >? maxNumLit then Ok (Some (corrupt f), f) else
      let f := setIn f (d_r f) (roffset f) (Z.shiftr (d_b f) 5) (d_nb f) in
      let ndist := Z.land (d_b f) 0x1F + 1 in
      if ndist >? maxNumDist then Ok (Some (corrupt f), f) else
      let f := setIn f (d_r f) (roffset f) (Z.shiftr (d_b f) 5) (d_nb f) in
      let nclen := Z.land (d_b f) 0xF + 4 in
      let f := setIn f (d_r f) (roffset f) (Z.shiftr (d_b f) 4) (d_nb f - (5 + 5 + 4)) in
      let! '(err, f) := readCodebits f nclen in
      match err with
      | Some err => Ok (Some err, f)
      | None =>
          let! cb := clearCodebits (codebits f) nclen in
          let! '(ok, t) := huff_init (h1 f) cb in
          let f := setTrees f t (h2 f) (d_bits f) cb in
          if negb ok then Ok (Some (corrupt f), f) else
          let! '(err, f) := loop (Datatypes.S (Z.to_nat (nlit + ndist))) (lengthStep (nlit + ndist)) (0, f) in
          match err with
          | Some err => Ok (Some err, f)
          | None =>
              let! lit := slice (d_bits f) 0 nlit in
              let! '(ok, t) := huff_init (h1 f) lit in
              let f := setTrees f t (h2 f) (d_bits f) (codebits f) in
              if negb ok then Ok (Some (corrupt f), f) else
              let! dst := slice (d_bits f) nlit (nlit + ndist) in
              let! '(ok, t) := huff_init (h2 f) dst in
              let f := setTrees f (h1 f) t (d_bits f) (codebits f) in
              if negb ok then Ok (Some (corrupt f), f) else
              let! e := idx (d_bits f) endBlockMarker in
              let t := h1 f in
              let t := if hmin t <? e then mkHuff e (chunks t) (links t) (linkMask t) else t in
              Ok (None, setTrees f t (h2 f) (d_bits f) (codebits f))
          end
      end
  end.

(** *** Blocks *)

Definition flushOut f : res (decompressor S) :=
  let! '(out, dict) := readFlush (d_dict f) in
  Ok (setOut f dict out).

Definition finishBlock f : res (decompressor S) :=
  let! f :=
    if d_final f then
      let! f := if availRead (d_dict f) >? 0 then flushOut f else Ok f in
      Ok (setFlateErr f (Some (IoError EOF)))
    else Ok f in
  Ok (setStep f nextBlockStep (stepState f)).

(** The distance of a distance symbol, after its extra bits. *)
Definition readDist f (dist : Z) : res (Z * option flateError * decompressor S) :=
  if dist <? 4 then Ok (dist + 1, None, f)
  else if dist <? maxNumDist then
    let nb := Z.shiftr (dist - 2) 1 in
    let extra := Z.shiftl (Z.land dist 1) nb in
    let! '(x, err, f) := getBits f nb in
    match err with
    | Some err => Ok (0, Some err, f)
    | None => Ok (Z.shiftl 1 (nb + 1) + 1 + Z.lor extra x, None, f)
    end
  else Ok (0, Some (corrupt f), f).

(** The symbol of the distance. *)
Definition distSym f : res (Z * option flateError * decompressor S) :=
  match d_hd f with
  | hNil =>
      let! '(err, f) := needBits f 5 in
      match err with
      | Some err => Ok (0, Some err, f)
      | None =>
          let! dist := Reverse8 (u8 (Z.shiftl (Z.land (d_b f) 0x1F) 3)) in
          Ok (dist, None, dropBits f 5)
      end
  | p => let! h := tree f p in huffSym f h
  end.

(** [inl true]: on to copyHistory, [inl false]: again, [inr]: return. *)
Definition readLiteral f : res ((bool * decompressor S) + decompressor S) :=
  let fail err f := Ok (inr (setFlateErr f (Some err))) in
  let! h := tree f (d_hl f) in
  let! '(v, err, f) := huffSym f h in
  match err with
  | Some err => fail err f
  | None =>
      if v <? 256 then
        let! dict := dict_writeByte (d_dict f) (u8 v) in
        let f := setOut f dict (d_toRead f) in
        if availWrite (d_dict f) =? 0 then
          let! f := flushOut f in Ok (inr (setStep f huffmanBlockStep stateInit))
        else Ok (inl (false, f))
      else if v =? 256 then let! f := finishBlock f in Ok (inr f)
      else
        match lengthCode v with
        | None => fail (corrupt f) f
        | Some (base, n) =>
            let! '(x, err, f) := if n >? 0 then getBits f n else Ok (0, None, f) in
            match err with
            | Some err => fail err f
            | None =>
                let length := base + x in
                let! '(dist, err, f) := distSym f in
                match err with
                | Some err => fail err f
                | None =>
                    let! '(dist, err, f) := readDist f dist in
                    match err with
                    | Some err => fail err f
                    | None =>
                        if dist >? histSize (d_dict f) then fail (corrupt f) f
                        else Ok (inl (true, setCopy f length dist))
                    end
                end
            end
        end
  end.

Definition copyHistory f : res ((bool * decompressor S) + decompressor S) :=
  let! '(cnt, dict) := tryWriteCopy (d_dict f) (copyDist f) (copyLen f) in
  let! '(cnt, dict) := if cnt =? 0 then writeCopy dict (copyDist f) (copyLen f) else Ok (cnt, dict) in
  let f := setCopy (setOut f dict (d_toRead f)) (copyLen f - cnt) (copyDist f) in
  if (availWrite (d_dict f) =? 0) || (copyLen f >? 0) then
    let! f := flushOut f in Ok (inr (setStep f huffmanBlockStep stateDict))
  else Ok (inl (false, f)).

(** [fuel]: symbols and copies. *)
Definition huffmanBlock (fuel : nat) f : res (decompressor S) :=
  loop fuel
    (fun '(copying, f) => if copying : bool then copyHistory f else readLiteral f)
    (match stepState f with stateInit => false | stateDict => true end, f).

Definition copyData (fuel : nat) f : res (decompressor S) :=
  let! buf := writeSlice (d_dict f) in
  let! buf := if len buf >? copyLen f then slice buf 0 (copyLen f) else Ok buf in
  let! '(buf, cnt, err, r) := ReadFull fuel (d_r f) buf in
  let d := d_dict f in
  let h := take (Z.to_nat (wrPos d)) (hist d) ++ buf ++ drop (Z.to_nat (wrPos d) + length buf) (hist d) in
  let d := writeMark (mkDict h (wrPos d) (rdPos d) (full d)) cnt in
  let f := setCopy (setOut (setIn f r (roffset f + cnt) (d_b f) (d_nb f)) d (d_toRead f)) (copyLen f - cnt) (copyDist f) in
  match err with
  | Some err => Ok (setFlateErr f (Some (noEOF err)))
  | None =>
      if (availWrite (d_dict f) =? 0) || (copyLen f >? 0) then
        let! f := flushOut f in Ok (setStep f copyDataStep (stepState f))
      else finishBlock f
  end.

Definition dataBlock (fuel : nat) f : res (decompressor S) :=
  let f := setIn f (d_r f) (roffset f) 0 0 in
  let! '(buf, nr, err, r) := ReadFull fuel (d_r f) (replicate 4 0) in
  let f := setIn f r (roffset f + nr) (d_b f) (d_nb f) in
  match err with
  | Some err => Ok (setFlateErr f (Some (noEOF err)))
  | None =>
      let! b0 := idx buf 0 in
      let! b1 := idx buf 1 in
      let! b2 := idx buf 2 in
      let! b3 := idx buf 3 in
      let n := Z.lor b0 (Z.shiftl b1 8) in
      let nn := Z.lor b2 (Z.shiftl b3 8) in
      if negb (u16 nn =? u16 (Z.lnot n)) then Ok (setFlateErr f (Some (corrupt f)))
      else if n =? 0 then let! f := flushOut f in finishBlock f
      else copyData fuel (setCopy f n (copyDist f))
  end.

Definition nextBlock (fuel : nat) f : res (decompressor S) :=
  let! '(err, f) := needBits f (1 + 2) in
  match err with
  | Some err => Ok (setFlateErr f (Some err))
  | None =>
      let final := Z.land (d_b f) 1 =? 1 in
      let typ := Z.land (Z.shiftr (d_b f) 1) 3 in
      let f := setIn f (d_r f) (roffset f) (Z.shiftr (Z.shiftr (d_b f) 1) 2) (d_nb f - (1 + 2)) in
      let f := setBlock f final (d_hl f) (d_hd f) in
      if typ =? 0 then dataBlock fuel f
      else if typ =? 1 then huffmanBlock fuel (setBlock f final hFixed hNil)
      else if typ =? 2 then
        let! '(err, f) := readHuffman f in
        match err with
        | Some err => Ok (setFlateErr f (Some err))
        | None => huffmanBlock fuel (setBlock (setFlateErr f None) final hH1 hH2)
        end
      else Ok (setFlateErr f (Some (corrupt f)))
  end.

Definition doStep (fuel : nat) f : res (decompressor S) :=
  match d_step f with
  | nextBlockStep => nextBlock fuel f
  | huffmanBlockStep => huffmanBlock fuel f
  | copyDataStep => copyData fuel f
  end.

(** [Read(b)] with a buffer of [n] bytes: the bytes and the error.  [fuel]: the
    steps, and the rounds of each. *)
Definition flate_Read (fuel : nat) f (n : Z) : res (list Z * option flateError * decompressor S) :=
  loop fuel
    (fun f =>
       if len (d_toRead f) >? 0 then
         let k := Z.min n (len (d_toRead f)) in
         let out := take (Z.to_nat k) (d_toRead f) in
         let! rest := slice_from (d_toRead f) k in
         let f := setOut f (d_dict f) rest in
         Ok (inr (out, if len (d_toRead f) =? 0 then d_err f else None, f))
       else
         match d_err f with
         | Some err => Ok (inr ([], Some err, f))
         | None =>
             let! f := doStep fuel f in
             let! f := if bool_decide (d_err f <> None) && (len (d_toRead f) =? 0) then flushOut f else Ok f in
             Ok (inl f)
         end) f.

Definition flate_Close f : option flateError := if decide (d_err f = Some (IoError EOF)) then None else d_err f.

Definition newDecompressor (r : S) (dict : dictDecoder) (bits cbits : list Z) : decompressor S :=
  mkDec r 0 0 0 zeroHuff zeroHuff bits cbits dict nextBlockStep stateInit false None [] hNil hNil 0 0.

Definition flate_Reset f (r : S) (dict : list Z) : res (decompressor S) :=
  let! d := dict_init (d_dict f) maxMatchOffset dict in
  Ok (newDecompressor r d (d_bits f) (codebits f)).

Definition NewReaderDict (r : S) (dict : list Z) : res (decompressor S) :=
  let! d := dict_init zeroDict maxMatchOffset dict in
  Ok (newDecompressor r d (replicate (Z.to_nat (maxNumLit + maxNumDist)) 0) (replicate (Z.to_nat numCodes) 0)).

Definition flate_NewReader (r : S) : res (decompressor S) := NewReaderDict r [].
End Decompressor.
