(* ===== verification/FlateTables.v ===== *)
(** * compress/flate: canonical Huffman codes

    RFC 1951, section 3.2.2: a list of code lengths defines the codes.  Codes of
    the same length are consecutive numbers in the order of the symbols, and a
    longer code comes after the shorter ones.  Two codes have no value in common,
    and the codes of a complete list have every value. *)
From Stdlib Require Import ZArith Lia.
From stdpp Require Import base numbers list.
From S2P Require Import Prelude Bits Lzw LzwBits Bufio Flate.

(** ** Bits, the most significant first *)

Definition valM (l : list bool) : Z := valL (reverse l).

Lemma valL_app l k : valL (l ++ k) = valL l + 2 ^ Z.of_nat (length l) * valL k.
Proof.
  induction l as [|b l IH]; simpl length; [simpl; lia|]. rewrite Nat2Z.inj_succ, Z.pow_succ_r by lia. cbn [app valL]. rewrite IH. lia.
Qed.

Lemma valM_app l k : valM (l ++ k) = valM l * 2 ^ Z.of_nat (length k) + valM k.
Proof. unfold valM. rewrite reverse_app, valL_app, length_reverse. lia. Qed.

Lemma valM_range l : 0 <= valM l < 2 ^ Z.of_nat (length l).
Proof. unfold valM. rewrite <- length_reverse. apply valL_range. Qed.

Lemma valL_inj l k : length l = length k -> valL l = valL k -> l = k.
Proof. intros Hl Hv. rewrite <- (bitsL_valL l), <- (bitsL_valL k), Hl. by rewrite Hv. Qed.

Lemma valM_inj l k : length l = length k -> valM l = valM k -> l = k.
Proof. intros Hl Hv. apply (inj reverse), valL_inj; [by rewrite !length_reverse | done]. Qed.

Lemma valM_reverse_bitsL n x : 0 <= x < 2 ^ Z.of_nat n -> valM (reverse (bitsL n x)) = x.
Proof. intros. unfold valM. rewrite reverse_involutive. by apply valL_bitsL. Qed.

(** [c] starts [B] when it has the leading bits of its value. *)
Lemma starts_value (c B : list bool) n w :
  length c = Z.to_nat n -> length B = Z.to_nat w -> 0 <= n <= w ->
  take (Z.to_nat n) B = c <-> valM B / 2 ^ (w - n) = valM c.
Proof.
  intros Hc HB Hn. rewrite <- (take_drop (Z.to_nat n) B) at 2. rewrite valM_app, length_drop, HB.
  replace (Z.of_nat (Z.to_nat w - Z.to_nat n)) with (w - n) by lia.
  pose proof (valM_range (drop (Z.to_nat n) B)) as Hr. rewrite length_drop, HB in Hr.
  replace (Z.of_nat (Z.to_nat w - Z.to_nat n)) with (w - n) in Hr by lia.
  rewrite Z.add_comm, Z.div_add, Z.div_small by lia. simpl. split; [by intros ->|].
  intros Hv. apply valM_inj; [|done]. rewrite length_take. lia.
Qed.

(** ** Codes *)

Section Codes.
Variable lens : list Z.

Definition cnt (n : Z) : Z := len (filter (fun x => x = n) lens).

(** The first code of [n] bits, and the one after the last. *)
Fixpoint first (n : nat) : Z :=
  match n with
  | O => 0
  | S m => 2 * (first m + match m with O => 0 | S _ => cnt (Z.of_nat m) end)
  end.

Definition past (n : Z) : Z := first (Z.to_nat n) + (if n =? 0 then 0 else cnt n).

Lemma first_succ n : 0 <= n -> first (Z.to_nat (n + 1)) = 2 * past n.
Proof.
  intros Hn. replace (Z.to_nat (n + 1)) with (S (Z.to_nat n)) by lia. cbn [first]. unfold past.
  destruct (Z.eqb_spec n 0) as [->|]; [done|]. destruct (Z.to_nat n) eqn:E; [lia|]. rewrite <- E. by rewrite Z2Nat.id by lia.
Qed.

Lemma cnt_nonneg n : 0 <= cnt n.
Proof. apply len_nonneg. Qed.

Lemma first_nonneg n : 0 <= first n.
Proof.
  induction n as [|n IH]; cbn [first]; [lia|]. destruct n as [|n]; [lia|]. pose proof (cnt_nonneg (Z.of_nat (S n))). lia.
Qed.

Lemma past_first n : 0 <= n -> first (Z.to_nat n) <= past n.
Proof. intros. unfold past. pose proof (cnt_nonneg n). destruct (n =? 0); lia. Qed.

(** Codes of more bits come later. *)
Lemma first_past n m : 0 <= n < m -> past n * 2 ^ (m - n) <= first (Z.to_nat m).
Proof.
  intros H. replace m with (n + 1 + Z.of_nat (Z.to_nat (m - n - 1))) by lia. generalize (Z.to_nat (m - n - 1)). intros k.
  induction k as [|k IH].
  - rewrite Nat2Z.inj_0, Z.add_0_r, first_succ by lia. replace (n + 1 - n) with 1 by lia. lia.
  - replace (n + 1 + Z.of_nat (S k)) with ((n + 1 + Z.of_nat k) + 1) by lia. rewrite first_succ by lia.
    pose proof (past_first (n + 1 + Z.of_nat k) ltac:(lia)). replace (n + 1 + Z.of_nat k + 1 - n) with (Z.succ (n + 1 + Z.of_nat k - n)) by lia.
    rewrite Z.pow_succ_r by lia. lia.
Qed.

(** The symbol [i] has a code of [n] bits. *)
Definition hasCode (i n : Z) : Prop := 0 <= i /\ 0 < n /\ lens !! Z.to_nat i = Some n.

Definition rank (i n : Z) : Z := len (filter (fun x => x = n) (take (Z.to_nat i) lens)).

Definition codeOf (i n : Z) : Z := first (Z.to_nat n) + rank i n.

Lemma filter_take_le (P : Z -> Prop) {HP : forall x, Decision (P x)} (l : list Z) k m :
  (k <= m)%nat -> (length (filter P (take k l)) <= length (filter P (take m l)))%nat.
Proof.
  intros H. replace m with (k + (m - k))%nat by lia. rewrite <- take_take_drop, filter_app, length_app. lia.
Qed.

(** A symbol counts after it. *)
Lemma rank_step i n k : hasCode i n -> (Z.to_nat i < k)%nat -> rank i n + 1 <= len (filter (fun x => x = n) (take k lens)).
Proof.
  intros (Hi & _ & Hl) Hk. unfold rank, len.
  assert (H : (length (filter (fun x => x = n) (take (S (Z.to_nat i)) lens)) <= length (filter (fun x => x = n) (take k lens)))%nat)
    by (apply filter_take_le; lia).
  rewrite (take_S_r _ _ n) in H by done. rewrite filter_app, length_app in H. rewrite (filter_cons_True _ n []) in H by done. simpl in H. lia.
Qed.

Lemma rank_cnt i n : hasCode i n -> 0 <= rank i n /\ rank i n + 1 <= cnt n.
Proof.
  intros H. split; [apply len_nonneg|]. pose proof (rank_step i n (length lens) H) as Hr. rewrite take_ge in Hr by done. apply Hr.
  destruct H as (_ & _ & Hl). by apply lookup_lt_Some in Hl.
Qed.

Lemma rank_lt i j n : hasCode i n -> hasCode j n -> i < j -> rank i n < rank j n.
Proof. intros Hi Hj Hlt. pose proof (rank_step i n (Z.to_nat j) Hi ltac:(destruct Hi; lia)). unfold rank at 2. lia. Qed.

Lemma codeOf_range i n : hasCode i n -> first (Z.to_nat n) <= codeOf i n < past n.
Proof.
  intros H. destruct (rank_cnt i n H). unfold codeOf, past. destruct H as (_ & Hn & _). destruct (Z.eqb_spec n 0); lia.
Qed.

(** A code of fewer bits, or of an earlier symbol, is before. *)
Lemma code_before i n j m w :
  hasCode i n -> hasCode j m -> n <= w -> m <= w -> n < m \/ (n = m /\ i < j) ->
  (codeOf i n + 1) * 2 ^ (w - n) <= codeOf j m * 2 ^ (w - m).
Proof.
  intros Hi Hj Hn Hm Hlt. pose proof (codeOf_range i n Hi). pose proof (codeOf_range j m Hj). pose proof (proj1 (proj2 Hi)).
  destruct Hlt as [Hlt|[-> Hlt]].
  - pose proof (first_past n m ltac:(lia)) as Hf. replace (w - n) with ((m - n) + (w - m)) by lia. rewrite Z.pow_add_r, Z.mul_assoc by lia.
    apply Z.mul_le_mono_nonneg_r; [lia|]. assert (0 < 2 ^ (m - n)) by lia. nia.
  - apply Z.mul_le_mono_nonneg_r; [lia|]. pose proof (rank_lt i j m Hi Hj Hlt). unfold codeOf. lia.
Qed.

(** The value [v] of [w] bits starts with the code. *)
Definition matches (i n w v : Z) : Prop := v / 2 ^ (w - n) = codeOf i n.

Lemma matches_interval i n w v :
  n <= w -> matches i n w v <-> codeOf i n * 2 ^ (w - n) <= v < (codeOf i n + 1) * 2 ^ (w - n).
Proof.
  intros Hn. unfold matches. assert (0 < 2 ^ (w - n)) by lia. split.
  - intros <-. pose proof (Z.div_mod v (2 ^ (w - n))). pose proof (Z.mod_pos_bound v (2 ^ (w - n))). lia.
  - intros H1. symmetry. apply (Z.div_unique _ _ _ (v - 2 ^ (w - n) * codeOf i n)); [left; lia | lia].
Qed.

Lemma matches_unique i n j m w v :
  hasCode i n -> hasCode j m -> n <= w -> m <= w -> matches i n w v -> matches j m w v -> i = j /\ n = m.
Proof.
  intros Hi Hj Hn Hm H1%matches_interval H2%matches_interval; [|done..].
  destruct (Z.lt_trichotomy n m) as [L|[->|L]].
  - pose proof (code_before i n j m w Hi Hj Hn Hm ltac:(lia)). lia.
  - split; [|done]. destruct (Z.lt_trichotomy i j) as [L|[->|L]]; [|done|].
    + pose proof (code_before i m j m w Hi Hj Hn Hm ltac:(lia)). lia.
    + pose proof (code_before j m i m w Hj Hi Hm Hn ltac:(lia)). lia.
  - pose proof (code_before j m i n w Hj Hi Hm Hn ltac:(lia)). lia.
Qed.

(** A later value has no shorter code. *)
Lemma matches_later i n j m w v v' :
  hasCode i n -> hasCode j m -> n <= w -> m <= w -> matches i n w v -> matches j m w v' -> v <= v' -> n <= m.
Proof.
  intros Hi Hj Hn Hm H1%matches_interval H2%matches_interval Hv; [|done..].
  destruct (Z.le_gt_cases n m) as [|L]; [done|]. pose proof (code_before j m i n w Hj Hi Hm Hn ltac:(lia)). lia.
Qed.

(** *** Completeness *)

(** There is a symbol of every rank. *)
Lemma rank_exists n k : 0 < n -> 0 <= k < cnt n -> exists i, hasCode i n /\ rank i n = k.
Proof.
  intros Hn Hk. unfold cnt, hasCode, rank in *. revert Hk. induction lens as [|x l IH] using rev_ind; intros Hk.
  { unfold len in Hk. simpl in Hk. lia. }
  rewrite filter_app, len_app in Hk. destruct (decide (k < len (filter (fun x => x = n) l))) as [L|L].
  - destruct (IH ltac:(lia)) as (i & (Hi & _ & Hl) & Hr). exists i. pose proof (lookup_lt_Some _ _ _ Hl).
    rewrite lookup_app_l, take_app_le by lia. done.
  - destruct (decide (x = n)) as [->|Hx].
    + rewrite filter_cons_True in Hk by done. unfold len in Hk at 2. simpl in Hk. exists (len l). pose proof (len_nonneg l).
      unfold len. rewrite Nat2Z.id, take_app_length, list_lookup_middle by done. unfold len in *. split; [split_and!; try done; lia | lia].
    + rewrite filter_cons_False in Hk by done. unfold len in Hk at 2. simpl in Hk. lia.
Qed.

(** Every value starts with a code when the last one is the largest. *)
Lemma complete_matches w v :
  past w = 2 ^ w -> 0 <= w -> 0 <= v < 2 ^ w -> exists i n, hasCode i n /\ n <= w /\ matches i n w v.
Proof.
  intros Hp Hw Hv.
  assert (H : forall k, 0 <= k <= w -> v / 2 ^ (w - k) < past k -> exists i n, hasCode i n /\ n <= k /\ matches i n w v).
  { intros k [Hk0 Hkw]. revert Hkw. pattern k. apply natlike_ind; [| |done]; clear k Hk0.
    - intros _ H. unfold past in H. simpl in H. assert (0 <= v / 2 ^ (w - 0)) by (apply Z.div_pos; lia). lia.
    - intros k Hk IH Hkw Hlt. destruct (Z.lt_ge_cases (v / 2 ^ (w - k)) (past k)) as [L|L].
      { destruct (IH ltac:(lia) L) as (i & n & ? & ? & ?). exists i, n. split_and!; try done; lia. }
      assert (Hdiv : v / 2 ^ (w - k) = v / 2 ^ (w - Z.succ k) / 2).
      { rewrite Z.div_div by lia. f_equal. rewrite <- (Z.pow_1_r 2) at 3. rewrite <- Z.pow_add_r by lia. f_equal. lia. }
      set (q := v / 2 ^ (w - Z.succ k)) in *. pose proof (first_succ k Hk) as Hf. change (k + 1) with (Z.succ k) in Hf.
      unfold past in Hlt. destruct (Z.eqb_spec (Z.succ k) 0); [lia|]. rewrite Hf in Hlt.
      destruct (rank_exists (Z.succ k) (q - 2 * past k)) as (i & Hi & Hr); [lia | zdm|].
      exists i, (Z.succ k). split_and!; try done. unfold matches, codeOf. fold q. rewrite Hf, Hr. lia. }
  apply H; [lia|]. rewrite Z.sub_diag, Z.div_1_r. lia.
Qed.
End Codes.

(** * compress/flate: the decoding tables

    init fills the tables of a Huffman decoder: whatever bits it is given, the
    entry that [lookupChunk] finds is that of the code that starts them. *)

(** ** Reversed numbers *)

(** The value of the [n] low bits of [x], the lowest first. *)
Definition revn (n x : Z) : Z := valM (bitsL (Z.to_nat n) x).

Lemma revn_range n x : 0 <= n -> 0 <= revn n x < 2 ^ n.
Proof. intros Hn. pose proof (valM_range (bitsL (Z.to_nat n) x)) as H. rewrite bitsL_length, Z2Nat.id in H by done. done. Qed.

Lemma revn_revn n x : 0 <= n -> 0 <= x < 2 ^ n -> revn n (revn n x) = x.
Proof.
  intros Hn Hx. unfold revn at 2, valM, revn. rewrite <- (bitsL_length (Z.to_nat n) x) at 1. rewrite <- length_reverse, bitsL_valL.
  apply valM_reverse_bitsL. by rewrite Z2Nat.id.
Qed.

Lemma revn_app n m x : 0 <= n -> 0 <= m -> revn (n + m) x = revn n x * 2 ^ m + revn m (x / 2 ^ n).
Proof.
  intros Hn Hm. unfold revn. rewrite Z2Nat.inj_add, bitsL_app, valM_app, bitsL_length, !Z2Nat.id by lia. done.
Qed.

Lemma revn_mod n x w : 0 <= n <= w -> revn n (x mod 2 ^ w) = revn n x.
Proof. intros. unfold revn. by rewrite bitsL_mod by lia. Qed.

Lemma revn_zero n : revn n 0 = 0.
Proof.
  unfold revn. generalize (Z.to_nat n). intros k. assert (H : bitsL k 0 = replicate k false) by (induction k as [|k IH]; simpl; [done | by rewrite IH]).
  rewrite H. clear H. induction k as [|k IH]; [done|]. rewrite replicate_S. change (false :: replicate k false) with ([false] ++ replicate k false).
  rewrite valM_app, IH. done.
Qed.

(** The leading bits of a reversed index are the low bits of the index. *)
Lemma revn_leading n w x : 0 <= n <= w -> revn w x / 2 ^ (w - n) = revn n x.
Proof.
  intros Hn. replace w with (n + (w - n)) at 1 by lia. rewrite revn_app by lia. pose proof (revn_range (w - n) (x / 2 ^ n) ltac:(lia)).
  rewrite Z.add_comm, Z.div_add, Z.div_small by lia. lia.
Qed.

Lemma index_matches n code w j :
  0 <= n <= w -> 0 <= code < 2 ^ n -> 0 <= j -> j mod 2 ^ n = revn n code <-> revn w j / 2 ^ (w - n) = code.
Proof.
  intros Hn Hc Hj. rewrite revn_leading by done. split.
  - intros E. rewrite <- (revn_mod n j n), E by lia. apply revn_revn; lia.
  - intros <-. rewrite <- (revn_mod n j n) by lia. rewrite revn_revn; [done | lia|]. apply Z.mod_pos_bound. lia.
Qed.

Lemma rev8_spec x : 0 <= x < 256 -> idx rev8tab x = Ok (revn 8 x).
Proof.
  intros Hx.
  assert (H : forallb (fun x => match idx rev8tab x with Ok y => y =? revn 8 x | _ => false end) (zrange 0 256) = true) by (vm_compute; reflexivity).
  pose proof (zrange_forallb _ _ _ H x Hx) as E. simpl in E. destruct (idx rev8tab x) as [y| |]; try done. apply Z.eqb_eq in E. by subst.
Qed.

Lemma Reverse16_spec x : 0 <= x < 2 ^ 16 -> Reverse16 x = Ok (revn 16 x).
Proof.
  intros Hx. unfold Reverse16. rewrite Z.shiftr_div_pow2 by lia. change 0xff with (Z.ones 8). rewrite Z.land_ones by lia.
  rewrite !rev8_spec by (change (2 ^ 8) with 256; zdm). cbn [rbind]. do 1 f_equal.
  pose proof (revn_range 8 (x / 2 ^ 8) ltac:(lia)). pose proof (revn_range 8 (x mod 2 ^ 8) ltac:(lia)).
  rewrite (revn_mod 8) by lia. rewrite (revn_mod 8) in * by lia. rewrite Z.shiftl_mul_pow2, u16_id by lia.
  rewrite Z.lor_comm. change (revn 16 x) with (revn (8 + 8) x). rewrite revn_app by lia. apply lor_disjoint_mul; lia.
Qed.

(** The reversed code of [n] bits. *)
Lemma reverse_code n code :
  0 < n <= 16 -> 0 <= code < 2 ^ n ->
  (let! reverse := Reverse16 (u16 code) in Ok (Z.shiftr reverse (16 - n))) = Ok (revn n code).
Proof.
  intros Hn Hc. assert (2 ^ n <= 2 ^ 16) by (apply Z.pow_le_mono_r; lia). rewrite u16_id, Reverse16_spec by lia. cbn [rbind].
  rewrite Z.shiftr_div_pow2 by lia. by rewrite revn_leading by lia.
Qed.

(** ** Entries *)

Definition enc (i n : Z) : Z := i * 16 + n.

Lemma enc_spec i n : 0 <= i < 2 ^ 28 -> 0 <= n < 16 -> u32 (Z.lor (Z.shiftl i huffmanValueShift) n) = enc i n.
Proof.
  intros Hi Hn. change huffmanValueShift with 4. rewrite Z.shiftl_mul_pow2 by lia. rewrite lor_disjoint_mul by lia.
  change (2 ^ 4) with 16. by rewrite u32_id by lia.
Qed.

Lemma enc_count i n : 0 <= n < 16 -> Z.land (enc i n) huffmanCountMask = n.
Proof. intros Hn. change huffmanCountMask with (Z.ones 4). rewrite Z.land_ones by lia. unfold enc. change (2 ^ 4) with 16. zdm. Qed.

Lemma enc_value i n : 0 <= n < 16 -> Z.shiftr (enc i n) huffmanValueShift = i.
Proof. intros Hn. change huffmanValueShift with 4. rewrite Z.shiftr_div_pow2 by lia. unfold enc. change (2 ^ 4) with 16. zdm. Qed.

(** fillTab writes every entry with the given low bits. *)
Lemma fillTab_spec tab n start chunk :
  0 <= n -> 0 <= start < 2 ^ n ->
  fillTab tab start (Z.shiftl 1 n) chunk ⇓ fun tab' => len tab' = len tab /\
    forall j, 0 <= j < len tab -> tab' !! Z.to_nat j = if j mod 2 ^ n =? start then Some chunk else tab !! Z.to_nat j.
Proof.
  intros Hn Hs. unfold fillTab. rewrite Z.shiftl_mul_pow2, Z.mul_1_l by lia. set (step := 2 ^ n) in *. assert (Hstep : 0 < step) by (unfold step; lia).
  pose proof (len_nonneg tab) as HT.
  apply (loop_returns (fun '(off, t) => len t = len tab /\ start <= off /\ off mod step = start /\
     forall j, 0 <= j < len tab -> t !! Z.to_nat j = if (j mod step =? start) && (j <? off) then Some chunk else tab !! Z.to_nat j)
     (fun '(off, _) => Z.max 0 (len tab - off))).
  - intros [off t] (Hl & Ho & Hm & Ht). rewrite Hl. destruct (Z.ltb_spec off (len tab)) as [L|L].
    + rewrite upd_Ok by lia. cbn [rbind returns]. split; [|lia]. split_and!; try lia.
      * by rewrite len_insert.
      * rewrite <- Hm. rewrite <- (Z.mul_1_l step) at 1. rewrite Z.mod_add by lia. done.
      * intros j Hj. destruct (decide (j = off)) as [->|Hne].
        -- rewrite list_lookup_insert_eq by (unfold len in *; lia). rewrite Hm, Z.eqb_refl. destruct (Z.ltb_spec off (off + step)); [done | lia].
        -- rewrite list_lookup_insert_ne by lia. rewrite Ht by done. destruct (Z.eqb_spec (j mod step) start) as [Ej|]; [|done]. cbn [andb].
           destruct (Z.ltb_spec j off), (Z.ltb_spec j (off + step)); try done; try lia.
           exfalso. assert (off / step < j / step \/ j / step = off / step) as [G|G]; [|pose proof (Z.div_mod off step); pose proof (Z.div_mod j step); nia|pose proof (Z.div_mod off step); pose proof (Z.div_mod j step); nia].
           assert (off / step <= j / step) by (apply Z.div_le_mono; lia). lia.
    + cbn [returns]. split; [done|]. intros j Hj. rewrite Ht by done. destruct (Z.ltb_spec j off); [|lia]. by rewrite andb_true_r.
  - split; [done|]. split; [lia|]. split; [by apply Z.mod_small|]. intros j Hj. destruct (Z.eqb_spec (j mod step) start) as [Ej|]; [|done]. cbn [andb].
    destruct (Z.ltb_spec j start) as [L|]; [|done]. rewrite Z.mod_small in Ej by lia. lia.
  - unfold len in *. lia.
  - lia.
Qed.

(** ** Counts and first codes *)

Definition lens_ok (lens : list Z) : Prop := Forall (fun n => 0 <= n <= 15) lens.

(** [mn] and [mx] are the shortest and the longest code of [ls], 0 without codes. *)
Record spans (ls : list Z) (mn mx : Z) : Prop := {
  sp_range : 0 <= mn <= mx;
  sp_max : mx <= 15;
  sp_le : forall x, x ∈ ls -> x <= mx;
  sp_in : mx = 0 \/ mx ∈ ls;
  sp_min : forall x, x ∈ ls -> x <> 0 -> mn <= x;
  sp_none : mn = 0 -> mx = 0;
}.

Lemma cnt_snoc ls x n : cnt (ls ++ [x]) n = cnt ls n + (if x =? n then 1 else 0).
Proof.
  unfold cnt. rewrite filter_app, len_app. f_equal. destruct (Z.eqb_spec x n) as [->|Hx].
  - by rewrite filter_cons_True by done.
  - by rewrite filter_cons_False by done.
Qed.

Lemma countLengths_spec pre ls count mn mx :
  lens_ok pre -> lens_ok ls -> len count = 16 -> spans pre mn mx ->
  (forall n, 1 <= n <= 15 -> count !! Z.to_nat n = Some (cnt pre n)) ->
  countLengths count mn mx ls ⇓ fun '(count', mn', mx') => len count' = 16 /\ spans (pre ++ ls) mn' mx' /\
    forall n, 1 <= n <= 15 -> count' !! Z.to_nat n = Some (cnt (pre ++ ls) n).
Proof.
  revert pre count mn mx. induction ls as [|x ls IH]; intros pre count mn mx Hpre Hls Hl Hsp Hc; cbn [countLengths].
  { rewrite app_nil_r. done. }
  apply Forall_cons in Hls as [Hx Hls]. rewrite (cons_middle x pre ls), (assoc_L app).
  assert (Hpre' : lens_ok (pre ++ [x])) by (apply Forall_app; split; [done | by constructor]).
  destruct (Z.eqb_spec x 0) as [->|Hx0].
  - apply IH; try done.
    + destruct Hsp as [H1 H2 H3 H4 H5 H6]. constructor; try done.
      * intros y Hy. apply elem_of_app in Hy as [?|Hy]; [by apply H3|]. apply list_elem_of_singleton in Hy. lia.
      * destruct H4; [by left | right]. apply elem_of_app. by left.
      * intros y Hy Hy0. apply elem_of_app in Hy as [?|Hy]; [by apply H5|]. by apply list_elem_of_singleton in Hy.
    + intros n Hn. rewrite cnt_snoc, Hc by done. destruct (Z.eqb_spec 0 n); [lia|]. f_equal. lia.
  - assert (Hat : idx count x = Ok (cnt pre x)) by (apply idx_Ok; [lia | apply Hc; lia]). rewrite Hat. cbn [rbind].
    rewrite upd_Ok by lia. cbn [rbind]. apply IH; try done.
    + by rewrite len_insert.
    + destruct Hsp as [H1 H2 H3 H4 H5 H6].
      set (mn' := if (mn =? 0) || (x <? mn) then x else mn). set (mx' := if x >? mx then x else mx).
      assert (Hmx : x <= mx' /\ mx <= mx' /\ (mx' = x \/ mx' = mx)) by (unfold mx'; destruct (Z.gtb_spec x mx); lia).
      assert (Hmn : 0 < mn' <= x /\ (mn <> 0 -> mn' <= mn) /\ (mn' = x \/ (mn' = mn /\ mn <> 0))).
      { unfold mn'. destruct (Z.eqb_spec mn 0), (Z.ltb_spec x mn); cbn [orb]; lia. }
      constructor; try lia.
      * intros y Hy. apply elem_of_app in Hy as [Hy|Hy]; [specialize (H3 y Hy); lia|]. apply list_elem_of_singleton in Hy. lia.
      * destruct (Z.eq_dec mx' x) as [->|]; [right; apply elem_of_app; right; constructor|].
        destruct Hmx as (_ & _ & [?|E]); [done|]. rewrite E. destruct H4; [lia | right]. apply elem_of_app. by left.
      * intros y Hy Hy0. apply elem_of_app in Hy as [Hy|Hy].
        -- specialize (H5 y Hy Hy0). specialize (H3 y Hy). destruct (Z.eq_dec mn 0) as [E|E]; [|lia].
           pose proof (H6 E). assert (0 <= y <= 15) by (unfold lens_ok in Hpre; rewrite Forall_forall in Hpre; by apply Hpre). lia.
        -- apply list_elem_of_singleton in Hy. lia.
    + intros n Hn. rewrite cnt_snoc. destruct (Z.eqb_spec x n) as [->|Hne].
      * rewrite list_lookup_insert_eq by (unfold len in Hl; lia). done.
      * rewrite list_lookup_insert_ne by lia. rewrite Hc by done. f_equal. lia.
Qed.

Section Init.
Variable lens : list Z.
Hypothesis Hlens : lens_ok lens.
Variables mn mx : Z.
Hypothesis Hspan : spans lens mn mx.

Lemma cnt_outside n : n <> 0 -> n < mn \/ mx < n -> cnt lens n = 0.
Proof.
  intros Hn0 Hn. unfold cnt. destruct (filter (fun x => x = n) lens) as [|x l] eqn:E; [done|]. exfalso.
  assert (Hin : x ∈ filter (fun x => x = n) lens) by (rewrite E; constructor). apply list_elem_of_filter in Hin as [-> Hin].
  pose proof (sp_le _ _ _ Hspan _ Hin). pose proof (sp_min _ _ _ Hspan _ Hin Hn0). lia.
Qed.

Lemma first_short n : 0 <= n <= mn -> first lens (Z.to_nat n) = 0.
Proof.
  intros [Hn0 Hn]. revert Hn. pattern n. apply natlike_ind; [done| |done]. clear n Hn0. intros n Hn0 IH Hn.
  change (Z.succ n) with (n + 1) in *. rewrite first_succ by done. unfold past. rewrite IH by lia. destruct (Z.eqb_spec n 0); [done|].
  rewrite cnt_outside by lia. done.
Qed.

Lemma firstCodes_spec count :
  0 < mx -> len count = 16 -> (forall n, 1 <= n <= 15 -> count !! Z.to_nat n = Some (cnt lens n)) ->
  firstCodes count mn mx ⇓ fun '(nextcode, code) => len nextcode = 16 /\ code = past lens mx /\
    forall n, 0 <= n <= mx -> nextcode !! Z.to_nat n = Some (first lens (Z.to_nat n)).
Proof.
  intros Hmx Hl Hc. pose proof (sp_range _ _ _ Hspan). pose proof (sp_max _ _ _ Hspan).
  assert (Hmn : 0 < mn) by (destruct (Z.eq_dec mn 0) as [E|]; [pose proof (sp_none _ _ _ Hspan E); lia | lia]).
  unfold firstCodes.
  apply (loop_returns (fun '(i, nextcode, code) => mn <= i <= mx + 1 /\ len nextcode = 16 /\ code = past lens (i - 1) /\
     forall n, 0 <= n < i -> nextcode !! Z.to_nat n = Some (first lens (Z.to_nat n))) (fun '(i, _, _) => mx + 1 - i)).
  - intros [[i nextcode] code] (Hi & Hln & -> & Hn). destruct (Z.leb_spec i mx) as [L|L].
    + rewrite upd_Ok by lia. cbn [rbind]. rewrite (idx_Ok count i (cnt lens i)) by (try lia; apply Hc; lia). cbn [rbind returns].
      split; [|lia]. assert (Hf : first lens (Z.to_nat i) = 2 * past lens (i - 1)) by (rewrite <- first_succ by lia; do 2 f_equal; lia).
      split_and!; try lia.
      * by rewrite len_insert.
      * replace (i + 1 - 1) with i by lia. unfold past at 2. rewrite Hf. rewrite Z.shiftl_mul_pow2 by lia. destruct (Z.eqb_spec i 0); lia.
      * intros n Hni. destruct (decide (n = i)) as [->|].
        -- rewrite list_lookup_insert_eq by (unfold len in Hln; lia). rewrite Hf, Z.shiftl_mul_pow2 by lia. f_equal. lia.
        -- rewrite list_lookup_insert_ne by lia. apply Hn. lia.
    + cbn [returns]. assert (i = mx + 1) as -> by lia. split; [done|]. split; [f_equal; lia|]. intros n Hnn. apply Hn. lia.
  - assert (Hz : past lens (mn - 1) = 0).
    { unfold past. rewrite first_short by lia. destruct (Z.eqb_spec (mn - 1) 0); [done|]. rewrite cnt_outside by lia. done. }
    split_and!; try lia.
    + reflexivity.
    + intros n Hn. rewrite first_short by lia. apply lookup_replicate. split; [done|]. change (Z.to_nat maxCodeLen) with 16%nat. lia.
  - lia.
  - lia.
Qed.
End Init.

(** * compress/flate: init

    The tables that init builds from a list of code lengths: [lookupChunk] finds
    the code that starts the bits it is given, and nothing when there is none. *)

Lemma div_pow_pow x a b : 0 <= a -> 0 <= b -> x / 2 ^ a / 2 ^ b = x / 2 ^ (a + b).
Proof. intros. rewrite Z.div_div, Z.pow_add_r by lia. done. Qed.

Lemma lookup_Z {A} (l : list A) j x : 0 <= j -> l !! Z.to_nat j = Some x -> j < len l.
Proof. intros Hj H%lookup_lt_Some. unfold len. lia. Qed.

Lemma zeros_lookup n x : 0 <= x < n -> replicate (Z.to_nat n) 0 !! Z.to_nat x = Some 0.
Proof. intros H. apply lookup_replicate. split; [done | lia]. Qed.

Section Tables.
Variable lens : list Z.
Hypothesis Hlens : lens_ok lens.
Hypothesis Hcount : len lens < 2 ^ 28.
Variables mn mx : Z.
Hypothesis Hspan : spans lens mn mx.
Hypothesis Hpast : past lens mx <= 2 ^ mx.

Lemma hasCode_max i n : hasCode lens i n -> 0 <= i < 2 ^ 28 /\ 0 < n <= mx /\ mx <= 15.
Proof.
  intros (Hi & Hn & Hl). pose proof (lookup_Z _ _ _ Hi Hl). pose proof (sp_max _ _ _ Hspan).
  assert (n <= mx); [|lia]. apply (sp_le _ _ _ Hspan). by apply list_elem_of_lookup_2 in Hl.
Qed.

Lemma hasCode_fun i n m : hasCode lens i n -> hasCode lens i m -> n = m.
Proof. intros (_ & _ & H1) (_ & _ & H2). congruence. Qed.

Lemma past_pow n : 0 <= n <= mx -> past lens n <= 2 ^ n.
Proof.
  intros Hn. destruct (Z.eq_dec n mx) as [->|]; [done|].
  pose proof (first_past lens n mx ltac:(lia)). pose proof (past_first lens mx ltac:(lia)).
  assert (Hp : 2 ^ mx = 2 ^ n * 2 ^ (mx - n)) by (rewrite <- Z.pow_add_r by lia; f_equal; lia).
  assert (0 < 2 ^ (mx - n)) by lia. nia.
Qed.

Lemma codeOf_pow i n : hasCode lens i n -> 0 <= codeOf lens i n < 2 ^ n.
Proof.
  intros H. pose proof (codeOf_range lens i n H). pose proof (first_nonneg lens (Z.to_nat n)). pose proof (hasCode_max i n H).
  pose proof (past_pow n). lia.
Qed.

(** A code is the leading bits at any width. *)
Lemma matches_width i n w w' v : n <= w <= w' -> matches lens i n w (v / 2 ^ (w' - w)) <-> matches lens i n w' v.
Proof. intros H. unfold matches. rewrite div_pow_pow by lia. replace (w' - w + (w - n)) with (w' - n) by lia. done. Qed.

(** The codes of more than 9 bits start with 9 bits after those of the shorter ones. *)
Lemma long_leading i n w v :
  hasCode lens i n -> 9 < n <= w -> matches lens i n w v -> v / 2 ^ (w - 9) = codeOf lens i n / 2 ^ (n - 9) /\ past lens 9 <= v / 2 ^ (w - 9).
Proof.
  intros H Hn Hm. unfold matches in Hm. assert (E : v / 2 ^ (w - 9) = codeOf lens i n / 2 ^ (n - 9)).
  { rewrite <- Hm. rewrite div_pow_pow by lia. do 2 f_equal. lia. }
  split; [done|]. rewrite E. pose proof (codeOf_range lens i n H). pose proof (first_past lens 9 n ltac:(lia)).
  apply Z.div_le_lower_bound; lia.
Qed.

(** ** What an entry holds *)

(** The entry of a code among the first [k] symbols with [P], or the default. *)
Definition entry (k : Z) (P : Z -> Z -> Prop) (dflt : Z) (o : option Z) : Prop :=
  (exists i n, i < k /\ hasCode lens i n /\ P i n /\ o = Some (enc i n)) \/
  ((forall i n, i < k -> hasCode lens i n -> ~ P i n) /\ o = Some dflt).

Lemma entry_start P dflt : entry 0 P dflt (Some dflt).
Proof. right. split; [|done]. intros i n Hi (? & _). lia. Qed.

Lemma entry_new k n P dflt : hasCode lens k n -> P k n -> entry (k + 1) P dflt (Some (enc k n)).
Proof. intros H HP. left. exists k, n. split_and!; try done. lia. Qed.

Lemma entry_old k P dflt o : (forall n, hasCode lens k n -> ~ P k n) -> entry k P dflt o -> entry (k + 1) P dflt o.
Proof.
  intros Hk [(i & n & Hi & H)|[H ->]]; [left; exists i, n; split; [lia | done]|]. right. split; [|done].
  intros i n Hi Hc HP. destruct (Z.eq_dec i k) as [->|]; [by apply (Hk n) | apply (H i n); [lia | done..]].
Qed.

Definition shortAt (x i n : Z) : Prop := n <= 9 /\ matches lens i n 9 (revn 9 x).
Definition longAt (off y i n : Z) : Prop := 9 < n /\ matches lens i n mx ((past lens 9 + off) * 2 ^ (mx - 9) + revn (mx - 9) y).

(** The entries that refer to a table of links. *)
Definition linkEntry (x : Z) : Z := if (9 <? mx) && (past lens 9 <=? revn 9 x) then enc (revn 9 x - past lens 9) 10 else 0.

Record tablesOK (k : Z) (h : huffmanDecoder) : Prop := {
  to_chunks : len (chunks h) = 512;
  to_short : forall x, 0 <= x < 512 -> entry k (shortAt x) (linkEntry x) (chunks h !! Z.to_nat x);
  to_mask : 9 < mx -> linkMask h = 2 ^ (mx - 9) - 1;
  to_links : 9 < mx -> len (links h) = 512 - past lens 9;
  to_long : 9 < mx -> forall off, 0 <= off < 512 - past lens 9 -> exists t, links h !! Z.to_nat off = Some t /\ len t = 2 ^ (mx - 9) /\
    forall y, 0 <= y < 2 ^ (mx - 9) -> entry k (longAt off y) 0 (t !! Z.to_nat y);
}.

(** ** The tables of links *)

Lemma makeLinks_spec m nextcode :
  9 < mx -> (forall n, 0 <= n <= mx -> nextcode !! Z.to_nat n = Some (first lens (Z.to_nat n))) ->
  makeLinks (mkHuff m (chunks zeroHuff) (links zeroHuff) (linkMask zeroHuff)) mx nextcode ⇓ fun h => hmin h = m /\ tablesOK 0 h.
Proof.
  intros Hmx Hnc. pose proof (sp_max _ _ _ Hspan). pose proof (past_pow 9 ltac:(lia)) as Hp9. change (2 ^ 9) with 512 in Hp9.
  pose proof (past_first lens 9 ltac:(lia)). pose proof (first_nonneg lens (Z.to_nat 9)).
  assert (Hnum : 2 ^ (mx - 9) <= 2 ^ 6) by (apply Z.pow_le_mono_r; lia). assert (0 < 2 ^ (mx - 9)) by lia. change (2 ^ 6) with 64 in Hnum.
  unfold makeLinks. change huffmanChunkBits with 9. change huffmanNumChunks with 512.
  assert (Hi : idx nextcode (9 + 1) = Ok (2 * past lens 9)) by (apply idx_Ok; [lia|]; rewrite Hnc by lia; by rewrite first_succ by lia).
  rewrite Hi. cbn [rbind]. rewrite shiftl_mul, Z.mul_1_l, shiftr_div by lia.
  replace (2 * past lens 9 / 2 ^ 1) with (past lens 9) by (change (2 ^ 1) with 2; zdm). destruct (Z.ltb_spec (512 - past lens 9) 0); [lia|].
  apply (loop_returns (fun '(j, h) => past lens 9 <= j <= 512 /\ hmin h = m /\ linkMask h = 2 ^ (mx - 9) - 1 /\ len (chunks h) = 512 /\
     len (links h) = 512 - past lens 9 /\
     (forall x, 0 <= x < 512 -> chunks h !! Z.to_nat x = Some (if revn 9 x <? j then linkEntry x else 0)) /\
     forall off, 0 <= off < j - past lens 9 -> links h !! Z.to_nat off = Some (replicate (Z.to_nat (2 ^ (mx - 9))) 0)) (fun '(j, _) => 512 - j)).
  - intros [j h] (Hj & Hm & Hmask & Hc & Hl & Hx & Hoff). destruct (Z.ltb_spec j 512) as [L|L].
    + pose proof (Reverse16_spec j ltac:(lia)) as Hr. rewrite u16_id, Hr by lia. cbn [rbind]. rewrite shiftr_div by lia.
      rewrite revn_leading by lia. pose proof (revn_range 9 j ltac:(lia)) as Hrj. change (2 ^ 9) with 512 in Hrj.
      rewrite upd_Ok by lia. cbn [rbind]. rewrite upd_Ok by lia. cbn [rbind returns]. split; [|lia].
      cbn [hmin linkMask chunks links]. rewrite !len_insert. change (9 + 1) with 10.
      rewrite enc_spec by lia. split_and!; try done; try lia.
      * intros x Hx0. destruct (decide (x = revn 9 j)) as [->|Hne].
        -- rewrite list_lookup_insert_eq by (unfold len in Hc; lia). rewrite revn_revn by (change (2 ^ 9) with 512; lia). unfold linkEntry.
           rewrite revn_revn by (change (2 ^ 9) with 512; lia).
           destruct (Z.ltb_spec j (j + 1)); [|lia]. destruct (Z.ltb_spec 9 mx), (Z.leb_spec (past lens 9) j); try lia. done.
        -- rewrite list_lookup_insert_ne by lia. rewrite Hx by done. f_equal.
           assert (revn 9 x <> j) by (intros <-; rewrite revn_revn in Hne by (change (2 ^ 9) with 512; lia); done).
           destruct (Z.ltb_spec (revn 9 x) j), (Z.ltb_spec (revn 9 x) (j + 1)); try done; lia.
      * intros off Ho. destruct (decide (off = j - past lens 9)) as [->|].
        -- rewrite list_lookup_insert_eq by (unfold len in Hl; lia). done.
        -- rewrite list_lookup_insert_ne by lia. apply Hoff. lia.
    + cbn [returns]. assert (j = 512) as -> by lia. split; [done|]. constructor; try done.
      * intros x Hx0. rewrite Hx by done. pose proof (revn_range 9 x ltac:(lia)) as Hr. change (2 ^ 9) with 512 in Hr.
        destruct (Z.ltb_spec (revn 9 x) 512); [|lia]. apply entry_start.
      * intros _ off Ho. eexists. split; [by apply Hoff|]. split; [rewrite len_replicate; lia|]. intros y Hy. rewrite zeros_lookup by lia. apply entry_start.
  - cbn [hmin chunks linkMask links]. split_and!; try done; try lia.
    + apply u32_id. lia.
    + rewrite len_replicate. lia.
    + intros x Hx. unfold zeroHuff. cbn [chunks]. change huffmanNumChunks with 512. rewrite zeros_lookup by lia. unfold linkEntry.
      destruct (Z.ltb_spec (revn 9 x) (past lens 9)), (Z.leb_spec (past lens 9) (revn 9 x)); try lia; by rewrite ?andb_false_r.
  - lia.
  - lia.
Qed.

Lemma noLinks_ok m : mx <= 9 -> tablesOK 0 (mkHuff m (chunks zeroHuff) (links zeroHuff) (linkMask zeroHuff)).
Proof.
  intros Hmx. constructor; try done; try lia. intros x Hx. cbn [chunks]. unfold zeroHuff. cbn [chunks]. change huffmanNumChunks with 512.
  rewrite zeros_lookup by lia. unfold linkEntry. destruct (Z.ltb_spec 9 mx); [lia|]. apply entry_start.
Qed.

(** ** The entries of the codes *)

(** The chunk of a long code refers to a table. *)
Lemma long_chunk k h i n :
  tablesOK k h -> hasCode lens i n -> 9 < n -> let c := codeOf lens i n / 2 ^ (n - 9) in
  past lens 9 <= c < 512 /\ chunks h !! Z.to_nat (revn 9 c) = Some (enc (c - past lens 9) 10).
Proof.
  intros Ht H Hn c. pose proof (hasCode_max i n H). pose proof (codeOf_pow i n H).
  assert (Hm : matches lens i n n (codeOf lens i n)) by (unfold matches; rewrite Z.sub_diag; apply Z.div_1_r).
  assert (Hc : past lens 9 <= c < 512).
  { split; [apply (long_leading i n n); try done; lia|]. unfold c. apply Z.div_lt_upper_bound; [lia|].
    change 512 with (2 ^ 9). rewrite <- Z.pow_add_r by lia. replace (n - 9 + 9) with n by lia. lia. }
  split; [done|]. pose proof (first_nonneg lens (Z.to_nat 9)). pose proof (past_first lens 9 ltac:(lia)).
  pose proof (revn_range 9 c ltac:(lia)) as Hr. change (2 ^ 9) with 512 in Hr.
  destruct (to_short _ _ Ht (revn 9 c) Hr) as [(j & m & _ & Hj & [Hm9 HP] & _)|[_ ->]].
  - exfalso. rewrite revn_revn in HP by (change (2 ^ 9) with 512; lia). apply (matches_width j m 9 n) in HP; [|lia].
    destruct (matches_unique lens i n j m n (codeOf lens i n)); try done; lia.
  - unfold linkEntry. rewrite revn_revn by (change (2 ^ 9) with 512; lia).
    destruct (Z.ltb_spec 9 mx), (Z.leb_spec (past lens 9) c); try lia. done.
Qed.

(** The index of a table of links holds the bits after the first 9. *)
Lemma tail_matches i n y :
  hasCode lens i n -> 9 < n <= mx -> 0 <= y -> let c := codeOf lens i n in
  y mod 2 ^ (n - 9) = revn n c / 2 ^ 9 <-> matches lens i n mx (c / 2 ^ (n - 9) * 2 ^ (mx - 9) + revn (mx - 9) y).
Proof.
  intros H Hn Hy c. pose proof (codeOf_pow i n H) as Hc. fold c in Hc.
  assert (Ht : revn n c / 2 ^ 9 = revn (n - 9) (c mod 2 ^ (n - 9))).
  { pose proof (revn_app 9 (n - 9) (revn n c) ltac:(lia) ltac:(lia)) as E. replace (9 + (n - 9)) with n in E by lia. rewrite revn_revn in E by lia.
    pose proof (revn_range (n - 9) (revn n c / 2 ^ 9) ltac:(lia)).
    assert (Hmod : c mod 2 ^ (n - 9) = revn (n - 9) (revn n c / 2 ^ 9)) by (rewrite E at 1; rewrite Z.add_comm, Z.mod_add, Z.mod_small by lia; done).
    rewrite Hmod, revn_revn; [done | lia|]. pose proof (revn_range n c ltac:(lia)). split.
    - apply Z.div_pos; lia.
    - apply Z.div_lt_upper_bound; [lia|]. rewrite <- Z.pow_add_r by lia. replace (9 + (n - 9)) with n by lia. lia. }
  rewrite Ht. rewrite (index_matches (n - 9) _ (mx - 9) y) by (try lia; apply Z.mod_pos_bound; lia).
  replace (mx - 9 - (n - 9)) with (mx - n) by lia. unfold matches. fold c.
  replace (2 ^ (mx - 9)) with (2 ^ (n - 9) * 2 ^ (mx - n)) by (rewrite <- Z.pow_add_r by lia; f_equal; lia).
  rewrite Z.mul_assoc, Z.add_comm, Z.div_add by lia. pose proof (Z.div_mod c (2 ^ (n - 9)) ltac:(lia)). lia.
Qed.

Lemma addCode_spec k h n :
  hasCode lens k n -> tablesOK k h -> addCode h k n (codeOf lens k n) ⇓ fun h' => hmin h' = hmin h /\ tablesOK (k + 1) h'.
Proof.
  intros H Ht. pose proof (hasCode_max k n H) as (Hk & Hn & Hmx). pose proof (codeOf_pow k n H) as Hc.
  unfold addCode. rewrite enc_spec by lia.
  pose proof (reverse_code n (codeOf lens k n) ltac:(lia) Hc) as Hrev.
  destruct (Reverse16 (u16 (codeOf lens k n))) as [r16| |]; try done. cbn [rbind] in Hrev |- *. injection Hrev as ->.
  pose proof (revn_range n (codeOf lens k n) ltac:(lia)) as Hr. change huffmanChunkBits with 9. change (huffmanNumChunks - 1) with (Z.ones 9).
  destruct (Z.leb_spec n 9) as [L|L].
  - eapply returns_bind_mono; [apply (fillTab_spec (chunks h) n _ (enc k n)); lia|]. intros cs (Hl & Hcs). cbn [returns]. split; [done|].
    destruct Ht as [T1 T2 T3 T4 T5]. constructor; cbn [chunks links linkMask]; try done.
    + lia.
    + intros x Hx. rewrite Hcs by lia. destruct (Z.eqb_spec (x mod 2 ^ n) (revn n (codeOf lens k n))) as [E|E].
      * apply entry_new; [done|]. split; [done|]. by apply (index_matches n (codeOf lens k n) 9 x); try lia.
      * apply entry_old; [|by apply T2]. intros n' Hn' [_ HP]. rewrite <- (hasCode_fun k n n' H Hn') in HP.
        apply E. by apply (index_matches n (codeOf lens k n) 9 x); try lia.
    + intros Hm off Ho. destruct (T5 Hm off Ho) as (t & E & Hlt & He). exists t. split_and!; try done.
      intros y Hy. apply entry_old; [|by apply He]. intros n' Hn' [HL _]. rewrite <- (hasCode_fun k n n' H Hn') in HL. lia.
  - rewrite Z.land_ones by lia. destruct (long_chunk k h k n Ht H L) as [Hval Hch].
    set (c := codeOf lens k n) in *. set (top := c / 2 ^ (n - 9)) in *.
    assert (Hidx : revn n c mod 2 ^ 9 = revn 9 top).
    { apply (index_matches 9 top n); try lia; [change (2 ^ 9) with 512; pose proof (first_nonneg lens (Z.to_nat 9)); pose proof (past_first lens 9 ltac:(lia)); lia|].
      rewrite revn_revn by lia. done. }
    pose proof (first_nonneg lens (Z.to_nat 9)). pose proof (past_first lens 9 ltac:(lia)).
    pose proof (revn_range 9 top ltac:(lia)) as Hr9. change (2 ^ 9) with 512 in Hr9. rewrite Hidx, (idx_Ok _ _ _ (proj1 Hr9) Hch). cbn [rbind]. rewrite enc_value by lia.
    destruct Ht as [T1 T2 T3 T4 T5]. destruct (T5 ltac:(lia) (top - past lens 9) ltac:(lia)) as (t & Et & Hlt & He).
    rewrite (idx_Ok (links h) (top - past lens 9) t) by (done || lia). cbn [rbind]. rewrite shiftr_div by lia.
    assert (Hst : 0 <= revn n c / 2 ^ 9 < 2 ^ (n - 9)).
    { split; [apply Z.div_pos; lia|]. apply Z.div_lt_upper_bound; [lia|]. rewrite <- Z.pow_add_r by lia. replace (9 + (n - 9)) with n by lia. lia. }
    eapply returns_bind_mono; [apply (fillTab_spec t (n - 9) _ (enc k n)); lia|]. intros t' (Hlt' & Ht'). rewrite upd_Ok by (rewrite T4; lia).
    cbn [rbind returns]. split; [done|]. constructor; cbn [chunks links linkMask]; try done.
    + intros x Hx. apply entry_old; [|by apply T2]. intros n' Hn' [HL _]. rewrite <- (hasCode_fun k n n' H Hn') in HL. lia.
    + intros Hm. rewrite len_insert. auto.
    + intros Hm off Ho. destruct (decide (off = top - past lens 9)) as [->|Hne].
      * exists t'. rewrite list_lookup_insert_eq by (specialize (T4 Hm); unfold len in T4; lia). split; [done|]. split; [lia|].
        intros y Hy. rewrite Ht' by lia. pose proof (tail_matches k n y H ltac:(lia) ltac:(lia)) as Hiff. cbv zeta in Hiff. fold c in Hiff. fold top in Hiff.
        assert (Hlong : longAt (top - past lens 9) y k n <-> y mod 2 ^ (n - 9) = revn n c / 2 ^ 9).
        { unfold longAt. replace (past lens 9 + (top - past lens 9)) with top by lia. tauto. }
        destruct (Z.eqb_spec (y mod 2 ^ (n - 9)) (revn n c / 2 ^ 9)) as [E|E]; [by apply entry_new, Hlong|].
        apply entry_old; [|by apply He]. intros n' Hn' HP. rewrite <- (hasCode_fun k n n' H Hn') in HP. by apply E, Hlong.
      * rewrite list_lookup_insert_ne by lia. destruct (T5 Hm off Ho) as (u & Eu & Hlu & Hu). exists u. split_and!; try done.
        intros y Hy. apply entry_old; [|by apply Hu]. intros n' Hn' [_ HP]. rewrite <- (hasCode_fun k n n' H Hn') in HP.
        apply (long_leading k n mx) in HP as [HP _]; [|done | lia]. fold c in HP. fold top in HP.
        pose proof (revn_range (mx - 9) y ltac:(lia)). rewrite Z.add_comm, Z.div_add, Z.div_small in HP by lia. lia.
Qed.

Lemma rank_next pre x ls n :
  lens = pre ++ x :: ls -> codeOf lens (len pre + 1) n = codeOf lens (len pre) n + (if x =? n then 1 else 0).
Proof.
  intros E. unfold codeOf, rank. rewrite <- Z.add_assoc. f_equal. replace (Z.to_nat (len pre + 1)) with (S (length pre)) by (unfold len; lia).
  replace (Z.to_nat (len pre)) with (length pre) by (unfold len; lia). rewrite E.
  rewrite (take_S_r _ _ x) by (by rewrite list_lookup_middle). rewrite take_app_length. apply cnt_snoc.
Qed.

Lemma addCodes_spec ls pre nextcode h :
  lens = pre ++ ls -> len nextcode = 16 -> (forall n, 1 <= n <= mx -> nextcode !! Z.to_nat n = Some (codeOf lens (len pre) n)) ->
  tablesOK (len pre) h -> addCodes h nextcode (len pre) ls ⇓ fun h' => hmin h' = hmin h /\ tablesOK (len lens) h'.
Proof.
  revert pre nextcode h. induction ls as [|x ls IH]; intros pre nextcode h E Hl Hnc Ht; cbn [addCodes].
  { rewrite app_nil_r in E. by subst pre. }
  assert (Hlen : len (pre ++ [x]) = len pre + 1) by (by rewrite len_app).
  assert (E' : lens = (pre ++ [x]) ++ ls) by (by rewrite <- (assoc_L app)).
  assert (Hat : lens !! Z.to_nat (len pre) = Some x) by (unfold len; rewrite Nat2Z.id, E; by apply list_lookup_middle).
  pose proof (len_nonneg pre) as Hpre.
  assert (Hx : 0 <= x <= 15) by (unfold lens_ok in Hlens; rewrite Forall_forall in Hlens; apply Hlens; by apply list_elem_of_lookup_2 in Hat).
  destruct (Z.eqb_spec x 0) as [->|Hx0].
  - rewrite <- Hlen. apply IH; [done | done | |].
    + intros n Hn. rewrite Hlen, (rank_next pre 0 ls n E), Hnc by done. destruct (Z.eqb_spec 0 n); [lia|]. f_equal. lia.
    + rewrite Hlen. assert (Hno : forall n, ~ hasCode lens (len pre) n) by (intros n (_ & Hn & Hc); rewrite Hat in Hc; injection Hc; lia).
      destruct Ht as [T1 T2 T3 T4 T5]. constructor; try done.
      * intros y Hy. apply entry_old; [|by apply T2]. intros n Hn. by destruct (Hno n).
      * intros Hm off Ho. destruct (T5 Hm off Ho) as (t & ? & ? & He). exists t. split_and!; try done. intros y Hy.
        apply entry_old; [|by apply He]. intros n Hn. by destruct (Hno n).
  - assert (Hc : hasCode lens (len pre) x) by (split; [done|]; split; [lia | done]). pose proof (hasCode_max _ _ Hc).
    rewrite (idx_Ok nextcode x (codeOf lens (len pre) x)) by (try lia; apply Hnc; lia). cbn [rbind]. rewrite upd_Ok by lia. cbn [rbind].
    eapply returns_bind_mono; [by apply addCode_spec|]. intros h' [Hm Ht']. rewrite <- Hm. rewrite <- Hlen in Ht' |- *.
    apply IH; try done.
    + by rewrite len_insert.
    + intros n Hn. rewrite Hlen, (rank_next pre x ls n E). destruct (Z.eqb_spec x n) as [->|Hne].
      * rewrite list_lookup_insert_eq by (unfold len in Hl; lia). done.
      * rewrite list_lookup_insert_ne by lia. rewrite Hnc by done. f_equal. lia.
Qed.

(** ** Looking up *)

Lemma lookupChunk_tables h b :
  tablesOK (len lens) h -> 0 <= b ->
  lookupChunk h b ⇓ fun '(chunk, n) => (exists i, hasCode lens i n /\ matches lens i n 15 (revn 15 b) /\ chunk = enc i n) \/
    (n = 0 /\ forall i m, hasCode lens i m -> ~ matches lens i m 15 (revn 15 b)).
Proof.
  intros [T1 T2 T3 T4 T5] Hb. unfold lookupChunk. change huffmanChunkBits with 9. change (huffmanNumChunks - 1) with (Z.ones 9).
  assert (Hall : forall i m, hasCode lens i m -> i < len lens) by (intros i m (Hi & _ & Hl); by apply (lookup_Z _ _ _ Hi Hl)).
  rewrite Z.land_ones by lia. pose proof (Z.mod_pos_bound b (2 ^ 9) ltac:(lia)) as Hx. set (x := b mod 2 ^ 9) in *.
  assert (Hrx : revn 9 x = revn 15 b / 2 ^ (15 - 9)) by (rewrite revn_leading by lia; unfold x; apply revn_mod; lia).
  change (2 ^ 9) with 512 in Hx.
  destruct (T2 x Hx) as [(i & n & Hi & Hc & [Hn HP] & E)|[Hno E]]; rewrite (idx_Ok _ _ _ (proj1 Hx) E); cbn [rbind]; pose proof (sp_max _ _ _ Hspan).
  - pose proof (hasCode_max i n Hc). rewrite enc_count by lia. destruct (Z.gtb_spec n 9); [lia|]. cbn [returns]. left. exists i. split_and!; try done.
    apply (matches_width i n 9 15); [lia|]. by rewrite <- Hrx.
  - assert (Hshort : forall i m, hasCode lens i m -> m <= 9 -> ~ matches lens i m 15 (revn 15 b)).
    { intros i m Hc Hm HM. apply (Hno i m (Hall i m Hc) Hc). split; [done|]. rewrite Hrx. by apply (matches_width i m 9 15); [lia|]. }
    unfold linkEntry. destruct (Z.ltb_spec 9 mx) as [L|L], (Z.leb_spec (past lens 9) (revn 9 x)) as [G|G]; cbn [andb].
    2-4: change (Z.land 0 huffmanCountMask) with 0; change (0 >? 9) with false; cbn [returns]; right; split; [done|]; intros i m Hc;
         pose proof (hasCode_max i m Hc); (destruct (Z.le_gt_cases m 9); [by apply Hshort|]); intros HM; try lia;
         destruct (long_leading i m 15 _ Hc ltac:(lia) HM); rewrite <- Hrx in *; lia.
    rewrite enc_count, enc_value by lia. change (10 >? 9) with true.
    pose proof (revn_range 9 x ltac:(lia)) as Hr. change (2 ^ 9) with 512 in Hr.
    destruct (T5 L (revn 9 x - past lens 9) ltac:(lia)) as (t & Et & Hlt & He).
    rewrite (idx_Ok (links h) (revn 9 x - past lens 9) t) by (done || lia). cbn [rbind]. rewrite T3 by done.
    rewrite (land_ones' _ (mx - 9)) by lia. rewrite shiftr_div by lia. pose proof (Z.mod_pos_bound (b / 2 ^ 9) (2 ^ (mx - 9)) ltac:(lia)) as Hy.
    assert (Hv : (past lens 9 + (revn 9 x - past lens 9)) * 2 ^ (mx - 9) + revn (mx - 9) ((b / 2 ^ 9) mod 2 ^ (mx - 9)) = revn 15 b / 2 ^ (15 - mx)).
    { replace (past lens 9 + (revn 9 x - past lens 9)) with (revn 9 x) by lia. rewrite revn_mod by lia. unfold x. rewrite (revn_mod 9 b 9) by lia.
      rewrite <- revn_app by lia. replace (9 + (mx - 9)) with mx by lia. by rewrite revn_leading by lia. }
    destruct (He _ Hy) as [(i & n & Hi & Hc & [Hn HP] & Eo)|[Hnl Eo]]; rewrite (idx_Ok _ _ _ (proj1 Hy) Eo); cbn [rbind returns].
    + pose proof (hasCode_max i n Hc). rewrite enc_count by lia. left. exists i. split_and!; try done.
      rewrite Hv in HP. by apply (matches_width i n mx 15) in HP; [|lia].
    + right. split; [done|]. intros i m Hc HM. pose proof (hasCode_max i m Hc). destruct (Z.le_gt_cases m 9) as [L9|L9]; [by apply (Hshort i m)|].
      apply (Hnl i m (Hall i m Hc) Hc). split; [lia|]. rewrite Hv. by apply (matches_width i m mx 15); [lia|].
Qed.
End Tables.

(** ** Valid lists of lengths *)

(** No codes, a complete set of codes, or one code of one bit. *)
Definition noCodes (lens : list Z) : bool := forallb (fun n => n =? 0) lens.
Definition completeCodes (lens : list Z) : bool := past lens 15 =? 2 ^ 15.
Definition oneCode (lens : list Z) : bool := forallb (fun n => n <=? 1) lens && (past lens 1 =? 1).
Definition validLens (lens : list Z) : bool := noCodes lens || completeCodes lens || oneCode lens.

(** The decoder finds the codes of [lens]; a decoder without a minimum is empty. *)
Record decodes (lens : list Z) (h : huffmanDecoder) : Prop := {
  de_range : 0 <= hmin h <= 15;
  de_zero : hmin h = 0 -> h = zeroHuff /\ noCodes lens = true;
  de_lookup : forall b, 0 <= b -> lookupChunk h b ⇓ fun '(chunk, n) =>
    (exists i, hasCode lens i n /\ matches lens i n 15 (revn 15 b) /\ chunk = enc i n) \/
    (n = 0 /\ forall i m, hasCode lens i m -> ~ matches lens i m 15 (revn 15 b));
}.

(** No code is shorter. *)
Definition least (lens : list Z) (n : Z) : Prop := forall i m, hasCode lens i m -> n <= m.

Definition clean (h : huffmanDecoder) : Prop := hmin h = 0 -> h = zeroHuff.

Lemma noCodes_spec lens i n : noCodes lens = true -> ~ hasCode lens i n.
Proof.
  unfold noCodes. rewrite forallb_forall. intros H (Hi & Hn & Hl). apply list_elem_of_lookup_2, list_elem_of_In, H, Z.eqb_eq in Hl. lia.
Qed.

Lemma spans_empty lens mn mx : lens_ok lens -> spans lens mn mx -> noCodes lens = (mx =? 0).
Proof.
  intros Hok Hs. unfold noCodes. apply eq_true_iff_eq. rewrite forallb_forall, Z.eqb_eq. setoid_rewrite Z.eqb_eq.
  setoid_rewrite <- list_elem_of_In. split.
  - intros H. destruct (sp_in _ _ _ Hs) as [?|Hin]; [done | by apply H].
  - intros -> x Hx. pose proof (sp_le _ _ _ Hs x Hx). unfold lens_ok in Hok. rewrite Forall_forall in Hok. specialize (Hok x Hx). lia.
Qed.

Lemma past_beyond lens mn mx n : spans lens mn mx -> 0 <= mx <= n -> past lens n = past lens mx * 2 ^ (n - mx).
Proof.
  intros Hs [H0 Hn]. replace n with (mx + Z.of_nat (Z.to_nat (n - mx))) by lia. generalize (Z.to_nat (n - mx)). intros k. clear n Hn.
  replace (mx + Z.of_nat k - mx) with (Z.of_nat k) by lia. induction k as [|k IH].
  - rewrite Nat2Z.inj_0, Z.add_0_r. lia.
  - replace (mx + Z.of_nat (S k)) with (mx + Z.of_nat k + 1) by lia. unfold past at 1. rewrite first_succ, IH by lia.
    destruct (Z.eqb_spec (mx + Z.of_nat k + 1) 0); [lia|]. rewrite (cnt_outside lens mn mx Hs) by lia.
    rewrite Nat2Z.inj_succ, Z.pow_succ_r by lia. lia.
Qed.

Lemma spans_complete lens mn mx : spans lens mn mx -> completeCodes lens = (past lens mx =? 2 ^ mx).
Proof.
  intros Hs. pose proof (sp_range _ _ _ Hs). pose proof (sp_max _ _ _ Hs). unfold completeCodes. rewrite (past_beyond lens mn mx 15 Hs) by lia.
  assert (E : 2 ^ 15 = 2 ^ mx * 2 ^ (15 - mx)) by (rewrite <- Z.pow_add_r by lia; f_equal; lia). rewrite E.
  assert (0 < 2 ^ (15 - mx)) by lia. apply eq_true_iff_eq. rewrite !Z.eqb_eq. nia.
Qed.

Lemma spans_one lens mn mx : lens_ok lens -> spans lens mn mx -> 0 < mx -> oneCode lens = (past lens mx =? 1) && (mx =? 1).
Proof.
  intros Hok Hs Hm. unfold oneCode. destruct (Z.eqb_spec mx 1) as [->|Hne].
  - rewrite andb_true_r. replace (forallb (fun n => n <=? 1) lens) with true; [done|]. symmetry. apply forallb_forall. intros x Hx%list_elem_of_In. apply Z.leb_le. by apply (sp_le _ _ _ Hs).
  - rewrite andb_false_r. destruct (sp_in _ _ _ Hs) as [?|Hin]; [lia|].
    destruct (forallb (fun n => n <=? 1) lens) eqn:E; [|done]. rewrite forallb_forall in E. apply list_elem_of_In, E, Z.leb_le in Hin. lia.
Qed.

Lemma counts_spec lens :
  lens_ok lens -> countLengths (replicate (Z.to_nat maxCodeLen) 0) 0 0 lens ⇓ fun '(count, mn, mx) => len count = 16 /\ spans lens mn mx /\
    forall n, 1 <= n <= 15 -> count !! Z.to_nat n = Some (cnt lens n).
Proof.
  intros Hok. apply (countLengths_spec [] lens (replicate (Z.to_nat maxCodeLen) 0) 0 0); try done; [apply Forall_nil_2 | |].
  - constructor; [lia | lia | | by left | | done]; intros x Hx; by apply not_elem_of_nil in Hx.
  - intros n Hn. exact (zeros_lookup 16 n ltac:(lia)).
Qed.

Lemma spans_exist lens : lens_ok lens -> exists mn mx, spans lens mn mx.
Proof.
  intros Hok. pose proof (counts_spec lens Hok) as H. destruct (countLengths _ _ _ lens) as [[[c mn] mx]| |]; try done.
  exists mn, mx. apply H.
Qed.

(** The codes of a valid list fit their lengths. *)
Lemma valid_code lens i n :
  lens_ok lens -> validLens lens = true -> hasCode lens i n -> 0 < n <= 15 /\ 0 <= codeOf lens i n < 2 ^ n.
Proof.
  intros Hok Hv Hc. destruct (spans_exist lens Hok) as (mn & mx & Hs). pose proof (sp_range _ _ _ Hs). pose proof (sp_max _ _ _ Hs).
  pose proof Hc as (Hi & Hn & Hl). assert (n <= mx) by (apply (sp_le _ _ _ Hs); by apply list_elem_of_lookup_2 in Hl). split; [lia|].
  assert (Hp : past lens mx <= 2 ^ mx).
  { unfold validLens in Hv. rewrite (spans_complete lens mn mx Hs), (spans_one lens mn mx Hok Hs) in Hv by lia.
    apply orb_true_iff in Hv as [Hv|Hv]; [apply orb_true_iff in Hv as [Hv|Hv]|].
    - by apply (noCodes_spec lens i n) in Hv.
    - apply Z.eqb_eq in Hv. lia.
    - apply andb_true_iff in Hv as [Hv _]. apply Z.eqb_eq in Hv. assert (0 < 2 ^ mx) by lia. lia. }
  pose proof (codeOf_range lens i n Hc). pose proof (first_nonneg lens (Z.to_nat n)).
  assert (past lens n <= 2 ^ n) by (eapply past_pow; [done | lia]). lia.
Qed.

Lemma decodes_empty lens : noCodes lens = true -> decodes lens zeroHuff.
Proof.
  intros H. constructor; [cbn; lia | done|]. intros b Hb. unfold lookupChunk, zeroHuff. cbn [chunks].
  change huffmanNumChunks with 512. change (512 - 1) with (Z.ones 9). rewrite Z.land_ones by lia.
  pose proof (Z.mod_pos_bound b (2 ^ 9) ltac:(lia)) as Hm. change (2 ^ 9) with 512 in *. rewrite (idx_Ok _ _ 0) by (lia || by apply zeros_lookup).
  cbn. right. split; [done|]. intros i m Hc. by apply noCodes_spec in Hc.
Qed.

Lemma huff_init_spec h lens :
  lens_ok lens -> len lens < 2 ^ 28 -> clean h ->
  huff_init h lens ⇓ fun '(ok, h') => ok = validLens lens /\ clean h' /\ (ok = true -> decodes lens h' /\ least lens (hmin h')).
Proof.
  intros Hok Hlen Hclean. unfold huff_init.
  replace (if negb (hmin h =? 0) then zeroHuff else h) with zeroHuff by (destruct (Z.eqb_spec (hmin h) 0) as [E|]; [by rewrite (Hclean E) | done]).
  eapply returns_bind_mono; [by apply counts_spec|].
  intros [[count mn] mx] (Hcl & Hs & Hcnt). pose proof (sp_range _ _ _ Hs). pose proof (sp_max _ _ _ Hs).
  pose proof (spans_empty lens mn mx Hok Hs) as Hemp. unfold validLens.
  destruct (Z.eqb_spec mx 0) as [->|Hmx].
  { rewrite Hemp. cbn. split; [done|]. split; [done|]. intros _. split; [by apply decodes_empty|]. intros i m (_ & ? & _). cbn. lia. }
  rewrite Hemp, (spans_complete lens mn mx Hs), (spans_one lens mn mx Hok Hs) by lia.
  eapply returns_bind_mono; [apply (firstCodes_spec lens mn mx Hs count); try done; lia|]. intros [nextcode code] (Hnl & -> & Hnc).
  rewrite shiftl_mul, Z.mul_1_l by lia. cbn [orb]. rewrite <- negb_orb.
  destruct ((past lens mx =? 2 ^ mx) || (past lens mx =? 1) && (mx =? 1)) eqn:Ev; cbn [negb].
  2: { cbn. split; [done|]. split; [by intros _ | done]. }
  assert (Hp : past lens mx <= 2 ^ mx).
  { apply orb_true_iff in Ev as [E|E]; [apply Z.eqb_eq in E; lia|]. apply andb_true_iff in E as [E _]. apply Z.eqb_eq in E. assert (0 < 2 ^ mx) by lia. lia. }
  assert (Hmn : 0 < mn) by (destruct (Z.eq_dec mn 0) as [E|]; [pose proof (sp_none _ _ _ Hs E); lia | lia]).
  apply (returns_bind_mono _ _ (fun h' => hmin h' = mn /\ tablesOK lens mx 0 h')).
  { destruct (Z.gtb_spec mx huffmanChunkBits) as [L|L]; change huffmanChunkBits with 9 in L.
    - by eapply makeLinks_spec.
    - cbn [returns]. split; [done|]. by apply noLinks_ok. }
  intros h1 [Hm1 Ht1]. eapply returns_bind_mono.
  { eapply (addCodes_spec lens) with (pre := []); try done. intros n Hn. rewrite Hnc by lia. f_equal. unfold codeOf, rank. change (Z.to_nat (len (@nil Z))) with 0%nat. rewrite take_0. change (len (filter (fun x => x = n) (@nil Z))) with 0. lia. }
  intros h2 [Hm2 Ht2]. cbn [returns]. split; [done|]. rewrite Hm1 in Hm2. split; [intros E; lia|]. intros _. split.
  - constructor; [lia | lia|]. intros b Hb. by eapply lookupChunk_tables.
  - rewrite Hm2. intros i m (_ & Hm & Hl). apply (sp_min _ _ _ Hs); [by apply list_elem_of_lookup_2 in Hl | lia].
Qed.
