(* ===== verification/FlateBits.v ===== *)
(** * compress/flate: the bits of the source

    The bits that wait in f.b, and those of the bytes of the source, are one list
    of bits: moreBits changes nothing, and the bits that the decoder takes are at
    its start.  huffSym takes the code that starts the list, whatever the order in
    which it fetches the bytes, and fetches none that it does not need. *)
From Stdlib Require Import ZArith Lia.
From stdpp Require Import base numbers list.
From S2P Require Import Prelude Bits Lzw LzwBits Bufio BufioReader Flate FlateTables.

(** ReadByte gives the data of the source, and then its error. *)
Class ByteLaws (S : Type) {RD : ioReader S} {SR : Source S} {BR : byteReader S} : Prop := {
  readByte_next : forall s x l, dataOf s = x :: l ->
    exists s', readByte s = (x, None, s') /\ dataOf s' = l /\ finalOf s' = finalOf s;
  readByte_end : forall s, dataOf s = [] ->
    exists c s', readByte s = (c, Some (finalOf s), s') /\ dataOf s' = [] /\ finalOf s' = finalOf s;
}.

Lemma valL_take_drop n l : valL l = valL (take n l) + 2 ^ Z.of_nat (length (take n l)) * valL (drop n l).
Proof. rewrite <- valL_app. by rewrite take_drop. Qed.

Section Reader.
Context {S : Type} {RD : ioReader S} {SR : Source S} {BR : byteReader S} {BL : ByteLaws S}.
Implicit Types f : decompressor S.

Definition byteBits (l : list Z) : list bool := bytesBits fnLSB l.

(** The bits ahead are [B]. *)
Record inputs f (B : list bool) : Prop := {
  in_nb : 0 <= d_nb f;
  in_b : 0 <= d_b f < 2 ^ d_nb f;
  in_bits : B = bitsL (Z.to_nat (d_nb f)) (d_b f) ++ byteBits (dataOf (d_r f));
}.

(** [f'] is [f] after reading, with [B] ahead and at most [k] bits that wait. *)
Definition moved f (B : list bool) (k : Z) f' : Prop :=
  (exists r off b nb, f' = setIn f r off b nb) /\ finalOf (d_r f') = finalOf (d_r f) /\ inputs f' B /\ d_nb f' <= k.

Lemma moved_self f B : inputs f B -> moved f B (d_nb f) f.
Proof. intros H. split; [|done]. exists (d_r f), (roffset f), (d_b f), (d_nb f). by destruct f. Qed.

Lemma moved_trans f f1 f2 B B' k k' : moved f B k f1 -> moved f1 B' k' f2 -> moved f B' k' f2.
Proof.
  intros ((r & off & b & nb & ->) & Hf & _) ((r' & off' & b' & nb' & ->) & Hf' & Hi & Hk). split; [|split; [|done]].
  - by exists r', off', b', nb'.
  - rewrite Hf'. exact Hf.
Qed.

Lemma moved_le f B k k' f' : moved f B k f' -> k <= k' -> moved f B k' f'.
Proof. intros (? & ? & ? & ?) ?. split_and!; try done; lia. Qed.

Lemma moved_inputs f B k f' : moved f B k f' -> inputs f' B.
Proof. by intros (_ & _ & ? & _). Qed.

Lemma moved_nb f B k f' : moved f B k f' -> 0 <= d_nb f' <= k.
Proof. intros (_ & _ & [? ? ?] & ?). done. Qed.

(** At most as many bits wait as there are. *)
Lemma inputs_length f B : inputs f B -> (length B = Z.to_nat (d_nb f) + 8 * length (dataOf (d_r f)))%nat.
Proof. intros [H1 H2 ->]. rewrite length_app, bitsL_length. unfold byteBits. by rewrite bytesBits_length. Qed.

Definition lastError f : flateError := noEOF (IoError (finalOf (d_r f))).

Lemma noEOF_not e : noEOF e <> IoError Bufio.EOF.
Proof. unfold noEOF. by destruct (decide (e = IoError Bufio.EOF)). Qed.

Lemma moreBits_spec f B :
  inputs f B -> d_nb f <= 24 ->
  match moreBits f with
  | (None, f') => moved f B (d_nb f + 8) f' /\ d_nb f' = d_nb f + 8 /\ length (dataOf (d_r f)) = Datatypes.S (length (dataOf (d_r f')))
  | (Some e, f') => e = lastError f /\ moved f B (d_nb f) f' /\ len B = d_nb f
  end.
Proof.
  intros Hin Hnb. pose proof Hin as [Hn Hb HB]. unfold moreBits. destruct (dataOf (d_r f)) as [|x l] eqn:E.
  - destruct (readByte_end _ E) as (c & r' & -> & Hd & Hf). split; [done|]. split.
    + split; [by repeat eexists|]. split; [done|]. split; [|cbn; lia]. constructor; cbn [setIn d_nb d_b d_r]; try done. by rewrite HB, Hd.
    + rewrite HB, len_app. unfold len. rewrite bitsL_length. cbn. lia.
  - destruct (readByte_next _ _ _ E) as (r' & -> & Hd & Hf). pose proof (dataOf_ok (d_r f)) as Hok. rewrite E in Hok.
    apply Forall_cons in Hok as [Hx _]. unfold byte_ok in Hx.
    assert (Hp : 2 ^ d_nb f <= 2 ^ 24) by (apply Z.pow_le_mono_r; lia). assert (0 < 2 ^ d_nb f) by lia.
    rewrite shiftl_mul, u32_id by nia. rewrite Z.lor_comm, lor_disjoint_mul by lia. set (b' := x * 2 ^ d_nb f + d_b f).
    assert (Hmod : bitsL (Z.to_nat (d_nb f + 8)) b' = bitsL (Z.to_nat (d_nb f)) (d_b f) ++ bitsL 8 x).
    { rewrite Z2Nat.inj_add by lia. rewrite bitsL_app, Z2Nat.id by lia. f_equal.
      - rewrite <- (bitsL_mod _ (d_nb f) b') by lia. unfold b'. rewrite Z.add_comm, Z.mod_add, Z.mod_small by lia. done.
      - unfold b'. rewrite Z.add_comm, Z.div_add, Z.div_small by lia. done. }
    split; [|by cbn; rewrite Hd]. split; [by repeat eexists|]. split; [done|]. split; [|cbn; lia].
    constructor; cbn [d_nb d_b d_r setIn]; [lia | unfold b'; rewrite Z.pow_add_r by lia; change (2 ^ 8) with 256; nia|].
    rewrite Hmod, Hd, HB. unfold byteBits. by rewrite bytesBits_cons, (assoc_L app).
Qed.

Lemma needBits_spec f B n :
  inputs f B -> 0 <= n <= 24 ->
  needBits f n ⇓ fun '(err, f') => moved f B (Z.max (d_nb f) (n + 7)) f' /\
    (if n <=? len B then err = None /\ n <= d_nb f' else err = Some (lastError f)).
Proof.
  intros Hin Hn. unfold needBits.
  apply (loop_returns (fun f' => moved f B (Z.max (d_nb f) (n + 7)) f') (fun f' => Z.max 0 (n - d_nb f'))).
  - intros f1 Hm. pose proof Hm as ((r & off & b & nb & E) & Hfin & Hi & Hk). pose proof (inputs_length _ _ Hi) as Hl. pose proof (in_nb _ _ Hi).
    destruct (Z.ltb_spec (d_nb f1) n) as [L|L].
    + pose proof (moreBits_spec f1 B Hi ltac:(lia)) as Hs. destruct (moreBits f1) as [[e|] f2]; cbn [returns].
      * destruct Hs as (-> & Hm2 & Hlen). split.
        -- eapply moved_le; [by eapply moved_trans|]. lia.
        -- destruct (Z.leb_spec n (len B)); [lia|]. unfold lastError. by rewrite Hfin.
      * destruct Hs as (Hm2 & Hnb2 & _). split; [|lia]. eapply moved_le; [by eapply moved_trans|]. lia.
    + cbn [returns]. split; [done|]. destruct (Z.leb_spec n (len B)) as [G|G]; [done|]. unfold len in G. lia.
  - eapply moved_le; [by apply moved_self|]. lia.
  - pose proof (in_nb _ _ Hin). lia.
  - lia.
Qed.

Lemma symBits_eq f n : 0 <= d_nb f -> n <= 31 -> symBits f n = needBits f n.
Proof.
  intros Hf Hn. unfold symBits, needBits. generalize (Datatypes.S (Z.to_nat n)). intros fuel. revert f Hf.
  induction fuel as [|fuel IH]; intros f Hf; cbn [loop]; [done|]. destruct (Z.ltb_spec (d_nb f) n) as [L|L]; [|done].
  unfold moreBits. destruct (readByte (d_r f)) as [[c err] r]. destruct err; [done|]. cbn [rbind].
  change 31 with (Z.ones 5). rewrite Z.land_ones, Z.mod_small by (change (2 ^ 5) with 32; lia). apply IH. cbn. lia.
Qed.

(** ** Taking bits *)

Lemma inputs_take f B n :
  inputs f B -> 0 <= n <= d_nb f -> take (Z.to_nat n) B = bitsL (Z.to_nat n) (d_b f) /\
  drop (Z.to_nat n) B = bitsL (Z.to_nat (d_nb f - n)) (d_b f / 2 ^ n) ++ byteBits (dataOf (d_r f)).
Proof.
  intros [H1 H2 ->] Hn. replace (Z.to_nat (d_nb f)) with (Z.to_nat n + Z.to_nat (d_nb f - n))%nat by lia.
  rewrite bitsL_app, <- (assoc_L app), Z2Nat.id by lia.
  rewrite take_app_length' by (by rewrite bitsL_length). rewrite drop_app_length' by (by rewrite bitsL_length). done.
Qed.

Lemma dropBits_moved f B n : inputs f B -> 0 <= n <= d_nb f -> moved f (drop (Z.to_nat n) B) (d_nb f - n) (dropBits f n).
Proof.
  intros Hin Hn. destruct (inputs_take f B n Hin Hn) as [_ Hd]. pose proof Hin as [H1 H2 _]. unfold dropBits.
  split; [by repeat eexists|]. split; [done|]. split; [|cbn; lia]. rewrite shiftr_div by lia.
  constructor; cbn [d_nb d_b d_r setIn]; [lia | | done]. split; [apply Z.div_pos; lia|]. apply Z.div_lt_upper_bound; [lia|].
  rewrite <- Z.pow_add_r by lia. replace (n + (d_nb f - n)) with (d_nb f) by lia. lia.
Qed.

(** The number of the first [n] bits, the lowest first. *)
Definition numBits (n : Z) (B : list bool) : Z := valL (take (Z.to_nat n) B).

Lemma valL_bitsL_mod n x : 0 <= n -> 0 <= x -> valL (bitsL (Z.to_nat n) x) = x mod 2 ^ n.
Proof.
  intros Hn Hx. rewrite <- (bitsL_mod _ n) by lia. apply valL_bitsL. rewrite Z2Nat.id by lia. apply Z.mod_pos_bound. lia.
Qed.

Lemma numBits_low f B n : inputs f B -> 0 <= n <= d_nb f -> d_b f mod 2 ^ n = numBits n B.
Proof.
  intros Hin Hn. destruct (inputs_take f B n Hin Hn) as [Ht _]. pose proof (in_b _ _ Hin). unfold numBits. rewrite Ht.
  by rewrite valL_bitsL_mod by lia.
Qed.

Lemma numBits_range n B : 0 <= n -> 0 <= numBits n B < 2 ^ n.
Proof.
  intros Hn. unfold numBits. pose proof (valL_range (take (Z.to_nat n) B)) as H. rewrite length_take in H.
  assert (2 ^ Z.of_nat (Z.to_nat n `min` length B) <= 2 ^ n) by (apply Z.pow_le_mono_r; lia). lia.
Qed.

Lemma lowBits_spec f B n : inputs f B -> 0 <= n <= 31 -> n <= d_nb f -> lowBits f n = numBits n B.
Proof.
  intros Hin Hn Hnb. unfold lowBits. assert (2 ^ n <= 2 ^ 31) by (apply Z.pow_le_mono_r; lia).
  rewrite shiftl_mul, Z.mul_1_l, u32_id by lia. rewrite (land_ones' _ n) by lia. apply numBits_low; [done | lia].
Qed.

Lemma getBits_spec f B n :
  inputs f B -> 0 <= n <= 24 ->
  getBits f n ⇓ fun '(x, err, f') =>
    if n <=? len B then x = numBits n B /\ err = None /\ moved f (drop (Z.to_nat n) B) (Z.max (d_nb f - n) 7) f'
    else err = Some (lastError f) /\ moved f B (Z.max (d_nb f) (n + 7)) f'.
Proof.
  intros Hin Hn. unfold getBits. eapply returns_bind_mono; [by apply (needBits_spec f B n)|].
  intros [err f1] [Hm Hc]. destruct (Z.leb_spec n (len B)).
  - destruct Hc as [-> Hnb]. cbn [returns]. pose proof (moved_inputs _ _ _ _ Hm) as Hi. split; [apply (lowBits_spec f1 B n); [done | lia | done]|]. split; [done|].
    pose proof (moved_nb _ _ _ _ Hm). eapply moved_le; [eapply moved_trans; [done | apply (dropBits_moved f1 B n); [done | lia]]|]. lia.
  - subst err. cbn [returns]. done.
Qed.
End Reader.

(** * compress/flate: reading a symbol

    huffSym takes the symbol whose code starts the bits ahead.  It looks up the
    bits that wait as if zeros followed them; the length it finds is never more
    than that of the code, since the codes of smaller numbers are shorter, so it
    does not fetch a byte beyond the code (or beyond the minimum of the decoder). *)

(** ** The code at the start of the bits *)

Definition codeBits (lens : list Z) (i n : Z) : list bool := reverse (bitsL (Z.to_nat n) (codeOf lens i n)).

(** The code of symbol [i], of [n] bits, starts [B]. *)
Definition startsWith (lens : list Z) (i n : Z) (B : list bool) : Prop := hasCode lens i n /\ take (Z.to_nat n) B = codeBits lens i n.

Section Starts.
Variable lens : list Z.
Hypothesis Hok : lens_ok lens.
Hypothesis Hvalid : validLens lens = true.

Lemma codeBits_length i n : length (codeBits lens i n) = Z.to_nat n.
Proof. unfold codeBits. by rewrite length_reverse, bitsL_length. Qed.

Lemma codeBits_value i n : hasCode lens i n -> valM (codeBits lens i n) = codeOf lens i n.
Proof. intros H. destruct (valid_code lens i n Hok Hvalid H). unfold codeBits. apply valM_reverse_bitsL. rewrite Z2Nat.id by lia. done. Qed.

Lemma startsWith_length i n B : startsWith lens i n B -> 0 < n <= 15 /\ n <= len B.
Proof.
  intros [Hc Ht]. destruct (valid_code lens i n Hok Hvalid Hc) as [Hn _]. split; [done|]. apply (f_equal length) in Ht.
  rewrite codeBits_length, length_take in Ht. unfold len. lia.
Qed.

Lemma startsWith_value i n B : startsWith lens i n B -> valM (take (Z.to_nat n) B) = codeOf lens i n.
Proof. intros [Hc ->]. by apply codeBits_value. Qed.

(** At most one code does. *)
Lemma startsWith_unique i n j m B : startsWith lens i n B -> startsWith lens j m B -> i = j /\ n = m.
Proof.
  assert (Hw : forall i n, startsWith lens i n B -> matches lens i n 15 (valM (take 15 (B ++ replicate 15 false)))).
  { intros i0 n0 H. destruct (startsWith_length _ _ _ H) as [Hn Hl]. unfold matches.
    rewrite <- (codeBits_value i0 n0) by apply H. apply (starts_value _ _ n0 15); [apply codeBits_length| |lia|].
    - rewrite length_take, length_app, length_replicate. lia.
    - rewrite take_take, take_app_le by (unfold len in Hl; lia). replace (Z.to_nat n0 `min` 15)%nat with (Z.to_nat n0) by lia. apply H. }
  intros H1 H2. destruct (startsWith_length _ _ _ H1), (startsWith_length _ _ _ H2).
  apply (matches_unique lens i n j m 15 (valM (take 15 (B ++ replicate 15 false)))); [apply H1 | apply H2 | lia | lia | by apply Hw | by apply Hw].
Qed.

(** *** The bits that wait *)

Section Waiting.
Context {S : Type} {RD : ioReader S} {SR : Source S}.
Variables (f : decompressor S) (B : list bool).
Hypothesis Hin : inputs f B.

Lemma waiting_leading n : 0 <= n <= 15 -> n <= d_nb f -> revn 15 (d_b f) / 2 ^ (15 - n) = valM (take (Z.to_nat n) B).
Proof.
  intros Hn Hnb. rewrite revn_leading by lia. destruct (inputs_take f B n Hin ltac:(lia)) as [-> _]. done.
Qed.

Lemma matches_waiting i n : hasCode lens i n -> n <= d_nb f -> matches lens i n 15 (revn 15 (d_b f)) <-> startsWith lens i n B.
Proof.
  intros Hc Hnb. destruct (valid_code lens i n Hok Hvalid Hc) as [Hn _]. unfold matches, startsWith. rewrite waiting_leading by lia.
  rewrite <- codeBits_value by done. split; [|by intros [_ ->]]. intros E. split; [done|]. apply valM_inj; [|done].
  rewrite codeBits_length, length_take. pose proof (inputs_length f B Hin). lia.
Qed.

(** Zeros after the bits that wait make a number that is not larger. *)
Lemma waiting_zeros n : d_nb f <= n <= 15 -> n <= len B -> revn 15 (d_b f) <= valM (take (Z.to_nat n) B) * 2 ^ (15 - n).
Proof.
  intros Hn Hl. pose proof Hin as [H0 Hb _]. set (k := d_nb f) in *.
  assert (Hrev : revn 15 (d_b f) = valM (take (Z.to_nat k) B) * 2 ^ (15 - k)).
  { replace 15 with (k + (15 - k)) at 1 by lia. rewrite revn_app by lia. rewrite (Z.div_small (d_b f)), revn_zero, Z.add_0_r by lia.
    f_equal. destruct (inputs_take f B k Hin ltac:(lia)) as [-> _]. done. }
  rewrite Hrev. rewrite <- (take_drop (Z.to_nat k) (take (Z.to_nat n) B)). rewrite take_take, valM_app.
  replace (Z.to_nat k `min` Z.to_nat n)%nat with (Z.to_nat k) by lia.
  rewrite length_drop, length_take. replace (Z.of_nat (Z.to_nat n `min` length B - Z.to_nat k)) with (n - k) by (unfold len in Hl; lia).
  pose proof (valM_range (drop (Z.to_nat k) (take (Z.to_nat n) B))) as Hv.
  replace (2 ^ (15 - k)) with (2 ^ (n - k) * 2 ^ (15 - n)) by (rewrite <- Z.pow_add_r by lia; f_equal; lia).
  assert (0 < 2 ^ (15 - n)) by lia. nia.
Qed.

(** The code found is not longer than the one ahead. *)
Lemma found_shorter i n j m :
  startsWith lens i n B -> hasCode lens j m -> matches lens j m 15 (revn 15 (d_b f)) -> m <= n.
Proof.
  intros Hs Hj Hm. destruct (startsWith_length _ _ _ Hs) as [Hn Hl]. destruct (valid_code lens j m Hok Hvalid Hj) as [Hm0 _].
  destruct (Z.le_gt_cases n (d_nb f)) as [L|L].
  - apply (matches_waiting i n) in Hs as Hi; [|apply Hs | done].
    destruct (matches_unique lens i n j m 15 (revn 15 (d_b f))); try done; try lia. apply Hs.
  - apply (matches_later lens j m i n 15 (revn 15 (d_b f)) (valM (take (Z.to_nat n) B) * 2 ^ (15 - n))); try done; try lia.
    + apply Hs.
    + unfold matches. rewrite Z.div_mul by lia. by apply startsWith_value.
    + pose proof (in_nb _ _ Hin). apply waiting_zeros; lia.
Qed.

(** When no code is found, none is ahead. *)
Lemma found_none h :
  decodes lens h -> hmin h <= d_nb f -> (forall i m, hasCode lens i m -> ~ matches lens i m 15 (revn 15 (d_b f))) ->
  forall i n, ~ startsWith lens i n B.
Proof.
  intros Hd Hmin Hno i n Hs. destruct (startsWith_length _ _ _ Hs) as [Hn Hl]. pose proof Hs as [Hc _].
  assert (G : d_nb f < n).
  { destruct (Z.le_gt_cases n (d_nb f)) as [L|L]; [|done]. destruct (Hno i n Hc). by apply matches_waiting. }
  pose proof (de_range _ _ Hd). unfold validLens in Hvalid.
  apply orb_true_iff in Hvalid as [Hv|Hv]; [apply orb_true_iff in Hv as [Hv|Hv]|].
  - by apply (noCodes_spec lens i n) in Hv.
  - unfold completeCodes in Hv. apply Z.eqb_eq in Hv. destruct (complete_matches lens 15 (revn 15 (d_b f)) Hv) as (j & m & Hj & Hm & HM); [lia | apply revn_range; lia|].
    by apply (Hno j m).
  - unfold oneCode in Hv. apply andb_true_iff in Hv as [Hv _]. rewrite forallb_forall in Hv.
    assert (n <= 1) by (destruct Hc as (_ & _ & Hc); by apply list_elem_of_lookup_2, list_elem_of_In, Hv, Z.leb_le in Hc).
    assert (hmin h = 0) as Hz by lia. destruct (de_zero _ _ Hd Hz) as [_ He]. by apply (noCodes_spec lens i n) in He.
Qed.
End Waiting.
End Starts.

(** ** huffSym *)

Section Symbol.
Context {S : Type} {RD : ioReader S} {SR : Source S} {BR : byteReader S} {BL : ByteLaws S}.
Implicit Types f : decompressor S.

(** Reading that failed leaves the output as it is. *)
Definition sameOut f f' : Prop := d_dict f' = d_dict f /\ d_toRead f' = d_toRead f.

Lemma moved_sameOut f B k f' : moved f B k f' -> sameOut f f'.
Proof. by intros ((r & off & b & nb & ->) & _). Qed.

Lemma huffSym_spec lens h f B :
  lens_ok lens -> validLens lens = true -> decodes lens h -> inputs f B ->
  huffSym f h ⇓ fun '(v, err, f') =>
    match err with
    | None => exists n, startsWith lens v n B /\
        moved f (drop (Z.to_nat n) B) (Z.max (d_nb f) (Z.max (hmin h) n + 7) - n) f'
    | Some e => e <> IoError Bufio.EOF /\ sameOut f f' /\ (len B < hmin h \/ forall i n, ~ startsWith lens i n B)
    end.
Proof.
  intros Hok Hvalid Hd Hin. pose proof (de_range _ _ Hd) as Hr. unfold huffSym.
  apply (loop_returns (fun '(n, f') => moved f B (Z.max (d_nb f) (n + 7)) f' /\ hmin h <= n <= 15 /\
     (n = hmin h \/ forall i m, startsWith lens i m B -> n <= m)) (fun '(n, _) => 16 - n)).
  - intros [n f1] (Hm & Hn & Hlow). pose proof (moved_inputs _ _ _ _ Hm) as Hi1. pose proof (moved_nb _ _ _ _ Hm) as Hnb1.
    rewrite symBits_eq by lia. eapply returns_bind_mono; [apply (needBits_spec f1 B n Hi1); lia|].
    intros [err f2] [Hm2 Hc]. pose proof (moved_trans _ _ _ _ _ _ _ Hm Hm2) as Hm02. pose proof (moved_inputs _ _ _ _ Hm2) as Hi2.
    destruct (Z.leb_spec n (len B)) as [L|L].
    + destruct Hc as [-> Hnb2]. pose proof (in_b _ _ Hi2) as Hb2.
      eapply returns_bind_mono; [apply (de_lookup _ _ Hd (d_b f2)); lia|]. intros [chunk n'] Hlook.
      destruct (Z.leb_spec n' (d_nb f2)) as [L2|L2].
      * destruct Hlook as [(i & Hci & HM & ->)|[-> Hno]].
        -- destruct (valid_code lens i n' Hok Hvalid Hci) as [Hn' _]. destruct (Z.eqb_spec n' 0); [lia|]. cbn [returns].
           assert (Hs : startsWith lens i n' B) by (by apply (matches_waiting lens Hok Hvalid f2 B Hi2)).
           rewrite enc_value by lia. exists n'. split; [done|].
           change 31 with (Z.ones 5). rewrite Z.land_ones, Z.mod_small by (change (2 ^ 5) with 32; lia).
           eapply moved_le; [eapply moved_trans; [exact Hm02|]; apply (dropBits_moved f2 B n'); [done | lia]|].
           pose proof (moved_nb _ _ _ _ Hm2) as Hnb. destruct Hlow as [->|Hlow]; [lia|]. specialize (Hlow _ _ Hs). lia.
        -- cbn [returns]. change (0 =? 0) with true. cbn [returns]. split; [done|]. split; [apply (moved_sameOut _ _ _ _ Hm02)|]. right.
           apply (found_none lens Hok Hvalid f2 B Hi2 h Hd); [lia | done].
      * cbn [returns]. destruct Hlook as [(i & Hci & HM & ->)|[-> _]]; [|lia]. destruct (valid_code lens i n' Hok Hvalid Hci) as [Hn' _].
        split; [|lia]. split; [eapply moved_le; [exact Hm02 | lia]|]. split; [lia|]. right. intros j m Hs.
        by apply (found_shorter lens Hok Hvalid f2 B Hi2 j m i n').
    + subst err. cbn [returns]. split; [apply noEOF_not|]. split; [apply (moved_sameOut _ _ _ _ Hm02)|].
      destruct Hlow as [->|Hlow]; [by left|]. right. intros i m Hs. specialize (Hlow _ _ Hs). apply (startsWith_length lens Hok Hvalid) in Hs. lia.
  - split; [eapply moved_le; [by apply moved_self | lia]|]. split; [lia | by left].
  - change (Z.to_nat maxCodeLen) with 16%nat. lia.
  - lia.
Qed.
End Symbol.
