(* ===== verification/FlateDict.v ===== *)
(** * compress/flate: the window

    The circular buffer of a dictDecoder holds the end of the history, all of the
    bytes that were written, and a copy within it is the copy of RFC 1951, byte
    after byte, also where the source and the destination overlap or the buffer
    wraps around. *)
From Stdlib Require Import ZArith Lia.
From stdpp Require Import base numbers list.
From S2P Require Import Prelude Bufio Flate.

(** ** Copies *)

Definition at_ (l : list Z) (i : Z) : Z := default 0 (l !! Z.to_nat i).

(** [n] times the byte at the distance. *)
Fixpoint copyMatch (n : nat) (dist : Z) (W : list Z) : list Z :=
  match n with
  | O => W
  | S n => copyMatch n dist (W ++ [at_ W (len W - dist)])
  end.

(** The first [n] bytes of the repetition of the [dist] bytes at [src]. *)
Definition rep (h : list Z) (src dist n : Z) : list Z := map (fun i => at_ h (src + Z.of_nat i mod dist)) (seq 0 (Z.to_nat n)).

Lemma len_rep h src dist n : 0 <= n -> len (rep h src dist n) = n.
Proof. intros. unfold rep, len. rewrite length_map, length_seq. lia. Qed.

Lemma rep_lookup h src dist n i : 0 <= i < n -> rep h src dist n !! Z.to_nat i = Some (at_ h (src + i mod dist)).
Proof.
  intros Hi. unfold rep. rewrite list_lookup_fmap, lookup_seq_lt by lia. cbn. by rewrite Z2Nat.id by lia.
Qed.

Lemma list_eq_Z (l k : list Z) : len l = len k -> (forall i, 0 <= i < len l -> l !! Z.to_nat i = k !! Z.to_nat i) -> l = k.
Proof.
  intros Hl H. apply list_eq. intros i. destruct (decide (i < length l)%nat) as [L|L].
  - rewrite <- (Nat2Z.id i). apply H. unfold len. lia.
  - unfold len in Hl. rewrite !lookup_ge_None_2 by lia. done.
Qed.

Lemma at_lookup l i x : 0 <= i -> l !! Z.to_nat i = Some x <-> 0 <= i < len l /\ at_ l i = x.
Proof.
  intros Hi. unfold at_, len. split.
  - intros E. rewrite E. split; [|done]. apply lookup_lt_Some in E. lia.
  - intros [Hl <-]. destruct (lookup_lt_is_Some_2 l (Z.to_nat i)) as [y ->]; [lia | done].
Qed.

Lemma lookup_at l i : 0 <= i < len l -> l !! Z.to_nat i = Some (at_ l i).
Proof. intros H. by apply at_lookup; [lia|]. Qed.

Lemma get_app_l l k i : 0 <= i < len l -> at_ (l ++ k) i = at_ l i.
Proof. intros H. unfold at_. rewrite lookup_app_l by (unfold len in H; lia). done. Qed.

Lemma get_app_r l k i : len l <= i -> at_ (l ++ k) i = at_ k (i - len l).
Proof. intros H. unfold at_. rewrite lookup_app_r by (unfold len in H; lia). f_equal. f_equal. unfold len in *. lia. Qed.

Lemma at_drop l n i : 0 <= n -> 0 <= i -> at_ (drop (Z.to_nat n) l) i = at_ l (n + i).
Proof. intros. unfold at_. rewrite lookup_drop. f_equal. f_equal. lia. Qed.

Lemma at_take l n i : 0 <= i < n -> at_ (take (Z.to_nat n) l) i = at_ l i.
Proof. intros. unfold at_. rewrite lookup_take_lt by lia. done. Qed.

Lemma at_rep h src dist n i : 0 <= i < n -> at_ (rep h src dist n) i = at_ h (src + i mod dist).
Proof. intros. unfold at_ at 1. by rewrite rep_lookup. Qed.

Lemma list_eq_at (l k : list Z) : len l = len k -> (forall i, 0 <= i < len l -> at_ l i = at_ k i) -> l = k.
Proof. intros Hl H. apply list_eq_Z; [done|]. intros i Hi. rewrite !lookup_at by lia. f_equal. by apply H. Qed.

Lemma rep_add h src dist a n : 0 < dist -> 0 <= a -> 0 <= n -> a mod dist = 0 -> rep h src dist (a + n) = rep h src dist a ++ rep h src dist n.
Proof.
  intros Hd Ha Hn Hm. apply list_eq_at; [rewrite len_app, !len_rep by lia; done|]. rewrite len_rep by lia. intros i Hi.
  rewrite at_rep by lia. destruct (Z.lt_ge_cases i a) as [L|L].
  - rewrite get_app_l, at_rep by (rewrite ?len_rep; lia). done.
  - rewrite get_app_r by (rewrite len_rep; lia). rewrite len_rep, at_rep by lia. do 2 f_equal.
    apply Z.div_exact in Hm; [|lia]. rewrite Hm. replace (i - dist * (a / dist)) with (i + (- (a / dist)) * dist) by lia. by rewrite Z.mod_add by lia.
Qed.

Lemma len_takeZ {A} (l : list A) n : 0 <= n <= len l -> len (take (Z.to_nat n) l) = n.
Proof. unfold len. rewrite length_take. lia. Qed.

Lemma len_dropZ {A} (l : list A) n : 0 <= n <= len l -> len (drop (Z.to_nat n) l) = len l - n.
Proof. unfold len. rewrite length_drop. lia. Qed.

Lemma rep_take h src dist n k : 0 <= n <= k -> take (Z.to_nat n) (rep h src dist k) = rep h src dist n.
Proof.
  intros Hn. apply list_eq_at; [rewrite len_takeZ, len_rep by (rewrite ?len_rep; lia); done|]. rewrite len_takeZ by (rewrite len_rep; lia).
  intros i Hi. by rewrite at_take, !at_rep by lia.
Qed.

(** The period itself. *)
Lemma rep_period h src dist : 0 <= src -> 0 < dist -> src + dist <= len h -> rep h src dist dist = take (Z.to_nat dist) (drop (Z.to_nat src) h).
Proof.
  intros. apply list_eq_at; [rewrite len_rep, len_takeZ by (rewrite ?len_dropZ; lia); done|]. rewrite len_rep by lia. intros i Hi.
  rewrite at_rep, at_take, at_drop, Z.mod_small by lia. done.
Qed.

Lemma copyMatch_snoc n dist W : copyMatch (S n) dist W = copyMatch n dist W ++ [at_ (copyMatch n dist W) (len (copyMatch n dist W) - dist)].
Proof. revert W. induction n as [|n IH]; intros W; [done|]. cbn [copyMatch] in *. by rewrite IH. Qed.

Lemma copyMatch_add n m dist W : copyMatch (n + m) dist W = copyMatch m dist (copyMatch n dist W).
Proof. revert W. induction n as [|n IH]; intros W; cbn [copyMatch Nat.add]; [done|]. apply IH. Qed.

Lemma copyMatch_rep n dist W : 0 < dist <= len W -> copyMatch n dist W = W ++ rep W (len W - dist) dist (Z.of_nat n).
Proof.
  intros Hd. induction n as [|n IH]; [by rewrite app_nil_r|]. rewrite copyMatch_snoc, IH. rewrite <- (assoc_L app). f_equal.
  rewrite len_app, len_rep by lia. apply list_eq_at; [rewrite len_app, !len_rep by lia; unfold len; cbn; lia|].
  rewrite len_app, len_rep by lia. change (len [_]) with 1. intros i Hi. rewrite at_rep by lia. destruct (Z.lt_ge_cases i (Z.of_nat n)) as [L|L].
  - rewrite get_app_l, at_rep by (rewrite ?len_rep; lia). done.
  - rewrite get_app_r, len_rep by (rewrite ?len_rep; lia). assert (i = Z.of_nat n) as -> by lia. rewrite Z.sub_diag.
    change (at_ [?x] 0) with x. destruct (Z.lt_ge_cases (Z.of_nat n) dist) as [G|G].
    + rewrite get_app_l by lia. rewrite Z.mod_small by lia. f_equal. lia.
    + rewrite get_app_r by lia. rewrite at_rep by lia. do 2 f_equal.
      replace (len W + Z.of_nat n - dist - len W) with (Z.of_nat n + (-1) * dist) by lia. by rewrite Z.mod_add by lia.
Qed.

(** ** The loop that copies forward *)

Lemma copyHist_spec (h : list Z) dst dstEnd src srcEnd :
  0 <= dst <= dstEnd -> dstEnd <= len h -> 0 <= src <= srcEnd -> srcEnd <= len h ->
  let n := Z.min (dstEnd - dst) (srcEnd - src) in
  copyHist h dst dstEnd src srcEnd =
    Ok (take (Z.to_nat dst) h ++ take (Z.to_nat n) (drop (Z.to_nat src) h) ++ drop (Z.to_nat (dst + n)) h, n).
Proof.
  intros Hd Hde Hs Hse n. unfold copyHist. rewrite slice_Ok by lia. cbn [rbind]. rewrite slice_Ok by lia. cbn [rbind].
  rewrite !length_take, !length_drop.
  replace (Nat.min (Nat.min (Z.to_nat (dstEnd - dst)) (length h - Z.to_nat dst)) (Nat.min (Z.to_nat (srcEnd - src)) (length h - Z.to_nat src)))
    with (Z.to_nat n) by (unfold len in *; lia).
  rewrite take_take. replace (Z.to_nat n `min` Z.to_nat (srcEnd - src))%nat with (Z.to_nat n) by lia.
  do 2 f_equal; [|lia]. do 3 f_equal. lia.
Qed.

Lemma drop_app_Z {A} (l k : list A) n : n = len l -> drop (Z.to_nat n) (l ++ k) = k.
Proof. intros ->. apply drop_app_length'. unfold len. lia. Qed.

Lemma take_app_Z {A} (l k : list A) n : n = len l -> take (Z.to_nat n) (l ++ k) = l.
Proof. intros ->. apply take_app_length'. unfold len. lia. Qed.

Lemma drop_drop_Z {A} (l : list A) n m : 0 <= n -> 0 <= m -> drop (Z.to_nat n) (drop (Z.to_nat m) l) = drop (Z.to_nat (m + n)) l.
Proof. intros. rewrite drop_drop. f_equal. lia. Qed.

Lemma copyForward_spec h src dst endPos :
  0 <= src < dst -> dst <= endPos <= len h ->
  copyForward h dst endPos src = Ok (take (Z.to_nat dst) h ++ rep h src (dst - src) (endPos - dst) ++ drop (Z.to_nat endPos) h, endPos).
Proof.
  intros Hs Hd. set (dist := dst - src). set (P := take (Z.to_nat dst) h). assert (HP : len P = dst) by (apply len_takeZ; lia).
  assert (Hper : drop (Z.to_nat src) P = rep h src dist dist).
  { rewrite rep_period by (unfold dist; lia). unfold P, dist. rewrite skipn_firstn_comm. f_equal. lia. }
  cut (copyForward h dst endPos src ⇓ fun r => r = (P ++ rep h src dist (endPos - dst) ++ drop (Z.to_nat endPos) h, endPos)).
  { by destruct (copyForward h dst endPos src); [intros ->| |]. }
  unfold copyForward.
  apply (loop_returns (fun '(h', d) => dst <= d <= endPos /\ h' = P ++ rep h src dist (d - dst) ++ drop (Z.to_nat d) h /\
     (d = endPos \/ (d - dst) mod dist = 0)) (fun '(_, d) => endPos - d)).
  - intros [h' d] (Hdd & -> & Hmul). destruct (Z.ltb_spec d endPos) as [L|L].
    2: { cbn [returns]. assert (d = endPos) as -> by lia. done. }
    destruct Hmul as [|Hmul]; [lia|].
    assert (Hl : len (rep h src dist (d - dst)) = d - dst) by (apply len_rep; lia).
    assert (Hlh : len (P ++ rep h src dist (d - dst) ++ drop (Z.to_nat d) h) = len h) by (rewrite !len_app, Hl, HP, len_dropZ; lia).
    rewrite copyHist_spec by (rewrite ?Hlh; lia). cbn [rbind returns]. set (n := Z.min (endPos - d) (d - src)). split; [|lia]. split; [lia|]. split.
    + rewrite (assoc_L app P). rewrite (take_app_Z (P ++ _)) by (rewrite len_app; lia).
      replace (drop (Z.to_nat (d + n)) _) with (drop (Z.to_nat (d + n)) h).
      2: { rewrite <- (drop_drop_Z ((P ++ _) ++ _) n d) by lia. rewrite (drop_app_Z (P ++ _)) by (rewrite len_app; lia). by rewrite drop_drop_Z by lia. }
      rewrite (drop_app_le (P ++ _)) by (rewrite length_app; unfold len in *; lia).
      rewrite (drop_app_le P) by (unfold len in *; lia). rewrite Hper. rewrite <- rep_add by (try done; unfold dist; (lia || (rewrite Z.mod_same; lia))).
      rewrite take_app_le by (pose proof (len_rep h src dist (dist + (d - dst)) ltac:(unfold dist; lia)); unfold len, dist in *; lia).
      rewrite rep_take by (unfold dist; lia). rewrite <- !(assoc_L app). f_equal. rewrite (assoc_L app). f_equal.
      rewrite <- rep_add by (try done; unfold dist; lia). f_equal. lia.
    + unfold n. destruct (Z.min_spec (endPos - d) (d - src)) as [[_ ->]|[_ ->]]; [left; lia | right].
      replace (d + (d - src) - dst) with ((d - dst) + (d - dst) + 1 * dist) by (unfold dist; lia). rewrite Z.mod_add by (unfold dist; lia).
      rewrite Z.add_mod, Hmul by (unfold dist; lia). apply Z.mod_0_l. unfold dist. lia.
  - split; [lia|]. rewrite Z.sub_diag. split; [|right; apply Z.mod_0_l; unfold dist; lia]. change (rep h src dist 0) with (@nil Z). unfold P. cbn [app]. by rewrite take_drop.
  - lia.
  - lia.
Qed.

(** ** The window *)

(** [W] is all that was written: the buffer holds its end. *)
Record window (dd : dictDecoder) (W : list Z) : Prop := {
  wi_len : len (hist dd) = 32768;
  wi_pos : 0 <= rdPos dd <= wrPos dd;
  wi_room : wrPos dd <= 32768;
  wi_hist : if full dd then exists W0, W = W0 ++ drop (Z.to_nat (wrPos dd)) (hist dd) ++ take (Z.to_nat (wrPos dd)) (hist dd)
            else W = take (Z.to_nat (wrPos dd)) (hist dd);
}.

Definition unread (dd : dictDecoder) : list Z := drop (Z.to_nat (rdPos dd)) (take (Z.to_nat (wrPos dd)) (hist dd)).

Lemma len_unread dd W : window dd W -> len (unread dd) = availRead dd.
Proof. intros [H1 H2 H3 _]. unfold unread, availRead. rewrite len_dropZ, len_takeZ by (rewrite ?len_takeZ; lia). done. Qed.

(** Writing [l] at the end. *)
Definition written_ (dd : dictDecoder) (l : list Z) : dictDecoder :=
  mkDict (take (Z.to_nat (wrPos dd)) (hist dd) ++ l ++ drop (Z.to_nat (wrPos dd + len l)) (hist dd)) (wrPos dd + len l) (rdPos dd) (full dd).

Lemma window_written dd W l : window dd W -> len l <= availWrite dd -> window (written_ dd l) (W ++ l) /\ unread (written_ dd l) = unread dd ++ l.
Proof.
  intros [H1 H2 H3 H4] Hl. unfold availWrite in Hl. pose proof (len_nonneg l).
  assert (Ht : len (take (Z.to_nat (wrPos dd)) (hist dd)) = wrPos dd) by (apply len_takeZ; lia).
  assert (Htake : take (Z.to_nat (wrPos dd + len l)) (hist (written_ dd l)) = take (Z.to_nat (wrPos dd)) (hist dd) ++ l).
  { unfold written_. cbn [hist]. rewrite (assoc_L app). apply take_app_Z. rewrite len_app. lia. }
  split.
  - constructor; cbn [hist written_ wrPos rdPos full]; try lia.
    + rewrite !len_app, Ht, len_dropZ; lia.
    + destruct (full dd) eqn:E.
      * destruct H4 as [W0 ->]. exists (W0 ++ take (length l) (drop (Z.to_nat (wrPos dd)) (hist dd))).
        change (take (Z.to_nat (wrPos dd)) (hist dd) ++ l ++ drop (Z.to_nat (wrPos dd + len l)) (hist dd)) with (hist (written_ dd l)).
        rewrite Htake. unfold written_. cbn [hist]. rewrite (assoc_L app (take _ _) l), (drop_app_Z (take _ _ ++ l)) by (rewrite len_app; lia).
        rewrite <- !(assoc_L app). f_equal. rewrite !(assoc_L app). do 2 f_equal.
        replace (Z.to_nat (wrPos dd + len l)) with (Z.to_nat (wrPos dd) + length l)%nat by (unfold len; lia).
        rewrite <- drop_drop. by rewrite take_drop.
      * change (take (Z.to_nat (wrPos dd)) (hist dd) ++ l ++ drop (Z.to_nat (wrPos dd + len l)) (hist dd)) with (hist (written_ dd l)).
        by rewrite Htake, H4.
  - unfold unread. cbn [rdPos wrPos written_]. change (take (Z.to_nat (wrPos dd)) (hist dd) ++ l ++ drop (Z.to_nat (wrPos dd + len l)) (hist dd)) with (hist (written_ dd l)).
    rewrite Htake. apply drop_app_le. unfold len in Ht. lia.
Qed.

(** *** Operations *)

Lemma dict_writeByte_spec dd W c : window dd W -> 0 < availWrite dd -> dict_writeByte dd c = Ok (written_ dd [c]).
Proof.
  intros [H1 H2 H3 _] Ha. unfold availWrite in Ha. unfold dict_writeByte. rewrite upd_Ok by lia. cbn [rbind]. unfold written_. change (len [c]) with 1.
  rewrite insert_take_drop by (unfold len in *; lia). replace (Z.to_nat (wrPos dd + 1)) with (S (Z.to_nat (wrPos dd))) by lia. done.
Qed.

Lemma readFlush_spec dd W :
  window dd W -> exists dd', readFlush dd = Ok (unread dd, dd') /\ window dd' W /\ unread dd' = [] /\ 0 < availWrite dd'.
Proof.
  intros [H1 H2 H3 H4]. unfold readFlush. rewrite slice_Ok by lia. cbn [rbind].
  replace (take (Z.to_nat (wrPos dd - rdPos dd)) (drop (Z.to_nat (rdPos dd)) (hist dd))) with (unread dd)
    by (unfold unread; rewrite skipn_firstn_comm; f_equal; lia).
  destruct (Z.eqb_spec (wrPos dd) (len (hist dd))) as [E|E]; eexists; (split; [reflexivity|]).
  - split; [|split; [done | unfold availWrite; cbn; lia]]. constructor; cbn [hist wrPos rdPos full]; try lia.
    change (Z.to_nat 0) with 0%nat. rewrite drop_0, take_0, app_nil_r.
    assert (Hall : take (Z.to_nat (wrPos dd)) (hist dd) = hist dd) by (apply take_ge; unfold len in E; lia). rewrite Hall in H4.
    destruct (full dd); [|by exists []]. destruct H4 as [W0 ->]. exists W0. f_equal. rewrite drop_ge by (unfold len in E; lia). done.
  - split; [constructor; cbn [hist wrPos rdPos full]; try lia; done|]. split; [|unfold availWrite; cbn; lia].
    unfold unread. cbn [hist wrPos rdPos]. apply drop_ge. rewrite length_take. lia.
Qed.

Lemma window_length dd W : window dd W -> if full dd then 32768 <= len W else len W = wrPos dd.
Proof.
  intros [H1 H2 H3 H4]. destruct (full dd).
  - destruct H4 as [W0 ->]. rewrite !len_app, len_dropZ, len_takeZ by lia. pose proof (len_nonneg W0). lia.
  - rewrite H4. apply len_takeZ. lia.
Qed.

Lemma histSize_spec dd W dist : window dd W -> dist <= 32768 -> (dist >? histSize dd) = (dist >? len W).
Proof.
  intros Hw Hd. pose proof (window_length dd W Hw) as Hl. unfold histSize. rewrite (wi_len _ _ Hw).
  destruct (full dd); [|by rewrite Hl]. destruct (Z.gtb_spec dist 32768), (Z.gtb_spec dist (len W)); try done; lia.
Qed.

(** Where the byte at a distance is. *)
Lemma window_at dd W d :
  window dd W -> 1 <= d <= len W -> d <= 32768 ->
  at_ W (len W - d) = at_ (hist dd) (if d <=? wrPos dd then wrPos dd - d else wrPos dd - d + 32768) /\
  (wrPos dd < d -> full dd = true).
Proof.
  intros Hw Hd Hm. pose proof (window_length dd W Hw) as Hl. destruct Hw as [H1 H2 H3 H4].
  assert (Ht : len (take (Z.to_nat (wrPos dd)) (hist dd)) = wrPos dd) by (apply len_takeZ; lia).
  assert (Hdr : len (drop (Z.to_nat (wrPos dd)) (hist dd)) = 32768 - wrPos dd) by (rewrite len_dropZ; lia).
  destruct (full dd).
  - split; [|done]. destruct H4 as [W0 ->]. rewrite !len_app, Ht, Hdr. rewrite get_app_r by lia. destruct (Z.leb_spec d (wrPos dd)).
    + rewrite get_app_r by lia. rewrite Hdr, at_take by lia. f_equal. lia.
    + rewrite get_app_l by lia. rewrite at_drop by lia. f_equal. lia.
  - split; [|lia]. rewrite Hl. destruct (Z.leb_spec d (wrPos dd)); [|lia]. rewrite H4. rewrite at_take by lia. done.
Qed.

(** The repetition in the buffer is the repetition in the history. *)
Lemma window_rep dd W dist n :
  window dd W -> 1 <= dist <= len W -> dist <= wrPos dd -> rep (hist dd) (wrPos dd - dist) dist n = rep W (len W - dist) dist n.
Proof.
  intros Hw Hd Hp. unfold rep. apply map_ext. intros i. pose proof (Z.mod_pos_bound (Z.of_nat i) dist ltac:(lia)). pose proof (wi_room _ _ Hw).
  destruct (window_at dd W (dist - Z.of_nat i mod dist) Hw ltac:(lia) ltac:(lia)) as [E _].
  replace (len W - (dist - Z.of_nat i mod dist)) with (len W - dist + Z.of_nat i mod dist) in E by lia. rewrite E.
  destruct (Z.leb_spec (dist - Z.of_nat i mod dist) (wrPos dd)); [|lia]. f_equal. lia.
Qed.

(** The bytes from before the start of the buffer, and then from its start. *)
Lemma window_wrap dd W dist n :
  window dd W -> 1 <= dist <= len W -> wrPos dd < dist <= 32768 -> 0 <= n ->
  let src := wrPos dd - dist + 32768 in
  let k := Z.min n (32768 - src) in
  let h1 := take (Z.to_nat (wrPos dd)) (hist dd) ++ take (Z.to_nat k) (drop (Z.to_nat src) (hist dd)) ++ drop (Z.to_nat (wrPos dd + k)) (hist dd) in
  take (Z.to_nat k) (drop (Z.to_nat src) (hist dd)) ++ rep h1 0 (wrPos dd + k) (n - k) = rep W (len W - dist) dist n.
Proof.
  intros Hw Hd Hp Hn src k h1. pose proof Hw as [H1 H2 H3 _].
  assert (Hlt : len (take (Z.to_nat k) (drop (Z.to_nat src) (hist dd))) = k) by (apply len_takeZ; rewrite len_dropZ; lia).
  assert (Hat : forall i, 0 <= i < dist -> at_ W (len W - dist + i) =
    at_ (hist dd) (if i <? dist - wrPos dd then src + i else i - (dist - wrPos dd))).
  { intros i Hi. destruct (window_at dd W (dist - i) Hw ltac:(lia) ltac:(lia)) as [E _].
    replace (len W - (dist - i)) with (len W - dist + i) in E by lia. rewrite E.
    destruct (Z.leb_spec (dist - i) (wrPos dd)), (Z.ltb_spec i (dist - wrPos dd)); try lia; f_equal; lia. }
  apply list_eq_at; [rewrite len_app, !len_rep, Hlt by lia; lia|]. rewrite len_app, len_rep, Hlt by lia. intros i Hi. rewrite at_rep by lia.
  pose proof (Z.mod_pos_bound i dist ltac:(lia)). rewrite Hat by lia. destruct (Z.lt_ge_cases i k) as [L|L].
  - rewrite get_app_l, at_take, at_drop, Z.mod_small by lia. destruct (Z.ltb_spec i (dist - wrPos dd)); [done | lia].
  - assert (Hk : k = dist - wrPos dd) by lia. rewrite get_app_r, Hlt, at_rep by lia. rewrite Z.add_0_l.
    replace (wrPos dd + k) with dist by lia. set (j := (i - k) mod dist). pose proof (Z.mod_pos_bound (i - k) dist ltac:(lia)) as Hj. fold j in Hj.
    assert (Hmod : i mod dist = (j + k) mod dist) by (unfold j; rewrite Z.add_mod_idemp_l by lia; f_equal; lia).
    unfold h1. destruct (Z.lt_ge_cases j (wrPos dd)) as [G|G].
    + rewrite get_app_l, at_take by (rewrite ?len_takeZ; lia). rewrite Hmod, Z.mod_small by lia.
      destruct (Z.ltb_spec (j + k) (dist - wrPos dd)); [lia|]. f_equal. lia.
    + rewrite get_app_r, len_takeZ by (rewrite ?len_takeZ; lia). rewrite get_app_l, at_take, at_drop by lia.
      rewrite Hmod. replace ((j + k) mod dist) with (j - wrPos dd).
      2: { replace (j + k) with (j - wrPos dd + 1 * dist) by lia. rewrite Z.mod_add, Z.mod_small by lia. done. }
      destruct (Z.ltb_spec (j - wrPos dd) (dist - wrPos dd)); [done | lia].
Qed.

Lemma tryWriteCopy_spec dd W dist length :
  window dd W -> 1 <= dist <= len W -> 0 <= length ->
  tryWriteCopy dd dist length =
    if (wrPos dd <? dist) || (wrPos dd + length >? 32768) then Ok (0, dd) else Ok (length, written_ dd (rep W (len W - dist) dist length)).
Proof.
  intros Hw Hd Hl. pose proof Hw as [H1 H2 H3 _]. unfold tryWriteCopy. rewrite H1. destruct (Z.ltb_spec (wrPos dd) dist); [done|]. cbn [orb].
  destruct (Z.gtb_spec (wrPos dd + length) 32768); [done|]. rewrite copyForward_spec by lia. cbn [rbind].
  replace (wrPos dd - (wrPos dd - dist)) with dist by lia. replace (wrPos dd + length - wrPos dd) with length by lia.
  unfold written_. rewrite (window_rep dd W) by (done || lia). by rewrite len_rep by lia.
Qed.

Lemma writeCopy_spec dd W dist length :
  window dd W -> 1 <= dist <= len W -> dist <= 32768 -> 0 < length -> 0 < availWrite dd ->
  let n := Z.min length (availWrite dd) in
  writeCopy dd dist length = Ok (n, written_ dd (rep W (len W - dist) dist n)).
Proof.
  intros Hw Hd Hm Hl Ha n. pose proof Hw as [H1 H2 H3 _]. unfold availWrite in *. unfold writeCopy. rewrite H1 in *.
  assert (Hend : Z.min (wrPos dd + length) 32768 = wrPos dd + n) by lia. rewrite Hend.
  destruct (Z.ltb_spec (wrPos dd - dist) 0) as [L|L].
  - rewrite copyHist_spec by lia. replace (wrPos dd + n - wrPos dd) with n by lia. cbn [rbind].
    set (src := wrPos dd - dist + 32768). set (k := Z.min n (32768 - src)).
    rewrite copyForward_spec.
    2: lia.
    2: { rewrite !len_app, !len_takeZ, len_dropZ by (rewrite ?len_dropZ; lia). lia. }
    cbn [rbind]. rewrite Z.sub_0_r. pose proof (window_wrap dd W dist n Hw Hd ltac:(lia) ltac:(lia)) as E. cbv zeta in E. fold src in E. fold k in E.
    unfold written_. rewrite <- E. rewrite len_app, len_rep, len_takeZ by (rewrite ?len_dropZ; lia).
    replace (k + (n - k)) with n by lia. replace (wrPos dd + n - wrPos dd) with n by lia. do 3 f_equal.
    replace (wrPos dd + n - (wrPos dd + k)) with (n - k) by lia.
    rewrite (assoc_L app (take _ _) (take _ _)), (take_app_Z (take _ _ ++ take _ _)) by (rewrite len_app, !len_takeZ by (rewrite ?len_dropZ; lia); lia).
    rewrite <- !(assoc_L app). do 3 f_equal.
    replace (wrPos dd + n) with (wrPos dd + k + (n - k)) by lia. rewrite <- (drop_drop_Z (_ ++ _ ++ _) (n - k) (wrPos dd + k)) by lia.
    rewrite (assoc_L app (take _ _)), (drop_app_Z (take _ _ ++ take _ _)) by (rewrite len_app, !len_takeZ by (rewrite ?len_dropZ; lia); lia).
    by rewrite drop_drop_Z by lia.
  - cbn [rbind]. rewrite copyForward_spec by lia. cbn [rbind].
    replace (wrPos dd - (wrPos dd - dist)) with dist by lia. replace (wrPos dd + n - wrPos dd) with n by lia.
    unfold written_. rewrite (window_rep dd W) by (done || lia). by rewrite len_rep by lia.
Qed.

(** The dictionary, as far as the window holds it, is the start of the history. *)
Definition dictTail (dict : list Z) : list Z := drop (Z.to_nat (len dict - 32768)) dict.

Lemma dict_init_spec dd dict :
  len (hist dd) = 0 \/ len (hist dd) = 32768 ->
  dict_init dd maxMatchOffset dict ⇓ fun dd' => window dd' (dictTail dict) /\ unread dd' = [] /\ 0 < availWrite dd'.
Proof.
  intros Hh. unfold dict_init. change maxMatchOffset with 32768.
  set (h := if len (hist dd) <? 32768 then replicate (Z.to_nat 32768) 0 else hist dd).
  assert (Hl : len h = 32768) by (unfold h; destruct (Z.ltb_spec (len (hist dd)) 32768); [rewrite len_replicate; lia | lia]).
  rewrite slice_Ok by lia. cbn [rbind]. change (Z.to_nat 0) with 0%nat. rewrite drop_0. rewrite take_ge by (unfold len in Hl; lia). rewrite Hl.
  assert (Hd : (if len dict >? 32768 then slice_from dict (len dict - 32768) else Ok dict) = Ok (dictTail dict)).
  { unfold dictTail. destruct (Z.gtb_spec (len dict) 32768) as [G|G].
    - by rewrite slice_from_Ok by lia.
    - replace (Z.to_nat (len dict - 32768)) with 0%nat by lia. done. }
  rewrite Hd. cbn [rbind]. clear Hd. pose proof (len_nonneg dict).
  assert (Ht : len (dictTail dict) <= 32768) by (unfold dictTail, len; rewrite length_drop; unfold len in *; lia).
  unfold copyTo. rewrite slice_from_Ok by lia. cbn [rbind]. change (Z.to_nat 0) with 0%nat. rewrite take_0, drop_0. cbn [app].
  replace (Nat.min (length h) (length (dictTail dict))) with (length (dictTail dict)) by (unfold len in *; lia). rewrite take_ge by done.
  fold (len (dictTail dict)). set (t := dictTail dict) in *. cbn [rbind].
  assert (Hlen : len (t ++ drop (length t) h) = 32768) by (rewrite len_app; unfold len; rewrite length_drop; unfold len in *; lia).
  rewrite Hlen. destruct (Z.eqb_spec (len t) 32768) as [E|E]; cbn [returns].
  - split; [|split; [done | unfold availWrite; cbn [hist wrPos]; lia]]. constructor; cbn [hist wrPos rdPos full]; try lia.
    exists []. change (Z.to_nat 0) with 0%nat. rewrite drop_0, take_0, app_nil_r. cbn [app]. rewrite drop_ge by (unfold len in *; lia). by rewrite app_nil_r.
  - pose proof (len_nonneg t). split; [|split].
    + constructor; cbn [hist wrPos rdPos full]; try lia. by rewrite take_app_Z by done.
    + unfold unread. cbn [hist wrPos rdPos]. rewrite take_app_Z by done. apply drop_ge. unfold len. lia.
    + unfold availWrite. cbn [hist wrPos]. lia.
Qed.

(** *** The two copies together *)

Lemma written_nil dd W : window dd W -> written_ dd [] = dd.
Proof. intros [H1 H2 H3 _]. unfold written_. change (len (@nil Z)) with 0. rewrite Z.add_0_r. cbn [app]. rewrite take_drop. by destruct dd. Qed.

Lemma writeCopy_zero dd W dist : window dd W -> 1 <= dist <= 32768 -> writeCopy dd dist 0 = Ok (0, dd).
Proof.
  intros [H1 H2 H3 _] Hd. unfold writeCopy. rewrite Z.add_0_r, H1. rewrite Z.min_l by lia.
  assert (Hf : forall h src, copyForward h (wrPos dd) (wrPos dd) src = Ok (h, wrPos dd))
    by (intros h src; unfold copyForward; cbn [loop]; by rewrite Z.ltb_irrefl).
  destruct (Z.ltb_spec (wrPos dd - dist) 0) as [L|L].
  - rewrite copyHist_spec by lia. rewrite Z.sub_diag, Z.min_l by lia. cbn [rbind]. rewrite Z.add_0_r, Hf. cbn [rbind].
    change (Z.to_nat 0) with 0%nat. rewrite take_0. cbn [app]. rewrite take_drop, Z.sub_diag. by destruct dd.
  - cbn [rbind]. rewrite Hf. cbn [rbind]. rewrite Z.sub_diag. by destruct dd.
Qed.

(** tryWriteCopy, and writeCopy when it copies nothing: as much as fits. *)
Lemma copies_spec dd W dist n :
  window dd W -> 1 <= dist <= len W -> dist <= 32768 -> 0 <= n -> 0 < availWrite dd ->
  let m := Z.min n (availWrite dd) in
  (let! '(cnt, dict) := tryWriteCopy dd dist n in if cnt =? 0 then writeCopy dict dist n else Ok (cnt, dict)) =
    Ok (m, written_ dd (rep W (len W - dist) dist m)).
Proof.
  intros Hw Hd Hm Hn Ha m. rewrite (tryWriteCopy_spec dd W) by done. pose proof (wi_len _ _ Hw) as Hl. unfold availWrite in *.
  destruct (Z.eq_dec n 0) as [->|Hn0].
  - assert (Hz : m = 0) by lia. rewrite Hz. change (rep W (len W - dist) dist 0) with (@nil Z). rewrite (written_nil dd W Hw).
    destruct (_ || _); cbn [rbind]; apply (writeCopy_zero dd W); try done; lia.
  - destruct (Z.ltb_spec (wrPos dd) dist), (Z.gtb_spec (wrPos dd + n) 32768); cbn [orb rbind]; try (change (0 =? 0) with true; cbv iota; rewrite (writeCopy_spec dd W) by (done || unfold availWrite; lia); done).
    destruct (Z.eqb_spec n 0); [lia|]. by replace m with n by lia.
Qed.
