(* ===== verification/FlateRef.v ===== *)
(** * compress/flate: the format

    RFC 1951 as a machine on the list of bits of a stream: one step reads a block
    header, a stored byte, or a symbol with its extra bits.  It has no tables, no
    buffer of bits and no window: it knows all of the bits ahead and all of the
    bytes before. *)
From Stdlib Require Import ZArith Lia.
From stdpp Require Import base numbers list option relations.
From S2P Require Import Prelude Bits Lzw LzwBits Bufio Flate FlateTables FlateBits FlateDict.

(** ** Symbols and numbers *)

Fixpoint findSym (all : list Z) (i : Z) (lens : list Z) (B : list bool) : option (Z * list bool) :=
  match lens with
  | [] => None
  | n :: lens =>
      if (0 <? n) && bool_decide (take (Z.to_nat n) B = codeBits all i n) then Some (i, drop (Z.to_nat n) B)
      else findSym all (i + 1) lens B
  end.

(** The symbol whose code starts the bits, and the bits after it. *)
Definition symbol (lens : list Z) (B : list bool) : option (Z * list bool) := findSym lens 0 lens B.

(** A number of [n] bits, the lowest first. *)
Definition takeBits (n : Z) (B : list bool) : option (Z * list bool) :=
  if n <=? len B then Some (numBits n B, drop (Z.to_nat n) B) else None.

(** ** Tables *)

(** The base and the extra bits of the length symbols, from 257. *)
Definition lengthTab : list (Z * Z) :=
  [(3, 0); (4, 0); (5, 0); (6, 0); (7, 0); (8, 0); (9, 0); (10, 0);
   (11, 1); (13, 1); (15, 1); (17, 1); (19, 2); (23, 2); (27, 2); (31, 2);
   (35, 3); (43, 3); (51, 3); (59, 3); (67, 4); (83, 4); (99, 4); (115, 4);
   (131, 5); (163, 5); (195, 5); (227, 5); (258, 0)].

(** Those of the distance symbols. *)
Definition distTab : list (Z * Z) :=
  [(1, 0); (2, 0); (3, 0); (4, 0); (5, 1); (7, 1); (9, 2); (13, 2); (17, 3); (25, 3);
   (33, 4); (49, 4); (65, 5); (97, 5); (129, 6); (193, 6); (257, 7); (385, 7); (513, 8); (769, 8);
   (1025, 9); (1537, 9); (2049, 10); (3073, 10); (4097, 11); (6145, 11); (8193, 12); (12289, 12); (16385, 13); (24577, 13)].

(** The lengths of the distance codes in a block with fixed codes. *)
Definition fixedDists : list Z := replicate 32 5.

(** ** The trees of a dynamic block *)

(** The lengths of the code length code, in their order in the stream. *)
Fixpoint clensFrom (order : list Z) (cb : list Z) (n : nat) (B : list bool) {struct n} : option (list Z * list bool) :=
  match n, order with
  | O, _ => Some (cb, B)
  | S n, o :: order => '(x, B) ← takeBits 3 B; clensFrom order (<[Z.to_nat o := x]> cb) n B
  | S _, [] => None
  end.

Definition clens (n : Z) (B : list bool) : option (list Z * list bool) := clensFrom codeOrder (replicate 19 0) (Z.to_nat n) B.

(** The code lengths up to [n] of them, with [L] known. *)
Fixpoint codeLens (fuel : nat) (cl : list Z) (n : Z) (L : list Z) (B : list bool) : option (list Z * list bool) :=
  if n <=? len L then Some (L, B) else
  match fuel with
  | O => None
  | S fuel =>
      '(x, B) ← symbol cl B;
      if x <? 16 then codeLens fuel cl n (L ++ [x]) B else
      let again base nb b :=
        '(k, B) ← takeBits nb B;
        if len L + (base + k) <=? n then codeLens fuel cl n (L ++ replicate (Z.to_nat (base + k)) b) B else None in
      if x =? 16 then b ← L !! (length L - 1)%nat; again 3 2 b
      else if x =? 17 then again 3 3 0
      else again 11 7 0
  end.

(** The literal and distance code lengths of a dynamic block. *)
Definition dynamicTrees (B : list bool) : option (list Z * list Z * list bool) :=
  '(x, B) ← takeBits 5 B;
  let nlit := x + 257 in
  '(y, B) ← takeBits 5 B;
  let ndist := y + 1 in
  '(z, B) ← takeBits 4 B;
  if (286 <? nlit) || (30 <? ndist) then None else
  '(cl, B) ← clens (z + 4) B;
  if negb (validLens cl) then None else
  '(L, B) ← codeLens (Z.to_nat (nlit + ndist)) cl (nlit + ndist) [] B;
  let ll := take (Z.to_nat nlit) L in
  let dl := drop (Z.to_nat nlit) L in
  if validLens ll && validLens dl then Some (ll, dl, B) else None.

(** ** The machine *)

Inductive rmode := RHeader | RStored (n : Z) | RCodes (ll dl : list Z) | RDone.

Record rstate := mkRef { r_bits : list bool; r_out : list Z; r_final : bool; r_mode : rmode }.

Definition endBlock (B : list bool) (W : list Z) (final : bool) : rstate := mkRef B W final (if final then RDone else RHeader).

(** The rest of a block header; [B] starts after the type. *)
Definition storedHeader (B : list bool) (W : list Z) (final : bool) : option rstate :=
  let B := drop (length B mod 8) B in
  '(n, B) ← takeBits 16 B;
  '(nn, B) ← takeBits 16 B;
  if nn =? 65535 - n then Some (mkRef B W final (RStored n)) else None.

Definition refHeader (B : list bool) (W : list Z) : option rstate :=
  '(x, B) ← takeBits 1 B;
  let final := x =? 1 in
  '(typ, B) ← takeBits 2 B;
  if typ =? 0 then storedHeader B W final
  else if typ =? 1 then Some (mkRef B W final (RCodes fixedLengths fixedDists))
  else if typ =? 2 then '(ll, dl, B) ← dynamicTrees B; Some (mkRef B W final (RCodes ll dl))
  else None.

(** The match of a length symbol: its length, its distance and the bits after it. *)
Definition refMatch (dl : list Z) (v : Z) (B : list bool) : option (Z * Z * list bool) :=
  '(base, n) ← lengthTab !! Z.to_nat (v - 257);
  '(x, B) ← takeBits n B;
  '(d, B) ← symbol dl B;
  '(dbase, dn) ← distTab !! Z.to_nat d;
  '(y, B) ← takeBits dn B;
  Some (base + x, dbase + y, B).

Definition refSymbol (ll dl : list Z) (B : list bool) (W : list Z) (final : bool) : option rstate :=
  '(v, B) ← symbol ll B;
  if v <? 256 then Some (mkRef B (W ++ [v]) final (RCodes ll dl))
  else if v =? 256 then Some (endBlock B W final)
  else
    '(n, dist, B) ← refMatch dl v B;
    if dist <=? len W then Some (mkRef B (copyMatch (Z.to_nat n) dist W) final (RCodes ll dl)) else None.

Definition refStep (s : rstate) : option rstate :=
  match r_mode s with
  | RHeader => refHeader (r_bits s) (r_out s)
  | RStored n =>
      if n =? 0 then Some (endBlock (r_bits s) (r_out s) (r_final s)) else
      '(x, B) ← takeBits 8 (r_bits s);
      Some (mkRef B (r_out s ++ [x]) (r_final s) (RStored (n - 1)))
  | RCodes ll dl => refSymbol ll dl (r_bits s) (r_out s) (r_final s)
  | RDone => None
  end.

Definition refStart (data dict : list Z) : rstate := mkRef (byteBits data) (dictTail dict) false RHeader.

Definition stepsTo (s s' : rstate) : Prop := refStep s = Some s'.
Definition reaches : rstate -> rstate -> Prop := rtc stepsTo.

(** The stream from [s] does not come to an end. *)
Definition malformed (s : rstate) : Prop := forall s', reaches s s' -> r_mode s' <> RDone.

Fixpoint refRun (fuel : nat) (s : rstate) : rstate :=
  match fuel with
  | O => s
  | S fuel => match refStep s with Some s' => refRun fuel s' | None => s end
  end.

(** ** Facts *)

Lemma findSym_spec all pre lens B :
  all = pre ++ lens ->
  match findSym all (len pre) lens B with
  | Some (i, B') => exists n, startsWith all i n B /\ B' = drop (Z.to_nat n) B
  | None => forall i n, len pre <= i -> ~ startsWith all i n B
  end.
Proof.
  revert pre. induction lens as [|n lens IH]; intros pre E; cbn [findSym].
  { intros i n Hi [(_ & _ & Hl) _]. rewrite E, app_nil_r in Hl. apply lookup_lt_Some in Hl. unfold len in Hi. lia. }
  pose proof (len_nonneg pre) as Hpre.
  assert (Hat : all !! Z.to_nat (len pre) = Some n) by (unfold len; rewrite Nat2Z.id, E; by apply list_lookup_middle).
  destruct (Z.ltb_spec 0 n) as [L|L]; cbn [andb]; [case_bool_decide as Hb|].
  - exists n. by split; [split|].
  - specialize (IH (pre ++ [n])). rewrite <- (assoc_L app), len_app in IH. specialize (IH E). change (len [n]) with 1 in IH.
    destruct (findSym all (len pre + 1) lens B) as [[i B']|]; [done|]. intros i m Hi Hs. destruct (Z.eq_dec i (len pre)) as [->|]; [|by apply (IH i m); [lia|]].
    destruct Hs as [(_ & _ & Hl) Ht]. rewrite Hat in Hl. injection Hl as ->. by apply Hb.
  - specialize (IH (pre ++ [n])). rewrite <- (assoc_L app), len_app in IH. specialize (IH E). change (len [n]) with 1 in IH.
    destruct (findSym all (len pre + 1) lens B) as [[i B']|]; [done|]. intros i m Hi Hs. destruct (Z.eq_dec i (len pre)) as [->|]; [|by apply (IH i m); [lia|]].
    destruct Hs as [(_ & Hm & Hl) Ht]. rewrite Hat in Hl. injection Hl as ->. lia.
Qed.

Lemma symbol_spec lens B :
  match symbol lens B with
  | Some (i, B') => exists n, startsWith lens i n B /\ B' = drop (Z.to_nat n) B
  | None => forall i n, ~ startsWith lens i n B
  end.
Proof.
  pose proof (findSym_spec lens [] lens B eq_refl) as H. unfold symbol. change (len (@nil Z)) with 0 in H.
  destruct (findSym lens 0 lens B) as [[i B']|]; [done|]. intros i n Hs. apply (H i n); [|done]. by destruct Hs as [(? & _) _].
Qed.

Lemma symbol_starts lens B i n :
  lens_ok lens -> validLens lens = true -> startsWith lens i n B -> symbol lens B = Some (i, drop (Z.to_nat n) B).
Proof.
  intros Hok Hv Hs. pose proof (symbol_spec lens B) as H. destruct (symbol lens B) as [[j B']|]; [|by destruct (H i n)].
  destruct H as (m & Hm & ->). by destruct (startsWith_unique lens Hok Hv i n j m B Hs Hm) as [-> ->].
Qed.

Lemma symbol_none lens B : (forall i n, ~ startsWith lens i n B) -> symbol lens B = None.
Proof.
  intros H. pose proof (symbol_spec lens B) as Hs. destruct (symbol lens B) as [[j B']|]; [|done]. destruct Hs as (m & Hm & _). by destruct (H j m).
Qed.

Lemma symbol_length lens B i B' : symbol lens B = Some (i, B') -> exists n, hasCode lens i n /\ len B' = len B - n /\ 0 < n.
Proof.
  intros E. pose proof (symbol_spec lens B) as H. rewrite E in H. destruct H as (n & [Hc Ht] & ->). exists n. split; [done|].
  pose proof Hc as (_ & Hn & _). split; [|done]. apply (f_equal length) in Ht. unfold codeBits in Ht.
  rewrite length_reverse, bitsL_length, length_take in Ht. unfold len. rewrite length_drop. lia.
Qed.

Lemma takeBits_length n B x B' : 0 <= n -> takeBits n B = Some (x, B') -> len B' = len B - n.
Proof.
  intros Hn. unfold takeBits. destruct (Z.leb_spec n (len B)); [|done]. intros [= _ <-]. rewrite len_dropZ; lia.
Qed.

Lemma lengthTab_ok i b n : lengthTab !! i = Some (b, n) -> 0 <= n <= 5 /\ 3 <= b <= 258.
Proof.
  assert (H : Forall (fun p => 0 <= p.2 <= 5 /\ 3 <= p.1 <= 258) lengthTab) by (unfold lengthTab; repeat constructor; cbn; lia).
  intros E. by apply (Forall_lookup_1 _ _ _ _ H) in E.
Qed.

Lemma distTab_ok i b n : distTab !! i = Some (b, n) -> 0 <= n <= 13 /\ 1 <= b /\ b + 2 ^ n <= 32769.
Proof.
  assert (H : Forall (fun p => 0 <= p.2 <= 13 /\ 1 <= p.1 /\ p.1 + 2 ^ p.2 <= 32769) distTab) by (unfold distTab; repeat constructor; cbn; lia).
  intros E. by apply (Forall_lookup_1 _ _ _ _ H) in E.
Qed.

(** *** Runs *)

Lemma reaches_step s s' s'' : reaches s s' -> refStep s' = Some s'' -> reaches s s''.
Proof. intros H E. eapply rtc_r; [exact H | exact E]. Qed.

(** The machine is deterministic. *)
Lemma reaches_done s s1 s2 : reaches s s1 -> reaches s s2 -> r_mode s2 = RDone -> reaches s1 s2.
Proof.
  intros H1 H2 Hd. revert s1 H1. induction H2 as [s|s t s2 Hst H2 IH]; intros s1 H1.
  - inversion H1 as [|? y ? Hy]; subst; [apply rtc_refl|]. unfold stepsTo, refStep in Hy. by rewrite Hd in Hy.
  - inversion H1 as [|? y ? Hy H1']; subst; [by eapply rtc_l|]. assert (y = t) as -> by (unfold stepsTo in *; congruence). by apply IH.
Qed.

Lemma malformed_before s s' : reaches s s' -> malformed s' -> malformed s.
Proof. intros H Hm s2 H2 Hd. by apply (Hm s2); [by apply (reaches_done s)|]. Qed.

Lemma stuck_malformed s : refStep s = None -> r_mode s <> RDone -> malformed s.
Proof.
  intros E Hm s' H. inversion H as [|? y ? Hy]; subst; [done|]. unfold stepsTo in Hy. congruence.
Qed.

(** A block with codes does not end when there are fewer bits than the code of its end has. *)
Lemma short_malformed ll dl e s :
  r_mode s = RCodes ll dl -> (forall n, hasCode ll 256 n -> e <= n) -> len (r_bits s) < e -> malformed s.
Proof.
  intros Hm He Hl s' H. revert Hm Hl. induction H as [s|s t s' Hst _ IH]; intros Hm Hl; [by rewrite Hm|].
  unfold stepsTo, refStep, refSymbol in Hst. rewrite Hm in Hst.
  destruct (symbol ll (r_bits s)) as [[v B]|] eqn:Es; [|done]. apply symbol_length in Es as (n & Hc & Hn & Hpos). cbn in Hst.
  assert (Hgo : forall W B', len B' <= len B -> t = mkRef B' W (r_final s) (RCodes ll dl) -> r_mode s' <> RDone).
  { intros W B' HB ->. apply IH; [done|]. cbn. lia. }
  destruct (v <? 256); [injection Hst as <-; by eapply (Hgo _ B)|]. destruct (Z.eqb_spec v 256) as [->|].
  - specialize (He n Hc). pose proof (len_nonneg B). lia.
  - unfold refMatch in Hst. destruct (lengthTab !! _) as [[base k]|] eqn:El; [|done]. cbn in Hst.
    destruct (takeBits k B) as [[x B1]|] eqn:E1; [|done]. cbn in Hst.
    destruct (symbol dl B1) as [[d B2]|] eqn:E2; [|done]. cbn in Hst.
    destruct (distTab !! _) as [[dbase dk]|] eqn:Ed; [|done]. cbn in Hst.
    destruct (takeBits dk B2) as [[y B3]|] eqn:E3; [|done]. cbn in Hst.
    destruct (dbase + y <=? len (r_out s)); [|done]. injection Hst as <-. eapply (Hgo _ B3); [|done].
    apply symbol_length in E2 as (? & _ & ? & ?).
    apply lengthTab_ok in El. apply distTab_ok in Ed.
    apply takeBits_length in E1; [|lia]. apply takeBits_length in E3; [|lia]. lia.
Qed.
