(* ===== verification/FlateTrees.v ===== *)
(** * compress/flate: the trees of a dynamic block

    readHuffman reads the code lengths that [dynamicTrees] reads, and makes the
    decoders of their codes; it fails when that fails. *)
From Stdlib Require Import ZArith Lia.
From stdpp Require Import base numbers list option.
From S2P Require Import Prelude Bits Lzw LzwBits Bufio BufioReader Flate FlateTables FlateBits FlateDict FlateRef.

Section Trees.
Context {S : Type} {RD : ioReader S} {SR : Source S} {BR : byteReader S} {BL : ByteLaws S}.
Implicit Types f : decompressor S.

(** ** Reading, against the format *)

Definition failed f (err : option flateError) f' : Prop := (exists e, err = Some e /\ e <> IoError Bufio.EOF) /\ sameOut f f'.

Lemma sameOut_trans f f1 f2 : sameOut f f1 -> sameOut f1 f2 -> sameOut f f2.
Proof. intros [H1 H2] [H3 H4]. split; congruence. Qed.

Lemma failed_trans f f1 err f2 : sameOut f f1 -> failed f1 err f2 -> failed f err f2.
Proof. intros H [He Hs]. split; [done | by eapply sameOut_trans]. Qed.

Lemma failed_corrupt f f' : sameOut f f' -> failed f (Some (corrupt f')) f'.
Proof. intros H. split; [by eexists | done]. Qed.

Lemma getBits_ref f B n :
  inputs f B -> 0 <= n <= 24 ->
  getBits f n ⇓ fun '(x, err, f') =>
    match takeBits n B with
    | Some (y, B') => x = y /\ err = None /\ moved f B' (Z.max (d_nb f - n) 7) f'
    | None => failed f err f'
    end.
Proof.
  intros Hi Hn. eapply returns_mono; [by apply (getBits_spec f B n)|]. intros [[x err] f'] H. unfold takeBits.
  destruct (n <=? len B); [done|]. destruct H as [-> Hm]. split; [eexists; split; [done | apply noEOF_not] | by apply moved_sameOut in Hm].
Qed.

Lemma huffSym_ref lens h f B :
  lens_ok lens -> validLens lens = true -> decodes lens h -> least lens (hmin h) -> inputs f B ->
  huffSym f h ⇓ fun '(x, err, f') =>
    match symbol lens B with
    | Some (i, B') => x = i /\ err = None /\ moved f B' (Z.max (d_nb f) 7) f'
    | None => failed f err f'
    end.
Proof.
  intros Hok Hv Hd Hl Hi. eapply returns_mono; [by apply (huffSym_spec lens h f B)|]. intros [[x err] f'] H. destruct err as [e|].
  - destruct H as (He & Hs & Hno). rewrite symbol_none; [split; [by eexists | done]|]. destruct Hno as [Hno|Hno]; [|done].
    intros i n H. pose proof H as [Hc _]. apply (startsWith_length lens Hok Hv) in H. specialize (Hl i n Hc). lia.
  - destruct H as (n & Hs & Hm). rewrite (symbol_starts lens B x n Hok Hv Hs). split; [done|]. split; [done|].
    eapply moved_le; [done|]. pose proof Hs as [Hc _]. specialize (Hl x n Hc). apply (startsWith_length lens Hok Hv) in Hs. lia.
Qed.

(** ** The state while the trees are read *)

(** [f'] is [f] with other trees, after reading up to [B]. *)
Definition treed f (B : list bool) f' : Prop :=
  (exists r off b nb t1 t2 bits cb, f' = setTrees (setIn f r off b nb) t1 t2 bits cb) /\
  finalOf (d_r f') = finalOf (d_r f) /\ inputs f' B /\ d_nb f' <= 7 /\ len (d_bits f') = 316 /\ len (codebits f') = 19 /\
  clean (h1 f') /\ clean (h2 f').

Lemma treed_sameOut f B f' : treed f B f' -> sameOut f f'.
Proof. by intros ((r & off & b & nb & t1 & t2 & bits & cb & ->) & _). Qed.

(** Reading keeps the trees. *)
Lemma treed_moved f B f1 B' f2 :
  treed f B f1 -> moved f1 B' (Z.max (d_nb f1) 7) f2 -> treed f B' f2 /\ h1 f2 = h1 f1 /\ h2 f2 = h2 f1 /\ d_bits f2 = d_bits f1 /\ codebits f2 = codebits f1.
Proof.
  intros ((r & off & b & nb & t1 & t2 & bits & cb & ->) & Hf & Hi & Hnb & Hl & Hcb & Hc1 & Hc2) ((r' & off' & b' & nb' & ->) & Hf' & Hi' & Hnb'). split; [|done].
  split; [by repeat eexists|]. split; [by rewrite Hf', Hf|]. split; [done|]. cbn in *. split; [lia | done].
Qed.

(** Changing them keeps what was read. *)
Lemma treed_set f B f1 t1 t2 bits cb :
  treed f B f1 -> len bits = 316 -> len cb = 19 -> clean t1 -> clean t2 -> treed f B (setTrees f1 t1 t2 bits cb).
Proof.
  intros ((r & off & b & nb & t1' & t2' & bits' & cb' & ->) & Hf & Hi & Hnb & Hl & Hcb & Hc1 & Hc2) H1 H2 H3 H4.
  split; [by repeat eexists|]. split; [done|]. split; [by destruct Hi; constructor|]. done.
Qed.

(** ** The code length code *)

(** The codes of the first [i] symbols of the order are known in [A], and [R] has no others. *)
Record agree (i : nat) (A R : list Z) : Prop := {
  ag_len : len A = 19;
  ag_lens : lens_ok R;
  ag_len' : len R = 19;
  ag_known : forall j, j ∈ take i codeOrder -> A !! Z.to_nat j = R !! Z.to_nat j;
  ag_zero : forall j, 0 <= j < 19 -> j ∉ take i codeOrder -> R !! Z.to_nat j = Some 0;
}.

Lemma codeOrder_in i o : codeOrder !! i = Some o -> 0 <= o < 19.
Proof.
  assert (H : Forall (fun o => 0 <= o < 19) codeOrder) by (unfold codeOrder; repeat constructor; lia). intros E. by apply (Forall_lookup_1 _ _ _ _ H) in E.
Qed.

Lemma codeOrder_all j : 0 <= j < 19 -> j ∈ codeOrder.
Proof.
  intros Hj. assert (H : forallb (fun j => bool_decide (j ∈ codeOrder)) (zrange 0 19) = true) by (vm_compute; reflexivity).
  pose proof (zrange_forallb _ _ _ H j Hj) as E. by apply bool_decide_eq_true in E.
Qed.

Lemma codeOrder_new i o : codeOrder !! i = Some o -> o ∉ take i codeOrder.
Proof.
  intros E Hin. assert (HN : NoDup codeOrder) by (apply (bool_decide_unpack _); vm_compute; done).
  apply list_elem_of_lookup in Hin as [k Hk]. apply lookup_take_Some in Hk as [Hk Hlt]. pose proof (NoDup_lookup _ _ _ _ HN Hk E). lia.
Qed.

Lemma agree_put i A R o x : agree i A R -> codeOrder !! i = Some o -> 0 <= x <= 15 -> agree (Datatypes.S i) (<[Z.to_nat o := x]> A) (<[Z.to_nat o := x]> R).
Proof.
  intros [H1 H2 H3 H4 H5] Ho Hx. pose proof (codeOrder_in _ _ Ho). constructor; rewrite ?len_insert; try done.
  - by apply Forall_insert.
  - intros j Hj. rewrite (take_S_r _ _ o) in Hj by done. apply elem_of_app in Hj as [Hj|Hj%list_elem_of_singleton].
    + assert (j <> o) by (intros ->; by apply (codeOrder_new _ _ Ho)).
      assert (0 <= j) by (apply list_elem_of_lookup in Hj as [k Hk]; apply lookup_take_Some in Hk as [Hk _]; apply codeOrder_in in Hk; lia).
      rewrite !list_lookup_insert_ne by lia. by apply H4.
    + subst j. rewrite !list_lookup_insert_eq by (unfold len in *; lia). done.
  - intros j Hj Hn. rewrite (take_S_r _ _ o) in Hn by done. rewrite elem_of_app, list_elem_of_singleton in Hn.
    rewrite list_lookup_insert_ne by (intros E; apply Hn; right; lia). apply H5; [done | tauto].
Qed.

Lemma readCodebits_spec f f0 B nclen :
  treed f B f0 -> 0 <= nclen <= 19 ->
  readCodebits f0 nclen ⇓ fun '(err, f') =>
    match clens nclen B with
    | Some (R, B') => err = None /\ treed f B' f' /\ agree (Z.to_nat nclen) (codebits f') R
    | None => failed f err f'
    end.
Proof.
  intros Ht Hn. pose proof Ht as (_ & _ & _ & _ & _ & Hcb & _). unfold readCodebits, clens. change (length codeOrder) with 19%nat.
  apply (loop_returns (fun '(i, f') => 0 <= i <= nclen /\ exists B' R, treed f B' f' /\ agree (Z.to_nat i) (codebits f') R /\
     clensFrom (drop (Z.to_nat i) codeOrder) R (Z.to_nat (nclen - i)) B' = clensFrom codeOrder (replicate 19 0) (Z.to_nat nclen) B)
     (fun '(i, _) => nclen - i)).
  - intros [i f1] (Hi & B1 & R & Ht1 & Ha & <-). destruct (Z.ltb_spec i nclen) as [L|L].
    + replace (Z.to_nat (nclen - i)) with (Datatypes.S (Z.to_nat (nclen - (i + 1)))) by lia.
      destruct (lookup_lt_is_Some_2 codeOrder (Z.to_nat i)) as [o Ho]; [change (length codeOrder) with 19%nat; lia|].
      rewrite (drop_S _ _ _ Ho). cbn [clensFrom].
      pose proof Ht1 as (_ & _ & Hi1 & Hnb & _).
      eapply returns_bind_mono; [apply (getBits_ref f1 B1 3 Hi1); lia|]. intros [[x err] f2] H. destruct (takeBits 3 B1) as [[y B2]|] eqn:Et; cbn [mbind option_bind].
      * destruct H as (-> & -> & Hm). rewrite (idx_Ok _ _ o) by (done || lia). cbn [rbind]. pose proof (codeOrder_in _ _ Ho).
        destruct (treed_moved f B1 f1 B2 f2 Ht1) as (Ht2 & E1 & E2 & E3 & E4); [eapply moved_le; [done | lia]|].
        rewrite E4. rewrite upd_Ok by (rewrite (ag_len _ _ _ Ha); lia). cbn [rbind returns]. split; [|lia]. split; [lia|].
        exists B2, (<[Z.to_nat o := y]> R). pose proof Ht2 as (_ & _ & _ & _ & Hl2 & _ & Hc1 & Hc2). split; [apply treed_set; try done; rewrite len_insert; apply (ag_len _ _ _ Ha)|]. cbn [codebits setTrees].
        replace (Z.to_nat (i + 1)) with (Datatypes.S (Z.to_nat i)) by lia. split; [|done]. apply agree_put; try done.
        unfold takeBits in Et. destruct (3 <=? len B1); [|done]. injection Et as <- _. pose proof (numBits_range 3 B1 ltac:(lia)). lia.
      * destruct H as [[e [-> He]] Hs]. cbn [returns]. apply (failed_trans f f1); [by eapply treed_sameOut|]. split; [by exists e | done].
    + assert (i = nclen) as -> by lia. rewrite Z.sub_diag. rewrite Z2Nat.inj_0. cbn [clensFrom returns]. done.
  - split; [lia|]. exists B, (replicate 19 0). rewrite Z.sub_0_r. split; [done|]. split; [|done]. change (Z.to_nat 0) with 0%nat. constructor; try done.
    + apply Forall_replicate. lia.
    + intros j Hj. by apply not_elem_of_nil in Hj.
    + intros j Hj _. apply lookup_replicate. split; [done | lia].
  - lia.
  - lia.
Qed.

Lemma clearCodebits_spec nclen A R : agree (Z.to_nat nclen) A R -> 0 <= nclen <= 19 -> clearCodebits A nclen ⇓ fun A' => A' = R.
Proof.
  intros Ha Hn. unfold clearCodebits. change (length codeOrder) with 19%nat. change (len codeOrder) with 19.
  apply (loop_returns (fun '(i, A') => nclen <= i <= 19 /\ agree (Z.to_nat i) A' R) (fun '(i, _) => 19 - i)).
  - intros [i A1] [Hi Ha1]. destruct (Z.ltb_spec i 19) as [L|L].
    + destruct (lookup_lt_is_Some_2 codeOrder (Z.to_nat i)) as [o Ho]; [change (length codeOrder) with 19%nat; lia|].
      pose proof (codeOrder_in _ _ Ho). rewrite (idx_Ok _ _ o) by (done || lia). cbn [rbind]. rewrite upd_Ok by (rewrite (ag_len _ _ _ Ha1); lia).
      cbn [rbind returns]. split; [|lia]. split; [lia|]. replace (Z.to_nat (i + 1)) with (Datatypes.S (Z.to_nat i)) by lia.
      assert (HR : R !! Z.to_nat o = Some 0) by (apply (ag_zero _ _ _ Ha1); [done | by apply codeOrder_new]).
      pose proof (agree_put _ _ _ o 0 Ha1 Ho ltac:(lia)) as Hp. by rewrite (list_insert_id R) in Hp by done.
    + cbn [returns]. assert (i = 19) as -> by lia. destruct Ha1 as [H1 H2 H3 H4 H5]. apply list_eq_Z; [lia|]. intros j Hj. apply H4.
      change (take (Z.to_nat 19) codeOrder) with codeOrder. apply codeOrder_all. lia.
  - split; [lia | done].
  - lia.
  - lia.
Qed.

(** ** The code lengths *)

Lemma repeatBits_spec bits i rep b :
  0 <= i -> 0 <= rep -> i + rep <= len bits ->
  repeatBits bits i rep b ⇓ fun bits' => len bits' = len bits /\ take (Z.to_nat (i + rep)) bits' = take (Z.to_nat i) bits ++ replicate (Z.to_nat rep) b.
Proof.
  intros Hi Hr Hl. unfold repeatBits.
  apply (loop_returns (fun '(j, bits') => 0 <= j <= rep /\ len bits' = len bits /\
     take (Z.to_nat (i + j)) bits' = take (Z.to_nat i) bits ++ replicate (Z.to_nat j) b) (fun '(j, _) => rep - j)).
  - intros [j b1] (Hj & Hlb & Ht). destruct (Z.ltb_spec j rep) as [L|L].
    + rewrite upd_Ok by lia. cbn [rbind returns]. split; [|lia]. split; [lia|]. split; [by rewrite len_insert|].
      replace (Z.to_nat (i + (j + 1))) with (Datatypes.S (Z.to_nat (i + j))) by lia.
      rewrite (take_S_r _ _ b) by (apply list_lookup_insert_eq; unfold len in *; lia). rewrite take_insert_ge by lia.
      replace (Z.to_nat (j + 1)) with (Z.to_nat j + 1)%nat by lia. by rewrite Ht, replicate_add, (assoc_L app).
    + cbn [returns]. assert (j = rep) as -> by lia. done.
  - split; [lia|]. split; [done|]. rewrite Z.add_0_r, Z2Nat.inj_0. cbn. by rewrite app_nil_r.
  - lia.
  - lia.
Qed.

(** The lengths read so far are at the start of the array. *)
Definition readLens f (L : list Z) : Prop := take (length L) (d_bits f) = L /\ lens_ok L.

Lemma lens_ok_snoc L x : lens_ok L -> 0 <= x <= 15 -> lens_ok (L ++ [x]).
Proof. intros. apply Forall_app. split; [done | by constructor]. Qed.

Lemma codeLens_loop f f0 cl B n :
  lens_ok cl -> len cl = 19 -> validLens cl = true -> decodes cl (h1 f0) -> least cl (hmin (h1 f0)) -> treed f B f0 -> 0 <= n <= 316 ->
  loop (Datatypes.S (Z.to_nat n)) (lengthStep n) (0, f0) ⇓ fun '(err, f') =>
    match codeLens (Z.to_nat n) cl n [] B with
    | Some (L, B') => err = None /\ treed f B' f' /\ readLens f' L /\ len L = n
    | None => failed f err f'
    end.
Proof.
  intros Hok Hl19 Hv Hd Hleast Ht Hn.
  apply (loop_returns (fun '(i, f') => 0 <= i <= n /\ h1 f' = h1 f0 /\ exists fl B' L, n - i <= Z.of_nat fl /\ len L = i /\ treed f B' f' /\ readLens f' L /\
     codeLens fl cl n L B' = codeLens (Z.to_nat n) cl n [] B) (fun '(i, _) => n - i)).
  - intros [i f1] (Hi & Hh & fl & B1 & L & Hfl & Hlen & Ht1 & HL & <-). unfold lengthStep. destruct (Z.ltb_spec i n) as [G|G].
    2: { cbn [returns]. assert (E : codeLens fl cl n L B1 = Some (L, B1)) by (destruct fl; cbn [codeLens]; (destruct (Z.leb_spec n (len L)); [done | lia])).
         rewrite E. split_and!; try done. lia. }
    destruct fl as [|fl]; [lia|]. cbn [codeLens]. destruct (Z.leb_spec n (len L)); [lia|].
    pose proof Ht1 as (_ & _ & Hin1 & _ & Hb1 & _ & Hcl1 & Hcl2). rewrite Hh.
    eapply returns_bind_mono; [by apply (huffSym_ref cl (h1 f0) f1 B1)|]. intros [[x err] f2] Hx.
    assert (Hfail : forall e f3, sameOut f1 f3 -> e <> IoError Bufio.EOF -> failed f (Some e) f3).
    { intros e f3 Hs He. split; [by exists e|]. eapply sameOut_trans; [by eapply treed_sameOut | done]. }
    pose proof (symbol_spec cl B1) as Hss.
    destruct (symbol cl B1) as [[y B2]|]; cbn [mbind option_bind].
    2: { destruct Hx as [(e & -> & He) Hs]. cbn [returns]. by apply Hfail. }
    destruct Hx as (-> & -> & Hm). destruct (treed_moved f B1 f1 B2 f2 Ht1 Hm) as (Ht2 & E1 & E2 & E3 & E4).
    assert (Hy : 0 <= y < 19).
    { destruct Hss as (m & [(Hy0 & _ & Hyl) _] & _). pose proof (lookup_Z _ _ _ Hy0 Hyl). lia. }
    destruct HL as [HL1 HL2]. assert (HiL : Z.to_nat i = length L) by (unfold len in Hlen; lia).
    (* the state after [l] was written *)
    assert (Hwrite : forall f3 B3 bits l, treed f B3 f3 -> h1 f3 = h1 f1 -> len bits = 316 -> lens_ok l -> i + len l <= n -> 0 < len l ->
      take (Z.to_nat (i + len l)) bits = L ++ l ->
      let f4 := setTrees f3 (h1 f3) (h2 f3) bits (codebits f3) in
      (0 <= i + len l <= n /\ h1 f4 = h1 f0 /\ exists fl' B' L', n - (i + len l) <= Z.of_nat fl' /\ len L' = i + len l /\ treed f B' f4 /\ readLens f4 L' /\
        codeLens fl' cl n L' B' = codeLens fl cl n (L ++ l) B3) /\ 0 <= n - (i + len l) < n - i).
    { intros f3 B3 bits l Ht3 Hh3 Hlb Hl Hle Hpos Htake f4. pose proof Ht3 as (_ & _ & _ & _ & _ & Hcb3 & Hc1 & Hc2). split; [|lia]. split; [lia|].
      split; [unfold f4; cbn; congruence|]. exists fl, B3, (L ++ l). split; [lia|]. split; [rewrite len_app; lia|]. split; [by apply treed_set|].
      split; [|done]. split; [|by apply Forall_app]. unfold f4. cbn [d_bits setTrees]. rewrite length_app. rewrite <- Htake. f_equal. unfold len in *. lia. }
    destruct (Z.ltb_spec y 16) as [L16|L16].
    { rewrite E3. rewrite upd_Ok by lia. cbn [rbind returns]. replace (i + 1) with (i + len [y]) by done.
      apply (Hwrite f2 B2 (<[Z.to_nat i := y]> (d_bits f1)) [y]); try done.
      - by rewrite len_insert.
      - constructor; [lia | constructor].
      - unfold len. cbn. lia.
      - change (len [y]) with 1. replace (Z.to_nat (i + 1)) with (Datatypes.S (Z.to_nat i)) by lia.
        rewrite (take_S_r _ _ y) by (apply list_lookup_insert_eq; unfold len in *; lia). rewrite take_insert_ge by lia. by rewrite HiL, HL1. }
    (* a repetition *)
    assert (Hagain : forall base nb b, 0 < base -> 0 <= nb <= 24 -> 0 <= b <= 15 ->
      (let! '(k, err, f3) := getBits f2 nb in
       match err with
       | Some err => Ok (inr (Some err, f3))
       | None => let rep := base + k in
           if i + rep >? n then Ok (inr (Some (corrupt f3), f3)) else
           let! bits := repeatBits (d_bits f3) i rep b in
           Ok (inl (i + rep, setTrees f3 (h1 f3) (h2 f3) bits (codebits f3)))
       end) ⇓ fun r =>
         let target := ('(k, B) ← takeBits nb B2;
           if len L + (base + k) <=? n then codeLens fl cl n (L ++ replicate (Z.to_nat (base + k)) b) B else None) in
         match r with
         | inl (i', f') => (0 <= i' <= n /\ h1 f' = h1 f0 /\ exists fl' B' L', n - i' <= Z.of_nat fl' /\ len L' = i' /\ treed f B' f' /\ readLens f' L' /\
             codeLens fl' cl n L' B' = target) /\ 0 <= n - i' < n - i
         | inr (err, f') => match target with Some (L', B') => err = None /\ treed f B' f' /\ readLens f' L' /\ len L' = n | None => failed f err f' end
         end).
    { intros base nb b Hbase Hnb Hb. pose proof Ht2 as (_ & _ & Hin2 & _).
      eapply returns_bind_mono; [by apply (getBits_ref f2 B2 nb)|]. intros [[k err] f3] Hk. unfold takeBits in *.
      destruct (nb <=? len B2); cbn [mbind option_bind].
      2: { destruct Hk as [(e & -> & He) Hs]. cbn [returns]. apply Hfail; [|done]. eapply sameOut_trans; [by eapply moved_sameOut | done]. }
      destruct Hk as (-> & -> & Hm3). pose proof (numBits_range nb B2 ltac:(lia)). set (r := base + numBits nb B2) in *.
      destruct (treed_moved f B2 f2 (drop (Z.to_nat nb) B2) f3 Ht2) as (Ht3 & F1 & F2 & F3 & F4); [eapply moved_le; [exact Hm3 | lia]|].
      rewrite Hlen. destruct (Z.gtb_spec (i + r) n), (Z.leb_spec (i + r) n); try lia.
      { cbn [returns]. apply Hfail; [|done]. eapply sameOut_trans; [by eapply moved_sameOut | by eapply moved_sameOut]. }
      rewrite F3, E3. eapply returns_bind_mono; [apply (repeatBits_spec (d_bits f1) i r b); unfold r; lia|]. intros bits' [Hlb Htake]. cbn [returns].
      assert (Hlr : len (replicate (Z.to_nat r) b) = r) by (rewrite len_replicate; lia).
      specialize (Hwrite f3 (drop (Z.to_nat nb) B2) bits' (replicate (Z.to_nat r) b)). rewrite Hlr in Hwrite. apply Hwrite; try done; try lia.
      - congruence.
      - by apply Forall_replicate.
      - rewrite Htake. by rewrite HiL, HL1. }
    destruct (Z.eqb_spec y 16) as [E16|E16]; 
      [|destruct (Z.eqb_spec y 17) as [E17|E17]; [by eapply returns_mono; [by apply (Hagain 3 3 0)|]; intros [[]|[]] |
        destruct (Z.eqb_spec y 18); [by eapply returns_mono; [by apply (Hagain 11 7 0)|]; intros [[]|[]] | lia]]].
    destruct (Z.eqb_spec i 0) as [Ei|Ei].
    { cbn [returns]. assert (L = []) as -> by (apply len_zero_inv; lia). cbn. apply Hfail; [by eapply moved_sameOut | done]. }
    destruct (lookup_lt_is_Some_2 L (length L - 1)%nat) as [b Hb]; [lia|]. rewrite Hb. cbn [mbind option_bind].
    assert (Hbr : 0 <= b <= 15) by (by apply (Forall_lookup_1 _ _ _ _ HL2) in Hb).
    assert (Hbit : d_bits f2 !! Z.to_nat (i - 1) = Some b).
    { rewrite E3. rewrite <- HL1 in Hb. apply lookup_take_Some in Hb as [Hb _]. rewrite <- Hb. f_equal. rewrite HL1. lia. }
    rewrite (idx_Ok _ _ b) by (done || lia). cbn [rbind]. by eapply returns_mono; [by apply (Hagain 3 2 b)|]; intros [[]|[]].
  - split; [lia|]. split; [done|]. exists (Z.to_nat n), B, []. split; [lia|]. split; [done|]. split; [done|]. split; [|done]. split; [done | apply Forall_nil_2].
  - lia.
  - lia.
Qed.

(** ** The decoders of a block *)

Record litTree (ll : list Z) (h : huffmanDecoder) : Prop := {
  lt_ok : lens_ok ll;
  lt_valid : validLens ll = true;
  lt_decodes : decodes ll h;
  lt_end : forall n, hasCode ll 256 n -> hmin h <= n;
}.

Record distTree (dl : list Z) (h : huffmanDecoder) : Prop := {
  dt_ok : lens_ok dl;
  dt_valid : validLens dl = true;
  dt_decodes : decodes dl h;
  dt_least : least dl (hmin h);
}.

(** The minimum may be raised to the length of the code of the end. *)
Lemma litTree_raise ll h e :
  lens_ok ll -> validLens ll = true -> decodes ll h -> least ll (hmin h) -> ll !! Z.to_nat 256 = Some e ->
  litTree ll (if hmin h <? e then mkHuff e (chunks h) (links h) (linkMask h) else h).
Proof.
  intros Hok Hv Hd Hl He. assert (0 <= e <= 15) by (by apply (Forall_lookup_1 _ _ _ _ Hok) in He). pose proof (de_range _ _ Hd).
  destruct (Z.ltb_spec (hmin h) e) as [L|L]; constructor; try done.
  - constructor; [cbn; lia | cbn; lia|]. intros b Hb. exact (de_lookup _ _ Hd b Hb).
  - cbn. intros n (_ & _ & Hn). rewrite He in Hn. injection Hn. lia.
  - intros n Hn. by apply (Hl 256).
Qed.

(** The three numbers of the header. *)
Lemma header_bits B :
  dynamicTrees B =
    if 14 <=? len B then
      let nlit := numBits 5 B + 257 in
      let ndist := numBits 5 (drop 5 B) + 1 in
      if (286 <? nlit) || (30 <? ndist) then None else
      '(cl, B) ← clens (numBits 4 (drop 10 B) + 4) (drop 14 B);
      if negb (validLens cl) then None else
      '(L, B) ← codeLens (Z.to_nat (nlit + ndist)) cl (nlit + ndist) [] B;
      let ll := take (Z.to_nat nlit) L in
      let dl := drop (Z.to_nat nlit) L in
      if validLens ll && validLens dl then Some (ll, dl, B) else None
    else None.
Proof.
  unfold dynamicTrees, takeBits. destruct (Z.leb_spec 14 (len B)) as [L|L].
  - change (Z.to_nat 5) with 5%nat. change (Z.to_nat 4) with 4%nat.
    destruct (Z.leb_spec 5 (len B)); [|lia]. cbn [mbind option_bind].
    assert (len (drop 5 B) = len B - 5) by (unfold len; rewrite length_drop; unfold len in *; lia).
    assert (len (drop 10 B) = len B - 10) by (unfold len; rewrite length_drop; unfold len in *; lia).
    destruct (Z.leb_spec 5 (len (drop 5 B))); [|lia]. cbn [mbind option_bind]. rewrite drop_drop. change (5 + 5)%nat with 10%nat.
    destruct (Z.leb_spec 4 (len (drop 10 B))); [|lia]. cbn [mbind option_bind]. rewrite drop_drop. done.
  - destruct (Z.leb_spec 5 (len B)); [|done]. cbn [mbind option_bind].
    destruct (Z.leb_spec 5 (len (drop (Z.to_nat 5) B))) as [G|G]; [|done]. cbn [mbind option_bind].
    destruct (Z.leb_spec 4 (len (drop (Z.to_nat 5) (drop (Z.to_nat 5) B)))) as [G'|G']; [|done].
    unfold len in *. rewrite !length_drop in G'. lia.
Qed.

Lemma shifted_bits f B k n : inputs f B -> 0 <= k -> 0 <= n -> k + n <= d_nb f -> (d_b f / 2 ^ k) mod 2 ^ n = numBits n (drop (Z.to_nat k) B).
Proof.
  intros Hi Hk Hn Hnb. pose proof (dropBits_moved f B k Hi ltac:(lia)) as Hm. apply moved_inputs in Hm.
  rewrite <- (numBits_low _ _ n Hm) by (cbn; lia). cbn [dropBits setIn d_b]. by rewrite shiftr_div by lia.
Qed.

(** After the lengths: both decoders, or an error. *)
Lemma initTrees_spec f f1 B L nlit ndist :
  treed f B f1 -> readLens f1 L -> len L = nlit + ndist -> 257 <= nlit -> 0 <= ndist ->
  let ll := take (Z.to_nat nlit) L in
  let dl := drop (Z.to_nat nlit) L in
  (let! lit := slice (d_bits f1) 0 nlit in
   let! '(ok, t) := huff_init (h1 f1) lit in
   let f := setTrees f1 t (h2 f1) (d_bits f1) (codebits f1) in
   if negb ok then Ok (Some (corrupt f), f) else
   let! dst := slice (d_bits f) nlit (nlit + ndist) in
   let! '(ok, t) := huff_init (h2 f) dst in
   let f := setTrees f (h1 f) t (d_bits f) (codebits f) in
   if negb ok then Ok (Some (corrupt f), f) else
   let! e := idx (d_bits f) endBlockMarker in
   let t := h1 f in
   let t := if hmin t <? e then mkHuff e (chunks t) (links t) (linkMask t) else t in
   Ok (None, setTrees f t (h2 f) (d_bits f) (codebits f))) ⇓ fun '(err, f') =>
     if validLens ll && validLens dl then err = None /\ treed f B f' /\ litTree ll (h1 f') /\ distTree dl (h2 f')
     else failed f err f'.
Proof.
  intros Ht [HL1 HL2] Hlen Hn Hd ll dl. pose proof Ht as (_ & _ & _ & _ & Hbits & Hcb & Hc1 & Hc2).
  assert (Hle : len L <= 316) by (rewrite <- HL1; unfold len in *; rewrite length_take; lia).
  assert (Hll : len ll = nlit) by (apply len_takeZ; lia). assert (Hdl : len dl = ndist) by (unfold dl; rewrite len_dropZ; lia).
  rewrite slice_Ok by lia. cbn [rbind].
  replace (take (Z.to_nat (nlit - 0)) (drop (Z.to_nat 0) (d_bits f1))) with ll.
  2: { unfold ll. rewrite <- HL1 at 1. rewrite take_take. change (Z.to_nat 0) with 0%nat. rewrite drop_0. f_equal. unfold len in *. lia. }
  assert (Hokl : lens_ok ll) by (by apply Forall_take). assert (Hokd : lens_ok dl) by (by apply Forall_drop).
  eapply returns_bind_mono; [apply (huff_init_spec (h1 f1) ll); [done | lia | done]|]. intros [ok t] (-> & Hct & Hdec).
  assert (Hfail : forall f2, treed f B f2 -> failed f (Some (corrupt f2)) f2) by (intros f2 H2; apply failed_corrupt; by eapply treed_sameOut).
  assert (Ht1 : treed f B (setTrees f1 t (h2 f1) (d_bits f1) (codebits f1))) by (by apply treed_set).
  destruct (validLens ll) eqn:Ev; cbn [negb andb]; [|by apply Hfail]. destruct (Hdec eq_refl) as [Hd1 Hl1].
  cbn [setTrees d_bits h1 h2 codebits]. rewrite slice_Ok by lia. cbn [rbind].
  replace (take (Z.to_nat (nlit + ndist - nlit)) (drop (Z.to_nat nlit) (d_bits f1))) with dl.
  2: { unfold dl. rewrite <- HL1 at 1. rewrite skipn_firstn_comm. f_equal. unfold len in *. lia. }
  eapply returns_bind_mono; [apply (huff_init_spec (h2 f1) dl); [done | lia | done]|]. intros [ok t2] (-> & Hct2 & Hdec2).
  set (f2 := setTrees f1 t (h2 f1) (d_bits f1) (codebits f1)) in *.
  assert (Ht2 : treed f B (setTrees f2 t t2 (d_bits f1) (codebits f1))) by (by apply treed_set).
  destruct (validLens dl) eqn:Ev2; cbn [negb]; [|by apply Hfail]. destruct (Hdec2 eq_refl) as [Hd2 Hl2].
  destruct (lookup_lt_is_Some_2 ll (Z.to_nat 256)) as [e He]; [unfold len in Hll; lia|].
  assert (Hat : d_bits f1 !! Z.to_nat 256 = Some e).
  { unfold ll in He. rewrite <- HL1 in He. apply lookup_take_Some in He as [He _]. by apply lookup_take_Some in He as [He _]. }
  unfold endBlockMarker. rewrite (idx_Ok _ _ e) by (done || lia). cbn [rbind returns]. split; [done|].
  pose proof (litTree_raise ll t e Hokl Ev Hd1 Hl1 He) as Hlt. split; [|split; [done | by constructor]].
  apply treed_set; try done. cbn [h1 setTrees]. intros E. destruct (Z.ltb_spec (hmin t) e) as [G|G]; [|by apply Hct].
  cbn [hmin] in E. pose proof (de_range _ _ Hd1). lia.
Qed.

Lemma readHuffman_spec f B :
  inputs f B -> d_nb f <= 7 -> len (d_bits f) = 316 -> len (codebits f) = 19 -> clean (h1 f) -> clean (h2 f) ->
  readHuffman f ⇓ fun '(err, f') =>
    match dynamicTrees B with
    | Some (ll, dl, B') => err = None /\ treed f B' f' /\ litTree ll (h1 f') /\ distTree dl (h2 f')
    | None => failed f err f'
    end.
Proof.
  intros Hi Hnb Hbits Hcb Hc1 Hc2. unfold readHuffman. rewrite header_bits.
  eapply returns_bind_mono; [apply (needBits_spec f B (5 + 5 + 4) Hi); lia|]. intros [err f1] [Hm Hc].
  change (5 + 5 + 4) with 14 in *. destruct (Z.leb_spec 14 (len B)) as [L|L].
  2: { subst err. cbn [returns]. split; [eexists; split; [done | apply noEOF_not] | by eapply moved_sameOut]. }
  destruct Hc as [-> Hnb1]. pose proof (moved_inputs _ _ _ _ Hm) as Hi1. pose proof (moved_sameOut _ _ _ _ Hm) as Hso.
  cbv zeta. cbn [setIn d_b d_nb d_r roffset]. change (maxNumLit) with 286. change maxNumDist with 30.
  change 0x1F with (Z.ones 5). change 0xF with (Z.ones 4). rewrite !Z.land_ones by lia. rewrite !Z.shiftr_shiftr by lia.
  change (5 + 5) with 10. change (10 + 4) with 14. rewrite !(shiftr_div (d_b f1)) by lia.
  rewrite (numBits_low f1 B 5 Hi1) by lia. rewrite (shifted_bits f1 B 5 5 Hi1), (shifted_bits f1 B 10 4 Hi1) by lia.
  change (Z.to_nat 5) with 5%nat. change (Z.to_nat 10) with 10%nat.
  pose proof (numBits_range 5 B ltac:(lia)) as R1. pose proof (numBits_range 5 (drop 5 B) ltac:(lia)) as R2. pose proof (numBits_range 4 (drop 10 B) ltac:(lia)) as R3.
  change (2 ^ 4) with 16 in R3.
  set (nlit := numBits 5 B + 257) in *. set (ndist := numBits 5 (drop 5 B) + 1) in *. set (nclen := numBits 4 (drop 10 B) + 4) in *.
  destruct (Z.gtb_spec nlit 286), (Z.ltb_spec 286 nlit); try lia; cbn [orb]; [by apply failed_corrupt|].
  destruct (Z.gtb_spec ndist 30), (Z.ltb_spec 30 ndist); try lia; cbn [orb]; [by apply failed_corrupt|].
  set (f2 := setIn f1 (d_r f1) (roffset f1) (d_b f1 / 2 ^ 14) (d_nb f1 - 14)).
  assert (Ht2 : treed f (drop 14 B) f2).
  { pose proof (dropBits_moved f1 B 14 Hi1 ltac:(lia)) as Hd. unfold dropBits in Hd. rewrite shiftr_div in Hd by lia. fold f2 in Hd.
    change (Z.to_nat 14) with 14%nat in Hd. pose proof (moved_trans _ _ _ _ _ _ _ Hm Hd) as Hm2. pose proof (moved_nb _ _ _ _ Hm) as Hnb'.
    destruct Hm2 as ((r & off & b & nb & E) & Hf & Hi2 & Hk). split; [rewrite E; exists r, off, b, nb, (h1 f), (h2 f), (d_bits f), (codebits f); done|].
    split; [done|]. split; [done|]. split; [lia|]. by rewrite E. }
  eapply returns_bind_mono; [apply (readCodebits_spec f f2 (drop 14 B) nclen Ht2); unfold nclen; lia|]. intros [err f3] H3.
  destruct (clens nclen (drop 14 B)) as [[cl B3]|]; cbn [mbind option_bind].
  2: { destruct H3 as [(e & -> & He) Hs]. cbn [returns]. split; [by exists e | done]. }
  destruct H3 as (-> & Ht3 & Ha). eapply returns_bind_mono; [apply (clearCodebits_spec nclen (codebits f3) cl Ha); unfold nclen; lia|]. intros cb ->.
  pose proof Ht3 as (_ & _ & _ & _ & Hb3 & _ & Hc31 & Hc32). pose proof (ag_lens _ _ _ Ha) as Hokc. pose proof (ag_len' _ _ _ Ha) as Hlenc.
  eapply returns_bind_mono; [apply (huff_init_spec (h1 f3) cl); [done | lia | done]|]. intros [ok t] (-> & Hct & Hdec).
  set (f4 := setTrees f3 t (h2 f3) (d_bits f3) cl). assert (Ht4 : treed f B3 f4) by (by apply treed_set).
  destruct (validLens cl) eqn:Ev; cbn [negb]; [|apply failed_corrupt; by eapply treed_sameOut]. destruct (Hdec eq_refl) as [Hd4 Hl4].
  eapply returns_bind_mono; [apply (codeLens_loop f f4 cl B3 (nlit + ndist)); try done; unfold nlit, ndist; lia|]. intros [err f5] H5.
  destruct (codeLens (Z.to_nat (nlit + ndist)) cl (nlit + ndist) [] B3) as [[Ls B5]|]; cbn [mbind option_bind].
  2: { destruct H5 as [(e & -> & He) Hs]. cbn [returns]. split; [by exists e | done]. }
  destruct H5 as (-> & Ht5 & HL & Hlen).
  eapply returns_mono; [apply (initTrees_spec f f5 B5 Ls nlit ndist Ht5 HL Hlen); unfold nlit, ndist; lia|].
  intros [err f6] H6. by destruct (validLens _ && validLens _).
Qed.
End Trees.
