(* ===== verification/FlateBlocks.v ===== *)
(** * compress/flate: blocks

    A step of the decompressor is a number of steps of the format: a symbol for a
    symbol, and the copy of a match in as many parts as the window needs.  What
    was delivered, what waits to be and the rest of a copy are the output of the
    format so far. *)
From Stdlib Require Import ZArith Lia.
From stdpp Require Import base numbers list option relations.
From S2P Require Import Prelude Bits Lzw LzwBits Bufio BufioReader Flate FlateTables FlateBits FlateDict FlateRef FlateTrees.

(** ** Lengths and distances *)

Lemma lengthCode_spec v : 257 <= v -> lengthCode v = lengthTab !! Z.to_nat (v - 257).
Proof.
  intros Hv. destruct (Z.lt_ge_cases v 286) as [L|L].
  - assert (H : forallb (fun v => bool_decide (lengthCode v = lengthTab !! Z.to_nat (v - 257))) (zrange 257 29) = true) by (vm_compute; reflexivity).
    pose proof (zrange_forallb _ _ _ H v ltac:(lia)) as E. by apply bool_decide_eq_true in E.
  - unfold lengthCode. change maxNumLit with 286. rewrite lookup_ge_None_2 by (change (length lengthTab) with 29%nat; lia).
    repeat match goal with |- context [v <? ?k] => destruct (Z.ltb_spec v k); [lia|] end. done.
Qed.

Lemma distTab_spec d : 4 <= d < 30 -> let nb := (d - 2) / 2 in distTab !! Z.to_nat d = Some (2 ^ (nb + 1) + 1 + (d mod 2) * 2 ^ nb, nb).
Proof.
  intros Hd. assert (H : forallb (fun d => let nb := (d - 2) / 2 in bool_decide (distTab !! Z.to_nat d = Some (2 ^ (nb + 1) + 1 + (d mod 2) * 2 ^ nb, nb)))
    (zrange 4 26) = true) by (vm_compute; reflexivity).
  pose proof (zrange_forallb _ _ _ H d ltac:(lia)) as E. by apply bool_decide_eq_true in E.
Qed.

Lemma distTab_small d : 0 <= d < 4 -> distTab !! Z.to_nat d = Some (d + 1, 0).
Proof.
  intros Hd. assert (H : forallb (fun d => bool_decide (distTab !! Z.to_nat d = Some (d + 1, 0))) (zrange 0 4) = true) by (vm_compute; reflexivity).
  pose proof (zrange_forallb _ _ _ H d ltac:(lia)) as E. by apply bool_decide_eq_true in E.
Qed.

Lemma fixedDists_code i : 0 <= i < 32 -> hasCode fixedDists i 5 /\ codeOf fixedDists i 5 = i.
Proof.
  intros Hi. split; [split; [lia|]; split; [lia|]; apply lookup_replicate; split; [done | lia]|].
  assert (H : forallb (fun i => codeOf fixedDists i 5 =? i) (zrange 0 32) = true) by (vm_compute; reflexivity).
  pose proof (zrange_forallb _ _ _ H i ltac:(lia)) as E. by apply Z.eqb_eq in E.
Qed.

Lemma fixedDists_valid : lens_ok fixedDists /\ validLens fixedDists = true.
Proof. split; [apply Forall_replicate; lia | vm_compute; reflexivity]. Qed.

Section Blocks.
Context {S : Type} {RD : ioReader S} {SR : Source S} {BR : byteReader S} {BL : ByteLaws S}.
Implicit Types f : decompressor S.

Lemma fixedDist_spec f B :
  inputs f B -> 5 <= d_nb f ->
  Reverse8 (u8 (Z.shiftl (Z.land (d_b f) 0x1F) 3)) ⇓ fun d => symbol fixedDists B = Some (d, drop 5 B).
Proof.
  intros Hi Hnb. pose proof (in_b _ _ Hi). change 0x1F with (Z.ones 5). rewrite Z.land_ones, shiftl_mul by lia.
  pose proof (Z.mod_pos_bound (d_b f) (2 ^ 5) ltac:(lia)) as Hm. change (2 ^ 5) with 32 in *. change (2 ^ 3) with 8.
  rewrite u8_id by lia. unfold Reverse8. rewrite rev8_spec by lia. cbn [rbind returns].
  destruct fixedDists_valid as [Hok Hv]. apply (symbol_starts fixedDists B _ 5 Hok Hv).
  replace 8 with (3 + 5) at 1 by done. rewrite revn_app by lia.
  replace (d_b f mod 32 * 8) with (0 + (d_b f mod 32) * 2 ^ 3) by (change (2 ^ 3) with 8; lia).
  rewrite <- (revn_mod 3 _ 3), Z.mod_add, Z.mod_0_l, revn_zero, Z.div_add, Z.div_0_l by lia. rewrite Z.mul_0_l, !Z.add_0_l.
  change 32 with (2 ^ 5). rewrite revn_mod by lia. pose proof (revn_range 5 (d_b f) ltac:(lia)) as Hr. change (2 ^ 5) with 32 in Hr.
  destruct (fixedDists_code (revn 5 (d_b f)) Hr) as [Hc Hcode]. split; [done|].
  apply valM_inj; [unfold codeBits; rewrite length_reverse, bitsL_length, length_take; pose proof (inputs_length f B Hi); lia|].
  rewrite (codeBits_value fixedDists Hok Hv _ _ Hc), Hcode. destruct (inputs_take f B 5 Hi ltac:(lia)) as [-> _]. done.
Qed.

Lemma takeBits_zero B : takeBits 0 B = Some (0, B).
Proof. unfold takeBits. pose proof (len_nonneg B). destruct (Z.leb_spec 0 (len B)); [|lia]. by change (numBits 0 B) with 0. Qed.

(** The extra bits of a length. *)
Lemma extraBits_ref f B n :
  inputs f B -> 0 <= n <= 5 ->
  (if n >? 0 then getBits f n else Ok (0, None, f)) ⇓ fun '(x, err, f') =>
    match takeBits n B with
    | Some (y, B') => x = y /\ err = None /\ moved f B' (Z.max (d_nb f) 7) f'
    | None => failed f err f'
    end.
Proof.
  intros Hi Hn. destruct (Z.gtb_spec n 0) as [L|L].
  - eapply returns_mono; [apply (getBits_ref f B n Hi); lia|]. intros [[x err] f'] H. destruct (takeBits n B) as [[y B']|]; [|done].
    destruct H as (-> & -> & Hm). split_and!; try done. eapply moved_le; [done | lia].
  - assert (n = 0) as -> by lia. cbn [returns]. rewrite takeBits_zero. split_and!; try done. eapply moved_le; [by apply moved_self | lia].
Qed.

Lemma readDist_ref f B d :
  inputs f B -> 0 <= d ->
  readDist f d ⇓ fun '(x, err, f') =>
    match ('(b, n) ← distTab !! Z.to_nat d; '(y, B') ← takeBits n B; Some (b + y, B')) with
    | Some (z, B') => x = z /\ err = None /\ moved f B' (Z.max (d_nb f) 7) f'
    | None => failed f err f'
    end.
Proof.
  intros Hi Hd. unfold readDist. change maxNumDist with 30. destruct (Z.ltb_spec d 4) as [L|L].
  { rewrite distTab_small by lia. cbn [mbind option_bind returns]. rewrite takeBits_zero. cbn [mbind option_bind].
    rewrite Z.add_0_r. split_and!; try done. eapply moved_le; [by apply moved_self | lia]. }
  destruct (Z.ltb_spec d 30) as [L'|L'].
  2: { rewrite lookup_ge_None_2 by (change (length distTab) with 30%nat; lia). cbn. apply failed_corrupt. done. }
  rewrite distTab_spec by lia. cbn [mbind option_bind]. rewrite shiftr_div by lia. change (2 ^ 1) with 2.
  assert (Hnb : 0 <= (d - 2) / 2 <= 13) by zdm. set (nb := (d - 2) / 2) in *.
  eapply returns_bind_mono; [apply (getBits_ref f B nb Hi); lia|]. intros [[x err] f'] H. destruct (takeBits nb B) as [[y B']|] eqn:Et; cbn [mbind option_bind].
  - destruct H as (-> & -> & Hm). cbn [returns]. split; [|split; [done|]; eapply moved_le; [done | lia]].
    unfold takeBits in Et. destruct (nb <=? len B); [|done]. injection Et as <- _. pose proof (numBits_range nb B ltac:(lia)).
    rewrite (land_ones' d 1) by lia. rewrite !shiftl_mul by lia. change (2 ^ 1) with 2.
    rewrite lor_disjoint_mul by (try lia; apply Z.mod_pos_bound; lia). lia.
  - destruct H as [(e & -> & He) Hs]. cbn [returns]. split; [by exists e | done].
Qed.

(** ** States *)

Definition distOf f (p : huffPtr) (dl : list Z) : Prop :=
  match p with
  | hNil => dl = fixedDists
  | p => exists h, tree f p = Ok h /\ distTree dl h
  end.

Lemma distSym_ref f B dl :
  distOf f (d_hd f) dl -> inputs f B ->
  distSym f ⇓ fun '(x, err, f') =>
    match symbol dl B with
    | Some (i, B') => x = i /\ err = None /\ moved f B' (Z.max (d_nb f) 7) f'
    | None => failed f err f'
    end.
Proof.
  intros Hd Hi. unfold distSym, distOf in *.
  assert (Htree : forall p, (exists h, tree f p = Ok h /\ distTree dl h) -> (let! h := tree f p in huffSym f h) ⇓ fun '(x, err, f') =>
    match symbol dl B with
    | Some (i, B') => x = i /\ err = None /\ moved f B' (Z.max (d_nb f) 7) f'
    | None => failed f err f'
    end).
  { intros p (h & -> & [H1 H2 H3 H4]). cbn [rbind]. by apply huffSym_ref. }
  destruct (d_hd f); try by apply Htree. subst dl. clear Htree.
  eapply returns_bind_mono; [apply (needBits_spec f B 5 Hi); lia|]. intros [err f1] [Hm Hc]. destruct (Z.leb_spec 5 (len B)) as [L|L].
  - destruct Hc as [-> Hnb]. pose proof (moved_inputs _ _ _ _ Hm) as Hi1. pose proof (fixedDist_spec f1 B Hi1 Hnb) as Hs.
    destruct (Reverse8 _) as [d| |]; try done. cbn [rbind returns] in *. rewrite Hs. split; [done|]. split; [done|].
    pose proof (moved_nb _ _ _ _ Hm). change 5%nat with (Z.to_nat 5).
    eapply moved_le; [eapply moved_trans; [done | apply (dropBits_moved f1 B 5 Hi1); lia]|]. lia.
  - subst err. cbn [returns]. rewrite symbol_none; [split; [eexists; split; [done | apply noEOF_not] | by eapply moved_sameOut]|].
    intros i n Hs. pose proof Hs as [(Hi0 & _ & Hl) _]. destruct fixedDists_valid as [Hok Hv]. apply (startsWith_length fixedDists Hok Hv) in Hs.
    apply lookup_replicate in Hl as [-> _]. lia.
Qed.

(** What holds between the operations: [B] are the bits ahead, [W] is all that was
    written, and [D] the part of it that was delivered. *)
Record base (D : list Z) f (B : list bool) (W : list Z) : Prop := {
  ba_err : d_err f = None;
  ba_in : inputs f B;
  ba_win : window (d_dict f) W;
  ba_out : W = D ++ d_toRead f ++ unread (d_dict f);
  ba_bits : len (d_bits f) = 316;
  ba_codebits : len (codebits f) = 19;
  ba_clean1 : clean (h1 f);
  ba_clean2 : clean (h2 f);
}.

Definition room f : Prop := 0 < availWrite (d_dict f).

Lemma base_moved D f B W B' k f' : base D f B W -> moved f B' k f' -> base D f' B' W.
Proof. intros [? ? ? ? ? ? ? ?] ((r & off & b & nb & ->) & _ & Hi & _). constructor; done. Qed.

(** The distance of a copy that is to go on. *)
Definition distOK f (W : list Z) : Prop := 1 <= copyDist f <= len W /\ copyDist f <= 32768.

(** Nothing is left to copy, also when the state says to copy. *)
Definition settled f (W : list Z) : Prop := copyLen f = 0 /\ (stepState f = stateDict -> distOK f W).

Lemma settled_app f W l : settled f W -> settled f (W ++ l).
Proof. intros [H1 H2]. split; [done|]. intros E. destruct (H2 E) as [? ?]. pose proof (len_nonneg l). split; [rewrite len_app; lia | done]. Qed.

Record treesOK f (ll dl : list Z) : Prop := {
  tr_lit : exists h, tree f (d_hl f) = Ok h /\ litTree ll h /\ d_nb f < hmin h + 8;
  tr_dist : distOf f (d_hd f) dl;
}.

(** Within a block with codes; [copying]: the rest of a copy is to be done. *)
Record inBlock (D : list Z) (ll dl : list Z) (copying : bool) f (s : rstate) (W : list Z) : Prop := {
  ib_base : base D f (r_bits s) W;
  ib_room : room f;
  ib_toRead : d_toRead f = [];
  ib_final : d_final f = r_final s;
  ib_mode : r_mode s = RCodes ll dl;
  ib_trees : treesOK f ll dl;
  ib_copy : if copying then 0 <= copyLen f /\ distOK f W /\ r_out s = copyMatch (Z.to_nat (copyLen f)) (copyDist f) W
            else r_out s = W /\ settled f W;
}.

(** Before a step. *)
Definition running (D : list Z) f (s : rstate) : Prop :=
  exists W, base D f (r_bits s) W /\ room f /\
  match d_step f with
  | nextBlockStep => r_mode s = RHeader /\ d_nb f < 8 /\ r_out s = W /\ settled f W
  | copyDataStep => r_mode s = RStored (copyLen f) /\ d_nb f = 0 /\ d_final f = r_final s /\ r_out s = W /\ 0 <= copyLen f /\
      (stepState f = stateDict -> distOK f W)
  | huffmanBlockStep => d_final f = r_final s /\ exists ll dl, r_mode s = RCodes ll dl /\ treesOK f ll dl /\
      match stepState f with
      | stateInit => r_out s = W /\ settled f W
      | stateDict => 0 <= copyLen f /\ distOK f W /\ r_out s = copyMatch (Z.to_nat (copyLen f)) (copyDist f) W
      end
  end.

Definition flushable (dd : dictDecoder) : Prop := 0 <= rdPos dd <= wrPos dd /\ wrPos dd <= len (hist dd).

(** After the end or an error. *)
Definition stopped (D : list Z) f (s : rstate) : Prop :=
  flushable (d_dict f) /\ (d_toRead f = [] \/ unread (d_dict f) = []) /\ r_out s = D ++ d_toRead f ++ unread (d_dict f) /\
  ((d_err f = Some (IoError Bufio.EOF) /\ r_mode s = RDone /\ inputs f (r_bits s) /\ d_nb f < 8) \/
   (exists e, d_err f = Some e /\ e <> IoError Bufio.EOF /\ malformed s)).

Lemma window_flushable dd W : window dd W -> flushable dd.
Proof. intros [H1 H2 H3 _]. split; [done | lia]. Qed.

(** The end of a step, from [s]: the machine is stopped, has data to deliver, or has read. *)
Definition goesOn (D : list Z) (s : rstate) f' : Prop :=
  exists s', reaches s s' /\
    (stopped D f' s' \/ (running D f' s' /\ (d_toRead f' <> [] \/ len (r_bits s') < len (r_bits s)))).

Lemma flushOut_spec D f B W :
  base D f B W -> d_toRead f = [] ->
  flushOut f ⇓ fun f' => (exists dd, f' = setOut f dd (unread (d_dict f)) /\ unread dd = []) /\ base D f' B W /\ room f'.
Proof.
  intros [H1 H2 H3 H4 H5 H6 H7 H8] Ht. unfold flushOut. destruct (readFlush_spec _ _ H3) as (dd & -> & Hw & Hu & Hr). cbn [rbind returns].
  split; [by exists dd|]. split; [|done]. constructor; cbn [setOut d_err d_dict d_toRead d_bits codebits h1 h2]; try done.
  - by destruct H2; constructor.
  - by rewrite Hu, app_nil_r, H4, Ht.
Qed.

Lemma len_unread_pos dd W : window dd W -> 0 < availRead dd -> unread dd <> [].
Proof. intros Hw Ha E. pose proof (len_unread dd W Hw) as Hl. rewrite E in Hl. unfold len in Hl. cbn in Hl. lia. Qed.

Lemma finishBlock_spec D f B W :
  base D f B W -> room f -> d_toRead f = [] \/ unread (d_dict f) = [] -> d_nb f < 8 -> settled f W ->
  finishBlock f ⇓ fun f' => let s' := endBlock B W (d_final f) in stopped D f' s' \/ running D f' s'.
Proof.
  intros Hb Hr Ht Hnb Hs. pose proof Hb as [H1 H2 H3 H4 H5 H6 H7 H8]. unfold finishBlock. destruct (d_final f).
  - cbn [rbind]. destruct (Z.gtb_spec (availRead (d_dict f)) 0) as [G|G].
    + destruct Ht as [Ht|Ht]; [|by apply (len_unread_pos _ _ H3) in Ht; [|lia]].
      eapply (returns_bind_mono _ _ (fun f' => (exists dd, f' = setFlateErr (setOut f dd (unread (d_dict f))) (Some (IoError Bufio.EOF)) /\ unread dd = []) /\ window (d_dict f') W)).
      { eapply returns_bind_mono; [by apply (flushOut_spec D f B W Hb)|]. intros f1 ((dd & -> & Hu) & Hb1 & _). cbn [returns].
        split; [by exists dd | apply (ba_win _ _ _ _ Hb1)]. }
      intros f1 ((dd & -> & Hu) & Hw). cbn [returns]. left. split; [by eapply window_flushable|]. cbn [r_out endBlock setStep setFlateErr setOut d_toRead d_dict].
      split; [by right|]. split; [by rewrite Hu, app_nil_r, H4, Ht|]. left. split; [done|]. split; [done|]. split; [|done]. by destruct H2; constructor.
    + cbn [rbind returns]. left. split; [by eapply window_flushable|]. split; [right; change (unread (d_dict f) = []); apply len_zero_inv; rewrite (len_unread _ W H3); unfold availRead in *; pose proof (wi_pos _ _ H3); lia|].
      split; [done|]. left. split; [done|]. split; [done|]. split; [|done]. by destruct H2; constructor.
  - cbn [rbind returns]. right. exists W. split; [constructor; try done; by destruct H2; constructor|]. split; [done|]. cbn. done.
Qed.

(** ** Copies *)

Lemma base_out D f B W dd W' l :
  base D f B W -> window dd W' -> W' = W ++ l -> unread dd = unread (d_dict f) ++ l -> d_toRead f = [] -> base D (setOut f dd []) B W'.
Proof.
  intros [H1 H2 H3 H4 H5 H6 H7 H8] Hw -> Hu Ht. constructor; cbn [setOut d_err d_dict d_toRead d_bits codebits h1 h2]; try done.
  - by destruct H2; constructor.
  - rewrite Hu, H4, Ht. cbn [app]. by rewrite (assoc_L app).
Qed.

Lemma base_setCopy D f B W n d : base D f B W -> base D (setCopy f n d) B W.
Proof. intros [H1 H2 H3 H4 H5 H6 H7 H8]. constructor; try done. by destruct H2; constructor. Qed.

Lemma base_setStep D f B W st sts : base D f B W -> base D (setStep f st sts) B W.
Proof. intros [H1 H2 H3 H4 H5 H6 H7 H8]. constructor; try done. by destruct H2; constructor. Qed.

Lemma copyHistory_spec D ll dl f s W :
  inBlock D ll dl true f s W ->
  copyHistory f ⇓ fun r => match r with
    | inl (c, f') => c = false /\ exists W', inBlock D ll dl false f' s W'
    | inr f' => running D f' s /\ d_toRead f' <> []
    end.
Proof.
  intros [Hb Hr Ht Hf Hm Htr (Hn & Hd & Hout)]. pose proof Hb as [H1 H2 H3 H4 H5 H6 H7 H8]. destruct Hd as [Hd1 Hd2].
  pose proof (copies_spec (d_dict f) W (copyDist f) (copyLen f) H3 Hd1 Hd2 Hn Hr) as Hcp. cbv zeta in Hcp.
  set (m := Z.min (copyLen f) (availWrite (d_dict f))) in *. set (l := rep W (len W - copyDist f) (copyDist f) m) in *.
  unfold copyHistory. destruct (tryWriteCopy _ _ _) as [[cnt dict]| |]; try done. cbn [rbind] in Hcp |- *. rewrite Hcp. cbn [rbind]. clear Hcp cnt dict.
  assert (Hl : len l = m) by (apply len_rep; unfold room in Hr; lia).
  destruct (window_written (d_dict f) W l H3 ltac:(lia)) as [Hw Hu]. set (dd := written_ (d_dict f) l) in *.
  assert (Hav : availWrite dd = availWrite (d_dict f) - m).
  { pose proof (wi_len _ _ Hw) as E1. pose proof (wi_len _ _ H3) as E2. unfold availWrite. rewrite E1, E2. unfold dd. cbn [written_ wrPos]. lia. }
  set (f1 := setCopy (setOut f dd (d_toRead f)) (copyLen f - m) (copyDist f)).
  assert (Hb1 : base D f1 (r_bits s) (W ++ l)) by (unfold f1; rewrite Ht; by apply base_setCopy, (base_out D f _ W _ _ l)).
  assert (Hout1 : r_out s = copyMatch (Z.to_nat (copyLen f1)) (copyDist f1) (W ++ l)).
  { rewrite Hout. unfold f1. cbn [copyLen copyDist setCopy]. replace (Z.to_nat (copyLen f)) with (Z.to_nat m + Z.to_nat (copyLen f - m))%nat by (unfold room in Hr; lia).
    rewrite copyMatch_add. f_equal. rewrite copyMatch_rep by lia. rewrite Z2Nat.id by (unfold room in Hr; lia). done. }
  assert (Hd' : distOK f1 (W ++ l)) by (pose proof (len_nonneg l); split; [rewrite len_app; cbn [f1 copyDist setCopy]; lia | done]).
  assert (Hlen1 : 0 <= copyLen f1) by (cbn [f1 copyLen setCopy]; lia).
  assert (Htr1 : treesOK f1 ll dl) by (by destruct Htr; constructor).
  change (d_dict f1) with dd. rewrite Hav.
  destruct ((availWrite (d_dict f) - m =? 0) || (copyLen f1 >? 0)) eqn:Ec.
  - eapply returns_bind_mono; [apply (flushOut_spec D f1 _ _ Hb1); done|]. intros f2 ((dd2 & -> & Hu2) & Hb2 & Hr2). cbn [returns]. split.
    + exists (W ++ l). split; [by apply base_setStep|]. split; [done|]. cbn [setStep setOut d_step stepState]. split; [done|]. exists ll, dl. split; [done|]. split; [by destruct Htr1; constructor|]. done.
    + cbn [setStep setOut d_toRead]. change (d_dict f1) with dd. rewrite Hu. unfold room in Hr.
      assert (0 < m) by (apply orb_true_iff in Ec as [E|E]; [apply Z.eqb_eq in E; lia | apply Z.gtb_gt in E; cbn [f1 copyLen setCopy] in E; lia]).
      intros E. apply app_eq_nil in E as [_ E]. rewrite E in Hl. change (len (@nil Z)) with 0 in Hl. lia.
  - apply orb_false_iff in Ec as [E1 E2]. apply Z.eqb_neq in E1. assert (E3 : copyLen f1 = 0) by (destruct (Z.gtb_spec (copyLen f1) 0); [done | lia]).
    cbn [returns]. split; [done|]. exists (W ++ l). constructor; try done.
    + unfold room. change (d_dict f1) with dd. rewrite Hav. unfold room in Hr. lia.
    + rewrite E3 in Hout1. cbn in Hout1. split; [done|]. split; [done|]. by intros _.
Qed.

(** ** Symbols *)

(** An error leaves what was written to be delivered. *)
Lemma goesOn_error D f B W s f' e :
  base D f B W -> d_toRead f = [] -> r_out s = W -> sameOut f f' -> e <> IoError Bufio.EOF -> malformed s -> goesOn D s (setFlateErr f' (Some e)).
Proof.
  intros Hb Ht Hout [E1 E2] He Hm. exists s. split; [apply rtc_refl|]. left. pose proof Hb as [_ _ H3 H4 _ _ _ _].
  split; [cbn; rewrite E1; by eapply window_flushable|]. cbn [setFlateErr d_toRead d_dict d_err]. rewrite E1, E2, Hout. split; [by left|]. split; [done|]. right. by exists e.
Qed.

Lemma treesOK_moved f ll dl h B k f' :
  treesOK f ll dl -> tree f (d_hl f) = Ok h -> litTree ll h -> moved f B k f' -> k < hmin h + 8 -> treesOK f' ll dl.
Proof.
  intros [_ Hd] Eh Hlt ((r & off & b & nb & ->) & _ & _ & Hk) Hlt'. constructor; [|done]. exists h. split; [done|]. split; [done | lia].
Qed.

Lemma refStep_codes s ll dl : r_mode s = RCodes ll dl -> refStep s = refSymbol ll dl (r_bits s) (r_out s) (r_final s).
Proof. unfold refStep. by intros ->. Qed.

(** A literal is written to the window. *)
Lemma writeLiteral_spec D ll dl f s W B v :
  inBlock D ll dl false f (mkRef B W (r_final s) (RCodes ll dl)) W -> 0 <= v < 256 -> reaches s (mkRef B (W ++ [v]) (r_final s) (RCodes ll dl)) ->
  len B < len (r_bits s) ->
  (let! dict := dict_writeByte (d_dict f) (u8 v) in
   let f := setOut f dict (d_toRead f) in
   if availWrite (d_dict f) =? 0 then
     let! f := flushOut f in Ok (inr (setStep f huffmanBlockStep stateInit))
   else Ok (inl (false, f))) ⇓ fun r => match r with
    | inl (c, f') => c = false /\ inBlock D ll dl false f' (mkRef B (W ++ [v]) (r_final s) (RCodes ll dl)) (W ++ [v])
    | inr f' => goesOn D s f'
    end.
Proof.
  intros [Hb Hr Ht Hf _ Htr [_ Hset]] Hv Hreach Hlen. pose proof Hb as [H1 H2 H3 H4 H5 H6 H7 H8]. cbn [r_bits r_final] in *. unfold room in Hr.
  rewrite u8_id by lia. rewrite (dict_writeByte_spec _ W) by done. cbn [rbind]. destruct (window_written (d_dict f) W [v] H3) as [Hw Hu]; [change (len [v]) with 1; lia|].
  set (dd := written_ (d_dict f) [v]) in *. rewrite Ht.
  assert (Hb1 : base D (setOut f dd []) B (W ++ [v])) by (by apply (base_out D f _ W _ _ [v])).
  cbn [setOut d_dict]. destruct (Z.eqb_spec (availWrite dd) 0) as [E|E].
  - eapply returns_bind_mono; [apply (flushOut_spec D _ _ _ Hb1); done|]. intros f2 ((dd2 & -> & Hu2) & Hb2 & Hr2). cbn [returns].
    exists (mkRef B (W ++ [v]) (r_final s) (RCodes ll dl)). split; [done|]. right. split.
    + exists (W ++ [v]). split; [by apply base_setStep|]. split; [done|]. cbn [setStep setOut d_step stepState]. split; [done|].
      exists ll, dl. split; [done|]. split; [by destruct Htr; constructor|]. split; [done|]. split; [apply Hset | done].
    + left. cbn [setStep setOut d_toRead d_dict]. rewrite Hu. by destruct (unread (d_dict f)).
  - cbn [returns]. split; [done|]. constructor; cbn [r_bits r_final r_mode r_out]; try done.
    + unfold room. cbn [setOut d_dict]. pose proof (wi_len _ _ Hw). pose proof (wi_room _ _ Hw). unfold availWrite in *. lia.
    + by destruct Htr; constructor.
    + split; [done|]. by apply settled_app.
Qed.

(** The match after a length symbol. *)
Lemma readMatch_spec D ll dl h f s W B v :
  inBlock D ll dl false f (mkRef B W (r_final s) (RCodes ll dl)) W -> tree f (d_hl f) = Ok h -> litTree ll h -> r_out s = W ->
  256 < v -> (refStep s = '(n, dist, B) ← refMatch dl v B;
    if dist <=? len W then Some (mkRef B (copyMatch (Z.to_nat n) dist W) (r_final s) (RCodes ll dl)) else None) ->
  r_mode s = RCodes ll dl -> len B < len (r_bits s) ->
  (let fail err f := Ok (inr (setFlateErr f (Some err))) in
   match lengthCode v with
   | None => fail (corrupt f) f
   | Some (base, n) =>
       let! '(x, err, f) := if n >? 0 then getBits f n else Ok (0, None, f) in
       match err with
       | Some err => fail err f
       | None =>
           let length := base + x in
           let! '(dist, err, f) := distSym f in
           match err with
           | Some err => fail err f
           | None =>
               let! '(dist, err, f) := readDist f dist in
               match err with
               | Some err => fail err f
               | None =>
                   if dist >? histSize (d_dict f) then fail (corrupt f) f
                   else Ok (inl (true, setCopy f length dist))
               end
           end
       end
   end) ⇓ fun r => match r with
    | inl (c, f') => c = true /\ exists s', refStep s = Some s' /\ inBlock D ll dl true f' s' W /\ len (r_bits s') < len (r_bits s)
    | inr f' => goesOn D s f'
    end.
Proof.
  intros [Hb Hr Ht Hf _ Htr [_ Hset]] Eh Hlt Hout Hv Hstep Hmode Hlen. cbn [r_bits r_final] in *. pose proof Htr as [(h' & Eh' & _ & Hnb) Hdist].
  rewrite Eh in Eh'. injection Eh' as <-. pose proof (de_range _ _ (lt_decodes _ _ Hlt)) as Hmin.
  assert (Hfail : forall f' e, sameOut f f' -> e <> IoError Bufio.EOF -> refStep s = None -> goesOn D s (setFlateErr f' (Some e))).
  { intros f' e Hs He Hn. eapply goesOn_error; try done. apply stuck_malformed; [done | by rewrite Hmode]. }
  cbv zeta. rewrite lengthCode_spec by lia. unfold refMatch in Hstep.
  destruct (lengthTab !! Z.to_nat (v - 257)) as [[bs n]|] eqn:El; cbn [mbind option_bind] in Hstep.
  2: { cbn [returns]. by apply Hfail. }
  apply lengthTab_ok in El. eapply returns_bind_mono; [apply (extraBits_ref f B n (ba_in _ _ _ _ Hb)); lia|]. intros [[x err] f1] H1.
  destruct (takeBits n B) as [[y B1]|] eqn:Et1; cbn [mbind option_bind] in Hstep.
  2: { destruct H1 as [(e & -> & He) Hs]. cbn [returns]. by apply Hfail. }
  destruct H1 as (-> & -> & Hm1). pose proof (moved_sameOut _ _ _ _ Hm1) as Hs1. pose proof (moved_nb _ _ _ _ Hm1) as Hnb1.
  assert (Hd1 : distOf f1 (d_hd f1) dl) by (destruct Hm1 as ((? & ? & ? & ? & ->) & _); done).
  eapply returns_bind_mono; [apply (distSym_ref f1 B1 dl Hd1); by eapply moved_inputs|]. intros [[d err] f2] H2.
  pose proof (symbol_spec dl B1) as Hsym. destruct (symbol dl B1) as [[d' B2]|] eqn:Es; cbn [mbind option_bind] in Hstep.
  2: { destruct H2 as [(e & -> & He) Hs]. cbn [returns]. apply Hfail; [by eapply sameOut_trans | done..]. }
  destruct H2 as (-> & -> & Hm2'). pose proof (moved_trans _ _ _ _ _ _ _ Hm1 Hm2') as Hm2. pose proof (moved_nb _ _ _ _ Hm2) as Hnb2. pose proof (moved_sameOut _ _ _ _ Hm2) as Hs2.
  assert (Hd0 : 0 <= d') by (by destruct Hsym as (? & [(? & _) _] & _)).
  eapply returns_bind_mono; [apply (readDist_ref f2 B2 d'); [by eapply moved_inputs | done]|]. intros [[z err] f3] H3.
  destruct (distTab !! Z.to_nat d') as [[db dn]|] eqn:Ed; cbn [mbind option_bind] in Hstep, H3.
  2: { destruct H3 as [(e & -> & He) Hs]. cbn [returns]. apply Hfail; [by eapply sameOut_trans | done..]. }
  apply distTab_ok in Ed as (Hdn & Hdb & Hmax).
  destruct (takeBits dn B2) as [[w B3]|] eqn:Et3; cbn [mbind option_bind] in Hstep, H3.
  2: { destruct H3 as [(e & -> & He) Hs]. cbn [returns]. apply Hfail; [by eapply sameOut_trans | done..]. }
  destruct H3 as (-> & -> & Hm3'). pose proof (moved_trans _ _ _ _ _ _ _ Hm2 Hm3') as Hm3. pose proof (moved_nb _ _ _ _ Hm3) as Hnb3.
  pose proof (moved_sameOut _ _ _ _ Hm3) as Hs3. pose proof (base_moved _ _ _ _ _ _ _ Hb Hm3) as Hb3.
  assert (Hw0 : 0 <= w < 2 ^ dn) by (unfold takeBits in Et3; destruct (dn <=? len B2); [|done]; injection Et3 as <- _; apply numBits_range; lia).
  assert (Hy0 : 0 <= y) by (unfold takeBits in Et1; destruct (n <=? len B); [|done]; injection Et1 as <- _; apply (numBits_range n B); lia).
  assert (Hlen3 : len B3 < len (r_bits s)).
  { apply takeBits_length in Et1; [|lia]. apply takeBits_length in Et3; [|lia]. apply symbol_length in Es as (? & _ & ? & ?). lia. }
  rewrite (histSize_spec _ W _ (ba_win _ _ _ _ Hb3)) by lia.
  destruct (Z.gtb_spec (db + w) (len W)), (Z.leb_spec (db + w) (len W)); try lia; cbn [returns]; [by apply Hfail|].
  split; [done|]. eexists. split; [done|]. split; [|done]. constructor; cbn [r_bits r_out r_final r_mode]; try done.
  - by apply base_setCopy.
  - unfold room. destruct Hs3 as [E _]. cbn [setCopy d_dict]. rewrite E. done.
  - destruct Hs3 as [_ E]. cbn. congruence.
  - destruct Hm3 as ((? & ? & ? & ? & ->) & _). done.
  - assert (Htr3 : treesOK f3 ll dl) by (eapply (treesOK_moved f ll dl h); [done.. | exact Hm3|]; lia).
    by destruct Htr3; constructor.
  - cbn [setCopy copyLen copyDist]. split; [lia|]. split; [|done]. split; cbn [copyDist setCopy]; lia.
Qed.

Lemma readLiteral_spec D ll dl f s W :
  inBlock D ll dl false f s W ->
  readLiteral f ⇓ fun r => match r with
    | inl (c, f') => exists s' W', reaches s s' /\ inBlock D ll dl c f' s' W' /\ len (r_bits s') < len (r_bits s)
    | inr f' => goesOn D s f'
    end.
Proof.
  intros HB. pose proof HB as [Hb Hr Ht Hf Hmode Htr [Hout Hset]]. pose proof Htr as [(h & Eh & Hlt & Hnb) Hdist]. pose proof Hlt as [Hok Hv Hdec Hend].
  pose proof (de_range _ _ Hdec) as Hmin. unfold readLiteral. rewrite Eh. cbn [rbind].
  eapply returns_bind_mono; [apply (huffSym_spec ll h f (r_bits s) Hok Hv Hdec (ba_in _ _ _ _ Hb))|]. intros [[v err] f1] H. destruct err as [e|].
  { destruct H as (He & Hs & Hno). cbn [returns]. eapply goesOn_error; try done. destruct Hno as [Hno|Hno]; [by eapply short_malformed|].
    apply stuck_malformed; [|by rewrite Hmode]. rewrite (refStep_codes s ll dl Hmode). unfold refSymbol. by rewrite symbol_none. }
  destruct H as (n & Hs & Hm). pose proof (startsWith_length ll Hok Hv v n _ Hs) as [Hn Hnl]. set (B := drop (Z.to_nat n) (r_bits s)) in *.
  pose proof (refStep_codes s ll dl Hmode) as Hstep. unfold refSymbol in Hstep. rewrite (symbol_starts ll _ v n Hok Hv Hs) in Hstep. cbn [mbind option_bind] in Hstep. fold B in Hstep.
  assert (HlenB : len B < len (r_bits s)) by (unfold B; rewrite len_dropZ by lia; lia).
  assert (Hv0 : 0 <= v) by (by destruct Hs as [(? & _) _]).
  pose proof (moved_nb _ _ _ _ Hm) as Hnb1. pose proof (moved_sameOut _ _ _ _ Hm) as [E1 E2].
  assert (Htr1 : treesOK f1 ll dl) by (eapply (treesOK_moved f ll dl h); [done.. | exact Hm |]; lia).
  pose proof (base_moved _ _ _ _ _ _ _ Hb Hm) as Hb1.
  assert (Hrest : d_final f1 = d_final f /\ settled f1 W /\ tree f1 (d_hl f1) = Ok h) by (by destruct Hm as ((? & ? & ? & ? & ->) & _)).
  destruct Hrest as (Hf1 & Hset1 & Eh1).
  assert (HB1 : inBlock D ll dl false f1 (mkRef B W (r_final s) (RCodes ll dl)) W).
  { constructor; cbn [r_bits r_final r_mode r_out]; try done; [unfold room; by rewrite E1 | by rewrite E2 | congruence]. }
  rewrite Hout in Hstep.
  destruct (Z.ltb_spec v 256) as [L|L].
  - assert (Hreach : reaches s (mkRef B (W ++ [v]) (r_final s) (RCodes ll dl))) by (by apply rtc_once).
    eapply returns_mono; [apply (writeLiteral_spec D ll dl f1 s W B v HB1); [lia | done..]|]. intros [[c f']|f'] H; [|done].
    destruct H as [-> H]. by eexists _, _.
  - destruct (Z.eqb_spec v 256) as [->|Hne].
    + eapply returns_bind_mono; [apply (finishBlock_spec D f1 B W Hb1); try done|].
      * unfold room. by rewrite E1.
      * left. by rewrite E2.
      * destruct Hs as [Hc _]. specialize (Hend n Hc). lia.
      * intros f' H. cbn [returns]. rewrite Hf1, Hf in H. exists (endBlock B W (r_final s)). split; [by apply rtc_once|]. destruct H as [H|H]; [by left | right; split; [done | by right]].
    + eapply returns_mono; [apply (readMatch_spec D ll dl h f1 s W B v HB1 Eh1 Hlt Hout); try done; lia|].
      intros [[c f']|f'] H; [|done]. destruct H as (-> & s' & Hs' & HB' & Hl'). exists s', W. split; [by apply rtc_once | done].
Qed.

(** ** Blocks with codes *)

(** The bits ahead, in number. *)
Definition aheadOf f : Z := d_nb f + 8 * len (dataOf (d_r f)).

Lemma inputs_ahead f B : inputs f B -> aheadOf f = len B.
Proof. intros H. pose proof (inputs_length f B H). pose proof (in_nb _ _ H). unfold aheadOf, len. lia. Qed.

Lemma goesOn_before D s s' f : reaches s s' -> len (r_bits s') <= len (r_bits s) -> goesOn D s' f -> goesOn D s f.
Proof.
  intros H Hl (s2 & H2 & Hc). exists s2. split; [by etrans|]. destruct Hc as [?|[? [?|?]]]; [by left | right; split; [done | by left] | right; split; [done | right; lia]].
Qed.

(** From a symbol, or from the rest of a copy. *)
Lemma huffmanBlock_spec D ll dl fuel f s W :
  inBlock D ll dl (match stepState f with stateInit => false | stateDict => true end) f s W -> (2 * length (r_bits s) + 1 < fuel)%nat ->
  huffmanBlock fuel f ⇓ goesOn D s.
Proof.
  intros HB Hfuel. unfold huffmanBlock. set (c0 := match stepState f with stateInit => false | stateDict => true end) in *.
  apply (loop_returns (fun '(c, f') => exists s' W', reaches s s' /\ inBlock D ll dl c f' s' W' /\ len (r_bits s') <= len (r_bits s))
    (fun '(c, f') => 2 * aheadOf f' + (if c : bool then 1 else 0))).
  - intros [c f1] (s1 & W1 & Hreach & HB1 & Hl1). pose proof (inputs_ahead _ _ (ba_in _ _ _ _ (ib_base _ _ _ _ _ _ _ HB1))) as Ha1. destruct c.
    + eapply returns_mono; [by apply (copyHistory_spec D ll dl f1 s1 W1)|]. intros [[c f2]|f2] H.
      * destruct H as (-> & W2 & HB2). pose proof (inputs_ahead _ _ (ba_in _ _ _ _ (ib_base _ _ _ _ _ _ _ HB2))) as Ha2. pose proof (len_nonneg (r_bits s1)).
        split; [by exists s1, W2 | lia].
      * destruct H as [H1 H2]. exists s1. split; [done|]. right. split; [done | by left].
    + eapply returns_mono; [by apply (readLiteral_spec D ll dl f1 s1 W1)|]. intros [[c f2]|f2] H.
      * destruct H as (s2 & W2 & Hr2 & HB2 & Hl2). pose proof (inputs_ahead _ _ (ba_in _ _ _ _ (ib_base _ _ _ _ _ _ _ HB2))) as Ha2. pose proof (len_nonneg (r_bits s2)).
        split; [|destruct c; lia]. exists s2, W2. split; [by etrans|]. split; [done | lia].
      * by eapply goesOn_before.
  - exists s, W. split; [apply rtc_refl|]. split; [done | lia].
  - rewrite (inputs_ahead _ _ (ba_in _ _ _ _ (ib_base _ _ _ _ _ _ _ HB))). unfold len. destruct c0; lia.
  - rewrite (inputs_ahead _ _ (ba_in _ _ _ _ (ib_base _ _ _ _ _ _ _ HB))). pose proof (len_nonneg (r_bits s)). destruct c0; lia.
Qed.

(** ** Stored blocks *)

Lemma ReadFull_spec fuel (r : S) buf :
  (100 * length (dataOf r) + 100 < fuel)%nat ->
  ReadFull fuel r buf ⇓ fun '(buf', n, err, r') => let data := dataOf r in
    len buf' = len buf /\ finalOf r' = finalOf r /\ n = Z.min (len buf) (len data) /\ take (Z.to_nat n) buf' = take (Z.to_nat n) data /\
    dataOf r' = drop (Z.to_nat n) data /\ (if len buf <=? len data then err = None else err <> None).
Proof.
  intros Hfuel. unfold ReadFull, ReadAtLeast. rewrite Z.ltb_irrefl. pose proof (len_nonneg buf).
  apply (loop_returns (fun '(b1, n, err, r1) => 0 <= n <= len buf /\ n <= len (dataOf r) /\ len b1 = len buf /\ finalOf r1 = finalOf r /\
     take (Z.to_nat n) b1 = take (Z.to_nat n) (dataOf r) /\ dataOf r1 = drop (Z.to_nat n) (dataOf r) /\
     (err = None \/ (err = Some (finalOf r) /\ dataOf r1 = [])))
     (fun '(_, _, err, r1) => match err with None => 100 * len (dataOf r1) + stallOf r1 + 1 | Some _ => 0 end)).
  - intros [[[b1 n] err] r1] (Hn & Hnd & Hl & Hf & Ht & Hd & He). destruct (Z.ltb_spec n (len buf)) as [L|L]; cbn [andb].
    + destruct He as [->|[-> Hnil]].
      * rewrite bool_decide_eq_true_2 by done. rewrite slice_from_Ok by lia. cbn [rbind].
        assert (Hlp : len (drop (Z.to_nat n) b1) = len buf - n) by (rewrite len_dropZ; lia).
        destruct (doRead_spec r1 (drop (Z.to_nat n) b1)) as (chunk & rest & err & r2 & -> & Hlen & Hdata & Hf2 & Herr & Hst).
        { intros E. rewrite E in Hlp. change (len (@nil Z)) with 0 in Hlp. lia. }
        cbn [returns]. pose proof (len_nonneg chunk). rewrite len_app in Hlen. pose proof (len_nonneg rest). pose proof (len_nonneg (dataOf r2)).
        assert (Hlt : len (take (Z.to_nat n) b1) = n) by (apply len_takeZ; lia).
        assert (Hsplit : dataOf r = take (Z.to_nat n) (dataOf r) ++ chunk ++ dataOf r2) by (rewrite <- Hdata, Hd; by rewrite take_drop).
        assert (Hltd : len (take (Z.to_nat n) (dataOf r)) = n) by (apply len_takeZ; lia).
        assert (Hlr : len (dataOf r) = n + len chunk + len (dataOf r2)) by (rewrite Hsplit at 1; rewrite !len_app; lia).
        split.
        -- split; [lia|]. split; [lia|]. split; [rewrite !len_app; lia|]. split; [congruence|]. split; [|split].
           ++ rewrite (assoc_L app (take _ _) chunk rest), take_app_Z by (rewrite len_app; lia). rewrite Ht.
              remember (take (Z.to_nat n) (dataOf r)) as X. rewrite Hsplit, (assoc_L app X chunk). by rewrite take_app_Z by (rewrite len_app; lia).
           ++ remember (take (Z.to_nat n) (dataOf r)) as X. rewrite Hsplit, (assoc_L app X chunk). by rewrite drop_app_Z by (rewrite len_app; lia).
           ++ destruct Herr as [->|[-> ?]]; [by left | right; by rewrite Hf].
        -- pose proof (stallOf_range r1). pose proof (stallOf_range r2). pose proof (len_nonneg (dataOf r1)).
           assert (len (dataOf r1) = len chunk + len (dataOf r2)) by (rewrite Hdata, len_app; done).
           destruct err; [lia|]. destruct chunk as [|c chunk]; [specialize (Hst eq_refl eq_refl); lia|]. rewrite len_cons in *. pose proof (len_nonneg chunk). lia.
      * rewrite bool_decide_eq_false_2 by done. destruct (Z.geb_spec n (len buf)); [lia|]. cbn [returns].
        assert (Hlr : len (dataOf r) = n).
        { assert (E : len (drop (Z.to_nat n) (dataOf r)) = len (dataOf r) - n) by (apply len_dropZ; lia). rewrite <- Hd, Hnil in E. change (len (@nil Z)) with 0 in E. lia. }
        split_and!; try done; [lia|]. destruct (Z.leb_spec (len buf) (len (dataOf r))); [lia|]. by destruct (_ && _).
    + destruct (Z.geb_spec n (len buf)); [|lia]. cbn [returns]. split_and!; try done; [lia|]. destruct (Z.leb_spec (len buf) (len (dataOf r))); [done | lia].
  - split; [lia|]. split; [apply len_nonneg|]. change (Z.to_nat 0) with 0%nat. rewrite !take_0, drop_0. split_and!; try done. by left.
  - pose proof (stallOf_range r). unfold len. lia.
  - pose proof (stallOf_range r). pose proof (len_nonneg (dataOf r)). lia.
Qed.

Lemma byteBits_cons x l : byteBits (x :: l) = bitsL 8 x ++ byteBits l.
Proof. unfold byteBits. by rewrite bytesBits_cons. Qed.

Lemma len_byteBits l : len (byteBits l) = 8 * len l.
Proof. unfold byteBits, len. rewrite bytesBits_length. lia. Qed.

Lemma takeBits_byte x l : 0 <= x < 256 -> takeBits 8 (byteBits (x :: l)) = Some (x, byteBits l).
Proof.
  intros Hx. unfold takeBits. rewrite len_byteBits, len_cons. pose proof (len_nonneg l). destruct (Z.leb_spec 8 (8 * (1 + len l))); [|lia].
  rewrite byteBits_cons. unfold numBits. change (Z.to_nat 8) with 8%nat. rewrite take_app_length' by (by rewrite bitsL_length).
  rewrite drop_app_length' by (by rewrite bitsL_length). by rewrite valL_bitsL by (change (2 ^ Z.of_nat 8) with 256; lia).
Qed.

(** Stored bytes, one by one. *)
Lemma stored_steps (k : nat) data W final n :
  bytes_ok data -> (k <= length data)%nat -> Z.of_nat k <= n ->
  reaches (mkRef (byteBits data) W final (RStored n)) (mkRef (byteBits (drop k data)) (W ++ take k data) final (RStored (n - Z.of_nat k))).
Proof.
  revert data W n. induction k as [|k IH]; intros data W n Hok Hk Hn.
  { rewrite drop_0, take_0, app_nil_r, Z.sub_0_r. apply rtc_refl. }
  destruct data as [|x data]; [cbn in Hk; lia|]. apply Forall_cons in Hok as [Hx Hok]. unfold byte_ok in Hx. eapply rtc_l.
  - unfold stepsTo, refStep. cbn [r_mode r_bits r_out r_final]. destruct (Z.eqb_spec n 0); [lia|]. rewrite takeBits_byte by done. reflexivity.
  - cbn [drop take]. change (x :: take k data) with ([x] ++ take k data). rewrite (assoc_L app W [x]). replace (n - Z.of_nat (Datatypes.S k)) with (n - 1 - Z.of_nat k) by lia. apply IH; [done | cbn in Hk; lia | lia].
Qed.

(** What is left to do. *)
Definition work (s : rstate) : Z := 2 * len (r_bits s) + match r_mode s with RStored _ => 1 | _ => 0 end.

Definition advances (D : list Z) (s : rstate) f' : Prop :=
  exists s', reaches s s' /\ (stopped D f' s' \/ (running D f' s' /\ (d_toRead f' <> [] \/ work s' < work s))).

Lemma goesOn_advances D s f' : goesOn D s f' -> advances D s f'.
Proof.
  intros (s' & H & [?|[? [?|?]]]); exists s'; (split; [done|]); [by left | right; split; [done | by left] | right; split; [done | right]].
  unfold work. destruct (r_mode s'), (r_mode s); lia.
Qed.

Lemma advances_before D s s' f : reaches s s' -> work s' <= work s -> advances D s' f -> advances D s f.
Proof.
  intros H Hl (s2 & H2 & Hc). exists s2. split; [by etrans|]. destruct Hc as [?|[? [?|?]]]; [by left | right; split; [done | by left] | right; split; [done | right; lia]].
Qed.

(** The window after reading into it, possibly not all that was asked for. *)
Definition readInto (d : dictDecoder) (buf : list Z) (cnt : Z) : dictDecoder :=
  mkDict (take (Z.to_nat (wrPos d)) (hist d) ++ buf ++ drop (Z.to_nat (wrPos d) + length buf) (hist d)) (wrPos d + cnt) (rdPos d) (full d).

Lemma readInto_all d buf : readInto d buf (len buf) = written_ d buf \/ wrPos d < 0.
Proof.
  destruct (Z.lt_ge_cases (wrPos d) 0); [by right | left]. unfold readInto, written_. pose proof (len_nonneg buf).
  do 4 f_equal. unfold len. lia.
Qed.

Lemma readInto_part d W buf cnt :
  window d W -> len buf <= availWrite d -> 0 <= cnt <= len buf ->
  flushable (readInto d buf cnt) /\ unread (readInto d buf cnt) = unread d ++ take (Z.to_nat cnt) buf.
Proof.
  intros [H1 H2 H3 _] Hb Hc. unfold availWrite in Hb. assert (Ht : len (take (Z.to_nat (wrPos d)) (hist d)) = wrPos d) by (apply len_takeZ; lia).
  split.
  - split; cbn [readInto rdPos wrPos hist]; [lia|]. rewrite !len_app, Ht. pose proof (len_nonneg (drop (Z.to_nat (wrPos d) + length buf) (hist d))). lia.
  - unfold unread. cbn [readInto rdPos wrPos hist]. rewrite take_app_ge by (unfold len in *; lia).
    rewrite drop_app_le by (unfold len in *; lia). f_equal. rewrite take_app_le by (unfold len in *; lia). f_equal. unfold len in *. lia.
Qed.

Lemma nb_zero_bits f B : inputs f B -> d_nb f = 0 -> B = byteBits (dataOf (d_r f)).
Proof. intros [_ _ ->] ->. done. Qed.

Lemma copyData_spec D fuel f s W :
  base D f (r_bits s) W -> room f -> d_toRead f = [] -> d_nb f = 0 -> r_mode s = RStored (copyLen f) -> d_final f = r_final s -> r_out s = W ->
  0 <= copyLen f -> (stepState f = stateDict -> distOK f W) -> (100 * length (dataOf (d_r f)) + 100 < fuel)%nat ->
  copyData fuel f ⇓ advances D s.
Proof.
  intros Hb Hr Ht Hnb Hmode Hf Hout Hcl Hdist Hfuel. pose proof Hb as [H1 H2 H3 H4 H5 H6 H7 H8]. unfold room in Hr. pose proof (wi_len _ _ H3) as Hlh.
  unfold availWrite in Hr. pose proof (wi_pos _ _ H3).
  unfold copyData, writeSlice. rewrite slice_from_Ok by lia. cbn [rbind]. set (room0 := drop (Z.to_nat (wrPos (d_dict f))) (hist (d_dict f))).
  assert (Hroom0 : len room0 = availWrite (d_dict f)) by (unfold room0, availWrite; rewrite len_dropZ; lia).
  set (k := Z.min (availWrite (d_dict f)) (copyLen f)).
  apply (returns_bind_mono _ _ (fun buf => len buf = k)).
  { destruct (Z.gtb_spec (len room0) (copyLen f)); [rewrite slice_Ok by lia; cbn [returns]; rewrite len_takeZ; [lia|]; rewrite len_dropZ; lia | cbn [returns]; lia]. }
  intros buf Hbuf. eapply returns_bind_mono; [by apply (ReadFull_spec fuel (d_r f) buf)|]. intros [[[buf' cnt] err] r'] (Hlb & Hfin & -> & Htake & Hdata & Herr).
  fold (readInto (d_dict f) buf' (Z.min (len buf) (len (dataOf (d_r f))))) in *. set (data := dataOf (d_r f)) in *. set (cnt := Z.min (len buf) (len data)) in *.
  unfold writeMark. cbn [hist wrPos rdPos full].
  change (mkDict _ (wrPos (d_dict f) + cnt) (rdPos (d_dict f)) (full (d_dict f))) with (readInto (d_dict f) buf' cnt). set (dd := readInto (d_dict f) buf' cnt).
  pose proof (len_nonneg data). pose proof (len_nonneg buf). assert (Hcnt : 0 <= cnt <= len buf) by lia. assert (Havail : len buf' <= availWrite (d_dict f)) by lia.
  destruct (readInto_part (d_dict f) W buf' cnt H3 Havail ltac:(lia)) as [Hflush Hun]. fold dd in Hflush, Hun. rewrite Htake in Hun.
  set (l := take (Z.to_nat cnt) data) in *. assert (Hl : len l = cnt) by (apply len_takeZ; lia).
  pose proof (nb_zero_bits f _ H2 Hnb) as HB. fold data in HB.
  assert (Hreach : reaches s (mkRef (byteBits (drop (Z.to_nat cnt) data)) (W ++ l) (r_final s) (RStored (copyLen f - cnt)))).
  { pose proof (stored_steps (Z.to_nat cnt) data W (r_final s) (copyLen f) (dataOf_ok (d_r f)) ltac:(unfold len in *; lia) ltac:(lia)) as Hss.
    rewrite Z2Nat.id in Hss by lia. replace s with (mkRef (byteBits data) W (r_final s) (RStored (copyLen f))); [exact Hss|].
    destruct s as [rb ro rf rm]. cbn in *. by subst. }
  set (f1 := setCopy (setOut (setIn f r' (roffset f + cnt) (d_b f) (d_nb f)) dd (d_toRead f)) (copyLen f - cnt) (copyDist f)).
  destruct err as [e|].
  { destruct (Z.leb_spec (len buf) (len data)) as [G|G]; [done|]. cbn [returns]. eexists. split; [exact Hreach|]. left. cbn [r_out].
    split; [done|]. cbn [setFlateErr setCopy setOut setIn d_toRead d_dict d_err f1]. rewrite Ht, Hun. split; [by left|]. split; [by rewrite H4, Ht, <- (assoc_L app)|].
    right. eexists. split; [done|]. split; [apply noEOF_not|]. apply stuck_malformed; [|done]. unfold refStep. cbn [r_mode r_bits].
    destruct (Z.eqb_spec (copyLen f - cnt) 0); [lia|]. rewrite drop_ge by (unfold len in *; lia). done. }
  destruct (Z.leb_spec (len buf) (len data)) as [G|G]; [|done]. clear Herr.
  assert (Hck : cnt = k) by lia. assert (Hdd : dd = written_ (d_dict f) l).
  { assert (Hb' : buf' = l) by (rewrite <- Htake; symmetry; apply take_ge; unfold len in *; lia). unfold dd. rewrite Hb', <- Hl.
    destruct (readInto_all (d_dict f) l) as [->|]; [done | lia]. }
  destruct (window_written (d_dict f) W l H3 ltac:(lia)) as [Hw _]. rewrite <- Hdd in Hw.
  set (s1 := mkRef (byteBits (drop (Z.to_nat cnt) data)) (W ++ l) (r_final s) (RStored (copyLen f - cnt))) in *.
  assert (Hin1 : inputs f1 (r_bits s1)).
  { constructor; cbn [f1 setCopy setOut setIn d_nb d_b d_r]; [lia | apply H2|]. rewrite Hnb, Hdata. done. }
  assert (Hb1 : base D f1 (r_bits s1) (W ++ l)).
  { constructor; try done. cbn [f1 setCopy setOut setIn d_toRead d_dict]. rewrite Hun, H4, Ht. cbn [app]. by rewrite (assoc_L app). }
  assert (Hd1 : stepState f1 = stateDict -> distOK f1 (W ++ l)).
  { intros E. destruct (Hdist E) as [? ?]. split; [rewrite len_app; cbn [f1 setCopy copyDist]; lia | done]. }
  assert (Hav : availWrite dd = availWrite (d_dict f) - cnt).
  { unfold availWrite. rewrite (wi_len _ _ Hw), Hlh. unfold dd. cbn [readInto wrPos]. lia. }
  assert (Hwork : work s1 <= work s).
  { unfold work. rewrite Hmode, HB. cbn [s1 r_mode r_bits]. rewrite !len_byteBits, len_dropZ by lia. lia. }
  change (d_dict f1) with dd. change (copyLen f1) with (copyLen f - cnt). rewrite Hav.
  destruct ((availWrite (d_dict f) - cnt =? 0) || (copyLen f - cnt >? 0)) eqn:Ec.
  - eapply returns_bind_mono; [apply (flushOut_spec D f1 _ _ Hb1); done|]. intros f2 ((dd2 & -> & Hu2) & Hb2 & Hr2). cbn [returns].
    exists s1. split; [done|]. right. split.
    + exists (W ++ l). split; [by apply base_setStep|]. split; [done|]. cbn [setStep setOut d_step]. split_and!; try done. cbn [f1 setCopy copyLen setStep setOut]. lia.
    + left. cbn [setStep setOut d_toRead]. change (d_dict f1) with dd. rewrite Hun.
      assert (0 < cnt) by (unfold availWrite in *; apply orb_true_iff in Ec as [E|E]; [apply Z.eqb_eq in E; lia | apply Z.gtb_gt in E; lia]).
      intros E. apply app_eq_nil in E as [_ E]. rewrite E in Hl. change (len (@nil Z)) with 0 in Hl. lia.
  - apply orb_false_iff in Ec as [E1 E2]. apply Z.eqb_neq in E1. assert (E3 : copyLen f - cnt = 0) by (destruct (Z.gtb_spec (copyLen f - cnt) 0); [done | lia]).
    eapply returns_mono; [apply (finishBlock_spec D f1 _ _ Hb1)|].
    + unfold room. change (d_dict f1) with dd. unfold availWrite in *. lia.
    + by left.
    + cbn [f1 setCopy setOut setIn d_nb]. lia.
    + done.
    + intros f' H'. change (d_final f1) with (d_final f) in H'. rewrite Hf in H'. exists (endBlock (r_bits s1) (W ++ l) (r_final s)). split.
      * eapply reaches_step; [exact Hreach|]. unfold refStep. cbn [s1 r_mode r_bits r_out r_final]. rewrite E3. done.
      * destruct H' as [H'|H']; [by left | right]. split; [done|]. right. unfold work in *. rewrite Hmode in Hwork |- *. cbn [s1 r_mode r_bits] in Hwork |- *.
        unfold endBlock. cbn [r_bits r_mode]. destruct (r_final s); lia.
Qed.

Lemma takeBits_word x y l : 0 <= x < 256 -> 0 <= y < 256 -> takeBits 16 (byteBits (x :: y :: l)) = Some (x + 256 * y, byteBits l).
Proof.
  intros Hx Hy. unfold takeBits. rewrite len_byteBits, !len_cons. pose proof (len_nonneg l). destruct (Z.leb_spec 16 (8 * (1 + (1 + len l)))); [|lia].
  rewrite !byteBits_cons. unfold numBits. change (Z.to_nat 16) with 16%nat. rewrite (assoc_L app).
  rewrite take_app_length', drop_app_length' by (rewrite length_app, !bitsL_length; done).
  rewrite valL_app, bitsL_length, !valL_bitsL by (change (2 ^ Z.of_nat 8) with 256; lia). done.
Qed.

Lemma word_value x y : 0 <= x < 256 -> 0 <= y < 256 -> Z.lor x (Z.shiftl y 8) = x + 256 * y.
Proof. intros Hx Hy. rewrite shiftl_mul, Z.lor_comm by lia. rewrite lor_disjoint_mul by (change (2 ^ 8) with 256; lia). change (2 ^ 8) with 256. lia. Qed.

Lemma complement_check n nn : 0 <= n < 65536 -> 0 <= nn < 65536 -> (u16 nn =? u16 (Z.lnot n)) = (nn =? 65535 - n).
Proof.
  intros Hn Hnn. rewrite u16_id by (change (2 ^ 16) with 65536; lia). f_equal. unfold u16, Z.lnot.
  replace (Z.pred (- n)) with (65535 - n + (-1) * 2 ^ 16) by (change (2 ^ 16) with 65536; lia). rewrite Z.mod_add by lia.
  apply Z.mod_small. change (2 ^ 16) with 65536. lia.
Qed.

(** The bits up to the end of the byte. *)
Lemma inputs_align f B : inputs f B -> d_nb f < 8 -> drop (length B mod 8) B = byteBits (dataOf (d_r f)).
Proof.
  intros Hi Hnb. pose proof (inputs_length f B Hi) as Hl. pose proof Hi as [H1 _ HB].
  replace (length B mod 8)%nat with (Z.to_nat (d_nb f)).
  - rewrite HB. apply drop_app_length'. by rewrite bitsL_length.
  - rewrite Hl, (Nat.mul_comm 8), Nat.Div0.mod_add, Nat.mod_small; [done | lia].
Qed.

Lemma dataBlock_spec D fuel f s B W :
  base D f B W -> room f -> d_toRead f = [] -> d_nb f < 8 -> settled f W -> r_out s = W -> r_mode s = RHeader ->
  refStep s = storedHeader B W (d_final f) -> len B < len (r_bits s) -> (100 * length (dataOf (d_r f)) + 100 < fuel)%nat ->
  dataBlock fuel f ⇓ advances D s.
Proof.
  intros Hb Hr Ht Hnb Hset Hout Hmode Hstep HlB Hfuel. pose proof Hb as [H1 H2 H3 H4 H5 H6 H7 H8]. pose proof (inputs_align f B H2 Hnb) as Hal.
  unfold storedHeader in Hstep. rewrite Hal in Hstep. unfold dataBlock. cbn [setIn d_r]. set (data := dataOf (d_r f)) in *.
  eapply returns_bind_mono; [by apply (ReadFull_spec fuel (d_r f))|]. intros [[[buf cnt] err] r'] (Hlb & Hfin & -> & Htake & Hdata & Herr).
  fold data in Htake, Hdata, Herr |- *. change (len (replicate 4 0)) with 4 in *. pose proof (dataOf_ok (d_r f)) as Hok. fold data in Hok.
  assert (Hbad : forall f' e, sameOut f f' -> e <> IoError Bufio.EOF -> refStep s = None -> advances D s (setFlateErr f' (Some e))).
  { intros f' e Hs He Hn. apply goesOn_advances. eapply goesOn_error; try done. apply stuck_malformed; [done | by rewrite Hmode]. }
  destruct (Z.leb_spec 4 (len data)) as [L|L].
  2: { destruct err as [e|]; [|done]. cbn [returns]. apply Hbad; [done | apply noEOF_not|]. rewrite Hstep.
       destruct data as [|b0 [|b1 data']]; [done | done|]. apply Forall_cons in Hok as [Hb0 Hok]. apply Forall_cons in Hok as [Hb1 _]. rewrite takeBits_word by done. cbn [mbind option_bind].
       unfold takeBits. rewrite len_byteBits. rewrite !len_cons in L. destruct (Z.leb_spec 16 (8 * len data')); [lia | done]. }
  subst err. destruct data as [|b0 [|b1 [|b2 [|b3 rest]]]] eqn:Edata; try (exfalso; unfold len in L; cbn in L; lia).
  apply Forall_cons in Hok as [Hb0 Hok]. apply Forall_cons in Hok as [Hb1 Hok]. apply Forall_cons in Hok as [Hb2 Hok]. apply Forall_cons in Hok as [Hb3 Hok].
  unfold byte_ok in *. rewrite takeBits_word in Hstep by done. cbn [mbind option_bind] in Hstep. rewrite takeBits_word in Hstep by done. cbn [mbind option_bind] in Hstep.
  rewrite Z.min_l in * by lia. change (Z.to_nat 4) with 4%nat in *. cbn [take drop] in Htake, Hdata.
  assert (buf = [b0; b1; b2; b3]) as -> by (transitivity (take 4 buf); [symmetry; apply take_ge; unfold len in Hlb; lia | by rewrite Htake, take_0]).
  change (idx [b0; b1; b2; b3] 0) with (Ok b0). change (idx [b0; b1; b2; b3] 1) with (Ok b1). change (idx [b0; b1; b2; b3] 2) with (Ok b2). change (idx [b0; b1; b2; b3] 3) with (Ok b3).
  cbn [rbind]. rewrite !word_value by done. set (n := b0 + 256 * b1) in *. set (nn := b2 + 256 * b3) in *.
  rewrite complement_check by (unfold n, nn; lia). destruct (Z.eqb_spec nn (65535 - n)) as [En|En]; cbn [negb].
  2: { cbn [returns]. by apply Hbad. }
  set (f1 := setIn (setIn f (d_r f) (roffset f) 0 0) r' (roffset f + 4) 0 0).
  change (setIn (setIn f (d_r f) (roffset f) 0 0) r' (roffset (setIn f (d_r f) (roffset f) 0 0) + 4) (d_b (setIn f (d_r f) (roffset f) 0 0)) (d_nb (setIn f (d_r f) (roffset f) 0 0))) with f1.
  set (s1 := mkRef (byteBits rest) W (d_final f) (RStored n)) in *.
  assert (Hin1 : inputs f1 (byteBits rest)) by (constructor; cbn [f1 setIn d_nb d_b d_r]; [lia | cbn; lia | by rewrite Hdata]).
  assert (Hb1' : base D f1 (r_bits s1) W) by (constructor; done).
  assert (Hreach : reaches s s1) by (by apply rtc_once).
  assert (HlB1 : len (r_bits s1) < len (r_bits s)).
  { pose proof (inputs_length f B H2) as Hl. unfold s1. cbn [r_bits]. rewrite len_byteBits. fold data in Hl. rewrite Edata in Hl. cbn [length] in Hl. unfold len in *. lia. }
  assert (Hwork : work s1 <= work s) by (unfold work; rewrite Hmode; cbn [s1 r_mode]; lia).
  assert (Hfuel1 : (100 * length (dataOf r') + 100 < fuel)%nat) by (rewrite Hdata, drop_0; cbn [length] in Hfuel; lia).
  destruct (Z.eqb_spec n 0) as [E0|E0].
  - eapply returns_bind_mono; [apply (flushOut_spec D f1 _ _ Hb1'); done|]. intros f2 ((dd & -> & Hu) & Hb2' & Hr2).
    eapply returns_mono; [apply (finishBlock_spec D _ _ _ Hb2' Hr2)|].
    + by right.
    + cbn. lia.
    + done.
    + intros f' H'. change (d_final (setOut f1 dd (unread (d_dict f1)))) with (d_final f) in H'. exists (endBlock (r_bits s1) W (d_final f)). split.
      * eapply reaches_step; [exact Hreach|]. unfold refStep. cbn [s1 r_mode r_bits r_out r_final]. rewrite E0. done.
      * destruct H' as [H'|H']; [by left | right]. split; [done|]. right. unfold work. rewrite Hmode. unfold endBlock. cbn [r_bits r_mode]. destruct (d_final f); lia.
  - eapply returns_mono; [apply (copyData_spec D fuel (setCopy f1 n (copyDist f1)) s1 W)|].
    + by apply base_setCopy.
    + done.
    + done.
    + done.
    + done.
    + done.
    + done.
    + cbn [setCopy copyLen]. unfold n. lia.
    + apply Hset.
    + done.
    + intros f' H'. by eapply advances_before.
Qed.

(** ** Block headers *)

Lemma refHeader_bits B W :
  refHeader B W =
    if 3 <=? len B then
      let final := numBits 1 B =? 1 in
      let typ := numBits 2 (drop 1 B) in
      if typ =? 0 then storedHeader (drop 3 B) W final
      else if typ =? 1 then Some (mkRef (drop 3 B) W final (RCodes fixedLengths fixedDists))
      else if typ =? 2 then '(ll, dl, B) ← dynamicTrees (drop 3 B); Some (mkRef B W final (RCodes ll dl))
      else None
    else None.
Proof.
  unfold refHeader, takeBits. destruct (Z.leb_spec 3 (len B)) as [L|L].
  - destruct (Z.leb_spec 1 (len B)); [|lia]. cbn [mbind option_bind]. change (Z.to_nat 1) with 1%nat. change (Z.to_nat 2) with 2%nat.
    destruct (Z.leb_spec 2 (len (drop 1 B))) as [G|G]; [|unfold len in *; rewrite length_drop in G; lia]. cbn [mbind option_bind]. by rewrite drop_drop.
  - destruct (Z.leb_spec 1 (len B)); [|done]. cbn [mbind option_bind].
    destruct (Z.leb_spec 2 (len (drop (Z.to_nat 1) B))) as [G|G]; [|done]. unfold len in *. rewrite length_drop in G. lia.
Qed.

Lemma fixed_litTree : litTree fixedLengths fixedHuffmanDecoder.
Proof.
  assert (Hok : lens_ok fixedLengths) by (unfold fixedLengths; repeat apply Forall_app_2; apply Forall_replicate; lia).
  assert (Hv : validLens fixedLengths = true) by (vm_compute; reflexivity).
  pose proof (huff_init_spec zeroHuff fixedLengths Hok eq_refl (fun _ => eq_refl)) as H. unfold fixedHuffmanDecoder.
  destruct (huff_init zeroHuff fixedLengths) as [[ok h]| |]; [|destruct H..]. destruct H as (-> & _ & H). destruct (H Hv) as [Hd Hl].
  constructor; [exact Hok | exact Hv | exact Hd|]. intros n Hn. exact (Hl 256 n Hn).
Qed.

#[local] Opaque fixedHuffmanDecoder fixedLengths.

(** The codes of a block, wherever the state says to start. *)
Lemma startBlock_spec D fuel f s B W ll dl :
  base D f B W -> room f -> d_toRead f = [] -> settled f W -> treesOK f ll dl ->
  reaches s (mkRef B W (d_final f) (RCodes ll dl)) -> len B < len (r_bits s) -> (2 * length B + 1 < fuel)%nat ->
  huffmanBlock fuel f ⇓ advances D s.
Proof.
  intros Hb Hr Ht [Hc Hd] Htr Hreach Hlen Hfuel. eapply returns_mono.
  - apply (huffmanBlock_spec D ll dl fuel f (mkRef B W (d_final f) (RCodes ll dl)) W); [|done].
    constructor; try done. cbn [r_out]. destruct (stepState f) eqn:E; [split; [done|]; split; [done|]; rewrite E; done|]. rewrite Hc. split; [lia|]. split; [by apply Hd | done].
  - intros f' H. eapply goesOn_advances, goesOn_before; [exact Hreach | cbn; lia | exact H].
Qed.

Definition fuelFor (fuel : nat) (B : list bool) : Prop := (13 * length B + 100 < fuel)%nat.

Lemma fuelFor_data fuel f B : inputs f B -> fuelFor fuel B -> (100 * length (dataOf (d_r f)) + 100 < fuel)%nat.
Proof. intros Hi Hf. pose proof (inputs_length f B Hi). unfold fuelFor in Hf. lia. Qed.

Lemma fuelFor_le fuel B B' : fuelFor fuel B -> len B' <= len B -> fuelFor fuel B'.
Proof. unfold fuelFor, len. lia. Qed.

Lemma dynamicTrees_length B ll dl B' : dynamicTrees B = Some (ll, dl, B') -> len B' <= len B.
Proof.
  assert (Hcl : forall n order cb B R B', clensFrom order cb n B = Some (R, B') -> len B' <= len B).
  { induction n as [|n IH]; intros order cb B0 R B0' H; cbn [clensFrom] in H; [by injection H as _ <-|]. destruct order as [|o order]; [done|].
    destruct (takeBits 3 B0) as [[x B1]|] eqn:E; [|done]. cbn [mbind option_bind] in H. apply IH in H. apply takeBits_length in E; lia. }
  assert (Hlen : forall fuel cl n L B L' B', codeLens fuel cl n L B = Some (L', B') -> len B' <= len B).
  { induction fuel as [|fuel IH]; intros cl n L B0 L' B0' H; cbn [codeLens] in H; (destruct (n <=? len L); [by injection H as _ <-|]); [done|].
    destruct (symbol cl B0) as [[x B1]|] eqn:E; [|done]. cbn [mbind option_bind] in H. apply symbol_length in E as (? & _ & ? & ?).
    destruct (x <? 16); [apply IH in H; lia|].
    assert (Ha : forall bs nb b, 0 <= nb -> ('(k, B) ← takeBits nb B1; if len L + (bs + k) <=? n then codeLens fuel cl n (L ++ replicate (Z.to_nat (bs + k)) b) B else None) = Some (L', B0') -> len B0' <= len B1).
    { intros bs nb b Hnb Hx. destruct (takeBits nb B1) as [[k B2]|] eqn:E2; [|done]. cbn [mbind option_bind] in Hx. apply takeBits_length in E2; [|done].
      destruct (_ <=? n); [|done]. apply IH in Hx. lia. }
    assert (len B0' <= len B1); [|lia].
    destruct (x =? 16); [destruct (L !! _) as [b|]; [|done]; by apply Ha in H|]. destruct (x =? 17); by apply Ha in H. }
  intros H. rewrite header_bits in H. destruct (Z.leb_spec 14 (len B)); [|done]. cbv zeta in H. destruct (_ || _); [done|].
  destruct (clens _ _) as [[cl B3]|] eqn:E3; [|done]. cbn [mbind option_bind] in H. apply Hcl in E3. destruct (negb _); [done|].
  destruct (codeLens _ _ _ _ _) as [[L B4]|] eqn:E4; [|done]. cbn [mbind option_bind] in H. apply Hlen in E4. destruct (_ && _); [|done]. injection H as _ _ <-.
  unfold len in *. rewrite length_drop in *. lia.
Qed.

Lemma nextBlock_spec D fuel f s W :
  base D f (r_bits s) W -> room f -> d_toRead f = [] -> d_nb f < 8 -> r_mode s = RHeader -> r_out s = W -> settled f W -> fuelFor fuel (r_bits s) ->
  nextBlock fuel f ⇓ advances D s.
Proof.
  intros Hb Hr Ht Hnb Hmode Hout Hset Hfuel. set (B := r_bits s) in *. pose proof (ba_in _ _ _ _ Hb) as Hin.
  assert (Hstep : refStep s = refHeader B W) by (unfold refStep; by rewrite Hmode, Hout). rewrite refHeader_bits in Hstep.
  assert (Hbad : forall f' e, sameOut f f' -> e <> IoError Bufio.EOF -> refStep s = None -> advances D s (setFlateErr f' (Some e))).
  { intros f' e Hs He Hn. apply goesOn_advances. eapply goesOn_error; try done. apply stuck_malformed; [done | by rewrite Hmode]. }
  unfold nextBlock. change (1 + 2) with 3. eapply returns_bind_mono; [apply (needBits_spec f B 3 Hin); lia|]. intros [err f1] [Hm Hc].
  pose proof (moved_sameOut _ _ _ _ Hm) as Hs1. destruct (Z.leb_spec 3 (len B)) as [L|L].
  2: { subst err. cbn [returns]. apply Hbad; [done | apply noEOF_not | done]. }
  destruct Hc as [-> Hnb1]. pose proof (moved_inputs _ _ _ _ Hm) as Hi1. pose proof (moved_nb _ _ _ _ Hm) as Hnb1'. cbv zeta. cbv zeta in Hstep.
  rewrite Z.shiftr_shiftr by lia. change (1 + 2) with 3. rewrite !shiftr_div by lia. rewrite (land_ones' (d_b f1) 1 1), (land_ones' (d_b f1 / 2 ^ 1) 2 3) by lia.
  rewrite (numBits_low f1 B 1 Hi1) by lia. rewrite (shifted_bits f1 B 1 2 Hi1) by lia. change (Z.to_nat 1) with 1%nat.
  set (final := numBits 1 B =? 1) in *. set (typ := numBits 2 (drop 1 B)) in *.
  set (f2 := setIn f1 (d_r f1) (roffset f1) (d_b f1 / 2 ^ 3) (d_nb f1 - 3)).
  assert (Hm2 : moved f (drop 3 B) 7 f2).
  { pose proof (dropBits_moved f1 B 3 Hi1 ltac:(lia)) as Hd. unfold dropBits in Hd. rewrite shiftr_div in Hd by lia.
    eapply moved_le; [exact (moved_trans _ _ _ _ _ _ _ Hm Hd)|]. lia. }
  pose proof (base_moved _ _ _ _ _ _ _ Hb Hm2) as Hb2. pose proof (moved_nb _ _ _ _ Hm2) as Hnb2. pose proof (moved_sameOut _ _ _ _ Hm2) as Hs2.
  assert (HlB : len (drop 3 B) < len B) by (unfold len in *; rewrite length_drop; lia).
  assert (Hset2 : settled f2 W) by (by destruct Hm2 as ((? & ? & ? & ? & ->) & _)).
  assert (Hbk : forall fx Bx hl hd, base D fx Bx W -> base D (setBlock fx final hl hd) Bx W) by (intros fx Bx hl hd [? Hi ? ? ? ? ? ?]; constructor; try done; by destruct Hi; constructor).
  assert (Hroom2 : room f2) by (unfold room; destruct Hs2 as [E _]; by rewrite E).
  assert (Htr2 : d_toRead f2 = []) by (destruct Hs2 as [_ E]; congruence).
  destruct (typ =? 0).
  { apply (dataBlock_spec D fuel _ s (drop 3 B) W); try done; [by apply Hbk | cbn; lia|].
    apply (fuelFor_data fuel f2 (drop 3 B)); [apply (ba_in _ _ _ _ Hb2) | eapply fuelFor_le; [done | lia]]. }
  destruct (typ =? 1).
  { cbn [setBlock]. change (d_hl (setBlock f2 final (d_hl f2) (d_hd f2))) with (d_hl f2).
    apply (startBlock_spec D fuel (setBlock (setBlock f2 final (d_hl f2) (d_hd f2)) final hFixed hNil) s (drop 3 B) W fixedLengths fixedDists); try done.
    - by apply Hbk, Hbk.
    - constructor; [|done]. exists fixedHuffmanDecoder. split; [done|]. split; [apply fixed_litTree|]. pose proof (de_range _ _ (lt_decodes _ _ fixed_litTree)). cbn [setBlock d_nb]. lia.
    - by apply rtc_once.
    - unfold fuelFor in Hfuel. rewrite length_drop. lia. }
  destruct (typ =? 2).
  2: { cbn [returns]. by apply Hbad. }
  set (f3 := setBlock f2 final (d_hl f2) (d_hd f2)). pose proof (Hbk f2 (drop 3 B) (d_hl f2) (d_hd f2) Hb2) as Hb3. fold f3 in Hb3. pose proof Hb3 as [B1 B2 B3 B4 B5 B6 B7 B8].
  eapply returns_bind_mono; [apply (readHuffman_spec f3 (drop 3 B)); try done; cbn; lia|]. intros [err f4] H4.
  destruct (dynamicTrees (drop 3 B)) as [[[ll dl] B']|] eqn:Ed; cbn [mbind option_bind] in Hstep.
  2: { destruct H4 as [(e & -> & He) Hs]. cbn [returns]. apply Hbad; [eapply sameOut_trans; [exact Hs2 | exact Hs] | done..]. }
  apply dynamicTrees_length in Ed.
  destruct H4 as (-> & ((r & off & b & nb & t1 & t2 & bits & cb & ->) & _ & Hi4 & Hnb4 & Hl4 & Hcb4 & Hc1 & Hc2) & Hlt & Hdt).
  apply (startBlock_spec D fuel _ s B' W ll dl); try done.
  - constructor; try done. by destruct Hi4; constructor.
  - constructor; [|exists t2; done]. exists t1. split; [done|]. split; [done|]. pose proof (de_range _ _ (lt_decodes _ _ Hlt)). cbn [setBlock setFlateErr setTrees setIn d_nb h1] in *. lia.
  - by apply rtc_once.
  - fold B. lia.
  - unfold fuelFor, len in *. lia.
Qed.

Lemma doStep_spec D fuel f s :
  running D f s -> d_toRead f = [] -> fuelFor fuel (r_bits s) -> doStep fuel f ⇓ advances D s.
Proof.
  intros (W & Hb & Hr & H) Ht Hfuel. unfold doStep. destruct (d_step f).
  - destruct H as (Hm & Hnb & Hout & Hset). by apply (nextBlock_spec D fuel f s W).
  - destruct H as (Hf & ll & dl & Hm & Htr & Hc). eapply returns_mono; [apply (huffmanBlock_spec D ll dl fuel f s W)|apply goesOn_advances].
    + constructor; try done. by destruct (stepState f).
    + unfold fuelFor in Hfuel. lia.
  - destruct H as (Hm & Hnb & Hf & Hout & Hcl & Hd). apply (copyData_spec D fuel f s W); try done. by apply (fuelFor_data fuel f (r_bits s)); [apply (ba_in _ _ _ _ Hb)|].
Qed.
End Blocks.
