(* ===== verification/LzwBufio.v ===== *)
(** * compress/lzw over bufio

    NewReader and NewWriter of compress/lzw wrap a source without ReadByte in a
    bufio.Reader and a destination without WriteByte and Flush in a bufio.Writer.
    The Readers and Writers of bufio keep what the package asks of its sources and
    destinations, so its theorems hold over any io.Reader and io.Writer. *)
From Stdlib Require Import ZArith Lia String.
From stdpp Require Import base numbers list.
From S2P Require Import Prelude Bufio BufioReader BufioLine BufioWriter BufioSpec.
From S2P Require Import Lzw LzwBits LzwDict LzwReader LzwDecode LzwWriter LzwEncode LzwSpec.

(** The value of a call that returns. *)
Definition outcome {A} (m : res A) : m ⇓ (fun _ => True) -> { a | m = Ok a } :=
  match m with
  | Ok a => fun _ => exist _ a eq_refl
  | Panic | NoFuel => fun H => False_rect _ H
  end.

Lemma returns_value {A} (m : res A) (Q : A -> Prop) a : m ⇓ Q -> m = Ok a -> Q a.
Proof. by intros H ->. Qed.

Lemma returns_true {A} (m : res A) (Q : A -> Prop) : m ⇓ Q -> m ⇓ (fun _ => True).
Proof. intros H. by eapply returns_mono. Qed.

(** The errors of the two models. *)
Definition errorOf (e : Bufio.ioError) : error :=
  match e with
  | Bufio.EOF => EOF
  | Bufio.OtherError e => ioError (16 * e)
  | Bufio.ErrShortWrite => ioError 1
  | Bufio.ErrNoProgress => ioError 2
  | Bufio.ErrBufferFull => ioError 3
  | Bufio.ErrNegativeCount => ioError 4
  | Bufio.ErrInvalidUnreadByte => ioError 5
  | Bufio.ErrInvalidUnreadRune => ioError 6
  | Bufio.ErrTooLong => ioError 7
  | Bufio.ErrNegativeAdvance => ioError 8
  | Bufio.ErrAdvanceTooFar => ioError 9
  | Bufio.ErrBadReadCount => ioError 10
  | Bufio.ErrFinalToken => ioError 11
  end.

(** ** A bufio.Reader as an io.ByteReader *)

Section Source.
Context {S : Type} {RD : ioReader S} {SR : Source S}.

Definition BufReader : Type := { b : Bufio.Reader S | rinv b }.

Lemma ReadByte_keeps b c err b' : rinv b -> Bufio.ReadByte b = Ok (c, err, b') -> rinv b'.
Proof.
  intros Hb E. pose proof (returns_value _ _ _ (ReadByte_spec b Hb) E) as (_ & _ & H).
  destruct (queue b); destruct H as (_ & _ & (? & _) & _); done.
Qed.

#[global] Instance BufReader_ByteReader : ByteReader BufReader := fun r =>
  let '(exist _ b Hb) := r in
  match outcome (Bufio.ReadByte b) (returns_true _ _ (ReadByte_spec b Hb)) with
  | exist _ (c, err, b') E =>
      (match err with None => inl c | Some e => inr (errorOf e) end, exist _ b' (ReadByte_keeps b c err b' Hb E))
  end.

#[global] Instance BufReader_ByteSource : ByteSource BufReader.
Proof.
  refine {| remaining r := queue (proj1_sig r); ends r := errorOf (finalOf (rd (proj1_sig r))) |}.
  - intros [b Hb] x l Hq. unfold ReadByte, BufReader_ByteReader. destruct (outcome _ _) as [[[c err] b'] E].
    pose proof (returns_value _ _ _ (ReadByte_spec b Hb) E) as (_ & _ & H). cbn [proj1_sig] in Hq. rewrite Hq in H.
    destruct H as (-> & -> & (_ & Hl & Hf & _) & _). eexists. split; [done|]. cbn [proj1_sig]. by rewrite Hf.
  - intros [b Hb] Hq. unfold ReadByte, BufReader_ByteReader. destruct (outcome _ _) as [[[c err] b'] E].
    pose proof (returns_value _ _ _ (ReadByte_spec b Hb) E) as (_ & _ & H). cbn [proj1_sig] in Hq. rewrite Hq in H.
    destruct H as (_ & -> & (_ & Hl & Hf & _) & _). eexists. split; [done|]. cbn [proj1_sig]. by rewrite Hf.
  - intros [b Hb]. by apply queue_ok.
Defined.

Lemma fresh_rinv (s : S) size : rinv (Bufio.NewReaderSize s size).
Proof. exact (so_inv _ _ _ _ (streamOf_fresh s size)). Qed.

Definition bufReader (s : S) : BufReader := exist _ (Bufio.NewReader s) (fresh_rinv s defaultBufSize).

Lemma bufReader_remaining s : remaining (bufReader s) = dataOf s.
Proof. exact (so_ahead _ _ _ _ (streamOf_fresh s defaultBufSize)). Qed.
End Source.

(** ** A bufio.Writer as the package's writer *)

Section Sink.
Context {T : Type} {WT : ioWriter T} {SK : Sink T}.

Definition BufWriter : Type := { b : Bufio.Writer T | winv b }.

Lemma WriteByte_keeps b c err b' : winv b -> Bufio.WriteByte b c = Ok (err, b') -> winv b'.
Proof. intros Hb E. apply (returns_value _ _ _ (WriteByte_spec b c Hb) E). Qed.

Lemma Flush_keeps b err b' : winv b -> Bufio.Flush b = Ok (err, b') -> winv b'.
Proof. intros Hb E. apply (returns_value _ _ _ (Flush_spec b Hb) E). Qed.

#[global] Instance BufWriter_writer : writer BufWriter := {|
  WriteByte w c :=
    let '(exist _ b Hb) := w in
    match outcome (Bufio.WriteByte b c) (returns_true _ _ (WriteByte_spec b c Hb)) with
    | exist _ (err, b') E => (option_map errorOf err, exist _ b' (WriteByte_keeps b c err b' Hb E))
    end;
  Flush w :=
    let '(exist _ b Hb) := w in
    match outcome (Bufio.Flush b) (returns_true _ _ (Flush_spec b Hb)) with
    | exist _ (err, b') E => (option_map errorOf err, exist _ b' (Flush_keeps b err b' Hb E))
    end;
|}.

(** After a Flush without an error nothing waits. *)
Lemma BufWriter_Flush_spec (w w' : BufWriter) :
  Flush w = (None, w') -> sent (proj1_sig w') = sent (proj1_sig w) /\ wn (proj1_sig w') = 0.
Proof.
  destruct w as [b Hb]. cbn. destruct (outcome _ _) as [[err b'] E]. destruct err; cbn; [done|]. intros [= <-].
  pose proof (returns_value _ _ _ (Flush_spec b Hb) E) as ((_ & _ & Hs) & _ & Hz & _). rewrite app_nil_r in Hs. cbn. auto.
Qed.

#[global] Instance BufWriter_ByteSink : ByteSink BufWriter.
Proof.
  refine {| written w := sent (proj1_sig w) |}.
  - intros [b Hb] c w'. cbn. destruct (outcome _ _) as [[err b'] E]. destruct err; cbn; [done|]. intros [= <-].
    apply (returns_value _ _ _ (WriteByte_spec b c Hb) E).
  - intros w w' E. by apply BufWriter_Flush_spec.
  - intros [b Hb] c e w'. cbn. destruct (outcome _ _) as [[err b'] E]. destruct err as [e'|]; cbn; [|done]. intros [= <- _].
    by destruct e'.
Defined.

Definition bufWriter (w : T) : BufWriter := exist _ (Bufio.NewWriter w) (proj1 (fresh_winv w defaultBufSize)).

Lemma bufWriter_written w : written (bufWriter w) = writtenOf w.
Proof. exact (proj2 (fresh_winv w defaultBufSize)). Qed.

(** Close ends with a Flush. *)
Lemma Close_flushes {W} {WR : writer W} (w w' : Writer W) :
  w_err w = None -> Writer_Close w = Ok (None, w') -> exists d d', Flush d = (None, d') /\ w_w w' = Some d'.
Proof.
  intros He. unfold Writer_Close. rewrite He.
  assert (Hbits : forall w1, closeBits w1 = Ok (None, w') -> exists d d', Flush d = (None, d') /\ w_w w' = Some d').
  { intros w1. unfold closeBits.
    assert (Hf : forall w2, match w_w w2 with
        | None => Panic
        | Some dst => let '(err, dst') := Flush dst in Ok (err, wSetBits w2 (Some dst') (w_bits w2) (w_nBits w2))
        end = Ok (None, w') -> exists d d', Flush d = (None, d') /\ w_w w' = Some d').
    { intros w2. destruct (w_w w2) as [d|]; [|done]. destruct (Flush d) as [err d'] eqn:Ef. intros [= -> <-]. by exists d, d'. }
    destruct (w_nBits w1 >? 0); [|apply Hf]. destruct (putByte _ _) as [[[e|] w2]| |]; try done. apply Hf. }
  set (m := if negb _ then _ else _). destruct m as [[[e|] w1]| |]; try done. cbn [rbind].
  destruct (callWrite w1 _) as [[[e|] w2]| |]; try done. apply Hbits.
Qed.
End Sink.

Section Compose.
Context {S T : Type} {RD : ioReader S} {SR : Source S} {WT : ioWriter T} {SK : Sink T}.
Variables (lit : Z) (f : codeFn).
Hypothesis Hlit : 2 <= lit <= 8.

Lemma compress_flushes (dst : BufWriter (T := T)) ps :
  Forall bytes_ok ps ->
  compress dst (orderOf f) lit ps ⇓ fun '(err, w) => err = None -> exists d, w_w w = Some d /\ wn (proj1_sig d) = 0.
Proof.
  intros Hb. unfold compress.
  eapply returns_bind_mono; [by apply (writes_accepts lit f Hlit _ _ [] ps (newWriter_accepts lit f Hlit dst))|].
  intros [[e|] w] Hk; [done|]. destruct (Hk eq_refl) as [_ Ha]. pose proof (Close_spec lit f _ Hlit w _ Ha) as Hc.
  destruct (Writer_Close w) as [[err w']| |] eqn:E; try done. cbn. intros ->.
  destruct (Close_flushes w w' (proj1 Ha) E) as (d & d' & Hf & Hw). exists d'. split; [done|]. by apply (BufWriter_Flush_spec d).
Qed.

(** C8: The round trip over any io.Writer and io.Reader, through the buffers that
    NewWriter and NewReader put around them: when no call reports an error, all of
    the compressed data has arrived at the destination after Close, and reading
    it from any source that delivers it, in pieces of any sizes, gives back the
    data and then io.EOF. *)
Theorem Lzw_bufio_roundtrip (dst : T) (ps : list (list Z)) :
  Forall bytes_ok ps ->
  compress (bufWriter dst) (orderOf f) lit ps ⇓ fun '(err, w) => err = None ->
    exists d out, w_w w = Some d /\ writtenOf (wr (proj1_sig d)) = writtenOf dst ++ out /\
      forall (src : S) junk fuel ns, dataOf src = out ++ junk -> (8 * length (dataOf src) < fuel)%nat ->
        Forall (Z.le 0) ns ->
        reads fuel (NewReader (bufReader src) (orderOf f) lit) ns ⇓ fun '(rs, _) => follows (concat ps) EOF ns rs.
Proof.
  intros Hb. pose proof (compress_encodes lit f Hlit (bufWriter dst) ps Hb) as He. pose proof (compress_flushes (bufWriter dst) ps Hb) as Hf.
  destruct (compress (bufWriter dst) (orderOf f) lit ps) as [[err w]| |]; try done. intros E.
  destruct (He E) as (Hl & d & out & pad & Hw & Hwr & Hbits & _). destruct (Hf E) as (d' & Hw' & Hz).
  rewrite Hw in Hw'. injection Hw' as <-. exists d, out. split; [done|]. split.
  - change (written (bufWriter dst)) with (sent (proj1_sig (bufWriter dst))) in Hwr. cbn in Hwr.
    rewrite <- (bufWriter_written dst). change (sent (proj1_sig d) = written (bufWriter dst) ++ out) in Hwr.
    rewrite <- Hwr. unfold sent, held. rewrite Hz. cbn. by rewrite app_nil_r.
  - intros src junk fuel ns Hrem Hfuel Hns. rewrite <- (bufReader_remaining src) in Hrem, Hfuel.
    apply (reads_follow lit f Hlit (ends (bufReader src))); [|done]. apply newReader_delivers; [done| |done].
    rewrite Hrem, bytesBits_app, Hbits, <- (assoc_L app). by apply encode_produces.
Qed.
End Compose.

(** A destination with room, and a source that gives two bytes at a time. *)
Lemma Lzw_bufio_roundtrip_witness :
  (let! '(err, w) := compress (bufWriter (mkRoom [] 20)) LSB 8 LzwSpec.pieces in
   Ok (err, option_map (fun d => taken (wr (proj1_sig d))) (w_w w))) =
    Ok (None, Some [0; 195; 136; 17; 72; 112; 160; 193; 49; 1; 1]) /\
  compress (bufWriter (mkRoom [] 20)) (orderOf fnLSB) 8 LzwSpec.pieces ⇓ fun '(err, w) => err = None ->
    exists d out, w_w w = Some d /\ writtenOf (wr (proj1_sig d)) = writtenOf (mkRoom [] 20) ++ out /\
      forall (src : BufioSpec.pieces) junk fuel ns, dataOf src = out ++ junk -> (8 * length (dataOf src) < fuel)%nat ->
        Forall (Z.le 0) ns ->
        reads fuel (NewReader (bufReader src) (orderOf fnLSB) 8) ns ⇓ fun '(rs, _) => follows (concat LzwSpec.pieces) EOF ns rs.
Proof. split; [vm_compute; reflexivity|]. apply (Lzw_bufio_roundtrip 8 fnLSB); [lia | apply pieces_ok]. Defined.
