(* ===== verification/FlateSpec.v ===== *)
(** * compress/flate: properties

    A client opens a reader on a source, with a dictionary, reads with buffers of
    any sizes, and may reset the reader for another source.  The reads deliver
    what the format says, then io.EOF; and io.EOF only then. *)
From Stdlib Require Import ZArith Lia String Ascii.
From stdpp Require Import base numbers list option relations.
From S2P Require Import Prelude Bits Lzw LzwBits Bufio BufioReader BufioSpec LzwBufio Flate FlateTables FlateBits FlateDict FlateRef FlateTrees FlateBlocks.

(** ** Runs of the format *)

Lemma refRun_reaches k s : reaches s (refRun k s).
Proof.
  revert s. induction k as [|k IH]; intros s; cbn [refRun]; [apply rtc_refl|]. destruct (refStep s) as [s'|] eqn:E; [|apply rtc_refl].
  eapply rtc_l; [exact E | apply IH].
Qed.

Lemma copyMatch_prefix n dist W : exists l, copyMatch n dist W = W ++ l.
Proof.
  revert W. induction n as [|n IH]; intros W; cbn [copyMatch]; [exists []; by rewrite app_nil_r|].
  destruct (IH (W ++ [at_ W (len W - dist)])) as [l ->]. eexists. by rewrite <- (assoc_L app).
Qed.

Lemma refStep_mono s s' : refStep s = Some s' -> len (r_bits s') <= len (r_bits s) /\ exists l, r_out s' = r_out s ++ l.
Proof.
  unfold refStep. destruct (r_mode s) as [|n|ll dl|] eqn:Em; [| | |done].
  - rewrite refHeader_bits. destruct (Z.leb_spec 3 (len (r_bits s))) as [L3|L3]; [|done]. cbv zeta. intros H.
    assert (Hl : len (drop 3 (r_bits s)) = len (r_bits s) - 3) by (unfold len in *; rewrite length_drop; lia).
    assert (len (r_bits s') <= len (drop 3 (r_bits s)) /\ r_out s' = r_out s) as [? ->]; [|split; [lia | exists []; by rewrite app_nil_r]].
    destruct (_ =? 0).
    { unfold storedHeader in H. destruct (takeBits 16 _) as [[x B1]|] eqn:E1; [|done]. cbn [mbind option_bind] in H.
      destruct (takeBits 16 B1) as [[y B2]|] eqn:E2; [|done]. cbn [mbind option_bind] in H. destruct (_ =? _); [|done]. injection H as <-. cbn [r_bits r_out].
      apply takeBits_length in E1; [|lia]. apply takeBits_length in E2; [|lia]. split; [|done]. unfold len in *. rewrite length_drop in E1. lia. }
    destruct (_ =? 1); [injection H as <-; done|]. destruct (_ =? 2); [|done].
    destruct (dynamicTrees _) as [[[ll dl] B']|] eqn:E; [|done]. cbn [mbind option_bind] in H. injection H as <-. split; [by apply dynamicTrees_length in E | done].
  - destruct (n =? 0); [intros [= <-]; cbn; split; [lia | exists []; by rewrite app_nil_r]|].
    destruct (takeBits 8 (r_bits s)) as [[x B]|] eqn:E; [|done]. cbn [mbind option_bind]. intros [= <-]. apply takeBits_length in E; [|lia]. cbn [r_bits r_out].
    split; [lia | by eexists].
  - unfold refSymbol. destruct (symbol ll (r_bits s)) as [[v B]|] eqn:E; [|done]. cbn [mbind option_bind]. apply symbol_length in E as (n0 & _ & ? & ?).
    destruct (v <? 256); [intros [= <-]; cbn; split; [lia | by eexists]|].
    destruct (v =? 256); [intros [= <-]; cbn; split; [lia | exists []; by rewrite app_nil_r]|]. unfold refMatch.
    destruct (lengthTab !! _) as [[bs k]|] eqn:El; [|done]. cbn [mbind option_bind]. apply lengthTab_ok in El.
    destruct (takeBits k B) as [[x B1]|] eqn:E1; [|done]. cbn [mbind option_bind]. apply takeBits_length in E1; [|lia].
    destruct (symbol dl B1) as [[d B2]|] eqn:E2; [|done]. cbn [mbind option_bind]. apply symbol_length in E2 as (? & _ & ? & ?).
    destruct (distTab !! _) as [[db dk]|] eqn:Ed; [|done]. cbn [mbind option_bind]. apply distTab_ok in Ed.
    destruct (takeBits dk B2) as [[y B3]|] eqn:E3; [|done]. cbn [mbind option_bind]. apply takeBits_length in E3; [|lia].
    destruct (_ <=? _); [|done]. intros [= <-]. cbn [r_bits r_out]. split; [lia | apply copyMatch_prefix].
Qed.

Lemma reaches_mono s s' : reaches s s' -> len (r_bits s') <= len (r_bits s) /\ exists l, r_out s' = r_out s ++ l.
Proof.
  induction 1 as [s|s t s' Hst _ [IH1 [l IH2]]]; [split; [lia | exists []; by rewrite app_nil_r]|].
  destruct (refStep_mono _ _ Hst) as [H1 [l' H2]]. split; [lia|]. exists (l' ++ l). by rewrite IH2, H2, <- (assoc_L app).
Qed.

(** ** Clients *)

Section Clients.
Context {S : Type} {RD : ioReader S} {SR : Source S} {BR : byteReader S} {BL : ByteLaws S}.
Implicit Types f : decompressor S.

(** Reads into buffers of the given sizes. *)
Fixpoint flate_reads (fuel : nat) f (ns : list Z) : res (list (list Z * option flateError) * decompressor S) :=
  match ns with
  | [] => Ok ([], f)
  | n :: ns =>
      let! '(b, err, f) := flate_Read fuel f n in
      let! '(rs, f) := flate_reads fuel f ns in
      Ok ((b, err) :: rs, f)
  end.

(** Running, or stopped with nothing left in the window. *)
Definition live (D : list Z) f (s : rstate) : Prop := running D f s \/ (stopped D f s /\ unread (d_dict f) = []).

Lemma flush_stopped D f s : stopped D f s -> d_toRead f = [] -> flushOut f ⇓ fun f' => stopped D f' s /\ unread (d_dict f') = [] /\ d_err f' = d_err f.
Proof.
  intros ([Hp Hl] & _ & Hout & Hc) Ht. unfold flushOut, readFlush. rewrite slice_Ok by lia. cbn [rbind].
  replace (take (Z.to_nat (wrPos (d_dict f) - rdPos (d_dict f))) (drop (Z.to_nat (rdPos (d_dict f))) (hist (d_dict f)))) with (unread (d_dict f))
    by (unfold unread; rewrite skipn_firstn_comm; f_equal; lia).
  assert (Hgo : forall dd, flushable dd -> unread dd = [] -> stopped D (setOut f dd (unread (d_dict f))) s /\ unread dd = [] /\ d_err (setOut f dd (unread (d_dict f))) = d_err f).
  { intros dd Hf Hu. split; [|done]. split; [done|]. split; [by right|]. cbn [setOut d_toRead d_dict d_err]. rewrite Hu, app_nil_r. split; [by rewrite Hout, Ht|].
    destruct Hc as [(? & ? & Hi & ?)|?]; [left; split_and!; try done; by destruct Hi; constructor | by right]. }
  destruct (Z.eqb_spec (wrPos (d_dict f)) (len (hist (d_dict f)))); cbn [rbind returns]; apply Hgo.
  - split; cbn; lia.
  - done.
  - split; cbn; lia.
  - unfold unread. cbn [hist wrPos rdPos]. apply drop_ge. rewrite length_take. lia.
Qed.

(** Taking bytes that wait. *)
Lemma live_take D f s k :
  live D f s -> let rest := drop k (d_toRead f) in live (D ++ take k (d_toRead f)) (setOut f (d_dict f) rest) s.
Proof.
  assert (E : forall u, D ++ d_toRead f ++ u = (D ++ take k (d_toRead f)) ++ drop k (d_toRead f) ++ u).
  { intros u. rewrite <- (assoc_L app D). f_equal. rewrite (assoc_L app). by rewrite take_drop. }
  intros [(W & [H1 H2 H3 H4 H5 H6 H7 H8] & Hr & H)|[(Hf & Hn & Hout & Hc) Hu]] rest.
  - left. exists W. split; [constructor; try done; [by destruct H2; constructor | cbn [setOut d_toRead d_dict]; by rewrite H4 at 1; rewrite E]|].
    split; [done|]. cbn [setOut d_step stepState]. destruct (d_step f); try done. destruct H as (? & ll & dl & ? & [? ?] & Hx). split; [done|]. exists ll, dl. split; [done|]. split; [by constructor | done].
  - right. split; [|done]. split; [done|]. split; [by right|]. cbn [setOut d_toRead d_dict d_err]. split; [by rewrite Hout, E|].
    destruct Hc as [(? & ? & Hi & ?)|?]; [left; split_and!; try done; by destruct Hi; constructor | by right].
Qed.

Lemma running_work D f s : running D f s -> work s = 2 * aheadOf f + match d_step f with copyDataStep => 1 | _ => 0 end.
Proof.
  intros (W & Hb & _ & H). rewrite (inputs_ahead _ _ (ba_in _ _ _ _ Hb)). unfold work.
  destruct (d_step f); [destruct H as (-> & _); lia | destruct H as (_ & ll & dl & -> & _); lia | destruct H as (-> & _); lia].
Qed.

Lemma running_err D f s : running D f s -> d_err f = None.
Proof. intros (W & Hb & _). apply (ba_err _ _ _ _ Hb). Qed.

Lemma stopped_err D f s : stopped D f s -> d_err f <> None.
Proof. intros (_ & _ & _ & [(-> & _)|(e & -> & _)]); done. Qed.

(** What a Read returns. *)
Definition readOk (D : list Z) (s : rstate) (n : Z) (b : list Z) (err : option flateError) f' : Prop :=
  exists s', reaches s s' /\ live (D ++ b) f' s' /\ len b <= n /\
  match err with
  | None => (0 < n -> b <> []) /\ b ++ d_toRead f' <> []
  | Some e => d_err f' = Some e /\ d_toRead f' = []
  end.

Lemma Read_live D fuel f s n :
  live D f s -> 0 <= n -> fuelFor fuel (r_bits s) -> flate_Read fuel f n ⇓ fun '(b, err, f') => readOk D s n b err f'.
Proof.
  intros HL Hn Hfuel. unfold flate_Read.
  set (mu f := if len (d_toRead f) >? 0 then 0 else match d_err f with Some _ => 0 | None => 1 + 2 * aheadOf f + match d_step f with copyDataStep => 1 | _ => 0 end end).
  assert (Hmu0 : forall f1 s1, live D f1 s1 -> 0 <= mu f1).
  { intros f1 s1 HL1. unfold mu. destruct (len (d_toRead f1) >? 0); [lia|]. destruct (d_err f1) eqn:E; [lia|].
    destruct HL1 as [HR|[HS _]]; [|by apply stopped_err in HS]. pose proof (running_work _ _ _ HR). unfold work in *. pose proof (len_nonneg (r_bits s1)).
    destruct (d_step f1), (r_mode s1); lia. }
  apply (loop_returns (fun f1 => exists s1, reaches s s1 /\ live D f1 s1) mu).
  - intros f1 (s1 & Hreach & HL1). destruct (Z.gtb_spec (len (d_toRead f1)) 0) as [G|G].
    + set (k := Z.min n (len (d_toRead f1))). rewrite slice_from_Ok by lia. cbn [rbind returns]. exists s1. split; [done|].
      split; [by apply live_take|]. split; [rewrite len_takeZ; lia|]. cbn [setOut d_toRead]. pose proof (len_dropZ (d_toRead f1) k ltac:(lia)) as Hld.
      assert (Hnn : take (Z.to_nat k) (d_toRead f1) ++ drop (Z.to_nat k) (d_toRead f1) <> []) by (rewrite take_drop; intros E; rewrite E in G; change (len (@nil Z)) with 0 in G; lia).
      assert (Hpos : 0 < n -> take (Z.to_nat k) (d_toRead f1) <> []).
      { intros Hp E. apply (f_equal len) in E. rewrite len_takeZ in E by lia. change (len (@nil Z)) with 0 in E. lia. }
      destruct (Z.eqb_spec (len (drop (Z.to_nat k) (d_toRead f1))) 0) as [E|E]; [|done].
      apply len_zero_inv in E. cbn [setOut d_err d_toRead]. destruct (d_err f1) eqn:Ee; [by split | done].
    + assert (Ht : d_toRead f1 = []) by (apply len_zero_inv; pose proof (len_nonneg (d_toRead f1)); lia).
      destruct (d_err f1) as [e|] eqn:Ee.
      { cbn [returns]. exists s1. rewrite app_nil_r. split; [done|]. split; [done|]. split; [by change (len (@nil Z)) with 0|]. done. }
      destruct HL1 as [HR|[HS _]]; [|by apply stopped_err in HS].
      destruct (reaches_mono _ _ Hreach) as [Hlen _].
      eapply returns_bind_mono; [apply (doStep_spec D fuel f1 s1 HR Ht); by eapply fuelFor_le|]. intros f2 (s2 & Hr2 & Hc).
      assert (Hmu1 : mu f1 = 1 + work s1).
      { unfold mu. rewrite Ht, Ee. change (len (@nil Z) >? 0) with false. cbv iota. rewrite (running_work _ _ _ HR). lia. }
      assert (Hw1 : 0 <= work s1) by (unfold work; pose proof (len_nonneg (r_bits s1)); destruct (r_mode s1); lia).
      assert (Hback : reaches s s2) by (by etrans).
      destruct Hc as [HS|[HR2 Hprog]].
      * assert (Hstop : forall f3, stopped D f3 s2 -> unread (d_dict f3) = [] -> d_err f3 <> None -> (exists s1, reaches s s1 /\ live D f3 s1) /\ 0 <= mu f3 < mu f1).
        { intros f3 HS3 Hu3 He3. split; [exists s2; split; [done | right; done]|]. unfold mu at 1 2. destruct (len (d_toRead f3) >? 0); [lia|]. destruct (d_err f3); [lia | done]. }
        pose proof (stopped_err _ _ _ HS) as He. rewrite bool_decide_eq_true_2 by done. cbn [andb].
        destruct (Z.eqb_spec (len (d_toRead f2)) 0) as [E|E].
        -- eapply returns_bind_mono; [apply (flush_stopped D f2 s2 HS); by apply len_zero_inv|]. intros f3 (HS3 & Hu3 & He3). cbn [returns]. apply Hstop; try done. congruence.
        -- cbn [rbind returns]. apply Hstop; try done. destruct HS as (_ & [Hx|Hx] & _); [rewrite Hx in E; done | done].
      * rewrite (running_err _ _ _ HR2). rewrite bool_decide_eq_false_2 by (intros Hx; by apply Hx). cbn [andb rbind returns].
        split; [exists s2; split; [done | by left]|]. rewrite Hmu1. destruct Hprog as [Hne|Hlt].
        -- unfold mu. destruct (Z.gtb_spec (len (d_toRead f2)) 0) as [G2|G2]; [lia|]. destruct Hne. apply len_zero_inv. pose proof (len_nonneg (d_toRead f2)). lia.
        -- split; [apply (Hmu0 f2 s2); by left|]. unfold mu. destruct (len (d_toRead f2) >? 0); [lia|]. rewrite (running_err _ _ _ HR2). pose proof (running_work _ _ _ HR2). lia.
  - exists s. split; [apply rtc_refl | done].
  - unfold mu. destruct (len (d_toRead f) >? 0); [unfold fuelFor in Hfuel; lia|]. destruct (d_err f) eqn:E; [unfold fuelFor in Hfuel; lia|].
    destruct HL as [HR|[HS _]]; [|by apply stopped_err in HS]. pose proof (running_work _ _ _ HR) as Hw. unfold work, fuelFor, len in *. destruct (r_mode s), (d_step f); lia.
  - by apply (Hmu0 f s).
Qed.

(** *** Opening *)

(** The arrays of a decompressor have their sizes. *)
Record sizes f : Prop := {
  sz_hist : len (hist (d_dict f)) = 0 \/ len (hist (d_dict f)) = 32768;
  sz_bits : len (d_bits f) = 316;
  sz_codebits : len (codebits f) = 19;
}.

(** A new reader, or one that was reset. *)
Definition opens (m : res (decompressor S)) (src : S) (dict : list Z) : Prop :=
  m = NewReaderDict src dict \/ exists f, sizes f /\ m = flate_Reset f src dict.

Lemma newDecompressor_live (src : S) dict dd bits cbits :
  window dd (dictTail dict) -> unread dd = [] -> 0 < availWrite dd -> len bits = 316 -> len cbits = 19 ->
  live (dictTail dict) (newDecompressor src dd bits cbits) (refStart (dataOf src) dict).
Proof.
  intros Hw Hu Ha Hb Hc. left. exists (dictTail dict). split.
  - constructor; try done. cbn [newDecompressor d_toRead d_dict]. by rewrite Hu, app_nil_r.
  - split; [done|]. cbn. split_and!; try done.
Qed.

Lemma opens_live m src dict : opens m src dict -> m ⇓ fun f => live (dictTail dict) f (refStart (dataOf src) dict).
Proof.
  intros [->|(f & [H1 H2 H3] & ->)].
  - unfold NewReaderDict. eapply returns_bind_mono; [apply (dict_init_spec zeroDict dict); by left|]. intros dd (Hw & Hu & Ha).
    by apply newDecompressor_live; rewrite ?len_replicate.
  - unfold flate_Reset. eapply returns_bind_mono; [by apply (dict_init_spec (d_dict f) dict)|]. intros dd (Hw & Hu & Ha). by apply newDecompressor_live.
Qed.

(** *** Reading to the end *)

(** The results of reads that deliver [data] and then io.EOF, at the latest when nothing is left. *)
Fixpoint delivered (data : list Z) (ns : list Z) (rs : list (list Z * option flateError)) : Prop :=
  match ns, rs with
  | [], [] => True
  | n :: ns, (b, err) :: rs => exists data', data = b ++ data' /\ len b <= n /\
      ((err = None /\ (0 < n -> b <> []) /\ data <> []) \/ (err = Some (IoError Bufio.EOF) /\ data' = [])) /\ delivered data' ns rs
  | _, _ => False
  end.

Lemma live_out D f s : live D f s -> exists l, r_out s = D ++ d_toRead f ++ unread (d_dict f) ++ l.
Proof.
  intros [(W & Hb & _ & H)|[(_ & _ & -> & _) _]]; [|exists []; by rewrite app_nil_r].
  assert (exists l, r_out s = W ++ l) as [l ->].
  { assert (Hsame : r_out s = W -> exists l, r_out s = W ++ l) by (intros ->; exists []; by rewrite app_nil_r).
    destruct (d_step f); [apply Hsame; apply H | | apply Hsame; apply H]. destruct H as (_ & ll & dl & _ & _ & H).
    destruct (stepState f); [apply Hsame; apply H|]. destruct H as (_ & _ & ->). apply copyMatch_prefix. }
  exists l. rewrite (ba_out _ _ _ _ Hb) at 1. by rewrite <- !(assoc_L app).
Qed.

Lemma done_stays s s' : r_mode s = RDone -> reaches s s' -> s' = s.
Proof. intros Hd H. inversion H as [|? y ? Hy]; [done|]. subst. unfold stepsTo, refStep in Hy. by rewrite Hd in Hy. Qed.

(** A read on the way to the end. *)
Lemma readOk_delivers D s n b err f' sd data :
  readOk D s n b err f' -> reaches s sd -> r_mode sd = RDone -> r_out sd = D ++ data ->
  exists s' data', reaches s' sd /\ len (r_bits s') <= len (r_bits s) /\ live (D ++ b) f' s' /\ data = b ++ data' /\ len b <= n /\
    ((err = None /\ (0 < n -> b <> []) /\ data <> []) \/
     (err = Some (IoError Bufio.EOF) /\ data' = [] /\ flate_Close f' = None /\ len (dataOf (d_r f')) = len (r_bits sd) / 8)).
Proof.
  intros (s' & Hr & HL & Hlen & He) Hsd Hdone Hout. pose proof (reaches_done s s' sd Hr Hsd Hdone) as Hto.
  destruct (live_out _ _ _ HL) as [l Hl]. destruct (reaches_mono _ _ Hto) as [_ [l2 Hl2]]. rewrite Hl2, Hl, <- !(assoc_L app) in Hout. apply app_inv_head in Hout.
  exists s', (d_toRead f' ++ unread (d_dict f') ++ l ++ l2). split; [done|]. split; [by apply reaches_mono|]. split; [done|]. split; [done|]. split; [done|].
  destruct err as [e|].
  - right. destruct He as [Ee Et]. destruct HL as [HR|[(_ & _ & Ho & Hc) Hu]]; [by rewrite (running_err _ _ _ HR) in Ee|].
    destruct Hc as [(E & Hm & Hi & Hnb)|(e' & E & _ & Hmal)]; [|by destruct (Hmal sd Hto)].
    rewrite Ee in E. injection E as ->. split; [done|]. pose proof (done_stays _ _ Hm Hto) as ->.
    assert (l2 = []) as -> by (rewrite <- (app_nil_r (r_out s')) in Hl2 at 1; by apply app_inv_head in Hl2).
    rewrite Hu, Et in *. cbn [app] in *. assert (l = []) as -> by (rewrite Ho, <- (app_nil_r ((D ++ b) ++ [])) in Hl; rewrite !app_nil_r in Hl; rewrite <- (app_nil_r (D ++ b)) in Hl at 1; rewrite <- !(assoc_L app) in Hl; apply app_inv_head, app_inv_head in Hl; done).
    split; [done|]. split; [unfold flate_Close; by rewrite Ee|].
    pose proof (inputs_ahead _ _ Hi) as Ha. unfold aheadOf in Ha. pose proof (in_nb _ _ Hi). rewrite <- Ha. rewrite (Z.mul_comm 8), Z.div_add, Z.div_small by lia. lia.
  - left. destruct He as [Hpos Hne]. split; [done|]. split; [done|]. rewrite <- Hout. intros E. apply app_eq_nil in E as [-> E]. apply app_eq_nil in E as [E _]. by rewrite E in Hne.
Qed.

(** [rs] ends with an error. *)
Definition lastFails (rs : list (list Z * option flateError)) : Prop := exists rs' b e, rs = rs' ++ [(b, Some e)].

Lemma reads_delivered D fuel f s sd data ns :
  live D f s -> reaches s sd -> r_mode sd = RDone -> r_out sd = D ++ data -> fuelFor fuel (r_bits s) -> Forall (Z.le 0) ns ->
  flate_reads fuel f ns ⇓ fun '(rs, f') => delivered data ns rs /\
    (lastFails rs -> flate_Close f' = None /\ len (dataOf (d_r f')) = len (r_bits sd) / 8).
Proof.
  revert D f s data. induction ns as [|n ns IH]; intros D f s data HL Hsd Hdone Hout Hfuel Hns; cbn [flate_reads].
  { split; [done|]. intros (rs' & b & e & E). by destruct rs'. }
  apply Forall_cons in Hns as [Hn Hns]. eapply returns_bind_mono; [by apply (Read_live D fuel f s n)|]. intros [[b err] f1] Hok.
  destruct (readOk_delivers _ _ _ _ _ _ sd data Hok Hsd Hdone Hout) as (s1 & data' & Hto & Hlen & HL1 & -> & Hlb & Hc).
  rewrite (assoc_L app) in Hout. destruct ns as [|n' ns].
  - cbn [flate_reads rbind returns]. split.
    + exists data'. split; [done|]. split; [done|]. split; [|done]. destruct Hc as [?|(? & ? & _)]; [by left | by right].
    + intros (rs' & b' & e & E). destruct rs' as [|? [|]]; simplify_eq. destruct Hc as [[? _]|(_ & _ & ?)]; [simplify_eq | done].
  - eapply returns_bind_mono; [apply (IH (D ++ b) f1 s1 data' HL1 Hto Hdone Hout); [by eapply fuelFor_le | done]|]. intros [rs f'] [Hdel Hlast]. cbn [returns]. split.
    + exists data'. split; [done|]. split; [done|]. split; [|done]. destruct Hc as [?|(? & ? & _)]; [by left | by right].
    + intros (rs' & b' & e & E). destruct rs' as [|x rs']; [by injection E as _ _ ->|]. cbn [app] in E. injection E as _ ->. apply Hlast. by exists rs', b', e.
Qed.

(** *** Any source *)

Lemma reads_stopped fuel f e ns :
  d_toRead f = [] -> d_err f = Some e -> flate_reads (Datatypes.S fuel) f ns = Ok (map (fun _ => ([], Some e)) ns, f).
Proof.
  intros Ht He. induction ns as [|n ns IH]; [done|]. cbn [flate_reads map].
  assert (E : flate_Read (Datatypes.S fuel) f n = Ok ([], Some e, f)) by (unfold flate_Read; cbn [loop]; by rewrite Ht, He). rewrite E. cbn [rbind]. by rewrite IH.
Qed.

Definition dataRead (rs : list (list Z * option flateError)) : list Z := concat (map fst rs).

Lemma reads_live D fuel f s ns :
  live D f s -> fuelFor fuel (r_bits s) -> Forall (Z.le 0) ns ->
  flate_reads fuel f ns ⇓ fun '(rs, f') => exists s', reaches s s' /\ live (D ++ dataRead rs) f' s' /\
    forall b e, (b, Some e) ∈ rs -> d_err f' = Some e /\ d_toRead f' = [].
Proof.
  revert D f s. induction ns as [|n ns IH]; intros D f s HL Hfuel Hns; cbn [flate_reads].
  { exists s. unfold dataRead. cbn. rewrite app_nil_r. split; [apply rtc_refl|]. split; [done|]. intros b e Hin. by apply not_elem_of_nil in Hin. }
  apply Forall_cons in Hns as [Hn Hns]. eapply returns_bind_mono; [by apply (Read_live D fuel f s n)|]. intros [[b err] f1] (s1 & Hr & HL1 & _ & He).
  destruct err as [e|].
  - destruct He as [Ee Et]. destruct fuel as [|fuel]; [unfold fuelFor in Hfuel; lia|]. rewrite (reads_stopped fuel f1 e ns Et Ee). cbn [rbind returns].
    exists s1. split; [done|]. assert (Hd : dataRead ((b, Some e) :: map (fun _ => ([], Some e)) ns) = b).
    { unfold dataRead. cbn [map concat fst]. rewrite map_map. cbn [fst]. replace (concat (map (fun _ : Z => @nil Z) ns)) with (@nil Z); [by rewrite app_nil_r|]. clear. induction ns; done. }
    rewrite Hd. split; [done|]. intros b' e' Hin. apply elem_of_cons in Hin as [Hin|Hin]; [by simplify_eq|]. apply list_elem_of_In, in_map_iff in Hin as (? & ? & _). by simplify_eq.
  - eapply returns_bind_mono; [apply (IH (D ++ b) f1 s1 HL1); [eapply fuelFor_le; [done | by apply reaches_mono] | done]|]. intros [rs f'] (s' & Hr' & HL' & Herr). cbn [returns].
    exists s'. split; [by etrans|]. unfold dataRead in *. cbn [map concat fst]. rewrite (assoc_L app). split; [done|]. intros b' e' Hin. apply elem_of_cons in Hin as [Hin|Hin]; [done | by eapply Herr].
Qed.

Lemma opened_reads m (src : S) dict sd out fuel ns :
  opens m src dict -> reaches (refStart (dataOf src) dict) sd -> r_mode sd = RDone -> r_out sd = dictTail dict ++ out ->
  (104 * length (dataOf src) + 100 < fuel)%nat -> Forall (Z.le 0) ns ->
  (let! f := m in flate_reads fuel f ns) ⇓ fun '(rs, f) => delivered out ns rs /\
    (lastFails rs -> flate_Close f = None /\ len (dataOf (d_r f)) = len (r_bits sd) / 8).
Proof.
  intros Ho Hsd Hdone Hout Hfuel Hns. eapply returns_bind_mono; [by apply (opens_live m src dict)|]. intros f HL.
  apply (reads_delivered (dictTail dict) fuel f (refStart (dataOf src) dict) sd out); try done.
  unfold fuelFor. cbn [refStart r_bits]. pose proof (len_byteBits (dataOf src)) as Hl. unfold len in Hl. lia.
Qed.

(** ** Properties *)

(** C6: The decompressor refines the format.  If the format decodes the data of
    the source, after the dictionary, to [out], then any reads through a new
    reader, or through any reader that is reset, deliver [out] in order, each
    read into a buffer with room at least a byte, and then io.EOF and no other
    error; Close reports none, and the reader has taken from the source no byte
    beyond the one in which the stream ends. *)
Theorem Flate_Read_refines m (src : S) dict sd out fuel ns :
  opens m src dict -> reaches (refStart (dataOf src) dict) sd -> r_mode sd = RDone -> r_out sd = dictTail dict ++ out ->
  (104 * length (dataOf src) + 100 < fuel)%nat -> Forall (Z.le 0) ns ->
  (let! f := m in flate_reads fuel f ns) ⇓ fun '(rs, f) => delivered out ns rs /\
    (lastFails rs -> flate_Close f = None /\ len (dataOf (d_r f)) = len (r_bits sd) / 8).
Proof.
  intros Ho Hsd Hdone Hout Hfuel Hns. by apply (opened_reads m src dict sd out fuel ns).
Qed.

(** C13: Whatever the source holds, reading never panics and every Read returns:
    what was delivered is a prefix of what the format decodes; io.EOF is reported
    only when the format comes to the end of the stream, and then all of its
    output was delivered; any other error is reported only when the stream is
    malformed or cut off. *)
Theorem Flate_Read_safe m (src : S) dict fuel ns :
  opens m src dict -> (104 * length (dataOf src) + 100 < fuel)%nat -> Forall (Z.le 0) ns ->
  (let! f := m in flate_reads fuel f ns) ⇓ fun '(rs, f) => let start := refStart (dataOf src) dict in
    exists s, reaches start s /\ (exists l, r_out s = dictTail dict ++ dataRead rs ++ l) /\
    forall b e, (b, Some e) ∈ rs ->
      (e = IoError Bufio.EOF /\ r_mode s = RDone /\ r_out s = dictTail dict ++ dataRead rs) \/ (e <> IoError Bufio.EOF /\ malformed start).
Proof.
  intros Ho Hfuel Hns. eapply returns_bind_mono; [by apply (opens_live m src dict)|]. intros f HL.
  eapply returns_mono; [apply (reads_live (dictTail dict) fuel f (refStart (dataOf src) dict) ns HL); [|done]|].
  { unfold fuelFor. cbn [refStart r_bits]. pose proof (len_byteBits (dataOf src)) as Hl. unfold len in Hl. lia. }
  intros [rs f'] (s & Hr & HL' & Herr). cbv zeta. exists s. split; [done|]. split.
  - destruct (live_out _ _ _ HL') as [l ->]. eexists. by rewrite <- (assoc_L app).
  - intros b e Hin. destruct (Herr b e Hin) as [Ee Et]. destruct HL' as [HR|[(_ & _ & Hout & Hc) Hu]]; [by rewrite (running_err _ _ _ HR) in Ee|].
    destruct Hc as [(E & Hm & _)|(e' & E & Hne & Hmal)]; rewrite Ee in E; injection E as ->.
    + left. split; [done|]. split; [done|]. by rewrite Hout, Et, Hu, !app_nil_r.
    + right. split; [done | by eapply malformed_before].
Qed.
End Clients.

(** C15: init builds the tables of the canonical Huffman code, whatever its
    lengths: it accepts the lists of lengths without codes, with a complete set
    of codes, or with a single code of one bit, and then the entry that huffSym
    looks up for any bits is the symbol and the length of the code that starts
    them, or has length 0 when none does. *)
Theorem Flate_huffman_tables h lens :
  lens_ok lens -> len lens < 2 ^ 28 -> clean h ->
  huff_init h lens ⇓ fun '(ok, h') => ok = validLens lens /\ (ok = true -> forall b, 0 <= b ->
    lookupChunk h' b ⇓ fun '(chunk, n) =>
      match symbol lens (bitsL 15 b) with
      | Some (i, rest) => chunk = enc i n /\ rest = drop (Z.to_nat n) (bitsL 15 b)
      | None => n = 0
      end).
Proof.
  intros Hok Hlen Hc. eapply returns_mono; [by apply (huff_init_spec h lens)|]. intros [ok h'] (-> & _ & Hd). split; [done|]. intros Hv b Hb.
  destruct (Hd Hv) as [Hdec _]. eapply returns_mono; [by apply (de_lookup _ _ Hdec b)|]. intros [chunk n] Hl.
  assert (Hiff : forall i n, hasCode lens i n -> matches lens i n 15 (revn 15 b) <-> startsWith lens i n (bitsL 15 b)).
  { intros i m Hi. destruct (valid_code lens i m Hok Hv Hi) as [Hm _]. unfold startsWith, matches. rewrite <- (codeBits_value lens Hok Hv i m Hi).
    rewrite (starts_value (codeBits lens i m) (bitsL 15 b) m 15) by (apply codeBits_length || apply bitsL_length || lia). unfold revn. tauto. }
  destruct Hl as [(i & Hi & Hm & ->)|[-> Hno]].
  - apply Hiff in Hm; [|done]. by rewrite (symbol_starts lens _ i n Hok Hv Hm).
  - rewrite symbol_none; [done|]. intros i m Hs. pose proof Hs as [Hi _]. apply (Hno i m Hi). by apply Hiff.
Qed.

(** ** Over bufio *)

Section Buffered.
Context {S : Type} {RD : ioReader S} {SR : Source S}.

Lemma Read_keeps (b : Bufio.Reader S) p p' n err b' : rinv b -> Bufio.Read b p = Ok (p', n, err, b') -> rinv b'.
Proof. intros Hb E. pose proof (returns_value _ _ _ (Read_spec b p Hb) E) as (? & ? & _ & _ & _ & _ & (? & _) & _). done. Qed.

#[global] Instance BufReader_ioReader : ioReader (BufReader (S := S)) := fun r p =>
  let '(exist _ b Hb) := r in
  match outcome (Bufio.Read b p) (returns_true _ _ (Read_spec b p Hb)) with
  | exist _ (p', n, err, b') E => (p', n, err, exist _ b' (Read_keeps b p p' n err b' Hb E))
  end.

#[global] Instance BufReader_byteReader : byteReader (BufReader (S := S)) := fun r =>
  let '(exist _ b Hb) := r in
  match outcome (Bufio.ReadByte b) (returns_true _ _ (ReadByte_spec b Hb)) with
  | exist _ (c, err, b') E => (c, err, exist _ b' (ReadByte_keeps b c err b' Hb E))
  end.

#[global] Instance BufReader_Source : Source (BufReader (S := S)).
Proof.
  refine {| dataOf r := queue (proj1_sig r); finalOf r := finalOf (rd (proj1_sig r)); stallOf r := stallOf (rd (proj1_sig r)) |}.
  - intros [b Hb]. by apply queue_ok.
  - intros [b Hb]. apply stallOf_range.
  - intros [b Hb]. apply finalOf_own.
  - intros [b Hb] p Hp. unfold doRead, BufReader_ioReader. destruct (outcome _ _) as [[[[p' n] err] b'] E]. cbn [proj1_sig].
    pose proof (returns_value _ _ _ (Read_spec b p Hb) E) as (chunk & q & Hq & -> & Hlen & Ht & (Hb' & Hq' & Hf & _) & Herr & _ & Hst).
    assert (Hp' : p' = chunk ++ drop (Z.to_nat (len chunk)) p') by (rewrite <- (take_drop (Z.to_nat (len chunk)) p') at 1; by rewrite Ht).
    exists chunk, (drop (Z.to_nat (len chunk)) p'), err. eexists. rewrite <- Hp'. split; [done|]. cbn [proj1_sig]. split; [done|]. split; [by rewrite Hq'|]. split; [done|]. split; [by rewrite Hq'|].
    intros Hc He. destruct (Hst Hc He) as [E0|]; [|done]. by apply len_zero_inv in E0.
Defined.

#[global] Instance BufReader_ByteLaws : ByteLaws (BufReader (S := S)).
Proof.
  constructor.
  - intros [b Hb] x l Hq. unfold readByte, BufReader_byteReader. destruct (outcome _ _) as [[[c err] b'] E].
    pose proof (returns_value _ _ _ (ReadByte_spec b Hb) E) as (_ & _ & H). cbn in Hq. rewrite Hq in H.
    destruct H as (-> & -> & (_ & Hl & Hf & _) & _). eexists. split; [done|]. by cbn.
  - intros [b Hb] Hq. unfold readByte, BufReader_byteReader. destruct (outcome _ _) as [[[c err] b'] E].
    pose proof (returns_value _ _ _ (ReadByte_spec b Hb) E) as (_ & _ & H). cbn in Hq. rewrite Hq in H.
    destruct H as (-> & -> & (_ & Hl & Hf & _) & _). eexists _, _. split; [done|]. by cbn.
Qed.

Lemma bufReader_data (src : S) : dataOf (bufReader src) = dataOf src.
Proof. exact (so_ahead _ _ _ _ (streamOf_fresh src defaultBufSize)). Qed.

(** C21: The same over any io.Reader, through the bufio.Reader that the package
    puts around a source without ReadByte: whatever pieces the source gives, the
    reads deliver what the format decodes, and then io.EOF. *)
Theorem Flate_bufio_refines (src : S) dict sd out fuel ns :
  reaches (refStart (dataOf src) dict) sd -> r_mode sd = RDone -> r_out sd = dictTail dict ++ out ->
  (104 * length (dataOf src) + 100 < fuel)%nat -> Forall (Z.le 0) ns ->
  (let! f := NewReaderDict (bufReader src) dict in flate_reads fuel f ns) ⇓ fun '(rs, f) => delivered out ns rs /\
    (lastFails rs -> flate_Close f = None).
Proof.
  intros Hsd Hdone Hout Hfuel Hns. rewrite <- (bufReader_data src) in Hsd, Hfuel.
  eapply returns_mono; [apply (opened_reads (NewReaderDict (bufReader src) dict) (bufReader src) dict sd out); try done; by left|].
  intros [rs f] [H1 H2]. split; [done|]. intros Hl. by apply H2.
Qed.
End Buffered.

(** ** Witnesses *)

#[global] Instance pieces_byteReader : byteReader pieces := fun s =>
  match bytesLeft s with
  | [] => (0, Some Bufio.EOF, s)
  | x :: l => (u8 x, None, mkPieces l (atOnce s))
  end.

#[global] Instance pieces_ByteLaws : ByteLaws pieces.
Proof.
  constructor.
  - intros [[|y d] k] x l E; [done|]. cbn in E. injection E as <- <-. by eexists.
  - intros [[|y d] k] E; [|done]. by eexists _, _.
Qed.

(** A stream with matches in the dictionary, which a second one follows. *)
Definition dictSample : list Z := str "abracadabra".
Definition packed : list Z := [75; 68; 48; 117; 20; 144; 56; 10; 137; 121; 41; 10; 185; 249; 69; 169; 80; 65; 0].
Definition plain : list Z := str "abracadabra, abracadabra and more abraca".
Definition packedSource : pieces := mkPieces (packed ++ [1; 2; 3]) 2.
Definition packedEnd : rstate := refRun 60 (refStart (dataOf packedSource) dictSample).

Lemma Flate_Read_refines_witness :
  (r_mode packedEnd = RDone /\ len (r_bits packedEnd) / 8 = 3) /\
  (let! f := NewReaderDict packedSource dictSample in flate_reads 3000 f [30; 0; 30; 1]) ⇓ fun '(rs, f) => delivered plain [30; 0; 30; 1] rs /\
    (lastFails rs -> flate_Close f = None /\ len (dataOf (d_r f)) = len (r_bits packedEnd) / 8).
Proof.
  split; [split; vm_compute; reflexivity|].
  apply (Flate_Read_refines (NewReaderDict packedSource dictSample) packedSource dictSample packedEnd plain 3000 [30; 0; 30; 1]).
  - by left.
  - apply refRun_reaches.
  - vm_compute. reflexivity.
  - vm_compute. reflexivity.
  - change (length (dataOf packedSource)) with 22%nat. lia.
  - repeat constructor; lia.
Defined.

(** The stream without its end. *)
Definition cutSource : pieces := mkPieces (take 12 packed) 2.

Lemma Flate_Read_safe_witness :
  (let! f := NewReaderDict cutSource dictSample in let! '(rs, _) := flate_reads 3000 f [100; 100] in Ok rs) =
    Ok [(str "abracadabra, abracadabra and ", Some ErrUnexpectedEOF); ([], Some ErrUnexpectedEOF)] /\
  (let! f := NewReaderDict cutSource dictSample in flate_reads 3000 f [100; 100]) ⇓ fun '(rs, f) => let start := refStart (dataOf cutSource) dictSample in
    exists s, reaches start s /\ (exists l, r_out s = dictTail dictSample ++ dataRead rs ++ l) /\
    forall b e, (b, Some e) ∈ rs ->
      (e = IoError Bufio.EOF /\ r_mode s = RDone /\ r_out s = dictTail dictSample ++ dataRead rs) \/ (e <> IoError Bufio.EOF /\ malformed start).
Proof.
  split; [vm_compute; reflexivity|].
  apply (Flate_Read_safe (NewReaderDict cutSource dictSample) cutSource dictSample 3000 [100; 100]).
  - by left.
  - change (length (dataOf cutSource)) with 12%nat. lia.
  - repeat constructor; lia.
Defined.

(** Codes of one to fifteen bits: more than a chunk. *)
Definition longCodes : list Z := [15; 1; 2; 3; 4; 5; 6; 7; 8; 9; 10; 11; 12; 13; 14; 15].

Lemma Flate_huffman_tables_witness :
  (let! '(_, h) := huff_init zeroHuff longCodes in lookupChunk h 0x7FFF) = Ok (enc 15 15, 15) /\
  huff_init zeroHuff longCodes ⇓ fun '(ok, h') => ok = validLens longCodes /\ (ok = true -> forall b, 0 <= b ->
    lookupChunk h' b ⇓ fun '(chunk, n) =>
      match symbol longCodes (bitsL 15 b) with
      | Some (i, rest) => chunk = enc i n /\ rest = drop (Z.to_nat n) (bitsL 15 b)
      | None => n = 0
      end).
Proof.
  split; [vm_compute; reflexivity|]. apply (Flate_huffman_tables zeroHuff longCodes).
  - unfold longCodes. repeat constructor; lia.
  - vm_compute. reflexivity.
  - by intros _.
Defined.

Lemma Flate_bufio_refines_witness :
  (let! f := NewReaderDict (bufReader packedSource) dictSample in let! '(rs, _) := flate_reads 3000 f [30; 30] in Ok rs) =
    Ok [(take 30 plain, None); (drop 30 plain, Some (IoError Bufio.EOF))] /\
  (let! f := NewReaderDict (bufReader packedSource) dictSample in flate_reads 3000 f [30; 30]) ⇓ fun '(rs, f) => delivered plain [30; 30] rs /\
    (lastFails rs -> flate_Close f = None).
Proof.
  split; [vm_compute; reflexivity|].
  apply (Flate_bufio_refines packedSource dictSample packedEnd plain 3000 [30; 30]).
  - apply refRun_reaches.
  - vm_compute. reflexivity.
  - vm_compute. reflexivity.
  - change (length (dataOf packedSource)) with 22%nat. lia.
  - repeat constructor; lia.
Defined.
